(* ===== verification/_CoqProject ===== *)
-Q . S2P
Prelude.v
Text.v
Wire.v
Messages.v
Codec.v
Log.v
RaftCore.v
RaftNode.v
RaftTerms.v
RaftSpec.v
RaftInv.v
Cluster.v
Sink.v
RaftRefine.v
RaftSafety.v
Provenance.v
CoreTypes.v
RaftProgress.v
Frame.v
Transport.v
Backfill.v
Crc32c.v
DurableLog.v
DurableState.v
Storage.v
OrdMap.v
KvStore.v
OrderBook.v
ObReference.v
ClientService.v
KvClient.v
SpscRing.v
MpscRing.v
WakeGate.v
NodeRuntime.v
ThreadedCluster.v
EventLoop.v
Linearizability.v
Checkers.v
SimNetwork.v
Histogram.v
SimHarness.v
HarnessSafety.v
HarnessProgress.v
HarnessClients.v
FaultSchedule.v
SimClient.v
Chaos.v
KvLinear.v
ChaosLinear.v
Numerals.v
Json.v
BenchReport.v
PeerConfig.v
Sockets.v
NodeMain.v
LoadGen.v
BenchMonitor.v
BenchTap.v
BenchCluster.v
RsmBench.v
Phase7.v
Cli.v
LogFile.v
AllocGate.v
BenchOutput.v
