(* ===== verification/Prelude.v ===== *)
(** * raft-rsm: a verified model of the replicated state machine

    raft-rsm replicates a deterministic state machine (a key-value store or a
    limit order book) over a cluster with the Raft protocol, and tests itself in
    a deterministic simulation.  This library translates the program into
    executable definitions and proves what makes it correct.  Paths below are
    relative to the repository root.

    ** The parts and how they interact

    A request of a client reaches a node over the transport
    (src/transport), is decoded (src/rpc) and handed to the client service
    (src/client).  The service proposes it to the Raft core (src/raft), which
    appends it to its durable log (src/storage) and replicates it.  Entries known
    to be committed are applied to the state machine (src/statemachine), and the
    service answers the client that waits for them.  Two runtimes own a core: the
    single-threaded event loop (src/raft/event_loop.cpp) and the pipeline of three
    threads (src/runtime).  The simulation (faults/) runs real cores, services
    and state machines over a simulated network, injects faults from a seeded
    schedule, watches five invariants, and checks the history of its clients for
    linearizability.  The programs (node_main, kv_cli, chaos_sim) read a command
    line and wire these parts together; the benchmarks (bench/) run a cluster in
    one process, load it, and report what they measured.

    ** Files

    Shared: [Prelude] (byte, list and integer lemmas, hint databases), [Text]
    (string literals, std::to_string), [OrdMap] (std::map).

    Messages: [Wire] is rpc/wire.h, [Messages] and [Codec] are rpc/messages.cpp,
    [Frame] is transport/frame.cpp, [Transport] is the sending side and the I/O
    loop of transport/transport.cpp, [Sockets] its construction, connections and
    destruction, [PeerConfig] its loadPeerConfig.

    Consensus: [Log] holds the three interfaces below the core as type classes
    (storage/log.h, persistent_state.h, state_machine.h); [RaftCore] is
    raft/raft_core.cpp, one function per method on the record of the object's
    fields, with everything a call does to the outside appended to a trace in
    program order.  [RaftNode], [RaftTerms], [CoreTypes] and [Sink] are about one
    core.  [RaftSpec] and [RaftInv] are the protocol as guarded actions with its
    inductive invariant; [Cluster] puts cores on a network that may lose,
    duplicate, delay and reorder, with crashes inside any call; [RaftRefine] and
    [RaftSafety] carry the invariant to the cores.  [RaftProgress] and [Backfill]
    are about log repair.

    Storage: [Crc32c], [DurableLog], [DurableState] are the files of src/storage;
    [Storage] shows they deliver the crash model of [Cluster]; [LogFile] opens,
    reads and closes the descriptor of the log.

    State machines and clients: [KvStore], [OrderBook], [ObReference] (the second
    matcher of test/ob_reference.h), [ClientService], [KvClient].

    Runtimes: [SpscRing], [MpscRing], [WakeGate], [NodeRuntime],
    [ThreadedCluster], [EventLoop]; [Histogram] is metrics/histogram.h and
    [AllocGate] is metrics/alloc_gate.h.

    Simulation: [SimNetwork], [SimHarness], [Checkers], [FaultSchedule],
    [SimClient], [Chaos], [Linearizability] are the files of faults/ of the same
    names; [HarnessSafety] and [HarnessProgress] hold the theorems on the
    harness.  [Provenance] (where the commands of a log come from),
    [HarnessClients], [KvLinear] and [ChaosLinear] carry the guarantees of
    consensus, service and store to the histories of the simulated clients.

    Programs: [Numerals] (the number conversions of the C and C++ libraries),
    [NodeMain] is runtime/node_main.cpp, [Cli] is runtime/kv_cli_main.cpp and
    faults/chaos_main.cpp.

    Benchmarks: [Json] and [BenchReport] are bench/bench_report.cpp, [LoadGen] is
    bench/load_gen.cpp with bench_util.h, [BenchMonitor], [BenchTap] and
    [BenchCluster] are bench/bench_cluster.cpp (leadership monitor; fault gate,
    stall gate and commit tap; the nodes), [RsmBench] is rsm_bench_main.cpp and
    [Phase7] is phase7_bench.cpp; [BenchOutput] has what they and
    metrics/histogram.cpp print, and puts rsm_bench together.

    ** How code is modelled

    Objects are records, methods are functions on them.  Unsigned integers are
    [N] and std::int64_t is [Z]; wrap-around is written out where the code can
    reach it, and [CoreTypes.widths_kept] shows that the core never leaves its
    widths, deadlines included, as long as commands, log and clock are in range.
    Elections in the last term (2^64 - 1) are left out of [Cluster].  Bytes are [Byte.byte], strings and buffers are byte lists, doubles
    are the Standard Library's SpecFloat at binary64.  Threads are interleaved
    step functions over the shared state, one step per shared access (rings, wake
    gate) or per critical section (runtimes); only inside a cluster
    ([ThreadedCluster]) does an apply thread move no further than the offers of its
    core.  What lies outside the repository -
    the operating system, std::mt19937_64, what a process finds when it opens its
    files - is a parameter; the few facts relied on are named hypotheses, each
    with a concrete instance.  Small private helpers of a C++ function are
    separate definitions over part of that function's lines.

    ** What the theorems show

    - Consensus ([RaftSafety]): every reachable cluster refines the abstract
      protocol; Election Safety, Log Matching, Leader Completeness, State Machine
      Safety, agreement of replicas, application in order, stability of terms and
      votes; the error branches of the core are unreachable; repair of a lagging
      follower progresses ([RaftProgress]) unless its backlog exceeds one frame
      ([Backfill]).
    - Storage: a crash at any byte of an append or before it is synced, one that
      leaves a last record of full size incomplete, and a crash at any step of a save
      leave something the next start reads as a boot state of the cluster model.
      A file that grew before an earlier record reached the disk is refused.
    - Messages: decoding inverts encoding and accepts only canonical encodings;
      frames survive any fragmentation of the stream.
    - State machines: the key-value store executes each request once; the order
      book matches by price and time, keeps its book sound, and agrees with the
      independent reference matcher on every command stream.
    - Client path: an OK answer is the result of the committed request; batching
      changes nothing; a request is noted as pending before its entry can be
      applied; the blocking client's calls end, and send one request under one
      identity.
    - Concurrency: both rings are bounded FIFO queues without races, the wake gate
      loses no wake-up, the threaded pipeline hands each committed entry to the
      state machine exactly once and in order, and replicas still agree.
    - Simulation: the checker decides linearizability; over real cores four
      monitors stay silent and the fifth raises only a characterized false alarm;
      a chaos run on storage that survives restarts ends, its verdict is what the
      end state says, and the history of a key-value run is linearizable
      ([ChaosLinear]).
    - Programs: a command line yields exactly the options that it may; the peer
      file is read back as written; nodes started on empty directories form an
      initial cluster of the consensus theorems ([NodeMain], [BenchCluster],
      [Phase7]), and a restarted node resumes from its disk; the transport and the
      log close every descriptor that they opened ([Sockets], [LogFile]).
    - Benchmarks: the open-loop generator omits no scheduled request and measures
      from the schedule; the lock-free monitor records every transition once, up
      to its capacity; the tap invents no sample and the driver reads complete
      copies; a clean run that exits with 0 had no election in its window among
      those recorded when the driver looked; a report of finite numbers is JSON that reads back as what was measured.  The
      allocation counters are exact ([AllocGate]).

    ** Bounds and fuel

    Loops without a structural measure take fuel, and each has a theorem that the
    fuel supplied is enough: the apply and walk loops of the core are bounded by
    the log's length, matching by the number of resting orders, the
    linearizability search by the number of operations, [replay] by the file's
    length, [call] of the blocking client by the bytes that go out and come in and
    the interruptions, a chaos run by its configured duration, an open load by its
    schedule and the reading of a report by its length.  The loops that wait for a
    cluster ([awaitReady], [failoverTrials]) are bounded by wall-clock time; what
    is shown of them holds for every number of rounds.  Counters that the model
    leaves unbounded (MPSC positions, arrival stamps) are stated with the number
    of operations up to which they are exact.

    ** Not modelled

    Log formatting, usage texts, the texts of exceptions and the progress lines
    of the failover trials; signals, thread start and stop of the transport, and
    process exit; temporary directories and the removal of data directories; the
    size of a data directory; pinning of a thread beyond the choice of its
    processor; unit tests other than the golden-model test.  These do I/O only, or
    have no contract beyond their output. *)

From Stdlib Require Import NArith Strings.Byte Lia.
From stdpp Require Export prelude gmap.

Local Open Scope N_scope.

(** ** Bytes and fixed-width integers

    A [std::uint8_t] is a [byte]; a [std::uint64_t] (and its narrower
    siblings) is an [N] whose wrap-around is written out where the code can
    reach it. *)

#[export] Instance byte_eq_decision : EqDecision byte := Byte.byte_eq_dec.

Definition to_byte (v : N) : byte :=
  match Byte.of_N (v mod 256) with Some b => b | None => x00 end.

Definition two16 : N := 65536.
Definition two32 : N := 4294967296.
Definition two64 : N := 18446744073709551616.

(** [uint64_t] addition and decrement. *)
Definition add64 (a b : N) : N := (a + b) mod two64.
Definition dec64 (a : N) : N := if a =? 0 then two64 - 1 else a - 1.

(** [uint64_t] subtraction. *)
Definition sub64 (a b : N) : N := (a + two64 - b) mod two64.

(** [std::bit_ceil] *)
Definition bit_ceil (n : N) : N := if n <=? 1 then 1 else 2 ^ N.log2_up n.

(** Little-endian split and join, the two loops every codec of the program is
    built from: [b[i] = uint8_t(v >> (8*i))] upwards, [v = (v << 8) | b[i]]
    downwards. *)
Definition le_bytes (n : nat) (v : N) : list byte :=
  (λ i, to_byte (N.shiftr v (8 * N.of_nat i))) <$> seq 0 n.

Definition le_value (bs : list byte) : N :=
  foldr (λ b v, N.lor (N.shiftl v 8) (Byte.to_N b)) 0 bs.

#[global] Arguments le_bytes : simpl never.
#[global] Arguments le_value : simpl never.

(** ** Automation *)

Create HintDb rsm discriminated.
Create Rewrite HintDb rsm_len.

(** Turn the boolean tests of the code into propositions. *)
Ltac breflect :=
  repeat match goal with
  | H : (_ && _)%bool = true |- _ => apply andb_true_iff in H as [? ?]
  | H : (_ || _)%bool = false |- _ => apply orb_false_iff in H as [? ?]
  | H : negb _ = true |- _ => apply negb_true_iff in H
  | H : negb _ = false |- _ => apply negb_false_iff in H
  | H : (_ =? _) = true |- _ => apply N.eqb_eq in H
  | H : (_ =? _) = false |- _ => apply N.eqb_neq in H
  | H : (_ <? _) = true |- _ => apply N.ltb_lt in H
  | H : (_ <? _) = false |- _ => apply N.ltb_ge in H
  | H : (_ <=? _) = true |- _ => apply N.leb_le in H
  | H : (_ <=? _) = false |- _ => apply N.leb_gt in H
  | H : bool_decide _ = true |- _ => apply bool_decide_eq_true in H
  | H : bool_decide _ = false |- _ => apply bool_decide_eq_false in H
  end.

(** Split the innermost conditional of the goal, or of a hypothesis. *)
Ltac split_if :=
  match goal with
  | |- context [if ?b then _ else _] =>
      lazymatch b with
      | context [if _ then _ else _] => fail
      | _ => destruct b eqn:?
      end
  end.

(** ** Bytes *)

Lemma to_N_to_byte (v : N) : Byte.to_N (to_byte v) = v mod 256.
Proof.
  unfold to_byte. pose proof (N.mod_upper_bound v 256 ltac:(lia)).
  destruct (Byte.of_N (v mod 256)) as [b|] eqn:E.
  - by apply Byte.to_of_N.
  - apply Byte.of_N_None_iff in E. lia.
Qed.

Lemma to_N_lt (b : byte) : Byte.to_N b < 256.
Proof. pose proof (Byte.to_N_bounded b). lia. Qed.

Lemma to_N_inj (a b : byte) : Byte.to_N a = Byte.to_N b → a = b.
Proof.
  intros E. pose proof (Byte.of_to_N a). pose proof (Byte.of_to_N b).
  rewrite E in *. congruence.
Qed.

Lemma to_byte_to_N (b : byte) : to_byte (Byte.to_N b) = b.
Proof.
  apply to_N_inj. rewrite to_N_to_byte. apply N.mod_small, to_N_lt.
Qed.

(** ** Little-endian integers *)

Lemma length_le_bytes n v : length (le_bytes n v) = n.
Proof. unfold le_bytes. by rewrite length_fmap, length_seq. Qed.

Lemma le_bytes_S n v : le_bytes (S n) v = to_byte v :: le_bytes n (v / 256).
Proof.
  unfold le_bytes. simpl. f_equal.
  rewrite <-fmap_S_seq, <-list_fmap_compose. apply list_fmap_ext; intros _ i _.
  simpl. f_equal. rewrite !N.shiftr_div_pow2.
  replace (8 * N.of_nat (S i)) with (8 + 8 * N.of_nat i) by lia.
  rewrite N.pow_add_r. change (2 ^ 8) with 256. rewrite N.Div0.div_div. done.
Qed.

Lemma le_value_cons b bs : le_value (b :: bs) = le_value bs * 256 + Byte.to_N b.
Proof.
  unfold le_value. simpl. fold (le_value bs). rewrite N.shiftl_mul_pow2. change (2 ^ 8) with 256.
  pose proof (to_N_lt b) as Hb.
  assert (Hz : N.land (le_value bs * 256) (Byte.to_N b) = 0).
  { apply N.bits_inj. intros k. rewrite N.land_spec, N.bits_0.
    change 256 with (2 ^ 8) in *. destruct (N.ltb_spec k 8).
    - by rewrite N.mul_pow2_bits_low.
    - rewrite (N.bits_above_log2 (Byte.to_N b) k), andb_false_r; [done|].
      destruct (N.eq_dec (Byte.to_N b) 0) as [->|]; [simpl; lia|].
      apply N.log2_lt_pow2; [lia|].
      eapply N.lt_le_trans; [exact Hb|]. by apply N.pow_le_mono_r. }
  by rewrite <-N.lxor_lor, <-N.add_nocarry_lxor by done.
Qed.

Lemma le_value_lt bs : le_value bs < 256 ^ N.of_nat (length bs).
Proof.
  induction bs as [|b bs IH]; [done|].
  rewrite le_value_cons. pose proof (to_N_lt b).
  replace (N.of_nat (length (b :: bs))) with (N.succ (N.of_nat (length bs)))
    by (simpl; lia).
  rewrite N.pow_succ_r'. nia.
Qed.

Lemma le_value_le_bytes n v : le_value (le_bytes n v) = v mod 256 ^ N.of_nat n.
Proof.
  revert v. induction n as [|n IH]; intros v.
  { change (0 = v mod 1). by rewrite N.mod_1_r. }
  rewrite le_bytes_S, le_value_cons, IH, to_N_to_byte.
  replace (N.of_nat (S n)) with (N.succ (N.of_nat n)) by lia.
  rewrite N.pow_succ_r', N.Div0.mod_mul_r. lia.
Qed.

Lemma le_bytes_le_value n bs : length bs = n → le_bytes n (le_value bs) = bs.
Proof.
  revert n. induction bs as [|b bs IH]; intros n <-; [done|].
  simpl length. rewrite le_bytes_S, le_value_cons. pose proof (to_N_lt b). f_equal.
  - apply to_N_inj. rewrite to_N_to_byte.
    rewrite N.add_comm, N.Div0.mod_add. by apply N.mod_small.
  - rewrite N.add_comm, N.div_add, N.div_small by lia. by apply IH.
Qed.

Lemma le_value_le_bytes_small n v :
  v < 256 ^ N.of_nat n → le_value (le_bytes n v) = v.
Proof. intros. rewrite le_value_le_bytes. by apply N.mod_small. Qed.

Lemma le_value_inj bs bs' : length bs = length bs' → le_value bs = le_value bs' → bs = bs'.
Proof.
  intros Hl E. rewrite <-(le_bytes_le_value _ bs eq_refl), E, Hl. by apply le_bytes_le_value.
Qed.

#[export] Hint Rewrite length_le_bytes @length_app @length_take @length_drop @length_fmap
  @length_replicate : rsm_len.

(** ** Lists *)

Lemma filter_all {A} (P : A → Prop) `{!∀ x, Decision (P x)} l :
  Forall P l → filter P l = l.
Proof. induction 1; [done|]. rewrite filter_cons_True by done. by f_equal. Qed.

(** ** 64-bit arithmetic *)

Lemma add64_small a b : a + b < two64 → add64 a b = a + b.
Proof. intros. unfold add64. by apply N.mod_small. Qed.

Lemma dec64_pos a : 0 < a → dec64 a = a - 1.
Proof. intros. unfold dec64. destruct (N.eqb_spec a 0); lia. Qed.

(** ** Rings: counters that wrap, slots that recur *)

(** A wrapping counter stands for a count. *)
Definition stands (x : N) (n : nat) : Prop := x = N.of_nat n mod two64.

Lemma stands_succ x n : stands x n → stands (add64 x 1) (S n).
Proof.
  unfold stands, add64. intros ->. rewrite N.Div0.add_mod_idemp_l. f_equal. lia.
Qed.

Lemma sub64_stands x y n m :
  stands x n → stands y m → (m ≤ n)%nat → N.of_nat (n - m) < two64 →
  sub64 x y = N.of_nat (n - m).
Proof.
  unfold stands, sub64. intros -> -> Hle Hlt. set (d := N.of_nat (n - m)) in *.
  replace (N.of_nat n) with (N.of_nat m + d) by lia.
  pose proof (N.mod_lt (N.of_nat m) two64 ltac:(done)) as Ha.
  rewrite <-(N.Div0.add_mod_idemp_l (N.of_nat m)). set (a := N.of_nat m mod two64) in *.
  destruct (N.lt_ge_cases (a + d) two64) as [H|H].
  - rewrite (N.mod_small (a + d)) by done.
    replace (a + d + two64 - a) with (d + 1 * two64) by lia.
    rewrite N.Div0.mod_add. by apply N.mod_small.
  - replace ((a + d) mod two64) with (a + d - two64).
    + replace (a + d - two64 + two64 - a) with d by lia. by apply N.mod_small.
    + apply N.mod_unique with 1; lia.
Qed.

(** [index & (capacity - 1)] on a wrapped index is the count modulo the capacity. *)
Lemma land_mask x n k (c : nat) :
  stands x n → k ≤ 64 → N.of_nat c = 2 ^ k →
  N.to_nat (N.land x (N.of_nat c - 1)) = (n mod c)%nat.
Proof.
  unfold stands. intros -> Hk Hc.
  assert (N.land (N.of_nat n mod two64) (N.of_nat c - 1) = N.of_nat n mod N.of_nat c) as ->.
  { rewrite Hc. replace (2 ^ k - 1) with (N.ones k) by (rewrite N.ones_equiv; lia).
    change two64 with (2 ^ 64). rewrite <-!N.land_ones.
    apply N.bits_inj. intros i. rewrite !N.land_spec.
    destruct (N.lt_ge_cases i k).
    - by rewrite !N.ones_spec_low, !andb_true_r by lia.
    - by rewrite (N.ones_spec_high k), !andb_false_r by lia. }
  rewrite <-Nat2N.inj_mod, Nat2N.id. done.
Qed.

(** Two counts less than a lap apart use different slots. *)
Lemma mod_window (i j c : nat) : (i < j < i + c)%nat → (i mod c ≠ j mod c)%nat.
Proof.
  intros Hij E. pose proof (Nat.div_mod_eq i c) as Ei. pose proof (Nat.div_mod_eq j c) as Ej.
  rewrite E in Ei. assert (j - i = c * (j / c) - c * (i / c))%nat by lia.
  destruct (Nat.lt_trichotomy (i / c) (j / c)) as [H1|[H1|H1]]; nia.
Qed.

Lemma bit_ceil_pow2 n : 2 ≤ n → n ≤ 2 ^ 62 → ∃ k, 1 ≤ k ≤ 62 ∧ bit_ceil n = 2 ^ k.
Proof.
  intros H2 Hn. unfold bit_ceil. destruct (N.leb_spec n 1); [lia|].
  exists (N.log2_up n). split; [|done]. split.
  - apply (N.log2_up_le_mono 2 n) in H2. done.
  - apply (N.log2_up_le_mono n (2 ^ 62)) in Hn. by rewrite N.log2_up_pow2 in Hn by lia.
Qed.
