(* ===== verification/Text.v ===== *)
(** * std::string literals and std::to_string

    Strings are byte lists; a literal is written with [str], and [to_string] is
    [std::to_string] on unsigned integers. *)

From Stdlib Require Import NArith Strings.Byte Lia.
From Stdlib Require Export (notations) Strings.String.
From S2P Require Import Prelude.

Local Open Scope N_scope.

Definition str (s : String.string) : list byte := String.list_byte_of_string s.
#[global] Arguments str s%_string.

Definition digit (d : N) : byte := to_byte (48 + d).

Fixpoint digits (fuel : nat) (n : N) (acc : list byte) : list byte :=
  match fuel with
  | O => acc
  | S fuel =>
      let acc := digit (n mod 10) :: acc in
      if n <? 10 then acc else digits fuel (n / 10) acc
  end.

(** [log2 n + 1] rounds are enough: each one removes a digit. *)
Definition to_string (n : N) : list byte := digits (S (N.to_nat (N.log2 n))) n [].

(** Reading a decimal back. *)
Definition of_string (s : list byte) : N := foldl (λ v b, v * 10 + (Byte.to_N b - 48)) 0 s.

Lemma to_N_digit d : d < 10 → Byte.to_N (digit d) - 48 = d.
Proof. intros Hd. unfold digit. rewrite to_N_to_byte, N.mod_small; lia. Qed.

Lemma digits_value fuel n acc :
  N.log2 n < N.of_nat fuel →
  ∃ pre, digits fuel n acc = pre ++ acc ∧ pre ≠ [] ∧ of_string pre = n.
Proof.
  revert n acc. induction fuel as [|fuel IH]; intros n acc Hf; [lia|]. cbn [digits].
  pose proof (N.mod_upper_bound n 10 ltac:(done)) as Hm.
  destruct (N.ltb_spec n 10) as [Hn|Hn].
  - exists [digit (n mod 10)]. split_and!; [done..|]. unfold of_string. cbn [foldl].
    rewrite to_N_digit by done. rewrite N.mod_small; lia.
  - assert (Hd : n / 10 < n) by (apply N.div_lt; lia).
    assert (Hl : N.log2 (n / 10) < N.log2 n).
    { apply N.log2_lt_pow2; [apply N.div_str_pos; lia|].
      pose proof (N.log2_spec n ltac:(lia)) as [_ Hup]. rewrite N.pow_succ_r' in Hup.
      apply N.Div0.div_lt_upper_bound. lia. }
    destruct (IH (n / 10) (digit (n mod 10) :: acc)) as (pre & -> & _ & Hv); [lia|].
    exists (pre ++ [digit (n mod 10)]). rewrite <-app_assoc. split_and!; [done|by destruct pre|].
    unfold of_string in *. rewrite foldl_app, Hv. cbn [foldl]. rewrite to_N_digit by done.
    pose proof (N.div_mod n 10 ltac:(done)). lia.
Qed.

Lemma of_to_string n : of_string (to_string n) = n.
Proof.
  unfold to_string. destruct (digits_value (S (N.to_nat (N.log2 n))) n []) as (pre & -> & _ & Hv); [lia|].
  by rewrite app_nil_r.
Qed.

#[export] Instance to_string_inj : Inj (=) (=) to_string.
Proof. intros n m E. by rewrite <-(of_to_string n), <-(of_to_string m), E. Qed.
