(* ===== verification/Wire.v ===== *)
(** * src/rpc/wire.h: the bounds-checked little-endian cursors

    [Writer] and [Reader] are the two cursor classes every codec of the
    program goes through.  The model keeps the sticky [ok_] flag: a write or a
    read past the end turns it off, and every later operation is then a no-op
    that yields zero. *)

From Stdlib Require Import NArith Strings.Byte Lia.
From S2P Require Import Prelude.

Local Open Scope N_scope.

(** ** Writer *)

Record Writer := mkWriter {
  w_out : list byte;   (* out_: the caller's buffer *)
  w_pos : nat;         (* pos_ *)
  w_ok : bool;         (* ok_ *)
}.

Definition Writer_init (out : list byte) : Writer := mkWriter out 0 true.

Definition Writer_put (p : list byte) (w : Writer) : Writer :=
  if negb (w_ok w) || (length (w_out w) - w_pos w <? length p)%nat
  then mkWriter (w_out w) (w_pos w) false
  else mkWriter (list_inserts (w_pos w) p (w_out w)) (w_pos w + length p) (w_ok w).

Definition Writer_u8 (v : N) : Writer → Writer := Writer_put [to_byte v].
Definition Writer_u16 (v : N) : Writer → Writer :=
  Writer_put [to_byte v; to_byte (N.shiftr v 8)].
Definition Writer_u32 (v : N) : Writer → Writer := Writer_put (le_bytes 4 v).
Definition Writer_u64 (v : N) : Writer → Writer := Writer_put (le_bytes 8 v).
Definition Writer_bytes (p : list byte) : Writer → Writer := Writer_put p.

(** ** Reader, as a state monad over the cursor *)

Record Reader := mkReader {
  r_in : list byte;    (* in_ *)
  r_pos : nat;         (* pos_ *)
  r_ok : bool;         (* ok_ *)
}.

Definition Rd (A : Type) : Type := Reader → A * Reader.

#[export] Instance Rd_ret : MRet Rd := λ A a r, (a, r).
#[export] Instance Rd_bind : MBind Rd := λ A B f m r, let '(a, r') := m r in f a r'.

Definition Reader_init (bs : list byte) : Reader := mkReader bs 0 true.

Definition Reader_remaining (r : Reader) : nat := (length (r_in r) - r_pos r)%nat.
Definition Reader_exhausted (r : Reader) : bool :=
  r_ok r && (r_pos r =? length (r_in r))%nat.

Definition Reader_take (n : nat) : Rd (option (list byte)) := λ r,
  if negb (r_ok r) || (Reader_remaining r <? n)%nat
  then (None, mkReader (r_in r) (r_pos r) false)
  else (Some (take n (drop (r_pos r) (r_in r))),
        mkReader (r_in r) (r_pos r + n) (r_ok r)).

Definition Reader_u8 : Rd N :=
  o ← Reader_take 1;
  mret (match o with Some [b] => Byte.to_N b | _ => 0 end).
Definition Reader_u16 : Rd N :=
  o ← Reader_take 2;
  mret (match o with
        | Some [b0; b1] => N.lor (Byte.to_N b0) (N.shiftl (Byte.to_N b1) 8)
        | _ => 0
        end).
Definition Reader_u32 : Rd N :=
  o ← Reader_take 4; mret (match o with Some b => le_value b | None => 0 end).
Definition Reader_u64 : Rd N :=
  o ← Reader_take 8; mret (match o with Some b => le_value b | None => 0 end).

(** [readBytes] assigns the destination; [None] is its [false] return. *)
Definition Reader_readBytes (n : N) : Rd (option (list byte)) := λ r,
  if negb (r_ok r) || (N.of_nat (Reader_remaining r) <? n)
  then (None, mkReader (r_in r) (r_pos r) false)
  else (Some (take (N.to_nat n) (drop (r_pos r) (r_in r))),
        mkReader (r_in r) (r_pos r + N.to_nat n) (r_ok r)).

(** Observing the cursor ([ok()], [remaining()]) without moving it. *)
Definition Reader_asks {A} (f : Reader → A) : Rd A := λ r, (f r, r).

(** [if (!read(r, x)) return false;] - go on with what a fallible read produced. *)
Definition Reader_try {A B} (p : Rd (option A)) (k : A → Rd (option B)) : Rd (option B) :=
  o ← p; match o with Some a => k a | None => mret None end.

Notation "x ←? p ; k" := (Reader_try p (λ x, k))
  (at level 20, p at level 100, k at level 200, only parsing) : stdpp_scope.

(** The predicates the proofs use: the bytes still ahead of the cursor, and a
    cursor that is inside its buffer. *)
Definition rest (r : Reader) : list byte := drop (r_pos r) (r_in r).
Definition rwf (r : Reader) : Prop := (r_pos r ≤ length (r_in r))%nat.

(** A reader operation is monotone when it keeps the cursor inside the same
    buffer and never turns [ok_] back on. *)
Definition rmono {A} (p : Rd A) : Prop := ∀ r a r', p r = (a, r') → rwf r →
  rwf r' ∧ r_in r' = r_in r ∧ (r_ok r' = true → r_ok r = true).

(** [p] reads exactly the values of [dom] off their encoding [enc]. *)
Definition reads {A} (p : Rd A) (enc : A → list byte) (dom : A → Prop) : Prop :=
  (∀ r a tl, rwf r → r_ok r = true → dom a → rest r = enc a ++ tl →
     ∃ r', p r = (a, r') ∧ rwf r' ∧ r_ok r' = true ∧ rest r' = tl) ∧
  (∀ r a r', rwf r → p r = (a, r') → r_ok r' = true →
     dom a ∧ rest r = enc a ++ rest r') ∧
  rmono p.

(** An optional field parser reads exactly the values of [dom] off [enc]. *)
Definition oreads {A} (p : Rd (option A)) (enc : A → list byte) (dom : A → Prop) : Prop :=
  (∀ r a tl, rwf r → r_ok r = true → dom a → rest r = enc a ++ tl →
     ∃ r', p r = (Some a, r') ∧ rwf r' ∧ r_ok r' = true ∧ rest r' = tl) ∧
  (∀ r a r', rwf r → p r = (Some a, r') → r_ok r' = true → dom a ∧ rest r = enc a ++ rest r') ∧
  rmono p.

(** ** Writer lemmas *)

Lemma writer_put_fits w p :
  w_ok w = true → (w_pos w + length p ≤ length (w_out w))%nat →
  Writer_put p w =
    mkWriter (take (w_pos w) (w_out w) ++ p ++ drop (w_pos w + length p) (w_out w))
             (w_pos w + length p) true.
Proof.
  intros Hok Hfit. unfold Writer_put. rewrite Hok. simpl.
  destruct (Nat.ltb_spec (length (w_out w) - w_pos w) (length p)); [lia|].
  f_equal. rewrite <-(take_drop (w_pos w) (w_out w)) at 1.
  replace (w_pos w) with (length (take (w_pos w) (w_out w)) + 0)%nat at 1
    by (rewrite length_take; lia).
  rewrite list_inserts_app_r. f_equal.
  rewrite <-(take_drop (length p) (drop (w_pos w) (w_out w))), drop_drop.
  apply list_inserts_0_r. rewrite length_take, length_drop. lia.
Qed.

(** The abstract view of a writer: the bytes produced so far, and the room the
    caller's buffer leaves. *)
Definition wrote (w : Writer) (bs : list byte) (room : nat) : Prop :=
  w_ok w = true ∧ w_pos w = length bs ∧ take (w_pos w) (w_out w) = bs ∧
  length (w_out w) = (length bs + room)%nat.

Lemma wrote_init out : wrote (Writer_init out) [] (length out).
Proof. by repeat split. Qed.

Lemma wrote_put w bs room p :
  wrote w bs room → (length p ≤ room)%nat →
  wrote (Writer_put p w) (bs ++ p) (room - length p).
Proof.
  intros (Hok & Hpos & Htk & Hlen) Hp.
  rewrite writer_put_fits by (try done; lia). repeat split; simpl.
  - rewrite length_app. lia.
  - rewrite Htk, app_assoc.
    assert (E : (w_pos w + length p)%nat = length (bs ++ p))
      by (rewrite length_app; lia).
    rewrite E. apply take_app_length.
  - rewrite !length_app, length_take, length_drop. lia.
Qed.

Lemma writer_u16_le v : Writer_u16 v = Writer_put (le_bytes 2 v).
Proof. done. Qed.

(** ** Reader lemmas *)

Lemma length_rest r : length (rest r) = Reader_remaining r.
Proof. unfold rest, Reader_remaining. apply length_drop. Qed.

Lemma rest_init bs : rest (Reader_init bs) = bs.
Proof. unfold rest. simpl. by rewrite drop_0. Qed.

Lemma rwf_init bs : rwf (Reader_init bs).
Proof. unfold rwf; simpl; lia. Qed.

Lemma exhausted_iff r :
  rwf r → Reader_exhausted r = true ↔ r_ok r = true ∧ rest r = [].
Proof.
  intros Hwf. unfold Reader_exhausted, rest. rewrite andb_true_iff, Nat.eqb_eq.
  split; intros [? He]; split; try done.
  - rewrite He. apply drop_all.
  - apply (f_equal length) in He. rewrite length_drop in He. unfold rwf in Hwf.
    simpl in He. lia.
Qed.

Lemma rmono_ret {A} (a : A) : rmono (mret a).
Proof. intros r a' r' [= <- <-] ?. done. Qed.

Lemma rmono_bind {A B} (p : Rd A) (f : A → Rd B) :
  rmono p → (∀ a, rmono (f a)) → rmono (p ≫= f).
Proof.
  intros Hp Hf r b r'. unfold mbind, Rd_bind.
  destruct (p r) as [a r1] eqn:E; intros E2 Hwf.
  destruct (Hp _ _ _ E Hwf) as (?&?&?). destruct (Hf a _ _ _ E2) as (?&?&?); [done|].
  split_and!; [done|congruence|auto].
Qed.

Lemma rmono_take n : rmono (Reader_take n).
Proof.
  intros r a r'. unfold Reader_take, Reader_remaining, rwf.
  destruct (r_ok r) eqn:Hok; simpl.
  - destruct (Nat.ltb_spec (length (r_in r) - r_pos r) n); intros [= <- <-] ?; simpl;
      split_and!; try done; lia.
  - intros [= <- <-] ?; simpl; split_and!; try done.
Qed.

Lemma rmono_readBytes n : rmono (Reader_readBytes n).
Proof.
  intros r a r'. unfold Reader_readBytes, Reader_remaining, rwf.
  destruct (r_ok r) eqn:Hok; simpl.
  - destruct (N.ltb_spec (N.of_nat (length (r_in r) - r_pos r)) n); intros [= <- <-] ?;
      simpl; split_and!; try done; lia.
  - intros [= <- <-] ?; simpl; split_and!; try done.
Qed.

Lemma rmono_match {A B} (o : option A) (f : A → Rd B) (g : Rd B) :
  (∀ a, rmono (f a)) → rmono g → rmono (match o with Some a => f a | None => g end).
Proof. by destruct o. Qed.

Lemma rmono_if {A} (b : bool) (p q : Rd A) :
  rmono p → rmono q → rmono (if b then p else q).
Proof. by destruct b. Qed.

Lemma rmono_asks {A} (f : Reader → A) : rmono (Reader_asks f).
Proof. by intros r a r' [= <- <-] ?. Qed.

#[export] Hint Resolve @rmono_ret @rmono_asks @rmono_take @rmono_readBytes @rmono_match
  @rmono_if : rsm.
#[export] Hint Extern 3 (rmono (_ ≫= _)) =>
  apply rmono_bind; [|intros] : rsm.

Lemma take_forward r n bs tl :
  rwf r → r_ok r = true → rest r = bs ++ tl → length bs = n →
  ∃ r', Reader_take n r = (Some bs, r') ∧ rwf r' ∧ r_ok r' = true ∧ rest r' = tl.
Proof.
  intros Hwf Hok Hr <-. unfold Reader_take.
  pose proof (length_rest r) as Hl. rewrite Hr, length_app in Hl.
  rewrite Hok. simpl. destruct (Nat.ltb_spec (Reader_remaining r) (length bs)); [lia|].
  eexists. split; [|split_and!].
  - fold (rest r). rewrite Hr, take_app_length. done.
  - unfold rwf, Reader_remaining in *; simpl; lia.
  - done.
  - unfold rest in *; simpl. by rewrite <-drop_drop, Hr, drop_app_length.
Qed.

Lemma take_backward r n o r' :
  rwf r → Reader_take n r = (o, r') → r_ok r' = true →
  ∃ bs, o = Some bs ∧ length bs = n ∧ rest r = bs ++ rest r'.
Proof.
  intros Hwf. unfold Reader_take, Reader_remaining.
  destruct (r_ok r) eqn:Hok; simpl; [|by intros [= <- <-]].
  destruct (Nat.ltb_spec (length (r_in r) - r_pos r) n); intros [= <- <-] ?; [done|].
  eexists. split_and!; [done| |].
  - rewrite length_take, length_drop. lia.
  - unfold rest; simpl. by rewrite <-drop_drop, take_drop.
Qed.

(** Every fixed-width read is a [take] followed by a bijective view. *)
Lemma reads_fixed n (f : option (list byte) → N) :
  (∀ bs, length bs = n → f (Some bs) = le_value bs) →
  reads (o ← Reader_take n; mret (f o)) (le_bytes n) (λ v, v < 256 ^ N.of_nat n).
Proof.
  intros Hf. split_and!.
  - intros r v tl Hwf Hok Hv Hr.
    destruct (take_forward r n (le_bytes n v) tl) as (r' & E & ?&?&?);
      [done..|apply length_le_bytes|].
    exists r'. unfold mbind, Rd_bind. rewrite E. split_and!; try done.
    unfold mret, Rd_ret. rewrite Hf by apply length_le_bytes.
    by rewrite le_value_le_bytes_small.
  - intros r v r' Hwf. unfold mbind, Rd_bind.
    destruct (Reader_take n r) as [o r1] eqn:E. intros [= <- <-] Hok.
    destruct (take_backward _ _ _ _ Hwf E Hok) as (bs & -> & Hn & ->).
    rewrite Hf by done. split.
    + rewrite <-Hn. apply le_value_lt.
    + by rewrite le_bytes_le_value.
  - eauto with rsm.
Qed.

Lemma reads_u8 : reads Reader_u8 (le_bytes 1) (λ v, v < 256).
Proof.
  apply (reads_fixed 1). by intros [|b [|]] ?.
Qed.

Lemma reads_u16 : reads Reader_u16 (le_bytes 2) (λ v, v < two16).
Proof.
  apply (reads_fixed 2). intros [|b0 [|b1 [|]]] ?; try done.
  unfold le_value; simpl. by rewrite N.lor_comm.
Qed.

Lemma reads_u32 : reads Reader_u32 (le_bytes 4) (λ v, v < two32).
Proof. by apply (reads_fixed 4). Qed.

Lemma reads_u64 : reads Reader_u64 (le_bytes 8) (λ v, v < two64).
Proof. by apply (reads_fixed 8). Qed.

Lemma rmono_u8 : rmono Reader_u8. Proof. apply reads_u8. Qed.
Lemma rmono_u16 : rmono Reader_u16. Proof. apply reads_u16. Qed.
Lemma rmono_u32 : rmono Reader_u32. Proof. apply reads_u32. Qed.
Lemma rmono_u64 : rmono Reader_u64. Proof. apply reads_u64. Qed.
#[export] Hint Resolve rmono_u8 rmono_u16 rmono_u32 rmono_u64 : rsm.

Lemma readBytes_forward r bs tl :
  rwf r → r_ok r = true → rest r = bs ++ tl →
  ∃ r', Reader_readBytes (N.of_nat (length bs)) r = (Some bs, r') ∧
        rwf r' ∧ r_ok r' = true ∧ rest r' = tl.
Proof.
  intros Hwf Hok Hr. unfold Reader_readBytes.
  pose proof (length_rest r) as Hl. rewrite Hr, length_app in Hl. rewrite Hok. simpl.
  destruct (N.ltb_spec (N.of_nat (Reader_remaining r)) (N.of_nat (length bs))); [lia|].
  rewrite Nat2N.id. eexists. split; [|split_and!].
  - fold (rest r). rewrite Hr, take_app_length. done.
  - unfold rwf, Reader_remaining in *; simpl; lia.
  - done.
  - unfold rest in *; simpl. by rewrite <-drop_drop, Hr, drop_app_length.
Qed.

Lemma readBytes_backward r n o r' :
  rwf r → Reader_readBytes n r = (o, r') → r_ok r' = true →
  ∃ bs, o = Some bs ∧ N.of_nat (length bs) = n ∧ rest r = bs ++ rest r'.
Proof.
  intros Hwf. unfold Reader_readBytes, Reader_remaining.
  destruct (r_ok r) eqn:Hok; simpl; [|by intros [= <- <-]].
  destruct (N.ltb_spec (N.of_nat (length (r_in r) - r_pos r)) n);
    intros [= <- <-] ?; [done|].
  eexists. split_and!; [done| |].
  - rewrite length_take, length_drop. lia.
  - unfold rest; simpl. by rewrite <-drop_drop, take_drop.
Qed.

(** Running a parser through [bind], in both directions. *)
Lemma bind_forward {A B} (p : Rd A) enc dom (k : A → Rd B) r a tl :
  reads p enc dom → rwf r → r_ok r = true → rest r = enc a ++ tl → dom a →
  ∃ r', (p ≫= k) r = k a r' ∧ rwf r' ∧ r_ok r' = true ∧ rest r' = tl.
Proof.
  intros (Hf & _ & _) Hwf Hok Hr Hd.
  destruct (Hf r a tl) as (r' & E & ?&?&?); [done..|].
  exists r'. unfold mbind, Rd_bind. by rewrite E.
Qed.

Lemma bind_backward {A B} (p : Rd A) enc dom (k : A → Rd B) r b r' :
  reads p enc dom → (∀ a, rmono (k a)) →
  rwf r → (p ≫= k) r = (b, r') → r_ok r' = true →
  ∃ a r1, dom a ∧ rest r = enc a ++ rest r1 ∧ rwf r1 ∧ r_ok r1 = true ∧
          k a r1 = (b, r').
Proof.
  intros (_ & Hb & Hm) Hk Hwf. unfold mbind, Rd_bind.
  destruct (p r) as [a r1] eqn:E. intros Ek Hok'.
  destruct (Hm _ _ _ E Hwf) as (Hwf1 & _ & _).
  destruct (Hk a _ _ _ Ek Hwf1) as (_ & _ & Hok1).
  destruct (Hb r a r1) as (?&?); [done..|auto|]. exists a, r1. split_and!; auto.
Qed.

Lemma bind_asks {A B} (f : Reader → A) (k : A → Rd B) r :
  (Reader_asks f ≫= k) r = k (f r) r.
Proof. done. Qed.

(** Consume the next field of a successful forward run. *)
Ltac rd_forward L :=
  let r' := fresh "r" in let E := fresh "E" in
  let Hwf := fresh "Hwf" in let Hok := fresh "Hok" in let Hr := fresh "Hr" in
  match goal with
  | Hw : rwf ?r, Ho : r_ok ?r = true, Hrest : rest ?r = _ |- _ =>
      match goal with
      | |- context [@mbind Rd _ _ _ ?k ?p r] =>
          destruct (bind_forward p _ _ k r _ _ L Hw Ho Hrest)
            as (r' & E & Hwf & Hok & Hr);
          [| rewrite E; clear E Hw Ho Hrest]
      end
  end.

(** Split the first field off a successful run [E], whose final cursor is
    still good by [Hok]. *)
Ltac rd_backward L E Hok v r1 Hv Hr Hwf1 Hok1 :=
  lazymatch type of E with
  | @mbind Rd _ _ _ ?k ?p ?r = _ =>
      match goal with
      | Hw : rwf r |- _ =>
          let E0 := fresh in
          destruct (bind_backward p _ _ k r _ _ L
                      ltac:(intros; cbv beta; solve [eauto 30 with rsm]) Hw E Hok)
            as (v & r1 & Hv & Hr & Hwf1 & Hok1 & E0); clear E; rename E0 into E; cbv beta in E
      end
  end.

(** The [ok()] tests of a run whose cursor is known to be good. *)
Ltac rd_ok :=
  rewrite ?bind_asks; cbv beta;
  repeat match goal with H : r_ok ?r = true |- context [r_ok ?r] => rewrite H end;
  cbn [negb orb].

(** Execute one read whatever its outcome; what it read is known once the
    cursor turns out to be good. *)
Lemma reads_step {A B} (p : Rd A) enc dom (k : A → Rd B) r :
  reads p enc dom → rwf r →
  ∃ v r1, (p ≫= k) r = k v r1 ∧ rwf r1 ∧
    (r_ok r1 = true → r_ok r = true ∧ dom v ∧ rest r = enc v ++ rest r1).
Proof.
  intros (_ & Hb & Hm) Hwf. unfold mbind, Rd_bind.
  destruct (p r) as [v r1] eqn:E. exists v, r1.
  destruct (Hm _ _ _ E Hwf) as (? & _ & ?). split_and!; [done|done|].
  intros Hok. destruct (Hb _ _ _ Hwf E Hok). auto.
Qed.

Ltac rd_step L E v r1 :=
  lazymatch type of E with
  | @mbind Rd _ _ _ ?k ?p ?r = _ =>
      match goal with
      | Hw : rwf r |- _ =>
          let E0 := fresh in let Hwf := fresh "Hwf" in let Hs := fresh "Hs" in
          destruct (reads_step p _ _ k r L Hw) as (v & r1 & E0 & Hwf & Hs);
          rewrite E0 in E; clear E0; cbv beta in E
      end
  end.

(** ** Fallible reads *)

Lemma rmono_try {A B} (p : Rd (option A)) (k : A → Rd (option B)) :
  rmono p → (∀ a, rmono (k a)) → rmono (Reader_try p k).
Proof.
  intros Hp Hk. apply rmono_bind; [done|]. intros [a|]; [apply Hk|apply rmono_ret].
Qed.
#[export] Hint Extern 3 (rmono (Reader_try _ _)) => apply rmono_try; [|intros] : rsm.

Lemma oreads_ret {A} (a : A) : oreads (mret (Some a)) (λ _, []) (λ b, b = a).
Proof.
  split_and!.
  - intros r b tl ? ? -> Hr. by exists r.
  - by intros r b r' ? [= -> ->] ?.
  - apply rmono_ret.
Qed.

Lemma try_forward {A B} (p : Rd (option A)) enc dom (k : A → Rd (option B)) r a tl :
  oreads p enc dom → rwf r → r_ok r = true → rest r = enc a ++ tl → dom a →
  ∃ r', Reader_try p k r = k a r' ∧ rwf r' ∧ r_ok r' = true ∧ rest r' = tl.
Proof.
  intros (Hf & _ & _) Hwf Hok Hr Hd. destruct (Hf r a tl) as (r' & E & ?&?&?); [done..|].
  exists r'. unfold Reader_try, mbind, Rd_bind. by rewrite E.
Qed.

Lemma try_backward {A B} (p : Rd (option A)) enc dom (k : A → Rd (option B)) r b r' :
  oreads p enc dom → (∀ a, rmono (k a)) → rwf r →
  Reader_try p k r = (Some b, r') → r_ok r' = true →
  ∃ a r1, dom a ∧ rest r = enc a ++ rest r1 ∧ rwf r1 ∧ r_ok r1 = true ∧ k a r1 = (Some b, r').
Proof.
  intros (_ & Hb & Hm) Hk Hwf. unfold Reader_try, mbind, Rd_bind.
  destruct (p r) as [[a|] r1] eqn:E; [|done]. intros Ek Hok'.
  destruct (Hm _ _ _ E Hwf) as (Hwf1 & _ & _).
  destruct (Hk a _ _ _ Ek Hwf1) as (_ & _ & Hok1).
  destruct (Hb r a r1) as (?&?); [done..|auto|]. exists a, r1. split_and!; auto.
Qed.

(** As [rd_forward] and [rd_backward], for a fallible read. *)
Ltac try_fwd L :=
  let r' := fresh "r" in let E := fresh "E" in
  let Hwf := fresh "Hwf" in let Hok := fresh "Hok" in let Hr := fresh "Hr" in
  match goal with
  | Hw : rwf ?r, Ho : r_ok ?r = true, Hrest : rest ?r = _ |- context [Reader_try ?p ?k ?r] =>
      destruct (try_forward p _ _ k r _ _ L Hw Ho Hrest) as (r' & E & Hwf & Hok & Hr);
      [| rewrite E; clear E Hw Ho Hrest]
  end.

Ltac try_bwd L E Hok v r1 Hv Hr Hwf1 Hok1 :=
  lazymatch type of E with
  | Reader_try ?p ?k ?r = _ =>
      match goal with
      | Hw : rwf r |- _ =>
          let E0 := fresh in
          destruct (try_backward p _ _ k r _ _ L
                      ltac:(intros; cbv beta; solve [eauto 30 with rsm]) Hw E Hok)
            as (v & r1 & Hv & Hr & Hwf1 & Hok1 & E0); clear E; rename E0 into E; cbv beta in E
      end
  end.

(** Parsers that succeed only at the end of their input. *)
Definition ends {A} (p : Rd (option A)) : Prop :=
  ∀ r a r', p r = (Some a, r') → Reader_exhausted r' = true.

Lemma ends_none {A} : ends (mret (None : option A)).
Proof. by intros r a r' [= ]. Qed.

Lemma ends_bind {A B} (p : Rd A) (k : A → Rd (option B)) : (∀ a, ends (k a)) → ends (p ≫= k).
Proof. intros Hk r b r'. unfold mbind, Rd_bind. destruct (p r). apply Hk. Qed.

Lemma ends_try {A B} (p : Rd (option A)) (k : A → Rd (option B)) :
  (∀ a, ends (k a)) → ends (Reader_try p k).
Proof. intros Hk. apply ends_bind. intros [a|]; [apply Hk|apply ends_none]. Qed.

Lemma ends_if {A} (b : bool) (p q : Rd (option A)) : ends p → ends q → ends (if b then p else q).
Proof. by destruct b. Qed.

Lemma ends_match {A B} (o : option A) (p : A → Rd (option B)) q :
  (∀ a, ends (p a)) → ends q → ends (match o with Some a => p a | None => q end).
Proof. by destruct o. Qed.

Lemma ends_exhausted {A} (a : A) :
  ends (e ← Reader_asks Reader_exhausted; if negb e then mret None else mret (Some a)).
Proof.
  intros r b r'. rewrite bind_asks. destruct (Reader_exhausted r) eqn:E; [|done].
  by intros [= _ <-].
Qed.

#[export] Hint Resolve @ends_none @ends_exhausted @ends_if @ends_match : rsm.
#[export] Hint Extern 3 (ends (Reader_try _ _)) => apply ends_try; intros : rsm.
#[export] Hint Extern 4 (ends (_ ≫= _)) => apply ends_bind; intros : rsm.
