(* ===== verification/Codec.v ===== *)
(** * Correctness of the message codec (src/rpc/messages.cpp)

    [enc_message] is the byte layout as a plain function.  The encoder is shown
    to write exactly it, and the decoder to accept exactly it. *)

From Stdlib Require Import NArith Strings.Byte Lia.
From S2P Require Import Prelude Wire Messages.

Local Open Scope N_scope.

(** ** The layout *)

Definition enc_bool (b : bool) : list byte := le_bytes 1 (if b then 1 else 0).
Definition enc_blob (bs : list byte) : list byte :=
  le_bytes 4 (N.of_nat (length bs)) ++ bs.
Definition enc_entry (e : LogEntry) : list byte :=
  le_bytes 8 (e_term e) ++ enc_blob (e_command e).

Definition enc_payload (m : Message) : list byte :=
  match m with
  | MRequestVote v =>
      le_bytes 8 (rv_term v) ++ le_bytes 2 (rv_candidateId v) ++
      le_bytes 8 (rv_lastLogIndex v) ++ le_bytes 8 (rv_lastLogTerm v)
  | MRequestVoteReply v => le_bytes 8 (rvr_term v) ++ enc_bool (rvr_voteGranted v)
  | MAppendEntries v =>
      le_bytes 8 (ae_term v) ++ le_bytes 2 (ae_leaderId v) ++
      le_bytes 8 (ae_prevLogIndex v) ++ le_bytes 8 (ae_prevLogTerm v) ++
      le_bytes 8 (ae_leaderCommit v) ++
      le_bytes 4 (N.of_nat (length (ae_entries v))) ++
      (ae_entries v ≫= enc_entry)
  | MAppendEntriesReply v =>
      le_bytes 8 (aer_term v) ++ enc_bool (aer_success v) ++
      le_bytes 8 (aer_conflictIndex v) ++ le_bytes 8 (aer_conflictTerm v)
  | MClientRequest v =>
      le_bytes 8 (cr_clientId v) ++ le_bytes 8 (cr_seqNo v) ++ enc_blob (cr_command v)
  | MClientReply v =>
      le_bytes 1 (ClientStatus_val (crp_status v)) ++
      le_bytes 2 (crp_leaderHint v) ++ enc_blob (crp_result v)
  end.

Definition enc_envelope (e : Envelope) : list byte :=
  le_bytes 1 (env_version e) ++ le_bytes 1 (MessageType_val (env_type e)) ++
  le_bytes 2 (env_from e) ++ le_bytes 2 (env_to e) ++ le_bytes 2 0 ++
  le_bytes 4 (env_payloadLength e).

Definition envelope_for (from to : NodeId) (m : Message) : Envelope :=
  mkEnvelope kProtocolVersion (typeOf m) from to (N.of_nat (payloadSize m)).

Definition enc_message (from to : NodeId) (m : Message) : list byte :=
  enc_envelope (envelope_for from to m) ++ enc_payload m.

(** Field ranges of the C++ types. *)
Definition blob_ok (bs : list byte) : Prop := N.of_nat (length bs) < two32.
Definition entry_ok (e : LogEntry) : Prop :=
  e_term e < two64 ∧ blob_ok (e_command e).

Definition message_ok (m : Message) : Prop :=
  match m with
  | MRequestVote v =>
      rv_term v < two64 ∧ rv_candidateId v < two16 ∧
      rv_lastLogIndex v < two64 ∧ rv_lastLogTerm v < two64
  | MRequestVoteReply v => rvr_term v < two64
  | MAppendEntries v =>
      ae_term v < two64 ∧ ae_leaderId v < two16 ∧ ae_prevLogIndex v < two64 ∧
      ae_prevLogTerm v < two64 ∧ ae_leaderCommit v < two64 ∧
      Forall entry_ok (ae_entries v)
  | MAppendEntriesReply v =>
      aer_term v < two64 ∧ aer_conflictIndex v < two64 ∧ aer_conflictTerm v < two64
  | MClientRequest v =>
      cr_clientId v < two64 ∧ cr_seqNo v < two64 ∧ blob_ok (cr_command v)
  | MClientReply v => crp_leaderHint v < two16 ∧ blob_ok (crp_result v)
  end.

(** ** Encoder *)

(** [f] appends exactly [bs] to any writer with room for it. *)
Definition writes (f : Writer → Writer) (bs : list byte) : Prop :=
  ∀ w acc room, wrote w acc room → (length bs ≤ room)%nat →
  wrote (f w) (acc ++ bs) (room - length bs).

Lemma writes_put bs : writes (Writer_put bs) bs.
Proof. intros w acc room. apply wrote_put. Qed.

Lemma writes_comp f g a b : writes f a → writes g b → writes (λ w, g (f w)) (a ++ b).
Proof.
  intros Hf Hg w acc room Hw Hl. rewrite length_app in *.
  replace (room - (length a + length b))%nat with (room - length a - length b)%nat by lia.
  rewrite app_assoc. apply Hg; [apply Hf|]; [done|lia|lia].
Qed.

Lemma writes_u8 v : writes (Writer_u8 v) (le_bytes 1 v).
Proof. apply writes_put. Qed.
Lemma writes_u16 v : writes (Writer_u16 v) (le_bytes 2 v).
Proof. rewrite writer_u16_le. apply writes_put. Qed.
Lemma writes_u32 v : writes (Writer_u32 v) (le_bytes 4 v).
Proof. apply writes_put. Qed.
Lemma writes_u64 v : writes (Writer_u64 v) (le_bytes 8 v).
Proof. apply writes_put. Qed.
Lemma writes_bytes bs : writes (Writer_bytes bs) bs.
Proof. apply writes_put. Qed.

#[local] Hint Resolve writes_u8 writes_u16 writes_u32 writes_u64 writes_bytes : rsm.
#[local] Hint Opaque Writer_u8 Writer_u16 Writer_u32 Writer_u64 Writer_bytes : rsm.

(** Run the next writer call of the goal forward. *)
Ltac write_next :=
  match goal with
  | H : wrote ?w ?acc ?room |- context [?op ?w] =>
      let bs := open_constr:(_) in
      let W := fresh "W" in
      assert (W : writes op bs) by (solve [eauto with rsm]);
      let H' := fresh "H" in
      assert (H' := W w acc room H ltac:(autorewrite with rsm_len in *; lia));
      clear W H; generalize dependent (op w); intros ? ?
  end.

(** Execute a straight-line encoder and compare it with its layout. *)
Ltac write_all :=
  let w := fresh "w" in let acc := fresh "acc" in let room := fresh "room" in
  let Hw := fresh "Hw" in let Hl := fresh "Hl" in
  intros w acc room Hw Hl; repeat write_next;
  match goal with
  | H : wrote ?w ?a ?r |- wrote ?w ?a' ?r' =>
      replace a' with a by (rewrite <-?app_assoc; done);
      replace r' with r by (autorewrite with rsm_len in *; lia);
      exact H
  end.

Lemma writes_entry e : writes (λ w, encodeLogEntry w e) (enc_entry e).
Proof.
  unfold encodeLogEntry, enc_entry, enc_blob. write_all.
Qed.

Lemma writes_entries es : writes (λ w, foldl encodeLogEntry w es) (es ≫= enc_entry).
Proof.
  induction es as [|e es IH].
  - intros w acc room Hw _. simpl. by rewrite app_nil_r, Nat.sub_0_r.
  - exact (writes_comp (λ w, encodeLogEntry w e) (λ w, foldl encodeLogEntry w es)
             _ _ (writes_entry e) IH).
Qed.

Lemma writes_payload m : writes (encodePayload m) (enc_payload m).
Proof.
  destruct m; unfold encodePayload, enc_payload,
      encodeRequestVote, encodeRequestVoteReply, encodeAppendEntries,
      encodeAppendEntriesReply, encodeClientRequest, encodeClientReply, enc_blob, enc_bool;
    try write_all.
  assert (Hpre : writes
    (λ w, Writer_u32 (N.of_nat (length (ae_entries m)))
      (Writer_u64 (ae_leaderCommit m) (Writer_u64 (ae_prevLogTerm m)
      (Writer_u64 (ae_prevLogIndex m) (Writer_u16 (ae_leaderId m)
      (Writer_u64 (ae_term m) w))))))
    (le_bytes 8 (ae_term m) ++ le_bytes 2 (ae_leaderId m) ++
     le_bytes 8 (ae_prevLogIndex m) ++ le_bytes 8 (ae_prevLogTerm m) ++
     le_bytes 8 (ae_leaderCommit m) ++ le_bytes 4 (N.of_nat (length (ae_entries m)))))
    by write_all.
  pose proof (writes_comp _ _ _ _ Hpre (writes_entries (ae_entries m))) as H.
  by rewrite <-!app_assoc in H.
Qed.

Lemma writes_envelope e : writes (encodeEnvelope e) (enc_envelope e).
Proof. unfold encodeEnvelope, enc_envelope. write_all. Qed.

Lemma length_entries_acc es n :
  (foldl (λ n e, n + (8 + 4 + length (e_command e))) n es =
    n + length (es ≫= enc_entry))%nat.
Proof.
  revert n. induction es as [|e es IH]; intros n; [done|].
  rewrite bind_cons, length_app. cbn [foldl]. rewrite IH.
  unfold enc_entry, enc_blob. autorewrite with rsm_len. lia.
Qed.

Lemma payloadSize_length m : payloadSize m = length (enc_payload m).
Proof.
  destruct m; unfold payloadSize, enc_payload, enc_blob, enc_bool; rewrite ?length_entries_acc;
    autorewrite with rsm_len; lia.
Qed.

Lemma length_enc_envelope e : length (enc_envelope e) = kEnvelopeSize.
Proof. unfold enc_envelope. by autorewrite with rsm_len. Qed.

Lemma length_enc_message from to m : length (enc_message from to m) = encodedSize m.
Proof.
  unfold enc_message, encodedSize.
  by rewrite length_app, length_enc_envelope, payloadSize_length.
Qed.

(** The encoder fills a prefix of the buffer with the layout and leaves the
    rest of the caller's bytes alone. *)
Lemma encode_fits from to m out :
  N.of_nat (payloadSize m) ≤ kMaxPayloadSize →
  (encodedSize m ≤ length out)%nat →
  ∃ out', encodeMessage from to m out = (encodedSize m, out') ∧
    length out' = length out ∧ take (encodedSize m) out' = enc_message from to m.
Proof.
  intros Hp Hl. unfold encodeMessage.
  destruct (N.ltb_spec kMaxPayloadSize (N.of_nat (payloadSize m))); [lia|].
  destruct (Nat.ltb_spec (length out) (kEnvelopeSize + payloadSize m));
    [unfold encodedSize in *; lia|]. cbn [orb].
  fold (envelope_for from to m).
  pose proof (wrote_init out) as H1.
  assert (H3 := writes_envelope (envelope_for from to m) _ _ _ H1
    ltac:(rewrite length_enc_envelope; unfold encodedSize in *; lia)).
  assert (H4 := writes_payload m _ _ _ H3
    ltac:(rewrite length_enc_envelope, <-payloadSize_length; unfold encodedSize in *; lia)).
  set (w := encodePayload m _) in *.
  destruct H4 as (-> & Hpos & Htk & Hlen). rewrite Hpos in *.
  change ([] ++ ?x) with x in *. fold (enc_message from to m) in *.
  rewrite length_enc_message in *. exists (w_out w). split_and!; try done.
  rewrite Hlen, length_enc_envelope, <-payloadSize_length. unfold encodedSize in *. lia.
Qed.

(** ** Decoder *)

(** A decoder with an in-out destination: whatever the destination held, it
    succeeds exactly on the encodings of [dom], with the encoded value. *)
Definition decodes {A} (p : A → Rd (bool * A)) (enc : A → list byte)
    (dom : A → Prop) : Prop :=
  (∀ old r a tl, rwf r → r_ok r = true → dom a → rest r = enc a ++ tl →
     ∃ r', p old r = ((true, a), r') ∧ rwf r' ∧ r_ok r' = true ∧ rest r' = tl) ∧
  (∀ old r a r', rwf r → p old r = ((true, a), r') →
     r_ok r' = true ∧ rwf r' ∧ dom a ∧ rest r = enc a ++ rest r') ∧
  (∀ old, rmono (p old)).

Lemma rmono_pair {A B C} (f : A * B → Rd C) :
  (∀ a b, rmono (f (a, b))) → ∀ p, rmono (f p).
Proof. intros H [a b]. apply H. Qed.
#[local] Hint Extern 4 (rmono (match ?p with (_, _) => _ end)) => destruct p : rsm.

Lemma rmono_decodeBool d : rmono (decodeBool d).
Proof. unfold decodeBool. eauto 10 with rsm. Qed.
Lemma rmono_decodeBlob d : rmono (decodeBlob d).
Proof. unfold decodeBlob. eauto 10 with rsm. Qed.
#[local] Hint Resolve rmono_decodeBool rmono_decodeBlob : rsm.

Lemma decodes_bool : decodes decodeBool enc_bool (λ _, True).
Proof.
  split_and!; [| |apply rmono_decodeBool].
  - intros old r b tl Hwf Hok _ Hr. unfold decodeBool, enc_bool in *.
    rd_forward reads_u8; [by destruct b|]. rewrite bind_asks, Hok0. simpl.
    eexists. split_and!; [|done..]. by destruct b.
  - intros old r b r' Hwf E. unfold decodeBool in E.
    assert (Hok' : r_ok r' = true).
    { unfold mbind, Rd_bind, Reader_asks in E. destruct (Reader_u8 r) as [v r1].
      unfold mret, Rd_ret in E. destruct (r_ok r1) eqn:?, (1 <? v); by simplify_eq/=. }
    rd_backward reads_u8 E Hok' v r1 Hv Hr Hwf1 Hok1.
    rewrite bind_asks, Hok1 in E. unfold mret, Rd_ret in E. simpl in E.
    destruct (N.ltb_spec 1 v); simplify_eq. split_and!; try done.
    rewrite Hr. unfold enc_bool. repeat f_equal. destruct (N.eqb_spec v 1); lia.
Qed.

Lemma decodes_blob : decodes decodeBlob enc_blob blob_ok.
Proof.
  split_and!; [| |apply rmono_decodeBlob].
  - intros old r b tl Hwf Hok Hb Hr. unfold decodeBlob, enc_blob, blob_ok in *.
    rewrite <-app_assoc in Hr. rd_forward reads_u32; [done|].
    rewrite !bind_asks, Hok0. pose proof (length_rest r0) as Hl.
    rewrite Hr0, length_app in Hl. simpl.
    destruct (N.ltb_spec (N.of_nat (Reader_remaining r0)) (N.of_nat (length b))); [lia|].
    destruct (readBytes_forward r0 b tl) as (r' & E & ?&?&?); [done..|].
    exists r'. unfold mbind, Rd_bind. rewrite E. done.
  - intros old r b r' Hwf E. unfold decodeBlob in E.
    assert (Hok' : r_ok r' = true).
    { unfold mbind, Rd_bind, Reader_asks, mret, Rd_ret in E.
      destruct (Reader_u32 r) as [v r1]. destruct (negb _ || _) eqn:Hc; [done|].
      unfold Reader_readBytes in E. destruct (r_ok r1) eqn:?; [|done]. simpl in *.
      rewrite Hc in E. by simplify_eq/=. }
    rd_backward reads_u32 E Hok' v r1 Hv Hr Hwf1 Hok1.
    rewrite !bind_asks, Hok1 in E. simpl in E.
    destruct (N.ltb_spec (N.of_nat (Reader_remaining r1)) v); [done|].
    unfold mbind, Rd_bind, mret, Rd_ret in E.
    destruct (Reader_readBytes v r1) as [o r2] eqn:E2.
    assert (r2 = r') as -> by (by simplify_eq).
    destruct (readBytes_backward _ _ _ _ Hwf1 E2 Hok') as (bs & -> & Hlen & Hr2).
    destruct (rmono_readBytes _ _ _ _ E2 Hwf1) as (? & _ & _). simplify_eq.
    split_and!; [done..|].
    unfold enc_blob. by rewrite Hr, Hr2, app_assoc.
Qed.

(** Decoders compose like the fixed-width reads. *)
Lemma dbind_forward {A B} (p : A → Rd (bool * A)) enc dom old (k : bool * A → Rd B) r a tl :
  decodes p enc dom → rwf r → r_ok r = true → rest r = enc a ++ tl → dom a →
  ∃ r', (p old ≫= k) r = k (true, a) r' ∧ rwf r' ∧ r_ok r' = true ∧ rest r' = tl.
Proof.
  intros (Hf & _ & _) Hwf Hok Hr Hd.
  destruct (Hf old r a tl) as (r' & E & ?&?&?); [done..|].
  exists r'. unfold mbind, Rd_bind. by rewrite E.
Qed.

Ltac rd_dforward L :=
  let r' := fresh "r" in let E := fresh "E" in
  let Hwf := fresh "Hwf" in let Hok := fresh "Hok" in let Hr := fresh "Hr" in
  match goal with
  | Hw : rwf ?r, Ho : r_ok ?r = true, Hrest : rest ?r = _ |- _ =>
      match goal with
      | |- context [@mbind Rd _ _ _ ?k (?p ?old) r] =>
          destruct (dbind_forward p _ _ old k r _ _ L Hw Ho Hrest)
            as (r' & E & Hwf & Hok & Hr);
          [| rewrite E; clear E Hw Ho Hrest]
      end
  end.

Lemma dbind_backward {A B} (p : A → Rd (bool * A)) enc dom old
    (k : bool * A → Rd B) r b r' :
  decodes p enc dom → rwf r → (p old ≫= k) r = (b, r') →
  (∃ a r1, dom a ∧ rest r = enc a ++ rest r1 ∧ rwf r1 ∧ r_ok r1 = true ∧
           k (true, a) r1 = (b, r')) ∨
  (∃ a r1, k (false, a) r1 = (b, r')).
Proof.
  intros (_ & Hb & Hm) Hwf. unfold mbind, Rd_bind.
  destruct (p old r) as [[g a] r1] eqn:E. intros Ek.
  destruct g; [left|right; eauto].
  destruct (Hb _ _ _ _ Hwf E) as (?&?&?&?). exists a, r1. split_and!; auto.
Qed.

(** A decoder that reports success leaves a good cursor. *)
Definition rgood {A} (p : Rd (bool * A)) : Prop :=
  ∀ r a r', rwf r → p r = ((true, a), r') → r_ok r' = true.

Lemma rgood_bind {A B} (p : Rd A) (k : A → Rd (bool * B)) :
  rmono p → (∀ a, rgood (k a)) → rgood (p ≫= k).
Proof.
  intros Hp Hk r b r' Hwf. unfold mbind, Rd_bind.
  destruct (p r) as [a r1] eqn:E. intros E2.
  destruct (Hp _ _ _ E Hwf) as (?&_&_). by eapply Hk.
Qed.

Lemma rgood_false {A} (a : A) : rgood (mret (false, a)).
Proof. by intros r a' r' _ [= ]. Qed.

Lemma rgood_ok {A} (f : bool → A) :
  rgood (Reader_asks r_ok ≫= λ ok, mret (ok, f ok)).
Proof. intros r a r' _ E. rewrite bind_asks in E. injection E as ? _ <-. done. Qed.

Lemma rgood_if {A} (b : bool) (p q : Rd (bool * A)) :
  rgood p → rgood q → rgood (if b then p else q).
Proof. by destruct b. Qed.

Lemma rgood_decode {A B} (p : A → Rd (bool * A)) enc dom old (f : A → B) :
  decodes p enc dom → rgood ('(b, a) ← p old; mret (b, f a)).
Proof.
  intros (_ & Hb & _) r x r' Hwf. unfold mbind, Rd_bind.
  destruct (p old r) as [[b a] r1] eqn:E. unfold mret, Rd_ret. intros [= -> _ <-].
  by apply Hb in E as (?&_).
Qed.

#[local] Hint Resolve @rgood_false @rgood_ok @rgood_if : rsm.
#[local] Hint Extern 3 (rgood (_ ≫= _)) =>
  first [ apply rgood_ok
        | eapply rgood_decode; first [exact decodes_bool | exact decodes_blob]
        | apply rgood_bind; [|intros] ] : rsm.
#[local] Hint Extern 4 (rgood (match ?p with (_, _) => _ end)) => destruct p : rsm.

(** Reduce the outermost run to its last step [E : _ = (_, _)]. *)
Ltac rd_dbackward L E v r1 Hv Hr Hwf1 Hok1 :=
  lazymatch type of E with
  | @mbind Rd _ _ _ ?k (?p ?old) ?r = _ =>
      match goal with
      | Hw : rwf r |- _ =>
          let E0 := fresh in
          destruct (dbind_backward p _ _ old k r _ _ L Hw E)
            as [(v & r1 & Hv & Hr & Hwf1 & Hok1 & E0)|(? & ? & E0)];
          [clear E; rename E0 into E; cbv beta iota in E
          |by unfold mret, Rd_ret in E0; simplify_eq/=]
      end
  end.

Lemma decodes_RequestVote :
  decodes decodeRequestVote (λ v, enc_payload (MRequestVote v))
          (λ v, message_ok (MRequestVote v)).
Proof.
  split_and!.
  - intros old r [t c li lt] tl Hwf Hok (?&?&?&?) Hr.
    unfold decodeRequestVote, enc_payload in *. cbn [rv_term rv_candidateId
      rv_lastLogIndex rv_lastLogTerm] in *. rewrite <-!app_assoc in Hr.
    rd_forward reads_u64; [done|]. rd_forward reads_u16; [done|].
    rd_forward reads_u64; [done|]. rd_forward reads_u64; [done|].
    rd_ok. eauto.
  - intros old r a r' Hwf E.
    assert (Hok' : r_ok r' = true).
    { revert Hwf E. apply rgood_bind; eauto 20 with rsm. }
    unfold decodeRequestVote in E.
    rd_backward reads_u64 E Hok' t r1 Ht Hr1 Hwf1 Hok1.
    rd_backward reads_u16 E Hok' c r2 Hc Hr2 Hwf2 Hok2.
    rd_backward reads_u64 E Hok' li r3 Hli Hr3 Hwf3 Hok3.
    rd_backward reads_u64 E Hok' llt r4 Hlt Hr4 Hwf4 Hok4.
    rewrite bind_asks in E. injection E as _ <- <-.
    split_and!; try done. unfold enc_payload.
    cbn [rv_term rv_candidateId rv_lastLogIndex rv_lastLogTerm].
    by rewrite Hr1, Hr2, Hr3, Hr4, <-!app_assoc.
  - intros old. unfold decodeRequestVote. eauto 20 with rsm.
Qed.

Lemma decodes_RequestVoteReply :
  decodes decodeRequestVoteReply (λ v, enc_payload (MRequestVoteReply v))
          (λ v, message_ok (MRequestVoteReply v)).
Proof.
  split_and!.
  - intros old r [t g] tl Hwf Hok Ht Hr.
    unfold decodeRequestVoteReply, enc_payload, message_ok in *.
    cbn [rvr_term rvr_voteGranted] in *. rewrite <-!app_assoc in Hr.
    rd_forward reads_u64; [done|]. rd_ok. rd_dforward decodes_bool; [done|]. eauto.
  - intros old r a r' Hwf E.
    assert (Hok' : r_ok r' = true).
    { revert Hwf E. unfold decodeRequestVoteReply.
      apply rgood_bind; [|intros; apply rgood_bind]; eauto 20 with rsm. }
    unfold decodeRequestVoteReply in E.
    rd_backward reads_u64 E Hok' t r1 Ht Hr1 Hwf1 Hok1. rewrite bind_asks, Hok1 in E.
    cbn [negb] in E. rd_dbackward decodes_bool E g r2 Hg Hr2 Hwf2 Hok2.
    injection E as <- <-. split_and!; try done. unfold enc_payload.
    cbn [rvr_term rvr_voteGranted]. by rewrite Hr1, Hr2, <-!app_assoc.
  - intros old. unfold decodeRequestVoteReply. eauto 20 with rsm.
Qed.

Lemma decodes_AppendEntriesReply :
  decodes decodeAppendEntriesReply (λ v, enc_payload (MAppendEntriesReply v))
          (λ v, message_ok (MAppendEntriesReply v)).
Proof.
  split_and!.
  - intros old r [t g ci ct] tl Hwf Hok (?&?&?) Hr.
    unfold decodeAppendEntriesReply, enc_payload in *.
    cbn [aer_term aer_success aer_conflictIndex aer_conflictTerm] in *.
    rewrite <-!app_assoc in Hr.
    rd_forward reads_u64; [done|]. rd_ok. rd_dforward decodes_bool; [done|]. cbn [negb].
    rd_forward reads_u64; [done|]. rd_forward reads_u64; [done|]. rd_ok. eauto.
  - intros old r a r' Hwf E.
    assert (Hok' : r_ok r' = true).
    { revert Hwf E. unfold decodeAppendEntriesReply.
      apply rgood_bind; [|intros; apply rgood_bind]; eauto 20 with rsm. }
    unfold decodeAppendEntriesReply in E.
    rd_backward reads_u64 E Hok' t r1 Ht Hr1 Hwf1 Hok1. rewrite bind_asks, Hok1 in E.
    cbn [negb] in E. rd_dbackward decodes_bool E g r2 Hg Hr2 Hwf2 Hok2. cbn [negb] in E.
    rd_backward reads_u64 E Hok' ci r3 Hci Hr3 Hwf3 Hok3.
    rd_backward reads_u64 E Hok' ct r4 Hct Hr4 Hwf4 Hok4.
    rewrite bind_asks in E. injection E as _ <- <-. split_and!; try done.
    unfold enc_payload. cbn [aer_term aer_success aer_conflictIndex aer_conflictTerm].
    by rewrite Hr1, Hr2, Hr3, Hr4, <-!app_assoc.
  - intros old. unfold decodeAppendEntriesReply. eauto 20 with rsm.
Qed.

Lemma decodes_ClientRequest :
  decodes decodeClientRequest (λ v, enc_payload (MClientRequest v))
          (λ v, message_ok (MClientRequest v)).
Proof.
  split_and!.
  - intros old r [c q cmd] tl Hwf Hok (?&?&?) Hr.
    unfold decodeClientRequest, enc_payload in *.
    cbn [cr_clientId cr_seqNo cr_command] in *. rewrite <-!app_assoc in Hr.
    rd_forward reads_u64; [done|]. rd_forward reads_u64; [done|]. rd_ok.
    rd_dforward decodes_blob; [done|]. eauto.
  - intros old r a r' Hwf E.
    assert (Hok' : r_ok r' = true).
    { revert Hwf E. unfold decodeClientRequest.
      apply rgood_bind; [|intros; apply rgood_bind]; eauto 20 with rsm. }
    unfold decodeClientRequest in E.
    rd_backward reads_u64 E Hok' c r1 Hc Hr1 Hwf1 Hok1.
    rd_backward reads_u64 E Hok' q r2 Hq Hr2 Hwf2 Hok2.
    rewrite bind_asks, Hok2 in E. cbn [negb] in E.
    rd_dbackward decodes_blob E cmd r3 Hcmd Hr3 Hwf3 Hok3.
    injection E as <- <-. split_and!; try done. unfold enc_payload.
    cbn [cr_clientId cr_seqNo cr_command]. by rewrite Hr1, Hr2, Hr3, <-!app_assoc.
  - intros old. unfold decodeClientRequest. eauto 20 with rsm.
Qed.

Lemma ClientStatus_of_val s : ClientStatus_of (ClientStatus_val s) = s.
Proof. by destruct s. Qed.
Lemma ClientStatus_val_of v : v ≤ 2 → ClientStatus_val (ClientStatus_of v) = v.
Proof.
  intros. unfold ClientStatus_of.
  destruct (N.eqb_spec v 0); [by subst|]. destruct (N.eqb_spec v 1); [by subst|].
  simpl. lia.
Qed.

Lemma decodes_ClientReply :
  decodes decodeClientReply (λ v, enc_payload (MClientReply v))
          (λ v, message_ok (MClientReply v)).
Proof.
  split_and!.
  - intros old r [s h res] tl Hwf Hok (?&?) Hr.
    unfold decodeClientReply, enc_payload in *.
    cbn [crp_status crp_leaderHint crp_result] in *. rewrite <-!app_assoc in Hr.
    rd_forward reads_u8; [by destruct s|]. rd_ok.
    destruct (N.ltb_spec 2 (ClientStatus_val s)); [by destruct s|].
    rd_forward reads_u16; [done|]. rd_dforward decodes_blob; [done|].
    rewrite ClientStatus_of_val. eauto.
  - intros old r a r' Hwf E.
    assert (Hok' : r_ok r' = true).
    { revert Hwf E. unfold decodeClientReply.
      apply rgood_bind; [|intros; apply rgood_bind]; eauto 20 with rsm. }
    unfold decodeClientReply in E.
    rd_backward reads_u8 E Hok' s r1 Hs Hr1 Hwf1 Hok1.
    rewrite bind_asks, Hok1 in E. cbn [negb orb] in E.
    destruct (N.ltb_spec 2 s); [done|].
    rd_backward reads_u16 E Hok' h r2 Hh Hr2 Hwf2 Hok2.
    rd_dbackward decodes_blob E res r3 Hres Hr3 Hwf3 Hok3.
    injection E as <- <-. split_and!; try done. unfold enc_payload.
    cbn [crp_status crp_leaderHint crp_result].
    by rewrite ClientStatus_val_of, Hr1, Hr2, Hr3, <-!app_assoc.
  - intros old. unfold decodeClientReply. eauto 20 with rsm.
Qed.

Lemma rmono_decodeEntries k i es pool : rmono (decodeEntries k i es pool).
Proof.
  revert i es pool. induction k as [|k IH]; intros i es pool; cbn [decodeEntries].
  - apply rmono_ret.
  - destruct (if (i =? length es)%nat then _ else _) as [es1 pool1].
    apply rmono_bind; [eauto with rsm|intros]. apply rmono_bind; [eauto with rsm|intros].
    apply rmono_if; [eauto with rsm|]. apply rmono_bind; [eauto with rsm|].
    intros [b c]. apply rmono_if; eauto with rsm.
Qed.
#[local] Hint Resolve rmono_decodeEntries : rsm.

Lemma shrinkEntries_take k es pool :
  fst (shrinkEntries k es pool) = take (length es - k) es.
Proof.
  revert es pool. induction k as [|k IH]; intros es pool; simpl.
  - by rewrite Nat.sub_0_r, firstn_all.
  - destruct (last es) as [e|] eqn:El.
    + rewrite IH, length_take. rewrite take_take. f_equal. lia.
    + apply last_None in El as ->. by destruct k.
Qed.

(** One turn of the loop: make room for slot [i] if the list ends there. *)
Lemma grow_slot {A} (i : nat) (es : list A) (x : A) :
  (i ≤ length es)%nat →
  let es1 := if (i =? length es)%nat then es ++ [x] else es in
  (i < length es1)%nat ∧ take i es1 = take i es ∧
  length es1 = (length es `max` S i)%nat.
Proof.
  intros Hi. destruct (Nat.eqb_spec i (length es)); simpl.
  - rewrite length_app, take_app_le by lia. simpl. split_and!; [lia|done|lia].
  - split_and!; [lia|done|lia].
Qed.

Lemma take_S_insert {A} (i : nat) (es : list A) (x : A) :
  (i < length es)%nat → take (S i) (<[i:=x]> es) = take i es ++ [x].
Proof.
  intros Hi. rewrite (take_S_r _ _ x) by (by apply list_lookup_insert_eq).
  by rewrite take_insert_ge.
Qed.

(** The slot the loop fills, whether grown or reused. *)
Definition loop_slot (i : nat) (es : list LogEntry) (pool : DecodePool) :
    list LogEntry * DecodePool :=
  if (i =? length es)%nat
  then let '(b, pool) := getBuf pool in (es ++ [mkLogEntry 0 b], pool)
  else (es, pool).

Lemma loop_slot_spec i es pool :
  (i ≤ length es)%nat →
  let es1 := fst (loop_slot i es pool) in
  (i < length es1)%nat ∧ take i es1 = take i es ∧
  length es1 = (length es `max` S i)%nat.
Proof.
  intros Hi. unfold loop_slot. destruct (getBuf pool) as [b p].
  pose proof (grow_slot i es (mkLogEntry 0 b) Hi) as H.
  by destruct (i =? length es)%nat.
Qed.

Lemma decodeEntries_forward new : ∀ i es pool r tl,
  rwf r → r_ok r = true → (i ≤ length es)%nat → (length es ≤ i + length new)%nat →
  Forall entry_ok new → rest r = (new ≫= enc_entry) ++ tl →
  ∃ r' pool', decodeEntries (length new) i es pool r =
                ((true, take i es ++ new, pool'), r') ∧
    rwf r' ∧ r_ok r' = true ∧ rest r' = tl.
Proof.
  induction new as [|[t c] new IH]; intros i es pool r tl Hwf Hok Hi Hlen Hall Hr.
  { simpl in Hlen. exists r, pool. simpl. rewrite app_nil_r, take_ge by lia. done. }
  cbn [length decodeEntries] in *. apply Forall_cons in Hall as [[Ht Hc] Hall].
  rewrite bind_cons in Hr. unfold enc_entry in Hr at 1. rewrite <-!app_assoc in Hr.
  cbn [e_term e_command] in *.
  pose proof (loop_slot_spec i es pool Hi) as (H1 & H2 & H3).
  fold (loop_slot i es pool). destruct (loop_slot i es pool) as [es1 pool1].
  cbn [fst] in *. rd_forward reads_u64; [done|]. rd_ok.
  rd_dforward decodes_blob; [done|]. cbn [negb].
  edestruct (IH (S i) (<[i:=mkLogEntry t c]> es1) pool1) as (r' & p' & E & ?&?&?);
    [done|done| | |done|done|].
  { rewrite length_insert. lia. }
  { rewrite length_insert. lia. }
  exists r', p'. rewrite E, take_S_insert, H2, <-app_assoc by done. done.
Qed.

Lemma decodeEntries_backward k : ∀ i es pool r es2 pool' r',
  rwf r → r_ok r = true → (i ≤ length es)%nat → (length es ≤ i + k)%nat →
  decodeEntries k i es pool r = ((true, es2, pool'), r') →
  ∃ new, length new = k ∧ es2 = take i es ++ new ∧ Forall entry_ok new ∧
    rest r = (new ≫= enc_entry) ++ rest r' ∧ rwf r' ∧ r_ok r' = true.
Proof.
  induction k as [|k IH]; intros i es pool r es2 pool' r' Hwf Hok Hi Hlen E.
  { cbn in E. injection E as <- <- <-. exists [].
    rewrite app_nil_r, take_ge by lia. split_and!; [done..| |done|done]. done. }
  cbn [decodeEntries] in E.
  pose proof (loop_slot_spec i es pool Hi) as (H1 & H2 & H3).
  fold (loop_slot i es pool) in E. destruct (loop_slot i es pool) as [es1 pool1].
  cbn [fst] in *. unfold mbind at 1, Rd_bind at 1 in E.
  destruct (Reader_u64 r) as [t r1] eqn:E1.
  destruct (rmono_u64 _ _ _ E1 Hwf) as (Hwf1 & _ & _).
  rewrite bind_asks in E. destruct (r_ok r1) eqn:Hok1; [|done]. cbn [negb] in E.
  destruct (proj1 (proj2 reads_u64) _ _ _ Hwf E1 Hok1) as (Ht & Hr1).
  destruct (dbind_backward _ _ _ _ _ _ _ _ decodes_blob Hwf1 E)
    as [(c & r2 & Hc & Hr2 & Hwf2 & Hok2 & E2)|(?&?&?)]; [|done].
  cbn [negb] in E2. apply IH in E2 as (new & Hn & -> & Hall & Hr & ? & ?);
    [|done|done|rewrite length_insert; lia|rewrite length_insert; lia].
  exists (mkLogEntry t c :: new). rewrite take_S_insert, H2, <-app_assoc by done.
  split_and!; try done; [simpl; lia|by constructor|].
  rewrite bind_cons. unfold enc_entry at 1. cbn [e_term e_command].
  by rewrite Hr1, Hr2, Hr, <-!app_assoc.
Qed.

Lemma length_entries_ge es : (12 * length es ≤ length (es ≫= enc_entry))%nat.
Proof.
  induction es as [|e es IH]; [done|]. rewrite bind_cons, length_app.
  unfold enc_entry at 1, enc_blob. autorewrite with rsm_len. simpl length. lia.
Qed.

Lemma entries_count_small v :
  N.of_nat (payloadSize (MAppendEntries v)) ≤ kMaxPayloadSize →
  N.of_nat (length (ae_entries v)) < two32.
Proof.
  rewrite payloadSize_length. unfold enc_payload, kMaxPayloadSize, two32.
  autorewrite with rsm_len. pose proof (length_entries_ge (ae_entries v)). lia.
Qed.

Lemma AppendEntries_forward old pool r v tl :
  rwf r → r_ok r = true → message_ok (MAppendEntries v) →
  N.of_nat (payloadSize (MAppendEntries v)) ≤ kMaxPayloadSize →
  rest r = enc_payload (MAppendEntries v) ++ tl →
  ∃ r' pool', decodeAppendEntriesInto old pool r = ((true, v, pool'), r') ∧
    rwf r' ∧ r_ok r' = true ∧ rest r' = tl.
Proof.
  intros Hwf Hok Hv Hsize%entries_count_small Hr.
  destruct v as [t l pi pt lc es]. destruct Hv as (?&?&?&?&?&Hes).
  unfold decodeAppendEntriesInto, enc_payload in *.
  cbn [ae_term ae_leaderId ae_prevLogIndex ae_prevLogTerm ae_leaderCommit ae_entries] in *.
  rewrite <-!app_assoc in Hr.
  rd_forward reads_u64; [done|]. rd_forward reads_u16; [done|].
  do 3 (rd_forward reads_u64; [done|]). rd_forward reads_u32; [done|]. rd_ok.
  match goal with Hr : rest ?r = _ |- _ => pose proof (length_rest r) as Hl; rewrite Hr in Hl end.
  rewrite length_app in Hl. pose proof (length_entries_ge es).
  match goal with |- context [?a / ?b <? ?c] => destruct (N.ltb_spec (a / b) c) as [Hlt|_] end.
  { exfalso. apply N.lt_nge in Hlt. apply Hlt. unfold kMinEntryWireSize.
    apply N.div_le_lower_bound; lia. }
  rewrite Nat2N.id. pose proof (shrinkEntries_take (length (ae_entries old) - length es)
    (ae_entries old) pool) as Hs.
  destruct (shrinkEntries _ _ pool) as [es0 pool0]. cbn [fst] in Hs. subst es0.
  match goal with Hr : rest ?r = (es ≫= enc_entry) ++ tl |- _ =>
    destruct (decodeEntries_forward es 0 (take (length (ae_entries old) -
      (length (ae_entries old) - length es)) (ae_entries old)) pool0 r tl)
      as (r' & p' & E & ?&?&?); [done|done|lia|rewrite length_take; lia|done|done|] end.
  exists r', p'. unfold mbind, Rd_bind. rewrite E. done.
Qed.

Lemma AppendEntries_backward old pool r v pool' r' :
  rwf r → decodeAppendEntriesInto old pool r = ((true, v, pool'), r') →
  r_ok r' = true ∧ rwf r' ∧ message_ok (MAppendEntries v) ∧
  rest r = enc_payload (MAppendEntries v) ++ rest r'.
Proof.
  intros Hwf E. unfold decodeAppendEntriesInto in E.
  rd_step reads_u64 E t r1. rd_step reads_u16 E l r2. rd_step reads_u64 E pi r3.
  rd_step reads_u64 E pt r4. rd_step reads_u64 E lc r5. rd_step reads_u32 E n r6.
  rewrite !bind_asks in E.
  destruct (r_ok r6) eqn:Hok6; [|done]. cbn [negb orb] in E.
  destruct (N.ltb_spec (N.of_nat (Reader_remaining r6) / kMinEntryWireSize) n); [done|].
  pose proof (shrinkEntries_take (length (ae_entries old) - N.to_nat n)
    (ae_entries old) pool) as Hsh.
  destruct (shrinkEntries _ _ pool) as [es0 pool0]. cbn [fst] in Hsh. subst es0.
  unfold mbind, Rd_bind in E.
  destruct (decodeEntries _ _ _ _ r6) as [[[b es] p'] r7] eqn:E7.
  unfold mret, Rd_ret in E. simplify_eq.
  apply decodeEntries_backward in E7 as (new & Hn & -> & Hall & Hr7 & ? & ?);
    [|done|done|lia|rewrite length_take; lia].
  change (take 0 _ ++ new) with new.
  destruct (Hs4 eq_refl) as (Hok5 & ? & Hr6). destruct (Hs3 Hok5) as (Hok4 & ? & Hr5).
  destruct (Hs2 Hok4) as (Hok3 & ? & Hr4). destruct (Hs1 Hok3) as (Hok2 & ? & Hr3).
  destruct (Hs0 Hok2) as (Hok1 & ? & Hr2). destruct (Hs Hok1) as (Hok0 & ? & Hr1).
  split_and!; [done|done|by repeat split|].
  unfold enc_payload.
  cbn [ae_term ae_leaderId ae_prevLogIndex ae_prevLogTerm ae_leaderCommit ae_entries].
  rewrite Hn, N2Nat.id. by rewrite Hr1, Hr2, Hr3, Hr4, Hr5, Hr6, Hr7, <-!app_assoc.
Qed.

Lemma rmono_AppendEntries old pool : rmono (decodeAppendEntriesInto old pool).
Proof.
  unfold decodeAppendEntriesInto. do 8 (apply rmono_bind; [eauto with rsm|intros]).
  apply rmono_if; [eauto with rsm|]. destruct (shrinkEntries _ _ _).
  apply rmono_bind; [eauto with rsm|]. intros [[] ?]. eauto with rsm.
Qed.

(** ** Whole messages *)

Lemma decodeAlternative_forward out pool r m tl :
  rwf r → r_ok r = true → message_ok m → N.of_nat (payloadSize m) ≤ kMaxPayloadSize →
  rest r = enc_payload m ++ tl →
  ∃ r' pool', decodeIntoAlternative (typeOf m) out pool r = ((true, m, pool'), r') ∧
    rwf r' ∧ r_ok r' = true ∧ rest r' = tl.
Proof.
  intros Hwf Hok Hm Hsz Hr. destruct m; cbn [typeOf decodeIntoAlternative].
  - destruct (alternativeForRequestVote out pool) as [o p].
    rd_dforward decodes_RequestVote; [done|]. eauto 10.
  - destruct (alternativeForRequestVoteReply out pool) as [o p].
    rd_dforward decodes_RequestVoteReply; [done|]. eauto 10.
  - destruct (alternativeForAppendEntries out pool) as [o p].
    destruct (AppendEntries_forward o p r m tl) as (r' & p' & E & ?&?&?); [done..|].
    exists r', p'. unfold mbind, Rd_bind. by rewrite E.
  - destruct (alternativeForAppendEntriesReply out pool) as [o p].
    rd_dforward decodes_AppendEntriesReply; [done|]. eauto 10.
  - destruct (alternativeForClientRequest out pool) as [o p].
    rd_dforward decodes_ClientRequest; [done|]. eauto 10.
  - destruct (alternativeForClientReply out pool) as [o p].
    rd_dforward decodes_ClientReply; [done|]. eauto 10.
Qed.

Lemma decodeAlternative_backward t out pool r m pool' r' :
  rwf r → decodeIntoAlternative t out pool r = ((true, m, pool'), r') →
  t = typeOf m ∧ r_ok r' = true ∧ rwf r' ∧ message_ok m ∧ rest r = enc_payload m ++ rest r'.
Proof.
  intros Hwf E. destruct t; cbn [decodeIntoAlternative] in E;
    match type of E with context [let (_, _) := ?a in _] => destruct a as [o p] end.
  3: { unfold mbind, Rd_bind in E.
       destruct (decodeAppendEntriesInto o p r) as [[[b a] p1] r1] eqn:E1.
       unfold mret, Rd_ret in E. simplify_eq.
       by apply AppendEntries_backward in E1 as (?&?&?&?). }
  - rd_dbackward decodes_RequestVote E v r1 Hv Hr Hw Ho. injection E as <- _ <-. done.
  - rd_dbackward decodes_RequestVoteReply E v r1 Hv Hr Hw Ho. injection E as <- _ <-. done.
  - rd_dbackward decodes_AppendEntriesReply E v r1 Hv Hr Hw Ho. injection E as <- _ <-. done.
  - rd_dbackward decodes_ClientRequest E v r1 Hv Hr Hw Ho. injection E as <- _ <-. done.
  - rd_dbackward decodes_ClientReply E v r1 Hv Hr Hw Ho. injection E as <- _ <-. done.
Qed.

Lemma validType_val t : validType (MessageType_val t) = true.
Proof. by destruct t. Qed.
Lemma MessageType_of_val t : MessageType_of (MessageType_val t) = t.
Proof. by destruct t. Qed.
Lemma MessageType_val_of v : validType v = true → MessageType_val (MessageType_of v) = v.
Proof.
  unfold validType. intros. breflect. unfold MessageType_of.
  repeat (match goal with |- context [?a =? ?b] => destruct (N.eqb_spec a b) end; [by subst|]).
  simpl. lia.
Qed.

(** [decodeMessageInto] on a frame, for every scratch message and pool. *)
Lemma decodeInto_forward from to m out pool :
  from < two16 → to < two16 → message_ok m →
  N.of_nat (payloadSize m) ≤ kMaxPayloadSize →
  ∃ pool', decodeMessageInto (enc_message from to m) out pool =
    (true, mkDecoded (envelope_for from to m) m, pool').
Proof.
  intros Hf Ht Hm Hsz. unfold decodeMessageInto.
  pose proof (length_enc_message from to m) as Hl. unfold encodedSize in Hl.
  destruct (Nat.ltb_spec (length (enc_message from to m)) kEnvelopeSize); [lia|].
  match goal with |- context [?a <? ?b] => destruct (N.ltb_spec a b); [lia|] end.
  cbn [orb]. pose proof (rwf_init (enc_message from to m)) as Hwf.
  assert (Hok : r_ok (Reader_init (enc_message from to m)) = true) by done.
  pose proof (rest_init (enc_message from to m)) as Hr.
  replace (N.of_nat (length (enc_message from to m) - kEnvelopeSize))
    with (N.of_nat (payloadSize m)) by lia.
  set (r0 := Reader_init _) in *. clearbody r0. clear Hl.
  unfold enc_message, enc_envelope, envelope_for in Hr.
  cbn [env_version env_type env_from env_to env_payloadLength] in Hr.
  rewrite <-!app_assoc in Hr.
  rd_forward reads_u8; [done|]. rd_forward reads_u8; [by destruct m|].
  rd_forward reads_u16; [done|]. rd_forward reads_u16; [done|].
  rd_forward reads_u16; [done|]. rd_forward reads_u32; [unfold kMaxPayloadSize, two32 in *; lia|].
  rd_ok. rewrite validType_val, !N.eqb_refl, MessageType_of_val. cbn [negb orb].
  match goal with H : rest _ = enc_payload m |- _ =>
    rewrite <-(app_nil_r (enc_payload m)) in H end.
  edestruct (decodeAlternative_forward (dm_message out) pool) as (r' & p' & E & Hwf' & Hok' & Hrest);
    [done..|].
  unfold mbind at 1, Rd_bind at 1. rewrite E. rewrite bind_asks.
  exists p'. unfold mret, Rd_ret. cbn [fst].
  by rewrite (proj2 (exhausted_iff r' Hwf')).
Qed.

Lemma decodeInto_backward frame out pool dm pool' :
  decodeMessageInto frame out pool = (true, dm, pool') →
  let '(mkDecoded e m) := dm in
  env_from e < two16 ∧ env_to e < two16 ∧ message_ok m ∧
  N.of_nat (payloadSize m) ≤ kMaxPayloadSize ∧
  e = envelope_for (env_from e) (env_to e) m ∧
  frame = enc_message (env_from e) (env_to e) m.
Proof.
  unfold decodeMessageInto.
  destruct (Nat.ltb_spec (length frame) kEnvelopeSize); [done|].
  match goal with |- context [?a <? ?b] => destruct (N.ltb_spec a b); [done|] end.
  cbn [orb]. intros E. pose proof (rwf_init frame) as Hwf. pose proof (rest_init frame) as Hr.
  match type of E with fst ?x = _ => destruct x as [[[b dm1] p1] r'] eqn:E1 end.
  cbn [fst] in E. simplify_eq. rename E1 into E.
  set (r0 := Reader_init frame) in *. clearbody r0.
  rd_step reads_u8 E ver r1. rd_step reads_u8 E ty r2. rd_step reads_u16 E from r3.
  rd_step reads_u16 E to r4. rd_step reads_u16 E res r5. rd_step reads_u32 E pl r6.
  rewrite bind_asks in E. destruct (r_ok r6) eqn:Hok6; [|done]. cbn [negb orb] in E.
  match type of E with (if ?c then _ else _) _ = _ => destruct c eqn:Hc; [done|] end.
  breflect. subst ver res pl.
  unfold mbind at 1, Rd_bind at 1 in E.
  destruct (decodeIntoAlternative _ _ _ r6) as [[[g m] p2] r7] eqn:E7.
  rewrite bind_asks in E. injection E as Hg <- _ _. apply andb_true_iff in Hg as [-> Hex].
  apply decodeAlternative_backward in E7 as (Hty & ? & ? & ? & Hr7); [|done].
  apply exhausted_iff in Hex as [_ Hnil]; [|done].
  destruct (Hs4 eq_refl) as (Hok5 & ? & Hr6). destruct (Hs3 Hok5) as (Hok4 & ? & Hr5).
  destruct (Hs2 Hok4) as (Hok3 & ? & Hr4). destruct (Hs1 Hok3) as (Hok2 & ? & Hr3).
  destruct (Hs0 Hok2) as (Hok1 & ? & Hr2). destruct (Hs Hok1) as (Hok0 & ? & Hr1).
  rewrite Hnil, app_nil_r in Hr7. cbn [env_from env_to].
  assert (Hps : payloadSize m = (length frame - kEnvelopeSize)%nat).
  { rewrite payloadSize_length, <-Hr7, <-Hr, Hr1, Hr2, Hr3, Hr4, Hr5, Hr6.
    autorewrite with rsm_len. unfold kEnvelopeSize. lia. }
  split_and!; [done..| | |].
  - rewrite Hps. lia.
  - unfold envelope_for. by rewrite Hps, Hty.
  - unfold enc_message, enc_envelope, envelope_for.
    cbn [env_version env_type env_from env_to env_payloadLength].
    rewrite Hps, <-Hty, MessageType_val_of by done.
    transitivity (rest r0); [done|].
    by rewrite Hr1, Hr2, Hr3, Hr4, Hr5, Hr6, Hr7, <-!app_assoc.
Qed.

(** A successful decode does not depend on the scratch it ran in. *)
Lemma decodeInto_det frame out pool dm p out2 pool2 :
  decodeMessageInto frame out pool = (true, dm, p) →
  ∃ p2, decodeMessageInto frame out2 pool2 = (true, dm, p2).
Proof.
  intros E. pose proof (decodeInto_backward _ _ _ _ _ E) as H. destruct dm as [e m].
  destruct H as (Hf & Ht & Hm & Hs & He & Hfr).
  destruct (decodeInto_forward _ _ m out2 pool2 Hf Ht Hm Hs) as [p' E3].
  rewrite <-Hfr, <-He in E3. eauto.
Qed.

(** ** The codec's contract *)

Definition codec_ok (from to : NodeId) (m : Message) : Prop :=
  from < two16 ∧ to < two16 ∧ message_ok m ∧
  N.of_nat (payloadSize m) ≤ kMaxPayloadSize.

(** C28: the codec round trip.  Encoding a message whose fields fit their C++ types
    and whose payload is at most [kMaxPayloadSize] (16 MiB) into a buffer of at least
    [encodedSize] bytes writes exactly [encodedSize] bytes, and decoding those bytes
    gives back the envelope and the message. *)
Theorem decode_encode (from to : NodeId) (m : Message) (out : list byte) :
  codec_ok from to m → (encodedSize m ≤ length out)%nat →
  ∃ out', encodeMessage from to m out = (encodedSize m, out') ∧
    decodeMessage (take (encodedSize m) out') =
      Some (mkDecoded (envelope_for from to m) m).
Proof.
  intros (Hf & Ht & Hm & Hs) Hl.
  destruct (encode_fits from to m out Hs Hl) as (out' & E & _ & Htk).
  exists out'. split; [done|]. rewrite Htk. unfold decodeMessage.
  destruct (decodeInto_forward from to m emptyDecoded (mkPool [] []) Hf Ht Hm Hs)
    as [p ->]. done.
Qed.

(** C29: the decoder is strict: a frame it accepts is, byte for byte, the
    encoding of the message it returns (so no two frames decode to the same
    message and every deviation - wrong version or type, nonzero reserved
    bytes, wrong length, truncation, trailing bytes - is rejected). *)
Theorem decode_canonical (frame : list byte) (dm : DecodedMessage) :
  decodeMessage frame = Some dm →
  let from := env_from (dm_envelope dm) in
  let to := env_to (dm_envelope dm) in
  codec_ok from to (dm_message dm) ∧
  dm_envelope dm = envelope_for from to (dm_message dm) ∧
  encodeMessage from to (dm_message dm) frame = (length frame, frame).
Proof.
  unfold decodeMessage. destruct (decodeMessageInto _ _ _) as [[b dm'] p] eqn:E.
  destruct b; [|done]. intros [= ->]. apply decodeInto_backward in E.
  destruct dm as [e m]. destruct E as (Hf & Ht & Hm & Hs & He & Hfr). simpl.
  split_and!; [done..|]. pose proof (length_enc_message (env_from e) (env_to e) m) as Hl.
  rewrite <-Hfr in Hl.
  destruct (encode_fits (env_from e) (env_to e) m frame Hs) as (out' & -> & Hlo & Htk);
    [lia|]. rewrite <-Hfr, <-Hl, take_ge in Htk by lia. by rewrite Htk, Hl.
Qed.

Lemma decodeInto_decode frame out pool ok out' pool' :
  decodeMessageInto frame out pool = (ok, out', pool') → decodeMessage frame = if ok then Some out' else None.
Proof.
  intros E. unfold decodeMessage.
  destruct (decodeMessageInto frame emptyDecoded (mkPool [] [])) as [[b2 dm2] p2] eqn:E2.
  destruct ok, b2; try done.
  - destruct (decodeInto_det _ _ _ _ _ emptyDecoded (mkPool [] []) E). congruence.
  - destruct (decodeInto_det _ _ _ _ _ emptyDecoded (mkPool [] []) E). congruence.
  - destruct (decodeInto_det _ _ _ _ _ out pool E2). congruence.
Qed.

(** Decoding into recycled buffers is decoding: whatever message and pool
    the slot held, [decodeMessageInto] succeeds on exactly the frames
    [decodeMessage] accepts and produces the same envelope and message. *)
Theorem decodeMessageInto_equiv (frame : list byte) (out : DecodedMessage)
    (pool : DecodePool) :
  let '(ok, out', _) := decodeMessageInto frame out pool in
  decodeMessage frame = if ok then Some out' else None.
Proof.
  destruct (decodeMessageInto frame out pool) as [[b dm] p] eqn:E. by eapply decodeInto_decode.
Qed.

(** *** Witnesses *)

Definition sample_message : Message :=
  MAppendEntries (mkAppendEntries 7 2 3 6 2 [mkLogEntry 7 [x41; x42]; mkLogEntry 7 []]).

Lemma sample_message_ok : codec_ok 2 3 sample_message.
Proof.
  split_and!; [done|done| |done]. cbn. split_and!; try done.
  repeat constructor.
Qed.

Lemma decode_encode_witness : ∃ out',
  encodeMessage 2 3 sample_message (replicate 80 x00) = (encodedSize sample_message, out') ∧
  decodeMessage (take (encodedSize sample_message) out') =
    Some (mkDecoded (envelope_for 2 3 sample_message) sample_message).
Proof.
  apply (decode_encode 2 3 sample_message (replicate 80 x00)).
  - exact sample_message_ok.
  - vm_compute. lia.
Defined.

Definition sample_frame : list byte := enc_message 2 3 sample_message.

Lemma decode_canonical_witness :
  encodeMessage 2 3 sample_message sample_frame = (length sample_frame, sample_frame).
Proof.
  exact (proj2 (proj2 (decode_canonical sample_frame
    (mkDecoded (envelope_for 2 3 sample_message) sample_message)
    ltac:(vm_compute; reflexivity)))).
Defined.
