(* ===== verification/Log.v ===== *)
(** * src/storage/log.h, src/raft/persistent_state.h, src/statemachine/state_machine.h:
      the seams below the Raft core

    The three abstract classes the core is built on - [RaftLog],
    [PersistentState] and [StateMachine] - as type classes with their laws, and
    the in-memory implementations, which double as the reference semantics:
    an implementation is correct when, seen through its entry list, every
    operation does what [InMemoryLog] does. *)

From Stdlib Require Import NArith Strings.Byte Lia.
From S2P Require Import Prelude Messages.

Local Open Scope N_scope.

(** ** InMemoryLog *)

Definition InMemoryLog_lastIndex (l : list LogEntry) : LogIndex := N.of_nat (length l).

Definition InMemoryLog_lastTerm (l : list LogEntry) : Term :=
  match last l with Some e => e_term e | None => 0 end.

Definition InMemoryLog_append (l entries : list LogEntry) : list LogEntry := l ++ entries.

Definition InMemoryLog_termAt (l : list LogEntry) (i : LogIndex) : Term :=
  if i =? 0 then 0
  else if InMemoryLog_lastIndex l <? i then 0
  else match l !! N.to_nat (i - 1) with Some e => e_term e | None => 0 end.

(** [None] is the out-of-range access the C++ asserts against. *)
Definition InMemoryLog_entryAt (l : list LogEntry) (i : LogIndex) : option LogEntry :=
  if (1 <=? i) && (i <=? InMemoryLog_lastIndex l) then l !! N.to_nat (i - 1) else None.

Definition InMemoryLog_entriesFrom (l : list LogEntry) (i : LogIndex) : list LogEntry :=
  let i := if i <? 1 then 1 else i in
  if InMemoryLog_lastIndex l <? i then [] else drop (N.to_nat (i - 1)) l.

Definition InMemoryLog_entriesSpan (l : list LogEntry) (i : LogIndex) : list LogEntry :=
  let i := if i <? 1 then 1 else i in
  if InMemoryLog_lastIndex l <? i then [] else drop (N.to_nat (i - 1)) l.

Definition InMemoryLog_truncateSuffixFrom (l : list LogEntry) (i : LogIndex) :
    list LogEntry :=
  let i := if i <? 1 then 1 else i in
  if InMemoryLog_lastIndex l <? i then l else take (N.to_nat (i - 1)) l.

(** ** The interfaces *)

Class RaftLog (L : Type) := {
  log_entries : L → list LogEntry;   (* the abstract value *)
  log_append : L → list LogEntry → L;
  log_termAt : L → LogIndex → Term;
  log_entryAt : L → LogIndex → option LogEntry;
  log_entriesFrom : L → LogIndex → list LogEntry;
  log_entriesSpan : L → LogIndex → list LogEntry;
  log_truncateSuffixFrom : L → LogIndex → L;
  log_lastIndex : L → LogIndex;
  log_lastTerm : L → Term;
}.

Class RaftLogLaws (L : Type) `{!RaftLog L} : Prop := {
  append_law l es :
    log_entries (log_append l es) = InMemoryLog_append (log_entries l) es;
  termAt_law l i : log_termAt l i = InMemoryLog_termAt (log_entries l) i;
  entryAt_law l i : log_entryAt l i = InMemoryLog_entryAt (log_entries l) i;
  entriesFrom_law l i : log_entriesFrom l i = InMemoryLog_entriesFrom (log_entries l) i;
  entriesSpan_law l i : log_entriesSpan l i = InMemoryLog_entriesSpan (log_entries l) i;
  truncate_law l i :
    log_entries (log_truncateSuffixFrom l i) =
      InMemoryLog_truncateSuffixFrom (log_entries l) i;
  lastIndex_law l : log_lastIndex l = InMemoryLog_lastIndex (log_entries l);
  lastTerm_law l : log_lastTerm l = InMemoryLog_lastTerm (log_entries l);
}.

Record InMemoryLog := mkInMemoryLog { entries_ : list LogEntry }.

#[export] Instance InMemoryLog_RaftLog : RaftLog InMemoryLog := {
  log_entries := entries_;
  log_append l es := mkInMemoryLog (InMemoryLog_append (entries_ l) es);
  log_termAt l := InMemoryLog_termAt (entries_ l);
  log_entryAt l := InMemoryLog_entryAt (entries_ l);
  log_entriesFrom l := InMemoryLog_entriesFrom (entries_ l);
  log_entriesSpan l := InMemoryLog_entriesSpan (entries_ l);
  log_truncateSuffixFrom l i := mkInMemoryLog (InMemoryLog_truncateSuffixFrom (entries_ l) i);
  log_lastIndex l := InMemoryLog_lastIndex (entries_ l);
  log_lastTerm l := InMemoryLog_lastTerm (entries_ l);
}.

#[export] Instance InMemoryLog_laws : RaftLogLaws InMemoryLog.
Proof. by split. Qed.

Class PersistentState (P : Type) := {
  ps_currentTerm : P → Term;
  ps_votedFor : P → option NodeId;
  ps_save : P → Term → option NodeId → P;
}.

Class PersistentStateLaws (P : Type) `{!PersistentState P} : Prop := {
  save_term p t v : ps_currentTerm (ps_save p t v) = t;
  save_vote p t v : ps_votedFor (ps_save p t v) = v;
}.

Record InMemoryPersistentState := mkPersist {
  p_term : Term;
  p_votedFor : option NodeId;
}.

#[export] Instance InMemoryPersistentState_PersistentState :
    PersistentState InMemoryPersistentState := {
  ps_currentTerm := p_term;
  ps_votedFor := p_votedFor;
  ps_save _ t v := mkPersist t v;
}.

#[export] Instance InMemoryPersistentState_laws :
  PersistentStateLaws InMemoryPersistentState.
Proof. by split. Qed.

Abbreviation Command := (list byte) (only parsing).

Class StateMachine (S : Type) := sm_apply : S → Command → list byte * S.

(** [RecordingStateMachine] *)
#[export] Instance RecordingStateMachine : StateMachine (list Command) :=
  λ applied cmd, ([], applied ++ [cmd]).

(** ** 1-based list views used by the protocol proofs *)

(** Term of the entry at a 1-based position, 0 at the sentinel and past the
    end. *)
Definition term_of (l : list LogEntry) (i : nat) : Term :=
  match i with
  | O => 0
  | S j => match l !! j with Some e => e_term e | None => 0 end
  end.

Lemma termAt_term_of l i : InMemoryLog_termAt l i = term_of l (N.to_nat i).
Proof.
  unfold InMemoryLog_termAt, InMemoryLog_lastIndex, term_of.
  destruct (N.eqb_spec i 0) as [->|Hi]; [done|].
  destruct (N.to_nat i) as [|j] eqn:Ej; [lia|].
  replace (N.to_nat (i - 1)) with j by lia.
  destruct (N.ltb_spec (N.of_nat (length l)) i); [|done].
  by rewrite lookup_ge_None_2 by lia.
Qed.

Lemma lastTerm_term_of l : InMemoryLog_lastTerm l = term_of l (length l).
Proof.
  unfold InMemoryLog_lastTerm. rewrite last_lookup. by destruct l.
Qed.

Lemma entriesSpan_drop l i :
  InMemoryLog_entriesSpan l i = drop (N.to_nat i - 1) l.
Proof.
  unfold InMemoryLog_entriesSpan, InMemoryLog_lastIndex.
  destruct (N.ltb_spec i 1).
  - replace (N.to_nat i - 1)%nat with 0%nat by lia.
    destruct (N.ltb_spec (N.of_nat (length l)) 1); [|done].
    destruct l; simpl in *; [done|lia].
  - destruct (N.ltb_spec (N.of_nat (length l)) i).
    + by rewrite drop_ge by lia.
    + f_equal; lia.
Qed.

Lemma truncate_take l i :
  0 < i → InMemoryLog_truncateSuffixFrom l i = take (N.to_nat i - 1) l.
Proof.
  intros Hi. unfold InMemoryLog_truncateSuffixFrom, InMemoryLog_lastIndex.
  destruct (N.ltb_spec i 1); [lia|].
  destruct (N.ltb_spec (N.of_nat (length l)) i).
  - by rewrite take_ge by lia.
  - f_equal; lia.
Qed.

Lemma entryAt_lookup l i :
  0 < i → i ≤ N.of_nat (length l) → InMemoryLog_entryAt l i = l !! (N.to_nat i - 1)%nat.
Proof.
  intros Hi Hl. unfold InMemoryLog_entryAt, InMemoryLog_lastIndex.
  rewrite (proj2 (N.leb_le 1 i)), (proj2 (N.leb_le i _)) by lia. simpl. f_equal; lia.
Qed.
