(* ===== verification/RaftCore.v ===== *)
(** * src/raft/raft_core.h, src/raft/raft_core.cpp: the consensus core of one node

    Every method of [RaftCore] as a function on the core's state.  What a call
    does to the world outside the object - messages sent, durable writes,
    callbacks, error-level log lines - is appended to the trace [fx_], in
    program order.  The clock reading is an argument; randomness comes from an
    abstract generator. *)

From Stdlib Require Import NArith Strings.Byte Lia.
From S2P Require Import Prelude Messages Log.

Local Open Scope N_scope.

(** ** Data *)

Inductive Role := Follower | Candidate | Leader.

#[export] Instance Role_eq_dec : EqDecision Role.
Proof. solve_decision. Defined.

(** [TimePoint]: nanoseconds of the steady clock; [Duration]: milliseconds. *)
Abbreviation TimePoint := N (only parsing).
Abbreviation Duration := N (only parsing).
Definition TimePoint_max : TimePoint := 9223372036854775807.
Definition after (now : TimePoint) (d : Duration) : TimePoint := now + d * 1000000.

Record RaftConfig := mkConfig {
  electionTimeoutMin : Duration;
  electionTimeoutMax : Duration;
  heartbeatInterval : Duration;
}.

Definition defaultConfig : RaftConfig := mkConfig 150 300 50.

(** The [event] strings of the transition observer. *)
Inductive TransitionEvent :=
| HigherTermSeen | LeaderDiscovered | ElectionStarted | WonElection.

(** The [LogLevel::Error] lines: each reports a state the protocol rules out.
    [EntryOutOfRange] stands for [entryAt]'s out-of-range access. *)
Inductive RaftError :=
| ElectionSafetyViolation | LogMatchingViolation | AckBeyondLog | EntryOutOfRange.

Inductive Effect :=
| ESave (term : Term) (votedFor : option NodeId)         (* persist_.save *)
| EAppend (entries : list LogEntry)                      (* log_.append *)
| ETruncate (from : LogIndex)                            (* log_.truncateSuffixFrom *)
| ESend (to : NodeId) (m : Message)                      (* send_ *)
| ETransition (term : Term) (role : Role) (event : TransitionEvent)
| EApply (index : LogIndex) (entry : LogEntry) (result : list byte) (* onApply_ *)
| EHandOff (index : LogIndex) (entry : LogEntry)         (* applySink_ accepted *)
| EError (e : RaftError).

Definition candidateLogAtLeastAsUpToDate (candLastTerm : Term) (candLastIndex : LogIndex)
    (myLastTerm : Term) (myLastIndex : LogIndex) : bool :=
  if negb (candLastTerm =? myLastTerm) then myLastTerm <? candLastTerm
  else myLastIndex <=? candLastIndex.

Definition termOf (m : Message) : option Term :=
  match m with
  | MRequestVote v => Some (rv_term v)
  | MRequestVoteReply v => Some (rvr_term v)
  | MAppendEntries v => Some (ae_term v)
  | MAppendEntriesReply v => Some (aer_term v)
  | MClientRequest _ | MClientReply _ => None
  end.

(** [std::mt19937_64] under a [uniform_int_distribution]: a draw from an
    inclusive range and the next generator state. *)
Class Rng (R : Type) := draw : R → N → N → N * R.

(** The apply hand-off of the threaded runtime: accept or refuse an entry. *)
Class ApplySink (K : Type) := sink_offer : K → LogIndex → LogEntry → bool * K.

Section RaftCore.
Context {P L SM R K : Type}.
Context `{!PersistentState P} `{!RaftLog L} `{!StateMachine SM} `{!Rng R} `{!ApplySink K}.

Record RaftCore := mkCore {
  self_ : NodeId;
  peers_ : list NodeId;   (* peers_, without self *)
  persist_ : P;
  log_ : L;
  sm_ : SM;
  cfg_ : RaftConfig;
  rng_ : R;
  role_ : Role;
  leaderId_ : option NodeId;
  votesFrom_ : gset NodeId;
  electionDeadline_ : TimePoint;
  heartbeatDeadline_ : TimePoint;
  aeMsg_ : AppendEntries;   (* reused outbound message *)
  cmdPool_ : list Command;   (* recycled buffers, head = back() *)
  commitIndex_ : LogIndex;
  lastApplied_ : LogIndex;
  nextIndex_ : gmap NodeId LogIndex;
  matchIndex_ : gmap NodeId LogIndex;
  applySink_ : option K;   (* set by the threaded runtime *)
  fx_ : list Effect;   (* what the calls so far did, in order *)
}.

Definition set_persist (x : P) (c : RaftCore) : RaftCore :=
  mkCore (self_ c) (peers_ c) x (log_ c) (sm_ c) (cfg_ c) (rng_ c) (role_ c)
    (leaderId_ c) (votesFrom_ c) (electionDeadline_ c) (heartbeatDeadline_ c)
    (aeMsg_ c) (cmdPool_ c) (commitIndex_ c) (lastApplied_ c) (nextIndex_ c)
    (matchIndex_ c) (applySink_ c) (fx_ c).
Definition set_log (x : L) (c : RaftCore) : RaftCore :=
  mkCore (self_ c) (peers_ c) (persist_ c) x (sm_ c) (cfg_ c) (rng_ c) (role_ c)
    (leaderId_ c) (votesFrom_ c) (electionDeadline_ c) (heartbeatDeadline_ c)
    (aeMsg_ c) (cmdPool_ c) (commitIndex_ c) (lastApplied_ c) (nextIndex_ c)
    (matchIndex_ c) (applySink_ c) (fx_ c).
Definition set_sm (x : SM) (c : RaftCore) : RaftCore :=
  mkCore (self_ c) (peers_ c) (persist_ c) (log_ c) x (cfg_ c) (rng_ c) (role_ c)
    (leaderId_ c) (votesFrom_ c) (electionDeadline_ c) (heartbeatDeadline_ c)
    (aeMsg_ c) (cmdPool_ c) (commitIndex_ c) (lastApplied_ c) (nextIndex_ c)
    (matchIndex_ c) (applySink_ c) (fx_ c).
Definition set_rng (x : R) (c : RaftCore) : RaftCore :=
  mkCore (self_ c) (peers_ c) (persist_ c) (log_ c) (sm_ c) (cfg_ c) x (role_ c)
    (leaderId_ c) (votesFrom_ c) (electionDeadline_ c) (heartbeatDeadline_ c)
    (aeMsg_ c) (cmdPool_ c) (commitIndex_ c) (lastApplied_ c) (nextIndex_ c)
    (matchIndex_ c) (applySink_ c) (fx_ c).
Definition set_role (x : Role) (c : RaftCore) : RaftCore :=
  mkCore (self_ c) (peers_ c) (persist_ c) (log_ c) (sm_ c) (cfg_ c) (rng_ c) x
    (leaderId_ c) (votesFrom_ c) (electionDeadline_ c) (heartbeatDeadline_ c)
    (aeMsg_ c) (cmdPool_ c) (commitIndex_ c) (lastApplied_ c) (nextIndex_ c)
    (matchIndex_ c) (applySink_ c) (fx_ c).
Definition set_leaderId (x : option NodeId) (c : RaftCore) : RaftCore :=
  mkCore (self_ c) (peers_ c) (persist_ c) (log_ c) (sm_ c) (cfg_ c) (rng_ c)
    (role_ c) x (votesFrom_ c) (electionDeadline_ c) (heartbeatDeadline_ c)
    (aeMsg_ c) (cmdPool_ c) (commitIndex_ c) (lastApplied_ c) (nextIndex_ c)
    (matchIndex_ c) (applySink_ c) (fx_ c).
Definition set_votesFrom (x : gset NodeId) (c : RaftCore) : RaftCore :=
  mkCore (self_ c) (peers_ c) (persist_ c) (log_ c) (sm_ c) (cfg_ c) (rng_ c)
    (role_ c) (leaderId_ c) x (electionDeadline_ c) (heartbeatDeadline_ c)
    (aeMsg_ c) (cmdPool_ c) (commitIndex_ c) (lastApplied_ c) (nextIndex_ c)
    (matchIndex_ c) (applySink_ c) (fx_ c).
Definition set_electionDeadline (x : TimePoint) (c : RaftCore) : RaftCore :=
  mkCore (self_ c) (peers_ c) (persist_ c) (log_ c) (sm_ c) (cfg_ c) (rng_ c)
    (role_ c) (leaderId_ c) (votesFrom_ c) x (heartbeatDeadline_ c) (aeMsg_ c)
    (cmdPool_ c) (commitIndex_ c) (lastApplied_ c) (nextIndex_ c) (matchIndex_ c)
    (applySink_ c) (fx_ c).
Definition set_heartbeatDeadline (x : TimePoint) (c : RaftCore) : RaftCore :=
  mkCore (self_ c) (peers_ c) (persist_ c) (log_ c) (sm_ c) (cfg_ c) (rng_ c)
    (role_ c) (leaderId_ c) (votesFrom_ c) (electionDeadline_ c) x (aeMsg_ c)
    (cmdPool_ c) (commitIndex_ c) (lastApplied_ c) (nextIndex_ c) (matchIndex_ c)
    (applySink_ c) (fx_ c).
Definition set_aeMsg (x : AppendEntries) (c : RaftCore) : RaftCore :=
  mkCore (self_ c) (peers_ c) (persist_ c) (log_ c) (sm_ c) (cfg_ c) (rng_ c)
    (role_ c) (leaderId_ c) (votesFrom_ c) (electionDeadline_ c)
    (heartbeatDeadline_ c) x (cmdPool_ c) (commitIndex_ c) (lastApplied_ c)
    (nextIndex_ c) (matchIndex_ c) (applySink_ c) (fx_ c).
Definition set_cmdPool (x : list Command) (c : RaftCore) : RaftCore :=
  mkCore (self_ c) (peers_ c) (persist_ c) (log_ c) (sm_ c) (cfg_ c) (rng_ c)
    (role_ c) (leaderId_ c) (votesFrom_ c) (electionDeadline_ c)
    (heartbeatDeadline_ c) (aeMsg_ c) x (commitIndex_ c) (lastApplied_ c)
    (nextIndex_ c) (matchIndex_ c) (applySink_ c) (fx_ c).
Definition set_commitIndex (x : LogIndex) (c : RaftCore) : RaftCore :=
  mkCore (self_ c) (peers_ c) (persist_ c) (log_ c) (sm_ c) (cfg_ c) (rng_ c)
    (role_ c) (leaderId_ c) (votesFrom_ c) (electionDeadline_ c)
    (heartbeatDeadline_ c) (aeMsg_ c) (cmdPool_ c) x (lastApplied_ c) (nextIndex_ c)
    (matchIndex_ c) (applySink_ c) (fx_ c).
Definition set_lastApplied (x : LogIndex) (c : RaftCore) : RaftCore :=
  mkCore (self_ c) (peers_ c) (persist_ c) (log_ c) (sm_ c) (cfg_ c) (rng_ c)
    (role_ c) (leaderId_ c) (votesFrom_ c) (electionDeadline_ c)
    (heartbeatDeadline_ c) (aeMsg_ c) (cmdPool_ c) (commitIndex_ c) x (nextIndex_ c)
    (matchIndex_ c) (applySink_ c) (fx_ c).
Definition set_nextIndex (x : gmap NodeId LogIndex) (c : RaftCore) : RaftCore :=
  mkCore (self_ c) (peers_ c) (persist_ c) (log_ c) (sm_ c) (cfg_ c) (rng_ c)
    (role_ c) (leaderId_ c) (votesFrom_ c) (electionDeadline_ c)
    (heartbeatDeadline_ c) (aeMsg_ c) (cmdPool_ c) (commitIndex_ c) (lastApplied_ c)
    x (matchIndex_ c) (applySink_ c) (fx_ c).
Definition set_matchIndex (x : gmap NodeId LogIndex) (c : RaftCore) : RaftCore :=
  mkCore (self_ c) (peers_ c) (persist_ c) (log_ c) (sm_ c) (cfg_ c) (rng_ c)
    (role_ c) (leaderId_ c) (votesFrom_ c) (electionDeadline_ c)
    (heartbeatDeadline_ c) (aeMsg_ c) (cmdPool_ c) (commitIndex_ c) (lastApplied_ c)
    (nextIndex_ c) x (applySink_ c) (fx_ c).
Definition set_applySink (x : option K) (c : RaftCore) : RaftCore :=
  mkCore (self_ c) (peers_ c) (persist_ c) (log_ c) (sm_ c) (cfg_ c) (rng_ c)
    (role_ c) (leaderId_ c) (votesFrom_ c) (electionDeadline_ c)
    (heartbeatDeadline_ c) (aeMsg_ c) (cmdPool_ c) (commitIndex_ c) (lastApplied_ c)
    (nextIndex_ c) (matchIndex_ c) x (fx_ c).
Definition set_fx (x : list Effect) (c : RaftCore) : RaftCore :=
  mkCore (self_ c) (peers_ c) (persist_ c) (log_ c) (sm_ c) (cfg_ c) (rng_ c)
    (role_ c) (leaderId_ c) (votesFrom_ c) (electionDeadline_ c)
    (heartbeatDeadline_ c) (aeMsg_ c) (cmdPool_ c) (commitIndex_ c) (lastApplied_ c)
    (nextIndex_ c) (matchIndex_ c) (applySink_ c) x.

Definition emit (e : Effect) (c : RaftCore) : RaftCore := set_fx (fx_ c ++ [e]) c.

Definition currentTerm (c : RaftCore) : Term := ps_currentTerm (persist_ c).
Definition votedFor (c : RaftCore) : option NodeId := ps_votedFor (persist_ c).
Definition send (to : NodeId) (m : Message) : RaftCore → RaftCore := emit (ESend to m).

Definition majority (c : RaftCore) : nat := ((length (peers_ c) + 1) / 2 + 1)%nat.

(** [std::map::operator[]]: reading a missing key inserts a zero. *)
Definition map_index (m : gmap NodeId LogIndex) (k : NodeId) :
    LogIndex * gmap NodeId LogIndex :=
  match m !! k with Some v => (v, m) | None => (0, <[k := 0]> m) end.

(** ** Construction *)

Definition kScratchEntries : nat := 64.

Definition RaftCore_new (self : NodeId) (peers : list NodeId) (persist : P) (log : L)
    (sm : SM) (rng : R) (cfg : RaftConfig) : RaftCore :=
  mkCore self peers persist log sm cfg rng Follower None ∅ TimePoint_max TimePoint_max
    (mkAppendEntries 0 0 0 0 0 []) (replicate kScratchEntries []) 0 0 ∅ ∅ None [].

Definition resetElectionTimer (now : TimePoint) (c : RaftCore) : RaftCore :=
  let '(d, rng) := draw (rng_ c) (electionTimeoutMin (cfg_ c))
                     (electionTimeoutMax (cfg_ c)) in
  set_electionDeadline (after now d) (set_rng rng c).

Definition start (now : TimePoint) (c : RaftCore) : RaftCore := resetElectionTimer now c.

Definition persistTermAndVote (term : Term) (vote : option NodeId) (c : RaftCore) :
    RaftCore :=
  emit (ESave term vote) (set_persist (ps_save (persist_ c) term vote) c).

(** [log_.append] and [log_.truncateSuffixFrom], recorded. *)
Definition appendLog (es : list LogEntry) (c : RaftCore) : RaftCore :=
  emit (EAppend es) (set_log (log_append (log_ c) es) c).

Definition truncateLog (i : LogIndex) (c : RaftCore) : RaftCore :=
  emit (ETruncate i) (set_log (log_truncateSuffixFrom (log_ c) i) c).

(** ** Apply *)

Fixpoint applyLoop (fuel : nat) (c : RaftCore) : RaftCore :=
  match fuel with
  | O => c
  | S fuel =>
      if lastApplied_ c <? commitIndex_ c then
        let next := lastApplied_ c + 1 in
        match log_entryAt (log_ c) next with
        | None => emit (EError EntryOutOfRange) c
        | Some entry =>
            match applySink_ c with
            | Some k =>
                let '(accepted, k) := sink_offer k next entry in
                let c := set_applySink (Some k) c in
                if negb accepted then c
                else applyLoop fuel (emit (EHandOff next entry) (set_lastApplied next c))
            | None =>
                let c := set_lastApplied next c in
                let '(result, sm) := sm_apply (sm_ c) (e_command entry) in
                applyLoop fuel (emit (EApply next entry result) (set_sm sm c))
            end
        end
      else c
  end.

(** The loop runs at most [commitIndex_ - lastApplied_] times. *)
Definition applyCommitted (c : RaftCore) : RaftCore :=
  applyLoop (N.to_nat (commitIndex_ c - lastApplied_ c)) c.

Definition pumpApply (c : RaftCore) : RaftCore := applyCommitted c.

(** ** Commit *)

Definition replicasAt (n : LogIndex) (c : RaftCore) : nat :=
  (1 + size (filter (λ p : NodeId * LogIndex, (n ≤ p.2)%N) (matchIndex_ c)))%nat.

(** [for (n = lastIndex; n > commitIndex_; --n)]: [fuel] bounds the turns. *)
Fixpoint advanceCommitLoop (fuel : nat) (n : LogIndex) (c : RaftCore) : RaftCore :=
  match fuel with
  | O => c
  | S fuel =>
      if commitIndex_ c <? n then
        if negb (log_termAt (log_ c) n =? currentTerm c) then c
        else if (majority c <=? replicasAt n c)%nat
        then applyCommitted (set_commitIndex n c)
        else advanceCommitLoop fuel (n - 1) c
      else c
  end.

Definition advanceCommit (c : RaftCore) : RaftCore :=
  let last := log_lastIndex (log_ c) in
  advanceCommitLoop (N.to_nat (last - commitIndex_ c)) last c.

(** ** Sending *)

(** [sendAppendEntries] rebuilds the reused message in three loops: give
    surplus command buffers back, take missing ones from the pool, overwrite
    every entry. *)
Fixpoint aeShrink (k : nat) (es : list LogEntry) (pool : list Command) :
    list LogEntry * list Command :=
  match k with
  | O => (es, pool)
  | S k =>
      match last es with
      | Some e => aeShrink k (take (length es - 1) es) (e_command e :: pool)
      | None => (es, pool)
      end
  end.

Fixpoint aeGrow (k : nat) (es : list LogEntry) (pool : list Command) :
    list LogEntry * list Command :=
  match k with
  | O => (es, pool)
  | S k =>
      match pool with
      | [] => aeGrow k (es ++ [mkLogEntry 0 []]) []
      | b :: pool => aeGrow k (es ++ [mkLogEntry 0 b]) pool
      end
  end.

Fixpoint aeOverwrite (i : nat) (src es : list LogEntry) : list LogEntry :=
  match src with
  | [] => es
  | e :: src => aeOverwrite (S i) src (<[i := mkLogEntry (e_term e) (e_command e)]> es)
  end.

Definition sendAppendEntries (peer : NodeId) (c : RaftCore) : RaftCore :=
  let '(next, ni) := map_index (nextIndex_ c) peer in
  let c := set_nextIndex ni c in
  let src := log_entriesSpan (log_ c) next in
  let es := ae_entries (aeMsg_ c) in
  let '(es, pool) := aeShrink (length es - length src) es (cmdPool_ c) in
  let '(es, pool) := aeGrow (length src - length es) es pool in
  let es := aeOverwrite 0 src es in
  let ae := mkAppendEntries (currentTerm c) (self_ c) (dec64 next)
              (log_termAt (log_ c) (dec64 next)) (commitIndex_ c) es in
  let c := set_cmdPool pool (set_aeMsg ae c) in
  send peer (MAppendEntries ae) c.

Definition sendToPeers (c : RaftCore) : RaftCore :=
  foldl (λ c peer, sendAppendEntries peer c) c (peers_ c).

Definition sendHeartbeats (now : TimePoint) (c : RaftCore) : RaftCore :=
  let c := sendToPeers c in
  set_heartbeatDeadline (after now (heartbeatInterval (cfg_ c))) c.

(** ** Role changes *)

Definition becomeFollower (now : TimePoint) (newTerm : Term) (event : TransitionEvent)
    (c : RaftCore) : RaftCore :=
  let c := if currentTerm c <? newTerm
           then set_leaderId None (persistTermAndVote newTerm None c) else c in
  let c := if decide (role_ c = Leader)
           then resetElectionTimer now (set_heartbeatDeadline TimePoint_max c) else c in
  let c := set_role Follower c in
  emit (ETransition (currentTerm c) Follower event) c.

Definition becomeLeader (now : TimePoint) (c : RaftCore) : RaftCore :=
  let c := set_role Leader c in
  let c := set_leaderId (Some (self_ c)) c in
  let last := log_lastIndex (log_ c) in
  let c := set_nextIndex
             (foldl (λ m peer, <[peer := last + 1]> m) ∅ (peers_ c)) c in
  let c := set_matchIndex (foldl (λ m peer, <[peer := 0]> m) ∅ (peers_ c)) c in
  let c := set_electionDeadline TimePoint_max c in
  let c := emit (ETransition (currentTerm c) Leader WonElection) c in
  sendHeartbeats now c.

Definition startElection (now : TimePoint) (c : RaftCore) : RaftCore :=
  let c := persistTermAndVote (add64 (currentTerm c) 1) (Some (self_ c)) c in
  let c := set_role Candidate c in
  let c := set_leaderId None c in
  let c := set_votesFrom {[ self_ c ]} c in
  let c := set_heartbeatDeadline TimePoint_max c in
  let c := resetElectionTimer now c in
  let c := emit (ETransition (currentTerm c) Candidate ElectionStarted) c in
  let rv := mkRequestVote (currentTerm c) (self_ c) (log_lastIndex (log_ c))
              (log_lastTerm (log_ c)) in
  let c := foldl (λ c peer, send peer (MRequestVote rv) c) c (peers_ c) in
  if (majority c <=? size (votesFrom_ c))%nat then becomeLeader now c else c.

(** ** Client seams *)

Definition propose (now : TimePoint) (command : Command) (c : RaftCore) :
    option LogIndex * RaftCore :=
  if decide (role_ c = Leader) then
    let c := appendLog [mkLogEntry (currentTerm c) command] c in
    let idx := log_lastIndex (log_ c) in
    let c := advanceCommit c in
    let c := sendToPeers c in
    (Some idx, set_heartbeatDeadline (after now (heartbeatInterval (cfg_ c))) c)
  else (None, c).

Definition proposeBatch (now : TimePoint) (commands : list Command) (c : RaftCore) :
    option LogIndex * RaftCore :=
  if bool_decide (commands = []) || negb (bool_decide (role_ c = Leader)) then (None, c)
  else
    let cur := currentTerm c in
    let entries := mkLogEntry cur <$> commands in
    let n := N.of_nat (length entries) in
    let c := appendLog entries c in
    let first := log_lastIndex (log_ c) - n + 1 in
    let c := advanceCommit c in
    let c := sendToPeers c in
    (Some first, set_heartbeatDeadline (after now (heartbeatInterval (cfg_ c))) c).

(** ** Timers *)

Definition nextDeadline (c : RaftCore) : TimePoint :=
  N.min (electionDeadline_ c) (heartbeatDeadline_ c).

Definition tick (now : TimePoint) (c : RaftCore) : RaftCore :=
  if bool_decide (role_ c ≠ Leader) && (electionDeadline_ c <=? now)
  then startElection now c
  else if bool_decide (role_ c = Leader) && (heartbeatDeadline_ c <=? now)
  then sendHeartbeats now c
  else c.

(** ** RPC handlers *)

Definition onRequestVote (now : TimePoint) (from : NodeId) (rv : RequestVote)
    (c : RaftCore) : RaftCore :=
  let cur := currentTerm c in
  if rv_term rv <? cur
  then send from (MRequestVoteReply (mkRequestVoteReply cur false)) c
  else
    let logOk := candidateLogAtLeastAsUpToDate (rv_lastLogTerm rv) (rv_lastLogIndex rv)
                   (log_lastTerm (log_ c)) (log_lastIndex (log_ c)) in
    let grant := logOk && match votedFor c with
                          | None => true
                          | Some v => v =? rv_candidateId rv
                          end in
    let c := if grant
             then resetElectionTimer now
                    (persistTermAndVote cur (Some (rv_candidateId rv)) c)
             else c in
    send from (MRequestVoteReply (mkRequestVoteReply cur grant)) c.

Definition onRequestVoteReply (now : TimePoint) (from : NodeId) (r : RequestVoteReply)
    (c : RaftCore) : RaftCore :=
  if negb (bool_decide (role_ c = Candidate)) then c
  else if negb (rvr_term r =? currentTerm c) || negb (rvr_voteGranted r) then c
  else
    let c := set_votesFrom ({[ from ]} ∪ votesFrom_ c) c in
    if (majority c <=? size (votesFrom_ c))%nat then becomeLeader now c else c.

(** First index of the conflicting term, searched downwards. *)
Fixpoint firstOfTerm (fuel : nat) (log : L) (conflictTerm : Term) (first : LogIndex) :
    LogIndex :=
  match fuel with
  | O => first
  | S fuel =>
      if (1 <? first) && (log_termAt log (first - 1) =? conflictTerm)
      then firstOfTerm fuel log conflictTerm (first - 1)
      else first
  end.

(** The walk over the incoming entries: the index of the first entry to
    append, after truncating at a conflict. *)
Fixpoint walkEntries (prev : LogIndex) (i : nat) (entries : list LogEntry)
    (c : RaftCore) : nat * RaftCore :=
  match entries with
  | [] => (i, c)
  | e :: entries =>
      let at_ := prev + 1 + N.of_nat i in
      if log_lastIndex (log_ c) <? at_ then (i, c)
      else if negb (log_termAt (log_ c) at_ =? e_term e) then
        let c := if at_ <=? commitIndex_ c
                 then emit (EError LogMatchingViolation) c else c in
        (i, truncateLog at_ c)
      else walkEntries prev (S i) entries c
  end.

Definition onAppendEntries (now : TimePoint) (from : NodeId) (ae : AppendEntries)
    (c : RaftCore) : RaftCore :=
  let cur := currentTerm c in
  if ae_term ae <? cur
  then send from (MAppendEntriesReply (mkAppendEntriesReply cur false 0 0)) c
  else if decide (role_ c = Leader) then emit (EError ElectionSafetyViolation) c
  else
    let c := set_leaderId (Some (ae_leaderId ae)) c in
    let c := if decide (role_ c = Candidate)
             then becomeFollower now cur LeaderDiscovered c else c in
    let c := resetElectionTimer now c in
    if log_lastIndex (log_ c) <? ae_prevLogIndex ae
    then send from (MAppendEntriesReply (mkAppendEntriesReply cur false
                      (log_lastIndex (log_ c) + 1) 0)) c
    else if negb (log_termAt (log_ c) (ae_prevLogIndex ae) =? ae_prevLogTerm ae) then
      let conflictTerm := log_termAt (log_ c) (ae_prevLogIndex ae) in
      let first := firstOfTerm (N.to_nat (ae_prevLogIndex ae)) (log_ c) conflictTerm
                     (ae_prevLogIndex ae) in
      send from (MAppendEntriesReply (mkAppendEntriesReply cur false first conflictTerm)) c
    else
      let '(i, c) := walkEntries (ae_prevLogIndex ae) 0 (ae_entries ae) c in
      let c := if (i <? length (ae_entries ae))%nat
               then appendLog (drop i (ae_entries ae)) c else c in
      let confirmedThrough := ae_prevLogIndex ae + N.of_nat (length (ae_entries ae)) in
      let c := if commitIndex_ c <? ae_leaderCommit ae
               then applyCommitted
                      (set_commitIndex (N.min (ae_leaderCommit ae) confirmedThrough) c)
               else c in
      send from (MAppendEntriesReply (mkAppendEntriesReply cur true confirmedThrough 0)) c.

(** Last index holding [term], searched downwards from [i]; 0 if there is none. *)
Fixpoint lastOfTerm (fuel : nat) (log : L) (term : Term) (i : LogIndex) : LogIndex :=
  match fuel with
  | O => 0
  | S fuel =>
      if 1 <=? i then
        if log_termAt log i =? term then i else lastOfTerm fuel log term (i - 1)
      else 0
  end.

Definition onAppendEntriesReply (from : NodeId) (r : AppendEntriesReply)
    (c : RaftCore) : RaftCore :=
  if negb (bool_decide (role_ c = Leader)) then c
  else if negb (aer_term r =? currentTerm c) then c
  else if aer_success r then
    let ack := aer_conflictIndex r in
    if log_lastIndex (log_ c) <? ack then emit (EError AckBeyondLog) c
    else
      let '(m, mi) := map_index (matchIndex_ c) from in
      let c := set_matchIndex mi c in
      if m <? ack then
        let c := set_matchIndex (<[from := ack]> (matchIndex_ c)) c in
        let c := set_nextIndex (<[from := ack + 1]> (nextIndex_ c)) c in
        let c := advanceCommit c in
        let '(ni, nm) := map_index (nextIndex_ c) from in
        let c := set_nextIndex nm c in
        if ni <=? log_lastIndex (log_ c) then sendAppendEntries from c else c
      else c
  else
    let ni :=
      if aer_conflictTerm r =? 0 then aer_conflictIndex r
      else
        let last := log_lastIndex (log_ c) in
        let lot := lastOfTerm (N.to_nat last) (log_ c) (aer_conflictTerm r) last in
        if negb (lot =? 0) then lot + 1 else aer_conflictIndex r in
    let '(cur, nm) := map_index (nextIndex_ c) from in
    let c := set_nextIndex nm c in
    let ni := N.min ni cur in
    let '(m, mm) := map_index (matchIndex_ c) from in
    let c := set_matchIndex mm c in
    let ni := N.max ni (m + 1) in
    let ni := N.max ni 1 in
    let c := set_nextIndex (<[from := ni]> (nextIndex_ c)) c in
    sendAppendEntries from c.

(** [onClient] is the registered client-request handler, if any. *)
Definition handle (onClient : option (NodeId → ClientRequest → RaftCore → RaftCore))
    (now : TimePoint) (env : Envelope) (m : Message) (c : RaftCore) : RaftCore :=
  let c := match termOf m with
           | Some t => if currentTerm c <? t
                       then becomeFollower now t HigherTermSeen c else c
           | None => c
           end in
  let from := env_from env in
  match m with
  | MRequestVote rv => onRequestVote now from rv c
  | MRequestVoteReply r => onRequestVoteReply now from r c
  | MAppendEntries ae => onAppendEntries now from ae c
  | MAppendEntriesReply r => onAppendEntriesReply from r c
  | MClientRequest r => match onClient with Some f => f from r c | None => c end
  | MClientReply _ => c
  end.

(** ** The reused AppendEntries message *)

(** The message a fresh build would send: everything from [nextIndex_[peer]]. *)
Definition freshAppendEntries (peer : NodeId) (c : RaftCore) : AppendEntries :=
  let next := (map_index (nextIndex_ c) peer).1 in
  mkAppendEntries (currentTerm c) (self_ c) (dec64 next) (log_termAt (log_ c) (dec64 next))
    (commitIndex_ c) (log_entriesSpan (log_ c) next).

Lemma aeShrink_length k es pool :
  (k ≤ length es)%nat → length (aeShrink k es pool).1 = (length es - k)%nat.
Proof.
  revert es pool. induction k as [|k IH]; intros es pool Hk; cbn [aeShrink]; [cbn; lia|].
  destruct (last es) as [e|] eqn:E.
  - rewrite IH; rewrite length_take; lia.
  - apply last_None in E as ->. cbn in *. lia.
Qed.

Lemma aeGrow_length k es pool : length (aeGrow k es pool).1 = (length es + k)%nat.
Proof.
  revert es pool. induction k as [|k IH]; intros es pool; cbn [aeGrow]; [cbn; lia|].
  destruct pool; rewrite IH, length_app; cbn; lia.
Qed.

Lemma aeOverwrite_app pre es src :
  length es = length src → aeOverwrite (length pre) src (pre ++ es) = pre ++ src.
Proof.
  revert pre es. induction src as [|e src IH]; intros pre [|x es] Hl; try done.
  cbn [aeOverwrite]. rewrite insert_app_r_alt, Nat.sub_diag by done. cbn [list_insert insert].
  destruct e as [t b]. cbn [e_term e_command].
  change (pre ++ mkLogEntry t b :: es) with (pre ++ [mkLogEntry t b] ++ es).
  rewrite app_assoc. specialize (IH (pre ++ [mkLogEntry t b]) es).
  rewrite length_app, Nat.add_1_r in IH. cbn in Hl. rewrite IH by lia. by rewrite <-app_assoc.
Qed.

Lemma sendAppendEntries_fresh peer c : ∃ pool,
  sendAppendEntries peer c =
    send peer (MAppendEntries (freshAppendEntries peer c))
      (set_cmdPool pool (set_aeMsg (freshAppendEntries peer c)
         (set_nextIndex (map_index (nextIndex_ c) peer).2 c))).
Proof.
  unfold sendAppendEntries, freshAppendEntries.
  destruct (map_index (nextIndex_ c) peer) as [next ni] eqn:En. cbv zeta.
  cbn [fst snd log_ aeMsg_ cmdPool_ set_nextIndex].
  set (src := log_entriesSpan (log_ c) next). set (es := ae_entries (aeMsg_ c)).
  pose proof (aeShrink_length (length es - length src) es (cmdPool_ c) ltac:(lia)) as H1.
  destruct (aeShrink _ es _) as [es1 pool1]. cbn [fst] in H1.
  pose proof (aeGrow_length (length src - length es1) es1 pool1) as H2.
  destruct (aeGrow _ es1 pool1) as [es2 pool2]. cbn [fst] in H2.
  pose proof (aeOverwrite_app [] es2 src ltac:(lia)) as Ho. cbn [app length] in Ho.
  rewrite Ho. by exists pool2.
Qed.

End RaftCore.
