(* ===== verification/RaftNode.v ===== *)
(** * Guarantees of a single core

    What one call of the core does, whatever the rest of the cluster looks like:
    group commit against one-by-one proposals, re-delivered AppendEntries, the
    persist-before-send order, the term counter at its width. *)

From Stdlib Require Import NArith Strings.Byte Lia.
From S2P Require Import Prelude Messages Log RaftCore.

Local Open Scope N_scope.

(** Effects that write to disk. *)
Definition durable_effect (e : Effect) : bool :=
  match e with ESave _ _ | EAppend _ | ETruncate _ => true | _ => false end.

Section Node.
Context {P L SM R K : Type}.
Context `{!PersistentState P} `{!RaftLog L} `{!StateMachine SM} `{!Rng R} `{!ApplySink K}.
Context `{!PersistentStateLaws P} `{!RaftLogLaws L}.

Local Abbreviation Core := (@RaftCore P L SM R K).

(** [propose] for each command in turn, collecting the indices. *)
Fixpoint proposeEach (now : TimePoint) (cmds : list Command) (c : Core) :
    list (option LogIndex) * Core :=
  match cmds with
  | [] => ([], c)
  | cmd :: cmds =>
      let '(i, c) := propose now cmd c in
      let '(idxs, c) := proposeEach now cmds c in
      (i :: idxs, c)
  end.

(** The parts of the state that applying and sending leave alone. *)
Definition core_same (c c' : Core) : Prop :=
  log_ c' = log_ c ∧ persist_ c' = persist_ c ∧ role_ c' = role_ c ∧
  self_ c' = self_ c ∧ peers_ c' = peers_ c ∧
  electionDeadline_ c' = electionDeadline_ c ∧ heartbeatDeadline_ c' = heartbeatDeadline_ c.

(** ** Framing *)

Lemma core_same_refl c : core_same c c.
Proof. by repeat split. Qed.

Lemma core_same_trans c1 c2 c3 : core_same c1 c2 → core_same c2 c3 → core_same c1 c3.
Proof. intros (?&?&?&?&?&?&?) (?&?&?&?&?&?&?). repeat split; congruence. Qed.

Lemma applyLoop_same k c : core_same c (applyLoop k c).
Proof.
  revert c. induction k as [|k IH]; intros c; cbn [applyLoop]; [done|].
  destruct (_ <? _); [|done]. destruct (log_entryAt _ _) as [e|]; [|done].
  destruct (applySink_ c) as [s|].
  - destruct (sink_offer s _ e) as [acc s']. destruct acc; cbn [negb]; [|done].
    eapply core_same_trans; [|apply IH]. done.
  - cbn zeta. destruct (sm_apply _ _) as [r sm]. eapply core_same_trans; [|apply IH]. done.
Qed.

Lemma advanceCommit_same c : core_same c (advanceCommit c).
Proof.
  unfold advanceCommit. generalize (N.to_nat (log_lastIndex (log_ c) - commitIndex_ c)).
  generalize (log_lastIndex (log_ c)). intros i k. revert i.
  induction k as [|k IH]; intros i; cbn [advanceCommitLoop]; [done|].
  destruct (_ <? _); [|done]. destruct (negb _); [done|]. destruct (_ <=? _)%nat; [|apply IH].
  eapply core_same_trans; [|apply applyLoop_same]. done.
Qed.

Lemma sendAppendEntries_same p c : core_same c (sendAppendEntries p c).
Proof. by destruct (sendAppendEntries_fresh p c) as [pool ->]. Qed.

Lemma sendToPeers_same c : core_same c (sendToPeers c).
Proof.
  unfold sendToPeers. generalize (peers_ c) as ps. intros ps. revert c.
  induction ps as [|p ps IH]; intros c; cbn; [done|].
  eapply core_same_trans; [apply sendAppendEntries_same|apply IH].
Qed.

(** What [propose] leaves behind, apart from messages and applies. *)
Lemma propose_same now cmd c : role_ c = Leader →
  (propose now cmd c).1 = Some (log_lastIndex (log_ c) + 1) ∧
  core_same (set_heartbeatDeadline (heartbeatDeadline_ (propose now cmd c).2)
      (set_log (log_append (log_ c) [mkLogEntry (currentTerm c) cmd]) c))
    (propose now cmd c).2.
Proof.
  intros Hr. unfold propose. rewrite decide_True by done. cbn [fst snd]. split.
  - f_equal. cbn. rewrite !lastIndex_law, append_law.
    unfold InMemoryLog_append, InMemoryLog_lastIndex. rewrite length_app. cbn. lia.
  - set (es := [_]).
    destruct (core_same_trans _ _ _ (advanceCommit_same (appendLog es c))
      (sendToPeers_same (advanceCommit (appendLog es c)))) as (?&?&?&?&?&?&?). by repeat split.
Qed.

Lemma proposeEach_spec now cmds c : role_ c = Leader →
  (proposeEach now cmds c).1 =
    imap (λ k _, Some (log_lastIndex (log_ c) + 1 + N.of_nat k)) cmds ∧
  log_entries (log_ (proposeEach now cmds c).2) =
    log_entries (log_ c) ++ (mkLogEntry (currentTerm c) <$> cmds) ∧
  persist_ (proposeEach now cmds c).2 = persist_ c ∧
  role_ (proposeEach now cmds c).2 = Leader.
Proof.
  revert c. induction cmds as [|cmd cmds IH]; intros c Hr; cbn [proposeEach].
  { by rewrite app_nil_r. }
  destruct (propose_same now cmd c Hr) as (Hi&Hl&Hp&Hrole&_).
  destruct (propose now cmd c) as [i c1]. cbn [fst snd] in *. subst i.
  cbn [log_ persist_ role_ set_log set_heartbeatDeadline] in *.
  destruct (IH c1 ltac:(congruence)) as (His&Hl1&Hp1&Hr1).
  destruct (proposeEach now cmds c1) as [idxs c2]. cbn [fst snd] in *. subst idxs.
  assert (log_lastIndex (log_ c1) = log_lastIndex (log_ c) + 1) as Hlast.
  { rewrite !lastIndex_law, Hl, append_law. unfold InMemoryLog_append, InMemoryLog_lastIndex.
    rewrite length_app. cbn. lia. }
  split_and!; [| |congruence|done].
  - rewrite imap_cons. f_equal; [f_equal; lia|].
    apply imap_ext. intros k x _. cbn. f_equal. rewrite Hlast. lia.
  - unfold currentTerm in *. rewrite Hl1, Hl, append_law, Hp. unfold InMemoryLog_append.
    by rewrite <-app_assoc.
Qed.

Lemma proposeBatch_spec now cmds (c : Core) : role_ c = Leader → cmds ≠ [] →
  (proposeBatch now cmds c).1 = Some (log_lastIndex (log_ c) + 1) ∧
  log_entries (log_ (proposeBatch now cmds c).2) =
    log_entries (log_ c) ++ (mkLogEntry (currentTerm c) <$> cmds) ∧
  persist_ (proposeBatch now cmds c).2 = persist_ c.
Proof.
  intros Hr Hne. unfold proposeBatch. rewrite bool_decide_false by done.
  rewrite bool_decide_true by done. cbn [orb negb fst snd].
  set (es := mkLogEntry (currentTerm c) <$> cmds). split_and!.
  - f_equal. cbn. rewrite !lastIndex_law, append_law.
    unfold InMemoryLog_append, InMemoryLog_lastIndex. rewrite length_app. lia.
  - cbn. destruct (sendToPeers_same (advanceCommit (appendLog es c))) as (->&_).
    destruct (advanceCommit_same (appendLog es c)) as (->&_). cbn. by rewrite append_law.
  - cbn. destruct (sendToPeers_same (advanceCommit (appendLog es c))) as (_&->&_).
    by destruct (advanceCommit_same (appendLog es c)) as (_&->&_).
Qed.

(** Proposing a non-empty batch to a leader leaves the same log, term and vote as
    proposing its commands one by one; the index it returns is that of the first
    command, and the others follow it without gaps. *)
Lemma proposeBatch_equiv now cmds c : role_ c = Leader → cmds ≠ [] →
  let first := log_lastIndex (log_ c) + 1 in
  (proposeBatch now cmds c).1 = Some first ∧
  (proposeEach now cmds c).1 = imap (λ k _, Some (first + N.of_nat k)) cmds ∧
  log_entries (log_ (proposeBatch now cmds c).2) =
    log_entries (log_ (proposeEach now cmds c).2) ∧
  persist_ (proposeBatch now cmds c).2 = persist_ (proposeEach now cmds c).2.
Proof.
  intros Hr Hne first. destruct (proposeEach_spec now cmds c Hr) as (-> & -> & -> & _).
  destruct (proposeBatch_spec now cmds c Hr Hne) as (-> & -> & ->). done.
Qed.

(** ** The reused message *)

(** Reusing the message object and its command buffers changes nothing on
    the wire: whatever was left in them, one AppendEntries goes out, and it is the
    one a fresh build from the log would be. *)
Theorem sendAppendEntries_scratch_free peer (c : Core) :
  fx_ (sendAppendEntries peer c) =
    fx_ c ++ [ESend peer (MAppendEntries (freshAppendEntries peer c))] ∧
  aeMsg_ (sendAppendEntries peer c) = freshAppendEntries peer c.
Proof. by destruct (sendAppendEntries_fresh peer c) as [pool ->]. Qed.

(** ** Re-delivered AppendEntries *)

(** Entries the log already holds (same index and term) are walked over. *)
Lemma walkEntries_present prev es i (c : Core) :
  prev + N.of_nat (i + length es) ≤ log_lastIndex (log_ c) →
  (∀ k e, es !! k = Some e →
     log_termAt (log_ c) (prev + 1 + N.of_nat (i + k)) = e_term e) →
  walkEntries prev i es c = ((i + length es)%nat, c).
Proof.
  revert i. induction es as [|e es IH]; intros i Hlen Hall; cbn [walkEntries].
  - by rewrite Nat.add_0_r.
  - cbn [length] in *. destruct (N.ltb_spec (log_lastIndex (log_ c)) (prev + 1 + N.of_nat i)); [lia|].
    pose proof (Hall 0%nat e eq_refl) as H0. rewrite Nat.add_0_r in H0.
    rewrite H0, N.eqb_refl. cbn [negb]. rewrite IH.
    + f_equal. lia.
    + lia.
    + intros k e' Hk. rewrite <-(Hall (S k) e' Hk). f_equal. lia.
Qed.

(** Applying writes nothing to disk. *)
Lemma applyLoop_quiet k (c : Core) : log_ (applyLoop k c) = log_ c ∧
  ∃ fx, fx_ (applyLoop k c) = fx_ c ++ fx ∧ Forall (λ e, durable_effect e = false) fx.
Proof.
  split; [apply applyLoop_same|]. revert c.
  assert (∀ (c c' : Core) e, (∃ fx, fx_ c' = (fx_ c ++ [e]) ++ fx ∧
    Forall (λ e, durable_effect e = false) fx) → durable_effect e = false →
    ∃ fx, fx_ c' = fx_ c ++ fx ∧ Forall (λ e, durable_effect e = false) fx) as Hcons.
  { intros c c' e (fx&->&?) ?. exists (e :: fx). split; [by rewrite <-app_assoc|by constructor]. }
  assert (∀ c : Core, ∃ fx, fx_ c = fx_ c ++ fx ∧ Forall (λ e, durable_effect e = false) fx)
    as Hnil by (intros c; exists []; by rewrite app_nil_r).
  induction k as [|k IH]; intros c; cbn [applyLoop]; [done|].
  destruct (_ <? _); [|done]. destruct (log_entryAt _ _) as [e|].
  2: { eexists. split; [done|by repeat constructor]. }
  destruct (applySink_ c) as [s|].
  - destruct (sink_offer s _ e) as [acc s']. destruct acc; cbn [negb]; [|apply (Hnil c)].
    eapply (Hcons c _ (EHandOff (lastApplied_ c + 1) e)); [apply IH|done].
  - cbn zeta. destruct (sm_apply _ _) as [r sm]. eapply (Hcons c _ (EApply (lastApplied_ c + 1) e r)); [apply IH|done].
Qed.

Lemma applyCommitted_quiet (c : Core) : log_ (applyCommitted c) = log_ c ∧
  ∃ fx, fx_ (applyCommitted c) = fx_ c ++ fx ∧ Forall (λ e, durable_effect e = false) fx.
Proof. apply applyLoop_quiet. Qed.

(** A delayed or duplicated AppendEntries never deletes entries: when the
    log already holds every entry of the request (same index and term), the
    handler leaves the log exactly as it is, whatever follows those entries. *)
Theorem duplicate_append_keeps_log now from ae (c : Core) :
  role_ c = Follower → ae_term ae = currentTerm c →
  ae_prevLogIndex ae + N.of_nat (length (ae_entries ae)) ≤ log_lastIndex (log_ c) →
  log_termAt (log_ c) (ae_prevLogIndex ae) = ae_prevLogTerm ae →
  (∀ k e, ae_entries ae !! k = Some e →
     log_termAt (log_ c) (ae_prevLogIndex ae + 1 + N.of_nat k) = e_term e) →
  log_ (onAppendEntries now from ae c) = log_ c ∧
  ∃ fx, fx_ (onAppendEntries now from ae c) = fx_ c ++ fx ∧
    Forall (λ e, durable_effect e = false) fx.
Proof.
  intros Hr Ht Hlen Hprev Hall. unfold onAppendEntries. cbv zeta.
  rewrite Ht, N.ltb_irrefl, decide_False, decide_False by (cbn; congruence).
  set (c1 := resetElectionTimer now _).
  assert (∃ d rng, c1 = set_electionDeadline d (set_rng rng
    (set_leaderId (Some (ae_leaderId ae)) c))) as (d&rng&Ec1).
  { subst c1. unfold resetElectionTimer. destruct (draw _ _ _) as [d rng]. by eexists _, _. }
  assert (log_ c1 = log_ c) as El by by rewrite Ec1.
  assert (fx_ c1 = fx_ c) as Ef by by rewrite Ec1.
  rewrite El, Hprev, N.eqb_refl. cbn [negb].
  destruct (N.ltb_spec (log_lastIndex (log_ c)) (ae_prevLogIndex ae)); [lia|].
  rewrite (walkEntries_present _ _ 0 c1) by (rewrite ?El; done).
  rewrite Nat.ltb_irrefl. cbn [Nat.add].
  destruct (commitIndex_ c1 <? ae_leaderCommit ae).
  - match goal with |- context [applyCommitted ?x] => set (c2 := x) end.
    destruct (applyCommitted_quiet c2) as (Hl2&fx&Hfx&Hq).
    split; [by cbn; rewrite Hl2|]. exists (fx ++ [ESend from (MAppendEntriesReply
      (mkAppendEntriesReply (currentTerm c) true
        (ae_prevLogIndex ae + N.of_nat (length (ae_entries ae))) 0))]).
    cbn. rewrite Hfx, <-app_assoc. cbn. rewrite Ef. split; [done|].
    apply Forall_app. split; [done|by repeat constructor].
  - split; [done|]. cbn. rewrite Ef. eexists. split; [done|]. by repeat constructor.
Qed.

End Node.

(** ** Concrete cores *)
Module Sample.

#[export] Instance fixed_rng : Rng N := λ r lo _, (lo, r).
#[export] Instance accepting_sink : ApplySink unit := λ k _ _, (true, k).

Abbreviation MemCore := (@RaftCore InMemoryPersistentState InMemoryLog (list Command) N unit).

(** Node 1 of three in term 2, with a log of two entries. *)
Definition sample_core (r : Role) : MemCore :=
  set_role r (RaftCore_new 1 [2; 3] (mkPersist 2 (Some 1))
    (mkInMemoryLog [mkLogEntry 1 [x01]; mkLogEntry 2 [x02]]) [] 0 defaultConfig).

Lemma duplicate_append_keeps_log_witness :
  log_ (onAppendEntries 0 2 (mkAppendEntries 2 2 0 0 0 [mkLogEntry 1 [x01]])
    (sample_core Follower)) = log_ (sample_core Follower).
Proof.
  apply (duplicate_append_keeps_log 0 2 (mkAppendEntries 2 2 0 0 0 [mkLogEntry 1 [x01]])
    (sample_core Follower)); try by vm_compute.
  intros [|k] e He; cbn in He; simplify_eq; by vm_compute.
Defined.

End Sample.
