(* ===== verification/RaftTerms.v ===== *)
(** * Terms only grow by elections

    The terms of a core and of everything it sends stay below any bound that
    covers its own term and the terms of the messages it is given; only an
    election timeout needs one more.  So a cluster's terms are bounded by the
    number of times its nodes were ticked, and never come near wrapping. *)

From Stdlib Require Import NArith Strings.Byte Lia.
From S2P Require Import Prelude Messages Log RaftCore RaftNode.

Local Open Scope N_scope.

Definition term_le (B : N) (m : Message) : Prop :=
  match termOf m with Some t => t ≤ B | None => True end.

Definition fx_le (B : N) (e : Effect) : Prop :=
  match e with ESend _ m => term_le B m | _ => True end.

Section Terms.
Context {P L SM R K : Type}.
Context `{!PersistentState P} `{!RaftLog L} `{!StateMachine SM} `{!Rng R} `{!ApplySink K}.
Context `{!PersistentStateLaws P}.

Local Abbreviation Core := (@RaftCore P L SM R K).

Definition bounded (B : N) (c : Core) : Prop := currentTerm c ≤ B ∧ Forall (fx_le B) (fx_ c).

Lemma bounded_mono B B' c : B ≤ B' → bounded B c → bounded B' c.
Proof.
  intros HB [Ht Hf]. split; [lia|]. eapply Forall_impl; [exact Hf|]. intros e.
  destruct e; try done. cbn. unfold term_le. destruct (termOf m); [lia|done].
Qed.

Lemma bounded_emit B e c : fx_le B e → bounded B c → bounded B (emit e c).
Proof. intros He [Ht Hf]. split; [done|]. cbn. apply Forall_app. split; [done|by constructor]. Qed.

Lemma bounded_send B to m c : term_le B m → bounded B c → bounded B (send to m c).
Proof. intros Hm. by apply (bounded_emit B (ESend to m)). Qed.

(** Only the durable term and the trace matter. *)
Lemma bounded_frame B c c' : persist_ c' = persist_ c → fx_ c' = fx_ c → bounded B c → bounded B c'.
Proof. unfold bounded, currentTerm. by intros -> ->. Qed.

Lemma persist_bounded B t v c : t ≤ B → bounded B c → bounded B (persistTermAndVote t v c).
Proof.
  intros Ht [_ Hf]. apply bounded_emit; [done|]. split; [|done]. unfold currentTerm. cbn. by rewrite save_term.
Qed.

Lemma foldl_bounded B {X} (f : Core → X → Core) l c :
  (∀ c x, bounded B c → bounded B (f c x)) → bounded B c → bounded B (foldl f c l).
Proof. intros Hf. revert c. induction l; intros c Hc; cbn; auto. Qed.

Lemma applyLoop_bounded B k c : bounded B c → bounded B (applyLoop k c).
Proof.
  revert c. induction k as [|k IH]; intros c Hc; cbn [applyLoop]; [done|].
  destruct (_ <? _); [|done]. destruct (log_entryAt _ _) as [e|]; [|by apply bounded_emit].
  destruct (applySink_ c) as [s|].
  - destruct (sink_offer _ _ _) as [acc s']. destruct (negb acc); [done|].
    apply IH, bounded_emit; [done|]. by apply (bounded_frame B c).
  - destruct (sm_apply _ _) as [r sm]. apply IH, bounded_emit; [done|]. by apply (bounded_frame B c).
Qed.

Lemma advanceCommitLoop_bounded B k i c : bounded B c → bounded B (advanceCommitLoop k i c).
Proof.
  revert i. induction k as [|k IH]; intros i Hc; cbn [advanceCommitLoop]; [done|].
  destruct (_ <? _); [|done]. destruct (negb _); [done|].
  destruct (_ <=? _)%nat; [by apply applyLoop_bounded|by apply IH].
Qed.

Lemma sendAppendEntries_bounded B p c : bounded B c → bounded B (sendAppendEntries p c).
Proof.
  intros Hc. destruct (sendAppendEntries_fresh p c) as [pool ->].
  apply bounded_send; [|by apply (bounded_frame B c)]. apply Hc.
Qed.

Lemma sendToPeers_bounded B c : bounded B c → bounded B (sendToPeers c).
Proof.
  intros Hc. apply (foldl_bounded B (λ c p, sendAppendEntries p c)); [|done].
  intros; by apply sendAppendEntries_bounded.
Qed.

Lemma resetElectionTimer_bounded B now c : bounded B c → bounded B (resetElectionTimer now c).
Proof. unfold resetElectionTimer. by destruct (draw _ _ _). Qed.

Lemma becomeFollower_bounded B now t ev c : t ≤ B → bounded B c → bounded B (becomeFollower now t ev c).
Proof.
  intros Ht Hc. unfold becomeFollower. cbv zeta. apply bounded_emit; [done|].
  match goal with |- context [decide (role_ ?x = Leader)] => assert (bounded B x) as H1 end.
  { destruct (_ <? _); [|done]. by apply (persist_bounded B t None). }
  destruct (decide _); [|done].
  by apply (resetElectionTimer_bounded B now (set_heartbeatDeadline _ _)).
Qed.

Lemma becomeLeader_bounded B now c : bounded B c → bounded B (becomeLeader now c).
Proof.
  intros Hc. unfold becomeLeader, sendHeartbeats. cbv zeta.
  by apply (sendToPeers_bounded B), bounded_emit.
Qed.

(** An election takes the next term. *)
Lemma startElection_bounded B now c : currentTerm c + 1 < two64 → bounded B c →
  bounded (B + 1) (startElection now c).
Proof.
  intros Hw Hc. pose proof (proj1 Hc) as Ht. apply (bounded_mono B (B + 1)) in Hc; [|lia].
  unfold startElection. cbv zeta. rewrite add64_small by done.
  match goal with |- context [resetElectionTimer now ?x] => assert (bounded (B + 1) x) as H1 end.
  { apply (persist_bounded (B + 1) (currentTerm c + 1) (Some (self_ c)) c); [lia|done]. }
  apply (resetElectionTimer_bounded _ now) in H1.
  match goal with H : bounded _ ?x |- _ => set (c1 := x) in * end.
  match goal with |- bounded _ (if _ then becomeLeader now ?x else _) => assert (bounded (B + 1) x) as H2 end.
  { apply foldl_bounded; [|by apply bounded_emit]. intros c' p Hc'. apply bounded_send; [|done].
    apply H1. }
  destruct (_ <=? _)%nat; [by apply becomeLeader_bounded|done].
Qed.

Lemma tick_bounded B now c : currentTerm c + 1 < two64 → bounded B c → bounded (B + 1) (tick now c).
Proof.
  intros Hw Hc. unfold tick. destruct (_ && _); [by apply startElection_bounded|].
  apply (bounded_mono B (B + 1)) in Hc; [|lia]. destruct (_ && _); [|done].
  by apply (sendToPeers_bounded (B + 1)).
Qed.

Lemma propose_bounded B now cmd c : bounded B c → bounded B (propose now cmd c).2.
Proof.
  intros Hc. unfold propose. destruct (decide _); [|done]. cbn [snd].
  apply (sendToPeers_bounded B), advanceCommitLoop_bounded. by apply (bounded_emit B).
Qed.

Lemma proposeBatch_bounded B now cmds c : bounded B c → bounded B (proposeBatch now cmds c).2.
Proof.
  intros Hc. unfold proposeBatch. destruct (_ || _); [done|]. cbn [snd].
  apply (sendToPeers_bounded B), advanceCommitLoop_bounded. by apply (bounded_emit B).
Qed.

Lemma walkEntries_bounded B prev i es c : bounded B c → bounded B (walkEntries prev i es c).2.
Proof.
  revert i c. induction es as [|e es IH]; intros i c Hc; cbn [walkEntries]; [done|].
  destruct (_ <? _); [done|]. destruct (negb _); [|by apply IH]. cbn [snd].
  destruct (_ <=? _); [|by apply (bounded_emit B)]. by apply (bounded_emit B), (bounded_emit B).
Qed.

Lemma onAppendEntries_bounded B now from ae c : bounded B c → bounded B (onAppendEntries now from ae c).
Proof.
  intros Hc. pose proof (proj1 Hc) as Ht. unfold onAppendEntries.
  destruct (_ <? _); [by apply bounded_send|]. destruct (decide _); [by apply bounded_emit|].
  cbv zeta. match goal with |- context [resetElectionTimer now ?x] =>
    assert (bounded B (resetElectionTimer now x)) as H1; [|set (c1 := resetElectionTimer now x) in *] end.
  { apply resetElectionTimer_bounded. destruct (decide _); [by apply becomeFollower_bounded|done]. }
  destruct (_ <? _); [by apply bounded_send|]. destruct (negb _); [by apply bounded_send|].
  pose proof (walkEntries_bounded B (ae_prevLogIndex ae) 0 (ae_entries ae) c1 H1) as H2.
  destruct (walkEntries _ _ _ c1) as [i c2]. cbn [snd] in H2. apply bounded_send; [done|].
  match goal with |- context [commitIndex_ ?x] => assert (bounded B x) as H3 end.
  { destruct (_ <? _)%nat; [by apply (bounded_emit B)|done]. }
  destruct (_ <? _); [by apply applyLoop_bounded|done].
Qed.

Lemma onAppendEntriesReply_bounded B from r c : bounded B c → bounded B (onAppendEntriesReply from r c).
Proof.
  intros Hc. unfold onAppendEntriesReply. destruct (negb _); [done|]. destruct (negb _); [done|].
  destruct (aer_success r).
  - destruct (_ <? _); [by apply bounded_emit|]. destruct (map_index _ _) as [m mi]. cbv zeta.
    destruct (_ <? _); [|done].
    match goal with |- context [advanceCommit ?x] => assert (bounded B (advanceCommit x)) as H1;
      [by apply advanceCommitLoop_bounded|set (c1 := advanceCommit x) in *] end.
    destruct (map_index _ _) as [ni nm]. destruct (_ <=? _); [|done].
    by apply sendAppendEntries_bounded.
  - cbv zeta. destruct (map_index _ _) as [cur nm]. destruct (map_index _ _) as [m mm].
    by apply sendAppendEntries_bounded.
Qed.

Lemma handle_bounded B onClient now env m c :
  (∀ f, onClient = Some f → ∀ from r c, bounded B c → bounded B (f from r c)) →
  term_le B m → bounded B c → bounded B (handle onClient now env m c).
Proof.
  intros Hf Hm Hc. unfold handle. cbv zeta.
  match goal with |- context [onRequestVote _ _ _ ?x] => assert (bounded B x) as H1; [|generalize dependent x] end.
  { unfold term_le in Hm. destruct (termOf m); [|done]. destruct (_ <? _); [|done].
    by apply becomeFollower_bounded. }
  intros c1 H1. destruct m; cbv zeta.
  - unfold onRequestVote. pose proof (proj1 H1) as Ht. destruct (_ <? _); [by apply bounded_send|]. cbv zeta.
    apply bounded_send; [done|]. destruct (_ && _); [|done].
    by apply resetElectionTimer_bounded, persist_bounded.
  - unfold onRequestVoteReply. destruct (negb _); [done|]. destruct (_ || _); [done|]. cbv zeta.
    destruct (_ <=? _)%nat; [by apply becomeLeader_bounded|done].
  - by apply onAppendEntries_bounded.
  - by apply onAppendEntriesReply_bounded.
  - destruct onClient as [f|]; [by apply Hf|done].
  - done.
Qed.

End Terms.
