(* ===== verification/RaftSpec.v ===== *)
(** * The protocol the core implements, as guarded atomic actions

    An abstract Raft over one shared state: what every node holds (term, role,
    log, commit index) and the history the argument needs - who voted for whom
    in each term and with which log, how far each node acknowledged each
    leader, and the log of the leader of each term.  Messages do not appear:
    an action's guard is the fact about the history that a message of the
    implementation vouches for.

    [Inv] is an inductive invariant of the actions; Election Safety, Log
    Matching, Leader Completeness and State Machine Safety follow from it.
    RaftRefine.v shows that the handlers of [RaftCore] only perform these
    actions. *)

From Stdlib Require Import NArith Lia.
From stdpp Require Import functions.
From S2P Require Import Prelude Messages Log RaftCore.

Local Open Scope nat_scope.

(** ** Logs that agree up to an index *)

Definition same (i : nat) (l1 l2 : list LogEntry) : Prop :=
  i ≤ length l1 ∧ i ≤ length l2 ∧ take i l1 = take i l2.

(** Entry terms never decrease along a log. *)
Definition mono_terms (l : list LogEntry) : Prop :=
  ∀ i j, 0 < i → i ≤ j → j ≤ length l → (term_of l i ≤ term_of l j)%N.

Definition last_term (l : list LogEntry) : N := term_of l (length l).

(** The election restriction: [candidateLogAtLeastAsUpToDate] on whole logs. *)
Definition up_to_date (cand mine : list LogEntry) : Prop :=
  (last_term mine < last_term cand)%N ∨
  (last_term mine = last_term cand ∧ length mine ≤ length cand).

(** ** Facts about [same] *)

Lemma take_take_le (l : list LogEntry) i k : i ≤ k → take i (take k l) = take i l.
Proof. intros. by rewrite take_take, Nat.min_l. Qed.

Lemma same_refl i l : i ≤ length l → same i l l.
Proof. by repeat split. Qed.

Lemma same_sym i l1 l2 : same i l1 l2 → same i l2 l1.
Proof. intros (?&?&?); by repeat split. Qed.

Lemma same_trans i l1 l2 l3 : same i l1 l2 → same i l2 l3 → same i l1 l3.
Proof. intros (?&?&?) (?&?&?); repeat split; [done|done|congruence]. Qed.

Lemma same_le i j l1 l2 : j ≤ i → same i l1 l2 → same j l1 l2.
Proof.
  intros Hj (H1&H2&H). repeat split; [lia|lia|].
  by rewrite <-(take_take_le l1 j i), <-(take_take_le l2 j i), H by lia.
Qed.

Lemma same_prefix i l1 l2 l2' : l2 `prefix_of` l2' → same i l1 l2 → same i l1 l2'.
Proof.
  intros [k ->] (H1&H2&H). repeat split; [done|rewrite length_app; lia|].
  by rewrite take_app_le.
Qed.

Lemma same_take i k l : i ≤ k → i ≤ length l → same i (take k l) l.
Proof. intros. repeat split; [rewrite length_take; lia|done|]. by rewrite take_take_le. Qed.

Lemma same_term i j l1 l2 : same i l1 l2 → j ≤ i → term_of l1 j = term_of l2 j.
Proof.
  intros (H1&H2&H) Hj. destruct j as [|j]; [done|]. simpl.
  by rewrite <-(lookup_take_lt l1 i j), <-(lookup_take_lt l2 i j), H by lia.
Qed.

Lemma term_of_app l k i : i ≤ length l → term_of (l ++ k) i = term_of l i.
Proof. destruct i; [done|]. intros. simpl. by rewrite lookup_app_l by lia. Qed.

Lemma term_of_snoc l e : term_of (l ++ [e]) (S (length l)) = e_term e.
Proof. simpl. by rewrite lookup_app_r, Nat.sub_diag by lia. Qed.

Lemma mono_terms_snoc l e :
  mono_terms l → (last_term l ≤ e_term e)%N → mono_terms (l ++ [e]).
Proof.
  intros Hm He i j Hi Hij Hj. rewrite length_app in Hj; cbn in Hj.
  destruct (decide (j ≤ length l)) as [Hjl|].
  - rewrite !term_of_app by lia. by apply Hm.
  - assert (j = S (length l)) as -> by lia. rewrite term_of_snoc.
    destruct (decide (i ≤ length l)) as [Hil|].
    + rewrite term_of_app by lia. etrans; [apply Hm|exact He]; lia.
    + assert (i = S (length l)) as -> by lia. rewrite term_of_snoc. lia.
Qed.

Lemma mono_terms_take l k : mono_terms l → mono_terms (take k l).
Proof.
  intros Hm i j Hi Hij Hj. rewrite length_take in Hj.
  rewrite !(same_term j _ (take k l) l) by (try apply same_take; lia).
  apply Hm; lia.
Qed.

(** ** State *)

Record AState := mkA {
  a_term : N → N;
  a_role : N → Role;
  a_log : N → list LogEntry;
  a_commit : N → nat;
  a_voted : N → N → option N;                  (* node, term: the vote cast *)
  a_vlog : N → N → list LogEntry;              (* node, term: the log it was cast with *)
  a_acked : N → N → nat;                       (* node, term: index acknowledged *)
  a_elected : N → option (N * list LogEntry);  (* term: the leader and its log *)
}.

Definition upd2 {B} (f : N → N → B) (n t : N) (b : B) : N → N → B :=
  <[n := <[t := b]> (f n)]> f.

Definition leader_log (A : AState) (t : N) : list LogEntry :=
  match a_elected A t with Some (_, l) => l | None => [] end.

Section Spec.
Context (members : list N).

Definition quorum (V : gset N) : Prop :=
  V ⊆ list_to_set members ∧ length members / 2 + 1 ≤ size V.

(** Index [i] of term [t]'s leader log holds an entry created in term [t]. *)
Definition own (A : AState) (t : N) (i : nat) : Prop :=
  0 < i ∧ i ≤ length (leader_log A t) ∧ term_of (leader_log A t) i = t.

(** A majority holds the entry: it is committed for ever. *)
Definition chosen (A : AState) (t : N) (i : nat) : Prop :=
  own A t i ∧ ∃ V, quorum V ∧ ∀ n, n ∈ V → i ≤ a_acked A n t.

(** A majority moved on without holding the entry: it can never be committed. *)
Definition dead (A : AState) (t : N) (i : nat) : Prop :=
  ∃ V, quorum V ∧ ∀ n, n ∈ V → (t < a_term A n)%N ∧ a_acked A n t < i.

(** The first [j] entries of [l] are covered by a chosen entry. *)
Definition covered (A : AState) (b : N) (l : list LogEntry) (j : nat) : Prop :=
  j = 0 ∨ ∃ t i, chosen A t i ∧ (t ≤ b)%N ∧ j ≤ i ∧ same j l (leader_log A t).

(** ** Actions *)

Definition UpdateTerm (n t : N) (A : AState) : AState :=
  mkA (<[n := t]> (a_term A)) (<[n := Follower]> (a_role A)) (a_log A) (a_commit A)
    (a_voted A) (a_vlog A) (a_acked A) (a_elected A).

Definition CastVote (n c : N) (A : AState) : AState :=
  mkA (a_term A) (a_role A) (a_log A) (a_commit A)
    (upd2 (a_voted A) n (a_term A n) (Some c))
    (upd2 (a_vlog A) n (a_term A n) (a_log A n)) (a_acked A) (a_elected A).

Definition SetRole (n : N) (r : Role) (A : AState) : AState :=
  mkA (a_term A) (<[n := r]> (a_role A)) (a_log A) (a_commit A)
    (a_voted A) (a_vlog A) (a_acked A) (a_elected A).

Definition SetLog (n : N) (l : list LogEntry) (A : AState) : AState :=
  mkA (a_term A) (a_role A) (<[n := l]> (a_log A)) (a_commit A)
    (a_voted A) (a_vlog A) (a_acked A) (a_elected A).

Definition SetElected (n : N) (A : AState) : AState :=
  mkA (a_term A) (a_role A) (a_log A) (a_commit A) (a_voted A) (a_vlog A) (a_acked A)
    (<[a_term A n := Some (n, a_log A n)]> (a_elected A)).

Definition SetAcked (n : N) (j : nat) (A : AState) : AState :=
  mkA (a_term A) (a_role A) (a_log A) (a_commit A) (a_voted A) (a_vlog A)
    (upd2 (a_acked A) n (a_term A n) j) (a_elected A).

Definition SetCommit (n : N) (j : nat) (A : AState) : AState :=
  mkA (a_term A) (a_role A) (a_log A) (<[n := j]> (a_commit A))
    (a_voted A) (a_vlog A) (a_acked A) (a_elected A).

(** What node [n] may do. *)
Inductive astep (n : N) (A : AState) : AState → Prop :=
| act_update_term t :
    (a_term A n < t)%N → astep n A (UpdateTerm n t A)
| act_timeout :
    astep n A (SetRole n Candidate (CastVote n n (UpdateTerm n (a_term A n + 1) A)))
| act_vote c :
    a_voted A n (a_term A n) = None →
    a_voted A c (a_term A n) = Some c →
    up_to_date (a_vlog A c (a_term A n)) (a_log A n) →
    astep n A (CastVote n c A)
| act_become_leader Q :
    a_role A n = Candidate → quorum Q →
    (∀ q, q ∈ Q → a_voted A q (a_term A n) = Some n) →
    astep n A (SetElected n (SetRole n Leader A))
| act_leader_append e :
    a_role A n = Leader → e_term e = a_term A n →
    astep n A (SetAcked n (S (length (a_log A n)))
                 (SetElected n (SetLog n (a_log A n ++ [e]) A)))
| act_follower_truncate k :
    a_role A n = Follower →
    k < length (a_log A n) → k < length (leader_log A (a_term A n)) →
    term_of (a_log A n) (S k) ≠ term_of (leader_log A (a_term A n)) (S k) →
    astep n A (SetLog n (take k (a_log A n)) A)
| act_follower_append e :
    a_role A n = Follower →
    same (length (a_log A n)) (a_log A n) (leader_log A (a_term A n)) →
    leader_log A (a_term A n) !! length (a_log A n) = Some e →
    astep n A (SetLog n (a_log A n ++ [e]) A)
| act_ack j :
    same j (a_log A n) (leader_log A (a_term A n)) →
    astep n A (SetAcked n (a_acked A n (a_term A n) `max` j) A)
| act_commit j :
    a_commit A n ≤ j → covered A (a_term A n) (a_log A n) j → astep n A (SetCommit n j A)
| act_step_down : astep n A (SetRole n Follower A).

(** Losing volatile state is stepping down and forgetting the commit index. *)
Definition Crash (n : N) (A : AState) : AState := SetCommit n 0 (SetRole n Follower A).

(** Any node acts or crashes. *)
Definition aany (A A' : AState) : Prop := ∃ n, astep n A A' ∨ A' = Crash n A.

(** ** The invariant *)

Definition good (A : AState) (b : N) (l : list LogEntry) : Prop :=
  mono_terms l ∧
  ∀ i, 0 < i → i ≤ length l →
    (term_of l i ≤ b)%N ∧ same i l (leader_log A (term_of l i)).

Record Inv (A : AState) : Prop := {
  inv_log n : good A (a_term A n) (a_log A n);
  inv_vlog n t c : a_voted A n t = Some c → good A t (a_vlog A n t);
  inv_llog t : good A t (leader_log A t);
  inv_pos n t c : a_voted A n t = Some c → (0 < t)%N;
  inv_voted n t c : a_voted A n t = Some c →
    (t ≤ a_term A n)%N ∧ a_voted A c t = Some c ∧
    up_to_date (a_vlog A c t) (a_vlog A n t);
  inv_self n t : a_voted A n t = Some n →
    ∀ i, 0 < i → i ≤ length (a_vlog A n t) → (term_of (a_vlog A n t) i < t)%N;
  inv_candidate n : a_role A n = Candidate →
    a_voted A n (a_term A n) = Some n ∧ a_log A n = a_vlog A n (a_term A n) ∧
    ∀ l, a_elected A (a_term A n) ≠ Some (n, l);
  inv_leader n : a_role A n = Leader → a_elected A (a_term A n) = Some (n, a_log A n);
  inv_elected t c l : a_elected A t = Some (c, l) →
    (0 < t)%N ∧ (t ≤ a_term A c)%N ∧
    ∃ Q, quorum Q ∧ ∀ q, q ∈ Q → a_voted A q t = Some c;
  inv_acked n t : 0 < a_acked A n t →
    (t ≤ a_term A n)%N ∧ a_acked A n t ≤ length (leader_log A t);
  inv_complete t t' i p : (t < t')%N → a_elected A t' = Some p → own A t i →
    same i (leader_log A t) (leader_log A t') ∨ dead A t i;
  inv_keep n t i : own A t i → i ≤ a_acked A n t →
    same i (leader_log A t) (a_log A n) ∨ dead A t i;
  inv_vkeep n t t' c i : a_voted A n t' = Some c → (t < t')%N → own A t i →
    i ≤ a_acked A n t → same i (leader_log A t) (a_vlog A n t') ∨ dead A t i;
  inv_current n :
    same (a_acked A n (a_term A n)) (a_log A n) (leader_log A (a_term A n));
  inv_commit n : covered A (a_term A n) (a_log A n) (a_commit A n);
}.

Definition A_init : AState :=
  mkA (λ _, 0%N) (λ _, Follower) (λ _, []) (λ _, 0) (λ _ _, None) (λ _ _, [])
    (λ _ _, 0) (λ _, None).

(** What no action takes back. *)
Record extends (A A' : AState) : Prop := {
  ext_term n : (a_term A n ≤ a_term A' n)%N;
  ext_voted n t c : a_voted A n t = Some c →
    a_voted A' n t = Some c ∧ a_vlog A' n t = a_vlog A n t;
  ext_acked n t : a_acked A n t ≤ a_acked A' n t;
  ext_past n t : (t < a_term A n)%N → a_acked A' n t = a_acked A n t;
  ext_elected t c l : a_elected A t = Some (c, l) →
    ∃ l', a_elected A' t = Some (c, l') ∧ l `prefix_of` l';
}.

(** ** Quorums *)

Lemma size_list_to_set_le (l : list N) : size (list_to_set l : gset N) ≤ length l.
Proof.
  induction l as [|x l IH]; [done|]. rewrite list_to_set_cons, size_union_alt, size_singleton.
  cbn [length]. etrans; [apply Nat.add_le_mono_l, (subseteq_size _ (list_to_set l)); set_solver|lia].
Qed.

Lemma quorum_meet V1 V2 : quorum V1 → quorum V2 → ∃ n, n ∈ V1 ∧ n ∈ V2.
Proof.
  intros [Hs1 Hc1] [Hs2 Hc2].
  destruct (set_choose_or_empty (V1 ∩ V2)) as [[n Hn]|He].
  { exists n. by apply elem_of_intersection in Hn. }
  assert (size (V1 ∪ V2) ≤ length members) as Hle.
  { etrans; [apply (subseteq_size _ (list_to_set members)); set_solver|].
    apply size_list_to_set_le. }
  rewrite size_union in Hle by set_solver.
  pose proof (Nat.div_mod_eq (length members) 2).
  pose proof (Nat.mod_upper_bound (length members) 2). lia.
Qed.

Lemma quorum_inhabited V : quorum V → ∃ n, n ∈ V.
Proof. intros HV. destruct (quorum_meet V V HV HV) as (n&?&?). eauto. Qed.

Lemma chosen_not_dead A t i : chosen A t i → ¬ dead A t i.
Proof.
  intros [_ (V&HV&H)] (V'&HV'&H'). destruct (quorum_meet _ _ HV HV') as (n&Hn&Hn').
  specialize (H _ Hn). specialize (H' _ Hn'). lia.
Qed.

(** ** What is stable under [extends] *)

Section Stable.
Context {A A' : AState} (E : extends A A').

Lemma ext_llog t : leader_log A t `prefix_of` leader_log A' t.
Proof.
  unfold leader_log. destruct (a_elected A t) as [[c l]|] eqn:El; [|apply prefix_nil].
  by destruct (ext_elected _ _ E _ _ _ El) as (l'&->&?).
Qed.

Lemma ext_same i l t : same i l (leader_log A t) → same i l (leader_log A' t).
Proof. apply same_prefix, ext_llog. Qed.

Lemma ext_own t i : own A t i → own A' t i.
Proof.
  intros (H0&Hl&Ht). destruct (ext_llog t) as [k Hk]. unfold own. rewrite Hk.
  rewrite length_app, term_of_app by done. repeat split; [done|lia|done].
Qed.

Lemma ext_own_back t i : i ≤ length (leader_log A t) → own A' t i → own A t i.
Proof.
  intros Hi (H0&Hl&Ht). destruct (ext_llog t) as [k Hk]. rewrite Hk in Ht.
  rewrite term_of_app in Ht by done. by repeat split.
Qed.

Lemma ext_dead t i : dead A t i → dead A' t i.
Proof.
  intros (V&HV&H). exists V. split; [done|]. intros n Hn. destruct (H n Hn) as [Ht Ha].
  rewrite (ext_past _ _ E n t Ht). pose proof (ext_term _ _ E n). split; [lia|done].
Qed.

Lemma ext_chosen t i : chosen A t i → chosen A' t i.
Proof.
  intros [Ho (V&HV&H)]. split; [by apply ext_own|]. exists V. split; [done|].
  intros n Hn. etrans; [by apply H|apply (ext_acked _ _ E)].
Qed.

Lemma ext_covered b b' l j : (b ≤ b')%N → covered A b l j → covered A' b' l j.
Proof.
  intros Hb [?|(t&i&?&?&?&?)]; [by left|right]. exists t, i.
  repeat split_and; [by apply ext_chosen|lia|done|by apply ext_same].
Qed.

Lemma ext_good b b' l : (b ≤ b')%N → good A b l → good A' b' l.
Proof.
  intros Hb [Hm H]. split; [done|]. intros i Hi Hil. destruct (H i Hi Hil).
  split; [lia|by apply ext_same].
Qed.

Lemma ext_same_l i t l : same i (leader_log A t) l → same i (leader_log A' t) l.
Proof. intros. by apply same_sym, ext_same, same_sym. Qed.

End Stable.

Lemma extends_refl A : extends A A.
Proof. split; [done|done|done|done|]. intros t c l ?. by exists l. Qed.

Lemma extends_trans A1 A2 A3 : extends A1 A2 → extends A2 A3 → extends A1 A3.
Proof.
  intros E F. split.
  - intros n. etrans; [apply (ext_term _ _ E)|apply (ext_term _ _ F)].
  - intros n t c H. destruct (ext_voted _ _ E _ _ _ H) as [H2 E2].
    destruct (ext_voted _ _ F _ _ _ H2) as [H3 E3]. split; [done|congruence].
  - intros n t. etrans; [apply (ext_acked _ _ E)|apply (ext_acked _ _ F)].
  - intros n t H. rewrite (ext_past _ _ F); [by apply (ext_past _ _ E)|].
    pose proof (ext_term _ _ E n). lia.
  - intros t c l H. destruct (ext_elected _ _ E _ _ _ H) as (l2&H2&?).
    destruct (ext_elected _ _ F _ _ _ H2) as (l3&H3&?). exists l3.
    split; [done|by etrans].
Qed.

End Spec.
