(* ===== verification/RaftInv.v ===== *)
(** * The abstract protocol keeps its invariant, and the invariant is enough

    [Inv_frame] reduces preservation to what the acting node changed; one lemma
    per action discharges it.  The four Raft safety properties are consequences
    of [Inv]. *)

From Stdlib Require Import NArith Lia.
From stdpp Require Import functions.
From S2P Require Import Prelude Messages Log RaftCore RaftSpec.

Local Open Scope nat_scope.

Lemma upd2_eq {B} (f : N → N → B) n t b : upd2 f n t b n t = b.
Proof. unfold upd2. by rewrite !fn_lookup_insert. Qed.

Lemma upd2_ne {B} (f : N → N → B) n t b m t' :
  n ≠ m ∨ t ≠ t' → upd2 f n t b m t' = f m t'.
Proof.
  unfold upd2. intros H. destruct (decide (n = m)) as [<-|Hn].
  - rewrite fn_lookup_insert. destruct H; [done|]. by rewrite fn_lookup_insert_ne.
  - by rewrite fn_lookup_insert_ne.
Qed.

(** Case analysis on the updated components of a state. *)
Ltac upd :=
  cbn [a_term a_role a_log a_commit a_voted a_vlog a_acked a_elected
       UpdateTerm CastVote SetRole SetLog SetElected SetAcked SetCommit] in *;
  rewrite ?fn_lookup_insert, ?upd2_eq in *;
  repeat match goal with
  | H : ?n ≠ ?m |- _ =>
      progress rewrite ?(fn_lookup_insert_ne _ n m _ H),
        ?(fn_lookup_insert_ne _ m n _ (not_eq_sym H)) in *
  | H : ?n ≠ ?m |- _ =>
      progress rewrite ?(upd2_ne _ n _ _ m _ (or_introl H)),
        ?(upd2_ne _ m _ _ n _ (or_introl (not_eq_sym H))),
        ?(upd2_ne _ _ n _ _ m (or_intror H)),
        ?(upd2_ne _ _ m _ _ n (or_intror (not_eq_sym H))) in *
  end.

Ltac frame_others :=
  intros ? ?; split_and!; [..|intros ?; split]; by upd.

Section Inv.
Context (members : list N).

(** ** Consequences of the invariant *)

Section Facts.
Context (A : AState) (I : Inv members A).

Lemma good_last b l : good A b l → (last_term l ≤ b)%N.
Proof.
  intros [_ G]. destruct l as [|x l]; [unfold last_term; cbn; lia|].
  apply G; cbn; lia.
Qed.

Lemma good_snoc b l e : good A b l → (last_term l ≤ e_term e)%N → (e_term e ≤ b)%N →
  same (S (length l)) (l ++ [e]) (leader_log A (e_term e)) → good A b (l ++ [e]).
Proof.
  intros [M G] Hl Hb Hs. split; [by apply mono_terms_snoc|]. intros i Hi Hil.
  rewrite length_app in Hil. cbn in Hil. destruct (decide (i ≤ length l)) as [Hle|].
  - rewrite term_of_app by done. destruct (G i Hi Hle) as [? S]. split; [done|].
    apply same_sym. eapply same_prefix; [|by apply same_sym]. by exists [e].
  - assert (i = S (length l)) as -> by lia. by rewrite term_of_snoc.
Qed.

Lemma good_take b l k : good A b l → good A b (take k l).
Proof.
  intros [M G]. split; [by apply mono_terms_take|]. intros i Hi Hil.
  rewrite length_take in Hil. assert (same i (take k l) l) as S by (apply same_take; lia).
  rewrite (same_term i i _ _ S) by done. destruct (G i Hi) as [? S']; [lia|].
  split; [done|by eapply same_trans].
Qed.

Lemma covered_app b l k j : covered members A b l j → covered members A b (l ++ k) j.
Proof.
  intros [?|(t&i&?&?&?&S)]; [by left|right]. exists t, i. split_and!; try done.
  apply same_sym. eapply same_prefix; [|by apply same_sym]. by exists k.
Qed.

Lemma covered_take b l k j :
  covered members A b l j → j ≤ k → covered members A b (take k l) j.
Proof.
  intros [?|(t&i&?&?&?&S)] Hj; [by left|right]. exists t, i. split_and!; try done.
  eapply same_trans; [|exact S]. apply same_take; [done|apply S].
Qed.

Lemma voted_future n t : (a_term A n < t)%N → a_voted A n t = None.
Proof.
  intros Ht. destruct (a_voted A n t) eqn:E; [|done].
  destruct (inv_voted _ _ I _ _ _ E). lia.
Qed.

Lemma elected_none n Q :
  a_role A n = Candidate → quorum members Q →
  (∀ q, q ∈ Q → a_voted A q (a_term A n) = Some n) → a_elected A (a_term A n) = None.
Proof.
  intros Hr HQ Hq. destruct (inv_candidate _ _ I n Hr) as (_&_&Hne).
  destruct (a_elected A (a_term A n)) as [[c l]|] eqn:E; [|done].
  destruct (inv_elected _ _ I _ _ _ E) as (_&_&Q'&HQ'&Hq').
  destruct (quorum_meet _ _ _ HQ HQ') as (q&H1&H2).
  apply Hq in H1. apply Hq' in H2. exfalso. apply (Hne l). congruence.
Qed.

Lemma leader_own_log n : a_role A n = Leader → leader_log A (a_term A n) = a_log A n.
Proof. intros Hr. unfold leader_log. by rewrite (inv_leader _ _ I n Hr). Qed.

Lemma acked_le n t : a_acked A n t ≤ length (leader_log A t).
Proof.
  destruct (decide (0 < a_acked A n t)) as [H|]; [|lia].
  apply (inv_acked _ _ I n t H).
Qed.

Lemma acked_past n t : (a_term A n < t)%N → a_acked A n t = 0.
Proof.
  intros Ht. destruct (decide (0 < a_acked A n t)) as [H|]; [|lia].
  destruct (inv_acked _ _ I n t H). lia.
Qed.

(** Leader Completeness: a later leader holds every chosen entry. *)
Lemma chosen_leader t t' i p :
  chosen members A t i → (t ≤ t')%N → a_elected A t' = Some p →
  same i (leader_log A t) (leader_log A t').
Proof.
  intros Hc Ht Hp. destruct (decide (t = t')) as [->|].
  - apply same_refl, Hc.
  - destruct (inv_complete _ _ I t t' i p) as [?|Hd]; [lia|done|apply Hc|done|].
    by destruct (chosen_not_dead _ _ _ _ Hc).
Qed.

Lemma own_elected t i : own A t i → ∃ p, a_elected A t = Some p.
Proof.
  intros (?&H&_). unfold leader_log in H. destruct (a_elected A t); [eauto|cbn in H; lia].
Qed.

Lemma covered_leader b l j t p :
  covered members A b l j → (b ≤ t)%N → a_elected A t = Some p →
  same j l (leader_log A t).
Proof.
  intros [->|(t0&i&Hc&Ht&Hj&Hs)] Hb Hp.
  - repeat split; lia.
  - eapply same_trans; [exact Hs|]. apply (same_le i); [done|].
    eapply chosen_leader; [done|lia|done].
Qed.

(** Two committed prefixes never disagree. *)
Lemma chosen_agree l1 l2 j t1 i1 t2 i2 :
  chosen members A t1 i1 → j ≤ i1 → same j l1 (leader_log A t1) →
  chosen members A t2 i2 → j ≤ i2 → same j l2 (leader_log A t2) → (t1 ≤ t2)%N →
  same j l1 l2.
Proof.
  intros C1 J1 S1 C2 J2 S2 Ht. destruct (own_elected t2 i2) as [p Hp]; [apply C2|].
  eapply same_trans; [exact S1|]. eapply same_trans; [|apply same_sym, S2].
  apply (same_le i1); [done|]. by eapply chosen_leader.
Qed.

Lemma covered_agree b1 b2 l1 l2 j :
  covered members A b1 l1 j → covered members A b2 l2 j → same j l1 l2.
Proof.
  intros [->|(t1&i1&C1&B1&J1&S1)]; [by repeat split; lia|].
  intros [->|(t2&i2&C2&B2&J2&S2)]; [by repeat split; lia|].
  destruct (decide (t1 ≤ t2)%N).
  - by eapply (chosen_agree l1 l2 j t1 i1 t2 i2).
  - apply same_sym. eapply (chosen_agree l2 l1 j t2 i2 t1 i1); try done; lia.
Qed.

(** Log Matching: logs with entries of the same term at an index agree there. *)
Lemma log_matching b1 b2 l1 l2 i :
  good A b1 l1 → good A b2 l2 → 0 < i → i ≤ length l1 → i ≤ length l2 →
  term_of l1 i = term_of l2 i → same i l1 l2.
Proof.
  intros [_ G1] [_ G2] Hi H1 H2 Ht.
  destruct (G1 i Hi H1) as [_ S1]. destruct (G2 i Hi H2) as [_ S2].
  rewrite Ht in S1. eapply same_trans; [exact S1|by apply same_sym].
Qed.

(** A log at least as up to date as one that holds entry [i] of term [t] holds
    that entry too, unless the entry is dead. *)
Lemma up_to_date_complete b b' cand mine t i :
  good A b cand → good A b' mine → own A t i → up_to_date cand mine →
  same i (leader_log A t) mine →
  same i (leader_log A t) cand ∨ dead members A t i.
Proof.
  intros [Mc Gc] [Mm Gm] Ho Hu Hs. destruct (Ho) as (Hi&Hil&Hit).
  destruct (own_elected _ _ Ho) as [[c l] He].
  destruct (inv_elected _ _ I _ _ _ He) as (Hpos&_).
  assert (t ≤ last_term mine)%N as Hm.
  { rewrite <-Hit, (same_term _ i _ _ Hs) by done. apply Mm; [done|apply Hs|done]. }
  assert (last_term mine ≤ last_term cand)%N as Hmc by (destruct Hu as [|[]]; lia).
  assert (0 < length cand) as Hlen.
  { destruct cand; [|cbn; lia].
    change (last_term []) with 0%N in Hmc. lia. }
  destruct (Gc (length cand) Hlen (Nat.le_refl _)) as [_ Sc].
  fold (last_term cand) in Sc.
  destruct (decide (t = last_term cand)) as [Heq|Hne].
  - left. rewrite Heq. apply same_sym, (same_le (length cand)); [|done].
    destruct Hu as [?|[_ ?]]; [lia|]. destruct Hs as (_&?&_). lia.
  - assert (0 < length (leader_log A (last_term cand))) by (destruct Sc as (_&?&_); lia).
    destruct (a_elected A (last_term cand)) as [p|] eqn:Ep.
    2: { unfold leader_log in *. rewrite Ep in *. cbn in *. lia. }
    destruct (inv_complete _ _ I t (last_term cand) i p ltac:(lia) Ep Ho) as [Hs'|?]; [left|by right].
    eapply same_trans; [exact Hs'|]. apply same_sym, (same_le (length cand)); [|done].
    destruct (decide (i ≤ length cand)) as [|Hlt]; [done|]. exfalso.
    destruct (inv_llog _ _ I (last_term cand)) as [Ml _].
    specialize (Ml (length cand) i Hlen ltac:(lia) (proj1 (proj2 Hs'))).
    rewrite <-(same_term _ _ _ _ Sc), <-(same_term _ _ _ _ Hs'), Hit in Ml by done.
    fold (last_term cand) in Ml. lia.
Qed.

End Facts.

(** ** Framing *)

(** An action of [n] preserves [Inv] once the parts it changed are accounted
    for: its own log, votes, role, acknowledgements and commit index, and the
    leader it may have made. *)
Section Frame.
Context (n : N) (A A' : AState) (I : Inv members A) (E : extends A A').

Context (F : ∀ m, m ≠ n →
  a_term A' m = a_term A m ∧ a_role A' m = a_role A m ∧ a_log A' m = a_log A m ∧
  a_commit A' m = a_commit A m ∧ ∀ t, a_voted A' m t = a_voted A m t ∧
  a_acked A' m t = a_acked A m t).

Context (Fe : ∀ t, a_elected A' t = a_elected A t ∨
  t = a_term A' n ∧ (0 < t)%N ∧ ∃ l, a_elected A' t = Some (n, l) ∧ good A' t l ∧
  ∃ Q, quorum members Q ∧ ∀ q, q ∈ Q → a_voted A' q t = Some n).

Context (Hlog : good A' (a_term A' n) (a_log A' n)).
Context (Hvote : ∀ t c, a_voted A' n t = Some c → a_voted A n t = Some c ∨
  t = a_term A' n ∧ (0 < t)%N ∧ a_vlog A' n t = a_log A' n ∧ a_voted A' c t = Some c ∧
  up_to_date (a_vlog A' c t) (a_log A' n) ∧
  (c = n → ∀ i, 0 < i → i ≤ length (a_log A' n) → (term_of (a_log A' n) i < t)%N)).
Context (Hcand : a_role A' n = Candidate →
  a_voted A' n (a_term A' n) = Some n ∧ a_log A' n = a_vlog A' n (a_term A' n) ∧
  ∀ l, a_elected A' (a_term A' n) ≠ Some (n, l)).
Context (Hlead : a_role A' n = Leader →
  a_elected A' (a_term A' n) = Some (n, a_log A' n)).
Context (Hack : ∀ t, 0 < a_acked A' n t →
  (t ≤ a_term A' n)%N ∧ a_acked A' n t ≤ length (leader_log A' t)).
Context (Hkeep : ∀ t i, own A' t i → i ≤ a_acked A' n t →
  same i (leader_log A' t) (a_log A' n) ∨ dead members A' t i).
Context (Hnew : ∀ t t' i, a_elected A t' = None → a_elected A' t' ≠ None →
  (t < t')%N → own A' t i →
  same i (leader_log A' t) (leader_log A' t') ∨ dead members A' t i).
Context (Hcur : same (a_acked A' n (a_term A' n)) (a_log A' n) (leader_log A' (a_term A' n))).
Context (Hcommit : covered members A' (a_term A' n) (a_log A' n) (a_commit A' n)).

Lemma frame_voted m t c : a_voted A' m t = Some c → a_voted A m t = Some c ∨
  m = n ∧ t = a_term A' n ∧ (0 < t)%N ∧ a_vlog A' n t = a_log A' n ∧
  a_voted A' c t = Some c ∧
  up_to_date (a_vlog A' c t) (a_log A' n) ∧
  (c = n → ∀ i, 0 < i → i ≤ length (a_log A' n) → (term_of (a_log A' n) i < t)%N).
Proof.
  destruct (decide (m = n)) as [->|Hm].
  - intros H. destruct (Hvote _ _ H) as [?|?]; [by left|right; tauto].
  - destruct (F m Hm) as (_&_&_&_&Hv). destruct (Hv t) as [-> _]. by left.
Qed.

Lemma frame_acked m t i :
  own A' t i → i ≤ a_acked A m t → own A t i.
Proof.
  intros Ho Hi. apply (ext_own_back E); [|done].
  pose proof (acked_le A I m t). lia.
Qed.

(** The quorum that elected a later leader has moved past term [t]. *)
Lemma frame_dead t t' i c l :
  a_elected A' t' = Some (c, l) → (t < t')%N → length (leader_log A t) < i →
  t = a_term A' n → dead members A' t i.
Proof.
  intros He Ht Hi Htn.
  assert (∃ Q, quorum members Q ∧ ∀ q, q ∈ Q → a_voted A' q t' = Some c) as (Q&HQ&Hq).
  { destruct (Fe t') as [Heq|(_&_&l'&He'&_&HQ)].
    - rewrite Heq in He. destruct (inv_elected _ _ I _ _ _ He) as (_&_&Q&HQ&Hq).
      exists Q. split; [done|]. intros q Hin. by apply (ext_voted _ _ E), Hq.
    - rewrite He' in He. by simplify_eq. }
  exists Q. split; [done|]. intros q Hin. specialize (Hq q Hin).
  destruct (decide (q = n)) as [->|Hqn].
  - destruct (Hvote _ _ Hq) as [Ho|(Ho&_)]; [|lia].
    destruct (inv_voted _ _ I _ _ _ Ho) as [Hle _].
    pose proof (ext_term _ _ E n). lia.
  - destruct (F q Hqn) as (Ft&_&_&_&Hv). destruct (Hv t') as [Fv _].
    destruct (Hv t) as [_ Fa]. rewrite Fv in Hq. rewrite Ft, Fa.
    destruct (inv_voted _ _ I _ _ _ Hq) as [Hle _].
    pose proof (acked_le A I q t). split; lia.
Qed.

Lemma frame_complete t t' i p : (t < t')%N → a_elected A' t' = Some p → own A' t i →
  same i (leader_log A' t) (leader_log A' t') ∨ dead members A' t i.
Proof.
  intros Ht Hp Ho. destruct (a_elected A t') as [p0|] eqn:E0.
  2: { apply Hnew; [done|by rewrite Hp|done|done]. }
  destruct (decide (i ≤ length (leader_log A t))) as [Hi|Hi].
  - apply (ext_own_back E) in Ho; [|done].
    destruct (inv_complete _ _ I t t' i p0 Ht E0 Ho) as [Hs|Hd].
    + left. by apply (ext_same E), (ext_same_l E).
    + right. by apply (ext_dead _ E).
  - right. destruct p as [c l].
    eapply frame_dead; [exact Hp|done|lia|]. destruct (Fe t) as [Heq|[? _]]; [|done].
    exfalso. apply Hi. destruct Ho as (_&Ho&_). unfold leader_log in *.
    by rewrite <-Heq.
Qed.

Lemma frame_keep m t i : own A' t i → i ≤ a_acked A' m t →
  same i (leader_log A' t) (a_log A' m) ∨ dead members A' t i.
Proof.
  intros Ho Hi. destruct (decide (m = n)) as [->|Hm]; [by apply Hkeep|].
  destruct (F m Hm) as (_&_&->&_&Hv). destruct (Hv t) as [_ Fa]. rewrite Fa in Hi.
  destruct (inv_keep _ _ I m t i (frame_acked _ _ _ Ho Hi) Hi) as [?|?].
  - left. by apply (ext_same_l E).
  - right. by apply (ext_dead _ E).
Qed.

Lemma frame_vkeep m t t' c i : a_voted A' m t' = Some c → (t < t')%N → own A' t i →
  i ≤ a_acked A' m t → same i (leader_log A' t) (a_vlog A' m t') ∨ dead members A' t i.
Proof.
  intros Hv Ht Ho Hi. destruct (frame_voted _ _ _ Hv) as [Hv0|(->&->&_&->&_)].
  2: by apply Hkeep.
  destruct (inv_voted _ _ I _ _ _ Hv0) as [Hle _].
  rewrite (ext_past _ _ E) in Hi by lia.
  destruct (ext_voted _ _ E _ _ _ Hv0) as [_ ->].
  destruct (inv_vkeep _ _ I m t t' c i Hv0 Ht (frame_acked _ _ _ Ho Hi) Hi) as [?|?].
  - left. by apply (ext_same_l E).
  - right. by apply (ext_dead _ E).
Qed.

Lemma frame_elected t c l : a_elected A' t = Some (c, l) →
  (0 < t)%N ∧ (t ≤ a_term A' c)%N ∧
  ∃ Q, quorum members Q ∧ ∀ q, q ∈ Q → a_voted A' q t = Some c.
Proof.
  intros He. destruct (Fe t) as [Heq|(->&?&l'&He'&_&HQ)].
  - rewrite Heq in He. destruct (inv_elected _ _ I _ _ _ He) as (?&?&Q&HQ&Hq).
    pose proof (ext_term _ _ E c). repeat split; [done|lia|]. exists Q.
    split; [done|]. intros q Hin. by apply (ext_voted _ _ E), Hq.
  - rewrite He' in He. simplify_eq. by repeat split.
Qed.

Lemma frame_candidate m : a_role A' m = Candidate →
  a_voted A' m (a_term A' m) = Some m ∧ a_log A' m = a_vlog A' m (a_term A' m) ∧
  ∀ l, a_elected A' (a_term A' m) ≠ Some (m, l).
Proof.
  destruct (decide (m = n)) as [->|Hm]; [done|].
  destruct (F m Hm) as (->&->&->&_&_). intros Hr.
  destruct (inv_candidate _ _ I m Hr) as (Hv&Hl&Hne).
  destruct (ext_voted _ _ E _ _ _ Hv) as [? ->]. repeat split; [done|done|].
  intros l Hl'. destruct (Fe (a_term A m)) as [Heq|(_&_&l'&He'&_)].
  - rewrite Heq in Hl'. by apply (Hne l).
  - rewrite He' in Hl'. by simplify_eq.
Qed.

Lemma frame_leader m : a_role A' m = Leader →
  a_elected A' (a_term A' m) = Some (m, a_log A' m).
Proof.
  destruct (decide (m = n)) as [->|Hm]; [done|].
  destruct (F m Hm) as (->&->&->&_&_). intros Hr.
  pose proof (inv_leader _ _ I m Hr) as He.
  destruct (Fe (a_term A m)) as [Heq|(_&_&l'&He'&_)]; [by rewrite Heq|].
  destruct (ext_elected _ _ E _ _ _ He) as (l&Hl&_). rewrite He' in Hl. by simplify_eq.
Qed.

Lemma frame_llog t : good A' t (leader_log A' t).
Proof.
  destruct (Fe t) as [Heq|(_&_&l&He&Hg&_)].
  - replace (leader_log A' t) with (leader_log A t) by (unfold leader_log; by rewrite Heq).
    by apply (ext_good E t); [|apply (inv_llog _ _ I)].
  - unfold leader_log. by rewrite He.
Qed.

Lemma Inv_frame : Inv members A'.
Proof.
  split.
  - intros m. destruct (decide (m = n)) as [->|Hm]; [done|].
    destruct (F m Hm) as (->&_&->&_). by apply (ext_good E (a_term A m)), (inv_log _ _ I).
  - intros m t c Hv. destruct (frame_voted _ _ _ Hv) as [Hv0|(->&->&_&->&_)]; [|done].
    destruct (ext_voted _ _ E _ _ _ Hv0) as [_ ->].
    by apply (ext_good E t), (inv_vlog _ _ I m t c).
  - exact frame_llog.
  - intros m t c Hv. destruct (frame_voted _ _ _ Hv) as [Hv0|(_&_&?&_)]; [|done].
    by apply (inv_pos _ _ I m t c).
  - intros m t c Hv. destruct (frame_voted _ _ _ Hv) as [Hv0|(->&->&_&->&?&?&_)]; [|done].
    destruct (inv_voted _ _ I _ _ _ Hv0) as (?&Hc&?).
    destruct (ext_voted _ _ E _ _ _ Hv0) as [_ ->].
    destruct (ext_voted _ _ E _ _ _ Hc) as [? ->].
    pose proof (ext_term _ _ E m). repeat split; [lia|done|done].
  - intros m t Hv. destruct (frame_voted _ _ _ Hv) as [Hv0|(->&->&_&->&_&_&?)]; [|auto].
    destruct (ext_voted _ _ E _ _ _ Hv0) as [_ ->]. by apply (inv_self _ _ I).
  - exact frame_candidate.
  - exact frame_leader.
  - exact frame_elected.
  - intros m t Hp. destruct (decide (m = n)) as [->|Hm]; [by apply Hack|].
    destruct (F m Hm) as (->&_&_&_&Hv). destruct (Hv t) as [_ Fa]. rewrite Fa in *.
    destruct (inv_acked _ _ I m t Hp). split; [done|]. etrans; [done|].
    apply prefix_length, (ext_llog E).
  - exact frame_complete.
  - exact frame_keep.
  - exact frame_vkeep.
  - intros m. destruct (decide (m = n)) as [->|Hm]; [done|].
    destruct (F m Hm) as (->&_&->&_&Hv). destruct (Hv (a_term A m)) as [_ ->].
    by apply (ext_same E), (inv_current _ _ I).
  - intros m. destruct (decide (m = n)) as [->|Hm]; [done|].
    destruct (F m Hm) as (->&_&->&->&_). eapply (ext_covered _ E); [reflexivity|].
    apply (inv_commit _ _ I).
Qed.

End Frame.

(** ** Every action extends the state and keeps the invariant *)

Section Actions.
Context (n : N) (A : AState) (I : Inv members A).

(** Obligations of [Inv_frame] about parts an action leaves alone. *)

Lemma keep_log A' : extends A A' → a_log A' n = a_log A n →
  good A' (a_term A' n) (a_log A' n).
Proof.
  intros E ->. eapply (ext_good E); [apply (ext_term _ _ E)|apply (inv_log _ _ I)].
Qed.

Lemma keep_acked A' : extends A A' → (∀ t, a_acked A' n t = a_acked A n t) →
  ∀ t, 0 < a_acked A' n t →
    (t ≤ a_term A' n)%N ∧ a_acked A' n t ≤ length (leader_log A' t).
Proof.
  intros E Ha t. rewrite Ha. intros Hp. destruct (inv_acked _ _ I n t Hp).
  pose proof (ext_term _ _ E n). split; [lia|]. etrans; [done|].
  apply prefix_length, (ext_llog E).
Qed.

Lemma keep_kept A' : extends A A' → a_log A' n = a_log A n →
  (∀ t, a_acked A' n t = a_acked A n t) →
  ∀ t i, own A' t i → i ≤ a_acked A' n t →
    same i (leader_log A' t) (a_log A' n) ∨ dead members A' t i.
Proof.
  intros E -> Ha t i Ho. rewrite Ha. intros Hi.
  destruct (inv_keep _ _ I n t i (frame_acked A A' I E n t i Ho Hi) Hi) as [?|?].
  - left. by apply (ext_same_l E).
  - right. by apply (ext_dead _ E).
Qed.

Lemma keep_current A' : extends A A' → a_term A' n = a_term A n → a_log A' n = a_log A n →
  (∀ t, a_acked A' n t = a_acked A n t) →
  same (a_acked A' n (a_term A' n)) (a_log A' n) (leader_log A' (a_term A' n)).
Proof. intros E -> -> ->. by apply (ext_same E), (inv_current _ _ I). Qed.

(** Nothing has been acknowledged in a term the node has only just entered. *)
Lemma new_current A' t : a_term A' n = t → (a_term A n < t)%N →
  (∀ t, a_acked A' n t = a_acked A n t) →
  same (a_acked A' n (a_term A' n)) (a_log A' n) (leader_log A' (a_term A' n)).
Proof.
  intros -> Ht ->. rewrite (acked_past A I n t) by done. repeat split; lia.
Qed.

Lemma keep_commit A' : extends A A' → a_log A' n = a_log A n →
  a_commit A' n = a_commit A n →
  covered members A' (a_term A' n) (a_log A' n) (a_commit A' n).
Proof.
  intros E -> ->. eapply (ext_covered _ E); [apply (ext_term _ _ E)|].
  apply (inv_commit _ _ I).
Qed.

Lemma keep_candidate A' : extends A A' → a_role A' n = a_role A n →
  a_term A' n = a_term A n → a_log A' n = a_log A n →
  (∀ t, a_elected A' t = a_elected A t) → a_role A' n = Candidate →
  a_voted A' n (a_term A' n) = Some n ∧ a_log A' n = a_vlog A' n (a_term A' n) ∧
  ∀ l, a_elected A' (a_term A' n) ≠ Some (n, l).
Proof.
  intros E -> -> -> He Hr. destruct (inv_candidate _ _ I n Hr) as (Hv&?&?).
  destruct (ext_voted _ _ E _ _ _ Hv) as [? ->]. rewrite He. by repeat split.
Qed.

Lemma update_term_extends t : (a_term A n < t)%N → extends A (UpdateTerm n t A).
Proof.
  intros Ht. split; try done; [|by eauto].
  intros m. destruct (decide (n = m)) as [<-|]; upd; lia.
Qed.

Lemma update_term_inv t : (a_term A n < t)%N → Inv members (UpdateTerm n t A).
Proof.
  intros Ht. pose proof (update_term_extends t Ht) as E.
  apply (Inv_frame n A); try done.
  - frame_others.
  - by left.
  - by apply keep_log.
  - by left.
  - by upd.
  - by upd.
  - by apply keep_acked.
  - by apply keep_kept.
  - apply (new_current _ t); by upd.
  - by apply keep_commit.
Qed.

Lemma step_down_inv : extends A (SetRole n Follower A) ∧ Inv members (SetRole n Follower A).
Proof.
  assert (extends A (SetRole n Follower A)) as E by (split; try done; by eauto).
  split; [done|]. apply (Inv_frame n A); try done.
  - frame_others.
  - by left.
  - by apply keep_log.
  - by left.
  - by upd.
  - by upd.
  - by apply keep_acked.
  - by apply keep_kept.
  - by apply keep_current.
  - by apply keep_commit.
Qed.

Lemma commit_inv j : covered members A (a_term A n) (a_log A n) j →
  extends A (SetCommit n j A) ∧ Inv members (SetCommit n j A).
Proof.
  intros Hc. assert (extends A (SetCommit n j A)) as E by (split; try done; by eauto).
  split; [done|]. apply (Inv_frame n A); try done.
  - frame_others.
  - by left.
  - by apply keep_log.
  - by left.
  - by apply keep_candidate.
  - apply (inv_leader _ _ I).
  - by apply keep_acked.
  - by apply keep_kept.
  - by apply keep_current.
  - upd. by eapply (ext_covered _ E).
Qed.

Lemma vote_inv c :
  a_voted A n (a_term A n) = None → a_voted A c (a_term A n) = Some c →
  up_to_date (a_vlog A c (a_term A n)) (a_log A n) →
  extends A (CastVote n c A) ∧ Inv members (CastVote n c A).
Proof.
  intros Hn Hc Hu.
  assert (extends A (CastVote n c A)) as E.
  { split; try done; [|by eauto]. intros m t c' Hv. upd.
    destruct (decide (n = m)) as [<-|]; [|by upd].
    destruct (decide (a_term A n = t)) as [<-|]; [congruence|by upd]. }
  assert (n ≠ c) as Hnc by congruence.
  split; [done|]. apply (Inv_frame n A); try done.
  - frame_others.
  - by left.
  - by apply keep_log.
  - intros t c'. destruct (decide (a_term A n = t)) as [<-|]; upd; [|by left].
    intros [= <-]. right. split_and!; [by upd|by eapply (inv_pos _ _ I)|by upd..].
  - by apply keep_candidate.
  - apply (inv_leader _ _ I).
  - by apply keep_acked.
  - by apply keep_kept.
  - by apply keep_current.
  - by apply keep_commit.
Qed.

Lemma timeout_inv :
  let A' := SetRole n Candidate (CastVote n n (UpdateTerm n (a_term A n + 1) A)) in
  extends A A' ∧ Inv members A'.
Proof.
  intros A'. assert (a_voted A n (a_term A n + 1) = None) as Hn
    by (apply (voted_future _ I); lia).
  assert (extends A A') as E.
  { subst A'. split; try done; [| |by eauto].
    - intros m. destruct (decide (n = m)) as [<-|]; upd; lia.
    - intros m t c Hv. upd. destruct (decide (n = m)) as [<-|]; [|by upd].
      destruct (decide (a_term A n + 1 = t)%N) as [<-|]; [congruence|by upd]. }
  split; [done|]. apply (Inv_frame n A); try done.
  - subst A'. frame_others.
  - by left.
  - by apply keep_log.
  - intros t c. destruct (decide (a_term A n + 1 = t)%N) as [<-|]; subst A'; upd; [|by left].
    intros [= <-]. right. split_and!; [by upd|lia|by upd..|by right; upd|].
    intros _ i Hi Hl. destruct (inv_log _ _ I n) as [_ G]. destruct (G i Hi Hl). lia.
  - intros _. subst A'. upd. repeat split. intros l He.
    destruct (inv_elected _ _ I _ _ _ He). lia.
  - subst A'. by upd.
  - by apply keep_acked.
  - by apply keep_kept.
  - apply (new_current _ (a_term A n + 1)); [subst A'; by upd|lia|done].
  - by apply keep_commit.
Qed.

Lemma ack_inv j : same j (a_log A n) (leader_log A (a_term A n)) →
  let A' := SetAcked n (a_acked A n (a_term A n) `max` j) A in
  extends A A' ∧ Inv members A'.
Proof.
  intros Hs A'.
  assert (extends A A') as E.
  { subst A'. split; try done; [| |by eauto]; intros m t; upd.
    - destruct (decide (n = m)) as [<-|]; [|by upd].
      destruct (decide (a_term A n = t)) as [<-|]; upd; lia.
    - intros Ht. destruct (decide (n = m)) as [<-|]; [|by upd].
      by rewrite upd2_ne by lia. }
  split; [done|]. apply (Inv_frame n A); try done.
  - subst A'. frame_others.
  - by left.
  - by apply keep_log.
  - by left.
  - by apply keep_candidate.
  - apply (inv_leader _ _ I).
  - intros t. destruct (decide (a_term A n = t)) as [<-|]; subst A'; upd.
    + intros _. split; [done|]. change (leader_log _) with (leader_log A).
      pose proof (acked_le A I n (a_term A n)). destruct Hs as (_&?&_). lia.
    + apply (inv_acked _ _ I).
  - intros t i Ho. destruct (decide (a_term A n = t)) as [<-|].
    + subst A'. upd. intros Hi. destruct (decide (i ≤ j)) as [Hij|].
      * left. by apply same_sym, (same_le j).
      * destruct (inv_keep _ _ I n (a_term A n) i) as [?|?]; [done|lia|by left|].
        right. by apply (ext_dead _ E).
    + subst A'. upd. intros Hi. destruct (inv_keep _ _ I n t i) as [?|?]; [done|done|by left|].
      right. by apply (ext_dead _ E).
  - subst A'. upd. change (leader_log _) with (leader_log A).
    destruct (Nat.max_spec (a_acked A n (a_term A n)) j) as [[_ ->]|[_ ->]]; [done|].
    apply (inv_current _ _ I).
  - by apply keep_commit.
Qed.

(** The heart of Leader Completeness: a candidate with a majority of votes
    holds every entry of an earlier term that may still be committed. *)
Lemma election_complete Q t i :
  a_role A n = Candidate → quorum members Q →
  (∀ q, q ∈ Q → a_voted A q (a_term A n) = Some n) →
  (t < a_term A n)%N → own A t i →
  same i (leader_log A t) (a_log A n) ∨ dead members A t i.
Proof.
  intros Hr HQ Hq Ht Ho.
  destruct (inv_candidate _ _ I n Hr) as (Hv&->&_).
  destruct (decide (set_Exists (λ q, i ≤ a_acked A q t) Q)) as [(q&Hin&Hi)|Hno].
  2: { right. exists Q. split; [done|]. intros q Hin. specialize (Hq q Hin).
       destruct (inv_voted _ _ I _ _ _ Hq). split; [lia|].
       destruct (decide (i ≤ a_acked A q t)) as [?|?]; [|lia]. destruct Hno. by exists q. }
  specialize (Hq q Hin). destruct (inv_voted _ _ I _ _ _ Hq) as (_&_&Hu).
  destruct (inv_vkeep _ _ I _ _ _ _ i Hq Ht Ho Hi) as [Hs|?]; [|by right].
  eapply (up_to_date_complete A I); [| |done|exact Hu|done].
  - by apply (inv_vlog _ _ I n _ n).
  - by apply (inv_vlog _ _ I q _ n).
Qed.

Lemma llog_elected (m t : N) l (B : AState) (He : a_elected B = <[m := Some (n, l)]> (a_elected A)) :
  leader_log B t = if decide (m = t) then l else leader_log A t.
Proof.
  unfold leader_log. rewrite He. destruct (decide (m = t)) as [<-|].
  - by rewrite fn_lookup_insert.
  - by rewrite fn_lookup_insert_ne.
Qed.

Lemma become_leader_inv Q :
  a_role A n = Candidate → quorum members Q →
  (∀ q, q ∈ Q → a_voted A q (a_term A n) = Some n) →
  let A' := SetElected n (SetRole n Leader A) in
  extends A A' ∧ Inv members A'.
Proof.
  intros Hr HQ Hq A'. pose proof (elected_none A I n Q Hr HQ Hq) as Hnone.
  destruct (inv_candidate _ _ I n Hr) as (Hv&Hl&_).
  assert (∀ t, leader_log A' t = if decide (a_term A n = t) then a_log A n
                                 else leader_log A t) as HL
    by (intros t; by apply llog_elected).
  assert (extends A A') as E.
  { subst A'. split; try done. intros t c l He. upd.
    assert (a_term A n ≠ t) by congruence. upd. by exists l. }
  assert (∀ t i, own A' t i → own A t i) as Hown.
  { intros t i (Hi&Hil&Ht). rewrite HL in *. destruct (decide _) as [<-|]; [|by split].
    rewrite Hl in *. pose proof (inv_self _ _ I _ _ Hv i Hi Hil). lia. }
  split; [done|]. apply (Inv_frame n A); try done.
  - subst A'. frame_others.
  - intros t. destruct (decide (a_term A n = t)) as [<-|]; subst A'; upd; [right|by left].
    split_and!; [done| |eexists; split_and!; [done| |by exists Q]].
    + by apply (inv_pos _ _ I n _ n).
    + by apply (ext_good E (a_term A n)), (inv_log _ _ I).
  - by apply keep_log.
  - by left.
  - subst A'. by upd.
  - subst A'. by upd.
  - by apply keep_acked.
  - by apply keep_kept.
  - intros t t' i Hn Hs Ht Ho. assert (a_term A n = t') as <-.
    { destruct (decide (a_term A n = t')); [done|]. subst A'. by upd. }
    rewrite !HL, decide_False, decide_True by (done || lia).
    destruct (election_complete Q t i) as [?|?]; auto.
  - by apply keep_current.
  - by apply keep_commit.
Qed.

Lemma leader_append_inv e :
  a_role A n = Leader → e_term e = a_term A n →
  let A' := SetAcked n (S (length (a_log A n)))
              (SetElected n (SetLog n (a_log A n ++ [e]) A)) in
  extends A A' ∧ Inv members A'.
Proof.
  intros Hr He A'. pose proof (leader_own_log A I n Hr) as Hl.
  pose proof (inv_leader _ _ I n Hr) as Hel.
  assert (∀ t, leader_log A' t = if decide (a_term A n = t) then a_log A n ++ [e]
                                 else leader_log A t) as HL.
  { intros t. apply llog_elected. subst A'. by upd. }
  assert (extends A A') as E.
  { subst A'. split; try done; intros *; upd.
    - destruct (decide (n = n0)) as [<-|]; [|by upd].
      destruct (decide (a_term A n = t)) as [<-|]; upd; [|done].
      pose proof (acked_le A I n (a_term A n)) as Hle. rewrite Hl in Hle. lia.
    - intros Ht. destruct (decide (n = n0)) as [<-|]; [|by upd].
      by rewrite upd2_ne by lia.
    - intros He'. destruct (decide (a_term A n = t)) as [<-|]; upd; [|by exists l].
      rewrite Hel in He'. simplify_eq. eexists. split; [done|]. by exists [e]. }
  assert (good A' (a_term A n) (a_log A n ++ [e])) as HG.
  { pose proof (inv_log _ _ I n) as G. apply good_snoc.
    - by apply (ext_good E (a_term A n)).
    - rewrite He. by eapply good_last.
    - lia.
    - rewrite HL, decide_True by done. apply same_refl. rewrite length_app. cbn. lia. }
  destruct (inv_elected _ _ I _ _ _ Hel) as (?&_&HQ).
  split; [done|]. apply (Inv_frame n A); try done.
  - subst A'. frame_others.
  - intros t. destruct (decide (a_term A n = t)) as [<-|]; subst A'; upd; [right|by left].
    split_and!; [done|done|]. by eexists.
  - subst A'. by upd.
  - by left.
  - subst A'. upd. congruence.
  - subst A'. by upd.
  - intros t. rewrite HL. destruct (decide (a_term A n = t)) as [<-|]; subst A'; upd.
    + rewrite length_app. cbn. lia.
    + apply (inv_acked _ _ I).
  - intros t i Ho. destruct (decide (a_term A n = t)) as [<-|].
    + intros Hi. left. destruct Ho as (_&Ho&_). rewrite HL, decide_True in * by done.
      subst A'. upd. by apply same_refl.
    + subst A'. upd. intros Hi.
      destruct (inv_keep _ _ I n t i) as [Hs|?]; [by eapply frame_acked|done| |].
      * left. apply (ext_same_l E). eapply same_prefix; [|done]. by exists [e].
      * right. by apply (ext_dead _ E).
  - intros t t' i Hn Hs. exfalso. apply Hs. subst A'. upd.
    assert (a_term A n ≠ t') by congruence. by upd.
  - rewrite HL. subst A'. upd. rewrite decide_True by done. apply same_refl.
    rewrite length_app. cbn. lia.
  - subst A'. upd. apply covered_app. eapply (ext_covered _ E); [done|apply (inv_commit _ _ I)].
Qed.

(** Changing a follower's log to one that is still a prefix of a good log. *)
Lemma follower_log_inv l :
  a_role A n = Follower → good A (a_term A n) l →
  (∀ t i, own A t i → i ≤ a_acked A n t →
     same i (leader_log A t) (a_log A n) → same i (leader_log A t) l ∨ dead members A t i) →
  same (a_acked A n (a_term A n)) l (leader_log A (a_term A n)) →
  covered members A (a_term A n) l (a_commit A n) →
  extends A (SetLog n l A) ∧ Inv members (SetLog n l A).
Proof.
  intros Hr Hg Hk Hcur Hc. assert (extends A (SetLog n l A)) as E by (split; try done; by eauto).
  split; [done|]. apply (Inv_frame n A); try done.
  - frame_others.
  - by left.
  - upd. by apply (ext_good E (a_term A n)).
  - by left.
  - upd. congruence.
  - upd. congruence.
  - by apply keep_acked.
  - intros t i Ho Hi. upd.
    destruct (inv_keep _ _ I n t i Ho Hi) as [Hs|?]; [|by right].
    by apply Hk.
  - by upd.
  - upd. by apply (ext_covered _ E (a_term A n)).
Qed.

Lemma follower_append_inv e :
  a_role A n = Follower →
  same (length (a_log A n)) (a_log A n) (leader_log A (a_term A n)) →
  leader_log A (a_term A n) !! length (a_log A n) = Some e →
  extends A (SetLog n (a_log A n ++ [e]) A) ∧ Inv members (SetLog n (a_log A n ++ [e]) A).
Proof.
  intros Hr Hs He. apply follower_log_inv; [done| | | |].
  - replace (a_log A n ++ [e]) with (take (S (length (a_log A n))) (leader_log A (a_term A n))).
    + apply good_take, (inv_llog _ _ I).
    + rewrite (take_S_r _ _ _ He). f_equal. destruct Hs as (_&_&<-).
      by rewrite take_ge.
  - intros t i Ho Hi Hs'. left. eapply same_prefix; [|done]. by exists [e].
  - apply same_sym. eapply same_prefix; [|apply same_sym, (inv_current _ _ I)]. by exists [e].
  - apply covered_app, (inv_commit _ _ I).
Qed.

Lemma follower_truncate_inv k :
  a_role A n = Follower →
  k < length (a_log A n) → k < length (leader_log A (a_term A n)) →
  term_of (a_log A n) (S k) ≠ term_of (leader_log A (a_term A n)) (S k) →
  extends A (SetLog n (take k (a_log A n)) A) ∧
  Inv members (SetLog n (take k (a_log A n)) A).
Proof.
  intros Hr Hk Hk' Hne.
  destruct (a_elected A (a_term A n)) as [p|] eqn:Ep.
  2: { unfold leader_log in Hk'. rewrite Ep in Hk'. cbn in Hk'. lia. }
  assert (∀ i, same i (a_log A n) (leader_log A (a_term A n)) → i ≤ k) as Hlt.
  { intros i Hs. destruct (decide (i ≤ k)) as [|]; [done|]. destruct Hne.
    apply (same_term i); [done|lia]. }
  apply follower_log_inv; [done| | | |].
  - apply good_take, (inv_log _ _ I).
  - intros t i Ho Hi Hs.
    destruct (inv_acked _ _ I n t) as [Ht _]; [destruct Ho; lia|].
    assert (same i (leader_log A t) (leader_log A (a_term A n)) ∨ dead members A t i)
      as [Hs'|?]; [| |by right].
    { destruct (decide (t = a_term A n)) as [->|]; [left; apply same_refl, Ho|].
      eapply (inv_complete _ _ I); [lia|done|done]. }
    left. eapply same_trans; [exact Hs|]. apply same_sym, same_take; [|apply Hs].
    apply Hlt. eapply same_trans; [apply same_sym, Hs|done].
  - pose proof (inv_current _ _ I n) as Hcur. eapply same_trans; [|exact Hcur].
    apply same_take; [by apply Hlt|apply Hcur].
  - eapply covered_take; [apply (inv_commit _ _ I)|].
    apply Hlt. eapply (covered_leader A I); [apply (inv_commit _ _ I)|done|done].
Qed.

End Actions.

(** ** Steps *)

Theorem astep_inv n A A' :
  Inv members A → astep members n A A' → extends A A' ∧ Inv members A'.
Proof.
  intros I [t Ht| |c H1 H2 H3|Q H1 H2 H3|e H1 H2|k H1 H2 H3 H4|e H1 H2 H3|j H|j Hle H|].
  - split; [by apply update_term_extends|by apply update_term_inv].
  - by apply timeout_inv.
  - by apply vote_inv.
  - by apply (become_leader_inv n A I Q).
  - by apply leader_append_inv.
  - by apply follower_truncate_inv.
  - by apply follower_append_inv.
  - by apply ack_inv.
  - by apply commit_inv.
  - by apply step_down_inv.
Qed.

Lemma crash_inv n A : Inv members A → extends A (Crash n A) ∧ Inv members (Crash n A).
Proof.
  intros I. destruct (step_down_inv n A I) as [E1 I1].
  destruct (commit_inv n _ I1 0) as [E2 I2]; [by left|].
  split; [by eapply extends_trans|done].
Qed.

Lemma aany_inv A A' : Inv members A → aany members A A' → extends A A' ∧ Inv members A'.
Proof. intros I [n [H| ->]]; [by eapply astep_inv|by apply crash_inv]. Qed.

Lemma astep_commit n A A' : astep members n A A' → a_commit A n ≤ a_commit A' n.
Proof. intros []; upd; lia. Qed.

Lemma Inv_init : Inv members A_init.
Proof.
  assert (∀ b, good A_init b []) as G.
  { intros b. split; [|cbn; lia]. intros i j ? ? Hj. cbn in Hj. lia. }
  split; cbn; try done; try (intros; lia); try (intros; by apply G); try (by left).
  all: try (intros; exfalso; unfold own, leader_log in *; cbn in *; lia).
Qed.

End Inv.
