(* ===== verification/Cluster.v ===== *)
(** * A cluster of cores over a faulty network and crash-prone storage

    The environment the core is written for.  The network keeps every packet
    ever sent and may deliver any of them, to its addressee, any number of
    times and in any order: loss, duplication, delay and reordering are all
    runs of this model.  A node may crash in the middle of any call: the durable
    writes it had completed stay (an append survives as any prefix of its
    entries), the messages it had handed to [send_] are on the wire, the rest of
    the call never happens, and the node boots again from what is on disk.

    Everything is executable: [exec] performs one event. *)

From Stdlib Require Import NArith Strings.Byte Lia.
From S2P Require Import Prelude Messages Codec Log RaftCore.

Local Open Scope N_scope.

#[export] Instance LogEntry_eq_dec : EqDecision LogEntry.
Proof. solve_decision. Defined.

Record Packet := mkPacket {
  pk_from : NodeId;
  pk_to : NodeId;
  pk_msg : Message;
}.

(** ** Durable state under a trace of effects *)

(** What is on disk: term, vote and log entries. *)
Definition Durable : Type := Term * option NodeId * list LogEntry.

Definition replay1 (d : Durable) (e : Effect) : Durable :=
  let '(t, v, l) := d in
  match e with
  | ESave t v => (t, v, l)
  | EAppend es => (t, v, InMemoryLog_append l es)
  | ETruncate i => (t, v, InMemoryLog_truncateSuffixFrom l i)
  | _ => d
  end.

Definition replay (d : Durable) (fx : list Effect) : Durable := foldl replay1 d fx.

(** A crash can cut an append between two entries. *)
Definition atomic (e : Effect) : list Effect :=
  match e with EAppend es => (λ e, EAppend [e]) <$> es | _ => [e] end.

Definition sends (n : NodeId) (fx : list Effect) : list Packet :=
  omap (λ e, match e with ESend to m => Some (mkPacket n to m) | _ => None end) fx.

(** Entries given to the state machine, and those executed in place. *)
Definition applied (fx : list Effect) : list (LogIndex * LogEntry) :=
  omap (λ e, match e with
             | EApply i en _ | EHandOff i en => Some (i, en)
             | _ => None
             end) fx.

Definition executed (fx : list Effect) : list LogEntry :=
  omap (λ e, match e with EApply _ en _ => Some en | _ => None end) fx.

(** What the state machine answered to those. *)
Definition results (fx : list Effect) : list (list byte) :=
  omap (λ e, match e with EApply _ _ r => Some r | _ => None end) fx.

Section Cluster.
Context {P L SM R K : Type}.
Context `{!PersistentState P} `{!RaftLog L} `{!StateMachine SM} `{!Rng R} `{!ApplySink K}.

Local Abbreviation Core := (@RaftCore P L SM R K).

(** The static configuration: the members, and each node's fresh state machine. *)
Context (members : list NodeId) (cfg : RaftConfig) (sm0 : SM).

Definition peers_of (n : NodeId) : list NodeId := filter (λ m, m ≠ n) members.

Definition durable_of (c : Core) : Durable :=
  (currentTerm c, votedFor c, log_entries (log_ c)).

(** What a booting process finds and draws. *)
Record Boot := mkBoot {
  b_persist : P;
  b_log : L;
  b_rng : R;
  b_sink : option K;
  b_now : TimePoint;
}.

Definition boot (n : NodeId) (b : Boot) : Core :=
  start (b_now b)
    (set_applySink (b_sink b)
       (RaftCore_new n (peers_of n) (b_persist b) (b_log b) sm0 (b_rng b) cfg)).

Definition boot_durable (b : Boot) : Durable :=
  (ps_currentTerm (b_persist b), ps_votedFor (b_persist b), log_entries (b_log b)).

Record Cluster := mkCluster {
  nodes : gmap NodeId Core;
  net : list Packet;
}.

(** Calls the runtime makes on a core. *)
Inductive NodeOp :=
| OpTick
| OpDeliver (i : nat)                 (* the [i]-th packet of the network *)
| OpPropose (command : Command)
| OpProposeBatch (commands : list Command)
| OpPumpApply.

Definition run_op (s : Cluster) (n : NodeId) (now : TimePoint) (op : NodeOp) (c : Core) :
    option Core :=
  match op with
  | OpTick =>
      (* 2^64 - 1 elections are out of reach: the term does not wrap *)
      if currentTerm c + 1 <? two64 then Some (tick now c) else None
  | OpDeliver i =>
      p ← net s !! i;
      if pk_to p =? n
      then Some (handle None now (envelope_for (pk_from p) (pk_to p) (pk_msg p)) (pk_msg p) c)
      else None
  | OpPropose command => Some (propose now command c).2
  | OpProposeBatch commands => Some (proposeBatch now commands c).2
  | OpPumpApply => Some (pumpApply c)
  end.

Inductive Event :=
| EvRun (n : NodeId) (now : TimePoint) (op : NodeOp)
| EvCrash (n : NodeId) (now : TimePoint) (op : NodeOp) (k : nat) (b : Boot).

(** The effects of a call on [c] that ended in [c']. *)
Definition new_fx (c c' : Core) : list Effect := drop (length (fx_ c)) (fx_ c').

Definition exec (s : Cluster) (ev : Event) : option Cluster :=
  match ev with
  | EvRun n now op =>
      c ← nodes s !! n;
      c' ← run_op s n now op c;
      Some (mkCluster (<[n := c']> (nodes s)) (net s ++ sends n (new_fx c c')))
  | EvCrash n now op k b =>
      c ← nodes s !! n;
      c' ← run_op s n now op c;
      let fx := take k (new_fx c c' ≫= atomic) in
      if decide (boot_durable b = replay (durable_of c) fx)
      then Some (mkCluster (<[n := boot n b]> (nodes s)) (net s ++ sends n fx))
      else None
  end.

(** A first boot: nothing on disk, nothing on the wire. *)
Definition initial (s : Cluster) : Prop :=
  net s = [] ∧ dom (nodes s) = list_to_set members ∧
  ∀ n c, nodes s !! n = Some c → ∃ b, boot_durable b = (0, None, []) ∧ c = boot n b.

Inductive reaches (s : Cluster) : Cluster → Prop :=
| reaches_refl : reaches s s
| reaches_step s1 s2 ev : reaches s s1 → exec s1 ev = Some s2 → reaches s s2.

Definition reachable (s : Cluster) : Prop := ∃ s0, initial s0 ∧ reaches s0 s.

(** Running a list of events. *)
Fixpoint run_events (s : Cluster) (evs : list Event) : option Cluster :=
  match evs with
  | [] => Some s
  | ev :: evs => s ← exec s ev; run_events s evs
  end.

End Cluster.
