(* ===== verification/Sink.v ===== *)
(** * What holds of the apply sink across the calls of a core

    A call touches the sink only through the apply loop, which offers it the next
    committed entry.  So a relation between the sink and the entries given to the
    state machine so far that every offer keeps is kept by every call.  Two uses:
    a core that applies in place ([inline]), and the ring of the threaded runtime
    (NodeRuntime.v). *)

From Stdlib Require Import NArith Strings.Byte Lia.
From S2P Require Import Prelude Messages Log RaftCore RaftNode Cluster.

Local Open Scope N_scope.

Section Sink.
Context {P L SM R K : Type}.
Context `{!PersistentState P} `{!RaftLog L} `{!StateMachine SM} `{!Rng R} `{!ApplySink K}.

Local Abbreviation Core := (@RaftCore P L SM R K).

Context (Q : option K → list (LogIndex * LogEntry) → Prop).

Class SinkInv : Prop := {
  sink_refused k i e k' l : Q (Some k) l → sink_offer k i e = (false, k') → Q (Some k') l;
  sink_accepted k i e k' l : Q (Some k) l → sink_offer k i e = (true, k') → Q (Some k') (l ++ [(i, e)]);
  sink_inline i e l : Q None l → Q None (l ++ [(i, e)]);
}.

Definition sink_holds (c : Core) : Prop := Q (applySink_ c) (applied (fx_ c)).

Context `{!SinkInv}.

Lemma applied_snoc fx e : applied (fx ++ [e]) = applied fx ++ applied [e].
Proof. unfold applied. by rewrite omap_app. Qed.

Lemma sink_emit e c : applied [e] = [] → sink_holds c → sink_holds (emit e c).
Proof. intros He. unfold sink_holds. cbn [fx_ emit set_fx applySink_]. by rewrite applied_snoc, He, app_nil_r. Qed.

Lemma sink_applyLoop k c : sink_holds c → sink_holds (applyLoop k c).
Proof.
  revert c. induction k as [|k IH]; intros c Hc; cbn [applyLoop]; [done|].
  destruct (_ <? _); [|done]. destruct (log_entryAt _ _) as [e|]; [|by apply sink_emit].
  unfold sink_holds in Hc. destruct (applySink_ c) as [s|] eqn:Hs.
  - destruct (sink_offer s _ e) as [[] s'] eqn:Ho; cbn [negb].
    + apply IH. unfold sink_holds. cbn. rewrite applied_snoc. by eapply sink_accepted.
    + unfold sink_holds. by eapply sink_refused.
  - destruct (sm_apply _ _) as [r sm]. apply IH. unfold sink_holds. cbn. rewrite applied_snoc, Hs.
    by apply sink_inline.
Qed.

Lemma sink_advanceCommit c : sink_holds c → sink_holds (advanceCommit c).
Proof.
  intros Hc. unfold advanceCommit. generalize (N.to_nat (log_lastIndex (log_ c) - commitIndex_ c)).
  generalize (log_lastIndex (log_ c)). intros i k. revert i.
  induction k as [|k IH]; intros i; cbn [advanceCommitLoop]; [done|].
  destruct (_ <? _); [|done]. destruct (negb _); [done|]. destruct (_ <=? _)%nat; [|apply IH].
  by apply (sink_applyLoop _ (set_commitIndex i c)).
Qed.

Lemma sink_sendAppendEntries p c : sink_holds c → sink_holds (sendAppendEntries p c).
Proof. intros Hc. destruct (sendAppendEntries_fresh p c) as [pool ->]. by apply sink_emit. Qed.

Lemma sink_foldl {X} (f : Core → X → Core) l c :
  (∀ c x, sink_holds c → sink_holds (f c x)) → sink_holds c → sink_holds (foldl f c l).
Proof. intros Hf. revert c. induction l; intros c Hc; cbn; auto. Qed.

Lemma sink_sendToPeers c : sink_holds c → sink_holds (sendToPeers c).
Proof. apply sink_foldl. intros. by apply sink_sendAppendEntries. Qed.

Lemma sink_sendHeartbeats now c : sink_holds c → sink_holds (sendHeartbeats now c).
Proof. apply sink_sendToPeers. Qed.

Lemma sink_resetElectionTimer now c : sink_holds c → sink_holds (resetElectionTimer now c).
Proof. unfold resetElectionTimer. by destruct (draw _ _ _). Qed.

Lemma sink_persist t v c : sink_holds c → sink_holds (persistTermAndVote t v c).
Proof. by apply (sink_emit (ESave t v) (set_persist _ c)). Qed.

Lemma sink_appendLog es c : sink_holds c → sink_holds (appendLog es c).
Proof. by apply (sink_emit (EAppend es) (set_log _ c)). Qed.

Lemma sink_becomeFollower now t ev c : sink_holds c → sink_holds (becomeFollower now t ev c).
Proof.
  intros Hc. unfold becomeFollower. cbv zeta. apply sink_emit; [done|].
  match goal with |- context [decide (role_ ?x = Leader)] => assert (sink_holds x) as H1 end.
  { destruct (_ <? _); [|done]. by apply (sink_persist t None c). }
  destruct (decide _); [by apply (sink_resetElectionTimer now (set_heartbeatDeadline _ _))|done].
Qed.

Lemma sink_becomeLeader now c : sink_holds c → sink_holds (becomeLeader now c).
Proof. intros Hc. unfold becomeLeader. cbv zeta. apply sink_sendHeartbeats. by apply sink_emit. Qed.

Lemma sink_startElection now c : sink_holds c → sink_holds (startElection now c).
Proof.
  intros Hc. unfold startElection. cbv zeta.
  match goal with |- context [resetElectionTimer now ?x] => assert (sink_holds (resetElectionTimer now x)) as H1;
    [|set (c1 := resetElectionTimer now x) in *] end.
  { apply sink_resetElectionTimer. by apply (sink_persist _ _ c). }
  match goal with |- sink_holds (if _ then becomeLeader now ?x else _) => assert (sink_holds x) as H2 end.
  { apply sink_foldl; [|by apply sink_emit]. intros. by apply sink_emit. }
  destruct (_ <=? _)%nat; [by apply sink_becomeLeader|done].
Qed.

Lemma sink_tick now c : sink_holds c → sink_holds (tick now c).
Proof.
  intros Hc. unfold tick. destruct (_ && _); [by apply sink_startElection|].
  destruct (_ && _); [by apply sink_sendHeartbeats|done].
Qed.

Lemma sink_propose now cmd c : sink_holds c → sink_holds (propose now cmd c).2.
Proof.
  intros Hc. unfold propose. destruct (decide _); [|done].
  by apply (sink_sendToPeers (advanceCommit _)), sink_advanceCommit, sink_appendLog.
Qed.

Lemma sink_proposeBatch now cmds c : sink_holds c → sink_holds (proposeBatch now cmds c).2.
Proof.
  intros Hc. unfold proposeBatch. destruct (_ || _); [done|].
  by apply (sink_sendToPeers (advanceCommit _)), sink_advanceCommit, sink_appendLog.
Qed.

Lemma sink_walkEntries prev i es c : sink_holds c → sink_holds (walkEntries prev i es c).2.
Proof.
  revert i c. induction es as [|e es IH]; intros i c Hc; cbn [walkEntries]; [done|].
  destruct (_ <? _); [done|]. destruct (negb _); [|by apply IH]. cbn [snd].
  match goal with |- sink_holds (truncateLog ?j ?x) => assert (sink_holds x) as H1;
    [|by apply (sink_emit (ETruncate j) (set_log _ x))] end.
  destruct (_ <=? _); [by apply sink_emit|done].
Qed.

Lemma sink_onAppendEntries now from ae c : sink_holds c → sink_holds (onAppendEntries now from ae c).
Proof.
  intros Hc. unfold onAppendEntries. destruct (_ <? _); [by apply sink_emit|].
  destruct (decide _); [by apply sink_emit|].
  cbv zeta. match goal with |- context [resetElectionTimer now ?x] =>
    assert (sink_holds (resetElectionTimer now x)) as H1; [|set (c1 := resetElectionTimer now x) in *] end.
  { apply sink_resetElectionTimer. destruct (decide _); [by apply sink_becomeFollower|done]. }
  destruct (_ <? _); [by apply sink_emit|]. destruct (negb _); [by apply sink_emit|].
  pose proof (sink_walkEntries (ae_prevLogIndex ae) 0 (ae_entries ae) c1 H1) as H2.
  destruct (walkEntries _ _ _ c1) as [i c2]. cbn [snd] in H2. apply sink_emit; [done|].
  match goal with |- context [commitIndex_ ?x] => assert (sink_holds x) as H3 end.
  { destruct (_ <? _)%nat; [by apply sink_appendLog|done]. }
  destruct (_ <? _); [|done]. by apply (sink_applyLoop _ (set_commitIndex _ _)).
Qed.

Lemma sink_onAppendEntriesReply from r c : sink_holds c → sink_holds (onAppendEntriesReply from r c).
Proof.
  intros Hc. unfold onAppendEntriesReply. destruct (negb _); [done|]. destruct (negb _); [done|].
  destruct (aer_success r).
  - destruct (_ <? _); [by apply sink_emit|]. destruct (map_index _ _) as [m mi]. cbv zeta.
    destruct (_ <? _); [|done].
    match goal with |- context [advanceCommit ?x] =>
      pose proof (sink_advanceCommit x Hc) as H1; set (c1 := advanceCommit x) in * end.
    destruct (map_index _ _) as [ni nm]. destruct (_ <=? _); [by apply (sink_sendAppendEntries _ (set_nextIndex nm c1))|done].
  - cbv zeta. destruct (map_index _ _) as [cur nm]. destruct (map_index _ _) as [m mm].
    by apply sink_sendAppendEntries.
Qed.

Lemma sink_handle onClient now env m c :
  (∀ f, onClient = Some f → ∀ from r c, sink_holds c → sink_holds (f from r c)) →
  sink_holds c → sink_holds (handle onClient now env m c).
Proof.
  intros Hf Hc. unfold handle. cbv zeta.
  match goal with |- context [onRequestVote _ _ _ ?x] => assert (sink_holds x) as H1; [|generalize dependent x] end.
  { destruct (termOf m); [|done]. destruct (_ <? _); [by apply sink_becomeFollower|done]. }
  intros c1 H1. destruct m; cbv zeta.
  - unfold onRequestVote. destruct (_ <? _); [by apply sink_emit|]. cbv zeta. apply sink_emit; [done|].
    destruct (_ && _); [|done]. by apply sink_resetElectionTimer, sink_persist.
  - unfold onRequestVoteReply. destruct (negb _); [done|]. destruct (_ || _); [done|]. cbv zeta.
    destruct (_ <=? _)%nat; [by apply sink_becomeLeader|done].
  - by apply sink_onAppendEntries.
  - by apply sink_onAppendEntriesReply.
  - destruct onClient as [f|]; [by apply Hf|done].
  - done.
Qed.

Lemma sink_run_op s n now op c c' : sink_holds c → run_op s n now op c = Some c' → sink_holds c'.
Proof.
  intros Hc. destruct op as [|i|cmd|cmds|]; cbn; intros Hr.
  - destruct (_ <? _); simplify_eq. by apply sink_tick.
  - destruct (net s !! i) as [p|]; cbn in Hr; [|done]. destruct (_ =? _); simplify_eq. by apply sink_handle.
  - simplify_eq. by apply sink_propose.
  - simplify_eq. by apply sink_proposeBatch.
  - simplify_eq. by apply sink_applyLoop.
Qed.

End Sink.

(** ** Without a sink

    A core that applies in place keeps doing so: no call installs a sink. *)

Section Inline.
Context {P L SM R K : Type}.
Context `{!PersistentState P} `{!RaftLog L} `{!StateMachine SM} `{!Rng R} `{!ApplySink K}.

Local Abbreviation Core := (@RaftCore P L SM R K).

Definition inline (c : Core) : Prop := applySink_ c = None.

#[local] Instance inline_inv : SinkInv (λ (s : option K) _, s = None).
Proof. by split. Qed.

Lemma tick_inline now (c : Core) : inline c → inline (tick now c).
Proof. apply (sink_tick (λ s _, s = None)). Qed.

Lemma propose_inline now cmd (c : Core) : inline c → inline (propose now cmd c).2.
Proof. apply (sink_propose (λ s _, s = None)). Qed.

Lemma proposeBatch_inline now cmds (c : Core) : inline c → inline (proposeBatch now cmds c).2.
Proof. apply (sink_proposeBatch (λ s _, s = None)). Qed.

Lemma resetElectionTimer_inline now (c : Core) : inline c → inline (resetElectionTimer now c).
Proof. apply (sink_resetElectionTimer (λ s _, s = None)). Qed.

Lemma handle_inline onClient now env m (c : Core) :
  (∀ f, onClient = Some f → ∀ from r c, inline c → inline (f from r c)) →
  inline c → inline (handle onClient now env m c).
Proof. apply (sink_handle (λ s _, s = None)). Qed.

End Inline.
