(* ===== verification/RaftRefine.v ===== *)
(** * The handlers of [RaftCore] perform the actions of RaftSpec.v

    [node_ok] relates one core to the abstract state and [packet_ok] says what
    a packet on the wire vouches for.  Every call of the core is matched by a
    sequence of abstract actions, effect by effect ([etrace]): so it is matched
    also when a crash cuts it short.  An error-level log line has no match. *)

From Stdlib Require Import NArith Strings.Byte Lia.
From stdpp Require Import functions.
From S2P Require Import Prelude Messages Codec Log RaftCore RaftSpec RaftInv Cluster.

Local Open Scope nat_scope.

(** ** Packets *)

(** What the receiver may conclude from a packet. *)
Definition packet_ok (members : list N) (A : AState) (p : Packet) : Prop :=
  pk_from p ∈ members ∧ pk_from p ≠ pk_to p ∧
  match pk_msg p with
  | MRequestVote rv =>
      let l := a_vlog A (pk_from p) (rv_term rv) in
      rv_candidateId rv = pk_from p ∧
      a_voted A (pk_from p) (rv_term rv) = Some (pk_from p) ∧
      rv_lastLogIndex rv = N.of_nat (length l) ∧ rv_lastLogTerm rv = last_term l
  | MRequestVoteReply r =>
      rvr_voteGranted r = true → a_voted A (pk_from p) (rvr_term r) = Some (pk_to p)
  | MAppendEntries ae =>
      let l := leader_log A (ae_term ae) in
      let prev := N.to_nat (ae_prevLogIndex ae) in
      (∃ l, a_elected A (ae_term ae) = Some (pk_from p, l)) ∧
      prev ≤ length l ∧ ae_prevLogTerm ae = term_of l prev ∧
      take prev l ++ ae_entries ae `prefix_of` l ∧
      N.to_nat (ae_leaderCommit ae) ≤ prev + length (ae_entries ae) ∧
      covered members A (ae_term ae) l (N.to_nat (ae_leaderCommit ae))
  | MAppendEntriesReply r =>
      aer_success r = true →
      N.to_nat (aer_conflictIndex r) ≤ a_acked A (pk_from p) (aer_term r)
  | MClientRequest _ | MClientReply _ => True
  end.

Lemma packet_ok_ext members A A' p :
  extends A A' → packet_ok members A p → packet_ok members A' p.
Proof.
  intros E (Hf&Hne&H). split_and!; [done|done|]. destruct (pk_msg p) as [rv|r|ae|r|r|r].
  - cbv zeta in *. destruct H as (?&Hv&?&?).
    by destruct (ext_voted _ _ E _ _ _ Hv) as [? ->].
  - intros Hg. by apply (ext_voted _ _ E), H.
  - cbv zeta in *. destruct H as ([l Hl]&Hp&Ht&Hx&Hc&Hcov).
    destruct (ext_llog E (ae_term ae)) as [k Hk].
    destruct (ext_elected _ _ E _ _ _ Hl) as (l'&?&_). split_and!; [by eauto| | | |done|].
    + rewrite Hk, length_app. lia.
    + by rewrite Hk, term_of_app.
    + rewrite Hk, take_app_le by done. by apply prefix_app_r.
    + rewrite Hk. apply covered_app. by eapply (ext_covered _ E).
  - intros Hs. etrans; [by apply H|apply (ext_acked _ _ E)].
  - done.
  - done.
Qed.

(** ** Traces of effects with their actions *)

Definition a_durable (A : AState) (n : N) : Durable :=
  (a_term A n, a_voted A n (a_term A n), a_log A n).

Section Trace.
Context (members : list N) (n : N).

Definition eff_ok (A : AState) (e : Effect) : Prop :=
  match e with
  | ESend to m => packet_ok members A (mkPacket n to m)
  | ETransition t r _ => r = Leader → a_role A n = Leader ∧ a_term A n = t
  | EError _ => False
  | _ => True
  end.

(** Each effect of the trace is at most one action, and actions in between
    leave the durable state alone. *)
Inductive etrace : AState → list Effect → AState → Prop :=
| et_nil A : etrace A [] A
| et_quiet A A1 fx A' :
    astep members n A A1 → a_durable A1 n = a_durable A n →
    etrace A1 fx A' → etrace A fx A'
| et_eff A e A1 fx A' :
    A1 = A ∨ astep members n A A1 →
    a_durable A1 n = replay1 (a_durable A n) e → eff_ok A1 e →
    etrace A1 fx A' → etrace A (e :: fx) A'.

Lemma etrace_app A fx A1 fx' A' :
  etrace A fx A1 → etrace A1 fx' A' → etrace A (fx ++ fx') A'.
Proof.
  induction 1; cbn; [done| |]; intros; [by eapply et_quiet; eauto|by eapply et_eff; eauto].
Qed.

Lemma etrace_take A fx A' k : etrace A fx A' →
  ∃ A1, etrace A (take k fx) A1.
Proof.
  intros H. revert k. induction H as [A|A A1 fx A' Hs Hd Ht IH|A e A1 fx A' Hs Hd Ho Ht IH].
  - intros k. rewrite take_nil. eexists. constructor.
  - intros k. destruct (IH k) as [A2 ?]. exists A2. by eapply et_quiet.
  - intros [|k]; cbn; [eexists; constructor|]. destruct (IH k) as [A2 ?].
    exists A2. by eapply et_eff.
Qed.

(** The abstract state right after one effect of the trace. *)
Lemma etrace_split A fx1 e fx2 A' : etrace A (fx1 ++ e :: fx2) A' →
  ∃ A1, etrace A (fx1 ++ [e]) A1 ∧ eff_ok A1 e ∧ etrace A1 fx2 A'.
Proof.
  intros H. remember (fx1 ++ e :: fx2) as fx eqn:Efx. revert fx1 Efx.
  induction H as [A|A A1 fx A' Hs Hd Ht IH|A e' A1 fx A' Hs Hd Ho Ht IH]; intros fx1 Efx.
  - by destruct fx1.
  - destruct (IH fx1 Efx) as (A2&?&?&?). exists A2. split_and!; [by eapply et_quiet|done|done].
  - destruct fx1 as [|e1 fx1]; injection Efx as -> ->.
    + exists A1. split_and!; [eapply et_eff; [done..|constructor]|done|done].
    + destruct (IH fx1 eq_refl) as (A2&?&?&?). exists A2.
      split_and!; [by eapply et_eff|done|done].
Qed.

(** An action of [n] leaves the other nodes alone. *)
Definition others_same (A A' : AState) : Prop := ∀ m, m ≠ n →
  a_term A' m = a_term A m ∧ a_role A' m = a_role A m ∧ a_log A' m = a_log A m ∧
  a_commit A' m = a_commit A m ∧
  (∀ t, a_voted A' m t = a_voted A m t ∧ a_acked A' m t = a_acked A m t).

Lemma astep_others A A' : astep members n A A' → others_same A A'.
Proof. intros []; frame_others. Qed.

Lemma others_trans A1 A2 A3 : others_same A1 A2 → others_same A2 A3 → others_same A1 A3.
Proof.
  intros H H' m Hm. destruct (H m Hm) as (?&?&?&?&Hv).
  destruct (H' m Hm) as (?&?&?&?&Hv'). split_and!; [congruence..|].
  intros t. destruct (Hv t), (Hv' t). split; congruence.
Qed.

Lemma etrace_sound A fx A' : Inv members A → etrace A fx A' →
  Inv members A' ∧ extends A A' ∧ others_same A A' ∧
  a_durable A' n = replay (a_durable A n) fx ∧
  Forall (packet_ok members A') (sends n fx) ∧ (∀ e, EError e ∉ fx).
Proof.
  intros I H. revert I.
  induction H as [A|A A1 fx A' Hs Hd Ht IH|A e A1 fx A' Hs Hd Ho Ht IH]; intros I.
  - split_and!; try done; [apply extends_refl|by intros e ?%elem_of_nil].
  - destruct (astep_inv _ _ _ _ I Hs) as [E I1]. pose proof (astep_others _ _ Hs) as O.
    destruct (IH I1) as (I'&E'&O'&D'&F'&N'). split_and!; try done.
    + by eapply extends_trans.
    + by eapply others_trans.
    + by rewrite D', Hd.
  - assert (extends A A1 ∧ Inv members A1 ∧ others_same A A1) as (E&I1&O).
    { destruct Hs as [->|Hs]; [split_and!; [apply extends_refl|done|by repeat split]|].
      destruct (astep_inv _ _ _ _ I Hs) as [E I1]. by auto using astep_others. }
    destruct (IH I1) as (I'&E'&O'&D'&F'&N'). split_and!; try done.
    + by eapply extends_trans.
    + by eapply others_trans.
    + rewrite D', Hd. done.
    + destruct e; cbn in *; try done. constructor; [|done]. by eapply packet_ok_ext.
    + intros e' [<-|]%elem_of_cons; [done|by eapply N'].
Qed.

Lemma etrace_steps A fx A' : etrace A fx A' → rtc (aany members) A A'.
Proof.
  induction 1 as [A|A A1 fx A' Hs _ _ IH|A e A1 fx A' Hs _ _ _ IH]; [done| |].
  - eapply rtc_l; [|exact IH]. exists n. by left.
  - destruct Hs as [->|Hs]; [done|]. eapply rtc_l; [|exact IH]. exists n. by left.
Qed.

Lemma etrace_commit A fx A' : etrace A fx A' → a_commit A n ≤ a_commit A' n.
Proof.
  induction 1 as [A|A A1 fx A' Hs _ _ IH|A e A1 fx A' Hs _ _ _ IH]; [done| |].
  - apply astep_commit in Hs. lia.
  - destruct Hs as [->|Hs%astep_commit]; lia.
Qed.

End Trace.

(** ** One node *)

(** Entries numbered from 1. *)
Definition numbered (l : list LogEntry) : list (LogIndex * LogEntry) :=
  imap (λ i e, (N.of_nat (S i), e)) l.

Lemma peers_of_length (l : list N) n :
  NoDup l → n ∈ l → length (peers_of l n) + 1 = length l.
Proof.
  unfold peers_of. induction 1 as [|x l Hx Hl IH]; intros Hn; [set_solver|].
  rewrite filter_cons. destruct (decide (x ≠ n)) as [Hne|Heq].
  - cbn. rewrite IH; [done|set_solver].
  - apply dec_stable in Heq as ->. cbn [length].
    assert (filter (λ m, m ≠ n) l = l) as ->; [|lia].
    clear -Hx. induction l as [|y l IH]; [done|].
    rewrite filter_cons_True, IH by set_solver. done.
Qed.

Section Refine.
Context {P L SM R K : Type}.
Context `{!PersistentState P} `{!RaftLog L} `{!StateMachine SM} `{!Rng R} `{!ApplySink K}.
Context `{!PersistentStateLaws P} `{!RaftLogLaws L}.
Context (members : list N) (cfg : RaftConfig) (sm0 : SM).
Context (Hmembers : NoDup members).

Local Abbreviation Core := (@RaftCore P L SM R K).

Definition run_sm (es : list LogEntry) : SM :=
  foldl (λ s e, (sm_apply s (e_command e)).2) sm0 es.

(** What the state machine answers along the way. *)
Definition outputs (es : list LogEntry) : list (list byte) :=
  imap (λ i e, (sm_apply (run_sm (take i es)) (e_command e)).1) es.

(** Applied so far: the entries up to [lastApplied_], each once, in order. *)
Record apply_ok (l : list LogEntry) (c : Core) : Prop := {
  ok_last : (lastApplied_ c ≤ commitIndex_ c)%N;
  ok_applied : applied (fx_ c) = numbered (take (N.to_nat (lastApplied_ c)) l);
  ok_sm : sm_ c = run_sm (executed (fx_ c));
  ok_inline : applySink_ c = None → executed (fx_ c) = snd <$> applied (fx_ c);
  ok_results : results (fx_ c) = outputs (executed (fx_ c));
}.

Record leader_ok (A : AState) (n : N) (c : Core) : Prop := {
  ok_next_dom q : q ∈ peers_of members n → is_Some (nextIndex_ c !! q);
  ok_next q v : nextIndex_ c !! q = Some v →
    0 < N.to_nat v ∧ N.to_nat v ≤ S (length (a_log A n));
  ok_match_dom q : q ∈ peers_of members n → is_Some (matchIndex_ c !! q);
  ok_match q v : matchIndex_ c !! q = Some v →
    q ∈ peers_of members n ∧ N.to_nat v ≤ a_acked A q (a_term A n);
  ok_own i : 0 < i → i ≤ length (a_log A n) → term_of (a_log A n) i = a_term A n →
    i ≤ a_acked A n (a_term A n);
}.

Record node_ok (A : AState) (n : N) (c : Core) : Prop := {
  ok_self : self_ c = n;
  ok_peers : peers_ c = peers_of members n;
  ok_term : currentTerm c = a_term A n;
  ok_vote : votedFor c = a_voted A n (a_term A n);
  ok_log : log_entries (log_ c) = a_log A n;
  ok_role : role_ c = a_role A n;
  ok_commit : N.to_nat (commitIndex_ c) = a_commit A n;
  ok_votes : a_role A n = Candidate → ∀ q, q ∈ votesFrom_ c →
    q ∈ members ∧ a_voted A q (a_term A n) = Some n;
  ok_leader : a_role A n = Leader → leader_ok A n c;
  ok_apply : apply_ok (a_log A n) c;
}.

(** Another node's actions do not disturb the relation. *)
Lemma node_ok_other A A' n m c :
  m ≠ n → extends A A' → others_same n A A' → node_ok A m c → node_ok A' m c.
Proof.
  intros Hm E O H. destruct (O m Hm) as (Et&Er&El&Ec&Ev). destruct H.
  split; try congruence.
  - rewrite Et. destruct (Ev (a_term A m)) as [-> _]. done.
  - rewrite Er, Et. intros Hr q Hq. destruct (ok_votes0 Hr q Hq). split; [done|].
    by apply (ext_voted _ _ E).
  - rewrite Er. intros Hr. destruct (ok_leader0 Hr).
    split; rewrite ?Et, ?El; try done.
    + intros q v Hq. destruct (ok_match0 q v Hq). split; [done|].
      etrans; [done|apply (ext_acked _ _ E)].
    + destruct (Ev (a_term A m)) as [_ ->]. done.
Qed.

Section Node.
Context (n : N) (Hn : n ∈ members).

(** [c'] is reached from [c] by a call matched by the actions from [A] to [A']. *)
Definition sim (A : AState) (c : Core) (A' : AState) (c' : Core) : Prop :=
  ∃ fx, fx_ c' = fx_ c ++ fx ∧ etrace members n A (fx ≫= atomic) A'.

Lemma sim_refl A c c' : fx_ c' = fx_ c → sim A c A c'.
Proof. intros H. exists []. rewrite app_nil_r. split; [done|constructor]. Qed.

Lemma sim_trans A1 c1 A2 c2 A3 c3 : sim A1 c1 A2 c2 → sim A2 c2 A3 c3 → sim A1 c1 A3 c3.
Proof.
  intros (f1&H1&T1) (f2&H2&T2). exists (f1 ++ f2). split.
  - by rewrite H2, H1, app_assoc.
  - rewrite bind_app. by eapply etrace_app.
Qed.

Lemma sim_quiet A A1 c c' : astep members n A A1 → a_durable A1 n = a_durable A n →
  fx_ c' = fx_ c → sim A c A1 c'.
Proof.
  intros Hs Hd H. exists []. rewrite app_nil_r. split; [done|].
  eapply et_quiet; [done..|constructor].
Qed.

Lemma sim_eff A e A1 c c' :
  A1 = A ∨ astep members n A A1 → a_durable A1 n = replay1 (a_durable A n) e →
  eff_ok members n A1 e → atomic e = [e] → fx_ c' = fx_ c ++ [e] → sim A c A1 c'.
Proof.
  intros Hs Hd He Ha H. exists [e]. split; [done|]. cbn. rewrite app_nil_r, Ha.
  eapply et_eff; [done..|constructor].
Qed.

Lemma sim_inv A c A' c' : Inv members A → sim A c A' c' →
  Inv members A' ∧ extends A A'.
Proof.
  intros I (fx&_&T). destruct (etrace_sound _ _ _ _ _ I T) as (?&?&_). done.
Qed.

(** *** Emitting *)

Definition quiet_effect (e : Effect) : Prop := applied [e] = [] ∧ executed [e] = [].

Lemma applied_app f g : applied (f ++ g) = applied f ++ applied g.
Proof. apply omap_app. Qed.

Lemma executed_app f g : executed (f ++ g) = executed f ++ executed g.
Proof. apply omap_app. Qed.

Lemma results_app f g : results (f ++ g) = results f ++ results g.
Proof. apply omap_app. Qed.

Lemma results_quiet fx : executed fx = [] → results fx = [].
Proof.
  induction fx as [|e fx IH]; [done|]. unfold executed, results in *. cbn.
  destruct e; try done; apply IH.
Qed.

Lemma outputs_snoc es e :
  outputs (es ++ [e]) = outputs es ++ [(sm_apply (run_sm es) (e_command e)).1].
Proof.
  unfold outputs. rewrite imap_app. cbn. rewrite Nat.add_0_r, take_app_length. f_equal.
  apply imap_ext. intros i x Hx. apply lookup_lt_Some in Hx. by rewrite take_app_le by lia.
Qed.

Lemma apply_ok_emit l e c : quiet_effect e → apply_ok l c → apply_ok l (emit e c).
Proof.
  intros [Ha He] []. pose proof (results_quiet _ He) as Hr.
  split; cbn; rewrite ?applied_app, ?executed_app, ?results_app, ?Ha, ?He, ?Hr, ?app_nil_r; done.
Qed.

Lemma apply_ok_frame l c c' fx : apply_ok l c →
  lastApplied_ c' = lastApplied_ c → commitIndex_ c' = commitIndex_ c → sm_ c' = sm_ c →
  applySink_ c' = applySink_ c → fx_ c' = fx_ c ++ fx → applied fx = [] → executed fx = [] →
  apply_ok l c'.
Proof.
  intros [] E1 E2 E3 E4 E5 Ha He. pose proof (results_quiet _ He) as Hr.
  split; rewrite ?E1, ?E2, ?E3, ?E4, ?E5, ?applied_app, ?executed_app, ?results_app, ?Ha, ?He,
    ?Hr, ?app_nil_r; done.
Qed.

Lemma node_ok_emit A e c : quiet_effect e → node_ok A n c → node_ok A n (emit e c).
Proof.
  intros He []. split; try done.
  - intros Hr. by destruct (ok_leader0 Hr); split.
  - by apply apply_ok_emit.
Qed.

Lemma send_sim A c to m :
  node_ok A n c → packet_ok members A (mkPacket n to m) →
  sim A c A (send to m c) ∧ node_ok A n (send to m c).
Proof.
  intros Hok Hp. split; [|by apply node_ok_emit].
  apply (sim_eff _ (ESend to m)); [by left|reflexivity|exact Hp|done|done].
Qed.

(** *** Reading the log *)

Section Reads.
Context {A : AState} {c : Core} (H : node_ok A n c).

Lemma core_lastIndex : log_lastIndex (log_ c) = N.of_nat (length (a_log A n)).
Proof. rewrite lastIndex_law, (ok_log _ _ _ H). done. Qed.

Lemma core_termAt i : log_termAt (log_ c) i = term_of (a_log A n) (N.to_nat i).
Proof. rewrite termAt_law, (ok_log _ _ _ H). apply termAt_term_of. Qed.

Lemma core_lastTerm : log_lastTerm (log_ c) = last_term (a_log A n).
Proof. rewrite lastTerm_law, (ok_log _ _ _ H). apply lastTerm_term_of. Qed.

Lemma core_entriesSpan i : log_entriesSpan (log_ c) i = drop (N.to_nat i - 1) (a_log A n).
Proof. rewrite entriesSpan_law, (ok_log _ _ _ H). apply entriesSpan_drop. Qed.

Lemma core_entryAt i : (0 < i)%N → N.to_nat i ≤ length (a_log A n) →
  log_entryAt (log_ c) i = a_log A n !! (N.to_nat i - 1).
Proof.
  intros. rewrite entryAt_law, (ok_log _ _ _ H). apply entryAt_lookup; lia.
Qed.

Lemma core_commit_le : Inv members A → a_commit A n ≤ length (a_log A n).
Proof.
  intros I. destruct (inv_commit _ _ I n) as [->|(t&i&_&_&_&Hs)]; [lia|apply Hs].
Qed.

Lemma core_majority : majority c = length members / 2 + 1.
Proof.
  unfold majority. rewrite (ok_peers _ _ _ H). f_equal. f_equal.
  by apply peers_of_length.
Qed.

End Reads.

(** *** Applying *)

Lemma numbered_snoc l e : numbered (l ++ [e]) = numbered l ++ [(N.of_nat (S (length l)), e)].
Proof. unfold numbered. rewrite imap_app. cbn. by rewrite Nat.add_0_r. Qed.

Lemma run_sm_snoc es e : run_sm (es ++ [e]) = (sm_apply (run_sm es) (e_command e)).2.
Proof. unfold run_sm. by rewrite foldl_app. Qed.

(** One more entry is applied. *)
Lemma numbered_next (l : list LogEntry) (k : N) e :
  l !! (N.to_nat (k + 1) - 1) = Some e →
  numbered (take (N.to_nat (k + 1)) l) = numbered (take (N.to_nat k) l) ++ [((k + 1)%N, e)].
Proof.
  intros He. replace (N.to_nat (k + 1) - 1) with (N.to_nat k) in He by lia.
  replace (N.to_nat (k + 1)) with (S (N.to_nat k)) by lia.
  rewrite (take_S_r _ _ _ He), numbered_snoc, length_take_le.
  - do 3 f_equal. lia.
  - apply lookup_lt_Some in He. lia.
Qed.

Lemma node_ok_sink A c k : node_ok A n c → applySink_ c ≠ None →
  node_ok A n (set_applySink (Some k) c).
Proof.
  intros [] Hne. split; try done; [intros Hr; by destruct (ok_leader0 Hr); split|].
  destruct ok_apply0. by split.
Qed.

Lemma node_ok_handoff A c e : node_ok A n c → applySink_ c ≠ None →
  (lastApplied_ c < commitIndex_ c)%N →
  a_log A n !! (N.to_nat (lastApplied_ c + 1) - 1) = Some e →
  node_ok A n (emit (EHandOff (lastApplied_ c + 1) e)
                 (set_lastApplied (lastApplied_ c + 1) c)).
Proof.
  intros [] Hne Hlt He. split; try done; [intros Hr; by destruct (ok_leader0 Hr); split|].
  destruct ok_apply0. split; cbn.
  - lia.
  - by rewrite applied_app, ok_applied0, (numbered_next _ _ _ He).
  - by rewrite executed_app, app_nil_r.
  - done.
  - by rewrite executed_app, results_app, !app_nil_r.
Qed.

Lemma node_ok_execute A c e : node_ok A n c → applySink_ c = None →
  (lastApplied_ c < commitIndex_ c)%N →
  a_log A n !! (N.to_nat (lastApplied_ c + 1) - 1) = Some e →
  let r := sm_apply (sm_ c) (e_command e) in
  node_ok A n (emit (EApply (lastApplied_ c + 1) e r.1)
                 (set_sm r.2 (set_lastApplied (lastApplied_ c + 1) c))).
Proof.
  intros [] Hs Hlt He r. split; try done; [intros Hr; by destruct (ok_leader0 Hr); split|].
  destruct ok_apply0. split; cbn.
  - lia.
  - by rewrite applied_app, ok_applied0, (numbered_next _ _ _ He).
  - rewrite executed_app. cbn. rewrite run_sm_snoc. subst r. by rewrite ok_sm0.
  - intros _. by rewrite executed_app, applied_app, fmap_app, ok_inline0.
  - rewrite executed_app, results_app, ok_results0.
    etrans; [|symmetry; apply outputs_snoc]. by rewrite <-ok_sm0.
Qed.

Lemma sim_note A c c' e : eff_ok members n A e → atomic e = [e] →
  (∀ d, replay1 d e = d) → fx_ c' = fx_ c ++ [e] → sim A c A c'.
Proof.
  intros He Ha Hd H. apply (sim_eff A e); [by left|by rewrite Hd|done|done|done].
Qed.

Lemma applyLoop_sim A k c : Inv members A → node_ok A n c →
  sim A c A (applyLoop k c) ∧ node_ok A n (applyLoop k c).
Proof.
  intros I. revert c. induction k as [|k IH]; intros c Hok; cbn [applyLoop].
  { split; [by apply sim_refl|done]. }
  destruct (N.ltb_spec (lastApplied_ c) (commitIndex_ c)) as [Hlt|].
  2: { split; [by apply sim_refl|done]. }
  pose proof (core_commit_le I) as Hle. rewrite <-(ok_commit _ _ _ Hok) in Hle.
  rewrite (core_entryAt Hok) by lia.
  destruct (lookup_lt_is_Some_2 (a_log A n) (N.to_nat (lastApplied_ c + 1) - 1))
    as [e He]; [lia|]. rewrite He. destruct (applySink_ c) as [s|] eqn:Es.
  - destruct (sink_offer s _ e) as [acc s']. cbv beta iota zeta.
    assert (node_ok A n (set_applySink (Some s') c)) as Hok1
      by (apply node_ok_sink; [done|by rewrite Es]).
    destruct acc; cbn [negb]; [|split; [by apply sim_refl|done]].
    destruct (IH _ (node_ok_handoff A _ e Hok1 ltac:(done) Hlt He)) as [Hs Hk].
    split; [|done]. eapply sim_trans; [|exact Hs]. apply (sim_note A _ _ (EHandOff (lastApplied_ c + 1) e)); [done|done|by intros [[]]|done].
  - cbv beta zeta. pose proof (node_ok_execute A c e Hok Es Hlt He) as Hok1. cbv zeta in Hok1.
    change (sm_ (set_lastApplied _ c)) with (sm_ c).
    destruct (sm_apply (sm_ c) (e_command e)) as [r sm]. cbn [fst snd] in Hok1.
    destruct (IH _ Hok1) as [Hs Hk]. split; [|done].
    eapply sim_trans; [|exact Hs]. apply (sim_note A _ _ (EApply (lastApplied_ c + 1) e r)); [done|done|by intros [[]]|done].
Qed.

Lemma applyCommitted_sim A c : Inv members A → node_ok A n c →
  sim A c A (applyCommitted c) ∧ node_ok A n (applyCommitted c).
Proof. apply applyLoop_sim. Qed.

(** *** Replicating *)

Lemma node_ok_scratch A c ae pool : node_ok A n c →
  node_ok A n (set_cmdPool pool (set_aeMsg ae c)).
Proof.
  intros []. split; try done; [intros Hr; by destruct (ok_leader0 Hr); split|].
  by destruct ok_apply0; split.
Qed.

Lemma peers_of_spec q : q ∈ peers_of members n ↔ q ≠ n ∧ q ∈ members.
Proof. unfold peers_of. by rewrite list_elem_of_filter. Qed.

Lemma map_index_Some (m : gmap N N) k v : m !! k = Some v → map_index m k = (v, m).
Proof. unfold map_index. by intros ->. Qed.

Lemma sendAppendEntries_sim A c peer : Inv members A → node_ok A n c →
  a_role A n = Leader → peer ∈ peers_of members n →
  sim A c A (sendAppendEntries peer c) ∧ node_ok A n (sendAppendEntries peer c).
Proof.
  intros I Hok Hr Hp. destruct (sendAppendEntries_fresh peer c) as [pool ->].
  pose proof (ok_leader _ _ _ Hok Hr) as Hl.
  destruct (ok_next_dom _ _ _ Hl peer Hp) as [next Hnext].
  destruct (ok_next _ _ _ Hl peer next Hnext) as [Hpos Hmax].
  unfold freshAppendEntries. rewrite (map_index_Some _ _ _ Hnext). cbn [fst snd].
  replace (set_nextIndex (nextIndex_ c) c) with c by (by destruct c).
  match goal with |- context [MAppendEntries ?a] => set (ae := a) end.
  eapply (send_sim A (set_cmdPool pool (set_aeMsg ae c))); [by apply node_ok_scratch|].
  apply peers_of_spec in Hp as [Hne _]. split_and!; [done|by apply not_eq_sym|].
  subst ae. cbn [pk_msg pk_from pk_to ae_term ae_prevLogIndex ae_prevLogTerm ae_entries
    ae_leaderCommit]. cbv zeta.
  rewrite (ok_term _ _ _ Hok), (leader_own_log members A I n Hr).
  rewrite dec64_pos by lia. rewrite (core_termAt Hok), (core_entriesSpan Hok).
  replace (N.to_nat (next - 1)) with (N.to_nat next - 1) by lia.
  pose proof (core_commit_le I). rewrite (ok_commit _ _ _ Hok), length_drop.
  split_and!; [|lia|done| |lia|apply (inv_commit _ _ I)].
  - eexists. by apply (inv_leader _ _ I).
  - by rewrite take_drop.
Qed.

(** A loop over peers, each turn matched. *)
Lemma foldl_sim A (f : NodeId → Core → Core) ps c :
  (∀ p c, p ∈ ps → node_ok A n c → sim A c A (f p c) ∧ node_ok A n (f p c)) →
  node_ok A n c →
  sim A c A (foldl (λ c p, f p c) c ps) ∧ node_ok A n (foldl (λ c p, f p c) c ps).
Proof.
  revert c. induction ps as [|p ps IH]; intros c Hf Hok; cbn.
  { split; [by apply sim_refl|done]. }
  destruct (Hf p c ltac:(set_solver) Hok) as [Hs1 Hok1].
  destruct (IH (f p c)) as [Hs2 Hok2]; [set_solver|done|].
  split; [by eapply sim_trans|done].
Qed.

Lemma node_ok_heartbeatDeadline A c d : node_ok A n c → node_ok A n (set_heartbeatDeadline d c).
Proof.
  intros []. split; try done; [intros Hr; by destruct (ok_leader0 Hr); split|].
  by destruct ok_apply0; split.
Qed.

Lemma sendToPeers_sim A c : Inv members A → node_ok A n c → a_role A n = Leader →
  sim A c A (sendToPeers c) ∧ node_ok A n (sendToPeers c).
Proof.
  intros I Hok Hr. unfold sendToPeers. apply foldl_sim; [|done].
  rewrite (ok_peers _ _ _ Hok). intros p c' Hp Hok'. by apply sendAppendEntries_sim.
Qed.

Lemma sendHeartbeats_sim A now c : Inv members A → node_ok A n c → a_role A n = Leader →
  sim A c A (sendHeartbeats now c) ∧ node_ok A n (sendHeartbeats now c).
Proof.
  intros I Hok Hr. destruct (sendToPeers_sim A c I Hok Hr) as [Hs Hok'].
  split; [exact Hs|by apply node_ok_heartbeatDeadline].
Qed.

(** *** Committing *)

Lemma node_ok_commit A c i : node_ok A n c → (commitIndex_ c ≤ i)%N →
  node_ok (SetCommit n (N.to_nat i) A) n (set_commitIndex i c).
Proof.
  intros [] Hi. split; try done.
  - cbn. by rewrite fn_lookup_insert.
  - intros Hr. by destruct (ok_leader0 Hr); split.
  - destruct ok_apply0. split; try done. cbn. lia.
Qed.

(** Committing is one action. *)
Lemma set_commit_sim A c i : Inv members A → node_ok A n c → (commitIndex_ c ≤ i)%N →
  covered members A (a_term A n) (a_log A n) (N.to_nat i) →
  let A' := SetCommit n (N.to_nat i) A in
  let c' := applyCommitted (set_commitIndex i c) in
  sim A c A' c' ∧ node_ok A' n c' ∧ Inv members A'.
Proof.
  intros I Hok Hi Hc A' c'.
  assert (astep members n A A') as Hstep.
  { apply act_commit; [|done]. rewrite <-(ok_commit _ _ _ Hok). lia. }
  destruct (astep_inv _ _ _ _ I Hstep) as [_ I'].
  destruct (applyCommitted_sim A' (set_commitIndex i c) I') as [Hs Hok'];
    [by apply node_ok_commit|].
  split_and!; [|done|done]. eapply sim_trans; [|exact Hs].
  by apply sim_quiet.
Qed.

(** The replica count is a majority of members that hold the entry. *)
Lemma replicas_chosen A c i : Inv members A → node_ok A n c → a_role A n = Leader →
  (0 < i)%N → N.to_nat i ≤ length (a_log A n) →
  term_of (a_log A n) (N.to_nat i) = a_term A n →
  majority c ≤ replicasAt i c → chosen members A (a_term A n) (N.to_nat i).
Proof.
  intros I Hok Hr Hi Hle Ht Hm. pose proof (ok_leader _ _ _ Hok Hr) as Hl.
  split.
  { unfold own. rewrite (leader_own_log members A I n Hr). split_and!; [lia|done|done]. }
  set (F := filter (λ p : NodeId * LogIndex, (i ≤ p.2)%N) (matchIndex_ c)).
  assert (∀ q, q ∈ dom F → q ∈ peers_of members n ∧
    N.to_nat i ≤ a_acked A q (a_term A n)) as HF.
  { intros q [v Hv]%elem_of_dom. apply map_lookup_filter_Some in Hv as [Hv Hiv].
    destruct (ok_match _ _ _ Hl q v Hv). cbn in Hiv. split; [done|lia]. }
  exists ({[n]} ∪ dom F). split; [split|].
  - intros q [->%elem_of_singleton|Hq]%elem_of_union; apply elem_of_list_to_set; [done|].
    by apply HF, proj1, peers_of_spec in Hq as [_ ?].
  - rewrite size_union, size_singleton, size_dom.
    + rewrite <-(core_majority Hok). exact Hm.
    + apply disjoint_singleton_l. intros Hq. by apply HF, proj1, peers_of_spec in Hq as [? _].
  - intros q [->%elem_of_singleton|Hq]%elem_of_union; [|by apply HF].
    apply (ok_own _ _ _ Hl); [lia|done|done].
Qed.

Lemma advanceCommitLoop_sim A fuel i c : Inv members A → node_ok A n c →
  a_role A n = Leader → N.to_nat i ≤ length (a_log A n) →
  ∃ A', sim A c A' (advanceCommitLoop fuel i c) ∧ Inv members A' ∧
    node_ok A' n (advanceCommitLoop fuel i c) ∧ a_role A' n = Leader.
Proof.
  intros I Hok Hr. revert i. induction fuel as [|fuel IH]; intros i Hi; cbn [advanceCommitLoop].
  { exists A. by split; [apply sim_refl|]. }
  destruct (N.ltb_spec (commitIndex_ c) i) as [Hlt|].
  2: { exists A. by split; [apply sim_refl|]. }
  rewrite (core_termAt Hok), (ok_term _ _ _ Hok).
  destruct (N.eqb_spec (term_of (a_log A n) (N.to_nat i)) (a_term A n)) as [Ht|]; cbn [negb].
  2: { exists A. by split; [apply sim_refl|]. }
  destruct (Nat.leb_spec (majority c) (replicasAt i c)) as [Hm|].
  - destruct (set_commit_sim A c i) as (?&?&?); [done|done|lia| |by eexists].
    right. exists (a_term A n), (N.to_nat i). split_and!; [|done|done|].
    + apply (replicas_chosen A c); [done|done|done|lia|done|done|done].
    + rewrite (leader_own_log members A I n Hr). by apply same_refl.
  - apply IH. lia.
Qed.

Lemma advanceCommit_sim A c : Inv members A → node_ok A n c → a_role A n = Leader →
  ∃ A', sim A c A' (advanceCommit c) ∧ Inv members A' ∧
    node_ok A' n (advanceCommit c) ∧ a_role A' n = Leader.
Proof.
  intros I Hok Hr. apply advanceCommitLoop_sim; [done|done|done|].
  rewrite (core_lastIndex Hok). lia.
Qed.

(** *** The leader appends *)

(** What appending [es] to [n]'s log leaves alone. *)
Definition appends (A A' : AState) (es : list LogEntry) : Prop :=
  a_term A' n = a_term A n ∧ a_role A' n = a_role A n ∧ a_commit A' n = a_commit A n ∧
  (∀ t, a_voted A' n t = a_voted A n t) ∧ a_log A' n = a_log A n ++ es.

Lemma appends_cons A A1 A' e es : appends A A1 [e] → appends A1 A' es → appends A A' (e :: es).
Proof.
  intros (?&?&?&Hv&Hl) (?&?&?&Hv'&Hl'). split_and!; [congruence..| |].
  - intros t. by rewrite Hv', Hv.
  - by rewrite Hl', Hl, <-app_assoc.
Qed.

(** Appending entries of the current term, one action each. *)
Lemma leader_append_trace A es : Inv members A → a_role A n = Leader →
  Forall (λ e, e_term e = a_term A n) es →
  ∃ A', etrace members n A ((λ e, EAppend [e]) <$> es) A' ∧ appends A A' es ∧
    ∀ i, length (a_log A n) < i → i ≤ length (a_log A' n) → i ≤ a_acked A' n (a_term A n).
Proof.
  revert A. induction es as [|e es IH]; intros A I Hr Hall.
  { exists A. split_and!; [constructor| |lia]. unfold appends. by rewrite app_nil_r. }
  apply Forall_cons in Hall as [He Hall].
  pose proof (act_leader_append members n A e Hr He) as Hstep.
  destruct (astep_inv _ _ _ _ I Hstep) as [_ I1].
  set (A1 := SetAcked _ _ _) in *.
  assert (appends A A1 [e]) as Ha by (subst A1; unfold appends; by upd).
  destruct (IH A1 I1) as (A'&Ht&Ha'&Hi); [subst A1; by upd..|].
  destruct (Ha) as (Et&_&_&Ev&El).
  exists A'. split_and!; [|by eapply appends_cons|].
  - eapply et_eff; [by right| |done|exact Ht]. unfold a_durable.
    by rewrite Et, Ev, El.
  - intros i Hlt Hle. rewrite Et in Hi. destruct (decide (length (a_log A1 n) < i)); [by apply Hi|].
    assert (i = S (length (a_log A n))) as ->.
    { rewrite El, length_app in *. cbn in *. lia. }
    destruct (etrace_sound _ _ _ _ _ I1 Ht) as (_&E&_).
    etrans; [|apply (ext_acked _ _ E)]. subst A1. upd. lia.
Qed.

Lemma atomic_append es fx : (fx ++ [EAppend es]) ≫= atomic =
  (fx ≫= atomic) ++ ((λ e, EAppend [e]) <$> es).
Proof. rewrite bind_app. cbn. by rewrite app_nil_r. Qed.

Lemma sim_append A A' c c' es : etrace members n A ((λ e, EAppend [e]) <$> es) A' →
  fx_ c' = fx_ c ++ [EAppend es] → sim A c A' c'.
Proof. intros Ht H. exists [EAppend es]. split; [done|]. cbn. by rewrite app_nil_r. Qed.

Lemma apply_ok_log l l' c : take (N.to_nat (lastApplied_ c)) l' = take (N.to_nat (lastApplied_ c)) l →
  apply_ok l c → apply_ok l' c.
Proof. intros Hl []. split; try done. by rewrite Hl. Qed.

(** The apply state does not depend on the log past the commit index. *)
Lemma apply_ok_app A c es : Inv members A → node_ok A n c → apply_ok (a_log A n ++ es) c.
Proof.
  intros I Hok. pose proof (ok_apply _ _ _ Hok) as Ha. eapply apply_ok_log; [|exact Ha].
  pose proof (core_commit_le I). rewrite take_app_le; [done|].
  rewrite <-(ok_commit _ _ _ Hok) in *. pose proof (ok_last _ _ Ha). lia.
Qed.

Lemma appendLog_node_ok A A' c es : Inv members A → node_ok A n c → extends A A' →
  appends A A' es → (a_role A n = Candidate → es = []) →
  (a_role A n = Leader → ∀ i, length (a_log A n) < i → i ≤ length (a_log A' n) →
     term_of (a_log A' n) i = a_term A n → i ≤ a_acked A' n (a_term A n)) →
  node_ok A' n (appendLog es c).
Proof.
  intros I Hok E (Et&Er&Ec&Ev&El) Hcand Hown.
  assert (apply_ok (a_log A n ++ es) (appendLog es c)) as Hap.
  { apply apply_ok_emit; [done|]. by destruct (apply_ok_app A c es I Hok); split. }
  destruct Hok. split; rewrite ?Et, ?Er, ?Ec, ?Ev, ?El; try done.
  - cbn. by rewrite append_law, ok_log0.
  - intros Hr q Hq. destruct (ok_votes0 Hr q Hq). split; [done|]. by apply (ext_voted _ _ E).
  - intros Hr. destruct (ok_leader0 Hr) as [Hnd Hnx Hmd Hma Ho].
    split; rewrite ?Et, ?El; try done; cbn [nextIndex_ matchIndex_ appendLog emit set_fx set_log].
    + intros q v Hq. destruct (Hnx q v Hq). rewrite length_app. lia.
    + intros q v Hq. destruct (Hma q v Hq). split; [done|].
      etrans; [done|apply (ext_acked _ _ E)].
    + intros i Hi Hil Ht. destruct (decide (length (a_log A n) < i)).
      * apply Hown; rewrite ?El; done.
      * rewrite term_of_app in Ht by lia. etrans; [apply Ho; [done|lia|done]|].
        apply (ext_acked _ _ E).
Qed.

Lemma leader_append_sim A c es : Inv members A → node_ok A n c → a_role A n = Leader →
  Forall (λ e, e_term e = a_term A n) es →
  ∃ A', sim A c A' (appendLog es c) ∧ Inv members A' ∧ node_ok A' n (appendLog es c) ∧
    a_role A' n = Leader.
Proof.
  intros I Hok Hr Hall. destruct (leader_append_trace A es I Hr Hall) as (A'&Ht&Ha&Hi).
  destruct (etrace_sound _ _ _ _ _ I Ht) as (I'&E&_). exists A'.
  assert (a_role A' n = Leader) by (destruct Ha; naive_solver congruence).
  split_and!; [by eapply sim_append|done| |done].
  apply (appendLog_node_ok A A' c es); [done|done|done|done|by rewrite Hr|]. auto.
Qed.

(** Append, commit what a majority already holds, replicate. *)
Lemma leader_propose_sim A c es d : Inv members A → node_ok A n c → a_role A n = Leader →
  Forall (λ e, e_term e = a_term A n) es →
  let c' := set_heartbeatDeadline d (sendToPeers (advanceCommit (appendLog es c))) in
  ∃ A', sim A c A' c' ∧ Inv members A' ∧ node_ok A' n c'.
Proof.
  intros I Hok Hr Hall c'.
  destruct (leader_append_sim A c es I Hok Hr Hall) as (A1&S1&I1&Hok1&Hr1).
  destruct (advanceCommit_sim A1 _ I1 Hok1 Hr1) as (A2&S2&I2&Hok2&Hr2).
  destruct (sendToPeers_sim A2 _ I2 Hok2 Hr2) as (S3&Hok3).
  exists A2. split_and!; [|done|by apply node_ok_heartbeatDeadline].
  eapply sim_trans; [exact S1|]. by eapply sim_trans.
Qed.

Lemma propose_sim A now cmd c : Inv members A → node_ok A n c →
  ∃ A', sim A c A' (propose now cmd c).2 ∧ Inv members A' ∧ node_ok A' n (propose now cmd c).2.
Proof.
  intros I Hok. unfold propose. destruct (decide (role_ c = Leader)) as [Hr|].
  - rewrite (ok_role _ _ _ Hok) in Hr. apply leader_propose_sim; [done|done|done|].
    repeat constructor. apply (ok_term _ _ _ Hok).
  - exists A. by split; [apply sim_refl|].
Qed.

Lemma proposeBatch_sim A now cmds c : Inv members A → node_ok A n c →
  ∃ A', sim A c A' (proposeBatch now cmds c).2 ∧ Inv members A' ∧
    node_ok A' n (proposeBatch now cmds c).2.
Proof.
  intros I Hok. unfold proposeBatch. destruct (_ || _) eqn:Eb.
  { exists A. by split; [apply sim_refl|]. }
  apply orb_false_iff in Eb as [_ Hr%negb_false_iff%bool_decide_eq_true].
  rewrite (ok_role _ _ _ Hok) in Hr. apply leader_propose_sim; [done|done|done|].
  apply Forall_fmap, Forall_true. intros x. apply (ok_term _ _ _ Hok).
Qed.

(** *** Role changes *)

Lemma resetElectionTimer_eq now (c : Core) : ∃ d rng,
  resetElectionTimer now c = set_electionDeadline d (set_rng rng c).
Proof. unfold resetElectionTimer. destruct (draw _ _ _) as [d rng]. by eexists _, _. Qed.

(** Timers, the random generator and the known leader are not protocol state. *)
Lemma node_ok_timer A now c : node_ok A n c → node_ok A n (resetElectionTimer now c).
Proof.
  destruct (resetElectionTimer_eq now c) as (d&rng&->).
  intros []. split; try done; [intros Hr; by destruct (ok_leader0 Hr); split|].
  by destruct ok_apply0; split.
Qed.

Lemma fx_timer now (c : Core) : fx_ (resetElectionTimer now c) = fx_ c.
Proof. by destruct (resetElectionTimer_eq now c) as (d&rng&->). Qed.

Lemma node_ok_leaderId A c x : node_ok A n c → node_ok A n (set_leaderId x c).
Proof.
  intros []. split; try done; [intros Hr; by destruct (ok_leader0 Hr); split|].
  by destruct ok_apply0; split.
Qed.

Lemma astep_sim A A1 c c' e : Inv members A → astep members n A A1 →
  a_durable A1 n = replay1 (a_durable A n) e → eff_ok members n A1 e → atomic e = [e] →
  fx_ c' = fx_ c ++ [e] → sim A c A1 c' ∧ Inv members A1.
Proof.
  intros I Hs Hd He Ha Hf. split; [|by apply (astep_inv _ _ _ _ I Hs)].
  by apply (sim_eff A e); [right|..].
Qed.

(** A higher term makes any node a follower that has not voted. *)
Lemma becomeFollower_up_sim A now t ev c : Inv members A → node_ok A n c →
  (a_term A n < t)%N →
  let A' := UpdateTerm n t A in
  sim A c A' (becomeFollower now t ev c) ∧ Inv members A' ∧
  node_ok A' n (becomeFollower now t ev c).
Proof.
  intros I Hok Ht A'. unfold becomeFollower. rewrite (ok_term _ _ _ Hok).
  rewrite (proj2 (N.ltb_lt _ _) Ht).
  set (c1 := set_leaderId None (persistTermAndVote t None c)).
  set (c2 := if decide (role_ c1 = Leader) then _ else c1).
  assert (∃ d h rng, c2 = set_electionDeadline d (set_rng rng (set_heartbeatDeadline h c1)))
    as (d&h&rng&->).
  { subst c2. destruct (decide _) as [?|?].
    - destruct (resetElectionTimer_eq now (set_heartbeatDeadline TimePoint_max c1)) as (d&r&->).
      by eexists _, _, _.
    - exists (electionDeadline_ c1), (heartbeatDeadline_ c1), (rng_ c1). by destruct c1. }
  destruct (astep_sim A A' c c1 (ESave t None) I) as [Hs I']; try done.
  { by apply act_update_term. }
  { subst A'. unfold a_durable. upd. by rewrite (voted_future _ _ I) by done. }
  split_and!; [|done|].
  - eapply sim_trans; [exact Hs|].
    eapply (sim_note A' _ _ (ETransition _ _ _)); [|done|by intros [[]]|done]. by cbn.
  - apply node_ok_emit; [done|]. destruct Hok.
    subst A' c1. split; upd; try done.
    + apply save_term.
    + rewrite (voted_future _ _ I) by done. apply save_vote.
    + by apply (apply_ok_frame _ c _ [ESave t None]).
Qed.

(** A candidate that discovers the leader of its term steps down. *)
Lemma becomeFollower_same_sim A now ev c : Inv members A → node_ok A n c →
  a_role A n ≠ Leader →
  let A' := SetRole n Follower A in
  sim A c A' (becomeFollower now (currentTerm c) ev c) ∧ Inv members A' ∧
  node_ok A' n (becomeFollower now (currentTerm c) ev c).
Proof.
  intros I Hok Hr A'. unfold becomeFollower. rewrite N.ltb_irrefl.
  rewrite decide_False by (by rewrite (ok_role _ _ _ Hok)).
  assert (astep members n A A') as Hstep by apply act_step_down.
  split_and!; [|by apply (astep_inv _ _ _ _ I Hstep)|].
  - eapply sim_trans; [by apply (sim_quiet A A' c (set_role Follower c))|].
    eapply (sim_note A' _ _ (ETransition _ _ _)); [|done|by intros [[]]|done]. by cbn.
  - apply node_ok_emit; [done|]. destruct Hok.
    subst A'. split; upd; try done.
    by apply (apply_ok_frame _ c _ []); [..|rewrite app_nil_r| |].
Qed.

Lemma foldl_insert_lookup (ps : list N) (v : N) (m : gmap N N) q :
  foldl (λ m p, <[p := v]> m) m ps !! q = if decide (q ∈ ps) then Some v else m !! q.
Proof.
  revert m. induction ps as [|p ps IH]; intros m; cbn.
  - by rewrite decide_False by set_solver.
  - rewrite IH. destruct (decide (q ∈ ps)).
    + by rewrite decide_True by set_solver.
    + destruct (decide (p = q)) as [->|].
      * by rewrite lookup_insert, !decide_True by set_solver.
      * by rewrite lookup_insert_ne, decide_False by set_solver.
Qed.

Lemma votes_quorum A c : node_ok A n c → a_role A n = Candidate →
  majority c ≤ size (votesFrom_ c) →
  quorum members (votesFrom_ c) ∧ ∀ q, q ∈ votesFrom_ c → a_voted A q (a_term A n) = Some n.
Proof.
  intros Hok Hr Hm. pose proof (ok_votes _ _ _ Hok Hr) as Hv. split; [split|].
  - intros q Hq. by apply elem_of_list_to_set, Hv.
  - by rewrite <-(core_majority Hok).
  - intros q Hq. by apply Hv.
Qed.

Lemma becomeLeader_sim A now c : Inv members A → node_ok A n c → a_role A n = Candidate →
  majority c ≤ size (votesFrom_ c) →
  ∃ A', sim A c A' (becomeLeader now c) ∧ Inv members A' ∧ node_ok A' n (becomeLeader now c).
Proof.
  intros I Hok Hr Hm. destruct (votes_quorum A c Hok Hr Hm) as [HQ Hq].
  set (A' := SetElected n (SetRole n Leader A)).
  assert (astep members n A A') as Hstep by (by eapply act_become_leader).
  destruct (astep_inv _ _ _ _ I Hstep) as [E I'].
  destruct (inv_candidate _ _ I n Hr) as (Hv&Hl&_).
  unfold becomeLeader. cbv zeta.
  match goal with |- context [emit ?e ?x] => set (c1 := x); set (ev := e) end.
  assert (node_ok A' n c1) as Hok1.
  { pose proof (core_lastIndex Hok) as Hlast. destruct Hok.
    subst A' c1. split; upd; try done.
    2: { by apply (apply_ok_frame _ c _ []); [..|rewrite app_nil_r| |]. }
    intros _. split; cbn; try done.
    - intros q Hq'. rewrite foldl_insert_lookup, decide_True by congruence. by eexists.
    - intros q v. rewrite foldl_insert_lookup, Hlast. destruct (decide _); [|done].
      intros [= <-]. lia.
    - intros q Hq'. rewrite foldl_insert_lookup, decide_True by congruence. by eexists.
    - intros q v. rewrite foldl_insert_lookup. destruct (decide _); [|done].
      intros [= <-]. split; [congruence|lia].
    - intros i Hi Hil Hti. rewrite Hl in *.
      pose proof (inv_self _ _ I _ _ Hv i Hi Hil). lia. }
  assert (node_ok A' n (emit ev c1)) as Hok2 by by apply node_ok_emit.
  destruct (sendHeartbeats_sim A' now _ I' Hok2) as [Hs Hok3]; [subst A'; by upd|].
  exists A'. split_and!; [|done|done]. eapply sim_trans; [|exact Hs].
  eapply (sim_trans _ _ A' c1); [by apply sim_quiet|].
  apply (sim_note A' _ _ ev); [|done|by intros [[]]|done].
  intros _. split; [subst A'; by upd|]. symmetry. apply (ok_term _ _ _ Hok1).
Qed.

(** *** Elections *)

(** A new candidacy: the next term, a vote for itself, nothing counted yet. *)
Lemma candidacy_sim A c c1 t :
  Inv members A → node_ok A n c → t = (a_term A n + 1)%N →
  self_ c1 = n → peers_ c1 = peers_ c → persist_ c1 = ps_save (persist_ c) t (Some n) →
  log_ c1 = log_ c → role_ c1 = Candidate → votesFrom_ c1 = {[n]} →
  commitIndex_ c1 = commitIndex_ c → lastApplied_ c1 = lastApplied_ c → sm_ c1 = sm_ c →
  applySink_ c1 = applySink_ c → fx_ c1 = fx_ c ++ [ESave t (Some n)] →
  let A' := SetRole n Candidate (CastVote n n (UpdateTerm n t A)) in
  sim A c A' c1 ∧ Inv members A' ∧ node_ok A' n c1.
Proof.
  intros I Hok -> Eself Epeers Eps Elog Erole Evotes Ecommit Elast Esm Esink Efx A'.
  destruct (astep_sim A A' c c1 (ESave (a_term A n + 1) (Some n)) I) as [Hs I']; try done.
  { apply act_timeout. }
  { subst A'. unfold a_durable. by upd. }
  split_and!; [done|done|]. destruct Hok. subst A'.
  split; upd; try done; try congruence.
  - unfold currentTerm. rewrite Eps. apply save_term.
  - unfold votedFor. rewrite Eps. apply save_vote.
  - intros _ q. rewrite Evotes, elem_of_singleton. intros ->. by upd.
  - by apply (apply_ok_frame _ c _ [ESave (a_term A n + 1) (Some n)]).
Qed.

Lemma requestVote_packet A peer c : Inv members A → node_ok A n c →
  a_role A n = Candidate → peer ∈ peers_of members n →
  packet_ok members A (mkPacket n peer (MRequestVote
    (mkRequestVote (currentTerm c) (self_ c) (log_lastIndex (log_ c)) (log_lastTerm (log_ c))))).
Proof.
  intros I Hok Hr [Hne _]%peers_of_spec. destruct (inv_candidate _ _ I n Hr) as (Hv&Hl&_).
  split_and!; [done|by apply not_eq_sym|]. cbn.
  rewrite (ok_term _ _ _ Hok), (ok_self _ _ _ Hok), (core_lastIndex Hok), (core_lastTerm Hok).
  by rewrite <-Hl.
Qed.

Lemma startElection_sim A now c : Inv members A → node_ok A n c →
  (a_term A n + 1 < two64)%N →
  ∃ A', sim A c A' (startElection now c) ∧ Inv members A' ∧ node_ok A' n (startElection now c).
Proof.
  intros I Hok Hw. unfold startElection. cbv zeta.
  rewrite (ok_term _ _ _ Hok), add64_small, (ok_self _ _ _ Hok) by done.
  match goal with |- context [resetElectionTimer now ?x] =>
    destruct (resetElectionTimer_eq now x) as (d&rng&->) end.
  match goal with |- context [emit _ ?x] => set (c1 := x) end.
  set (ev := ETransition (currentTerm c1) Candidate ElectionStarted).
  destruct (candidacy_sim A c c1 (a_term A n + 1) I Hok) as (S1&I1&Hok1); try done.
  { apply (ok_self _ _ _ Hok). }
  { subst c1. cbn. by rewrite (ok_self _ _ _ Hok). }
  set (A1 := SetRole _ _ _) in *.
  assert (node_ok A1 n (emit ev c1)) as Hok2 by by apply node_ok_emit.
  assert (sim A1 c1 A1 (emit ev c1)) as S2
    by (by apply (sim_note A1 _ _ ev); [intros ?|done|intros [[]]|]).
  assert (a_role A1 n = Candidate) as Hr by (subst A1; by upd).
  set (c2 := emit ev c1) in *.
  set (rv := mkRequestVote _ _ _ _). fold ev. fold c2.
  set (c3 := foldl (λ c p, send p (MRequestVote rv) c) c2 (peers_ c2)).
  destruct (foldl_sim A1 (λ p c, send p (MRequestVote rv) c) (peers_ c2) c2) as [S3 Hok3];
    [|done|fold c3 in S3, Hok3].
  { intros p c' Hp Hok'. apply send_sim; [done|]. rewrite (ok_peers _ _ _ Hok2) in Hp.
    by apply requestVote_packet. }
  assert (sim A c A1 c3) as S4 by (eapply sim_trans; [exact S1|]; by eapply sim_trans).
  destruct (Nat.leb_spec (majority c3) (size (votesFrom_ c3))) as [Hm|].
  - destruct (becomeLeader_sim A1 now c3 I1 Hok3 Hr Hm) as (A'&S5&I'&Hok').
    exists A'. split_and!; [by eapply sim_trans|done|done].
  - by exists A1.
Qed.

Lemma tick_sim A now c : Inv members A → node_ok A n c → (a_term A n + 1 < two64)%N →
  ∃ A', sim A c A' (tick now c) ∧ Inv members A' ∧ node_ok A' n (tick now c).
Proof.
  intros I Hok Hw. unfold tick. destruct (_ && _); [by apply startElection_sim|].
  destruct (bool_decide (role_ c = Leader) && _) eqn:Eb.
  - apply andb_true_iff in Eb as [Hr%bool_decide_eq_true _].
    rewrite (ok_role _ _ _ Hok) in Hr. exists A.
    destruct (sendHeartbeats_sim A now c I Hok Hr). by split_and!.
  - exists A. by split; [apply sim_refl|].
Qed.

Lemma up_to_date_spec cand mine :
  candidateLogAtLeastAsUpToDate (last_term cand) (N.of_nat (length cand))
    (last_term mine) (N.of_nat (length mine)) = true → up_to_date cand mine.
Proof.
  unfold candidateLogAtLeastAsUpToDate, up_to_date.
  destruct (N.eqb_spec (last_term cand) (last_term mine)) as [->|]; cbn [negb].
  - intros ?%N.leb_le. right. split; [done|lia].
  - intros ?%N.ltb_lt. by left.
Qed.

(** Granting: the vote is on disk, and in the history, before the reply. *)
Lemma grant_sim A now from c : Inv members A → node_ok A n c →
  a_voted A n (a_term A n) = None ∨ a_voted A n (a_term A n) = Some from →
  a_voted A from (a_term A n) = Some from →
  up_to_date (a_vlog A from (a_term A n)) (a_log A n) →
  let c' := resetElectionTimer now (persistTermAndVote (a_term A n) (Some from) c) in
  ∃ A', sim A c A' c' ∧ Inv members A' ∧ node_ok A' n c' ∧ a_term A' n = a_term A n ∧
    a_voted A' n (a_term A n) = Some from.
Proof.
  intros I Hok Hvote Hfrom Hu c'.
  set (A' := match a_voted A n (a_term A n) with None => CastVote n from A | _ => A end).
  assert (A' = A ∨ astep members n A A') as Hs.
  { subst A'. destruct Hvote as [Hv|Hv]; rewrite Hv; [right|by left]. by apply act_vote. }
  assert (Inv members A' ∧ extends A A') as [I' E].
  { destruct Hs as [->|Hs]; [split; [done|apply extends_refl]|].
    by destruct (astep_inv _ _ _ _ I Hs). }
  assert (a_term A' n = a_term A n ∧ a_log A' n = a_log A n ∧ a_role A' n = a_role A n ∧
    a_commit A' n = a_commit A n ∧ a_voted A' n (a_term A n) = Some from) as (Et&El&Er&Ec&Ev).
  { subst A'. destruct Hvote as [Hv|Hv]; rewrite Hv; [|done]. by upd. }
  assert (∀ m t, a_acked A' m t = a_acked A m t) as Ea
    by (intros; subst A'; by destruct (a_voted A n (a_term A n))).
  exists A'. split_and!; [|done| |done|done].
  - apply (sim_eff A (ESave (a_term A n) (Some from))); [done| |done|done|].
    + unfold a_durable. by rewrite Et, El, Ev.
    + subst c'. by rewrite fx_timer.
  - apply node_ok_timer. destruct Hok.
    split; rewrite ?Et, ?El, ?Er, ?Ec, ?Ev; try done.
    + apply save_term.
    + apply save_vote.
    + intros Hr q Hq. destruct (ok_votes0 Hr q Hq). split; [done|by apply (ext_voted _ _ E)].
    + intros Hr. destruct (ok_leader0 Hr). split; rewrite ?Et, ?El; try done.
      * intros q v. rewrite Ea. apply ok_match0.
      * rewrite Ea. done.
    + by apply (apply_ok_frame _ c _ [ESave (a_term A n) (Some from)]).
Qed.

Lemma onRequestVote_sim A now from rv c : Inv members A → node_ok A n c →
  packet_ok members A (mkPacket from n (MRequestVote rv)) → (rv_term rv ≤ a_term A n)%N →
  ∃ A', sim A c A' (onRequestVote now from rv c) ∧ Inv members A' ∧
    node_ok A' n (onRequestVote now from rv c).
Proof.
  intros I Hok (Hin&Hne&Hp) Hle. cbn in Hp, Hin, Hne. destruct Hp as (Hc&Hv&Hli&Hlt).
  unfold onRequestVote. cbv zeta. rewrite Hc. rewrite (ok_term _ _ _ Hok).
  destruct (N.ltb_spec (rv_term rv) (a_term A n)) as [|Hge].
  { exists A. destruct (send_sim A c from
      (MRequestVoteReply (mkRequestVoteReply (a_term A n) false)) Hok); [|by split_and!].
    split_and!; [done|by apply not_eq_sym|done]. }
  assert (rv_term rv = a_term A n) as Et by lia. rewrite Et in Hv, Hli, Hlt.
  rewrite Hli, Hlt, (core_lastIndex Hok), (core_lastTerm Hok), (ok_vote _ _ _ Hok).
  destruct (_ && _) eqn:Eg.
  - apply andb_true_iff in Eg as [Hu%up_to_date_spec Hvote].
    destruct (grant_sim A now from c I Hok) as (A'&Hs&I'&Hok'&Et'&Ev'); [|done|done|].
    { destruct (a_voted A n (a_term A n)); [right|by left]. apply N.eqb_eq in Hvote. congruence. }
    exists A'.
    destruct (send_sim A' _ from
      (MRequestVoteReply (mkRequestVoteReply (a_term A n) true)) Hok') as [Hs' Hok''].
    { split_and!; [done|by apply not_eq_sym|intros _; exact Ev']. }
    split_and!; [by eapply sim_trans|done|done].
  - exists A. destruct (send_sim A c from
      (MRequestVoteReply (mkRequestVoteReply (a_term A n) false)) Hok); [|by split_and!].
    split_and!; [done|by apply not_eq_sym|done].
Qed.

Lemma onRequestVoteReply_sim A now from r c : Inv members A → node_ok A n c →
  packet_ok members A (mkPacket from n (MRequestVoteReply r)) →
  ∃ A', sim A c A' (onRequestVoteReply now from r c) ∧ Inv members A' ∧
    node_ok A' n (onRequestVoteReply now from r c).
Proof.
  intros I Hok (Hin&Hne&Hp). cbn in Hp, Hin, Hne. unfold onRequestVoteReply. cbv zeta.
  destruct (bool_decide (role_ c = Candidate)) eqn:Hr; cbn [negb].
  2: { exists A. by split; [apply sim_refl|]. }
  apply bool_decide_eq_true in Hr. rewrite (ok_role _ _ _ Hok) in Hr.
  destruct (_ || _) eqn:Eb.
  { exists A. by split; [apply sim_refl|]. }
  apply orb_false_iff in Eb as [Ht%negb_false_iff%N.eqb_eq Hg%negb_false_iff].
  specialize (Hp Hg). rewrite Ht, (ok_term _ _ _ Hok) in Hp.
  set (c1 := set_votesFrom _ c). assert (node_ok A n c1) as Hok1.
  { destruct Hok. subst c1. split; try done.
    - intros _ q. cbn. intros [->%elem_of_singleton|Hq]%elem_of_union; [done|].
      by apply ok_votes0.
    - intros Hr'. congruence.
    - by apply (apply_ok_frame _ c _ []); [..|rewrite app_nil_r| |]. }
  destruct (Nat.leb_spec (majority c1) (size (votesFrom_ c1))) as [Hm|].
  - destruct (becomeLeader_sim A now c1 I Hok1 Hr Hm) as (A'&S5&I'&Hok').
    exists A'. split_and!; [|done|done]. eapply sim_trans; [|exact S5]. by apply sim_refl.
  - exists A. split_and!; [by apply sim_refl|done|done].
Qed.

(** *** The follower's log *)

Lemma follower_append_trace A es : Inv members A → a_role A n = Follower →
  same (length (a_log A n)) (a_log A n) (leader_log A (a_term A n)) →
  a_log A n ++ es `prefix_of` leader_log A (a_term A n) →
  ∃ A', etrace members n A ((λ e, EAppend [e]) <$> es) A' ∧ appends A A' es ∧
    ∀ t, leader_log A' t = leader_log A t.
Proof.
  revert A. induction es as [|e es IH]; intros A I Hr Hs Hp.
  { exists A. split_and!; [constructor| |done]. unfold appends. by rewrite app_nil_r. }
  assert (leader_log A (a_term A n) !! length (a_log A n) = Some e) as He.
  { destruct Hp as [k ->]. rewrite <-app_assoc, lookup_app_r, Nat.sub_diag by lia. done. }
  pose proof (act_follower_append members n A e Hr Hs He) as Hstep.
  destruct (astep_inv _ _ _ _ I Hstep) as [_ I1].
  set (A1 := SetLog _ _ _) in *.
  assert (a_log A1 n = a_log A n ++ [e]) as El by (subst A1; by upd).
  destruct (IH A1 I1) as (A'&Ht&Ha&Hl).
  - done.
  - rewrite El. change (leader_log A1) with (leader_log A). change (a_term A1) with (a_term A).
    destruct Hp as [k Hk]. rewrite cons_middle, app_assoc in Hk. rewrite Hk.
    rewrite <-app_assoc. eapply same_prefix; [by eexists|]. by apply same_refl.
  - by rewrite El, <-app_assoc.
  - exists A'. split_and!; [|eapply appends_cons; [|exact Ha]|done].
    + eapply et_eff; [by right| |done|exact Ht]. unfold a_durable. by rewrite El.
    + by split_and!.
Qed.

Lemma follower_append_sim A c es : Inv members A → node_ok A n c → a_role A n = Follower →
  same (length (a_log A n)) (a_log A n) (leader_log A (a_term A n)) →
  a_log A n ++ es `prefix_of` leader_log A (a_term A n) →
  ∃ A', sim A c A' (appendLog es c) ∧ Inv members A' ∧ node_ok A' n (appendLog es c) ∧
    appends A A' es ∧ ∀ t, leader_log A' t = leader_log A t.
Proof.
  intros I Hok Hr Hs Hp. destruct (follower_append_trace A es I Hr Hs Hp) as (A'&Ht&Ha&Hl).
  destruct (etrace_sound _ _ _ _ _ I Ht) as (I'&E&_). exists A'.
  split_and!; [by eapply sim_append|done| |done|done].
  apply (appendLog_node_ok A A' c es); [done|done|done|done|by rewrite Hr|by rewrite Hr].
Qed.

Lemma follower_truncate_sim A c k : Inv members A → node_ok A n c → a_role A n = Follower →
  k < length (a_log A n) → k < length (leader_log A (a_term A n)) →
  term_of (a_log A n) (S k) ≠ term_of (leader_log A (a_term A n)) (S k) →
  let A' := SetLog n (take k (a_log A n)) A in
  let c' := truncateLog (N.of_nat (S k)) c in
  sim A c A' c' ∧ Inv members A' ∧ node_ok A' n c' ∧ a_commit A n ≤ k.
Proof.
  intros I Hok Hr Hk Hk' Hne A' c'.
  assert (astep members n A A') as Hstep by (by apply act_follower_truncate).
  destruct (astep_inv _ _ _ _ I Hstep) as [_ I'].
  assert (a_commit A n ≤ k) as Hck.
  { pose proof (@core_commit_le A' I') as Hc. subst A'. upd. rewrite length_take in Hc. lia. }
  assert (InMemoryLog_truncateSuffixFrom (a_log A n) (N.of_nat (S k)) = take k (a_log A n)) as Et.
  { rewrite truncate_take by lia. f_equal. lia. }
  split_and!; [|done| |done].
  - apply (sim_eff A (ETruncate (N.of_nat (S k)))); [by right| |done|done|done].
    unfold a_durable. cbn [replay1]. rewrite Et. subst A'. by upd.
  - destruct Hok. subst A' c'. split; upd; try done; try congruence.
    + cbn. by rewrite truncate_law, ok_log0.
    + apply (apply_ok_frame _ c _ [ETruncate (N.of_nat (S k))]); try done.
      eapply apply_ok_log; [|done]. apply take_take_le.
      pose proof (ok_last _ _ ok_apply0). lia.
Qed.

(** The walk over the incoming entries: afterwards the log agrees with the
    leader's up to the first entry still to append, where it ends. *)
Lemma walkEntries_sim l prev es : ∀ A i c,
  Inv members A → node_ok A n c → a_role A n = Follower →
  leader_log A (a_term A n) = l → same (N.to_nat prev + i) (a_log A n) l →
  take (N.to_nat prev + i) l ++ es `prefix_of` l →
  ∃ A' j c', walkEntries prev i es c = (j, c') ∧ sim A c A' c' ∧ Inv members A' ∧
    node_ok A' n c' ∧ a_role A' n = Follower ∧ a_term A' n = a_term A n ∧
    leader_log A' (a_term A n) = l ∧ i ≤ j ∧ j ≤ i + length es ∧
    same (N.to_nat prev + j) (a_log A' n) l ∧
    (j < i + length es → length (a_log A' n) = N.to_nat prev + j).
Proof.
  induction es as [|e es IH]; intros A i c I Hok Hr Hl Hs Hp; cbn [walkEntries].
  { exists A, i, c. cbn [length]. split_and!; try done; [by apply sim_refl|lia..]. }
  set (k := N.to_nat prev + i) in *.
  replace (prev + 1 + N.of_nat i)%N with (N.of_nat (S k)) by lia.
  rewrite (core_lastIndex Hok), (core_termAt Hok), Nat2N.id.
  destruct (N.ltb_spec (N.of_nat (length (a_log A n))) (N.of_nat (S k))) as [Hend|Hin].
  { exists A, i, c. destruct (Hs) as (?&_&_). cbn [length].
    split_and!; try done; [by apply sim_refl|lia..]. }
  assert (l !! k = Some e) as He.
  { destruct Hp as [r Hr']. rewrite Hr'. destruct Hs as (_&Hkl&_).
    rewrite <-app_assoc, lookup_app_r; rewrite length_take_le by done; [|lia].
    by rewrite Nat.sub_diag. }
  assert (k < length l) as Hkl by by eapply lookup_lt_Some.
  assert (term_of l (S k) = e_term e) as Hte by (cbn; by rewrite He).
  rewrite <-Hte. destruct (N.eqb_spec (term_of (a_log A n) (S k)) (term_of l (S k))) as [Heq|Hne];
    cbn [negb].
  - assert (same (S k) (a_log A n) l) as Hs'.
    { rewrite <-Hl in *. eapply log_matching; [apply (inv_log _ _ I)|apply (inv_llog _ _ I)|lia..|done]. }
    destruct (IH A (S i) c) as (A'&j&c'&Hw&?&?&?&?&?&?&?&?&?&Hj); try done.
    + by rewrite Nat.add_succ_r.
    + rewrite Nat.add_succ_r. fold k. by rewrite (take_S_r _ _ _ He), <-app_assoc.
    + exists A', j, c'. cbn [length]. split_and!; try done; [lia..|]. intros. apply Hj. lia.
  - destruct (follower_truncate_sim A c k) as (Hsim&I'&Hok'&Hck); try done; try (rewrite Hl; done); [lia|].
    set (A' := SetLog _ _ _) in *.
    assert ((N.of_nat (S k) <=? commitIndex_ c)%N = false) as ->.
    { apply N.leb_gt. rewrite <-(ok_commit _ _ _ Hok) in Hck. lia. }
    exists A', i, (truncateLog (N.of_nat (S k)) c). cbn [length].
    assert (a_log A' n = take k (a_log A n)) as El by (subst A'; by upd).
    split_and!; try done; [lia..| |].
    + rewrite El. fold k. eapply same_trans; [apply same_take; [done|apply Hs]|done].
    + rewrite El, length_take. fold k. lia.
Qed.

(** Walk and append: the log then agrees with the leader's through the last
    entry of the request. *)
Definition mergeEntries (prev : LogIndex) (es : list LogEntry) (c : Core) : Core :=
  let '(i, c) := walkEntries prev 0 es c in
  if (i <? length es) then appendLog (drop i es) c else c.

Lemma mergeEntries_sim A l prev es c :
  Inv members A → node_ok A n c → a_role A n = Follower →
  leader_log A (a_term A n) = l → same (N.to_nat prev) (a_log A n) l →
  take (N.to_nat prev) l ++ es `prefix_of` l →
  ∃ A', sim A c A' (mergeEntries prev es c) ∧ Inv members A' ∧
    node_ok A' n (mergeEntries prev es c) ∧ a_term A' n = a_term A n ∧
    leader_log A' (a_term A n) = l ∧
    same (N.to_nat prev + length es) (a_log A' n) l.
Proof.
  intros I Hok Hr Hl Hs Hp. unfold mergeEntries.
  destruct (walkEntries_sim l prev es A 0 c) as
    (A1&j&c1&->&S1&I1&Hok1&Hr1&Et1&Hl1&_&Hj&Hs1&Hend); try done;
    [by rewrite Nat.add_0_r..|].
  cbn [Nat.add] in *. destruct (Nat.ltb_spec j (length es)) as [Hlt|].
  2: { exists A1. replace j with (length es) in Hs1 by lia. by split_and!. }
  specialize (Hend Hlt).
  assert (a_log A1 n = take (N.to_nat prev + j) l) as El.
  { destruct Hs1 as (_&_&<-). by rewrite take_ge by lia. }
  assert (take (N.to_nat prev + j) l ++ drop j es = take (N.to_nat prev) l ++ es) as Ecat.
  { destruct Hp as [r Hr']. rewrite Hr' at 1. rewrite <-(take_drop j es) at 3.
    rewrite app_assoc. f_equal. destruct Hs as (_&Hpl&_).
    rewrite <-app_assoc, take_app_add'; [|rewrite length_take; lia].
    by rewrite take_app_le by lia. }
  destruct (follower_append_sim A1 c1 (drop j es)) as (A'&S2&I2&Hok2&(Et2&_&_&_&El2)&Hl2); try done.
  - rewrite Et1, Hl1, Hend. done.
  - rewrite Et1, Hl1, El, Ecat. done.
  - exists A'. split_and!; [by eapply sim_trans|done|done|congruence|by rewrite Hl2|].
    rewrite El2, El, Ecat. destruct Hp as [r Hr']. destruct Hs as (_&Hpl&_).
    assert (length (take (N.to_nat prev) l ++ es) = N.to_nat prev + length es) as Hlen
      by (rewrite length_app, length_take; lia).
    rewrite Hr' at 2. eapply same_prefix; [by eexists|]. apply same_refl. lia.
Qed.

(** The end of an accepted AppendEntries: merge, commit, acknowledge. *)
Lemma accept_sim A from ae c l0 :
  Inv members A → node_ok A n c → a_role A n = Follower → ae_term ae = a_term A n →
  packet_ok members A (mkPacket from n (MAppendEntries ae)) →
  leader_log A (a_term A n) = l0 →
  same (N.to_nat (ae_prevLogIndex ae)) (a_log A n) l0 →
  let c1 := mergeEntries (ae_prevLogIndex ae) (ae_entries ae) c in
  let confirmedThrough := (ae_prevLogIndex ae + N.of_nat (length (ae_entries ae)))%N in
  let c2 := if (commitIndex_ c1 <? ae_leaderCommit ae)%N
            then applyCommitted
                   (set_commitIndex (N.min (ae_leaderCommit ae) confirmedThrough) c1)
            else c1 in
  let c3 := send from (MAppendEntriesReply
              (mkAppendEntriesReply (a_term A n) true confirmedThrough 0)) c2 in
  ∃ A', sim A c A' c3 ∧ Inv members A' ∧ node_ok A' n c3.
Proof.
  intros I Hok Hr Ht Hpk Hl Hs c1 confirmed c2 c3.
  pose proof Hpk as (Hin&Hne&_&_&_&Hpre&_). cbn in Hin, Hne, Hpre. rewrite Ht, Hl in Hpre.
  destruct (mergeEntries_sim A l0 (ae_prevLogIndex ae) (ae_entries ae) c)
    as (A1&S1&I1&Hok1&Et1&Hl1&Hs1); try done. fold c1 in S1, Hok1.
  destruct (sim_inv _ _ _ _ I S1) as [_ E1].
  apply (packet_ok_ext _ _ _ _ E1) in Hpk as (_&_&_&_&_&_&Hlc&Hcov).
  cbn in Hlc, Hcov. rewrite Ht, Hl1 in Hcov.
  assert (∃ A2, sim A1 c1 A2 c2 ∧ Inv members A2 ∧ node_ok A2 n c2 ∧
    a_term A2 n = a_term A1 n ∧ a_log A2 n = a_log A1 n ∧
    ∀ t, leader_log A2 t = leader_log A1 t) as (A2&S2&I2&Hok2&Et2&El2&Hl2).
  { subst c2. destruct (N.ltb_spec (commitIndex_ c1) (ae_leaderCommit ae)) as [Hlt|].
    2: { exists A1. split_and!; try done. by apply sim_refl. }
    rewrite N.min_l by lia.
    destruct (set_commit_sim A1 c1 (ae_leaderCommit ae) I1 Hok1) as (?&?&?);
      [lia| |by eexists].
    rewrite Et1. destruct Hcov as [Hz|(t&i&?&?&?&Hsame)]; [by left|right].
    exists t, i. split_and!; try done. eapply same_trans; [|exact Hsame].
    apply (same_le (N.to_nat (ae_prevLogIndex ae) + length (ae_entries ae))); done. }
  set (j := N.to_nat confirmed).
  assert (same j (a_log A2 n) (leader_log A2 (a_term A2 n))) as Hs2.
  { rewrite El2, Hl2, Et2, Et1, Hl1. subst j confirmed.
    replace (N.to_nat _) with (N.to_nat (ae_prevLogIndex ae) + length (ae_entries ae)) by lia.
    done. }
  pose proof (act_ack members n A2 j Hs2) as Hstep.
  set (A3 := SetAcked _ _ _) in *.
  destruct (astep_inv _ _ _ _ I2 Hstep) as [E3 I3].
  assert (node_ok A3 n c2) as Hok3.
  { destruct Hok2. split; try done. intros Hr2. destruct (ok_leader0 Hr2). split; try done.
    - intros q v Hq. destruct (ok_match0 q v Hq). split; [done|].
      etrans; [done|apply (ext_acked _ _ E3)].
    - intros i Hi Hil Hti. etrans; [by apply ok_own0|apply (ext_acked _ _ E3)]. }
  exists A3. destruct (send_sim A3 c2 from (MAppendEntriesReply
    (mkAppendEntriesReply (a_term A n) true confirmed 0)) Hok3) as [S4 Hok4].
  { split_and!; [done|by apply not_eq_sym|]. intros _. cbn.
    rewrite <-Et1, <-Et2. subst A3. upd. fold j. lia. }
  split_and!; [|done|done]. eapply sim_trans; [exact S1|]. eapply sim_trans; [exact S2|].
  eapply sim_trans; [|exact S4]. by apply sim_quiet.
Qed.

(** A refusal promises nothing. *)
Lemma refuse_sim A c from i ct : Inv members A → node_ok A n c → from ≠ n →
  let c' := send from (MAppendEntriesReply
              (mkAppendEntriesReply (a_term A n) false i ct)) c in
  ∃ A', sim A c A' c' ∧ Inv members A' ∧ node_ok A' n c'.
Proof.
  intros I Hok Hne c'. exists A.
  destruct (send_sim A c from (MAppendEntriesReply
    (mkAppendEntriesReply (a_term A n) false i ct)) Hok); [|by split_and!].
  split_and!; [done|by apply not_eq_sym|done].
Qed.

(** The part of [onAppendEntries] behind the term and role checks. *)
Definition checkAndMerge (from : NodeId) (ae : AppendEntries) (c : Core) : Core :=
  let cur := currentTerm c in
  if (log_lastIndex (log_ c) <? ae_prevLogIndex ae)%N
  then send from (MAppendEntriesReply (mkAppendEntriesReply cur false
                    (log_lastIndex (log_ c) + 1) 0)) c
  else if negb (log_termAt (log_ c) (ae_prevLogIndex ae) =? ae_prevLogTerm ae)%N then
    let conflictTerm := log_termAt (log_ c) (ae_prevLogIndex ae) in
    let first := firstOfTerm (N.to_nat (ae_prevLogIndex ae)) (log_ c) conflictTerm
                   (ae_prevLogIndex ae) in
    send from (MAppendEntriesReply (mkAppendEntriesReply cur false first conflictTerm)) c
  else
    let c1 := mergeEntries (ae_prevLogIndex ae) (ae_entries ae) c in
    let confirmedThrough := (ae_prevLogIndex ae + N.of_nat (length (ae_entries ae)))%N in
    let c2 := if (commitIndex_ c1 <? ae_leaderCommit ae)%N
              then applyCommitted
                     (set_commitIndex (N.min (ae_leaderCommit ae) confirmedThrough) c1)
              else c1 in
    send from (MAppendEntriesReply (mkAppendEntriesReply cur true confirmedThrough 0)) c2.

Lemma checkAndMerge_sim A from ae c :
  Inv members A → node_ok A n c → a_role A n = Follower → ae_term ae = a_term A n →
  packet_ok members A (mkPacket from n (MAppendEntries ae)) →
  ∃ A', sim A c A' (checkAndMerge from ae c) ∧ Inv members A' ∧
    node_ok A' n (checkAndMerge from ae c).
Proof.
  intros I Hok Hr Ht Hpk. unfold checkAndMerge. cbv zeta.
  rewrite (core_lastIndex Hok), (core_termAt Hok), (ok_term _ _ _ Hok).
  pose proof Hpk as (_&Hne&_&Hpl&Hpt&_). cbn in Hne, Hpl, Hpt. rewrite Ht in Hpl, Hpt.
  destruct (N.ltb_spec (N.of_nat (length (a_log A n))) (ae_prevLogIndex ae)) as [|Hge].
  { by apply refuse_sim. }
  destruct (N.eqb_spec (term_of (a_log A n) (N.to_nat (ae_prevLogIndex ae))) (ae_prevLogTerm ae))
    as [Heq|]; cbn [negb].
  2: { by apply refuse_sim. }
  eapply accept_sim; try done.
  destruct (decide (0 < N.to_nat (ae_prevLogIndex ae))) as [Hpos|].
  - eapply log_matching; [apply (inv_log _ _ I)|apply (inv_llog _ _ I)|done|lia|done|congruence].
  - replace (N.to_nat (ae_prevLogIndex ae)) with 0 by lia. by repeat split; lia.
Qed.

(** The handler is [checkAndMerge] behind its guards. *)
Lemma onAppendEntries_eq now from ae c :
  onAppendEntries now from ae c =
  if (ae_term ae <? currentTerm c)%N
  then send from (MAppendEntriesReply (mkAppendEntriesReply (currentTerm c) false 0 0)) c
  else if decide (role_ c = Leader) then emit (EError ElectionSafetyViolation) c
  else
    let c1 := set_leaderId (Some (ae_leaderId ae)) c in
    let c2 := if decide (role_ c1 = Candidate)
              then becomeFollower now (currentTerm c) LeaderDiscovered c1 else c1 in
    checkAndMerge from ae (resetElectionTimer now c2).
Proof.
  unfold onAppendEntries, checkAndMerge, mergeEntries. cbv zeta.
  destruct (_ <? _)%N; [done|]. destruct (decide (role_ c = Leader)); [done|].
  set (c2 := resetElectionTimer now _).
  assert (currentTerm c2 = currentTerm c) as ->.
  { subst c2. destruct (resetElectionTimer_eq now
      (if decide (role_ (set_leaderId (Some (ae_leaderId ae)) c) = Candidate)
       then becomeFollower now (currentTerm c) LeaderDiscovered
              (set_leaderId (Some (ae_leaderId ae)) c)
       else set_leaderId (Some (ae_leaderId ae)) c)) as (d&rng&->).
    cbn [currentTerm persist_ set_electionDeadline set_rng].
    destruct (decide (role_ (set_leaderId _ c) = Candidate)) as [Hc|]; [|done].
    unfold becomeFollower. rewrite N.ltb_irrefl, decide_False by (by rewrite Hc). done. }
  destruct (_ <? _)%N; [done|]. destruct (negb _); [done|].
  by destruct (walkEntries _ _ _ _) as [i c3].
Qed.

Lemma onAppendEntries_sim A now from ae c : Inv members A → node_ok A n c →
  packet_ok members A (mkPacket from n (MAppendEntries ae)) → (ae_term ae ≤ a_term A n)%N →
  ∃ A', sim A c A' (onAppendEntries now from ae c) ∧ Inv members A' ∧
    node_ok A' n (onAppendEntries now from ae c).
Proof.
  intros I Hok Hpk Hle. rewrite onAppendEntries_eq, (ok_term _ _ _ Hok).
  destruct (Hpk) as (_&Hne&[l He]&_). cbn in Hne, He.
  destruct (N.ltb_spec (ae_term ae) (a_term A n)) as [|Hge]; [by apply refuse_sim|].
  assert (ae_term ae = a_term A n) as Ht by lia. rewrite Ht in He.
  destruct (decide (role_ c = Leader)) as [Hr|Hnl]; rewrite (ok_role _ _ _ Hok) in *.
  { rewrite (inv_leader _ _ I n Hr) in He. by simplify_eq. }
  set (c1 := set_leaderId _ c). cbv zeta.
  assert (node_ok A n c1) as Hok1 by by apply node_ok_leaderId.
  assert (∃ A2 c2, (if decide (role_ c1 = Candidate)
      then becomeFollower now (a_term A n) LeaderDiscovered c1 else c1) = c2 ∧
    sim A c A2 c2 ∧ Inv members A2 ∧ node_ok A2 n c2 ∧ a_role A2 n = Follower ∧
    a_term A2 n = a_term A n) as (A2&c2&->&S2&I2&Hok2&Hr2&Et2).
  { rewrite (ok_role _ _ _ Hok1). destruct (decide (a_role A n = Candidate)) as [Hr|].
    - destruct (becomeFollower_same_sim A now LeaderDiscovered c1 I Hok1 Hnl) as (Hs&?&?).
      rewrite (ok_term _ _ _ Hok1) in *. eexists (SetRole n Follower A), _.
      split_and!; try done; try by upd.
    - exists A, c1. split_and!; try done; [by apply sim_refl|]. by destruct (a_role A n). }
  destruct (sim_inv _ _ _ _ I S2) as [_ E2].
  destruct (checkAndMerge_sim A2 from ae (resetElectionTimer now c2)) as (A'&S3&?&?);
    [done|by apply node_ok_timer|done|congruence|by eapply packet_ok_ext|].
  exists A'. split_and!; [|done|done]. eapply sim_trans; [exact S2|].
  eapply sim_trans; [|exact S3]. apply sim_refl, fx_timer.
Qed.

(** *** Replies to the leader *)

Lemma node_ok_indexes A c ni mi : node_ok A n c → a_role A n = Leader →
  leader_ok A n (set_nextIndex ni (set_matchIndex mi c)) →
  node_ok A n (set_nextIndex ni (set_matchIndex mi c)).
Proof.
  intros [] Hr Hl. split; try done. by apply (apply_ok_frame _ c _ []); [..|rewrite app_nil_r| |].
Qed.

(** The leader may move a peer's window anywhere up to the end of its log. *)
Lemma leader_ok_next A c q v : leader_ok A n c → 0 < N.to_nat v →
  N.to_nat v ≤ S (length (a_log A n)) →
  leader_ok A n (set_nextIndex (<[q := v]> (nextIndex_ c)) c).
Proof.
  intros [] Hv Hv'. split; cbn; try done.
  - intros p Hp. destruct (decide (q = p)) as [->|].
    + rewrite lookup_insert_eq. by eexists.
    + rewrite lookup_insert_ne by done. auto.
  - intros p w. destruct (decide (q = p)) as [->|].
    + rewrite lookup_insert_eq. by intros [= <-].
    + rewrite lookup_insert_ne by done. apply ok_next0.
Qed.

Lemma leader_ok_match A c q v : leader_ok A n c → q ∈ peers_of members n →
  N.to_nat v ≤ a_acked A q (a_term A n) →
  leader_ok A n (set_matchIndex (<[q := v]> (matchIndex_ c)) c).
Proof.
  intros [] Hq Hv. split; cbn; try done.
  - intros p Hp. destruct (decide (q = p)) as [->|].
    + rewrite lookup_insert_eq. by eexists.
    + rewrite lookup_insert_ne by done. auto.
  - intros p w. destruct (decide (q = p)) as [->|].
    + rewrite lookup_insert_eq. by intros [= <-].
    + rewrite lookup_insert_ne by done. apply ok_match0.
Qed.

Lemma acked_le_log A q : Inv members A → a_role A n = Leader →
  a_acked A q (a_term A n) ≤ length (a_log A n).
Proof.
  intros I Hr. rewrite <-(leader_own_log members A I n Hr). by apply (acked_le members A I).
Qed.

(** A success: the peer's match point moves up, commit may advance, and the
    rest of the log follows. *)
Lemma ack_reply_sim A from ack c : Inv members A → node_ok A n c → a_role A n = Leader →
  from ∈ peers_of members n → N.to_nat ack ≤ a_acked A from (a_term A n) →
  let c1 := advanceCommit (set_nextIndex (<[from := (ack + 1)%N]> (nextIndex_ c))
              (set_matchIndex (<[from := ack]> (matchIndex_ c)) c)) in
  let '(ni, nm) := map_index (nextIndex_ c1) from in
  let c2 := set_nextIndex nm c1 in
  let c3 := if (ni <=? log_lastIndex (log_ c2))%N then sendAppendEntries from c2 else c2 in
  ∃ A', sim A c A' c3 ∧ Inv members A' ∧ node_ok A' n c3.
Proof.
  intros I Hok Hr Hfrom Hack c1.
  pose proof (acked_le_log A from I Hr) as Hle.
  destruct (advanceCommit_sim A (set_nextIndex (<[from := (ack + 1)%N]> (nextIndex_ c))
    (set_matchIndex (<[from := ack]> (matchIndex_ c)) c))) as (A1&S1&I1&Hok1&Hr1); [done| |done|].
  { apply node_ok_indexes; [done|done|].
    apply (leader_ok_next A (set_matchIndex _ c)); [|lia..].
    apply leader_ok_match; [by apply (ok_leader _ _ _ Hok)|done|done]. }
  fold c1 in S1, Hok1.
  destruct (ok_next_dom _ _ _ (ok_leader _ _ _ Hok1 Hr1) from Hfrom) as [v Hv].
  rewrite (map_index_Some _ _ _ Hv). cbv zeta.
  replace (set_nextIndex (nextIndex_ c1) c1) with c1 by (by destruct c1).
  destruct (_ <=? _)%N; [|by exists A1].
  destruct (sendAppendEntries_sim A1 c1 from I1 Hok1 Hr1 Hfrom) as [S2 Hok2].
  exists A1. split_and!; [by eapply sim_trans|done|done].
Qed.

Lemma onAppendEntriesReply_sim A from r c : Inv members A → node_ok A n c →
  packet_ok members A (mkPacket from n (MAppendEntriesReply r)) →
  ∃ A', sim A c A' (onAppendEntriesReply from r c) ∧ Inv members A' ∧
    node_ok A' n (onAppendEntriesReply from r c).
Proof.
  intros I Hok (Hin&Hne&Hp). cbn in Hp, Hin, Hne. unfold onAppendEntriesReply.
  destruct (bool_decide (role_ c = Leader)) eqn:Hr; cbn [negb].
  2: { exists A. by split; [apply sim_refl|]. }
  apply bool_decide_eq_true in Hr. rewrite (ok_role _ _ _ Hok) in Hr.
  destruct (N.eqb_spec (aer_term r) (currentTerm c)) as [Ht|]; cbn [negb].
  2: { exists A. by split; [apply sim_refl|]. }
  rewrite Ht, (ok_term _ _ _ Hok) in Hp.
  assert (from ∈ peers_of members n) as Hfrom by by apply peers_of_spec.
  pose proof (ok_leader _ _ _ Hok Hr) as Hl.
  destruct (ok_match_dom _ _ _ Hl from Hfrom) as [m Hm].
  destruct (ok_match _ _ _ Hl from m Hm) as [_ Hma].
  pose proof (acked_le_log A from I Hr) as Hle.
  destruct (aer_success r).
  - specialize (Hp eq_refl). rewrite (core_lastIndex Hok). cbv zeta.
    destruct (N.ltb_spec (N.of_nat (length (a_log A n))) (aer_conflictIndex r)) as [|_]; [lia|].
    rewrite (map_index_Some _ _ _ Hm).
    replace (set_matchIndex (matchIndex_ c) c) with c by (by destruct c).
    destruct (m <? aer_conflictIndex r)%N.
    + pose proof (ack_reply_sim A from (aer_conflictIndex r) c I Hok Hr Hfrom Hp) as Hs.
      cbv zeta in Hs. by destruct (map_index _ from) as [ni nm].
    + exists A. by split; [apply sim_refl|].
  - destruct (ok_next_dom _ _ _ Hl from Hfrom) as [cur Hcur].
    destruct (ok_next _ _ _ Hl from cur Hcur) as [Hc1 Hc2].
    cbv zeta. match goal with |- context [N.min ?x _] => set (hint := x) end.
    rewrite (map_index_Some _ _ _ Hcur).
    replace (set_nextIndex (nextIndex_ c) c) with c by (by destruct c).
    rewrite (map_index_Some _ _ _ Hm).
    replace (set_matchIndex (matchIndex_ c) c) with c by (by destruct c).
    match goal with |- context [<[from := ?x]> _] => set (ni := x) end.
    assert (node_ok A n (set_nextIndex (<[from := ni]> (nextIndex_ c)) c)) as Hok1.
    { pose proof (leader_ok_next A c from ni Hl ltac:(lia) ltac:(lia)) as Hl1.
      pose proof (node_ok_indexes A c (<[from := ni]> (nextIndex_ c)) (matchIndex_ c) Hok Hr) as H1.
      replace (set_matchIndex (matchIndex_ c) c) with c in H1 by (by destruct c). auto. }
    destruct (sendAppendEntries_sim A _ from I Hok1 Hr Hfrom) as [S1 Hok2].
    exists A. split_and!; [|done|done]. eapply sim_trans; [|exact S1]. by apply sim_refl.
Qed.

(** *** Whole calls *)

Lemma handle_sim A now from m c : Inv members A → node_ok A n c →
  packet_ok members A (mkPacket from n m) →
  let c' := handle None now (envelope_for from n m) m c in
  ∃ A', sim A c A' c' ∧ Inv members A' ∧ node_ok A' n c'.
Proof.
  intros I Hok Hp c'. subst c'. unfold handle. cbn [env_from envelope_for].
  assert (∃ A1 c1, match termOf m with
      | Some t => if (currentTerm c <? t)%N then becomeFollower now t HigherTermSeen c else c
      | None => c end = c1 ∧ sim A c A1 c1 ∧ Inv members A1 ∧ node_ok A1 n c1 ∧
      ∀ t, termOf m = Some t → (t ≤ a_term A1 n)%N) as (A1&c1&->&S1&I1&Hok1&Ht).
  { destruct (termOf m) as [t|]; [|exists A, c; split_and!; by try apply sim_refl].
    rewrite (ok_term _ _ _ Hok). destruct (N.ltb_spec (a_term A n) t) as [Hlt|].
    - destruct (becomeFollower_up_sim A now t HigherTermSeen c I Hok Hlt) as (?&?&?).
      eexists _, _. split_and!; try done. intros t' [= <-]. by upd.
    - exists A, c. split_and!; try done; [by apply sim_refl|]. by intros t' [= <-]. }
  destruct (sim_inv _ _ _ _ I S1) as [_ E1]. apply (packet_ok_ext _ _ _ _ E1) in Hp.
  assert (∀ c', (∃ A', sim A1 c1 A' c' ∧ Inv members A' ∧ node_ok A' n c') →
    ∃ A', sim A c A' c' ∧ Inv members A' ∧ node_ok A' n c') as Hpre.
  { intros c' (A'&?&?&?). exists A'. split_and!; [by eapply sim_trans|done|done]. }
  apply Hpre. destruct m as [rv|r|ae|r|r|r]; cbn [termOf] in Ht.
  - apply onRequestVote_sim; auto.
  - by apply onRequestVoteReply_sim.
  - apply onAppendEntries_sim; auto.
  - by apply onAppendEntriesReply_sim.
  - exists A1. by split; [apply sim_refl|].
  - exists A1. by split; [apply sim_refl|].
Qed.

End Node.
End Refine.
