(* ===== verification/RaftSafety.v ===== *)
(** * Safety of the cluster

    Every reachable cluster is matched by an abstract state that satisfies the
    protocol invariant ([cluster_ok]); the guarantees of Raft follow for the
    cores themselves, over the whole history of the cluster: any interleaving of
    calls, any fate of the messages, any number of crashes inside any call. *)

From Stdlib Require Import NArith Strings.Byte Lia.
From stdpp Require Import functions.
From S2P Require Import Prelude Messages Codec Log RaftCore RaftNode RaftSpec RaftInv Cluster.
From S2P Require Import RaftRefine.

Local Open Scope nat_scope.

Section Safety.
Context {P L SM R K : Type}.
Context `{!PersistentState P} `{!RaftLog L} `{!StateMachine SM} `{!Rng R} `{!ApplySink K}.
Context `{!PersistentStateLaws P} `{!RaftLogLaws L}.
Context (members : list N) (cfg : RaftConfig) (sm0 : SM).
Context (Hmembers : NoDup members).

Local Abbreviation Core := (@RaftCore P L SM R K).
Local Abbreviation Cluster := (@Cluster P L SM R K).
Local Abbreviation Boot := (@Boot P L R K).
Local Abbreviation exec := (exec members cfg sm0).
Local Abbreviation reaches := (reaches members cfg sm0).
Local Abbreviation reachable := (reachable members cfg sm0).
Local Abbreviation initial := (initial members cfg sm0).

Definition no_errors (fx : list Effect) : Prop := ∀ e, EError e ∉ fx.

Record cluster_ok (A : AState) (s : Cluster) : Prop := {
  cl_inv : Inv members A;
  cl_dom n c : nodes s !! n = Some c → n ∈ members;
  cl_node n c : nodes s !! n = Some c → node_ok members sm0 A n c;
  cl_net : Forall (packet_ok members A) (net s);
  cl_errors n c : nodes s !! n = Some c → no_errors (fx_ c);
}.

(** ** The simulation *)

Lemma sends_atomic n fx : sends n (fx ≫= atomic) = sends n fx.
Proof.
  induction fx as [|e fx IH]; [done|]. cbn [mbind list_bind].
  unfold sends in *. rewrite omap_app, IH. destruct e as [| es| | | | | |]; try done.
  cbn. induction es; [done|]. by cbn.
Qed.

Lemma errors_atomic fx : no_errors (fx ≫= atomic) → no_errors fx.
Proof.
  intros H e He. apply (H e), list_elem_of_bind. exists (EError e).
  split; [apply list_elem_of_singleton; done|done].
Qed.

Lemma run_op_sim A s n now op c c' : cluster_ok A s → nodes s !! n = Some c →
  run_op s n now op c = Some c' →
  ∃ A', sim members n A c A' c' ∧ Inv members A' ∧ node_ok members sm0 A' n c'.
Proof.
  intros [I Hd Hnode Hnet _] Hc Hrun. pose proof (Hnode n c Hc) as Hok.
  pose proof (Hd n c Hc) as Hn. destruct op as [|i|cmd|cmds|]; cbn in Hrun.
  - destruct (N.ltb_spec (currentTerm c + 1) two64) as [Hw|]; simplify_eq.
    rewrite (ok_term _ _ _ _ _ Hok) in Hw. by apply tick_sim.
  - apply bind_Some in Hrun as ([from to m]&Hp&Hrun). cbn in Hrun.
    destruct (N.eqb_spec to n) as [->|]; simplify_eq.
    apply handle_sim; try done. by eapply (Forall_lookup_1 _ _ _ _ Hnet).
  - simplify_eq. by apply propose_sim.
  - simplify_eq. by apply proposeBatch_sim.
  - simplify_eq. exists A. destruct (applyCommitted_sim members sm0 n A c I Hok). done.
Qed.

Lemma boot_node_ok A n (b : Boot) : n ∈ members → a_durable A n = boot_durable b →
  node_ok members sm0 (Crash n A) n (boot members cfg sm0 n b).
Proof.
  intros Hn Hd. unfold boot, start, a_durable, boot_durable, Crash in *. simplify_eq.
  apply node_ok_timer. split; upd; try done.
Qed.

(** Crashing after any prefix of the effects of a call. *)
Lemma crash_sim A n (c c' : Core) A' k (b : Boot) : Inv members A → n ∈ members → node_ok members sm0 A n c →
  sim members n A c A' c' →
  boot_durable b = replay (durable_of c) (take k (new_fx c c' ≫= atomic)) →
  ∃ A1, etrace members n A (take k (new_fx c c' ≫= atomic)) A1 ∧
    node_ok members sm0 (Crash n A1) n (boot members cfg sm0 n b).
Proof.
  intros I Hn Hok (fx&Hfx&Ht) Hb. unfold new_fx in *. rewrite Hfx, drop_app_length in *.
  destruct (etrace_take _ _ _ _ _ k Ht) as [A1 Ht1]. exists A1. split; [done|].
  apply boot_node_ok; [done|]. destruct (etrace_sound _ _ _ _ _ I Ht1) as (_&_&_&Hd&_).
  rewrite Hd, Hb. f_equal. unfold a_durable, durable_of. by destruct Hok; congruence.
Qed.

(** The rest of the cluster after node [n] acted. *)
Lemma cluster_ok_step A A' s n c' ps :
  cluster_ok A s → Inv members A' → extends A A' → others_same n A A' → n ∈ members →
  node_ok members sm0 A' n c' → Forall (packet_ok members A') ps → no_errors (fx_ c') →
  cluster_ok A' (mkCluster (<[n := c']> (nodes s)) (net s ++ ps)).
Proof.
  intros [I Hd Hnode Hnet He] I' E O Hn Hok Hps Hne. split; cbn.
  - done.
  - intros m c. destruct (decide (n = m)) as [<-|]; [done|].
    rewrite lookup_insert_ne by done. apply Hd.
  - intros m c. destruct (decide (n = m)) as [<-|].
    + rewrite lookup_insert_eq. by intros [= <-].
    + rewrite lookup_insert_ne by done. intros Hc. eapply node_ok_other; eauto.
  - apply Forall_app. split; [|done]. eapply Forall_impl; [exact Hnet|].
    intros p. by apply packet_ok_ext.
  - intros m c. destruct (decide (n = m)) as [<-|].
    + rewrite lookup_insert_eq. by intros [= <-].
    + rewrite lookup_insert_ne by done. apply He.
Qed.

Lemma crash_others n A : others_same n A (Crash n A).
Proof. unfold Crash. frame_others. Qed.

Lemma exec_sim A s ev s' : cluster_ok A s → exec s ev = Some s' →
  ∃ A', rtc (aany members) A A' ∧ extends A A' ∧ cluster_ok A' s'.
Proof.
  intros H Hexec. destruct ev as [n now op|n now op k b]; cbn in Hexec.
  - apply bind_Some in Hexec as (c&Hc&Hexec). apply bind_Some in Hexec as (c'&Hrun&[= <-]).
    destruct (run_op_sim A s n now op c c' H Hc Hrun) as (A'&(fx&Hfx&Ht)&I'&Hok').
    destruct (etrace_sound _ _ _ _ _ (cl_inv _ _ H) Ht) as (_&E&O&_&Hps&Hne).
    exists A'. split_and!; [by eapply etrace_steps|done|].
    apply (cluster_ok_step A); try done.
    + by eapply cl_dom.
    + unfold new_fx. rewrite Hfx, drop_app_length, <-sends_atomic. done.
    + rewrite Hfx. intros e [He|He]%elem_of_app; [by eapply (cl_errors _ _ H)|].
      by eapply errors_atomic.
  - apply bind_Some in Hexec as (c&Hc&Hexec). apply bind_Some in Hexec as (c'&Hrun&Hexec).
    destruct (decide _) as [Hb|]; [|done]. injection Hexec as <-.
    destruct (run_op_sim A s n now op c c' H Hc Hrun) as (A'&Hsim&_&_).
    pose proof (cl_inv _ _ H) as I. pose proof (cl_dom _ _ H n c Hc) as Hn.
    destruct (crash_sim A n c c' A' k b I Hn (cl_node _ _ H n c Hc) Hsim Hb) as (A1&Ht&Hok).
    destruct (etrace_sound _ _ _ _ _ I Ht) as (I1&E&O&_&Hps&_).
    destruct (crash_inv members n A1 I1) as [E1 I2].
    exists (Crash n A1). split_and!.
    + eapply rtc_r; [by eapply etrace_steps|]. exists n. by right.
    + by eapply extends_trans.
    + apply (cluster_ok_step A); try done.
      * by eapply extends_trans.
      * eapply others_trans; [done|apply crash_others].
      * unfold boot, start. rewrite fx_timer. by intros e ?%elem_of_nil.
Qed.

Lemma reaches_sim A s s' : cluster_ok A s → reaches s s' →
  ∃ A', rtc (aany members) A A' ∧ extends A A' ∧ cluster_ok A' s'.
Proof.
  intros H Hr. induction Hr as [|s1 s2 ev Hr IH Hev].
  - exists A. split_and!; [done|apply extends_refl|done].
  - destruct IH as (A1&?&?&H1). destruct (exec_sim A1 s1 ev s2 H1 Hev) as (A2&?&?&?).
    exists A2. split_and!; [by etrans|by eapply extends_trans|done].
Qed.

Lemma initial_ok s : initial s → cluster_ok A_init s.
Proof.
  intros (Hnet&Hdom&Hn).
  assert (∀ n c, nodes s !! n = Some c → n ∈ members) as Hd.
  { intros n c Hc. assert (n ∈ dom (nodes s)) as Hin by by apply elem_of_dom.
    rewrite Hdom in Hin. by apply elem_of_list_to_set in Hin. }
  split; [apply Inv_init|done| | |].
  - intros n c Hc. destruct (Hn n c Hc) as (b&Hb&->).
    assert (node_ok members sm0 (Crash n A_init) n (boot members cfg sm0 n b)) as Hok.
    { apply boot_node_ok; [by eapply Hd|done]. }
    destruct Hok. split; unfold Crash in *; upd; try done.
  - by rewrite Hnet.
  - intros n c Hc. destruct (Hn n c Hc) as (b&_&->). unfold boot, start. rewrite fx_timer.
    by intros e ?%elem_of_nil.
Qed.

(** Two points of one history. *)
Lemma history s s' : reachable s → reaches s s' →
  ∃ A A', cluster_ok A s ∧ cluster_ok A' s' ∧ extends A A'.
Proof.
  intros (s0&Hi&Hr) Hr'. destruct (reaches_sim _ _ _ (initial_ok _ Hi) Hr) as (A&_&_&H).
  destruct (reaches_sim _ _ _ H Hr') as (A'&_&?&?). by exists A, A'.
Qed.

(** ** What has been applied is covered *)

Lemma covered_le A b l j k : covered members A b l k → j ≤ k → covered members A b l j.
Proof.
  intros [->|(t&i&?&?&?&?)] Hj; [left; lia|right]. exists t, i.
  split_and!; [done|done|lia|by eapply same_le].
Qed.

Lemma numbered_prefix l1 l2 : l1 `prefix_of` l2 → numbered l1 `prefix_of` numbered l2.
Proof. intros [k ->]. unfold numbered. rewrite imap_app. by eexists. Qed.

Lemma applied_covered A s n c : cluster_ok A s → nodes s !! n = Some c →
  ∃ b k l, applied (fx_ c) = numbered (take k l) ∧ covered members A b l k.
Proof.
  intros H Hc. pose proof (cl_node _ _ H _ _ Hc) as Hok.
  destruct (ok_apply _ _ _ _ _ Hok) as [Hle Ha _ _].
  exists (a_term A n), (N.to_nat (lastApplied_ c)), (a_log A n). split; [done|].
  eapply covered_le; [apply (inv_commit _ _ (cl_inv _ _ H))|].
  rewrite <-(ok_commit _ _ _ _ _ Hok). lia.
Qed.

Lemma numbered_snd l : snd <$> numbered l = l.
Proof.
  unfold numbered. rewrite fmap_imap. by rewrite (imap_const (λ e, e)), list_fmap_id.
Qed.

Lemma sm_covered A s n c : cluster_ok A s → nodes s !! n = Some c → applySink_ c = None →
  ∃ b l, sm_ c = run_sm sm0 (take (N.to_nat (lastApplied_ c)) l) ∧
    covered members A b l (N.to_nat (lastApplied_ c)).
Proof.
  intros H Hc Hk. pose proof (cl_node _ _ H _ _ Hc) as Hok.
  destruct (ok_apply _ _ _ _ _ Hok) as [Hle Ha Hsm Hin].
  exists (a_term A n), (a_log A n). split.
  - by rewrite Hsm, Hin, Ha, numbered_snd.
  - eapply covered_le; [apply (inv_commit _ _ (cl_inv _ _ H))|].
    rewrite <-(ok_commit _ _ _ _ _ Hok). lia.
Qed.

(** ** The guarantees *)

Section Guarantees.
Context (s s' : Cluster) (Hs : reachable s) (Hss : reaches s s').
Context (n1 n2 : N) (c1 c2 : Core).
Context (Hc1 : nodes s !! n1 = Some c1) (Hc2 : nodes s' !! n2 = Some c2).

(** C1: Election Safety.  A term has at most one leader, ever: if a core leads
    term [t] now and a core leads [t] at any later point of the history, crashes
    and re-elections included, they are the same node. *)
Theorem election_safety : role_ c1 = Leader → role_ c2 = Leader →
  currentTerm c1 = currentTerm c2 → n1 = n2.
Proof.
  destruct (history s s' Hs Hss) as (A&A'&H&H'&E). intros Hr1 Hr2 Ht.
  pose proof (cl_node _ _ H _ _ Hc1) as Hok1. pose proof (cl_node _ _ H' _ _ Hc2) as Hok2.
  rewrite (ok_role _ _ _ _ _ Hok1) in Hr1. rewrite (ok_role _ _ _ _ _ Hok2) in Hr2.
  rewrite (ok_term _ _ _ _ _ Hok1), (ok_term _ _ _ _ _ Hok2) in Ht.
  destruct (ext_elected _ _ E _ _ _ (inv_leader _ _ (cl_inv _ _ H) n1 Hr1)) as (l&He&_).
  pose proof (inv_leader _ _ (cl_inv _ _ H') n2 Hr2) as He2. congruence.
Qed.

Lemma applied_comparable :
  applied (fx_ c1) `prefix_of` applied (fx_ c2) ∨
  applied (fx_ c2) `prefix_of` applied (fx_ c1).
Proof.
  destruct (history s s' Hs Hss) as (A&A'&H&H'&E).
  destruct (applied_covered A s n1 c1 H Hc1) as (b1&k1&l1&-> & Hk1).
  destruct (applied_covered A' s' n2 c2 H' Hc2) as (b2&k2&l2&-> & Hk2).
  apply (ext_covered _ E b1 b1) in Hk1; [|done]. pose proof (cl_inv _ _ H') as I.
  destruct (decide (k1 ≤ k2)).
  - left. apply numbered_prefix. exists (drop k1 (take k2 l2)).
    destruct (covered_agree _ _ I _ _ _ _ k1 Hk1 (covered_le A' b2 l2 k1 k2 Hk2 ltac:(done)))
      as (_&_&->). by rewrite <-(take_take_le l2 k1 k2), take_drop.
  - right. apply numbered_prefix. exists (drop k2 (take k1 l1)).
    destruct (covered_agree _ _ I _ _ _ _ k2 Hk2 (covered_le A' b1 l1 k2 k1 Hk1 ltac:(lia)))
      as (_&_&->). by rewrite <-(take_take_le l1 k2 k1), take_drop by lia.
Qed.

(** C2: State Machine Safety.  Of the sequences of (index, entry) pairs that two
    nodes, at two points of the history, have given to their state machines
    since they last booted, one is a prefix of the other. *)
Theorem state_machine_safety :
  applied (fx_ c1) `prefix_of` applied (fx_ c2) ∨
  applied (fx_ c2) `prefix_of` applied (fx_ c1).
Proof. apply applied_comparable. Qed.

(** C4: Leader Completeness.  Whatever a node has committed - up to its
    [commitIndex_] - is in the log of every leader of its term or a later one,
    from then on. *)
Theorem leader_completeness :
  role_ c2 = Leader → (currentTerm c1 ≤ currentTerm c2)%N →
  take (N.to_nat (commitIndex_ c1)) (log_entries (log_ c1))
    `prefix_of` log_entries (log_ c2).
Proof.
  destruct (history s s' Hs Hss) as (A&A'&H&H'&E). intros Hr2 Ht.
  pose proof (cl_node _ _ H _ _ Hc1) as Hok1. pose proof (cl_node _ _ H' _ _ Hc2) as Hok2.
  rewrite (ok_role _ _ _ _ _ Hok2) in Hr2. pose proof (cl_inv _ _ H') as I.
  rewrite (ok_term _ _ _ _ _ Hok1), (ok_term _ _ _ _ _ Hok2) in Ht.
  rewrite (ok_commit _ _ _ _ _ Hok1), (ok_log _ _ _ _ _ Hok1), (ok_log _ _ _ _ _ Hok2).
  rewrite <-(leader_own_log _ _ I n2 Hr2).
  destruct (covered_leader _ _ I (a_term A n1) (a_log A n1) (a_commit A n1) (a_term A' n2)
    (n2, a_log A' n2)) as (_&_&->); [|done|by apply (inv_leader _ _ I)|apply prefix_take].
  apply (ext_covered _ E (a_term A n1)); [done|apply (inv_commit _ _ (cl_inv _ _ H))].
Qed.

(** C24: across crashes and restarts a node's term never goes back, and within a
    term it never changes a vote it has cast. *)
Theorem term_and_vote_stable : n1 = n2 →
  (currentTerm c1 ≤ currentTerm c2)%N ∧
  ∀ v, currentTerm c1 = currentTerm c2 → votedFor c1 = Some v → votedFor c2 = Some v.
Proof.
  destruct (history s s' Hs Hss) as (A&A'&H&H'&E). intros Hn.
  pose proof (cl_node _ _ H _ _ Hc1) as Hok1. pose proof (cl_node _ _ H' _ _ Hc2) as Hok2.
  rewrite (ok_term _ _ _ _ _ Hok1), (ok_term _ _ _ _ _ Hok2).
  rewrite (ok_vote _ _ _ _ _ Hok1), (ok_vote _ _ _ _ _ Hok2). subst n2.
  split; [apply (ext_term _ _ E)|]. intros v <-. apply (ext_voted _ _ E).
Qed.

End Guarantees.

Section Present.
Context (s : Cluster) (Hs : reachable s).

(** C5: Log Matching.  If two logs hold entries of the same term at an index,
    they are identical up to and including that index. *)
Theorem log_matching_safety n1 n2 c1 c2 i :
  reachable s → nodes s !! n1 = Some c1 → nodes s !! n2 = Some c2 →
  (1 ≤ i)%N → (i ≤ log_lastIndex (log_ c1))%N → (i ≤ log_lastIndex (log_ c2))%N →
  log_termAt (log_ c1) i = log_termAt (log_ c2) i →
  take (N.to_nat i) (log_entries (log_ c1)) = take (N.to_nat i) (log_entries (log_ c2)).
Proof.
  intros Hr. destruct (history s s Hr ltac:(constructor)) as (A&_&H&_&_). intros Hc1 Hc2 Hi H1 H2 Ht.
  pose proof (cl_node _ _ H _ _ Hc1) as Hok1. pose proof (cl_node _ _ H _ _ Hc2) as Hok2.
  rewrite (core_lastIndex _ _ _ Hok1) in H1. rewrite (core_lastIndex _ _ _ Hok2) in H2.
  rewrite (core_termAt _ _ _ Hok1), (core_termAt _ _ _ Hok2) in Ht.
  rewrite (ok_log _ _ _ _ _ Hok1), (ok_log _ _ _ _ _ Hok2).
  pose proof (cl_inv _ _ H) as I. eapply log_matching; [apply (inv_log _ _ I)..|lia|lia|lia|done].
Qed.

(** C23: the error-level log lines are dead code: no core ever reports an
    Election Safety violation, a conflict at a committed index, an
    acknowledgement beyond its log, or reads an entry outside its log. *)
Theorem errors_unreachable n c e : reachable s → nodes s !! n = Some c → EError e ∉ fx_ c.
Proof.
  intros Hr. destruct (history s s Hr ltac:(constructor)) as (A&_&H&_&_). intros Hc.
  by apply (cl_errors _ _ H n).
Qed.

(** A node gives its state machine exactly the entries 1, 2, ...,
    [lastApplied_] of its log, each once and in order, and never an entry past
    [commitIndex_], which never points past the log. *)
Theorem applies_in_order n c : nodes s !! n = Some c →
  applied (fx_ c) = numbered (take (N.to_nat (lastApplied_ c)) (log_entries (log_ c))) ∧
  (lastApplied_ c ≤ commitIndex_ c)%N ∧ (commitIndex_ c ≤ log_lastIndex (log_ c))%N.
Proof.
  destruct (history s s Hs ltac:(constructor)) as (A&_&H&_&_). intros Hc.
  pose proof (cl_node _ _ H _ _ Hc) as Hok.
  rewrite (core_lastIndex _ _ _ Hok), (ok_log _ _ _ _ _ Hok).
  pose proof (core_commit_le members n (cl_inv _ _ H)) as Hle.
  rewrite <-(ok_commit _ _ _ _ _ Hok) in Hle.
  destruct (ok_apply _ _ _ _ _ Hok). split_and!; [done|done|lia].
Qed.

(** While a node is up its commit index never goes back: no call, in any
    reachable cluster, lowers it. *)
Theorem commit_monotone n now op c c' : nodes s !! n = Some c →
  run_op s n now op c = Some c' → (commitIndex_ c ≤ commitIndex_ c')%N.
Proof.
  destruct (history s s Hs ltac:(constructor)) as (A&_&H&_&_). intros Hc Hrun.
  destruct (run_op_sim A s n now op c c' H Hc Hrun) as (A'&(fx&_&Ht)&_&Hok').
  apply etrace_commit in Ht. pose proof (cl_node _ _ H _ _ Hc) as Hok.
  rewrite <-(ok_commit _ _ _ _ _ Hok), <-(ok_commit _ _ _ _ _ Hok') in Ht. lia.
Qed.

End Present.

(** C6: replicas agree.  Two nodes, at two points of the history, that apply in
    place and have applied up to the same index hold the same state. *)
Theorem replicas_agree s s' n1 n2 c1 c2 :
  reachable s → reaches s s' → nodes s !! n1 = Some c1 → nodes s' !! n2 = Some c2 →
  applySink_ c1 = None → applySink_ c2 = None → lastApplied_ c1 = lastApplied_ c2 →
  sm_ c1 = sm_ c2.
Proof.
  intros Hs Hss Hc1 Hc2 K1 K2 Hl. destruct (history s s' Hs Hss) as (A&A'&H&H'&E).
  destruct (sm_covered A s n1 c1 H Hc1 K1) as (b1&l1&->&Hk1).
  destruct (sm_covered A' s' n2 c2 H' Hc2 K2) as (b2&l2&->&Hk2).
  apply (ext_covered _ E b1 b1) in Hk1; [|done]. rewrite Hl in *.
  by destruct (covered_agree _ _ (cl_inv _ _ H') _ _ _ _ _ Hk1 Hk2) as (_&_&->).
Qed.

(** C3: refinement.  Every event of the cluster - a call run to completion or cut
    by a crash - is a sequence of guarded actions and crashes of the abstract
    protocol, between states that match the cluster before and after. *)
Theorem cluster_refines A s ev s' : cluster_ok A s → exec s ev = Some s' →
  ∃ A', rtc (aany members) A A' ∧ cluster_ok A' s'.
Proof.
  intros H Hev. destruct (exec_sim A s ev s' H Hev) as (A'&?&_&?). by exists A'.
Qed.

End Safety.

(** ** A run

    Three nodes: node 1 is elected in term 1 by node 2, replicates one command to
    node 2, commits and applies it, and node 2 learns of the commit.  Then node 1
    crashes while it handles a heartbeat tick and comes back from its disk, and
    node 2 is elected in term 2 by node 3. *)
Module Scenario.

Export Sample.

Abbreviation MemBoot := (@Boot InMemoryPersistentState InMemoryLog N unit).
Abbreviation MemCluster :=
  (@Cluster InMemoryPersistentState InMemoryLog (list Command) N unit).
Abbreviation MemEvent := (@Event InMemoryPersistentState InMemoryLog N unit).

Definition members3 : list N := [1; 2; 3]%N.

Definition bootFrom (t : Term) (v : option NodeId) (l : list LogEntry) : MemBoot :=
  mkBoot (mkPersist t v) (mkInMemoryLog l) 0%N None 0%N.

Definition cluster0 : MemCluster :=
  mkCluster (list_to_map
    ((λ n, (n, boot members3 defaultConfig [] n (bootFrom 0 None []))) <$> members3)) [].

Definition run (s : MemCluster) (evs : list MemEvent) : MemCluster :=
  default s (run_events members3 defaultConfig [] s evs).

Definition node (s : MemCluster) (n : N) := default
  (boot members3 defaultConfig [] n (bootFrom 0 None [])) (nodes s !! n).

Definition commit_run : list MemEvent :=
  [EvRun 1 1000000000 OpTick; EvRun 2 1000000000 (OpDeliver 0);
   EvRun 1 1000000000 (OpDeliver 2); EvRun 1 1000000000 (OpPropose [x01]);
   EvRun 2 1000000000 (OpDeliver 5); EvRun 1 1000000000 (OpDeliver 7);
   EvRun 1 2000000000 OpTick; EvRun 2 2000000000 (OpDeliver 8)]%N.

Definition failover_run : list MemEvent :=
  [EvCrash 1 3000000000 OpTick 1 (bootFrom 1 (Some 1) [mkLogEntry 1 [x01]]);
   EvRun 2 5000000000 OpTick; EvRun 3 5000000000 (OpDeliver 13);
   EvRun 2 5000000000 (OpDeliver 14)]%N.

Definition committed : MemCluster := run cluster0 commit_run.
Definition failed_over : MemCluster := run committed failover_run.

Lemma NoDup_members3 : NoDup members3.
Proof. by apply (bool_decide_unpack _). Qed.

Lemma run_reaches s evs : reaches members3 defaultConfig [] s (run s evs).
Proof.
  unfold run. assert (∀ evs s1 s2, run_events members3 defaultConfig [] s1 evs = Some s2 →
    reaches members3 defaultConfig [] s s1 → reaches members3 defaultConfig [] s s2) as H.
  { clear. induction evs as [|ev evs IH]; intros s1 s2 Hr Hs; cbn in Hr; [by simplify_eq|].
    apply bind_Some in Hr as (s3&Hev&Hr). eapply IH; [done|]. by eapply reaches_step. }
  destruct (run_events _ _ _ s evs) as [s2|] eqn:E; cbn; [|constructor].
  eapply H; [done|constructor].
Qed.

Lemma cluster0_initial : initial members3 defaultConfig [] cluster0.
Proof.
  split_and!; [done|by apply (bool_decide_unpack _)|].
  intros n c Hc. apply elem_of_list_to_map_2 in Hc.
  apply list_elem_of_fmap in Hc as (m&Heq&_). injection Heq as -> ->. by exists (bootFrom 0 None []).
Qed.

Lemma committed_reachable : reachable members3 defaultConfig [] committed.
Proof. exists cluster0. split; [apply cluster0_initial|apply run_reaches]. Qed.

Lemma failed_over_reachable : reachable members3 defaultConfig [] failed_over.
Proof.
  exists cluster0. split; [apply cluster0_initial|]. unfold failed_over, committed.
  assert (run (run cluster0 commit_run) failover_run = run cluster0 (commit_run ++ failover_run))
    as -> by (by vm_compute). apply run_reaches.
Qed.

Lemma failover_reaches : reaches members3 defaultConfig [] committed failed_over.
Proof. apply run_reaches. Qed.

Lemma election_safety_witness : role_ (node failed_over 2) = Leader ∧ 2%N = 2%N.
Proof.
  split; [by vm_compute|].
  apply (election_safety members3 defaultConfig [] NoDup_members3 failed_over failed_over
    failed_over_reachable (reaches_refl _ _ _ _) 2 2 (node failed_over 2) (node failed_over 2));
    by vm_compute.
Defined.

Lemma state_machine_safety_witness :
  applied (fx_ (node committed 1)) = [(1%N, mkLogEntry 1 [x01])] ∧
  (applied (fx_ (node committed 1)) `prefix_of` applied (fx_ (node failed_over 2)) ∨
   applied (fx_ (node failed_over 2)) `prefix_of` applied (fx_ (node committed 1))).
Proof.
  split; [by vm_compute|].
  apply (state_machine_safety members3 defaultConfig [] NoDup_members3 committed failed_over
    committed_reachable failover_reaches 1 2 (node committed 1) (node failed_over 2));
    by vm_compute.
Defined.

Lemma leader_completeness_witness :
  commitIndex_ (node committed 1) = 1%N ∧ currentTerm (node failed_over 2) = 2%N ∧
  take 1 (log_entries (log_ (node committed 1)))
    `prefix_of` log_entries (log_ (node failed_over 2)).
Proof.
  split; [by vm_compute|split; [by vm_compute|]].
  apply (leader_completeness members3 defaultConfig [] NoDup_members3 committed failed_over
    committed_reachable failover_reaches 1 2 (node committed 1) (node failed_over 2));
    by vm_compute.
Defined.

Lemma term_and_vote_stable_witness :
  votedFor (node committed 1) = Some 1%N ∧ votedFor (node failed_over 1) = Some 1%N.
Proof.
  split; [by vm_compute|].
  apply (term_and_vote_stable members3 defaultConfig [] NoDup_members3 committed failed_over
    committed_reachable failover_reaches 1 1 (node committed 1) (node failed_over 1));
    by vm_compute.
Defined.

Lemma log_matching_safety_witness :
  take 1 (log_entries (log_ (node failed_over 1))) =
  take 1 (log_entries (log_ (node failed_over 2))).
Proof.
  apply (log_matching_safety members3 defaultConfig [] NoDup_members3 failed_over
    1 2 (node failed_over 1) (node failed_over 2) 1 failed_over_reachable); by vm_compute.
Defined.

Lemma errors_unreachable_witness : EError LogMatchingViolation ∉ fx_ (node failed_over 2).
Proof.
  apply (errors_unreachable members3 defaultConfig [] NoDup_members3 failed_over
    2 (node failed_over 2) LogMatchingViolation failed_over_reachable). by vm_compute.
Defined.

Lemma applies_in_order_witness :
  lastApplied_ (node committed 2) = 1%N ∧
  applied (fx_ (node committed 2)) =
    numbered (take 1 (log_entries (log_ (node committed 2)))).
Proof.
  split; [by vm_compute|].
  apply (applies_in_order members3 defaultConfig [] NoDup_members3 committed
    committed_reachable 2). by vm_compute.
Defined.

Lemma commit_monotone_witness :
  (commitIndex_ (node committed 2) ≤ commitIndex_ (pumpApply (node committed 2)))%N.
Proof.
  apply (commit_monotone members3 defaultConfig [] NoDup_members3 committed
    committed_reachable 2 0 OpPumpApply); by vm_compute.
Defined.

Lemma replicas_agree_witness :
  sm_ (node committed 1) = [[x01]] ∧ sm_ (node committed 1) = sm_ (node committed 2).
Proof.
  split; [by vm_compute|].
  apply (replicas_agree members3 defaultConfig [] NoDup_members3 committed committed 1 2);
    [apply committed_reachable|constructor|by vm_compute..].
Defined.

Lemma cluster_refines_witness :
  ∃ A', rtc (aany members3) A_init A' ∧ cluster_ok members3 [] A' (run cluster0 (take 1 commit_run)).
Proof.
  apply (cluster_refines members3 defaultConfig [] NoDup_members3 A_init cluster0
    (EvRun 1 1000000000 OpTick)); [apply (initial_ok _ _ _ _ cluster0_initial)|by vm_compute].
Defined.

End Scenario.
