(* ===== verification/Provenance.v ===== *)
(** * Where the entries of the logs come from

    A core appends what it is asked to propose and what a leader sends it, and
    nothing else.  So if every proposed command satisfies a predicate, every entry
    of every log does: first the effects of one call, then the protocol state along
    a trace of effects. *)

From Stdlib Require Import NArith Strings.Byte Lia.
From stdpp Require Import functions.
From S2P Require Import Prelude Messages Log RaftCore RaftNode RaftSpec RaftInv Cluster RaftRefine RaftSafety.

Local Open Scope N_scope.

(** What the cores say to each other. *)
Definition raft_message (m : Message) : Prop :=
  match m with MClientRequest _ | MClientReply _ => False | _ => True end.

Definition entry_of (Q : Command → Prop) (e : LogEntry) : Prop := Q (e_command e).

(** Entries appended satisfy [Q], and messages are the protocol's own. *)
Definition fx_of (Q : Command → Prop) (e : Effect) : Prop :=
  match e with
  | EAppend es => Forall (entry_of Q) es
  | ESend _ m => raft_message m
  | _ => True
  end.

Definition message_of (Q : Command → Prop) (m : Message) : Prop :=
  match m with MAppendEntries ae => Forall (entry_of Q) (ae_entries ae) | _ => True end.

(** ** One call *)

Section Emits.
Context {P L SM R K : Type}.
Context `{!PersistentState P} `{!RaftLog L} `{!StateMachine SM} `{!Rng R} `{!ApplySink K}.
Context (Q : Command → Prop).

Local Abbreviation Core := (@RaftCore P L SM R K).

Definition emits (c : Core) : Prop := Forall (fx_of Q) (fx_ c).

Lemma emits_emit e c : fx_of Q e → emits c → emits (emit e c).
Proof. intros He Hf. apply Forall_app. split; [done|by constructor]. Qed.

Lemma emits_send to m c : raft_message m → emits c → emits (send to m c).
Proof. intros Hm. by apply (emits_emit (ESend to m)). Qed.

Lemma emits_frame c c' : fx_ c' = fx_ c → emits c → emits c'.
Proof. unfold emits. by intros ->. Qed.

Lemma foldl_emits {X} (f : Core → X → Core) l c :
  (∀ c x, emits c → emits (f c x)) → emits c → emits (foldl f c l).
Proof. intros Hf. revert c. induction l; intros c Hc; cbn; auto. Qed.

Lemma applyLoop_emits k c : emits c → emits (applyLoop k c).
Proof.
  revert c. induction k as [|k IH]; intros c Hc; cbn [applyLoop]; [done|].
  destruct (_ <? _); [|done]. destruct (log_entryAt _ _) as [e|]; [|by apply emits_emit].
  destruct (applySink_ c) as [s|].
  - destruct (sink_offer _ _ _) as [acc s']. destruct (negb acc); [done|].
    apply IH, emits_emit; [done|]. by apply (emits_frame c).
  - destruct (sm_apply _ _) as [r sm]. apply IH, emits_emit; [done|]. by apply (emits_frame c).
Qed.

Lemma advanceCommitLoop_emits k i c : emits c → emits (advanceCommitLoop k i c).
Proof.
  revert i. induction k as [|k IH]; intros i Hc; cbn [advanceCommitLoop]; [done|].
  destruct (_ <? _); [|done]. destruct (negb _); [done|].
  destruct (_ <=? _)%nat; [by apply applyLoop_emits|by apply IH].
Qed.

Lemma sendAppendEntries_emits p c : emits c → emits (sendAppendEntries p c).
Proof.
  intros Hc. destruct (sendAppendEntries_fresh p c) as [pool ->].
  apply emits_send; [done|]. by apply (emits_frame c).
Qed.

Lemma sendToPeers_emits c : emits c → emits (sendToPeers c).
Proof. apply foldl_emits. intros. by apply sendAppendEntries_emits. Qed.

Lemma resetElectionTimer_emits now c : emits c → emits (resetElectionTimer now c).
Proof. unfold resetElectionTimer. by destruct (draw _ _ _). Qed.

Lemma becomeFollower_emits now t ev c : emits c → emits (becomeFollower now t ev c).
Proof.
  intros Hc. unfold becomeFollower. cbv zeta. apply emits_emit; [done|].
  match goal with |- context [decide (role_ ?x = Leader)] => assert (emits x) as H1 end.
  { destruct (_ <? _); [|done]. by apply (emits_emit (ESave t None)). }
  destruct (decide _); [|done].
  by apply (resetElectionTimer_emits now (set_heartbeatDeadline _ _)).
Qed.

Lemma becomeLeader_emits now c : emits c → emits (becomeLeader now c).
Proof.
  intros Hc. unfold becomeLeader, sendHeartbeats. cbv zeta. by apply sendToPeers_emits, emits_emit.
Qed.

Lemma tick_emits now c : emits c → emits (tick now c).
Proof.
  intros Hc. unfold tick. destruct (_ && _).
  - unfold startElection. cbv zeta.
    match goal with |- context [resetElectionTimer now ?x] => assert (emits x) as H1 end.
    { by apply (emits_emit (ESave _ _)). }
    apply (resetElectionTimer_emits now) in H1.
    match goal with H : emits ?x |- _ => lazymatch x with resetElectionTimer _ _ => set (c1 := x) in * end end.
    match goal with |- emits (if _ then becomeLeader now ?x else _) => assert (emits x) as H2 end.
    { apply foldl_emits; [|by apply emits_emit]. intros. by apply emits_send. }
    destruct (_ <=? _)%nat; [by apply becomeLeader_emits|done].
  - destruct (_ && _); [by apply sendToPeers_emits|done].
Qed.

Lemma propose_emits now cmd c : Q cmd → emits c → emits (propose now cmd c).2.
Proof.
  intros Hq Hc. unfold propose. destruct (decide _); [|done]. cbn [snd].
  apply sendToPeers_emits, advanceCommitLoop_emits, (emits_emit (EAppend _)); [|done].
  by repeat constructor.
Qed.

Lemma walkEntries_emits prev i es c : emits c → emits (walkEntries prev i es c).2.
Proof.
  revert i c. induction es as [|e es IH]; intros i c Hc; cbn [walkEntries]; [done|].
  destruct (_ <? _); [done|]. destruct (negb _); [|by apply IH]. cbn [snd].
  apply (emits_emit (ETruncate _)); [done|]. destruct (_ <=? _); [by apply emits_emit|done].
Qed.

Lemma onAppendEntries_emits now from ae c : Forall (entry_of Q) (ae_entries ae) → emits c →
  emits (onAppendEntries now from ae c).
Proof.
  intros Hes Hc. unfold onAppendEntries.
  destruct (_ <? _); [by apply emits_send|]. destruct (decide _); [by apply emits_emit|].
  cbv zeta. match goal with |- context [resetElectionTimer now ?x] =>
    assert (emits (resetElectionTimer now x)) as H1; [|set (c1 := resetElectionTimer now x) in *] end.
  { apply resetElectionTimer_emits. destruct (decide _); [by apply becomeFollower_emits|done]. }
  destruct (_ <? _); [by apply emits_send|]. destruct (negb _); [by apply emits_send|].
  pose proof (walkEntries_emits (ae_prevLogIndex ae) 0 (ae_entries ae) c1 H1) as H2.
  destruct (walkEntries _ _ _ c1) as [i c2]. cbn [snd] in H2. apply emits_send; [done|].
  match goal with |- context [commitIndex_ ?x] => assert (emits x) as H3 end.
  { destruct (_ <? _)%nat; [|done]. apply (emits_emit (EAppend _)); [|done]. by apply Forall_drop. }
  destruct (_ <? _); [by apply applyLoop_emits|done].
Qed.

Lemma onAppendEntriesReply_emits from r c : emits c → emits (onAppendEntriesReply from r c).
Proof.
  intros Hc. unfold onAppendEntriesReply. destruct (negb _); [done|]. destruct (negb _); [done|].
  destruct (aer_success r).
  - destruct (_ <? _); [by apply emits_emit|]. destruct (map_index _ _) as [m mi]. cbv zeta.
    destruct (_ <? _); [|done].
    match goal with |- context [advanceCommit ?x] => assert (emits (advanceCommit x)) as H1;
      [by apply advanceCommitLoop_emits|set (c1 := advanceCommit x) in *] end.
    destruct (map_index _ _) as [ni nm]. destruct (_ <=? _); [|done].
    by apply sendAppendEntries_emits.
  - cbv zeta. destruct (map_index _ _) as [cur nm]. destruct (map_index _ _) as [m mm].
    by apply sendAppendEntries_emits.
Qed.

Lemma handle_emits now env m c : message_of Q m → emits c → emits (handle None now env m c).
Proof.
  intros Hm Hc. unfold handle. cbv zeta.
  match goal with |- context [onRequestVote _ _ _ ?x] => assert (emits x) as H1; [|generalize dependent x] end.
  { destruct (termOf m); [|done]. destruct (_ <? _); [|done]. by apply becomeFollower_emits. }
  intros c1 H1. destruct m; cbv zeta; try done.
  - unfold onRequestVote. destruct (_ <? _); [by apply emits_send|]. cbv zeta.
    apply emits_send; [done|]. destruct (_ && _); [|done].
    by apply resetElectionTimer_emits, (emits_emit (ESave _ _)).
  - unfold onRequestVoteReply. destruct (negb _); [done|]. destruct (_ || _); [done|]. cbv zeta.
    destruct (_ <=? _)%nat; [by apply becomeLeader_emits|done].
  - by apply onAppendEntries_emits.
  - by apply onAppendEntriesReply_emits.
Qed.

End Emits.

(** ** The protocol state *)

Definition prov (Q : Command → Prop) (A : AState) : Prop :=
  (∀ n, Forall (entry_of Q) (a_log A n)) ∧ (∀ t, Forall (entry_of Q) (leader_log A t)).

Lemma prov_mono (Q Q' : Command → Prop) A : (∀ cmd, Q cmd → Q' cmd) → prov Q A → prov Q' A.
Proof.
  intros HQ [H1 H2]. split; intros x; [specialize (H1 x)|specialize (H2 x)]; eapply Forall_impl; eauto;
    intros e; apply HQ.
Qed.

Lemma prov_init Q : prov Q A_init.
Proof. split; constructor. Qed.

Lemma prov_crash Q n A : prov Q A → prov Q (Crash n A).
Proof. done. Qed.

(** A term's leader log only ever becomes the log of the node that acts. *)
Lemma astep_leader_log members n A A' t : astep members n A A' →
  leader_log A' t = leader_log A t ∨ leader_log A' t = a_log A' n.
Proof.
  intros []; try (by left); unfold leader_log; cbn.
  - destruct (decide (t = a_term A n)) as [->|].
    + right. by rewrite fn_lookup_insert.
    + left. by rewrite fn_lookup_insert_ne.
  - destruct (decide (t = a_term A n)) as [->|].
    + right. by rewrite !fn_lookup_insert.
    + left. by rewrite fn_lookup_insert_ne.
Qed.

Lemma prov_step Q members n A A' : prov Q A → astep members n A A' →
  Forall (entry_of Q) (a_log A' n) → prov Q A'.
Proof.
  intros [Hl Hll] Hs Hn. split.
  - intros m. destruct (decide (m = n)) as [->|Hm]; [done|].
    destruct (astep_others _ _ _ _ Hs m Hm) as (_&_&->&_). apply Hl.
  - intros t. by destruct (astep_leader_log _ _ _ _ t Hs) as [-> | ->].
Qed.

Lemma replay1_of Q d e : Forall (entry_of Q) d.2 → fx_of Q e → Forall (entry_of Q) (replay1 d e).2.
Proof.
  destruct d as [[t v] l]. cbn. intros Hl He. destruct e; cbn in *; try done.
  - by apply Forall_app.
  - unfold InMemoryLog_truncateSuffixFrom. cbv zeta. destruct (_ <? _); [done|by apply Forall_take].
Qed.

Lemma prov_trace Q members n A fx A' : etrace members n A fx A' → Forall (fx_of Q) fx →
  prov Q A → prov Q A'.
Proof.
  induction 1 as [A|A A1 fx A' Hs Hd Ht IH|A e A1 fx A' Hs Hd Ho Ht IH]; intros Hf Hp; [done| |].
  - apply IH; [done|]. eapply prov_step; [done..|]. injection Hd as _ _ ->. apply Hp.
  - apply Forall_cons in Hf as [He Hf]. apply IH; [done|].
    assert (Forall (entry_of Q) (a_log A1 n)) as Hn.
    { change (a_log A1 n) with (a_durable A1 n).2. rewrite Hd. apply replay1_of; [|done]. apply Hp. }
    destruct Hs as [->|Hs]; [done|by eapply prov_step].
Qed.

Lemma fx_of_atomic Q fx : Forall (fx_of Q) fx → Forall (fx_of Q) (fx ≫= atomic).
Proof.
  intros H. apply Forall_bind. eapply Forall_impl; [exact H|]. intros e He.
  destruct e; cbn; try by repeat constructor. apply Forall_fmap. cbn in He.
  eapply Forall_impl; [exact He|]. intros x Hx. by repeat constructor.
Qed.

(** What the receiver of a packet appends was in a leader's log. *)
Lemma packet_of Q members A p : prov Q A → packet_ok members A p → message_of Q (pk_msg p).
Proof.
  intros [_ Hl] (_&_&Hp). unfold message_of. destruct (pk_msg p) as [| |ae| | |]; try done.
  cbv zeta in Hp. destruct Hp as (_&_&_&[k Hk]&_). specialize (Hl (ae_term ae)). rewrite Hk in Hl.
  apply Forall_app in Hl as [[_ Hl]%Forall_app _]. done.
Qed.

Lemma covered_of Q members A b l i : prov Q A → covered members A b l i → Forall (entry_of Q) (take i l).
Proof.
  intros [_ Hl] [->|(t&j&_&_&_&(_&_&->))]; [by rewrite take_0|]. by apply Forall_take.
Qed.
