(* ===== verification/CoreTypes.v ===== *)
(** * The integers of a core stay within their widths

    The model computes with unbounded numbers where the C++ code has 16- and
    64-bit fields.  A core whose state fits the widths, given messages that fit
    them, keeps fitting them, and everything it sends or stores fits too; so what
    it sends is, unless it is too long, what the codec brings back. *)

From Stdlib Require Import NArith Strings.Byte Lia.
From S2P Require Import Prelude Messages Codec Log RaftCore RaftNode Cluster RaftSafety.

Local Open Scope N_scope.

Definition fx_typed (e : Effect) : Prop :=
  match e with
  | ESend to m => to < two16 ∧ message_ok m
  | ESave t v => t < two64 ∧ ∀ id, v = Some id → id < two16
  | EAppend es => Forall entry_ok es
  | ETruncate i => i < two64
  | EApply i e _ | EHandOff i e => i < two64 ∧ entry_ok e
  | ETransition t _ _ => t < two64
  | EError _ => True
  end.

Section CoreTypes.
Context {P L SM R K : Type}.
Context `{!PersistentState P} `{!RaftLog L} `{!StateMachine SM} `{!Rng R} `{!ApplySink K}.
Context `{!PersistentStateLaws P} `{!RaftLogLaws L}.

Local Abbreviation Core := (@RaftCore P L SM R K).
Local Abbreviation entries c := (log_entries (log_ c)).

(** The configuration, and what [std::uniform_int_distribution] promises. *)
Context (cfg : RaftConfig) (Hcfg : electionTimeoutMin cfg ≤ electionTimeoutMax cfg).
Context (Hdraw : ∀ (r : R) lo hi, lo ≤ hi → lo ≤ (draw r lo hi).1 ≤ hi).

(** A time from which the timers can be armed: the deadlines stay below the end of
    the clock's 64-bit nanoseconds. *)
Definition clock_ok (now : TimePoint) : Prop :=
  after now (electionTimeoutMax cfg) ≤ TimePoint_max ∧ after now (heartbeatInterval cfg) ≤ TimePoint_max.

(** Room for [k] more entries below the top of the index type. *)
Definition room (k : nat) (c : Core) : Prop := N.of_nat (length (entries c) + k) + 1 < two64.

Definition peer_map_ok (m : gmap NodeId LogIndex) : Prop := ∀ p i, m !! p = Some i → i + 1 < two64.

Record typed (c : Core) : Prop := {
  ty_self : self_ c < two16;
  ty_peers : Forall (λ p, p < two16) (peers_ c);
  ty_term : currentTerm c < two64;
  ty_voted id : votedFor c = Some id → id < two16;
  ty_leader id : leaderId_ c = Some id → id < two16;
  ty_log : Forall entry_ok (entries c);
  ty_room : room 0 c;
  ty_commit : commitIndex_ c < two64;
  ty_next p i : nextIndex_ c !! p = Some i → i < two64;
  ty_match : peer_map_ok (matchIndex_ c);
  ty_cfg : cfg_ c = cfg;
  ty_votes : set_Forall (λ id, id < two16) (votesFrom_ c);
  ty_applied : lastApplied_ c < two64;
  ty_election : electionDeadline_ c ≤ TimePoint_max;
  ty_heartbeat : heartbeatDeadline_ c ≤ TimePoint_max;
  ty_aeMsg : message_ok (MAppendEntries (aeMsg_ c));
  ty_fx : Forall fx_typed (fx_ c);
}.

(** The fields the invariant reads, and the rest. *)
Definition typed_view (c : Core) :=
  (self_ c, peers_ c, persist_ c, leaderId_ c, log_ c, commitIndex_ c, nextIndex_ c, matchIndex_ c, fx_ c,
   (cfg_ c, votesFrom_ c, lastApplied_ c, electionDeadline_ c, heartbeatDeadline_ c, aeMsg_ c)).

Lemma typed_frame c c' : typed_view c' = typed_view c → typed c → typed c'.
Proof.
  unfold typed_view. intros [= E1 E2 E3 E4 E5 E6 E7 E8 E9 E10 E11 E12 E13 E14 E15] [].
  split; unfold currentTerm, votedFor, room in *;
    rewrite ?E1, ?E2, ?E3, ?E4, ?E5, ?E6, ?E7, ?E8, ?E9, ?E10, ?E11, ?E12, ?E13, ?E14, ?E15; done.
Qed.

Lemma typed_emit e c : fx_typed e → typed c → typed (emit e c).
Proof. intros He []. split; try done. cbn. apply Forall_app. split; [done|by constructor]. Qed.

Lemma typed_send to m c : to < two16 → message_ok m → typed c → typed (send to m c).
Proof. intros Ht Hm. by apply (typed_emit (ESend to m)). Qed.

Lemma lastIndex_room c : typed c → log_lastIndex (log_ c) + 1 < two64.
Proof.
  intros H. pose proof (ty_room _ H) as Hr. unfold room in Hr. rewrite lastIndex_law.
  unfold InMemoryLog_lastIndex. lia.
Qed.

Lemma entry_term l i : Forall entry_ok l → InMemoryLog_termAt l i < two64.
Proof.
  intros H. unfold InMemoryLog_termAt. destruct (_ =? _); [done|]. destruct (_ <? _); [done|].
  destruct (l !! _) as [e|] eqn:E; [|done]. by apply (Forall_lookup_1 _ _ _ _ H E).
Qed.

Lemma termAt_typed c i : typed c → log_termAt (log_ c) i < two64.
Proof. intros H. rewrite termAt_law. apply entry_term, (ty_log _ H). Qed.

Lemma lastTerm_typed c : typed c → log_lastTerm (log_ c) < two64.
Proof.
  intros H. rewrite lastTerm_law. unfold InMemoryLog_lastTerm. destruct (last _) as [e|] eqn:E; [|done].
  apply last_Some_elem_of in E. by apply (proj1 (Forall_forall _ _) (ty_log _ H)).
Qed.

Lemma entryAt_typed c i e : typed c → log_entryAt (log_ c) i = Some e → entry_ok e.
Proof.
  intros H. rewrite entryAt_law. unfold InMemoryLog_entryAt. destruct (_ && _); [|done].
  intros E. by apply (Forall_lookup_1 _ _ _ _ (ty_log _ H) E).
Qed.

(** ** The timers *)

Lemma typed_set_election t c : t ≤ TimePoint_max → typed c → typed (set_electionDeadline t c).
Proof. intros Ht []. by split. Qed.

Lemma typed_set_heartbeat t c : t ≤ TimePoint_max → typed c → typed (set_heartbeatDeadline t c).
Proof. intros Ht []. by split. Qed.

Lemma resetElectionTimer_typed now c : clock_ok now → typed c → typed (resetElectionTimer now c).
Proof.
  intros [Hn _] H. unfold resetElectionTimer. rewrite (ty_cfg _ H).
  pose proof (Hdraw (rng_ c) _ _ Hcfg) as Hd. destruct (draw _ _ _) as [d rng]. cbn [fst] in Hd.
  apply typed_set_election; [|by apply (typed_frame c)]. unfold after in *.
  assert (d * 1000000 ≤ electionTimeoutMax cfg * 1000000) by (apply N.mul_le_mono_r, Hd). lia.
Qed.

Lemma typed_set_votes ids c : set_Forall (λ id, id < two16) ids → typed c → typed (set_votesFrom ids c).
Proof. intros Hv []. by split. Qed.

Lemma typed_set_applied i c : i < two64 → typed c → typed (set_lastApplied i c).
Proof. intros Hi []. by split. Qed.

Lemma foldl_typed {X} (f : Core → X → Core) l c :
  (∀ c x, x ∈ l → typed c → typed (f c x)) → typed c → typed (foldl f c l).
Proof.
  revert c. induction l as [|x l IH]; intros c Hf H; [done|]. cbn. apply IH.
  - intros. apply Hf; [by right|done].
  - apply Hf; [by left|done].
Qed.

(** ** Storage *)

Lemma persist_typed t v c : t < two64 → (∀ id, v = Some id → id < two16) → typed c →
  typed (persistTermAndVote t v c).
Proof.
  intros Ht Hv H. apply typed_emit; [done|]. destruct H. split; try done; unfold currentTerm, votedFor; cbn.
  - by rewrite save_term.
  - rewrite save_vote. done.
Qed.

Lemma append_typed es c : Forall entry_ok es → room (length es) c → typed c → typed (appendLog es c).
Proof.
  intros Hes Hr H. apply typed_emit; [done|]. destruct H. split; try done; unfold room in *; cbn;
    rewrite append_law; unfold InMemoryLog_append.
  - by apply Forall_app.
  - rewrite length_app. lia.
Qed.

Lemma truncate_prefix l i : ∃ k, InMemoryLog_truncateSuffixFrom l i = take k l.
Proof.
  unfold InMemoryLog_truncateSuffixFrom. cbv zeta.
  match goal with |- context [InMemoryLog_lastIndex ?l <? ?x] => destruct (InMemoryLog_lastIndex l <? x) end; [exists (length l); by rewrite firstn_all|by eexists].
Qed.

Lemma truncate_typed i c : i < two64 → typed c → typed (truncateLog i c).
Proof.
  intros Hi H. apply typed_emit; [done|]. destruct H. destruct (truncate_prefix (entries c) i) as [k Hk].
  split; try done; unfold room in *; cbn; rewrite truncate_law, Hk.
  - by apply Forall_take.
  - rewrite length_take. lia.
Qed.

(** ** Applying and committing *)

Lemma applyLoop_typed k c : typed c → typed (applyLoop k c).
Proof.
  revert c. induction k as [|k IH]; intros c Hc; cbn [applyLoop]; [done|].
  destruct (N.ltb_spec (lastApplied_ c) (commitIndex_ c)) as [Hlt|]; [|done].
  destruct (log_entryAt _ _) as [e|] eqn:E; [|by apply typed_emit].
  apply (entryAt_typed c _ e Hc) in E. assert (lastApplied_ c + 1 < two64) as Hn by (pose proof (ty_commit _ Hc); lia).
  destruct (applySink_ c) as [s|].
  - destruct (sink_offer _ _ _) as [acc s']. destruct (negb acc); [by apply (typed_frame c)|].
    apply IH, typed_emit; [done|]. apply typed_set_applied; [done|]. by apply (typed_frame c).
  - destruct (sm_apply _ _) as [r sm]. apply IH, typed_emit; [done|].
    apply (typed_frame (set_lastApplied (lastApplied_ c + 1) c)); [done|]. by apply typed_set_applied.
Qed.

Lemma commit_typed n c : n < two64 → typed c → typed (applyCommitted (set_commitIndex n c)).
Proof. intros Hn []. by apply applyLoop_typed. Qed.

Lemma advanceCommitLoop_typed k n c : n < two64 → typed c → typed (advanceCommitLoop k n c).
Proof.
  revert n. induction k as [|k IH]; intros n Hn Hc; cbn [advanceCommitLoop]; [done|].
  destruct (_ <? _); [|done]. destruct (negb _); [done|].
  destruct (_ <=? _)%nat; [by apply commit_typed|]. apply IH; [lia|done].
Qed.

Lemma advanceCommit_typed c : typed c → typed (advanceCommit c).
Proof. intros H. apply advanceCommitLoop_typed; [|done]. pose proof (lastIndex_room c H). lia. Qed.

(** ** Sending *)

Lemma map_index_next m p : (∀ q i, m !! q = Some i → i < two64) →
  (map_index m p).1 < two64 ∧ ∀ q i, (map_index m p).2 !! q = Some i → i < two64.
Proof.
  intros H. unfold map_index. destruct (m !! p) as [v|] eqn:E; cbn; [split; [by eapply H|done]|].
  split; [done|]. intros q i [[_ <-]|[_ Hi]]%lookup_insert_Some; [done|by eapply H].
Qed.

Lemma map_index_match m p : peer_map_ok m →
  (map_index m p).1 + 1 < two64 ∧ peer_map_ok (map_index m p).2.
Proof.
  intros H. unfold map_index. destruct (m !! p) as [v|] eqn:E; cbn; [split; [by eapply H|done]|].
  split; [done|]. intros q i [[_ <-]|[_ Hi]]%lookup_insert_Some; [done|by eapply H].
Qed.

Lemma dec64_lt n : n < two64 → dec64 n < two64.
Proof. unfold dec64. destruct (N.eqb_spec n 0); [done|lia]. Qed.

Lemma typed_set_next m c : (∀ p i, m !! p = Some i → i < two64) → typed c → typed (set_nextIndex m c).
Proof. intros Hm []. by split. Qed.

Lemma typed_set_match m c : peer_map_ok m → typed c → typed (set_matchIndex m c).
Proof. intros Hm []. by split. Qed.

Lemma typed_set_aeMsg ae c : message_ok (MAppendEntries ae) → typed c → typed (set_aeMsg ae c).
Proof. intros Hm []. by split. Qed.

Lemma fresh_typed p c : typed c → message_ok (MAppendEntries (freshAppendEntries p c)).
Proof.
  intros H. unfold freshAppendEntries. cbn. destruct (map_index_next (nextIndex_ c) p (ty_next _ H)) as [Hn _].
  split_and!; [apply H..|by apply dec64_lt|by apply termAt_typed|apply H|].
  rewrite entriesSpan_law. unfold InMemoryLog_entriesSpan. cbv zeta.
  match goal with |- context [InMemoryLog_lastIndex ?l <? ?x] => destruct (InMemoryLog_lastIndex l <? x) end; [constructor|]. apply Forall_drop, (ty_log _ H).
Qed.

Lemma sendAppendEntries_typed p c : p < two16 → typed c → typed (sendAppendEntries p c).
Proof.
  intros Hp H. destruct (sendAppendEntries_fresh p c) as [pool ->].
  apply typed_send; [done|by apply fresh_typed|].
  apply (typed_frame (set_aeMsg (freshAppendEntries p c) (set_nextIndex (map_index (nextIndex_ c) p).2 c))); [done|].
  apply typed_set_aeMsg; [by apply fresh_typed|].
  apply typed_set_next; [|done]. apply (map_index_next _ p (ty_next _ H)).
Qed.

Lemma sendAppendEntries_peers p (c : Core) : peers_ (sendAppendEntries p c) = peers_ c.
Proof. by destruct (sendAppendEntries_fresh p c) as [pool ->]. Qed.

Lemma sendToPeers_typed c : typed c → typed (sendToPeers c).
Proof.
  intros H. apply foldl_typed; [|done]. intros c' p Hp Hc'. apply sendAppendEntries_typed; [|done].
  by apply (proj1 (Forall_forall _ _) (ty_peers _ H)).
Qed.

Lemma heartbeat_typed now c : clock_ok now → typed c →
  typed (set_heartbeatDeadline (after now (heartbeatInterval (cfg_ c))) c).
Proof. intros [_ Hn] H. apply typed_set_heartbeat; [by rewrite (ty_cfg _ H)|done]. Qed.

Lemma sendHeartbeats_typed now c : clock_ok now → typed c → typed (sendHeartbeats now c).
Proof. intros Hn H. by apply heartbeat_typed, sendToPeers_typed. Qed.

(** ** Role changes *)

Lemma typed_set_leader id c : (∀ x, id = Some x → x < two16) → typed c → typed (set_leaderId id c).
Proof. intros Hid []. by split. Qed.

Lemma typed_role r c : typed c → typed (set_role r c).
Proof. intros H. by apply (typed_frame c). Qed.

Lemma typed_transition r ev c : typed c → typed (emit (ETransition (currentTerm c) r ev) c).
Proof. intros H. apply typed_emit; [apply (ty_term _ H)|done]. Qed.

Lemma becomeFollower_typed now t ev c : clock_ok now → t < two64 → typed c → typed (becomeFollower now t ev c).
Proof.
  intros Hn Ht H. unfold becomeFollower. cbv zeta. apply typed_transition, typed_role.
  match goal with |- typed (if _ then _ else ?x) => assert (typed x) as H1 end.
  { destruct (_ <? _); [|done]. apply typed_set_leader; [done|]. by apply persist_typed. }
  destruct (decide _); [|exact H1]. by apply resetElectionTimer_typed, typed_set_heartbeat.
Qed.

Lemma fill_lookup (v : LogIndex) ps p i : (foldl (λ m q, <[q := v]> m) (∅ : gmap NodeId LogIndex) ps) !! p = Some i →
  i = v.
Proof.
  assert (∀ m : gmap NodeId LogIndex, (∀ p i, m !! p = Some i → i = v) →
    ∀ p i, foldl (λ m q, <[q := v]> m) m ps !! p = Some i → i = v) as Hg.
  { induction ps as [|q ps IH]; intros m Hm; cbn; [done|]. apply IH.
    intros p' i' [[_ <-]|[_ Hi]]%lookup_insert_Some; [done|by eapply Hm]. }
  apply Hg. done.
Qed.

Lemma becomeLeader_typed now c : clock_ok now → typed c → typed (becomeLeader now c).
Proof.
  intros Hn H. unfold becomeLeader. cbv zeta. apply sendHeartbeats_typed, typed_transition; [done|].
  apply typed_set_election; [done|].
  apply typed_set_match; [intros p i ->%fill_lookup; done|].
  apply typed_set_next; [intros p i ->%fill_lookup; exact (lastIndex_room c H)|].
  apply typed_set_leader; [|by apply typed_role]. intros x [= <-]. apply (ty_self _ H).
Qed.

Lemma startElection_typed now c : clock_ok now → currentTerm c + 1 < two64 → typed c → typed (startElection now c).
Proof.
  intros Hn Hw H. unfold startElection. cbv zeta. rewrite add64_small by done.
  set (c1 := persistTermAndVote _ _ c).
  assert (typed c1) as H1.
  { apply persist_typed; [done| |done]. intros id [= <-]. apply (ty_self _ H). }
  match goal with |- context [resetElectionTimer now ?x] => assert (typed x) as H2 end.
  { apply typed_set_heartbeat; [done|]. apply typed_set_votes; [apply set_Forall_singleton, (ty_self _ H)|].
    apply typed_set_leader; [done|by apply typed_role]. }
  apply (resetElectionTimer_typed now) in H2; [|done].
  match goal with H : typed ?x |- _ => lazymatch x with resetElectionTimer _ _ => set (c2 := x) in * end end.
  match goal with |- typed (if _ then becomeLeader now ?x else _) => assert (typed x) as H3 end.
  { apply foldl_typed; [|by apply typed_transition]. intros c' p Hp Hc'. apply typed_send; [| |done].
    - by apply (proj1 (Forall_forall _ _) (ty_peers _ H2)).
    - cbn. pose proof (lastIndex_room c2 H2). split_and!; [apply H2|apply H2|cbn; lia|by apply lastTerm_typed]. }
  destruct (_ <=? _)%nat; [by apply becomeLeader_typed|done].
Qed.

(** ** The calls *)

Lemma tick_typed now c : clock_ok now → currentTerm c + 1 < two64 → typed c → typed (tick now c).
Proof.
  intros Hn Hw H. unfold tick. destruct (_ && _); [by apply startElection_typed|].
  destruct (_ && _); [by apply sendHeartbeats_typed|done].
Qed.

Lemma propose_typed now cmd c : clock_ok now → blob_ok cmd → room 1 c → typed c → typed (propose now cmd c).2.
Proof.
  intros Hn Hb Hr H. unfold propose. destruct (decide _); [|done]. cbn [snd].
  apply heartbeat_typed; [done|]. apply sendToPeers_typed, advanceCommit_typed.
  apply append_typed; [|done|done]. constructor; [|constructor]. split; [apply H|done].
Qed.

Lemma proposeBatch_typed now cmds c : clock_ok now → Forall blob_ok cmds → room (length cmds) c → typed c →
  typed (proposeBatch now cmds c).2.
Proof.
  intros Hn Hb Hr H. unfold proposeBatch. destruct (_ || _); [done|]. cbn [snd].
  apply heartbeat_typed; [done|]. apply sendToPeers_typed, advanceCommit_typed.
  apply append_typed; [|by rewrite length_fmap|done].
  apply Forall_fmap. eapply Forall_impl; [exact Hb|]. intros cmd Hcmd. split; [apply H|done].
Qed.

Lemma onRequestVote_typed now from rv c : clock_ok now → from < two16 → message_ok (MRequestVote rv) → typed c →
  typed (onRequestVote now from rv c).
Proof.
  intros Hn Hf (_&Hid&_) H. pose proof (ty_term _ H) as Ht. unfold onRequestVote.
  destruct (_ <? _); [by apply typed_send|]. cbv zeta. apply typed_send; [done|done|].
  destruct (_ && _); [|done]. apply resetElectionTimer_typed, persist_typed; [done|done| |done].
  by intros id [= <-].
Qed.

Lemma onRequestVoteReply_typed now from r c : clock_ok now → from < two16 → typed c →
  typed (onRequestVoteReply now from r c).
Proof.
  intros Hn Hf H. unfold onRequestVoteReply. destruct (negb _); [done|]. destruct (_ || _); [done|]. cbv zeta.
  assert (typed (set_votesFrom ({[from]} ∪ votesFrom_ c) c)) as H1.
  { apply typed_set_votes; [|done]. apply set_Forall_union; [by apply set_Forall_singleton|apply H]. }
  destruct (_ <=? _)%nat; [by apply becomeLeader_typed|done].
Qed.

Lemma firstOfTerm_le fuel log t i : firstOfTerm fuel log t i ≤ i.
Proof.
  revert i. induction fuel as [|fuel IH]; intros i; cbn [firstOfTerm]; [done|].
  destruct (_ && _); [|done]. specialize (IH (i - 1)). lia.
Qed.

Lemma lastOfTerm_le fuel log t i : lastOfTerm fuel log t i ≤ i.
Proof.
  revert i. induction fuel as [|fuel IH]; intros i; cbn [lastOfTerm]; [lia|].
  destruct (_ <=? _); [|lia]. destruct (_ =? _); [done|]. specialize (IH (i - 1)). lia.
Qed.

(** The walk may cut the log, and leaves no gap before the entries to append. *)
Lemma walkEntries_typed prev i es c : typed c →
  typed (walkEntries prev i es c).2 ∧
  (length (entries (walkEntries prev i es c).2) ≤ length (entries c))%nat.
Proof.
  revert i. induction es as [|e es IH]; intros i Hc; cbn [walkEntries]; [done|].
  destruct (N.ltb_spec (log_lastIndex (log_ c)) (prev + 1 + N.of_nat i)) as [|Hle]; [done|].
  destruct (negb _); [|by apply IH]. cbn [snd]. split.
  - apply truncate_typed; [pose proof (lastIndex_room c Hc); lia|]. destruct (_ <=? _); [by apply typed_emit|done].
  - assert (∀ c' : Core, log_ c' = log_ c → (length (entries (truncateLog (prev + 1 + N.of_nat i) c')) ≤ length (entries c))%nat) as Hl.
    { intros c' E. cbn. rewrite truncate_law, E.
      destruct (truncate_prefix (entries c) (prev + 1 + N.of_nat i)) as [k ->]. rewrite length_take. lia. }
    apply Hl. by destruct (_ <=? _).
Qed.

Lemma onAppendEntries_typed now from ae c : clock_ok now → from < two16 → message_ok (MAppendEntries ae) →
  room (length (ae_entries ae)) c → typed c → typed (onAppendEntries now from ae c).
Proof.
  intros Hn Hf (Ht&Hid&Hp&Hpt&Hlc&Hes) Hr H. pose proof (ty_term _ H) as Hcur. unfold onAppendEntries.
  destruct (_ <? _); [by apply typed_send|]. destruct (decide _); [by apply typed_emit|]. cbv zeta.
  match goal with |- context [resetElectionTimer now ?x] =>
    assert (typed (resetElectionTimer now x) ∧ log_ (resetElectionTimer now x) = log_ c) as [H1 E1];
    [|set (c1 := resetElectionTimer now x) in *] end.
  { split.
    - apply resetElectionTimer_typed; [done|]. destruct (decide _); [apply becomeFollower_typed; [done|done|]|];
        (apply typed_set_leader; [by intros x [= <-]|done]).
    - unfold resetElectionTimer. destruct (draw _ _ _). cbn. destruct (decide _); [|done].
      unfold becomeFollower. cbv zeta. cbn. by repeat case_match. }
  clearbody c1. pose proof (lastIndex_room c1 H1) as Hroom.
  destruct (N.ltb_spec (log_lastIndex (log_ c1)) (ae_prevLogIndex ae)) as [|Hle]; [by apply typed_send|].
  destruct (negb _).
  { apply typed_send; [done| |done]. split_and!; cbn; [done| |by apply termAt_typed].
    eapply N.le_lt_trans; [apply firstOfTerm_le|done]. }
  destruct (walkEntries_typed (ae_prevLogIndex ae) 0 (ae_entries ae) c1 H1) as [H2 Hlen].
  destruct (walkEntries _ _ _ c1) as [i c2]. cbn [snd] in *. unfold room in Hr. rewrite E1 in Hlen.
  rewrite lastIndex_law, E1 in Hle. unfold InMemoryLog_lastIndex in Hle.
  assert (ae_prevLogIndex ae + N.of_nat (length (ae_entries ae)) < two64) as Hcf by lia.
  apply typed_send; [done|done|].
  match goal with |- context [commitIndex_ ?x] => assert (typed x) as H3 end.
  { destruct (_ <? _)%nat; [|done]. apply append_typed; [by apply Forall_drop| |done].
    unfold room. rewrite length_drop. lia. }
  destruct (_ <? _); [apply commit_typed; [lia|done]|done].
Qed.

Lemma onAppendEntriesReply_typed from r c : from < two16 → message_ok (MAppendEntriesReply r) → typed c →
  typed (onAppendEntriesReply from r c).
Proof.
  intros Hf (_&Hci&_) H. pose proof (lastIndex_room c H) as Hroom. unfold onAppendEntriesReply.
  destruct (negb _); [done|]. destruct (negb _); [done|]. destruct (aer_success r).
  - destruct (N.ltb_spec (log_lastIndex (log_ c)) (aer_conflictIndex r)) as [|Hack]; [by apply typed_emit|].
    destruct (map_index_match (matchIndex_ c) from (ty_match _ H)) as [_ Hmi].
    destruct (map_index (matchIndex_ c) from) as [m mi]. cbn [snd] in Hmi. cbv zeta.
    assert (typed (set_matchIndex mi c)) as H1 by (by apply typed_set_match).
    destruct (_ <? _); [|done].
    match goal with |- context [advanceCommit ?x] => assert (typed (advanceCommit x)) as H2;
      [|set (c1 := advanceCommit x) in *] end.
    { apply advanceCommit_typed, typed_set_next; [|apply typed_set_match; [|done]].
      - intros p i [[_ <-]|[_ Hi]]%lookup_insert_Some; [lia|by eapply (ty_next _ H)].
      - intros p i [[_ <-]|[_ Hi]]%lookup_insert_Some; [lia|by eapply Hmi]. }
    clearbody c1. destruct (map_index_next (nextIndex_ c1) from (ty_next _ H2)) as [_ Hn].
    destruct (map_index (nextIndex_ c1) from) as [ni nm]. cbn [snd] in Hn.
    assert (typed (set_nextIndex nm c1)) as H3 by (by apply typed_set_next).
    destruct (_ <=? _); [by apply sendAppendEntries_typed|done].
  - cbv zeta. match goal with |- context [N.min ?x _] => set (want := x) end.
    assert (want < two64) as Hwant.
    { subst want. destruct (_ =? _); [done|]. destruct (negb _); [|done].
      pose proof (lastOfTerm_le (N.to_nat (log_lastIndex (log_ c))) (log_ c) (aer_conflictTerm r)
        (log_lastIndex (log_ c))). lia. }
    clearbody want.
    destruct (map_index_next (nextIndex_ c) from (ty_next _ H)) as [Hcur Hn].
    destruct (map_index (nextIndex_ c) from) as [cur nm]. cbn [fst snd] in *.
    cbn [matchIndex_ set_nextIndex].
    destruct (map_index_match (matchIndex_ c) from (ty_match _ H)) as [Hm Hmm].
    destruct (map_index (matchIndex_ c) from) as [m mm]. cbn [fst snd] in *.
    apply sendAppendEntries_typed; [done|]. apply typed_set_next; [|apply typed_set_match; [done|by apply typed_set_next]].
    intros p i [[_ <-]|[_ Hi]]%lookup_insert_Some; [lia|by eapply Hn].
Qed.

(** A client handler may call anything; it has to keep the invariant itself. *)
Lemma handle_typed onClient now env m c :
  (∀ f, onClient = Some f → ∀ from r c, typed c → typed (f from r c)) →
  clock_ok now → env_from env < two16 → message_ok m →
  (∀ ae, m = MAppendEntries ae → room (length (ae_entries ae)) c) →
  typed c → typed (handle onClient now env m c).
Proof.
  intros Hcl Hn Hf Hm Hr H. unfold handle. cbv zeta.
  match goal with |- context [onRequestVote _ _ _ ?x] => assert (typed x ∧ log_ x = log_ c) as [H1 E1];
    [|generalize dependent x] end.
  { assert (∀ t, termOf m = Some t → t < two64) as Ht.
    { intros t. destruct m; cbn in *; intros [= <-]; naive_solver. }
    destruct (termOf m) as [t|]; [|done]. destruct (_ <? _); [|done]. split.
    - apply becomeFollower_typed; [done|by apply Ht|done].
    - unfold becomeFollower, resetElectionTimer. cbv zeta. cbn. by repeat case_match. }
  intros c1 H1 E1. destruct m as [rv|r|ae|r|r|r].
  - by apply onRequestVote_typed.
  - by apply onRequestVoteReply_typed.
  - apply onAppendEntries_typed; [done..| |done]. specialize (Hr ae eq_refl). unfold room in *. by rewrite E1.
  - by apply onAppendEntriesReply_typed.
  - destruct onClient as [f|]; [by eapply Hcl|done].
  - done.
Qed.

End CoreTypes.

(** ** The cluster *)

Definition packet_typed (p : Packet) : Prop := pk_from p < two16 ∧ pk_to p < two16 ∧ message_ok (pk_msg p).

Definition durable_typed (d : Durable) : Prop :=
  d.1.1 < two64 ∧ (∀ id, d.1.2 = Some id → id < two16) ∧ Forall entry_ok d.2.

Lemma replay_typed fx d : Forall fx_typed fx → durable_typed d → durable_typed (replay d fx).
Proof.
  unfold replay. revert d. induction fx as [|e fx IH]; intros d; [done|]. intros [He Hfx]%Forall_cons [Ht [Hv Hl]].
  cbn. apply IH; [done|]. destruct d as [[t v] l]. destruct e as [| |i| | | | |]; try done; cbn in *.
  - split_and!; naive_solver.
  - split_and!; [done..|by apply Forall_app].
  - split_and!; [done..|]. destruct (truncate_prefix l i) as [k ->]. by apply Forall_take.
Qed.

Lemma atomic_typed fx : Forall fx_typed fx → Forall fx_typed (fx ≫= atomic).
Proof.
  intros H. apply Forall_bind. eapply Forall_impl; [exact H|]. intros [] He; cbn; try (by constructor).
  apply Forall_fmap. eapply Forall_impl; [exact He|]. intros e Hen. by constructor.
Qed.

Lemma sends_typed n fx : n < two16 → Forall fx_typed fx → Forall packet_typed (sends n fx).
Proof.
  intros Hn H. apply Forall_forall. intros p Hp. apply list_elem_of_omap in Hp as (e&He&E).
  apply (proj1 (Forall_forall _ _) H) in He. by destruct e; simplify_eq/=.
Qed.

Section ClusterTypes.
Context {P L SM R K : Type}.
Context `{!PersistentState P} `{!RaftLog L} `{!StateMachine SM} `{!Rng R} `{!ApplySink K}.
Context `{!PersistentStateLaws P} `{!RaftLogLaws L}.
Context (members : list NodeId) (cfg : RaftConfig) (sm0 : SM).
Context (Hcfg : electionTimeoutMin cfg ≤ electionTimeoutMax cfg).
Context (Hdraw : ∀ (r : R) lo hi, lo ≤ hi → lo ≤ (draw r lo hi).1 ≤ hi).

Local Abbreviation Core := (@RaftCore P L SM R K).
Local Abbreviation ClusterOf := (@Cluster P L SM R K).
Local Abbreviation EventOf := (@Event P L R K).

Record cluster_typed (s : ClusterOf) : Prop := {
  ct_node n c : nodes s !! n = Some c → n < two16 ∧ typed cfg c;
  ct_net : Forall packet_typed (net s);
}.

(** What a call needs: a time the timers can be armed from, commands no longer than
    the codec can say, and indexes left for the entries it may append. *)
Definition clock_fits (now : TimePoint) : bool :=
  (after now (electionTimeoutMax cfg) <=? TimePoint_max) && (after now (heartbeatInterval cfg) <=? TimePoint_max).

Definition room_for (k : nat) (c : Core) : bool := N.of_nat (length (log_entries (log_ c)) + k) + 1 <? two64.

Definition command_fits (cmd : Command) : bool := N.of_nat (length cmd) <? two32.

Definition op_fits (s : ClusterOf) (op : NodeOp) (c : Core) : bool :=
  match op with
  | OpPropose cmd => command_fits cmd && room_for 1 c
  | OpProposeBatch cmds => forallb command_fits cmds && room_for (length cmds) c
  | OpDeliver i =>
      match net s !! i with
      | Some (mkPacket _ _ (MAppendEntries ae)) => room_for (length (ae_entries ae)) c
      | _ => true
      end
  | _ => true
  end.

Definition event_fits (s : ClusterOf) (ev : EventOf) : bool :=
  match ev with
  | EvRun n now op => clock_fits now && from_option (op_fits s op) true (nodes s !! n)
  | EvCrash n now op _ b =>
      clock_fits now && from_option (op_fits s op) true (nodes s !! n) &&
      (N.of_nat (length (log_entries (b_log b))) + 1 <? two64) && clock_fits (b_now b)
  end.

Lemma clock_fits_ok now : clock_fits now = true → clock_ok cfg now.
Proof. by intros [?%N.leb_le ?%N.leb_le]%andb_true_iff. Qed.

Lemma run_op_typed s n now op c c' : Forall packet_typed (net s) → clock_fits now = true → op_fits s op c = true →
  typed cfg c → run_op s n now op c = Some c' → typed cfg c'.
Proof.
  intros Hnet Hclock%clock_fits_ok Hfit H. destruct op as [|i|cmd|cmds|]; cbn.
  - destruct (N.ltb_spec (currentTerm c + 1) two64); [|done]. intros [= <-]. by apply tick_typed.
  - destruct (net s !! i) as [p|] eqn:Hp; cbn; [|done]. destruct (_ =? _); [|done]. intros [= <-].
    destruct (Forall_lookup_1 _ _ _ _ Hnet Hp) as (Hf&_&Hm).
    apply handle_typed; [done..| |done]. intros ae E. destruct p as [f t m]. cbn in *. subst m.
    rewrite Hp in Hfit. by apply N.ltb_lt.
  - cbn in Hfit. apply andb_true_iff in Hfit as [Hb Hr]. intros [= <-].
    by apply propose_typed; [..|apply N.ltb_lt|apply N.ltb_lt|].
  - cbn in Hfit. apply andb_true_iff in Hfit as [Hb Hr]. intros [= <-].
    apply proposeBatch_typed; [done..| |by apply N.ltb_lt|done]. apply Forall_forall. intros cmd Hcmd.
    apply N.ltb_lt. rewrite forallb_forall in Hb. by apply Hb, list_elem_of_In.
  - intros [= <-]. by apply applyLoop_typed.
Qed.

Lemma booting_typed n b : n < two16 → Forall (λ m, m < two16) members → durable_typed (boot_durable b) →
  N.of_nat (length (log_entries (b_log b))) + 1 < two64 →
  typed cfg (set_applySink (b_sink b)
    (RaftCore_new n (peers_of members n) (b_persist b) (b_log b) sm0 (b_rng b) cfg) : Core).
Proof.
  intros Hn Hm (Ht&Hv&Hl) Hr.
  split; try done; unfold room; cbn; try (intros; by simplify_map_eq).
  - apply Forall_forall. intros p [_ Hp]%list_elem_of_filter. by apply (proj1 (Forall_forall _ _) Hm).
  - by rewrite Nat.add_0_r.
Qed.

Lemma boot_typed n b : n < two16 → Forall (λ m, m < two16) members → durable_typed (boot_durable b) →
  N.of_nat (length (log_entries (b_log b))) + 1 < two64 → clock_fits (b_now b) = true →
  typed cfg (boot members cfg sm0 n b : Core).
Proof. intros Hn Hm Hd Hr Hc%clock_fits_ok. by apply resetElectionTimer_typed, booting_typed. Qed.

Lemma exec_typed s ev s' : Forall (λ m, m < two16) members → event_fits s ev = true → cluster_typed s →
  exec members cfg sm0 s ev = Some s' → cluster_typed s'.
Proof.
  intros Hm Hfit [Hn Hnet]. destruct ev as [n now op|n now op k b]; cbn; intros Hs;
    apply bind_Some in Hs as (c&Hc&Hs); apply bind_Some in Hs as (c'&Hop&Hs).
  - simplify_eq/=. destruct (Hn _ _ Hc) as [Hid Hty]. apply andb_true_iff in Hfit as [Hclock Hfit].
    assert (typed cfg c') as H' by (eapply run_op_typed; [done|exact Hclock|by rewrite Hc in Hfit|done|done]). split; cbn.
    + intros m d [[<- <-]|[_ Hd]]%lookup_insert_Some; [done|by apply Hn].
    + apply Forall_app. split; [done|]. apply sends_typed; [done|]. apply Forall_drop, (ty_fx _ _ H').
  - destruct (decide _) as [Hb|]; [|done]. simplify_eq/=. destruct (Hn _ _ Hc) as [Hid Hty].
    apply andb_true_iff in Hfit as [[[Hclock Hfit]%andb_true_iff Hroom%N.ltb_lt]%andb_true_iff Hboot].
    assert (typed cfg c') as H' by (eapply run_op_typed; [done|exact Hclock|by rewrite Hc in Hfit|done|done]).
    assert (Forall fx_typed (take k (new_fx c c' ≫= atomic))) as Hfx.
    { apply Forall_take, atomic_typed, Forall_drop, (ty_fx _ _ H'). }
    split; cbn.
    + intros m d [[<- <-]|[_ Hd]]%lookup_insert_Some; [|by apply Hn]. split; [done|].
      apply boot_typed; [done..| |done|done]. rewrite Hb. apply replay_typed; [done|]. split_and!; apply Hty.
    + apply Forall_app. split; [done|by apply sends_typed].
Qed.

(** The clock the nodes were first booted at, likewise. *)
Definition first_deadlines (s : ClusterOf) : Prop :=
  ∀ n c, nodes s !! n = Some c → electionDeadline_ c ≤ TimePoint_max.

Lemma initial_typed s : Forall (λ m, m < two16) members → initial members cfg sm0 s → first_deadlines s →
  cluster_typed s.
Proof.
  intros Hm (Hnet&Hd&Hn) Hfirst. split; [|rewrite Hnet; constructor].
  intros n c Hc. assert (n < two16) as Hid.
  { apply (proj1 (Forall_forall _ _) Hm). apply (elem_of_list_to_set (C:=gset NodeId)). rewrite <-Hd.
    by eapply elem_of_dom_2. }
  split; [done|]. pose proof (Hfirst n c Hc) as Hdl.
  destruct (Hn n c Hc) as (b&Hb&->). unfold boot_durable in Hb. injection Hb as E1 E2 E3.
  assert (durable_typed (boot_durable b)) as Hdur.
  { unfold boot_durable. rewrite E1, E2, E3. split_and!; [done|done|constructor]. }
  pose proof (booting_typed n b Hid Hm Hdur ltac:(by rewrite E3)) as H.
  revert Hdl. unfold boot, start. set (c0 := set_applySink _ _) in *. clearbody c0.
  unfold resetElectionTimer. destruct (draw _ _ _) as [d rng]. intros Hdl.
  apply typed_set_election; [exact Hdl|]. by apply (typed_frame cfg c0).
Qed.

(** Every call of the run had room, in the state it was made in. *)
Fixpoint run_fits (s : ClusterOf) (evs : list EventOf) : bool :=
  match evs with
  | [] => true
  | ev :: evs =>
      event_fits s ev && from_option (λ s1, run_fits s1 evs) true (exec members cfg sm0 s ev)
  end.

Lemma run_typed evs : ∀ s s', Forall (λ m, m < two16) members → run_fits s evs = true → cluster_typed s →
  run_events members cfg sm0 s evs = Some s' → cluster_typed s'.
Proof.
  induction evs as [|ev evs IH]; intros s s' Hm Hfit Hs; cbn; [by intros [= <-]|].
  intros Hr. apply bind_Some in Hr as (s1&Hs1&Hr). cbn in Hfit. rewrite Hs1 in Hfit.
  apply andb_true_iff in Hfit as [Hev Hfit]. apply (IH s1); [done|done| |done]. by eapply exec_typed.
Qed.

(** What the codec makes of a packet: bytes that decode to the same packet. *)
Definition carried (p : Packet) : Prop :=
  ∃ out, encodeMessage (pk_from p) (pk_to p) (pk_msg p) (replicate (encodedSize (pk_msg p)) x00)
           = (encodedSize (pk_msg p), out) ∧
    decodeMessage out =
      Some (mkDecoded (envelope_for (pk_from p) (pk_to p) (pk_msg p)) (pk_msg p)).

Lemma packet_carried p : packet_typed p → N.of_nat (payloadSize (pk_msg p)) ≤ kMaxPayloadSize → carried p.
Proof.
  intros (Hf&Ht&Hm) Hs. unfold carried.
  destruct (encode_fits (pk_from p) (pk_to p) (pk_msg p) (replicate (encodedSize (pk_msg p)) x00) Hs)
    as (out&E&Hl&Htk); [by rewrite length_replicate|].
  exists out. split; [done|]. rewrite length_replicate in Hl. rewrite take_ge in Htk by lia. subst out.
  unfold decodeMessage.
  by destruct (decodeInto_forward _ _ _ emptyDecoded (mkPool [] []) Hf Ht Hm Hs) as [pool ->].
Qed.

(** C25: the 16-, 32- and 64-bit fields of a core never lose a bit.  Consider any run
    of a cluster from a first boot, crashes and reboots included, such that node ids
    are below 2^16, no election starts in the last term (2^64 - 1), commands are
    shorter than 2^32 bytes, the log has indexes below 2^64 for the entries appended,
    and at every call the clock is an election timeout and a heartbeat away from the
    end of its 63-bit nanoseconds.  Then in every core the node ids, terms, log
    indexes, votes, deadlines and the reused outbound message fit their C++ fields, so
    does everything it wrote, sent or handed on, and every packet on the wire that is
    not over the payload limit is exactly what its receiver decodes. *)
Theorem widths_kept (s : ClusterOf) (evs : list EventOf) (s' : ClusterOf) :
  Forall (λ m, m < two16) members → initial members cfg sm0 s → first_deadlines s → run_fits s evs = true →
  run_events members cfg sm0 s evs = Some s' →
  (∀ n c, nodes s' !! n = Some c → typed cfg c) ∧
  (∀ p, p ∈ net s' → N.of_nat (payloadSize (pk_msg p)) ≤ kMaxPayloadSize → carried p).
Proof.
  intros Hm Hi Hd Hfit Hr. apply (run_typed _ _ _ Hm Hfit) in Hr; [|by apply initial_typed]. split.
  - intros n c Hc. by apply (ct_node _ Hr n c).
  - intros p Hp. apply packet_carried. by apply (proj1 (Forall_forall _ _) (ct_net _ Hr)).
Qed.

End ClusterTypes.

(** ** Witness: a commit, a crash and a fail-over *)

Import RaftSafety.Scenario.

Lemma widths_kept_witness :
  let evs := commit_run ++ failover_run in
  run_fits members3 defaultConfig [] cluster0 evs = true ∧
  (∀ n c, nodes (run cluster0 evs) !! n = Some c → typed defaultConfig c) ∧
  (∀ p, p ∈ net (run cluster0 evs) → N.of_nat (payloadSize (pk_msg p)) ≤ kMaxPayloadSize → carried p).
Proof.
  cbv zeta. split; [by vm_compute|].
  apply (widths_kept members3 defaultConfig [] ltac:(done) ltac:(intros r lo hi Hle; cbn; lia)
    cluster0 (commit_run ++ failover_run)).
  - by repeat constructor.
  - apply cluster0_initial.
  - intros n c Hc. apply elem_of_list_to_map_2 in Hc. apply list_elem_of_fmap in Hc as (m&E&_).
    injection E as -> ->. by vm_compute.
  - by vm_compute.
  - by vm_compute.
Defined.
