(* ===== verification/RaftProgress.v ===== *)
(** * Log repair makes progress; timers stay with their role

    A follower that refuses an AppendEntries hints at where its log ends or at
    the term that conflicts; the leader lowers [nextIndex_] by the hint.  In every
    reachable cluster the hint lowers it strictly, and never below a proven match:
    repair of one follower takes at most [nextIndex_] refusals.  The second part
    follows the two timers: a leader runs only the heartbeat timer, everybody else
    only the election timer. *)

From Stdlib Require Import NArith Strings.Byte Lia.
From stdpp Require Import functions.
From S2P Require Import Prelude Messages Codec Log RaftCore RaftNode RaftSpec RaftInv Cluster.
From S2P Require Import RaftRefine RaftSafety.

Local Open Scope N_scope.

Section Progress.
Context {P L SM R K : Type}.
Context `{!PersistentState P} `{!RaftLog L} `{!StateMachine SM} `{!Rng R} `{!ApplySink K}.
Context `{!PersistentStateLaws P} `{!RaftLogLaws L}.
Context (members : list N) (cfg : RaftConfig) (sm0 : SM).
Context (Hmembers : NoDup members).

Local Abbreviation Core := (@RaftCore P L SM R K).
Local Abbreviation Cluster := (@Cluster P L SM R K).
Local Abbreviation reachable := (reachable members cfg sm0).

(** ** The two searches *)

Lemma firstOfTerm_range fuel (log : L) ct i : 1 ≤ i →
  1 ≤ firstOfTerm fuel log ct i ∧ firstOfTerm fuel log ct i ≤ i.
Proof.
  revert i. induction fuel as [|fuel IH]; intros i Hi; cbn [firstOfTerm]; [lia|].
  destruct (N.ltb_spec 1 i); cbn [andb]; [|lia]. destruct (_ =? _); [|lia].
  destruct (IH (i - 1)); lia.
Qed.

Lemma lastOfTerm_spec fuel (log : L) t i :
  let r := lastOfTerm fuel log t i in r = 0 ∨ 1 ≤ r ∧ r ≤ i ∧ log_termAt log r = t.
Proof.
  revert i. induction fuel as [|fuel IH]; intros i; cbn [lastOfTerm]; [by left|].
  destruct (N.leb_spec 1 i); [|by left].
  destruct (N.eqb_spec (log_termAt log i) t); [right; lia|].
  destruct (IH (i - 1)) as [->|(?&?&?)]; [by left|right]. split_and!; [done|lia|done].
Qed.

(** What the leader does with the hint of a refusal. *)
Definition hinted (c : Core) (r : AppendEntriesReply) : LogIndex :=
  if aer_conflictTerm r =? 0 then aer_conflictIndex r
  else
    let last := log_lastIndex (log_ c) in
    let lot := lastOfTerm (N.to_nat last) (log_ c) (aer_conflictTerm r) last in
    if negb (lot =? 0) then lot + 1 else aer_conflictIndex r.

Lemma refusal_next c r from next m :
  role_ c = Leader → aer_term r = currentTerm c → aer_success r = false →
  nextIndex_ c !! from = Some next → matchIndex_ c !! from = Some m →
  nextIndex_ (onAppendEntriesReply from r c) !! from =
    Some (N.max (N.max (N.min (hinted c r) next) (m + 1)) 1).
Proof.
  intros Hr Ht Hs Hn Hm. unfold onAppendEntriesReply. fold (hinted c r).
  rewrite bool_decide_true, Ht, N.eqb_refl, Hs by done. cbn [negb]. cbv zeta.
  rewrite (map_index_Some _ _ _ Hn).
  replace (set_nextIndex (nextIndex_ c) c) with c by (by destruct c).
  rewrite (map_index_Some _ _ _ Hm).
  replace (set_matchIndex (matchIndex_ c) c) with c by (by destruct c).
  set (c1 := set_nextIndex _ c).
  destruct (sendAppendEntries_fresh from c1) as [pool ->]. cbn.
  fold (hinted c r). rewrite (map_index_Some _ _ (N.max (N.max (N.min (hinted c r) next) (m + 1)) 1));
    cbn; by rewrite lookup_insert_eq.
Qed.

(** ** What a refusal says *)

(** The last message of a call. *)
Definition replies (c : Core) (to : NodeId) (m : Message) : Prop :=
  ∃ fx, fx_ c = fx ++ [ESend to m].

Lemma replies_send c to m m' : replies (send to m c) to m' → m = m'.
Proof. intros [fx H]. cbn in H. by apply app_inj_tail in H as [_ [= ->]]. Qed.

(** A refusal of a current-term request is an honest hint. *)
Lemma refusal_hint now from ae c r :
  role_ c = Follower → ae_term ae = currentTerm c →
  replies (onAppendEntries now from ae c) from (MAppendEntriesReply r) →
  aer_success r = false →
  aer_term r = currentTerm c ∧
  let prev := ae_prevLogIndex ae in
  (log_lastIndex (log_ c) < prev ∧ aer_conflictTerm r = 0 ∧
   aer_conflictIndex r = log_lastIndex (log_ c) + 1 ∨
   prev ≤ log_lastIndex (log_ c) ∧ log_termAt (log_ c) prev ≠ ae_prevLogTerm ae ∧
   aer_conflictTerm r = log_termAt (log_ c) prev ∧
   aer_conflictIndex r = firstOfTerm (N.to_nat prev) (log_ c) (log_termAt (log_ c) prev) prev).
Proof.
  intros Hr Ht. rewrite onAppendEntries_eq, Ht, N.ltb_irrefl. cbv zeta.
  rewrite decide_False, decide_False by (cbn; congruence).
  set (c1 := resetElectionTimer now _).
  assert (log_ c1 = log_ c ∧ currentTerm c1 = currentTerm c) as [El Et].
  { destruct (resetElectionTimer_eq now (set_leaderId (Some (ae_leaderId ae)) c)) as (d&g&Hd).
    subst c1. by rewrite Hd. }
  unfold checkAndMerge. cbv zeta. rewrite El, Et.
  destruct (N.ltb_spec (log_lastIndex (log_ c)) (ae_prevLogIndex ae)).
  - intros [= <-]%replies_send _. cbn. split; [done|]. by left.
  - destruct (N.eqb_spec (log_termAt (log_ c) (ae_prevLogIndex ae)) (ae_prevLogTerm ae));
      cbn [negb]; intros [= <-]%replies_send; [done|]. intros _. cbn. split; [done|]. by right.
Qed.

(** ** Progress *)

(** A leader and a follower of its term, and the follower's log at the point
    [next - 1] where the leader's request attaches. *)
Section Pair.
Context (A : AState) (I : Inv members A) (n1 n2 : N) (c1 c2 : Core).
Context (Hok1 : node_ok members sm0 A n1 c1) (Hok2 : node_ok members sm0 A n2 c2).
Context (Hr1 : a_role A n1 = Leader) (Ht : a_term A n2 = a_term A n1).
Context (next : LogIndex) (Hnext : (0 < N.to_nat next)%nat).

Local Abbreviation prev := (N.to_nat (next - 1)).

(** The request attaches wherever the follower has acknowledged. *)
Lemma match_below m : (N.to_nat m ≤ a_acked A n2 (a_term A n1))%nat →
  N.of_nat (length (a_log A n2)) < next - 1 ∨
  term_of (a_log A n2) prev ≠ term_of (a_log A n1) prev → m + 1 < next.
Proof.
  intros Hma Hhint. destruct (N.ltb_spec (m + 1) next) as [|Hge]; [done|]. exfalso.
  pose proof (inv_current _ _ I n2) as Hcur. rewrite Ht, (leader_own_log _ _ I n1 Hr1) in Hcur.
  assert (same prev (a_log A n2) (a_log A n1)) as Hsame by (eapply same_le; [|exact Hcur]; lia).
  destruct Hhint as [Hlt|Hd].
  - destruct Hsame as (?&_&_). lia.
  - apply Hd. by apply (same_term _ _ _ _ Hsame).
Qed.

(** The leader holds no entry of the conflicting term at or above the point. *)
Lemma conflict_below i : (prev ≤ length (a_log A n2))%nat → (0 < prev)%nat →
  term_of (a_log A n2) prev ≠ term_of (a_log A n1) prev →
  (i ≤ length (a_log A n1))%nat → term_of (a_log A n1) i = term_of (a_log A n2) prev →
  (i < prev)%nat.
Proof.
  intros Hlen Hpos Hd Hi Hterm. destruct (decide (i < prev)%nat) as [|Hge]; [done|].
  exfalso. apply Hd. destruct (inv_log _ _ I n1) as [_ G1]. destruct (inv_log _ _ I n2) as [_ G2].
  destruct (G1 i) as [_ S1]; [lia|done|]. rewrite Hterm in S1.
  destruct (G2 prev) as [_ S2]; [done|done|].
  rewrite (same_term _ prev _ _ S1) by lia. by apply (same_term _ _ _ _ S2).
Qed.

Lemma hint_below r : 1 < next →
  N.of_nat (length (a_log A n2)) < next - 1 ∧ aer_conflictTerm r = 0 ∧
  aer_conflictIndex r = N.of_nat (length (a_log A n2)) + 1 ∨
  next - 1 ≤ N.of_nat (length (a_log A n2)) ∧
  term_of (a_log A n2) prev ≠ term_of (a_log A n1) prev ∧
  aer_conflictTerm r = term_of (a_log A n2) prev ∧ aer_conflictIndex r ≤ next - 1 →
  hinted c1 r < next.
Proof.
  intros Hn1 Hhint. unfold hinted. destruct Hhint as [(Hlt&->&->)|(Hle&Hd&->&Hf)].
  { rewrite N.eqb_refl. lia. }
  destruct (_ =? 0); [lia|]. cbv zeta.
  pose proof (lastOfTerm_spec (N.to_nat (log_lastIndex (log_ c1))) (log_ c1)
    (term_of (a_log A n2) prev) (log_lastIndex (log_ c1))) as Hlot.
  set (lot := lastOfTerm _ _ _ _) in *. cbv zeta in Hlot.
  destruct (N.eqb_spec lot 0); cbn [negb]; [lia|].
  destruct Hlot as [?|(Hl1&Hl2&Hl3)]; [done|].
  rewrite (core_termAt _ _ _ Hok1) in Hl3. rewrite (core_lastIndex _ _ _ Hok1) in Hl2.
  pose proof (conflict_below (N.to_nat lot) ltac:(lia) ltac:(lia) Hd ltac:(lia) Hl3). lia.
Qed.

End Pair.

(** C32: log repair makes progress.  In a reachable cluster, let a follower of
    the leader's term refuse the AppendEntries the leader would send it now.
    Handling that refusal lowers the leader's [nextIndex_] for the follower
    strictly, keeping it at least 1 and above the follower's proven match. *)
Theorem repair_progress s n1 n2 c1 c2 now next r :
  reachable s → nodes s !! n1 = Some c1 → nodes s !! n2 = Some c2 → n1 ≠ n2 →
  role_ c1 = Leader → role_ c2 = Follower → currentTerm c2 = currentTerm c1 →
  nextIndex_ c1 !! n2 = Some next →
  replies (onAppendEntries now n1 (freshAppendEntries n2 c1) c2) n1 (MAppendEntriesReply r) →
  aer_success r = false →
  ∃ m next', matchIndex_ c1 !! n2 = Some m ∧
    nextIndex_ (onAppendEntriesReply n2 r c1) !! n2 = Some next' ∧
    1 ≤ next' ∧ m < next' ∧ next' < next.
Proof.
  intros Hs Hc1 Hc2 Hne Hr1 Hr2 Ht Hnext Hrep Hfail.
  destruct (history _ _ _ Hmembers s s Hs ltac:(constructor)) as (A&_&H&_&_).
  pose proof (cl_inv _ _ _ _ H) as I.
  pose proof (cl_node _ _ _ _ H _ _ Hc1) as Hok1.
  pose proof (cl_node _ _ _ _ H _ _ Hc2) as Hok2.
  pose proof Hr1 as Hr1'. rewrite (ok_role _ _ _ _ _ Hok1) in Hr1'.
  pose proof (ok_leader _ _ _ _ _ Hok1 Hr1') as Hl.
  assert (n2 ∈ peers_of members n1) as Hp.
  { apply peers_of_spec. split; [by apply not_eq_sym|by eapply (cl_dom _ _ _ _ H)]. }
  destruct (ok_match_dom _ _ _ _ Hl n2 Hp) as [m Hm].
  destruct (ok_match _ _ _ _ Hl n2 m Hm) as [_ Hma].
  destruct (ok_next _ _ _ _ Hl n2 next Hnext) as [Hpos Hmax].
  destruct (refusal_hint now n1 (freshAppendEntries n2 c1) c2 r Hr2 (eq_sym Ht) Hrep Hfail)
    as [Hrt Hhint].
  exists m, (N.max (N.max (N.min (hinted c1 r) next) (m + 1)) 1).
  split; [done|]. split; [apply refusal_next; congruence|].
  cbv zeta in Hhint. unfold freshAppendEntries in Hhint.
  rewrite (map_index_Some _ _ _ Hnext) in Hhint.
  cbn [fst ae_prevLogIndex ae_prevLogTerm] in Hhint. rewrite dec64_pos in Hhint by lia.
  rewrite (core_lastIndex _ _ _ Hok2), !(core_termAt _ _ _ Hok2), (core_termAt _ _ _ Hok1) in Hhint.
  rewrite (ok_term _ _ _ _ _ Hok1), (ok_term _ _ _ _ _ Hok2) in Ht.
  assert (m + 1 < next) as Hmn.
  { eapply (match_below A I n1 n2); try done. destruct Hhint as [(?&_)|(_&?&_)]; auto. }
  cut (hinted c1 r < next); [lia|].
  eapply (hint_below A I n1 n2 c1); try done; [lia|].
  destruct Hhint as [?|(?&?&?&->)]; [by left|right]. split_and!; try done.
  apply firstOfTerm_range. lia.
Qed.

(** ** Timers *)

Definition timer_ok (c : Core) : Prop :=
  (role_ c = Leader → electionDeadline_ c = TimePoint_max) ∧
  (role_ c ≠ Leader → heartbeatDeadline_ c = TimePoint_max).

Lemma timer_ok_same c c' : core_same c c' → timer_ok c → timer_ok c'.
Proof. intros (_&_&Hr&_&_&He&Hh) [H1 H2]. split; by rewrite Hr, ?He, ?Hh. Qed.

Lemma timer_ok_heartbeat c d : role_ c = Leader → timer_ok c →
  timer_ok (set_heartbeatDeadline d c).
Proof. intros Hr [H1 H2]. by split. Qed.

Lemma timer_ok_election c now : role_ c ≠ Leader → timer_ok c →
  timer_ok (resetElectionTimer now c).
Proof.
  destruct (resetElectionTimer_eq now c) as (d&g&->). intros Hr [H1 H2]. by split.
Qed.

Lemma becomeLeader_timer now c : timer_ok (becomeLeader now c).
Proof.
  unfold becomeLeader, sendHeartbeats. cbv zeta.
  match goal with |- context [sendToPeers ?x] =>
    destruct (sendToPeers_same x) as (_&_&Hr&_&_&He&_) end.
  by split; cbn [role_ electionDeadline_ set_heartbeatDeadline]; rewrite ?Hr, ?He.
Qed.

Lemma becomeFollower_timer now t ev c : timer_ok c → timer_ok (becomeFollower now t ev c).
Proof.
  intros [_ H2]. unfold becomeFollower. cbv zeta.
  set (c1 := if currentTerm c <? t then _ else c).
  assert (role_ c1 = role_ c ∧ heartbeatDeadline_ c1 = heartbeatDeadline_ c) as [Hr Hh].
  { subst c1. by destruct (_ <? _). }
  destruct (decide (role_ c1 = Leader)) as [|Hne].
  - destruct (resetElectionTimer_eq now (set_heartbeatDeadline TimePoint_max c1)) as (d&g&->).
    by split.
  - split; [done|]. intros _. cbn. rewrite Hh. apply H2. congruence.
Qed.

Lemma sends_timer (m : Message) ps x : timer_ok x →
  timer_ok (foldl (λ c p, send p m c) x ps).
Proof.
  revert x. induction ps as [|p ps IH]; intros x H0; cbn [foldl]; [done|].
  apply IH. by destruct H0; split.
Qed.

Lemma startElection_timer now c : timer_ok (startElection now c).
Proof.
  unfold startElection. cbv zeta.
  match goal with |- context [resetElectionTimer now ?x] =>
    destruct (resetElectionTimer_eq now x) as (d&g&->) end.
  destruct (_ <=? _)%nat; [apply becomeLeader_timer|]. apply sends_timer. by split.
Qed.

(** Granting a vote is the only thing that could re-arm a leader's election
    timer, and a leader has already voted for itself. *)
Lemma onRequestVote_timer now from rv c :
  (role_ c = Leader → ∀ v, votedFor c = Some v → v ≠ rv_candidateId rv) →
  (role_ c = Leader → votedFor c ≠ None) →
  timer_ok c → timer_ok (onRequestVote now from rv c).
Proof.
  intros Hv Hn Hok. unfold onRequestVote. cbv zeta.
  assert (∀ m x, timer_ok x → timer_ok (send from m x)) as Hsend
    by (intros m x [H1 H2]; by split).
  destruct (_ <? _); [by apply Hsend|]. apply Hsend. destruct (_ && _) eqn:Eg; [|done].
  apply andb_true_iff in Eg as [_ Eg]. apply timer_ok_election.
  - intros Hr. cbn in Hr. destruct (votedFor c) as [v|] eqn:Ev; [|by apply (Hn Hr)].
    apply N.eqb_eq in Eg. by apply (Hv Hr v).
  - destruct Hok. by split.
Qed.

Lemma onAppendEntries_timer now from ae c : timer_ok c → timer_ok (onAppendEntries now from ae c).
Proof.
  intros Hok. rewrite onAppendEntries_eq.
  assert (∀ m x, timer_ok x → timer_ok (send from m x)) as Hsend
    by (intros m x [H1 H2]; by split).
  destruct (_ <? _); [by apply Hsend|]. destruct (decide (role_ c = Leader)) as [|Hnl].
  { by destruct Hok; split. }
  cbv zeta. set (c1 := set_leaderId _ c). assert (timer_ok c1) as H1 by (by destruct Hok; split).
  set (c2 := if decide _ then _ else c1).
  assert (timer_ok c2 ∧ role_ c2 ≠ Leader) as [H2 Hr2].
  { subst c2. destruct (decide _); [|done]. split; [by apply becomeFollower_timer|done]. }
  set (c3 := resetElectionTimer now c2). assert (timer_ok c3) as H3 by by apply timer_ok_election.
  unfold checkAndMerge. destruct (_ <? _); [by apply Hsend|]. destruct (negb _); [by apply Hsend|].
  cbv zeta. apply Hsend.
  assert (∀ es i x, timer_ok x → timer_ok (walkEntries (ae_prevLogIndex ae) i es x).2) as Hwalk.
  { intros es. induction es as [|e es IH]; intros i x Hx; cbn [walkEntries]; [done|].
    destruct (_ <? _); [done|]. destruct (negb _); [|by apply IH].
    by destruct (_ <=? _), Hx; split. }
  assert (timer_ok (mergeEntries (ae_prevLogIndex ae) (ae_entries ae) c3)) as Hm.
  { unfold mergeEntries. specialize (Hwalk (ae_entries ae) 0%nat c3 H3).
    destruct (walkEntries _ _ _ _) as [i x]. cbn in Hwalk.
    destruct (_ <? _)%nat; [by destruct Hwalk; split|done]. }
  destruct (_ <? _); [|done].
  eapply timer_ok_same; [apply applyLoop_same|]. by destruct Hm; split.
Qed.

Lemma onAppendEntriesReply_timer from r c : timer_ok c → timer_ok (onAppendEntriesReply from r c).
Proof.
  intros Hok. unfold onAppendEntriesReply. destruct (negb _); [done|]. destruct (negb _); [done|].
  cbv zeta. destruct (aer_success r).
  - destruct (_ <? _); [by destruct Hok; split|].
    destruct (map_index (matchIndex_ c) from) as [m mi]. destruct (m <? _); [|by destruct Hok; split].
    set (c1 := advanceCommit _). assert (timer_ok c1) as H1.
    { eapply timer_ok_same; [apply advanceCommit_same|]. by destruct Hok; split. }
    destruct (map_index (nextIndex_ c1) from) as [ni nm].
    destruct (_ <=? _); [|by destruct H1; split].
    eapply timer_ok_same; [apply sendAppendEntries_same|]. by destruct H1; split.
  - destruct (map_index (nextIndex_ c) from) as [cur nm].
    destruct (map_index _ from) as [m mm].
    eapply timer_ok_same; [apply sendAppendEntries_same|]. by destruct Hok; split.
Qed.

(** A leader has voted for itself. *)
Lemma leader_vote A n : Inv members A → a_role A n = Leader →
  a_voted A n (a_term A n) = Some n.
Proof.
  intros I Hr. destruct (inv_elected _ _ I _ _ _ (inv_leader _ _ I n Hr)) as (_&_&Q&HQ&Hq).
  destruct (quorum_inhabited _ _ HQ) as [q Hin].
  by destruct (inv_voted _ _ I _ _ _ (Hq q Hin)) as (_&?&_).
Qed.

Lemma handle_timer A n now from m c : Inv members A → node_ok members sm0 A n c →
  packet_ok members A (mkPacket from n m) → timer_ok c →
  timer_ok (handle None now (envelope_for from n m) m c).
Proof.
  intros I Hok Hp Ht. unfold handle. cbn [env_from envelope_for].
  set (c1 := match termOf m with Some t => _ | None => c end).
  assert (timer_ok c1) as H1.
  { subst c1. destruct (termOf m); [|done]. destruct (_ <? _); [by apply becomeFollower_timer|done]. }
  destruct m as [rv|r|ae|r|r|r]; try done.
  - assert (role_ c1 = Leader → votedFor c1 = Some n) as Hv.
    { subst c1. cbn [termOf]. destruct (_ <? _); [done|]. intros Hr.
      rewrite (ok_role _ _ _ _ _ Hok) in Hr. rewrite (ok_vote _ _ _ _ _ Hok).
      by apply leader_vote. }
    destruct Hp as (_&Hne&Hc&_). cbn in Hne, Hc.
    apply onRequestVote_timer; [|by intros ->%Hv|done].
    intros Hr v. rewrite (Hv Hr). intros [= <-]. congruence.
  - unfold onRequestVoteReply. destruct (negb _); [done|]. destruct (_ || _); [done|]. cbv zeta.
    destruct (_ <=? _)%nat; [apply becomeLeader_timer|]. by destruct H1; split.
  - by apply onAppendEntries_timer.
  - by apply onAppendEntriesReply_timer.
Qed.

Lemma propose_timer now cmd c : timer_ok c → timer_ok (propose now cmd c).2.
Proof.
  intros Ht. unfold propose. destruct (decide (role_ c = Leader)) as [Hr|]; [|done]. cbn [snd].
  set (c1 := sendToPeers _). assert (core_same (appendLog [mkLogEntry (currentTerm c) cmd] c) c1)
    as Hs by (eapply core_same_trans; [apply advanceCommit_same|apply sendToPeers_same]).
  apply timer_ok_heartbeat; [destruct Hs as (_&_&->&_); done|].
  eapply timer_ok_same; [exact Hs|]. by destruct Ht; split.
Qed.

Lemma proposeBatch_timer now cmds c : timer_ok c → timer_ok (proposeBatch now cmds c).2.
Proof.
  intros Ht. unfold proposeBatch. destruct (_ || _) eqn:Eb; [done|]. cbn [snd].
  apply orb_false_iff in Eb as [_ Hr%negb_false_iff%bool_decide_eq_true].
  set (c1 := sendToPeers _). assert (core_same (appendLog (mkLogEntry (currentTerm c) <$> cmds) c) c1)
    as Hs by (eapply core_same_trans; [apply advanceCommit_same|apply sendToPeers_same]).
  apply timer_ok_heartbeat; [destruct Hs as (_&_&->&_); done|].
  eapply timer_ok_same; [exact Hs|]. by destruct Ht; split.
Qed.

Lemma run_op_timer A s n now op c c' : cluster_ok members sm0 A s → nodes s !! n = Some c →
  run_op s n now op c = Some c' → timer_ok c → timer_ok c'.
Proof.
  intros H Hc Hrun Ht. destruct op as [|i|cmd|cmds|]; cbn in Hrun.
  - destruct (_ <? _); simplify_eq. unfold tick. destruct (_ && _); [apply startElection_timer|].
    destruct (bool_decide (role_ c = Leader) && _) eqn:Eb; [|done].
    apply andb_true_iff in Eb as [Hr%bool_decide_eq_true _]. unfold sendHeartbeats.
    apply timer_ok_heartbeat; [destruct (sendToPeers_same c) as (_&_&->&_); done|].
    eapply timer_ok_same; [apply sendToPeers_same|done].
  - apply bind_Some in Hrun as ([from to m]&Hp&Hrun). cbn in Hrun.
    destruct (N.eqb_spec to n) as [->|]; simplify_eq.
    apply (handle_timer A); [apply H|by apply (cl_node _ _ _ _ H)| |done].
    by eapply (Forall_lookup_1 _ _ _ _ (cl_net _ _ _ _ H)).
  - simplify_eq. by apply propose_timer.
  - simplify_eq. by apply proposeBatch_timer.
  - simplify_eq. eapply timer_ok_same; [apply applyLoop_same|done].
Qed.

Lemma boot_timer n b : timer_ok (boot members cfg sm0 n b).
Proof. unfold boot, start. apply timer_ok_election; [done|]. by split. Qed.

Lemma exec_timer A s ev s' : cluster_ok members sm0 A s → exec members cfg sm0 s ev = Some s' →
  (∀ n c, nodes s !! n = Some c → timer_ok c) → ∀ n c, nodes s' !! n = Some c → timer_ok c.
Proof.
  intros H Hexec Hall. assert (∀ m x ps, timer_ok x → ∀ n c,
    nodes (mkCluster (<[m := x]> (nodes s)) ps) !! n = Some c → timer_ok c) as Hins.
  { intros m x ps Hx n c. cbn. destruct (decide (m = n)) as [->|].
    - rewrite lookup_insert_eq. by intros [= <-].
    - rewrite lookup_insert_ne by done. apply Hall. }
  destruct ev as [n now op|n now op k b]; cbn in Hexec.
  - apply bind_Some in Hexec as (c&Hc&Hexec). apply bind_Some in Hexec as (c'&Hrun&[= <-]).
    apply Hins. eapply run_op_timer; eauto.
  - apply bind_Some in Hexec as (c&Hc&Hexec). apply bind_Some in Hexec as (c'&Hrun&Hexec).
    destruct (decide _); [|done]. injection Hexec as <-. apply Hins, boot_timer.
Qed.

(** The timers follow the role.  In every reachable cluster a leader has no
    election deadline - nothing it receives re-arms it - and a follower or
    candidate has no heartbeat deadline. *)
Theorem timers_follow_role s n c : reachable s → nodes s !! n = Some c →
  (role_ c = Leader → electionDeadline_ c = TimePoint_max) ∧
  (role_ c ≠ Leader → heartbeatDeadline_ c = TimePoint_max).
Proof.
  intros (s0&Hi&Hr). change ((role_ c = Leader → _) ∧ _) with (timer_ok c). revert n c.
  assert (∃ A, cluster_ok members sm0 A s ∧ ∀ n c, nodes s !! n = Some c → timer_ok c)
    as (A&_&?); [|done].
  induction Hr as [|s1 s2 ev Hr IH Hev].
  - exists A_init. split; [by apply (initial_ok members cfg)|]. intros n c Hc.
    destruct Hi as (_&_&Hn). destruct (Hn n c Hc) as (b&_&->). apply boot_timer.
  - destruct IH as (A&H&Ht). destruct (exec_sim _ _ _ Hmembers A s1 ev s2 H Hev) as (A'&_&_&H').
    exists A'. split; [done|]. by apply (exec_timer A s1 ev s2 H Hev).
Qed.

End Progress.

(** ** Instances *)
Module ProgressScenario.
Import Scenario.

(** After the failover node 3 has nothing; node 2 probes it from index 2. *)
Definition refusal : AppendEntriesReply := mkAppendEntriesReply 2 false 1 0.

Definition refused : MemCore :=
  onAppendEntries 0 2 (freshAppendEntries 3 (node failed_over 2)) (node failed_over 3).

Lemma repair_progress_witness : ∃ m next',
  matchIndex_ (node failed_over 2) !! 3 = Some m ∧
  nextIndex_ (onAppendEntriesReply 3 refusal (node failed_over 2)) !! 3 = Some next' ∧
  1 ≤ next' ∧ m < next' ∧ next' < 2.
Proof.
  apply (repair_progress members3 defaultConfig [] NoDup_members3 failed_over 2 3
    (node failed_over 2) (node failed_over 3) 0 2 refusal);
    [apply failed_over_reachable|by vm_compute..| |by vm_compute].
  exists (take (length (fx_ refused) - 1) (fx_ refused)). by vm_compute.
Defined.

Lemma timers_follow_role_witness :
  electionDeadline_ (node failed_over 2) = TimePoint_max.
Proof.
  apply (timers_follow_role members3 defaultConfig [] NoDup_members3 failed_over 2
    (node failed_over 2) failed_over_reachable); by vm_compute.
Defined.

End ProgressScenario.
