(* ===== verification/Frame.v ===== *)
(** * src/transport/frame.h, frame.cpp: length-prefixed framing

    The assembler that cuts a byte stream into frames, and the prefix writer.
    The stream's meaning is given by [parse], which reads whole streams; the
    assembler fed in arbitrary pieces delivers exactly the frames of [parse]. *)

From Stdlib Require Import NArith Strings.Byte Lia.
From S2P Require Import Prelude Messages.

Local Open Scope N_scope.

Definition kLengthPrefixSize : nat := 4.
Definition kMaxFrameSize : N := N.of_nat kEnvelopeSize + kMaxPayloadSize.

(** Big-endian: most significant byte first. *)
Definition writeLengthPrefix (bodyLen : N) : list byte :=
  [to_byte (N.shiftr bodyLen 24); to_byte (N.shiftr bodyLen 16);
   to_byte (N.shiftr bodyLen 8); to_byte bodyLen].

Definition readLengthPrefix (b0 b1 b2 b3 : byte) : N :=
  N.lor (N.lor (N.lor (N.shiftl (Byte.to_N b0) 24) (N.shiftl (Byte.to_N b1) 16))
               (N.shiftl (Byte.to_N b2) 8))
        (Byte.to_N b3).

Record FrameAssembler := mkAssembler {
  buf_ : list byte;
  poisoned_ : bool;
}.

Definition FrameAssembler_init : FrameAssembler := mkAssembler [] false.

(** The [while] loop over the buffer from offset [off]: the frames handed to
    [onFrame], in order, and where the loop stopped; [None] is the protocol
    error.  Every turn consumes at least five bytes, so [length buf] turns are
    enough. *)
Fixpoint feedLoop (fuel : nat) (buf : list byte) (off : nat) :
    list (list byte) * option nat :=
  match fuel with
  | O => ([], Some off)
  | S fuel =>
      match drop off buf with
      | b0 :: b1 :: b2 :: b3 :: _ =>
          let len := readLengthPrefix b0 b1 b2 b3 in
          if (len =? 0) || (kMaxFrameSize <? len) then ([], None)
          else if N.of_nat (length buf - off) <? N.of_nat kLengthPrefixSize + len
          then ([], Some off)
          else
            let frame := take (N.to_nat len) (drop (off + kLengthPrefixSize) buf) in
            let '(frames, stop) :=
              feedLoop fuel buf (off + (kLengthPrefixSize + N.to_nat len)) in
            (frame :: frames, stop)
      | _ => ([], Some off)
      end
  end.

(** The return value, the frames delivered and the assembler afterwards. *)
Definition feed (data : list byte) (a : FrameAssembler) :
    bool * list (list byte) * FrameAssembler :=
  if poisoned_ a then (false, [], a)
  else
    let buf := buf_ a ++ data in
    match feedLoop (S (length buf)) buf 0 with
    | (frames, None) => (false, frames, mkAssembler [] true)
    | (frames, Some off) => (true, frames, mkAssembler (drop off buf) false)
    end.

Definition reset (a : FrameAssembler) : FrameAssembler := mkAssembler [] false.

(** A connection's whole life: pieces as [read] returned them. *)
Fixpoint feedAll (pieces : list (list byte)) (a : FrameAssembler) :
    list (list byte) * FrameAssembler :=
  match pieces with
  | [] => ([], a)
  | d :: pieces =>
      let '(_, frames, a) := feed d a in
      let '(frames', a) := feedAll pieces a in
      (frames ++ frames', a)
  end.

(** ** What a stream means *)

(** Frames of a whole stream, and the unfinished tail; [None]: malformed. *)
Fixpoint parseFuel (fuel : nat) (s : list byte) : list (list byte) * option (list byte) :=
  match fuel with
  | O => ([], Some s)
  | S fuel =>
      match s with
      | b0 :: b1 :: b2 :: b3 :: rest =>
          let len := readLengthPrefix b0 b1 b2 b3 in
          if (len =? 0) || (kMaxFrameSize <? len) then ([], None)
          else if N.of_nat (length rest) <? len then ([], Some s)
          else
            let '(frames, tail) := parseFuel fuel (drop (N.to_nat len) rest) in
            (take (N.to_nat len) rest :: frames, tail)
      | _ => ([], Some s)
      end
  end.

Definition parse (s : list byte) : list (list byte) * option (list byte) :=
  parseFuel (S (length s)) s.

(** The bytes of one frame. *)
Definition frameBytes (body : list byte) : list byte :=
  writeLengthPrefix (N.of_nat (length body)) ++ body.

Definition body_ok (body : list byte) : Prop :=
  0 < N.of_nat (length body) ∧ N.of_nat (length body) ≤ kMaxFrameSize.

(** ** The length prefix *)

Lemma readLengthPrefix_le b0 b1 b2 b3 :
  readLengthPrefix b0 b1 b2 b3 = le_value [b3; b2; b1; b0].
Proof.
  unfold readLengthPrefix, le_value. cbn [foldr].
  rewrite N.shiftl_0_l, N.lor_0_l. rewrite !N.shiftl_lor, !N.shiftl_shiftl. done.
Qed.

Lemma writeLengthPrefix_le v : writeLengthPrefix v = reverse (le_bytes 4 v).
Proof. unfold le_bytes. cbn. by rewrite N.shiftr_0_r. Qed.

Lemma read_writeLengthPrefix v : v < two32 → ∃ b0 b1 b2 b3,
  writeLengthPrefix v = [b0; b1; b2; b3] ∧ readLengthPrefix b0 b1 b2 b3 = v.
Proof.
  intros Hv. eexists _, _, _, _. split; [done|]. rewrite readLengthPrefix_le.
  transitivity (le_value (le_bytes 4 v)); [|by apply le_value_le_bytes_small].
  by unfold le_bytes; cbn; rewrite N.shiftr_0_r.
Qed.

(** ** [parse] *)

Lemma parseFuel_enough f1 f2 s : (length s < f1)%nat → (length s < f2)%nat →
  parseFuel f1 s = parseFuel f2 s.
Proof.
  revert f2 s. induction f1 as [|f1 IH]; intros [|f2] s H1 H2; try lia. cbn [parseFuel].
  destruct s as [|b0 [|b1 [|b2 [|b3 rest]]]]; try done. cbn [length] in *.
  destruct (_ || _); [done|]. destruct (_ <? _); [done|].
  rewrite (IH f2); [done|rewrite length_drop; lia..].
Qed.

Lemma parse_step b0 b1 b2 b3 rest :
  parse (b0 :: b1 :: b2 :: b3 :: rest) =
    let len := readLengthPrefix b0 b1 b2 b3 in
    if (len =? 0) || (kMaxFrameSize <? len) then ([], None)
    else if N.of_nat (length rest) <? len then ([], Some (b0 :: b1 :: b2 :: b3 :: rest))
    else
      let '(frames, tail) := parse (drop (N.to_nat len) rest) in
      (take (N.to_nat len) rest :: frames, tail).
Proof.
  unfold parse at 1. assert (length rest < length (b0 :: b1 :: b2 :: b3 :: rest))%nat as Hf
    by (cbn; lia).
  generalize dependent (length (b0 :: b1 :: b2 :: b3 :: rest)). intros f Hf. cbn [parseFuel].
  cbv zeta. destruct (_ || _); [done|]. destruct (_ <? _); [done|]. unfold parse.
  rewrite (parseFuel_enough f (S (length (drop (N.to_nat (readLengthPrefix b0 b1 b2 b3)) rest))));
    [done|rewrite length_drop; lia..].
Qed.

(** The assembler's loop computes [parse]. *)
Lemma feedLoop_parse fuel buf off : (off ≤ length buf)%nat →
  feedLoop fuel buf off =
    (let '(frames, tail) := parseFuel fuel (drop off buf) in
     (frames, (λ t, length buf - length t)%nat <$> tail)).
Proof.
  revert off. induction fuel as [|fuel IH]; intros off Hoff; cbn [feedLoop parseFuel].
  - cbn. f_equal. f_equal. rewrite length_drop. lia.
  - pose proof (length_drop buf off) as Hlen.
    destruct (drop off buf) as [|b0 [|b1 [|b2 [|b3 rest]]]] eqn:E;
      try (cbn [length] in *; f_equal; cbn; f_equal; lia).
    cbv zeta. destruct (_ || _); [done|]. cbn [length] in Hlen.
    replace (N.of_nat (length buf - off) <? N.of_nat kLengthPrefixSize +
      readLengthPrefix b0 b1 b2 b3) with (N.of_nat (length rest) <? readLengthPrefix b0 b1 b2 b3).
    2: { rewrite <-Hlen. destruct (N.ltb_spec (N.of_nat (length rest)) (readLengthPrefix b0 b1 b2 b3));
         symmetry; [apply N.ltb_lt|apply N.ltb_ge]; unfold kLengthPrefixSize; lia. }
    destruct (N.ltb_spec (N.of_nat (length rest)) (readLengthPrefix b0 b1 b2 b3)) as [|Hle].
    { cbn. f_equal. f_equal. lia. }
    set (len := readLengthPrefix b0 b1 b2 b3) in *.
    assert (drop (off + kLengthPrefixSize) buf = rest) as Hrest.
    { by rewrite <-drop_drop, E. }
    rewrite IH by (unfold kLengthPrefixSize; lia).
    rewrite Nat.add_assoc, <-drop_drop, Hrest.
    by destruct (parseFuel fuel (drop (N.to_nat len) rest)) as [frames tail].
Qed.

(** ** Streams in pieces *)

(** Parsing can stop anywhere and go on with the tail. *)
Lemma parse_app s1 s2 :
  parse (s1 ++ s2) =
    match parse s1 with
    | (frames, None) => (frames, None)
    | (frames, Some tail) =>
        let '(frames', tail') := parse (tail ++ s2) in (frames ++ frames', tail')
    end.
Proof.
  unfold parse at 2. remember (S (length s1)) as fuel eqn:Hf.
  assert (length s1 < fuel)%nat as Hlen by lia. clear Hf. revert s1 Hlen.
  induction fuel as [|fuel IH]; intros s1 Hlen; [lia|]. cbn [parseFuel].
  destruct s1 as [|b0 [|b1 [|b2 [|b3 rest]]]]; try (cbn [app]; by match goal with |- parse ?x = _ => destruct (parse x) end).
  cbn [length] in Hlen. cbv zeta. destruct (_ || _) eqn:Ebad.
  { cbn [app]. rewrite parse_step. cbv zeta. by rewrite Ebad. }
  destruct (N.ltb_spec (N.of_nat (length rest)) (readLengthPrefix b0 b1 b2 b3)) as [|Hle].
  { by match goal with |- parse ?x = _ => destruct (parse x) end. }
  set (len := readLengthPrefix b0 b1 b2 b3) in *.
  cbn [app]. rewrite parse_step. cbv zeta. fold len. rewrite Ebad.
  destruct (N.ltb_spec (N.of_nat (length (rest ++ s2))) len) as [Hlt|_].
  { rewrite length_app in Hlt. lia. }
  rewrite drop_app_le, take_app_le by lia.
  rewrite IH by (rewrite length_drop; lia).
  destruct (parseFuel fuel (drop (N.to_nat len) rest)) as [frames [tail|]]; [|done].
  by destruct (parse (tail ++ s2)).
Qed.

Lemma parse_nil : parse [] = ([], Some []).
Proof. done. Qed.

(** The tail [parse] leaves is parsed: feeding nothing more yields nothing more. *)
Lemma parse_tail s frames tail : parse s = (frames, Some tail) → parse tail = ([], Some tail).
Proof.
  unfold parse. remember (S (length s)) as fuel eqn:Hf.
  assert (length s < fuel)%nat as Hlen by lia. clear Hf. revert s frames Hlen.
  induction fuel as [|fuel IH]; intros s frames Hlen; [lia|]. cbn [parseFuel].
  destruct s as [|b0 [|b1 [|b2 [|b3 rest]]]]; try (by intros [= <- <-]).
  cbn [length] in Hlen. cbv zeta. destruct (_ || _) eqn:Ebad; [done|].
  destruct (N.ltb_spec (N.of_nat (length rest)) (readLengthPrefix b0 b1 b2 b3)) as [Hlt|Hle].
  { intros [= <- <-]. cbn [parseFuel]. rewrite Ebad.
    by rewrite (proj2 (N.ltb_lt _ _) Hlt). }
  destruct (parseFuel fuel _) as [fs t] eqn:E. intros [= <- ->].
  eapply IH; [|exact E]. rewrite length_drop. lia.
Qed.

(** The state of an assembler that has been fed the stream [s]. *)
Definition fed (s : list byte) : FrameAssembler :=
  match (parse s).2 with Some tail => mkAssembler tail false | None => mkAssembler [] true end.

Lemma feed_fed s d :
  let r := feed d (fed s) in
  (parse (s ++ d)).1 = (parse s).1 ++ r.1.2 ∧ r.2 = fed (s ++ d) ∧
  r.1.1 = bool_decide (is_Some (parse (s ++ d)).2).
Proof.
  unfold feed, fed. rewrite parse_app. destruct (parse s) as [frames [tail|]] eqn:Es.
  2: { cbn. by rewrite app_nil_r. }
  cbn [snd poisoned_ buf_]. rewrite feedLoop_parse by lia.
  rewrite drop_0. fold (parse (tail ++ d)). destruct (parse (tail ++ d)) as [fs [t|]] eqn:E.
  2: done.
  cbn. split_and!; [done| |done]. f_equal.
  assert (∃ pre, tail ++ d = pre ++ t) as [pre Hpre].
  { clear -E. unfold parse in E. revert E. generalize (S (length (tail ++ d))).
    intros fuel. revert fs. generalize (tail ++ d). induction fuel as [|fuel IH];
      intros s fs; cbn [parseFuel]; [intros [= <- <-]; by exists []|].
    destruct s as [|b0 [|b1 [|b2 [|b3 rest]]]]; try (intros [= <- <-]; by exists []).
    destruct (_ || _); [done|]. destruct (_ <? _); [intros [= <- <-]; by exists []|].
    destruct (parseFuel fuel _) as [fs' t'] eqn:E'. intros [= <- ->].
    destruct (IH _ _ E') as [pre Hpre].
    exists (b0 :: b1 :: b2 :: b3 :: take (N.to_nat (readLengthPrefix b0 b1 b2 b3)) rest ++ pre).
    cbn. rewrite <-app_assoc, <-Hpre, take_drop. done. }
  rewrite Hpre, length_app. rewrite drop_app_length'; [done|lia].
Qed.

Lemma feedAll_fed pieces s :
  (parse (s ++ concat pieces)).1 = (parse s).1 ++ (feedAll pieces (fed s)).1 ∧
  (feedAll pieces (fed s)).2 = fed (s ++ concat pieces).
Proof.
  revert s. induction pieces as [|d pieces IH]; intros s; cbn [feedAll concat].
  { by rewrite !app_nil_r. }
  destruct (feed_fed s d) as (Hf&Ha&_). destruct (feed d (fed s)) as [[ok frames] a].
  cbn [fst snd] in *. subst a. destruct (IH (s ++ d)) as [Hf' Ha'].
  destruct (feedAll pieces (fed (s ++ d))) as [frames' a']. cbn [fst snd] in *.
  rewrite !app_assoc. split; [|done]. by rewrite Hf', Hf, <-app_assoc.
Qed.

Lemma assembler_parse pieces :
  (feedAll pieces FrameAssembler_init).1 = (parse (concat pieces)).1 ∧
  (feedAll pieces FrameAssembler_init).2 = fed (concat pieces).
Proof.
  destruct (feedAll_fed pieces []) as [Hf Ha]. cbn [app] in *.
  change (fed []) with FrameAssembler_init in *. split; [by rewrite Hf|done].
Qed.

(** Reassembly does not depend on fragmentation.  However a stream is cut
    into reads, the frames delivered over the connection's life are those of the
    whole stream, in order; the assembler is poisoned exactly when the stream is
    malformed, and otherwise holds exactly its unfinished tail. *)
Theorem assembler_reads_the_stream pieces :
  let s := concat pieces in
  (feedAll pieces FrameAssembler_init).1 = (parse s).1 ∧
  match (parse s).2 with
  | Some tail => (feedAll pieces FrameAssembler_init).2 = mkAssembler tail false
  | None => (feedAll pieces FrameAssembler_init).2 = mkAssembler [] true ∧
      ∀ more, feedAll more (mkAssembler [] true) = ([], mkAssembler [] true)
  end.
Proof.
  intros s. destruct (assembler_parse pieces) as [Hf Ha]. split; [done|].
  unfold fed in Ha. fold s in Ha. destruct (parse s) as [frames [tail|]]; cbn in *; [done|].
  split; [done|]. induction more as [|d more IH]; [done|]. cbn. by rewrite IH.
Qed.

Lemma parse_frameBytes body s : body_ok body →
  parse (frameBytes body ++ s) =
    (let '(frames, tail) := parse s in (body :: frames, tail)).
Proof.
  intros [H0 Hmax]. unfold frameBytes.
  destruct (read_writeLengthPrefix (N.of_nat (length body))) as (b0&b1&b2&b3&->&Hlen).
  { assert (kMaxFrameSize < two32) by (by vm_compute). lia. }
  cbn [app]. rewrite parse_step, Hlen. cbv zeta.
  destruct (N.eqb_spec (N.of_nat (length body)) 0); [lia|].
  destruct (N.ltb_spec kMaxFrameSize (N.of_nat (length body))); [lia|]. cbn [orb].
  destruct (N.ltb_spec (N.of_nat (length (body ++ s))) (N.of_nat (length body))) as [Hlt|_].
  { rewrite length_app in Hlt. lia. }
  by rewrite Nat2N.id, drop_app_length, take_app_length.
Qed.

Lemma parse_frames bodies : Forall body_ok bodies →
  parse (concat (frameBytes <$> bodies)) = (bodies, Some []).
Proof.
  induction 1 as [|body bodies Hb _ IH]; [done|]. cbn [fmap list_fmap concat].
  by rewrite parse_frameBytes, IH.
Qed.

(** Framing round trip.  A sequence of legal bodies written back to back and
    read in any fragmentation comes out as the same sequence, with nothing left
    in the buffer. *)
Theorem frames_roundtrip bodies pieces :
  Forall body_ok bodies → concat pieces = concat (frameBytes <$> bodies) →
  feedAll pieces FrameAssembler_init = (bodies, FrameAssembler_init).
Proof.
  intros Hb Hs. destruct (assembler_parse pieces) as [Hf Ha]. rewrite Hs in *.
  unfold fed in Ha. rewrite (parse_frames _ Hb) in *. cbn in *.
  by destruct (feedAll pieces FrameAssembler_init); simplify_eq/=.
Qed.

Lemma frames_roundtrip_witness :
  feedAll [[x00; x00]; [x00; x02; xaa]; [xbb; x00; x00; x00; x01; xcc]] FrameAssembler_init =
    ([[xaa; xbb]; [xcc]], FrameAssembler_init).
Proof.
  apply (frames_roundtrip [[xaa; xbb]; [xcc]]); [|by vm_compute].
  repeat constructor; by vm_compute.
Defined.
