(* ===== verification/Transport.v ===== *)
(** * src/transport/transport.cpp: sending frames and the I/O loop

    [Transport::send] and [sendFrame] over an operating system that is a
    parameter (what [connectTo] and [::send] answer is up to it), and one turn
    of [ioLoop]: reads, frame dispatch, reply routes, closing, accepting. *)

From Stdlib Require Import NArith Strings.Byte Lia.
From S2P Require Import Prelude Wire Messages Codec Frame.

Local Open Scope N_scope.

Abbreviation Fd := N (only parsing).

(** ** Building a frame *)

(** [Transport::send] up to the call of [sendFrame]: the frame, or [None] when
    the message does not encode. *)
Definition frameFor (selfId to : NodeId) (m : Message) : option (list byte) :=
  let frame := replicate (kLengthPrefixSize + encodedSize m) x00 in
  let '(bodyLen, body) := encodeMessage selfId to m (drop kLengthPrefixSize frame) in
  if (bodyLen =? 0)%nat then None
  else Some (writeLengthPrefix (N.of_nat bodyLen mod two32) ++ body).

(** ** Writing *)

(** What [::send] answers: a byte count, [EINTR], or another error. *)
Inductive SendResult := SendOk (n : nat) | SendEintr | SendError.

Section Os.
(** The operating system: its state, connecting (the descriptor or [None]),
    sending, closing. *)
Context {W Addr : Type}.
Context (os_connect : Addr → W → option Fd * W).
Context (os_send : Fd → list byte → W → SendResult * W).
Context (os_close : Fd → W → W).

(** [None]: out of fuel - the system interrupted or accepted nothing for ever. *)
Fixpoint writeLoop (fuel : nat) (fd : Fd) (data : list byte) (sent : nat) (w : W) :
    option (bool * W) :=
  if (sent <? length data)%nat then
    match fuel with
    | O => None
    | S fuel =>
        match os_send fd (drop sent data) w with
        | (SendOk n, w) => writeLoop fuel fd data (sent + n) w
        | (SendEintr, w) => writeLoop fuel fd data sent w
        | (SendError, w) => Some (false, w)
        end
    end
  else Some (true, w).

Definition writeAll (fuel : nat) (fd : Fd) (data : list byte) (w : W) : option (bool * W) :=
  writeLoop fuel fd data 0 w.

Record Peer := mkPeer {
  peer_addr : Addr;
  peer_fd : option Fd;   (* cached connection; [None] is -1 *)
}.

Record Transport := mkTransport {
  selfId_ : NodeId;
  peers_ : gmap NodeId Peer;
  inboundRoutes_ : gmap NodeId Fd;
}.

Definition addPeer (id : NodeId) (addr : Addr) (t : Transport) : Transport :=
  mkTransport (selfId_ t) (<[id := mkPeer addr None]> (peers_ t)) (inboundRoutes_ t).

Definition set_peer (id : NodeId) (p : Peer) (t : Transport) : Transport :=
  mkTransport (selfId_ t) (<[id := p]> (peers_ t)) (inboundRoutes_ t).

(** Writes on the cached connection; a failure closes it. *)
Definition writeFrame (fuel : nat) (p : Peer) (fd : Fd) (data : list byte) (w : W) :
    option (bool * Peer * W) :=
  match writeAll fuel fd data w with
  | None => None
  | Some (true, w) => Some (true, p, w)
  | Some (false, w) => Some (false, mkPeer (peer_addr p) None, os_close fd w)
  end.

Definition sendFrame (fuel : nat) (to : NodeId) (data : list byte) (t : Transport) (w : W) :
    option (bool * Transport * W) :=
  match peers_ t !! to with
  | None =>
      match inboundRoutes_ t !! to with
      | None => Some (false, t, w)
      | Some fd => '(ok, w) ← writeAll fuel fd data w; Some (ok, t, w)
      end
  | Some peer =>
      let '(fd, w) := match peer_fd peer with
                      | Some fd => (Some fd, w)
                      | None => os_connect (peer_addr peer) w
                      end in
      let peer := mkPeer (peer_addr peer) fd in
      match fd with
      | None => Some (false, set_peer to peer t, w)
      | Some fd =>
          '(ok, peer, w) ← writeFrame fuel peer fd data w;
          if ok : bool then Some (true, set_peer to peer t, w)
          else
            let '(fd, w) := os_connect (peer_addr peer) w in
            let peer := mkPeer (peer_addr peer) fd in
            match fd with
            | None => Some (false, set_peer to peer t, w)
            | Some fd =>
                '(ok, peer, w) ← writeFrame fuel peer fd data w;
                Some (ok, set_peer to peer t, w)
            end
      end
  end.

Definition send (fuel : nat) (to : NodeId) (m : Message) (t : Transport) (w : W) :
    option (bool * Transport * W) :=
  match frameFor (selfId_ t) to m with
  | None => Some (false, t, w)
  | Some frame => sendFrame fuel to frame t w
  end.

End Os.

(** ** The I/O loop *)

Record Conn := mkConn {
  conn_fd : Fd;
  conn_assembler : FrameAssembler;
}.

(** Connections, reply routes, and the state the handlers work on. *)
Record IoState {X : Type} := mkIo {
  io_conns : list Conn;
  io_routes : gmap NodeId Fd;
  io_app : X;
}.
#[global] Arguments IoState : clear implicits.
#[global] Arguments mkIo {X}.

(** What [poll] and [read] say about one connection. *)
Inductive ReadResult :=
| ReadIdle                     (* no events *)
| ReadHup                      (* POLLERR, POLLHUP or POLLNVAL *)
| ReadData (data : list byte)
| ReadEintr
| ReadEof.                     (* end of stream, or another error *)

Section Io.
Context {X : Type}.
(** The consumer of decoded messages, and the consumer of raw frames, which
    answers whether the frame was good and who sent it (0: unknown). *)
Context (handler_ : option (Envelope → Message → X → X)).
Context (rawHandler_ : option (list byte → X → bool * NodeId * X)).

(** The lambda given to [feed]; the last component is [bad]. *)
Definition onFrame (connFd : Fd) (st : gmap NodeId Fd * X * bool) (body : list byte) :
    gmap NodeId Fd * X * bool :=
  let '(routes, app, bad) := st in
  match rawHandler_ with
  | Some raw =>
      let '(ok, from, app) := raw body app in
      if negb ok then (routes, app, true)
      else if negb (from =? 0) then (<[from := connFd]> routes, app, bad)
      else (routes, app, bad)
  | None =>
      match decodeMessage body with
      | None => (routes, app, true)
      | Some d =>
          (<[env_from (dm_envelope d) := connFd]> routes,
           match handler_ with Some f => f (dm_envelope d) (dm_message d) app | None => app end, bad)
      end
  end.

Definition closeConn (i : nat) (s : IoState X) : IoState X :=
  match io_conns s !! i with
  | None => s
  | Some c =>
      mkIo (delete i (io_conns s))
        (filter (λ p : NodeId * Fd, p.2 ≠ conn_fd c) (io_routes s)) (io_app s)
  end.

(** One turn of the loop over polled connections. *)
Definition serveConn (i : nat) (r : ReadResult) (s : IoState X) : IoState X :=
  match r with
  | ReadIdle | ReadEintr => s
  | ReadHup | ReadEof => closeConn i s
  | ReadData data =>
      match io_conns s !! i with
      | None => s
      | Some c =>
          let '(fed, frames, a) := feed data (conn_assembler c) in
          let '(routes, app, bad) :=
            foldl (onFrame (conn_fd c)) (io_routes s, io_app s, false) frames in
          let s := mkIo (<[i := mkConn (conn_fd c) a]> (io_conns s)) routes app in
          if negb fed || bad then closeConn i s else s
      end
  end.

(** [for (i = polled; i-- > 0;)]: the last [k] answers, highest index first. *)
Fixpoint serveDown (k : nat) (results : nat → ReadResult) (s : IoState X) : IoState X :=
  match k with
  | O => s
  | S i => serveDown i results (serveConn i (results i) s)
  end.

(** One iteration of the [while]: serve, then accept. *)
Definition ioTurn (results : nat → ReadResult) (accepted : option Fd) (s : IoState X) : IoState X :=
  let s := serveDown (length (io_conns s)) results s in
  match accepted with
  | None => s
  | Some fd =>
      mkIo (io_conns s ++ [mkConn fd FrameAssembler_init]) (io_routes s) (io_app s)
  end.

End Io.

(** ** Frames on the wire *)

Lemma frameFor_bytes selfId to m : codec_ok selfId to m →
  frameFor selfId to m = Some (frameBytes (enc_message selfId to m)) ∧
  body_ok (enc_message selfId to m).
Proof.
  intros (Hf & Ht & Hm & Hs). pose proof (length_enc_message selfId to m) as Hlen.
  assert (body_ok (enc_message selfId to m)) as Hb.
  { unfold body_ok, kMaxFrameSize. rewrite Hlen. unfold encodedSize, kEnvelopeSize. lia. }
  split; [|done]. unfold frameFor.
  rewrite drop_replicate, Nat.add_comm, Nat.add_sub.
  destruct (encode_fits selfId to m (replicate (encodedSize m) x00) Hs) as (out & -> & Hl & Htk).
  { by rewrite length_replicate. }
  destruct (Nat.eqb_spec (encodedSize m) 0) as [E|]; [unfold encodedSize, kEnvelopeSize in E; lia|].
  rewrite length_replicate in Hl. rewrite take_ge in Htk by lia. subst out.
  unfold frameBytes. rewrite Hlen, N.mod_small; [done|].
  assert (kMaxFrameSize < two32) by (by vm_compute). destruct Hb as [_ Hb]. rewrite Hlen in Hb. lia.
Qed.

(** The wire end to end.  A sequence of well-formed messages, framed by
    [Transport::send] and read from the socket in any fragmentation, is
    reassembled and decoded into the same messages, in order, each with the
    envelope the sender put on it. *)
Theorem wire_roundtrip selfId to ms frames pieces :
  Forall (codec_ok selfId to) ms →
  mapM (frameFor selfId to) ms = Some frames →
  concat pieces = concat frames →
  decodeMessage <$> (feedAll pieces FrameAssembler_init).1 =
    (λ m, Some (mkDecoded (envelope_for selfId to m) m)) <$> ms.
Proof.
  intros Hok Hframes Hp.
  assert (frames = frameBytes <$> (enc_message selfId to <$> ms) ∧
    Forall body_ok (enc_message selfId to <$> ms)) as [-> Hb].
  { clear Hp. revert frames Hframes. induction Hok as [|m ms Hm _ IH]; intros frames.
    - by intros [= <-].
    - destruct (frameFor_bytes _ _ _ Hm) as [Hf Hb]. cbn. rewrite Hf. cbn.
      destruct (mapM _ ms) as [fs|]; [|done]. cbn. intros [= <-].
      destruct (IH fs eq_refl) as [-> ?]. split; [done|by constructor]. }
  rewrite (proj1 (assembler_parse pieces)), Hp, parse_frames by done. cbn [fst].
  rewrite <-list_fmap_compose. apply list_fmap_ext. intros i m Hm. cbn.
  apply (Forall_lookup_1 _ _ _ _ Hok) in Hm as (Hf & Ht & Hmo & Hs).
  unfold decodeMessage.
  by destruct (decodeInto_forward selfId to m emptyDecoded (mkPool [] []) Hf Ht Hmo Hs) as [p ->].
Qed.

Definition wire_sample : list Message :=
  [MRequestVoteReply (mkRequestVoteReply 3 true); MClientRequest (mkClientRequest 9 1 [x2a])].

Lemma wire_roundtrip_witness :
  decodeMessage <$> (feedAll [take 30 (concat (default [] (mapM (frameFor 1 2) wire_sample)));
    drop 30 (concat (default [] (mapM (frameFor 1 2) wire_sample)))] FrameAssembler_init).1 =
  (λ m, Some (mkDecoded (envelope_for 1 2 m) m)) <$> wire_sample.
Proof.
  apply (wire_roundtrip 1 2 wire_sample (default [] (mapM (frameFor 1 2) wire_sample))).
  - repeat constructor; by vm_compute.
  - by vm_compute.
  - cbn [concat]. by rewrite app_nil_r, take_drop.
Defined.

(** ** [writeAll] *)

Section WriteAll.
Context {W : Type} (os_send : Fd → list byte → W → SendResult * W).

(** The bytes the system has accepted on a descriptor, and how often it may
    still interrupt. *)
Context (stream : W → Fd → list byte) (interrupts : W → nat).

(** What POSIX says of [send] on a blocking stream socket with a non-empty
    buffer: it takes a non-empty prefix, or is interrupted, or fails. *)
Definition posix_send : Prop := ∀ fd d w, d ≠ [] →
  match os_send fd d w with
  | (SendOk n, w') => (1 ≤ n)%nat ∧ (n ≤ length d)%nat ∧ stream w' fd = stream w fd ++ take n d ∧
      (interrupts w' ≤ interrupts w)%nat
  | (SendEintr, w') => stream w' fd = stream w fd ∧ (interrupts w' < interrupts w)%nat
  | (SendError, w') => stream w' fd = stream w fd
  end.

Context (Hposix : posix_send).

Lemma writeLoop_spec fuel fd data : ∀ sent w,
  (sent ≤ length data)%nat → (length data - sent + interrupts w ≤ fuel)%nat →
  ∃ ok w' k, writeLoop os_send fuel fd data sent w = Some (ok, w') ∧
    (k ≤ length data - sent)%nat ∧ stream w' fd = stream w fd ++ take k (drop sent data) ∧
    (ok = true → k = length data - sent)%nat.
Proof.
  induction fuel as [|fuel IH]; intros sent w Hs Hf; cbn [writeLoop];
    destruct (Nat.ltb_spec sent (length data)) as [Hlt|]; try lia;
    try (exists true, w, 0%nat; rewrite take_0, app_nil_r; split_and!; [done|lia|done|lia]).
  pose proof (Hposix fd (drop sent data) w) as Hp.
  assert (drop sent data ≠ []) as Hne.
  { intros E. apply (f_equal length) in E. rewrite length_drop in E. cbn in E. lia. }
  specialize (Hp Hne). destruct (os_send fd (drop sent data) w) as [[n| |] w1].
  - destruct Hp as (H1&H2&H3&H4). rewrite length_drop in H2.
    destruct (IH (sent + n)%nat w1) as (ok&w'&k&Hr&Hk&Hst&Hok); [lia|lia|].
    exists ok, w', (n + k)%nat. split_and!; [done|lia| |intros E; specialize (Hok E); lia].
    rewrite Hst, H3, <-app_assoc. f_equal. rewrite <-drop_drop.
    rewrite <-(take_drop n (drop sent data)) at 3.
    rewrite take_app_add'; [done|rewrite length_take, length_drop; lia].
  - destruct Hp as (H3&H4). destruct (IH sent w1) as (ok&w'&k&Hr&Hk&Hst&Hok); [lia|lia|].
    exists ok, w', k. by rewrite Hst, H3.
  - exists false, w1, 0%nat. rewrite take_0, app_nil_r. split_and!; [done|lia|done|done].
Qed.

(** [writeAll] terminates and never tears the stream: under what POSIX says
    of [send], it returns within as many calls as there are bytes and
    interruptions; the bytes accepted are a prefix of the buffer, in order and
    without gaps, and [true] means all of it. *)
Theorem writeAll_transmits fuel fd data w : (length data + interrupts w ≤ fuel)%nat →
  ∃ ok w' k, writeAll os_send fuel fd data w = Some (ok, w') ∧
    stream w' fd = stream w fd ++ take k data ∧ (ok = true → take k data = data).
Proof.
  intros Hf. destruct (writeLoop_spec fuel fd data 0 w) as (ok&w'&k&Hr&Hk&Hst&Hok); [lia|lia|].
  exists ok, w', k. split_and!; [done|done|]. intros ->. rewrite (Hok eq_refl).
  by rewrite Nat.sub_0_r, take_ge.
Qed.

End WriteAll.

(** A socket that takes two bytes at a time and is interrupted first. *)
Definition slow_socket (fd : Fd) (d : list byte) (w : nat * list byte) :
    SendResult * (nat * list byte) :=
  match w.1 with
  | S k => (SendEintr, (k, w.2))
  | O => (SendOk (length (take 2 d)), (O, w.2 ++ take 2 d))
  end.

Lemma slow_socket_posix : posix_send slow_socket (λ w _, w.2) (λ w, w.1).
Proof.
  intros fd d [[|k] s] Hd; cbn.
  - destruct d as [|b [|b' d]]; [done| |]; cbn; rewrite ?take_0; cbn; repeat split; lia.
  - split; [done|lia].
Qed.

Lemma writeAll_transmits_witness :
  ∃ ok w' k, writeAll slow_socket 6 7 [x01; x02; x03] (1%nat, []) = Some (ok, w') ∧
    w'.2 = [] ++ take k [x01; x02; x03] ∧ (ok = true → take k [x01; x02; x03] = [x01; x02; x03]).
Proof.
  apply (writeAll_transmits slow_socket (λ w _, w.2) (λ w, w.1) slow_socket_posix 6 7
    [x01; x02; x03] (1%nat, [])). cbn. lia.
Defined.

(** ** The I/O loop *)

Section IoLoop.
Context {X : Type}.
Context (handler_ : option (Envelope → Message → X → X)).
Context (rawHandler_ : option (list byte → X → bool * NodeId * X)).

Local Abbreviation onFrame := (onFrame handler_ rawHandler_).
Local Abbreviation serveConn := (serveConn handler_ rawHandler_).
Local Abbreviation serveDown := (serveDown handler_ rawHandler_).
Local Abbreviation ioTurn := (ioTurn handler_ rawHandler_).

Definition routes_open (s : IoState X) : Prop :=
  ∀ id fd, io_routes s !! id = Some fd → fd ∈ conn_fd <$> io_conns s.

Lemma onFrame_routes fd frames : ∀ routes app bad id fd',
  (foldl (onFrame fd) (routes, app, bad) frames).1.1 !! id = Some fd' →
  fd' = fd ∨ routes !! id = Some fd'.
Proof.
  induction frames as [|b frames IH]; intros routes app bad id fd' Hr; [by right|].
  cbn [foldl] in Hr.
  destruct (onFrame fd (routes, app, bad) b) as [[routes1 app1] bad1] eqn:E.
  apply IH in Hr as [?|Hr]; [by left|]. unfold Transport.onFrame in E.
  assert (∀ from, routes1 = <[from := fd]> routes → fd' = fd ∨ routes !! id = Some fd') as Hins.
  { intros from ->. destruct (decide (from = id)) as [->|].
    - rewrite lookup_insert_eq in Hr. left. by simplify_eq.
    - rewrite lookup_insert_ne in Hr by done. by right. }
  destruct rawHandler_ as [raw|].
  - destruct (raw b app) as [[ok from] app']. destruct (negb ok); [simplify_eq; by right|].
    destruct (negb _); simplify_eq; [by eapply Hins|by right].
  - destruct (decodeMessage b) as [d|]; simplify_eq; [by eapply Hins|by right].
Qed.

Lemma closeConn_open i (s : IoState X) : routes_open s → routes_open (closeConn i s).
Proof.
  intros H. unfold closeConn. destruct (io_conns s !! i) as [c|] eqn:Hc; [|done].
  intros id fd Hr. cbn in *. apply map_lookup_filter_Some in Hr as [Hr Hne]. cbn in Hne.
  apply H, list_elem_of_fmap in Hr as (c'&->&Hin). apply list_elem_of_fmap. exists c'. split; [done|].
  apply list_elem_of_lookup in Hin as [j Hj]. apply list_elem_of_lookup.
  assert (i ≠ j) by congruence. destruct (decide (j < i)%nat).
  - exists j. by rewrite list_lookup_delete_lt.
  - exists (j - 1)%nat. rewrite list_lookup_delete_ge by lia. by replace (S (j - 1)) with j by lia.
Qed.

Lemma serveConn_open i r s : routes_open s → routes_open (serveConn i r s).
Proof.
  intros H. destruct r as [| |data| |]; cbn [Transport.serveConn]; try done; try by apply closeConn_open.
  destruct (io_conns s !! i) as [c|] eqn:Hc; [|done].
  destruct (feed data (conn_assembler c)) as [[fed frames] a].
  pose proof (onFrame_routes (conn_fd c) frames (io_routes s) (io_app s) false) as Hr.
  destruct (foldl _ _ frames) as [[routes app] bad]. cbn [fst] in Hr.
  assert (routes_open (mkIo (<[i := mkConn (conn_fd c) a]> (io_conns s)) routes app)) as Ho.
  { intros id fd Hid. cbn. apply Hr in Hid.
    assert (conn_fd <$> <[i := mkConn (conn_fd c) a]> (io_conns s) = conn_fd <$> io_conns s) as ->.
    { rewrite list_fmap_insert, list_insert_id; [done|]. by rewrite list_lookup_fmap, Hc. }
    destruct Hid as [->|Hid]; [|by eapply H].
    apply list_elem_of_fmap. exists c. split; [done|]. by eapply list_elem_of_lookup_2. }
  destruct (_ || _); [by apply closeConn_open|done].
Qed.

(** Replies never go to a stranger.  After any turn of the I/O loop every
    reply route leads to a connection that is still open: a route is dropped with
    the connection it points to, so a later connection that the system gives the
    same descriptor number cannot inherit it. *)
Theorem ioTurn_routes_open results accepted s :
  routes_open s → routes_open (ioTurn results accepted s).
Proof.
  intros H. unfold Transport.ioTurn.
  assert (∀ k s, routes_open s → routes_open (serveDown k results s)) as Hdown.
  { intros k. induction k as [|k IH]; intros s' Hs; cbn; [done|].
    apply IH. by apply serveConn_open. }
  specialize (Hdown (length (io_conns s)) s H). destruct accepted as [fd|]; [|done].
  intros id fd' Hr. cbn in *. rewrite fmap_app. apply elem_of_app. left. by eapply Hdown.
Qed.

(** What one connection becomes, on its own. *)
Definition servedConn (c : Conn) (r : ReadResult) : option Conn :=
  match r with
  | ReadIdle | ReadEintr => Some c
  | ReadHup | ReadEof => None
  | ReadData data =>
      let '(fed, frames, a) := feed data (conn_assembler c) in
      if fed && forallb (λ b, bool_decide (is_Some (decodeMessage b))) frames
      then Some (mkConn (conn_fd c) a) else None
  end.

Context (no_raw : rawHandler_ = None).

Lemma onFrame_bad fd frames : ∀ routes app bad,
  (foldl (onFrame fd) (routes, app, bad) frames).2 =
    bad || negb (forallb (λ b, bool_decide (is_Some (decodeMessage b))) frames).
Proof.
  induction frames as [|b frames IH]; intros routes app bad; cbn [foldl forallb].
  - by rewrite orb_false_r.
  - destruct (onFrame fd (routes, app, bad) b) as [[routes1 app1] bad1] eqn:E. rewrite IH.
    unfold Transport.onFrame in E. rewrite no_raw in E.
    destruct (decodeMessage b) as [d|]; injection E as <- <- <-; [done|].
    by rewrite bool_decide_false, orb_true_r by (intros [? ?]; done).
Qed.

Lemma serveConn_conns i r (s : IoState X) c : io_conns s !! i = Some c →
  io_conns (serveConn i r s) =
    take i (io_conns s) ++ option_list (servedConn c r) ++ drop (S i) (io_conns s).
Proof.
  intros Hc. assert (io_conns (closeConn i s) = take i (io_conns s) ++ drop (S i) (io_conns s)) as Hclose.
  { unfold closeConn. rewrite Hc. cbn. by apply delete_take_drop. }
  destruct r as [| |data| |]; cbn [Transport.serveConn servedConn option_list app]; try done;
    try (symmetry; by apply take_drop_middle).
  rewrite Hc. destruct (feed data (conn_assembler c)) as [[fed frames] a].
  pose proof (onFrame_bad (conn_fd c) frames (io_routes s) (io_app s) false) as Hb.
  destruct (foldl _ _ frames) as [[routes st] bad]. cbn [snd orb] in Hb. subst bad.
  pose proof (lookup_lt_Some _ _ _ Hc) as Hlt.
  assert (∀ x : Conn, take i (<[i := x]> (io_conns s)) = take i (io_conns s) ∧
    drop (S i) (<[i := x]> (io_conns s)) = drop (S i) (io_conns s)) as Hi.
  { intros x. rewrite take_insert_ge, drop_insert_lt by lia. done. }
  destruct (Hi (mkConn (conn_fd c) a)) as [Ht Hd].
  replace (negb fed || negb (forallb (λ b, bool_decide (is_Some (decodeMessage b))) frames))
    with (negb (fed && forallb (λ b, bool_decide (is_Some (decodeMessage b))) frames))
    by (by destruct fed, (forallb _ _)).
  destruct (fed && forallb _ frames); cbn [negb option_list app].
  - cbn [io_conns]. by apply insert_take_drop.
  - unfold closeConn. cbn [io_conns]. rewrite list_lookup_insert_eq by done. cbn.
    by rewrite delete_take_drop, Ht, Hd.
Qed.

(** The backward walk lines up (on the [handler_] path).  Although connections are closed, and so
    erased, while the poll results are walked by index, every result is applied
    to the connection it was polled for: the turn leaves exactly the connections
    that survive on their own, in order, then the accepted one. *)
Theorem ioTurn_conns results accepted s :
  io_conns (ioTurn results accepted s) =
    concat (imap (λ i c, option_list (servedConn c (results i))) (io_conns s)) ++
    option_list ((λ fd, mkConn fd FrameAssembler_init) <$> accepted).
Proof.
  unfold Transport.ioTurn.
  assert (∀ k s, (k ≤ length (io_conns s))%nat →
    io_conns (serveDown k results s) =
      concat (imap (λ i c, option_list (servedConn c (results i))) (take k (io_conns s))) ++
      drop k (io_conns s)) as Hdown.
  { intros k. induction k as [|k IH]; intros s' Hk; [done|]. cbn [Transport.serveDown].
    destruct (lookup_lt_is_Some_2 (io_conns s') k) as [c Hc]; [lia|].
    pose proof (serveConn_conns k (results k) s' c Hc) as Hs.
    rewrite IH; rewrite Hs.
    - rewrite take_app_length', drop_app_length' by (rewrite length_take; lia).
      rewrite (take_S_r _ _ _ Hc), imap_app, concat_app. cbn.
      rewrite length_take, Nat.min_l, Nat.add_0_r, app_nil_r, <-app_assoc by lia. done.
    - rewrite !length_app, length_take. lia. }
  pose proof (Hdown (length (io_conns s)) s ltac:(lia)) as H.
  rewrite drop_ge, app_nil_r, take_ge in H by done.
  destruct accepted as [fd|]; cbn; by rewrite H, ?app_nil_r.
Qed.

End IoLoop.

Lemma ioTurn_routes_open_witness :
  routes_open (ioTurn None (Some (λ _ app, (true, 9, app))) (λ _, ReadHup) (Some 5)
    (mkIo [mkConn 4 FrameAssembler_init] {[ 7 := 4 ]} ())).
Proof.
  apply (ioTurn_routes_open None (Some (λ _ app, (true, 9, app))) (λ _, ReadHup) (Some 5)
    (mkIo [mkConn 4 FrameAssembler_init] {[ 7 := 4 ]} ())).
  intros id fd Hr. cbn in Hr. apply lookup_singleton_Some in Hr as [_ <-]. cbn. set_solver.
Defined.

(** ** [sendFrame] *)

Section SendFrame.
Context {W Addr : Type}.
Context (os_connect : Addr → W → option Fd * W).
Context (os_send : Fd → list byte → W → SendResult * W).
Context (os_close : Fd → W → W).

Lemma writeFrame_spec fuel (p : @Peer Addr) fd data w ok p' w' :
  peer_fd p = Some fd →
  writeFrame os_send os_close fuel p fd data w = Some (ok, p', w') →
  peer_addr p' = peer_addr p ∧
  if ok : bool then peer_fd p' = Some fd ∧ writeAll os_send fuel fd data w = Some (true, w')
  else peer_fd p' = None.
Proof.
  intros Hfd. unfold writeFrame. destruct (writeAll _ _ _ _ _) as [[[] w1]|] eqn:E;
    intros; by simplify_eq.
Qed.

(** A connection that took only part of a frame is never used again.  When
    [sendFrame] to a configured peer reports failure, no connection to the peer
    is cached, so the next send dials afresh; when it reports success, the cached
    connection is one that accepted the whole frame. *)
Theorem sendFrame_peer fuel to data (t t' : @Transport Addr) w w' ok p :
  peers_ t !! to = Some p →
  sendFrame os_connect os_send os_close fuel to data t w = Some (ok, t', w') →
  ∃ p', peers_ t' = <[to := p']> (peers_ t) ∧ peer_addr p' = peer_addr p ∧
    if ok : bool
    then ∃ fd w0, peer_fd p' = Some fd ∧ writeAll os_send fuel fd data w0 = Some (true, w')
    else peer_fd p' = None.
Proof.
  intros Hp. unfold sendFrame. rewrite Hp.
  destruct (match peer_fd p with Some fd => (Some fd, w) | None => os_connect (peer_addr p) w end)
    as [[fd|] w1]; cbn zeta.
  2: { intros [= <- <- <-]. by eexists. }
  destruct (writeFrame _ _ _ _ fd _ _) as [[[ok1 p1] w2]|] eqn:E1; [|done]. cbn.
  apply (writeFrame_spec fuel (mkPeer (peer_addr p) (Some fd))) in E1 as [Ha1 Hw1]; [|done].
  cbn in Ha1. destruct ok1.
  { intros [= <- <- <-]. exists p1. split_and!; [done|done|]. destruct Hw1. by exists fd, w1. }
  destruct (os_connect (peer_addr p1) w2) as [[fd2|] w3]; cbn zeta.
  2: { intros [= <- <- <-]. by eexists. }
  destruct (writeFrame _ _ _ _ fd2 _ _) as [[[ok2 p2] w4]|] eqn:E2; [|done]. cbn.
  apply (writeFrame_spec fuel (mkPeer (peer_addr p1) (Some fd2))) in E2 as [Ha2 Hw2]; [|done].
  cbn in Ha2. intros [= <- <- <-]. exists p2. split_and!; [done|congruence|].
  destruct ok2; [|done]. destruct Hw2. by exists fd2, w3.
Qed.

End SendFrame.

(** A system where connecting gives descriptor 9 and sending always works. *)
Definition open_connect (a : N) (w : nat * list byte) : option Fd * (nat * list byte) :=
  (Some 9, w).

Lemma sendFrame_peer_witness :
  ∃ p', peers_ (mkTransport 1 {[ 2 := mkPeer 0 (Some 9) ]} ∅) =
      <[2 := p']> (peers_ (mkTransport 1 {[ 2 := mkPeer 0 None ]} ∅)) ∧ peer_addr p' = 0 ∧
    ∃ fd w0, peer_fd p' = Some fd ∧
      writeAll slow_socket 3 fd [x01; x02] w0 = Some (true, (0%nat, [x01; x02])).
Proof.
  apply (sendFrame_peer open_connect slow_socket (λ _ w, w) 3 2 [x01; x02]
    (mkTransport 1 {[ 2 := mkPeer 0 None ]} ∅) (mkTransport 1 {[ 2 := mkPeer 0 (Some 9) ]} ∅)
    (0%nat, []) (0%nat, [x01; x02]) true (mkPeer 0 None)); by vm_compute.
Defined.
