(* ===== verification/Backfill.v ===== *)
(** * A follower too far behind is never repaired

    [sendAppendEntries] puts everything from [nextIndex_[peer]] into one message,
    and the codec refuses a payload over [kMaxPayloadSize].  When the entries a
    follower misses do not fit in one frame, the messages that would extend its
    log are never framed, and those that are framed start beyond its log. *)

From Stdlib Require Import NArith Strings.Byte Lia.
From S2P Require Import Prelude Messages Codec Frame Transport Log RaftCore RaftNode Cluster.

Local Open Scope N_scope.

Definition oversized (m : Message) : Prop := kMaxPayloadSize < N.of_nat (payloadSize m).

(** The payload of an AppendEntries that carries [es]. *)
Definition entriesPayload (es : list LogEntry) : N :=
  N.of_nat (payloadSize (MAppendEntries (mkAppendEntries 0 0 0 0 0 es))).

Lemma payload_entries ae : N.of_nat (payloadSize (MAppendEntries ae)) = entriesPayload (ae_entries ae).
Proof. done. Qed.

Lemma payload_acc (es : list LogEntry) : ∀ n,
  foldl (λ n e, n + (8 + 4 + length (e_command e)))%nat n es =
  (n + foldl (λ n e, n + (8 + 4 + length (e_command e)))%nat 0%nat es)%nat.
Proof.
  induction es as [|e es IH]; intros n; cbn [foldl]; [lia|]. rewrite IH, (IH (0 + _)%nat). lia.
Qed.

Lemma payload_app_sum es1 es2 :
  entriesPayload (es1 ++ es2) + 38 = entriesPayload es1 + entriesPayload es2.
Proof.
  unfold entriesPayload. cbn [payloadSize ae_entries]. rewrite foldl_app, (payload_acc es2 (foldl _ _ es1)).
  rewrite (payload_acc es1), (payload_acc es2 (8 + 2 + 8 + 8 + 8 + 4)%nat). lia.
Qed.

Lemma payload_header es : 38 ≤ entriesPayload es.
Proof. unfold entriesPayload. cbn [payloadSize ae_entries]. rewrite payload_acc. lia. Qed.

Lemma payload_drop es i k : (i ≤ k)%nat → entriesPayload (drop k es) ≤ entriesPayload (drop i es).
Proof.
  intros Hik. rewrite <-(take_drop (k - i) (drop i es)), drop_drop. replace (i + (k - i))%nat with k by lia.
  pose proof (payload_app_sum (take (k - i) (drop i es)) (drop k es)) as E.
  pose proof (payload_header (take (k - i) (drop i es))). lia.
Qed.

(** Too long for the codec: no frame, and [Transport::send] touches no socket. *)
Lemma oversized_unframed selfId to m : oversized m → frameFor selfId to m = None.
Proof.
  unfold oversized. intros H. unfold frameFor, encodeMessage.
  by destruct (N.ltb_spec kMaxPayloadSize (N.of_nat (payloadSize m))); [|lia].
Qed.

Section Backfill.
Context {P L SM R K : Type}.
Context `{!PersistentState P} `{!RaftLog L} `{!StateMachine SM} `{!Rng R} `{!ApplySink K}.
Context `{!PersistentStateLaws P} `{!RaftLogLaws L}.

Local Abbreviation Core := (@RaftCore P L SM R K).
Local Abbreviation entries c := (log_entries (log_ c)).

(** More than one frame's worth of entries after index [k]. *)
Definition overflows (k : LogIndex) (c : Core) : Prop :=
  kMaxPayloadSize < entriesPayload (drop (N.to_nat k) (entries c)).

(** A message to a peer is of no help to a log that ends at [k]. *)
Definition unhelpful (k : LogIndex) (e : Effect) : Prop :=
  match e with
  | ESend _ (MAppendEntries ae) => k < ae_prevLogIndex ae ∨ oversized (MAppendEntries ae)
  | _ => True
  end.

Definition stuck (k : LogIndex) (c0 c : Core) : Prop :=
  role_ c = Leader ∧ overflows k c ∧ currentTerm c = currentTerm c0 ∧
  ∃ fx, fx_ c = fx_ c0 ++ fx ∧ Forall (unhelpful k) fx.

Section Leader.
Context (k : LogIndex) (Hk : k + 1 < two64) (c0 : Core).

Lemma stuck_frame c c' : role_ c' = role_ c → log_ c' = log_ c → persist_ c' = persist_ c → fx_ c' = fx_ c →
  stuck k c0 c → stuck k c0 c'.
Proof. unfold stuck, overflows, currentTerm. by intros -> -> -> ->. Qed.

Lemma stuck_deadline t c : stuck k c0 c → stuck k c0 (set_heartbeatDeadline t c).
Proof. done. Qed.

Lemma stuck_emit e c : unhelpful k e → stuck k c0 c → stuck k c0 (emit e c).
Proof.
  intros He (Hr&Ho&Ht&fx&Hfx&Hu). split_and!; [done..|]. exists (fx ++ [e]). cbn. rewrite Hfx, app_assoc.
  split; [done|]. apply Forall_app. split; [done|by constructor].
Qed.

Lemma stuck_append es c : stuck k c0 c → stuck k c0 (appendLog es c).
Proof.
  intros H. apply stuck_emit; [done|]. destruct H as (Hr&Ho&Ht&Hfx). split_and!; [done| |done..].
  unfold overflows in *. cbn. rewrite append_law. unfold InMemoryLog_append.
  eapply N.lt_le_trans; [exact Ho|]. rewrite drop_app.
  match goal with |- _ ≤ entriesPayload (?a ++ ?b) =>
    pose proof (payload_app_sum a b); pose proof (payload_header b) end. lia.
Qed.

Lemma stuck_applyLoop n c : stuck k c0 c → stuck k c0 (applyLoop n c).
Proof.
  revert c. induction n as [|n IH]; intros c Hc; cbn [applyLoop]; [done|].
  destruct (_ <? _); [|done]. destruct (log_entryAt _ _) as [e|]; [|by apply stuck_emit].
  destruct (applySink_ c) as [s|].
  - destruct (sink_offer _ _ _) as [acc s']. destruct (negb acc); [by apply (stuck_frame c)|].
    apply IH, stuck_emit; [done|]. by apply (stuck_frame c).
  - destruct (sm_apply _ _) as [r sm]. apply IH, stuck_emit; [done|]. by apply (stuck_frame c).
Qed.

Lemma stuck_advance c : stuck k c0 c → stuck k c0 (advanceCommit c).
Proof.
  intros H. unfold advanceCommit. generalize (N.to_nat (log_lastIndex (log_ c) - commitIndex_ c)).
  generalize (log_lastIndex (log_ c)). intros i n. revert i.
  induction n as [|n IH]; intros i; cbn [advanceCommitLoop]; [done|].
  destruct (_ <? _); [|done]. destruct (negb _); [done|]. destruct (_ <=? _)%nat; [|apply IH].
  by apply stuck_applyLoop, (stuck_frame c).
Qed.

(** Whatever [nextIndex_] says, the message starts beyond [k] or is too long. *)
Lemma fresh_unhelpful p c : overflows k c → unhelpful k (ESend p (MAppendEntries (freshAppendEntries p c))).
Proof.
  unfold overflows, oversized. intros Ho. unfold unhelpful, oversized, freshAppendEntries. cbv zeta.
  rewrite payload_entries. cbn [ae_entries ae_prevLogIndex]. rewrite entriesSpan_law, entriesSpan_drop.
  generalize ((map_index (nextIndex_ c) p).1) as next. intros next.
  destruct (N.lt_ge_cases k (dec64 next)) as [|Hle]; [by left|right].
  eapply N.lt_le_trans; [exact Ho|]. apply payload_drop. unfold dec64 in Hle.
  destruct (N.eqb_spec next 0); lia.
Qed.

Lemma stuck_send p c : stuck k c0 c → stuck k c0 (sendAppendEntries p c).
Proof.
  intros H. destruct (sendAppendEntries_fresh p c) as [pool ->].
  apply stuck_emit; [apply fresh_unhelpful, H|]. by apply (stuck_frame c).
Qed.

Lemma stuck_peers c : stuck k c0 c → stuck k c0 (sendToPeers c).
Proof.
  unfold sendToPeers. generalize (peers_ c). intros ps. revert c.
  induction ps as [|p ps IH]; intros c Hc; cbn; [done|]. by apply IH, stuck_send.
Qed.

Lemma stuck_reply from r c : stuck k c0 c → stuck k c0 (onAppendEntriesReply from r c).
Proof.
  intros H. unfold onAppendEntriesReply. destruct (negb _); [done|]. destruct (negb _); [done|].
  destruct (aer_success r).
  - destruct (_ <? _); [by apply stuck_emit|]. destruct (map_index _ _) as [m mi]. cbv zeta.
    destruct (_ <? _); [|by apply (stuck_frame c)].
    destruct (map_index _ _) as [ni nm]. match goal with |- stuck k c0 (if _ then _ else ?x) => assert (stuck k c0 x) as Hs end.
    { by eapply stuck_frame; [..|apply stuck_advance]. }
    destruct (_ <=? _); [by apply stuck_send|done].
  - cbv zeta. destruct (map_index _ _) as [cur nm]. destruct (map_index _ _) as [m mm].
    by apply stuck_send, (stuck_frame c).
Qed.

End Leader.

(** A call of the leader during its term: no message of a higher term. *)
Definition in_term (s : @Cluster P L SM R K) (op : NodeOp) (c : Core) : Prop :=
  match op with
  | OpDeliver i => ∀ p t, net s !! i = Some p → termOf (pk_msg p) = Some t → t ≤ currentTerm c
  | _ => True
  end.

Inductive leads (n : NodeId) (c : Core) : Core → Prop :=
| leads_refl : leads n c c
| leads_step s now op c1 c2 :
    leads n c c1 → in_term s op c1 → run_op s n now op c1 = Some c2 → leads n c c2.

Lemma stuck_handle k c0 now env m c : k + 1 < two64 → (∀ t, termOf m = Some t → t ≤ currentTerm c) →
  stuck k c0 c → stuck k c0 (handle None now env m c).
Proof.
  intros Hk Ht H. unfold handle. cbv zeta.
  replace (match termOf m with Some t => _ | None => c end) with c; cycle 1.
  { destruct (termOf m) as [t|]; [|done]. specialize (Ht t eq_refl). by destruct (N.ltb_spec (currentTerm c) t); [lia|]. }
  pose proof (proj1 H) as Hrole. destruct m as [rv|r|ae|r|r|r]; [| | |by apply stuck_reply|done|done].
  - unfold onRequestVote. destruct (_ <? _); [by apply stuck_emit|]. cbv zeta. apply stuck_emit; [done|].
    destruct (_ && _); [|done]. unfold resetElectionTimer. destruct (draw _ _ _).
    eapply (stuck_frame _ _ (persistTermAndVote _ _ c)); try done. apply stuck_emit; [done|].
    destruct H as (_&Ho&Hc&Hfx). split_and!; try done. unfold currentTerm in *. cbn. by rewrite save_term.
  - unfold onRequestVoteReply. by rewrite Hrole.
  - unfold onAppendEntries. destruct (_ <? _); [by apply stuck_emit|]. rewrite decide_True by done.
    by apply stuck_emit.
Qed.

Lemma stuck_run k c0 s n now op c c' : k + 1 < two64 → in_term s op c → stuck k c0 c →
  run_op s n now op c = Some c' → stuck k c0 c'.
Proof.
  intros Hk Hin H. pose proof (proj1 H) as Hrole. destruct op as [|i|cmd|cmds|]; cbn.
  - destruct (_ <? two64); [|done]. intros [= <-]. unfold tick.
    rewrite bool_decide_eq_false_2 by naive_solver. rewrite bool_decide_eq_true_2 by done. cbn [andb].
    destruct (_ <=? _); [|done]. by apply stuck_deadline, stuck_peers.
  - destruct (net s !! i) as [p|] eqn:Hp; cbn; [|done]. destruct (_ =? _); [|done]. intros [= <-].
    apply stuck_handle; [done| |done]. intros t. by apply Hin.
  - intros [= <-]. unfold propose. rewrite decide_True by done. cbn [snd].
    by apply stuck_deadline, stuck_peers, stuck_advance, stuck_append.
  - intros [= <-]. unfold proposeBatch. destruct (_ || _); [done|]. cbn [snd].
    by apply stuck_deadline, stuck_peers, stuck_advance, stuck_append.
  - intros [= <-]. by apply stuck_applyLoop.
Qed.

(** A follower refuses entries that start beyond its log. *)
Lemma beyond_log_refused now env ae (f : Core) : log_lastIndex (log_ f) < ae_prevLogIndex ae →
  log_ (handle None now env (MAppendEntries ae) f) = log_ f.
Proof.
  intros Hlt. unfold handle. cbv zeta. cbn [termOf].
  assert (∀ t ev (x : Core), log_ (becomeFollower now t ev x) = log_ x) as Hbf.
  { intros t ev x. unfold becomeFollower, resetElectionTimer. cbv zeta. cbn. by repeat case_match. }
  match goal with |- log_ (onAppendEntries _ _ _ ?x) = _ => assert (log_ x = log_ f) as E; [|generalize dependent x] end.
  { by destruct (_ <? _). }
  intros x E. unfold onAppendEntries. destruct (_ <? _); [done|]. destruct (decide _); [done|]. cbv zeta.
  match goal with |- context [resetElectionTimer now ?y] => assert (log_ (resetElectionTimer now y) = log_ f) as E2 end.
  { unfold resetElectionTimer. destruct (draw _ _ _). cbn. destruct (decide _); [by rewrite Hbf|done]. }
  match goal with |- context [resetElectionTimer now ?y] => generalize dependent (resetElectionTimer now y) end.
  intros y E2. rewrite E2. by destruct (N.ltb_spec (log_lastIndex (log_ f)) (ae_prevLogIndex ae)); [|lia].
Qed.

Lemma leads_stuck n k c c' : k + 1 < two64 → role_ c = Leader → overflows k c → leads n c c' → stuck k c c'.
Proof.
  intros Hk Hr Ho H. induction H as [|s now op c1 c2 _ IH Hin Hop].
  - split_and!; [done..|]. exists []. by rewrite app_nil_r.
  - by eapply stuck_run.
Qed.

(** C26: a follower is never repaired once it misses more than a frame can carry.
    Take a leader whose entries after index [k] exceed the payload limit, and let
    it run through its term: ticks, proposals, applies, replies from anybody.  An
    AppendEntries it sends meanwhile either is never framed ([Transport::send]
    returns false without touching a socket), or leaves any log that ends at or
    before [k] as it was. *)
Theorem oversized_backfill_stuck n k (c c' : Core) to ae :
  k + 1 < two64 → role_ c = Leader → overflows k c → leads n c c' →
  ESend to (MAppendEntries ae) ∈ new_fx c c' →
  frameFor n to (MAppendEntries ae) = None ∨
  ∀ now env (f : Core), log_lastIndex (log_ f) ≤ k → log_ (handle None now env (MAppendEntries ae) f) = log_ f.
Proof.
  intros Hk Hr Ho Hl Hin. destruct (leads_stuck n k c c' Hk Hr Ho Hl) as (_&_&_&fx&E&Hu).
  unfold new_fx in Hin. rewrite E, drop_app_length in Hin.
  destruct (proj1 (Forall_forall _ _) Hu _ Hin) as [Hlt|Hov].
  - right. intros now env f Hf. apply beyond_log_refused. lia.
  - left. by apply oversized_unframed.
Qed.

End Backfill.

(** ** Witness: a leader with one command of 16 MiB that node 2 lacks *)

Module BackfillSample.

Export Sample.

Definition leader_with (cmd : Command) : MemCore :=
  set_heartbeatDeadline 0 (set_nextIndex {[2 := 1]} (set_role Leader
    (RaftCore_new 1 [2] (mkPersist 1 (Some 1)) (mkInMemoryLog [mkLogEntry 1 cmd]) [] 0 defaultConfig))).

Definition net0 : @Cluster InMemoryPersistentState InMemoryLog (list Command) N unit := mkCluster ∅ [].

Lemma leader_with_leads cmd : leads 1 (leader_with cmd) (tick 5 (leader_with cmd)).
Proof. eapply (leads_step _ _ net0 5 OpTick); [constructor|done|by vm_compute]. Qed.

Lemma leader_with_sends cmd : ESend 2 (MAppendEntries (mkAppendEntries 1 1 0 0 0 [mkLogEntry 1 cmd])) ∈
  new_fx (leader_with cmd) (tick 5 (leader_with cmd)).
Proof. vm_compute. left. Qed.

Lemma leader_with_overflows n : kMaxPayloadSize ≤ n → overflows 0 (leader_with (replicate (N.to_nat n) x00)).
Proof.
  intros Hn. unfold overflows, entriesPayload. cbn [leader_with log_entries log_ payloadSize ae_entries].
  change (drop (N.to_nat 0) ?l) with l. cbn [log_entries foldl e_command].
  change (kMaxPayloadSize < N.of_nat (38 + (12 + length (replicate (N.to_nat n) x00)))).
  rewrite length_replicate. lia.
Qed.

Lemma oversized_backfill_stuck_witness :
  let cmd := replicate (N.to_nat kMaxPayloadSize) x00 in
  let ae := mkAppendEntries 1 1 0 0 0 [mkLogEntry 1 cmd] in
  frameFor 1 2 (MAppendEntries ae) = None ∨
  ∀ now env (f : MemCore), log_lastIndex (log_ f) ≤ 0 → log_ (handle None now env (MAppendEntries ae) f) = log_ f.
Proof.
  cbv zeta. set (cmd := replicate _ _).
  apply (oversized_backfill_stuck 1 0 (leader_with cmd) (tick 5 (leader_with cmd)) 2).
  - done.
  - done.
  - by apply leader_with_overflows.
  - apply leader_with_leads.
  - apply leader_with_sends.
Defined.

End BackfillSample.
