(* ===== verification/Crc32c.v ===== *)
(** * src/storage/crc32c.cpp: the checksum of the durable formats

    The table-driven routine, the table built the way [makeTable] builds it, and
    what the storage layer needs from the checksum: it is the bit-at-a-time CRC,
    partial computations chain, and it changes whenever one byte changes. *)

From Stdlib Require Import NArith Strings.Byte Lia.
From S2P Require Import Prelude.

Local Open Scope N_scope.

Definition kPoly : N := 0x82F63B78.
Definition mask32 : N := 0xFFFFFFFF.

(** One turn of the inner loop of [makeTable]. *)
Definition bitStep (c : N) : N :=
  if N.testbit c 0 then N.lxor kPoly (N.shiftr c 1) else N.shiftr c 1.

Definition tableEntry (i : N) : N := Nat.iter 8 bitStep i.

Definition makeTable : list N := (λ i, tableEntry (N.of_nat i)) <$> seq 0 256.

Definition kTable : list N := Eval vm_compute in makeTable.

(** [kTable[(crc ^ b) & 0xFF] ^ (crc >> 8)] *)
Definition tableStep (crc : N) (b : byte) : N :=
  N.lxor (default 0 (kTable !! N.to_nat (N.land (N.lxor crc (Byte.to_N b)) 0xFF)))
    (N.shiftr crc 8).

(** [~] on [std::uint32_t]. *)
Definition not32 (c : N) : N := N.lxor c mask32.

Definition crc32c (data : list byte) (crc : N) : N :=
  not32 (foldl tableStep (not32 crc) data).

(** ** Reference: one bit at a time *)

Definition crc32c_bits (data : list byte) (crc : N) : N :=
  not32 (foldl (λ c b, Nat.iter 8 bitStep (N.lxor c (Byte.to_N b))) (not32 crc) data).

(** ** 32-bit words *)

Lemma lt_pow2_bits n c : c < 2 ^ n ↔ ∀ k, n ≤ k → N.testbit c k = false.
Proof.
  split.
  - intros Hc k Hk. destruct (N.eq_dec c 0) as [->|]; [apply N.bits_0|].
    apply N.bits_above_log2. apply N.log2_lt_pow2; [lia|].
    eapply N.lt_le_trans; [exact Hc|]. apply N.pow_le_mono_r; lia.
  - intros H. destruct (N.lt_ge_cases c (2 ^ n)) as [|Hge]; [done|]. exfalso.
    assert (c ≠ 0) as H0 by (intros ->; assert (2 ^ n ≠ 0) by (apply N.pow_nonzero; lia); lia).
    pose proof (N.bit_log2 c H0) as Hb. rewrite H in Hb; [done|].
    apply N.log2_le_pow2; [lia|done].
Qed.

Lemma lxor_lt n a b : a < 2 ^ n → b < 2 ^ n → N.lxor a b < 2 ^ n.
Proof.
  intros Ha Hb. apply lt_pow2_bits. intros k Hk. rewrite N.lxor_spec.
  by rewrite (proj1 (lt_pow2_bits n a) Ha), (proj1 (lt_pow2_bits n b) Hb).
Qed.

Lemma shiftr_lt n m a : a < 2 ^ n → N.shiftr a m < 2 ^ n.
Proof.
  intros Ha. apply lt_pow2_bits. intros k Hk. rewrite N.shiftr_spec'.
  apply (proj1 (lt_pow2_bits n a) Ha). lia.
Qed.

Lemma lxor_shiftr a b n : N.shiftr (N.lxor a b) n = N.lxor (N.shiftr a n) (N.shiftr b n).
Proof. apply N.shiftr_lxor. Qed.

(** ** The table step is eight bit steps *)

(** Shifting is linear, and the feedback depends on the low bit only. *)
Lemma bitStep_lxor a b : bitStep (N.lxor a b) = N.lxor (bitStep a) (bitStep b).
Proof.
  unfold bitStep. rewrite N.lxor_spec, N.shiftr_lxor.
  destruct (N.testbit a 0), (N.testbit b 0); cbn [xorb].
  - rewrite <-!N.lxor_assoc. f_equal. rewrite (N.lxor_comm kPoly), N.lxor_assoc.
    by rewrite N.lxor_nilpotent, N.lxor_0_r.
  - by rewrite N.lxor_assoc.
  - rewrite <-!N.lxor_assoc. f_equal. apply N.lxor_comm.
  - done.
Qed.

Lemma iter_bitStep_lxor n a b :
  Nat.iter n bitStep (N.lxor a b) = N.lxor (Nat.iter n bitStep a) (Nat.iter n bitStep b).
Proof. induction n as [|n IH]; [done|]. by rewrite !Nat.iter_succ, IH, bitStep_lxor. Qed.

(** With no bits below [n], [n] steps are a shift. *)
Lemma iter_bitStep_shiftl n a : Nat.iter n bitStep (N.shiftl a (N.of_nat n)) = a.
Proof.
  revert a. induction n as [|n IH]; intros a; [apply N.shiftl_0_r|].
  rewrite Nat.iter_succ_r. unfold bitStep at 2.
  rewrite N.shiftl_spec_low by lia.
  replace (N.shiftr (N.shiftl a (N.of_nat (S n))) 1) with (N.shiftl a (N.of_nat n)); [apply IH|].
  rewrite N.shiftr_shiftl_l by lia. f_equal. lia.
Qed.

Lemma split_low_byte c : c = N.lxor (N.land c 0xFF) (N.shiftl (N.shiftr c 8) 8).
Proof.
  apply N.bits_inj. intros k. rewrite N.lxor_spec, N.land_spec.
  change 0xFF with (N.ones 8). destruct (N.lt_ge_cases k 8).
  - rewrite N.ones_spec_low, N.shiftl_spec_low, andb_true_r, xorb_false_r by done. done.
  - rewrite N.ones_spec_high, andb_false_r by done. cbn [xorb].
    rewrite N.shiftl_spec_high', N.shiftr_spec' by done. f_equal. lia.
Qed.

Lemma kTable_entry i : i < 256 → kTable !! N.to_nat i = Some (tableEntry i).
Proof.
  intros Hi. change kTable with makeTable. unfold makeTable.
  rewrite list_lookup_fmap, lookup_seq_lt by lia. cbn. by rewrite N2Nat.id.
Qed.

Lemma land_ff_lt c : N.land c 0xFF < 256.
Proof.
  change 0xFF with (N.ones 8). rewrite N.land_ones. apply N.mod_lt. done.
Qed.

Lemma tableStep_bits c b : tableStep c b = Nat.iter 8 bitStep (N.lxor c (Byte.to_N b)).
Proof.
  unfold tableStep. rewrite kTable_entry by apply land_ff_lt. cbn [default].
  set (x := N.lxor c (Byte.to_N b)). rewrite (split_low_byte x) at 2.
  pose proof (iter_bitStep_shiftl 8 (N.shiftr x 8)) as Hs. change (N.of_nat 8) with 8 in Hs.
  rewrite iter_bitStep_lxor, Hs.
  unfold tableEntry. f_equal. subst x. rewrite N.shiftr_lxor.
  replace (N.shiftr (Byte.to_N b) 8) with 0; [by rewrite N.lxor_0_r|].
  rewrite N.shiftr_div_pow2, N.div_small; [done|]. apply to_N_lt.
Qed.

(** ** Error detection

    The top bytes of the table entries are a permutation, so a step forgets
    nothing: it is injective in the running value, and in the byte. *)

Lemma kTable_top_injective i j :
  i < 256 → j < 256 → N.shiftr (tableEntry i) 24 = N.shiftr (tableEntry j) 24 → i = j.
Proof.
  intros Hi Hj E.
  assert (Hn : NoDup ((λ c, N.shiftr c 24) <$> kTable)).
  { apply (bool_decide_unpack _). by vm_compute. }
  apply (NoDup_lookup _ (N.to_nat i) (N.to_nat j) (N.shiftr (tableEntry i) 24)) in Hn.
  - lia.
  - by rewrite list_lookup_fmap, kTable_entry.
  - rewrite list_lookup_fmap, kTable_entry, E by done. done.
Qed.

Lemma tableStep_inj c c' b b' :
  c < 2 ^ 32 → c' < 2 ^ 32 → tableStep c b = tableStep c' b' →
  N.land (N.lxor c (Byte.to_N b)) 0xFF = N.land (N.lxor c' (Byte.to_N b')) 0xFF ∧
  N.shiftr c 8 = N.shiftr c' 8.
Proof.
  intros Hc Hc'. unfold tableStep. rewrite !kTable_entry by apply land_ff_lt. cbn [default].
  set (i := N.land (N.lxor c _) _). set (j := N.land (N.lxor c' _) _). intros E.
  assert (Htop : ∀ x, x < 2 ^ 32 → N.shiftr (N.shiftr x 8) 24 = 0).
  { intros x Hx. rewrite N.shiftr_shiftr. rewrite N.shiftr_div_pow2. by apply N.div_small. }
  assert (i = j) as Hij.
  { apply kTable_top_injective; [apply land_ff_lt..|].
    apply (f_equal (λ x, N.shiftr x 24)) in E. rewrite !N.shiftr_lxor in E.
    by rewrite !Htop, !N.lxor_0_r in E. }
  split; [done|]. rewrite Hij in E.
  apply (f_equal (N.lxor (tableEntry j))) in E.
  by rewrite <-!N.lxor_assoc, N.lxor_nilpotent, !N.lxor_0_l in E.
Qed.

Lemma land_lxor_ff c b : N.land (N.lxor c (Byte.to_N b)) 0xFF = N.lxor (N.land c 0xFF) (Byte.to_N b).
Proof.
  change 0xFF with (N.ones 8). rewrite N.land_ones, (N.land_ones c).
  pose proof (to_N_lt b) as Hb. rewrite <-!N.land_ones.
  apply N.bits_inj. intros k. rewrite N.land_spec, !N.lxor_spec, N.land_spec.
  destruct (N.lt_ge_cases k 8) as [Hk|Hk].
  - by rewrite !N.ones_spec_low, !andb_true_r by done.
  - rewrite !N.ones_spec_high, !andb_false_r by done.
    by rewrite (proj1 (lt_pow2_bits 8 (Byte.to_N b)) Hb k Hk).
Qed.

Lemma lxor_cancel_r a b c : N.lxor a c = N.lxor b c → a = b.
Proof.
  intros E. apply (f_equal (λ x, N.lxor x c)) in E.
  by rewrite !N.lxor_assoc, N.lxor_nilpotent, !N.lxor_0_r in E.
Qed.

Lemma tableStep_inj_crc c c' b :
  c < 2 ^ 32 → c' < 2 ^ 32 → tableStep c b = tableStep c' b → c = c'.
Proof.
  intros Hc Hc' E. destruct (tableStep_inj c c' b b) as [El Eh]; [done..|].
  rewrite !land_lxor_ff in El. apply lxor_cancel_r in El.
  rewrite (split_low_byte c), (split_low_byte c'). by rewrite El, Eh.
Qed.

Lemma tableStep_inj_byte c b b' :
  c < 2 ^ 32 → tableStep c b = tableStep c b' → b = b'.
Proof.
  intros Hc E. destruct (tableStep_inj c c b b') as [El _]; [done..|].
  rewrite !land_lxor_ff, !(N.lxor_comm (N.land c 0xFF)) in El.
  by apply lxor_cancel_r, to_N_inj in El.
Qed.

Lemma kPoly_lt : kPoly < 2 ^ 32.
Proof. done. Qed.

Lemma bitStep_lt c : c < 2 ^ 32 → bitStep c < 2 ^ 32.
Proof.
  intros Hc. unfold bitStep. destruct (N.testbit c 0).
  - apply lxor_lt; [done|by apply shiftr_lt].
  - by apply shiftr_lt.
Qed.

Lemma tableStep_lt c b : c < 2 ^ 32 → tableStep c b < 2 ^ 32.
Proof.
  intros Hc. rewrite tableStep_bits. apply Nat.iter_invariant.
  - intros ? ?. by apply bitStep_lt.
  - apply lxor_lt; [done|]. eapply N.lt_trans; [apply to_N_lt|done].
Qed.

Lemma not32_lt c : c < 2 ^ 32 → not32 c < 2 ^ 32.
Proof. intros. by apply lxor_lt. Qed.

Lemma foldl_tableStep_lt c data : c < 2 ^ 32 → foldl tableStep c data < 2 ^ 32.
Proof.
  revert c. induction data as [|b data IH]; intros c Hc; cbn; [done|].
  by apply IH, tableStep_lt.
Qed.

Lemma foldl_tableStep_inj c c' data :
  c < 2 ^ 32 → c' < 2 ^ 32 → foldl tableStep c data = foldl tableStep c' data → c = c'.
Proof.
  revert c c'. induction data as [|b data IH]; intros c c' Hc Hc' E; cbn in *; [done|].
  apply IH in E; [|by apply tableStep_lt..]. by eapply tableStep_inj_crc.
Qed.

Lemma crc32c_lt data crc : crc < 2 ^ 32 → crc32c data crc < 2 ^ 32.
Proof. intros. by apply not32_lt, foldl_tableStep_lt, not32_lt. Qed.

(** Any corruption confined to one byte changes the checksum. *)
Lemma crc32c_byte_change pre b b' post crc :
  crc < 2 ^ 32 → b ≠ b' →
  crc32c (pre ++ b :: post) crc ≠ crc32c (pre ++ b' :: post) crc.
Proof.
  intros Hc Hb E. unfold crc32c in E. apply lxor_cancel_r in E.
  rewrite !foldl_app in E. cbn in E.
  set (c := foldl tableStep (not32 crc) pre) in E.
  assert (c < 2 ^ 32) by by apply foldl_tableStep_lt, not32_lt.
  apply foldl_tableStep_inj in E; [|by apply tableStep_lt..].
  by apply tableStep_inj_byte in E.
Qed.

Lemma crc32c_two32 bs : crc32c bs 0 < two32.
Proof. by apply crc32c_lt. Qed.

(** The shape both file formats use, a body followed by its checksum: after a
    change of one byte, of either part, the two no longer agree. *)
Lemma sealed_change body p b b' :
  let sealed := body ++ le_bytes 4 (crc32c body 0) in
  sealed !! p = Some b → b ≠ b' →
  le_value (drop (length body) (<[p := b']> sealed)) ≠
    crc32c (take (length body) (<[p := b']> sealed)) 0.
Proof.
  intros sealed Hp Hb. pose proof (lookup_lt_Some _ _ _ Hp) as Hlt. subst sealed.
  rewrite length_app, length_le_bytes in Hlt.
  destruct (Nat.lt_ge_cases p (length body)) as [Hpn|Hpn].
  - rewrite insert_app_l by lia.
    rewrite drop_app_length', take_app_length' by (by rewrite length_insert).
    rewrite le_value_le_bytes_small by apply crc32c_two32. rewrite lookup_app_l in Hp by lia.
    rewrite <-(take_drop_middle body p b Hp) at 1. rewrite insert_take_drop by lia.
    by apply crc32c_byte_change.
  - rewrite insert_app_r_alt, drop_app_length', take_app_length' by lia.
    rewrite lookup_app_r in Hp by lia.
    rewrite <-(le_value_le_bytes_small 4 (crc32c body 0)) at 2 by apply crc32c_two32.
    intros E. apply le_value_inj in E; [|by rewrite length_insert].
    rewrite <-E, list_lookup_insert_eq in Hp; [congruence|]. rewrite length_le_bytes. lia.
Qed.

Lemma not32_involutive c : not32 (not32 c) = c.
Proof. unfold not32. by rewrite N.lxor_assoc, N.lxor_nilpotent, N.lxor_0_r. Qed.

(** The table-driven routine computes the CRC.  For every input and every
    chained starting value it equals the bit-at-a-time division by the reflected
    Castagnoli polynomial. *)
Theorem crc32c_is_bitwise data crc : crc32c data crc = crc32c_bits data crc.
Proof.
  unfold crc32c, crc32c_bits. f_equal. generalize (not32 crc). induction data as [|b data IH];
    intros c; cbn; [done|]. by rewrite tableStep_bits, IH.
Qed.

(** The [crc] argument chains partial computations, as crc32c.h documents. *)
Lemma crc32c_chains a b crc : crc32c (a ++ b) crc = crc32c b (crc32c a crc).
Proof. unfold crc32c. by rewrite not32_involutive, foldl_app. Qed.

(** The published check value of CRC-32C. *)
Example crc32c_check_value :
  crc32c [x31; x32; x33; x34; x35; x36; x37; x38; x39] 0 = 0xE3069283.
Proof. by vm_compute. Qed.
