(* ===== verification/DurableLog.v ===== *)
(** * src/storage/durable_log.cpp, src/storage/posix_io.h: the durable log

    The log file is a list of bytes, next to the in-memory copy the class keeps
    ([entries_], [offsets_], [size_]).  A process death in the middle of an
    append is a [pwriteAll] that stopped early; what it leaves in the file is
    what the next [replay] reads.  Positions in a file are [nat]s, as in
    [Wire.v]. *)

From Stdlib Require Import NArith Strings.Byte Lia Btauto.
From S2P Require Import Prelude Wire Messages Codec Log Crc32c.

Local Open Scope N_scope.

(** ** posix_io.h *)

(** What one [pwrite] call did: wrote that many bytes, was interrupted, or
    failed. *)
Inductive PwriteResult := Wrote (n : nat) | Interrupted | Failed.

(** Writing inside a file or at its end. *)
Definition pwriteAt (p : list byte) (off : nat) (f : list byte) : list byte :=
  take off f ++ p ++ drop (off + length p) f.

(** The loop, against the results of its [pwrite] calls in order; when they run
    out before the data does, the process died there.  The flag says that
    everything was written. *)
Fixpoint pwriteAll (calls : list PwriteResult) (p : list byte) (off : nat)
    (f : list byte) : bool * list byte :=
  match p with
  | [] => (true, f)
  | _ :: _ =>
      match calls with
      | [] => (false, f)
      | Failed :: _ => (false, f)
      | Interrupted :: calls => pwriteAll calls p off f
      | Wrote w :: calls =>
          pwriteAll calls (drop w p) (off + w) (pwriteAt (take w p) off f)
      end
  end.

(** ** DurableLog *)

Definition kHeaderSize : nat := 20.
Definition kCrcSize : nat := 4.

Definition recordSize (e : LogEntry) : nat :=
  (kHeaderSize + length (e_command e) + kCrcSize)%nat.

Record DurableLog := mkDurableLog {
  d_file : list byte;              (* the contents of fd_ *)
  d_entries : list LogEntry;       (* entries_ *)
  d_offsets : list nat;            (* offsets_ *)
  d_writeBuf : list byte;          (* writeBuf_ *)
  d_size : nat;                    (* size_ *)
  d_tornBytesDiscarded : nat;      (* tornBytesDiscarded_ *)
}.

Definition DurableLog_lastIndex (d : DurableLog) : LogIndex := N.of_nat (length (d_entries d)).

Definition DurableLog_lastTerm (d : DurableLog) : Term :=
  match last (d_entries d) with Some e => e_term e | None => 0 end.

(** *** replay *)

Inductive ReplayResult :=
| Replayed (d : DurableLog)
| CorruptRecord (off : nat).        (* the constructor throws *)

Definition readHeader : Rd (N * N * N) :=
  index ← Reader_u64; term ← Reader_u64; len ← Reader_u32; mret (index, term, len).

(** The four bytes at [cp], least significant first. *)
Definition storedCrcAt (buf : list byte) (off : nat) : N :=
  match take 4 (drop off buf) with
  | [c0; c1; c2; c3] =>
      N.lor (N.lor (N.lor (Byte.to_N c0) (N.shiftl (Byte.to_N c1) 8))
                   (N.shiftl (Byte.to_N c2) 16))
            (N.shiftl (Byte.to_N c3) 24)
  | _ => 0
  end.

(** The torn tail is cut off: [ftruncate] to the end of the last valid record. *)
Definition discardTorn (buf : list byte) (entries : list LogEntry) (offsets : list nat)
    (off : nat) : ReplayResult :=
  Replayed (mkDurableLog (take off buf) entries offsets [] off (length buf - off)).

(** The loop of [replay]; [None] only when the fuel does not cover the records
    ([replay_total]). *)
Fixpoint replayLoop (fuel : nat) (buf : list byte) (entries : list LogEntry)
    (offsets : list nat) (off : nat) : option ReplayResult :=
  match fuel with
  | O => None
  | S fuel =>
      if (off <? length buf)%nat then
        let remaining := (length buf - off)%nat in
        if (remaining <? kHeaderSize)%nat then Some (discardTorn buf entries offsets off)
        else
          let '(index, term, len, _) := readHeader (Reader_init (drop off buf)) in
          let len := N.to_nat len in
          let extent := (kHeaderSize + len + kCrcSize)%nat in
          if (remaining <? extent)%nat then Some (discardTorn buf entries offsets off)
          else
            let crc := crc32c (take (kHeaderSize + len) (drop off buf)) 0 in
            let storedCrc := storedCrcAt buf (off + kHeaderSize + len) in
            if (storedCrc =? crc) && (index =? N.of_nat (length entries) + 1) then
              let e := mkLogEntry term (take len (drop (off + kHeaderSize) buf)) in
              replayLoop fuel buf (entries ++ [e]) (offsets ++ [off]) (off + extent)
            else if (extent =? remaining)%nat then Some (discardTorn buf entries offsets off)
            else Some (CorruptRecord off)
      else Some (Replayed (mkDurableLog buf entries offsets [] off 0))
  end.

(** Opening the log: every record takes at least [kHeaderSize + kCrcSize] bytes,
    so one turn per byte and one more are enough. *)
Definition replay (buf : list byte) : option ReplayResult :=
  replayLoop (S (length buf)) buf [] [] 0.

(** *** append *)

Definition appendRecord (st : Writer * LogIndex) (e : LogEntry) : Writer * LogIndex :=
  let '(w, index) := st in
  let recOff := w_pos w in
  let index := add64 index 1 in
  let w := Writer_u64 index w in
  let w := Writer_u64 (e_term e) w in
  let w := Writer_u32 (N.of_nat (length (e_command e)) mod two32) w in
  let w := Writer_bytes (e_command e) w in
  let w := Writer_u32 (crc32c (take (kHeaderSize + length (e_command e))
                                    (drop recOff (w_out w))) 0) w in
  (w, index).

(** [std::vector::resize] on the reused buffer. *)
Definition resizeBuf (n : nat) (b : list byte) : list byte :=
  take n b ++ replicate (n - length b) x00.

Definition serialize (d : DurableLog) (entries : list LogEntry) : list byte :=
  let total := sum_list (recordSize <$> entries) in
  w_out (foldl appendRecord (Writer_init (resizeBuf total (d_writeBuf d)), DurableLog_lastIndex d)
           entries).1.

Definition pushEntry (d : DurableLog) (e : LogEntry) : DurableLog :=
  mkDurableLog (d_file d) (d_entries d ++ [e]) (d_offsets d ++ [d_size d]) (d_writeBuf d)
    (d_size d + recordSize e) (d_tornBytesDiscarded d).

Inductive AppendResult :=
| Appended (d : DurableLog)
| DiedWriting (file : list byte).   (* killed in, or an exception out of, pwriteAll *)

Definition DurableLog_append (calls : list PwriteResult) (d : DurableLog)
    (entries : list LogEntry) : AppendResult :=
  match entries with
  | [] => Appended d
  | _ :: _ =>
      let buf := serialize d entries in
      match pwriteAll calls buf (d_size d) (d_file d) with
      | (true, file) =>
          Appended (foldl pushEntry
            (mkDurableLog file (d_entries d) (d_offsets d) buf (d_size d)
               (d_tornBytesDiscarded d)) entries)
      | (false, file) => DiedWriting file
      end
  end.

(** *** truncateSuffixFrom and the reads *)

Definition DurableLog_truncateSuffixFrom (d : DurableLog) (i : LogIndex) : DurableLog :=
  let i := if i <? 1 then 1 else i in
  if DurableLog_lastIndex d <? i then d
  else
    let k := N.to_nat (i - 1) in
    let newSize := default 0%nat (d_offsets d !! k) in
    mkDurableLog (take newSize (d_file d)) (take k (d_entries d)) (take k (d_offsets d))
      (d_writeBuf d) newSize (d_tornBytesDiscarded d).

Definition DurableLog_termAt (d : DurableLog) (i : LogIndex) : Term :=
  if i =? 0 then 0
  else if DurableLog_lastIndex d <? i then 0
  else match d_entries d !! N.to_nat (i - 1) with Some e => e_term e | None => 0 end.

Definition DurableLog_entryAt (d : DurableLog) (i : LogIndex) : option LogEntry :=
  if (1 <=? i) && (i <=? DurableLog_lastIndex d) then d_entries d !! N.to_nat (i - 1) else None.

Definition DurableLog_entriesFrom (d : DurableLog) (i : LogIndex) : list LogEntry :=
  let i := if i <? 1 then 1 else i in
  if DurableLog_lastIndex d <? i then [] else drop (N.to_nat (i - 1)) (d_entries d).

Definition DurableLog_entriesSpan (d : DurableLog) (i : LogIndex) : list LogEntry :=
  let i := if i <? 1 then 1 else i in
  if DurableLog_lastIndex d <? i then [] else drop (N.to_nat (i - 1)) (d_entries d).

(** ** Specification: the file of a list of entries *)

Definition recordBody (index : N) (e : LogEntry) : list byte :=
  le_bytes 8 index ++ le_bytes 8 (e_term e) ++
  le_bytes 4 (N.of_nat (length (e_command e))) ++ e_command e.

Definition recordBytes (index : N) (e : LogEntry) : list byte :=
  recordBody index e ++ le_bytes 4 (crc32c (recordBody index e) 0).

(** The records of [es], the first of which follows [n] others. *)
Fixpoint records (n : nat) (es : list LogEntry) : list byte :=
  match es with
  | [] => []
  | e :: es => recordBytes (N.of_nat n + 1) e ++ records (S n) es
  end.

Fixpoint offsetsOf (off : nat) (es : list LogEntry) : list nat :=
  match es with
  | [] => []
  | e :: es => off :: offsetsOf (off + recordSize e) es
  end.

(** The representation invariant: the file is the records of the in-memory
    entries, the offsets are where each starts, and [size_] is the end. *)
Record dl_ok (d : DurableLog) : Prop := {
  dl_file : d_file d = records 0 (d_entries d);
  dl_offsets : d_offsets d = offsetsOf 0 (d_entries d);
  dl_size : d_size d = length (d_file d);
  dl_entries : Forall entry_ok (d_entries d);
  dl_indices : N.of_nat (length (d_entries d)) < two64;
}.

#[global] Arguments recordSize : simpl never.
#[global] Arguments recordBytes : simpl never.
#[global] Arguments appendRecord : simpl never.

(** *** Shape of the specification *)

Lemma length_recordBody i e : length (recordBody i e) = (kHeaderSize + length (e_command e))%nat.
Proof. unfold recordBody, kHeaderSize. autorewrite with rsm_len. lia. Qed.

Lemma length_recordBytes i e : length (recordBytes i e) = recordSize e.
Proof.
  unfold recordBytes, recordSize. rewrite length_app, length_recordBody, length_le_bytes. done.
Qed.

Lemma recordSize_ge e : (24 ≤ recordSize e)%nat.
Proof. unfold recordSize, kHeaderSize, kCrcSize. lia. Qed.

Lemma length_records n es : length (records n es) = sum_list (recordSize <$> es).
Proof.
  revert n. induction es as [|e es IH]; intros n; [done|].
  cbn [records]. rewrite length_app, length_recordBytes, IH. done.
Qed.

Lemma records_app n es es' :
  records n (es ++ es') = records n es ++ records (n + length es) es'.
Proof.
  revert n. induction es as [|e es IH]; intros n; cbn; [by rewrite Nat.add_0_r|].
  rewrite IH, <-app_assoc. do 3 f_equal. lia.
Qed.

Lemma records_snoc n es e :
  records n (es ++ [e]) = records n es ++ recordBytes (N.of_nat (n + length es) + 1) e.
Proof. rewrite records_app. cbn. by rewrite app_nil_r. Qed.

Lemma offsetsOf_app off es es' :
  offsetsOf off (es ++ es') =
    offsetsOf off es ++ offsetsOf (off + sum_list (recordSize <$> es)) es'.
Proof.
  revert off. induction es as [|e es IH]; intros off; cbn; [by rewrite Nat.add_0_r|].
  rewrite IH. do 3 f_equal. lia.
Qed.

Lemma offsetsOf_lookup es k off :
  (k < length es)%nat →
  offsetsOf off es !! k = Some (off + sum_list (recordSize <$> take k es))%nat.
Proof.
  revert k off. induction es as [|e es IH]; intros [|k] off Hk; cbn in *; try lia.
  - f_equal. lia.
  - rewrite IH by lia. f_equal. lia.
Qed.

Lemma offsetsOf_take off es k : take k (offsetsOf off es) = offsetsOf off (take k es).
Proof.
  revert k off. induction es as [|e es IH]; intros [|k] off; cbn; [done..|]. by rewrite IH.
Qed.

(** *** Reading one record *)

Definition recordHeader (index : N) (e : LogEntry) : list byte :=
  le_bytes 8 index ++ le_bytes 8 (e_term e) ++ le_bytes 4 (N.of_nat (length (e_command e))).

Lemma recordBody_header i e : recordBody i e = recordHeader i e ++ e_command e.
Proof. unfold recordBody, recordHeader. by rewrite <-!app_assoc. Qed.

Lemma length_recordHeader i e : length (recordHeader i e) = kHeaderSize.
Proof. unfold recordHeader. by autorewrite with rsm_len. Qed.

Lemma readHeader_header i e tl :
  i < two64 → entry_ok e →
  ∃ r, readHeader (Reader_init (recordHeader i e ++ tl)) =
    (i, e_term e, N.of_nat (length (e_command e)), r).
Proof.
  intros Hi [Ht Hc]. unfold recordHeader. rewrite <-!app_assoc.
  set (bs := _ ++ _). pose proof (rwf_init bs) as Hwf. pose proof (rest_init bs) as Hr.
  assert (Hok : r_ok (Reader_init bs) = true) by done. subst bs.
  unfold readHeader.
  rd_forward reads_u64; [done|]. rd_forward reads_u64; [done|]. rd_forward reads_u32; [done|].
  by eexists.
Qed.

Lemma storedCrcAt_value buf off :
  (off + 4 ≤ length buf)%nat → storedCrcAt buf off = le_value (take 4 (drop off buf)).
Proof.
  intros Hl. unfold storedCrcAt.
  assert (length (take 4 (drop off buf)) = 4%nat) as H4 by (autorewrite with rsm_len; lia).
  destruct (take 4 (drop off buf)) as [|c0 [|c1 [|c2 [|c3 [|]]]]]; try done.
  unfold le_value. cbn [foldr].
  rewrite N.shiftl_0_l, N.lor_0_l, !N.shiftl_lor, !N.shiftl_shiftl.
  change (8 + (8 + 8)) with 24. change (8 + 8) with 16.
  apply N.bits_inj. intros k. rewrite !N.lor_spec. btauto.
Qed.

Lemma storedCrcAt_le pre c tl :
  c < two32 → storedCrcAt (pre ++ le_bytes 4 c ++ tl) (length pre) = c.
Proof.
  intros Hc. rewrite storedCrcAt_value by (autorewrite with rsm_len; lia).
  rewrite drop_app_length, take_app_length' by (by rewrite length_le_bytes).
  by apply le_value_le_bytes_small.
Qed.

(** *** The loop of [replay], one record at a time *)

(** A complete record with the right index is taken. *)
Lemma replayLoop_record fuel pre e tl entries offsets :
  entry_ok e → N.of_nat (length entries) + 1 < two64 →
  let buf := pre ++ recordBytes (N.of_nat (length entries) + 1) e ++ tl in
  replayLoop (S fuel) buf entries offsets (length pre) =
    replayLoop fuel buf (entries ++ [e]) (offsets ++ [length pre]) (length pre + recordSize e).
Proof.
  intros He Hi buf. set (i := N.of_nat (length entries) + 1) in *.
  assert (Hlen : length buf = (length pre + recordSize e + length tl)%nat).
  { subst buf. rewrite !length_app, length_recordBytes. lia. }
  pose proof (recordSize_ge e) as Hge.
  assert (Hdrop : drop (length pre) buf = recordBytes i e ++ tl) by apply drop_app_length.
  cbn [replayLoop].
  destruct (Nat.ltb_spec (length pre) (length buf)); [|lia].
  destruct (Nat.ltb_spec (length buf - length pre) kHeaderSize);
    [unfold kHeaderSize in *; lia|].
  rewrite Hdrop. unfold recordBytes at 1. rewrite recordBody_header at 1. rewrite <-!app_assoc.
  match goal with |- context [Reader_init (_ ++ ?t)] =>
    destruct (readHeader_header i e t) as [r ->]; [done..|] end. rewrite Nat2N.id. fold (recordSize e).
  destruct (Nat.ltb_spec (length buf - length pre) (recordSize e)); [lia|].
  replace (take _ (recordBytes i e ++ tl)) with (recordBody i e).
  2: { unfold recordBytes. rewrite <-app_assoc, <-(length_recordBody i), take_app_length. done. }
  assert (Hs : storedCrcAt buf (length pre + kHeaderSize + length (e_command e)) =
               crc32c (recordBody i e) 0).
  { subst buf. unfold recordBytes. rewrite <-app_assoc, app_assoc.
    eapply eq_trans; [|apply (storedCrcAt_le (pre ++ recordBody i e) _ tl), crc32c_two32].
    f_equal. rewrite length_app, length_recordBody. lia. }
  rewrite Hs, !N.eqb_refl. cbn [andb]. do 3 f_equal. f_equal.
  subst buf. unfold recordBytes. rewrite recordBody_header, <-drop_drop, drop_app_length.
  rewrite <-!app_assoc, drop_app_length' by (by rewrite length_recordHeader).
  rewrite take_app_length. by destruct e.
Qed.

(** Fewer bytes than the record that starts there: a torn tail. *)
Lemma replayLoop_short fuel pre i e k entries offsets :
  entry_ok e → i < two64 → (0 < k < recordSize e)%nat →
  let buf := pre ++ take k (recordBytes i e) in
  replayLoop (S fuel) buf entries offsets (length pre) =
    Some (discardTorn buf entries offsets (length pre)).
Proof.
  intros He Hi Hk buf.
  assert (Hlen : length buf = (length pre + k)%nat).
  { subst buf. rewrite length_app, length_take, length_recordBytes. lia. }
  assert (Hdrop : drop (length pre) buf = take k (recordBytes i e)) by apply drop_app_length.
  cbn [replayLoop]. destruct (Nat.ltb_spec (length pre) (length buf)); [|lia].
  destruct (Nat.ltb_spec (length buf - length pre) kHeaderSize) as [|Hh]; [done|].
  rewrite Hdrop.
  assert (∃ r, readHeader (Reader_init (take k (recordBytes i e))) =
    (i, e_term e, N.of_nat (length (e_command e)), r)) as [r ->].
  { unfold recordBytes. rewrite recordBody_header, <-app_assoc, take_app.
    rewrite take_ge, length_recordHeader by (rewrite length_recordHeader; lia).
    by apply readHeader_header. }
  rewrite Nat2N.id. fold (recordSize e).
  destruct (Nat.ltb_spec (length buf - length pre) (recordSize e)); [done|lia].
Qed.

(** A record of full size that does not check, at the end of the file: a torn tail
    as well. *)
Definition partial_record (i : N) (e : LogEntry) (tl : list byte) : Prop :=
  length tl = recordSize e ∧ take kHeaderSize tl = recordHeader i e ∧
  storedCrcAt tl (kHeaderSize + length (e_command e)) ≠
    crc32c (take (kHeaderSize + length (e_command e)) tl) 0.

Lemma replayLoop_partial fuel pre i e tl entries offsets :
  entry_ok e → i < two64 → partial_record i e tl →
  replayLoop (S fuel) (pre ++ tl) entries offsets (length pre) =
    Some (discardTorn (pre ++ tl) entries offsets (length pre)).
Proof.
  intros He Hi (Hl & Hh & Hcrc). pose proof (recordSize_ge e) as Hge. cbn [replayLoop].
  rewrite length_app, Hl, Nat.add_comm, Nat.add_sub, drop_app_length.
  destruct (Nat.ltb_spec (length pre) (recordSize e + length pre)); [|lia].
  destruct (Nat.ltb_spec (recordSize e) kHeaderSize); [done|].
  assert (∃ r, readHeader (Reader_init tl) = (i, e_term e, N.of_nat (length (e_command e)), r)) as [r ->].
  { rewrite <-(take_drop kHeaderSize tl), Hh. by apply readHeader_header. }
  rewrite Nat2N.id. fold (recordSize e). rewrite Nat.ltb_irrefl, Nat.eqb_refl.
  replace (storedCrcAt (pre ++ tl) (length pre + kHeaderSize + length (e_command e)))
    with (storedCrcAt tl (kHeaderSize + length (e_command e)))
    by (unfold storedCrcAt; by rewrite <-Nat.add_assoc, <-(drop_drop (pre ++ tl)), drop_app_length).
  by rewrite (proj2 (N.eqb_neq _ _) Hcrc).
Qed.

Lemma replayLoop_records fuel pre es tl entries offsets :
  Forall entry_ok es → N.of_nat (length entries + length es) < two64 →
  let buf := pre ++ records (length entries) es ++ tl in
  replayLoop (length es + fuel) buf entries offsets (length pre) =
    replayLoop fuel buf (entries ++ es) (offsets ++ offsetsOf (length pre) es)
      (length pre + length (records (length entries) es)).
Proof.
  revert pre entries offsets. induction es as [|e es IH]; intros pre entries offsets Hok Hn buf.
  { cbn. by rewrite !app_nil_r, Nat.add_0_r. }
  apply Forall_cons in Hok as [He Hok]. subst buf. cbn [records length Nat.add] in *.
  rewrite <-app_assoc. rewrite replayLoop_record by (done || lia).
  pose proof (IH (pre ++ recordBytes (N.of_nat (length entries) + 1) e) (entries ++ [e])
                 (offsets ++ [length pre]) Hok) as H.
  rewrite !length_app, length_recordBytes in H. cbn [length] in H.
  replace (length entries + 1)%nat with (S (length entries)) in H by lia.
  rewrite <-!app_assoc in H. cbn [app] in H. rewrite H by lia.
  rewrite length_app, length_recordBytes. cbn [offsetsOf]. by rewrite Nat.add_assoc.
Qed.

Lemma length_records_ge n es : (24 * length es ≤ length (records n es))%nat.
Proof.
  revert n. induction es as [|e es IH]; intros n; [done|]. cbn [records length].
  rewrite length_app, length_recordBytes. pose proof (recordSize_ge e). specialize (IH (S n)). lia.
Qed.

(** What a file may end in, after the records of [n] entries. *)
Definition torn_tail (n : nat) (tl : list byte) : Prop :=
  tl = [] ∨ ∃ e, entry_ok e ∧
    ((∃ k, (0 < k < recordSize e)%nat ∧ tl = take k (recordBytes (N.of_nat n + 1) e)) ∨
     partial_record (N.of_nat n + 1) e tl).

Definition recovered (es : list LogEntry) (torn : nat) : DurableLog :=
  mkDurableLog (records 0 es) es (offsetsOf 0 es) [] (length (records 0 es)) torn.

Lemma replay_records es tl :
  Forall entry_ok es → N.of_nat (length es) + 1 < two64 → torn_tail (length es) tl →
  replay (records 0 es ++ tl) = Some (Replayed (recovered es (length tl))).
Proof.
  intros Hok Hn Htl. unfold replay. pose proof (length_records_ge 0 es) as Hge.
  replace (S (length (records 0 es ++ tl))) with
    (length es + S (length (records 0 es ++ tl) - length es))%nat
    by (rewrite length_app; lia).
  pose proof (replayLoop_records (S (length (records 0 es ++ tl) - length es)) [] es tl [] [] Hok)
    as H. cbn [app length Nat.add] in H. rewrite H by lia. clear H.
  assert (discardTorn (records 0 es ++ tl) es (offsetsOf 0 es) (length (records 0 es)) =
    Replayed (recovered es (length tl))) as Hd
    by (unfold discardTorn, recovered; by rewrite take_app_length, length_app, Nat.add_comm, Nat.add_sub).
  destruct Htl as [->|(e & He & [(k & Hk & ->)|Hp])].
  - rewrite app_nil_r. cbn [replayLoop].
    rewrite (proj2 (Nat.ltb_ge _ _)) by lia. done.
  - rewrite replayLoop_short by (done || lia). by rewrite Hd.
  - rewrite (replayLoop_partial _ _ (N.of_nat (length es) + 1) e) by (done || lia). by rewrite Hd.
Qed.

Lemma dl_ok_recovered es torn :
  Forall entry_ok es → N.of_nat (length es) < two64 → dl_ok (recovered es torn).
Proof. by split. Qed.

(** *** Byte prefixes of a run of records *)

Lemma take_records n es k :
  Forall entry_ok es →
  ∃ j tl, take k (records n es) = records n (take j es) ++ tl ∧ (j ≤ length es)%nat ∧
    torn_tail (n + j) tl ∧ ((length (records n es) ≤ k)%nat → j = length es).
Proof.
  revert n k. induction es as [|e es IH]; intros n k Hok.
  { exists 0%nat, []. split_and!; [by destruct k|done|by left|done]. }
  apply Forall_cons in Hok as [He Hok]. cbn [records length].
  destruct (decide (k = 0)%nat) as [->|Hk0].
  { exists 0%nat, []. split_and!; [done|lia|by left|].
    rewrite length_app, length_recordBytes. pose proof (recordSize_ge e). lia. }
  destruct (Nat.lt_ge_cases k (recordSize e)) as [Hk|Hk].
  - exists 0%nat, (take k (recordBytes (N.of_nat n + 1) e)). split_and!.
    + rewrite take_app_le by (rewrite length_recordBytes; lia). done.
    + lia.
    + right. exists e. rewrite Nat.add_0_r. split; [done|]. left. exists k. split; [lia|done].
    + rewrite length_app, length_recordBytes. lia.
  - destruct (IH (S n) (k - recordSize e)%nat Hok) as (j & tl & E & Hj & Ht & Hall).
    exists (S j), tl. cbn [take records]. rewrite take_app, take_ge, length_recordBytes
      by (rewrite length_recordBytes; lia).
    rewrite E, <-app_assoc. split_and!; [done|lia| |].
    + by replace (n + S j)%nat with (S n + j)%nat by lia.
    + rewrite length_app, length_recordBytes. intros. rewrite Hall; lia.
Qed.

(** *** append *)

Lemma wrote_full w bs : wrote w bs 0 → w_out w = bs.
Proof.
  intros (_ & Hp & Ht & Hl). rewrite <-Ht. symmetry. apply take_ge. lia.
Qed.

Lemma appendRecord_wrote w bs room index e :
  wrote w bs room → (recordSize e ≤ room)%nat → index + 1 < two64 → entry_ok e →
  ∃ w', appendRecord (w, index) e = (w', index + 1) ∧
        wrote w' (bs ++ recordBytes (index + 1) e) (room - recordSize e).
Proof.
  intros Hw Hroom Hi [_ Hc]. unfold recordSize, kHeaderSize, kCrcSize in Hroom.
  pose proof (λ p, wrote_put w bs room p Hw) as H1.
  unfold appendRecord. rewrite add64_small, N.mod_small by done. eexists. split; [done|].
  unfold Writer_u64 at 1. specialize (H1 (le_bytes 8 (index + 1))). rewrite length_le_bytes in H1.
  specialize (H1 ltac:(lia)).
  pose proof (wrote_put _ _ _ (le_bytes 8 (e_term e)) H1) as H2. rewrite length_le_bytes in H2.
  specialize (H2 ltac:(lia)).
  pose proof (wrote_put _ _ _ (le_bytes 4 (N.of_nat (length (e_command e)))) H2) as H3.
  rewrite length_le_bytes in H3. specialize (H3 ltac:(lia)).
  pose proof (wrote_put _ _ _ (e_command e) H3 ltac:(lia)) as H4. clear H1 H2 H3.
  rewrite <-!app_assoc in H4. fold (recordBody (index + 1) e) in H4.
  unfold Writer_u64, Writer_u32 at 2, Writer_bytes. set (w4 := Writer_put (e_command e) _) in *.
  assert (Hcrc : take (kHeaderSize + length (e_command e)) (drop (w_pos w) (w_out w4)) =
                 recordBody (index + 1) e).
  { destruct Hw as (_ & Hp & _), H4 as (_ & Hp4 & Ht4 & _). rewrite Hp4 in Ht4.
    rewrite <-(take_drop (length (bs ++ recordBody (index + 1) e)) (w_out w4)), Ht4, Hp.
    by rewrite <-app_assoc, drop_app_length, <-(length_recordBody (index + 1)), take_app_length. }
  rewrite Hcrc. pose proof (wrote_put _ _ _ (le_bytes 4 (crc32c (recordBody (index + 1) e) 0)) H4)
    as H5. rewrite length_le_bytes, <-app_assoc in H5. specialize (H5 ltac:(lia)).
  replace (room - recordSize e)%nat with (room - 8 - 8 - 4 - length (e_command e) - 4)%nat; [done|].
  unfold recordSize, kHeaderSize, kCrcSize. lia.
Qed.

Lemma appendRecords_wrote w bs room n es :
  wrote w bs room → (sum_list (recordSize <$> es) ≤ room)%nat →
  N.of_nat (n + length es) < two64 → Forall entry_ok es →
  wrote (foldl appendRecord (w, N.of_nat n) es).1 (bs ++ records n es)
    (room - sum_list (recordSize <$> es)).
Proof.
  revert w bs room n. induction es as [|e es IH]; intros w bs room n Hw Hroom Hn Hok; cbn in *.
  { by rewrite app_nil_r, Nat.sub_0_r. }
  apply Forall_cons in Hok as [He Hok].
  destruct (appendRecord_wrote w bs room (N.of_nat n) e) as (w' & E & Hw'); [done|lia..|done|].
  rewrite E.
  replace (N.of_nat n + 1) with (N.of_nat (S n)) at 1 by lia.
  specialize (IH w' _ _ (S n) Hw' ltac:(lia) ltac:(lia) Hok).
  rewrite <-app_assoc in IH.
  by replace (room - (recordSize e + sum_list (recordSize <$> es)))%nat with
    (room - recordSize e - sum_list (recordSize <$> es))%nat by lia.
Qed.

Lemma serialize_records d es :
  N.of_nat (length (d_entries d) + length es) < two64 → Forall entry_ok es →
  serialize d es = records (length (d_entries d)) es.
Proof.
  intros Hn Hok. apply wrote_full. unfold serialize, DurableLog_lastIndex.
  set (total := sum_list _). set (out := resizeBuf _ _).
  assert (length out = total) as Hl.
  { subst out. unfold resizeBuf. autorewrite with rsm_len. lia. }
  pose proof (appendRecords_wrote (Writer_init out) [] total (length (d_entries d)) es) as H.
  rewrite Nat.sub_diag in H. apply H; [|done..]. rewrite <-Hl. apply wrote_init.
Qed.

Lemma pwriteAt_end p f : pwriteAt p (length f) f = f ++ p.
Proof.
  unfold pwriteAt. rewrite take_ge, drop_ge by lia. by rewrite app_nil_r.
Qed.

(** Whatever the calls do, the file gains a prefix of the data, and the whole of
    it when the loop ends normally. *)
Lemma pwriteAll_prefix calls p f b f' :
  pwriteAll calls p (length f) f = (b, f') →
  ∃ k, f' = f ++ take k p ∧ (b = true → take k p = p).
Proof.
  revert p f. induction calls as [|c calls IH]; intros p f E.
  { destruct p; cbn in E; injection E as <- <-; exists 0%nat; by rewrite app_nil_r. }
  destruct p as [|x p]; [injection E as <- <-; exists 0%nat; by rewrite app_nil_r|].
  destruct c as [w| |]; cbn [pwriteAll] in E.
  - rewrite pwriteAt_end in E. destruct (Nat.lt_ge_cases w (length (x :: p))) as [Hw|Hw].
    + replace (length f + w)%nat with (length (f ++ take w (x :: p))) in E.
      2: { rewrite length_app, length_take. lia. }
      apply IH in E as (k & -> & Hall). exists (w + k)%nat.
      rewrite <-app_assoc. split.
      * f_equal. rewrite <-(take_drop w (x :: p)) at 3.
        by rewrite take_app_add' by (rewrite length_take; lia).
      * intros Hb. specialize (Hall Hb). rewrite <-(take_drop w (x :: p)) at 1.
        rewrite take_app_add' by (rewrite length_take; lia). by rewrite Hall, take_drop.
    + rewrite drop_ge, take_ge in E by done. exists (length (x :: p)).
      rewrite firstn_all. destruct calls; injection E as <- <-; done.
  - by apply IH in E.
  - injection E as <- <-. exists 0%nat. by rewrite app_nil_r.
Qed.

Lemma foldl_pushEntry d es :
  foldl pushEntry d es =
    mkDurableLog (d_file d) (d_entries d ++ es) (d_offsets d ++ offsetsOf (d_size d) es)
      (d_writeBuf d) (d_size d + sum_list (recordSize <$> es)) (d_tornBytesDiscarded d).
Proof.
  revert d. induction es as [|e es IH]; intros [f es0 offs wb sz tb]; cbn.
  { by rewrite !app_nil_r, Nat.add_0_r. }
  rewrite IH. cbn. by rewrite <-!app_assoc, Nat.add_assoc.
Qed.

(** A batch appended to a good log: either it is all there, or the process died
    and the file holds the old records and a byte prefix of the new ones. *)
Lemma append_cases calls d es :
  dl_ok d → Forall entry_ok es → N.of_nat (length (d_entries d) + length es) < two64 →
  match DurableLog_append calls d es with
  | Appended d' => dl_ok d' ∧ d_entries d' = d_entries d ++ es
  | DiedWriting f => ∃ k, f = d_file d ++ take k (records (length (d_entries d)) es)
  end.
Proof.
  intros Hd Hok Hn. unfold DurableLog_append. destruct es as [|e0 es0] eqn:Ees.
  { by rewrite app_nil_r. }
  rewrite <-Ees in *. clear Ees e0 es0.
  rewrite (dl_size _ Hd), serialize_records by done.
  destruct (pwriteAll _ _ _ _) as [b f] eqn:E. apply pwriteAll_prefix in E as (k & -> & Hall).
  destruct b; [|by exists k]. rewrite foldl_pushEntry. cbn. split; [|done].
  rewrite Hall by done. split; cbn.
  - by rewrite (dl_file _ Hd), records_app.
  - by rewrite (dl_offsets _ Hd), (dl_file _ Hd), offsetsOf_app, length_records.
  - by rewrite length_app, (length_records (length (d_entries d))).
  - by apply Forall_app_2; [apply dl_entries|].
  - by rewrite length_app.
Qed.

Lemma recover_prefix es es' k :
  Forall entry_ok es → Forall entry_ok es' → N.of_nat (length es + length es') + 1 < two64 →
  ∃ j torn, (j ≤ length es')%nat ∧
    replay (records 0 es ++ take k (records (length es) es')) =
      Some (Replayed (recovered (es ++ take j es') torn)).
Proof.
  intros Hok Hok' Hn.
  destruct (take_records (length es) es' k Hok') as (j & tl & -> & Hj & Htl & _).
  exists j, (length tl). split; [done|].
  pose proof (records_app 0 es (take j es')) as E. cbn [Nat.add] in E. rewrite app_assoc, <-E.
  apply replay_records.
  - apply Forall_app_2; [done|]. by apply Forall_take.
  - rewrite length_app, length_take. lia.
  - by rewrite length_app, length_take, Nat.min_l by done.
Qed.

(** The batch up to a record that is there in full size but was not written
    completely. *)
Lemma recover_partial es es' j e tl :
  Forall entry_ok es → Forall entry_ok es' → N.of_nat (length es + length es') + 1 < two64 →
  es' !! j = Some e → partial_record (N.of_nat (length es + j) + 1) e tl →
  replay (records 0 es ++ records (length es) (take j es') ++ tl) =
    Some (Replayed (recovered (es ++ take j es') (length tl))).
Proof.
  intros Hok Hok' Hn Hj Hp. pose proof (lookup_lt_Some _ _ _ Hj).
  pose proof (records_app 0 es (take j es')) as E. cbn [Nat.add] in E. rewrite app_assoc, <-E.
  apply replay_records.
  - apply Forall_app_2; [done|]. by apply Forall_take.
  - rewrite length_app, length_take. lia.
  - right. exists e. split; [by eapply Forall_lookup_1|]. right.
    by rewrite length_app, length_take, Nat.min_l by lia.
Qed.

Lemma recovered_full es :
  Forall entry_ok es → N.of_nat (length es) + 1 < two64 →
  replay (records 0 es) = Some (Replayed (recovered es 0)).
Proof.
  intros. rewrite <-(app_nil_r (records 0 es)). apply (replay_records es []); [done..|by left].
Qed.

(** With every call succeeding the loop of [pwriteAll] ends. *)
Lemma pwriteAll_whole p off f : pwriteAll [Wrote (length p)] p off f = (true, pwriteAt p off f).
Proof.
  destruct p as [|x p]; [|].
  - cbn. unfold pwriteAt. cbn. by rewrite Nat.add_0_r, take_drop.
  - cbn [pwriteAll]. rewrite drop_ge, take_ge by done. done.
Qed.

(** ** The durable log implements [RaftLog] *)

Definition DurableLog_appendWhole (d : DurableLog) (es : list LogEntry) : DurableLog :=
  match DurableLog_append [Wrote (length (serialize d es))] d es with
  | Appended d' => d'
  | DiedWriting _ => d
  end.

#[export] Instance DurableLog_RaftLog : RaftLog DurableLog := {
  log_entries := d_entries;
  log_append := DurableLog_appendWhole;
  log_termAt := DurableLog_termAt;
  log_entryAt := DurableLog_entryAt;
  log_entriesFrom := DurableLog_entriesFrom;
  log_entriesSpan := DurableLog_entriesSpan;
  log_truncateSuffixFrom := DurableLog_truncateSuffixFrom;
  log_lastIndex := DurableLog_lastIndex;
  log_lastTerm := DurableLog_lastTerm;
}.

#[export] Instance DurableLog_laws : RaftLogLaws DurableLog.
Proof.
  split; try done.
  - intros d es. cbn. unfold DurableLog_appendWhole, DurableLog_append, InMemoryLog_append.
    destruct es as [|e0 es0] eqn:E; [by rewrite app_nil_r|]. rewrite <-E in *.
    by rewrite pwriteAll_whole, foldl_pushEntry.
  - intros d i. cbn. unfold DurableLog_truncateSuffixFrom, InMemoryLog_truncateSuffixFrom.
    change (DurableLog_lastIndex d) with (InMemoryLog_lastIndex (d_entries d)).
    by destruct (InMemoryLog_lastIndex (d_entries d) <? _).
Qed.

(** *** truncateSuffixFrom *)

Lemma take_file es k :
  (k ≤ length es)%nat →
  take (sum_list (recordSize <$> take k es)) (records 0 es) = records 0 (take k es).
Proof.
  intros Hk. rewrite <-(take_drop k es) at 2. rewrite records_app.
  apply take_app_length'. by rewrite length_records.
Qed.

Lemma truncate_ok d i : dl_ok d → dl_ok (DurableLog_truncateSuffixFrom d i).
Proof.
  intros Hd. unfold DurableLog_truncateSuffixFrom, DurableLog_lastIndex.
  set (i' := if i <? 1 then 1 else i).
  assert (1 ≤ i') by (subst i'; destruct (N.ltb_spec i 1); lia).
  destruct (N.ltb_spec (N.of_nat (length (d_entries d))) i'); [done|].
  set (k := N.to_nat (i' - 1)). assert (k < length (d_entries d))%nat by lia.
  rewrite (dl_offsets _ Hd), offsetsOf_lookup by done. cbn [default Nat.add].
  assert (take (sum_list (recordSize <$> take k (d_entries d))) (d_file d) =
          records 0 (take k (d_entries d))) as E.
  { rewrite (dl_file _ Hd). apply take_file. lia. }
  split; cbn.
  - done.
  - apply offsetsOf_take.
  - by rewrite E, length_records.
  - apply Forall_take, Hd.
  - pose proof (dl_indices _ Hd). rewrite length_take. lia.
Qed.

(** ** What the storage promises *)

(** C12: an append is crash-safe.  From a log in good shape, whatever the
    [pwrite] calls do: if [append] returns, the log is in good shape, holds the
    old entries followed by the whole batch, and a restart finds exactly that;
    if the process dies in the middle of the write, a restart recovers the old
    entries followed by a prefix of the batch, in good shape again - never an
    exception, never a lost or altered old entry, never a partial one. *)
Theorem append_crash_safe calls d es :
  dl_ok d → Forall entry_ok es → N.of_nat (length (d_entries d) + length es) + 1 < two64 →
  match DurableLog_append calls d es with
  | Appended d' =>
      dl_ok d' ∧ d_entries d' = d_entries d ++ es ∧
      replay (d_file d') = Some (Replayed (recovered (d_entries d ++ es) 0))
  | DiedWriting f =>
      ∃ j torn, (j ≤ length es)%nat ∧
        replay f = Some (Replayed (recovered (d_entries d ++ take j es) torn)) ∧
        dl_ok (recovered (d_entries d ++ take j es) torn)
  end.
Proof.
  intros Hd Hok Hn. pose proof (append_cases calls d es Hd Hok ltac:(lia)) as H.
  destruct (DurableLog_append calls d es) as [d'|f].
  - destruct H as [Hd' He]. rewrite (dl_file _ Hd'), He. split_and!; try done.
    apply recovered_full; [|rewrite length_app; lia]. rewrite <-He. apply Hd'.
  - destruct H as [k ->]. rewrite (dl_file _ Hd).
    destruct (recover_prefix (d_entries d) es k) as (j & torn & Hj & E); [apply Hd|done|lia|].
    exists j, torn. split_and!; [done..|]. apply dl_ok_recovered.
    + apply Forall_app_2; [apply Hd|by apply Forall_take].
    + rewrite length_app, length_take. lia.
Qed.

(** *** Damage to a record that is not the last *)

(** The loop stops with an exception at a record that does not check, when bytes
    follow it. *)
Lemma replayLoop_corrupt fuel pre rec tl entries offsets index term len r :
  readHeader (Reader_init (rec ++ tl)) = (index, term, N.of_nat len, r) →
  length rec = (kHeaderSize + len + kCrcSize)%nat → tl ≠ [] →
  storedCrcAt rec (kHeaderSize + len) ≠ crc32c (take (kHeaderSize + len) rec) 0 ∨
    index ≠ N.of_nat (length entries) + 1 →
  replayLoop (S fuel) (pre ++ rec ++ tl) entries offsets (length pre) =
    Some (CorruptRecord (length pre)).
Proof.
  intros Hh Hlen Htl Hbad. unfold kHeaderSize, kCrcSize in Hlen.
  assert (0 < length tl)%nat by (destruct tl; cbn; [done|lia]).
  cbn [replayLoop]. rewrite !length_app.
  destruct (Nat.ltb_spec (length pre) (length pre + (length rec + length tl))); [|lia].
  destruct (Nat.ltb_spec (length pre + (length rec + length tl) - length pre) kHeaderSize);
    [unfold kHeaderSize in *; lia|].
  rewrite drop_app_length, Hh, Nat2N.id.
  destruct (Nat.ltb_spec (length pre + (length rec + length tl) - length pre)
    (kHeaderSize + len + kCrcSize)); [unfold kHeaderSize, kCrcSize in *; lia|].
  rewrite take_app_le by (unfold kHeaderSize; lia).
  assert (storedCrcAt (pre ++ rec ++ tl) (length pre + kHeaderSize + len) =
          storedCrcAt rec (kHeaderSize + len)) as ->.
  { unfold storedCrcAt. rewrite <-Nat.add_assoc, <-drop_drop, drop_app_length.
    rewrite drop_app_le by (unfold kHeaderSize; lia).
    rewrite take_app_le; [done|]. rewrite length_drop. unfold kHeaderSize. lia. }
  destruct (_ && _) eqn:E; [breflect; tauto|].
  destruct (Nat.eqb_spec (kHeaderSize + len + kCrcSize)
    (length pre + (length rec + length tl) - length pre)); [|done].
  unfold kHeaderSize, kCrcSize in *. lia.
Qed.

Lemma replay_corrupt es rec tl index term len r :
  Forall entry_ok es → N.of_nat (length es) + 1 < two64 →
  readHeader (Reader_init (rec ++ tl)) = (index, term, N.of_nat len, r) →
  length rec = (kHeaderSize + len + kCrcSize)%nat → tl ≠ [] →
  storedCrcAt rec (kHeaderSize + len) ≠ crc32c (take (kHeaderSize + len) rec) 0 ∨
    index ≠ N.of_nat (length es) + 1 →
  replay (records 0 es ++ rec ++ tl) = Some (CorruptRecord (length (records 0 es))).
Proof.
  intros Hok Hn Hh Hlen Htl Hbad. unfold replay. pose proof (length_records_ge 0 es) as Hge.
  set (buf := records 0 es ++ rec ++ tl).
  replace (S (length buf)) with (length es + S (length buf - length es))%nat
    by (subst buf; rewrite length_app; lia).
  pose proof (replayLoop_records (S (length buf - length es)) [] es (rec ++ tl) [] [] Hok) as H.
  cbn [app length Nat.add] in H. subst buf. rewrite H by lia.
  by eapply replayLoop_corrupt.
Qed.

Lemma readHeader_raw bs :
  (20 ≤ length bs)%nat →
  ∃ r, readHeader (Reader_init bs) =
    (le_value (take 8 bs), le_value (take 8 (drop 8 bs)), le_value (take 4 (drop 16 bs)), r).
Proof.
  intros Hl. unfold readHeader, Reader_u64, Reader_u32, mbind, Rd_bind, mret, Rd_ret, Reader_take,
    Reader_remaining, Reader_init.
  do 3 (cbn [r_in r_pos r_ok orb negb]; rewrite (proj2 (Nat.ltb_ge _ _)) by lia).
  by eexists.
Qed.

(** A changed byte of the checksummed part, or of the checksum. *)
Lemma changed_record_fails i e p b b' :
  recordBytes i e !! p = Some b → b ≠ b' →
  let rec := <[p := b']> (recordBytes i e) in
  let n := (kHeaderSize + length (e_command e))%nat in
  storedCrcAt rec n ≠ crc32c (take n rec) 0.
Proof.
  intros Hp Hb rec n. pose proof (lookup_lt_Some _ _ _ Hp) as Hlt.
  rewrite length_recordBytes in Hlt.
  assert (Hl : length rec = (n + 4)%nat).
  { subst rec. rewrite length_insert, length_recordBytes. done. }
  rewrite storedCrcAt_value, take_ge by (rewrite ?length_drop; lia).
  subst rec n. rewrite <-(length_recordBody i). by eapply sealed_change.
Qed.

(** Damage is detected.  Changing any one byte of a record other than its
    length field (bytes 16 to 19), anywhere but in the last record of the file,
    makes [replay] throw at that record instead of dropping or altering entries. *)
Theorem flipped_byte_detected es e e2 es2 p b b' :
  Forall entry_ok (es ++ e :: e2 :: es2) → N.of_nat (length es) + 1 < two64 →
  recordBytes (N.of_nat (length es) + 1) e !! p = Some b → b ≠ b' →
  (p < 16 ∨ 20 ≤ p)%nat →
  replay (<[(length (records 0 es) + p)%nat := b']> (records 0 (es ++ e :: e2 :: es2))) =
    Some (CorruptRecord (length (records 0 es))).
Proof.
  intros Hok Hn Hp Hb Hout. apply Forall_app in Hok as [Hes Hok].
  apply Forall_cons in Hok as [[Ht Hc] _]. pose proof (lookup_lt_Some _ _ _ Hp) as Hlt.
  rewrite records_app, insert_app_r. cbn [records Nat.add].
  set (i := N.of_nat (length es) + 1) in *.
  rewrite insert_app_l by done. set (rec := <[p := b']> (recordBytes i e)).
  assert (Hlen : length rec = recordSize e)
    by (subst rec; by rewrite length_insert, length_recordBytes).
  assert (Hf : take 4 (drop 16 rec) = le_bytes 4 (N.of_nat (length (e_command e)))).
  { transitivity (take 4 (drop 16 (recordBytes i e))).
    - subst rec. destruct Hout.
      + by rewrite drop_insert_lt by lia.
      + by rewrite drop_insert_ge, take_insert_ge by lia.
    - unfold recordBytes, recordBody. rewrite <-!app_assoc, (app_assoc (le_bytes 8 i)).
      rewrite drop_app_length' by (by autorewrite with rsm_len).
      by rewrite take_app_length' by (by rewrite length_le_bytes). }
  destruct (readHeader_raw (rec ++ recordBytes (N.of_nat (S (length es)) + 1) e2 ++
    records (S (S (length es))) es2)) as [r Hr].
  { pose proof (recordSize_ge e). rewrite length_app. lia. }
  pose proof (recordSize_ge e) as Hge.
  rewrite (drop_app_le _ _ 16), (take_app_le (drop 16 rec)), Hf in Hr
    by (rewrite ?length_drop; lia).
  rewrite le_value_le_bytes_small in Hr by done.
  eapply replay_corrupt; [done|done|exact Hr|exact Hlen| |].
  - intros E. apply (f_equal length) in E. rewrite length_app, length_recordBytes in E.
    pose proof (recordSize_ge e2). cbn in E. lia.
  - left. by eapply changed_record_fails.
Qed.

(** *** Replaying an arbitrary file *)

Lemma take_le_value n k bs :
  (k + n ≤ length bs)%nat → le_bytes n (le_value (take n (drop k bs))) = take n (drop k bs).
Proof. intros. apply le_bytes_le_value. autorewrite with rsm_len. lia. Qed.

(** Bytes that pass the checks of the loop are the record of the entry it reads. *)
Lemma checked_record bs len i :
  (20 + len + 4 ≤ length bs)%nat → N.of_nat len = le_value (take 4 (drop 16 bs)) →
  i = le_value (take 8 bs) →
  storedCrcAt bs (20 + len) = crc32c (take (20 + len) bs) 0 →
  let e := mkLogEntry (le_value (take 8 (drop 8 bs))) (take len (drop 20 bs)) in
  bs = recordBytes i e ++ drop (20 + len + 4) bs ∧ entry_ok e ∧ recordSize e = (20 + len + 4)%nat.
Proof.
  intros Hl Hlen -> Hcrc e.
  assert (Hcmd : length (e_command e) = len) by (cbn; autorewrite with rsm_len; lia).
  assert (Hbody : recordBody (le_value (take 8 bs)) e = take (20 + len) bs).
  { unfold recordBody. rewrite Hcmd, Hlen, take_le_value by lia.
    pose proof (take_le_value 8 0 bs ltac:(lia)) as H0. rewrite drop_0 in H0. rewrite H0.
    cbn [e e_term e_command]. rewrite take_le_value by lia.
    change (20 + len)%nat with (8 + (8 + (4 + len)))%nat.
    by rewrite <-(take_take_drop _ 8), <-(take_take_drop _ 8), <-(take_take_drop _ 4), !drop_drop. }
  split_and!.
  - unfold recordBytes. rewrite Hbody, <-Hcrc, storedCrcAt_value, take_le_value by lia.
    by rewrite <-app_assoc, <-(drop_drop _ 4 (20 + len)), take_drop, take_drop.
  - split; cbn.
    + eapply N.lt_le_trans; [apply le_value_lt|]. autorewrite with rsm_len.
      rewrite Nat.min_l by lia. done.
    + unfold blob_ok. cbn in Hcmd. rewrite Hcmd, Hlen.
      eapply N.lt_le_trans; [apply le_value_lt|]. autorewrite with rsm_len.
      rewrite Nat.min_l by lia. done.
  - unfold recordSize. by rewrite Hcmd.
Qed.

Lemma replayLoop_sound fuel entries rest :
  Forall entry_ok entries →
  (length rest < fuel)%nat → N.of_nat (length (records 0 entries ++ rest)) < two64 →
  match replayLoop fuel (records 0 entries ++ rest) entries (offsetsOf 0 entries)
          (length (records 0 entries)) with
  | None => False
  | Some (CorruptRecord _) => True
  | Some (Replayed d) => dl_ok d ∧ take (d_size d) (records 0 entries ++ rest) = d_file d
  end.
Proof.
  revert entries rest. induction fuel as [|fuel IH]; intros entries bs Hok Hf Hb; [lia|].
  pose proof (length_records_ge 0 entries) as Hge. rewrite length_app in Hb.
  assert (N.of_nat (length entries) < two64) as Hn by lia.
  assert (Hgood : ∀ torn, dl_ok (recovered entries torn)) by (intros; by apply dl_ok_recovered).
  assert (Htorn : discardTorn (records 0 entries ++ bs) entries (offsetsOf 0 entries)
    (length (records 0 entries)) = Replayed (recovered entries (length bs))).
  { unfold discardTorn, recovered. rewrite take_app_length, length_app. do 2 f_equal. lia. }
  assert (Htake : take (length (records 0 entries)) (records 0 entries ++ bs) = records 0 entries)
    by apply take_app_length.
  cbn [replayLoop]. rewrite length_app.
  destruct (Nat.ltb_spec (length (records 0 entries)) (length (records 0 entries) + length bs)).
  2: { destruct bs; [|cbn in *; lia]. rewrite !app_nil_r in *. split; [apply (Hgood 0%nat)|done]. }
  rewrite (Nat.add_comm (length _) (length bs)), Nat.add_sub.
  destruct (Nat.ltb_spec (length bs) kHeaderSize) as [|Hh]; [by rewrite Htorn|].
  rewrite drop_app_length. destruct (readHeader_raw bs Hh) as [r ->].
  set (len := N.to_nat (le_value (take 4 (drop 16 bs)))).
  destruct (Nat.ltb_spec (length bs) (kHeaderSize + len + kCrcSize)) as [|Hx]; [by rewrite Htorn|].
  destruct (_ && _) eqn:E; [|destruct (_ =? _)%nat; [by rewrite Htorn|done]].
  apply andb_true_iff in E as [Ecrc Ei]. breflect.
  destruct (checked_record bs len (N.of_nat (length entries) + 1)) as (Ebs & He & Hsz).
  { exact Hx. } { subst len. by rewrite N2Nat.id. } { done. }
  { unfold kHeaderSize in Ecrc. rewrite <-Ecrc. unfold storedCrcAt.
    by rewrite <-Nat.add_assoc, <-(drop_drop _ (20 + len)), drop_app_length. }
  rewrite <-(drop_drop _ kHeaderSize), drop_app_length.
  set (e := mkLogEntry _ _) in *. change (kHeaderSize + len + kCrcSize)%nat with (20 + len + 4)%nat.
  rewrite <-Hsz in *. clear Htorn Htake Hgood.
  set (tl := drop (recordSize e) bs) in *.
  assert (Hl : length bs = (recordSize e + length tl)%nat).
  { rewrite Ebs, length_app, length_recordBytes. done. }
  pose proof (recordSize_ge e). specialize (IH (entries ++ [e]) tl).
  rewrite records_snoc, <-app_assoc in IH. cbn [Nat.add] in IH. rewrite <-Ebs in IH.
  rewrite offsetsOf_app, <-(length_records 0), !length_app, length_recordBytes in IH.
  apply IH; [by apply Forall_app_2; [|constructor]|lia..].
Qed.

(** Opening a log terminates, and what it accepts is a log.  For every file
    contents whatever, [replay] ends; when it does not throw, the entries,
    offsets and size it built are in good shape, and the file was cut back to
    exactly the records of those entries. *)
Theorem replay_sound buf :
  N.of_nat (length buf) < two64 →
  ∃ res, replay buf = Some res ∧
    match res with
    | Replayed d => dl_ok d ∧ d_file d = take (d_size d) buf
    | CorruptRecord _ => True
    end.
Proof.
  intros Hb. pose proof (replayLoop_sound (S (length buf)) [] buf) as H.
  unfold replay. cbn [records app length offsetsOf] in H.
  specialize (H ltac:(done) ltac:(lia) Hb).
  destruct (replayLoop _ _ _ _ _) as [[d|off]|]; [|by eexists..|done].
  destruct H as [? ?]. by eexists.
Qed.

Lemma replay_zeros es tl :
  Forall entry_ok es → N.of_nat (length es) + 1 < two64 → tl ≠ [] →
  replay (records 0 es ++ replicate 24 x00 ++ tl) = Some (CorruptRecord (length (records 0 es))).
Proof.
  intros. destruct (readHeader_raw (replicate 24 x00 ++ tl)) as [r Hr];
    [rewrite length_app, length_replicate; lia|].
  eapply (replay_corrupt es (replicate 24 x00) tl 0 0 0); try done. right. lia.
Qed.

(** Not every interrupted append is recovered.  Suppose the file reached its
    new length before the first bytes of the appended batch reached the disk, so
    that the first [n] of them (24 or more, in a batch longer than that) read as
    zeros.  Then [replay] throws, although nothing but an unacknowledged append
    was lost. *)
Theorem unwritten_record_refused es es' n :
  Forall entry_ok es → N.of_nat (length es) + 1 < two64 →
  let buf := records (length es) es' in
  (24 ≤ n ≤ length buf)%nat → (24 < length buf)%nat →
  replay (records 0 es ++ replicate n x00 ++ drop n buf) =
    Some (CorruptRecord (length (records 0 es))).
Proof.
  intros Hok Hn buf [H24 Hle] Hlen.
  replace n with (24 + (n - 24))%nat at 1 by lia. rewrite replicate_add, <-app_assoc.
  apply replay_zeros; [done..|]. intros E. apply (f_equal length) in E.
  rewrite length_app, length_replicate, length_drop in E. cbn in E. lia.
Qed.

(** ** Sample logs *)

Module LogSample.

Definition e1 : LogEntry := mkLogEntry 1 [x41; x42].
Definition e2 : LogEntry := mkLogEntry 1 [].
Definition e3 : LogEntry := mkLogEntry 2 [x43].

Lemma sample_ok : Forall entry_ok [e1; e2; e3].
Proof. by repeat constructor. Qed.

Definition d2 : DurableLog := recovered [e1; e2] 0.

Lemma d2_ok : dl_ok d2.
Proof. apply dl_ok_recovered; [|done]. by repeat constructor. Qed.

(** The process dies after seven bytes of a two-record batch: both are gone, the
    older two are kept. *)
Lemma append_crash_safe_witness :
  dl_ok d2 ∧
  match DurableLog_append [Wrote 5; Interrupted; Wrote 2] d2 [e3; e1] with
  | Appended _ => False
  | DiedWriting f => ∃ j torn, (j ≤ 2)%nat ∧
      replay f = Some (Replayed (recovered ([e1; e2] ++ take j [e3; e1]) torn)) ∧
      dl_ok (recovered ([e1; e2] ++ take j [e3; e1]) torn)
  end.
Proof.
  split; [exact d2_ok|].
  exact (append_crash_safe [Wrote 5; Interrupted; Wrote 2] d2 [e3; e1] d2_ok
    ltac:(by repeat constructor) ltac:(done)).
Defined.

Lemma flipped_byte_detected_witness :
  replay (<[21%nat := x00]> (records 0 [e1; e2; e3])) = Some (CorruptRecord 0).
Proof.
  apply (flipped_byte_detected [] e1 e2 [e3] 21 x42 x00 sample_ok); try done.
  right. lia.
Defined.

Lemma replay_sound_witness :
  ∃ res, replay (records 0 [e1; e2] ++ [x09; x09]) = Some res ∧
    match res with
    | Replayed d => dl_ok d ∧ d_file d = take (d_size d) (records 0 [e1; e2] ++ [x09; x09])
    | CorruptRecord _ => True
    end.
Proof. apply replay_sound. by vm_compute. Defined.

Lemma unwritten_record_refused_witness :
  replay (records 0 [e1] ++ replicate 24 x00 ++ drop 24 (records 1 [e2; e3])) =
    Some (CorruptRecord 26).
Proof.
  apply (unwritten_record_refused [e1] [e2; e3] 24); [by repeat constructor|done|..];
    vm_compute; lia.
Defined.

End LogSample.
