(* ===== verification/DurableState.v ===== *)
(** * src/storage/durable_state.cpp: term and vote on disk

    The metadata file and the write-fsync-rename-fsync protocol that replaces it.
    The file system is the part of POSIX the protocol relies on: file contents
    are guaranteed only after [fsync] of the file, a directory change only after
    [fsync] of the directory, and [rename] replaces the target in one step.  A
    crash keeps what is guaranteed and leaves everything else open. *)

From Stdlib Require Import NArith Strings.Byte Lia.
From S2P Require Import Prelude Wire Messages Codec Log Crc32c.

Local Open Scope N_scope.

(** ** The file system under the protocol *)

Record Inode := mkInode {
  i_data : list byte;
  i_synced : bool;          (* contents flushed since the last change *)
}.

(** The two names of the data directory the protocol uses. *)
Record Dir := mkDir {
  n_meta : option nat;      (* meta *)
  n_tmp : option nat;       (* meta.tmp *)
}.

Record FS := mkFS {
  inodes : list Inode;
  dir : Dir;                (* as running processes see it *)
  disk_dirs : list Dir;     (* every image a crash may leave *)
}.

(** The system calls of [save], on [tmpPath_], [path_] and [dir_]. *)
Inductive FsOp :=
| OpenTrunc                 (* open(tmp, O_WRONLY | O_CREAT | O_TRUNC) *)
| Pwrite (p : list byte)    (* pwriteAll(fd, p, n, 0) *)
| Fsync                     (* fsync(fd) *)
| Rename                    (* rename(tmp, path) *)
| FsyncDir                  (* fsyncDir(dir) *)
| UnlinkTmp.                (* unlink(tmp) *)

Definition fs_setdir (d : Dir) (fs : FS) : FS := mkFS (inodes fs) d (disk_dirs fs ++ [d]).

Definition fs_setinode (i : nat) (ino : Inode) (fs : FS) : FS :=
  mkFS (<[i := ino]> (inodes fs)) (dir fs) (disk_dirs fs).

Definition fs_step (fs : FS) (op : FsOp) : FS :=
  match op with
  | OpenTrunc =>
      match n_tmp (dir fs) with
      | Some i => fs_setinode i (mkInode [] false) fs
      | None =>
          fs_setdir (mkDir (n_meta (dir fs)) (Some (length (inodes fs))))
            (mkFS (inodes fs ++ [mkInode [] false]) (dir fs) (disk_dirs fs))
      end
  | Pwrite p =>
      match n_tmp (dir fs) with
      | Some i =>
          match inodes fs !! i with
          | Some ino => fs_setinode i (mkInode (p ++ drop (length p) (i_data ino)) false) fs
          | None => fs
          end
      | None => fs
      end
  | Fsync =>
      match n_tmp (dir fs) with
      | Some i =>
          match inodes fs !! i with
          | Some ino => fs_setinode i (mkInode (i_data ino) true) fs
          | None => fs
          end
      | None => fs
      end
  | Rename =>
      match n_tmp (dir fs) with
      | Some i => fs_setdir (mkDir (Some i) None) fs
      | None => fs
      end
  | FsyncDir => mkFS (inodes fs) (dir fs) [dir fs]
  | UnlinkTmp =>
      match n_tmp (dir fs) with
      | Some _ => fs_setdir (mkDir (n_meta (dir fs)) None) fs
      | None => fs
      end
  end.

(** A crash: some image of the directory, flushed contents as they were, the
    others arbitrary. *)
Definition survives (ino ino' : Inode) : Prop :=
  i_synced ino' = true ∧ (i_synced ino = true → i_data ino' = i_data ino).

Definition fs_crash (fs fs' : FS) : Prop :=
  Forall2 survives (inodes fs) (inodes fs') ∧ dir fs' ∈ disk_dirs fs ∧
  disk_dirs fs' = [dir fs'].

(** ** DurablePersistentState *)

Definition kMagic : N := 0x4D4D5352.
Definition kVersion : N := 1.
Definition kMetaSize : nat := 20.
Definition kCrcOffset : nat := 16.

(** The buffer [save] fills; the checksum is of the buffer as written so far. *)
Definition metaBuf (term : Term) (votedFor : option NodeId) : list byte :=
  let w := Writer_init (replicate kMetaSize x00) in
  let w := Writer_u32 kMagic w in
  let w := Writer_u8 kVersion w in
  let w := Writer_u64 term w in
  let w := Writer_u8 (match votedFor with Some _ => 1 | None => 0 end) w in
  let w := Writer_u16 (default 0 votedFor) w in
  let w := Writer_u32 (crc32c (take kCrcOffset (w_out w)) 0) w in
  w_out w.

(** The system calls of [save], in order. *)
Definition saveOps (term : Term) (votedFor : option NodeId) : list FsOp :=
  [OpenTrunc; Pwrite (metaBuf term votedFor); Fsync; Rename; FsyncDir].

Inductive OpenResult :=
| Opened (term : Term) (votedFor : option NodeId)
| WrongSize                 (* both throw *)
| CorruptMeta.

Definition readMeta : Rd (N * N * N * N * N * N) :=
  magic ← Reader_u32; version ← Reader_u8; term ← Reader_u64;
  hasVote ← Reader_u8; vote ← Reader_u16; storedCrc ← Reader_u32;
  mret (magic, version, term, hasVote, vote, storedCrc).

(** The contents of an existing metadata file, as the constructor judges them. *)
Definition parseMeta (data : list byte) : OpenResult :=
  let buf := take (S kMetaSize) data in
  if negb (length buf =? kMetaSize)%nat then WrongSize
  else
    let crc := crc32c (take kCrcOffset buf) 0 in
    let '(magic, version, term, hasVote, vote, storedCrc, _) :=
      readMeta (Reader_init (take kMetaSize buf)) in
    if negb (magic =? kMagic) || negb (version =? kVersion) || (1 <? hasVote) ||
       negb (storedCrc =? crc)
    then CorruptMeta
    else Opened term (if hasVote =? 1 then Some vote else None).

Record DurablePersistentState := mkDurablePersistentState {
  s_fs : FS;
  s_term : Term;                   (* term_ *)
  s_votedFor : option NodeId;      (* votedFor_ *)
}.

(** What the constructor finds under [path_]; a name always has an inode. *)
Definition loadMeta (fs : FS) : OpenResult :=
  match n_meta (dir fs) with
  | None => Opened 0 None
  | Some i =>
      match inodes fs !! i with
      | Some ino => parseMeta (i_data ino)
      | None => Opened 0 None
      end
  end.

Definition DurablePersistentState_open (fs : FS) : option DurablePersistentState :=
  let fs := fs_step fs UnlinkTmp in
  match loadMeta fs with
  | Opened term votedFor => Some (mkDurablePersistentState fs term votedFor)
  | _ => None
  end.

Definition DurablePersistentState_save (s : DurablePersistentState) (term : Term)
    (votedFor : option NodeId) : DurablePersistentState :=
  mkDurablePersistentState (foldl fs_step (s_fs s) (saveOps term votedFor)) term votedFor.

#[export] Instance DurablePersistentState_PersistentState :
    PersistentState DurablePersistentState := {
  ps_currentTerm := s_term;
  ps_votedFor := s_votedFor;
  ps_save := DurablePersistentState_save;
}.

#[export] Instance DurablePersistentState_laws : PersistentStateLaws DurablePersistentState.
Proof. by split. Qed.

(** ** The file format *)

Definition hasVote_of (v : option NodeId) : N := match v with Some _ => 1 | None => 0 end.

Definition metaBody (t : Term) (v : option NodeId) : list byte :=
  le_bytes 4 kMagic ++ le_bytes 1 kVersion ++ le_bytes 8 t ++ le_bytes 1 (hasVote_of v) ++
  le_bytes 2 (default 0 v).

Definition metaBytes (t : Term) (v : option NodeId) : list byte :=
  metaBody t v ++ le_bytes 4 (crc32c (metaBody t v) 0).

(** Ranges of the C++ types. *)
Definition meta_range (t : Term) (v : option NodeId) : Prop := t < two64 ∧ default 0 v < two16.

Lemma length_metaBody t v : length (metaBody t v) = kCrcOffset.
Proof. unfold metaBody. by autorewrite with rsm_len. Qed.

Lemma length_metaBytes t v : length (metaBytes t v) = kMetaSize.
Proof. unfold metaBytes. by rewrite length_app, length_metaBody, length_le_bytes. Qed.

Ltac wrote_next H p :=
  let H' := fresh in
  pose proof (wrote_put _ _ _ p H) as H'; autorewrite with rsm_len in H';
  specialize (H' ltac:(cbn; lia)); clear H; rename H' into H; cbn [Nat.sub] in H.

Lemma metaBuf_bytes t v : metaBuf t v = metaBytes t v.
Proof.
  unfold metaBuf. fold (hasVote_of v).
  pose proof (wrote_init (replicate kMetaSize x00)) as H.
  rewrite length_replicate in H. unfold kMetaSize in *.
  wrote_next H (le_bytes 4 kMagic). wrote_next H (le_bytes 1 kVersion).
  wrote_next H (le_bytes 8 t). wrote_next H (le_bytes 1 (hasVote_of v)).
  wrote_next H (le_bytes 2 (default 0 v)). rewrite <-!app_assoc in H. cbn [app] in H.
  fold (metaBody t v) in H. unfold Writer_u32 at 1.
  match type of H with wrote ?w0 _ _ =>
    match goal with |- w_out (Writer_put (le_bytes 4 (crc32c (take _ (w_out ?w1)) 0)) _) = _ =>
      change w1 with w0 end; set (w := w0) in * end.
  assert (take kCrcOffset (w_out w) = metaBody t v) as ->.
  { destruct H as (_ & Hp & Ht & _). by rewrite Hp, length_metaBody in Ht. }
  wrote_next H (le_bytes 4 (crc32c (metaBody t v) 0)).
  destruct H as (_ & Hp & Ht & Hl). fold (metaBytes t v) in *. rewrite <-Ht. symmetry.
  apply take_ge. rewrite Hl, Hp. lia.
Qed.

Lemma readMeta_bytes t v c :
  meta_range t v → c < two32 →
  ∃ r, readMeta (Reader_init (metaBody t v ++ le_bytes 4 c)) =
    (kMagic, kVersion, t, hasVote_of v, default 0 v, c, r).
Proof.
  intros [Ht Hv] Hc. unfold metaBody. rewrite <-!app_assoc.
  rewrite <-(app_nil_r (le_bytes 4 c)).
  set (bs := _ ++ _). pose proof (rwf_init bs) as Hwf. pose proof (rest_init bs) as Hr.
  assert (Hok : r_ok (Reader_init bs) = true) by done. subst bs. unfold readMeta.
  rd_forward reads_u32; [done|]. rd_forward reads_u8; [done|]. rd_forward reads_u64; [done|].
  rd_forward reads_u8; [by destruct v|]. rd_forward reads_u16; [done|].
  rd_forward reads_u32; [done|]. by eexists.
Qed.

Lemma parse_metaBuf t v : meta_range t v → parseMeta (metaBuf t v) = Opened t v.
Proof.
  intros Hr. rewrite metaBuf_bytes. unfold parseMeta.
  rewrite !(take_ge (metaBytes t v)) by (rewrite length_metaBytes; unfold kMetaSize; lia).
  rewrite length_metaBytes. cbn [negb Nat.eqb kMetaSize].
  unfold metaBytes at 2. rewrite take_app_length' by (by rewrite length_metaBody).
  destruct (readMeta_bytes t v (crc32c (metaBody t v) 0) Hr (crc32c_two32 _)) as [r E].
  fold (metaBytes t v) in E.
  rewrite E, !N.eqb_refl. cbn [negb orb]. by destruct v.
Qed.

(** ** Crash atomicity *)

(** The directory image [d] has [t] and [v] on stable storage. *)
Definition meta_holds (fs : FS) (d : Dir) (t : Term) (v : option NodeId) : Prop :=
  match n_meta d with
  | None => t = 0 ∧ v = None
  | Some i => inodes fs !! i = Some (mkInode (metaBuf t v) true)
  end.

(** Between two saves: no temporary file, and every image a crash may leave has
    the same term and vote. *)
Record clean (fs : FS) (t : Term) (v : option NodeId) : Prop := {
  clean_tmp : n_tmp (dir fs) = None;
  clean_dir : dir fs ∈ disk_dirs fs;
  clean_meta : ∀ d, d ∈ disk_dirs fs → meta_holds fs d t v;
  clean_range : meta_range t v;
}.

Lemma meta_holds_grow fs fs' d d' t v l :
  inodes fs' = inodes fs ++ l → n_meta d' = n_meta d → meta_holds fs d t v → meta_holds fs' d' t v.
Proof.
  intros Hi Hd. unfold meta_holds. rewrite Hd. destruct (n_meta d); [|done].
  rewrite Hi. apply lookup_app_l_Some.
Qed.

(** The file system after the first [k] calls of a [save]. *)
Definition saving (fs : FS) (buf : list byte) (k : nat) : FS :=
  let n := length (inodes fs) in
  let d1 := mkDir (n_meta (dir fs)) (Some n) in
  let d2 := mkDir (Some n) None in
  match k with
  | 0%nat => fs
  | 1%nat => mkFS (inodes fs ++ [mkInode [] false]) d1 (disk_dirs fs ++ [d1])
  | 2%nat => mkFS (inodes fs ++ [mkInode buf false]) d1 (disk_dirs fs ++ [d1])
  | 3%nat => mkFS (inodes fs ++ [mkInode buf true]) d1 (disk_dirs fs ++ [d1])
  | 4%nat => mkFS (inodes fs ++ [mkInode buf true]) d2 ((disk_dirs fs ++ [d1]) ++ [d2])
  | _ => mkFS (inodes fs ++ [mkInode buf true]) d2 [d2]
  end.

Lemma insert_snoc {A} (l : list A) x y : <[length l := y]> (l ++ [x]) = l ++ [y].
Proof. rewrite <-(Nat.add_0_r (length l)). by rewrite insert_app_r. Qed.

Lemma saveOps_saving fs k t v :
  n_tmp (dir fs) = None →
  foldl fs_step fs (take k (saveOps t v)) = saving fs (metaBuf t v) k.
Proof.
  intros Htmp. set (buf := metaBuf t v).
  assert (Hk : ∀ k, (k < 5)%nat → foldl fs_step (saving fs buf k) (take 1 (drop k (saveOps t v))) =
    saving fs buf (S k)).
  { intros j Hj. destruct j as [|[|[|[|[|]]]]]; [..|lia]; cbn -[metaBuf]; fold buf.
    - by rewrite Htmp.
    - rewrite lookup_app_r, Nat.sub_diag by done. cbn. unfold fs_setinode. cbn.
      by rewrite drop_nil, app_nil_r, insert_snoc.
    - rewrite lookup_app_r, Nat.sub_diag by done. cbn. unfold fs_setinode. cbn.
      by rewrite insert_snoc.
    - done.
    - done. }
  induction k as [|k IH]; [done|]. destruct (Nat.lt_ge_cases k 5) as [Hlt|Hge].
  - replace (S k) with (k + 1)%nat by lia.
    rewrite <-take_take_drop, foldl_app, IH, Hk by done. by rewrite Nat.add_1_r.
  - rewrite take_ge in IH |- * by (cbn; lia). rewrite IH.
    by destruct k as [|[|[|[|[|]]]]]; try lia.
Qed.

(** Which term and vote each image holds. *)
Lemma saving_holds fs t v t' v' k d :
  clean fs t v → d ∈ disk_dirs (saving fs (metaBuf t' v') k) →
  let fs' := saving fs (metaBuf t' v') k in
  (meta_holds fs' d t v ∧ (k < 5)%nat) ∨ (meta_holds fs' d t' v' ∧ (4 ≤ k)%nat).
Proof.
  intros Hc Hd fs'. pose proof (clean_meta _ _ _ Hc) as Hm.
  pose proof (Hm _ (clean_dir _ _ _ Hc)) as Hm0.
  assert (Hnew : ∀ l, l = inodes fs ++ [mkInode (metaBuf t' v') true] → inodes fs' = l →
    meta_holds fs' (mkDir (Some (length (inodes fs))) None) t' v').
  { intros l -> E. unfold meta_holds. cbn -[metaBuf]. rewrite E.
    by rewrite lookup_app_r, Nat.sub_diag. }
  assert (Hold : ∀ l d', inodes fs' = inodes fs ++ l →
    d' ∈ disk_dirs fs ++ [mkDir (n_meta (dir fs)) (Some (length (inodes fs)))] →
    meta_holds fs' d' t v).
  { intros l d' E Hin. apply elem_of_app in Hin as [Hin|Hin%list_elem_of_singleton].
    - by eapply meta_holds_grow; [exact E| |apply Hm].
    - subst d'. by eapply meta_holds_grow; [exact E| |exact Hm0]. }
  subst fs'. destruct k as [|[|[|[|[|k]]]]]; cbn -[metaBuf] in *.
  - left. split; [by apply Hm|lia].
  - left. split; [by eapply Hold|lia].
  - left. split; [by eapply Hold|lia].
  - left. split; [by eapply Hold|lia].
  - apply elem_of_app in Hd as [Hd|Hd%list_elem_of_singleton].
    + left. split; [by eapply Hold|lia].
    + right. subst d. split; [by eapply Hnew|lia].
  - right. apply list_elem_of_singleton in Hd as ->. split; [by eapply Hnew|lia].
Qed.

Lemma crash_holds fs fs' t v :
  fs_crash fs fs' → meta_holds fs (dir fs') t v → meta_holds fs' (dir fs') t v.
Proof.
  intros (Hi & _ & _). unfold meta_holds. destruct (n_meta (dir fs')) as [i|]; [|done].
  intros E. destruct (Forall2_lookup_l _ _ _ _ _ Hi E) as ([data sy] & -> & [Hs Hd]).
  cbn -[metaBuf] in *. by rewrite Hs, Hd.
Qed.

Lemma load_holds fs t v :
  meta_range t v → meta_holds fs (dir fs) t v → loadMeta fs = Opened t v.
Proof.
  intros Hr. unfold meta_holds, loadMeta. destruct (n_meta (dir fs)) as [i|].
  - intros ->. cbn -[metaBuf]. by apply parse_metaBuf.
  - by intros [-> ->].
Qed.

(** Booting on what a crash left. *)
Lemma open_after_crash fs t v :
  meta_range t v → disk_dirs fs = [dir fs] → meta_holds fs (dir fs) t v →
  ∃ s, DurablePersistentState_open fs = Some s ∧ s_term s = t ∧ s_votedFor s = v ∧
       clean (s_fs s) t v.
Proof.
  intros Hr Hdisk Hm. unfold DurablePersistentState_open.
  set (fs1 := fs_step fs UnlinkTmp).
  assert (Hn : n_meta (dir fs1) = n_meta (dir fs) ∧ inodes fs1 = inodes fs ∧
               n_tmp (dir fs1) = None ∧ dir fs1 ∈ disk_dirs fs1 ∧
               ∀ d, d ∈ disk_dirs fs1 → n_meta d = n_meta (dir fs)).
  { subst fs1. cbn. destruct (n_tmp (dir fs)) eqn:E; cbn; rewrite Hdisk; split_and!; set_solver. }
  destruct Hn as (Hn & Hi & Htmp & Hin & Hall).
  assert (Hm1 : ∀ d, d ∈ disk_dirs fs1 → meta_holds fs1 d t v).
  { intros d Hd. eapply (meta_holds_grow fs _ _ _ _ _ []); [by rewrite app_nil_r|by apply Hall|done]. }
  rewrite (load_holds fs1 t v Hr (Hm1 _ Hin)). eexists. split_and!; [done..|]. by split.
Qed.

Lemma save_clean fs t v t' v' :
  clean fs t v → meta_range t' v' → clean (foldl fs_step fs (saveOps t' v')) t' v'.
Proof.
  intros Hc Hr. pose proof (saveOps_saving fs 5 t' v' (clean_tmp _ _ _ Hc)) as E.
  rewrite take_ge in E by done. rewrite E. split; [done|by constructor| |done].
  intros d Hd. destruct (saving_holds fs t v t' v' 5 d Hc Hd) as [[_ ?]|[? _]]; [lia|done].
Qed.

(** Booting after a crash inside [save]. *)
Lemma saving_reopens fs t v t' v' k fs' :
  clean fs t v → meta_range t' v' →
  fs_crash (foldl fs_step fs (take k (saveOps t' v'))) fs' →
  ∃ s, DurablePersistentState_open fs' = Some s ∧
    clean (s_fs s) (s_term s) (s_votedFor s) ∧
    ((s_term s = t ∧ s_votedFor s = v ∧ (k < 5)%nat) ∨
     (s_term s = t' ∧ s_votedFor s = v' ∧ (4 ≤ k)%nat)).
Proof.
  intros Hc Hr Hcr. rewrite (saveOps_saving fs k t' v' (clean_tmp _ _ _ Hc)) in Hcr.
  destruct (saving_holds fs t v t' v' k (dir fs') Hc) as [[Hm Hk]|[Hm Hk]]; [apply Hcr|..];
    apply (crash_holds _ _ _ _ Hcr) in Hm;
    apply open_after_crash in Hm as (s & ? & <- & <- & ?); try done; try apply Hcr; try apply Hc;
    exists s; split_and!; auto.
Qed.

(** C40: Replacing the metadata file is atomic and durable.  The machine may crash
    after any number [k] of the system calls of [save], keeping whatever POSIX
    lets it keep.  The next boot never refuses the file: it finds either the old
    term and vote or the new ones, the old ones when [rename] had not been called
    and the new ones when [save] had returned, and it is ready to save again. *)
Theorem save_crash_atomic fs t v t' v' k fs' :
  clean fs t v → meta_range t' v' →
  fs_crash (foldl fs_step fs (take k (saveOps t' v'))) fs' →
  ∃ s, DurablePersistentState_open fs' = Some s ∧
    clean (s_fs s) (s_term s) (s_votedFor s) ∧
    ((s_term s, s_votedFor s) = (t, v) ∨ (s_term s, s_votedFor s) = (t', v')) ∧
    ((k < 4)%nat → (s_term s, s_votedFor s) = (t, v)) ∧
    ((5 ≤ k)%nat → (s_term s, s_votedFor s) = (t', v')).
Proof.
  intros Hc Hr Hcr. destruct (saving_reopens _ _ _ _ _ _ _ Hc Hr Hcr) as (s & Eo & Hc' & Hw).
  exists s. destruct Hw as [(<- & <- & ?)|(<- & <- & ?)]; split_and!; auto; lia.
Qed.

(** ** Damage *)

Lemma readMeta_raw bs :
  length bs = 20%nat →
  ∃ m ver t h vt r, readMeta (Reader_init bs) = (m, ver, t, h, vt, le_value (take 4 (drop 16 bs)), r).
Proof.
  intros Hl. unfold readMeta, Reader_u8, Reader_u16, Reader_u64, Reader_u32, mbind, Rd_bind, mret,
    Rd_ret, Reader_take, Reader_remaining, Reader_init.
  do 6 (cbn [r_in r_pos r_ok orb negb]; rewrite (proj2 (Nat.ltb_ge _ _)) by lia).
  by repeat eexists.
Qed.

(** One changed byte anywhere in the metadata file makes the constructor
    throw: it never opens with a wrong term or vote. *)
Theorem meta_flip_detected t v p b b' :
  metaBuf t v !! p = Some b → b ≠ b' → parseMeta (<[p := b']> (metaBuf t v)) = CorruptMeta.
Proof.
  rewrite metaBuf_bytes. intros Hp Hb. pose proof (lookup_lt_Some _ _ _ Hp) as Hlt.
  assert (Hl : length (<[p := b']> (metaBytes t v)) = 20%nat)
    by (by rewrite length_insert, length_metaBytes).
  unfold parseMeta. rewrite !(take_ge (<[_ := _]> _)) by (rewrite Hl; unfold kMetaSize; lia).
  rewrite Hl. cbn [negb Nat.eqb kMetaSize].
  destruct (readMeta_raw _ Hl) as (m & ver & t1 & h & vt & r & ->).
  rewrite (take_ge (drop 16 _)) by (rewrite length_drop; lia).
  pose proof (sealed_change (metaBody t v) p b b' Hp Hb) as Hne. fold (metaBytes t v) in Hne.
  rewrite length_metaBody in Hne. change (drop 16) with (@drop byte kCrcOffset). by rewrite (proj2 (N.eqb_neq _ _) Hne), !orb_true_r.
Qed.

(** ** Samples *)

Module StateSample.

Definition fresh : FS := mkFS [] (mkDir None None) [mkDir None None].

Lemma fresh_clean : clean fresh 0 None.
Proof.
  split; [done|by constructor| |done]. intros d ->%list_elem_of_singleton. done.
Qed.

(** The first save crashes between [rename] and the [fsync] of the directory,
    and the replacement did not make it to the disk. *)
Definition after_crash : FS :=
  mkFS [mkInode (metaBuf 3 (Some 2)) true] (mkDir None (Some 0%nat)) [mkDir None (Some 0%nat)].

Lemma save_crash_atomic_witness :
  ∃ s, DurablePersistentState_open after_crash = Some s ∧
    clean (s_fs s) (s_term s) (s_votedFor s) ∧
    ((s_term s, s_votedFor s) = (0, None) ∨ (s_term s, s_votedFor s) = (3, Some 2)) ∧
    ((4 < 4)%nat → (s_term s, s_votedFor s) = (0, None)) ∧
    ((5 ≤ 4)%nat → (s_term s, s_votedFor s) = (3, Some 2)).
Proof.
  apply (save_crash_atomic fresh 0 None 3 (Some 2) 4); [exact fresh_clean|done|].
  split; [by vm_compute; repeat constructor|]. split; [|done].
  apply elem_of_app. left. right. by left.
Defined.

Lemma meta_flip_detected_witness :
  parseMeta (<[5%nat := xff]> (metaBuf 3 (Some 2))) = CorruptMeta.
Proof. by apply (meta_flip_detected 3 (Some 2) 5 x03 xff). Defined.

End StateSample.
