(* ===== verification/Storage.v ===== *)
(** * The durable storage delivers the crash model of the cluster

    [Cluster.v] lets a node that crashes in the middle of a call reboot from the
    durable effects it had completed, an append cut between two entries included.
    This file shows that the real storage - [DurableLog] over its file,
    [DurablePersistentState] over its directory - provides that for the crashes the
    code is written for: the two constructors accept what such a crash inside one
    durable effect leaves on disk, and what they load is a boot state the cluster
    model allows.  The crashes are those of [crash_in].  One that is not among them,
    a file that grew before an earlier record of the batch reached the disk, makes
    the constructor throw ([unwritten_record_refused], DurableLog.v). *)

From Stdlib Require Import NArith Strings.Byte Lia.
From S2P Require Import Prelude Messages Codec Log RaftCore Cluster.
From S2P Require Import Crc32c DurableLog DurableState.

Local Open Scope N_scope.

(** Both stores of a node in good shape. *)
Definition storage_ok (d : DurableLog) (s : DurablePersistentState) : Prop :=
  dl_ok d ∧ clean (s_fs s) (s_term s) (s_votedFor s) ∧
  N.of_nat (length (d_entries d)) + 1 < two64.

(** The arguments are in the range of their C++ types. *)
Definition effect_range (d : DurableLog) (e : Effect) : Prop :=
  match e with
  | ESave t v => meta_range t v
  | EAppend es =>
      Forall entry_ok es ∧ N.of_nat (length (d_entries d) + length es) + 1 < two64
  | _ => True
  end.

(** A durable effect carried out. *)
Definition perform (d : DurableLog) (s : DurablePersistentState) (e : Effect) :
    DurableLog * DurablePersistentState :=
  match e with
  | ESave t v => (d, DurablePersistentState_save s t v)
  | EAppend es => (DurableLog_appendWhole d es, s)
  | ETruncate i => (DurableLog_truncateSuffixFrom d i, s)
  | _ => (d, s)
  end.

(** What a crash inside it may leave: a log file and a directory.  An append may
    leave any prefix of the bytes it writes, for the process died between two calls
    of [pwrite] or the file system lost the end of what was not synced yet; all of
    them, before its [fsync]; or, as the last record of the file, one of full size
    whose header is there and whose checksum does not match.  [ftruncate] either
    happened or did not.  The directory goes through the states of [fs_crash]. *)
Inductive crash_in (d : DurableLog) (s : DurablePersistentState) :
    Effect → list byte → FS → Prop :=
| crash_save t v k fs :
    fs_crash (foldl fs_step (s_fs s) (take k (saveOps t v))) fs →
    crash_in d s (ESave t v) (d_file d) fs
| crash_append calls es f fs :
    DurableLog_append calls d es = DiedWriting f → fs_crash (s_fs s) fs →
    crash_in d s (EAppend es) f fs
| crash_unsynced calls es d' fs :
    DurableLog_append calls d es = Appended d' → fs_crash (s_fs s) fs →
    crash_in d s (EAppend es) (d_file d') fs
| crash_partial es j e tl fs :
    es !! j = Some e → partial_record (N.of_nat (length (d_entries d) + j) + 1) e tl →
    fs_crash (s_fs s) fs →
    crash_in d s (EAppend es)
      (d_file d ++ records (length (d_entries d)) (take j es) ++ tl) fs
| crash_truncate i fs :
    fs_crash (s_fs s) fs →
    crash_in d s (ETruncate i) (d_file (DurableLog_truncateSuffixFrom d i)) fs
| crash_before e fs :
    fs_crash (s_fs s) fs → crash_in d s e (d_file d) fs.

(** The stores a reboot opens. *)
Definition reopen (f : list byte) (fs : FS) : option (DurableLog * DurablePersistentState) :=
  match DurableLog.replay f, DurablePersistentState_open fs with
  | Some (Replayed d), Some s => Some (d, s)
  | _, _ => None
  end.

Definition stored (ds : DurableLog * DurablePersistentState) : Durable :=
  (s_term ds.2, s_votedFor ds.2, d_entries ds.1).

Lemma replay_file d :
  dl_ok d → N.of_nat (length (d_entries d)) + 1 < two64 →
  DurableLog.replay (d_file d) = Some (Replayed (recovered (d_entries d) 0)).
Proof. intros Hd Hn. rewrite (dl_file _ Hd). apply recovered_full; [apply Hd|done]. Qed.

Lemma open_idle_crash fs t v fs' :
  clean fs t v → fs_crash fs fs' →
  ∃ s, DurablePersistentState_open fs' = Some s ∧ s_term s = t ∧ s_votedFor s = v ∧
       clean (s_fs s) t v.
Proof.
  intros Hc Hcr. apply open_after_crash; [apply Hc|apply Hcr|].
  eapply crash_holds; [done|]. apply Hc, Hcr.
Qed.

Lemma recovered_ok es torn :
  Forall entry_ok es → N.of_nat (length es) + 1 < two64 → dl_ok (recovered es torn).
Proof. intros. apply dl_ok_recovered; [done|lia]. Qed.

(** The entries of a cut append, in the terms of the cluster model. *)
Lemma replay_atomic_append t v l es j :
  Cluster.replay (t, v, l) (take j (atomic (EAppend es))) = (t, v, l ++ take j es).
Proof.
  unfold Cluster.replay. cbn [atomic]. rewrite <-fmap_take. revert l.
  induction (take j es) as [|e es' IH]; intros l; cbn; [by rewrite app_nil_r|].
  rewrite IH. unfold InMemoryLog_append. by rewrite <-app_assoc.
Qed.

Lemma truncated_entries d i :
  d_entries (DurableLog_truncateSuffixFrom d i) =
    InMemoryLog_truncateSuffixFrom (d_entries d) i.
Proof. exact (truncate_law d i). Qed.

Lemma length_truncated l i :
  (length (InMemoryLog_truncateSuffixFrom l i) ≤ length l)%nat.
Proof.
  unfold InMemoryLog_truncateSuffixFrom.
  destruct (_ <? _); [done|]. destruct (_ <? _); rewrite ?length_take; lia.
Qed.

(** A reboot from a good log file and an idle metadata directory. *)
Lemma reopen_idle d s fs es torn f :
  storage_ok d s → fs_crash (s_fs s) fs →
  DurableLog.replay f = Some (Replayed (recovered es torn)) →
  Forall entry_ok es → N.of_nat (length es) + 1 < two64 →
  ∃ ds, reopen f fs = Some ds ∧ storage_ok ds.1 ds.2 ∧
        stored ds = (s_term s, s_votedFor s, es).
Proof.
  intros (Hd & Hc & Hn) Hcr Hf Hes Hle.
  destruct (open_idle_crash _ _ _ _ Hc Hcr) as (s' & Eo & Et & Ev & Hc').
  exists (recovered es torn, s'). unfold reopen. rewrite Hf, Eo.
  split_and!; [done| |]; unfold stored; cbn.
  - split_and!; [by apply recovered_ok|by rewrite Et, Ev|done].
  - by rewrite Et, Ev.
Qed.

Lemma storage_performs_truncate d s i :
  storage_ok d s → storage_ok (DurableLog_truncateSuffixFrom d i) s.
Proof.
  intros (Hd & Hc & Hn). split_and!; [by apply truncate_ok|done|]. rewrite truncated_entries.
  pose proof (length_truncated (d_entries d) i). lia.
Qed.

(** A durable effect that completes keeps both stores in good shape, and
    does to their contents what the cluster model says it does. *)
Theorem storage_performs d s e :
  storage_ok d s → effect_range d e →
  storage_ok (perform d s e).1 (perform d s e).2 ∧
  stored (perform d s e) = Cluster.replay (stored (d, s)) [e].
Proof.
  intros (Hd & Hc & Hn) He. destruct e as [t v|es|i| | | | |]; try done; cbn in *.
  - split; [|done]. split_and!; [done| |done]. by eapply save_clean.
  - destruct He as [Hes Hle].
    pose proof (append_cases [Wrote (length (serialize d es))] d es Hd Hes ltac:(lia)) as H.
    pose proof (append_law d es) as El. cbn in El. unfold stored. cbn. rewrite El.
    split; [|done]. unfold DurableLog_appendWhole in *.
    destruct (DurableLog_append _ d es) as [d'|f]; cbn in *.
    + destruct H as [Hd' Ee]. split_and!; [done..|]. rewrite Ee, length_app. lia.
    + by split_and!.
  - split; [by apply storage_performs_truncate|]. unfold stored. cbn.
    by rewrite truncated_entries.
Qed.

(** A reboot after an append of which the first [j] entries are in the file. *)
Lemma reopen_appended d s fs es j torn f :
  storage_ok d s → effect_range d (EAppend es) → fs_crash (s_fs s) fs →
  DurableLog.replay f = Some (Replayed (recovered (d_entries d ++ take j es) torn)) →
  ∃ ds k, reopen f fs = Some ds ∧ storage_ok ds.1 ds.2 ∧
    stored ds = Cluster.replay (stored (d, s)) (take k (atomic (EAppend es))).
Proof.
  intros Hst [Hes Hle] Hcr E. pose proof Hst as (Hd & Hc & Hn).
  destruct (reopen_idle d s fs _ _ _ Hst Hcr E) as (ds & Eo & Hok & Eds).
  { apply Forall_app_2; [apply Hd|by apply Forall_take]. }
  { rewrite length_app, length_take. lia. }
  exists ds, j. split_and!; [done..|]. rewrite Eds. unfold stored. cbn [fst snd].
  by rewrite replay_atomic_append.
Qed.

(** C11: a crash inside a durable effect leaves what the cluster model allows.
    The crash may cut a save between any two of its system calls, with any of the
    renames and writes not synced yet lost; it may leave any prefix of an append's
    bytes, all of them before the [fsync], or a last record of full size whose
    header was written and whose checksum does not match; a truncation happened or
    not ([crash_in]).  In each case both constructors accept what is on the disk, the
    reopened stores are in good shape, and their contents are the old ones after some
    number of the atomic parts of the effect - the very condition under which [exec]
    lets the node boot. *)
Theorem storage_crash_model d s e f fs :
  storage_ok d s → effect_range d e → crash_in d s e f fs →
  ∃ ds k, reopen f fs = Some ds ∧ storage_ok ds.1 ds.2 ∧
    stored ds = Cluster.replay (stored (d, s)) (take k (atomic e)).
Proof.
  intros Hst He Hcr. pose proof Hst as (Hd & Hc & Hn).
  destruct Hcr as [t v k fs Hcr|calls es f fs Hf Hcr|calls es d' fs Hf Hcr|es j e tl fs Hj Hp Hcr|i fs Hcr|e fs Hcr].
  - destruct (saving_reopens (s_fs s) _ _ t v k fs Hc He Hcr) as (s' & Eo & Hc' & Hwhich).
    unfold reopen. rewrite (replay_file d Hd Hn), Eo. eexists (_, s').
    destruct Hwhich as [(Et & Ev & _)|(Et & Ev & _)]; [exists 0%nat|exists 1%nat]; cbn;
      (split_and!; [done|split_and!; [by apply recovered_ok; [apply Hd|]|done..]|]);
      unfold stored; cbn; congruence.
  - pose proof (append_cases calls d es Hd (proj1 He) ltac:(pose proof (proj2 He); lia)) as H. rewrite Hf in H.
    destruct H as [k ->]. rewrite (dl_file _ Hd).
    destruct (recover_prefix (d_entries d) es k) as (j & torn & Hj & E); [apply Hd|apply He|apply He|].
    by eapply reopen_appended.
  - pose proof (append_cases calls d es Hd (proj1 He) ltac:(pose proof (proj2 He); lia)) as H. rewrite Hf in H.
    destruct H as [Hd' Ee]. eapply (reopen_appended d s fs es (length es) 0); [done..|].
    rewrite firstn_all, <-Ee. apply replay_file; [done|]. rewrite Ee, length_app. apply He.
  - rewrite (dl_file _ Hd). eapply reopen_appended; [done..|].
    eapply recover_partial; [apply Hd|apply He|apply He|done..].
  - pose proof (storage_performs_truncate d s i Hst) as Hp.
    destruct (reopen_idle d s fs _ _ _ Hst Hcr (replay_file _ (proj1 Hp) (proj2 (proj2 Hp))))
      as (ds & Eo & Hok & Eds); [apply Hp|apply Hp|].
    exists ds, 1%nat. split_and!; [done..|]. rewrite Eds. unfold stored. cbn.
    by rewrite truncated_entries.
  - destruct (reopen_idle d s fs _ _ _ Hst Hcr (replay_file _ Hd Hn)) as (ds & ? & ? & Eds);
      [apply Hd|done|].
    exists ds, 0%nat. by rewrite Eds.
Qed.

(** ** A sample node *)

Module StorageSample.

Definition log : DurableLog := recovered [mkLogEntry 1 [x41]] 0.
Definition state : DurablePersistentState :=
  mkDurablePersistentState (mkFS [] (mkDir None None) [mkDir None None]) 0 None.

Lemma sample_storage_ok : storage_ok log state.
Proof.
  split_and!; [apply dl_ok_recovered; [by repeat constructor|done]| |done].
  split; [done|by constructor| |done]. by intros d ->%list_elem_of_singleton.
Qed.

Lemma storage_performs_witness :
  stored (perform log state (ESave 2 (Some 1))) = (2, Some 1, [mkLogEntry 1 [x41]]).
Proof.
  exact (proj2 (storage_performs log state (ESave 2 (Some 1)) sample_storage_ok
    ltac:(by split))).
Defined.

(** A record of a second entry of which the command never reached the disk. *)
Definition unwritten_command : list byte := recordHeader 2 (mkLogEntry 2 [x42]) ++ replicate 5 x00.

(** Power fails in the middle of the record of a second entry, or leaves it in full
    size without its command and checksum. *)
Lemma storage_crash_model_witness :
  (∃ ds k, reopen (d_file log ++ [x02; x00; x00]) (s_fs state) = Some ds ∧
    storage_ok ds.1 ds.2 ∧
    stored ds = Cluster.replay (stored (log, state))
                  (take k (atomic (EAppend [mkLogEntry 2 [x42]])))) ∧
  (∃ ds k, reopen (d_file log ++ unwritten_command) (s_fs state) = Some ds ∧
    storage_ok ds.1 ds.2 ∧
    stored ds = Cluster.replay (stored (log, state))
                  (take k (atomic (EAppend [mkLogEntry 2 [x42]])))).
Proof.
  assert (fs_crash (s_fs state) (s_fs state)) as Hcr by (split; [constructor|]; by split; [constructor|]).
  split; apply (storage_crash_model log state (EAppend [mkLogEntry 2 [x42]])).
  - exact sample_storage_ok.
  - split; [by repeat constructor|done].
  - apply (crash_append log state [Wrote 3]); [by vm_compute|done].
  - exact sample_storage_ok.
  - split; [by repeat constructor|done].
  - apply (crash_partial log state [mkLogEntry 2 [x42]] 0 (mkLogEntry 2 [x42]) unwritten_command); [done| |done].
    split_and!; by vm_compute.
Defined.

End StorageSample.
