(* ===== verification/OrdMap.v ===== *)
(** * std::map: ordered association lists

    The state machines keep their state in [std::map]s and rely on their ordered
    iteration for determinism.  A [std::map] is modelled as the list of its pairs
    in iteration order, strictly increasing in the key's ordering. *)

From Stdlib Require Import NArith Strings.Byte Lia Sorting.Sorted.
From S2P Require Import Prelude.

Local Open Scope N_scope.

(** The comparator of a map: a strict total order, decided by a bool. *)
Class KeyOrder (K : Type) := key_ltb : K → K → bool.

Class KeyOrderLaws (K : Type) `{!KeyOrder K} : Prop := {
  key_irrefl k : key_ltb k k = false;
  key_trans k1 k2 k3 : key_ltb k1 k2 = true → key_ltb k2 k3 = true → key_ltb k1 k3 = true;
  key_total k1 k2 : key_ltb k1 k2 = false → key_ltb k2 k1 = false → k1 = k2;
}.

(** [std::less] on [std::string]: lexicographic on unsigned bytes. *)
#[export] Instance bytes_KeyOrder : KeyOrder (list byte) :=
  fix go a b :=
    match a, b with
    | [], [] => false
    | [], _ :: _ => true
    | _ :: _, [] => false
    | x :: a, y :: b =>
        if Byte.to_N x <? Byte.to_N y then true
        else if Byte.to_N y <? Byte.to_N x then false
        else go a b
    end.

(** [std::less] on unsigned integers. *)
#[export] Instance N_KeyOrder : KeyOrder N := N.ltb.

Section OrdMap.
Context {K V : Type} `{!KeyOrder K}.

Definition ordmap : Type := list (K * V).

Fixpoint om_find (k : K) (m : ordmap) : option V :=
  match m with
  | [] => None
  | (k', v) :: m =>
      if key_ltb k k' then None else if key_ltb k' k then om_find k m else Some v
  end.

(** [m[k] = v] *)
Fixpoint om_insert (k : K) (v : V) (m : ordmap) : ordmap :=
  match m with
  | [] => [(k, v)]
  | (k', v') :: m =>
      if key_ltb k k' then (k, v) :: (k', v') :: m
      else if key_ltb k' k then (k', v') :: om_insert k v m
      else (k, v) :: m
  end.

Fixpoint om_erase (k : K) (m : ordmap) : ordmap :=
  match m with
  | [] => []
  | (k', v') :: m =>
      if key_ltb k k' then (k', v') :: m
      else if key_ltb k' k then (k', v') :: om_erase k m
      else m
  end.

Definition om_lt (p q : K * V) : Prop := key_ltb p.1 q.1 = true.

Definition om_ok (m : ordmap) : Prop := StronglySorted om_lt m.

Definition om_above (k : K) (m : ordmap) : Prop := Forall (λ p, key_ltb k p.1 = true) m.

Context `{!KeyOrderLaws K}.

Lemma om_ok_nil : om_ok [].
Proof. constructor. Qed.

Lemma om_ok_cons p m : om_ok (p :: m) ↔ om_above p.1 m ∧ om_ok m.
Proof.
  split.
  - intros H. inversion H; subst. done.
  - intros [? ?]. by constructor.
Qed.

Lemma om_find_above k m : om_above k m → om_find k m = None.
Proof. destruct m as [|[k' v] m]; [done|]. intros [H _]%Forall_cons. cbn in *. by rewrite H. Qed.

Lemma om_above_trans k k' m : key_ltb k k' = true → om_above k' m → om_above k m.
Proof. intros Hk Hm. apply (Forall_impl _ _ _ Hm). intros p. by apply key_trans. Qed.

(** Case analysis on two keys. *)
Lemma key_cases k k' :
  (key_ltb k k' = true ∧ key_ltb k' k = false ∧ k ≠ k') ∨
  (key_ltb k k' = false ∧ key_ltb k' k = true ∧ k ≠ k') ∨
  (key_ltb k k' = false ∧ key_ltb k' k = false ∧ k = k').
Proof.
  destruct (key_ltb k k') eqn:E1, (key_ltb k' k) eqn:E2.
  - pose proof (key_trans _ _ _ E1 E2) as H. by rewrite key_irrefl in H.
  - left. split_and!; try done. intros ->. by rewrite key_irrefl in E1.
  - right; left. split_and!; try done. intros ->. by rewrite key_irrefl in E2.
  - right; right. split_and!; try done. by apply key_total.
Qed.

Lemma om_insert_elem k v m p : p ∈ om_insert k v m → p = (k, v) ∨ p ∈ m.
Proof.
  induction m as [|[k' v'] m IH]; cbn [om_insert].
  - intros ->%list_elem_of_singleton. by left.
  - destruct (key_ltb k k'); [intros [->|?]%elem_of_cons; auto|].
    destruct (key_ltb k' k); intros [->|Hp]%elem_of_cons; rewrite ?elem_of_cons; auto.
    destruct (IH Hp); auto.
Qed.

Lemma om_find_insert_eq k v m : om_find k (om_insert k v m) = Some v.
Proof.
  induction m as [|[k' v'] m IH]; cbn; [by rewrite key_irrefl|].
  destruct (key_cases k k') as [(E1 & E2 & _)|[(E1 & E2 & _)|(E1 & E2 & _)]];
    rewrite E1, ?E2; cbn; rewrite ?key_irrefl, ?E1, ?E2; done.
Qed.

Lemma om_find_insert_ne k k' v m : k ≠ k' → om_find k (om_insert k' v m) = om_find k m.
Proof.
  intros Hne. induction m as [|[k0 v0] m IH]; cbn.
  - destruct (key_cases k k') as [(E1 & E2 & _)|[(E1 & E2 & _)|(_ & _ & ?)]]; [| |done];
      by rewrite E1, ?E2.
  - destruct (key_cases k' k0) as [(E1 & E2 & _)|[(E1 & E2 & _)|(E1 & E2 & <-)]];
      rewrite E1, ?E2; cbn.
    + destruct (key_cases k k') as [(F1 & F2 & _)|[(F1 & F2 & _)|(_ & _ & ?)]]; [| |done].
      * rewrite F1. by rewrite (key_trans _ _ _ F1 E1).
      * by rewrite F1, F2.
    + by rewrite IH.
    + destruct (key_cases k k') as [(F1 & F2 & _)|[(F1 & F2 & _)|(_ & _ & ?)]]; [| |done];
        by rewrite F1, ?F2.
Qed.

Lemma om_above_insert k0 k v m :
  key_ltb k0 k = true → om_above k0 m → om_above k0 (om_insert k v m).
Proof.
  intros Hk. induction m as [|[k' v'] m IH]; cbn; intros Hm; [by constructor|].
  apply Forall_cons in Hm as [? ?].
  destruct (key_ltb k k'); [by repeat constructor|].
  destruct (key_ltb k' k); constructor; try done. by apply IH.
Qed.

Lemma om_insert_ok k v m : om_ok m → om_ok (om_insert k v m).
Proof.
  induction m as [|[k' v'] m IH]; cbn; intros Hm; [by repeat constructor|].
  apply om_ok_cons in Hm as [Ha Hm]. cbn in Ha.
  destruct (key_cases k k') as [(E1 & E2 & _)|[(E1 & E2 & _)|(E1 & E2 & ->)]]; rewrite E1, ?E2.
  - apply om_ok_cons. split; [|by apply om_ok_cons]. constructor; [done|].
    by eapply om_above_trans.
  - apply om_ok_cons. split; [by apply om_above_insert|by apply IH].
  - by apply om_ok_cons.
Qed.

Lemma om_above_erase k0 k m : om_above k0 m → om_above k0 (om_erase k m).
Proof.
  induction m as [|[k' v'] m IH]; cbn; intros Hm; [done|]. apply Forall_cons in Hm as [? ?].
  destruct (key_ltb k k'); [by constructor|]. destruct (key_ltb k' k); [|done].
  constructor; [done|]. by apply IH.
Qed.

Lemma om_erase_ok k m : om_ok m → om_ok (om_erase k m).
Proof.
  induction m as [|[k' v'] m IH]; cbn; intros Hm; [done|]. apply om_ok_cons in Hm as [Ha Hm].
  destruct (key_ltb k k'); [by apply om_ok_cons|]. destruct (key_ltb k' k); [|done].
  apply om_ok_cons. split; [by apply om_above_erase|by apply IH].
Qed.

Lemma om_find_erase_eq k m : om_ok m → om_find k (om_erase k m) = None.
Proof.
  induction m as [|[k' v'] m IH]; cbn; intros Hm; [done|]. apply om_ok_cons in Hm as [Ha Hm].
  destruct (key_cases k k') as [(E1 & E2 & _)|[(E1 & E2 & _)|(E1 & E2 & ->)]]; rewrite E1, ?E2.
  - cbn. by rewrite E1.
  - cbn. rewrite E1, E2. by apply IH.
  - by apply om_find_above.
Qed.

Lemma om_find_erase_ne k k' m : om_ok m → k ≠ k' → om_find k (om_erase k' m) = om_find k m.
Proof.
  intros Hm Hne. induction m as [|[k0 v0] m IH]; cbn; [done|].
  apply om_ok_cons in Hm as [Ha Hm]. cbn in Ha.
  destruct (key_cases k' k0) as [(E1 & E2 & _)|[(E1 & E2 & _)|(E1 & E2 & <-)]]; rewrite E1, ?E2.
  - done.
  - cbn. by rewrite IH.
  - destruct (key_cases k k') as [(F1 & F2 & _)|[(F1 & F2 & _)|(_ & _ & ?)]]; [| |done];
      rewrite F1, ?F2; [|done]. by apply om_find_above, (om_above_trans _ k').
Qed.

Lemma om_find_elem k v m : om_ok m → om_find k m = Some v ↔ (k, v) ∈ m.
Proof.
  induction m as [|[k' v'] m IH]; cbn; intros Hm.
  { split; [done|]. intros H. by apply not_elem_of_nil in H. }
  apply om_ok_cons in Hm as [Ha Hm]. cbn in Ha. rewrite elem_of_cons.
  assert (∀ v0, (k, v0) ∈ m → key_ltb k' k = true) as Hin.
  { intros v0 Hv. unfold om_above in Ha. rewrite Forall_forall in Ha. exact (Ha _ Hv). }
  destruct (key_cases k k') as [(E1 & E2 & Hk)|[(E1 & E2 & Hk)|(E1 & E2 & ->)]]; rewrite E1, ?E2.
  - split; [done|]. intros [[= ? _]|H%Hin]; [done|congruence].
  - rewrite IH by done. split; [by right|]. intros [[= ? _]|?]; done.
  - split; [intros [= ->]; by left|]. intros [[= ->]|H%Hin]; [done|congruence].
Qed.

(** A map is determined by its lookups: there is one representation. *)
Lemma om_ext m1 m2 : om_ok m1 → om_ok m2 → (∀ k, om_find k m1 = om_find k m2) → m1 = m2.
Proof.
  revert m2. induction m1 as [|[k1 v1] m1 IH]; intros [|[k2 v2] m2] H1 H2 E.
  - done.
  - specialize (E k2). cbn in E. by rewrite key_irrefl in E.
  - specialize (E k1). cbn in E. by rewrite key_irrefl in E.
  - apply om_ok_cons in H1 as [Ha1 H1], H2 as [Ha2 H2]. cbn in Ha1, Ha2.
    assert (k1 = k2 ∧ v1 = v2) as [-> ->].
    { pose proof (E k1) as E1. pose proof (E k2) as E2. cbn in E1, E2.
      rewrite !key_irrefl in E1, E2.
      destruct (key_cases k1 k2) as [(F1 & F2 & _)|[(F1 & F2 & _)|(F1 & F2 & ->)]];
        rewrite ?F1, ?F2 in E1, E2; try done.
      by injection E1 as ->. }
    f_equal. apply IH; [done..|]. intros k. pose proof (E k) as Ek. cbn in Ek.
    destruct (key_cases k k2) as [(F1 & F2 & _)|[(F1 & F2 & _)|(F1 & F2 & ->)]];
      rewrite ?F1, ?F2 in Ek.
    + by rewrite !om_find_above by (by eapply om_above_trans).
    + done.
    + by rewrite !om_find_above.
Qed.

(** Inserting past the last key is a push at the end: how a map is rebuilt from
    its own iteration. *)
Lemma om_insert_last k v m :
  Forall (λ p, key_ltb p.1 k = true) m → om_insert k v m = m ++ [(k, v)].
Proof.
  induction m as [|[k' v'] m IH]; cbn; intros Hm; [done|]. apply Forall_cons in Hm as [Hk Hm].
  cbn in Hk. destruct (key_cases k k') as [(E1 & E2 & _)|[(E1 & E2 & _)|(E1 & E2 & ->)]];
    rewrite E1, ?E2; [congruence| |congruence]. by rewrite IH.
Qed.

Lemma om_ok_app m1 m2 :
  om_ok (m1 ++ m2) ↔ om_ok m1 ∧ om_ok m2 ∧ ∀ p q, p ∈ m1 → q ∈ m2 → om_lt p q.
Proof.
  induction m1 as [|p m1 IH]; cbn.
  - split; [intros ?; split_and!; [constructor|done|]|by intros (_ & ? & _)].
    intros ? ? []%not_elem_of_nil.
  - rewrite !om_ok_cons, IH. unfold om_above. rewrite Forall_app, !Forall_forall. split.
    + intros [[? Hp] (? & ? & Hx)]. split_and!; try done.
      intros ? q [->|?]%elem_of_cons ?; [by apply Hp|by apply Hx].
    + intros ([? ?] & ? & Hx). split_and!; try done; intros q ?.
      * apply (Hx p); [by left|done].
      * intros ? ?. apply Hx; [by right|done].
Qed.

(** Where a key is, or would go. *)
Lemma om_split k m :
  om_ok m →
  ∃ m1 m2, (∀ v, om_insert k v m = m1 ++ (k, v) :: m2) ∧ om_erase k m = m1 ++ m2 ∧
    m = m1 ++ (match om_find k m with Some v => [(k, v)] | None => [] end) ++ m2 ∧
    Forall (λ p, key_ltb p.1 k = true) m1 ∧ om_above k m2.
Proof.
  induction m as [|[k' v'] m IH]; intros Hm.
  { exists [], []. split_and!; done || constructor. }
  apply om_ok_cons in Hm as [Ha Hm]. cbn in Ha. cbn [om_insert om_erase om_find].
  destruct (key_cases k k') as [(E1 & E2 & _)|[(E1 & E2 & _)|(E1 & E2 & ->)]]; rewrite E1, ?E2.
  - exists [], ((k', v') :: m). split_and!; try done. constructor; [done|].
    by eapply om_above_trans.
  - destruct (IH Hm) as (m1 & m2 & Hi & He & E & H1 & H2). exists ((k', v') :: m1), m2. cbn.
    split_and!; [intros v; by rewrite Hi|by rewrite He|by f_equal|by constructor|done].
  - exists [], m. split_and!; done.
Qed.

Lemma om_rebuild m : om_ok m → foldl (λ acc p, om_insert p.1 p.2 acc) [] m = m.
Proof.
  intros Hm. assert (∀ acc, om_ok (acc ++ m) →
    foldl (λ acc p, om_insert p.1 p.2 acc) acc m = acc ++ m) as H; [|by apply (H [])].
  clear Hm. induction m as [|[k v] m IH]; intros acc Hok; cbn; [by rewrite app_nil_r|].
  rewrite om_insert_last, IH, <-app_assoc; [done|by rewrite <-app_assoc|].
  apply om_ok_app in Hok as (_ & _ & Hx). apply Forall_forall. intros p Hp.
  exact (Hx p (k, v) Hp ltac:(by left)).
Qed.

End OrdMap.

Arguments ordmap : clear implicits.

#[export] Instance N_KeyOrderLaws : KeyOrderLaws N.
Proof.
  split; unfold key_ltb, N_KeyOrder.
  - intros. apply N.ltb_irrefl.
  - intros ? ? ? ?%N.ltb_lt ?%N.ltb_lt. apply N.ltb_lt. lia.
  - intros ? ? ?%N.ltb_ge ?%N.ltb_ge. lia.
Qed.

#[export] Instance bytes_KeyOrderLaws : KeyOrderLaws (list byte).
Proof.
  split; unfold key_ltb.
  - induction k as [|x k IH]; cbn; [done|]. by rewrite N.ltb_irrefl.
  - induction k1 as [|x k1 IH]; intros [|y k2] [|z k3]; cbn; try done.
    destruct (N.ltb_spec (Byte.to_N x) (Byte.to_N y)), (N.ltb_spec (Byte.to_N y) (Byte.to_N x)),
      (N.ltb_spec (Byte.to_N y) (Byte.to_N z)), (N.ltb_spec (Byte.to_N z) (Byte.to_N y)),
      (N.ltb_spec (Byte.to_N x) (Byte.to_N z)), (N.ltb_spec (Byte.to_N z) (Byte.to_N x));
      try done; try lia. apply IH.
  - induction k1 as [|x k1 IH]; intros [|y k2]; cbn; try done.
    destruct (N.ltb_spec (Byte.to_N x) (Byte.to_N y)), (N.ltb_spec (Byte.to_N y) (Byte.to_N x));
      try done. intros. f_equal; [apply to_N_inj; lia|by apply IH].
Qed.
