(* ===== verification/KvStore.v ===== *)
(** * src/statemachine/kv_store.cpp: the replicated key-value store

    The command format, [apply] with its session table, and the state
    serialization.  The theorems relate it to a plain map: the store is the map
    obtained by executing each client request once, in order. *)

From Stdlib Require Import NArith Strings.Byte Lia.
From S2P Require Import Prelude Wire Messages Log OrdMap.

Local Open Scope N_scope.

(** ** Commands *)

Inductive KvOp := Put | Get | Delete | Cas | Append.

#[export] Instance KvOp_eq_dec : EqDecision KvOp.
Proof. solve_decision. Defined.

Definition KvOp_val (op : KvOp) : N :=
  match op with Put => 1 | Get => 2 | Delete => 3 | Cas => 4 | Append => 5 end.

(** [static_cast<KvOp>] of a byte already known to be in range. *)
Definition KvOp_of (b : N) : option KvOp :=
  match b with
  | 1 => Some Put | 2 => Some Get | 3 => Some Delete | 4 => Some Cas | 5 => Some Append
  | _ => None
  end.

Definition kKvOk : byte := x4f.            (* 'O' *)
Definition kKvNotFound : byte := x4e.      (* 'N' *)
Definition kKvCasFailed : byte := x46.     (* 'F' *)
Definition kKvMalformed : byte := x45.     (* 'E' *)

Definition putString (out s : list byte) : list byte :=
  let len := N.of_nat (length s) mod two32 in
  out ++ [to_byte len; to_byte (N.shiftr len 8); to_byte (N.shiftr len 16);
          to_byte (N.shiftr len 24)] ++ s.

Definition putU64 (out : list byte) (v : N) : list byte :=
  foldl (λ out i, out ++ [to_byte (N.shiftr v (8 * N.of_nat i))]) out (seq 0 8).

#[global] Arguments putString : simpl never.
#[global] Arguments putU64 : simpl never.

(** [None] is the [false] return. *)
Definition readString : Rd (option (list byte)) :=
  len ← Reader_u32;
  ok ← Reader_asks r_ok;
  remaining ← Reader_asks Reader_remaining;
  if negb ok || (N.of_nat remaining <? len) then mret None else Reader_readBytes len.

Definition opNeedsArg (op : KvOp) : bool :=
  bool_decide (op = Put) || bool_decide (op = Cas) || bool_decide (op = Append).

Record KvCommand := mkKvCommand {
  c_clientId : N;
  c_seqNo : N;
  c_op : KvOp;
  c_key : list byte;
  c_arg : list byte;
  c_arg2 : list byte;
}.

Definition encodeKvCommandInto (c : KvCommand) (out : list byte) : list byte :=
  let out := [] in
  let out := putU64 out (c_clientId c) in
  let out := putU64 out (c_seqNo c) in
  let out := out ++ [to_byte (KvOp_val (c_op c))] in
  let out := putString out (c_key c) in
  let out := if opNeedsArg (c_op c) then putString out (c_arg c) else out in
  if bool_decide (c_op c = Cas) then putString out (c_arg2 c) else out.

Definition encodeKvCommand (c : KvCommand) : list byte := encodeKvCommandInto c [].

(** The parsing half of [apply]; [None] is the malformed return. *)
Definition readKvCommand : Rd (option KvCommand) :=
  clientId ← Reader_u64;
  seqNo ← Reader_u64;
  opByte ← Reader_u8;
  ok ← Reader_asks r_ok;
  if negb ok || (opByte <? 1) || (5 <? opByte) then mret None
  else
    match KvOp_of opByte with
    | None => mret None
    | Some op =>
        key ←? readString;
        arg ←? if opNeedsArg op then readString else mret (Some []);
        arg2 ←? if bool_decide (op = Cas) then readString else mret (Some []);
        exhausted ← Reader_asks Reader_exhausted;
        if negb exhausted then mret None
        else mret (Some (mkKvCommand clientId seqNo op key arg arg2))
    end.

(** ** The state machine *)

Record Session := mkSession {
  lastSeq : N;
  lastResult : list byte;
}.

Record KVStateMachine := mkKV {
  kv_ : ordmap (list byte) (list byte);
  sessions_ : ordmap N Session;
}.

Definition KVStateMachine_init : KVStateMachine := mkKV [] [].

Definition applyOp (op : KvOp) (key arg arg2 : list byte)
    (kv : ordmap (list byte) (list byte)) : list byte * ordmap (list byte) (list byte) :=
  match op with
  | Put => ([kKvOk], om_insert key arg kv)
  | Get =>
      match om_find key kv with
      | None => ([kKvNotFound], kv)
      | Some v => (kKvOk :: v, kv)
      end
  | Delete =>
      match om_find key kv with
      | Some _ => ([kKvOk], om_erase key kv)
      | None => ([kKvNotFound], kv)
      end
  | Cas =>
      let current := default [] (om_find key kv) in
      if negb (bool_decide (current = arg)) then ([kKvCasFailed], kv)
      else ([kKvOk], om_insert key arg2 kv)
  | Append =>
      let value := default [] (om_find key kv) ++ arg in
      (kKvOk :: value, om_insert key value kv)
  end.

(** The duplicate check of [apply]: the result a repeated request gets. *)
Definition cachedResult (s : KVStateMachine) (c : KvCommand) : option (list byte) :=
  if negb (c_clientId c =? 0) then
    match om_find (c_clientId c) (sessions_ s) with
    | Some it => if c_seqNo c <=? lastSeq it then Some (lastResult it) else None
    | None => None
    end
  else None.

Definition KVStateMachine_apply (s : KVStateMachine) (cmd : list byte) :
    list byte * KVStateMachine :=
  match (readKvCommand (Reader_init cmd)).1 with
  | None => ([kKvMalformed], s)
  | Some c =>
      match cachedResult s c with
      | Some result => (result, s)
      | None =>
          let '(result, kv) := applyOp (c_op c) (c_key c) (c_arg c) (c_arg2 c) (kv_ s) in
          (result,
           if negb (c_clientId c =? 0)
           then mkKV kv (om_insert (c_clientId c) (mkSession (c_seqNo c) result) (sessions_ s))
           else mkKV kv (sessions_ s))
      end
  end.

#[export] Instance KVStateMachine_StateMachine : StateMachine KVStateMachine :=
  KVStateMachine_apply.

Definition KVStateMachine_get (s : KVStateMachine) (key : list byte) : option (list byte) :=
  om_find key (kv_ s).

(** ** Serialization *)

Definition serialize (s : KVStateMachine) : list byte :=
  let out := putU64 [] (N.of_nat (length (kv_ s))) in
  let out := foldl (λ out p, putString (putString out p.1) p.2) out (kv_ s) in
  let out := putU64 out (N.of_nat (length (sessions_ s))) in
  foldl (λ out p, putString (putU64 (putU64 out p.1) (lastSeq p.2)) (lastResult p.2))
    out (sessions_ s).

(** The two loops; [None] is the [return false] inside them.  [n] turns are the
    count; the fuel is the number of bytes, since a turn that finds the cursor
    good consumes at least one. *)
Fixpoint readKvs (fuel : nat) (n : N) (kv : ordmap (list byte) (list byte)) :
    Rd (option (ordmap (list byte) (list byte))) :=
  match fuel with
  | O => mret None
  | S fuel =>
      ok ← Reader_asks r_ok;
      if (n =? 0) || negb ok then mret (Some kv)
      else
        key ←? readString;
        value ←? readString;
        readKvs fuel (n - 1) (om_insert key value kv)
  end.

Fixpoint readSessions (fuel : nat) (n : N) (sessions : ordmap N Session) :
    Rd (option (ordmap N Session)) :=
  match fuel with
  | O => mret None
  | S fuel =>
      ok ← Reader_asks r_ok;
      if (n =? 0) || negb ok then mret (Some sessions)
      else
        clientId ← Reader_u64;
        lastSeq ← Reader_u64;
        lastResult ←? readString;
        readSessions fuel (n - 1) (om_insert clientId (mkSession lastSeq lastResult) sessions)
  end.

Definition readState (fuel : nat) : Rd (option KVStateMachine) :=
  kvCount ← Reader_u64;
  kv ←? readKvs fuel kvCount [];
  sessCount ← Reader_u64;
  sessions ←? readSessions fuel sessCount [];
  exhausted ← Reader_asks Reader_exhausted;
  if negb exhausted then mret None else mret (Some (mkKV kv sessions)).

Definition deserialize (s : KVStateMachine) (bytes : list byte) : bool * KVStateMachine :=
  match (readState (S (length bytes)) (Reader_init bytes)).1 with
  | Some s' => (true, s')
  | None => (false, s)
  end.

(** ** Parsing and printing *)

Definition enc_string (s : list byte) : list byte := le_bytes 4 (N.of_nat (length s)) ++ s.
Definition string_ok (s : list byte) : Prop := N.of_nat (length s) < two32.

Lemma putU64_app out v : putU64 out v = out ++ le_bytes 8 v.
Proof. unfold putU64. cbn [seq foldl]. by rewrite <-!app_assoc. Qed.

Lemma putString_app out s : string_ok s → putString out s = out ++ enc_string s.
Proof.
  intros Hs. unfold putString, enc_string. by rewrite N.mod_small.
Qed.

Lemma rmono_readString : rmono readString.
Proof. unfold readString. eauto 20 with rsm. Qed.
#[export] Hint Resolve rmono_readString : rsm.

Lemma oreads_string : oreads readString enc_string string_ok.
Proof.
  split_and!; [| |apply rmono_readString].
  - intros r b tl Hwf Hok Hb Hr. unfold readString, enc_string, string_ok in *.
    rewrite <-app_assoc in Hr. rd_forward reads_u32; [done|].
    rewrite !bind_asks, Hok0. pose proof (length_rest r0) as Hl.
    rewrite Hr0, length_app in Hl. cbn [negb orb].
    destruct (N.ltb_spec (N.of_nat (Reader_remaining r0)) (N.of_nat (length b))); [lia|].
    destruct (readBytes_forward r0 b tl) as (r' & E & ?&?&?); [done..|]. by exists r'.
  - intros r b r' Hwf E Hok'. unfold readString in E.
    rd_backward reads_u32 E Hok' v r1 Hv Hr Hwf1 Hok1.
    rewrite !bind_asks, Hok1 in E. cbn [negb orb] in E.
    destruct (N.ltb_spec (N.of_nat (Reader_remaining r1)) v); [done|].
    destruct (readBytes_backward _ _ _ _ Hwf1 E Hok') as (bs & [= ->] & Hlen & Hr2).
    unfold enc_string, string_ok. rewrite Hlen, Hr, Hr2, <-app_assoc. done.
Qed.

(** An optional parser that is only run when [b] holds. *)
Definition when_enc (b : bool) (s : list byte) : list byte := if b then enc_string s else [].
Definition when_ok (b : bool) (s : list byte) : Prop := if b then string_ok s else s = [].

Lemma oreads_when (b : bool) :
  oreads (if b then readString else mret (Some [])) (when_enc b) (when_ok b).
Proof. destruct b; [apply oreads_string|]. apply oreads_ret. Qed.

(** What a command of the C++ API can hold; the fields an operation does not
    use are empty. *)
Definition kv_command_ok (c : KvCommand) : Prop :=
  c_clientId c < two64 ∧ c_seqNo c < two64 ∧ string_ok (c_key c) ∧
  when_ok (opNeedsArg (c_op c)) (c_arg c) ∧ when_ok (bool_decide (c_op c = Cas)) (c_arg2 c).

Definition enc_command (c : KvCommand) : list byte :=
  le_bytes 8 (c_clientId c) ++ le_bytes 8 (c_seqNo c) ++ le_bytes 1 (KvOp_val (c_op c)) ++
  enc_string (c_key c) ++ when_enc (opNeedsArg (c_op c)) (c_arg c) ++
  when_enc (bool_decide (c_op c = Cas)) (c_arg2 c).

Lemma encodeKvCommand_enc c : kv_command_ok c → encodeKvCommand c = enc_command c.
Proof.
  intros (_ & _ & Hk & Ha & Ha2). unfold encodeKvCommand, encodeKvCommandInto, enc_command.
  rewrite !putU64_app. cbn [app].
  destruct c as [cl sq op k a a2]. cbn [c_op c_key c_arg c_arg2 c_clientId c_seqNo] in *.
  unfold when_enc, when_ok in *.
  destruct (opNeedsArg op), (bool_decide (op = Cas)); rewrite ?putString_app by done;
    rewrite ?app_nil_r, <-?app_assoc; done.
Qed.

Lemma KvOp_of_val op : KvOp_of (KvOp_val op) = Some op.
Proof. by destruct op. Qed.

Lemma KvOp_val_of b op : KvOp_of b = Some op → b = KvOp_val op.
Proof.
  destruct b as [|p]; [done|]. by do 3 (destruct p as [p|p|]; try done; try (by intros [= <-])).
Qed.

Lemma rmono_when (b : bool) :
  rmono (if b then readString else mret (Some ([] : list byte))).
Proof. destruct b; eauto with rsm. Qed.
#[export] Hint Resolve rmono_when : rsm.

Lemma readKvCommand_forward c :
  kv_command_ok c → (readKvCommand (Reader_init (enc_command c))).1 = Some c.
Proof.
  intros (Hc & Hs & Hk & Ha & Ha2).
  set (bs := enc_command c). pose proof (rwf_init bs) as Hwf. pose proof (rest_init bs) as Hr.
  assert (Hok : r_ok (Reader_init bs) = true) by done. unfold bs, enc_command in *.
  unfold readKvCommand.
  rd_forward reads_u64; [done|]. rd_forward reads_u64; [done|].
  rd_forward reads_u8; [by destruct (c_op c)|].
  rewrite bind_asks, Hok0. cbn [negb orb].
  replace ((KvOp_val (c_op c) <? 1) || (5 <? KvOp_val (c_op c))) with false
    by (by destruct (c_op c)).
  rewrite KvOp_of_val.
  try_fwd oreads_string; [done|]. try_fwd (oreads_when (opNeedsArg (c_op c))); [done|].
  rewrite <-(app_nil_r (when_enc _ _)) in Hr0.
  try_fwd (oreads_when (bool_decide (c_op c = Cas))); [done|].
  rewrite bind_asks, (proj2 (exhausted_iff _ Hwf)) by done. by destruct c.
Qed.

Lemma readKvCommand_backward cmd c :
  (readKvCommand (Reader_init cmd)).1 = Some c → kv_command_ok c ∧ cmd = enc_command c.
Proof.
  pose proof (rwf_init cmd) as Hwf. rewrite <-(rest_init cmd) at 2.
  generalize dependent (Reader_init cmd). intros r Hwf.
  destruct (readKvCommand r) as [o r'] eqn:E. cbn. intros ->.
  assert (He : ends readKvCommand) by (unfold readKvCommand; eauto 20 with rsm).
  assert (Hm : rmono readKvCommand) by (unfold readKvCommand; eauto 30 with rsm).
  destruct (Hm _ _ _ E Hwf) as [Hwf' _].
  destruct (proj1 (exhausted_iff r' Hwf') (He _ _ _ E)) as [Hok Hnil]. clear He Hm.
  unfold readKvCommand in E.
  rd_backward reads_u64 E Hok cl r1 Hcl Hr1 Hwf1 Hok1.
  rd_backward reads_u64 E Hok sq r2 Hsq Hr2 Hwf2 Hok2.
  rd_backward reads_u8 E Hok b r3 Hb Hr3 Hwf3 Hok3.
  rewrite bind_asks, Hok3 in E. cbn [negb orb] in E.
  destruct (_ || _); [done|]. destruct (KvOp_of b) as [op|] eqn:Eop; [|done].
  apply KvOp_val_of in Eop as ->.
  try_bwd oreads_string E Hok key r4 Hk Hr4 Hwf4 Hok4.
  try_bwd (oreads_when (opNeedsArg op)) E Hok arg r5 Ha Hr5 Hwf5 Hok5.
  try_bwd (oreads_when (bool_decide (op = Cas))) E Hok arg2 r6 Ha2 Hr6 Hwf6 Hok6.
  rewrite bind_asks in E. destruct (Reader_exhausted r6) eqn:Ex; [|done].
  injection E as <- <-. split; [done|].
  unfold enc_command. cbn. rewrite Hr1, Hr2, Hr3, Hr4, Hr5, Hr6, Hnil, app_nil_r.
  by rewrite <-?app_assoc.
Qed.

(** The command format.  [apply] reads a byte string as a command exactly
    when it is what [encodeKvCommand] writes for that command; everything else -
    truncated, with trailing bytes, with an unknown operation - is malformed. *)
Theorem kv_command_roundtrip cmd c :
  (readKvCommand (Reader_init cmd)).1 = Some c ↔
  kv_command_ok c ∧ cmd = encodeKvCommand c.
Proof.
  split.
  - intros [Hc ->]%readKvCommand_backward. by rewrite encodeKvCommand_enc.
  - intros [Hc ->]. rewrite encodeKvCommand_enc by done. by apply readKvCommand_forward.
Qed.

(** ** Exactly once

    The reference is a plain finite map on which every operation is executed
    unconditionally. *)

#[export] Instance byte_countable : Countable byte :=
  inj_countable Byte.to_N Byte.of_N Byte.of_to_N.

Abbreviation Store := (gmap (list byte) (list byte)).

Definition spec_op (c : KvCommand) (g : Store) : list byte * Store :=
  match c_op c with
  | Put => ([kKvOk], <[c_key c := c_arg c]> g)
  | Get => (match g !! c_key c with Some v => kKvOk :: v | None => [kKvNotFound] end, g)
  | Delete =>
      (match g !! c_key c with Some _ => [kKvOk] | None => [kKvNotFound] end, delete (c_key c) g)
  | Cas =>
      if decide (default [] (g !! c_key c) = c_arg c)
      then ([kKvOk], <[c_key c := c_arg2 c]> g) else ([kKvCasFailed], g)
  | Append =>
      let v := default [] (g !! c_key c) ++ c_arg c in (kKvOk :: v, <[c_key c := v]> g)
  end.

(** The requests that count: for each client, those whose sequence number is
    above all the client's earlier ones.  Client 0 has no session. *)
Fixpoint once (last : gmap N N) (cs : list KvCommand) : list KvCommand :=
  match cs with
  | [] => []
  | c :: cs =>
      if c_clientId c =? 0 then c :: once last cs
      else if match last !! c_clientId c with Some q => c_seqNo c <=? q | None => false end
      then once last cs
      else c :: once (<[c_clientId c := c_seqNo c]> last) cs
  end.

Definition parseKv (cmd : list byte) : option KvCommand := (readKvCommand (Reader_init cmd)).1.

Definition run_kv (s : KVStateMachine) (cmds : list (list byte)) : KVStateMachine :=
  foldl (λ s cmd, (KVStateMachine_apply s cmd).2) s cmds.

Definition kv_rel (kv : ordmap (list byte) (list byte)) (g : Store) : Prop :=
  om_ok kv ∧ ∀ k, om_find k kv = g !! k.

Definition sess_rel (ss : ordmap N Session) (last : gmap N N) : Prop :=
  ∀ c, lastSeq <$> om_find c ss = last !! c.

Lemma kv_rel_insert kv g k v : kv_rel kv g → kv_rel (om_insert k v kv) (<[k := v]> g).
Proof.
  intros [Hok Hf]. split; [by apply om_insert_ok|]. intros k'.
  destruct (decide (k' = k)) as [->|].
  - by rewrite om_find_insert_eq, lookup_insert_eq.
  - rewrite om_find_insert_ne, lookup_insert_ne by done. apply Hf.
Qed.

Lemma kv_rel_erase kv g k : kv_rel kv g → kv_rel (om_erase k kv) (delete k g).
Proof.
  intros [Hok Hf]. split; [by apply om_erase_ok|]. intros k'.
  destruct (decide (k' = k)) as [->|].
  - by rewrite om_find_erase_eq, lookup_delete_eq.
  - rewrite om_find_erase_ne, lookup_delete_ne by done. apply Hf.
Qed.

Lemma applyOp_refines c kv g :
  kv_rel kv g →
  (applyOp (c_op c) (c_key c) (c_arg c) (c_arg2 c) kv).1 = (spec_op c g).1 ∧
  kv_rel (applyOp (c_op c) (c_key c) (c_arg c) (c_arg2 c) kv).2 (spec_op c g).2.
Proof.
  intros Hrel. pose proof Hrel as [_ Hf]. unfold applyOp, spec_op. rewrite (Hf (c_key c)).
  destruct (c_op c); cbn.
  - split; [done|]. by apply kv_rel_insert.
  - by destruct (g !! c_key c).
  - destruct (g !! c_key c) eqn:E; cbn; (split; [done|]).
    + by apply kv_rel_erase.
    + by rewrite delete_id.
  - case_bool_decide; [rewrite decide_True by done|by rewrite decide_False by done].
    split; [done|]. by apply kv_rel_insert.
  - split; [done|]. by apply kv_rel_insert.
Qed.

(** One command, against the reference and the sessions' sequence numbers. *)
Lemma apply_refines s cmd g last :
  kv_rel (kv_ s) g → sess_rel (sessions_ s) last →
  let s' := (KVStateMachine_apply s cmd).2 in
  ∃ done last', once last (option_list (parseKv cmd)) = done ∧
    (∀ cs, once last (option_list (parseKv cmd) ++ cs) = done ++ once last' cs) ∧
    kv_rel (kv_ s') (foldl (λ g c, (spec_op c g).2) g done) ∧ sess_rel (sessions_ s') last'.
Proof.
  intros Hkv Hss. unfold KVStateMachine_apply, cachedResult, parseKv.
  destruct (readKvCommand _).1 as [c|]; [|by exists [], last].
  destruct (applyOp_refines c _ _ Hkv) as [_ Hop].
  destruct (applyOp _ _ _ _ (kv_ s)) as [res kv'] eqn:Eop. cbn in Hop. cbn.
  destruct (N.eqb_spec (c_clientId c) 0) as [E0|E0]; cbn.
  { by exists [c], last. }
  rewrite <-(Hss (c_clientId c)).
  assert (Hnew : sess_rel (om_insert (c_clientId c) (mkSession (c_seqNo c) res) (sessions_ s))
    (<[c_clientId c := c_seqNo c]> last)).
  { intros k. destruct (decide (k = c_clientId c)) as [->|].
    - by rewrite om_find_insert_eq, lookup_insert_eq.
    - rewrite om_find_insert_ne, lookup_insert_ne by done. apply Hss. }
  destruct (om_find (c_clientId c) (sessions_ s)) as [se|]; cbn.
  - destruct (c_seqNo c <=? lastSeq se); [by exists [], last|].
    by exists [c], (<[c_clientId c := c_seqNo c]> last).
  - by exists [c], (<[c_clientId c := c_seqNo c]> last).
Qed.

Lemma run_refines cmds s g last :
  kv_rel (kv_ s) g → sess_rel (sessions_ s) last →
  kv_rel (kv_ (run_kv s cmds))
    (foldl (λ g c, (spec_op c g).2) g (once last (omap parseKv cmds))).
Proof.
  revert s g last. induction cmds as [|cmd cmds IH]; intros s g last Hkv Hss; [done|].
  destruct (apply_refines s cmd g last Hkv Hss) as (dn & last' & _ & E & Hkv' & Hss').
  cbn [omap list_omap]. replace (match parseKv cmd with Some y => y :: omap parseKv cmds
    | None => omap parseKv cmds end) with (option_list (parseKv cmd) ++ omap parseKv cmds)
    by (by destruct (parseKv cmd)).
  rewrite E, foldl_app. by apply IH.
Qed.

(** C15: exactly once.  After any sequence of committed commands - retries,
    duplicates and malformed ones included - the store is the plain map obtained
    by executing, in order and once each, the requests whose sequence number is
    new for their client. *)
Theorem kv_exactly_once cmds :
  kv_rel (kv_ (run_kv KVStateMachine_init cmds))
    (foldl (λ g c, (spec_op c g).2) ∅ (once ∅ (omap parseKv cmds))).
Proof. apply run_refines; [split; [apply om_ok_nil|done]|done]. Qed.

(** A client's session is touched only by its own commands. *)
Lemma apply_other_session s cmd k :
  (∀ c, parseKv cmd = Some c → c_clientId c ≠ k) →
  om_find k (sessions_ (KVStateMachine_apply s cmd).2) = om_find k (sessions_ s).
Proof.
  unfold KVStateMachine_apply, parseKv. destruct (readKvCommand _).1 as [c|]; [|done].
  intros Hne. specialize (Hne c eq_refl).
  destruct (cachedResult s c); [done|]. destruct (applyOp _ _ _ _ _).
  destruct (negb _); cbn; [|done]. by apply om_find_insert_ne.
Qed.

Lemma run_other_session s cmds k :
  Forall (λ cmd, ∀ c, parseKv cmd = Some c → c_clientId c ≠ k) cmds →
  om_find k (sessions_ (run_kv s cmds)) = om_find k (sessions_ s).
Proof.
  revert s. induction cmds as [|cmd cmds IH]; intros s Hall; [done|].
  apply Forall_cons in Hall as [Hc Hall]. cbn. rewrite IH by done. by apply apply_other_session.
Qed.

(** A retry is answered, not repeated.  Once a session's command has been
    applied, applying the same bytes again - after any commands of other clients,
    on any replica that applied the same log - returns the first result and
    changes nothing. *)
Theorem kv_retry_idempotent s cmd c cmds :
  parseKv cmd = Some c → c_clientId c ≠ 0 →
  Forall (λ cmd', ∀ c', parseKv cmd' = Some c' → c_clientId c' ≠ c_clientId c) cmds →
  let '(result, s1) := KVStateMachine_apply s cmd in
  let s2 := run_kv s1 cmds in
  KVStateMachine_apply s2 cmd = (result, s2).
Proof.
  intros Hp H0 Hall. destruct (KVStateMachine_apply s cmd) as [result s1] eqn:E.
  assert (cachedResult s1 c = Some result) as Hc.
  { unfold KVStateMachine_apply in E. unfold parseKv in Hp. rewrite Hp in E.
    destruct (cachedResult s c) eqn:Ec; [by injection E as <- <-|].
    destruct (applyOp _ _ _ _ _). revert E. unfold cachedResult.
    destruct (N.eqb_spec (c_clientId c) 0); [done|]. cbn. intros [= <- <-].
    cbn. by rewrite om_find_insert_eq, N.leb_refl. }
  cbn. unfold KVStateMachine_apply. unfold parseKv in Hp. rewrite Hp.
  assert (cachedResult (run_kv s1 cmds) c = Some result) as ->; [|done].
  rewrite <-Hc. unfold cachedResult. by rewrite run_other_session.
Qed.

(** ** Snapshots *)

Definition enc_kv (p : list byte * list byte) : list byte := enc_string p.1 ++ enc_string p.2.
Definition enc_session (p : N * Session) : list byte :=
  le_bytes 8 p.1 ++ le_bytes 8 (lastSeq p.2) ++ enc_string (lastResult p.2).

(** Well-formed: maps in order, everything in the range of its C++ type. *)
Record kv_ok (s : KVStateMachine) : Prop := {
  kv_sorted : om_ok (kv_ s);
  sessions_sorted : om_ok (sessions_ s);
  kv_strings : Forall (λ p, string_ok p.1 ∧ string_ok p.2) (kv_ s);
  sessions_range : Forall (λ p : N * Session, p.1 < two64 ∧ lastSeq p.2 < two64 ∧
                             string_ok (lastResult p.2)) (sessions_ s);
  kv_count : N.of_nat (length (kv_ s)) < two64;
  sessions_count : N.of_nat (length (sessions_ s)) < two64;
}.

Lemma serialize_enc s :
  kv_ok s →
  serialize s = le_bytes 8 (N.of_nat (length (kv_ s))) ++ (kv_ s ≫= enc_kv) ++
    le_bytes 8 (N.of_nat (length (sessions_ s))) ++ (sessions_ s ≫= enc_session).
Proof.
  intros Hs. unfold serialize. rewrite !putU64_app. cbn [app].
  assert (H1 : ∀ l out, Forall (λ p, string_ok p.1 ∧ string_ok p.2) l →
    foldl (λ out p, putString (putString out p.1) p.2) out l = out ++ (l ≫= enc_kv)).
  { induction l as [|p l IH]; intros out Hl; cbn; [by rewrite app_nil_r|].
    apply Forall_cons in Hl as [[? ?] Hl].
    rewrite IH, !putString_app by done. unfold enc_kv at 2. by rewrite <-!app_assoc. }
  assert (H2 : ∀ (l : list (N * Session)) out,
    Forall (λ p, p.1 < two64 ∧ lastSeq p.2 < two64 ∧ string_ok (lastResult p.2)) l →
    foldl (λ out p, putString (putU64 (putU64 out p.1) (lastSeq p.2)) (lastResult p.2)) out l =
      out ++ (l ≫= enc_session)).
  { induction l as [|p l IH]; intros out Hl; cbn; [by rewrite app_nil_r|].
    apply Forall_cons in Hl as [(? & ? & ?) Hl].
    rewrite IH, putString_app, !putU64_app by done. unfold enc_session at 2.
    by rewrite <-!app_assoc. }
  rewrite H1, H2 by apply Hs. by rewrite <-!app_assoc.
Qed.

Lemma readKvs_forward fuel l acc r tl :
  (length l < fuel)%nat → Forall (λ p, string_ok p.1 ∧ string_ok p.2) l →
  rwf r → r_ok r = true → rest r = (l ≫= enc_kv) ++ tl →
  ∃ r', readKvs fuel (N.of_nat (length l)) acc r =
    (Some (foldl (λ acc p, om_insert p.1 p.2 acc) acc l), r') ∧
    rwf r' ∧ r_ok r' = true ∧ rest r' = tl.
Proof.
  revert l acc r. induction fuel as [|fuel IH]; intros l acc r Hf Hl Hwf Hok Hr; [lia|].
  cbn [readKvs]. rewrite bind_asks, Hok. cbn [negb]. rewrite orb_false_r.
  destruct l as [|p l]; [by exists r|]. apply Forall_cons in Hl as [[H1 H2] Hl].
  destruct (N.eqb_spec (N.of_nat (length (p :: l))) 0); [cbn in *; lia|].
  cbn in Hr. unfold enc_kv at 1 in Hr. rewrite <-!app_assoc in Hr.
  try_fwd oreads_string; [done|]. try_fwd oreads_string; [done|].
  replace (N.of_nat (length (p :: l)) - 1) with (N.of_nat (length l)) by (cbn; lia).
  cbn in Hf. cbn [foldl]. apply IH; [lia|done..].
Qed.

Lemma readSessions_forward fuel (l : list (N * Session)) acc r tl :
  (length l < fuel)%nat →
  Forall (λ p, p.1 < two64 ∧ lastSeq p.2 < two64 ∧ string_ok (lastResult p.2)) l →
  rwf r → r_ok r = true → rest r = (l ≫= enc_session) ++ tl →
  ∃ r', readSessions fuel (N.of_nat (length l)) acc r =
    (Some (foldl (λ acc p, om_insert p.1 p.2 acc) acc l), r') ∧
    rwf r' ∧ r_ok r' = true ∧ rest r' = tl.
Proof.
  revert l acc r. induction fuel as [|fuel IH]; intros l acc r Hf Hl Hwf Hok Hr; [lia|].
  cbn [readSessions]. rewrite bind_asks, Hok. cbn [negb]. rewrite orb_false_r.
  destruct l as [|[c se] l]; [by exists r|]. apply Forall_cons in Hl as [(H1 & H2 & H3) Hl].
  destruct (N.eqb_spec (N.of_nat (length ((c, se) :: l))) 0); [cbn in *; lia|].
  cbn in Hr. unfold enc_session at 1 in Hr. cbn in Hr. rewrite <-!app_assoc in Hr.
  rd_forward reads_u64; [done|]. rd_forward reads_u64; [done|]. try_fwd oreads_string; [done|].
  replace (N.of_nat (length ((c, se) :: l)) - 1) with (N.of_nat (length l)) by (cbn; lia).
  cbn in Hf. cbn [foldl fst snd]. replace (mkSession (lastSeq se) (lastResult se)) with se
    by (by destruct se). apply IH; [lia|done..].
Qed.

Lemma length_bind_ge {A} (f : A → list byte) l :
  (∀ a, (1 ≤ length (f a))%nat) → (length l ≤ length (l ≫= f))%nat.
Proof.
  intros Hf. induction l as [|a l IH]; cbn; [done|]. rewrite length_app.
  specialize (Hf a). lia.
Qed.

(** Snapshots are faithful.  Deserializing what [serialize] wrote restores
    exactly the same state, store and session table, whatever the state before. *)
Theorem kv_snapshot_roundtrip s s0 :
  kv_ok s → deserialize s0 (serialize s) = (true, s).
Proof.
  intros Hs. unfold deserialize.
  assert (Hlen : (length (kv_ s) < S (length (serialize s)))%nat ∧
                 (length (sessions_ s) < S (length (serialize s)))%nat).
  { rewrite serialize_enc by done. rewrite !length_app.
    pose proof (length_bind_ge enc_kv (kv_ s)). pose proof (length_bind_ge enc_session (sessions_ s)).
    unfold enc_kv, enc_session, enc_string in *. split.
    - specialize (H ltac:(intros; autorewrite with rsm_len; lia)). lia.
    - specialize (H0 ltac:(intros; autorewrite with rsm_len; lia)). lia. }
  destruct Hlen as [Hl1 Hl2]. revert Hl1 Hl2. generalize (S (length (serialize s))).
  intros fuel Hl1 Hl2. rewrite serialize_enc by done. set (bs := _ ++ _).
  pose proof (rwf_init bs) as Hwf. pose proof (rest_init bs) as Hr.
  assert (Hok : r_ok (Reader_init bs) = true) by done. subst bs. unfold readState.
  rd_forward reads_u64; [apply Hs|].
  edestruct (readKvs_forward fuel (kv_ s) []) as (r1 & E1 & Hwf1 & Hok1 & Hr1);
    [done|apply Hs|exact Hwf0|exact Hok0|exact Hr0|].
  unfold Reader_try at 1, mbind at 1, Rd_bind at 1. rewrite E1, om_rebuild by apply Hs.
  rd_forward reads_u64; [apply Hs|].
  rewrite <-(app_nil_r (sessions_ s ≫= enc_session)) in Hr.
  edestruct (readSessions_forward fuel (sessions_ s) []) as (r2 & E2 & Hwf2 & Hok2 & Hr2);
    [done|apply Hs|exact Hwf|exact Hok|exact Hr|].
  unfold Reader_try at 1, mbind at 1, Rd_bind at 1. rewrite E2, om_rebuild by apply Hs.
  rewrite bind_asks, (proj2 (exhausted_iff r2 Hwf2)) by done. by destruct s.
Qed.

(** The fuel of the two loops is enough for any input: a turn that finds the
    cursor good either fails or consumes bytes. *)
Lemma readString_consumes r s r' :
  rwf r → readString r = (Some s, r') → rwf r' ∧ (Reader_remaining r' < Reader_remaining r)%nat.
Proof.
  intros Hwf E. assert (r_ok r' = true) as Hok.
  { unfold readString, mbind, Rd_bind, Reader_asks, mret, Rd_ret in E.
    destruct (Reader_u32 r) as [v r1]. destruct (negb _ || _) eqn:Hc; [done|].
    unfold Reader_readBytes in E. destruct (r_ok r1) eqn:?; [|done]. cbn in *.
    rewrite Hc in E. by simplify_eq/=. }
  destruct oreads_string as (_ & Hb & Hm). destruct (Hm _ _ _ E Hwf) as (Hwf' & _).
  destruct (Hb _ _ _ Hwf E Hok) as [_ Hr]. apply (f_equal length) in Hr.
  rewrite length_app, !length_rest in Hr. unfold enc_string in Hr.
  rewrite length_app, length_le_bytes in Hr. split; [done|lia].
Qed.

Lemma readKvs_fuel fuel n acc r :
  rwf r → (Reader_remaining r < fuel)%nat → readKvs fuel n acc r = readKvs (S fuel) n acc r.
Proof.
  revert n acc r. induction fuel as [|fuel IH]; intros n acc r Hwf Hf; [lia|].
  cbn [readKvs]. rewrite !bind_asks. destruct (_ || _); [done|].
  unfold Reader_try, mbind, Rd_bind.
  destruct (readString r) as [[k|] r1] eqn:E1; [|done].
  destruct (readString_consumes _ _ _ Hwf E1) as [Hwf1 Hlt1].
  destruct (readString r1) as [[v|] r2] eqn:E2; [|done].
  destruct (readString_consumes _ _ _ Hwf1 E2) as [Hwf2 Hlt2]. apply IH; [done|lia].
Qed.

Lemma readSessions_fuel fuel n acc r :
  rwf r → (Reader_remaining r < fuel)%nat →
  readSessions fuel n acc r = readSessions (S fuel) n acc r.
Proof.
  revert n acc r. induction fuel as [|fuel IH]; intros n acc r Hwf Hf; [lia|].
  cbn [readSessions]. rewrite !bind_asks. destruct (_ || _); [done|].
  assert (Hu : ∀ r, rwf r → rwf (Reader_u64 r).2 ∧
    (Reader_remaining (Reader_u64 r).2 ≤ Reader_remaining r)%nat).
  { intros r0 Hr0. destruct (Reader_u64 r0) as [a r0'] eqn:E.
    destruct (rmono_u64 _ _ _ E Hr0) as (? & Hin & _). split; [done|]. cbn.
    unfold Reader_u64, mbind, Rd_bind, Reader_take, mret, Rd_ret in E.
    destruct (_ || _); injection E as _ <-; unfold Reader_remaining; cbn; lia. }
  unfold Reader_try, mbind, Rd_bind.
  destruct (Hu r Hwf) as [Hwf1 H1]. destruct (Reader_u64 r) as [c r1]. cbn in Hwf1, H1.
  destruct (Hu r1 Hwf1) as [Hwf2 H2]. destruct (Reader_u64 r1) as [q r2]. cbn in Hwf2, H2.
  destruct (readString r2) as [[v|] r3] eqn:E3; [|done].
  destruct (readString_consumes _ _ _ Hwf2 E3) as [Hwf3 Hlt3]. apply IH; [done|lia].
Qed.

(** ** Samples *)

Module KvSample.

Definition appendA : KvCommand := mkKvCommand 7 1 Append [x6b] [x61] [].
Definition putB : KvCommand := mkKvCommand 8 1 Put [x6b] [x62] [].

(** Client 7 appends, client 8 overwrites the key, and client 7 retries. *)
Lemma kv_retry_idempotent_witness :
  let s2 := mkKV [([x6b], [x62])] [(7, mkSession 1 [x4f; x61]); (8, mkSession 1 [x4f])] in
  KVStateMachine_apply s2 (encodeKvCommand appendA) = ([x4f; x61], s2).
Proof.
  refine (kv_retry_idempotent KVStateMachine_init (encodeKvCommand appendA) appendA
    [encodeKvCommand putB] _ _ _).
  - by vm_compute.
  - done.
  - constructor; [|done]. intros c' E. vm_compute in E. by injection E as <-.
Defined.

Definition sample_state : KVStateMachine :=
  run_kv KVStateMachine_init [encodeKvCommand appendA; encodeKvCommand putB].

Lemma kv_snapshot_roundtrip_witness :
  deserialize KVStateMachine_init (serialize sample_state) = (true, sample_state).
Proof.
  apply kv_snapshot_roundtrip. vm_compute. split; cbn; repeat constructor.
Defined.

End KvSample.
