(* ===== verification/OrderBook.v ===== *)
(** * src/statemachine/order_book.cpp: the matching engine

    The limit order book behind the same session layer as the key-value store:
    command and result formats, price-time matching, cancel, amend, and the
    state serialization. *)

From Stdlib Require Import NArith Strings.Byte Lia.
From S2P Require Import Prelude Text Wire Messages Log OrdMap KvStore.

Local Open Scope N_scope.

(** ** Data *)

Inductive ObOp := ObNew | ObCancel | ObAmend.
Inductive ObSide := Bid | Ask.

#[export] Instance ObSide_eq_dec : EqDecision ObSide.
Proof. solve_decision. Defined.

Definition ObOp_val (op : ObOp) : N :=
  match op with ObNew => 1 | ObCancel => 2 | ObAmend => 3 end.
Definition ObSide_val (side : ObSide) : N := match side with Bid => 0 | Ask => 1 end.
(** [static_cast<ObSide>] of a byte known to be 0 or 1. *)
Definition ObSide_of (b : N) : ObSide := if b =? 0 then Bid else Ask.

Definition kObOk : byte := x4f.            (* 'O' *)
Definition kObReject : byte := x4e.        (* 'N' *)
Definition kObMalformed : byte := x45.     (* 'E' *)

Record ObFill := mkObFill {
  makerOrderId : N;
  f_price : N;
  f_qty : N;
}.

Record Resting := mkResting {
  o_id : N;
  o_qty : N;
}.

Abbreviation Level := (list Resting).
Abbreviation Book := (ordmap N (list Resting)).
Abbreviation Index := (ordmap N (ObSide * N)).

Record OrderBookStateMachine := mkOrderBook {
  bids_ : Book;
  asks_ : Book;
  index_ : Index;
  nextOrderId_ : N;
  obSessions_ : ordmap N Session;
}.

Definition OrderBook_init : OrderBookStateMachine := mkOrderBook [] [] [] 1 [].

(** [side == ObSide::Bid ? bids_ : asks_] *)
Definition book_of (side : ObSide) (s : OrderBookStateMachine) : Book :=
  match side with Bid => bids_ s | Ask => asks_ s end.

Definition set_book (side : ObSide) (b : Book) (s : OrderBookStateMachine) :
    OrderBookStateMachine :=
  match side with
  | Bid => mkOrderBook b (asks_ s) (index_ s) (nextOrderId_ s) (obSessions_ s)
  | Ask => mkOrderBook (bids_ s) b (index_ s) (nextOrderId_ s) (obSessions_ s)
  end.

Definition set_index (i : Index) (s : OrderBookStateMachine) : OrderBookStateMachine :=
  mkOrderBook (bids_ s) (asks_ s) i (nextOrderId_ s) (obSessions_ s).

Definition opposite (side : ObSide) : ObSide := match side with Bid => Ask | Ask => Bid end.

(** ** Commands and results *)

Definition putU32 (out : list byte) (v : N) : list byte :=
  foldl (λ out i, out ++ [to_byte (N.shiftr v (8 * N.of_nat i))]) out (seq 0 4).

#[global] Arguments putU32 : simpl never.

Definition identityPrefix (clientId seqNo : N) (op : ObOp) : list byte :=
  putU64 (putU64 [] clientId) seqNo ++ [to_byte (ObOp_val op)].

Definition encodeObNew (clientId seqNo : N) (side : ObSide) (price qty : N) : list byte :=
  let out := identityPrefix clientId seqNo ObNew in
  let out := out ++ [to_byte (ObSide_val side)] in
  putU64 (putU64 out price) qty.

Definition encodeObCancel (clientId seqNo orderId : N) : list byte :=
  putU64 (identityPrefix clientId seqNo ObCancel) orderId.

Definition encodeObAmend (clientId seqNo orderId newPrice newQty : N) : list byte :=
  putU64 (putU64 (putU64 (identityPrefix clientId seqNo ObAmend) orderId) newPrice) newQty.

(** The success result of [apply]. *)
Definition obResult (orderId restingQty : N) (fills : list ObFill) : list byte :=
  let out := putU64 (putU64 [kObOk] orderId) restingQty in
  let out := putU32 out (N.of_nat (length fills) mod two32) in
  foldl (λ out f, putU64 (putU64 (putU64 out (makerOrderId f)) (f_price f)) (f_qty f)) out fills.

Record ObResult := mkObResult {
  res_status : byte;
  res_orderId : N;
  res_restingQty : N;
  res_fills : list ObFill;
}.

Fixpoint readFills (n : nat) : Rd (list ObFill) :=
  match n with
  | O => mret []
  | S n =>
      maker ← Reader_u64;
      price ← Reader_u64;
      qty ← Reader_u64;
      fs ← readFills n;
      mret (mkObFill maker price qty :: fs)
  end.

Definition readObResult (status : byte) : Rd (option ObResult) :=
  orderId ← Reader_u64;
  restingQty ← Reader_u64;
  n ← Reader_u32;
  ok ← Reader_asks r_ok;
  remaining ← Reader_asks Reader_remaining;
  if negb ok || (N.of_nat remaining / 24 <? n) then mret None
  else
    fills ← readFills (N.to_nat n);
    ok ← Reader_asks r_ok;
    exhausted ← Reader_asks Reader_exhausted;
    if negb ok || negb exhausted then mret None
    else mret (Some (mkObResult status orderId restingQty fills)).

Definition decodeObResult (result : list byte) : option ObResult :=
  match result with
  | [] => None
  | status :: tl =>
      if bool_decide (status = kObReject) || bool_decide (status = kObMalformed) then
        if negb (length result =? 1)%nat then None else Some (mkObResult status 0 0 [])
      else if negb (bool_decide (status = kObOk)) then None
      else (readObResult status (Reader_init tl)).1
  end.

(** ** Matching *)

Definition bestLevel (taker : ObSide) (opp : Book) : option (N * Level) :=
  match taker with Bid => head opp | Ask => last opp end.

Definition crosses (taker : ObSide) (limit price : N) : bool :=
  match taker with Bid => price <=? limit | Ask => limit <=? price end.

(** The loop of [match]; every turn but the last takes a resting order out of
    the book, so one turn per order and one more are enough ([match_fuel]).  A
    level is never empty, where the C++ takes its [front()]. *)
Fixpoint matchLoop (fuel : nat) (taker : ObSide) (limit qty : N) (fills : list ObFill)
    (opp : Book) (index : Index) : N * list ObFill * Book * Index :=
  match fuel with
  | O => (qty, fills, opp, index)
  | S fuel =>
      if negb (0 <? qty) then (qty, fills, opp, index)
      else
        match bestLevel taker opp with
        | None => (qty, fills, opp, index)
        | Some (price, level) =>
            if negb (crosses taker limit price) then (qty, fills, opp, index)
            else
              match level with
              | [] => (qty, fills, opp, index)
              | maker :: queue =>
                  let fillQty := if qty <? o_qty maker then qty else o_qty maker in
                  let fills := fills ++ [mkObFill (o_id maker) price fillQty] in
                  let qty := qty - fillQty in
                  let makerQty := o_qty maker - fillQty in
                  if makerQty =? 0 then
                    matchLoop fuel taker limit qty fills
                      (match queue with
                       | [] => om_erase price opp
                       | _ :: _ => om_insert price queue opp
                       end) (om_erase (o_id maker) index)
                  else
                    matchLoop fuel taker limit qty fills
                      (om_insert price (mkResting (o_id maker) makerQty :: queue) opp) index
              end
        end
  end.

Definition restingOrders (b : Book) : nat := sum_list_with (length ∘ snd) b.

(** [match]: the residual, the fills and the updated book. *)
Definition match_ (taker : ObSide) (limit qty : N) (s : OrderBookStateMachine) :
    N * list ObFill * OrderBookStateMachine :=
  let opp := book_of (opposite taker) s in
  let '(qty, fills, opp, index) :=
    matchLoop (S (restingOrders opp)) taker limit qty [] opp (index_ s) in
  (qty, fills, set_index index (set_book (opposite taker) opp s)).

Definition rest_ (side : ObSide) (price id qty : N) (s : OrderBookStateMachine) :
    OrderBookStateMachine :=
  let book := book_of side s in
  let level := default [] (om_find price book) in
  set_index (om_insert id (side, price) (index_ s))
    (set_book side (om_insert price (level ++ [mkResting id qty]) book) s).

(** The scan of [remove]: the first order with that id, taken out. *)
Fixpoint takeOrder (id : N) (level : Level) : N * Level :=
  match level with
  | [] => (0, [])
  | o :: level =>
      if o_id o =? id then (o_qty o, level)
      else let '(qty, level) := takeOrder id level in (qty, o :: level)
  end.

(** [None] is [index_.at] throwing, or a locator that points at no level. *)
Definition remove (id : N) (s : OrderBookStateMachine) : option (N * OrderBookStateMachine) :=
  '(side, price) ← om_find id (index_ s);
  level ← om_find price (book_of side s);
  let '(qty, level) := takeOrder id level in
  let book := match level with
              | [] => om_erase price (book_of side s)
              | _ :: _ => om_insert price level (book_of side s)
              end in
  Some (qty, set_index (om_erase id (index_ s)) (set_book side book s)).

(** ** apply *)

Definition obCached (s : OrderBookStateMachine) (clientId seqNo : N) : option (list byte) :=
  if negb (clientId =? 0) then
    match om_find clientId (obSessions_ s) with
    | Some it => if seqNo <=? lastSeq it then Some (lastResult it) else None
    | None => None
    end
  else None.

(** Match, rest what is left, and report: the tail NEW and AMEND share. *)
Definition matchAndRest (side : ObSide) (price qty orderId : N) (s : OrderBookStateMachine) :
    list byte * OrderBookStateMachine :=
  let '(residual, fills, s) := match_ side price qty s in
  let s := if 0 <? residual then rest_ side price orderId residual s else s in
  (obResult orderId residual fills, s).

(** The three cases of the switch; [None] is the malformed return.  The locator
    of a resting order is always right ([ob_ok]), so [remove] does not fail. *)
Definition applyNew (r : Reader) (s : OrderBookStateMachine) :
    option (list byte * OrderBookStateMachine) :=
  let '(side, r) := Reader_u8 r in
  let '(price, r) := Reader_u64 r in
  let '(qty, r) := Reader_u64 r in
  if negb (r_ok r) || negb (Reader_exhausted r) || (1 <? side) || (price =? 0) || (qty =? 0)
  then None
  else
    let orderId := nextOrderId_ s in
    let s := mkOrderBook (bids_ s) (asks_ s) (index_ s) (add64 orderId 1) (obSessions_ s) in
    Some (matchAndRest (ObSide_of side) price qty orderId s).

Definition applyCancel (r : Reader) (s : OrderBookStateMachine) :
    option (list byte * OrderBookStateMachine) :=
  let '(orderId, r) := Reader_u64 r in
  if negb (r_ok r) || negb (Reader_exhausted r) then None
  else
    match om_find orderId (index_ s) with
    | None => Some ([kObReject], s)
    | Some _ =>
        match remove orderId s with
        | Some (removed, s) => Some (obResult orderId removed [], s)
        | None => None
        end
    end.

Definition applyAmend (r : Reader) (s : OrderBookStateMachine) :
    option (list byte * OrderBookStateMachine) :=
  let '(orderId, r) := Reader_u64 r in
  let '(newPrice, r) := Reader_u64 r in
  let '(newQty, r) := Reader_u64 r in
  if negb (r_ok r) || negb (Reader_exhausted r) || (newPrice =? 0) || (newQty =? 0) then None
  else
    match om_find orderId (index_ s) with
    | None => Some ([kObReject], s)
    | Some (side, price) =>
        let level := default [] (om_find price (book_of side s)) in
        let pos := list_find (λ o, o_id o = orderId) level in
        let inPlace := (newPrice =? price) &&
          match pos with Some (_, o) => newQty <=? o_qty o | None => false end in
        if inPlace then
          let level := match pos with
                       | Some (i, o) => <[i := mkResting (o_id o) newQty]> level
                       | None => level
                       end in
          Some (obResult orderId newQty [],
                set_book side (om_insert price level (book_of side s)) s)
        else
          match remove orderId s with
          | Some (_, s) => Some (matchAndRest side newPrice newQty orderId s)
          | None => None
          end
    end.

Definition readObHeader : Rd (N * N * N) :=
  clientId ← Reader_u64; seqNo ← Reader_u64; opByte ← Reader_u8;
  mret (clientId, seqNo, opByte).

Definition OrderBook_apply (s : OrderBookStateMachine) (cmd : list byte) :
    list byte * OrderBookStateMachine :=
  let '(clientId, seqNo, opByte, r) := readObHeader (Reader_init cmd) in
  if negb (r_ok r) || (opByte <? 1) || (3 <? opByte) then ([kObMalformed], s)
  else
    match obCached s clientId seqNo with
    | Some result => (result, s)
    | None =>
        match (if opByte =? 1 then applyNew r s
               else if opByte =? 2 then applyCancel r s
               else applyAmend r s) with
        | None => ([kObMalformed], s)
        | Some (result, s) =>
            (result,
             if negb (clientId =? 0)
             then mkOrderBook (bids_ s) (asks_ s) (index_ s) (nextOrderId_ s)
                    (om_insert clientId (mkSession seqNo result) (obSessions_ s))
             else s)
        end
    end.

#[export] Instance OrderBook_StateMachine : StateMachine OrderBookStateMachine :=
  OrderBook_apply.

(** ** Accessors *)

(** [order]: side, price and quantity of a resting order. *)
Definition OrderBook_order (s : OrderBookStateMachine) (orderId : N) : option (ObSide * N * N) :=
  '(side, price) ← om_find orderId (index_ s);
  level ← om_find price (book_of side s);
  '(_, o) ← list_find (λ o, o_id o = orderId) level;
  Some (side, price, o_qty o).

Definition levelTotal (level : Level) : N := foldl (λ total o, add64 total (o_qty o)) 0 level.

Definition bestBid (s : OrderBookStateMachine) : option (N * N) :=
  '(price, level) ← last (bids_ s); Some (price, levelTotal level).

Definition bestAsk (s : OrderBookStateMachine) : option (N * N) :=
  '(price, level) ← head (asks_ s); Some (price, levelTotal level).

(** One line per level: side, price and the queue, best prices first. *)
Definition dumpLevel (tag : list byte) (out : list byte) (p : N * Level) : list byte :=
  foldl (λ out o, out ++ str " (" ++ to_string (o_id o) ++ str "," ++ to_string (o_qty o) ++ str ")")
    (out ++ tag ++ str " " ++ to_string p.1 ++ str ":") p.2 ++ [x0a].

Definition bookImage (s : OrderBookStateMachine) : list byte :=
  let out := foldl (dumpLevel (str "B")) [] (reverse (bids_ s)) in
  foldl (dumpLevel (str "A")) out (asks_ s).

(** ** Serialization *)

Definition putLevel (out : list byte) (p : N * Level) : list byte :=
  foldl (λ out o, putU64 (putU64 out (o_id o)) (o_qty o))
    (putU64 (putU64 out p.1) (N.of_nat (length p.2))) p.2.

Definition putBook (out : list byte) (b : Book) : list byte :=
  foldl putLevel (putU64 out (N.of_nat (length b))) b.

Definition OrderBook_serialize (s : OrderBookStateMachine) : list byte :=
  let out := putU64 [] (nextOrderId_ s) in
  let out := putBook (putBook out (bids_ s)) (asks_ s) in
  let out := putU64 out (N.of_nat (length (obSessions_ s))) in
  foldl (λ out p, putU32 (putU64 (putU64 out p.1) (lastSeq p.2))
                    (N.of_nat (length (lastResult p.2)) mod two32) ++ lastResult p.2)
    out (obSessions_ s).

(** The counts are checked against the bytes left before each loop runs. *)
Fixpoint readOrders (n : nat) (side : ObSide) (price : N) (level : Level) (index : Index) :
    Rd (option (Level * Index)) :=
  match n with
  | O => mret (Some (level, index))
  | S n =>
      id ← Reader_u64;
      qty ← Reader_u64;
      ok ← Reader_asks r_ok;
      if negb ok || (qty =? 0) || bool_decide (is_Some (om_find id index)) then mret None
      else readOrders n side price (level ++ [mkResting id qty]) (om_insert id (side, price) index)
  end.

Fixpoint readLevels (n : nat) (side : ObSide) (book : Book) (index : Index) :
    Rd (option (Book * Index)) :=
  match n with
  | O => mret (Some (book, index))
  | S n =>
      price ← Reader_u64;
      nOrders ← Reader_u64;
      ok ← Reader_asks r_ok;
      remaining ← Reader_asks Reader_remaining;
      if negb ok || (price =? 0) || (nOrders =? 0) || (N.of_nat remaining / 16 <? nOrders) ||
         bool_decide (is_Some (om_find price book))
      then mret None
      else
        li ←? readOrders (N.to_nat nOrders) side price [] index;
        readLevels n side (om_insert price li.1 book) li.2
  end.

Definition readBook (side : ObSide) (index : Index) : Rd (option (Book * Index)) :=
  nLevels ← Reader_u64;
  ok ← Reader_asks r_ok;
  remaining ← Reader_asks Reader_remaining;
  if negb ok || (N.of_nat remaining / 16 <? nLevels) then mret None
  else readLevels (N.to_nat nLevels) side [] index.

Fixpoint readObSessions (n : nat) (sessions : ordmap N Session) :
    Rd (option (ordmap N Session)) :=
  match n with
  | O => mret (Some sessions)
  | S n =>
      clientId ← Reader_u64;
      lastSeq ← Reader_u64;
      lastResult ←? readString;
      readObSessions n (om_insert clientId (mkSession lastSeq lastResult) sessions)
  end.

Definition readOrderBook : Rd (option OrderBookStateMachine) :=
  nextId ← Reader_u64;
  bi ←? readBook Bid [];
  ai ←? readBook Ask bi.2;
  nSessions ← Reader_u64;
  ok ← Reader_asks r_ok;
  remaining ← Reader_asks Reader_remaining;
  if negb ok || (N.of_nat remaining / 20 <? nSessions) then mret None
  else
    sessions ←? readObSessions (N.to_nat nSessions) [];
    exhausted ← Reader_asks Reader_exhausted;
    if negb exhausted then mret None
    else mret (Some (mkOrderBook bi.1 ai.1 ai.2 nextId sessions)).

Definition OrderBook_deserialize (s : OrderBookStateMachine) (bytes : list byte) :
    bool * OrderBookStateMachine :=
  match (readOrderBook (Reader_init bytes)).1 with
  | Some s' => (true, s')
  | None => (false, s)
  end.

(** ** Price-time priority: the reference

    The opposite side of the book as one queue, best price first and oldest first
    within a price, from which an incoming order takes greedily. *)

Definition prio (taker : ObSide) (b : Book) : Book :=
  match taker with Bid => b | Ask => reverse b end.

Definition flat (b : Book) : list (N * Resting) := b ≫= λ p, (λ o, (p.1, o)) <$> p.2.

(** The residual quantity, the fills, the ids that left the book, and the queue
    that remains. *)
Fixpoint fill (taker : ObSide) (limit qty : N) (l : list (N * Resting)) :
    N * list ObFill * list N * list (N * Resting) :=
  match l with
  | [] => (qty, [], [], [])
  | (p, o) :: l' =>
      if (qty =? 0) || negb (crosses taker limit p) then (qty, [], [], l)
      else if qty <? o_qty o
      then (0, [mkObFill (o_id o) p qty], [], (p, mkResting (o_id o) (o_qty o - qty)) :: l')
      else
        let '(q, fs, gone, l'') := fill taker limit (qty - o_qty o) l' in
        (q, mkObFill (o_id o) p (o_qty o) :: fs, o_id o :: gone, l'')
  end.

Definition level_ok (p : N * Level) : Prop :=
  1 ≤ p.1 ∧ p.2 ≠ [] ∧ Forall (λ o, 1 ≤ o_qty o) p.2.

Definition book_ok (b : Book) : Prop := om_ok b ∧ Forall level_ok b.

(** *** Books as queues *)

Lemma flat_cons p lv b : flat ((p, lv) :: b) = ((λ o, (p, o)) <$> lv) ++ flat b.
Proof. done. Qed.

Lemma flat_app b1 b2 : flat (b1 ++ b2) = flat b1 ++ flat b2.
Proof. unfold flat. by rewrite bind_app. Qed.

Lemma om_snoc_keys k v (m : Book) : om_ok (m ++ [(k, v)]) → Forall (λ p, key_ltb p.1 k = true) m.
Proof.
  intros (_ & _ & Hx)%om_ok_app. apply Forall_forall. intros p Hp.
  exact (Hx p (k, v) Hp ltac:(by left)).
Qed.

Lemma om_insert_snoc k v v' (m : Book) :
  om_ok (m ++ [(k, v)]) → om_insert k v' (m ++ [(k, v)]) = m ++ [(k, v')].
Proof.
  intros Hm%om_snoc_keys. induction m as [|[k0 v0] m IH]; cbn; [by rewrite key_irrefl|].
  apply Forall_cons in Hm as [H0 Hm]. cbn in H0.
  destruct (key_cases k k0) as [(E1 & E2 & _)|[(E1 & E2 & _)|(E1 & E2 & ->)]];
    rewrite E1, ?E2; [congruence| |congruence]. by rewrite IH.
Qed.

Lemma om_erase_snoc k v (m : Book) : om_ok (m ++ [(k, v)]) → om_erase k (m ++ [(k, v)]) = m.
Proof.
  intros Hm%om_snoc_keys. induction m as [|[k0 v0] m IH]; cbn; [by rewrite key_irrefl|].
  apply Forall_cons in Hm as [H0 Hm]. cbn in H0.
  destruct (key_cases k k0) as [(E1 & E2 & _)|[(E1 & E2 & _)|(E1 & E2 & ->)]];
    rewrite E1, ?E2; [congruence| |congruence]. by rewrite IH.
Qed.

(** The best level is the head of the queue, and updating or erasing it is
    local. *)
Lemma best_split taker b price level :
  om_ok b → bestLevel taker b = Some (price, level) →
  prio taker b = (price, level) :: prio taker (om_erase price b) ∧
  ∀ lv, prio taker (om_insert price lv b) = (price, lv) :: prio taker (om_erase price b).
Proof.
  intros Hok. destruct taker; cbn.
  - destruct b as [|[k v] b]; [done|]. intros [= -> ->]. cbn. by rewrite key_irrefl.
  - intros (m & ->)%last_Some. rewrite om_erase_snoc, reverse_snoc by done. split; [done|].
    intros lv. by rewrite om_insert_snoc, reverse_snoc by done.
Qed.

Lemma best_none taker b : bestLevel taker b = None → b = [].
Proof. destruct taker; cbn; [by destruct b|]. apply last_None. Qed.

Lemma best_in taker b p : bestLevel taker b = Some p → p ∈ b.
Proof.
  destruct taker; cbn; [|apply last_Some_elem_of].
  destruct b; [done|]. intros [= ->]. by left.
Qed.

Lemma Forall_prio (P : N * Level → Prop) taker b : Forall P (prio taker b) ↔ Forall P b.
Proof. destruct taker; cbn; [done|]. by rewrite Forall_reverse. Qed.

Lemma book_ok_insert p lv b : book_ok b → level_ok (p, lv) → book_ok (om_insert p lv b).
Proof.
  intros [Hok Hl] Hp. split; [by apply om_insert_ok|].
  destruct (om_split p b Hok) as (m1 & m2 & Hi & _ & E & _). rewrite Hi.
  rewrite E in Hl. apply Forall_app in Hl as [H1 [_ H2]%Forall_app].
  apply Forall_app_2; [done|by constructor].
Qed.

Lemma book_ok_erase p b : book_ok b → book_ok (om_erase p b).
Proof.
  intros [Hok Hl]. split; [by apply om_erase_ok|].
  destruct (om_split p b Hok) as (m1 & m2 & _ & He & E & _). rewrite He.
  rewrite E in Hl. apply Forall_app in Hl as [H1 [_ H2]%Forall_app]. by apply Forall_app_2.
Qed.

Lemma matchLoop_done fuel taker limit fills opp index :
  matchLoop fuel taker limit 0 fills opp index = (0, fills, opp, index).
Proof. by destruct fuel. Qed.

(** The loop is the reference. *)
Lemma matchLoop_fill fuel taker limit qty fills opp index :
  book_ok opp → (length (flat (prio taker opp)) < fuel)%nat →
  let '(q, fs, gone, l) := fill taker limit qty (flat (prio taker opp)) in
  ∃ opp', matchLoop fuel taker limit qty fills opp index =
      (q, fills ++ fs, opp', foldl (λ i id, om_erase id i) index gone) ∧
    flat (prio taker opp') = l ∧ book_ok opp'.
Proof.
  revert qty fills opp index.
  induction fuel as [|fuel IH]; intros qty fills opp index Hb Hf; [lia|].
  cbn [matchLoop]. destruct (N.ltb_spec 0 qty) as [Hq|Hq]; cbn [negb].
  2: { assert (qty = 0) as -> by lia. destruct (flat (prio taker opp)) as [|[p o] l] eqn:El;
       exists opp; rewrite app_nil_r; split_and!; by rewrite ?El. }
  destruct (bestLevel taker opp) as [[price level]|] eqn:Eb.
  2: { apply best_none in Eb as ->. replace (flat (prio taker [])) with ([] : list (N * Resting))
         by (by destruct taker). cbn. exists []. rewrite app_nil_r. by destruct taker. }
  destruct (best_split _ _ _ _ (proj1 Hb) Eb) as [Ep Ei].
  assert (Hlv : level_ok (price, level)).
  { destruct Hb as [_ Hl]. rewrite Forall_forall in Hl. by apply Hl, (best_in taker). }
  destruct level as [|maker queue]; [by destruct Hlv as (_ & ? & _)|].
  rewrite Ep, flat_cons in *. cbn [fmap list_fmap app fill].
  rewrite (proj2 (N.eqb_neq qty 0)) by lia. cbn [orb].
  destruct (crosses taker limit price) eqn:Ec; cbn [negb].
  2: { exists opp. rewrite app_nil_r. split_and!; [done| |done]. by rewrite Ep. }
  destruct Hlv as (Hp & _ & [Hm Hq']%Forall_cons). cbn in Hp, Hq'.
  destruct (N.ltb_spec qty (o_qty maker)) as [Hlt|Hge].
  - rewrite N.sub_diag. rewrite (proj2 (N.eqb_neq (o_qty maker - qty) 0)) by lia.
    rewrite matchLoop_done. eexists. split_and!; [done| |].
    + rewrite Ei, flat_cons. done.
    + apply book_ok_insert; [done|]. split_and!; cbn; [done..|]. constructor; [cbn; lia|done].
  - rewrite N.sub_diag. cbn [N.eqb].
    set (opp1 := match queue with [] => _ | _ => _ end).
    assert (H1 : flat (prio taker opp1) =
      ((λ o, (price, o)) <$> queue) ++ flat (prio taker (om_erase price opp)) ∧ book_ok opp1).
    { subst opp1. destruct queue as [|o queue]; [split; [done|by apply book_ok_erase]|].
      rewrite Ei, flat_cons. split; [done|]. by apply book_ok_insert. }
    destruct H1 as [E1 Hb1]. cbn in Hf.
    specialize (IH (qty - o_qty maker) (fills ++ [mkObFill (o_id maker) price (o_qty maker)])
      opp1 (om_erase (o_id maker) index) Hb1). rewrite E1 in IH. specialize (IH ltac:(lia)).
    destruct (fill _ _ _ _) as [[[q fs] gone] l]. destruct IH as (opp' & E & El & Hb').
    exists opp'. rewrite E, <-app_assoc. done.
Qed.

Lemma length_flat b : length (flat b) = restingOrders b.
Proof.
  induction b as [|[p lv] b IH]; [done|]. rewrite flat_cons, length_app, length_fmap, IH. done.
Qed.

Lemma length_flat_prio taker b : length (flat (prio taker b)) = restingOrders b.
Proof.
  destruct taker; cbn; [apply length_flat|]. rewrite length_flat. unfold restingOrders.
  by rewrite (sum_list_with_reverse (length ∘ snd)).
Qed.

(** *** What the reference does *)

Definition fills_total (fs : list ObFill) : N := foldr (λ f t, f_qty f + t) 0 fs.
Definition queue_total (l : list (N * Resting)) : N := foldr (λ x t, o_qty x.2 + t) 0 l.

(** Nothing is lost: what the taker asked for is filled or left over, and what
    left the book is what was filled. *)
Lemma fill_conserves taker limit qty l q fs gone l' :
  fill taker limit qty l = (q, fs, gone, l') →
  qty = q + fills_total fs ∧ queue_total l = fills_total fs + queue_total l'.
Proof.
  revert qty q fs gone l'. induction l as [|[p o] l IH]; intros qty q fs gone l'; cbn.
  { intros [= <- <- <- <-]. cbn. lia. }
  destruct (_ || _); [intros [= <- <- <- <-]; cbn; lia|].
  destruct (N.ltb_spec qty (o_qty o)); [intros [= <- <- <- <-]; cbn; lia|].
  destruct (fill _ _ _ l) as [[[q0 fs0] gone0] l0] eqn:E. intros [= <- <- <- <-].
  apply IH in E as [E1 E2]. unfold fills_total, queue_total in *. cbn. lia.
Qed.

(** Every fill is with a resting order that crosses, at that order's price. *)
Lemma fill_makers taker limit qty l q fs gone l' f :
  fill taker limit qty l = (q, fs, gone, l') → f ∈ fs →
  crosses taker limit (f_price f) = true ∧
  ∃ o, (f_price f, o) ∈ l ∧ o_id o = makerOrderId f ∧ f_qty f ≤ o_qty o.
Proof.
  revert qty q fs gone l'. induction l as [|[p o] l IH]; intros qty q fs gone l'; cbn.
  { intros [= <- <- <- <-] H. by apply not_elem_of_nil in H. }
  destruct (qty =? 0); cbn; [intros [= <- <- <- <-] H; by apply not_elem_of_nil in H|].
  destruct (crosses taker limit p) eqn:Ec; cbn;
    [|intros [= <- <- <- <-] H; by apply not_elem_of_nil in H].
  destruct (N.ltb_spec qty (o_qty o)).
  { intros [= <- <- <- <-] ->%list_elem_of_singleton. cbn. split; [done|].
    exists o. split_and!; [by left|done|lia]. }
  destruct (fill _ _ _ l) as [[[q0 fs0] gone0] l0] eqn:E. intros [= <- <- <- <-] Hin.
  apply elem_of_cons in Hin as [->|Hin].
  - cbn. split; [done|]. exists o. split_and!; [by left|done|lia].
  - destruct (IH _ _ _ _ _ E Hin) as (? & o' & ? & ? & ?). split; [done|].
    exists o'. split_and!; [by right|done..].
Qed.

(** A residual is left only when nothing that remains at the front crosses. *)
Lemma fill_residual taker limit qty l q fs gone l' :
  fill taker limit qty l = (q, fs, gone, l') → 0 < q →
  match head l' with Some (p, _) => crosses taker limit p = false | None => True end.
Proof.
  revert qty q fs gone l'. induction l as [|[p o] l IH]; intros qty q fs gone l'; cbn.
  { by intros [= <- <- <- <-]. }
  destruct (N.eqb_spec qty 0) as [->|]; cbn; [intros [= <- <- <- <-]; lia|].
  destruct (crosses taker limit p) eqn:Ec; cbn; [|by intros [= <- <- <- <-]].
  destruct (N.ltb_spec qty (o_qty o)); [intros [= <- <- <- <-]; lia|].
  destruct (fill _ _ _ l) as [[[q0 fs0] gone0] l0] eqn:E. intros [= <- <- <- <-].
  exact (IH _ _ _ _ _ E).
Qed.

(** Prices that are left were there before. *)
Lemma fill_prices taker limit qty l q fs gone l' :
  fill taker limit qty l = (q, fs, gone, l') → l'.*1 ⊆ l.*1.
Proof.
  revert qty q fs gone l'. induction l as [|[p o] l IH]; intros qty q fs gone l'; cbn.
  { by intros [= <- <- <- <-]. }
  destruct (_ || _); [by intros [= <- <- <- <-]|].
  destruct (_ <? _); [by intros [= <- <- <- <-]|].
  destruct (fill _ _ _ l) as [[[q0 fs0] gone0] l0] eqn:E. intros [= <- <- <- <-].
  apply IH in E. set_solver.
Qed.

(** *** Order of the prices *)

Lemma flat_price b p o : (p, o) ∈ flat b → ∃ lv, (p, lv) ∈ b ∧ o ∈ lv.
Proof.
  unfold flat. rewrite list_elem_of_bind. intros ([p' lv] & Hin & Hb).
  apply list_elem_of_fmap in Hin as (o' & [= -> ->] & ?). by exists lv.
Qed.

Lemma flat_price_inv b p o lv : (p, lv) ∈ b → o ∈ lv → (p, o) ∈ flat b.
Proof.
  intros Hb Ho. unfold flat. apply list_elem_of_bind. exists (p, lv). split; [|done].
  apply list_elem_of_fmap. by exists o.
Qed.

(** The best price is the best: if it does not cross, none does. *)
Lemma best_bounds taker b price level p o limit :
  om_ok b → bestLevel taker b = Some (price, level) → (p, o) ∈ flat b →
  crosses taker limit price = false → crosses taker limit p = false.
Proof.
  intros Hok Hb (lv & Hin & _)%flat_price. destruct taker; cbn in *.
  - destruct b as [|[k v] b]; [done|]. injection Hb as -> ->.
    apply om_ok_cons in Hok as [Ha _]. apply elem_of_cons in Hin as [[= -> ->]|Hin]; [done|].
    unfold om_above in Ha. rewrite Forall_forall in Ha. specialize (Ha _ Hin). cbn in Ha.
    unfold key_ltb, N_KeyOrder in Ha. apply N.ltb_lt in Ha. rewrite !N.leb_gt. lia.
  - apply last_Some in Hb as (m & ->). apply elem_of_app in Hin as [Hin|[= -> ->]%list_elem_of_singleton]; [|done].
    apply om_ok_app in Hok as (_ & _ & Hx). specialize (Hx _ (price, level) Hin ltac:(by left)).
    unfold om_lt, key_ltb, N_KeyOrder in Hx. cbn in Hx. apply N.ltb_lt in Hx. rewrite !N.leb_gt. lia.
Qed.

Lemma book_of_set_book side side' b s :
  book_of side (set_book side' b s) = if decide (side = side') then b else book_of side s.
Proof. by destruct side, side'. Qed.

Lemma book_of_set_index side i s : book_of side (set_index i s) = book_of side s.
Proof. by destruct side. Qed.

Lemma head_flat b p o l : Forall level_ok b → flat b = (p, o) :: l → ∃ lv, head b = Some (p, lv).
Proof.
  intros Hb. destruct b as [|[p' lv] b]; [done|]. apply Forall_cons in Hb as [(_ & Hne & _) _].
  rewrite flat_cons. destruct lv as [|o' lv]; [done|]. intros [= -> _ _]. by eexists.
Qed.

Lemma best_prio taker b : bestLevel taker b = head (prio taker b).
Proof. destruct taker; [done|]. cbn. by rewrite head_reverse. Qed.

(** [match] in terms of the reference. *)
Lemma match_spec taker limit qty s :
  book_ok (book_of (opposite taker) s) →
  let '(q, fs, gone, l) := fill taker limit qty (flat (prio taker (book_of (opposite taker) s))) in
  ∃ opp', match_ taker limit qty s =
      (q, fs, set_index (foldl (λ i id, om_erase id i) (index_ s) gone)
                (set_book (opposite taker) opp' s)) ∧
    flat (prio taker opp') = l ∧ book_ok opp' ∧
    (0 < q → ∀ p o, (p, o) ∈ flat opp' → crosses taker limit p = false).
Proof.
  intros Hb. unfold match_.
  pose proof (matchLoop_fill (S (restingOrders (book_of (opposite taker) s))) taker limit qty []
    _ (index_ s) Hb ltac:(rewrite length_flat_prio; lia)) as H.
  destruct (fill _ _ _ _) as [[[q fs] gone] l] eqn:Ef. destruct H as (opp' & E & El & Hb').
  exists opp'. rewrite E. split_and!; [done..|]. intros Hq p o Hin.
  pose proof (fill_residual _ _ _ _ _ _ _ _ Ef Hq) as Hr.
  destruct (bestLevel taker opp') as [[price level]|] eqn:Ebest.
  - eapply best_bounds; [apply Hb'|done|done|]. rewrite best_prio in Ebest.
    destruct (prio taker opp') as [|[p0 lv] b'] eqn:Ep; [done|]. injection Ebest as -> ->.
    assert (level_ok (price, level)) as (_ & Hne & _).
    { destruct Hb' as [_ Hl]. apply (Forall_prio _ taker) in Hl. rewrite Ep in Hl.
      by apply Forall_cons in Hl as [? _]. }
    rewrite <-El, flat_cons in Hr. destruct level as [|o0 level]; [done|]. exact Hr.
  - apply best_none in Ebest as ->. by apply not_elem_of_nil in Hin.
Qed.

(** C39: Price-time priority.  An incoming order is matched against the opposite
    side as one queue, best price first and oldest first within a price: it takes
    greedily from the front while the price crosses its limit, at the resting
    orders' prices.  Quantity is conserved, the taker's own side is untouched, and
    a residual is left only when nothing that remains crosses. *)
Theorem ob_price_time taker limit qty s :
  book_ok (book_of (opposite taker) s) →
  let '(residual, fills, s') := match_ taker limit qty s in
  ∃ gone queue',
    fill taker limit qty (flat (prio taker (book_of (opposite taker) s))) =
      (residual, fills, gone, queue') ∧
    flat (prio taker (book_of (opposite taker) s')) = queue' ∧
    book_of taker s' = book_of taker s ∧
    qty = residual + fills_total fills ∧
    (0 < residual → ∀ p o, (p, o) ∈ flat (book_of (opposite taker) s') →
       crosses taker limit p = false).
Proof.
  intros Hb. pose proof (match_spec taker limit qty s Hb) as H.
  destruct (fill _ _ _ _) as [[[q fs] gone] l] eqn:Ef. destruct H as (opp' & -> & El & _ & Hr).
  apply fill_conserves in Ef as Hc. exists gone, l.
  rewrite !book_of_set_index, !book_of_set_book, decide_True by done.
  rewrite decide_False by (by destruct taker). split_and!; try done. apply Hc.
Qed.

(** ** The state invariant *)

(** Every resting order with its side and price. *)
Definition tag (side : ObSide) (l : list (N * Resting)) : list (ObSide * (N * Resting)) :=
  (λ x, (side, x)) <$> l.

Definition orders (s : OrderBookStateMachine) : list (ObSide * (N * Resting)) :=
  tag Bid (flat (bids_ s)) ++ tag Ask (flat (asks_ s)).

Definition id_of (x : ObSide * (N * Resting)) : N := o_id x.2.2.

(** The locator index is exact for a collection of orders with distinct ids. *)
Record bag_ok (index : Index) (all : list (ObSide * (N * Resting))) : Prop := {
  bag_sorted : om_ok index;
  bag_index : ∀ id side p,
    om_find id index = Some (side, p) ↔ ∃ q, (side, (p, mkResting id q)) ∈ all;
  bag_nodup : NoDup (id_of <$> all);
}.

Record ob_ok (s : OrderBookStateMachine) : Prop := {
  ob_bids : book_ok (bids_ s);
  ob_asks : book_ok (asks_ s);
  ob_bag : bag_ok (index_ s) (orders s);
  ob_ids : Forall (λ x, id_of x < nextOrderId_ s) (orders s);
  (* the book is never crossed *)
  ob_uncrossed : ∀ pb ob pa oa,
    (pb, ob) ∈ flat (bids_ s) → (pa, oa) ∈ flat (asks_ s) → pb < pa;
}.

Lemma bag_perm index all all' : all ≡ₚ all' → bag_ok index all → bag_ok index all'.
Proof.
  intros Hp [Hs Hi Hn]. split; [done| |by rewrite <-Hp].
  intros id side p. rewrite Hi. by setoid_rewrite Hp.
Qed.

Lemma bag_push index all side p id q :
  bag_ok index all → id ∉ id_of <$> all →
  bag_ok (om_insert id (side, p) index) ((side, (p, mkResting id q)) :: all).
Proof.
  intros [Hs Hi Hn] Hid. split; [by apply om_insert_ok| |by apply NoDup_cons_2].
  intros id' side' p'. destruct (decide (id' = id)) as [->|Hne].
  - rewrite om_find_insert_eq. split.
    + intros [= -> ->]. exists q. by left.
    + intros (q' & [[= -> -> ->]|Hin]%elem_of_cons); [done|]. exfalso. apply Hid.
      apply list_elem_of_fmap. by exists (side', (p', mkResting id q')).
  - rewrite om_find_insert_ne, Hi by done. split.
    + intros (q' & ?). exists q'. by right.
    + intros (q' & [[= -> -> ->]|Hin]%elem_of_cons); [done|]. by exists q'.
Qed.

Lemma bag_pop index all x :
  bag_ok index (x :: all) → bag_ok (om_erase (id_of x) index) all.
Proof.
  intros [Hs Hi Hn]. apply NoDup_cons in Hn as [Hx Hn].
  split; [by apply om_erase_ok| |done].
  intros id side p. destruct (decide (id = id_of x)) as [->|Hne].
  - rewrite om_find_erase_eq by done. split; [done|]. intros (q & Hin). exfalso. apply Hx.
    apply list_elem_of_fmap. by exists (side, (p, mkResting (id_of x) q)).
  - rewrite om_find_erase_ne, Hi by done. split.
    + intros (q & [<-|Hin]%elem_of_cons); [by destruct Hne|]. by exists q.
    + intros (q & Hin). exists q. by right.
Qed.

Lemma bag_qty index all side p id q q' :
  bag_ok index ((side, (p, mkResting id q)) :: all) →
  bag_ok index ((side, (p, mkResting id q')) :: all).
Proof.
  intros [Hs Hi Hn]. split; [done| |done]. intros id' side' p'. rewrite Hi. split.
  - intros (q0 & [[= -> -> -> ->]|Hin]%elem_of_cons).
    + exists q'. by left.
    + exists q0. by right.
  - intros (q0 & [[= -> -> -> ->]|Hin]%elem_of_cons).
    + exists q. by left.
    + exists q0. by right.
Qed.

Lemma fill_bag taker limit qty l q fs gone l' side other index :
  fill taker limit qty l = (q, fs, gone, l') → bag_ok index (tag side l ++ other) →
  bag_ok (foldl (λ i id, om_erase id i) index gone) (tag side l' ++ other).
Proof.
  revert qty q fs gone l' index. induction l as [|[p [id oq]] l IH];
    intros qty q fs gone l' index; cbn.
  { by intros [= <- <- <- <-]. }
  destruct (_ || _); [by intros [= <- <- <- <-]|].
  destruct (_ <? _); [intros [= <- <- <- <-]; apply bag_qty|].
  destruct (fill _ _ _ l) as [[[q0 fs0] gone0] l0] eqn:E. intros [= <- <- <- <-] Hb.
  apply bag_pop in Hb. exact (IH _ _ _ _ _ _ E Hb).
Qed.

Lemma flat_perm b b' : b ≡ₚ b' → flat b ≡ₚ flat b'.
Proof. intros H. exact (bind_Permutation _ _ _ H). Qed.

Lemma flat_prio taker b : flat (prio taker b) ≡ₚ flat b.
Proof. destruct taker; [done|]. apply flat_perm. cbn. by rewrite reverse_Permutation. Qed.

Lemma orders_side side s :
  orders s ≡ₚ tag side (flat (book_of side s)) ++
              tag (opposite side) (flat (book_of (opposite side) s)).
Proof. destruct side; [done|]. unfold orders. cbn. by rewrite (Permutation_app_comm (tag Bid _)). Qed.

(** Strictly worse for the other side. *)
Definition side_lt (side : ObSide) (p p' : N) : Prop :=
  match side with Bid => p < p' | Ask => p' < p end.

Lemma crosses_false side limit p : crosses side limit p = false ↔ side_lt side limit p.
Proof. destruct side; cbn; rewrite N.leb_gt; done. Qed.

Lemma uncrossed_side side s p o p' o' :
  ob_ok s → (p, o) ∈ flat (book_of side s) → (p', o') ∈ flat (book_of (opposite side) s) →
  side_lt side p p'.
Proof. intros Hs H H'. destruct side; cbn in *; by eapply ob_uncrossed. Qed.

Lemma book_ok_side side s : ob_ok s → book_ok (book_of side s).
Proof. intros [? ?]. by destruct side. Qed.

(** Updating one side of the book and the index. *)
Lemma ob_ok_update side b i s :
  ob_ok s → book_ok b →
  bag_ok i (tag side (flat b) ++ tag (opposite side) (flat (book_of (opposite side) s))) →
  Forall (λ x, o_id x.2 < nextOrderId_ s) (flat b) →
  (∀ p o p' o', (p, o) ∈ flat b → (p', o') ∈ flat (book_of (opposite side) s) → side_lt side p p') →
  ob_ok (set_index i (set_book side b s)).
Proof.
  intros Hs Hb Hbag Hids Hun. pose proof (ob_ids _ Hs) as Hall.
  rewrite (orders_side side) in Hall. apply Forall_app in Hall as [_ Hopp].
  assert (Hids' : Forall (λ x, id_of x < nextOrderId_ s) (tag side (flat b)))
    by (unfold tag; by rewrite Forall_fmap).
  split.
  - destruct side; [done|apply Hs].
  - destruct side; [apply Hs|done].
  - eapply bag_perm; [symmetry; apply (orders_side side)|].
    by destruct side.
  - rewrite (orders_side side). apply Forall_app_2; destruct side; done.
  - intros pb ob pa oa H1 H2. destruct side; cbn in *.
    + by apply (Hun pb ob pa oa).
    + by apply (Hun pa oa pb ob).
Qed.

Lemma tag_app side l l' : tag side (l ++ l') = tag side l ++ tag side l'.
Proof. apply fmap_app. Qed.

#[export] Instance tag_Proper side : Proper ((≡ₚ) ==> (≡ₚ)) (tag side).
Proof. intros l l' H. unfold tag. by rewrite H. Qed.

Lemma fill_ids taker limit qty l q fs gone l' :
  fill taker limit qty l = (q, fs, gone, l') → ((λ x, o_id x.2) <$> l') ⊆ ((λ x, o_id x.2) <$> l).
Proof.
  revert qty q fs gone l'. induction l as [|[p o] l IH]; intros qty q fs gone l'; cbn.
  { by intros [= <- <- <- <-]. }
  destruct (_ || _); [by intros [= <- <- <- <-]|].
  destruct (_ <? _); [by intros [= <- <- <- <-]|].
  destruct (fill _ _ _ l) as [[[q0 fs0] gone0] l0] eqn:E. intros [= <- <- <- <-].
  apply IH in E. set_solver.
Qed.

(** [match] keeps the invariant. *)
Lemma match_ok taker limit qty s :
  ob_ok s →
  let '(q, fs, s') := match_ taker limit qty s in
  ob_ok s' ∧ nextOrderId_ s' = nextOrderId_ s ∧ obSessions_ s' = obSessions_ s ∧
  (id_of <$> orders s') ⊆ (id_of <$> orders s) ∧
  (0 < q → ∀ p o, (p, o) ∈ flat (book_of (opposite taker) s') → side_lt taker limit p).
Proof.
  intros Hs. set (opp := opposite taker).
  pose proof (match_spec taker limit qty s (book_ok_side _ _ Hs)) as H. fold opp in H.
  destruct (fill _ _ _ _) as [[[q fs] gone] l] eqn:Ef. destruct H as (b & -> & El & Hb & Hr).
  assert (Hflat : flat b ≡ₚ l) by (rewrite <-El; symmetry; apply flat_prio).
  assert (Hbag : bag_ok (foldl (λ i id, om_erase id i) (index_ s) gone)
                   (tag opp (flat b) ++ tag (opposite opp) (flat (book_of (opposite opp) s)))).
  { eapply bag_perm; [by rewrite Hflat|]. eapply fill_bag; [exact Ef|].
    eapply bag_perm; [|apply Hs]. rewrite (orders_side opp). by rewrite (flat_prio taker). }
  assert (Hids : ((λ x, o_id x.2) <$> flat b) ⊆ ((λ x, o_id x.2) <$> flat (book_of opp s))).
  { intros x. rewrite Hflat, <-(flat_prio taker (book_of opp s)). by apply (fill_ids _ _ _ _ _ _ _ _ Ef). }
  assert (Hpr : (flat b).*1 ⊆ (flat (book_of opp s)).*1).
  { intros x. rewrite Hflat, <-(flat_prio taker (book_of opp s)). by apply (fill_prices _ _ _ _ _ _ _ _ Ef). }
  assert (Hsub : ∀ side l, (id_of <$> tag side l) = ((λ x, o_id x.2) <$> l)).
  { intros. unfold tag. by rewrite <-list_fmap_compose. }
  split_and!.
  - apply ob_ok_update; [done..| |].
    + pose proof (ob_ids _ Hs) as Hall. rewrite (orders_side opp) in Hall.
      apply Forall_app in Hall as [Hall _]. rewrite Forall_forall in Hall. apply Forall_forall.
      intros x Hx. assert (o_id x.2 ∈ id_of <$> tag opp (flat (book_of opp s))) as Hin.
      { rewrite Hsub. apply Hids, list_elem_of_fmap. by exists x. }
      apply list_elem_of_fmap in Hin as (y & -> & Hy). by apply Hall.
    + intros p o p' o' H1 H2. assert (p ∈ (flat (book_of opp s)).*1) as Hin.
      { apply Hpr, list_elem_of_fmap. by exists (p, o). }
      apply list_elem_of_fmap in Hin as ([p0 o0] & -> & Hy). by eapply uncrossed_side.
  - by destruct taker.
  - by destruct taker.
  - rewrite !(orders_side opp), !book_of_set_index, !book_of_set_book.
    rewrite decide_True, decide_False by (by subst opp; destruct taker).
    rewrite !fmap_app, !Hsub. intros x. rewrite !elem_of_app.
    intros [?|?]; [left; by apply Hids|by right].
  - intros Hq p o Hin. rewrite book_of_set_index, book_of_set_book, decide_True in Hin by done.
    apply crosses_false. by eapply Hr.
Qed.

(** *** rest *)

Lemma flat_insert_level p lv b :
  om_ok b →
  flat (om_insert p lv b) ≡ₚ ((λ o, (p, o)) <$> lv) ++ flat (om_erase p b) ∧
  flat b ≡ₚ ((λ o, (p, o)) <$> default [] (om_find p b)) ++ flat (om_erase p b).
Proof.
  intros Hok. destruct (om_split p b Hok) as (m1 & m2 & Hi & He & E & _).
  rewrite Hi, He. split.
  - rewrite !flat_app, flat_cons. rewrite (app_assoc (flat m1)), (Permutation_app_comm (flat m1)).
    by rewrite <-app_assoc.
  - rewrite E at 1. rewrite !flat_app.
    rewrite (app_assoc (flat m1)), (Permutation_app_comm (flat m1)), <-app_assoc.
    apply Permutation_app_tail.
    destruct (om_find p b); cbn; [by rewrite app_nil_r|done].
Qed.

Lemma om_find_level_ok p b lv : book_ok b → om_find p b = Some lv → level_ok (p, lv).
Proof.
  intros [Hok Hl] E. apply om_find_elem in E; [|done]. rewrite Forall_forall in Hl. by apply Hl.
Qed.

Lemma rest_ok side price id qty s :
  ob_ok s → id ∉ id_of <$> orders s → id < nextOrderId_ s → 1 ≤ price → 1 ≤ qty →
  (∀ p o, (p, o) ∈ flat (book_of (opposite side) s) → side_lt side price p) →
  ob_ok (rest_ side price id qty s).
Proof.
  intros Hs Hid Hlt Hp Hq Hun. unfold rest_.
  set (b := book_of side s). pose proof (book_ok_side side s Hs) as Hb. fold b in Hb.
  set (lv := default [] (om_find price b)).
  destruct (flat_insert_level price (lv ++ [mkResting id qty]) b (proj1 Hb)) as [E1 E2].
  fold lv in E2.
  assert (Hflat : flat (om_insert price (lv ++ [mkResting id qty]) b) ≡ₚ
                  (price, mkResting id qty) :: flat b).
  { rewrite E1, E2, fmap_app, <-app_assoc. cbn. by rewrite Permutation_middle. }
  apply ob_ok_update; [done| | | |].
  - apply book_ok_insert; [done|]. split_and!; cbn; [done|by destruct lv|].
    apply Forall_app_2; [|by repeat constructor]. subst lv.
    destruct (om_find price b) as [lv|] eqn:El; [|done].
    by apply (om_find_level_ok price b lv Hb El).
  - eapply bag_perm; [by rewrite Hflat|]. cbn. apply bag_push.
    + eapply bag_perm; [apply (orders_side side)|apply Hs].
    + intros Hin. apply Hid. by rewrite (orders_side side).
  - rewrite Hflat. constructor; [done|]. pose proof (ob_ids _ Hs) as Hall.
    rewrite (orders_side side) in Hall. apply Forall_app in Hall as [Hall _].
    unfold tag in Hall. by rewrite Forall_fmap in Hall.
  - intros p o p' o'. rewrite Hflat. intros [[= -> ->]|Hin]%elem_of_cons H2.
    + by eapply Hun.
    + by eapply uncrossed_side.
Qed.

(** *** remove *)

Lemma takeOrder_split id lv qty lv' :
  id ∈ o_id <$> lv → takeOrder id lv = (qty, lv') → lv ≡ₚ mkResting id qty :: lv'.
Proof.
  revert qty lv'. induction lv as [|[i q] lv IH]; intros qty lv' Hin; cbn in *.
  { by apply not_elem_of_nil in Hin. }
  destruct (N.eqb_spec i id) as [->|Hne]; [by intros [= <- <-]|].
  destruct (takeOrder id lv) as [q0 lv0] eqn:E. intros [= <- <-].
  apply elem_of_cons in Hin as [->|Hin]; [done|].
  rewrite (IH q0 lv0) at 1 by done. apply Permutation_swap.
Qed.

Lemma remove_ok id side price s :
  ob_ok s → om_find id (index_ s) = Some (side, price) →
  ∃ qty s', remove id s = Some (qty, s') ∧ ob_ok s' ∧
    orders s ≡ₚ (side, (price, mkResting id qty)) :: orders s' ∧ 1 ≤ qty ∧
    nextOrderId_ s' = nextOrderId_ s ∧ obSessions_ s' = obSessions_ s.
Proof.
  intros Hs Hf. unfold remove. rewrite Hf. cbn.
  pose proof (book_ok_side side s Hs) as Hb. set (b := book_of side s) in *.
  apply (bag_index _ _ (ob_bag _ Hs)) in Hf as [q Hin].
  assert (Hin' : (price, mkResting id q) ∈ flat b).
  { rewrite (orders_side side) in Hin. apply elem_of_app in Hin as [Hin|Hin];
      unfold tag in Hin; apply list_elem_of_fmap in Hin as (x & Ex & Hx).
    - by injection Ex as <-.
    - injection Ex as Es _. by destruct side. }
  apply flat_price in Hin' as (lv & Hlv & Ho).
  apply (om_find_elem _ _ _ (proj1 Hb)) in Hlv. rewrite Hlv. cbn.
  destruct (takeOrder id lv) as [qty lv'] eqn:Et.
  apply takeOrder_split in Et as Hperm; [|apply list_elem_of_fmap; by exists (mkResting id q)].
  destruct (om_find_level_ok _ _ _ Hb Hlv) as (Hp & _ & Hqs). cbn in Hp, Hqs.
  rewrite Hperm in Hqs. apply Forall_cons in Hqs as [Hq Hqs']. cbn in Hq.
  set (b' := match lv' with [] => _ | _ => _ end).
  assert (Hflat : flat b ≡ₚ (price, mkResting id qty) :: flat b' ∧ book_ok b').
  { destruct (flat_insert_level price lv' b (proj1 Hb)) as [E1 E2]. rewrite Hlv in E2. cbn in E2.
    rewrite E2, Hperm. cbn. subst b'. destruct lv' as [|o lv'].
    - split; [done|by apply book_ok_erase].
    - split; [by rewrite E1|]. by apply book_ok_insert. }
  destruct Hflat as [Hflat Hb'].
  assert (Hord : orders s ≡ₚ (side, (price, mkResting id qty)) ::
    (tag side (flat b') ++ tag (opposite side) (flat (book_of (opposite side) s)))).
  { rewrite (orders_side side). fold b. rewrite Hflat. done. }
  eexists _, _. split_and!; [done| | |done|by destruct side|by destruct side].
  - apply ob_ok_update; [done..| | |].
    + pose proof (bag_perm _ _ _ Hord (ob_bag _ Hs)) as Hbag. by apply bag_pop in Hbag.
    + pose proof (ob_ids _ Hs) as Hall. rewrite Hord in Hall.
      apply Forall_cons in Hall as [_ [Hall _]%Forall_app].
      unfold tag in Hall. by rewrite Forall_fmap in Hall.
    + intros p o p' o' H1 H2. eapply (uncrossed_side side s p o); [done| |done].
      fold b. rewrite Hflat. by right.
  - rewrite Hord. constructor. rewrite (orders_side side), !book_of_set_index, !book_of_set_book.
    by rewrite decide_True, decide_False by (by destruct side).
Qed.

(** *** NEW, CANCEL and AMEND *)

Lemma matchAndRest_ok side price qty id s :
  ob_ok s → id ∉ id_of <$> orders s → id < nextOrderId_ s → 1 ≤ price →
  let s' := (matchAndRest side price qty id s).2 in
  ob_ok s' ∧ nextOrderId_ s' = nextOrderId_ s ∧ obSessions_ s' = obSessions_ s.
Proof.
  intros Hs Hid Hlt Hp. unfold matchAndRest. pose proof (match_ok side price qty s Hs) as H.
  destruct (match_ side price qty s) as [[q fs] s1]. destruct H as (Hs1 & En & Es & Hsub & Hr).
  cbn [snd]. destruct (N.ltb_spec 0 q) as [Hq|_]; [|done]. split_and!.
  - apply rest_ok; [done| |congruence|done|lia|by apply Hr]. intros Hin. by apply Hid, Hsub.
  - by destruct side.
  - by destruct side.
Qed.

Lemma index_id s id side p :
  ob_ok s → om_find id (index_ s) = Some (side, p) → id < nextOrderId_ s.
Proof.
  intros Hs Hf. apply (bag_index _ _ (ob_bag _ Hs)) in Hf as [q Hin].
  pose proof (ob_ids _ Hs) as Hall. rewrite Forall_forall in Hall. exact (Hall _ Hin).
Qed.

Lemma insert_perm {A} (l : list A) i x y :
  l !! i = Some x → l ≡ₚ x :: delete i l ∧ <[i := y]> l ≡ₚ y :: delete i l.
Proof.
  intros Hi. split; [by apply delete_Permutation|].
  rewrite insert_take_drop by (by eapply lookup_lt_Some).
  rewrite delete_take_drop. by rewrite Permutation_middle.
Qed.

(** Changing the quantity of a resting order where it stands. *)
Lemma set_qty_ok side price lv i o qty s :
  ob_ok s → om_find price (book_of side s) = Some lv → lv !! i = Some o → 1 ≤ qty →
  ob_ok (set_book side (om_insert price (<[i := mkResting (o_id o) qty]> lv) (book_of side s)) s).
Proof.
  intros Hs Hlv Hi Hq. set (b := book_of side s) in *.
  pose proof (book_ok_side side s Hs) as Hb. fold b in Hb.
  set (lv' := <[i := _]> lv).
  destruct (insert_perm lv i o (mkResting (o_id o) qty) Hi) as [P1 P2]. fold lv' in P2.
  destruct (flat_insert_level price lv' b (proj1 Hb)) as [E1 E2]. rewrite Hlv in E2. cbn in E2.
  set (tl := ((λ o, (price, o)) <$> delete i lv) ++ flat (om_erase price b)).
  assert (F1 : flat (om_insert price lv' b) ≡ₚ (price, mkResting (o_id o) qty) :: tl)
    by (by rewrite E1, P2).
  assert (F2 : flat b ≡ₚ (price, o) :: tl) by (by rewrite E2, P1).
  replace (set_book side (om_insert price lv' b) s) with
    (set_index (index_ s) (set_book side (om_insert price lv' b) s)) by (by destruct side).
  destruct (om_find_level_ok _ _ _ Hb Hlv) as (Hp & _ & Hqs). cbn in Hp, Hqs.
  rewrite P1 in Hqs. apply Forall_cons in Hqs as [_ Hqs].
  apply ob_ok_update; [done| | | |].
  - apply book_ok_insert; [done|]. split_and!; cbn; [done| |by rewrite P2; constructor].
    intros En. by rewrite En in P2; apply Permutation_nil_cons in P2.
  - eapply bag_perm; [by rewrite F1|]. cbn. apply (bag_qty _ _ _ _ _ (o_qty o)).
    eapply bag_perm; [|apply Hs]. rewrite (orders_side side). fold b. rewrite F2.
    by destruct o.
  - pose proof (ob_ids _ Hs) as Hall. rewrite (orders_side side) in Hall. fold b in Hall.
    apply Forall_app in Hall as [Hall _]. unfold tag in Hall. rewrite Forall_fmap, F2 in Hall.
    rewrite F1. apply Forall_cons in Hall as [Ho Htl]. by constructor.
  - intros p o0 p' o'. rewrite F1. intros Hin H2.
    assert (∃ o1, (p, o1) ∈ flat b) as [o1 Ho1].
    { setoid_rewrite F2. apply elem_of_cons in Hin as [[= -> _]|Hin];
        [exists o; by left|exists o0; by right]. }
    by eapply uncrossed_side.
Qed.

Lemma ob_ok_next next s :
  ob_ok s → nextOrderId_ s ≤ next →
  ob_ok (mkOrderBook (bids_ s) (asks_ s) (index_ s) next (obSessions_ s)).
Proof.
  intros [? ? Hbag Hids Hun] Hle. split; try done. eapply Forall_impl; [exact Hids|].
  cbn. intros. lia.
Qed.

Lemma applyNew_ok r s res s' :
  ob_ok s → nextOrderId_ s + 1 < two64 → applyNew r s = Some (res, s') →
  ob_ok s' ∧ nextOrderId_ s' ≤ nextOrderId_ s + 1 ∧ obSessions_ s' = obSessions_ s.
Proof.
  intros Hs Hn. unfold applyNew.
  destruct (Reader_u8 r) as [sd r1], (Reader_u64 r1) as [price r2], (Reader_u64 r2) as [qty r3].
  destruct (_ || _) eqn:Ec; [done|]. breflect. rewrite add64_small by done. set (s1 := mkOrderBook _ _ _ _ _).
  assert (Hall : ∀ x, x ∈ orders s → id_of x < nextOrderId_ s)
    by (apply Forall_forall, Hs).
  assert (Hs1 : ob_ok s1) by (apply ob_ok_next; [done|lia]).
  intros [= E]. pose proof (matchAndRest_ok (ObSide_of sd) price qty (nextOrderId_ s) s1 Hs1) as HM.
  rewrite E in HM. destruct HM as (? & En & Es).
  - intros (x & Ex & Hx)%list_elem_of_fmap. specialize (Hall x Hx). lia.
  - cbn. lia.
  - lia.
  - cbn in En, Es. split_and!; [done|lia|done].
Qed.

Lemma applyCancel_ok r s res s' :
  ob_ok s → applyCancel r s = Some (res, s') →
  ob_ok s' ∧ nextOrderId_ s' ≤ nextOrderId_ s + 1 ∧ obSessions_ s' = obSessions_ s.
Proof.
  intros Hs. unfold applyCancel. destruct (Reader_u64 r) as [id r1].
  destruct (_ || _); [done|]. destruct (om_find id (index_ s)) as [[side price]|] eqn:Ef.
  - destruct (remove_ok _ _ _ _ Hs Ef) as (q & s1 & -> & Hs1 & _ & _ & En & Es).
    intros [= _ <-]. split_and!; [done|lia|done].
  - intros [= _ <-]. split_and!; [done|lia|done].
Qed.

Lemma applyAmend_ok r s res s' :
  ob_ok s → applyAmend r s = Some (res, s') →
  ob_ok s' ∧ nextOrderId_ s' ≤ nextOrderId_ s + 1 ∧ obSessions_ s' = obSessions_ s.
Proof.
  intros Hs. unfold applyAmend.
  destruct (Reader_u64 r) as [id r1], (Reader_u64 r1) as [np r2], (Reader_u64 r2) as [nq r3].
  destruct (_ || _) eqn:Ec; [done|]. breflect.
  destruct (om_find id (index_ s)) as [[side price]|] eqn:Ef;
    [|intros [= _ <-]; split_and!; [done|lia|done]].
  destruct (remove_ok _ _ _ _ Hs Ef) as (q & s1 & Er & Hs1 & Hp & _ & En & Es).
  assert (Hid : id ∉ id_of <$> orders s1).
  { pose proof (bag_nodup _ _ (ob_bag _ Hs)) as Hnd. rewrite Hp in Hnd. cbn in Hnd.
    by apply NoDup_cons in Hnd as [? _]. }
  pose proof (index_id _ _ _ _ Hs Ef) as Hlt.
  destruct (_ && _) eqn:Ein.
  - apply andb_true_iff in Ein as [_ Ein].
    destruct (om_find price (book_of side s)) as [lv|] eqn:Elv; cbn in *; [|done].
    destruct (list_find _ lv) as [[i o]|] eqn:Efi; [|done].
    apply list_find_Some in Efi as (Hi & Ho & _). intros [= _ <-].
    split_and!; [apply set_qty_ok; [done..|lia]|destruct side; cbn; lia|by destruct side].
  - rewrite Er. intros [= E].
    pose proof (matchAndRest_ok side np nq id s1 Hs1 Hid ltac:(lia) ltac:(lia)) as HM.
    rewrite E in HM. destruct HM as (? & ? & ?). split_and!; [done|cbn in *; lia|cbn in *; congruence].
Qed.

Lemma apply_ok s cmd :
  ob_ok s → nextOrderId_ s + 1 < two64 →
  ob_ok (OrderBook_apply s cmd).2 ∧ nextOrderId_ (OrderBook_apply s cmd).2 ≤ nextOrderId_ s + 1.
Proof.
  intros Hs Hn. unfold OrderBook_apply.
  destruct (readObHeader _) as [[[cl sq] ob] r].
  destruct (_ || _); [split; [done|cbn; lia]|].
  destruct (obCached s cl sq); [split; [done|cbn; lia]|].
  destruct (if ob =? 1 then _ else _) as [[res s']|] eqn:E; [|split; [done|cbn; lia]].
  assert (ob_ok s' ∧ nextOrderId_ s' ≤ nextOrderId_ s + 1) as [Hs' Hn'].
  { destruct (ob =? 1); [|destruct (ob =? 2)].
    - by apply applyNew_ok in E as (? & ? & _).
    - by apply applyCancel_ok in E as (? & ? & _).
    - by apply applyAmend_ok in E as (? & ? & _). }
  destruct (negb _); cbn; [|done]. split; [|done]. by destruct Hs'.
Qed.

Definition run_ob (s : OrderBookStateMachine) (cmds : list (list byte)) : OrderBookStateMachine :=
  foldl (λ s cmd, (OrderBook_apply s cmd).2) s cmds.

Lemma init_ok : ob_ok OrderBook_init.
Proof.
  split; try done; cbn.
  - split; [constructor|done].
  - split; [constructor|done].
  - split; [constructor| |constructor]. intros. split; [done|]. by intros (? & ?%not_elem_of_nil).
  - by intros ? ? ? ? ?%not_elem_of_nil.
Qed.

Lemma run_ob_ok cmds :
  N.of_nat (length cmds) + 1 < two64 →
  ob_ok (run_ob OrderBook_init cmds) ∧
  nextOrderId_ (run_ob OrderBook_init cmds) ≤ N.of_nat (length cmds) + 1.
Proof.
  intros Hn. induction cmds as [|cmd cmds IH] using rev_ind; [split; [apply init_ok|cbn; lia]|].
  rewrite length_app in *. cbn [length] in *. destruct IH as [Hs Hle]; [lia|].
  unfold run_ob in *. rewrite foldl_app. cbn [foldl].
  destruct (apply_ok _ cmd Hs ltac:(lia)) as [? ?]. split; [done|lia].
Qed.

(** C19: the book is always consistent.  After any sequence of commands,
    well-formed or not, from the empty book: levels are in price order and never
    empty, no resting order has quantity or price zero, order ids are distinct and
    already issued, the cancel/amend index locates exactly the resting orders, and
    the book is not crossed - every bid is below every ask. *)
Theorem ob_book_sound cmds :
  N.of_nat (length cmds) + 1 < two64 → ob_ok (run_ob OrderBook_init cmds).
Proof. intros Hn. by apply run_ob_ok. Qed.

(** ** Exactly once *)

(** The identity and operation of a command, when [apply] gets past its header. *)
Definition obHeader (cmd : list byte) : option (N * N * N) :=
  let '(clientId, seqNo, opByte, r) := readObHeader (Reader_init cmd) in
  if negb (r_ok r) || (opByte <? 1) || (3 <? opByte) then None
  else Some (clientId, seqNo, opByte).

Lemma ob_exec_sessions (ob : N) r s res s' :
  (if ob =? 1 then applyNew r s else if ob =? 2 then applyCancel r s else applyAmend r s) =
    Some (res, s') → obSessions_ s' = obSessions_ s.
Proof.
  assert (Hm : ∀ side price qty id s, obSessions_ (matchAndRest side price qty id s).2 =
                                      obSessions_ s).
  { intros side price qty id s0. unfold matchAndRest, match_.
    destruct (matchLoop _ _ _ _ _ _ _) as [[[q fs] b] i]. cbn.
    destruct (0 <? q); by destruct side. }
  assert (Hr : ∀ id s q s', remove id s = Some (q, s') → obSessions_ s' = obSessions_ s).
  { intros id s0 q s0'. unfold remove. destruct (om_find id _) as [[side price]|]; cbn; [|done].
    destruct (om_find price _); cbn; [|done]. destruct (takeOrder _ _). intros [= _ <-].
    by destruct side. }
  destruct (ob =? 1); [|destruct (ob =? 2)].
  - unfold applyNew. destruct (Reader_u8 r) as [? r1], (Reader_u64 r1) as [? r2],
      (Reader_u64 r2) as [? r3]. destruct (_ || _); [done|]. intros [= E].
    match type of E with ?x = _ => change s' with (res, s').2; rewrite <-E end. by rewrite Hm.
  - unfold applyCancel. destruct (Reader_u64 r) as [id r1]. destruct (_ || _); [done|].
    destruct (om_find id _); [|by intros [= _ <-]].
    destruct (remove id s) as [[q s1]|] eqn:E; [|done]. intros [= _ <-]. by eapply Hr.
  - unfold applyAmend. destruct (Reader_u64 r) as [id r1], (Reader_u64 r1) as [? r2],
      (Reader_u64 r2) as [? r3]. destruct (_ || _); [done|].
    destruct (om_find id _) as [[side price]|]; [|by intros [= _ <-]].
    destruct (_ && _); [intros [= _ <-]; by destruct side|].
    destruct (remove id s) as [[q s1]|] eqn:E; [|done]. intros [= E2].
    match type of E2 with ?x = _ => change s' with (res, s').2; rewrite <-E2 end.
    rewrite Hm. by eapply Hr.
Qed.

Lemma ob_other_session s cmd k :
  (∀ cl sq op, obHeader cmd = Some (cl, sq, op) → cl ≠ k) →
  om_find k (obSessions_ (OrderBook_apply s cmd).2) = om_find k (obSessions_ s).
Proof.
  unfold OrderBook_apply, obHeader. destruct (readObHeader _) as [[[cl sq] op] r].
  destruct (_ || _); [done|]. intros Hne. specialize (Hne _ _ _ eq_refl).
  destruct (obCached s cl sq); [done|].
  destruct (if op =? 1 then _ else _) as [[res s']|] eqn:E; [|done].
  apply ob_exec_sessions in E. destruct (negb _); cbn; [|by rewrite E].
  by rewrite om_find_insert_ne, E by done.
Qed.

Lemma run_ob_other_session s cmds k :
  Forall (λ cmd, ∀ cl sq op, obHeader cmd = Some (cl, sq, op) → cl ≠ k) cmds →
  om_find k (obSessions_ (run_ob s cmds)) = om_find k (obSessions_ s).
Proof.
  revert s. induction cmds as [|cmd cmds IH]; intros s Hall; [done|].
  apply Forall_cons in Hall as [Hc Hall]. cbn. rewrite IH by done. by apply ob_other_session.
Qed.

(** A command that got past the header and executed leaves its session behind. *)
Lemma ob_apply_session s cmd cl sq op :
  obHeader cmd = Some (cl, sq, op) → cl ≠ 0 →
  let '(res, s1) := OrderBook_apply s cmd in
  obCached s1 cl sq = Some res ∨ (res = [kObMalformed] ∧ s1 = s).
Proof.
  intros Hh H0. unfold OrderBook_apply, obHeader in *.
  destruct (readObHeader _) as [[[cl' sq'] op'] r]. destruct (_ || _); [done|].
  injection Hh as -> -> ->. destruct (obCached s cl sq) as [res|] eqn:Ec; [by left|].
  destruct (if op =? 1 then _ else _) as [[res s']|] eqn:E; [|by right].
  left. unfold obCached. rewrite (proj2 (N.eqb_neq cl 0)) by done. cbn.
  by rewrite om_find_insert_eq, N.leb_refl.
Qed.

(** An order is executed once.  Once a session's command has produced a
    result, any later command with the same identity - after whatever other
    clients did, and whatever bytes follow the identity - returns that result and
    leaves the book alone. *)
Theorem ob_retry_idempotent s cmd cmd' cl sq op op' cmds :
  obHeader cmd = Some (cl, sq, op) → obHeader cmd' = Some (cl, sq, op') → cl ≠ 0 →
  Forall (λ c, ∀ cl' sq' op, obHeader c = Some (cl', sq', op) → cl' ≠ cl) cmds →
  let '(res, s1) := OrderBook_apply s cmd in
  let s2 := run_ob s1 cmds in
  res ≠ [kObMalformed] → OrderBook_apply s2 cmd' = (res, s2).
Proof.
  intros Hh Hh' H0 Hall. pose proof (ob_apply_session s cmd cl sq op Hh H0) as Hs.
  destruct (OrderBook_apply s cmd) as [res s1]. cbn. intros Hne.
  destruct Hs as [Hs|[? _]]; [|done].
  assert (obCached (run_ob s1 cmds) cl sq = Some res) as Hc.
  { rewrite <-Hs. unfold obCached. by rewrite run_ob_other_session. }
  unfold OrderBook_apply. unfold obHeader in Hh'.
  destruct (readObHeader _) as [[[cl' sq'] op2] r]. destruct (_ || _); [done|].
  injection Hh' as -> -> ->. by rewrite Hc.
Qed.

(** ** Results *)

Definition enc_fill (f : ObFill) : list byte :=
  le_bytes 8 (makerOrderId f) ++ le_bytes 8 (f_price f) ++ le_bytes 8 (f_qty f).

Definition fill_range (f : ObFill) : Prop :=
  makerOrderId f < two64 ∧ f_price f < two64 ∧ f_qty f < two64.

Lemma putU32_app out v : putU32 out v = out ++ le_bytes 4 v.
Proof. unfold putU32. cbn [seq foldl]. by rewrite <-!app_assoc. Qed.

Lemma obResult_fills id q fs :
  obResult id q fs =
    putU32 (putU64 (putU64 [kObOk] id) q) (N.of_nat (length fs) mod two32) ++ (fs ≫= enc_fill).
Proof.
  unfold obResult. generalize (putU32 (putU64 (putU64 [kObOk] id) q) (N.of_nat (length fs) mod two32)).
  induction fs as [|f fs IH]; intros out; cbn; [by rewrite app_nil_r|].
  rewrite IH, !putU64_app. unfold enc_fill at 2. by rewrite <-!app_assoc.
Qed.

Lemma obResult_enc id q fs :
  N.of_nat (length fs) < two32 →
  obResult id q fs = [kObOk] ++ le_bytes 8 id ++ le_bytes 8 q ++
    le_bytes 4 (N.of_nat (length fs)) ++ (fs ≫= enc_fill).
Proof.
  intros Hn. rewrite obResult_fills, !putU64_app, putU32_app, N.mod_small by done.
  by rewrite <-!app_assoc.
Qed.

Lemma length_enc_fills fs : length (fs ≫= enc_fill) = (24 * length fs)%nat.
Proof.
  induction fs as [|f fs IH]; cbn; [done|]. rewrite length_app, IH. unfold enc_fill.
  autorewrite with rsm_len. lia.
Qed.

Lemma readFills_forward fs r tl :
  Forall fill_range fs → rwf r → r_ok r = true → rest r = (fs ≫= enc_fill) ++ tl →
  ∃ r', readFills (length fs) r = (fs, r') ∧ rwf r' ∧ r_ok r' = true ∧ rest r' = tl.
Proof.
  revert r. induction fs as [|f fs IH]; intros r Hall Hwf Hok Hr; [by exists r|].
  apply Forall_cons in Hall as [(H1 & H2 & H3) Hall]. cbn in Hr.
  unfold enc_fill at 1 in Hr. rewrite <-!app_assoc in Hr. cbn [length readFills].
  rd_forward reads_u64; [done|]. rd_forward reads_u64; [done|]. rd_forward reads_u64; [done|].
  destruct (IH _ Hall Hwf0 Hok0 Hr0) as (r' & E & ?&?&?). exists r'.
  unfold mbind, Rd_bind. rewrite E. cbn. by destruct f.
Qed.

(** Clients read results back.  What [apply] reports for an executed command
    decodes to the same order id, resting quantity and fills. *)
Theorem ob_result_roundtrip id q fs :
  id < two64 → q < two64 → Forall fill_range fs → N.of_nat (length fs) < two32 →
  decodeObResult (obResult id q fs) = Some (mkObResult kObOk id q fs).
Proof.
  intros Hid Hq Hfs Hn. rewrite obResult_enc by done. cbn [app decodeObResult].
  rewrite (bool_decide_eq_false_2 (kObOk = kObReject)) by done.
  rewrite (bool_decide_eq_false_2 (kObOk = kObMalformed)) by done.
  rewrite bool_decide_eq_true_2 by done. cbn [orb negb].
  rewrite <-(app_nil_r (fs ≫= enc_fill)).
  set (bs := _ ++ _). pose proof (rwf_init bs) as Hwf. pose proof (rest_init bs) as Hr.
  assert (Hok : r_ok (Reader_init bs) = true) by done. subst bs. unfold readObResult.
  rd_forward reads_u64; [done|]. rd_forward reads_u64; [done|]. rd_forward reads_u32; [done|].
  rewrite !bind_asks, Hok0. cbn [negb orb].
  pose proof (length_rest r1) as Hl. rewrite Hr0, length_app, length_enc_fills in Hl.
  destruct (N.ltb_spec (N.of_nat (Reader_remaining r1) / 24) (N.of_nat (length fs))) as [Hlt|_].
  { exfalso. apply N.lt_nge in Hlt. apply Hlt. apply N.div_le_lower_bound; [done|]. lia. }
  rewrite Nat2N.id. destruct (readFills_forward fs r1 [] Hfs Hwf0 Hok0 Hr0) as (r2 & E & Hwf2 & Hok2 & Hr2).
  unfold mbind at 1, Rd_bind at 1. rewrite E, !bind_asks, Hok2.
  by rewrite (proj2 (exhausted_iff r2 Hwf2)).
Qed.

(** ** Snapshots *)

Definition enc_order (o : Resting) : list byte := le_bytes 8 (o_id o) ++ le_bytes 8 (o_qty o).
Definition enc_level (p : N * Level) : list byte :=
  le_bytes 8 p.1 ++ le_bytes 8 (N.of_nat (length p.2)) ++ (p.2 ≫= enc_order).
Definition enc_book (b : Book) : list byte := le_bytes 8 (N.of_nat (length b)) ++ (b ≫= enc_level).

Definition level_range (p : N * Level) : Prop :=
  p.1 < two64 ∧ N.of_nat (length p.2) < two64 ∧
  Forall (λ o, o_id o < two64 ∧ o_qty o < two64) p.2.
Definition book_range (b : Book) : Prop := N.of_nat (length b) < two64 ∧ Forall level_range b.

(** Everything in the range of its C++ type. *)
Record ob_range (s : OrderBookStateMachine) : Prop := {
  rg_bids : book_range (bids_ s);
  rg_asks : book_range (asks_ s);
  rg_next : nextOrderId_ s < two64;
  rg_sorted : om_ok (obSessions_ s);
  rg_sessions : Forall (λ p : N * Session, p.1 < two64 ∧ lastSeq p.2 < two64 ∧
                          string_ok (lastResult p.2)) (obSessions_ s);
  rg_count : N.of_nat (length (obSessions_ s)) < two64;
}.

Lemma putBook_enc out b : putBook out b = out ++ enc_book b.
Proof.
  unfold putBook, enc_book. rewrite putU64_app.
  assert (Hl : ∀ p out, putLevel out p = out ++ enc_level p).
  { intros [p lv] out0. unfold putLevel, enc_level. cbn. rewrite !putU64_app.
    assert (∀ out, foldl (λ out o, putU64 (putU64 out (o_id o)) (o_qty o)) out lv =
      out ++ (lv ≫= enc_order)) as ->; [|by rewrite <-!app_assoc].
    clear. induction lv as [|o lv IH]; intros out; cbn; [by rewrite app_nil_r|].
    rewrite IH, !putU64_app. unfold enc_order at 2. by rewrite <-!app_assoc. }
  rewrite app_assoc. generalize (out ++ le_bytes 8 (N.of_nat (length b))). clear out.
  induction b as [|p b IH]; intros out; cbn; [by rewrite app_nil_r|].
  by rewrite IH, Hl, <-app_assoc.
Qed.

Lemma ob_serialize_enc s :
  ob_range s →
  OrderBook_serialize s = le_bytes 8 (nextOrderId_ s) ++ enc_book (bids_ s) ++ enc_book (asks_ s) ++
    le_bytes 8 (N.of_nat (length (obSessions_ s))) ++ (obSessions_ s ≫= enc_session).
Proof.
  intros Hs. unfold OrderBook_serialize. rewrite !putBook_enc, !putU64_app. cbn [app].
  assert (H : ∀ (l : list (N * Session)) out,
    Forall (λ p, p.1 < two64 ∧ lastSeq p.2 < two64 ∧ string_ok (lastResult p.2)) l →
    foldl (λ out p, putU32 (putU64 (putU64 out p.1) (lastSeq p.2))
             (N.of_nat (length (lastResult p.2)) mod two32) ++ lastResult p.2) out l =
      out ++ (l ≫= enc_session)).
  { induction l as [|p l IH]; intros out Hl; cbn; [by rewrite app_nil_r|].
    apply Forall_cons in Hl as [(_ & _ & Hp) Hl].
    rewrite IH, putU32_app, !putU64_app, N.mod_small by done. unfold enc_session at 2, enc_string.
    by rewrite <-!app_assoc. }
  rewrite H by apply Hs. by rewrite <-!app_assoc.
Qed.

Lemma bag_fresh index all id : bag_ok index all → id ∉ id_of <$> all → om_find id index = None.
Proof.
  intros Hb Hid. destruct (om_find id index) as [[side p]|] eqn:E; [|done]. exfalso. apply Hid.
  apply (bag_index _ _ Hb) in E as [q Hin]. apply list_elem_of_fmap. by exists (side, (p, mkResting id q)).
Qed.

Lemma om_find_below (k : N) (m : Book) :
  Forall (λ p, key_ltb p.1 k = true) m → om_find k m = None.
Proof.
  induction m as [|[k' v] m IH]; intros Hm; [done|]. apply Forall_cons in Hm as [Hk Hm]. cbn in *.
  destruct (key_cases k k') as [(E1 & E2 & _)|[(E1 & E2 & _)|(E1 & E2 & ->)]];
    rewrite E1, ?E2; [done| |congruence]. by apply IH.
Qed.

Lemma readOrders_forward lv side price acc index all r tl :
  Forall (λ o, o_id o < two64 ∧ o_qty o < two64) lv → Forall (λ o, 1 ≤ o_qty o) lv →
  bag_ok index all → NoDup ((o_id <$> lv) ++ (id_of <$> all)) →
  rwf r → r_ok r = true → rest r = (lv ≫= enc_order) ++ tl →
  ∃ r' index', readOrders (length lv) side price acc index r = (Some (acc ++ lv, index'), r') ∧
    bag_ok index' (tag side ((λ o, (price, o)) <$> lv) ++ all) ∧
    rwf r' ∧ r_ok r' = true ∧ rest r' = tl.
Proof.
  revert acc index all r.
  induction lv as [|[id q] lv IH]; intros acc index all r Hrg Hq Hbag Hnd Hwf Hok Hr.
  { exists r, index. by rewrite app_nil_r. }
  apply Forall_cons in Hrg as [[Hi1 Hq1] Hrg], Hq as [Hq0 Hq]. cbn in Hq0, Hi1, Hq1.
  cbn in Hr. unfold enc_order at 1 in Hr. rewrite <-!app_assoc in Hr. cbn [length readOrders].
  rd_forward reads_u64; [done|]. rd_forward reads_u64; [done|].
  rewrite bind_asks, Hok. cbn [o_id o_qty negb orb].
  rewrite (proj2 (N.eqb_neq q 0)) by lia.
  cbn in Hnd. apply NoDup_cons in Hnd as [Hid Hnd].
  rewrite (bag_fresh _ _ _ Hbag) by (intros ?; apply Hid, elem_of_app; by right).
  rewrite bool_decide_eq_false_2 by (by intros []). cbn [orb].
  destruct (IH (acc ++ [mkResting id q]) (om_insert id (side, price) index)
    ((side, (price, mkResting id q)) :: all) r1) as (r' & index' & E & Hb & ?&?&?); try done.
  - apply bag_push; [done|]. intros ?. apply Hid, elem_of_app. by right.
  - cbn. rewrite <-Permutation_middle. by constructor.
  - exists r', index'. rewrite E, <-app_assoc. split_and!; [done| |done..].
    eapply bag_perm; [|exact Hb]. cbn. by rewrite Permutation_middle.
Qed.

Lemma length_enc_orders lv : length (lv ≫= enc_order) = (16 * length lv)%nat.
Proof.
  induction lv as [|o lv IH]; cbn; [done|]. rewrite length_app, IH. unfold enc_order.
  autorewrite with rsm_len. lia.
Qed.

(** A count that the remaining bytes can hold passes the check. *)
Lemma count_fits r bs tl (n k : nat) :
  rest r = bs ++ tl → (k * n ≤ length bs)%nat → (k ≠ 0)%nat →
  (N.of_nat (Reader_remaining r) / N.of_nat k <? N.of_nat n) = false.
Proof.
  intros Hr Hn Hk. apply N.ltb_ge. apply N.div_le_lower_bound; [lia|].
  rewrite <-length_rest, Hr, length_app. lia.
Qed.

Lemma flat_ids p lv b : (λ x, o_id x.2) <$> flat ((p, lv) :: b) = (o_id <$> lv) ++ ((λ x, o_id x.2) <$> flat b).
Proof. rewrite flat_cons, fmap_app. f_equal. by rewrite <-list_fmap_compose. Qed.

Lemma readLevels_forward b side acc index all r tl :
  Forall level_ok b → Forall level_range b → om_ok (acc ++ b) → bag_ok index all →
  NoDup (((λ x, o_id x.2) <$> flat b) ++ (id_of <$> all)) →
  rwf r → r_ok r = true → rest r = (b ≫= enc_level) ++ tl →
  ∃ r' index', readLevels (length b) side acc index r = (Some (acc ++ b, index'), r') ∧
    bag_ok index' (tag side (flat b) ++ all) ∧ rwf r' ∧ r_ok r' = true ∧ rest r' = tl.
Proof.
  revert acc index all r.
  induction b as [|[p lv] b IH]; intros acc index all r Hl Hrg Hsort Hbag Hnd Hwf Hok Hr.
  { exists r, index. by rewrite app_nil_r. }
  apply Forall_cons in Hl as [(Hp & Hne & Hqs) Hl], Hrg as [(Hp64 & Hn64 & Hos) Hrg].
  cbn in Hp, Hne, Hqs, Hp64, Hn64, Hos. rewrite flat_ids, <-app_assoc in Hnd.
  assert (Hbelow : Forall (λ q, key_ltb q.1 p = true) acc).
  { apply om_ok_app in Hsort as (_ & _ & Hx). apply Forall_forall. intros q Hin.
    exact (Hx q (p, lv) Hin ltac:(by left)). }
  cbn in Hr. unfold enc_level at 1 in Hr. cbn in Hr. rewrite <-!app_assoc in Hr.
  cbn [length readLevels]. rd_forward reads_u64; [done|]. rd_forward reads_u64; [done|].
  rewrite !bind_asks, Hok, (proj2 (N.eqb_neq p 0)) by lia. cbn [negb orb].
  rewrite (proj2 (N.eqb_neq (N.of_nat (length lv)) 0)) by (destruct lv; cbn; [done|lia]).
  pose proof (count_fits r1 (lv ≫= enc_order) ((b ≫= enc_level) ++ tl) (length lv) 16 Hr) as Hc.
  change (N.of_nat 16) with 16 in Hc.
  rewrite Hc by (rewrite ?length_enc_orders; lia).
  rewrite om_find_below by done. rewrite bool_decide_eq_false_2 by (by intros []). cbn [orb].
  rewrite Nat2N.id.
  destruct (readOrders_forward lv side p [] index all r1 ((b ≫= enc_level) ++ tl)) as
    (r2 & index2 & E2 & Hb2 & Hwf2 & Hok2 & Hr2); try done.
  { rewrite (Permutation_app_comm ((λ x, o_id x.2) <$> _)), app_assoc in Hnd.
    by apply NoDup_app in Hnd as (? & _ & _). }
  unfold Reader_try, mbind at 1, Rd_bind at 1. rewrite E2. cbn [app fst snd].
  rewrite om_insert_last by done.
  destruct (IH (acc ++ [(p, lv)]) index2 (tag side ((λ o, (p, o)) <$> lv) ++ all) r2) as
    (r3 & index3 & E3 & Hb3 & ?&?&?); try done.
  - by rewrite <-app_assoc.
  - rewrite fmap_app. unfold tag. rewrite <-!list_fmap_compose.
    rewrite app_assoc, (Permutation_app_comm ((λ x, o_id x.2) <$> flat b)), <-app_assoc. exact Hnd.
  - exists r3, index3. rewrite E3, <-app_assoc. split_and!; [done| |done..].
    eapply bag_perm; [|exact Hb3]. rewrite flat_cons, tag_app, <-!app_assoc.
    rewrite !app_assoc. by rewrite (Permutation_app_comm (tag side (flat b))).
Qed.

Lemma length_enc_levels b : (16 * length b ≤ length (b ≫= enc_level))%nat.
Proof.
  induction b as [|p b IH]; cbn; [done|]. rewrite length_app. unfold enc_level at 1.
  autorewrite with rsm_len. lia.
Qed.

Lemma readBook_forward b side index all r tl :
  book_ok b → book_range b → bag_ok index all →
  NoDup (((λ x, o_id x.2) <$> flat b) ++ (id_of <$> all)) →
  rwf r → r_ok r = true → rest r = enc_book b ++ tl →
  ∃ r' index', readBook side index r = (Some (b, index'), r') ∧
    bag_ok index' (tag side (flat b) ++ all) ∧ rwf r' ∧ r_ok r' = true ∧ rest r' = tl.
Proof.
  intros [Hsort Hl] [Hn Hrg] Hbag Hnd Hwf Hok Hr. unfold enc_book in Hr. rewrite <-app_assoc in Hr.
  unfold readBook. rd_forward reads_u64; [done|]. rewrite !bind_asks, Hok0. cbn [negb orb].
  pose proof (count_fits r0 (b ≫= enc_level) tl (length b) 16 Hr0) as Hc.
  change (N.of_nat 16) with 16 in Hc. rewrite Hc by (try apply length_enc_levels; lia).
  rewrite Nat2N.id. by apply readLevels_forward.
Qed.

Lemma readObSessions_forward (l : list (N * Session)) acc r tl :
  Forall (λ p, p.1 < two64 ∧ lastSeq p.2 < two64 ∧ string_ok (lastResult p.2)) l →
  rwf r → r_ok r = true → rest r = (l ≫= enc_session) ++ tl →
  ∃ r', readObSessions (length l) acc r =
    (Some (foldl (λ acc p, om_insert p.1 p.2 acc) acc l), r') ∧
    rwf r' ∧ r_ok r' = true ∧ rest r' = tl.
Proof.
  revert acc r. induction l as [|[c se] l IH]; intros acc r Hl Hwf Hok Hr; [by exists r|].
  apply Forall_cons in Hl as [(H1 & H2 & H3) Hl].
  cbn in Hr. unfold enc_session at 1 in Hr. cbn in Hr. rewrite <-!app_assoc in Hr.
  cbn [length readObSessions]. rd_forward reads_u64; [done|]. rd_forward reads_u64; [done|].
  try_fwd oreads_string; [done|]. cbn [foldl fst snd].
  replace (mkSession (lastSeq se) (lastResult se)) with se by (by destruct se). by apply IH.
Qed.

Lemma length_enc_sessions (l : list (N * Session)) :
  (20 * length l ≤ length (l ≫= enc_session))%nat.
Proof.
  induction l as [|p l IH]; cbn; [done|]. rewrite length_app. unfold enc_session at 1, enc_string.
  autorewrite with rsm_len. lia.
Qed.

(** Two exact indexes of the same orders are the same map. *)
Lemma bag_index_unique i1 i2 all all' :
  all ≡ₚ all' → bag_ok i1 all → bag_ok i2 all' → i1 = i2.
Proof.
  intros Hp H1 H2. apply om_ext; [apply H1|apply H2|]. intros id.
  apply option_eq. intros [side p]. rewrite (bag_index _ _ H1), (bag_index _ _ H2).
  by setoid_rewrite Hp.
Qed.

(** Snapshots of the book are faithful.  Deserializing what [serialize] wrote
    restores exactly the same state - both sides in queue order, the order-id
    counter, the sessions, and the cancel/amend index, which is not written but
    rebuilt. *)
Theorem ob_snapshot_roundtrip s s0 :
  ob_ok s → ob_range s → OrderBook_deserialize s0 (OrderBook_serialize s) = (true, s).
Proof.
  intros Hs Hrg. unfold OrderBook_deserialize. rewrite ob_serialize_enc by done.
  rewrite <-(app_nil_r (obSessions_ s ≫= enc_session)). set (bs := _ ++ _).
  pose proof (rwf_init bs) as Hwf. pose proof (rest_init bs) as Hr.
  assert (Hok : r_ok (Reader_init bs) = true) by done. subst bs. unfold readOrderBook.
  pose proof (bag_nodup _ _ (ob_bag _ Hs)) as Hnd. unfold orders, tag in Hnd.
  rewrite fmap_app, <-!list_fmap_compose in Hnd.
  assert (Hbag0 : bag_ok [] []).
  { split; [constructor| |constructor]. intros. split; [done|]. by intros (? & ?%not_elem_of_nil). }
  rd_forward reads_u64; [apply Hrg|].
  edestruct (readBook_forward (bids_ s) Bid [] [] r) as (r1 & i1 & E1 & Hb1 & Hwf1 & Hok1 & Hr1);
    [apply Hs|apply Hrg|exact Hbag0| |exact Hwf0|exact Hok0|exact Hr0|].
  { cbn. rewrite app_nil_r. by apply NoDup_app in Hnd as (? & _ & _). }
  unfold Reader_try at 1, mbind at 1, Rd_bind at 1. rewrite E1. cbn [fst snd].
  edestruct (readBook_forward (asks_ s) Ask i1 (tag Bid (flat (bids_ s)) ++ []) r1) as
    (r2 & i2 & E2 & Hb2 & Hwf2 & Hok2 & Hr2);
    [apply Hs|apply Hrg|exact Hb1| |exact Hwf1|exact Hok1|exact Hr1|].
  { rewrite app_nil_r. unfold tag. rewrite <-list_fmap_compose. by rewrite Permutation_app_comm. }
  unfold Reader_try at 1, mbind at 1, Rd_bind at 1. rewrite E2. cbn [fst snd].
  clear Hwf0 Hok0 Hr0 E1 E2 Hwf1 Hok1 Hr1.
  rd_forward reads_u64; [apply Hrg|]. rewrite !bind_asks, Hok. cbn [negb orb].
  pose proof (count_fits r0 (obSessions_ s ≫= enc_session) [] (length (obSessions_ s)) 20 Hr) as Hc.
  change (N.of_nat 20) with 20 in Hc. rewrite Hc by (try apply length_enc_sessions; lia).
  rewrite Nat2N.id.
  destruct (readObSessions_forward (obSessions_ s) [] r0 [] (rg_sessions _ Hrg) Hwf Hok Hr) as
    (r3 & E3 & Hwf3 & Hok3 & Hr3).
  unfold Reader_try, mbind at 1, Rd_bind at 1. rewrite E3, om_rebuild by apply Hrg.
  rewrite bind_asks, (proj2 (exhausted_iff r3 Hwf3)) by done. cbn.
  assert (i2 = index_ s) as ->; [|by destruct s].
  eapply bag_index_unique; [|exact Hb2|apply Hs].
  rewrite app_nil_r. unfold orders. by rewrite Permutation_app_comm.
Qed.

(** ** Samples *)

Module BookSample.

(** Two asks at 10 and one at 11, then a bid for 7 at 10 by client 9. *)
Definition asks : list (list byte) :=
  [encodeObNew 7 1 Ask 10 3; encodeObNew 8 1 Ask 11 5; encodeObNew 7 2 Ask 10 2].
Definition buy : list byte := encodeObNew 9 1 Bid 10 7.

Definition before : OrderBookStateMachine := Eval vm_compute in run_ob OrderBook_init asks.
Definition after : OrderBookStateMachine := Eval vm_compute in run_ob OrderBook_init (asks ++ [buy]).

Lemma ob_book_sound_witness : ob_ok before.
Proof. exact (ob_book_sound asks ltac:(done)). Defined.

(** Both asks at 10 are taken in arrival order; 2 of the 7 are left, and 11 does
    not cross. *)
Lemma ob_price_time_witness :
  let '(residual, fills, s') := match_ Bid 10 7 before in
  residual = 2 ∧ fills = [mkObFill 1 10 3; mkObFill 3 10 2] ∧
  ∃ gone queue',
    fill Bid 10 7 (flat (prio Bid (book_of Ask before))) = (residual, fills, gone, queue') ∧
    flat (prio Bid (book_of Ask s')) = queue' ∧
    book_of Bid s' = book_of Bid before ∧
    7 = residual + fills_total fills ∧
    (0 < residual → ∀ p o, (p, o) ∈ flat (book_of Ask s') → crosses Bid 10 p = false).
Proof.
  split; [by vm_compute|]. split; [by vm_compute|].
  refine (ob_price_time Bid 10 7 before _).
  split; repeat constructor; done.
Defined.

(** The bid is sent again, cut after its identity: it is not executed twice. *)
Lemma ob_retry_idempotent_witness :
  OrderBook_apply after (identityPrefix 9 1 ObNew) = (obResult 4 2 [mkObFill 1 10 3; mkObFill 3 10 2], after).
Proof.
  refine (ob_retry_idempotent before buy (identityPrefix 9 1 ObNew) 9 1 1 1 [] _ _ _ _ _);
    by vm_compute.
Defined.

Lemma ob_result_roundtrip_witness :
  decodeObResult (obResult 4 2 [mkObFill 1 10 3; mkObFill 3 10 2]) =
    Some (mkObResult kObOk 4 2 [mkObFill 1 10 3; mkObFill 3 10 2]).
Proof. apply ob_result_roundtrip; repeat constructor; done. Defined.

Lemma ob_snapshot_roundtrip_witness :
  OrderBook_deserialize OrderBook_init (OrderBook_serialize after) = (true, after).
Proof.
  apply ob_snapshot_roundtrip.
  - exact (proj1 (run_ob_ok (asks ++ [buy]) ltac:(done))).
  - split; repeat constructor; done.
Defined.

End BookSample.
