(* ===== verification/ObReference.v ===== *)
(** * test/ob_reference.h: the golden-model matcher

    The order book is tested against a second matcher that is written the other
    way round: one flat vector of resting orders with arrival stamps, a linear
    scan for the best order per fill, its own parsing.  The tests compare the two
    on seeded random streams; here they are proved to give the same results and
    the same book on every stream.  The stream generator is modelled too, and the
    deliberate bugs of the reference are shown to be told apart on its streams. *)

From Stdlib Require Import NArith Strings.Byte Lia.
From stdpp Require Import sorting.
From S2P Require Import Prelude Text Wire Messages Log OrdMap KvStore OrderBook.

Local Open Scope N_scope.

(** ** ReferenceMatcher *)

Inductive Bug := NoBug | IgnoreTimePriority | IgnorePricePriority | TakerPrice.

#[export] Instance Bug_eq_dec : EqDecision Bug.
Proof. solve_decision. Defined.

Record Order := mkOrder {
  ord_id : N;
  ord_side : N;        (* 0 bid, 1 ask *)
  ord_price : N;
  ord_qty : N;
  ord_arrival : N;
}.

Record ReferenceMatcher := mkReference {
  ref_book : list Order;                        (* book_ *)
  ref_nextId : N;                               (* nextId_ *)
  ref_arrival : N;                              (* arrival_ *)
  ref_sessions : ordmap N (N * list byte);      (* sessions_ *)
  ref_bug : Bug;                                (* bug_ *)
}.

Definition ReferenceMatcher_new (bug : Bug) : ReferenceMatcher := mkReference [] 1 0 [] bug.

Definition set_ref_book (book : list Order) (m : ReferenceMatcher) : ReferenceMatcher :=
  mkReference book (ref_nextId m) (ref_arrival m) (ref_sessions m) (ref_bug m).

(** The parsing helpers; [None] is their [false], otherwise the value and the new
    position.  The shift of [u64] is at 64 bits. *)
Definition ref_u8 (b : list byte) (pos : nat) : option (N * nat) :=
  if (length b <? pos + 1)%nat then None
  else Some (default 0 (Byte.to_N <$> b !! pos), (pos + 1)%nat).

Definition ref_u64 (b : list byte) (pos : nat) : option (N * nat) :=
  if (length b <? pos + 8)%nat then None
  else
    Some (foldl (λ out i, N.lor (N.shiftl out 8 mod two64)
                            (default 0 (Byte.to_N <$> b !! (pos + i)%nat)))
            0 [7; 6; 5; 4; 3; 2; 1; 0]%nat,
          (pos + 8)%nat).

(** [find]: the first order with that id, as an index into the vector. *)
Definition findOrder (id : N) (book : list Order) : option (nat * Order) :=
  list_find (λ o, ord_id o = id) book.

(** The lambda of [execute] and the test above it. *)
Definition better (bug : Bug) (side : N) (a b : Order) : bool :=
  if negb (ord_price a =? ord_price b) then
    if side =? 0 then ord_price a <? ord_price b else ord_price b <? ord_price a
  else
    match bug with
    | IgnoreTimePriority => ord_arrival b <? ord_arrival a
    | _ => ord_arrival a <? ord_arrival b
    end.

Definition crossesRef (side price : N) (it : Order) : bool :=
  if side =? 0 then ord_price it <=? price else price <=? ord_price it.

(** The scan for the best order: its index and the order there, [None] is
    [book_.end()]. *)
Fixpoint scanBest (bug : Bug) (side price : N) (i : nat) (best : option (nat * Order))
    (l : list Order) : option (nat * Order) :=
  match l with
  | [] => best
  | it :: l =>
      if ord_side it =? side then scanBest bug side price (S i) best l
      else if negb (crossesRef side price it) then scanBest bug side price (S i) best l
      else if bool_decide (bug = IgnorePricePriority) then Some (i, it)
      else
        scanBest bug side price (S i)
          (match best with
           | None => Some (i, it)
           | Some (_, b) => if better bug side it b then Some (i, it) else best
           end) l
  end.

(** The loop of [execute]; every turn but the last takes an order out of the
    book, so one turn per order and one more are enough ([executeLoop_sim]). *)
Fixpoint executeLoop (fuel : nat) (bug : Bug) (side price qty : N) (fills : list byte) (nFills : N)
    (book : list Order) : N * list byte * N * list Order :=
  match fuel with
  | O => (qty, fills, nFills, book)
  | S fuel =>
      if negb (0 <? qty) then (qty, fills, nFills, book)
      else
        match scanBest bug side price 0 None book with
        | None => (qty, fills, nFills, book)
        | Some (i, best) =>
            let fillQty := N.min qty (ord_qty best) in
            let fills := putU64 fills (ord_id best) in
            let fills := putU64 fills (if bool_decide (bug = TakerPrice) then price
                                       else ord_price best) in
            let fills := putU64 fills fillQty in
            let nFills := (nFills + 1) mod two32 in
            let qty := qty - fillQty in
            let left := ord_qty best - fillQty in
            executeLoop fuel bug side price qty fills nFills
              (if left =? 0 then delete i book
               else <[i := mkOrder (ord_id best) (ord_side best) (ord_price best) left
                             (ord_arrival best)]> book)
        end
  end.

Definition execute (id side price qty : N) (m : ReferenceMatcher) : list byte * ReferenceMatcher :=
  let '(qty, fills, nFills, book) :=
    executeLoop (S (length (ref_book m))) (ref_bug m) side price qty [] 0 (ref_book m) in
  let m := set_ref_book book m in
  let m := if 0 <? qty then
             mkReference (ref_book m ++ [mkOrder id side price qty (ref_arrival m)]) (ref_nextId m)
               (add64 (ref_arrival m) 1) (ref_sessions m) (ref_bug m)
           else m in
  (putU32 (putU64 (putU64 [kObOk] id) qty) nFills ++ fills, m).

(** The three branches of [apply] after the session check; [None] is the
    malformed return. *)
Definition refNew (cmd : list byte) (pos : nat) (m : ReferenceMatcher) :
    option (list byte * ReferenceMatcher) :=
  '(side, pos) ← ref_u8 cmd pos;
  '(price, pos) ← ref_u64 cmd pos;
  '(qty, pos) ← ref_u64 cmd pos;
  if negb (pos =? length cmd)%nat || (1 <? side) || (price =? 0) || (qty =? 0) then None
  else
    Some (execute (ref_nextId m) side price qty
            (mkReference (ref_book m) (add64 (ref_nextId m) 1) (ref_arrival m) (ref_sessions m)
               (ref_bug m))).

Definition refCancel (cmd : list byte) (pos : nat) (m : ReferenceMatcher) :
    option (list byte * ReferenceMatcher) :=
  '(id, pos) ← ref_u64 cmd pos;
  if negb (pos =? length cmd)%nat then None
  else
    match findOrder id (ref_book m) with
    | None => Some ([kObReject], m)
    | Some (i, it) =>
        Some (putU32 (putU64 (putU64 [kObOk] id) (ord_qty it)) 0,
              set_ref_book (delete i (ref_book m)) m)
    end.

Definition refAmend (cmd : list byte) (pos : nat) (m : ReferenceMatcher) :
    option (list byte * ReferenceMatcher) :=
  '(id, pos) ← ref_u64 cmd pos;
  '(price, pos) ← ref_u64 cmd pos;
  '(qty, pos) ← ref_u64 cmd pos;
  if negb (pos =? length cmd)%nat || (price =? 0) || (qty =? 0) then None
  else
    match findOrder id (ref_book m) with
    | None => Some ([kObReject], m)
    | Some (i, it) =>
        if (price =? ord_price it) && (qty <=? ord_qty it) then
          Some (putU32 (putU64 (putU64 [kObOk] id) qty) 0,
                set_ref_book (<[i := mkOrder (ord_id it) (ord_side it) (ord_price it) qty
                                       (ord_arrival it)]> (ref_book m)) m)
        else
          Some (execute id (ord_side it) price qty (set_ref_book (delete i (ref_book m)) m))
    end.

Definition refHeader (cmd : list byte) : option (N * N * N * nat) :=
  '(clientId, pos) ← ref_u64 cmd 0;
  '(seqNo, pos) ← ref_u64 cmd pos;
  '(op, pos) ← ref_u8 cmd pos;
  if (op <? 1) || (3 <? op) then None else Some (clientId, seqNo, op, pos).

Definition refCached (m : ReferenceMatcher) (clientId seqNo : N) : option (list byte) :=
  if negb (clientId =? 0) then
    match om_find clientId (ref_sessions m) with
    | Some it => if seqNo <=? it.1 then Some it.2 else None
    | None => None
    end
  else None.

Definition Reference_apply (m : ReferenceMatcher) (cmd : list byte) :
    list byte * ReferenceMatcher :=
  match refHeader cmd with
  | None => ([kObMalformed], m)
  | Some (clientId, seqNo, op, pos) =>
      match refCached m clientId seqNo with
      | Some result => (result, m)
      | None =>
          match (if op =? 1 then refNew cmd pos m
                 else if op =? 2 then refCancel cmd pos m
                 else refAmend cmd pos m) with
          | None => ([kObMalformed], m)
          | Some (result, m) =>
              (result,
               if negb (clientId =? 0)
               then mkReference (ref_book m) (ref_nextId m) (ref_arrival m)
                      (om_insert clientId (seqNo, result) (ref_sessions m)) (ref_bug m)
               else m)
          end
      end
  end.

(** *** bookImage *)

Definition pricesOf (side : N) (book : list Order) : list N :=
  foldl (λ prices o, if (ord_side o =? side) && negb (bool_decide (ord_price o ∈ prices))
                     then prices ++ [ord_price o] else prices) [] book.

(** The two calls of [std::sort]: on distinct prices, and by arrival stamp. *)
Definition sortPrices : list N → list N := merge_sort N.le.

Definition arrival_le (a b : Order) : Prop := ord_arrival a ≤ ord_arrival b.

#[export] Instance arrival_le_dec a b : Decision (arrival_le a b).
Proof. unfold arrival_le. apply _. Defined.

Definition levelOf (side price : N) (book : list Order) : list Order :=
  merge_sort arrival_le (filter (λ o, ord_side o = side ∧ ord_price o = price) book).

Definition refLevel (side : N) (book : list Order) (out : list byte) (price : N) : list byte :=
  let out := out ++ (if side =? 0 then str "B" else str "A") in
  let out := out ++ str " " ++ to_string price ++ str ":" in
  let out := foldl (λ out o, out ++ str " (" ++ to_string (ord_id o) ++ str "," ++
                             to_string (ord_qty o) ++ str ")") out (levelOf side price book) in
  out ++ [x0a].

Definition refSide (book : list Order) (out : list byte) (side : N) : list byte :=
  let prices := sortPrices (pricesOf side book) in
  let prices := if side =? 0 then reverse prices else prices in
  foldl (refLevel side book) out prices.

Definition Reference_bookImage (m : ReferenceMatcher) : list byte :=
  foldl (refSide (ref_book m)) [] [0; 1].

(** ** StreamGen *)

Record StreamGen := mkStreamGen {
  sg_state : N;
  maxIdGuess : N;
  lastPerClient : list (list byte);
  seqPerClient : list N;
}.

Definition StreamGen_new (seed : N) : StreamGen :=
  mkStreamGen (if seed =? 0 then 1 else seed) 1 (replicate 5 []) (replicate 5 0).

(** [next]: xorshift64 *)
Definition xorshift64 (x : N) : N :=
  let x := N.lxor x (N.shiftl x 13 mod two64) in
  let x := N.lxor x (N.shiftr x 7) in
  N.lxor x (N.shiftl x 17 mod two64).

Definition Gen (A : Type) : Type := StreamGen → A * StreamGen.

#[local] Instance Gen_ret : MRet Gen := λ A a g, (a, g).
#[local] Instance Gen_bind : MBind Gen := λ A B f m g, let '(a, g) := m g in f a g.

Definition sg_next : Gen N := λ g,
  let x := xorshift64 (sg_state g) in
  (x, mkStreamGen x (maxIdGuess g) (lastPerClient g) (seqPerClient g)).

Definition bumpGuess : Gen unit := λ g,
  (tt, mkStreamGen (sg_state g) (add64 (maxIdGuess g) 1) (lastPerClient g) (seqPerClient g)).

(** [++seqPerClient[client]] *)
Definition nextSeq (client : nat) : Gen N := λ g,
  let sq := add64 (default 0 (seqPerClient g !! client)) 1 in
  (sq, mkStreamGen (sg_state g) (maxIdGuess g) (lastPerClient g)
         (<[client := sq]> (seqPerClient g))).

Definition setLast (client : nat) (cmd : list byte) : Gen unit := λ g,
  (tt, mkStreamGen (sg_state g) (maxIdGuess g) (<[client := cmd]> (lastPerClient g))
         (seqPerClient g)).

Definition getGuess : Gen N := λ g, (maxIdGuess g, g).
Definition getLast (client : nat) : Gen (list byte) := λ g,
  (default [] (lastPerClient g !! client), g).

Definition freshCommand (client : nat) : Gen (list byte) :=
  sq ← nextSeq client;
  let cmd := putU64 (putU64 [] (N.of_nat client)) sq in
  pick ← sg_next;
  if pick mod 100 <? 70 then
    side ← sg_next;
    price ← sg_next;
    qty ← sg_next;
    bumpGuess;;
    mret (putU64 (putU64 (cmd ++ [to_byte 1; to_byte (side mod 2)]) (90 + price mod 21))
            (1 + qty mod 10))
  else if pick mod 100 <? 85 then
    id ← sg_next;
    guess ← getGuess;
    mret (putU64 (cmd ++ [to_byte 2]) (1 + id mod guess))
  else
    id ← sg_next;
    guess ← getGuess;
    price ← sg_next;
    qty ← sg_next;
    mret (putU64 (putU64 (putU64 (cmd ++ [to_byte 3]) (1 + id mod guess)) (90 + price mod 21))
            (1 + qty mod 10)).

Definition sg_command : Gen (list byte) :=
  c ← sg_next;
  let client := N.to_nat (1 + c mod 4) in
  last ← getLast client;
  resend ← (match last with
            | [] => mret false
            | _ :: _ => x ← sg_next; mret (x mod 10 =? 0)
            end : Gen bool);
  if resend : bool then mret last
  else
    cmd ← freshCommand client;
    setLast client cmd;;
    mret cmd.

Fixpoint sg_stream (n : nat) (g : StreamGen) : list (list byte) :=
  match n with
  | O => []
  | S n => let '(cmd, g) := sg_command g in cmd :: sg_stream n g
  end.

(** ** ob_golden_test.cpp: the comparison *)

(** The loop of [runStream]: [None] at the first result that differs. *)
Fixpoint streamLoop (ops : nat) (gen : StreamGen) (engine : OrderBookStateMachine)
    (reference : ReferenceMatcher) : option (OrderBookStateMachine * ReferenceMatcher) :=
  match ops with
  | O => Some (engine, reference)
  | S ops =>
      let '(cmd, gen) := sg_command gen in
      let '(a, engine) := OrderBook_apply engine cmd in
      let '(b, reference) := Reference_apply reference cmd in
      if bool_decide (a = b) then streamLoop ops gen engine reference else None
  end.

(** [runStream], its [match] flag. *)
Definition runStream (seed : N) (ops : nat) (bug : Bug) : bool :=
  match streamLoop ops (StreamGen_new seed) OrderBook_init (ReferenceMatcher_new bug) with
  | None => false
  | Some (engine, reference) => bool_decide (bookImage engine = Reference_bookImage reference)
  end.

(** ** Parsing *)

Lemma le_value_step b bs : (length bs ≤ 7)%nat →
  N.lor (N.shiftl (le_value bs) 8 mod two64) (Byte.to_N b) = le_value (b :: bs).
Proof.
  intros Hl. unfold le_value at 2. cbn [foldr]. fold (le_value bs). rewrite N.mod_small; [done|].
  rewrite N.shiftl_mul_pow2. pose proof (le_value_lt bs).
  assert (256 ^ N.of_nat (length bs) ≤ 256 ^ 7) by (apply N.pow_le_mono_r; lia).
  change two64 with (256 ^ 7 * 2 ^ 8). apply N.mul_lt_mono_pos_r; lia.
Qed.

Lemma ref_u64_sim cmd pos : (pos ≤ length cmd)%nat →
  match ref_u64 cmd pos with
  | Some (v, pos') => Reader_u64 (mkReader cmd pos true) = (v, mkReader cmd pos' true) ∧
                      (pos' ≤ length cmd)%nat
  | None => r_ok (Reader_u64 (mkReader cmd pos true)).2 = false
  end.
Proof.
  intros Hp. unfold ref_u64, Reader_u64, Reader_take, Reader_remaining, mbind, Rd_bind. cbn [r_ok r_in r_pos].
  destruct (Nat.ltb_spec (length cmd) (pos + 8)) as [Hs|Hs];
    destruct (Nat.ltb_spec (length cmd - pos) 8); try lia; cbn [negb orb]; [done|].
  split; [|lia]. cbn [mret Rd_ret]. f_equal.
  assert (Hd : ∀ i, cmd !! (pos + i)%nat = drop pos cmd !! i) by (intros; by rewrite lookup_drop).
  pose proof (length_drop cmd pos) as Hlen. cbn [foldl]. rewrite !Hd. revert Hlen.
  generalize (drop pos cmd). intros [|b0 [|b1 [|b2 [|b3 [|b4 [|b5 [|b6 [|b7 l]]]]]]]]; cbn [length]; try lia.
  intros _. change (take 8 _) with [b0; b1; b2; b3; b4; b5; b6; b7].
  do 8 (rewrite <-le_value_step; [|cbn; lia]). done.
Qed.

Lemma ref_u8_sim cmd pos : (pos ≤ length cmd)%nat →
  match ref_u8 cmd pos with
  | Some (v, pos') => Reader_u8 (mkReader cmd pos true) = (v, mkReader cmd pos' true) ∧
                      (pos' ≤ length cmd)%nat
  | None => r_ok (Reader_u8 (mkReader cmd pos true)).2 = false
  end.
Proof.
  intros Hp. unfold ref_u8, Reader_u8, Reader_take, Reader_remaining, mbind, Rd_bind. cbn [r_ok r_in r_pos].
  destruct (Nat.ltb_spec (length cmd) (pos + 1)) as [Hs|Hs];
    destruct (Nat.ltb_spec (length cmd - pos) 1); try lia; cbn [negb orb]; [done|].
  split; [|lia]. pose proof (length_drop cmd pos) as Hlen.
  replace (cmd !! pos) with (drop pos cmd !! 0%nat) by (rewrite lookup_drop; f_equal; lia).
  revert Hlen. generalize (drop pos cmd). intros [|b l]; cbn; [lia|done].
Qed.

Lemma Reader_u64_bad r : r_ok r = false → r_ok (Reader_u64 r).2 = false.
Proof. intros E. unfold Reader_u64, Reader_take, mbind, Rd_bind. by rewrite E. Qed.

Lemma Reader_u8_bad r : r_ok r = false → r_ok (Reader_u8 r).2 = false.
Proof. intros E. unfold Reader_u8, Reader_take, mbind, Rd_bind. by rewrite E. Qed.

(** ** The flat book *)

Definition resting (o : Order) : Resting := mkResting (ord_id o) (ord_qty o).

(** The order rests on that side at that price. *)
Definition on (side : ObSide) (p : N) (o : Order) : Prop :=
  ord_side o = ObSide_val side ∧ ord_price o = p.

#[export] Instance on_dec side p o : Decision (on side p o).
Proof. unfold on. apply _. Defined.

(** The vector is in arrival order, so that scanning it meets older orders first. *)
Record flat_ok (next : N) (l : list Order) : Prop := {
  flat_sorted : StronglySorted N.lt (ord_arrival <$> l);
  flat_range : Forall (λ o, ord_arrival o < next ∧ ord_side o ≤ 1) l;
}.

(** At least as good for the taker. *)
Definition wins (taker : ObSide) (p p' : N) : Prop :=
  match taker with Bid => p ≤ p' | Ask => p' ≤ p end.

Lemma wins_antisym taker p p' : wins taker p p' → wins taker p' p → p = p'.
Proof. destruct taker; cbn; lia. Qed.

Lemma wins_crosses taker limit p p' :
  wins taker p p' → crosses taker limit p' = true → crosses taker limit p = true.
Proof. destruct taker; cbn; rewrite !N.leb_le; lia. Qed.

(** What the scan looks at. *)
Definition eligible (taker : ObSide) (limit : N) (o : Order) : Prop :=
  ord_side o ≠ ObSide_val taker ∧ crosses taker limit (ord_price o) = true.

Lemma crossesRef_crosses taker limit o :
  crossesRef (ObSide_val taker) limit o = crosses taker limit (ord_price o).
Proof. by destruct taker. Qed.

(** The best order of a prefix: none better, and none as good before it. *)
Definition best_of (taker : ObSide) (limit : N) (l : list Order) (best : option (nat * Order)) :
    Prop :=
  match best with
  | None => ∀ o, o ∈ l → ¬ eligible taker limit o
  | Some (i, b) =>
      ∃ l1 l2, l = l1 ++ b :: l2 ∧ i = length l1 ∧ eligible taker limit b ∧
        (∀ o, o ∈ l → eligible taker limit o → wins taker (ord_price b) (ord_price o)) ∧
        (∀ o, o ∈ l1 → eligible taker limit o → ord_price o ≠ ord_price b)
  end.

Lemma best_of_skip taker limit l best it :
  best_of taker limit l best → ¬ eligible taker limit it → best_of taker limit (l ++ [it]) best.
Proof.
  intros Hb Hne. destruct best as [[i b]|]; cbn in *.
  - destruct Hb as (l1 & l2 & -> & Hi & He & Hw & Hf). exists l1, (l2 ++ [it]).
    rewrite <-app_assoc. split_and!; [done..| |done].
    intros o. rewrite app_assoc. intros [Hin| ->%list_elem_of_singleton]%elem_of_app Ho; [by apply Hw|done].
  - intros o [Hin| ->%list_elem_of_singleton]%elem_of_app; [by apply Hb|done].
Qed.

Lemma best_of_step taker limit l best it :
  best_of taker limit l best → eligible taker limit it →
  Forall (λ o, ord_arrival o < ord_arrival it) l →
  best_of taker limit (l ++ [it])
    (match best with
     | None => Some (length l, it)
     | Some (_, b) => if better NoBug (ObSide_val taker) it b then Some (length l, it) else best
     end).
Proof.
  intros Hb He Ha. destruct best as [[i b]|].
  2: { exists l, []. split_and!; [done..| |].
    - intros o [Hin| ->%list_elem_of_singleton]%elem_of_app Ho; [by apply Hb in Hin|].
      by destruct taker; cbn.
    - intros o Hin Ho. by apply Hb in Hin. }
  destruct Hb as (l1 & l2 & -> & -> & Heb & Hw & Hf).
  assert (Hlt : ord_arrival b < ord_arrival it).
  { rewrite Forall_forall in Ha. apply Ha, elem_of_app. right. by left. }
  destruct (better _ _ it b) eqn:Eb.
  - assert (Hs : wins taker (ord_price it) (ord_price b) ∧ ord_price it ≠ ord_price b).
    { unfold better in Eb. destruct (N.eqb_spec (ord_price it) (ord_price b)); cbn [negb] in Eb.
      - apply N.ltb_lt in Eb. lia.
      - destruct taker; cbn in *; apply N.ltb_lt in Eb; lia. }
    assert (Hall : ∀ o, o ∈ l1 ++ b :: l2 → eligible taker limit o →
      wins taker (ord_price it) (ord_price o) ∧ ord_price it ≠ ord_price o).
    { intros o Hin Ho. specialize (Hw o Hin Ho). destruct Hs. destruct taker; cbn in *; lia. }
    eexists _, []. split_and!; [done..| |].
    + intros o [Hin| ->%list_elem_of_singleton]%elem_of_app Ho; [by apply Hall|by destruct taker; cbn].
    + intros o Hin Ho E. by destruct (Hall o Hin Ho).
  - exists l1, (l2 ++ [it]). rewrite <-app_assoc. split_and!; [done..| |done].
    intros o. rewrite app_assoc.
    intros [Hin| ->%list_elem_of_singleton]%elem_of_app Ho; [by apply Hw|].
    unfold better in Eb. destruct (N.eqb_spec (ord_price it) (ord_price b)) as [->|]; cbn [negb] in Eb.
    + by destruct taker; cbn.
    + destruct taker; cbn in *; apply N.ltb_ge in Eb; lia.
Qed.

Lemma scanBest_best taker limit l l0 best :
  StronglySorted N.lt (ord_arrival <$> (l0 ++ l)) → best_of taker limit l0 best →
  best_of taker limit (l0 ++ l) (scanBest NoBug (ObSide_val taker) limit (length l0) best l).
Proof.
  revert l0 best. induction l as [|it l IH]; intros l0 best Hs Hb; cbn [scanBest].
  { by rewrite app_nil_r. }
  rewrite (bool_decide_eq_false_2 (NoBug = IgnorePricePriority)) by done.
  replace (l0 ++ it :: l) with ((l0 ++ [it]) ++ l) in * by (by rewrite <-app_assoc).
  replace (S (length l0)) with (length (l0 ++ [it])) by (rewrite length_app; cbn; lia).
  rewrite crossesRef_crosses.
  destruct (N.eqb_spec (ord_side it) (ObSide_val taker)) as [E|E].
  { apply IH; [done|]. apply best_of_skip; [done|]. by intros [? _]. }
  destruct (crosses taker limit (ord_price it)) eqn:Ec; cbn [negb].
  2: { apply IH; [done|]. apply best_of_skip; [done|]. intros [_ ?]. congruence. }
  apply IH; [done|]. apply best_of_step; [done|done|]. apply Forall_forall. intros o Hin.
  rewrite !fmap_app in Hs. apply StronglySorted_app_1_l in Hs.
  eapply StronglySorted_app_1_elem_of; [exact Hs| |by left]. by apply list_elem_of_fmap_2.
Qed.

(** The opposite side as one queue in priority order: per price it is what the
    vector holds at that price, and the prices get worse. *)
Record queue_sim (taker : ObSide) (q : list (N * Resting)) (l : list Order) : Prop := {
  q_levels : ∀ p, (filter (λ x, x.1 = p) q).*2 = resting <$> filter (on (opposite taker) p) l;
  q_sorted : StronglySorted (wins taker) q.*1;
}.

Lemma q_elem taker q l p r :
  queue_sim taker q l →
  (p, r) ∈ q ↔ ∃ o, o ∈ l ∧ on (opposite taker) p o ∧ resting o = r.
Proof.
  intros [Hl _]. split.
  - intros Hin. assert (r ∈ (filter (λ x, x.1 = p) q).*2) as Hr.
    { apply list_elem_of_fmap. exists (p, r). by rewrite list_elem_of_filter. }
    rewrite Hl in Hr. apply list_elem_of_fmap in Hr as (o & -> & Ho).
    apply list_elem_of_filter in Ho as [? ?]. by exists o.
  - intros (o & Hin & Ho & <-). assert (resting o ∈ (filter (λ x, x.1 = p) q).*2) as Hr.
    { rewrite Hl. apply list_elem_of_fmap_2. by apply list_elem_of_filter. }
    apply list_elem_of_fmap in Hr as ([p' r] & -> & Hx).
    apply list_elem_of_filter in Hx as [<- ?]. done.
Qed.

Lemma eligible_on taker limit next l o :
  flat_ok next l → o ∈ l → eligible taker limit o →
  on (opposite taker) (ord_price o) o ∧ crosses taker limit (ord_price o) = true.
Proof.
  intros [_ Hr] Hin [Hs Hc]. rewrite Forall_forall in Hr. destruct (Hr o Hin) as [_ Hle].
  split; [|done]. split; [|done]. destruct taker; cbn in *; lia.
Qed.

Lemma on_eligible taker limit p o :
  on (opposite taker) p o → crosses taker limit p = true → eligible taker limit o.
Proof. intros [Hs <-] Hc. split; [|done]. rewrite Hs. by destruct taker. Qed.

(** The scan finds nothing exactly when the front of the queue does not cross, and
    otherwise the front of the queue. *)
Lemma scan_front taker limit next l p r q :
  flat_ok next l → queue_sim taker ((p, r) :: q) l →
  match scanBest NoBug (ObSide_val taker) limit 0 None l with
  | None => crosses taker limit p = false
  | Some (i, b) =>
      crosses taker limit p = true ∧ on (opposite taker) p b ∧ resting b = r ∧
      ∃ l1 l2, l = l1 ++ b :: l2 ∧ i = length l1 ∧
        filter (on (opposite taker) p) l1 = []
  end.
Proof.
  intros Hf Hq. pose proof (scanBest_best taker limit l [] None (flat_sorted _ _ Hf)) as H.
  cbn [app length] in H. specialize (H ltac:(by intros ? ?%not_elem_of_nil)).
  destruct (proj1 (q_elem _ _ _ p r Hq) ltac:(by left)) as (o & Ho & Hon & Hr).
  destruct (scanBest _ _ _ _ _ _) as [[i b]|]; cbn in H.
  2: { destruct (crosses taker limit p) eqn:Ec; [|done]. destruct (H o Ho). by eapply on_eligible. }
  destruct H as (l1 & l2 & El & -> & He & Hw & Hfst).
  destruct (eligible_on taker limit next l b Hf) as [Hb Hc]; [|done|].
  { rewrite El. apply elem_of_app. right. by left. }
  assert (Hbq : (ord_price b, resting b) ∈ (p, r) :: q).
  { apply (q_elem _ _ _ _ _ Hq). exists b. split_and!; [|done..]. rewrite El. apply elem_of_app. right. by left. }
  assert (Hpb : wins taker p (ord_price b)).
  { pose proof (q_sorted _ _ _ Hq) as Hs. cbn in Hs. apply StronglySorted_inv in Hs as [_ Hs].
    apply elem_of_cons in Hbq as [[= <- _]|Hin]; [by destruct taker; cbn|].
    rewrite Forall_forall in Hs. apply Hs, list_elem_of_fmap. by exists (ord_price b, resting b). }
  pose proof (wins_crosses _ _ _ _ Hpb Hc) as Hcp.
  assert (ord_price b = p) as Ep.
  { apply (wins_antisym taker); [|done]. destruct Hon as [Hs <-]. apply Hw; [done|].
    by eapply on_eligible. }
  assert (Hl1 : filter (on (opposite taker) p) l1 = []).
  { destruct (filter (on (opposite taker) p) l1) as [|x xs] eqn:Ex; [done|]. exfalso.
    assert (x ∈ filter (on (opposite taker) p) l1) as [Hx Hin]%list_elem_of_filter
      by (rewrite Ex; by left).
    apply (Hfst x Hin); [by eapply on_eligible|]. destruct Hx. congruence. }
  rewrite Ep in Hb. split_and!; [done..| |].
  - pose proof (q_levels _ _ _ Hq p) as Hlv. rewrite El, filter_app, Hl1 in Hlv.
    rewrite filter_cons_True in Hlv by done. cbn [app] in Hlv.
    rewrite filter_cons_True in Hlv by done. by injection Hlv.
  - by exists l1, l2.
Qed.

(** *** Edits of the vector *)

(** Taking an order out, or replacing it by one of the same side and arrival. *)
Lemma flat_ok_delete next l1 o l2 : flat_ok next (l1 ++ o :: l2) → flat_ok next (l1 ++ l2).
Proof.
  intros [Hs Hr]. apply Forall_app in Hr as [Hr1 [_ Hr2]%Forall_cons]. split; [|by apply Forall_app_2].
  rewrite !fmap_app in *. cbn in Hs. revert Hs. generalize (ord_arrival <$> l1). intros a1 Hs.
  induction a1 as [|a a1 IH]; cbn in *; [by apply StronglySorted_inv in Hs as [? _]|].
  apply StronglySorted_inv in Hs as [Hs Ha]. constructor; [by apply IH|].
  apply Forall_app in Ha as [? [_ ?]%Forall_cons]. by apply Forall_app_2.
Qed.

Lemma flat_ok_replace next l1 o o' l2 :
  ord_arrival o' = ord_arrival o → ord_side o' = ord_side o →
  flat_ok next (l1 ++ o :: l2) → flat_ok next (l1 ++ o' :: l2).
Proof.
  intros Ea Es [Hs Hr]. split.
  - rewrite fmap_app in *. cbn in *. by rewrite Ea.
  - apply Forall_app in Hr as [? [[? ?] ?]%Forall_cons]. apply Forall_app_2; [done|].
    constructor; [|done]. by rewrite Ea, Es.
Qed.

Lemma insert_middle {A} (l1 : list A) x y l2 : <[length l1 := y]> (l1 ++ x :: l2) = l1 ++ y :: l2.
Proof. induction l1 as [|z l1 IH]; [done|]. cbn. f_equal. exact IH. Qed.

Lemma filter_drop (P : Order → Prop) `{!∀ o, Decision (P o)} l1 o l2 :
  ¬ P o → filter P (l1 ++ l2) = filter P (l1 ++ o :: l2).
Proof. intros. by rewrite !filter_app, filter_cons_False. Qed.

Lemma filter_swap (P : Order → Prop) `{!∀ o, Decision (P o)} l1 o o' l2 :
  ¬ P o → ¬ P o' → filter P (l1 ++ o' :: l2) = filter P (l1 ++ o :: l2).
Proof. intros. by rewrite !filter_app, !filter_cons_False. Qed.

Lemma on_other side p p' o : on side p o → p' ≠ p → ¬ on side p' o.
Proof. intros [_ <-] ? [_ ?]. congruence. Qed.

Lemma on_opposite side p p' o : on (opposite side) p o → ¬ on side p' o.
Proof. intros [Hs _] [Hs' _]. rewrite Hs in Hs'. by destruct side. Qed.

(** Taking the front order, or part of it. *)
Lemma queue_pop taker p r q l1 b l2 :
  queue_sim taker ((p, r) :: q) (l1 ++ b :: l2) → on (opposite taker) p b →
  filter (on (opposite taker) p) l1 = [] → queue_sim taker q (l1 ++ l2).
Proof.
  intros [Hl Hs] Hb H1. split; [|cbn in Hs; by apply StronglySorted_inv in Hs as [? _]].
  intros p'. specialize (Hl p'). destruct (decide (p' = p)) as [->|Hne].
  - rewrite filter_app, H1 in *. cbn [app] in *. rewrite filter_cons_True in Hl by done.
    rewrite filter_cons_True in Hl by done. by injection Hl.
  - rewrite filter_cons_False in Hl by (cbn; congruence).
    by rewrite Hl, (filter_drop _ l1 b l2) by (by eapply on_other).
Qed.

Lemma queue_shrink taker p r r' q l1 b b' l2 :
  queue_sim taker ((p, r) :: q) (l1 ++ b :: l2) → on (opposite taker) p b →
  on (opposite taker) p b' → resting b' = r' →
  filter (on (opposite taker) p) l1 = [] → queue_sim taker ((p, r') :: q) (l1 ++ b' :: l2).
Proof.
  intros [Hl Hs] Hb Hb' Hr H1. split; [|done].
  intros p'. specialize (Hl p'). destruct (decide (p' = p)) as [->|Hne].
  - rewrite filter_app, H1 in *. cbn [app] in *. rewrite filter_cons_True in Hl by done.
    rewrite filter_cons_True in Hl by done. injection Hl as _ Hl.
    rewrite !filter_cons_True, !fmap_cons, Hr by done. f_equal. exact Hl.
  - rewrite filter_cons_False in Hl by (cbn; congruence).
    rewrite filter_cons_False by (cbn; congruence).
    by rewrite Hl, (filter_swap _ l1 b b' l2) by (by eapply on_other).
Qed.

(** ** execute *)

Lemma executeLoop_done fuel bug side limit fills n l :
  executeLoop fuel bug side limit 0 fills n l = (0, fills, n, l).
Proof. by destruct fuel. Qed.

Lemma succ_mod k : (k mod two32 + 1) mod two32 = (k + 1) mod two32.
Proof. apply N.Div0.add_mod_idemp_l. Qed.

Lemma put_fill fills id p q :
  putU64 (putU64 (putU64 fills id) p) q = fills ++ enc_fill (mkObFill id p q).
Proof. rewrite !putU64_app. unfold enc_fill. cbn. by rewrite <-!app_assoc. Qed.

(** The loop takes from the queue as the engine does. *)
Lemma executeLoop_sim taker limit next q qty fuel fills k l :
  queue_sim taker q l → flat_ok next l → Forall (λ x, 1 ≤ o_qty x.2) q →
  (length l < fuel)%nat →
  let '(residual, fs, _, q') := fill taker limit qty q in
  ∃ l', executeLoop fuel NoBug (ObSide_val taker) limit qty fills (k mod two32) l =
      (residual, fills ++ (fs ≫= enc_fill), (k + N.of_nat (length fs)) mod two32, l') ∧
    queue_sim taker q' l' ∧ flat_ok next l' ∧
    ∀ p, filter (on taker p) l' = filter (on taker p) l.
Proof.
  revert qty fuel fills k l. induction q as [|[p r] q IH]; intros qty fuel fills k l Hq Hf Hpos Hl.
  { cbn [fill]. exists l. rewrite app_nil_r, N.add_0_r. split; [|done].
    destruct fuel as [|fuel]; [lia|]. cbn [executeLoop]. destruct (negb _); [done|].
    pose proof (scanBest_best taker limit l [] None (flat_sorted _ _ Hf)
      ltac:(by intros ? ?%not_elem_of_nil)) as H. cbn [app length] in H.
    destruct (scanBest _ _ _ _ _ _) as [[i b]|]; [|done]. exfalso.
    destruct H as (l1 & l2 & El & _ & He & _).
    assert (Hin : b ∈ l) by (rewrite El; apply elem_of_app; right; by left).
    destruct (eligible_on _ _ _ _ _ Hf Hin He) as [Hb _].
    assert ((ord_price b, resting b) ∈ []) as ?%not_elem_of_nil; [|done].
    apply (q_elem _ _ _ _ _ Hq). by exists b. }
  destruct fuel as [|fuel]; [lia|]. apply Forall_cons in Hpos as [Hr Hpos]. cbn in Hr.
  cbn [fill executeLoop]. destruct (N.eqb_spec qty 0) as [->|Hq0]; cbn [orb].
  { exists l. by rewrite app_nil_r, N.add_0_r. }
  rewrite (proj2 (N.ltb_lt 0 qty)) by lia. cbn [negb].
  pose proof (scan_front taker limit next l p r q Hf Hq) as Hscan.
  destruct (scanBest _ _ _ _ _ _) as [[i b]|].
  2: { rewrite Hscan. cbn. exists l. by rewrite app_nil_r, N.add_0_r. }
  destruct Hscan as (-> & Hb & <- & l1 & l2 & -> & -> & H1). cbn [negb].
  rewrite (bool_decide_eq_false_2 (NoBug = TakerPrice)) by done. rewrite put_fill, succ_mod.
  pose proof Hb as [_ Ep]. cbn [resting o_qty o_id] in *.
  destruct (N.ltb_spec qty (ord_qty b)) as [Hlt|Hge].
  - rewrite N.min_l, N.sub_diag, executeLoop_done by lia.
    rewrite (proj2 (N.eqb_neq (ord_qty b - qty) 0)) by lia.
    rewrite insert_middle. set (b' := mkOrder _ _ _ _ _). rewrite Ep.
    eexists. split; [reflexivity|]. assert (on (opposite taker) p b') by (by destruct Hb).
    split_and!; [by eapply queue_shrink|by eapply (flat_ok_replace _ _ b)|].
    intros p'. by apply filter_swap; eapply on_opposite.
  - rewrite N.min_r, N.sub_diag by lia. cbn [N.eqb]. rewrite delete_middle.
    rewrite length_app in Hl. cbn in Hl.
    specialize (IH (qty - ord_qty b) fuel (fills ++ enc_fill (mkObFill (ord_id b) p (ord_qty b)))
      (k + 1) (l1 ++ l2) ltac:(by eapply queue_pop) ltac:(by eapply flat_ok_delete) Hpos
      ltac:(rewrite length_app; lia)).
    destruct (fill _ _ _ q) as [[[res fs] gone] q']. destruct IH as (l' & E & Hq' & Hf' & Ht).
    exists l'. rewrite Ep, E, <-app_assoc. split_and!; [|done..|].
    + do 2 f_equal. cbn [length]. f_equal. lia.
    + intros p'. rewrite Ht. apply filter_drop. by eapply on_opposite.
Qed.

(** ** The engine's book as a queue *)

Lemma flat_filter_none p (m : Book) :
  Forall (λ x, x.1 ≠ p) m → filter (λ x : N * Resting, x.1 = p) (flat m) = [].
Proof.
  intros Hm. destruct (filter _ (flat m)) as [|[p' o] l] eqn:E; [done|]. exfalso.
  assert ((p', o) ∈ filter (λ x : N * Resting, x.1 = p) (flat m)) as [Hp Hin]%list_elem_of_filter
    by (rewrite E; by left).
  apply flat_price in Hin as (lv & Hin & _). rewrite Forall_forall in Hm.
  by apply (Hm (p', lv) Hin).
Qed.

Lemma level_filter taker b p :
  om_ok b → (filter (λ x, x.1 = p) (flat (prio taker b))).*2 = default [] (om_find p b).
Proof.
  intros Hok. destruct (om_split p b Hok) as (m1 & m2 & _ & _ & E & H1 & H2).
  set (mid := match om_find p b with Some v => [(p, v)] | None => [] end) in *.
  assert (N1 : Forall (λ x : N * Level, x.1 ≠ p) m1).
  { eapply Forall_impl; [exact H1|]. cbn. intros x Hx Ex. by rewrite Ex, key_irrefl in Hx. }
  assert (N2 : Forall (λ x : N * Level, x.1 ≠ p) m2).
  { eapply Forall_impl; [exact H2|]. cbn. intros x Hx Ex. by rewrite Ex, key_irrefl in Hx. }
  assert (Hmid : (filter (λ x, x.1 = p) (flat mid)).*2 = default [] (om_find p b)).
  { subst mid. destruct (om_find p b) as [lv|]; [|done]. rewrite flat_cons, app_nil_r. cbn [default].
    clear. induction lv as [|o lv IH]; [done|]. cbn [fmap list_fmap].
    rewrite filter_cons_True by done. cbn [fmap list_fmap snd]. by rewrite IH. }
  rewrite <-Hmid, E. destruct taker; cbn [prio].
  - by rewrite !flat_app, !filter_app, !fmap_app, (flat_filter_none p m1), (flat_filter_none p m2),
      app_nil_r.
  - rewrite !reverse_app, !flat_app, !filter_app, !fmap_app.
    rewrite (flat_filter_none p (reverse m1)), (flat_filter_none p (reverse m2))
      by (by apply Forall_reverse).
    cbn [fmap list_fmap app]. rewrite app_nil_r. subst mid. by destruct (om_find p b).
Qed.

Lemma prio_sorted taker b :
  om_ok b → StronglySorted (λ x y : N * Level, wins taker x.1 y.1) (prio taker b).
Proof.
  destruct taker; cbn [prio wins].
  - induction b as [|x b IH]; intros Hok; [constructor|]. apply om_ok_cons in Hok as [Ha Hok].
    constructor; [by apply IH|]. eapply Forall_impl; [exact Ha|]. cbn. intros y Hy%N.ltb_lt. lia.
  - induction b as [|[k v] b IH] using rev_ind; intros Hok; [constructor|]. rewrite reverse_snoc.
    pose proof (om_snoc_keys _ _ _ Hok) as Hk. apply om_ok_app in Hok as (Hok & _ & _).
    constructor; [by apply IH|]. apply Forall_reverse. eapply Forall_impl; [exact Hk|].
    cbn. intros y Hy%N.ltb_lt. lia.
Qed.

Lemma flat_prices_sorted taker (b : Book) :
  StronglySorted (λ x y : N * Level, wins taker x.1 y.1) b →
  StronglySorted (wins taker) (flat b).*1.
Proof.
  induction b as [|[p lv] b IH]; intros Hs; [constructor|].
  apply StronglySorted_inv in Hs as [Hs Hp]. specialize (IH Hs). cbn in Hp.
  rewrite flat_cons, fmap_app. induction lv as [|o lv IHl]; [done|]. cbn. constructor; [done|].
  apply Forall_app_2.
  - rewrite <-list_fmap_compose. apply Forall_fmap, Forall_true. intros ?. by destruct taker; cbn.
  - apply Forall_fmap, Forall_forall. intros [p' o'] (lv' & Hin & _)%flat_price. cbn.
    rewrite Forall_forall in Hp. exact (Hp _ Hin).
Qed.

(** The vector holds, at every price of a side, the level the engine has there. *)
Definition side_sim (side : ObSide) (b : Book) (l : list Order) : Prop :=
  ∀ p, default [] (om_find p b) = resting <$> filter (on side p) l.

Lemma side_queue taker b l :
  book_ok b → side_sim (opposite taker) b l → queue_sim taker (flat (prio taker b)) l.
Proof.
  intros [Hok _] Hs. split.
  - intros p. by rewrite level_filter.
  - by apply flat_prices_sorted, prio_sorted.
Qed.

Lemma queue_side taker b l :
  book_ok b → queue_sim taker (flat (prio taker b)) l → side_sim (opposite taker) b l.
Proof. intros [Hok _] [Hl _] p. by rewrite <-Hl, level_filter. Qed.

(** ** The simulation *)

Definition ref_session (x : N * Session) : N * (N * list byte) :=
  (x.1, (lastSeq x.2, lastResult x.2)).

Record ref_sim (s : OrderBookStateMachine) (m : ReferenceMatcher) : Prop := {
  rs_bug : ref_bug m = NoBug;
  rs_next : ref_nextId m = nextOrderId_ s;
  rs_sessions : ref_sessions m = ref_session <$> obSessions_ s;
  rs_flat : flat_ok (ref_arrival m) (ref_book m);
  rs_side : ∀ side, side_sim side (book_of side s) (ref_book m);
}.

Lemma side_sim_set side side' b s l :
  side_sim side' b l →
  (side ≠ side' → side_sim side (book_of side s) l) →
  side_sim side (book_of side (set_book side' b s)) l.
Proof. intros Hb Hs. rewrite book_of_set_book. case_decide; [by subst|by apply Hs]. Qed.

Lemma side_sim_ext side b l l' :
  (∀ p, filter (on side p) l' = filter (on side p) l) → side_sim side b l → side_sim side b l'.
Proof. intros Hf Hs p. by rewrite Hf. Qed.

Lemma opposite_ne side side' : side ≠ opposite side' → side = side'.
Proof. by destruct side, side'. Qed.

(** A new order goes to the end of its level. *)
Lemma side_sim_push side side' b l price id qty a :
  side_sim side b l →
  side_sim side (if decide (side = side')
                 then om_insert price (default [] (om_find price b) ++ [mkResting id qty]) b else b)
    (l ++ [mkOrder id (ObSide_val side') price qty a]).
Proof.
  intros Hs p. rewrite filter_app, fmap_app. case_decide as Hd.
  - subst side'. destruct (decide (p = price)) as [->|Hne].
    + rewrite om_find_insert_eq, filter_cons_True by done. cbn [default]. by rewrite (Hs price).
    + rewrite om_find_insert_ne, filter_cons_False by (done || by intros [_ ?]).
      by rewrite app_nil_r.
  - rewrite filter_cons_False; [by rewrite app_nil_r|]. intros [Ho _]. cbn in Ho.
    by destruct side, side'.
Qed.

Lemma flat_ok_push next l id side price qty :
  flat_ok next l → side ≤ 1 → flat_ok (next + 1) (l ++ [mkOrder id side price qty next]).
Proof.
  intros [Hs Hr] Hsd. split.
  - rewrite fmap_app. cbn. induction l as [|o l IH]; cbn in *; [by repeat constructor|].
    apply Forall_cons in Hr as [[Ho _] Hr]. apply StronglySorted_inv in Hs as [Hs Ha].
    constructor; [by apply IH|]. apply Forall_app_2; [done|by repeat constructor].
  - apply Forall_app_2; [|repeat constructor; cbn; [lia|done]].
    eapply Forall_impl; [exact Hr|]. cbn. intros o [? ?]. split; [lia|done].
Qed.

Lemma flat_ok_mono next next' l : next ≤ next' → flat_ok next l → flat_ok next' l.
Proof.
  intros Hle [Hs Hr]. split; [done|]. eapply Forall_impl; [exact Hr|]. cbn. intros o [? ?].
  split; [lia|done].
Qed.

Lemma flat_book_pos b taker : book_ok b → Forall (λ x, 1 ≤ o_qty x.2) (flat (prio taker b)).
Proof.
  intros [_ Hl]. apply Forall_forall. intros [p o] Hin. rewrite flat_prio in Hin.
  apply flat_price in Hin as (lv & Hin & Ho). rewrite Forall_forall in Hl.
  destruct (Hl _ Hin) as (_ & _ & Hq). rewrite Forall_forall in Hq. by apply Hq.
Qed.

(** Match, rest and report. *)
Lemma execute_sim side price qty id s m :
  ob_ok s → ref_sim s m → ref_arrival m + 1 < two64 →
  let '(res, s') := matchAndRest side price qty id s in
  let '(res', m') := execute id (ObSide_val side) price qty m in
  res = res' ∧ ref_sim s' m' ∧ ref_arrival m' ≤ ref_arrival m + 1.
Proof.
  intros Hs [Hbug Hnext Hsess Hflat Hside] Ha. unfold matchAndRest, execute.
  pose proof (book_ok_side (opposite side) s Hs) as Hb.
  pose proof (match_spec side price qty s Hb) as Hm.
  pose proof (executeLoop_sim side price (ref_arrival m)
    (flat (prio side (book_of (opposite side) s))) qty (S (length (ref_book m))) [] 0 (ref_book m)
    (side_queue _ _ _ Hb (Hside _)) Hflat (flat_book_pos _ _ Hb) ltac:(lia)) as He.
  destruct (fill _ _ _ _) as [[[q fs] gone] l]. destruct Hm as (opp' & -> & El & Hb' & _).
  destruct He as (l' & E & Hq' & Hf' & Ht). change (0 mod two32) with 0 in E.
  rewrite Hbug, E. cbn [app]. rewrite N.add_0_l. rewrite <-El in Hq'. apply queue_side in Hq'; [|done].
  rewrite obResult_fills. split; [done|].
  set (s1 := set_index _ _).
  assert (Hs1 : ∀ sd, side_sim sd (book_of sd s1) l').
  { intros sd. subst s1. rewrite book_of_set_index. apply side_sim_set; [done|].
    intros ->%opposite_ne. by eapply side_sim_ext. }
  assert (Hn1 : nextOrderId_ s1 = nextOrderId_ s ∧ obSessions_ s1 = obSessions_ s)
    by (by destruct side). destruct Hn1 as [Hn1 Hss1].
  destruct (0 <? q).
  - cbn [set_ref_book ref_arrival ref_book ref_nextId ref_sessions ref_bug].
    rewrite add64_small by done. split; [|done]. split; cbn.
    + done.
    + rewrite Hnext. by destruct side.
    + rewrite Hsess, <-Hss1. by destruct side.
    + apply flat_ok_push; [done|by destruct side].
    + intros sd. unfold rest_. rewrite book_of_set_index, book_of_set_book.
      pose proof (side_sim_push sd side _ _ price id q (ref_arrival m) (Hs1 sd)) as Hp.
      case_decide; [by subst sd|done].
  - split; [|cbn; lia]. split; [done|by rewrite Hn1|by rewrite Hss1|done|done].
Qed.

(** *** Finding an order *)

Lemma elem_orders side x s : (side, x) ∈ orders s ↔ x ∈ flat (book_of side s).
Proof.
  rewrite (orders_side side), elem_of_app. unfold tag. split.
  - intros [(y & [= <-] & ?)%list_elem_of_fmap|(y & [= E _] & _)%list_elem_of_fmap]; [done|].
    by destruct side.
  - intros Hin. left. by apply list_elem_of_fmap_2.
Qed.

Lemma elem_level side p r s m :
  ob_ok s → ref_sim s m →
  (side, (p, r)) ∈ orders s ↔ ∃ o, o ∈ ref_book m ∧ on side p o ∧ resting o = r.
Proof.
  intros Hs Hr. pose proof (side_queue (opposite side) (book_of side s) (ref_book m)
    (book_ok_side side s Hs)) as Hq.
  replace (opposite (opposite side)) with side in Hq by (by destruct side).
  specialize (Hq (rs_side _ _ Hr side)).
  rewrite elem_orders, <-(flat_prio (opposite side)), (q_elem _ _ _ _ _ Hq).
  by destruct side.
Qed.

(** The engine's index and the scan of the reference agree, and the level the index
    points at is what the vector holds around the order found. *)
Lemma find_sim id s m :
  ob_ok s → ref_sim s m →
  match findOrder id (ref_book m) with
  | None => om_find id (index_ s) = None
  | Some (i, o) => ∃ side l1 l2,
      ref_book m = l1 ++ o :: l2 ∧ i = length l1 ∧ ord_id o = id ∧
      Forall (λ x, ord_id x ≠ id) l1 ∧ on side (ord_price o) o ∧
      om_find id (index_ s) = Some (side, ord_price o) ∧
      om_find (ord_price o) (book_of side s) =
        Some ((resting <$> filter (on side (ord_price o)) l1) ++ resting o ::
              (resting <$> filter (on side (ord_price o)) l2))
  end.
Proof.
  intros Hs Hr. unfold findOrder. destruct (list_find _ _) as [[i o]|] eqn:E.
  - apply list_find_Some in E as (Hi & Hid & Hlt).
    apply list_elem_of_split_length in Hi as (l1 & l2 & El & ->).
    assert (Hin : o ∈ ref_book m) by (rewrite El; apply elem_of_app; right; by left).
    assert (∃ side, on side (ord_price o) o) as [side Ho].
    { pose proof (flat_range _ _ (rs_flat _ _ Hr)) as Hrg. rewrite Forall_forall in Hrg.
      destruct (Hrg o Hin) as [_ Hle]. destruct (N.eq_dec (ord_side o) 0).
      - by exists Bid.
      - exists Ask. split; [cbn; lia|done]. }
    exists side, l1, l2. split_and!; try done.
    + apply Forall_forall. intros x Hx. apply list_elem_of_lookup in Hx as [j Hj].
      apply (Hlt j x); [|by eapply lookup_lt_Some]. rewrite El. by apply lookup_app_l_Some.
    + apply (bag_index _ _ (ob_bag _ Hs)). exists (ord_qty o).
      apply (elem_level _ _ _ _ _ Hs Hr). exists o. split_and!; [done..|]. by rewrite <-Hid.
    + pose proof (rs_side _ _ Hr side (ord_price o)) as Hl.
      rewrite El, filter_app, filter_cons_True, fmap_app in Hl by done.
      destruct (om_find _ _) as [lv|]; cbn in Hl; [by rewrite Hl|].
      by destruct (resting <$> filter _ l1).
  - destruct (om_find id (index_ s)) as [[side p]|] eqn:Ei; [|done]. exfalso.
    apply (bag_index _ _ (ob_bag _ Hs)) in Ei as [q Hin].
    apply (elem_level _ _ _ _ _ Hs Hr) in Hin as (o & Hin & _ & [= Hid _]).
    apply list_find_None in E. rewrite Forall_forall in E. by apply (E o Hin).
Qed.

Lemma takeOrder_middle id l1 (o : Resting) l2 :
  Forall (λ x, o_id x ≠ id) l1 → o_id o = id → takeOrder id (l1 ++ o :: l2) = (o_qty o, l1 ++ l2).
Proof.
  intros H1 Ho. induction l1 as [|x l1 IH]; cbn.
  - by rewrite Ho, N.eqb_refl.
  - apply Forall_cons in H1 as [Hx H1]. rewrite (proj2 (N.eqb_neq _ _)) by done.
    by rewrite IH.
Qed.

Lemma list_find_middle id l1 (o : Resting) l2 :
  Forall (λ x, o_id x ≠ id) l1 → o_id o = id →
  list_find (λ x, o_id x = id) (l1 ++ o :: l2) = Some (length l1, o).
Proof.
  intros H1 Ho. apply list_find_Some. split_and!; [by apply list_lookup_middle|done|].
  intros j y Hj Hlt. rewrite lookup_app_l in Hj by done. rewrite Forall_forall in H1.
  apply H1. by eapply list_elem_of_lookup_2.
Qed.

Lemma resting_ids id side p l :
  Forall (λ x, ord_id x ≠ id) l → Forall (λ x, o_id x ≠ id) (resting <$> filter (on side p) l).
Proof.
  intros Hl. apply Forall_fmap, Forall_forall. intros x [_ Hx]%list_elem_of_filter.
  rewrite Forall_forall in Hl. by apply Hl.
Qed.

(** Setting a level, where an empty one goes away. *)
Lemma find_set_level p p' lv (b : Book) :
  om_ok b →
  default [] (om_find p' (match lv with [] => om_erase p b | _ :: _ => om_insert p lv b end)) =
    if decide (p' = p) then lv else default [] (om_find p' b).
Proof.
  intros Hb. case_decide as Hd.
  - subst p'. destruct lv; [by rewrite om_find_erase_eq|by rewrite om_find_insert_eq].
  - destruct lv; [by rewrite om_find_erase_ne|by rewrite om_find_insert_ne].
Qed.

(** *** Editing an order *)

(** Replacing one order of the vector by none, or by one at the same side and price. *)
Lemma edit_sim side p i b' l1 o l2 new s m :
  ref_sim s m → ref_book m = l1 ++ o :: l2 → on side p o → Forall (on side p) new →
  flat_ok (ref_arrival m) (l1 ++ new ++ l2) →
  (∀ p', default [] (om_find p' b') =
     if decide (p' = p)
     then (resting <$> filter (on side p) l1) ++ (resting <$> new) ++
          (resting <$> filter (on side p) l2)
     else default [] (om_find p' (book_of side s))) →
  ref_sim (set_index i (set_book side b' s)) (set_ref_book (l1 ++ new ++ l2) m).
Proof.
  intros [Hbug Hnext Hsess Hflat Hside] El Ho Hnew Hf Hb.
  assert (Hoth : ∀ side' p', (side', p') ≠ (side, p) →
    filter (on side' p') (l1 ++ new ++ l2) = filter (on side' p') (l1 ++ o :: l2)).
  { intros side' p' Hne. assert (Hx : ∀ x, on side p x → ¬ on side' p' x).
    { intros x [Hx1 Hx2] [Hy1 Hy2]. apply Hne. f_equal; [|congruence].
      rewrite Hx1 in Hy1. by destruct side, side'. }
    rewrite !filter_app, filter_cons_False by auto. f_equal.
    enough (filter (on side' p') new = []) as -> by done. clear -Hnew Hx.
    induction Hnew; [done|]. rewrite filter_cons_False by auto. done. }
  split; cbn; [done|rewrite Hnext; by destruct side|rewrite Hsess; by destruct side|done|].
  intros side'. rewrite book_of_set_index. apply side_sim_set.
  - intros p'. rewrite Hb. case_decide as Hd.
    + subst p'. rewrite !filter_app, !fmap_app. do 2 f_equal. f_equal. clear -Hnew.
      induction Hnew; [done|]. rewrite filter_cons_True by done. by f_equal.
    + rewrite Hoth by congruence. rewrite <-El. apply Hside.
  - intros Hne p'. rewrite Hoth by congruence. rewrite <-El. apply Hside.
Qed.

Lemma remove_sim id side s m l1 o l2 :
  ob_ok s → ref_sim s m → ref_book m = l1 ++ o :: l2 → ord_id o = id →
  Forall (λ x, ord_id x ≠ id) l1 → on side (ord_price o) o →
  om_find id (index_ s) = Some (side, ord_price o) →
  om_find (ord_price o) (book_of side s) =
    Some ((resting <$> filter (on side (ord_price o)) l1) ++ resting o ::
          (resting <$> filter (on side (ord_price o)) l2)) →
  ∃ s', remove id s = Some (ord_qty o, s') ∧ ref_sim s' (set_ref_book (l1 ++ l2) m).
Proof.
  intros Hs Hr El Hid H1 Ho Hi Hl. unfold remove. rewrite Hi. cbn. rewrite Hl. cbn.
  rewrite (takeOrder_middle id _ (resting o)) by (by apply resting_ids || done).
  eexists. split; [done|].
  apply (edit_sim side (ord_price o) _ _ l1 o l2 []); try done.
  - pose proof (rs_flat _ _ Hr) as Hf. rewrite El in Hf. by eapply flat_ok_delete.
  - intros p'. by apply find_set_level, book_ok_side.
Qed.

Lemma set_index_same side b s : set_book side b s = set_index (index_ s) (set_book side b s).
Proof. by destruct side. Qed.

(** ** The commands *)

(** What simulating a command means: the same outcome, and states that still agree. *)
Definition agree (m : ReferenceMatcher) (r : option (list byte * OrderBookStateMachine))
    (r' : option (list byte * ReferenceMatcher)) : Prop :=
  match r, r' with
  | None, None => True
  | Some (res, s'), Some (res', m') =>
      res = res' ∧ ref_sim s' m' ∧ ref_arrival m' ≤ ref_arrival m + 1
  | _, _ => False
  end.

(** Walk through a parse on both sides: one more field was there, or the engine's
    reader has turned bad and stays so up to the guard. *)
Ltac stays_bad :=
  lazymatch goal with
  | Hbad : r_ok ?r = false |- context [Reader_u64 ?r] =>
      let Hb := fresh "Hbad" in pose proof (Reader_u64_bad r Hbad) as Hb;
      destruct (Reader_u64 r) as [? ?]; cbn [snd] in Hb; clear Hbad; stays_bad
  | Hbad : r_ok ?r = false |- context [Reader_u8 ?r] =>
      let Hb := fresh "Hbad" in pose proof (Reader_u8_bad r Hbad) as Hb;
      destruct (Reader_u8 r) as [? ?]; cbn [snd] in Hb; clear Hbad; stays_bad
  | Hbad : r_ok ?r = false |- _ => by rewrite Hbad
  end.

Ltac parse rd sim f :=
  match goal with
  | Hp : (?pos ≤ length ?cmd)%nat |- context [rd (mkReader ?cmd ?pos true)] =>
      let Hu := fresh "Hu" in
      pose proof (sim cmd pos Hp) as Hu;
      destruct (f cmd pos) as [[? ?]|]; cbn [mbind option_bind];
      [destruct Hu as [-> ?]
      |destruct (rd (mkReader cmd pos true)) as [? ?]; cbn [snd] in Hu; stays_bad]
  end.

Ltac parse_u64 := parse Reader_u64 ref_u64_sim ref_u64.
Ltac parse_u8 := parse Reader_u8 ref_u8_sim ref_u8.

Lemma cancel_sim cmd pos s m :
  (pos ≤ length cmd)%nat → ob_ok s → ref_sim s m →
  agree m (applyCancel (mkReader cmd pos true) s) (refCancel cmd pos m).
Proof.
  intros Hpos Hs Hr. unfold applyCancel, refCancel. parse_u64.
  rename n into id. unfold Reader_exhausted. cbn [r_ok r_pos r_in andb negb orb].
  destruct (negb _); [done|]. pose proof (find_sim id s m Hs Hr) as Hf.
  destruct (findOrder id (ref_book m)) as [[i o]|].
  2: { rewrite Hf. cbn. split_and!; [done|done|lia]. }
  destruct Hf as (side & l1 & l2 & El & -> & Hid & H1 & Ho & Hi & Hl). rewrite Hi.
  destruct (remove_sim id side s m l1 o l2) as (s' & -> & Hr'); try done.
  cbn [agree]. rewrite El, delete_middle. split_and!; [|done|cbn; lia].
  rewrite obResult_fills. by rewrite app_nil_r.
Qed.

Lemma new_sim cmd pos s m :
  (pos ≤ length cmd)%nat → ob_ok s → nextOrderId_ s + 1 < two64 → ref_sim s m →
  ref_arrival m + 1 < two64 →
  agree m (applyNew (mkReader cmd pos true) s) (refNew cmd pos m).
Proof.
  intros Hpos Hs Hn Hr Ha. unfold applyNew, refNew. parse_u8. parse_u64. parse_u64.
  rename n into side, n1 into price, n3 into qty.
  unfold Reader_exhausted. cbn [r_ok r_pos r_in andb negb orb].
  destruct (_ || _) eqn:Eg; [done|]. breflect.
  set (s1 := mkOrderBook _ _ _ _ _). set (m1 := mkReference _ _ _ _ _).
  assert (Hs1 : ob_ok s1) by (apply ob_ok_next; [done|rewrite add64_small by done; lia]).
  assert (Hr1 : ref_sim s1 m1).
  { destruct Hr as [Hbug Hnext Hsess Hf Hside]. split; try done. cbn. by rewrite Hnext. }
  assert (Esd : side = ObSide_val (ObSide_of side)).
  { unfold ObSide_of. destruct (N.eqb_spec side 0); cbn; lia. }
  rewrite (rs_next _ _ Hr).
  pose proof (execute_sim (ObSide_of side) price qty (nextOrderId_ s) s1 m1 Hs1 Hr1 Ha) as He.
  rewrite <-Esd in He. destruct (matchAndRest _ _ _ _ _) as [res s'].
  unfold agree. by destruct (execute _ _ _ _ _) as [res' m'].
Qed.

Lemma amend_sim cmd pos s m :
  (pos ≤ length cmd)%nat → ob_ok s → ref_sim s m → ref_arrival m + 1 < two64 →
  agree m (applyAmend (mkReader cmd pos true) s) (refAmend cmd pos m).
Proof.
  intros Hpos Hs Hr Ha. unfold applyAmend, refAmend. parse_u64. parse_u64. parse_u64.
  rename n into id, n1 into price, n3 into qty.
  unfold Reader_exhausted. cbn [r_ok r_pos r_in andb negb orb].
  destruct (_ || _) eqn:Eg; [done|]. breflect. pose proof (find_sim id s m Hs Hr) as Hf.
  destruct (findOrder id (ref_book m)) as [[i o]|].
  2: { rewrite Hf. cbn. split_and!; [done|done|lia]. }
  destruct Hf as (side & l1 & l2 & El & -> & Hid & Hl1 & Ho & Hi & Hl). rewrite Hi, Hl. cbn [default Datatypes.id].
  rewrite (list_find_middle id _ (resting o)) by (by apply resting_ids || done).
  cbn [resting o_qty o_id]. destruct (_ && _).
  - cbn [agree]. rewrite El, !insert_middle. split_and!; [|rewrite set_index_same|cbn; lia].
    + rewrite obResult_fills. by rewrite app_nil_r.
    + apply (edit_sim side (ord_price o) _ _ l1 o l2 [mkOrder _ _ _ _ _]); try done.
      * by repeat constructor; destruct Ho.
      * pose proof (rs_flat _ _ Hr) as Hfl. rewrite El in Hfl. by eapply (flat_ok_replace _ _ o).
      * intros p'. case_decide as Hd; [subst p'|].
        -- by rewrite om_find_insert_eq.
        -- by rewrite om_find_insert_ne.
  - destruct (remove_sim id side s m l1 o l2) as (s1 & Er & Hr1); try done.
    destruct (remove_ok _ _ _ _ Hs Hi) as (q & s2 & Er' & Hs2 & _). rewrite Er in Er'.
    injection Er' as <- <-. rewrite Er, El, delete_middle.
    pose proof (execute_sim side price qty id s1 _ Hs2 Hr1 Ha) as He.
    replace (ord_side o) with (ObSide_val side) by (by destruct Ho).
    destruct (matchAndRest _ _ _ _ _) as [res s']. unfold agree. by destruct (execute _ _ _ _ _).
Qed.

(** ** apply *)

Lemma ref_find k (l : ordmap N Session) :
  om_find k (ref_session <$> l) = (λ se, (lastSeq se, lastResult se)) <$> om_find k l.
Proof.
  induction l as [|[k' v] l IH]; [done|]. cbn [fmap list_fmap ref_session om_find fst snd].
  destruct (key_ltb k k'); [done|]. destruct (key_ltb k' k); [exact IH|done].
Qed.

Lemma ref_insert k sq res (l : ordmap N Session) :
  om_insert k (sq, res) (ref_session <$> l) = ref_session <$> om_insert k (mkSession sq res) l.
Proof.
  induction l as [|[k' v] l IH]; [done|]. cbn [fmap list_fmap ref_session om_insert fst snd].
  destruct (key_ltb k k'); [done|]. destruct (key_ltb k' k); [|done]. cbn. f_equal. exact IH.
Qed.

Lemma cached_sim s m cl sq : ref_sim s m → refCached m cl sq = obCached s cl sq.
Proof.
  intros Hr. unfold refCached, obCached. destruct (negb _); [|done].
  rewrite (rs_sessions _ _ Hr), ref_find. by destruct (om_find _ _).
Qed.

Lemma header_sim cmd :
  match refHeader cmd with
  | None => let '(_, _, op, r) := readObHeader (Reader_init cmd) in
            negb (r_ok r) || (op <? 1) || (3 <? op) = true
  | Some (cl, sq, op, pos) =>
      readObHeader (Reader_init cmd) = (cl, sq, op, mkReader cmd pos true) ∧
      (op <? 1) || (3 <? op) = false ∧ (pos ≤ length cmd)%nat
  end.
Proof.
  unfold refHeader, readObHeader, Reader_init, mbind, Rd_bind, mret, Rd_ret.
  assert (Hp : (0 ≤ length cmd)%nat) by lia.
  parse_u64. parse_u64. parse_u8. cbn [r_ok negb orb]. by destruct (_ || _) eqn:?.
Qed.

Lemma apply_sim s m cmd :
  ob_ok s → nextOrderId_ s + 1 < two64 → ref_sim s m → ref_arrival m + 1 < two64 →
  let '(res, s') := OrderBook_apply s cmd in
  let '(res', m') := Reference_apply m cmd in
  res = res' ∧ ref_sim s' m' ∧ ref_arrival m' ≤ ref_arrival m + 1.
Proof.
  intros Hs Hn Hr Ha. unfold OrderBook_apply, Reference_apply.
  pose proof (header_sim cmd) as Hh. destruct (refHeader cmd) as [[[[cl sq] op] pos]|].
  2: { destruct (readObHeader _) as [[[cl sq] op] r]. rewrite Hh. split_and!; [done..|lia]. }
  destruct Hh as (-> & Hg & Hpos). cbn [r_ok negb orb]. rewrite Hg.
  rewrite (cached_sim s m cl sq Hr). destruct (obCached s cl sq); [split_and!; [done..|lia]|].
  assert (agree m
    (if op =? 1 then applyNew (mkReader cmd pos true) s
     else if op =? 2 then applyCancel (mkReader cmd pos true) s
     else applyAmend (mkReader cmd pos true) s)
    (if op =? 1 then refNew cmd pos m
     else if op =? 2 then refCancel cmd pos m else refAmend cmd pos m)) as Hag.
  { destruct (op =? 1); [by apply new_sim|]. destruct (op =? 2); [by apply cancel_sim|by apply amend_sim]. }
  destruct (if op =? 1 then applyNew _ _ else _) as [[res s']|],
    (if op =? 1 then refNew _ _ _ else _) as [[res' m']|]; cbn [agree] in Hag; try done.
  2: { split_and!; [done..|lia]. }
  destruct Hag as (<- & [Hbug Hnext Hsess Hf Hside] & Ha'). split; [done|].
  destruct (negb _); [|done]. split; [|done]. split; cbn; try done.
  by rewrite Hsess, ref_insert.
Qed.

(** ** bookImage *)

Lemma pricesOf_spec side l :
  NoDup (pricesOf side l) ∧
  ∀ p, p ∈ pricesOf side l ↔ ∃ o, o ∈ l ∧ ord_side o = side ∧ ord_price o = p.
Proof.
  induction l as [|o l [Hnd IH]] using rev_ind.
  { split; [constructor|]. intros p. split; [by intros ?%not_elem_of_nil|].
    by intros (o & ?%not_elem_of_nil & _). }
  unfold pricesOf. rewrite foldl_app. cbn [foldl]. fold (pricesOf side l).
  assert (Hex : ∀ p, (∃ o', o' ∈ l ++ [o] ∧ ord_side o' = side ∧ ord_price o' = p) ↔
    p ∈ pricesOf side l ∨ (ord_side o = side ∧ ord_price o = p)).
  { intros p. rewrite IH. split.
    - intros (o' & [Hin| ->%list_elem_of_singleton]%elem_of_app & Ho); [left; by exists o'|by right].
    - intros [(o' & Hin & Ho)|Ho]; [exists o'|exists o]; (split; [|done]); apply elem_of_app;
        [by left|right; by left]. }
  destruct (N.eqb_spec (ord_side o) side) as [Es|Es]; cbn [andb].
  - case_bool_decide as Hin; cbn [negb].
    + split; [done|]. intros p. rewrite Hex. split; [by left|]. by intros [?|[_ <-]].
    + split; [apply NoDup_app; split_and!; [done| |apply NoDup_singleton]|].
      * intros p Hp ->%list_elem_of_singleton. done.
      * intros p. rewrite Hex, elem_of_app, list_elem_of_singleton. naive_solver.
  - split; [done|]. intros p. rewrite Hex. split; [by left|]. by intros [?|[? _]].
Qed.

Lemma prices_sim side b l :
  book_ok b → side_sim side b l → sortPrices (pricesOf (ObSide_val side) l) = b.*1.
Proof.
  intros [Hok Hlv] Hs. destruct (pricesOf_spec (ObSide_val side) l) as [Hnd Hin].
  assert (Hsort : StronglySorted N.lt b.*1).
  { clear -Hok. induction b as [|x b IH]; [constructor|]. apply om_ok_cons in Hok as [Ha Hok]. cbn.
    constructor; [by apply IH|]. apply Forall_fmap. eapply Forall_impl; [exact Ha|].
    cbn. by intros y Hy%N.ltb_lt. }
  apply (StronglySorted_unique N.le).
  - apply (StronglySorted_merge_sort N.le).
  - clear -Hsort. induction Hsort as [|p ps _ IH Hp]; constructor; [done|].
    eapply Forall_impl; [exact Hp|]. cbn. lia.
  - unfold sortPrices. rewrite merge_sort_Permutation. apply NoDup_Permutation; [done| |].
    + clear -Hsort. induction Hsort as [|p ps _ IH Hp]; constructor; [|done].
      intros Hin. rewrite Forall_forall in Hp. specialize (Hp p Hin). lia.
    + intros p. rewrite Hin. split.
      * intros (o & Ho & Hon). pose proof (Hs p) as Hl.
        destruct (om_find p b) as [lv|] eqn:E.
        -- apply om_find_elem in E; [|done]. apply list_elem_of_fmap. by exists (p, lv).
        -- exfalso. cbn in Hl. assert (resting o ∈ resting <$> filter (on side p) l) as Hx.
           { apply list_elem_of_fmap_2. by apply list_elem_of_filter. }
           rewrite <-Hl in Hx. by apply not_elem_of_nil in Hx.
      * intros ([p' lv] & -> & Hx)%list_elem_of_fmap. cbn. apply om_find_elem in Hx as Hf; [|done].
        rewrite Forall_forall in Hlv. destruct (Hlv _ Hx) as (_ & Hne & _). cbn in Hne.
        pose proof (Hs p') as Hl. rewrite Hf in Hl. cbn in Hl.
        destruct (filter (on side p') l) as [|o os] eqn:Ef; [done|].
        assert (o ∈ filter (on side p') l) as [Ho Hol]%list_elem_of_filter by (rewrite Ef; by left).
        by exists o.
Qed.

(** The vector is in arrival order already. *)
Lemma levelOf_filter next side p l :
  flat_ok next l → levelOf (ObSide_val side) p l = filter (on side p) l.
Proof.
  intros [Hs _]. unfold levelOf. change (filter _ l) with (filter (on side p) l) at 1.
  assert (Hf : StronglySorted N.lt (ord_arrival <$> filter (on side p) l)).
  { clear -Hs. induction l as [|o l IH]; [constructor|]. cbn in Hs.
    apply StronglySorted_inv in Hs as [Hs Ho]. rewrite filter_cons. case_decide; [|by apply IH].
    cbn. constructor; [by apply IH|]. apply Forall_fmap, Forall_forall.
    intros x [_ Hx]%list_elem_of_filter. rewrite Forall_fmap, Forall_forall in Ho. by apply Ho. }
  revert Hf. generalize (filter (on side p) l). clear. intros l Hs.
  apply (StronglySorted_unique_strong arrival_le).
  - intros x y Hx Hy H1 H2. rewrite merge_sort_Permutation in Hx.
    assert (E : ord_arrival x = ord_arrival y) by (unfold arrival_le in *; lia). clear H1 H2.
    induction l as [|o l IH]; [by apply not_elem_of_nil in Hx|]. cbn in Hs.
    apply StronglySorted_inv in Hs as [Hs Ho]. rewrite Forall_fmap, Forall_forall in Ho. cbn in Ho.
    apply elem_of_cons in Hx as [->|Hx], Hy as [->|Hy]; [done| | |by apply IH].
    + specialize (Ho _ Hy). lia.
    + specialize (Ho _ Hx). lia.
  - apply StronglySorted_merge_sort; unfold arrival_le.
    + intros a b c. lia.
    + intros a b. lia.
  - clear -Hs. induction l as [|o l IH]; [constructor|]. cbn in Hs.
    apply StronglySorted_inv in Hs as [Hs Ho]. constructor; [by apply IH|].
    rewrite Forall_fmap in Ho. eapply Forall_impl; [exact Ho|]. unfold arrival_le. cbn. lia.
  - by rewrite merge_sort_Permutation.
Qed.

Lemma dump_sim next side b l out prices :
  flat_ok next l → side_sim side b l →
  (∀ x, x ∈ prices → om_find x.1 b = Some x.2) →
  foldl (refLevel (ObSide_val side) l) out prices.*1 =
  foldl (dumpLevel (match side with Bid => str "B" | Ask => str "A" end)) out prices.
Proof.
  intros Hf Hs. revert out. induction prices as [|[p lv] prices IH]; intros out Hp; [done|].
  cbn [fmap list_fmap foldl fst]. rewrite <-IH by (intros x Hx; apply Hp; by right). f_equal.
  unfold refLevel, dumpLevel. rewrite (levelOf_filter next) by done. cbn [fst snd].
  pose proof (Hs p) as Hl. pose proof (Hp (p, lv) ltac:(by left)) as Hx. cbn in Hx.
  rewrite Hx in Hl. cbn in Hl. rewrite Hl.
  rewrite <-!app_assoc. apply (f_equal (λ x, x ++ [x0a])). replace (if ObSide_val side =? 0 then _ else _) with
    (match side with Bid => str "B" | Ask => str "A" end) by (by destruct side).
  generalize (out ++ (match side with Bid => str "B" | Ask => str "A" end) ++ str " " ++
    to_string p ++ str ":").
  clear. induction (filter (on side p) l) as [|o os IHo]; intros out'; [done|].
  cbn [fmap list_fmap foldl resting o_id o_qty]. apply IHo.
Qed.

Lemma refSide_sim next side b l out :
  book_ok b → flat_ok next l → side_sim side b l →
  refSide l out (ObSide_val side) =
  foldl (dumpLevel (match side with Bid => str "B" | Ask => str "A" end)) out
    (match side with Bid => reverse b | Ask => b end).
Proof.
  intros Hb Hf Hs. unfold refSide. rewrite (prices_sim side b l Hb Hs).
  destruct Hb as [Hok _]. destruct side; cbn [ObSide_val N.eqb].
  - rewrite <-fmap_reverse. apply (dump_sim next Bid b); [done..|].
    intros [p lv] Hx. by apply om_find_elem, elem_of_reverse.
  - apply (dump_sim next Ask b); [done..|]. intros [p lv] Hx. by apply om_find_elem.
Qed.

Lemma image_sim s m : ob_ok s → ref_sim s m → bookImage s = Reference_bookImage m.
Proof.
  intros Hs Hr. unfold bookImage, Reference_bookImage. cbn [foldl].
  change 0 with (ObSide_val Bid). change 1 with (ObSide_val Ask).
  pose proof (rs_flat _ _ Hr) as Hf.
  rewrite (refSide_sim _ Bid (bids_ s) _ [] (ob_bids _ Hs) Hf (rs_side _ _ Hr Bid)).
  by rewrite (refSide_sim _ Ask (asks_ s) _ _ (ob_asks _ Hs) Hf (rs_side _ _ Hr Ask)).
Qed.

(** ** Equivalence *)

Fixpoint results {S} (step : S → list byte → list byte * S) (s : S) (cmds : list (list byte)) :
    list (list byte) * S :=
  match cmds with
  | [] => ([], s)
  | cmd :: cmds =>
      let '(res, s) := step s cmd in
      let '(rs, s) := results step s cmds in
      (res :: rs, s)
  end.

Lemma init_sim : ref_sim OrderBook_init (ReferenceMatcher_new NoBug).
Proof.
  split; [done..|by repeat constructor|]. intros side p. by destruct side.
Qed.

Lemma results_sim s m cmds :
  ob_ok s → ref_sim s m →
  nextOrderId_ s + N.of_nat (length cmds) < two64 → ref_arrival m + N.of_nat (length cmds) < two64 →
  let '(rs, s') := results OrderBook_apply s cmds in
  let '(rs', m') := results Reference_apply m cmds in
  rs = rs' ∧ ob_ok s' ∧ ref_sim s' m'.
Proof.
  revert s m. induction cmds as [|cmd cmds IH]; intros s m Hs Hr Hn Ha; [done|].
  cbn [results length] in *.
  pose proof (apply_sim s m cmd Hs ltac:(lia) Hr ltac:(lia)) as Hsim.
  destruct (apply_ok s cmd Hs ltac:(lia)) as [Hs1 Hn1].
  destruct (OrderBook_apply s cmd) as [res s1], (Reference_apply m cmd) as [res' m1].
  destruct Hsim as (<- & Hr1 & Ha1). cbn in Hs1, Hn1.
  specialize (IH s1 m1 Hs1 Hr1 ltac:(lia) ltac:(lia)).
  destruct (results OrderBook_apply s1 cmds) as [rs s2],
    (results Reference_apply m1 cmds) as [rs' m2].
  destruct IH as (<- & ? & ?). done.
Qed.

(** C18: the engine is the reference matcher.  On every stream of commands,
    well-formed or not, the price-level engine with its index and the flat vector
    with its linear scans give byte for byte the same results and end in books with
    the same image - as long as the 64-bit order ids and arrival stamps do not wrap.
    The golden-model test samples this on ten seeded streams. *)
Theorem golden_equivalence cmds :
  N.of_nat (length cmds) + 1 < two64 →
  let '(rs, s) := results OrderBook_apply OrderBook_init cmds in
  let '(rs', m) := results Reference_apply (ReferenceMatcher_new NoBug) cmds in
  rs = rs' ∧ bookImage s = Reference_bookImage m.
Proof.
  intros Hn.
  pose proof (results_sim OrderBook_init _ cmds init_ok init_sim ltac:(cbn; lia) ltac:(cbn; lia)) as H.
  destruct (results OrderBook_apply _ _) as [rs s], (results Reference_apply _ _) as [rs' m].
  destruct H as (<- & Hs & Hr). split; [done|]. by apply image_sim.
Qed.

(** A crossing pair, an amend that loses its priority, a duplicate and a malformed
    command. *)
Lemma golden_equivalence_witness :
  let cmds := [encodeObNew 1 1 Bid 100 5; encodeObNew 2 1 Bid 100 4; encodeObAmend 1 2 1 100 7;
               encodeObNew 3 1 Ask 99 6; encodeObNew 3 1 Ask 99 6; [x01]] in
  let '(rs, s) := results OrderBook_apply OrderBook_init cmds in
  let '(rs', m) := results Reference_apply (ReferenceMatcher_new NoBug) cmds in
  rs = rs' ∧ bookImage s = Reference_bookImage m.
Proof. apply golden_equivalence. vm_compute. reflexivity. Defined.

(** The test never fails: whatever the seed and however long the stream. *)
Lemma stream_matches ops gen s m :
  ob_ok s → ref_sim s m →
  nextOrderId_ s + N.of_nat ops < two64 → ref_arrival m + N.of_nat ops < two64 →
  ∃ s' m', streamLoop ops gen s m = Some (s', m') ∧ ob_ok s' ∧ ref_sim s' m'.
Proof.
  revert gen s m. induction ops as [|ops IH]; intros gen s m Hs Hr Hn Ha; cbn [streamLoop].
  { by exists s, m. }
  destruct (sg_command gen) as [cmd gen'].
  pose proof (apply_sim s m cmd Hs ltac:(lia) Hr ltac:(lia)) as Hsim.
  destruct (apply_ok s cmd Hs ltac:(lia)) as [Hs1 Hn1].
  destruct (OrderBook_apply s cmd) as [res s1], (Reference_apply m cmd) as [res' m1].
  destruct Hsim as (<- & Hr1 & Ha1). rewrite bool_decide_eq_true_2 by done. cbn in Hs1, Hn1.
  apply IH; [done..|lia|lia].
Qed.

Lemma runStream_passes seed ops : N.of_nat ops + 1 < two64 → runStream seed ops NoBug = true.
Proof.
  intros Hn. unfold runStream.
  destruct (stream_matches ops (StreamGen_new seed) _ _ init_ok init_sim) as (s & m & -> & Hs & Hr);
    [cbn; lia..|]. by apply bool_decide_eq_true_2, image_sim.
Qed.

(** The comparison can fail: each deliberate bug of the reference shows within 60
    commands of the first stream of the test. *)
Lemma runStream_flags :
  Forall (λ bug, runStream 1 60 bug = false) [IgnoreTimePriority; IgnorePricePriority; TakerPrice].
Proof. repeat constructor; vm_compute; reflexivity. Qed.
