(* ===== verification/ClientService.v ===== *)
(** * src/client/client_service.cpp: client requests at a node

    The layer between the transport and the Raft core: it turns requests into
    proposals, remembers who waits for which log index, and answers when that
    index is applied.  The core is the one of [RaftCore.v]; at each call it is
    whatever the node's other activity has made of it. *)

From Stdlib Require Import NArith Strings.Byte Lia.
From S2P Require Import Prelude Wire Messages Log RaftCore RaftNode.

Local Open Scope N_scope.

(** ** PendingTable *)

Record Pending := mkPending {
  p_replyTo : NodeId;
  p_clientId : N;
  p_seqNo : N;
}.

Record Slot := mkSlot {
  sl_index : LogIndex;
  sl_p : Pending;
  sl_used : bool;
}.

Abbreviation PendingTable := (list Slot).

Definition PendingTable_new (cap : N) : PendingTable :=
  replicate (N.to_nat (bit_ceil cap)) (mkSlot 0 (mkPending 0 0 0) false).

Definition slotOf (t : PendingTable) (index : LogIndex) : nat :=
  N.to_nat (N.land index (N.of_nat (length t) - 1)).

Definition put (index : LogIndex) (p : Pending) (t : PendingTable) : PendingTable :=
  <[slotOf t index := mkSlot index p true]> t.

(** [None] is the [false] return; the slot is released. *)
Definition take_ (index : LogIndex) (t : PendingTable) : option (Pending * PendingTable) :=
  match t !! slotOf t index with
  | Some s =>
      if negb (sl_used s) || negb (sl_index s =? index) then None
      else Some (sl_p s, <[slotOf t index := mkSlot (sl_index s) (sl_p s) false]> t)
  | None => None
  end.

(** ** ClientService *)

Definition kSessionPrefixSize : nat := 16.

Definition decodePrefix (command : list byte) : option (N * N) :=
  if (length command <? kSessionPrefixSize)%nat then None
  else
    let '(clientId, r) := Reader_u64 (Reader_init command) in
    let '(seqNo, r) := Reader_u64 r in
    if r_ok r then Some (clientId, seqNo) else None.

Record Buffered := mkBuffered {
  bf_from : NodeId;
  bf_clientId : N;
  bf_seqNo : N;
  bf_command : list byte;
}.

Record Batching := mkBatching {
  maxBatch : nat;
  linger : N;                                (* microseconds *)
}.

Record ClientService := mkClientService {
  pending_ : PendingTable;
  leaderHint_ : NodeId;
  batching_ : Batching;
  buffer_ : list Buffered;
  batchDeadline_ : TimePoint;
  deadlineArmed_ : bool;
  okReply_ : ClientReply;
  sent_ : list (NodeId * ClientReply);       (* what went to [send_] *)
}.

Definition ClientService_new (b : Batching) : ClientService :=
  mkClientService (PendingTable_new 8192) 0 b [] TimePoint_max false
    (mkClientReply CsOk 0 []) [].

Definition set_pending (t : PendingTable) (s : ClientService) : ClientService :=
  mkClientService t (leaderHint_ s) (batching_ s) (buffer_ s) (batchDeadline_ s)
    (deadlineArmed_ s) (okReply_ s) (sent_ s).

Definition reply (to : NodeId) (r : ClientReply) (s : ClientService) : ClientService :=
  mkClientService (pending_ s) (leaderHint_ s) (batching_ s) (buffer_ s) (batchDeadline_ s)
    (deadlineArmed_ s) (okReply_ s) (sent_ s ++ [(to, r)]).

Section ClientService.
Context {P L SM R K : Type}.
Context `{!PersistentState P} `{!RaftLog L} `{!StateMachine SM} `{!Rng R} `{!ApplySink K}.

Local Abbreviation Core := (@RaftCore P L SM R K).

Definition flushBatch (now : TimePoint) (s : ClientService) (c : Core) : ClientService * Core :=
  match buffer_ s with
  | [] => (s, c)
  | _ :: _ =>
      let '(first, c) := proposeBatch now (bf_command <$> buffer_ s) c in
      let s :=
        match first with
        | None =>
            let hint := default 0 (leaderId_ c) in
            foldl (λ s b, reply (bf_from b) (mkClientReply CsNotLeader hint []) s) s (buffer_ s)
        | Some first =>
            set_pending (foldl (λ t '(i, b), put (first + i)
                (mkPending (bf_from b) (bf_clientId b) (bf_seqNo b)) t)
              (pending_ s) (imap (λ i b, (N.of_nat i, b)) (buffer_ s))) s
        end in
      (mkClientService (pending_ s) (leaderHint_ s) (batching_ s) [] TimePoint_max false
         (okReply_ s) (sent_ s), c)
  end.

Definition onClientRequest (now : TimePoint) (from : NodeId) (req : ClientRequest)
    (s : ClientService) (c : Core) : ClientService * Core :=
  let s := mkClientService (pending_ s) (default 0 (leaderId_ c)) (batching_ s) (buffer_ s)
             (batchDeadline_ s) (deadlineArmed_ s) (okReply_ s) (sent_ s) in
  if bool_decide (role_ c ≠ Leader) then
    (reply from (mkClientReply CsNotLeader (default 0 (leaderId_ c)) []) s, c)
  else if negb (match decodePrefix (cr_command req) with
                | Some (cl, sq) => (cl =? cr_clientId req) && (sq =? cr_seqNo req)
                | None => false
                end)
  then (reply from (mkClientReply CsError 0 []) s, c)
  else if (1 <? maxBatch (batching_ s))%nat then
    let s := mkClientService (pending_ s) (leaderHint_ s) (batching_ s)
               (buffer_ s ++ [mkBuffered from (cr_clientId req) (cr_seqNo req) (cr_command req)])
               (batchDeadline_ s) (deadlineArmed_ s) (okReply_ s) (sent_ s) in
    if (maxBatch (batching_ s) <=? length (buffer_ s))%nat then flushBatch now s c else (s, c)
  else
    let '(index, c) := propose now (cr_command req) c in
    match index with
    | None => (reply from (mkClientReply CsNotLeader 0 []) s, c)
    | Some index =>
        (set_pending (put index (mkPending from (cr_clientId req) (cr_seqNo req)) (pending_ s)) s, c)
    end.

(** The deadline it next wants to be called at, with the new states. *)
Definition flushIfDue (now : TimePoint) (s : ClientService) (c : Core) :
    TimePoint * ClientService * Core :=
  match buffer_ s with
  | [] => (TimePoint_max, s, c)
  | _ :: _ =>
      let s := if negb (deadlineArmed_ s)
               then mkClientService (pending_ s) (leaderHint_ s) (batching_ s) (buffer_ s)
                      (now + linger (batching_ s) * 1000) true (okReply_ s) (sent_ s)
               else s in
      let '(s, c) := if batchDeadline_ s <=? now then flushBatch now s c else (s, c) in
      (match buffer_ s with [] => TimePoint_max | _ :: _ => batchDeadline_ s end, s, c)
  end.

End ClientService.

(** [selfId] is the core's, immutable. *)
Definition onApplied (selfId : NodeId) (index : LogIndex) (entry : LogEntry)
    (result : list byte) (s : ClientService) : ClientService :=
  match take_ index (pending_ s) with
  | None => s
  | Some (p, t) =>
      let s := set_pending t s in
      let same := match decodePrefix (e_command entry) with
                  | Some (cl, sq) => (cl =? p_clientId p) && (sq =? p_seqNo p)
                  | None => false
                  end in
      if negb same then reply (p_replyTo p) (mkClientReply CsNotLeader (leaderHint_ s) []) s
      else
        let ok := mkClientReply CsOk selfId result in
        reply (p_replyTo p) ok
          (mkClientService (pending_ s) (leaderHint_ s) (batching_ s) (buffer_ s)
             (batchDeadline_ s) (deadlineArmed_ s) ok (sent_ s))
  end.

(** ** The pending table *)

Lemma length_put i p t : length (put i p t) = length t.
Proof. apply length_insert. Qed.

Lemma slotOf_put i p t j : slotOf (put i p t) j = slotOf t j.
Proof. unfold slotOf. by rewrite length_put. Qed.

Lemma slotOf_lt t i : (0 < length t)%nat → (slotOf t i < length t)%nat.
Proof.
  intros Ht. unfold slotOf. pose proof (N.land_le_r i (N.of_nat (length t) - 1)). lia.
Qed.

Lemma take_put i p t : (0 < length t)%nat →
  ∃ t', take_ i (put i p t) = Some (p, t') ∧ take_ i t' = None ∧ length t' = length t.
Proof.
  intros Ht. unfold take_. rewrite slotOf_put. unfold put at 1.
  rewrite list_lookup_insert_eq by (by apply slotOf_lt). cbn. rewrite N.eqb_refl. cbn.
  eexists. split_and!; [done| |by rewrite length_insert, length_put].
  unfold slotOf. rewrite length_insert, length_put. fold (slotOf t i).
  by rewrite list_lookup_insert_eq by (rewrite length_put; by apply slotOf_lt).
Qed.

Lemma take_put_ne i j p t : slotOf t i ≠ slotOf t j →
  take_ i (put j p t) = (λ '(q, t'), (q, put j p t')) <$> take_ i t.
Proof.
  intros Hne. unfold take_. rewrite slotOf_put. unfold put at 1.
  rewrite list_lookup_insert_ne by done. destruct (t !! slotOf t i) as [s|]; [|done].
  destruct (_ || _); [done|]. cbn. do 2 f_equal. unfold put, slotOf. rewrite length_insert.
  by rewrite list_insert_insert_ne.
Qed.

(** Indices less than a table apart have different slots. *)
Lemma slotOf_ne t k i j : length t = N.to_nat (2 ^ k) → i < j < i + 2 ^ k → slotOf t i ≠ slotOf t j.
Proof.
  intros Ht [Hi Hj]. unfold slotOf. rewrite Ht, N2Nat.id.
  replace (2 ^ k - 1) with (N.ones k) by (rewrite N.ones_equiv; lia).
  rewrite !N.land_ones, N2Nat.inj_iff. pose proof (N.pow_nonzero 2 k ltac:(done)) as Hk.
  pose proof (N.div_mod i _ Hk). pose proof (N.div_mod j _ Hk). intros E.
  assert (j / 2 ^ k ≠ i / 2 ^ k) by (intros E'; rewrite E', E in *; lia).
  assert (i / 2 ^ k ≤ j / 2 ^ k) by (apply N.Div0.div_le_mono; lia).
  assert (2 ^ k * (i / 2 ^ k + 1) ≤ 2 ^ k * (j / 2 ^ k)) by (apply N.mul_le_mono_l; lia). lia.
Qed.

(** What a buffered request waits as. *)
Definition pending_of (b : Buffered) : Pending := mkPending (bf_from b) (bf_clientId b) (bf_seqNo b).

Definition puts (first : LogIndex) (bs : list Buffered) (t : PendingTable) : PendingTable :=
  foldl (λ t '(i, b), put (first + i) (mkPending (bf_from b) (bf_clientId b) (bf_seqNo b)) t)
    t (imap (λ i b, (N.of_nat i, b)) bs).

Lemma puts_snoc first bs b t :
  puts first (bs ++ [b]) t = put (first + N.of_nat (length bs)) (pending_of b) (puts first bs t).
Proof. unfold puts. rewrite imap_app, foldl_app. cbn. by rewrite Nat.add_0_r. Qed.

Lemma length_puts first bs t : length (puts first bs t) = length t.
Proof. induction bs as [|b bs IH] using rev_ind; [done|]. by rewrite puts_snoc, length_put. Qed.

(** A batch no larger than the table is found in it, each request at its index. *)
Lemma take_puts first bs t k i b : length t = N.to_nat (2 ^ k) → (length bs ≤ length t)%nat → bs !! i = Some b →
  ∃ t', take_ (first + N.of_nat i) (puts first bs t) = Some (pending_of b, t').
Proof.
  intros Ht. induction bs as [|b' bs IH] using rev_ind; intros Hl Hi; [done|].
  rewrite length_app in Hl. cbn in Hl. rewrite puts_snoc.
  apply lookup_app_Some in Hi as [Hi|[Hge Hi]].
  - pose proof (lookup_lt_Some _ _ _ Hi). destruct (IH ltac:(lia) Hi) as [t' Et].
    rewrite take_put_ne, Et by (apply (slotOf_ne _ k); [by rewrite length_puts|lia]). by eexists.
  - apply list_lookup_singleton_Some in Hi as [Hz ->]. replace i with (length bs) by lia.
    destruct (take_put (first + N.of_nat (length bs)) (pending_of b) (puts first bs t)) as (t'&E&_);
      [rewrite length_puts; lia|]. by exists t'.
Qed.

(** The requests a table may answer. *)
Definition waiting (t : PendingTable) (p : Pending) : Prop :=
  ∃ s, s ∈ t ∧ sl_used s = true ∧ sl_p s = p.

Lemma waiting_put i p t q : waiting (put i p t) q → q = p ∨ waiting t q.
Proof.
  intros (s & Hin & Hu & <-). apply list_elem_of_lookup in Hin as [k Hk].
  unfold put in Hk. apply list_lookup_insert_Some in Hk as [(_ & <- & _)|[_ Hk]]; [by left|].
  right. exists s. split; [|done]. by eapply list_elem_of_lookup_2.
Qed.

Lemma take_waiting i t p t' :
  take_ i t = Some (p, t') → waiting t p ∧ ∀ q, waiting t' q → waiting t q.
Proof.
  unfold take_. destruct (t !! slotOf t i) as [s|] eqn:Es; [|done].
  destruct (sl_used s) eqn:Eu; cbn; [|done]. destruct (negb _); [done|]. intros [= <- <-]. split.
  - exists s. split; [|done]. by eapply list_elem_of_lookup_2.
  - intros q (s' & Hin & Hu & <-). apply list_elem_of_lookup in Hin as [k Hk].
    apply list_lookup_insert_Some in Hk as [(_ & <- & _)|[_ Hk]]; [done|].
    exists s'. split; [|done]. by eapply list_elem_of_lookup_2.
Qed.

(** ** Replies *)

Section Replies.
Context {P L SM R K : Type}.
Context `{!PersistentState P} `{!RaftLog L} `{!StateMachine SM} `{!Rng R} `{!ApplySink K}.

Local Abbreviation Core := (@RaftCore P L SM R K).

(** What happens to the service, in order.  The core of each call is arbitrary. *)
Inductive SvcEvent :=
| OnRequest (now : TimePoint) (from : NodeId) (req : ClientRequest) (c : Core)
| OnFlush (now : TimePoint) (c : Core)
| OnApplied (index : LogIndex) (entry : LogEntry) (result : list byte).

Definition svc_step (self : NodeId) (s : ClientService) (ev : SvcEvent) : ClientService :=
  match ev with
  | OnRequest now from req c => (onClientRequest now from req s c).1
  | OnFlush now c => (flushIfDue now s c).1.2
  | OnApplied index entry result => onApplied self index entry result s
  end.

Definition svc_run (self : NodeId) (b : Batching) (evs : list SvcEvent) : ClientService :=
  foldl (svc_step self) (ClientService_new b) evs.

(** [from] asked for [(clientId, seqNo)]. *)
Definition asked (evs : list SvcEvent) (from : NodeId) (cl sq : N) : Prop :=
  ∃ now req c, OnRequest now from req c ∈ evs ∧ cr_clientId req = cl ∧ cr_seqNo req = sq.

(** Some index was applied with [result], by an entry with that identity. *)
Definition executedAs (evs : list SvcEvent) (cl sq : N) (result : list byte) : Prop :=
  ∃ index entry, OnApplied index entry result ∈ evs ∧ decodePrefix (e_command entry) = Some (cl, sq).

Record svc_ok (evs : list SvcEvent) (s : ClientService) : Prop := {
  svc_pending : ∀ p, waiting (pending_ s) p → asked evs (p_replyTo p) (p_clientId p) (p_seqNo p);
  svc_buffer : ∀ b, b ∈ buffer_ s → asked evs (bf_from b) (bf_clientId b) (bf_seqNo b);
  svc_replies : ∀ to r, (to, r) ∈ sent_ s → crp_status r = CsOk →
    ∃ cl sq, asked evs to cl sq ∧ executedAs evs cl sq (crp_result r);
}.

Lemma asked_mono evs ev from cl sq : asked evs from cl sq → asked (evs ++ [ev]) from cl sq.
Proof. intros (now & req & c & ? & ? & ?). exists now, req, c. set_solver. Qed.

Lemma executedAs_mono evs ev cl sq res :
  executedAs evs cl sq res → executedAs (evs ++ [ev]) cl sq res.
Proof. intros (i & e & ? & ?). exists i, e. set_solver. Qed.

Lemma svc_ok_mono evs ev s : svc_ok evs s → svc_ok (evs ++ [ev]) s.
Proof.
  intros [Hp Hb Hr]. split.
  - intros p Hw. by apply asked_mono, Hp.
  - intros b Hin. by apply asked_mono, Hb.
  - intros to r Hin Hok. destruct (Hr to r Hin Hok) as (cl & sq & ? & ?). exists cl, sq.
    split; [by apply asked_mono|by apply executedAs_mono].
Qed.

Lemma svc_ok_reply evs s to r :
  svc_ok evs s →
  (crp_status r = CsOk → ∃ cl sq, asked evs to cl sq ∧ executedAs evs cl sq (crp_result r)) →
  svc_ok evs (reply to r s).
Proof.
  intros [Hp Hb Hr] Hnew. split; [done..|]. cbn.
  intros to' r' [Hin|[= -> ->]%list_elem_of_singleton]%elem_of_app; [by apply Hr|done].
Qed.

Lemma svc_ok_put evs s i p :
  svc_ok evs s → asked evs (p_replyTo p) (p_clientId p) (p_seqNo p) →
  svc_ok evs (set_pending (put i p (pending_ s)) s).
Proof.
  intros [Hp Hb Hr] Ha. split; [|done..]. cbn.
  intros q [->|Hq]%waiting_put; [done|by apply Hp].
Qed.

(** Changing the fields the invariant does not read. *)
Lemma svc_ok_fields evs s s' :
  svc_ok evs s → pending_ s' = pending_ s → buffer_ s' ⊆ buffer_ s → sent_ s' = sent_ s →
  svc_ok evs s'.
Proof.
  intros [Hp Hb Hr] Ep Eb Es. split; rewrite ?Ep, ?Es; [done| |done].
  intros b Hin. by apply Hb, Eb.
Qed.

Lemma flushBatch_ok evs now s (c : Core) : svc_ok evs s → svc_ok evs (flushBatch now s c).1.
Proof.
  intros Hs. unfold flushBatch. destruct (buffer_ s) as [|b0 bs0] eqn:Eb; [done|].
  rewrite <-Eb. destruct (proposeBatch _ _ c) as [[first|] c'].
  - set (l := imap _ _).
    assert (Hl : ∀ i b, (i, b) ∈ l → b ∈ buffer_ s).
    { intros i b Hin. subst l. apply elem_of_lookup_imap in Hin as (k & b' & [= -> ->] & Hk).
      by eapply list_elem_of_lookup_2. }
    assert (Ht : svc_ok evs (set_pending (foldl (λ t '(i, b), put (first + i)
      (mkPending (bf_from b) (bf_clientId b) (bf_seqNo b)) t) (pending_ s) l) s)).
    { clear -Hs Hl. revert Hl. induction l as [|[i b] l IH] using rev_ind; intros Hl; [by destruct s|].
      rewrite foldl_app. cbn. specialize (IH ltac:(intros i' b' ?; apply (Hl i'); set_solver)).
      apply (svc_ok_put _ _ (first + i) (mkPending (bf_from b) (bf_clientId b) (bf_seqNo b))) in IH.
      - done.
      - cbn. eapply svc_buffer; [exact Hs|]. apply (Hl i). set_solver. }
    eapply svc_ok_fields; [exact Ht|done| |done]. cbn. set_solver.
  - cbn. set (hint := default 0 (leaderId_ c')).
    assert (Ht : ∀ l, svc_ok evs (foldl (λ s b, reply (bf_from b) (mkClientReply CsNotLeader hint []) s) s l)).
    { induction l as [|b l IH] using rev_ind; [done|]. rewrite foldl_app. cbn.
      by apply svc_ok_reply. }
    eapply svc_ok_fields; [apply (Ht (buffer_ s))|done| |done]. cbn. set_solver.
Qed.

Lemma svc_step_ok evs self s ev : svc_ok evs s → svc_ok (evs ++ [ev]) (svc_step self s ev).
Proof.
  intros Hs. destruct ev as [now from req c|now c|index entry result]; cbn.
  - apply (svc_ok_mono _ (OnRequest now from req c)) in Hs.
    assert (Ha : asked (evs ++ [OnRequest now from req c]) from (cr_clientId req) (cr_seqNo req)).
    { exists now, req, c. set_solver. }
    set (evs' := evs ++ _) in *. unfold onClientRequest. set (s0 := mkClientService _ _ _ _ _ _ _ _).
    assert (Hs0 : svc_ok evs' s0) by (by eapply svc_ok_fields).
    case_bool_decide; [by apply svc_ok_reply|]. destruct (negb _); [by apply svc_ok_reply|].
    destruct (1 <? _)%nat.
    + set (s1 := mkClientService _ _ _ (_ ++ _) _ _ _ _).
      assert (Hs1 : svc_ok evs' s1).
      { destruct Hs0 as [Hp Hb Hr]. split; [done| |done]. cbn.
        intros b [Hin| ->%list_elem_of_singleton]%elem_of_app; [by apply Hb|done]. }
      destruct (_ <=? _)%nat; [by apply flushBatch_ok|done].
    + destruct (propose now (cr_command req) c) as [[i|] c']; [|by apply svc_ok_reply].
      by apply (svc_ok_put _ s0).
  - apply (svc_ok_mono _ (OnFlush now c)) in Hs. unfold flushIfDue.
    destruct (buffer_ s) as [|b0 bs0] eqn:Eb; [done|]. set (s1 := if negb _ then _ else _).
    assert (Hs1 : svc_ok (evs ++ [OnFlush now c]) s1).
    { subst s1. destruct (negb _); [|done]. eapply svc_ok_fields; [exact Hs|done| |done].
      cbn. rewrite Eb. set_solver. }
    destruct (_ <=? _); [|done]. pose proof (flushBatch_ok _ now s1 c Hs1) as Hf.
    by destruct (flushBatch now s1 c).
  - apply (svc_ok_mono _ (OnApplied index entry result)) in Hs. unfold onApplied.
    destruct (take_ index (pending_ s)) as [[p t]|] eqn:Et; [|done].
    apply take_waiting in Et as [Hw Hsub].
    assert (Hs1 : svc_ok (evs ++ [OnApplied index entry result]) (set_pending t s)).
    { destruct Hs as [Hp Hb Hr]. split; [|done..]. intros q Hq. by apply Hp, Hsub. }
    destruct (negb _) eqn:Esame; [by apply svc_ok_reply|].
    apply svc_ok_reply; [by eapply svc_ok_fields|]. intros _. cbn.
    exists (p_clientId p), (p_seqNo p). split; [by apply (svc_pending _ _ Hs)|].
    exists index, entry. split; [set_solver|].
    destruct (decodePrefix (e_command entry)) as [[cl sq]|]; [|done].
    apply negb_false_iff, andb_true_iff in Esame as [->%N.eqb_eq ->%N.eqb_eq]. done.
Qed.

Lemma svc_run_ok self b evs : svc_ok evs (svc_run self b evs).
Proof.
  unfold svc_run. induction evs as [|ev evs IH] using rev_ind.
  - split; cbn; [|by intros ? ?%not_elem_of_nil|by intros ? ? ?%not_elem_of_nil].
    intros p (s & Hin & Hu & _). unfold PendingTable_new in Hin.
    apply elem_of_replicate in Hin as [-> _]. done.
  - rewrite foldl_app. by apply svc_step_ok.
Qed.

(** C16: a client gets its own result.  Over any sequence of requests, flushes and
    applies at a node - with whatever leadership changes in between - every OK
    reply goes to a client that asked for some [(clientId, seqNo)], and carries
    the state machine's result for an applied entry with that very identity. *)
Theorem ok_reply_sound self b evs to r :
  (to, r) ∈ sent_ (svc_run self b evs) → crp_status r = CsOk →
  ∃ cl sq, asked evs to cl sq ∧ executedAs evs cl sq (crp_result r).
Proof. apply svc_replies, svc_run_ok. Qed.

(** ** Group commit *)

Definition handle_all (now : TimePoint) (reqs : list (NodeId * ClientRequest))
    (s : ClientService) (c : Core) : ClientService * Core :=
  foldl (λ sc fr, onClientRequest now fr.1 fr.2 sc.1 sc.2) (s, c) reqs.

(** The embedded identity agrees with the wire one. *)
Definition request_ok (fr : NodeId * ClientRequest) : Prop :=
  decodePrefix (cr_command fr.2) = Some (cr_clientId fr.2, cr_seqNo fr.2).

Definition pending_for (fr : NodeId * ClientRequest) : Pending :=
  mkPending fr.1 (cr_clientId fr.2) (cr_seqNo fr.2).

(** The table after requests were given consecutive indices from [first]. *)
Fixpoint put_all (first : LogIndex) (reqs : list (NodeId * ClientRequest)) (t : PendingTable) :
    PendingTable :=
  match reqs with
  | [] => t
  | fr :: reqs => put_all (first + 1) reqs (put first (pending_for fr) t)
  end.

Context `{!RaftLogLaws L}.

Lemma handle_each now reqs s (c : Core) :
  role_ c = Leader → (maxBatch (batching_ s) ≤ 1)%nat → Forall request_ok reqs →
  let '(s', c') := handle_all now reqs s c in
  log_entries (log_ c') =
    log_entries (log_ c) ++ ((λ fr, mkLogEntry (currentTerm c) (cr_command fr.2)) <$> reqs) ∧
  persist_ c' = persist_ c ∧ sent_ s' = sent_ s ∧ buffer_ s' = buffer_ s ∧
  pending_ s' = put_all (log_lastIndex (log_ c) + 1) reqs (pending_ s).
Proof.
  revert s c. induction reqs as [|[from req] reqs IH]; intros s c Hr Hb Hok; cbn.
  { by rewrite app_nil_r. }
  apply Forall_cons in Hok as [Hreq Hok]. unfold request_ok in Hreq. cbn in Hreq.
  unfold handle_all. cbn [foldl fst snd]. unfold onClientRequest at 2.
  rewrite bool_decide_eq_false_2 by (by intros []). rewrite Hreq, !N.eqb_refl. cbn [andb negb].
  cbn [batching_]. rewrite (proj2 (Nat.ltb_ge _ _)) by done.
  destruct (propose_same now (cr_command req) c Hr) as (Hi&Hl&Hp&Hrole&_).
  destruct (propose now (cr_command req) c) as [i c1]. cbn [fst snd] in *. subst i.
  cbn [log_ persist_ role_ set_log set_heartbeatDeadline] in *.
  set (s1 := set_pending _ _). specialize (IH s1 c1 ltac:(congruence) Hb Hok).
  unfold handle_all in IH. destruct (foldl _ (s1, c1) reqs) as [s' c'].
  destruct IH as (El & Ep & Es & Ebf & Et). unfold currentTerm in *. rewrite El, Ep, Es, Ebf, Et.
  rewrite Hl, Hp, append_law, !lastIndex_law, append_law. unfold InMemoryLog_append.
  rewrite <-app_assoc. split_and!; try done. unfold InMemoryLog_lastIndex.
  rewrite length_app. cbn. rewrite lastIndex_law. unfold InMemoryLog_lastIndex. f_equal. lia.
Qed.

Definition buffered_for (fr : NodeId * ClientRequest) : Buffered :=
  mkBuffered fr.1 (cr_clientId fr.2) (cr_seqNo fr.2) (cr_command fr.2).

(** Requests that do not fill the batch only join the buffer. *)
Lemma handle_buffering now reqs s (c : Core) :
  role_ c = Leader → Forall request_ok reqs → (1 < maxBatch (batching_ s))%nat →
  (length (buffer_ s) + length reqs < maxBatch (batching_ s))%nat →
  let '(s', c') := handle_all now reqs s c in
  c' = c ∧ buffer_ s' = buffer_ s ++ (buffered_for <$> reqs) ∧ batching_ s' = batching_ s ∧
  pending_ s' = pending_ s ∧ sent_ s' = sent_ s.
Proof.
  revert s. induction reqs as [|[from req] reqs IH]; intros s Hr Hok H1 Hlen; cbn.
  { by rewrite app_nil_r. }
  apply Forall_cons in Hok as [Hreq Hok]. unfold request_ok in Hreq. cbn in Hreq, Hlen.
  unfold handle_all. cbn [foldl fst snd]. unfold onClientRequest at 2.
  rewrite bool_decide_eq_false_2 by (by intros []). rewrite Hreq, !N.eqb_refl. cbn [andb negb].
  cbn [batching_ buffer_]. rewrite (proj2 (Nat.ltb_lt _ _)) by done.
  rewrite (proj2 (Nat.leb_gt _ _)) by (rewrite length_app; cbn; lia).
  set (s1 := mkClientService _ _ _ _ _ _ _ _).
  specialize (IH s1 Hr Hok H1). unfold handle_all in IH. cbn [buffer_ s1 batching_] in IH.
  rewrite length_app in IH. cbn [length] in IH. specialize (IH ltac:(lia)).
  destruct (foldl _ (s1, c) reqs) as [s' c']. destruct IH as (-> & -> & -> & -> & ->).
  by rewrite <-app_assoc.
Qed.

Lemma put_all_imap first reqs t :
  foldl (λ t '(i, b), put (first + i) (mkPending (bf_from b) (bf_clientId b) (bf_seqNo b)) t)
    t (imap (λ i b, (N.of_nat i, b)) (buffered_for <$> reqs)) = put_all first reqs t.
Proof.
  assert (H : ∀ k, foldl (λ t '(i, b), put (first + i) (mkPending (bf_from b) (bf_clientId b)
      (bf_seqNo b)) t) t (imap (λ i b, (N.of_nat (k + i), b)) (buffered_for <$> reqs)) =
    put_all (first + N.of_nat k) reqs t); [|specialize (H 0%nat); by rewrite N.add_0_r in H].
  revert t. induction reqs as [|fr reqs IH]; intros t k; [done|].
  cbn [fmap list_fmap put_all]. rewrite imap_cons. cbn [foldl]. rewrite Nat.add_0_r.
  replace (first + N.of_nat k + 1) with (first + N.of_nat (S k)) by lia. rewrite <-IH.
  f_equal. apply imap_ext. intros i b _. cbn. f_equal. lia.
Qed.

(** C17: batching changes when, not what.  A full batch of valid requests handled
    by a leader with group commit leaves the same log, term and vote, the same
    clients waiting for the same indices and the same replies as handling the
    requests one at a time. *)
Theorem batching_equiv now reqs l s1 s2 (c : Core) :
  role_ c = Leader → Forall request_ok reqs → (2 ≤ length reqs)%nat →
  batching_ s1 = mkBatching 1 l → batching_ s2 = mkBatching (length reqs) l →
  buffer_ s1 = [] → buffer_ s2 = [] → pending_ s1 = pending_ s2 → sent_ s1 = sent_ s2 →
  let '(s1', c1) := handle_all now reqs s1 c in
  let '(s2', c2) := handle_all now reqs s2 c in
  log_entries (log_ c1) = log_entries (log_ c2) ∧ persist_ c1 = persist_ c2 ∧
  pending_ s1' = pending_ s2' ∧ sent_ s1' = sent_ s2' ∧ buffer_ s1' = buffer_ s2'.
Proof.
  intros Hr Hok Hlen B1 B2 F1 F2 Ep Es.
  pose proof (handle_each now reqs s1 c Hr ltac:(rewrite B1; done) Hok) as HA.
  destruct (handle_all now reqs s1 c) as [s1' c1]. destruct HA as (El & Epe & Esn & Ebf & Et).
  destruct reqs as [|fr reqs _] using rev_ind; [cbn in Hlen; lia|].
  apply Forall_app in Hok as [Hok [Hreq _]%Forall_cons]. rewrite length_app in Hlen, B2. cbn in Hlen, B2.
  pose proof (handle_buffering now reqs s2 c Hr Hok) as HB. rewrite B2, F2 in HB.
  cbn [maxBatch length] in HB. specialize (HB ltac:(lia) ltac:(lia)).
  unfold handle_all in *. rewrite foldl_app. cbn [foldl].
  destruct (foldl _ (s2, c) reqs) as [s2' c2]. destruct HB as (-> & Eb2 & Eb2' & Ep2 & Es2).
  cbn [fst snd]. unfold request_ok in Hreq. unfold onClientRequest.
  rewrite bool_decide_eq_false_2 by (by intros []). rewrite Hreq, !N.eqb_refl. cbn [andb negb].
  cbn [batching_ buffer_]. rewrite Eb2', Eb2. cbn [maxBatch app].
  rewrite (proj2 (Nat.ltb_lt _ _)) by lia.
  rewrite (proj2 (Nat.leb_le _ _)) by (rewrite length_app, length_fmap; cbn; lia).
  fold (buffered_for fr). unfold flushBatch. cbn [buffer_ pending_ sent_].
  replace ((buffered_for <$> reqs) ++ [buffered_for fr]) with (buffered_for <$> reqs ++ [fr])
    by (by rewrite fmap_app).
  set (all := reqs ++ [fr]) in *.
  destruct (buffered_for <$> all) as [|b0 bs0] eqn:E0; [by destruct reqs|]. rewrite <-E0.
  rewrite <-list_fmap_compose.
  destruct (proposeBatch_spec now (bf_command ∘ buffered_for <$> all) c Hr) as (Hf & Hl & Hp);
    [by destruct reqs|].
  destruct (proposeBatch _ _ c) as [first c3]. cbn [fst snd] in *. subst first. cbn.
  rewrite put_all_imap, El, Hl, Epe, Hp, Et, Ep2, Ep, Esn, Es, Es2, Ebf, F1. split_and!; try done.
  by rewrite <-list_fmap_compose.
Qed.

End Replies.

(** ** Samples *)

Module ServiceSample.

Import RaftNode.Sample.

Definition cmd (seq : N) : list byte := le_bytes 8 7 ++ le_bytes 8 seq ++ [x2a].
Definition req (seq : N) : ClientRequest := mkClientRequest 7 seq (cmd seq).

Definition history : list SvcEvent :=
  [OnRequest 0 100 (req 1) (sample_core Leader); OnApplied 3 (mkLogEntry 2 (cmd 1)) [x4f]].

(** Client 100 asks, the entry is applied, and the result comes back. *)
Lemma ok_reply_sound_witness :
  ∃ cl sq, asked history 100 cl sq ∧ executedAs history cl sq [x4f].
Proof.
  apply (ok_reply_sound 1 (mkBatching 1 0) history 100 (mkClientReply CsOk 1 [x4f]));
    [|done]. apply (bool_decide_unpack _). by vm_compute.
Defined.

Definition reqs : list (NodeId * ClientRequest) := [(100, req 1); (101, req 2); (100, req 3)].

Lemma batching_equiv_witness :
  log_entries (log_ (handle_all 0 reqs (ClientService_new (mkBatching 1 5)) (sample_core Leader)).2) =
  log_entries (log_ (handle_all 0 reqs (ClientService_new (mkBatching 3 5)) (sample_core Leader)).2).
Proof.
  pose proof (batching_equiv 0 reqs 5 (ClientService_new (mkBatching 1 5))
    (ClientService_new (mkBatching 3 5)) (sample_core Leader)) as H.
  destruct (handle_all 0 reqs (ClientService_new (mkBatching 1 5)) (sample_core Leader)).
  destruct (handle_all 0 reqs (ClientService_new (mkBatching 3 5)) (sample_core Leader)).
  apply H; try done; [|cbn; lia]. repeat constructor; by vm_compute.
Defined.

End ServiceSample.
