(* ===== verification/KvClient.v ===== *)
(** * src/client/kv_client.h, kv_client.cpp: the blocking client

    The operating system is a parameter: its state, the system calls of
    [attempt] with the outcomes the code distinguishes, and the clock.  Loops
    whose length is up to the system take fuel; [call_terminates] bounds it.
    [None] also stands for [servers_] being empty, where the code divides by
    zero. *)

From Stdlib Require Import NArith Strings.Byte Lia.
From S2P Require Import Prelude Messages Codec Log Frame Transport RaftCore OrdMap KvStore OrderBook ClientService.

Local Open Scope N_scope.

Definition kBackoffMs : N := 25.

(** [inet_pton], [socket] and [connect]. *)
Inductive ConnectResult := BadHost | NoSocket | Refused (fd : Fd) | Connected (fd : Fd).
Inductive PollResult := PollReady | PollEintr | PollExpired.      (* timeout or error *)

Inductive ClientRead := ReadBytes (data : list byte) | ReadInterrupted | ReadEnd.   (* EOF or error *)

Record Result := mkResult { res_statusByte : byte; res_value : list byte }.

Section KvClient.
Context {W Addr : Type}.
Context (os_connect : Addr → W → ConnectResult * W).
Context (os_send : Fd → list byte → W → SendResult * W).
Context (os_poll : Fd → N → W → PollResult * W).
Context (os_read : Fd → W → ClientRead * W).
Context (os_close : Fd → W → W).
Context (os_now : W → N).              (* nanoseconds *)
Context (os_sleep : N → W → W).        (* milliseconds *)

Record KvClient := mkKvClient {
  servers_ : list (NodeId * Addr);
  clientId_ : N;
  clientNodeId_ : NodeId;
  timeoutMs_ : N;
  maxAttempts_ : nat;
  seqNo_ : N;
  preferred_ : NodeId;
  rotation_ : N;
  lastCommand_ : Command;
  fd_ : option Fd;                     (* [None] is -1 *)
  connectedTo_ : NodeId;
  decoded_ : DecodedMessage;
  decodePool_ : DecodePool;
}.

(** [servers] is an ordered map; the vector keeps its order. *)
Definition KvClient_new (servers : list (NodeId * Addr)) (clientId : N) (clientNodeId : NodeId)
    (perAttemptTimeoutMs : N) (maxAttempts : nat) : KvClient :=
  mkKvClient servers clientId clientNodeId perAttemptTimeoutMs maxAttempts 0 0 0 [] None 0
    emptyDecoded (mkPool [] []).

Definition set_conn (fd : option Fd) (to : NodeId) (c : KvClient) : KvClient :=
  mkKvClient (servers_ c) (clientId_ c) (clientNodeId_ c) (timeoutMs_ c) (maxAttempts_ c) (seqNo_ c)
    (preferred_ c) (rotation_ c) (lastCommand_ c) fd to (decoded_ c) (decodePool_ c).

Definition set_decoded (d : DecodedMessage) (p : DecodePool) (c : KvClient) : KvClient :=
  mkKvClient (servers_ c) (clientId_ c) (clientNodeId_ c) (timeoutMs_ c) (maxAttempts_ c) (seqNo_ c)
    (preferred_ c) (rotation_ c) (lastCommand_ c) (fd_ c) (connectedTo_ c) d p.

Definition set_route (preferred : NodeId) (rotation : N) (c : KvClient) : KvClient :=
  mkKvClient (servers_ c) (clientId_ c) (clientNodeId_ c) (timeoutMs_ c) (maxAttempts_ c) (seqNo_ c)
    preferred rotation (lastCommand_ c) (fd_ c) (connectedTo_ c) (decoded_ c) (decodePool_ c).

Definition set_request (seqNo : N) (command : Command) (c : KvClient) : KvClient :=
  mkKvClient (servers_ c) (clientId_ c) (clientNodeId_ c) (timeoutMs_ c) (maxAttempts_ c) seqNo
    (preferred_ c) (rotation_ c) command (fd_ c) (connectedTo_ c) (decoded_ c) (decodePool_ c).

Definition setPreferredNode (id : NodeId) (c : KvClient) : KvClient := set_route id (rotation_ c) c.

Definition dropConnection (c : KvClient) (w : W) : KvClient * W :=
  (set_conn None 0 c, match fd_ c with Some fd => os_close fd w | None => w end).

(** [attempt] up to the connection: false when there is none. *)
Definition ensureConnected (serverId : NodeId) (addr : Addr) (c : KvClient) (w : W) : bool * KvClient * W :=
  let '(c, w) := match fd_ c with
                 | Some _ => if negb (connectedTo_ c =? serverId) then dropConnection c w else (c, w)
                 | None => (c, w)
                 end in
  match fd_ c with
  | Some _ => (true, c, w)
  | None =>
      match os_connect addr w with
      | (BadHost, w) => (false, c, w)
      | (NoSocket, w) => (false, c, w)
      | (Refused fd, w) =>
          let '(c, w) := dropConnection (set_conn (Some fd) (connectedTo_ c) c) w in (false, c, w)
      | (Connected fd, w) => (true, set_conn (Some fd) serverId c, w)
      end
  end.

(** The frame callback: (gotReply, bad) and the decode slot. *)
Definition onReplyFrame (st : bool * bool * DecodedMessage * DecodePool) (body : list byte) :
    bool * bool * DecodedMessage * DecodePool :=
  let '(gotReply, bad, decoded, pool) := st in
  if gotReply then st
  else
    let '(ok, decoded, pool) := decodeMessageInto body decoded pool in
    if negb ok then (gotReply, true, decoded, pool)
    else (match dm_message decoded with MClientReply _ => true | _ => gotReply end, bad, decoded, pool).

(** The loop that awaits the reply on [fd]. *)
Fixpoint awaitReply (fuel : nat) (fd : Fd) (deadline : N) (asm : FrameAssembler) (c : KvClient) (w : W) :
    option (bool * KvClient * W) :=
  match fuel with
  | O => None
  | S fuel =>
      let left := (deadline - os_now w) / 1000000 in
      let failed w := let '(c, w) := dropConnection c w in Some (false, c, w) in
      if left =? 0 then failed w
      else
        match os_poll fd left w with
        | (PollEintr, w) => awaitReply fuel fd deadline asm c w
        | (PollExpired, w) => failed w
        | (PollReady, w) =>
            match os_read fd w with
            | (ReadInterrupted, w) => awaitReply fuel fd deadline asm c w
            | (ReadEnd, w) => failed w
            | (ReadBytes data, w) =>
                let '(fed, frames, asm) := feed data asm in
                let '(gotReply, bad, decoded, pool) :=
                  foldl onReplyFrame (false, false, decoded_ c, decodePool_ c) frames in
                let c := set_decoded decoded pool c in
                if negb fed || bad then let '(c, w) := dropConnection c w in Some (false, c, w)
                else if gotReply then Some (true, c, w)
                else awaitReply fuel fd deadline asm c w
            end
        end
  end.

(** [attempt]; [fs] and [fr] bound the send and the receive loop. *)
Definition attempt (fs fr : nat) (serverId : NodeId) (addr : Addr) (command : Command) (c : KvClient) (w : W) :
    option (bool * KvClient * W) :=
  let '(ok, c, w) := ensureConnected serverId addr c w in
  if negb ok then Some (false, c, w)
  else
    match fd_ c with
    | None => Some (false, c, w)
    | Some fd =>
        let req := MClientRequest (mkClientRequest (clientId_ c) (seqNo_ c) command) in
        match frameFor (clientNodeId_ c) serverId req with
        | None => Some (false, c, w)
        | Some frame =>
            '(sent, w) ← writeLoop os_send fs fd frame 0 w;
            if negb sent then let '(c, w) := dropConnection c w in Some (false, c, w)
            else awaitReply fr fd (os_now w + timeoutMs_ c * 1000000) FrameAssembler_init c w
        end
    end.

(** Index of the first server with that id. *)
Definition serverIndex (id : NodeId) (servers : list (NodeId * Addr)) : option nat :=
  fst <$> list_find (λ s, s.1 = id) servers.

Definition chooseServer (c : KvClient) : nat :=
  let idx := N.to_nat (rotation_ c mod N.of_nat (length (servers_ c))) in
  if negb (preferred_ c =? 0) then default idx (serverIndex (preferred_ c) (servers_ c)) else idx.

Fixpoint callLoop (fs fr tries : nat) (command : Command) (c : KvClient) (w : W) :
    option (option Result * KvClient * W) :=
  match tries with
  | O => Some (None, c, w)
  | S tries =>
      let idx := chooseServer c in
      '(serverId, addr) ← servers_ c !! idx;
      '(ok, c, w) ← attempt fs fr serverId addr command c w;
      let reply := if ok : bool then match dm_message (decoded_ c) with
                                      | MClientReply r => Some r | _ => None end
                   else None in
      let retry :=
        let c := set_route 0 (N.of_nat (S idx)) c in
        callLoop fs fr tries command c (os_sleep kBackoffMs w) in
      match reply with
      | Some r =>
          match crp_status r with
          | CsOk =>
              match crp_result r with
              | [] => Some (Some (mkResult x00 []), c, w)
              | st :: value => Some (Some (mkResult st value), set_route serverId (rotation_ c) c, w)
              end
          | CsNotLeader =>
              if negb (crp_leaderHint r =? 0) && negb (crp_leaderHint r =? serverId)
              then callLoop fs fr tries command (set_route (crp_leaderHint r) (rotation_ c) c) w
              else retry
          | _ => retry
          end
      | None => retry
      end
  end.

Definition call (fs fr : nat) (command : Command) (c : KvClient) (w : W) :
    option (option Result * KvClient * W) :=
  let c := set_request (seqNo_ c) command c in
  callLoop fs fr (maxAttempts_ c) command c w.

(** A new logical request: the next sequence number goes into the command. *)
Definition request (fs fr : nat) (command : N → N → Command) (c : KvClient) (w : W) :
    option (option Result * KvClient * W) :=
  let c := set_request (add64 (seqNo_ c) 1) (lastCommand_ c) c in
  call fs fr (command (clientId_ c) (seqNo_ c)) c w.

Definition kv_put fs fr (key value : list byte) :=
  request fs fr (λ cl sq, encodeKvCommand (mkKvCommand cl sq Put key value [])).
Definition kv_get fs fr (key : list byte) :=
  request fs fr (λ cl sq, encodeKvCommand (mkKvCommand cl sq Get key [] [])).
Definition kv_del fs fr (key : list byte) :=
  request fs fr (λ cl sq, encodeKvCommand (mkKvCommand cl sq Delete key [] [])).
Definition kv_cas fs fr (key expected desired : list byte) :=
  request fs fr (λ cl sq, encodeKvCommand (mkKvCommand cl sq Cas key expected desired)).
Definition kv_append fs fr (key suffix : list byte) :=
  request fs fr (λ cl sq, encodeKvCommand (mkKvCommand cl sq Append key suffix [])).
Definition obNew fs fr (side : ObSide) (price qty : N) :=
  request fs fr (λ cl sq, encodeObNew cl sq side price qty).
Definition obCancel fs fr (orderId : N) := request fs fr (λ cl sq, encodeObCancel cl sq orderId).
Definition obAmend fs fr (orderId newPrice newQty : N) :=
  request fs fr (λ cl sq, encodeObAmend cl sq orderId newPrice newQty).

Definition resendLast (fs fr : nat) (c : KvClient) (w : W) : option (option Result * KvClient * W) :=
  call fs fr (lastCommand_ c) c w.

(** ** Termination and results *)

(** What is asked of the system.  Signals that interrupt a call, and bytes the
    servers have sent or will still send on the client's connections, are finite in
    number.  A [send] of a non-empty buffer that succeeds takes at least a byte; a
    [read] that returns data returns at least a byte, and takes it off the connection;
    the clock does not go back. *)
Context (interrupts arrivals : W → nat).

Definition onwards (w w' : W) : Prop :=
  (interrupts w' ≤ interrupts w)%nat ∧ (arrivals w' ≤ arrivals w)%nat ∧ os_now w ≤ os_now w'.

Record os_laws : Prop := {
  law_connect addr w : onwards w (os_connect addr w).2;
  law_send fd d w : d ≠ [] → onwards w (os_send fd d w).2 ∧
    match os_send fd d w with
    | (SendOk n, _) => (1 ≤ n)%nat
    | (SendEintr, w') => (interrupts w' < interrupts w)%nat
    | _ => True
    end;
  law_poll fd ms w : onwards w (os_poll fd ms w).2 ∧
    match os_poll fd ms w with
    | (PollEintr, w') => (interrupts w' < interrupts w)%nat
    | _ => True
    end;
  law_read fd w : onwards w (os_read fd w).2 ∧
    match os_read fd w with
    | (ReadBytes data, w') => (1 ≤ length data ∧ length data + arrivals w' ≤ arrivals w)%nat
    | (ReadInterrupted, w') => (interrupts w' < interrupts w)%nat
    | _ => True
    end;
  law_close fd w : onwards w (os_close fd w);
  law_sleep ms w : onwards w (os_sleep ms w);
}.

(** The parts of the client a call does not touch. *)
Definition same_client (c c' : KvClient) : Prop :=
  servers_ c' = servers_ c ∧ clientId_ c' = clientId_ c ∧ clientNodeId_ c' = clientNodeId_ c ∧
  timeoutMs_ c' = timeoutMs_ c ∧ maxAttempts_ c' = maxAttempts_ c ∧ seqNo_ c' = seqNo_ c ∧
  lastCommand_ c' = lastCommand_ c.

Lemma onwards_trans w1 w2 w3 : onwards w1 w2 → onwards w2 w3 → onwards w1 w3.
Proof. intros (?&?&?) (?&?&?). split_and!; lia. Qed.

Lemma same_client_trans c1 c2 c3 : same_client c1 c2 → same_client c2 c3 → same_client c1 c3.
Proof. intros (?&?&?&?&?&?&?) (?&?&?&?&?&?&?). repeat split; congruence. Qed.

Section Laws.
Context (Hos : os_laws).

Lemma dropConnection_spec c w : let '(c', w') := dropConnection c w in
  same_client c c' ∧ onwards w w' ∧ fd_ c' = None.
Proof.
  cbn. split_and!; [done| |done]. destruct (fd_ c); [apply (law_close Hos)|by split_and!].
Qed.

Lemma writeLoop_ends fd data fuel : ∀ sent w, (length data - sent + interrupts w ≤ fuel)%nat →
  ∃ ok w', writeLoop os_send fuel fd data sent w = Some (ok, w') ∧ onwards w w'.
Proof.
  induction fuel as [|fuel IH]; intros sent w Hf; cbn [writeLoop];
    destruct (Nat.ltb_spec sent (length data)) as [Hlt|]; try lia; try (by exists true, w).
  assert (drop sent data ≠ []) as Hne.
  { intros E. apply (f_equal length) in E. rewrite length_drop in E. cbn in E. lia. }
  destruct (law_send Hos fd (drop sent data) w Hne) as [Ho Hr].
  destruct (os_send fd (drop sent data) w) as [[n| |] w1]; cbn [snd] in Ho.
  - destruct (IH (sent + n)%nat w1) as (ok&w'&E&Ho'); [destruct Ho; lia|]. exists ok, w'. split; [done|by eapply onwards_trans].
  - destruct (IH sent w1) as (ok&w'&E&Ho'); [lia|]. exists ok, w'. split; [done|by eapply onwards_trans].
  - by exists false, w1.
Qed.

(** The frames of one read: a reply is there if the callback saw one. *)
Lemma onReplyFrame_reply frames : ∀ st, let st' := foldl onReplyFrame st frames in
  (st.1.1.1 = true → ∃ r, dm_message st.1.2 = MClientReply r) →
  (st'.1.1.1 = true → ∃ r, dm_message st'.1.2 = MClientReply r).
Proof.
  induction frames as [|f frames IH]; intros st; [done|]. cbv zeta. intros H. cbn [foldl]. apply IH.
  destruct st as [[[g b] d] p]. cbn in *. destruct g; [done|].
  destruct (decodeMessageInto f d p) as [[ok d'] p']. destruct ok; cbn; [|done].
  destruct (dm_message d'); try done. by eauto.
Qed.

(** What an exchange leaves: a reply in the slot, or no connection. *)
Definition exchanged (ok : bool) (c : KvClient) : Prop :=
  if ok then ∃ r, dm_message (decoded_ c) = MClientReply r else fd_ c = None.

Lemma awaitReply_ends fd deadline fuel : ∀ asm c w, (interrupts w + arrivals w < fuel)%nat →
  ∃ ok c' w', awaitReply fuel fd deadline asm c w = Some (ok, c', w') ∧
    same_client c c' ∧ onwards w w' ∧ exchanged ok c'.
Proof.
  induction fuel as [|fuel IH]; intros asm c w Hf; [lia|]. cbn [awaitReply].
  pose proof (λ c w, dropConnection_spec c w) as Hdrop.
  destruct (N.eqb_spec ((deadline - os_now w) / 1000000) 0) as [|Hleft].
  { specialize (Hdrop c w). destruct (dropConnection c w) as [c' w']. exists false, c', w'. naive_solver. }
  destruct (law_poll Hos fd ((deadline - os_now w) / 1000000) w) as [Ho Hpoll].
  destruct (os_poll fd _ w) as [[| |] w1]; cbn [snd] in *; pose proof Ho as (Hi&Ha&_).
  - destruct (law_read Hos fd w1) as [Ho1 Hread]. pose proof Ho1 as (Hi1&Ha1&_). destruct (os_read fd w1) as [[data| |] w2]; cbn [snd] in *.
    + destruct (feed data asm) as [[fed frames] asm'].
      pose proof (onReplyFrame_reply frames (false, false, decoded_ c, decodePool_ c) ltac:(done)) as Hreply.
      destruct (foldl onReplyFrame _ frames) as [[[got bad] d] p]. cbn [fst snd] in Hreply.
      destruct (negb fed || bad).
      { specialize (Hdrop (set_decoded d p c) w2). destruct (dropConnection _ w2) as [c' w']. exists false, c', w'.
        destruct Hdrop as (?&?&?). split_and!; [done|done|by eapply onwards_trans; [|eapply onwards_trans]|done]. }
      destruct got.
      { eexists true, _, w2. split_and!; [done|done|by eapply onwards_trans|]. cbn. by apply Hreply. }
      destruct (IH asm' (set_decoded d p c) w2) as (ok&c'&w'&E&Hsc&Ho2&Hex); [lia|].
      exists ok, c', w'. split_and!; [done|done|by eapply onwards_trans; [|eapply onwards_trans]|done].
    + destruct (IH asm c w2) as (ok&c'&w'&E&Hsc&Ho2&Hex); [lia|].
      exists ok, c', w'. split_and!; [done|done|by eapply onwards_trans; [|eapply onwards_trans]|done].
    + specialize (Hdrop c w2). destruct (dropConnection c w2) as [c' w']. destruct Hdrop as (?&?&?).
      exists false, c', w'. split_and!; [done|done|by eapply onwards_trans; [|eapply onwards_trans]|done].
  - destruct (IH asm c w1) as (ok&c'&w'&E&Hsc&Ho2&Hex); [lia|].
    exists ok, c', w'. split_and!; [done|done|by eapply onwards_trans|done].
  - specialize (Hdrop c w1). destruct (dropConnection c w1) as [c' w']. destruct Hdrop as (?&?&?).
    exists false, c', w'. split_and!; [done|done|by eapply onwards_trans|done].
Qed.

Lemma ensureConnected_spec serverId addr c w :
  let '(ok, c', w') := ensureConnected serverId addr c w in
  same_client c c' ∧ onwards w w' ∧
  if ok : bool then is_Some (fd_ c') ∧ connectedTo_ c' = serverId else fd_ c' = None.
Proof.
  unfold ensureConnected.
  assert (∀ c w, fd_ c = None → let '(ok, c', w') :=
    match os_connect addr w with
    | (BadHost, w) => (false, c, w)
    | (NoSocket, w) => (false, c, w)
    | (Refused fd, w) => let '(c, w) := dropConnection (set_conn (Some fd) (connectedTo_ c) c) w in (false, c, w)
    | (Connected fd, w) => (true, set_conn (Some fd) serverId c, w)
    end in same_client c c' ∧ onwards w w' ∧
    if ok : bool then is_Some (fd_ c') ∧ connectedTo_ c' = serverId else fd_ c' = None) as Hconn.
  { intros c1 w1 Hn. pose proof (law_connect Hos addr w1) as Ho. destruct (os_connect addr w1) as [[| |fd|fd] w2]; cbn [snd] in Ho.
    - by split_and!.
    - by split_and!.
    - cbn. split_and!; [done| |done]. eapply onwards_trans; [done|apply (law_close Hos)].
    - split_and!; [done|done|by eexists|done]. }
  destruct (fd_ c) as [fd|] eqn:Hfd.
  - destruct (N.eqb_spec (connectedTo_ c) serverId) as [E|_]; cbn [negb].
    + rewrite Hfd. split_and!; [done..|by eexists|done].
    + pose proof (dropConnection_spec c w) as Hd. destruct (dropConnection c w) as [c1 w1]. destruct Hd as (Hsc&Ho&Hn).
      rewrite Hn. specialize (Hconn c1 w1 Hn).
      destruct (match os_connect addr w1 with (BadHost, w) => _ | _ => _ end) as [[ok c'] w'].
      destruct Hconn as (?&?&?). split_and!; [by eapply same_client_trans|by eapply onwards_trans|done].
  - rewrite Hfd. by apply Hconn.
Qed.

Definition request_of (c : KvClient) (command : Command) : Message :=
  MClientRequest (mkClientRequest (clientId_ c) (seqNo_ c) command).

Lemma frameFor_length selfId to m f : frameFor selfId to m = Some f →
  length f = (kLengthPrefixSize + encodedSize m)%nat.
Proof.
  unfold frameFor. destruct (decide (N.of_nat (payloadSize m) ≤ kMaxPayloadSize)) as [Hle|Hgt].
  - destruct (encode_fits selfId to m (drop kLengthPrefixSize (replicate (kLengthPrefixSize + encodedSize m) x00)) Hle)
      as (b&->&Hl&_); [rewrite length_drop, length_replicate; unfold kLengthPrefixSize; lia|].
    destruct (_ =? _)%nat; [done|]. intros E. apply (inj Some) in E. subst f. rewrite length_app, Hl, length_drop, length_replicate.
    change (length (writeLengthPrefix _)) with 4%nat. unfold kLengthPrefixSize. lia.
  - unfold encodeMessage. cbv zeta. by destruct (N.ltb_spec kMaxPayloadSize (N.of_nat (payloadSize m))); [|lia].
Qed.

(** Enough fuel for the loops of one attempt: a turn per byte and interruption. *)
Definition enough (fs fr : nat) (c : KvClient) (command : Command) (w : W) : Prop :=
  (kLengthPrefixSize + encodedSize (request_of c command) + interrupts w ≤ fs)%nat ∧
  (interrupts w + arrivals w < fr)%nat.

Lemma enough_same fs fr c c' command w w' : same_client c c' → onwards w w' →
  enough fs fr c command w → enough fs fr c' command w'.
Proof.
  intros (_&Hcl&_&_&_&Hsq&_) (Hi&Ha&_) [H1 H2]. unfold enough, request_of. rewrite Hcl, Hsq.
  unfold request_of in H1. split; lia.
Qed.

Lemma attempt_ends fs fr serverId addr command c w : enough fs fr c command w →
  ∃ ok c' w', attempt fs fr serverId addr command c w = Some (ok, c', w') ∧
    same_client c c' ∧ onwards w w' ∧
    (exchanged ok c' ∨ frameFor (clientNodeId_ c) serverId (request_of c command) = None ∧ ok = false).
Proof.
  intros Hen. unfold attempt. pose proof (ensureConnected_spec serverId addr c w) as He.
  destruct (ensureConnected serverId addr c w) as [[ok c1] w1]. destruct He as (Hsc&Ho&Hok).
  destruct ok; cbn [negb]; [|exists false, c1, w1; by auto].
  destruct Hok as [[fd Hfd] _]. rewrite Hfd. pose proof Hsc as (_&Hcl&Hcn&_&_&Hsq&_).
  destruct (enough_same _ _ _ _ _ _ _ Hsc Ho Hen) as [Hs Hr]. fold (request_of c1 command).
  destruct (frameFor (clientNodeId_ c1) serverId (request_of c1 command)) as [f|] eqn:Ef; cycle 1.
  { exists false, c1, w1. split_and!; [done..|]. right. unfold request_of in *. by rewrite Hcn, Hcl, Hsq in Ef. }
  destruct (writeLoop_ends fd f fs 0 w1) as (sent&w2&Hw&Ho2); [rewrite (frameFor_length _ _ _ _ Ef); lia|].
  rewrite Hw. cbn [mbind option_bind]. destruct sent; cbn [negb].
  - destruct (awaitReply_ends fd (os_now w2 + timeoutMs_ c1 * 1000000) fr FrameAssembler_init c1 w2)
      as (ok&c'&w'&E&Hsc'&Ho'&Hex); [destruct Ho2 as (?&?&_); lia|].
    exists ok, c', w'. split_and!; [done|by eapply same_client_trans|by eapply onwards_trans; [|eapply onwards_trans]|by left].
  - pose proof (dropConnection_spec c1 w2) as Hd. destruct (dropConnection c1 w2) as [c' w']. destruct Hd as (?&?&?).
    exists false, c', w'. split_and!; [done|by eapply same_client_trans|by eapply onwards_trans; [|eapply onwards_trans]|by left].
Qed.

(** A result is the body of an OK reply, the one in the slot. *)
Definition from_reply (res : option Result) (c : KvClient) : Prop :=
  match res with
  | None => True
  | Some r => ∃ reply, dm_message (decoded_ c) = MClientReply reply ∧ crp_status reply = CsOk ∧
      (crp_result reply = res_statusByte r :: res_value r ∨ crp_result reply = [] ∧ r = mkResult x00 [])
  end.

Lemma chooseServer_lt c : servers_ c ≠ [] → (chooseServer c < length (servers_ c))%nat.
Proof.
  intros Hne. assert (length (servers_ c) ≠ 0%nat) as Hl by (by destruct (servers_ c)).
  assert (N.to_nat (rotation_ c mod N.of_nat (length (servers_ c))) < length (servers_ c))%nat as Hr.
  { pose proof (N.mod_lt (rotation_ c) (N.of_nat (length (servers_ c))) ltac:(lia)) as Hm. revert Hm.
    generalize (rotation_ c mod N.of_nat (length (servers_ c))). intros. lia. }
  unfold chooseServer. destruct (negb _); [|done]. unfold serverIndex.
  destruct (list_find _ _) as [[i x]|] eqn:E; cbn; [|done]. apply list_find_Some in E as (E&_). by eapply lookup_lt_Some.
Qed.

Lemma callLoop_ends fs fr command tries : ∀ c w, servers_ c ≠ [] → enough fs fr c command w →
  ∃ res c' w', callLoop fs fr tries command c w = Some (res, c', w') ∧
    same_client c c' ∧ onwards w w' ∧ from_reply res c'.
Proof.
  induction tries as [|tries IH]; intros c w Hne Hen; cbn [callLoop].
  { exists None, c, w. by split_and!. }
  destruct (lookup_lt_is_Some_2 (servers_ c) (chooseServer c) (chooseServer_lt c Hne)) as [[sid addr] ->].
  cbn [mbind option_bind]. destruct (attempt_ends fs fr sid addr command c w Hen) as (ok&c1&w1&->&Hsc&Ho&_).
  cbn [mbind option_bind]. set (reply := if ok then _ else None).
  assert (∀ c2 w2, same_client c1 c2 → onwards w1 w2 → ∃ res c' w', callLoop fs fr tries command c2 w2 = Some (res, c', w') ∧
    same_client c c' ∧ onwards w w' ∧ from_reply res c') as Hnext.
  { intros c2 w2 Hsc2 Ho2. pose proof (same_client_trans _ _ _ Hsc Hsc2) as Hsc'. pose proof (onwards_trans _ _ _ Ho Ho2) as Ho'.
    destruct (IH c2 w2) as (res&c'&w'&E&Hs3&Ho3&Hf); [by rewrite (proj1 Hsc')|by eapply enough_same|].
    exists res, c', w'. split_and!; [done|by eapply same_client_trans|by eapply onwards_trans|done]. }
  pose proof (Hnext (set_route 0 (N.of_nat (S (chooseServer c))) c1) (os_sleep kBackoffMs w1) ltac:(done) (law_sleep Hos _ _)) as Hretry.
  destruct reply as [r|] eqn:Er; [|done].
  assert (dm_message (decoded_ c1) = MClientReply r) as Hd.
  { subst reply. destruct ok; [|done]. destruct (dm_message (decoded_ c1)); by simplify_eq. }
  destruct (crp_status r) eqn:Est; [|destruct (_ && _); [by apply Hnext|done]|done].
  destruct (crp_result r) as [|st value] eqn:Eres.
  - eexists _, c1, w1. split_and!; [done..|]. cbn. exists r. split_and!; [done|done|by right].
  - eexists _, _, w1. split_and!; [done..|]. cbn. exists r. split_and!; [done|done|by left].
Qed.

End Laws.

(** ** What goes on the wire *)

(** The bytes the system has taken from [send], call by call, with their connection. *)
Context (wire : W → list (Fd * list byte)).

Record wire_laws : Prop := {
  wire_connect addr w : wire (os_connect addr w).2 = wire w;
  wire_send fd d w : d ≠ [] →
    match os_send fd d w with
    | (SendOk n, w') => (n ≤ length d)%nat ∧ wire w' = wire w ++ [(fd, take n d)]
    | (_, w') => wire w' = wire w
    end;
  wire_poll fd ms w : wire (os_poll fd ms w).2 = wire w;
  wire_read fd w : wire (os_read fd w).2 = wire w;
  wire_close fd w : wire (os_close fd w) = wire w;
  wire_sleep ms w : wire (os_sleep ms w) = wire w;
}.

(** One attempt at a request: pieces of the frame that carries it to one of the
    servers, on one connection, from its first byte on. *)
Definition one_try (c : KvClient) (command : Command) (pieces : list (Fd * list byte)) : Prop :=
  pieces = [] ∨ ∃ sid addr fd frame, (sid, addr) ∈ servers_ c ∧
    frameFor (clientNodeId_ c) sid (request_of c command) = Some frame ∧
    Forall (λ p, p.1 = fd) pieces ∧ concat (pieces.*2) `prefix_of` frame.

(** The attempt that sent all of it. *)
Definition whole_try (c : KvClient) (command : Command) (pieces : list (Fd * list byte)) : Prop :=
  ∃ sid addr frame, (sid, addr) ∈ servers_ c ∧
    frameFor (clientNodeId_ c) sid (request_of c command) = Some frame ∧ concat (pieces.*2) = frame.

Section Wire.
Context (Hwire : wire_laws).

Lemma writeLoop_wire fd data fuel : ∀ sent w ok w', (sent ≤ length data)%nat →
  writeLoop os_send fuel fd data sent w = Some (ok, w') →
  ∃ pieces, wire w' = wire w ++ pieces ∧ Forall (λ p, p.1 = fd) pieces ∧
    concat (pieces.*2) `prefix_of` drop sent data ∧ (ok = true → concat (pieces.*2) = drop sent data).
Proof.
  induction fuel as [|fuel IH]; intros sent w ok w' Hs; cbn [writeLoop];
    destruct (Nat.ltb_spec sent (length data)) as [Hlt|Hge]; try done.
  1,3: intros [= <- <-]; exists []; rewrite app_nil_r, drop_ge by lia; done.
  assert (drop sent data ≠ []) as Hne.
  { intros E. apply (f_equal length) in E. rewrite length_drop in E. cbn in E. lia. }
  pose proof (wire_send Hwire fd (drop sent data) w Hne) as Hw.
  destruct (os_send fd (drop sent data) w) as [[n| |] w1].
  - destruct Hw as [Hn Hw]. rewrite length_drop in Hn. intros E. apply IH in E as (ps&E1&E2&E3&E4); [|lia].
    rewrite <-drop_drop in E3, E4. exists ((fd, take n (drop sent data)) :: ps).
    rewrite E1, Hw, <-app_assoc. cbn. split_and!; [done|by constructor|..].
    + rewrite <-(take_drop n (drop sent data)) at 2. by apply prefix_app.
    + intros Hok. by rewrite (E4 Hok), take_drop.
  - intros E. apply IH in E as (ps&E1&E2); [|lia]. exists ps. by rewrite E1, Hw.
  - intros [= <- <-]. exists []. rewrite Hw, app_nil_r. split_and!; [done|done|apply prefix_nil|done].
Qed.

Lemma awaitReply_wire fd deadline fuel : ∀ asm c w ok c' w',
  awaitReply fuel fd deadline asm c w = Some (ok, c', w') → wire w' = wire w.
Proof.
  assert (∀ c w, wire (dropConnection c w).2 = wire w) as Hdrop.
  { intros c w. cbn. destruct (fd_ c); [apply (wire_close Hwire)|done]. }
  induction fuel as [|fuel IH]; intros asm c w ok c' w'; cbn [awaitReply]; [done|].
  destruct (_ =? 0). { pose proof (Hdrop c w). destruct (dropConnection c w). by intros [= <- <- <-]. }
  pose proof (wire_poll Hwire fd ((deadline - os_now w) / 1000000) w) as Hp. destruct (os_poll fd _ w) as [[| |] w1]; cbn [snd] in Hp.
  - pose proof (wire_read Hwire fd w1) as Hr. destruct (os_read fd w1) as [[data| |] w2]; cbn [snd] in Hr.
    + destruct (feed data asm) as [[fed frames] asm']. destruct (foldl _ _ _) as [[[got bad] d] p].
      destruct (negb fed || bad).
      { pose proof (Hdrop (set_decoded d p c) w2). destruct (dropConnection _ w2). intros [= <- <- <-]. cbn [snd] in *. congruence. }
      destruct got; [intros [= <- <- <-]; congruence|]. intros ->%IH. congruence.
    + intros ->%IH. congruence.
    + pose proof (Hdrop c w2). destruct (dropConnection c w2). intros [= <- <- <-]. cbn [snd] in *. congruence.
  - by intros ->%IH.
  - pose proof (Hdrop c w1). destruct (dropConnection c w1). intros [= <- <- <-]. cbn [snd] in *. congruence.
Qed.

Lemma ensureConnected_wire serverId addr c w : let '(ok, c', w') := ensureConnected serverId addr c w in
  wire w' = wire w ∧ same_client c c'.
Proof.
  unfold ensureConnected.
  assert (∀ c w, same_client c (dropConnection c w).1 ∧ wire (dropConnection c w).2 = wire w) as Hdrop.
  { intros c1 w1. split; [done|]. cbn. destruct (fd_ c1); [apply (wire_close Hwire)|done]. }
  set (cw := match fd_ c with Some _ => _ | None => _ end). assert (same_client c cw.1 ∧ wire cw.2 = wire w) as [H1 H2].
  { subst cw. destruct (fd_ c); [|done]. destruct (negb _); [apply Hdrop|done]. }
  destruct cw as [c1 w1]. cbn [fst snd] in *. destruct (fd_ c1); [done|].
  pose proof (wire_connect Hwire addr w1) as Hc. destruct (os_connect addr w1) as [[| |fd|fd] w2]; cbn [snd] in Hc.
  - split; [congruence|done].
  - split; [congruence|done].
  - destruct (Hdrop (set_conn (Some fd) (connectedTo_ c1) c1) w2) as [H3 H4].
    destruct (dropConnection _ w2) as [c2 w3]. cbn [fst snd] in *. split; [congruence|by eapply same_client_trans].
  - split; [congruence|done].
Qed.

Lemma attempt_wire fs fr sid addr command c w ok c' w' : (sid, addr) ∈ servers_ c →
  attempt fs fr sid addr command c w = Some (ok, c', w') →
  ∃ pieces, wire w' = wire w ++ pieces ∧ one_try c command pieces ∧ (ok = true → whole_try c command pieces).
Proof.
  intros Hin. unfold attempt. pose proof (ensureConnected_wire sid addr c w) as He.
  destruct (ensureConnected sid addr c w) as [[ok1 c1] w1]. destruct He as [Ew (_&Hcl&Hcn&_&_&Hsq&_)].
  assert (∀ b w2, wire w2 = wire w → b = false → ∃ pieces, wire w2 = wire w ++ pieces ∧ one_try c command pieces ∧
    (b = true → whole_try c command pieces)) as Hnone.
  { intros b w2 -> ->. exists []. rewrite app_nil_r. split_and!; [done|by left|done]. }
  destruct (negb ok1); [intros [= <- <- <-]; by apply Hnone|].
  destruct (fd_ c1) as [fd|]; [|intros [= <- <- <-]; by apply Hnone].
  rewrite Hcn, Hcl, Hsq. fold (request_of c command).
  destruct (frameFor _ sid (request_of c command)) as [frame|] eqn:Ef; [|intros [= <- <- <-]; by apply Hnone].
  destruct (writeLoop os_send fs fd frame 0 w1) as [[sent w2]|] eqn:Es; [|done]. cbn [mbind option_bind].
  apply writeLoop_wire in Es as (ps&E1&E2&E3&E4); [|lia]. rewrite drop_0 in E3, E4. intros Hres. exists ps.
  assert (wire w' = wire w2 ∧ (ok = true → sent = true)) as [-> Hok].
  { destruct sent; cbn [negb] in Hres.
    - apply awaitReply_wire in Hres. done.
    - revert Hres. cbn. intros [= <- _ <-]. split; [|done]. destruct (fd_ c1); [apply (wire_close Hwire)|done]. }
  rewrite E1, Ew. split_and!; [done|right; by exists sid, addr, fd, frame|].
  intros H. exists sid, addr, frame. split_and!; [done|done|by apply E4, Hok].
Qed.

Lemma try_same c c' command pieces : same_client c c' →
  (one_try c' command pieces → one_try c command pieces) ∧ (whole_try c' command pieces → whole_try c command pieces).
Proof.
  intros (Es&Ecl&Ecn&_&_&Esq&_). unfold one_try, whole_try, request_of. by rewrite Es, Ecl, Ecn, Esq.
Qed.

(** What a call put on the wire, attempt by attempt. *)
Definition tried (c : KvClient) (command : Command) (bound : nat) (res : option Result) (w w' : W) : Prop :=
  ∃ tries, wire w' = wire w ++ concat tries ∧ (length tries ≤ bound)%nat ∧ Forall (one_try c command) tries ∧
    (is_Some res → ∃ t, last tries = Some t ∧ whole_try c command t).

Lemma tried_more c c1 command bound res w w1 w2 w' pieces : same_client c c1 → one_try c command pieces →
  wire w1 = wire w ++ pieces → wire w2 = wire w1 →
  tried c1 command bound res w2 w' → tried c command (S bound) res w w'.
Proof.
  intros Hsc Ht E1 E2 (ts&E&Hl&Hts&Hres). exists (pieces :: ts). split_and!.
  - cbn. by rewrite E, E2, E1, app_assoc.
  - cbn. lia.
  - constructor; [done|]. eapply Forall_impl; [exact Hts|]. intros t. apply (try_same c c1 command t Hsc).
  - intros Hr. destruct (Hres Hr) as (t&Hlast&Hw). exists t. split; [|by apply (try_same c c1 command t Hsc)].
    rewrite last_cons, Hlast. done.
Qed.

Lemma callLoop_tried (Hos : os_laws) fs fr command tries : ∀ c w res c' w', servers_ c ≠ [] →
  enough fs fr c command w → callLoop fs fr tries command c w = Some (res, c', w') →
  tried c command tries res w w'.
Proof.
  induction tries as [|tries IH]; intros c w res c' w' Hne Hen; cbn [callLoop].
  { intros [= <- <- <-]. exists []. cbn. rewrite app_nil_r. split_and!; [done|lia|constructor|]. by intros []. }
  destruct (lookup_lt_is_Some_2 (servers_ c) (chooseServer c) (chooseServer_lt c Hne)) as [[sid addr] Hsrv].
  rewrite Hsrv. apply list_elem_of_lookup_2 in Hsrv. cbn [mbind option_bind].
  destruct (attempt_ends Hos fs fr sid addr command c w Hen) as (ok&c1&w1&Ea&Hsc&Ho&_). rewrite Ea. cbn [mbind option_bind].
  destruct (attempt_wire fs fr sid addr command c w ok c1 w1 Hsrv Ea) as (ps&Ew&Ht&Hwhole).
  assert (∀ c2 w2 res c' w', same_client c1 c2 → onwards w1 w2 → wire w2 = wire w1 →
    callLoop fs fr tries command c2 w2 = Some (res, c', w') → tried c command (S tries) res w w') as Hnext.
  { intros c2 w2 res2 c3 w3 Hsc2 Ho2 Ew2 E. pose proof (same_client_trans _ _ _ Hsc Hsc2) as Hsc'.
    eapply tried_more; [exact Hsc'|exact Ht|exact Ew|exact Ew2|]. eapply IH; [by rewrite (proj1 Hsc')| |exact E].
    apply (enough_same fs fr c c2 command w w2 Hsc'); [by eapply onwards_trans|done]. }
  assert (∀ r, ok = true → tried c command (S tries) (Some r) w w1) as Hdone.
  { intros r Hok. exists [ps]. cbn. rewrite app_nil_r. split_and!; [done|lia|by constructor|]. intros _. exists ps. auto. }
  assert (∀ res c' w', callLoop fs fr tries command (set_route 0 (N.of_nat (S (chooseServer c))) c1) (os_sleep kBackoffMs w1) =
    Some (res, c', w') → tried c command (S tries) res w w') as Hretry.
  { intros *. apply Hnext; [done|apply (law_sleep Hos)|apply (wire_sleep Hwire)]. }
  destruct ok; [|apply Hretry]. destruct (dm_message (decoded_ c1)); try apply Hretry.
  destruct (crp_status _); [|destruct (_ && _); [by apply Hnext|apply Hretry]|apply Hretry].
  destruct (crp_result _); intros [= <- <- <-]; by apply Hdone.
Qed.

End Wire.

(** C27: a call of the client ends, sends one request under one identity, and its
    answer is genuine.  Under what is asked of the system, enough fuel for one attempt
    (a step per byte to send or to receive, and one per interruption) makes [call]
    return.  All it has put on the wire is a sequence of at most [maxAttempts_]
    attempts, each of them an initial part (or nothing) of the frame of the same
    request, with the client's id and current sequence number and the same command,
    to one of its servers on one connection; the client keeps that identity and
    remembers the command.  A result is the body of an OK reply, the last message
    decoded, and the last attempt had sent its frame completely. *)
Theorem call_terminates fs fr command c w : os_laws → wire_laws → servers_ c ≠ [] →
  enough fs fr c command w →
  ∃ res c' w', call fs fr command c w = Some (res, c', w') ∧
    tried c command (maxAttempts_ c) res w w' ∧
    clientId_ c' = clientId_ c ∧ seqNo_ c' = seqNo_ c ∧ lastCommand_ c' = command ∧ from_reply res c'.
Proof.
  intros Hos Hwire Hne Hen. unfold call. cbv zeta.
  destruct (callLoop_ends Hos fs fr command (maxAttempts_ c) (set_request (seqNo_ c) command c) w Hne Hen)
    as (res&c'&w'&E&(_&Hcl&_&_&_&Hsq&Hlast)&_&Hf). exists res, c', w'. split_and!; [exact E| |done..].
  by apply (callLoop_tried Hwire Hos fs fr command (maxAttempts_ c) (set_request (seqNo_ c) command c) w res c' w' Hne Hen).
Qed.

End KvClient.

(** ** A scripted system *)

Module KvClientSample.

(** What each coming [poll] finds: bytes on a connection, or nothing until it times
    out. *)
Record World := mkWorld {
  sw_now : N;
  sw_fd : Fd;                               (* next descriptor *)
  sw_in : list (option (Fd * list byte));
  sw_out : list (Fd * list byte);
}.

Definition sw_connect (addr : unit) (w : World) : ConnectResult * World :=
  (Connected (sw_fd w), mkWorld (sw_now w) (sw_fd w + 1) (sw_in w) (sw_out w)).
Definition sw_send (fd : Fd) (d : list byte) (w : World) : SendResult * World :=
  (SendOk (length d), mkWorld (sw_now w) (sw_fd w) (sw_in w) (sw_out w ++ [(fd, d)])).
Definition sw_poll (fd : Fd) (ms : N) (w : World) : PollResult * World :=
  match sw_in w with
  | Some (fd', _) :: _ =>
      if fd' =? fd then (PollReady, mkWorld (sw_now w + 1) (sw_fd w) (sw_in w) (sw_out w))
      else (PollExpired, mkWorld (sw_now w + ms * 1000000 + 1) (sw_fd w) (sw_in w) (sw_out w))
  | _ => (PollExpired, mkWorld (sw_now w + ms * 1000000 + 1) (sw_fd w) (tl (sw_in w)) (sw_out w))
  end.
Definition sw_read (fd : Fd) (w : World) : ClientRead * World :=
  match sw_in w with
  | Some (fd', d) :: rest =>
      if (fd' =? fd) && (0 <? length d)%nat
      then (ReadBytes d, mkWorld (sw_now w) (sw_fd w) rest (sw_out w)) else (ReadEnd, w)
  | _ => (ReadEnd, w)
  end.
Definition sw_close (fd : Fd) (w : World) : World := w.
Definition sw_sleep (ms : N) (w : World) : World :=
  mkWorld (sw_now w + ms * 1000000) (sw_fd w) (sw_in w) (sw_out w).

Definition sw_arrivals (w : World) : nat := sum_list (from_option (λ p, length p.2) 0%nat <$> sw_in w).

Lemma sw_laws : os_laws sw_connect sw_send sw_poll sw_read sw_close sw_now sw_sleep (λ _, 0%nat) sw_arrivals.
Proof.
  split; unfold onwards, sw_arrivals; cbn.
  - intros. split_and!; cbn; lia.
  - intros fd d w Hd. split; [split_and!; cbn; lia|]. destruct d; [done|]. cbn. lia.
  - intros fd ms w. unfold sw_poll. destruct (sw_in w) as [|[[fd' d]|] rest] eqn:E; [..|destruct (fd' =? fd)|];
      cbn; rewrite ?E; cbn; repeat split; lia.
  - intros fd w. unfold sw_read. destruct (sw_in w) as [|[[fd' d]|] rest] eqn:E;
      [..|destruct (fd' =? fd); [destruct (Nat.ltb_spec 0 (length d))|]|]; cbn; rewrite ?E; cbn; repeat split; lia.
  - intros. split_and!; unfold sw_close; lia.
  - intros. split_and!; cbn; lia.
Qed.

Lemma sw_wire : wire_laws sw_connect sw_send sw_poll sw_read sw_close sw_sleep sw_out.
Proof.
  split; try done.
  - intros fd d w _. cbn. split; [done|by rewrite firstn_all].
  - intros fd ms w. unfold sw_poll. repeat case_match; done.
  - intros fd w. unfold sw_read. repeat case_match; done.
Qed.

Definition client0 : KvClient := KvClient_new [(1, tt)] 7 100 1000 3.

Definition sw_call := call sw_connect sw_send sw_poll sw_read sw_close sw_now sw_sleep 200 100.

(** A server that answers the second attempt. *)
Definition answered : World :=
  mkWorld 0 3 [None; (λ f, (4, f)) <$> frameFor 1 100 (MClientReply (mkClientReply CsOk 1 [kKvOk; x78]))] [].

Lemma call_terminates_witness :
  ∃ res c' w', sw_call [x01] client0 answered = Some (res, c', w') ∧
    tried sw_out client0 [x01] 3 res answered w' ∧
    clientId_ c' = 7 ∧ seqNo_ c' = 0 ∧ lastCommand_ c' = [x01] ∧ from_reply res c'.
Proof.
  apply (call_terminates sw_connect sw_send sw_poll sw_read sw_close sw_now sw_sleep (λ _, 0%nat) sw_arrivals sw_out
    200 100 [x01] client0 answered sw_laws sw_wire); [done|].
  split; [apply Nat.leb_le|apply Nat.ltb_lt]; by vm_compute.
Defined.

(** *** A reply read as the answer to another request *)

Definition k : list byte := [x6b].
Definition append_req : ClientRequest := mkClientRequest 7 1 (encodeKvCommand (mkKvCommand 7 1 Append k [x78] [])).
Definition get_req : ClientRequest := mkClientRequest 7 2 (encodeKvCommand (mkKvCommand 7 2 Get [x6f] [] [])).

Abbreviation KvCore := (@RaftCore InMemoryPersistentState InMemoryLog KVStateMachine N unit).
#[local] Instance fixed_rng' : Rng N := λ r lo _, (lo, r).
#[local] Instance no_sink : ApplySink unit := λ k _ _, (true, k).

(** Node 1 leads nodes 2 and 3. *)
Definition leader0 : KvCore :=
  set_matchIndex {[2 := 0; 3 := 0]} (set_nextIndex {[2 := 1; 3 := 1]} (set_role Leader
    (RaftCore_new 1 [2; 3] (mkPersist 1 (Some 1)) (mkInMemoryLog []) (mkKV [] []) 0 defaultConfig))).

(** The service answers what the core has just applied. *)
Definition answer (c c' : KvCore) (s : ClientService) : ClientService :=
  foldl (λ s e, match e with EApply i en r => onApplied 1 i en r s | _ => s end) s
    (drop (length (fx_ c)) (fx_ c')).

Definition serve_request (req : ClientRequest) (sc : ClientService * KvCore) : ClientService * KvCore :=
  onClientRequest 0 100 req sc.1 sc.2.

Definition serve_ack (i : LogIndex) (sc : ClientService * KvCore) : ClientService * KvCore :=
  let c' := onAppendEntriesReply 2 (mkAppendEntriesReply 1 true i 0) sc.2 in
  (answer sc.2 c' sc.1, c').

(** The append arrives twice, on two connections; then it commits; then the get
    arrives and commits. *)
Definition served : ClientService * KvCore :=
  serve_ack 3 (serve_request get_req
    (serve_ack 2 (serve_request append_req (serve_request append_req (ClientService_new (mkBatching 1 0), leader0))))).

Definition reply_frame (r : NodeId * ClientReply) : option (list byte) := frameFor 1 r.1 (MClientReply r.2).

(** The first attempt, on connection 7, hears nothing; the second connection carries
    the replies, which the server routes to the client's latest one. *)
Definition world0 : World := mkWorld 0 7 (None :: ((λ r, (λ f, (8, f)) <$> reply_frame r) <$> sent_ served.1)) [].

Definition sw_request := request sw_connect sw_send sw_poll sw_read sw_close sw_now sw_sleep 200 5.

Definition two_calls : option (option Result * option Result) :=
  '(r1, c, w) ← sw_request (λ cl sq, encodeKvCommand (mkKvCommand cl sq Append k [x78] [])) client0 world0;
  '(r2, _, _) ← sw_request (λ cl sq, encodeKvCommand (mkKvCommand cl sq Get [x6f] [] [])) c w;
  Some (r1, r2).

(** A straggler reply is read as the answer to a later request.  The leader
    takes a request and its retry, which came on a second connection, as two
    entries and answers both; replies carry no sequence number and are routed to
    the client's latest connection, so the second answer is still in the pipe when
    the next request goes out on it.  Here the client appends (times out, retries,
    succeeds) and then reads another key: the service answers the read with "not
    found", and the client returns the append's result for it. *)
Theorem straggler_reply_misread :
  (crp_result ∘ snd <$> sent_ served.1) = [[kKvOk; x78]; [kKvOk; x78]; [kKvNotFound]] ∧
  two_calls = Some (Some (mkResult kKvOk [x78]), Some (mkResult kKvOk [x78])).
Proof. split; by vm_compute. Qed.

End KvClientSample.
