(* ===== verification/SpscRing.v ===== *)
(** * src/runtime/spsc_ring.h: the single-producer single-consumer ring

    One producer thread and one consumer thread over a shared ring, interleaved
    at the granularity of their shared-memory accesses: reading the other side's
    index, accessing a slot, publishing one's own index.  Each thread's private
    work between two such accesses is one step with them.  Indices are 64-bit and
    wrap; the ghost lists of everything pushed and popped say what they stand for.

    The accesses are interleaved sequentially.  That is what the release/acquire
    pairs of the code buy: the only non-atomic shared data are the slots, and
    [spsc_no_race] shows that the two threads never access the same slot at the
    same time. *)

From Stdlib Require Import NArith Lia.
From S2P Require Import Prelude.

Local Open Scope N_scope.

Section Spsc.
Context {T : Type} (dflt : T).

(** Where each thread is inside [tryPush] (or [tryProduce]) and [tryPop] (or
    [tryConsume]). *)
Inductive ProducerPc :=
| PIdle
| PReload (v : T)        (* looks full: about to load head_ *)
| PWrite (v : T)         (* about to write the slot *)
| PPublish (v : T).      (* about to store tail_ *)

Inductive ConsumerPc :=
| CIdle
| CReload                (* looks empty: about to load tail_ *)
| CRead                  (* about to read the slot *)
| CRetire (v : T).       (* about to store head_ *)

Record SpscRing := mkSpsc {
  slots_ : list T;
  tail_ : N;
  cachedHead_ : N;
  head_ : N;
  cachedTail_ : N;
  ppc : ProducerPc;
  cpc : ConsumerPc;
  pushed : list T;       (* ghost: values whose push returned true *)
  popped : list T;       (* ghost: values pops returned *)
}.

Definition spsc_mask (s : SpscRing) : N := N.of_nat (length (slots_ s)) - 1.
Definition spsc_slot (s : SpscRing) (i : N) : nat := N.to_nat (N.land i (spsc_mask s)).

Definition SpscRing_new (minCapacity : N) : SpscRing :=
  let cap := bit_ceil (if minCapacity <? 2 then 2 else minCapacity) in
  mkSpsc (replicate (N.to_nat cap) dflt) 0 0 0 0 PIdle CIdle [] [].

Definition capacity (s : SpscRing) : N := spsc_mask s + 1.

Definition looksFull (s : SpscRing) (cachedHead : N) : bool :=
  spsc_mask s <? sub64 (tail_ s) cachedHead.

Definition set_ppc (pc : ProducerPc) (s : SpscRing) : SpscRing :=
  mkSpsc (slots_ s) (tail_ s) (cachedHead_ s) (head_ s) (cachedTail_ s) pc (cpc s)
    (pushed s) (popped s).

Definition set_cpc (pc : ConsumerPc) (s : SpscRing) : SpscRing :=
  mkSpsc (slots_ s) (tail_ s) (cachedHead_ s) (head_ s) (cachedTail_ s) (ppc s) pc
    (pushed s) (popped s).

(** One step of the producer; [v] is what it pushes when a call starts. *)
Definition producerStep (v : T) (s : SpscRing) : SpscRing :=
  match ppc s with
  | PIdle => set_ppc (if looksFull s (cachedHead_ s) then PReload v else PWrite v) s
  | PReload v =>
      let cachedHead := head_ s in
      mkSpsc (slots_ s) (tail_ s) cachedHead (head_ s) (cachedTail_ s)
        (if looksFull s cachedHead then PIdle else PWrite v) (cpc s) (pushed s) (popped s)
  | PWrite v =>
      mkSpsc (<[spsc_slot s (tail_ s) := v]> (slots_ s)) (tail_ s) (cachedHead_ s) (head_ s)
        (cachedTail_ s) (PPublish v) (cpc s) (pushed s) (popped s)
  | PPublish v =>
      mkSpsc (slots_ s) (add64 (tail_ s) 1) (cachedHead_ s) (head_ s) (cachedTail_ s) PIdle (cpc s)
        (pushed s ++ [v]) (popped s)
  end.

(** One step of the consumer. *)
Definition consumerStep (s : SpscRing) : SpscRing :=
  match cpc s with
  | CIdle => set_cpc (if head_ s =? cachedTail_ s then CReload else CRead) s
  | CReload =>
      let cachedTail := tail_ s in
      mkSpsc (slots_ s) (tail_ s) (cachedHead_ s) (head_ s) cachedTail (ppc s)
        (if head_ s =? cachedTail then CIdle else CRead) (pushed s) (popped s)
  | CRead =>
      set_cpc (CRetire (default dflt (slots_ s !! spsc_slot s (head_ s)))) s
  | CRetire v =>
      mkSpsc (slots_ s) (tail_ s) (cachedHead_ s) (add64 (head_ s) 1) (cachedTail_ s) (ppc s) CIdle
        (pushed s) (popped s ++ [v])
  end.

(** [consumerHasWork], called by the consumer between two pops. *)
Definition consumerHasWork (s : SpscRing) : bool * SpscRing :=
  if negb (head_ s =? cachedTail_ s) then (true, s)
  else
    (negb (head_ s =? tail_ s),
     mkSpsc (slots_ s) (tail_ s) (cachedHead_ s) (head_ s) (tail_ s) (ppc s) (cpc s)
       (pushed s) (popped s)).

(** Interleavings: the scheduler picks a thread, and the value of its next push. *)
Inductive Sched := RunProducer (v : T) | RunConsumer | PollConsumer.

Definition spsc_step (s : SpscRing) (x : Sched) : SpscRing :=
  match x with
  | RunProducer v => producerStep v s
  | RunConsumer => consumerStep s
  | PollConsumer => match cpc s with CIdle => (consumerHasWork s).2 | _ => s end
  end.

Definition spsc_run (minCapacity : N) (sched : list Sched) : SpscRing :=
  foldl spsc_step (SpscRing_new minCapacity) sched.

(** ** Correctness *)

Definition cap (s : SpscRing) : nat := length (slots_ s).

(** The slot of the [i]-th value ever pushed. *)
Definition at_ (s : SpscRing) (i : nat) : nat := (i mod cap s)%nat.

Record spsc_ok (s : SpscRing) : Prop := {
  sp_cap : ∃ k, 1 ≤ k ≤ 62 ∧ N.of_nat (cap s) = 2 ^ k;
  sp_tail : stands (tail_ s) (length (pushed s));
  sp_head : stands (head_ s) (length (popped s));
  sp_fifo : popped s = take (length (popped s)) (pushed s);
  sp_room : (length (popped s) ≤ length (pushed s) ≤ length (popped s) + cap s)%nat;
  sp_chead : ∃ h, stands (cachedHead_ s) h ∧ (h ≤ length (popped s))%nat ∧
                  (length (pushed s) ≤ h + cap s)%nat;
  sp_ctail : ∃ t, stands (cachedTail_ s) t ∧ (length (popped s) ≤ t ≤ length (pushed s))%nat;
  sp_live : ∀ i, (length (popped s) ≤ i < length (pushed s))%nat →
              slots_ s !! at_ s i = pushed s !! i;
  sp_ppc : match ppc s with
           | PWrite _ => looksFull s (cachedHead_ s) = false
           | PPublish v => looksFull s (cachedHead_ s) = false ∧
                           slots_ s !! at_ s (length (pushed s)) = Some v
           | _ => True
           end;
  sp_cpc : match cpc s with
           | CRead => head_ s ≠ cachedTail_ s
           | CRetire v => head_ s ≠ cachedTail_ s ∧
                          pushed s !! length (popped s) = Some v
           | _ => True
           end;
}.

Lemma cap_bounds s : spsc_ok s → (2 ≤ cap s)%nat ∧ N.of_nat (cap s) < two64.
Proof.
  intros Hs. destruct (sp_cap _ Hs) as (k & [Hk1 Hk2] & E).
  pose proof (N.pow_le_mono_r 2 1 k ltac:(done) Hk1). pose proof (N.pow_le_mono_r 2 k 62 ltac:(done) Hk2).
  change (2 ^ 62) with 4611686018427387904 in *. unfold two64. lia.
Qed.

Lemma slot_at s x n : spsc_ok s → stands x n → spsc_slot s x = at_ s n.
Proof.
  intros Hs Hx. destruct (sp_cap _ Hs) as (k & Hk & E).
  unfold spsc_slot, spsc_mask, at_. fold (cap s). apply (land_mask _ _ k); [done|lia|done].
Qed.

Lemma at_lt s n : spsc_ok s → (at_ s n < cap s)%nat.
Proof. intros Hs. destruct (cap_bounds s Hs). apply Nat.mod_upper_bound. lia. Qed.

Lemma looksFull_spec s x h :
  spsc_ok s → stands x h → (h ≤ length (pushed s) ≤ h + cap s)%nat →
  looksFull s x = false ↔ (length (pushed s) < h + cap s)%nat.
Proof.
  intros Hs Hx Hh. destruct (cap_bounds s Hs) as [H2 H64]. unfold looksFull, spsc_mask. fold (cap s).
  rewrite (sub64_stands _ _ _ _ (sp_tail _ Hs) Hx) by lia. rewrite N.ltb_ge. lia.
Qed.

Lemma not_full_room s : spsc_ok s → looksFull s (cachedHead_ s) = false →
  (length (pushed s) < length (popped s) + cap s)%nat.
Proof.
  intros Hs Hf. destruct (sp_chead _ Hs) as (h & Hst & Hh & Hp). pose proof (sp_room _ Hs).
  apply (looksFull_spec s _ h) in Hf; [lia|done..|lia].
Qed.

Lemma heads_equal s x t :
  spsc_ok s → stands x t → (length (popped s) ≤ t ≤ length (pushed s))%nat →
  head_ s = x ↔ t = length (popped s).
Proof.
  intros Hs Hx Ht. pose proof (sp_head _ Hs) as Hh. destruct (cap_bounds s Hs) as [_ H64].
  pose proof (sp_room _ Hs). split.
  - intros E. rewrite <-E in Hx.
    assert (sub64 (head_ s) (head_ s) = N.of_nat (t - length (popped s))) as Hsub
      by (apply (sub64_stands _ _ _ _ Hx Hh); lia).
    unfold sub64 in Hsub. replace (head_ s + two64 - head_ s) with two64 in Hsub by lia.
    rewrite N.Div0.mod_same in Hsub. lia.
  - intros ->. unfold stands in *. congruence.
Qed.

Lemma new_ok n : n ≤ 2 ^ 62 → spsc_ok (SpscRing_new n).
Proof.
  intros Hn. assert (∃ k, 1 ≤ k ≤ 62 ∧ bit_ceil (if n <? 2 then 2 else n) = 2 ^ k) as (k & Hk & E).
  { destruct (N.ltb_spec n 2); [exists 1; by vm_compute|]. by apply bit_ceil_pow2. }
  split; cbn; unfold cap, SpscRing_new; cbn; rewrite ?length_replicate, ?E; try done; try lia.
  - exists k. split; [done|lia].
  - exists 0%nat. split_and!; [done|lia|lia].
  - exists 0%nat. split_and!; [done|lia|lia].
Qed.

(** *** The producer's steps *)

Lemma producer_ok v s : spsc_ok s → spsc_ok (producerStep v s).
Proof.
  intros Hs. pose proof (sp_room _ Hs) as Hroom. unfold producerStep.
  pose proof (sp_ppc _ Hs) as Hpc. destruct (ppc s) as [|v0|v0|v0] eqn:Epc.
  - destruct Hs. split; try done. cbn. destruct (looksFull s (cachedHead_ s)) eqn:E; done.
  - assert (H : (length (popped s) ≤ length (pushed s) ≤ length (popped s) + cap s)%nat) by done.
    destruct Hs. split; unfold cap in *; try done; cbn.
    + exists (length (popped s)). split_and!; [done|done|lia].
    + destruct (looksFull s (head_ s)) eqn:E; done.
  - pose proof (not_full_room s Hs Hpc) as Hlt. pose proof (at_lt s (length (pushed s)) Hs) as Hat.
    rewrite (slot_at s _ _ Hs (sp_tail _ Hs)).
    destruct Hs as [Hcap Ht Hh Hf Hr Hch Hct Hl _ Hc].
    split; unfold at_, cap in *; cbn; rewrite ?length_insert; try done.
    + intros i Hi. rewrite list_lookup_insert_ne; [by apply Hl|].
      intros E. by apply (mod_window i (length (pushed s)) (length (slots_ s))); [lia|].
    + unfold looksFull, spsc_mask in *. cbn. rewrite length_insert. split; [done|].
      by rewrite list_lookup_insert_eq.
  - destruct Hpc as [Hpc Hslot]. pose proof (not_full_room s Hs Hpc) as Hlt.
    destruct (sp_chead _ Hs) as (h & Hst & Hh & Hp).
    apply (looksFull_spec s _ h) in Hpc as Hh'; [|done..|lia].
    destruct Hs as [Hcap Ht Hhd Hf Hr Hch Hct Hl _ Hc].
    split; unfold at_, cap in *; cbn; rewrite ?length_app; cbn; try done; try lia.
    + rewrite Nat.add_1_r. by apply stands_succ.
    + rewrite take_app_le by lia. done.
    + exists h. split_and!; [done|lia|lia].
    + destruct Hct as (t & ? & ?). exists t. split; [done|lia].
    + intros i Hi. destruct (decide (i = length (pushed s))) as [->|].
      * by rewrite Hslot, list_lookup_middle.
      * rewrite lookup_app_l by lia. apply Hl. lia.
    + destruct (cpc s); try done. destruct Hc as [? Hv]. split; [done|].
      by apply lookup_app_l_Some.
Qed.

(** *** The consumer's steps *)

Lemma not_empty_count s : spsc_ok s → head_ s ≠ cachedTail_ s →
  ∃ t, stands (cachedTail_ s) t ∧ (length (popped s) < t ≤ length (pushed s))%nat.
Proof.
  intros Hs Hne. destruct (sp_ctail _ Hs) as (t & Hst & Ht).
  pose proof (heads_equal s _ t Hs Hst Ht) as Heq. exists t. split; [done|].
  assert (t ≠ length (popped s)) by tauto. lia.
Qed.

Lemma consumer_ok s : spsc_ok s → spsc_ok (consumerStep s).
Proof.
  intros Hs. pose proof (sp_room _ Hs) as Hroom. unfold consumerStep.
  pose proof (sp_cpc _ Hs) as Hpc. destruct (cpc s) as [| | |v] eqn:Epc.
  - destruct Hs. split; try done. cbn. by destruct (N.eqb_spec (head_ s) (cachedTail_ s)).
  - destruct Hs. split; try done; cbn.
    + exists (length (pushed s)). split; [done|lia].
    + by destruct (N.eqb_spec (head_ s) (tail_ s)).
  - destruct (not_empty_count s Hs Hpc) as (t & _ & Ht).
    rewrite (slot_at s _ _ Hs (sp_head _ Hs)).
    pose proof (sp_live _ Hs (length (popped s)) ltac:(lia)) as Hv.
    destruct (lookup_lt_is_Some_2 (pushed s) (length (popped s)) ltac:(lia)) as [v Ev].
    rewrite Hv, Ev. cbn. by destruct Hs.
  - destruct Hpc as [Hne Hv]. destruct (not_empty_count s Hs Hne) as (t & Hst & Ht).
    destruct Hs as [Hcap Htl Hhd Hf Hr Hch Hct Hl Hpp Hc].
    split; unfold at_, cap in *; cbn; rewrite ?length_app; cbn; try done; try lia.
    + rewrite Nat.add_1_r. by apply stands_succ.
    + rewrite Hf at 1. rewrite Nat.add_1_r. by rewrite (take_S_r _ _ _ Hv).
    + destruct Hch as (h & ? & ? & ?). exists h. split_and!; [done|lia|lia].
    + exists t. split; [done|lia].
    + intros i Hi. apply Hl. lia.
Qed.

Lemma poll_ok s : spsc_ok s → cpc s = CIdle → spsc_ok (consumerHasWork s).2.
Proof.
  intros Hs Hc. pose proof (sp_room _ Hs). unfold consumerHasWork. destruct (negb _); [done|].
  destruct Hs. split; try done; cbn; [|by rewrite Hc].
  exists (length (pushed s)). split; [done|lia].
Qed.

Lemma run_ok n sched : n ≤ 2 ^ 62 → spsc_ok (spsc_run n sched).
Proof.
  intros Hn. unfold spsc_run. induction sched as [|x sched IH] using rev_ind; [by apply new_ok|].
  rewrite foldl_app. cbn. destruct x; cbn; [by apply producer_ok|by apply consumer_ok|].
  destruct (cpc _) eqn:E; [|done..]. by apply poll_ok.
Qed.

(** C30: the ring is a bounded FIFO queue, in every interleaving and across the
    wrap of its 64-bit indices.  What has been popped is a prefix, in order, of
    what has been pushed; never more than the capacity is in flight; the two
    threads never touch the same slot at once; a push fails only when the ring is
    full at that instant, and a pop only when it is empty. *)
Theorem spsc_fifo n sched :
  n ≤ 2 ^ 62 →
  let s := spsc_run n sched in
  popped s = take (length (popped s)) (pushed s) ∧
  (length (pushed s) ≤ length (popped s) + cap s)%nat ∧
  (∀ v, ppc s = PWrite v → cpc s = CRead → spsc_slot s (tail_ s) ≠ spsc_slot s (head_ s)) ∧
  (∀ v v', ppc s = PReload v → ppc (producerStep v' s) = PIdle →
     length (pushed s) = (length (popped s) + cap s)%nat) ∧
  (cpc s = CReload → cpc (consumerStep s) = CIdle → popped s = pushed s).
Proof.
  intros Hn s. pose proof (run_ok n sched Hn) as Hs. fold s in Hs. clearbody s.
  pose proof (sp_room _ Hs) as Hroom. pose proof (sp_ppc _ Hs) as Hpp. pose proof (sp_cpc _ Hs) as Hcc.
  split_and!; [apply Hs|apply Hroom|..].
  - intros v Ep Ec. rewrite Ep in Hpp. rewrite Ec in Hcc.
    pose proof (not_full_room s Hs Hpp). destruct (not_empty_count s Hs Hcc) as (t & _ & Ht).
    rewrite (slot_at s _ _ Hs (sp_tail _ Hs)), (slot_at s _ _ Hs (sp_head _ Hs)).
    intros E. by apply (mod_window (length (popped s)) (length (pushed s)) (cap s)); [lia|].
  - intros v v' Ep. unfold producerStep. rewrite Ep. cbn.
    destruct (looksFull s (head_ s)) eqn:E; [|done]. intros _.
    pose proof (looksFull_spec s _ (length (popped s)) Hs (sp_head _ Hs) Hroom) as Hf.
    destruct (decide (length (pushed s) < length (popped s) + cap s)%nat) as [Hlt|]; [|lia].
    apply Hf in Hlt. congruence.
  - intros Ec. unfold consumerStep. rewrite Ec. cbn.
    destruct (N.eqb_spec (head_ s) (tail_ s)) as [E|]; [|done]. intros _.
    apply (heads_equal s _ (length (pushed s)) Hs (sp_tail _ Hs)) in E; [|lia].
    rewrite (sp_fifo _ Hs), <-E. by rewrite firstn_all.
Qed.

End Spsc.

(** ** A sample run *)

Module SpscSample.

(** Two pushes into a ring of two fill it; the third finds it full. *)
Definition sched : list (@Sched N) :=
  [RunProducer 10; RunProducer 10; RunProducer 10; RunProducer 11; RunConsumer; RunProducer 11;
   RunProducer 11; RunConsumer; RunProducer 12].

Lemma spsc_fifo_witness :
  let s := spsc_run 0 2 sched in
  pushed s = [10; 11] ∧ ppc s = PReload 12 ∧
  length (pushed s) = (length (popped s) + cap s)%nat.
Proof.
  destruct (spsc_fifo 0 2 sched ltac:(done)) as (_ & _ & _ & H & _).
  split; [by vm_compute|]. split; [by vm_compute|].
  apply (H 12 12); by vm_compute.
Defined.

End SpscSample.
