(* ===== verification/MpscRing.v ===== *)
(** * src/runtime/mpsc_ring.h: the multi-producer single-consumer ring

    Any number of producer threads and one consumer, interleaved at the
    granularity of their shared-memory accesses (loads of [enqueuePos_] and of a
    cell's [seq], the weak compare-and-swap with its spurious failures, the write
    of the value, the publishing store).  Positions are unbounded numbers: the
    code compares them as signed 64-bit integers, so this is the ring up to its
    2^63-th push. *)

From Stdlib Require Import NArith ZArith Lia.
From S2P Require Import Prelude.

Local Open Scope nat_scope.

Section Mpsc.
Context {T : Type} (dflt : T).

Record Cell := mkCell {
  seq_ : nat;
  value_ : T;
}.

(** Inside [tryPush] (or [tryProduce]). *)
Inductive MProducerPc :=
| MIdle
| MLoadSeq (v : T) (pos : nat)     (* about to load the seq of the cell at pos *)
| MCas (v : T) (pos : nat)         (* cell free: about to claim pos *)
| MReload (v : T)                  (* behind: about to load enqueuePos_ again *)
| MWrite (v : T) (pos : nat)       (* claimed: about to write the value *)
| MPublish (v : T) (pos : nat).    (* about to store seq *)

(** Inside [tryPop] (or [tryConsume]). *)
Inductive MConsumerPc :=
| QIdle
| QRead
| QRecycle (v : T).

Record MpscRing := mkMpsc {
  cells_ : list Cell;
  enqueuePos_ : nat;
  dequeuePos_ : nat;
  mppc : list MProducerPc;         (* one per producer thread *)
  mcpc : MConsumerPc;
  claimed : list T;                (* ghost: values in the order of their claims *)
  taken : list T;                  (* ghost: values pops returned *)
}.

Definition mcap (s : MpscRing) : nat := length (cells_ s).
Definition cellAt (s : MpscRing) (pos : nat) : nat :=
  N.to_nat (N.land (N.of_nat pos) (N.of_nat (mcap s) - 1)).

Definition MpscRing_new (minCapacity : N) (producers : nat) : MpscRing :=
  let cap := bit_ceil (if (minCapacity <? 2)%N then 2%N else minCapacity) in
  mkMpsc ((λ i, mkCell i dflt) <$> seq 0 (N.to_nat cap)) 0 0 (replicate producers MIdle) QIdle [] [].

Definition set_mppc (i : nat) (pc : MProducerPc) (s : MpscRing) : MpscRing :=
  mkMpsc (cells_ s) (enqueuePos_ s) (dequeuePos_ s) (<[i := pc]> (mppc s)) (mcpc s)
    (claimed s) (taken s).

Definition set_cell (k : nat) (c : Cell) (s : MpscRing) : MpscRing :=
  mkMpsc (<[k := c]> (cells_ s)) (enqueuePos_ s) (dequeuePos_ s) (mppc s) (mcpc s)
    (claimed s) (taken s).

(** One step of producer [i]; [v] is what it pushes when a call starts, and
    [spurious] lets a weak compare-and-swap fail. *)
Definition mproducerStep (i : nat) (v : T) (spurious : bool) (s : MpscRing) : MpscRing :=
  match mppc s !! i with
  | None => s
  | Some MIdle => set_mppc i (MLoadSeq v (enqueuePos_ s)) s
  | Some (MLoadSeq v pos) =>
      match cells_ s !! cellAt s pos with
      | None => s
      | Some cell =>
          let dif := (Z.of_nat (seq_ cell) - Z.of_nat pos)%Z in
          if (dif =? 0)%Z then set_mppc i (MCas v pos) s
          else if (dif <? 0)%Z then set_mppc i MIdle s         (* full: returns false *)
          else set_mppc i (MReload v) s
      end
  | Some (MReload v) => set_mppc i (MLoadSeq v (enqueuePos_ s)) s
  | Some (MCas v pos) =>
      if (enqueuePos_ s =? pos) && negb spurious then
        mkMpsc (cells_ s) (pos + 1) (dequeuePos_ s) (<[i := MWrite v pos]> (mppc s)) (mcpc s)
          (claimed s ++ [v]) (taken s)
      else set_mppc i (MLoadSeq v (enqueuePos_ s)) s
  | Some (MWrite v pos) =>
      match cells_ s !! cellAt s pos with
      | None => s
      | Some cell =>
          set_mppc i (MPublish v pos) (set_cell (cellAt s pos) (mkCell (seq_ cell) v) s)
      end
  | Some (MPublish v pos) =>
      match cells_ s !! cellAt s pos with
      | None => s
      | Some cell =>
          set_mppc i MIdle (set_cell (cellAt s pos) (mkCell (pos + 1) (value_ cell)) s)
      end
  end.

(** One step of the consumer. *)
Definition mconsumerStep (s : MpscRing) : MpscRing :=
  match cells_ s !! cellAt s (dequeuePos_ s) with
  | None => s
  | Some cell =>
      match mcpc s with
      | QIdle =>
          mkMpsc (cells_ s) (enqueuePos_ s) (dequeuePos_ s) (mppc s)
            (if negb (seq_ cell =? dequeuePos_ s + 1) then QIdle else QRead)
            (claimed s) (taken s)
      | QRead =>
          mkMpsc (cells_ s) (enqueuePos_ s) (dequeuePos_ s) (mppc s) (QRecycle (value_ cell))
            (claimed s) (taken s)
      | QRecycle v =>
          mkMpsc (<[cellAt s (dequeuePos_ s) :=
                      mkCell (dequeuePos_ s + (mcap s - 1) + 1) (value_ cell)]> (cells_ s))
            (enqueuePos_ s) (dequeuePos_ s + 1) (mppc s) QIdle (claimed s) (taken s ++ [v])
      end
  end.

Definition mconsumerHasWork (s : MpscRing) : bool :=
  match cells_ s !! cellAt s (dequeuePos_ s) with
  | Some cell => seq_ cell =? dequeuePos_ s + 1
  | None => false
  end.

Inductive MSched := MRunProducer (i : nat) (v : T) (spurious : bool) | MRunConsumer.

Definition mpsc_step (s : MpscRing) (x : MSched) : MpscRing :=
  match x with
  | MRunProducer i v spurious => mproducerStep i v spurious s
  | MRunConsumer => mconsumerStep s
  end.

Definition mpsc_run (minCapacity : N) (producers : nat) (sched : list MSched) : MpscRing :=
  foldl mpsc_step (MpscRing_new minCapacity producers) sched.

(** ** The invariant *)

(** Position [pos] is claimed by a producer that has not published it yet. *)
Definition owns (pc : MProducerPc) (pos : nat) : Prop :=
  match pc with MWrite _ p | MPublish _ p => p = pos | _ => False end.

Definition cell_of (s : MpscRing) (pos : nat) : option Cell := cells_ s !! (pos mod mcap s).

Record mpsc_ok (s : MpscRing) : Prop := {
  mp_cap : ∃ k, (1 ≤ k ≤ 62)%N ∧ N.of_nat (mcap s) = (2 ^ k)%N;
  mp_claimed : length (claimed s) = enqueuePos_ s;
  mp_taken : taken s = take (dequeuePos_ s) (claimed s);
  mp_room : dequeuePos_ s ≤ enqueuePos_ s ≤ dequeuePos_ s + mcap s;
  (* free cells wait for their next position *)
  mp_free : ∀ pos, enqueuePos_ s ≤ pos < dequeuePos_ s + mcap s →
    ∃ v, cell_of s pos = Some (mkCell pos v);
  (* claimed positions are published, or owned by a producer *)
  mp_busy : ∀ pos, dequeuePos_ s ≤ pos < enqueuePos_ s →
    (∃ v, cell_of s pos = Some (mkCell (pos + 1) v) ∧ claimed s !! pos = Some v ∧
          ∀ i pc, mppc s !! i = Some pc → ¬ owns pc pos) ∨
    (∃ i pc v, mppc s !! i = Some pc ∧ owns pc pos ∧ cell_of s pos = Some (mkCell pos v));
  mp_distinct : ∀ i j pc pc' pos,
    mppc s !! i = Some pc → mppc s !! j = Some pc' → owns pc pos → owns pc' pos → i = j;
  mp_pc : ∀ i pc, mppc s !! i = Some pc →
    match pc with
    | MLoadSeq _ pos => pos ≤ enqueuePos_ s
    | MCas _ pos => pos ≤ enqueuePos_ s ∧ pos < dequeuePos_ s + mcap s
    | MWrite v pos =>
        dequeuePos_ s ≤ pos < enqueuePos_ s ∧ claimed s !! pos = Some v
    | MPublish v pos =>
        dequeuePos_ s ≤ pos < enqueuePos_ s ∧ claimed s !! pos = Some v ∧
        cell_of s pos = Some (mkCell pos v)
    | _ => True
    end;
  mp_cpc : match mcpc s with
           | QRead => dequeuePos_ s < enqueuePos_ s ∧
                      ∃ v, cell_of s (dequeuePos_ s) = Some (mkCell (dequeuePos_ s + 1) v)
           | QRecycle v => dequeuePos_ s < enqueuePos_ s ∧
                           claimed s !! dequeuePos_ s = Some v ∧
                           ∃ v', cell_of s (dequeuePos_ s) = Some (mkCell (dequeuePos_ s + 1) v')
           | QIdle => True
           end;
}.

Lemma mcap_ge s : mpsc_ok s → 2 ≤ mcap s.
Proof.
  intros Hs. destruct (mp_cap _ Hs) as (k & [Hk _] & E).
  pose proof (N.pow_le_mono_r 2 1 k ltac:(done) Hk). change (2 ^ 1)%N with 2%N in *. lia.
Qed.

Lemma cellAt_mod s pos : mpsc_ok s → cellAt s pos = pos mod mcap s.
Proof.
  intros Hs. destruct (mp_cap _ Hs) as (k & _ & E). unfold cellAt. rewrite E.
  replace (2 ^ k - 1)%N with (N.ones k) by (rewrite N.ones_equiv; lia).
  rewrite N.land_ones, <-E, <-Nat2N.inj_mod, Nat2N.id. done.
Qed.

(** Two positions of one window use different cells. *)
Lemma window_ne s p q :
  mpsc_ok s → dequeuePos_ s ≤ p < dequeuePos_ s + mcap s →
  dequeuePos_ s ≤ q < dequeuePos_ s + mcap s → p ≠ q → p mod mcap s ≠ q mod mcap s.
Proof.
  intros Hs Hp Hq Hne. destruct (Nat.lt_trichotomy p q) as [?|[?|?]]; [|done|].
  - apply mod_window. lia.
  - intros E. symmetry in E. revert E. apply mod_window. lia.
Qed.

(** Moving one producer between points where it owns nothing. *)
Lemma set_pc_ok i pc pc' s :
  mpsc_ok s → mppc s !! i = Some pc →
  (∀ pos, ¬ owns pc pos) → (∀ pos, ¬ owns pc' pos) →
  match pc' with
  | MLoadSeq _ pos => pos ≤ enqueuePos_ s
  | MCas _ pos => pos ≤ enqueuePos_ s ∧ pos < dequeuePos_ s + mcap s
  | _ => True
  end → mpsc_ok (set_mppc i pc' s).
Proof.
  intros Hs Hi Ho Ho' Hpc. destruct Hs as [H1 H2 H3 H4 H5 H6 H7 H8 H9]. split; try done; cbn.
  - intros pos Hpos. destruct (H6 pos Hpos) as [(v & Hc & Hv & Hn)|(j & pcj & v & Hj & Hown & Hc)].
    + left. exists v. split_and!; [done..|]. intros j pcj.
      intros [(-> & <- & _)|[_ Hj]]%list_lookup_insert_Some; [apply Ho'|by eapply Hn].
    + right. exists j, pcj, v. split_and!; try done. rewrite list_lookup_insert_ne; [done|].
      intros ->. rewrite Hi in Hj. injection Hj as ->. by eapply Ho.
  - intros j j' pcj pcj' pos [(-> & <- & _)|[_ Hj]]%list_lookup_insert_Some;
      intros [(-> & <- & _)|[_ Hj']]%list_lookup_insert_Some Ho1 Ho2; [done| | |by eapply H7].
    + by apply Ho' in Ho1.
    + by apply Ho' in Ho2.
  - intros j pcj [(-> & <- & _)|[_ Hj]]%list_lookup_insert_Some; [|exact (H8 j pcj Hj)].
    destruct pc'; try done; by destruct (Ho' pos).
Qed.

(** What [seq] says about the cell of a position at most at the tail. *)
Lemma seq_window s pos cell :
  mpsc_ok s → pos ≤ enqueuePos_ s → cell_of s pos = Some cell →
  (seq_ cell = pos → pos < dequeuePos_ s + mcap s) ∧
  (seq_ cell < pos → enqueuePos_ s = dequeuePos_ s + mcap s).
Proof.
  intros Hs Hpos Hc. pose proof (mcap_ge s Hs) as Hcap. pose proof (mp_room _ Hs) as Hroom.
  assert (Hle : ∀ q cl, dequeuePos_ s ≤ q < dequeuePos_ s + mcap s → cell_of s q = Some cl →
                q ≤ seq_ cl ≤ q + 1).
  { intros q cl Hq Hcl. destruct (Nat.lt_ge_cases q (enqueuePos_ s)).
    - destruct (mp_busy _ Hs q ltac:(lia)) as [(v & E & _)|(i & pc & v & _ & _ & E)];
        rewrite Hcl in E; injection E as ->; cbn; lia.
    - destruct (mp_free _ Hs q ltac:(lia)) as (v & E). rewrite Hcl in E. injection E as ->. cbn. lia. }
  destruct (decide (pos < dequeuePos_ s + mcap s)) as [Hlt|Hge].
  - split; [done|]. intros Hsq. destruct (decide (dequeuePos_ s ≤ pos)).
    + pose proof (Hle pos cell ltac:(lia) Hc). lia.
    + exfalso. set (d := dequeuePos_ s) in *. set (c := mcap s) in *.
      pose proof (Nat.mod_upper_bound (pos + c - d mod c) c ltac:(lia)) as Hm.
      set (m := (pos + c - d mod c) mod c) in *.
      assert (Hmod : (d + m) mod c = pos mod c).
      { subst m. rewrite Nat.Div0.add_mod_idemp_r. pose proof (Nat.mod_upper_bound d c ltac:(lia)).
        rewrite (Nat.div_mod_eq d c) at 1.
        replace (c * (d / c) + d mod c + (pos + c - d mod c)) with (pos + (d / c + 1) * c) by nia.
        apply Nat.Div0.mod_add. }
      assert (Hc' : cell_of s (d + m) = Some cell).
      { unfold cell_of in *. fold c in Hc |- *. by rewrite Hmod. }
      pose proof (Hle (d + m) cell ltac:(lia) Hc'). lia.
  - assert (pos = dequeuePos_ s + mcap s) as -> by lia. split; [|lia]. intros E. exfalso.
    assert (Hc' : cell_of s (dequeuePos_ s) = Some cell).
    { unfold cell_of in *. rewrite <-Hc. f_equal.
      rewrite <-(Nat.mul_1_l (mcap s)) at 2. by rewrite Nat.Div0.mod_add. }
    pose proof (Hle (dequeuePos_ s) cell ltac:(lia) Hc'). lia.
Qed.

(** An owned position's cell still carries the position itself. *)
Lemma owned_cell s i pc pos :
  mpsc_ok s → mppc s !! i = Some pc → owns pc pos →
  dequeuePos_ s ≤ pos < enqueuePos_ s ∧ ∃ v, cell_of s pos = Some (mkCell pos v).
Proof.
  intros Hs Hi Ho. pose proof (mp_pc _ Hs i pc Hi) as Hpc.
  assert (Hpos : dequeuePos_ s ≤ pos < enqueuePos_ s).
  { destruct pc; cbn in Ho; try done; subst; apply Hpc. }
  split; [done|]. destruct (mp_busy _ Hs pos Hpos) as [(v & _ & _ & Hn)|(j & pcj & v & _ & _ & E)].
  - by apply Hn in Hi.
  - by exists v.
Qed.

Lemma claim_ok i v pos s :
  mpsc_ok s → mppc s !! i = Some (MCas v pos) → enqueuePos_ s = pos →
  mpsc_ok (mkMpsc (cells_ s) (pos + 1) (dequeuePos_ s) (<[i := MWrite v pos]> (mppc s)) (mcpc s)
    (claimed s ++ [v]) (taken s)).
Proof.
  intros Hs Hi E. pose proof (mp_pc _ Hs i _ Hi) as [_ Hlt].
  destruct Hs as [H1 H2 H3 H4 H5 H6 H7 H8 H9].
  assert (Hlen : length (claimed s) = pos) by congruence.
  assert (Hold : ∀ q x, claimed s !! q = Some x → (claimed s ++ [v]) !! q = Some x)
    by (intros; by apply lookup_app_l_Some).
  split; unfold cell_of, mcap in *; cbn; try done.
  - rewrite length_app. cbn. lia.
  - rewrite take_app_le by lia. done.
  - lia.
  - intros q Hq. apply H5. lia.
  - intros q Hq. destruct (decide (q = pos)) as [->|Hne].
    + right. destruct (H5 pos ltac:(lia)) as [w Hw]. exists i, (MWrite v pos), w.
      split_and!; [|done..]. apply list_lookup_insert_eq. by eapply lookup_lt_Some.
    + destruct (H6 q ltac:(lia)) as [(w & Hc & Hw & Hn)|(j & pcj & w & Hj & Hown & Hc)].
      * left. exists w. split_and!; [done|by apply Hold|]. intros j pcj.
        intros [(-> & <- & _)|[_ Hj]]%list_lookup_insert_Some; [cbn; lia|by eapply Hn].
      * right. exists j, pcj, w. split_and!; try done. rewrite list_lookup_insert_ne; [done|].
        intros ->. rewrite Hi in Hj. by injection Hj as <-.
  - assert (Hnew : ∀ j pcj, mppc s !! j = Some pcj → ¬ owns pcj pos).
    { intros j pcj Hj Ho. pose proof (H8 j pcj Hj) as Hpc. destruct pcj; cbn in Ho; try done; subst; lia. }
    intros j j' pcj pcj' q [(-> & <- & _)|[_ Hj]]%list_lookup_insert_Some;
      intros [(-> & <- & _)|[_ Hj']]%list_lookup_insert_Some Ho1 Ho2; [done| | |by eapply H7].
    + cbn in Ho1. subst q. by apply Hnew in Hj'.
    + cbn in Ho2. subst q. by apply Hnew in Hj.
  - intros j pcj [(-> & <- & _)|[_ Hj]]%list_lookup_insert_Some.
    + split; [lia|]. rewrite <-Hlen. by rewrite list_lookup_middle.
    + pose proof (H8 j pcj Hj) as Hpc. destruct pcj; try done.
      * lia.
      * lia.
      * destruct Hpc as [? ?]. split; [lia|by apply Hold].
      * destruct Hpc as (? & ? & ?). split_and!; [lia|lia|by apply Hold|done].
  - destruct (mcpc s); try done.
    + destruct H9 as [? ?]. split; [lia|done].
    + destruct H9 as (? & ? & ?). split_and!; [lia|by apply Hold|done].
Qed.

(** Changing the cell of an owned position leaves the other cells alone. *)
Lemma cell_of_set s pos q c :
  mpsc_ok s → dequeuePos_ s ≤ pos < dequeuePos_ s + mcap s →
  dequeuePos_ s ≤ q < dequeuePos_ s + mcap s →
  cell_of (set_cell (pos mod mcap s) c s) q = if decide (q = pos) then Some c else cell_of s q.
Proof.
  intros Hs Hp Hq. unfold cell_of, mcap. cbn. rewrite length_insert. fold (mcap s).
  pose proof (mcap_ge s Hs). destruct (decide (q = pos)) as [->|Hne].
  - apply list_lookup_insert_eq. change (length (cells_ s)) with (mcap s).
    apply Nat.mod_upper_bound. lia.
  - apply list_lookup_insert_ne. intros E. by apply (window_ne s pos q Hs Hp Hq).
Qed.

(** The two steps of an owner: it writes the value, then publishes it. *)
Lemma owner_ok i pc pc' pos v c s :
  mpsc_ok s → mppc s !! i = Some pc → owns pc pos → claimed s !! pos = Some v →
  (pc' = MPublish v pos ∧ c = mkCell pos v) ∨ (pc' = MIdle ∧ c = mkCell (pos + 1) v) →
  mpsc_ok (set_mppc i pc' (set_cell (pos mod mcap s) c s)).
Proof.
  intros Hs Hi Hpc Hv Hnew. destruct (owned_cell s i pc pos Hs Hi Hpc) as [Hpos [w Hw]].
  pose proof (mp_room _ Hs) as Hroom. set (s2 := set_mppc _ _ _).
  assert (Hset : ∀ q, dequeuePos_ s ≤ q < dequeuePos_ s + mcap s →
                 cell_of s2 q = if decide (q = pos) then Some c else cell_of s q).
  { intros q Hq. by apply cell_of_set; [| lia |]. }
  assert (Hcap : mcap s2 = mcap s) by apply length_insert.
  assert (Hil : i < length (mppc s)) by (by eapply lookup_lt_Some).
  assert (Hown : ∀ j pcj, mppc s !! j = Some pcj → owns pcj pos → j = i).
  { intros j pcj Hj Ho. by apply (mp_distinct _ Hs j i pcj pc pos). }
  assert (Hpc' : ∀ q, owns pc' q → q = pos ∧ pc' = MPublish v pos ∧ c = mkCell pos v).
  { destruct Hnew as [[-> ->]|[-> ->]]; cbn; [|done]. by intros q <-. }
  destruct Hs as [H1 H2 H3 H4 H5 H6 H7 H8 H9].
  split; rewrite ?Hcap; try done; change (mppc s2) with (<[i := pc']> (mppc s)).
  - intros q Hq. rewrite Hset, decide_False by (cbn in *; lia). by apply H5.
  - intros q Hq. rewrite Hset by (cbn in *; lia). destruct (decide (q = pos)) as [->|Hne].
    + destruct Hnew as [[-> ->]|[-> ->]].
      * right. exists i, (MPublish v pos), v. split_and!; [|done..]. by apply list_lookup_insert_eq.
      * left. exists v. split_and!; [done..|]. intros j pcj.
        intros [(-> & <- & _)|[Hji Hj]]%list_lookup_insert_Some; [by intros []|].
        intros Ho. apply Hji. symmetry. by eapply Hown.
    + destruct (H6 q Hq) as [(x & Hc & Hx & Hn)|(j & pcj & x & Hj & Ho & Hc)].
      * left. exists x. split_and!; [done..|]. intros j pcj.
        intros [(-> & <- & _)|[_ Hj]]%list_lookup_insert_Some; [|by eapply Hn].
        intros Ho. by destruct (Hpc' q Ho).
      * right. exists j, pcj, x. split_and!; try done. rewrite list_lookup_insert_ne; [done|].
        intros ->. rewrite Hi in Hj. injection Hj as <-. destruct pc; cbn in *; congruence.
  - intros j j' pcj pcj' q [(-> & <- & _)|[_ Hj]]%list_lookup_insert_Some;
      intros [(-> & <- & _)|[_ Hj']]%list_lookup_insert_Some Ho1 Ho2; [done| | |by eapply H7].
    + apply Hpc' in Ho1 as [-> _]. symmetry. by eapply Hown.
    + apply Hpc' in Ho2 as [-> _]. by eapply Hown.
  - intros j pcj [(-> & <- & _)|[Hji Hj]]%list_lookup_insert_Some.
    + destruct Hnew as [[-> ->]|[-> ->]]; [|done]. split; [exact Hpos|]. split; [done|].
      rewrite Hset by lia. by rewrite decide_True.
    + pose proof (H8 j pcj Hj) as Hpcj. destruct pcj; try done.
      destruct Hpcj as (Hq & ? & Hc). split; [exact Hq|]. split; [done|].
      rewrite Hset by lia. rewrite decide_False; [done|].
      intros ->. apply Hji. symmetry. by eapply Hown.
  - assert (Hd : ∀ x, cell_of s (dequeuePos_ s) = Some (mkCell (dequeuePos_ s + 1) x) →
              cell_of s2 (dequeuePos_ s) = Some (mkCell (dequeuePos_ s + 1) x)).
    { intros x Hx. rewrite Hset by lia. rewrite decide_False; [done|]. intros E.
      rewrite E, Hw in Hx. injection Hx. lia. }
    change (mcpc s2) with (mcpc s). change (dequeuePos_ s2) with (dequeuePos_ s).
    destruct (mcpc s); [done| |]; naive_solver.
Qed.

Ltac move_pc := eapply set_pc_ok; [eassumption|eassumption|intros ? []|intros ? []|].

Lemma mproducer_ok i v b s : mpsc_ok s → mpsc_ok (mproducerStep i v b s).
Proof.
  intros Hs. unfold mproducerStep. destruct (mppc s !! i) as [pc|] eqn:Hi; [|done].
  pose proof (mp_pc _ Hs i pc Hi) as Hpc.
  destruct pc as [|w pos|w pos|w|w pos|w pos]; rewrite ?cellAt_mod by done.
  - by move_pc.
  - fold (cell_of s pos). destruct (cell_of s pos) as [cell|] eqn:Hc; [|done].
    pose proof (seq_window s pos cell Hs Hpc Hc) as [Hfree _].
    destruct (Z.eqb_spec (Z.of_nat (seq_ cell) - Z.of_nat pos) 0).
    + move_pc. split; [done|]. apply Hfree. lia.
    + case_match; by move_pc.
  - destruct (Nat.eqb_spec (enqueuePos_ s) pos) as [E|E]; cbn.
    + destruct b; cbn; [by move_pc|]. by apply claim_ok.
    + by move_pc.
  - by move_pc.
  - fold (cell_of s pos). destruct (owned_cell s i _ pos Hs Hi eq_refl) as [_ [x Hx]].
    rewrite Hx. eapply (owner_ok i _ _ pos w); [done..|apply Hpc|by left].
  - fold (cell_of s pos). destruct Hpc as (_ & Hv & ->). cbn.
    eapply (owner_ok i _ _ pos w); [done..|by right].
Qed.

(** A cell holding the value for the consumer's position is published. *)
Lemma ready_published s cell :
  mpsc_ok s → cell_of s (dequeuePos_ s) = Some cell → seq_ cell = dequeuePos_ s + 1 →
  dequeuePos_ s < enqueuePos_ s ∧ claimed s !! dequeuePos_ s = Some (value_ cell) ∧
  ∀ i pc, mppc s !! i = Some pc → ¬ owns pc (dequeuePos_ s).
Proof.
  intros Hs Hc Hq. pose proof (mp_room _ Hs). pose proof (mcap_ge s Hs).
  destruct (decide (dequeuePos_ s < enqueuePos_ s)) as [Hlt|Hge].
  - destruct (mp_busy _ Hs _ (conj (le_n _) Hlt)) as [(v & E & Hv & Hn)|(i & pc & v & _ & _ & E)];
      rewrite Hc in E; injection E as ->; cbn in Hq; [done|lia].
  - destruct (mp_free _ Hs (dequeuePos_ s) ltac:(lia)) as [v E].
    rewrite Hc in E. injection E as ->. cbn in Hq. lia.
Qed.

Lemma recycle_ok v cell s :
  mpsc_ok s → mcpc s = QRecycle v → cell_of s (dequeuePos_ s) = Some cell →
  mpsc_ok (mkMpsc (<[dequeuePos_ s mod mcap s :=
                       mkCell (dequeuePos_ s + (mcap s - 1) + 1) (value_ cell)]> (cells_ s))
    (enqueuePos_ s) (dequeuePos_ s + 1) (mppc s) QIdle (claimed s) (taken s ++ [v])).
Proof.
  intros Hs Hq Hc. pose proof (mp_cpc _ Hs) as Hcpc. rewrite Hq in Hcpc.
  destruct Hcpc as (Hlt & Hv & v' & E). rewrite Hc in E. injection E as ->.
  destruct (ready_published s _ Hs Hc eq_refl) as (_ & _ & Hno).
  pose proof (mp_room _ Hs) as Hroom. pose proof (mcap_ge s Hs) as Hcap2. set (s2 := mkMpsc _ _ _ _ _ _ _).
  assert (Hset : ∀ q, dequeuePos_ s < q < dequeuePos_ s + mcap s → cell_of s2 q = cell_of s q).
  { intros q Hr. unfold s2, cell_of, mcap. cbn. rewrite length_insert. fold (mcap s).
    apply list_lookup_insert_ne. apply window_ne; [done|lia..]. }
  assert (Hcap : mcap s2 = mcap s) by apply length_insert.
  assert (Hge : ∀ i pc pos, mppc s !! i = Some pc → owns pc pos → dequeuePos_ s < pos < enqueuePos_ s).
  { intros i pc pos Hi Ho. destruct (owned_cell s i pc pos Hs Hi Ho) as [Hpos _].
    assert (pos ≠ dequeuePos_ s) by (intros ->; by apply (Hno i pc)). lia. }
  destruct Hs as [H1 H2 H3 H4 H5 H6 H7 H8 H9].
  split; rewrite ?Hcap; try done; cbn [s2 enqueuePos_ dequeuePos_ mppc mcpc claimed taken].
  - rewrite H3, Nat.add_1_r. symmetry. by apply take_S_r.
  - lia.
  - intros q Hr. destruct (decide (q = dequeuePos_ s + mcap s)) as [->|].
    + exists v'. unfold s2, cell_of, mcap. cbn. rewrite length_insert. fold (mcap s).
      replace ((dequeuePos_ s + mcap s) mod mcap s) with (dequeuePos_ s mod mcap s).
      * rewrite list_lookup_insert_eq; [do 2 f_equal; lia|].
        change (length (cells_ s)) with (mcap s). apply Nat.mod_upper_bound. lia.
      * rewrite <-(Nat.Div0.mod_add (dequeuePos_ s) 1 (mcap s)). by rewrite Nat.mul_1_l.
    + rewrite Hset by lia. apply H5. lia.
  - intros q Hr. rewrite Hset by lia. apply H6. lia.
  - intros i pc Hi. pose proof (H8 i pc Hi) as Hpc. pose proof (Hge i pc) as Hgi.
    destruct pc as [|w pos|w pos|w|w pos|w pos]; try done; try (destruct Hpc; lia);
      specialize (Hgi pos Hi eq_refl).
    + split; [lia|apply Hpc].
    + split; [lia|]. rewrite Hset by lia. by destruct Hpc.
Qed.

Lemma mconsumer_ok s : mpsc_ok s → mpsc_ok (mconsumerStep s).
Proof.
  intros Hs. unfold mconsumerStep. rewrite cellAt_mod by done. fold (cell_of s (dequeuePos_ s)).
  destruct (cell_of s (dequeuePos_ s)) as [cell|] eqn:Hc; [|done].
  destruct (mcpc s) eqn:Hq.
  - destruct (Nat.eqb_spec (seq_ cell) (dequeuePos_ s + 1)) as [E|E]; cbn.
    + destruct (ready_published s cell Hs Hc E) as (Hlt & _). destruct Hs; split; try done.
      split; [done|]. exists (value_ cell).
      change (cell_of s (dequeuePos_ s) = Some (mkCell (dequeuePos_ s + 1) (value_ cell))).
      rewrite <-E, Hc. by destruct cell.
    + destruct Hs; by split.
  - pose proof (mp_cpc _ Hs) as Hcpc. rewrite Hq in Hcpc. destruct Hcpc as (Hlt & v & E).
    rewrite Hc in E. injection E as ->.
    destruct (ready_published s _ Hs Hc eq_refl) as (_ & Hv & _). destruct Hs; split; try done.
    split_and!; [done..|]. by exists v.
  - by apply recycle_ok.
Qed.

Lemma mpsc_new_ok minCapacity producers :
  (minCapacity ≤ 2 ^ 62)%N → mpsc_ok (MpscRing_new minCapacity producers).
Proof.
  intros Hmin.
  assert (∃ k, (1 ≤ k ≤ 62)%N ∧ bit_ceil (if (minCapacity <? 2)%N then 2%N else minCapacity) = (2 ^ k)%N)
    as (k & Hk & E).
  { destruct (N.ltb_spec minCapacity 2); [exists 1%N; by vm_compute|]. by apply bit_ceil_pow2. }
  pose proof (N.pow_nonzero 2 k ltac:(done)) as Hnz.
  assert (Hidle : ∀ i pc, mppc (MpscRing_new minCapacity producers) !! i = Some pc → pc = MIdle)
    by (by intros i pc [? _]%lookup_replicate).
  assert (Hcap : mcap (MpscRing_new minCapacity producers) = N.to_nat (2 ^ k)).
  { unfold mcap, MpscRing_new. cbn. by rewrite length_fmap, length_seq, E. }
  split; rewrite ?Hcap; cbn; try done; try lia.
  - exists k. split; [done|lia].
  - intros pos Hpos. exists dflt. unfold cell_of. rewrite Hcap, Nat.mod_small by lia. cbn.
    by rewrite E, list_lookup_fmap, lookup_seq_lt by lia.
  - by intros i j pc pc' pos ->%Hidle.
  - by intros i pc ->%Hidle.
Qed.

Lemma mpsc_run_ok n producers sched : (n ≤ 2 ^ 62)%N → mpsc_ok (mpsc_run n producers sched).
Proof.
  intros Hn. unfold mpsc_run.
  induction sched as [|x sched IH] using rev_ind; [by apply mpsc_new_ok|].
  rewrite foldl_app. destruct x; cbn; [by apply mproducer_ok|by apply mconsumer_ok].
Qed.

(** C31: the ring is a bounded FIFO queue for any number of producers, in every
    interleaving and with compare-and-swaps that fail spuriously.  What pops
    returned is a prefix of the pushed values in the order their positions were
    claimed, and at most the capacity is in flight; two producers inside their
    fill never share a cell, and neither shares the cell the consumer is reading;
    a push reports "full" only at an instant when every cell is claimed; and the
    wake predicate is true exactly when the consumer's next load finds a value. *)
Theorem mpsc_fifo n producers sched :
  (n ≤ 2 ^ 62)%N →
  let s := mpsc_run n producers sched in
  taken s = take (length (taken s)) (claimed s) ∧
  length (claimed s) ≤ length (taken s) + mcap s ∧
  (∀ i j pc pc' p q, mppc s !! i = Some pc → mppc s !! j = Some pc' → i ≠ j →
     owns pc p → owns pc' q → cellAt s p ≠ cellAt s q) ∧
  (∀ i pc p, mppc s !! i = Some pc → owns pc p → mcpc s ≠ QIdle →
     cellAt s p ≠ cellAt s (dequeuePos_ s)) ∧
  (∀ i v v' pos b, mppc s !! i = Some (MLoadSeq v pos) →
     mppc (mproducerStep i v' b s) !! i = Some MIdle →
     length (claimed s) = length (taken s) + mcap s) ∧
  (mcpc s = QIdle → mconsumerHasWork s = true ↔ mcpc (mconsumerStep s) = QRead).
Proof.
  intros Hn s. pose proof (mpsc_run_ok n producers sched Hn) as Hs. fold s in Hs. clearbody s.
  pose proof (mp_room _ Hs) as Hroom. pose proof (mp_claimed _ Hs) as Hcl. pose proof (mcap_ge s Hs).
  assert (Htk : length (taken s) = dequeuePos_ s) by (rewrite (mp_taken _ Hs), length_take; lia).
  rewrite Htk. split_and!; [apply Hs|lia|..].
  - intros i j pc pc' p q Hi Hj Hne Hp Hq. rewrite !cellAt_mod by done.
    pose proof (proj1 (owned_cell s i pc p Hs Hi Hp)). pose proof (proj1 (owned_cell s j pc' q Hs Hj Hq)).
    apply window_ne; [done|lia..|]. intros ->. by apply Hne, (mp_distinct _ Hs i j pc pc' q).
  - intros i pc p Hi Hp Hq. rewrite !cellAt_mod by done.
    pose proof (proj1 (owned_cell s i pc p Hs Hi Hp)) as Hpos.
    apply window_ne; [done|lia..|]. intros ->. pose proof (mp_cpc _ Hs) as Hcpc.
    destruct (owned_cell s i pc _ Hs Hi Hp) as [_ [v Hv]].
    assert (∃ w, cell_of s (dequeuePos_ s) = Some (mkCell (dequeuePos_ s + 1) w)) as [w Hw]
      by (destruct (mcpc s); naive_solver).
    rewrite Hv in Hw. injection Hw. lia.
  - intros i v v' pos b Hi. unfold mproducerStep. rewrite Hi, cellAt_mod by done.
    fold (cell_of s pos). destruct (cell_of s pos) as [cell|] eqn:Hc; [|congruence].
    pose proof (seq_window s pos cell Hs (mp_pc _ Hs i _ Hi) Hc) as [_ Hfull].
    assert (i < length (mppc s)) by (by eapply lookup_lt_Some).
    repeat case_match; cbn; rewrite list_lookup_insert_eq by done; try done.
    intros _. rewrite Hcl. apply Hfull. breflect. lia.
  - intros Hq. unfold mconsumerHasWork, mconsumerStep. rewrite Hq.
    destruct (cells_ s !! _) as [cell|]; [|by rewrite Hq]. cbn. by destruct (_ =? _).
Qed.

End Mpsc.

(** ** A sample run *)

Module MpscSample.

(** Two producers on a ring of two: producer 1 claims second but publishes
    first, a compare-and-swap fails spuriously, and a third push finds the ring
    full while producer 0 is still inside its fill. *)
Definition sched : list (@MSched nat) :=
  [MRunProducer 0 10 false; MRunProducer 0 10 false; MRunProducer 0 10 true;
   MRunProducer 0 10 false; MRunProducer 0 10 false;
   MRunProducer 1 11 false; MRunProducer 1 11 false; MRunProducer 1 11 false;
   MRunProducer 1 11 false; MRunProducer 1 11 false;
   MRunConsumer; MRunProducer 1 12 false].

Lemma mpsc_fifo_witness :
  let s := mpsc_run 0 2 2 sched in
  claimed s = [10; 11] ∧ mppc s = [MWrite 10 0; MLoadSeq 12 2] ∧ mcpc s = QIdle ∧
  length (claimed s) = length (taken s) + mcap s.
Proof.
  destruct (mpsc_fifo 0 2 2 sched ltac:(done)) as (_ & _ & _ & _ & H & _).
  split; [by vm_compute|]. split; [by vm_compute|]. split; [by vm_compute|].
  apply (H 1 12 12 2 false); by vm_compute.
Defined.

End MpscSample.
