(* ===== verification/WakeGate.v ===== *)
(** * src/runtime/wake_gate.h: the event count and the idle backoff

    [WakeGate]: one consumer and any number of producers, interleaved at the
    granularity of their shared accesses: the read-modify-writes of the packed
    [state_], its acquire load in the wait predicate, the mutex, the condition
    variable, and the ring the gate guards.  Ring stores become visible to the
    consumer as C++ promises and no sooner: an item is certain to be seen only
    once the consumer has read, from [state_], a value its producer's [fetch_add]
    is part of; until then [hasWork] may say either. *)

From Stdlib Require Import NArith ZArith Lia.
From S2P Require Import Prelude.

Local Open Scope N_scope.

Definition kEpochShift : N := 32.
Definition kEpochInc : N := N.shiftl 1 kEpochShift.
Definition kWaiterInc : N := 1.
Definition kWaiterMask : N := kEpochInc - 1.

(** Inside (publish and) [notify]. *)
Inductive GProducerPc :=
| GIdle
| GFetch             (* work published: about to fetch_add the epoch *)
| GLock              (* saw a waiter: about to lock mu_ *)
| GNotify            (* holds mu_: about to notify_all *)
| GUnlock.           (* holds mu_: about to release it *)

(** Inside [waitUntil]. *)
Inductive GConsumerPc :=
| WRun                       (* not waiting: works on the ring *)
| WCheck (epoch : N)         (* registered: about to call hasWork *)
| WLock (epoch : N)          (* about to lock mu_ *)
| WEpoch (epoch : N)         (* holds mu_: predicate, about to load state_ *)
| WWork (epoch : N)          (* holds mu_: predicate, about to call hasWork *)
| WSleep (epoch : N)         (* holds mu_: about to release it and block *)
| WAsleep (epoch : N)
| WWoken (epoch : N)         (* notified or spuriously: about to relock *)
| WTimedOut                  (* about to relock, then leave *)
| WUnlock                    (* holds mu_: about to release it *)
| WLeave.                    (* about to fetch_sub *)

(** How far a published item has got towards the consumer. *)
Inductive Visible :=
| Stored             (* in the ring *)
| Released           (* its producer's fetch_add came after it *)
| Acquired.          (* and the consumer has read state_ since *)

#[export] Instance Visible_eq_dec : EqDecision Visible.
Proof. solve_decision. Defined.

Inductive Owner := OProducer (i : nat) | OConsumer.

Record WakeGate := mkGate {
  state_ : N;
  mu_ : option Owner;
  gppc : list GProducerPc;
  gcpc : GConsumerPc;
  items : list (nat * Visible);   (* unconsumed work: its producer, how visible it is *)
}.

Definition WakeGate_new (producers : nat) : WakeGate :=
  mkGate 0 None (replicate producers GIdle) WRun [].

Definition release_of (i : nat) (it : nat * Visible) : nat * Visible :=
  if (it.1 =? i)%nat && bool_decide (it.2 = Stored) then (it.1, Released) else it.

Definition acquire (it : nat * Visible) : nat * Visible :=
  if bool_decide (it.2 = Released) then (it.1, Acquired) else it.

(** What [hasWork] answers; [b] where the memory model leaves it open. *)
Definition hasWork (b : bool) (its : list (nat * Visible)) : bool :=
  existsb (λ it, bool_decide (it.2 = Acquired)) its || (b && negb (bool_decide (its = []))).

Definition set_gp (i : nat) (pc : GProducerPc) (s : WakeGate) : WakeGate :=
  mkGate (state_ s) (mu_ s) (<[i := pc]> (gppc s)) (gcpc s) (items s).

Definition set_gc (pc : GConsumerPc) (s : WakeGate) : WakeGate :=
  mkGate (state_ s) (mu_ s) (gppc s) pc (items s).

Definition set_mu (o : option Owner) (s : WakeGate) : WakeGate :=
  mkGate (state_ s) o (gppc s) (gcpc s) (items s).

Definition wake (pc : GConsumerPc) : GConsumerPc :=
  match pc with WAsleep e => WWoken e | _ => pc end.

(** One step of producer [i]: publish, then [notify]. *)
Definition notifyStep (i : nat) (s : WakeGate) : WakeGate :=
  match gppc s !! i with
  | None => s
  | Some GIdle =>
      mkGate (state_ s) (mu_ s) (<[i := GFetch]> (gppc s)) (gcpc s) (items s ++ [(i, Stored)])
  | Some GFetch =>
      let prev := state_ s in
      mkGate (add64 prev kEpochInc) (mu_ s)
        (<[i := if negb (N.land prev kWaiterMask =? 0) then GLock else GIdle]> (gppc s)) (gcpc s)
        (release_of i <$> items s)
  | Some GLock =>
      match mu_ s with
      | None => set_gp i GNotify (set_mu (Some (OProducer i)) s)
      | Some _ => s
      end
  | Some GNotify => set_gp i GUnlock (set_gc (wake (gcpc s)) s)
  | Some GUnlock => set_gp i GIdle (set_mu None s)
  end.

(** One step of the consumer: [b] resolves an unsynchronised [hasWork]; [k] is how
    many items it takes from the ring while it is not waiting. *)
Definition waitStep (b : bool) (k : nat) (s : WakeGate) : WakeGate :=
  match gcpc s with
  | WRun =>
      if (k =? 0)%nat then
        mkGate (add64 (state_ s) kWaiterInc) (mu_ s) (gppc s)
          (WCheck (N.shiftr (state_ s) kEpochShift)) (acquire <$> items s)
      else mkGate (state_ s) (mu_ s) (gppc s) WRun (drop k (items s))
  | WCheck e => set_gc (if hasWork b (items s) then WLeave else WLock e) s
  | WLock e =>
      match mu_ s with None => set_gc (WEpoch e) (set_mu (Some OConsumer) s) | Some _ => s end
  | WEpoch e =>
      mkGate (state_ s) (mu_ s) (gppc s)
        (if negb (N.shiftr (state_ s) kEpochShift =? e) then WUnlock else WWork e)
        (acquire <$> items s)
  | WWork e => set_gc (if hasWork b (items s) then WUnlock else WSleep e) s
  | WSleep e => set_gc (WAsleep e) (set_mu None s)
  | WAsleep _ => s
  | WWoken e =>
      match mu_ s with None => set_gc (WEpoch e) (set_mu (Some OConsumer) s) | Some _ => s end
  | WTimedOut =>
      match mu_ s with None => set_gc WUnlock (set_mu (Some OConsumer) s) | Some _ => s end
  | WUnlock => set_gc WLeave (set_mu None s)
  | WLeave =>
      mkGate (sub64 (state_ s) kWaiterInc) (mu_ s) (gppc s) WRun (items s)
  end.

Inductive GSched :=
| RunNotify (i : nat)
| RunWait (b : bool) (k : nat)
| Spurious               (* the condition variable wakes for no reason *)
| Deadline.              (* the deadline, or kMaxPark, passes *)

Definition gate_step (s : WakeGate) (x : GSched) : WakeGate :=
  match x with
  | RunNotify i => notifyStep i s
  | RunWait b k => waitStep b k s
  | Spurious => set_gc (wake (gcpc s)) s
  | Deadline => match gcpc s with WAsleep _ => set_gc WTimedOut s | _ => s end
  end.

Definition gate_run (producers : nat) (sched : list GSched) : WakeGate :=
  foldl gate_step (WakeGate_new producers) sched.

(** ** The invariant *)

Definition registered (pc : GConsumerPc) : bool := match pc with WRun => false | _ => true end.

Definition consumer_holds (pc : GConsumerPc) : bool :=
  match pc with WEpoch _ | WWork _ | WSleep _ | WUnlock => true | _ => false end.

Definition producer_holds (pc : GProducerPc) : bool :=
  match pc with GNotify | GUnlock => true | _ => false end.

(** The consumer has looked for work and is on its way to sleep. *)
Definition committed (pc : GConsumerPc) : bool :=
  match pc with WWork _ | WSleep _ | WAsleep _ => true | _ => false end.

Record gate_ok (s : WakeGate) : Prop := {
  g_waiters : N.land (state_ s) kWaiterMask = (if registered (gcpc s) then 1 else 0);
  g_range : state_ s < two64;
  g_mu_consumer : mu_ s = Some OConsumer ↔ consumer_holds (gcpc s) = true;
  g_mu_producer i : mu_ s = Some (OProducer i) ↔ ∃ pc, gppc s !! i = Some pc ∧ producer_holds pc = true;
  (* a stored item's producer is about to bump the epoch *)
  g_stored i : (i, Stored) ∈ items s → gppc s !! i = Some GFetch;
  (* an item released since the consumer looked has a notification coming *)
  g_released i : committed (gcpc s) = true → (i, Released) ∈ items s →
    gppc s !! i = Some GLock ∨ gppc s !! i = Some GNotify;
  (* a sleeper has missed nothing it could have seen *)
  g_acquired i : match gcpc s with WSleep _ | WAsleep _ => (i, Acquired) ∉ items s | _ => True end;
}.

Lemma waiters_mod s : N.land s kWaiterMask = s mod 2 ^ 32.
Proof. change kWaiterMask with (N.ones 32). apply N.land_ones. Qed.

Lemma mod_two64_32 x : (x mod two64) mod 2 ^ 32 = x mod 2 ^ 32.
Proof.
  change two64 with (2 ^ 32 * 2 ^ 32). rewrite N.Div0.mod_mul_r, (N.mul_comm (2 ^ 32)), N.Div0.mod_add.
  apply N.Div0.mod_mod.
Qed.

Lemma epoch_keeps_waiters s : N.land (add64 s kEpochInc) kWaiterMask = N.land s kWaiterMask.
Proof.
  rewrite !waiters_mod. unfold add64. rewrite mod_two64_32. change kEpochInc with (1 * 2 ^ 32).
  apply N.Div0.mod_add.
Qed.

Lemma register_waiter s : N.land s kWaiterMask = 0 → N.land (add64 s kWaiterInc) kWaiterMask = 1.
Proof.
  rewrite !waiters_mod. unfold add64. rewrite mod_two64_32. intros H. by rewrite <-N.Div0.add_mod_idemp_l, H.
Qed.

Lemma leave_waiter s : s < two64 → N.land s kWaiterMask = 1 → N.land (sub64 s kWaiterInc) kWaiterMask = 0.
Proof.
  rewrite !waiters_mod. unfold sub64, kWaiterInc. rewrite mod_two64_32. intros Hs H.
  pose proof (N.div_mod s (2 ^ 32) ltac:(done)) as E. rewrite H in E.
  replace (s + two64 - 1) with (0 + (s / 2 ^ 32 + 2 ^ 32) * 2 ^ 32); [apply N.Div0.mod_add|].
  rewrite E at 2. change two64 with (2 ^ 32 * 2 ^ 32). lia.
Qed.

Lemma acquire_stored (i : nat) (its : list (nat * Visible)) : (i, Stored) ∈ acquire <$> its → (i, Stored) ∈ its.
Proof.
  unfold acquire. intros ([j v]&E&Hin)%list_elem_of_fmap. destruct v; cbn in E; naive_solver.
Qed.

Lemma acquire_released (i : nat) (its : list (nat * Visible)) : (i, Released) ∉ acquire <$> its.
Proof. intros ([j v]&E&_)%list_elem_of_fmap. unfold acquire in E. by destruct v. Qed.

Lemma release_stored (i j : nat) (its : list (nat * Visible)) : (j, Stored) ∈ release_of i <$> its → j ≠ i ∧ (j, Stored) ∈ its.
Proof.
  unfold release_of. intros ([k v]&E&Hin)%list_elem_of_fmap. cbn in E.
  destruct (Nat.eqb_spec k i), v; cbn in E; naive_solver.
Qed.

Lemma release_released (i j : nat) (its : list (nat * Visible)) : (j, Released) ∈ release_of i <$> its → j = i ∨ (j, Released) ∈ its.
Proof.
  unfold release_of. intros ([k v]&E&Hin)%list_elem_of_fmap. cbn in E.
  destruct (Nat.eqb_spec k i), v; cbn in E; naive_solver.
Qed.

Lemma release_acquired (i j : nat) (its : list (nat * Visible)) : (j, Acquired) ∈ release_of i <$> its → (j, Acquired) ∈ its.
Proof.
  unfold release_of. intros ([k v]&E&Hin)%list_elem_of_fmap. cbn in E.
  destruct (Nat.eqb_spec k i), v; cbn in E; naive_solver.
Qed.

Lemma hasWork_false b its i : hasWork b its = false → (i, Acquired) ∉ its.
Proof.
  unfold hasWork. intros [H _]%orb_false_iff Hin. apply not_true_iff_false in H. apply H.
  apply existsb_exists. exists (i, Acquired). split; [by apply list_elem_of_In|done].
Qed.

Lemma add64_lt a b : add64 a b < two64.
Proof. by apply N.mod_lt. Qed.

Lemma sub64_lt a b : sub64 a b < two64.
Proof. by apply N.mod_lt. Qed.

#[local] Opaque add64 sub64 kWaiterMask kEpochInc kEpochShift.

(** *** Producer steps *)

Definition holders (o : option Owner) (ps : list GProducerPc) : Prop :=
  ∀ i, o = Some (OProducer i) ↔ ∃ pc, ps !! i = Some pc ∧ producer_holds pc = true.

Lemma holders_same o ps i pc0 pc : ps !! i = Some pc0 → producer_holds pc = producer_holds pc0 →
  holders o ps → holders o (<[i := pc]> ps).
Proof.
  intros Hi Hp H j. rewrite (H j). destruct (decide (j = i)) as [->|Hne].
  - rewrite list_lookup_insert_eq by (by eapply lookup_lt_Some). naive_solver congruence.
  - by rewrite list_lookup_insert_ne.
Qed.

Lemma holders_lock ps i pc0 pc : ps !! i = Some pc0 → producer_holds pc = true →
  holders None ps → holders (Some (OProducer i)) (<[i := pc]> ps).
Proof.
  intros Hi Hp H j. pose proof (H j) as Hj. destruct (decide (j = i)) as [->|Hne].
  - rewrite list_lookup_insert_eq by (by eapply lookup_lt_Some). naive_solver.
  - rewrite list_lookup_insert_ne by done. naive_solver.
Qed.

Lemma holders_unlock ps i pc0 pc : ps !! i = Some pc0 → producer_holds pc = false →
  holders (Some (OProducer i)) ps → holders None (<[i := pc]> ps).
Proof.
  intros Hi Hp H j. split; [done|]. intros (pc'&Hj&Hh). destruct (decide (j = i)) as [->|Hne].
  - rewrite list_lookup_insert_eq in Hj by (by eapply lookup_lt_Some). naive_solver congruence.
  - rewrite list_lookup_insert_ne in Hj by done. assert (Some (OProducer i) = Some (OProducer j)) as E; [|by injection E as ->].
    apply H. eauto.
Qed.

(** Other producers' obligations survive a step of producer [i]. *)
Lemma pc_elsewhere (ps : list GProducerPc) (i j : nat) pc pc' : ps !! j = Some pc' → j ≠ i → <[i := pc]> ps !! j = Some pc'.
Proof. intros H Hne. by rewrite list_lookup_insert_ne. Qed.

Lemma pc_here (ps : list GProducerPc) (i : nat) pc0 pc : ps !! i = Some pc0 → <[i := pc]> ps !! i = Some pc.
Proof. intros H. apply list_lookup_insert_eq. by eapply lookup_lt_Some. Qed.

Lemma publish_ok i s : gate_ok s → gppc s !! i = Some GIdle → gate_ok (notifyStep i s).
Proof.
  intros [Hw Hr Hmc Hmp Hst Hrel Hacq] Hi. unfold notifyStep. rewrite Hi. split; cbn; try done.
  - by eapply holders_same.
  - intros j [Hj|Hj%list_elem_of_singleton]%elem_of_app.
    + destruct (decide (j = i)) as [->|]; [by apply Hst in Hj; congruence|by apply pc_elsewhere; auto].
    + simplify_eq. by eapply pc_here.
  - intros j Hc [Hj|Hj%list_elem_of_singleton]%elem_of_app; [|done].
    destruct (Hrel j Hc Hj) as [H|H]; (destruct (decide (j = i)) as [->|]; [congruence|]);
      [left|right]; by apply pc_elsewhere.
  - intros j. specialize (Hacq j). destruct (gcpc s); try done;
      intros [Hj|Hj%list_elem_of_singleton]%elem_of_app; done.
Qed.

Lemma fetch_ok i s : gate_ok s → gppc s !! i = Some GFetch → gate_ok (notifyStep i s).
Proof.
  intros [Hw Hr Hmc Hmp Hst Hrel Hacq] Hi. unfold notifyStep. rewrite Hi. cbv zeta. split; cbn.
  - by rewrite epoch_keeps_waiters.
  - apply add64_lt.
  - done.
  - eapply holders_same; [done| |done]. by destruct (negb _).
  - intros j [Hne Hj]%release_stored. apply pc_elsewhere; auto.
  - intros j Hc [->|Hj]%release_released.
    + left. assert (registered (gcpc s) = true) as Hreg by (by destruct (gcpc s)).
      rewrite Hreg in Hw. rewrite Hw. by eapply pc_here.
    + destruct (Hrel j Hc Hj) as [H|H]; (destruct (decide (j = i)) as [->|]; [congruence|]);
        [left|right]; by apply pc_elsewhere.
  - intros j. specialize (Hacq j). destruct (gcpc s); try done; by intros ?%release_acquired.
Qed.

Lemma lock_ok i s : gate_ok s → gppc s !! i = Some GLock → gate_ok (notifyStep i s).
Proof.
  intros Hs Hi. unfold notifyStep. rewrite Hi. destruct (mu_ s) eqn:Hmu; [done|].
  destruct Hs as [Hw Hr Hmc Hmp Hst Hrel Hacq]. rewrite Hmu in Hmc, Hmp. split; cbn; try done.
  - split; [done|]. intros H. by apply Hmc in H.
  - by eapply holders_lock.
  - intros j Hj. destruct (decide (j = i)) as [->|]; [by apply Hst in Hj; congruence|by apply pc_elsewhere; auto].
  - intros j Hc Hj. destruct (decide (j = i)) as [->|]; [right; by eapply pc_here|].
    destruct (Hrel j Hc Hj); [left|right]; by apply pc_elsewhere.
Qed.

Lemma wake_committed pc : committed (wake pc) = true → committed pc = true ∧ consumer_holds pc = true.
Proof. by destruct pc. Qed.

Lemma notify_ok i s : gate_ok s → gppc s !! i = Some GNotify → gate_ok (notifyStep i s).
Proof.
  intros [Hw Hr Hmc Hmp Hst Hrel Hacq] Hi. unfold notifyStep. rewrite Hi.
  assert (mu_ s = Some (OProducer i)) as Hmu by (apply Hmp; eauto). rewrite Hmu in Hmc.
  assert (consumer_holds (gcpc s) = false) as Hch by (apply not_true_iff_false; intros H; by apply Hmc in H).
  split; cbn; try done.
  - by destruct (gcpc s).
  - rewrite Hmu. split; [done|]. destruct (gcpc s); done.
  - by eapply holders_same.
  - intros j Hj. destruct (decide (j = i)) as [->|]; [by apply Hst in Hj; congruence|by apply pc_elsewhere; auto].
  - intros j [_ Hc]%wake_committed. congruence.
  - intros j. specialize (Hacq j). by destruct (gcpc s).
Qed.

Lemma unlock_ok i s : gate_ok s → gppc s !! i = Some GUnlock → gate_ok (notifyStep i s).
Proof.
  intros [Hw Hr Hmc Hmp Hst Hrel Hacq] Hi. unfold notifyStep. rewrite Hi.
  assert (mu_ s = Some (OProducer i)) as Hmu by (apply Hmp; eauto). rewrite Hmu in Hmc, Hmp.
  split; cbn; try done.
  - split; [done|]. intros H. by apply Hmc in H.
  - by eapply holders_unlock.
  - intros j Hj. destruct (decide (j = i)) as [->|]; [by apply Hst in Hj; congruence|by apply pc_elsewhere; auto].
  - intros j Hc Hj. destruct (Hrel j Hc Hj) as [H|H]; (destruct (decide (j = i)) as [->|]; [congruence|]);
      [left|right]; by apply pc_elsewhere.
Qed.

Lemma notifyStep_ok i s : gate_ok s → gate_ok (notifyStep i s).
Proof.
  intros Hs. destruct (gppc s !! i) as [pc|] eqn:Hi; [|by unfold notifyStep; rewrite Hi].
  destruct pc; [by apply publish_ok|by apply fetch_ok|by apply lock_ok|by apply notify_ok|by apply unlock_ok].
Qed.

(** *** Consumer steps *)

(** A change of the consumer's place that neither registers nor locks. *)
Lemma move_ok pc s : gate_ok s → registered pc = registered (gcpc s) →
  consumer_holds pc = consumer_holds (gcpc s) → (committed pc = true → committed (gcpc s) = true) →
  (∀ i, match pc with WSleep _ | WAsleep _ => (i, Acquired) ∉ items s | _ => True end) →
  gate_ok (set_gc pc s).
Proof.
  intros [Hw Hr Hmc Hmp Hst Hrel Hacq] Hreg Hh Hc Ha. split; cbn; try done.
  - by rewrite Hreg.
  - by rewrite Hh.
  - intros i Hpc. by apply Hrel, Hc.
Qed.

Lemma take_mutex_ok pc s : gate_ok s → mu_ s = None → registered pc = registered (gcpc s) →
  consumer_holds pc = true → committed pc = false → gate_ok (set_gc pc (set_mu (Some OConsumer) s)).
Proof.
  intros [Hw Hr Hmc Hmp Hst Hrel Hacq] Hmu Hreg Hh Hc. rewrite Hmu in Hmp. split; cbn; try done.
  - by rewrite Hreg.
  - intros i. split; [done|]. intros H. by apply Hmp in H.
  - by rewrite Hc.
  - by destruct pc.
Qed.

Lemma drop_mutex_ok pc s : gate_ok s → consumer_holds (gcpc s) = true → registered pc = true →
  registered (gcpc s) = true → consumer_holds pc = false → (committed pc = true → committed (gcpc s) = true) →
  (∀ i, match pc with WSleep _ | WAsleep _ => (i, Acquired) ∉ items s | _ => True end) →
  gate_ok (set_gc pc (set_mu None s)).
Proof.
  intros [Hw Hr Hmc Hmp Hst Hrel Hacq] Hh Hreg Hreg' Hh' Hc Ha. apply Hmc in Hh. rewrite Hh in Hmp.
  split; cbn; try done.
  - by rewrite Hreg, Hw, Hreg'.
  - by rewrite Hh'.
  - intros i. split; [done|]. intros H. by apply Hmp in H.
  - intros i Hpc. by apply Hrel, Hc.
Qed.

Lemma waitStep_ok b k s : gate_ok s → gate_ok (waitStep b k s).
Proof.
  intros Hs. pose proof (g_waiters _ Hs) as Hw. unfold waitStep. destruct (gcpc s) eqn:Hpc.
  - destruct (k =? 0)%nat; destruct Hs as [_ Hr Hmc Hmp Hst Hrel Hacq]; rewrite Hpc in *; split; cbn; try done.
    + by apply register_waiter.
    + apply add64_lt.
    + intros i Hi%acquire_stored. by apply Hst.
    + intros i Hi. apply Hst. rewrite <-(take_drop k (items s)), elem_of_app. by right.
  - destruct (hasWork _ _); apply move_ok; by rewrite ?Hpc.
  - destruct (mu_ s) eqn:Hmu; [done|]. apply take_mutex_ok; by rewrite ?Hpc.
  - destruct Hs as [_ Hr Hmc Hmp Hst Hrel Hacq]; rewrite Hpc in *; split; cbn; try done.
    + by destruct (negb _).
    + by destruct (negb _).
    + intros i Hi%acquire_stored. by apply Hst.
    + intros i _ Hi. by apply acquire_released in Hi.
    + intros i. by destruct (negb _).
  - destruct (hasWork _ _) eqn:Hwk; apply move_ok; rewrite ?Hpc; try done.
    intros i. by eapply hasWork_false.
  - apply drop_mutex_ok; rewrite ?Hpc; try done. intros i. pose proof (g_acquired _ Hs i). by rewrite Hpc in *.
  - done.
  - destruct (mu_ s) eqn:Hmu; [done|]. apply take_mutex_ok; by rewrite ?Hpc.
  - destruct (mu_ s) eqn:Hmu; [done|]. apply take_mutex_ok; by rewrite ?Hpc.
  - apply drop_mutex_ok; by rewrite ?Hpc.
  - destruct Hs as [_ Hr Hmc Hmp Hst Hrel Hacq]; rewrite Hpc in *; split; cbn; try done.
    + by apply leave_waiter.
    + apply sub64_lt.
Qed.

Lemma gate_new_ok n : gate_ok (WakeGate_new n).
Proof.
  split; cbn; try done; try by intros i ?%elem_of_nil.
  intros i. split; [done|]. intros (pc&[-> _]%lookup_replicate&H). done.
Qed.

Lemma gate_step_ok x s : gate_ok s → gate_ok (gate_step s x).
Proof.
  intros Hs. destruct x; cbn; [by apply notifyStep_ok|by apply waitStep_ok|..].
  - destruct (gcpc s) eqn:Hpc; try (cbn; rewrite <-Hpc; by destruct s).
    apply move_ok; by rewrite ?Hpc.
  - destruct (gcpc s) eqn:Hpc; try done. apply move_ok; by rewrite ?Hpc.
Qed.

Lemma gate_run_ok n sched : gate_ok (gate_run n sched).
Proof.
  unfold gate_run. induction sched as [|x sched IH] using rev_ind; [apply gate_new_ok|].
  rewrite foldl_app. by apply gate_step_ok.
Qed.

(** ** No wakeup is lost *)

Definition notifies (s : WakeGate) (ps : list nat) : WakeGate := foldl (λ s i, notifyStep i s) s ps.

(** The steps are all of producers that are inside [notify] when they take them:
    nobody publishes anything new. *)
Fixpoint inside (s : WakeGate) (ps : list nat) : Prop :=
  match ps with
  | [] => True
  | i :: ps => (∃ pc, gppc s !! i = Some pc ∧ pc ≠ GIdle) ∧ inside (notifyStep i s) ps
  end.

Lemma lock_wakes i e s : mu_ s = None → gcpc s = WAsleep e → gppc s !! i = Some GLock →
  inside s [i; i] ∧ gcpc (notifies s [i; i]) = WWoken e.
Proof.
  intros Hmu Hpc Hi.
  assert (notifyStep i s = set_gp i GNotify (set_mu (Some (OProducer i)) s)) as E by (unfold notifyStep; by rewrite Hi, Hmu).
  assert (gppc (notifyStep i s) !! i = Some GNotify) as Hi' by (rewrite E; by eapply pc_here). split.
  - cbn [inside]. split_and!; [by exists GLock|by exists GNotify|done].
  - change (gcpc (notifyStep i (notifyStep i s)) = WWoken e). unfold notifyStep at 1. rewrite Hi', E. cbn. by rewrite Hpc.
Qed.

Lemma fetch_wakes i e s : gate_ok s → mu_ s = None → gcpc s = WAsleep e → gppc s !! i = Some GFetch →
  inside s [i; i; i] ∧ gcpc (notifies s [i; i; i]) = WWoken e.
Proof.
  intros Hs Hmu Hpc Hi. pose proof (g_waiters _ Hs) as Hw. rewrite Hpc in Hw. cbn in Hw.
  destruct (lock_wakes i e (notifyStep i s)) as [Hin Hwoken];
    [by unfold notifyStep; rewrite Hi..|unfold notifyStep; rewrite Hi; cbn; rewrite Hw; by eapply pc_here|].
  split; [|exact Hwoken]. split; [by exists GFetch|exact Hin].
Qed.

(** The producer of any unconsumed item has yet to notify. *)
Lemma pending_producer e s i v : gate_ok s → gcpc s = WAsleep e → (i, v) ∈ items s →
  gppc s !! i = Some GFetch ∨ gppc s !! i = Some GLock ∨ gppc s !! i = Some GNotify.
Proof.
  intros Hs Hpc Hin. destruct v.
  - left. by apply (g_stored _ Hs).
  - right. apply (g_released _ Hs i); [by rewrite Hpc|done].
  - exfalso. pose proof (g_acquired _ Hs i) as Ha. by rewrite Hpc in Ha.
Qed.

Lemma free_mutex_wakes e s i v : gate_ok s → mu_ s = None → gcpc s = WAsleep e → (i, v) ∈ items s →
  ∃ ps, (length ps ≤ 3)%nat ∧ inside s ps ∧ gcpc (notifies s ps) = WWoken e.
Proof.
  intros Hs Hmu Hpc Hit. destruct (pending_producer e s i v Hs Hpc Hit) as [Hi|[Hi|Hi]].
  - exists [i; i; i]. split; [done|by apply fetch_wakes].
  - exists [i; i]. split; [cbn; lia|by apply lock_wakes].
  - exfalso. assert (mu_ s = Some (OProducer i)) as E by (apply (g_mu_producer _ Hs); eauto). congruence.
Qed.

(** Whoever holds the mutex, the producers inside [notify] wake the sleeper. *)
Lemma sleeper_wakes e s i v : gate_ok s → gcpc s = WAsleep e → (i, v) ∈ items s →
  ∃ ps, (length ps ≤ 4)%nat ∧ inside s ps ∧ gcpc (notifies s ps) = WWoken e.
Proof.
  intros Hs Hpc Hit. destruct (mu_ s) as [[j|]|] eqn:Hmu.
  - destruct (proj1 (g_mu_producer _ Hs j) Hmu) as (pc&Hj&Hh). destruct pc; try done.
    + exists [j]. split_and!; [cbn; lia|split; [by exists GNotify|done]|]. cbn. unfold notifyStep. rewrite Hj. cbn. by rewrite Hpc.
    + destruct (free_mutex_wakes e (notifyStep j s) i v) as (ps&Hl&Hin&Hw);
        [by apply notifyStep_ok|unfold notifyStep; by rewrite Hj..|].
      exists (j :: ps). split_and!; [cbn; lia|split; [by exists GUnlock|done]|done].
  - apply (g_mu_consumer _ Hs) in Hmu. by rewrite Hpc in Hmu.
  - destruct (free_mutex_wakes e s i v Hs Hmu Hpc Hit) as (ps&Hl&Hin&Hw). exists ps. split; [lia|done].
Qed.

(** C14: no wakeup is lost.  Whenever the consumer sleeps, in any interleaving,
    every item in the ring was put there by a producer that is still inside
    [notify] and has not notified yet: it is about to change the epoch, to lock
    the mutex, or to notify.  And when there is such an item, at most four steps of
    producers that are inside [notify], with nothing new published, wake the
    consumer, whatever its deadline. *)
Theorem no_lost_wakeup n sched e :
  let s := gate_run n sched in
  gcpc s = WAsleep e →
  (∀ i v, (i, v) ∈ items s → gppc s !! i = Some GFetch ∨ gppc s !! i = Some GLock ∨ gppc s !! i = Some GNotify) ∧
  (items s ≠ [] → ∃ ps, (length ps ≤ 4)%nat ∧ inside s ps ∧ gcpc (notifies s ps) = WWoken e).
Proof.
  intros s Hpc. pose proof (gate_run_ok n sched) as Hs. fold s in Hs. clearbody s. split.
  - intros i v. by apply (pending_producer e).
  - intros Hne. destruct (items s) as [|[i v] its] eqn:E; [done|]. apply (sleeper_wakes e s i v); [done|done|]. rewrite E. left.
Qed.

(** The consumer registers, finds nothing and sleeps; then producer 0 publishes. *)
Definition sleeper : list GSched :=
  [RunWait true 0; RunWait true 0; RunWait true 0; RunWait true 0; RunWait true 0; RunWait true 0; RunNotify 0].

Lemma no_lost_wakeup_witness :
  gcpc (gate_run 1 sleeper) = WAsleep 0 ∧ items (gate_run 1 sleeper) = [(0%nat, Stored)] ∧
  ∃ ps, (length ps ≤ 4)%nat ∧ inside (gate_run 1 sleeper) ps ∧ gcpc (notifies (gate_run 1 sleeper) ps) = WWoken 0.
Proof.
  split; [by vm_compute|]. split; [by vm_compute|]. apply (no_lost_wakeup 1 sleeper 0); by vm_compute.
Defined.

(** ** SpinBackoff *)

Local Open Scope Z_scope.

Definition kPauses : Z := 4096.
Definition kYields : Z := 64.

Inductive IdleAction := CpuPause | YieldThread | SleepMicros (us : Z).

Definition int_max : Z := 2 ^ 31 - 1.

Record SpinBackoff := mkBackoff { count_ : Z }.

Definition SpinBackoff_new : SpinBackoff := mkBackoff 0.

Definition onWork (b : SpinBackoff) : SpinBackoff := mkBackoff 0.

(** [None]: [++count_] overflows an [int], which is undefined behaviour. *)
Definition onIdle (b : SpinBackoff) : option (IdleAction * SpinBackoff) :=
  if count_ b =? int_max then None
  else
    let b := mkBackoff (count_ b + 1) in
    Some (if count_ b <=? kPauses then CpuPause
          else if count_ b <=? kPauses + kYields then YieldThread
          else SleepMicros 20, b).

(** [n] idle rounds in a row: what the last one did. *)
Fixpoint idles (n : nat) (b : SpinBackoff) : option (option IdleAction * SpinBackoff) :=
  match n with
  | O => Some (None, b)
  | S n => '(_, b) ← idles n b; '(a, b) ← onIdle b; Some (Some a, b)
  end.

Lemma idles_count n : Z.of_nat n ≤ int_max →
  ∃ a, idles n SpinBackoff_new = Some (a, mkBackoff (Z.of_nat n)).
Proof.
  induction n as [|n IH]; intros Hn; [by eexists|]. destruct IH as [a E]; [lia|]. cbn [idles]. rewrite E. cbn.
  unfold onIdle. cbn [count_]. destruct (Z.eqb_spec (Z.of_nat n) int_max); [lia|]. cbn.
  eexists. repeat f_equal. lia.
Qed.

(** The backoff escalates as documented - 4096 pauses, 64 yields, then sleeps
    of 20 microseconds - for as long as its counter lasts: the counter is an [int]
    that nothing stops, and the 2^31-th idle round in a row overflows it. *)
Theorem backoff_escalates n : (0 < n)%nat →
  idles n SpinBackoff_new =
    if Z.of_nat n <=? int_max then
      Some (Some (if Z.of_nat n <=? 4096 then CpuPause
                  else if Z.of_nat n <=? 4160 then YieldThread else SleepMicros 20),
            mkBackoff (Z.of_nat n))
    else None.
Proof.
  induction n as [|n IH]; [lia|]. intros _. destruct (Z.leb_spec (Z.of_nat (S n)) int_max) as [Hle|Hgt].
  - destruct (idles_count n) as [a E]; [lia|]. cbn [idles]. rewrite E. cbn [mbind option_bind]. unfold onIdle.
    cbn [count_]. destruct (Z.eqb_spec (Z.of_nat n) int_max); [lia|]. cbn [mbind option_bind].
    replace (Z.of_nat (S n)) with (Z.of_nat n + 1) by lia. done.
  - cbn [idles]. destruct (decide (n = 0)%nat) as [->|Hn]; [done|]. rewrite IH by lia.
    destruct (Z.leb_spec (Z.of_nat n) int_max); [|done]. cbn [mbind option_bind]. unfold onIdle.
    cbn [count_]. destruct (Z.eqb_spec (Z.of_nat n) int_max); [done|lia].
Qed.

Lemma backoff_escalates_witness :
  idles 4161 SpinBackoff_new = Some (Some (SleepMicros 20), mkBackoff 4161).
Proof. rewrite (backoff_escalates 4161); [by vm_compute|lia]. Defined.
