(* ===== verification/NodeRuntime.v ===== *)
(** * src/runtime/node_runtime.h, node_runtime.cpp: the threaded runtime

    Three threads around one core: the Raft thread ([raftLoop]) owns the core, the
    apply thread ([applyLoop]) owns the state machine, the tx thread ([txLoop])
    writes frames.  They meet only in four rings, modelled as the bounded FIFO
    queues SpscRing.v and MpscRing.v show them to be, with their slots: a slot is
    filled and used in place and keeps what it held.

    Threads interleave at ring operations.  A call of the core offers entries to
    the apply ring and frames to the tx ring as it goes; how far the other two
    threads get between two such offers is part of the schedule of the call.  How
    an idle consumer waits is WakeGate.v. *)

From Stdlib Require Import NArith Strings.Byte Lia.
From S2P Require Import Prelude Messages Codec Frame Transport Log RaftCore RaftNode Cluster Sink.
From S2P Require Import RaftSpec RaftInv RaftRefine RaftSafety.

Local Open Scope N_scope.

(** ** Rings *)

(** Published slots, oldest first, and free slots in the order of their reuse. *)
Record Ring {T : Type} := mkRing {
  r_items : list T;
  r_free : list T;
}.
#[global] Arguments Ring : clear implicits.
#[global] Arguments mkRing {T}.

Definition Ring_new {T} (minCapacity : N) (slot : T) : Ring T :=
  mkRing [] (replicate (N.to_nat (bit_ceil (if minCapacity <? 2 then 2 else minCapacity))) slot).

(** [fill] and [use] work on the slot in place and hand something back. *)
Definition tryProduce {T A} (fill : T → A * T) (r : Ring T) : option A * Ring T :=
  match r_free r with
  | [] => (None, r)
  | slot :: free => let '(a, slot) := fill slot in (Some a, mkRing (r_items r ++ [slot]) free)
  end.

Definition tryConsume {T A} (use : T → A * T) (r : Ring T) : option A * Ring T :=
  match r_items r with
  | [] => (None, r)
  | slot :: items => let '(a, slot) := use slot in (Some a, mkRing items (r_free r ++ [slot]))
  end.

Definition r_capacity {T} (r : Ring T) : nat := (length (r_items r) + length (r_free r))%nat.

Record TxItem := mkTxItem { tx_to : NodeId; tx_frame : list byte }.
Record ApplyItem := mkApplyItem { ai_index : LogIndex; ai_entry : LogEntry }.

(** An inbound slot; [ProposeDone] callbacks by name. *)
Record InEvent := mkInEvent {
  ev_decoded : DecodedMessage;
  ev_pool : DecodePool;
  ev_valid : bool;
  ev_isPropose : bool;
  ev_command : Command;
  ev_done : option N;
}.

Inductive WaitMode := Block | Spin.

Record NodeRuntimeConfig := mkRuntimeConfig {
  inboundRingSize : N;
  txRingSize : N;
  applyRingSize : N;
  waitMode : WaitMode;
}.
Definition defaultRuntimeConfig : NodeRuntimeConfig := mkRuntimeConfig 4096 4096 4096 Block.

(** ** The tx side *)

(** [item.frame.resize(n)]: keeps what is there, zeroes what is new. *)
Definition resize (n : nat) (bs : list byte) : list byte := take n bs ++ replicate (n - length bs) x00.

(** The fill of [sendFromPipeline]: did the encoder fail, and the slot. *)
Definition fillTx (selfId to : NodeId) (m : Message) (item : TxItem) : bool * TxItem :=
  let frame := resize (kLengthPrefixSize + encodedSize m) (tx_frame item) in
  let '(bodyLen, body) := encodeMessage selfId to m (drop kLengthPrefixSize frame) in
  if (bodyLen =? 0)%nat then (true, mkTxItem to [])
  else (false, mkTxItem to (writeLengthPrefix (N.of_nat bodyLen mod two32) ++ body)).

(** Where the tx thread is: draining the first or the second ring (has this
    round sent anything?), about to load [stopTx_], or gone. *)
Inductive TxPc := TxRaft (did : bool) | TxApply (did : bool) | TxCheck | TxExit.

Inductive TxRing := RaftTx | ApplyTx.

#[export] Instance TxRing_eq_dec : EqDecision TxRing.
Proof. solve_decision. Defined.

Record TxSide := mkTxSide {
  raftTx_ : Ring TxItem;
  applyTx_ : Ring TxItem;
  tx_pc : TxPc;
  stopTx_ : bool;
  wire : list (TxRing * NodeId * list byte);      (* calls of Transport::sendFrame *)
  sent : list (TxRing * NodeId * Message);        (* ghost: messages a ring took *)
}.

Definition tx_ring (q : TxRing) (t : TxSide) : Ring TxItem :=
  match q with RaftTx => raftTx_ t | ApplyTx => applyTx_ t end.

Definition set_tx_ring (q : TxRing) (r : Ring TxItem) (t : TxSide) : TxSide :=
  match q with
  | RaftTx => mkTxSide r (applyTx_ t) (tx_pc t) (stopTx_ t) (wire t) (sent t)
  | ApplyTx => mkTxSide (raftTx_ t) r (tx_pc t) (stopTx_ t) (wire t) (sent t)
  end.

Definition set_tx_pc (pc : TxPc) (t : TxSide) : TxSide :=
  mkTxSide (raftTx_ t) (applyTx_ t) pc (stopTx_ t) (wire t) (sent t).

(** The use of [txLoop]: an empty frame is skipped. *)
Definition useTx (item : TxItem) : option (NodeId * list byte) * TxItem :=
  (if bool_decide (tx_frame item = []) then None else Some (tx_to item, tx_frame item), item).

(** One turn of an inner loop: [None] when the ring is empty. *)
Definition drainTx (q : TxRing) (t : TxSide) : option TxSide :=
  match tryConsume useTx (tx_ring q t) with
  | (None, _) => None
  | (Some sentFrame, r) =>
      let t := set_tx_ring q r t in
      Some (mkTxSide (raftTx_ t) (applyTx_ t) (tx_pc t) (stopTx_ t)
              (wire t ++ match sentFrame with Some (to, f) => [(q, to, f)] | None => [] end) (sent t))
  end.

(** One step of [txLoop]. *)
Definition txStep (t : TxSide) : TxSide :=
  match tx_pc t with
  | TxRaft did =>
      match drainTx RaftTx t with
      | Some t => set_tx_pc (TxRaft true) t
      | None => set_tx_pc (TxApply did) t
      end
  | TxApply did =>
      match drainTx ApplyTx t with
      | Some t => set_tx_pc (TxApply true) t
      | None => set_tx_pc (if did then TxRaft false else TxCheck) t
      end
  | TxCheck => set_tx_pc (if stopTx_ t then TxExit else TxRaft false) t
  | TxExit => t
  end.

(** [sendFromPipeline] on a pipeline thread, whose ring is [q]. *)
Definition sendFromPipeline (selfId : NodeId) (q : TxRing) (to : NodeId) (m : Message) (t : TxSide) :
    TxSide :=
  match tryProduce (fillTx selfId to m) (tx_ring q t) with
  | (None, _) => t                                   (* backlog: dropped *)
  | (Some _, r) =>
      let t := set_tx_ring q r t in
      mkTxSide (raftTx_ t) (applyTx_ t) (tx_pc t) (stopTx_ t) (wire t) (sent t ++ [(q, to, m)])
  end.

(** A run of sends; before each, the tx thread takes as many steps as scheduled. *)
Fixpoint sendAll (selfId : NodeId) (q : TxRing) (sched : list nat) (ms : list (NodeId * Message))
    (t : TxSide) : TxSide :=
  match ms with
  | [] => t
  | (to, m) :: ms =>
      let t := Nat.iter (hd 0%nat sched) txStep t in
      sendAll selfId q (tl sched) ms (sendFromPipeline selfId q to m t)
  end.

(** ** The apply side *)

Section Runtime.
Context {P L SM R Y : Type}.
Context `{!PersistentState P} `{!RaftLog L} `{!StateMachine SM} `{!Rng R}.

(** The transport's id, the configuration, the state machine, and [onApplied_]: a callback with a
    state of its own, and what it sends. *)
Context (selfId : NodeId) (cfg : NodeRuntimeConfig) (sm0 : SM) (app0 : Y).
Context (onApplied : LogIndex → LogEntry → list byte → Y → list (NodeId * Message) * Y).

(** The apply ring, the apply thread's state, and the schedule: how many items
    the apply thread takes before each coming offer. *)
Record ApplySide := mkApplySide {
  applyRing_ : Ring ApplyItem;
  as_sm : SM;
  as_app : Y;
  as_calls : list (LogIndex * LogEntry * list byte);   (* calls of onApplied_ *)
  as_out : list (NodeId * Message);                    (* sent by them, not yet framed *)
  as_sched : list nat;
}.

(** The use of [applyLoop]. *)
Definition applyOne (a : ApplySide) : ApplySide :=
  match tryConsume (λ item, (item, item)) (applyRing_ a) with
  | (None, _) => a
  | (Some item, r) =>
      let '(result, sm) := sm_apply (as_sm a) (e_command (ai_entry item)) in
      let '(out, app) := onApplied (ai_index item) (ai_entry item) result (as_app a) in
      mkApplySide r sm app (as_calls a ++ [(ai_index item, ai_entry item, result)])
        (as_out a ++ out) (as_sched a)
  end.

(** The fill of the apply sink. *)
Definition fillApply (i : LogIndex) (e : LogEntry) (item : ApplyItem) : unit * ApplyItem :=
  (tt, mkApplyItem i (mkLogEntry (e_term e) (e_command e))).

(** The apply sink installed by [start]: refuse rather than block. *)
#[local] Instance applySink : ApplySink ApplySide := λ a i e,
  let a := Nat.iter (hd 0%nat (as_sched a)) applyOne a in
  let a := mkApplySide (applyRing_ a) (as_sm a) (as_app a) (as_calls a) (as_out a) (tl (as_sched a)) in
  match tryProduce (fillApply i e) (applyRing_ a) with
  | (None, _) => (false, a)
  | (Some _, r) => (true, mkApplySide r (as_sm a) (as_app a) (as_calls a) (as_out a) (as_sched a))
  end.

Local Abbreviation Core := (@RaftCore P L SM R ApplySide).

(** ** The Raft side *)

(** The callbacks of the core: the client handler and the service hook (the
    client service's), both running on the Raft thread. *)
Context (onClient : option (NodeId → ClientRequest → Core → Core)).
Context (serviceHook : option (TimePoint → Core → TimePoint * Core)).

(** What the Raft thread calls on the core. *)
Inductive Call :=
| CHandle (env : Envelope) (m : Message)
| CPropose (cmd : Command)
| CTick
| CPump
| CHook.

Definition run_call (now : TimePoint) (call : Call) (c : Core) : Core :=
  match call with
  | CHandle env m => handle onClient now env m c
  | CPropose cmd => (propose now cmd c).2
  | CTick => tick now c
  | CPump => pumpApply c
  | CHook => match serviceHook with Some h => (h now c).2 | None => c end
  end.

(** The Raft thread inside [raftLoop]: not running, draining (how many so far),
    at [tick], [pumpApply] and the hook, at the end of the turn, gone. *)
Inductive RaftPc :=
| RDown
| RDrain (drained : nat)
| RTick (drained : nat)
| RPump (drained : nat)
| RHook (drained : nat)
| RTop
| RExit.

(** The apply thread: not running, at the ring, about to load [stopApply_], gone. *)
Inductive ApplyPc := ADown | ALoop | ACheck | AExit.

(** How far [stop] has got: each stage joins the thread before. *)
Inductive StopPc := NoStop | JoinRaft | JoinApply | JoinTx.

Record NodeRuntime := mkRuntime {
  core_ : Core;
  inbound_ : Ring InEvent;
  txSide : TxSide;
  raftPc : RaftPc;
  applyPc : ApplyPc;
  stopPc : StopPc;
  stopRaft_ : bool;
  stopApply_ : bool;
  started_ : bool;
  doneCalls : list (N * option LogIndex);         (* ProposeDone calls *)
  accepted : list Call;                           (* ghost: what the inbound ring took *)
  called : list Call;                             (* ghost: inbound calls made on the core *)
}.

Definition set_inbound (r : Ring InEvent) (acc : list Call) (t : NodeRuntime) : NodeRuntime :=
  mkRuntime (core_ t) r (txSide t) (raftPc t) (applyPc t) (stopPc t) (stopRaft_ t) (stopApply_ t)
    (started_ t) (doneCalls t) (accepted t ++ acc) (called t).

Definition set_tx (x : TxSide) (t : NodeRuntime) : NodeRuntime :=
  mkRuntime (core_ t) (inbound_ t) x (raftPc t) (applyPc t) (stopPc t) (stopRaft_ t) (stopApply_ t)
    (started_ t) (doneCalls t) (accepted t) (called t).

Definition set_core (c : Core) (t : NodeRuntime) : NodeRuntime :=
  mkRuntime c (inbound_ t) (txSide t) (raftPc t) (applyPc t) (stopPc t) (stopRaft_ t) (stopApply_ t)
    (started_ t) (doneCalls t) (accepted t) (called t).

Definition set_raftPc (pc : RaftPc) (t : NodeRuntime) : NodeRuntime :=
  mkRuntime (core_ t) (inbound_ t) (txSide t) pc (applyPc t) (stopPc t) (stopRaft_ t) (stopApply_ t)
    (started_ t) (doneCalls t) (accepted t) (called t).

Definition set_applyPc (pc : ApplyPc) (t : NodeRuntime) : NodeRuntime :=
  mkRuntime (core_ t) (inbound_ t) (txSide t) (raftPc t) pc (stopPc t) (stopRaft_ t) (stopApply_ t)
    (started_ t) (doneCalls t) (accepted t) (called t).

Definition add_done (d : option N) (i : option LogIndex) (t : NodeRuntime) : NodeRuntime :=
  mkRuntime (core_ t) (inbound_ t) (txSide t) (raftPc t) (applyPc t) (stopPc t) (stopRaft_ t) (stopApply_ t)
    (started_ t) (doneCalls t ++ match d with Some d => [(d, i)] | None => [] end) (accepted t) (called t).

Definition add_called (call : Call) (t : NodeRuntime) : NodeRuntime :=
  mkRuntime (core_ t) (inbound_ t) (txSide t) (raftPc t) (applyPc t) (stopPc t) (stopRaft_ t) (stopApply_ t)
    (started_ t) (doneCalls t) (accepted t) (called t ++ [call]).

(** The constructor; the slots come with stocked pools, which hold no bytes yet. *)
Definition NodeRuntime_new (core : Core) : NodeRuntime :=
  mkRuntime core
    (Ring_new (inboundRingSize cfg)
       (mkInEvent emptyDecoded (mkPool (replicate 16 []) [[]]) false false [] None))
    (mkTxSide (Ring_new (txRingSize cfg) (mkTxItem 0 [])) (Ring_new (txRingSize cfg) (mkTxItem 0 []))
       (TxRaft false) false [] [])
    RDown ADown NoStop false false false [] [] [].

Definition ApplySide_new : ApplySide :=
  mkApplySide (Ring_new (applyRingSize cfg) (mkApplyItem 0 (mkLogEntry 0 []))) sm0 app0 [] [] [].

(** *** Entry points, callable from any thread *)

Definition enqueue (env : Envelope) (m : Message) (t : NodeRuntime) : NodeRuntime :=
  if stopRaft_ t then t
  else
    let fill ev := (tt, mkInEvent (mkDecoded env m) (ev_pool ev) true false (ev_command ev) (ev_done ev)) in
    match tryProduce fill (inbound_ t) with
    | (None, _) => t
    | (Some _, r) => set_inbound r [CHandle env m] t
    end.

(** [enqueueFrame]: (keep the connection, sender); decodes into the slot. *)
Definition enqueueFrame (body : list byte) (t : NodeRuntime) : (bool * NodeId) * NodeRuntime :=
  if stopRaft_ t then ((false, 0), t)
  else
    let fill ev :=
      let '(valid, decoded, pool) := decodeMessageInto body (ev_decoded ev) (ev_pool ev) in
      ((valid, if valid then env_from (dm_envelope decoded) else 0),
       mkInEvent decoded pool valid false (ev_command ev) (ev_done ev)) in
    match tryProduce fill (inbound_ t) with
    | (None, _) => ((true, 0), t)
    | (Some (decodeOk, from), r) =>
        ((decodeOk, from),
         set_inbound r
           (match decodeMessage body with
            | Some dm => [CHandle (dm_envelope dm) (dm_message dm)]
            | None => []
            end) t)
    end.

Definition proposeAsync (command : Command) (done : option N) (t : NodeRuntime) : NodeRuntime :=
  if stopRaft_ t then add_done done None t
  else
    let fill ev := (tt, mkInEvent (ev_decoded ev) (ev_pool ev) true true command done) in
    match tryProduce fill (inbound_ t) with
    | (None, _) => add_done done None t
    | (Some _, r) => set_inbound r [CPropose command] t
    end.

(** *** The Raft thread *)

Definition set_sched (sched : list nat) (c : Core) : Core :=
  set_applySink
    ((λ a, mkApplySide (applyRing_ a) (as_sm a) (as_app a) (as_calls a) (as_out a) sched) <$> applySink_ c) c.

Definition pending_out (c : Core) : list (NodeId * Message) := from_option as_out [] (applySink_ c).

Definition clear_out (c : Core) : Core :=
  set_applySink
    ((λ a, mkApplySide (applyRing_ a) (as_sm a) (as_app a) (as_calls a) [] (as_sched a)) <$> applySink_ c) c.

(** Messages the core sent in a call. *)
Definition sent_in (c c' : Core) : list (NodeId * Message) :=
  omap (λ e, match e with ESend to m => Some (to, m) | _ => None end) (new_fx c c').

(** A call on the core: [sa] schedules the apply thread, [st] the tx thread. *)
Definition callCore (sa st : list nat) (now : TimePoint) (call : Call) (t : NodeRuntime) : NodeRuntime :=
  let c := set_sched sa (core_ t) in
  let c' := run_call now call c in
  let x := sendAll selfId RaftTx st (sent_in c c') (txSide t) in
  let x := sendAll selfId ApplyTx (drop (length (sent_in c c')) st) (pending_out c') x in
  (* an apply thread that took items meanwhile is back at the ring *)
  let pc := match applyPc t with
            | ACheck => if existsb (Nat.ltb 0) sa then ALoop else ACheck
            | pc => pc
            end in
  set_applyPc pc (set_core (clear_out c') (set_tx x t)).

(** The use of [raftLoop]: what to call, what to report, and the slot after it. *)
Definition useEvent (ev : InEvent) : InEvent * InEvent :=
  (ev,
   if ev_valid ev && ev_isPropose ev
   then mkInEvent (ev_decoded ev) (ev_pool ev) (ev_valid ev) (ev_isPropose ev) [] None
   else ev).

Definition event_call (ev : InEvent) : option Call :=
  if negb (ev_valid ev) then None
  else if ev_isPropose ev then Some (CPropose (ev_command ev))
  else Some (CHandle (dm_envelope (ev_decoded ev)) (dm_message (ev_decoded ev))).

Definition consumeEvent (sa st : list nat) (now : TimePoint) (ev : InEvent) (t : NodeRuntime) : NodeRuntime :=
  match event_call ev with
  | None => t
  | Some call =>
      let idx := match call with CPropose cmd => (propose now cmd (set_sched sa (core_ t))).1 | _ => None end in
      let t := add_called call (callCore sa st now call t) in
      if ev_isPropose ev then add_done (ev_done ev) idx t else t
  end.

Definition kMaxDrainPerTick : nat := 1024.

(** One step of [raftLoop]. *)
Definition raftStep (sa st : list nat) (now : TimePoint) (t : NodeRuntime) : NodeRuntime :=
  match raftPc t with
  | RDown | RExit => t
  | RDrain drained =>
      if (drained <? kMaxDrainPerTick)%nat then
        match tryConsume useEvent (inbound_ t) with
        | (None, _) => set_raftPc (RTick drained) t
        | (Some ev, r) =>
            set_raftPc (RDrain (S drained)) (consumeEvent sa st now ev (set_inbound r [] t))
        end
      else set_raftPc (RTick drained) t
  | RTick drained => set_raftPc (RPump drained) (callCore sa st now CTick t)
  | RPump drained => set_raftPc (RHook drained) (callCore sa st now CPump t)
  | RHook drained => set_raftPc RTop (callCore sa st now CHook t)
  | RTop => set_raftPc (if stopRaft_ t then RExit else RDrain 0) t
  end.

(** What the end of a turn does: go on, back off, or park until a deadline. *)
Inductive RaftIdle := Continue | Backoff | Park (deadline : TimePoint).

Definition raftIdle (mode : WaitMode) (drained : nat) (hookDeadline : TimePoint) (c : Core) : RaftIdle :=
  if (0 <? drained)%nat then Continue
  else if lastApplied_ c <? commitIndex_ c then Backoff
  else
    match mode with
    | Block => Park (if hookDeadline <? nextDeadline c then hookDeadline else nextDeadline c)
    | Spin => Backoff
    end.

(** *** The apply thread *)

Definition applyStep (st : list nat) (t : NodeRuntime) : NodeRuntime :=
  match applyPc t, applySink_ (core_ t) with
  | ALoop, Some a =>
      match r_items (applyRing_ a) with
      | [] => set_applyPc ACheck t
      | _ =>
          let c := set_applySink (Some (applyOne a)) (core_ t) in
          let x := sendAll selfId ApplyTx st (pending_out c) (txSide t) in
          set_core (clear_out c) (set_tx x t)
      end
  | ACheck, _ => set_applyPc (if stopApply_ t then AExit else ALoop) t
  | _, _ => t
  end.

(** *** Start and stop *)

Definition startRuntime (now : TimePoint) (t : NodeRuntime) : NodeRuntime :=
  if started_ t then t
  else
    let c := core_ t in
    let c := set_applySink (Some (default ApplySide_new (applySink_ c))) c in
    let c := start now c in
    let x := txSide t in
    mkRuntime c (inbound_ t)
      (mkTxSide (raftTx_ x) (applyTx_ x) (TxRaft false) false (wire x) (sent x))
      RTop ALoop NoStop false false true (doneCalls t) (accepted t) (called t).

(** One stage of [stop]: a join waits until the thread has left its loop. *)
Definition stopStep (t : NodeRuntime) : NodeRuntime :=
  match stopPc t with
  | NoStop =>
      if started_ t
      then mkRuntime (core_ t) (inbound_ t) (txSide t) (raftPc t) (applyPc t) JoinRaft true (stopApply_ t)
             (started_ t) (doneCalls t) (accepted t) (called t)
      else t
  | JoinRaft =>
      match raftPc t with
      | RExit => mkRuntime (core_ t) (inbound_ t) (txSide t) RDown (applyPc t) JoinApply (stopRaft_ t) true
                   (started_ t) (doneCalls t) (accepted t) (called t)
      | _ => t
      end
  | JoinApply =>
      match applyPc t with
      | AExit =>
          let x := txSide t in
          mkRuntime (core_ t) (inbound_ t)
            (mkTxSide (raftTx_ x) (applyTx_ x) (tx_pc x) true (wire x) (sent x))
            (raftPc t) ADown JoinTx (stopRaft_ t) (stopApply_ t) (started_ t) (doneCalls t) (accepted t) (called t)
      | _ => t
      end
  | JoinTx =>
      match tx_pc (txSide t) with
      | TxExit => mkRuntime (core_ t) (inbound_ t) (txSide t) (raftPc t) (applyPc t) NoStop (stopRaft_ t)
                    (stopApply_ t) false (doneCalls t) (accepted t) (called t)
      | _ => t
      end
  end.

(** ** Interleavings *)

Inductive Act :=
| AStart (now : TimePoint)
| AStop
| AEnqueue (env : Envelope) (m : Message)
| AFrame (body : list byte)
| APropose (cmd : Command) (done : option N)
| ARaft (sa st : list nat) (now : TimePoint)
| AApply (st : list nat)
| ATx.

Definition act (t : NodeRuntime) (x : Act) : NodeRuntime :=
  match x with
  | AStart now => startRuntime now t
  | AStop => stopStep t
  | AEnqueue env m => enqueue env m t
  | AFrame body => (enqueueFrame body t).2
  | APropose cmd done => proposeAsync cmd done t
  | ARaft sa st now => raftStep sa st now t
  | AApply st => applyStep st t
  | ATx => set_tx (txStep (txSide t)) t
  end.

Definition run_acts (t : NodeRuntime) (acts : list Act) : NodeRuntime := foldl act t acts.

(** ** The tx rings *)

Lemma resize_length n bs : length (resize n bs) = n.
Proof. unfold resize. rewrite length_app, length_take, length_replicate. lia. Qed.

(** The frame does not depend on what the slot held. *)
Lemma fillTx_frame to m item :
  (fillTx selfId to m item).2 = mkTxItem to (default [] (frameFor selfId to m)).
Proof.
  unfold fillTx, frameFor. cbv zeta.
  set (o1 := drop kLengthPrefixSize (resize _ _)). set (o2 := drop kLengthPrefixSize (replicate _ _)).
  assert (length o1 = encodedSize m) as E1.
  { subst o1. rewrite length_drop, resize_length. unfold kLengthPrefixSize. lia. }
  assert (length o2 = encodedSize m) as E2.
  { subst o2. rewrite length_drop, length_replicate. unfold kLengthPrefixSize. lia. }
  clearbody o1 o2. destruct (decide (N.of_nat (payloadSize m) ≤ kMaxPayloadSize)) as [Hle|Hgt].
  - destruct (encode_fits selfId to m o1 Hle) as (b1&->&Hl1&Ht1); [lia|].
    destruct (encode_fits selfId to m o2 Hle) as (b2&->&Hl2&Ht2); [lia|].
    rewrite take_ge in Ht1, Ht2 by lia. subst b1 b2. by destruct (_ =? _)%nat.
  - unfold encodeMessage. cbv zeta.
    by destruct (N.ltb_spec kMaxPayloadSize (N.of_nat (payloadSize m))); [|lia].
Qed.

Definition wire_of (q : TxRing) (t : TxSide) : list (NodeId * list byte) :=
  omap (λ x, if decide (x.1.1 = q) then Some (x.1.2, x.2) else None) (wire t).

Definition queued (q : TxRing) (t : TxSide) : list (NodeId * list byte) :=
  omap (λ it, (useTx it).1) (r_items (tx_ring q t)).

(** The frames of what a ring took; a message that does not encode has none. *)
Definition framed (q : TxRing) (t : TxSide) : list (NodeId * list byte) :=
  omap (λ x, if decide (x.1.1 = q) then pair x.1.2 <$> frameFor selfId x.1.2 x.2 else None) (sent t).

Definition tx_ok (t : TxSide) : Prop := ∀ q, wire_of q t ++ queued q t = framed q t.

Lemma frameFor_nonempty to m f : frameFor selfId to m = Some f → f ≠ [].
Proof. unfold frameFor. destruct (encodeMessage _ _ _ _) as [n b]. destruct (_ =? _)%nat; [done|]. by intros [= <-]. Qed.

Lemma sendFromPipeline_ok q to m t : tx_ok t → tx_ok (sendFromPipeline selfId q to m t).
Proof.
  intros Ht. unfold sendFromPipeline, tryProduce. destruct (r_free (tx_ring q t)) as [|slot free] eqn:Ef; [done|].
  pose proof (fillTx_frame to m slot) as Hf. destruct (fillTx selfId to m slot) as [b slot']. cbn in Hf. subst slot'.
  intros q'. specialize (Ht q'). unfold wire_of, queued, framed in *.
  destruct (decide (q' = q)) as [->|Hne].
  - destruct q; cbn [set_tx_ring tx_ring raftTx_ applyTx_ wire sent r_items] in *; rewrite !omap_app; rewrite app_assoc, Ht;
      f_equal; cbn; rewrite decide_True by done; destruct (frameFor selfId to m) as [f|] eqn:E; cbn; try done;
      rewrite bool_decide_eq_false_2 by (by eapply frameFor_nonempty); done.
  - destruct q, q'; try done; cbn [set_tx_ring tx_ring raftTx_ applyTx_ wire sent r_items] in *;
      rewrite omap_app; cbn; by rewrite app_nil_r.
Qed.

Lemma drainTx_ok q t t' : tx_ok t → drainTx q t = Some t' → tx_ok t'.
Proof.
  intros Ht. unfold drainTx, tryConsume. destruct (r_items (tx_ring q t)) as [|it its] eqn:E; [done|].
  intros [= <-] q'. specialize (Ht q'). unfold wire_of, queued, framed in *.
  destruct q, q'; cbn [set_tx_ring tx_ring raftTx_ applyTx_ wire sent r_items] in *; rewrite <-Ht, ?E, omap_app;
    cbn; destruct (bool_decide _); cbn; by rewrite ?app_nil_r, <-?app_assoc.
Qed.

Lemma txStep_ok t : tx_ok t → tx_ok (txStep t).
Proof.
  intros Ht. unfold txStep. destruct (tx_pc t); [..|done].
  - destruct (drainTx RaftTx t) as [t'|] eqn:E; [|done]. by eapply drainTx_ok in E.
  - destruct (drainTx ApplyTx t) as [t'|] eqn:E; [|done]. by eapply drainTx_ok in E.
  - done.
Qed.

Lemma sendAll_ok q sched ms t : tx_ok t → tx_ok (sendAll selfId q sched ms t).
Proof.
  revert sched t. induction ms as [|[to m] ms IH]; intros sched t Ht; cbn [sendAll]; [done|].
  apply IH, sendFromPipeline_ok. by induction (hd 0%nat sched) as [|n IHn]; [|apply txStep_ok].
Qed.

(** ** The apply ring *)

Definition item_pair (it : ApplyItem) : LogIndex * LogEntry := (ai_index it, ai_entry it).

(** Applied already, and on the way. *)
Definition done_entries (a : ApplySide) : list (LogIndex * LogEntry) := fst <$> as_calls a.
Definition ring_entries (a : ApplySide) : list (LogIndex * LogEntry) := item_pair <$> r_items (applyRing_ a).

(** The apply thread has run the state machine on exactly what it took. *)
Definition side_ok (a : ApplySide) : Prop :=
  as_sm a = run_sm sm0 (snd <$> done_entries a) ∧
  (snd <$> as_calls a) = outputs sm0 (snd <$> done_entries a).

(** Together they are what the core gave away. *)
Definition ring_inv (s : option ApplySide) (l : list (LogIndex * LogEntry)) : Prop :=
  match s with
  | None => False
  | Some a => done_entries a ++ ring_entries a = l ∧ side_ok a
  end.

Lemma applyOne_handed a : done_entries (applyOne a) ++ ring_entries (applyOne a) = done_entries a ++ ring_entries a.
Proof.
  unfold applyOne, tryConsume, done_entries, ring_entries. destruct (r_items (applyRing_ a)) as [|it its] eqn:E; [by rewrite E|].
  destruct (sm_apply _ _), (onApplied _ _ _ _). cbn. rewrite fmap_app, <-app_assoc. done.
Qed.

Lemma applyOne_side a : side_ok a → side_ok (applyOne a).
Proof.
  intros [Hsm Hout]. unfold applyOne, tryConsume. destruct (r_items (applyRing_ a)) as [|it its]; [done|].
  destruct (sm_apply (as_sm a) _) as [r sm] eqn:E, (onApplied _ _ _ _). unfold side_ok, done_entries in *.
  cbn [as_sm as_calls]. rewrite !fmap_app, !list_fmap_singleton. cbn [fst snd].
  by rewrite run_sm_snoc, outputs_snoc, <-Hsm, E, Hout.
Qed.

Lemma applyOne_inv a l : ring_inv (Some a) l → ring_inv (Some (applyOne a)) l.
Proof. intros [Hl Hs]. split; [by rewrite applyOne_handed|by apply applyOne_side]. Qed.

Lemma applySome_inv n a l : ring_inv (Some a) l → ring_inv (Some (Nat.iter n applyOne a)) l.
Proof. intros H. induction n as [|n IH]; [done|]. cbn. by apply applyOne_inv. Qed.

#[local] Instance ring_sink_inv : SinkInv ring_inv.
Proof.
  split; [| |done]; intros k i e k' l Hk; unfold sink_offer, applySink; cbv zeta;
    pose proof (applySome_inv (hd 0%nat (as_sched k)) k l Hk) as Hk1;
    set (a := Nat.iter _ _ k) in *; clearbody a; unfold tryProduce; cbn;
    destruct (r_free (applyRing_ a)) as [|slot free] eqn:Ef; intros [= <-]; [done|].
  destruct Hk1 as [Hl Hs]. split; [|done]. unfold ring_entries, done_entries in *. cbn.
  rewrite fmap_app, app_assoc, Hl. cbn. by destruct e.
Qed.

(** ** What the callbacks may do *)

(** The client service touches the core by proposing and sending. *)
Inductive service_calls (c : Core) : Core → Prop :=
| svc_none : service_calls c c
| svc_propose now cmd c' : service_calls c c' → service_calls c (propose now cmd c').2
| svc_batch now cmds c' : service_calls c c' → service_calls c (proposeBatch now cmds c').2
| svc_send to m c' : service_calls c c' → service_calls c (send to m c').

Lemma service_sink c c' : service_calls c c' → sink_holds ring_inv c → sink_holds ring_inv c'.
Proof.
  intros H Hc. induction H as [|now cmd c' _ IH|now cmds c' _ IH|to m c' _ IH]; [done|..].
  - by apply (sink_propose ring_inv).
  - by apply (sink_proposeBatch ring_inv).
  - by apply sink_emit.
Qed.

Section Callbacks.
Hypothesis client_calls : ∀ f from r c, onClient = Some f → service_calls c (f from r c).
Hypothesis hook_calls : ∀ h now c, serviceHook = Some h → service_calls c (h now c).2.

Lemma run_call_sink now call c : sink_holds ring_inv c → sink_holds ring_inv (run_call now call c).
Proof.
  intros Hc. destruct call as [env m|cmd| | |]; cbn.
  - apply (sink_handle ring_inv); [|done]. intros f Hf from r c1 H1.
    eapply service_sink; [by apply client_calls|done].
  - by apply (sink_propose ring_inv).
  - by apply (sink_tick ring_inv).
  - by apply (sink_applyLoop ring_inv).
  - destruct serviceHook as [h|] eqn:E; [|done]. eapply service_sink; [by apply hook_calls|done].
Qed.

Lemma set_sched_sink sa c : sink_holds ring_inv c → sink_holds ring_inv (set_sched sa c).
Proof. unfold sink_holds, set_sched. cbn. by destruct (applySink_ c). Qed.

Lemma clear_out_sink c : sink_holds ring_inv c → sink_holds ring_inv (clear_out c).
Proof. unfold sink_holds, clear_out. cbn. by destruct (applySink_ c). Qed.

Lemma callCore_sink sa st now call t : sink_holds ring_inv (core_ t) → sink_holds ring_inv (core_ (callCore sa st now call t)).
Proof. intros H. by apply clear_out_sink, run_call_sink, set_sched_sink. Qed.

(** ** The invariant of the runtime *)

Definition option_list {A} (x : option A) : list A := match x with Some a => [a] | None => [] end.

(** Before the first start nothing has been applied and no thread runs. *)
Definition not_started (t : NodeRuntime) : Prop :=
  applySink_ (core_ t) = None ∧ applied (fx_ (core_ t)) = [] ∧ raftPc t = RDown.

Record runtime_ok (t : NodeRuntime) : Prop := {
  rt_sink : sink_holds ring_inv (core_ t) ∨ not_started t;
  rt_inbound : called t ++ omap event_call (r_items (inbound_ t)) = accepted t;
  rt_tx : tx_ok (txSide t);
}.

Lemma inbound_ok ev free t : runtime_ok t →
  runtime_ok (set_inbound (mkRing (r_items (inbound_ t) ++ [ev]) free) (option_list (event_call ev)) t).
Proof.
  intros [Hs Hi Ht]. split; [done| |done]. cbn. by rewrite omap_app, app_assoc, Hi.
Qed.

Lemma enqueue_ok env m t : runtime_ok t → runtime_ok (enqueue env m t).
Proof.
  intros H. unfold enqueue. destruct (stopRaft_ t); [done|]. unfold tryProduce.
  destruct (r_free (inbound_ t)) as [|slot free]; [done|].
  apply (inbound_ok (mkInEvent (mkDecoded env m) (ev_pool slot) true false (ev_command slot) (ev_done slot)) free t H).
Qed.

Lemma propose_async_ok cmd done t : runtime_ok t → runtime_ok (proposeAsync cmd done t).
Proof.
  intros H. unfold proposeAsync. destruct (stopRaft_ t); [by destruct H|]. unfold tryProduce.
  destruct (r_free (inbound_ t)) as [|slot free]; [by destruct H|].
  apply (inbound_ok (mkInEvent (ev_decoded slot) (ev_pool slot) true true cmd done) free t H).
Qed.

Lemma enqueueFrame_ok body t : runtime_ok t → runtime_ok (enqueueFrame body t).2.
Proof.
  intros H. unfold enqueueFrame. destruct (stopRaft_ t); [done|]. unfold tryProduce.
  destruct (r_free (inbound_ t)) as [|slot free]; [done|].
  destruct (decodeMessageInto body (ev_decoded slot) (ev_pool slot)) as [[valid dm] pool] eqn:E.
  rewrite (decodeInto_decode _ _ _ _ _ _ E). cbn [snd].
  pose proof (inbound_ok (mkInEvent dm pool valid false (ev_command slot) (ev_done slot)) free t H) as H1.
  by destruct valid.
Qed.

(** A call on the core keeps the invariant. *)
Lemma callCore_ok sa st now call t : runtime_ok t → raftPc t ≠ RDown → runtime_ok (callCore sa st now call t).
Proof.
  intros [[Hs|(_&_&Hpc)] Hi Ht] Hne; [|done]. split.
  - left. by apply callCore_sink.
  - done.
  - by apply sendAll_ok, sendAll_ok.
Qed.

Lemma raftPc_ok pc t : runtime_ok t → raftPc t ≠ RDown → runtime_ok (set_raftPc pc t).
Proof. intros [[Hs|(_&_&Hpc)] Hi Ht] Hne; [|done]. split; [by left|done..]. Qed.

Lemma consume_ok sa st now slot items free t : runtime_ok t → raftPc t ≠ RDown →
  r_items (inbound_ t) = slot :: items →
  runtime_ok (consumeEvent sa st now slot (set_inbound (mkRing items free) [] t)).
Proof.
  intros H Hpc E. pose proof (rt_inbound _ H) as Hi. rewrite E in Hi. cbn in Hi.
  unfold consumeEvent. destruct (event_call slot) as [call|].
  - pose proof (callCore_ok sa st now call t H Hpc) as [Hs _ Ht].
    assert (runtime_ok (add_called call (callCore sa st now call (set_inbound (mkRing items free) [] t)))) as H1.
    { split; [exact Hs| |exact Ht]. cbn. by rewrite app_nil_r, <-app_assoc. }
    destruct (ev_isPropose slot); [|done]. by destruct H1.
  - destruct H as [Hs _ Ht]. split; [done| |done]. cbn. by rewrite app_nil_r.
Qed.

Lemma raftStep_ok sa st now t : runtime_ok t → runtime_ok (raftStep sa st now t).
Proof.
  intros H. unfold raftStep. destruct (raftPc t) eqn:Hpc; try done.
  - destruct (_ <? _)%nat; [|by apply raftPc_ok; rewrite ?Hpc]. unfold tryConsume.
    destruct (r_items (inbound_ t)) as [|slot items] eqn:E; [by apply raftPc_ok; rewrite ?Hpc|].
    unfold useEvent. apply raftPc_ok; [apply consume_ok; by rewrite ?Hpc|].
    unfold consumeEvent. destruct (event_call slot); [|change (raftPc t ≠ RDown); by rewrite Hpc].
    cbv zeta. destruct (ev_isPropose slot); change (raftPc t ≠ RDown); by rewrite Hpc.
  - apply raftPc_ok; [apply callCore_ok; by rewrite ?Hpc|change (raftPc t ≠ RDown); by rewrite Hpc].
  - apply raftPc_ok; [apply callCore_ok; by rewrite ?Hpc|change (raftPc t ≠ RDown); by rewrite Hpc].
  - apply raftPc_ok; [apply callCore_ok; by rewrite ?Hpc|change (raftPc t ≠ RDown); by rewrite Hpc].
  - by apply raftPc_ok; rewrite ?Hpc.
Qed.

Lemma applyStep_ok st t : runtime_ok t → runtime_ok (applyStep st t).
Proof.
  intros H. unfold applyStep. destruct (applyPc t); try (by destruct H).
  - destruct (applySink_ (core_ t)) as [a|] eqn:Ea; [|done].
    destruct (r_items (applyRing_ a)); [by destruct H|].
    destruct H as [[Hs|(Hn&_)] Hi Ht]; [|congruence]. split; [left|done|by apply sendAll_ok].
    cbn [core_ set_core]. apply clear_out_sink. unfold sink_holds in *. cbn [applySink_ set_applySink fx_].
    rewrite Ea in Hs. by apply applyOne_inv.
Qed.

Lemma start_ok now t : runtime_ok t → runtime_ok (startRuntime now t).
Proof.
  intros H. unfold startRuntime. destruct (started_ t); [done|].
  destruct H as [Hs Hi Ht]. split; [left|done|done]. cbn [core_]. unfold start.
  apply (sink_resetElectionTimer ring_inv). unfold sink_holds in *. cbn [applySink_ set_applySink fx_].
  destruct Hs as [Hs|(Hn&Ha&_)].
  - destruct (applySink_ (core_ t)); done.
  - rewrite Hn, Ha. cbn. done.
Qed.

Lemma stopStep_ok t : runtime_ok t → runtime_ok (stopStep t).
Proof.
  intros [Hs Hi Ht]. unfold stopStep. destruct (stopPc t).
  - destruct (started_ t); by split.
  - destruct (raftPc t) eqn:E; try by split. split; [|done|done]. destruct Hs as [Hs|(_&_&Hpc)]; [by left|congruence].
  - destruct (applyPc t); try by split.
  - destruct (tx_pc (txSide t)); by split.
Qed.

Lemma act_ok t x : runtime_ok t → runtime_ok (act t x).
Proof.
  intros H. destruct x; cbn [act].
  - by apply start_ok.
  - by apply stopStep_ok.
  - by apply enqueue_ok.
  - by apply enqueueFrame_ok.
  - by apply propose_async_ok.
  - by apply raftStep_ok.
  - by apply applyStep_ok.
  - destruct H. split; [done..|by apply txStep_ok].
Qed.

Lemma run_acts_ok t acts : runtime_ok t → runtime_ok (run_acts t acts).
Proof. revert t. induction acts as [|x acts IH]; intros t H; [done|]. by apply IH, act_ok. Qed.

Lemma runtime_new_ok core : applySink_ core = None → applied (fx_ core) = [] → runtime_ok (NodeRuntime_new core).
Proof. intros Hs Ha. split; [by right|done|]. by intros []. Qed.

(** C20: every committed entry crosses to the apply thread exactly once and in
    order, whatever the interleaving and however often the ring was full: what the
    apply thread has executed, followed by what is still in the ring, is what the
    core gave away; and the state machine and its answers are those of executing
    exactly that, in that order. *)
Theorem handoff_exactly_once core acts :
  applySink_ core = None → applied (fx_ core) = [] →
  let t := run_acts (NodeRuntime_new core) acts in
  match applySink_ (core_ t) with
  | None => applied (fx_ (core_ t)) = []
  | Some a =>
      done_entries a ++ ring_entries a = applied (fx_ (core_ t)) ∧
      as_sm a = run_sm sm0 (snd <$> done_entries a) ∧
      snd <$> as_calls a = outputs sm0 (snd <$> done_entries a)
  end.
Proof.
  intros Hs Ha t. pose proof (run_acts_ok _ acts (runtime_new_ok core Hs Ha)) as H. fold t in H.
  destruct (rt_sink _ H) as [Hsink|(Hn&Hap&_)]; [|by rewrite Hn].
  unfold sink_holds in Hsink. by destruct (applySink_ (core_ t)).
Qed.

(** C21: the other rings lose nothing they took.  The calls made on the core,
    followed by the events still queued, are the messages and proposals the inbound
    ring accepted, in order, malformed frames left out; and for each tx ring the
    frames given to the transport, followed by the queued ones, are the frames
    [Transport::send] would build for the messages the ring accepted. *)
Theorem runtime_fifo core acts :
  applySink_ core = None → applied (fx_ core) = [] →
  let t := run_acts (NodeRuntime_new core) acts in
  called t ++ omap event_call (r_items (inbound_ t)) = accepted t ∧
  ∀ q, wire_of q (txSide t) ++ queued q (txSide t) = framed q (txSide t).
Proof.
  intros Hs Ha t. pose proof (run_acts_ok _ acts (runtime_new_ok core Hs Ha)) as H. fold t in H.
  split; [apply (rt_inbound _ H)|apply (rt_tx _ H)].
Qed.

End Callbacks.

(** The Raft thread parks only with nothing left to hand over, and never past one
    of its own timers or the batch deadline. *)
Lemma park_in_time mode drained hookDeadline (c : Core) d :
  raftIdle mode drained hookDeadline c = Park d →
  mode = Block ∧ drained = 0%nat ∧ commitIndex_ c ≤ lastApplied_ c ∧
  d ≤ electionDeadline_ c ∧ d ≤ heartbeatDeadline_ c ∧ d ≤ hookDeadline.
Proof.
  unfold raftIdle. destruct (Nat.ltb_spec 0 drained); [done|].
  destruct (N.ltb_spec (lastApplied_ c) (commitIndex_ c)); [done|]. destruct mode; [|done]. intros [= <-].
  unfold nextDeadline. destruct (N.ltb_spec hookDeadline (N.min (electionDeadline_ c) (heartbeatDeadline_ c)));
    split_and!; try done; lia.
Qed.

End Runtime.

(** ** Runs of a one-node cluster *)

Module RuntimeSample.

Export Sample.

Definition noCallback (i : LogIndex) (e : LogEntry) (r : list byte) (y : unit) : list (NodeId * Message) * unit :=
  ([], y).

Definition tiny : NodeRuntimeConfig := mkRuntimeConfig 2 2 2 Block.

#[local] Instance sample_sink : ApplySink (@ApplySide (list Command) unit) := applySink noCallback.

Definition solo : @RaftCore InMemoryPersistentState InMemoryLog (list Command) N (@ApplySide (list Command) unit) :=
  RaftCore_new 1 [] (mkPersist 0 None) (mkInMemoryLog []) [] 0 defaultConfig.

Definition run (acts : list Act) :=
  run_acts 1 tiny [] tt noCallback None None (NodeRuntime_new tiny solo) acts.

(** One turn of the Raft loop that consumes [k] events. *)
Definition turn (k : nat) (now : TimePoint) : list Act := replicate (k + 5) (ARaft [] [] now).

(** Elected, given a proposal, which commits and crosses to the apply thread. *)
Definition busy : list Act :=
  [AStart 0] ++ turn 0 1000000000 ++ [APropose [x2a] (Some 7)] ++ turn 1 1000000000 ++ [AApply []; ATx].

Lemma handoff_exactly_once_witness :
  match applySink_ (core_ (run busy)) with
  | None => applied (fx_ (core_ (run busy))) = []
  | Some a =>
      done_entries a ++ ring_entries a = applied (fx_ (core_ (run busy))) ∧
      as_sm a = run_sm [] (snd <$> done_entries a) ∧
      snd <$> as_calls a = outputs [] (snd <$> done_entries a)
  end ∧ doneCalls (run busy) = [(7, Some 1)].
Proof.
  split; [|by vm_compute].
  apply (handoff_exactly_once 1 tiny [] tt noCallback None None); done.
Defined.

Lemma runtime_fifo_witness :
  called (run busy) ++ omap event_call (r_items (inbound_ (run busy))) = accepted (run busy) ∧
  (∀ q, wire_of q (txSide (run busy)) ++ queued q (txSide (run busy)) = framed 1 q (txSide (run busy))) ∧
  accepted (run busy) = [CPropose [x2a]].
Proof.
  assert (accepted (run busy) = [CPropose [x2a]]) as E by (by vm_compute).
  destruct (runtime_fifo 1 tiny [] tt noCallback None None) with (core := solo) (acts := busy) as [H1 H2];
    [done..|]. by split_and!.
Defined.

(** The apply thread finds its ring empty, the Raft thread hands over an entry and
    is joined, and only then does the apply thread look at its stop flag. *)
Definition stop_race : list Act :=
  [AStart 0] ++ turn 0 1000000000 ++ [APropose [x2a] (Some 7); AApply []] ++ turn 1 1000000000 ++
  [AStop; ARaft [] [] 1000000000; AStop; AApply []; AStop] ++ replicate 6 ATx ++ [AStop].

(** [stop] can return with a committed entry unapplied.  The loops look at
    the ring before they look at the stop flag, so an entry handed over between
    the two looks stays in the ring: in this run the runtime has stopped, all
    three threads joined, and entry 1 is committed and handed over but was never
    executed. *)
Theorem stop_strands_entry :
  let t := run stop_race in
  started_ t = false ∧ commitIndex_ (core_ t) = 1 ∧ lastApplied_ (core_ t) = 1 ∧
  (ring_entries <$> applySink_ (core_ t)) = Some [(1, mkLogEntry 1 [x2a])] ∧
  (done_entries <$> applySink_ (core_ t)) = Some [].
Proof. by vm_compute. Qed.

(** A proposal still queued when the runtime stops: its callback never runs. *)
Definition stop_queued : list Act :=
  [AStart 0] ++ turn 0 1000000000 ++ [APropose [x2a] (Some 7); AStop] ++ turn 0 1000000000 ++
  [AStop; AApply []; AApply []; AStop] ++ replicate 6 ATx ++ [AStop].

Lemma stop_strands_proposal :
  let t := run stop_queued in
  started_ t = false ∧ accepted t = [CPropose [x2a]] ∧ called t = [] ∧ doneCalls t = [].
Proof. by vm_compute. Qed.

End RuntimeSample.
