(* ===== verification/ThreadedCluster.v ===== *)
(** * Clusters whose nodes run the threaded runtime

    Two facts the threads rely on each other for.  Replicas agree although each
    state machine runs on a thread of its own, behind a ring; and the client
    service's note that its pending entry is in place before the apply thread can
    ask for it. *)

From Stdlib Require Import NArith Strings.Byte Lia.
From S2P Require Import Prelude Messages Codec Log RaftCore RaftNode RaftSpec RaftInv Cluster Sink.
From S2P Require Import RaftRefine RaftSafety ClientService NodeRuntime.

Local Open Scope N_scope.

(** ** Replicas *)

Section Agreement.
Context {P L SM R Y : Type}.
Context `{!PersistentState P} `{!RaftLog L} `{!StateMachine SM} `{!Rng R}.
Context `{!PersistentStateLaws P} `{!RaftLogLaws L}.
Context (onApplied : LogIndex → LogEntry → list byte → Y → list (NodeId * Message) * Y).
Context (members : list NodeId) (cfg : RaftConfig) (sm0 : SM) (Hmembers : NoDup members).

(** A node with its apply thread as the core's sink: the thread's steps happen as
    the sink is offered entries, so an item still in the ring after the last offer is
    not executed in the cluster's state ([NodeRuntime.v] has the free interleaving of
    the two threads). *)
#[local] Instance threaded_sink : ApplySink (@ApplySide SM Y) := applySink onApplied.

#[local] Instance threaded_inv : SinkInv (ring_inv sm0) := ring_sink_inv sm0 onApplied.

Local Abbreviation Core := (@RaftCore P L SM R (@ApplySide SM Y)).
Local Abbreviation ClusterOf := (@Cluster P L SM R (@ApplySide SM Y)).
Local Abbreviation BootOf := (@Boot P L R (@ApplySide SM Y)).
Local Abbreviation EventOf := (@Event P L R (@ApplySide SM Y)).

(** A process comes up with an empty ring and a fresh state machine; how its
    apply thread will be scheduled is open. *)
Definition threaded_boot (b : BootOf) : Prop :=
  ∃ a, b_sink b = Some a ∧ as_calls a = [] ∧ r_items (applyRing_ a) = [] ∧ as_sm a = sm0.

Definition threaded_event (ev : EventOf) : Prop :=
  match ev with EvRun _ _ _ => True | EvCrash _ _ _ _ b => threaded_boot b end.

Definition threaded_cluster (s : ClusterOf) : Prop :=
  ∀ n c, nodes s !! n = Some c → sink_holds (ring_inv sm0) c.

Lemma boot_threaded n b : threaded_boot b → sink_holds (ring_inv sm0) (boot members cfg sm0 n b : Core).
Proof.
  intros (a&Ha&Hc&Hr&Hs). apply (sink_resetElectionTimer (ring_inv sm0)). unfold sink_holds. cbn.
  rewrite Ha. unfold ring_inv, side_ok, done_entries, ring_entries. rewrite Hc, Hr, Hs. done.
Qed.

Lemma run_threaded evs : ∀ s s', Forall threaded_event evs → threaded_cluster s →
  run_events members cfg sm0 s evs = Some s' →
  reaches members cfg sm0 s s' ∧ threaded_cluster s'.
Proof.
  assert (∀ evs s0 s s', Forall threaded_event evs → reaches members cfg sm0 s0 s → threaded_cluster s →
    run_events members cfg sm0 s evs = Some s' → reaches members cfg sm0 s0 s' ∧ threaded_cluster s') as H;
    [|intros s s' Hf Hs Hr; eapply H; [done|constructor|done|done]].
  clear evs. induction evs as [|ev evs IH]; intros s0 s s' Hf Hreach Hs; cbn; [by intros [= <-]|].
  apply Forall_cons in Hf as [Hev Hf]. intros Hr. apply bind_Some in Hr as (s1&Hex&Hr).
  eapply (IH s0 s1); [done|by eapply reaches_step| |done]. destruct ev as [n now op|n now op k b]; cbn in Hex;
    apply bind_Some in Hex as (c&Hc&Hex); apply bind_Some in Hex as (c'&Hop&Hex).
  - simplify_eq. intros m d. cbn. intros [[<- <-]|[_ Hd]]%lookup_insert_Some; [|by eapply Hs].
    eapply (sink_run_op (ring_inv sm0)); [by eapply Hs|done].
  - destruct (decide _); [|done]. simplify_eq. intros m d. cbn. intros [[<- <-]|[_ Hd]]%lookup_insert_Some; [|by eapply Hs].
    by apply boot_threaded.
Qed.

Lemma prefixes_comparable {A} (l1 l2 l : list A) : l1 `prefix_of` l → l2 `prefix_of` l →
  l1 `prefix_of` l2 ∨ l2 `prefix_of` l1.
Proof. apply prefix_weak_total. Qed.

(** C13: replicas agree behind their rings.  In a cluster whose nodes run the
    threaded runtime, take two nodes at two points of the history, crashes and
    reboots included: of what their apply threads have executed one is a prefix of
    the other, and each state machine is the result of executing exactly that. *)
Theorem threaded_replicas_agree s0 evs1 s1 evs2 s2 n1 n2 c1 c2 a1 a2 :
  initial members cfg sm0 s0 → threaded_cluster s0 →
  Forall threaded_event (evs1 ++ evs2) →
  run_events members cfg sm0 s0 evs1 = Some s1 → run_events members cfg sm0 s1 evs2 = Some s2 →
  nodes s1 !! n1 = Some c1 → nodes s2 !! n2 = Some c2 →
  applySink_ c1 = Some a1 → applySink_ c2 = Some a2 →
  (done_entries a1 `prefix_of` done_entries a2 ∨ done_entries a2 `prefix_of` done_entries a1) ∧
  as_sm a1 = run_sm sm0 (snd <$> done_entries a1) ∧ as_sm a2 = run_sm sm0 (snd <$> done_entries a2).
Proof.
  intros Hi H0 [Hf1 Hf2]%Forall_app Hr1 Hr2 Hc1 Hc2 Ha1 Ha2.
  destruct (run_threaded evs1 s0 s1 Hf1 H0 Hr1) as [R1 T1]. destruct (run_threaded evs2 s1 s2 Hf2 T1 Hr2) as [R2 T2].
  pose proof (T1 _ _ Hc1) as Q1. pose proof (T2 _ _ Hc2) as Q2. unfold sink_holds in *. rewrite Ha1 in Q1. rewrite Ha2 in Q2.
  destruct Q1 as [E1 [Sm1 _]], Q2 as [E2 [Sm2 _]]. split; [|done].
  assert (reachable members cfg sm0 s1) as Hreach by (by exists s0).
  pose proof (prefix_app_r (done_entries a1) (done_entries a1) (ring_entries a1) ltac:(done)) as P1. rewrite E1 in P1.
  pose proof (prefix_app_r (done_entries a2) (done_entries a2) (ring_entries a2) ltac:(done)) as P2. rewrite E2 in P2.
  destruct (applied_comparable members cfg sm0 Hmembers s1 s2 Hreach R2 n1 n2 c1 c2 Hc1 Hc2) as [H|H].
  - eapply prefixes_comparable; [by etrans|done].
  - eapply prefixes_comparable; [done|by etrans].
Qed.

End Agreement.

(** ** The client service on the Raft thread *)

Section Service.
Context {P L SM R Y : Type}.
Context `{!PersistentState P} `{!RaftLog L} `{!StateMachine SM} `{!Rng R}.
Context (onApplied : LogIndex → LogEntry → list byte → Y → list (NodeId * Message) * Y).

#[local] Instance service_sink_inst : ApplySink (@ApplySide SM Y) := applySink onApplied.

Local Abbreviation Core := (@RaftCore P L SM R (@ApplySide SM Y)).

(** The runtime's callbacks are the client service's methods; they touch the core
    only in the way the runtime's theorems ask of them. *)
Lemma flushBatch_calls now s (c : Core) : service_calls onApplied c (flushBatch now s c).2.
Proof.
  unfold flushBatch. destruct (buffer_ s) as [|b bs]; [constructor|].
  match goal with |- context [proposeBatch now ?cmds c] =>
    pose proof (svc_batch onApplied c now cmds c (svc_none onApplied c)) as H; destruct (proposeBatch now cmds c) as [[i|] c'] end; exact H.
Qed.

Lemma onClientRequest_calls now from req s (c : Core) : service_calls onApplied c (onClientRequest now from req s c).2.
Proof.
  unfold onClientRequest. cbv zeta. destruct (bool_decide _); [constructor|]. destruct (negb _); [constructor|].
  destruct (_ <? _)%nat; [destruct (_ <=? _)%nat; [apply flushBatch_calls|constructor]|].
  pose proof (svc_propose onApplied c now (cr_command req) c (svc_none onApplied c)) as H.
  destruct (propose now (cr_command req) c) as [[i|] c']; exact H.
Qed.

Lemma flushIfDue_calls now s (c : Core) : service_calls onApplied c (flushIfDue now s c).2.
Proof.
  unfold flushIfDue. destruct (buffer_ s); [constructor|]. cbv zeta.
  match goal with |- context [if ?b then flushBatch now ?x c else _] =>
    pose proof (flushBatch_calls now x c) as H; destruct b; [destruct (flushBatch now x c) as [s' c']|] end;
    [exact H|constructor].
Qed.

End Service.

(** ** Pending before applied *)

Section Ordering.
Context {P L SM R K : Type}.
Context `{!PersistentState P} `{!RaftLog L} `{!StateMachine SM} `{!Rng R} `{!ApplySink K}.
Context `{!PersistentStateLaws P} `{!RaftLogLaws L}.
Context (members : list NodeId) (cfg : RaftConfig) (sm0 : SM) (Hmembers : NoDup members).

Local Abbreviation Core := (@RaftCore P L SM R K).

Lemma applyLoop_commitIndex k (c : Core) : commitIndex_ (applyLoop k c) = commitIndex_ c.
Proof.
  revert c. induction k as [|k IH]; intros c; cbn [applyLoop]; [done|].
  destruct (_ <? _); [|done]. destruct (log_entryAt _ _) as [e|]; [|done].
  destruct (applySink_ c) as [s|].
  - destruct (sink_offer _ _ _) as [[] s']; cbn [negb]; [by rewrite IH|done].
  - destruct (sm_apply _ _) as [r sm]. by rewrite IH.
Qed.

Lemma sendToPeers_commitIndex (c : Core) : commitIndex_ (sendToPeers c) = commitIndex_ c.
Proof.
  unfold sendToPeers. generalize (peers_ c). intros ps. revert c.
  induction ps as [|p ps IH]; intros c; cbn; [done|]. rewrite IH. by destruct (sendAppendEntries_fresh p c) as [pool ->].
Qed.

(** Commit does not move past an index no peer has acknowledged. *)
Lemma advance_bounded B k n (c : Core) : commitIndex_ c ≤ B →
  (∀ i, B < i → (replicasAt i c < majority c)%nat) → commitIndex_ (advanceCommitLoop k n c) ≤ B.
Proof.
  intros Hc Hr. revert n. induction k as [|k IH]; intros n; cbn [advanceCommitLoop]; [done|].
  destruct (_ <? _); [|done]. destruct (negb _); [done|].
  destruct (Nat.leb_spec (majority c) (replicasAt n c)) as [Hm|]; [|apply IH].
  unfold applyCommitted. rewrite applyLoop_commitIndex. cbn. destruct (N.le_gt_cases n B); [done|].
  specialize (Hr n ltac:(done)). lia.
Qed.

Lemma match_below_log A s n (c : Core) q v : cluster_ok members sm0 A s → nodes s !! n = Some c →
  role_ c = Leader → matchIndex_ c !! q = Some v → v ≤ log_lastIndex (log_ c).
Proof.
  intros H Hc Hr Hq. pose proof (cl_node _ _ _ _ H _ _ Hc) as Hok.
  rewrite (ok_role _ _ _ _ _ Hok) in Hr. pose proof (ok_leader _ _ _ _ _ Hok Hr) as Hl.
  destruct (ok_match _ _ _ _ Hl q v Hq) as [_ Hv].
  pose proof (acked_le_log members n A q (cl_inv _ _ _ _ H) Hr) as Hle.
  rewrite (core_lastIndex _ _ _ Hok). lia.
Qed.

(** A leader's new entries stay uncommitted in the call that appends them. *)
Lemma appended_uncommitted A s n now (c : Core) es : cluster_ok members sm0 A s → nodes s !! n = Some c →
  role_ c = Leader → (2 ≤ length members)%nat →
  commitIndex_ (set_heartbeatDeadline now (sendToPeers (advanceCommit (appendLog es c)))) ≤ log_lastIndex (log_ c).
Proof.
  intros H Hc Hr Hm. cbn [commitIndex_ set_heartbeatDeadline]. rewrite sendToPeers_commitIndex.
  pose proof (cl_node _ _ _ _ H _ _ Hc) as Hok. apply advance_bounded.
  - cbn. pose proof (core_commit_le members n (cl_inv _ _ _ _ H)) as Hle. rewrite <-(ok_commit _ _ _ _ _ Hok) in Hle.
    rewrite (core_lastIndex _ _ _ Hok). lia.
  - intros i Hi. unfold replicasAt, majority. cbn [matchIndex_ peers_ appendLog emit set_fx set_log].
    assert (filter (λ p : NodeId * LogIndex, i ≤ p.2) (matchIndex_ c) = ∅) as ->.
    { apply map_empty. intros q. apply map_lookup_filter_None_2. right. intros v Hq. cbn.
      pose proof (match_below_log A s n c q v H Hc Hr Hq). lia. }
    rewrite map_size_empty, (ok_peers _ _ _ _ _ Hok).
    pose proof (peers_of_length members n Hmembers (cl_dom _ _ _ _ H n c Hc)) as ->.
    pose proof (Nat.Div0.div_le_mono 2 (length members) 2 Hm) as Hd. change (2 / 2)%nat with 1%nat in Hd. lia.
Qed.

Lemma numbered_bound l i e : (i, e) ∈ numbered l → i ≤ N.of_nat (length l).
Proof.
  unfold numbered. intros (k&Hk)%list_elem_of_lookup. rewrite list_lookup_imap in Hk.
  destruct (l !! k) as [x|] eqn:E; [|done]. apply lookup_lt_Some in E. cbn in Hk. simplify_eq. lia.
Qed.

Lemma not_yet_applied A n (c : Core) i e : node_ok members sm0 A n c → commitIndex_ c < i → (i, e) ∉ applied (fx_ c).
Proof.
  intros Hok Hi Hin. pose proof (ok_apply _ _ _ _ _ Hok) as Ha. rewrite (ok_applied _ _ _ Ha) in Hin.
  apply numbered_bound in Hin. rewrite length_take in Hin. pose proof (ok_last _ _ _ Ha). lia.
Qed.

(** When [propose] or [proposeBatch] returns an index, nothing at that index or above
    has been given to the apply thread: the commit needs a peer's acknowledgement,
    which is a later event of the Raft thread. *)
Lemma proposal_not_applied s n (c : Core) now cmds idx c' :
  reachable members cfg sm0 s → (2 ≤ length members)%nat → nodes s !! n = Some c →
  (∃ cmd, cmds = [cmd] ∧ propose now cmd c = (Some idx, c')) ∨ proposeBatch now cmds c = (Some idx, c') →
  ∀ i e, idx ≤ i → (i, e) ∉ applied (fx_ c').
Proof.
  intros Hr Hm Hc Hp i e Hi. destruct (history members cfg sm0 Hmembers s s Hr ltac:(constructor)) as (A&_&H&_&_).
  destruct Hp as [(cmd&->&Hp)|Hp].
  - destruct (run_op_sim members sm0 Hmembers A s n now (OpPropose cmd) c c' H Hc) as (A'&_&_&Hok'); [cbn; by rewrite Hp|].
    apply (not_yet_applied A' n); [done|]. unfold propose in Hp. destruct (decide _) as [Hl|]; [|done]. simplify_eq.
    pose proof (appended_uncommitted A s n (after now (heartbeatInterval (cfg_ (sendToPeers (advanceCommit (appendLog [mkLogEntry (currentTerm c) cmd] c))))))
      c [mkLogEntry (currentTerm c) cmd] H Hc Hl Hm) as Hle.
    cbn in Hi. rewrite lastIndex_law, append_law in Hi. rewrite lastIndex_law in Hle.
    unfold InMemoryLog_lastIndex, InMemoryLog_append in *. rewrite length_app in Hi. cbn [length] in Hi. lia.
  - destruct (run_op_sim members sm0 Hmembers A s n now (OpProposeBatch cmds) c c' H Hc) as (A'&_&_&Hok'); [cbn; by rewrite Hp|].
    apply (not_yet_applied A' n); [done|]. unfold proposeBatch in Hp.
    destruct (bool_decide_reflect (cmds = [])) as [|Hne]; [done|].
    destruct (bool_decide_reflect (role_ c = Leader)) as [Hl|]; [|done]. cbn [negb orb] in Hp. simplify_eq.
    match goal with |- commitIndex_ (set_heartbeatDeadline ?d (sendToPeers (advanceCommit (appendLog ?es c)))) < _ =>
      pose proof (appended_uncommitted A s n d c es H Hc Hl Hm) as Hle end.
    cbn in Hi. rewrite lastIndex_law, append_law in Hi. rewrite lastIndex_law in Hle.
    unfold InMemoryLog_lastIndex, InMemoryLog_append in *. rewrite length_app, length_fmap in Hi.
    destruct cmds; [done|]. cbn [length] in *. lia.
Qed.

(** *** The client service on the Raft thread *)

(** One call of the Raft thread into the service: a request, or the linger timer. *)
Definition service_call (now : TimePoint) (arrival : option (NodeId * ClientRequest))
    (svc : ClientService) (c : Core) : ClientService * Core :=
  match arrival with
  | Some (from, req) => onClientRequest now from req svc c
  | None => let '(_, svc, c) := flushIfDue now svc c in (svc, c)
  end.

(** A table of the constructor's kind, a batch that fits into it, and buffered
    requests whose identity is the one embedded in their command. *)
Record service_ready (svc : ClientService) : Prop := {
  sr_table : ∃ k, length (pending_ svc) = N.to_nat (2 ^ k);
  sr_batch : (maxBatch (batching_ svc) ≤ length (pending_ svc))%nat;
  sr_buffer : (length (buffer_ svc) < Nat.max 1 (maxBatch (batching_ svc)))%nat;
  sr_identity : Forall (λ b, decodePrefix (bf_command b) = Some (bf_clientId b, bf_seqNo b)) (buffer_ svc);
}.

(** What the call did with the requests [bs] it proposed. *)
Definition in_place (svc' : ClientService) (c c' : Core) (bs : list Buffered) : Prop :=
  log_entries (log_ c') = log_entries (log_ c) ++ ((λ b, mkLogEntry (currentTerm c) (bf_command b)) <$> bs) ∧
  ∀ k b, bs !! k = Some b → let i := log_lastIndex (log_ c) + 1 + N.of_nat k in
    (∀ e, (i, e) ∉ applied (fx_ c')) ∧
    (∀ self result, sent_ (onApplied self i (mkLogEntry (currentTerm c) (bf_command b)) result svc') =
       sent_ svc' ++ [(bf_from b, mkClientReply CsOk self result)]).

Lemma in_place_nil svc' (c : Core) : in_place svc' c c [].
Proof. split; [by rewrite app_nil_r|done]. Qed.

(** The apply thread finds who waits for an entry, and answers them. *)
Lemma onApplied_found self i b t0 t term result svc :
  pending_ svc = t → take_ i t = Some (pending_of b, t0) →
  decodePrefix (bf_command b) = Some (bf_clientId b, bf_seqNo b) →
  sent_ (onApplied self i (mkLogEntry term (bf_command b)) result svc) =
    sent_ svc ++ [(bf_from b, mkClientReply CsOk self result)].
Proof.
  intros <- E Hd. unfold onApplied. rewrite E. cbn [e_command pending_of p_clientId p_seqNo p_replyTo].
  rewrite Hd, !N.eqb_refl. done.
Qed.

Lemma proposed_in_place svc' t s n (c c' : Core) now bs k :
  reachable members cfg sm0 s → (2 ≤ length members)%nat → nodes s !! n = Some c →
  proposeBatch now (bf_command <$> bs) c = (Some (log_lastIndex (log_ c) + 1), c') ∨
    (∃ b, bs = [b] ∧ propose now (bf_command b) c = (Some (log_lastIndex (log_ c) + 1), c')) →
  log_entries (log_ c') = log_entries (log_ c) ++ ((λ b, mkLogEntry (currentTerm c) (bf_command b)) <$> bs) →
  pending_ svc' = puts (log_lastIndex (log_ c) + 1) bs t → length t = N.to_nat (2 ^ k) → (length bs ≤ length t)%nat →
  Forall (λ b, decodePrefix (bf_command b) = Some (bf_clientId b, bf_seqNo b)) bs →
  in_place svc' c c' bs.
Proof.
  intros Hr Hm Hc Hp El Et Ht Hl Hd. split; [done|]. intros j b Hj i. split.
  - intros e. apply (proposal_not_applied s n c now (bf_command <$> bs) (log_lastIndex (log_ c) + 1) c' Hr Hm Hc); [|lia].
    destruct Hp as [Hp|(b'&->&Hp)]; [by right|]. left. exists (bf_command b'). split; [reflexivity|exact Hp].
  - intros self result. destruct (take_puts (log_lastIndex (log_ c) + 1) bs t k j b Ht Hl Hj) as [t' E].
    eapply onApplied_found; [exact Et|exact E|exact (Forall_lookup_1 _ _ _ _ Hd Hj)].
Qed.

Lemma flushed_replies hint (bs : list Buffered) svc :
  let svc' := foldl (λ s b, reply (bf_from b) (mkClientReply CsNotLeader hint []) s) svc bs in
  pending_ svc' = pending_ svc ∧ batching_ svc' = batching_ svc.
Proof.
  revert svc. induction bs as [|b bs IH]; intros svc; [done|]. cbn.
  by destruct (IH (reply (bf_from b) (mkClientReply CsNotLeader hint []) svc)) as [-> ->].
Qed.

(** A flush of the whole buffer. *)
Lemma flushBatch_in_place s n now svc svc' (c c' : Core) :
  reachable members cfg sm0 s → (2 ≤ length members)%nat → nodes s !! n = Some c →
  (∃ k, length (pending_ svc) = N.to_nat (2 ^ k)) → (maxBatch (batching_ svc) ≤ length (pending_ svc))%nat →
  (length (buffer_ svc) ≤ length (pending_ svc))%nat →
  Forall (λ b, decodePrefix (bf_command b) = Some (bf_clientId b, bf_seqNo b)) (buffer_ svc) →
  flushBatch now svc c = (svc', c') →
  service_ready svc' ∧ ∃ bs, in_place svc' c c' bs ∧ (bs = [] ∨ bs = buffer_ svc).
Proof.
  intros Hr Hm Hc [k Hk] Hmax Hfit Hid. unfold flushBatch. destruct (buffer_ svc) as [|b0 bs0] eqn:Eb.
  { intros [= <- <-]. split; [|exists []; split; [apply in_place_nil|by left]].
    split; [by exists k|done|rewrite Eb; cbn; lia|by rewrite Eb]. }
  rewrite <-Eb in *. destruct (bool_decide_reflect (role_ c = Leader)) as [Hl|Hnl].
  - destruct (proposeBatch_spec now (bf_command <$> buffer_ svc) c Hl) as (E1&E2&_); [by rewrite Eb|].
    destruct (proposeBatch now _ c) as [first c1] eqn:Ep. cbn in E1, E2. subst first. intros [= <- <-].
    rewrite <-list_fmap_compose in E2.
    pose proof (length_puts (log_lastIndex (log_ c) + 1) (buffer_ svc) (pending_ svc)) as Hlen.
    split; [split; cbn [pending_ batching_ buffer_ set_pending]; [exists k; exact (eq_trans Hlen Hk)| |cbn; lia|done]|].
    { rewrite <-Hlen in Hmax. exact Hmax. }
    exists (buffer_ svc). split; [|by right]. by eapply proposed_in_place; eauto.
  - unfold proposeBatch. rewrite (bool_decide_eq_false_2 _ Hnl). rewrite orb_true_r. intros [= <- <-].
    destruct (flushed_replies (default 0 (leaderId_ c)) (buffer_ svc) svc) as [E1 E2].
    split; [|exists []; split; [by split; [rewrite app_nil_r|]|by left]].
    split; cbn; rewrite ?E1, ?E2; [by exists k|done|lia|done].
Qed.

(** The requests a call may propose: the buffered ones and the one that arrives. *)
Definition proposable (svc : ClientService) (arrival : option (NodeId * ClientRequest)) (b : Buffered) : Prop :=
  b ∈ buffer_ svc ∨
  ∃ from req, arrival = Some (from, req) ∧ b = mkBuffered from (cr_clientId req) (cr_seqNo req) (cr_command req).

(** A call that proposes nothing and leaves table, buffer and batching alone. *)
Lemma idle_in_place svc arrival svc' (c : Core) : service_ready svc →
  pending_ svc' = pending_ svc → batching_ svc' = batching_ svc → buffer_ svc' = buffer_ svc →
  service_ready svc' ∧ ∃ bs, in_place svc' c c bs ∧ ∀ b, b ∈ bs → proposable svc arrival b.
Proof.
  intros [Hk Hmax Hbuf Hid] E1 E2 E3. split; [split; by rewrite ?E1, ?E2, ?E3|].
  exists []. split; [apply in_place_nil|]. by intros b ?%elem_of_nil.
Qed.

(** A valid request of a leader, by itself. *)
Lemma single_in_place s n now from req svc svc' (c c' : Core) :
  reachable members cfg sm0 s → (2 ≤ length members)%nat → nodes s !! n = Some c → service_ready svc →
  role_ c = Leader → decodePrefix (cr_command req) = Some (cr_clientId req, cr_seqNo req) →
  (let '(index, c1) := propose now (cr_command req) c in
   match index with
   | None => (reply from (mkClientReply CsNotLeader 0 []) svc, c1)
   | Some index => (set_pending (put index (mkPending from (cr_clientId req) (cr_seqNo req)) (pending_ svc)) svc, c1)
   end) = (svc', c') →
  service_ready svc' ∧ in_place svc' c c' [mkBuffered from (cr_clientId req) (cr_seqNo req) (cr_command req)].
Proof.
  intros Hr Hm Hc [[k Hk] Hmax Hbuf Hid] Hl Hd. assert (0 < 2 ^ k) by (apply N.neq_0_lt_0, N.pow_nonzero; done).
  destruct (propose_same now (cr_command req) c Hl) as (E1&E2&_).
  destruct (propose now (cr_command req) c) as [i c1] eqn:Ep. cbn [fst snd] in E1, E2. subst i. intros [= <- <-].
  cbn [log_ set_log set_heartbeatDeadline] in E2. split; [split; cbn; [exists k|..|done|done]; by rewrite length_put|].
  set (b := mkBuffered _ _ _ _).
  eapply (proposed_in_place _ (pending_ svc) s n c _ now [b] k); [done..| | | |done|cbn; lia|by constructor].
  - right. by exists b.
  - by rewrite E2, append_law.
  - unfold puts. cbn. by rewrite N.add_0_r.
Qed.

Lemma request_in_place s n now from req svc svc' (c c' : Core) :
  reachable members cfg sm0 s → (2 ≤ length members)%nat → nodes s !! n = Some c → service_ready svc →
  onClientRequest now from req svc c = (svc', c') →
  service_ready svc' ∧ ∃ bs, in_place svc' c c' bs ∧ ∀ b, b ∈ bs → proposable svc (Some (from, req)) b.
Proof.
  intros Hr Hm Hc Hs. pose proof Hs as [[k Hk] Hmax Hbuf Hid].
  unfold onClientRequest. case_bool_decide as Hl; [intros [= <- <-]; by apply idle_in_place|].
  destruct (negb _) eqn:Esame; [intros [= <- <-]; by apply idle_in_place|]. apply negb_false_iff in Esame.
  assert (decodePrefix (cr_command req) = Some (cr_clientId req, cr_seqNo req)) as Hd.
  { destruct (decodePrefix _) as [[cl sq]|]; [|done]. by apply andb_true_iff in Esame as [->%N.eqb_eq ->%N.eqb_eq]. }
  set (b := mkBuffered from (cr_clientId req) (cr_seqNo req) (cr_command req)).
  assert (proposable svc (Some (from, req)) b) as Hb by (right; by exists from, req).
  set (svc0 := mkClientService (pending_ svc) _ _ _ _ _ _ _).
  change (batching_ svc0) with (batching_ svc). destruct (Nat.ltb_spec 1 (maxBatch (batching_ svc))) as [H1|H1].
  - cbn [buffer_ svc0 batching_]. rewrite length_app. cbn [length].
    destruct (Nat.leb_spec (maxBatch (batching_ svc)) (length (buffer_ svc) + 1)) as [Hf|Hf].
    + intros E. apply (flushBatch_in_place s n) in E as (Hok&bs&Hin&Hbs); cbn [pending_ batching_ buffer_] in *;
        [|done|done|done|by exists k|done|rewrite length_app; cbn; lia|by apply Forall_app_2; [|constructor]].
      split; [done|]. exists bs. split; [done|]. intros b' Hb'. destruct Hbs as [->| ->]; [by apply elem_of_nil in Hb'|].
      by apply elem_of_app in Hb' as [?| ->%list_elem_of_singleton]; [left|].
    + intros [= <- <-]. split; [|exists []; split; [apply in_place_nil|by intros b' ?%elem_of_nil]].
      split; cbn; [by exists k|done|rewrite length_app; cbn; lia|by apply Forall_app_2; [|constructor]].
  - intros E. destruct (single_in_place s n now from req svc0 svc' c c' Hr Hm Hc) as [Hok Hin]; [|done..|].
    + split; [by exists k|done..].
    + split; [done|]. exists [b]. split; [exact Hin|]. by intros b' ->%list_elem_of_singleton.
Qed.

Lemma flushIfDue_in_place s n now svc svc' d (c c' : Core) :
  reachable members cfg sm0 s → (2 ≤ length members)%nat → nodes s !! n = Some c → service_ready svc →
  flushIfDue now svc c = (d, svc', c') →
  service_ready svc' ∧ ∃ bs, in_place svc' c c' bs ∧ ∀ b, b ∈ bs → proposable svc None b.
Proof.
  intros Hr Hm Hc Hs. pose proof Hs as [[k Hk] Hmax Hbuf Hid].
  unfold flushIfDue. destruct (buffer_ svc) as [|b0 bs0] eqn:Eb; [intros [= <- <- <-]; by apply idle_in_place|].
  rewrite <-Eb in *. set (svc1 := if negb _ then _ else svc).
  assert (pending_ svc1 = pending_ svc ∧ batching_ svc1 = batching_ svc ∧ buffer_ svc1 = buffer_ svc) as (Q1&Q2&Q3)
    by (subst svc1; by destruct (negb _)).
  destruct (_ <=? now); [|intros [= <- <- <-]; by apply idle_in_place].
  destruct (flushBatch now svc1 c) as [svc2 c2] eqn:E. intros [= <- <- <-].
  apply (flushBatch_in_place s n) in E as (Hok&bs&Hin&Hbs); rewrite ?Q1, ?Q2, ?Q3; [|done|done|done|by exists k|done|lia|done].
  split; [done|]. exists bs. split; [done|]. intros b' Hb'. left. rewrite Q3 in Hbs.
  destruct Hbs as [->| ->]; [by apply elem_of_nil in Hb'|done].
Qed.

(** C22: a client's pending entry is in place in time.  Whenever the Raft thread of a
    reachable cluster of two nodes or more handles a client request or its linger
    timer, whatever the batching, the call appends to the log the commands of some
    requests [bs] (the one that arrived, or the buffered batch), one after the other
    in the leader's term; and when it returns, for each of them and the index [i] its
    entry was given: no entry at [i] has been handed to the apply thread or applied,
    and the pending table holds the request at [i], so that [onApplied] for that entry
    answers the client that sent it with the result.  The service (a pending table of
    the constructor's kind, a batch size of at most the table's) stays ready for the
    next call. *)
Theorem pending_before_applied s n (c c' : Core) now arrival svc svc' :
  reachable members cfg sm0 s → (2 ≤ length members)%nat → nodes s !! n = Some c →
  service_ready svc → service_call now arrival svc c = (svc', c') →
  service_ready svc' ∧ ∃ bs, in_place svc' c c' bs ∧ ∀ b, b ∈ bs → proposable svc arrival b.
Proof.
  intros Hr Hm Hc Hs. destruct arrival as [[from req]|]; cbn [service_call].
  - by apply (request_in_place s n).
  - destruct (flushIfDue now svc c) as [[d svc1] c1] eqn:E. intros [= <- <-]. by eapply (flushIfDue_in_place s n).
Qed.

End Ordering.

(** ** Runs *)

Module ThreadedSample.

Import RaftSafety.Scenario.

Definition first_request : ClientRequest := mkClientRequest 7 1 (le_bytes 8 7 ++ le_bytes 8 1 ++ [x01]).

(** Client 100 asks the leader; its entry gets index 1. *)
Lemma pending_before_applied_witness :
  let s := run cluster0 (take 3 commit_run) in
  let r := service_call 1000000000 (Some (100, first_request)) (ClientService_new (mkBatching 1 0)) (node s 1) in
  log_lastIndex (log_ r.2) = 1 ∧ service_ready r.1 ∧ ∃ bs, in_place r.1 (node s 1) r.2 bs ∧
    ∀ b, b ∈ bs → proposable (ClientService_new (mkBatching 1 0)) (Some (100, first_request)) b.
Proof.
  cbv zeta. split; [by vm_compute|].
  apply (pending_before_applied members3 defaultConfig [] NoDup_members3
    (run cluster0 (take 3 commit_run)) 1 (node (run cluster0 (take 3 commit_run)) 1) _ 1000000000
    (Some (100, first_request)) (ClientService_new (mkBatching 1 0))).
  - exists cluster0. split; [apply cluster0_initial|apply run_reaches].
  - cbn. lia.
  - by vm_compute.
  - split; [exists 13; by vm_compute|apply (bool_decide_unpack _); by vm_compute..|constructor].
  - apply surjective_pairing.
Defined.

#[local] Instance sample_sink' : ApplySink (@ApplySide (list Command) unit) := applySink RuntimeSample.noCallback.

Abbreviation ThreadedC := (@Cluster InMemoryPersistentState InMemoryLog (list Command) N (@ApplySide (list Command) unit)).
Abbreviation ThreadedEv := (@Event InMemoryPersistentState InMemoryLog N (@ApplySide (list Command) unit)).

(** Each apply thread takes one item before every offer. *)
Definition tboot : @Boot InMemoryPersistentState InMemoryLog N (@ApplySide (list Command) unit) :=
  mkBoot (mkPersist 0 None) (mkInMemoryLog []) 0
    (Some (mkApplySide (Ring_new 2 (mkApplyItem 0 (mkLogEntry 0 []))) [] tt [] [] [1; 1; 1; 1]%nat)) 0.

Definition tcluster0 : ThreadedC :=
  mkCluster (list_to_map ((λ n, (n, boot members3 defaultConfig [] n tboot)) <$> members3)) [].

Definition trun1 : list ThreadedEv :=
  [EvRun 1 1000000000 OpTick; EvRun 2 1000000000 (OpDeliver 0);
   EvRun 1 1000000000 (OpDeliver 2); EvRun 1 1000000000 (OpPropose [x01]);
   EvRun 2 1000000000 (OpDeliver 5); EvRun 1 1000000000 (OpDeliver 7)].

Definition trun2 : list ThreadedEv :=
  [EvRun 1 1000000000 (OpPropose [x02]); EvRun 2 1000000000 (OpDeliver 8);
   EvRun 1 1000000000 (OpDeliver 10); EvRun 1 2000000000 OpTick; EvRun 2 2000000000 (OpDeliver 11)].

Definition tstate (s : ThreadedC) (evs : list ThreadedEv) : ThreadedC :=
  default s (run_events members3 defaultConfig [] s evs).

Definition tnode (s : ThreadedC) (n : NodeId) := default (boot members3 defaultConfig [] n tboot) (nodes s !! n).

Definition tside (s : ThreadedC) (n : NodeId) :=
  default (mkApplySide (mkRing [] []) [] tt [] [] []) (applySink_ (tnode s n)).

Lemma tcluster0_initial : initial members3 defaultConfig [] tcluster0.
Proof.
  split_and!; [done|by apply (bool_decide_unpack _)|].
  intros n c Hc. apply elem_of_list_to_map_2 in Hc.
  apply list_elem_of_fmap in Hc as (m&Heq&_). injection Heq as -> ->. by exists tboot.
Qed.

Lemma tcluster0_threaded : threaded_cluster [] tcluster0.
Proof.
  intros n c Hc. apply elem_of_list_to_map_2 in Hc. apply list_elem_of_fmap in Hc as (m&Heq&_).
  injection Heq as -> ->. apply (boot_threaded members3 defaultConfig []). by eexists.
Qed.

Lemma threaded_replicas_agree_witness :
  let s1 := tstate tcluster0 trun1 in
  let s2 := tstate s1 trun2 in
  done_entries (tside s2 2) = [(1, mkLogEntry 1 [x01])] ∧
  (done_entries (tside s1 1) `prefix_of` done_entries (tside s2 2) ∨
   done_entries (tside s2 2) `prefix_of` done_entries (tside s1 1)).
Proof.
  cbv zeta. split; [by vm_compute|].
  apply (threaded_replicas_agree RuntimeSample.noCallback members3 defaultConfig [] NoDup_members3
    tcluster0 trun1 (tstate tcluster0 trun1) trun2 (tstate (tstate tcluster0 trun1) trun2) 1 2
    (tnode (tstate tcluster0 trun1) 1) (tnode (tstate (tstate tcluster0 trun1) trun2) 2)).
  - apply tcluster0_initial.
  - apply tcluster0_threaded.
  - by repeat constructor.
  - by vm_compute.
  - by vm_compute.
  - by vm_compute.
  - by vm_compute.
  - by vm_compute.
  - by vm_compute.
Defined.

End ThreadedSample.
