(* ===== verification/EventLoop.v ===== *)
(** * src/raft/event_loop.h, event_loop.cpp: the single-threaded runtime

    One loop thread owns the core; any thread may enqueue messages and proposals
    into a queue under a mutex.  Threads interleave at the points where the mutex
    is free: the loop gives it up while it waits and around every call of the
    core. *)

From Stdlib Require Import NArith Strings.Byte Lia.
From S2P Require Import Prelude Messages Log RaftCore RaftNode Cluster.

Local Open Scope N_scope.

(** [ProposeDone] callbacks by name. *)
Record LoopEvent := mkLoopEvent {
  le_env : Envelope;
  le_msg : Message;
  le_isPropose : bool;
  le_command : Command;
  le_done : option N;
}.

Definition noEnvelope : Envelope := mkEnvelope kProtocolVersion TRequestVote 0 0 0.
Definition noMessage : Message := MRequestVote (mkRequestVote 0 0 0 0).

(** The loop thread: not started, waiting, draining the queue, at [tick], gone. *)
Inductive LoopPc := LDown | LWait | LDrain | LTick | LExit.

Section EventLoop.
Context {P L SM R K : Type}.
Context `{!PersistentState P} `{!RaftLog L} `{!StateMachine SM} `{!Rng R} `{!ApplySink K}.
Context (onClient : option (NodeId → ClientRequest → @RaftCore P L SM R K → @RaftCore P L SM R K)).

Local Abbreviation Core := (@RaftCore P L SM R K).

Record RaftEventLoop := mkLoop {
  loop_core : Core;
  queue_ : list LoopEvent;
  running_ : bool;
  loop_pc : LoopPc;
  loop_done : list (N * option LogIndex);      (* ProposeDone calls *)
  loop_taken : list LoopEvent;                 (* ghost: events accepted so far *)
  loop_handled : list LoopEvent;               (* ghost: events given to the core *)
}.

Definition RaftEventLoop_new (core : Core) : RaftEventLoop := mkLoop core [] false LDown [] [] [].

(** [start]; the loop thread's first action is [core_.start()]. *)
Definition loopStart (now : TimePoint) (l : RaftEventLoop) : RaftEventLoop :=
  mkLoop (start now (loop_core l)) (queue_ l) true LWait (loop_done l) (loop_taken l) (loop_handled l).

(** [stop] up to the join. *)
Definition loopStop (l : RaftEventLoop) : RaftEventLoop :=
  mkLoop (loop_core l) (queue_ l) false (loop_pc l) (loop_done l) (loop_taken l) (loop_handled l).

Definition pushEvent (ev : LoopEvent) (l : RaftEventLoop) : RaftEventLoop :=
  if negb (running_ l) then l
  else mkLoop (loop_core l) (queue_ l ++ [ev]) (running_ l) (loop_pc l) (loop_done l)
         (loop_taken l ++ [ev]) (loop_handled l).

Definition loopEnqueue (env : Envelope) (m : Message) : RaftEventLoop → RaftEventLoop :=
  pushEvent (mkLoopEvent env m false [] None).

Definition loopPropose (command : Command) (done : option N) : RaftEventLoop → RaftEventLoop :=
  pushEvent (mkLoopEvent noEnvelope noMessage true command done).

Definition set_pc (pc : LoopPc) (l : RaftEventLoop) : RaftEventLoop :=
  mkLoop (loop_core l) (queue_ l) (running_ l) pc (loop_done l) (loop_taken l) (loop_handled l).

(** One event taken off the queue and given to the core. *)
Definition handleEvent (now : TimePoint) (ev : LoopEvent) (q : list LoopEvent) (l : RaftEventLoop) :
    RaftEventLoop :=
  if le_isPropose ev then
    let '(idx, c) := propose now (le_command ev) (loop_core l) in
    mkLoop c q (running_ l) (loop_pc l)
      (loop_done l ++ match le_done ev with Some d => [(d, idx)] | None => [] end)
      (loop_taken l) (loop_handled l ++ [ev])
  else
    mkLoop (handle onClient now (le_env ev) (le_msg ev) (loop_core l)) q (running_ l) (loop_pc l)
      (loop_done l) (loop_taken l) (loop_handled l ++ [ev]).

(** One step of [run]. *)
Definition loopStep (now : TimePoint) (l : RaftEventLoop) : RaftEventLoop :=
  match loop_pc l with
  | LDown | LExit => l
  | LWait =>
      if negb (running_ l) then set_pc LExit l
      else if negb (bool_decide (queue_ l = [])) || (nextDeadline (loop_core l) <=? now)
      then set_pc LDrain l
      else l                                   (* keeps waiting *)
  | LDrain =>
      match queue_ l with
      | [] => set_pc LTick l
      | ev :: q => handleEvent now ev q l
      end
  | LTick =>
      set_pc (if running_ l then LWait else LExit)
        (mkLoop (tick now (loop_core l)) (queue_ l) (running_ l) (loop_pc l) (loop_done l)
           (loop_taken l) (loop_handled l))
  end.

Inductive LoopAct :=
| LaStart (now : TimePoint)
| LaStop
| LaEnqueue (env : Envelope) (m : Message)
| LaPropose (cmd : Command) (done : option N)
| LaStep (now : TimePoint).

Definition loopAct (l : RaftEventLoop) (x : LoopAct) : RaftEventLoop :=
  match x with
  | LaStart now => loopStart now l
  | LaStop => loopStop l
  | LaEnqueue env m => loopEnqueue env m l
  | LaPropose cmd done => loopPropose cmd done l
  | LaStep now => loopStep now l
  end.

Definition loop_run (core : Core) (acts : list LoopAct) : RaftEventLoop :=
  foldl loopAct (RaftEventLoop_new core) acts.

(** ** Events *)

Lemma pushEvent_fifo ev l : loop_handled l ++ queue_ l = loop_taken l →
  loop_handled (pushEvent ev l) ++ queue_ (pushEvent ev l) = loop_taken (pushEvent ev l).
Proof. intros H. unfold pushEvent. destruct (negb _); [done|]. cbn. by rewrite app_assoc, H. Qed.

Definition done_of (evs : list LoopEvent) : list N :=
  omap (λ ev, if le_isPropose ev then le_done ev else None) evs.

Lemma handleEvent_fifo now ev q l : queue_ l = ev :: q →
  loop_handled l ++ queue_ l = loop_taken l → fst <$> loop_done l = done_of (loop_handled l) →
  let l' := handleEvent now ev q l in
  loop_handled l' ++ queue_ l' = loop_taken l' ∧ fst <$> loop_done l' = done_of (loop_handled l').
Proof.
  intros Hq Hf Hd. rewrite Hq in Hf. unfold handleEvent. destruct (le_isPropose ev) eqn:Ep.
  - destruct (propose _ _ _) as [idx c]. cbn. rewrite <-app_assoc, fmap_app, Hd. split; [done|].
    unfold done_of. rewrite omap_app. cbn. rewrite Ep. by destruct (le_done ev).
  - cbn. rewrite <-app_assoc, Hd. split; [done|]. unfold done_of. rewrite omap_app. cbn. by rewrite Ep, app_nil_r.
Qed.

Lemma loop_fifo_step l x :
  loop_handled l ++ queue_ l = loop_taken l ∧ fst <$> loop_done l = done_of (loop_handled l) →
  loop_handled (loopAct l x) ++ queue_ (loopAct l x) = loop_taken (loopAct l x) ∧
  fst <$> loop_done (loopAct l x) = done_of (loop_handled (loopAct l x)).
Proof.
  intros [Hf Hd]. destruct x; cbn [loopAct]; try done.
  - split; [by apply pushEvent_fifo|]. unfold loopEnqueue, pushEvent. by destruct (negb _).
  - split; [by apply pushEvent_fifo|]. unfold loopPropose, pushEvent. by destruct (negb _).
  - unfold loopStep. destruct (loop_pc l); try done.
    + destruct (negb (running_ l)); [done|]. by destruct (_ || _).
    + destruct (queue_ l) as [|ev q] eqn:Hq; [cbn; by rewrite Hq|]. apply handleEvent_fifo; [done|by rewrite Hq|done].
Qed.

(** The event loop gives the core each accepted message and proposal once, in
    the order of acceptance, one at a time; and runs each proposal's callback when
    the proposal is handled, never earlier and never again. *)
Theorem event_loop_fifo core acts :
  let l := loop_run core acts in
  loop_handled l ++ queue_ l = loop_taken l ∧ fst <$> loop_done l = done_of (loop_handled l).
Proof.
  unfold loop_run. cbv zeta. induction acts as [|x acts IH] using rev_ind; [done|].
  rewrite foldl_app. by apply loop_fifo_step.
Qed.

Fixpoint loop_steps (k : nat) (now : TimePoint) (l : RaftEventLoop) : RaftEventLoop :=
  match k with O => l | S k => loop_steps k now (loopStep now l) end.

Lemma loop_exited k now l : loop_pc l = LExit → loop_pc (loop_steps k now l) = LExit.
Proof.
  revert l. induction k as [|k IH]; intros l H; [done|]. cbn. apply IH. unfold loopStep. by rewrite H.
Qed.

(** Once stopped, the loop thread ends: it finishes the queue if it was in the
    middle of it, and then takes at most two steps. *)
Lemma loop_ends now q l : queue_ l = q → running_ l = false → loop_pc l ≠ LDown →
  loop_pc (loop_steps (length q + 2) now l) = LExit.
Proof.
  revert l. induction q as [|ev q IH]; intros l Hq Hr Hpc; destruct (loop_pc l) eqn:E; try done;
    try (by apply loop_exited); cbn [length Nat.add loop_steps].
  - apply (loop_exited 1). unfold loopStep. by rewrite E, Hr.
  - assert (loopStep now l = set_pc LTick l) as -> by (unfold loopStep; by rewrite E, Hq).
    unfold loopStep. cbn. by rewrite Hr.
  - apply (loop_exited 1). unfold loopStep. by rewrite E, Hr.
  - apply loop_exited. unfold loopStep. by rewrite E, Hr.
  - assert (loopStep now l = handleEvent now ev q l) as -> by (unfold loopStep; by rewrite E, Hq).
    apply IH; unfold handleEvent; destruct (le_isPropose ev); try destruct (propose _ _ _); cbn; try done; by rewrite E.
  - apply loop_exited. unfold loopStep. by rewrite E, Hr.
Qed.

End EventLoop.
