(* ===== verification/Linearizability.v ===== *)
(** * faults/linearizability.cpp: the history checker

    [checkLinearizable] decides whether a history of key-value operations is
    linearizable.  It splits the history by key and searches each key's
    operations for a linearization (Wing-Gong/Lowe), with a memo of the visited
    (operations taken, register) pairs.

    The specification is the definition of linearizability itself: every
    completed operation, and any choice of the pending ones, takes effect at an
    instant between its invocation and its response, and the results are those
    of the sequential store executing them in the order of these instants. *)

From Stdlib Require Import NArith ZArith Strings.Byte Lia.
From stdpp Require Import sorting.
From S2P Require Import Prelude Text OrdMap KvStore.

Local Open Scope Z_scope.

Record ClientOp := mkClientOp {
  op_client : N;
  op_seq : N;
  op_op : KvOp;
  op_key : list byte;
  op_arg : list byte;
  op_arg2 : list byte;
  op_invoke : Z;
  op_return : Z;          (* -1: never completed *)
  op_result : list byte;
}.

Definition complete (o : ClientOp) : bool := 0 <=? op_return o.

(** ** The sequential model of one key *)

Record KvRegister := mkReg {
  present : bool;
  value : list byte;
}.

Definition emptyReg : KvRegister := mkReg false [].

Definition kvModelApply (reg : KvRegister) (o : ClientOp) : list byte * KvRegister :=
  match op_op o with
  | Put => ([kKvOk], mkReg true (op_arg o))
  | Get => if negb (present reg) then ([kKvNotFound], reg) else (kKvOk :: value reg, reg)
  | Delete => (if present reg then [kKvOk] else [kKvNotFound], mkReg false [])
  | Cas =>
      let current := if present reg then value reg else [] in
      if bool_decide (current ≠ op_arg o) then ([kKvCasFailed], reg)
      else ([kKvOk], mkReg true (op_arg2 o))
  | Append =>
      let reg := if negb (present reg) then mkReg true [] else reg in
      let reg := mkReg (present reg) (value reg ++ op_arg o) in
      (kKvOk :: value reg, reg)
  end.

(** ** The search over one key's operations *)

Definition kInf : Z := 9223372036854775807.

Section KeySearch.
Context (ops : list ClientOp).

Definition words : nat := (length ops + 63) / 64.

Definition taken (mask : list N) (i : nat) : bool :=
  match mask !! (i / 64)%nat with
  | Some w => negb (N.land (N.shiftr w (N.of_nat (i mod 64))) 1 =? 0)%N
  | None => false
  end.

Definition setTaken (mask : list N) (i : nat) : list N :=
  match mask !! (i / 64)%nat with
  | Some w => <[(i / 64)%nat := N.lor w (N.shiftl 1 (N.of_nat (i mod 64)))]> mask
  | None => mask
  end.

Definition memoKey (mask : list N) (reg : KvRegister) : list byte :=
  (mask ≫= le_bytes 8) ++ [if present reg then x01 else x00] ++ value reg.

(** [minReturn] and [allCompletedDone]. *)
Definition scan (mask : list N) : Z * bool :=
  foldl (λ '(minReturn, allDone) i,
    match ops !! i with
    | None => (minReturn, allDone)
    | Some o =>
        if taken mask i || negb (complete o) then (minReturn, allDone)
        else (Z.min minReturn (op_return o), false)
    end) (kInf, true) (seq 0 (length ops)).

Abbreviation Visited := (gset (list byte)).

(** The loop of [dfs] over the candidates [js] for the next operation; [rec] is
    the recursive call. *)
Fixpoint tryOps (rec : list N → KvRegister → Visited → option (bool * Visited))
    (minReturn : Z) (mask : list N) (reg : KvRegister) (js : list nat) (visited : Visited) :
    option (bool * Visited) :=
  match js with
  | [] => Some (false, visited)
  | i :: js =>
      match ops !! i with
      | None => tryOps rec minReturn mask reg js visited
      | Some o =>
          if taken mask i then tryOps rec minReturn mask reg js visited
          else if minReturn <? op_invoke o then tryOps rec minReturn mask reg js visited
          else
            let '(result, next) := kvModelApply reg o in
            if complete o && bool_decide (result ≠ op_result o)
            then tryOps rec minReturn mask reg js visited
            else
              match rec (setTaken mask i) next visited with
              | None => None
              | Some (true, visited) => Some (true, visited)
              | Some (false, visited) => tryOps rec minReturn mask reg js visited
              end
      end
  end.

(** The fuel bounds the depth; [None] is running out of it. *)
Fixpoint dfs (fuel : nat) (mask : list N) (reg : KvRegister) (visited : Visited) :
    option (bool * Visited) :=
  match fuel with
  | O => None
  | S fuel =>
      let '(minReturn, allDone) := scan mask in
      if allDone then Some (true, visited)
      else if bool_decide (memoKey mask reg ∈ visited) then Some (false, visited)
      else
        tryOps (dfs fuel) minReturn mask reg (seq 0 (length ops)) ({[memoKey mask reg]} ∪ visited)
  end.

(** One level per operation taken, and one to look at the last. *)
Definition KeySearch_linearizable : option bool :=
  fst <$> dfs (S (length ops)) (replicate words 0%N) emptyReg ∅.

End KeySearch.

(** ** The whole history *)

Record LinearizabilityResult := mkLinResult {
  lr_ok : bool;
  explanation : list byte;
}.

(** [byKey[op.key].push_back(&op)] *)
Definition byKey (history : list ClientOp) : ordmap (list byte) (list ClientOp) :=
  foldl (λ m o, om_insert (op_key o) (default [] (om_find (op_key o) m) ++ [o]) m) [] history.

(** The comparator of the sort, as the order it sorts by. *)
Definition opLe (a b : ClientOp) : bool :=
  if negb (op_invoke a =? op_invoke b) then op_invoke a <? op_invoke b
  else if negb (op_client a =? op_client b)%N then (op_client a <? op_client b)%N
  else negb (op_seq b <? op_seq a)%N.

Definition op_le (a b : ClientOp) : Prop := opLe a b = true.
#[export] Instance op_le_dec : RelDecision op_le.
Proof. intros a b. unfold op_le. apply _. Defined.

Definition sortOps (l : list ClientOp) : list ClientOp := merge_sort op_le l.

Fixpoint checkKeys (m : ordmap (list byte) (list ClientOp)) : option LinearizabilityResult :=
  match m with
  | [] => Some (mkLinResult true [])
  | (key, ops) :: m =>
      let ops := sortOps ops in
      match KeySearch_linearizable ops with
      | None => None
      | Some false =>
          Some (mkLinResult false
            (str "history is not linearizable for key " ++ [x22] ++ key ++ [x22] ++ str " (" ++
             to_string (N.of_nat (length ops)) ++ str " ops)"))
      | Some true => checkKeys m
      end
  end.

Definition checkLinearizable (history : list ClientOp) : option LinearizabilityResult :=
  checkKeys (byKey history).

(** ** Linearizability *)

Section Spec.
Context {St : Type} (step : St → ClientOp → list byte * St).

(** The results recorded by completed operations are those of the sequential
    execution. *)
Fixpoint legal (st : St) (os : list ClientOp) : Prop :=
  match os with
  | [] => True
  | o :: os =>
      let '(result, st) := step st o in
      (complete o = true → result = op_result o) ∧ legal st os
  end.

(** An instant at which an operation can take effect. *)
Definition within (p : ClientOp * Z) : Prop :=
  op_invoke p.1 ≤ p.2 ∧ (complete p.1 = true → p.2 ≤ op_return p.1).

Record linearization (st : St) (history : list ClientOp) (l : list (ClientOp * Z)) : Prop := {
  lin_ops : ∃ pending, l.*1 ++ pending ≡ₚ history ∧ Forall (λ o, complete o = false) pending;
  lin_order : StronglySorted Z.le l.*2;
  lin_within : Forall within l;
  lin_legal : legal st l.*1;
}.

Definition linearizable_from (st : St) (history : list ClientOp) : Prop :=
  ∃ l, linearization st history l.
End Spec.

(** The whole store: every operation is executed as the state machine does. *)
Definition cmd_of (o : ClientOp) : KvCommand :=
  mkKvCommand (op_client o) (op_seq o) (op_op o) (op_key o) (op_arg o) (op_arg2 o).

Definition store_step (g : Store) (o : ClientOp) : list byte * Store := spec_op (cmd_of o) g.

Definition linearizable (history : list ClientOp) : Prop :=
  linearizable_from store_step ∅ history.

(** ** The search *)

Section Search.
Context (ops : list ClientOp).

Definition mask_ok (mask : list N) : Prop :=
  length mask = words ops ∧ Forall (λ w, (w < two64)%N) mask.

Lemma bit_test w k : negb (N.land (N.shiftr w k) 1 =? 0)%N = N.testbit w k.
Proof.
  change 1%N with (N.ones 1). rewrite N.land_ones, N.testbit_odd. change (2 ^ 1)%N with 2%N.
  rewrite <-N.bit0_mod, N.bit0_odd. by destruct (N.odd _).
Qed.

Lemma words_lt i : (i < length ops)%nat → (i / 64 < words ops)%nat.
Proof.
  intros Hi. unfold words. apply Nat.Div0.div_lt_upper_bound.
  pose proof (Nat.div_mod_eq (length ops + 63) 64). pose proof (Nat.mod_upper_bound (length ops + 63) 64). lia.
Qed.

Lemma setTaken_ok mask i : (i < length ops)%nat → mask_ok mask → mask_ok (setTaken mask i).
Proof.
  intros Hi [Hl Hf]. unfold setTaken. destruct (mask !! _) as [w|] eqn:Hw; [|done].
  split; [by rewrite length_insert|]. apply Forall_insert; [done|].
  pose proof (Forall_lookup_1 _ _ _ _ Hf Hw) as Hlt. cbn in Hlt.
  pose proof (Nat.mod_upper_bound i 64 ltac:(done)).
  change two64 with (2 ^ 64)%N in *. destruct (decide (w = 0)%N) as [->|Hnz].
  - rewrite N.lor_0_l, N.shiftl_1_l. apply N.pow_lt_mono_r; lia.
  - apply N.log2_lt_pow2; [destruct (N.lor _ _) eqn:E; [|lia]; by apply N.lor_eq_0_l in E|].
    rewrite N.log2_lor, N.shiftl_1_l, N.log2_pow2 by lia.
    assert (N.log2 w < 64)%N by (apply N.log2_lt_pow2; lia). lia.
Qed.

Lemma taken_set mask i j :
  (i < length ops)%nat → mask_ok mask →
  taken (setTaken mask i) j = bool_decide (j = i) || taken mask j.
Proof.
  intros Hi [Hl Hf]. destruct (lookup_lt_is_Some_2 mask (i / 64)) as [w Hw]; [rewrite Hl; by apply words_lt|].
  unfold taken, setTaken. rewrite Hw.
  destruct (decide (j / 64 = i / 64)%nat) as [E|Hne].
  - rewrite E, Hw, list_lookup_insert_eq by (by eapply lookup_lt_Some).
    rewrite !bit_test, N.lor_spec, N.shiftl_1_l, N.pow2_bits_eqb.
    pose proof (Nat.div_mod_eq i 64). pose proof (Nat.div_mod_eq j 64).
    rewrite orb_comm. f_equal. case_bool_decide; [apply N.eqb_eq|apply N.eqb_neq]; [by subst|lia].
  - rewrite list_lookup_insert_ne by done. rewrite bool_decide_false; [done|]. by intros ->.
Qed.

(** The operations not taken yet. *)
Definition untaken (mask : list N) : list ClientOp :=
  omap (λ i, if taken mask i then None else ops !! i) (seq 0 (length ops)).

Lemma untaken_elem mask o :
  o ∈ untaken mask ↔ ∃ i, ops !! i = Some o ∧ taken mask i = false.
Proof.
  unfold untaken. rewrite list_elem_of_omap. setoid_rewrite elem_of_seq. split.
  - intros (i & Hi & E). exists i. by destruct (taken mask i).
  - intros (i & E & Ht). exists i. rewrite Ht. split; [|done].
    apply lookup_lt_Some in E. lia.
Qed.

Lemma untaken_set mask i o :
  mask_ok mask → ops !! i = Some o → taken mask i = false →
  untaken mask ≡ₚ o :: untaken (setTaken mask i).
Proof.
  intros Hm Ho Ht. pose proof (lookup_lt_Some _ _ _ Ho) as Hi. unfold untaken.
  replace (seq 0 (length ops)) with (seq 0 i ++ i :: seq (S i) (length ops - S i)).
  2:{ change (i :: seq (S i) (length ops - S i)) with (seq (0 + i) (S (length ops - S i))).
      rewrite <-seq_app. f_equal. lia. }
  assert (Hsame : ∀ js : list nat, i ∉ js →
    omap (λ j, if taken (setTaken mask i) j then None else ops !! j) js =
    omap (λ j, if taken mask j then None else ops !! j) js).
  { induction js as [|j js IH]; [done|]. intros [Hne Hjs]%not_elem_of_cons. cbn.
    rewrite taken_set, bool_decide_false by done. cbn. by rewrite IH. }
  rewrite !omap_app. cbn [omap list_omap].
  rewrite Ht, Ho, taken_set, bool_decide_true by done. cbn [orb].
  rewrite !Hsame by (rewrite elem_of_seq; lia). symmetry. apply Permutation_middle.
Qed.

Lemma scan_spec mask minReturn allDone :
  scan ops mask = (minReturn, allDone) →
  (allDone = true ↔ Forall (λ o, complete o = false) (untaken mask)) ∧
  ∀ t, t ≤ minReturn ↔
    t ≤ kInf ∧ Forall (λ o, complete o = true → t ≤ op_return o) (untaken mask).
Proof.
  unfold scan, untaken. generalize (seq 0 (length ops)) as js. intros js.
  induction js as [|j js IH] using rev_ind in minReturn, allDone |- *.
  - cbn. intros [= <- <-]. split; [done|]. intros t. rewrite Forall_nil. tauto.
  - rewrite foldl_app, omap_app. destruct (foldl _ _ js) as [m d] eqn:E.
    destruct (IH m d eq_refl) as [Hd Hm]. cbn.
    intros Hscan. split; [|intros t; specialize (Hm t)]; rewrite Forall_app;
      destruct (ops !! j) as [o|]; destruct (taken mask j); cbn in *;
      rewrite ?Forall_nil, ?Forall_singleton; try (injection Hscan as <- <-; tauto);
      destruct (complete o) eqn:Ec; cbn in *; injection Hscan as <- <-; try tauto.
    + split; [done|]. by intros [_ ?].
    + rewrite Z.min_glb_iff. tauto.
    + intuition congruence.
Qed.

Lemma memoKey_inj m m' r r' :
  mask_ok m → mask_ok m' → memoKey m r = memoKey m' r' → m = m' ∧ r = r'.
Proof.
  intros [Hl Hf] [Hl' Hf'] E. unfold memoKey in E. rewrite <-Hl in Hl'. clear Hl. symmetry in Hl'.
  revert m' Hl' Hf' E. induction Hf as [|w m Hw _ IH]; intros [|w' m'] Hl' Hf' E; try done.
  - split; [done|]. cbn in E. destruct r as [[] v], r' as [[] v']; cbn in E; congruence.
  - apply Forall_cons in Hf' as [Hw' Hf']. cbn [mbind list_bind] in E. rewrite <-!app_assoc in E.
    apply app_inj_1 in E as [Ew E]; [|by rewrite !length_le_bytes].
    apply (f_equal le_value) in Ew. rewrite !le_value_le_bytes_small in Ew by (by change (256 ^ N.of_nat 8)%N with two64).
    destruct (IH m' ltac:(by injection Hl') Hf' E) as [-> ->]. by subst.
Qed.

(** A search state is alive when what is left can be linearized. *)
Definition alive (mask : list N) (reg : KvRegister) : Prop :=
  linearizable_from kvModelApply reg (untaken mask).

(** Operation [i] may be linearized next, leading to the register [next]. *)
Definition choice (mask : list N) (reg : KvRegister) (i : nat) (next : KvRegister) : Prop :=
  ∃ o result, ops !! i = Some o ∧ taken mask i = false ∧ op_invoke o ≤ (scan ops mask).1 ∧
    kvModelApply reg o = (result, next) ∧ (complete o = true → result = op_result o).

Lemma alive_done mask reg : (scan ops mask).2 = true → alive mask reg.
Proof.
  destruct (scan ops mask) as [m d] eqn:E. apply scan_spec in E as [Hd _]. cbn.
  intros Hp%Hd. exists []. split; [|constructor..|done]. by exists (untaken mask).
Qed.

Lemma raise_points t l :
  StronglySorted Z.le l.*2 → Forall within l →
  Forall (λ o, complete o = true → t ≤ op_return o) l.*1 →
  let l' := (λ p, (p.1, Z.max t p.2)) <$> l in
  l'.*1 = l.*1 ∧ StronglySorted Z.le (t :: l'.*2) ∧ Forall within l'.
Proof.
  intros Hs Hw Ht. cbn. rewrite <-!list_fmap_compose. split; [done|].
  induction l as [|[o p] l IH]; cbn in *; [by repeat constructor|].
  apply StronglySorted_cons in Hs as [Hp Hs]. apply Forall_cons in Hw as [[H1 H2] Hw].
  apply Forall_cons in Ht as [Ht1 Ht]. destruct (IH Hs Hw Ht) as [Hs' Hw'].
  apply StronglySorted_cons in Hs' as [Hall Hs']. cbn in *. split.
  - repeat constructor; try done.
    + rewrite Forall_fmap in Hp |- *. eapply Forall_impl; [exact Hp|]. cbn. lia.
    + lia.
  - constructor; [|done]. split; cbn; [lia|]. intros Hc. specialize (H2 Hc). specialize (Ht1 Hc). lia.
Qed.

Lemma alive_step mask reg i next :
  mask_ok mask → choice mask reg i next → alive (setTaken mask i) next → alive mask reg.
Proof.
  intros Hm (o & result & Ho & Ht & Hinv & Hap & Hres) (l & [(pend & Hperm & Hpend) Hs Hw Hl]).
  destruct (scan ops mask) as [m d] eqn:E. apply scan_spec in E as [_ Hmin]. cbn in Hinv.
  apply Hmin in Hinv as [_ Hinv]. pose proof (untaken_set mask i o Hm Ho Ht) as Hu.
  rewrite Hu in Hinv. apply Forall_cons in Hinv as [Ho1 Hinv]. rewrite <-Hperm in Hinv.
  apply Forall_app in Hinv as [Hinv _].
  destruct (raise_points (op_invoke o) l Hs Hw Hinv) as (E1 & E2 & E3).
  exists ((o, op_invoke o) :: ((λ p, (p.1, Z.max (op_invoke o) p.2)) <$> l)).
  split; cbn [fmap list_fmap fst snd]; rewrite ?E1.
  - exists pend. split; [|done]. by rewrite Hu, <-Hperm.
  - done.
  - constructor; [|done]. split; [done|exact Ho1].
  - cbn. by rewrite Hap.
Qed.

Lemma alive_inv mask reg :
  mask_ok mask → Forall (λ o, op_return o ≤ kInf) ops →
  (scan ops mask).2 = false → alive mask reg →
  ∃ i next, choice mask reg i next ∧ alive (setTaken mask i) next.
Proof.
  intros Hm Hrange Hd (l & [(pend & Hperm & Hpend) Hs Hw Hl]).
  unfold choice. destruct (scan ops mask) as [m d] eqn:E. apply scan_spec in E as [Hdone Hmin].
  cbn in *. subst d. destruct l as [|[o t] l].
  { cbn in Hperm. rewrite Hperm in Hpend. by apply Hdone in Hpend. }
  cbn in *. apply StronglySorted_cons in Hs as [Hts Hs]. apply Forall_cons in Hw as [[Hw1 Hw2] Hw]. cbn in *.
  destruct (kvModelApply reg o) as [result next] eqn:Eap. destruct Hl as [Hres Hl].
  assert (o ∈ untaken mask) as (i & Ho & Ht)%untaken_elem by (rewrite <-Hperm; left).
  pose proof (untaken_set mask i o Hm Ho Ht) as Hu.
  assert (Hall : Forall (λ o', complete o' = true → t ≤ op_return o') (untaken mask)).
  { rewrite <-Hperm. constructor; [done|]. apply Forall_app. split.
    - apply Forall_forall. intros o' ([o2 t'] & -> & Hin)%list_elem_of_fmap. cbn. intros Hc.
      rewrite Forall_fmap, Forall_forall in Hts. specialize (Hts _ Hin). cbn in Hts.
      rewrite Forall_forall in Hw. destruct (Hw _ Hin) as [_ Hle]. specialize (Hle Hc). cbn in Hle. lia.
    - eapply Forall_impl; [exact Hpend|]. cbn. congruence. }
  exists i, next. split.
  - exists o, result. split_and!; try done. apply Hmin. split; [|by eapply Forall_impl; [exact Hall|]; cbn; intros o' Hle Hc; specialize (Hle Hc); lia].
    assert (¬ Forall (λ o, complete o = false) (untaken mask)) as Hex by (intros ?%Hdone; done).
    apply not_Forall_Exists, Exists_exists in Hex as (o' & Hin & Hc); [|solve_decision].
    apply not_false_is_true in Hc. rewrite Forall_forall in Hall. specialize (Hall o' Hin Hc).
    apply untaken_elem in Hin as (j & Hj & _). apply (Forall_lookup_1 _ _ _ _ Hrange) in Hj. cbn in Hj. lia.
  - exists l. split; [|done..]. exists pend. split; [|done].
    apply (Permutation_cons_inv (a := o)). by rewrite <-Hu, <-Hperm.
Qed.

(** Visited states with at most [k] operations left are dead: they were searched
    without success.  States with more left may still be on the stack. *)
Definition dead_upto (k : nat) (visited : gset (list byte)) : Prop :=
  ∀ m r, mask_ok m → memoKey m r ∈ visited → (length (untaken m) ≤ k)%nat → ¬ alive m r.

(** A search adds only states with at most [k] operations left. *)
Definition adds (k : nat) (visited visited' : gset (list byte)) : Prop :=
  ∀ m r, mask_ok m → memoKey m r ∈ visited' →
    memoKey m r ∈ visited ∨ (length (untaken m) ≤ k)%nat.

(** What a call answers about a state. *)
Definition answers (visited : gset (list byte)) (mask : list N) (reg : KvRegister)
    (res : option (bool * gset (list byte))) : Prop :=
  ∃ b visited', res = Some (b, visited') ∧ (b = true ↔ alive mask reg) ∧
    (b = false → dead_upto (length (untaken mask)) visited' ∧
                 adds (length (untaken mask)) visited visited').

Lemma choice_left mask reg i next :
  mask_ok mask → choice mask reg i next →
  mask_ok (setTaken mask i) ∧ length (untaken mask) = S (length (untaken (setTaken mask i))).
Proof.
  intros Hm (o & _ & Ho & Ht & _). split.
  - apply setTaken_ok; [by eapply lookup_lt_Some|done].
  - by rewrite (untaken_set mask i o Hm Ho Ht).
Qed.

(** The loop: when no candidate of [js] leads on, the states it visited are dead
    and have fewer operations left. *)
Lemma tryOps_spec rec mask reg js visited k :
  mask_ok mask → length (untaken mask) = S k →
  (∀ m r v, mask_ok m → length (untaken m) = k → dead_upto k v → answers v m r (rec m r v)) →
  dead_upto k visited →
  ∃ b visited', tryOps ops rec (scan ops mask).1 mask reg js visited = Some (b, visited') ∧
    (b = true → ∃ i next, choice mask reg i next ∧ alive (setTaken mask i) next) ∧
    (b = false → dead_upto k visited' ∧ adds k visited visited' ∧
      ∀ i next, i ∈ js → choice mask reg i next → ¬ alive (setTaken mask i) next).
Proof.
  intros Hm Hk Hrec. revert visited. induction js as [|i js IH]; intros visited Hdead.
  { exists false, visited. split_and!; [done..|]. intros _. split_and!; [done|by left|].
    by intros i next ?%not_elem_of_nil. }
  assert (Hskip : (∀ next, ¬ choice mask reg i next) →
    ∃ b visited', tryOps ops rec (scan ops mask).1 mask reg js visited = Some (b, visited') ∧
    (b = true → ∃ i next, choice mask reg i next ∧ alive (setTaken mask i) next) ∧
    (b = false → dead_upto k visited' ∧ adds k visited visited' ∧
      ∀ i' next, i' ∈ i :: js → choice mask reg i' next → ¬ alive (setTaken mask i') next)).
  { intros Hno. destruct (IH visited Hdead) as (b & v' & E & Ht & Hf). exists b, v'.
    split_and!; [done..|]. intros Hb. destruct (Hf Hb) as (H1 & H2 & H3). split_and!; [done..|].
    intros i' next [->|Hin]%elem_of_cons Hc; [by apply Hno in Hc|by apply (H3 i' next)]. }
  cbn. destruct (ops !! i) as [o|] eqn:Ho.
  2:{ apply Hskip. intros next (o & _ & E & _). congruence. }
  destruct (taken mask i) eqn:Ht.
  { apply Hskip. intros next (? & _ & _ & E & _). congruence. }
  destruct (Z.ltb_spec (scan ops mask).1 (op_invoke o)) as [Hlt|Hle].
  { apply Hskip. intros next (o' & ? & E & _ & Hle & _). assert (o' = o) as -> by congruence. lia. }
  destruct (kvModelApply reg o) as [result nx] eqn:Eap.
  destruct (complete o && bool_decide (result ≠ op_result o)) eqn:Eres.
  { apply Hskip. intros next (o' & res' & E & _ & _ & Eap' & Hres). assert (o' = o) as -> by congruence.
    apply andb_true_iff in Eres as [Hc Hne%bool_decide_eq_true]. rewrite Eap in Eap'.
    injection Eap' as <- <-. by apply Hne, Hres. }
  assert (Hch : choice mask reg i nx).
  { exists o, result. split_and!; try done. intros Hc. rewrite Hc in Eres. cbn in Eres.
    by apply bool_decide_eq_false, dec_stable in Eres. }
  destruct (choice_left mask reg i nx Hm Hch) as [Hm' Hk']. rewrite Hk in Hk'. injection Hk' as Hk'.
  destruct (Hrec (setTaken mask i) nx visited Hm' (eq_sym Hk') Hdead) as (b & v1 & -> & Hb & Hf).
  destruct b; [exists true, v1; split_and!; [done| |done]; intros _; exists i, nx; split; [done|by apply Hb]|].
  rewrite <-Hk' in Hf. destruct (Hf eq_refl) as [Hdead1 Hadds1]. destruct (IH v1 Hdead1) as (b & v2 & -> & Ht2 & Hf2).
  exists b, v2. split_and!; [done..|]. intros Eb. destruct (Hf2 Eb) as (H1 & H2 & H3). split_and!; [done| |].
  - intros m r Hok [Hin|?]%H2; [|by right|done]. by apply Hadds1.
  - intros i' next [->|Hin]%elem_of_cons Hc; [|by apply (H3 i' next)].
    destruct Hc as (o' & res' & E & _ & _ & Eap' & _). assert (o' = o) as -> by congruence.
    rewrite Eap in Eap'. injection Eap' as <- <-. intros Hal. by apply Hb in Hal.
Qed.

Lemma dfs_spec fuel mask reg visited :
  Forall (λ o, op_return o ≤ kInf) ops → mask_ok mask →
  (length (untaken mask) < fuel)%nat → dead_upto (length (untaken mask)) visited →
  answers visited mask reg (dfs ops fuel mask reg visited).
Proof.
  intros Hrange. revert mask reg visited.
  induction fuel as [|fuel IH]; intros mask reg visited Hm Hfuel Hdead; [lia|]. cbn [dfs].
  destruct (scan ops mask) as [minReturn allDone] eqn:Es. destruct allDone.
  { exists true, visited. split_and!; [done| |done]. split; [|done]. intros _. apply alive_done. by rewrite Es. }
  case_bool_decide as Hv.
  { exists false, visited. split_and!; [done| |].
    - split; [done|]. intros Hal. by destruct (Hdead mask reg Hm Hv).
    - intros _. split; [done|by left]. }
  assert (∃ k, length (untaken mask) = S k) as [k Hk].
  { destruct (length (untaken mask)) as [|k] eqn:E; [|by exists k]. apply nil_length_inv in E.
    destruct (scan_spec _ _ _ Es) as [Hd _]. rewrite E in Hd.
    assert (false = true) by (apply Hd; constructor). done. }
  assert (Hdead1 : dead_upto k ({[memoKey mask reg]} ∪ visited)).
  { intros m r Hok [E%elem_of_singleton|Hin]%elem_of_union Hle; [|apply (Hdead m r); try done; lia].
    apply memoKey_inj in E as [-> _]; [lia|done..]. }
  destruct (tryOps_spec (dfs ops fuel) mask reg (seq 0 (length ops))
    ({[memoKey mask reg]} ∪ visited) k Hm Hk) as (b & v' & E & Ht & Hf).
  { intros m r v Hok Hlen Hd. apply IH; [done|lia|]. by rewrite Hlen. }
  { exact Hdead1. }
  rewrite Es in E. cbn [fst] in E. rewrite E. exists b, v'. split; [done|].
  assert (Hfalse : b = false → ¬ alive mask reg).
  { intros -> Hal. destruct (Hf eq_refl) as (_ & _ & Hno).
    apply alive_inv in Hal as (i & next & Hch & Hal); [|done..|by rewrite Es].
    apply (Hno i next); [|done..]. destruct Hch as (o & _ & Ho & _). apply elem_of_seq.
    apply lookup_lt_Some in Ho. lia. }
  split.
  - split; [|by destruct b; [|intros ?%Hfalse]]. intros (i & next & Hch & Hal)%Ht. by eapply alive_step.
  - intros Eb. destruct (Hf Eb) as (H1 & H2 & _). rewrite Hk. split.
    + intros m r Hok Hin Hle. destruct (decide (length (untaken m) ≤ k)%nat); [by apply (H1 m r)|].
      destruct (H2 m r Hok Hin) as [[Ek%elem_of_singleton|Hin']%elem_of_union|]; [| |lia].
      * apply memoKey_inj in Ek as [-> ->]; [by apply Hfalse|done..].
      * apply (Hdead m r); [done..|lia].
    + intros m r Hok Hin. destruct (H2 m r Hok Hin) as [[Ek%elem_of_singleton|Hin']%elem_of_union|]; [|by left|right; lia].
      apply memoKey_inj in Ek as [-> ->]; [right; lia|done..].
Qed.

Lemma omap_lookup_seq {A} (l : list A) : omap (λ i, l !! i) (seq 0 (length l)) = l.
Proof.
  induction l as [|x l IH]; [done|]. cbn [length seq omap list_omap]. cbn. f_equal.
  transitivity (omap (λ i, l !! i) (seq 0 (length l))); [clear IH|done].
  rewrite <-seq_shift. induction (seq 0 (length l)) as [|i js IHj]; [done|]. cbn. by rewrite IHj.
Qed.

Lemma KeySearch_correct :
  Forall (λ o, op_return o ≤ kInf) ops →
  ∃ b, KeySearch_linearizable ops = Some b ∧
    (b = true ↔ linearizable_from kvModelApply emptyReg ops).
Proof.
  intros Hrange. set (mask := replicate (words ops) 0%N).
  assert (Hm : mask_ok mask).
  { split; [apply length_replicate|by apply Forall_replicate]. }
  assert (Hu : untaken mask = ops).
  { transitivity (omap (λ i, ops !! i) (seq 0 (length ops))); [|apply omap_lookup_seq].
    unfold untaken.
    assert (∀ i, taken mask i = false) as Hno.
    { intros i. unfold taken. destruct (mask !! _) as [w|] eqn:E; [|done].
      apply lookup_replicate in E as [-> _]. by rewrite bit_test. }
    induction (seq 0 (length ops)) as [|i js IH]; [done|]. cbn. rewrite Hno.
    destruct (ops !! i); [f_equal|]; apply IH. }
  destruct (dfs_spec (S (length ops)) mask emptyReg ∅ Hrange Hm) as (b & v & E & Hb & _).
  { rewrite Hu. lia. }
  { intros m r _ []%elem_of_empty. }
  exists b. unfold KeySearch_linearizable. fold mask. rewrite E. split; [done|].
  unfold alive in Hb. by rewrite Hu in Hb.
Qed.
End Search.

(** ** Keys are independent *)

Definition reg_of (v : option (list byte)) : KvRegister :=
  match v with Some v => mkReg true v | None => emptyReg end.

Definition opt_of (reg : KvRegister) : option (list byte) :=
  if present reg then Some (value reg) else None.

(** The model of one key mirrors the store, result and effect. *)
Lemma store_step_reg g o :
  store_step g o =
    ((kvModelApply (reg_of (g !! op_key o)) o).1,
     partial_alter (λ _, opt_of (kvModelApply (reg_of (g !! op_key o)) o).2) (op_key o) g) ∧
  reg_of (opt_of (kvModelApply (reg_of (g !! op_key o)) o).2) =
    (kvModelApply (reg_of (g !! op_key o)) o).2.
Proof.
  unfold store_step, spec_op, kvModelApply. cbn [cmd_of c_op c_key c_arg c_arg2].
  destruct (op_op o); cbn.
  - done.
  - destruct (g !! op_key o) as [v|] eqn:E; cbn; (split; [|done]); f_equal;
      rewrite <-E; symmetry; apply partial_alter_self.
  - by destruct (g !! op_key o).
  - destruct (g !! op_key o) as [v|] eqn:E; cbn; case_decide as Ed;
      [rewrite bool_decide_false by (by intros H; apply H)
      |rewrite bool_decide_true by done
      |rewrite bool_decide_false by (by intros H; apply H)
      |rewrite bool_decide_true by done]; cbn; (split; [|done]); try done; f_equal;
      rewrite <-E; symmetry; apply partial_alter_self.
  - by destruct (g !! op_key o).
Qed.

(** A sequence is legal exactly when the operations on one key are legal for
    that key's register and the others are legal for a store that may differ on
    it. *)
Lemma legal_split k os g g' :
  (∀ k', k' ≠ k → g !! k' = g' !! k') →
  legal store_step g os ↔
    legal kvModelApply (reg_of (g !! k)) (filter (λ o, op_key o = k) os) ∧
    legal store_step g' (filter (λ o, op_key o ≠ k) os).
Proof.
  revert g g'. induction os as [|o os IH]; intros g g' Hg; [done|].
  destruct (store_step_reg g o) as [E Hn]. cbn [legal]. rewrite E.
  set (reg := kvModelApply (reg_of (g !! op_key o)) o) in *.
  destruct (decide (op_key o = k)) as [<-|Hne].
  - rewrite filter_cons_True by done. rewrite (filter_cons_False _ o os) by (intros H; by apply H).
    cbn [legal]. fold reg. destruct reg as [r reg'] eqn:Er. cbn in *.
    rewrite (IH _ g').
    + rewrite lookup_partial_alter_eq, Hn. tauto.
    + intros k' Hk. rewrite lookup_partial_alter_ne by done. by apply Hg.
  - rewrite filter_cons_False by done. rewrite (filter_cons_True _ o os) by done.
    cbn [legal]. destruct (store_step_reg g' o) as [E' _]. rewrite E', <-(Hg (op_key o)) by done.
    fold reg. destruct reg as [r reg'] eqn:Er. cbn in *.
    rewrite (IH _ (partial_alter (λ _, opt_of reg') (op_key o) g')).
    + rewrite lookup_partial_alter_ne by done. tauto.
    + intros k' Hk. destruct (decide (k' = op_key o)) as [->|Hne'].
      * by rewrite !lookup_partial_alter_eq.
      * rewrite !lookup_partial_alter_ne by done. by apply Hg.
Qed.

Lemma fst_filter {A B} (P : A → Prop) `{!∀ x, Decision (P x)} (l : list (A * B)) :
  (filter (λ p, P p.1) l).*1 = filter P l.*1.
Proof.
  induction l as [|[a b] l IH]; [done|]. cbn [fmap list_fmap fst]. rewrite !filter_cons. cbn.
  case_decide; cbn; by rewrite IH.
Qed.

Lemma sorted_filter {A} (P : A → Prop) `{!∀ x, Decision (P x)} (f : A → Z) l :
  StronglySorted Z.le (f <$> l) → StronglySorted Z.le (f <$> filter P l).
Proof.
  induction l as [|a l IH]; [done|]. cbn [fmap list_fmap]. rewrite StronglySorted_cons. intros [Ha Hs].
  rewrite filter_cons. case_decide; [|by apply IH]. cbn. apply StronglySorted_cons.
  split; [|by apply IH]. rewrite Forall_fmap, Forall_forall in Ha |- *. intros x [_ Hx]%list_elem_of_filter. by apply Ha.
Qed.

(** Merging two linearizations by their instants. *)
Definition by_time (p q : ClientOp * Z) : Prop := p.2 ≤ q.2.
#[local] Instance by_time_dec : RelDecision by_time.
Proof. intros p q. unfold by_time. apply _. Defined.
#[local] Instance by_time_total : Total by_time.
Proof. intros p q. unfold by_time. lia. Qed.
#[local] Instance by_time_trans : Transitive by_time.
Proof. intros p q r. unfold by_time. lia. Qed.

Lemma by_time_sorted l : StronglySorted by_time l ↔ StronglySorted Z.le l.*2.
Proof.
  induction l as [|p l IH]; [split; constructor|]. cbn [fmap list_fmap].
  by rewrite !StronglySorted_cons, IH, Forall_fmap.
Qed.

Lemma filter_none {A} (P : A → Prop) `{!∀ x, Decision (P x)} l :
  Forall (λ x, ¬ P x) l → filter P l = [].
Proof. induction 1; [done|]. by rewrite filter_cons_False. Qed.

Lemma filter_merge (P : ClientOp * Z → Prop) `{!∀ x, Decision (P x)} l1 l2 :
  Forall P l1 → Forall (λ x, ¬ P x) l2 →
  filter P (list_merge by_time l1 l2) = l1 ∧
  filter (λ x, ¬ P x) (list_merge by_time l1 l2) = l2.
Proof.
  intros H1. revert l2. induction H1 as [|x1 l1 Hx1 Hl1 IH1]; intros l2 H2.
  - rewrite list_merge_nil_l. split; [by apply filter_none|by apply filter_all].
  - induction H2 as [|x2 l2 Hx2 Hl2 IH2].
    + rewrite list_merge_nil_r. split; [apply filter_all; by constructor|].
      apply filter_none. constructor; [tauto|]. eapply Forall_impl; [done|]. cbn. tauto.
    + rewrite list_merge_cons. case_decide.
      * destruct (IH1 (x2 :: l2)) as [E1 E2]; [by constructor|].
        rewrite filter_cons_True by done. rewrite (filter_cons_False _ x1) by tauto. by rewrite E1, E2.
      * destruct IH2 as [E1 E2].
        rewrite filter_cons_False by done. rewrite (filter_cons_True _ x2) by done. by rewrite E1, E2.
Qed.

Lemma filter_split {A} (P : A → Prop) `{!∀ x, Decision (P x)} l :
  filter P l ++ filter (λ x, ¬ P x) l ≡ₚ l.
Proof.
  induction l as [|x l IH]; [done|]. rewrite !filter_cons. case_decide.
  - rewrite decide_False by tauto. cbn. by rewrite IH.
  - rewrite decide_True by done. by rewrite <-Permutation_middle, IH.
Qed.

Lemma linearizable_perm {St} step (st : St) h h' :
  h ≡ₚ h' → linearizable_from step st h → linearizable_from step st h'.
Proof.
  intros Hh (l & [(pend & Hp & Hf) ? ? ?]). exists l. split; [|done..]. exists pend. by rewrite Hp.
Qed.

Lemma chosen_filter (P : ClientOp → Prop) `{!∀ x, Decision (P x)} (l : list (ClientOp * Z)) pend h :
  l.*1 ++ pend ≡ₚ filter P h → Forall (λ p, P p.1) l.
Proof.
  intros Hp. assert (Forall P (l.*1 ++ pend)) as [Hl _]%Forall_app.
  { rewrite Hp. apply Forall_forall. by intros o [? _]%list_elem_of_filter. }
  by rewrite Forall_fmap in Hl.
Qed.

(** One key's operations can be linearized apart from the rest. *)
Lemma linearizable_split k h :
  linearizable h ↔
    linearizable_from kvModelApply emptyReg (filter (λ o, op_key o = k) h) ∧
    linearizable (filter (λ o, op_key o ≠ k) h).
Proof.
  split.
  - intros (l & [(pend & Hp & Hf) Hs Hw Hl]). apply (legal_split k _ ∅ ∅) in Hl as [Hl1 Hl2]; [|done].
    assert (Hsplit : ∀ P : ClientOp → Prop, ∀ D : ∀ o, Decision (P o), ∀ St step (st : St),
      legal step st (filter P l.*1) → linearizable_from step st (filter P h)).
    { intros P D St step st Hl. exists (filter (λ p, P p.1) l). split.
      - exists (filter P pend). rewrite fst_filter, <-filter_app, Hp. split; [done|].
        apply Forall_forall. intros o [_ Ho]%list_elem_of_filter. by eapply Forall_forall in Hf.
      - by apply sorted_filter.
      - apply Forall_forall. intros p [_ Hin]%list_elem_of_filter. by eapply Forall_forall in Hw.
      - by rewrite fst_filter. }
    split; [by apply Hsplit|by apply (Hsplit (λ o, op_key o ≠ k))].
  - intros [(l1 & [(p1 & Hp1 & Hf1) Hs1 Hw1 Hl1]) (l2 & [(p2 & Hp2 & Hf2) Hs2 Hw2 Hl2])].
    pose proof (chosen_filter (λ o, op_key o = k) _ _ _ Hp1) as Hk1.
    pose proof (chosen_filter (λ o, op_key o ≠ k) _ _ _ Hp2) as Hk2.
    destruct (filter_merge (λ p, op_key p.1 = k) l1 l2 Hk1 Hk2) as [E1 E2].
    pose proof (merge_Permutation by_time l1 l2) as Hm. exists (list_merge by_time l1 l2). split.
    + exists (p1 ++ p2). split; [|by apply Forall_app].
      rewrite <-(filter_split (λ o, op_key o = k) h), <-Hp1, <-Hp2, Hm, fmap_app.
      solve_Permutation.
    + apply by_time_sorted, Sorted_StronglySorted; [apply _|].
      apply Sorted_list_merge; [apply _|..]; apply StronglySorted_Sorted; by apply by_time_sorted.
    + rewrite Hm. by apply Forall_app.
    + apply (legal_split k _ ∅ ∅); [done|].
      pose proof (fst_filter (λ o, op_key o = k) (list_merge by_time l1 l2)) as F1.
      pose proof (fst_filter (λ o, op_key o ≠ k) (list_merge by_time l1 l2)) as F2. cbn in F1, F2.
      by rewrite <-F1, <-F2, E1, E2.
Qed.

Lemma linearizable_nil {St} step (st : St) : linearizable_from step st [].
Proof. exists []. split; [by exists []|constructor..|done]. Qed.

Lemma linearizable_keys h :
  linearizable h ↔
    ∀ k, linearizable_from kvModelApply emptyReg (filter (λ o, op_key o = k) h).
Proof.
  split; [intros Hh k; exact (proj1 (proj1 (linearizable_split k h) Hh))|].
  assert (Hks : ∀ o, o ∈ h → op_key o ∈ op_key <$> h) by (intros; by apply list_elem_of_fmap_2).
  revert Hks. generalize (op_key <$> h) as ks. intros ks.
  induction ks as [|k ks IH] in h |- *; intros Hks Hall.
  - destruct h as [|o h]; [apply linearizable_nil|].
    specialize (Hks o (list_elem_of_here _ _)). by apply not_elem_of_nil in Hks.
  - apply (linearizable_split k). split; [apply Hall|]. apply IH.
    + intros o [Hne Ho]%list_elem_of_filter. apply Hks in Ho. by apply elem_of_cons in Ho as [?|?].
    + intros k'. destruct (decide (k' = k)) as [->|Hne].
      * rewrite filter_none; [apply linearizable_nil|].
        apply Forall_forall. by intros o [? _]%list_elem_of_filter.
      * rewrite list_filter_filter. specialize (Hall k').
        erewrite list_filter_iff; [exact Hall|]. cbn. intros o. split; [tauto|]. by intros ->.
Qed.

(** ** The checker *)

Lemma byKey_spec h :
  om_ok (byKey h) ∧
  ∀ k, om_find k (byKey h) =
    match filter (λ o, op_key o = k) h with [] => None | os => Some os end.
Proof.
  unfold byKey. induction h as [|o h [Hok Hf]] using rev_ind; [split; [constructor|done]|].
  rewrite foldl_app. cbn. split; [by apply om_insert_ok|]. intros k. rewrite filter_app.
  destruct (decide (op_key o = k)) as [<-|Hne].
  - rewrite om_find_insert_eq, Hf, filter_cons_True by done.
    by destruct (filter _ h).
  - rewrite om_find_insert_ne, Hf, filter_cons_False, filter_nil, app_nil_r by done. done.
Qed.

Definition in_range (o : ClientOp) : Prop := op_return o ≤ kInf.

(** The message for a key. *)
Definition blames (key : list byte) (n : nat) : list byte :=
  str "history is not linearizable for key " ++ [x22] ++ key ++ [x22] ++ str " (" ++
  to_string (N.of_nat n) ++ str " ops)".

Lemma checkKeys_spec m :
  Forall (λ p, Forall in_range p.2) m →
  ∃ r, checkKeys m = Some r ∧
    (lr_ok r = true → Forall (λ p, linearizable_from kvModelApply emptyReg p.2) m) ∧
    (lr_ok r = false → Exists (λ p, explanation r = blames p.1 (length p.2) ∧
                                  ¬ linearizable_from kvModelApply emptyReg p.2) m).
Proof.
  induction 1 as [|[key ops] m Hr _ (r & E & Ht & Hf)]; cbn [checkKeys].
  { exists (mkLinResult true []). split_and!; [done|constructor|done]. }
  pose proof (merge_sort_Permutation op_le ops) as Hp. fold (sortOps ops) in Hp.
  destruct (KeySearch_correct (sortOps ops)) as (b & -> & Hb); [by rewrite Hp|].
  destruct b.
  - exists r. split; [done|]. split.
    + intros Hok. constructor; [|by apply Ht]. apply (linearizable_perm _ _ _ _ Hp), Hb. done.
    + intros Hok. right. by apply Hf.
  - eexists. split; [done|]. split; [done|]. intros _. left. cbn. split.
    + unfold blames. by rewrite (Permutation_length Hp).
    + intros Hl. apply (linearizable_perm _ _ _ (sortOps ops)) in Hl; [|done]. by apply Hb in Hl.
Qed.

(** The verdict in terms of the single keys. *)
Lemma checkLinearizable_keys history :
  Forall in_range history →
  ∃ r, checkLinearizable history = Some r ∧
    (lr_ok r = true ↔
      ∀ k, linearizable_from kvModelApply emptyReg (filter (λ o, op_key o = k) history)) ∧
    (lr_ok r = false → ∃ k, let os := filter (λ o, op_key o = k) history in
       explanation r = blames k (length os) ∧
       ¬ linearizable_from kvModelApply emptyReg os).
Proof.
  intros Hr. destruct (byKey_spec history) as [Hok Hf].
  assert (Hin : ∀ k os, (k, os) ∈ byKey history → os = filter (λ o, op_key o = k) history).
  { intros k os H. apply om_find_elem in H; [|done]. rewrite Hf in H. by case_match; simplify_eq. }
  destruct (checkKeys_spec (byKey history)) as (r & E & Ht & Hfail).
  { apply Forall_forall. intros [k os] H. apply Hin in H as ->. apply Forall_forall.
    intros o [_ Ho]%list_elem_of_filter. by eapply Forall_forall in Hr. }
  assert (Hfail' : lr_ok r = false → ∃ k, let os := filter (λ o, op_key o = k) history in
    explanation r = blames k (length os) ∧ ¬ linearizable_from kvModelApply emptyReg os).
  { intros Hb. apply Hfail, Exists_exists in Hb as ([k os] & H & He). exists k.
    apply Hin in H as ->. exact He. }
  exists r. split; [done|]. split; [|done]. split.
  - intros Hb k. specialize (Hf k). destruct (filter (λ o, op_key o = k) history) as [|o os] eqn:Eos;
      [apply linearizable_nil|]. apply om_find_elem in Hf; [|done].
    by eapply Forall_forall in Ht; [|done..].
  - intros Hall. destruct (lr_ok r) eqn:Hb; [done|]. destruct (Hfail' eq_refl) as (k & _ & Hno).
    by destruct (Hno (Hall k)).
Qed.

(** C10: the checker decides linearizability.  On every history whose response
    times are [int64_t] values, [checkLinearizable] terminates; it accepts exactly
    when the whole history - all keys together - is linearizable with respect to
    the store the state machine implements; and when it rejects, the key it names
    is one whose operations alone cannot be linearized.  So the partition by key,
    the pruning by the earliest response and the memo of visited states neither
    miss a linearization nor invent one. *)
Theorem checkLinearizable_correct history :
  Forall in_range history →
  ∃ r, checkLinearizable history = Some r ∧
    (lr_ok r = true ↔ linearizable history) ∧
    (lr_ok r = false → ∃ k, let os := filter (λ o, op_key o = k) history in
       explanation r = blames k (length os) ∧
       ¬ linearizable_from kvModelApply emptyReg os).
Proof.
  intros Hr. destruct (checkLinearizable_keys history Hr) as (r&E&Hiff&Hno). exists r.
  split; [done|]. by rewrite linearizable_keys.
Qed.

(** ** A sample *)

Module LinSample.

(** Two clients race on one key; a third operation never returned. *)
Definition put1 : ClientOp := mkClientOp 1 1 Put [x6b] [x61] [] 0 10 [kKvOk].
Definition append2 : ClientOp := mkClientOp 2 1 Append [x6b] [x62] [] 5 (-1) [].
Definition get3 : ClientOp := mkClientOp 3 1 Get [x6b] [] [] 12 15 [kKvOk; x61; x62].
(** A read that starts after [get3] returned cannot miss the append. *)
Definition stale : ClientOp := mkClientOp 1 2 Get [x6b] [] [] 20 25 [kKvOk; x61].

Lemma checkLinearizable_correct_witness :
  linearizable [put1; append2; get3] ∧ ¬ linearizable [put1; append2; get3; stale].
Proof.
  destruct (checkLinearizable_correct [put1; append2; get3]) as (r & E & H & _).
  { apply (bool_decide_unpack _). by vm_compute. }
  destruct (checkLinearizable_correct [put1; append2; get3; stale]) as (r' & E' & H' & _).
  { apply (bool_decide_unpack _). by vm_compute. }
  split.
  - apply H. assert (Some (lr_ok r) = Some true) as [= ->]; [|done]. 
    change (Some (lr_ok r)) with (lr_ok <$> Some r). rewrite <-E. by vm_compute.
  - rewrite <-H'. assert (Some (lr_ok r') = Some false) as [= ->]; [|done].
    change (Some (lr_ok r')) with (lr_ok <$> Some r'). rewrite <-E'. by vm_compute.
Defined.

End LinSample.
