(* ===== verification/Checkers.v ===== *)
(** * src/faults/checkers.h, src/faults/checkers.cpp: the invariant monitors

    The five monitors of the simulation harness, as functions on their state:
    each is fed plain observations and accumulates violation texts.  The lemmas
    say when an observation is flagged: exactly when the property the monitor
    watches is broken by what it has seen. *)

From Stdlib Require Import NArith Strings.Byte Lia.
From S2P Require Import Prelude Wire Messages Log RaftCore OrdMap Text ClientService.

Local Open Scope N_scope.

(** ** Fingerprints *)

Definition fnvOffset : N := 14695981039346656037.

Definition fnv1a (data : list byte) (h : N) : N :=
  foldl (λ h b, (N.lxor h (Byte.to_N b) * 1099511628211) mod two64) h data.

Record EntryImage := mkEntryImage {
  im_term : Term;
  im_fp : N;
}.

#[export] Instance EntryImage_eq_dec : EqDecision EntryImage.
Proof. solve_decision. Defined.

Abbreviation LogImage := (list EntryImage) (only parsing).

(** [&e.term] is read as the eight bytes of a little-endian host. *)
Definition entryImage (e : LogEntry) : EntryImage :=
  let h := fnv1a (le_bytes 8 (e_term e)) fnvOffset in
  let h := fnv1a (e_command e) h in
  mkEntryImage (e_term e) h.

Definition logImage {L : Type} `{!RaftLog L} (log : L) : LogImage :=
  omap (λ i, entryImage <$> log_entryAt log (N.of_nat i)) (seq 1 (N.to_nat (log_lastIndex log))).

(** Both loops of the function at once: byte [i] is shifted to position [8*i]. *)
Definition orBytes (bs : list byte) : N :=
  foldl (λ v p, N.lor v (N.shiftl (Byte.to_N p.2) (8 * N.of_nat p.1))) 0 (imap pair bs).

Definition commandIdentity (command : list byte) : option (N * N) :=
  if (length command <? 16)%nat then None
  else Some (orBytes (take 8 command), orBytes (take 8 (drop 8 command))).

(** [format]: [vsnprintf] into 256 bytes. *)
Definition format (s : list byte) : list byte := take 255 s.

Definition zu (n : nat) : list byte := to_string (N.of_nat n).

(** ** Election Safety *)

(** A [std::set]: the keys of an ordered map. *)
Abbreviation nodeset := (@ordmap N unit) (only parsing).

Record ElectionSafetyChecker := mkElectionSafety {
  leadersByTerm_ : @ordmap N nodeset;
  es_violations : list (list byte);
}.

Definition electionSafetyText (term first node : N) : list byte :=
  format (str "ELECTION SAFETY: term " ++ to_string term ++ str " has two leaders: node " ++
    to_string first ++ str " and node " ++ to_string node).

Definition observeLeader (term node : N) (s : ElectionSafetyChecker) : ElectionSafetyChecker :=
  let winners := default [] (om_find term (leadersByTerm_ s)) in
  let violations :=
    match winners with
    | (first, _) :: _ =>
        match om_find node winners with
        | None => es_violations s ++ [electionSafetyText term first node]
        | Some _ => es_violations s
        end
    | [] => es_violations s
    end in
  mkElectionSafety (om_insert term (om_insert node tt winners) (leadersByTerm_ s)) violations.

(** ** Leader Append-Only *)

Record Baseline := mkBaseline {
  bl_term : Term;
  bl_log : LogImage;
}.

Record LeaderAppendOnlyChecker := mkAppendOnly {
  baseline_ : @ordmap N Baseline;
  ao_violations : list (list byte);
}.

Definition shrankText (node term : N) (from to : nat) : list byte :=
  format (str "LEADER APPEND-ONLY: leader " ++ to_string node ++ str " (term " ++
    to_string term ++ str ") shrank its log from " ++ zu from ++ str " to " ++ zu to ++
    str " entries").

Definition changedText (node term : N) (i : nat) : list byte :=
  format (str "LEADER APPEND-ONLY: leader " ++ to_string node ++ str " (term " ++
    to_string term ++ str ") changed its entry at index " ++ zu (i + 1)).

(** The comparison loops: the first position below [n] where the two images
    differ (a missing entry never equals one that is there). *)
Fixpoint firstDiff (n : nat) (i : nat) (a b : LogImage) : option nat :=
  match n with
  | O => None
  | S n => if decide (a !! i = b !! i) then firstDiff n (S i) a b else Some i
  end.

Definition appendOnlyViolation (node : N) (term : Term) (log : LogImage)
    (s : LeaderAppendOnlyChecker) : list (list byte) :=
  match om_find node (baseline_ s) with
  | Some base =>
      if bl_term base =? term then
        if (length log <? length (bl_log base))%nat
        then [shrankText node term (length (bl_log base)) (length log)]
        else match firstDiff (length (bl_log base)) 0 log (bl_log base) with
             | Some i => [changedText node term i]
             | None => []
             end
      else []
  | None => []
  end.

Definition observe (node : N) (isLeader : bool) (term : Term) (log : LogImage)
    (s : LeaderAppendOnlyChecker) : LeaderAppendOnlyChecker :=
  if negb isLeader then mkAppendOnly (om_erase node (baseline_ s)) (ao_violations s)
  else mkAppendOnly (om_insert node (mkBaseline term log) (baseline_ s))
         (ao_violations s ++ appendOnlyViolation node term log s).

(** ** Log Matching *)

Definition logMatchingText (a b : N) (at_ i : nat) : list byte :=
  format (str "LOG MATCHING: nodes " ++ to_string a ++ str " and " ++ to_string b ++
    str " agree on term at index " ++ zu at_ ++ str " but diverge at index " ++ zu i).

(** [for (i = top; i >= 1; --i)]: the highest index where the terms agree. *)
Fixpoint matchIndex (i : nat) (la lb : LogImage) : nat :=
  match i with
  | O => O
  | S j => if decide (im_term <$> la !! j = im_term <$> lb !! j) then i else matchIndex j la lb
  end.

Definition pairViolation (a b : N * LogImage) : list (list byte) :=
  let top := min (length a.2) (length b.2) in
  let m := matchIndex top a.2 b.2 in
  match firstDiff m 0 a.2 b.2 with
  | Some i => [logMatchingText a.1 b.1 m (i + 1)]
  | None => []
  end.

Fixpoint checkLogMatching (logs : list (N * LogImage)) : list (list byte) :=
  match logs with
  | [] => []
  | a :: rest => (rest ≫= pairViolation a) ++ checkLogMatching rest
  end.

(** ** State Machine Safety *)

Record Applied := mkApplied {
  ap_entry : EntryImage;
  ap_resultFp : N;
  ap_firstNode : N;
}.

Record AppliedConsistencyChecker := mkAppliedConsistency {
  record_ : @ordmap N Applied;
  ac_violations : list (list byte);
}.

Definition differentCommandText (node index first : N) : list byte :=
  format (str "STATE MACHINE SAFETY: node " ++ to_string node ++
    str " applied a different command at index " ++ to_string index ++ str " than node " ++
    to_string first ++ str " did").

Definition differentResultText (node index first : N) : list byte :=
  format (str "APPLY DETERMINISM: node " ++ to_string node ++
    str " got a different result applying index " ++ to_string index ++ str " than node " ++
    to_string first ++ str " did").

Definition observeApply (node : N) (index : LogIndex) (entry : EntryImage) (resultFp : N)
    (s : AppliedConsistencyChecker) : AppliedConsistencyChecker :=
  match om_find index (record_ s) with
  | None => mkAppliedConsistency (om_insert index (mkApplied entry resultFp node) (record_ s))
              (ac_violations s)
  | Some first =>
      if negb (bool_decide (ap_entry first = entry)) then
        mkAppliedConsistency (record_ s)
          (ac_violations s ++ [differentCommandText node index (ap_firstNode first)])
      else if negb (ap_resultFp first =? resultFp) then
        mkAppliedConsistency (record_ s)
          (ac_violations s ++ [differentResultText node index (ap_firstNode first)])
      else s
  end.

(** ** Committed entries and Leader Completeness *)

Record CommitChecker := mkCommitChecker {
  committed_ : LogImage;
  cc_violations : list (list byte);
}.

Definition beyondLogText (node commitIndex : N) (size : nat) : list byte :=
  format (str "COMMIT: node " ++ to_string node ++ str " reports commitIndex " ++
    to_string commitIndex ++ str " beyond its log (" ++ zu size ++ str ")").

Definition lostCommitText (node : N) (i : nat) (ct nt : Term) : list byte :=
  format (str "NO LOST COMMIT: node " ++ to_string node ++
    str " holds a different entry at committed index " ++ zu (i + 1) ++
    str " (committed term " ++ to_string ct ++ str ", node has " ++ to_string nt ++ str ")").

Definition termAtImage (log : LogImage) (i : nat) : Term :=
  match log !! i with Some e => im_term e | None => 0 end.

Definition observeCommit (node : N) (commitIndex : LogIndex) (log : LogImage)
    (s : CommitChecker) : CommitChecker :=
  if N.of_nat (length log) <? commitIndex then
    mkCommitChecker (committed_ s)
      (cc_violations s ++ [beyondLogText node commitIndex (length log)])
  else
    let ci := N.to_nat commitIndex in
    let committed := committed_ s ++ drop (length (committed_ s)) (take ci log) in
    mkCommitChecker committed
      (cc_violations s ++
       match firstDiff ci 0 log committed with
       | Some i => [lostCommitText node i (termAtImage committed i) (termAtImage log i)]
       | None => []
       end).

Definition winText (node term : N) : list byte :=
  str "LEADER COMPLETENESS: node " ++ to_string node ++ str " won term " ++ to_string term ++
  str " ".

Definition observeElectionWin (node : N) (term : Term) (log : LogImage)
    (s : CommitChecker) : CommitChecker :=
  let flag text := mkCommitChecker (committed_ s) (cc_violations s ++ [format (winText node term ++ text)]) in
  if (length log <? length (committed_ s))%nat then
    flag (str "with only " ++ zu (length log) ++ str " entries but " ++
          zu (length (committed_ s)) ++ str " are committed")
  else match firstDiff (length (committed_ s)) 0 log (committed_ s) with
       | Some i => flag (str "missing the committed entry at index " ++ zu (i + 1))
       | None => s
       end.

(** ** Reading the images *)

Lemma firstDiff_None n i a b :
  firstDiff n i a b = None ↔ ∀ j, (i ≤ j < i + n)%nat → a !! j = b !! j.
Proof.
  revert i. induction n as [|n IH]; intros i; cbn [firstDiff]; [split; [intros; lia|done]|].
  destruct (decide (a !! i = b !! i)) as [Heq|Hne].
  - rewrite IH. split; intros H j Hj; [|apply H; lia].
    destruct (decide (j = i)) as [->|]; [done|apply H; lia].
  - split; [done|]. intros H. destruct Hne. apply H. lia.
Qed.

Lemma firstDiff_take n a b : firstDiff n 0 a b = None ↔ take n a = take n b.
Proof.
  rewrite firstDiff_None. split.
  - intros H. apply list_eq. intros j. destruct (decide (j < n)%nat).
    + rewrite !lookup_take_lt by done. apply H. lia.
    + rewrite !lookup_take_ge by lia. done.
  - intros H j Hj. by rewrite <-(lookup_take_lt a n), <-(lookup_take_lt b n), H by lia.
Qed.

Lemma take_prefix {A} (a b : list A) :
  (length a ≤ length b)%nat → take (length a) b = take (length a) a ↔ a `prefix_of` b.
Proof.
  intros Hl. rewrite (firstn_all a). split.
  - intros E. exists (drop (length a) b). by rewrite <-E at 1; rewrite take_drop.
  - intros [k ->]. by rewrite take_app_length.
Qed.

Section LogImage.
Context {L : Type} `{!RaftLog L} `{!RaftLogLaws L}.

Lemma entries_upto (log : L) k : (k ≤ length (log_entries log))%nat →
  omap (λ i, log_entryAt log (N.of_nat i)) (seq 1 k) = take k (log_entries log).
Proof.
  set (l := log_entries log). induction k as [|k IH]; intros Hk; [done|].
  destruct (lookup_lt_is_Some_2 l k) as [e He]; [lia|].
  rewrite seq_S, omap_app, IH, (take_S_r _ _ _ He) by lia. f_equal.
  assert (log_entryAt log (N.of_nat (1 + k)) = Some e) as Hk1; [|by cbn [omap list_omap]; rewrite Hk1].
  rewrite entryAt_law. fold l. unfold InMemoryLog_entryAt, InMemoryLog_lastIndex.
  rewrite (proj2 (N.leb_le 1 _)), (proj2 (N.leb_le _ (N.of_nat (length l)))) by lia.
  cbn [andb]. by replace (N.to_nat (N.of_nat (1 + k) - 1)) with k by lia.
Qed.

Lemma logImage_entries (log : L) : logImage log = entryImage <$> log_entries log.
Proof.
  unfold logImage. rewrite lastIndex_law. unfold InMemoryLog_lastIndex. rewrite Nat2N.id.
  rewrite <-(firstn_all (log_entries log)) at 2. rewrite <-entries_upto by done.
  generalize (seq 1 (length (log_entries log))). induction l as [|i l IH]; [done|]. cbn.
  destruct (log_entryAt _ _); cbn; by rewrite IH.
Qed.

End LogImage.

Lemma orBytes_le_value bs : orBytes bs = le_value bs.
Proof.
  unfold orBytes. induction bs as [|b bs IH] using rev_ind; [done|].
  rewrite imap_app, foldl_app, IH. cbn. rewrite Nat.add_0_r.
  clear IH. induction bs as [|x bs IH]; [by cbn; rewrite N.shiftl_0_r|].
  cbn [app length]. unfold le_value in *. cbn [foldr]. rewrite <-IH. clear IH.
  rewrite !N.shiftl_lor, N.shiftl_shiftl. replace (8 * N.of_nat (length bs) + 8) with (8 * N.of_nat (S (length bs))) by lia.
  by rewrite <-!N.lor_assoc, (N.lor_comm (N.shiftl (Byte.to_N b) _)).
Qed.

(** The harness and the client service read the same identity off a command. *)
Lemma commandIdentity_decodePrefix command : commandIdentity command = decodePrefix command.
Proof.
  unfold commandIdentity, decodePrefix, kSessionPrefixSize. rewrite !orBytes_le_value.
  destruct (Nat.ltb_spec (length command) 16) as [|Hl]; [done|].
  assert (∀ k, (k + 8 ≤ length command)%nat → Reader_u64 (mkReader command k true) =
    (le_value (take 8 (drop k command)), mkReader command (k + 8) true)) as Hu.
  { intros k Hk. unfold Reader_u64, mbind, Rd_bind, mret, Rd_ret, Reader_take, Reader_remaining.
    cbn [r_ok r_pos r_in negb orb]. by rewrite (proj2 (Nat.ltb_ge _ _)) by lia. }
  unfold Reader_init. rewrite !Hu by lia. done.
Qed.

(** ** Log Matching *)

(** Log Matching of two images: agreeing on the term of an index, they agree up
    to it. *)
Definition images_match (la lb : LogImage) : Prop :=
  ∀ i, (i < length la)%nat → (i < length lb)%nat →
    im_term <$> la !! i = im_term <$> lb !! i → take (S i) la = take (S i) lb.

Lemma matchIndex_spec top la lb :
  (matchIndex top la lb ≤ top)%nat ∧
  (∀ i, matchIndex top la lb = S i → im_term <$> la !! i = im_term <$> lb !! i) ∧
  (∀ i, (i < top)%nat → im_term <$> la !! i = im_term <$> lb !! i → (i < matchIndex top la lb)%nat).
Proof.
  induction top as [|k (IH1&IH2&IH3)]; cbn [matchIndex]; [split_and!; [done|done|intros; lia]|].
  destruct (decide _) as [Heq|Hne].
  - split_and!; [done|by intros i [= <-]|intros; lia].
  - split_and!; [lia|done|]. intros i Hi Heq. destruct (decide (i = k)) as [->|]; [done|].
    apply IH3; [lia|done].
Qed.

Lemma pairViolation_nil a b : pairViolation a b = [] ↔ images_match a.2 b.2.
Proof.
  unfold pairViolation, images_match. set (top := min _ _).
  destruct (matchIndex_spec top a.2 b.2) as (Hle & Hat & Hhi).
  assert (firstDiff (matchIndex top a.2 b.2) 0 a.2 b.2 = None ↔
    take (matchIndex top a.2 b.2) a.2 = take (matchIndex top a.2 b.2) b.2) as Hd
    by apply firstDiff_take.
  destruct (firstDiff _ 0 _ _) eqn:E.
  - split; [done|]. intros H. exfalso. assert (Some n = None); [|done]. apply Hd.
    destruct (matchIndex top a.2 b.2) as [|i] eqn:Em; [done|].
    apply H; [lia|lia|]. by apply Hat.
  - split; [|done]. intros _ i Ha Hb Ht. apply proj1 in Hd. specialize (Hd eq_refl).
    assert (i < matchIndex top a.2 b.2)%nat as Hi by (apply Hhi; [lia|done]).
    apply (f_equal (take (S i))) in Hd. by rewrite !take_take, Nat.min_l in Hd by lia.
Qed.

Lemma checkLogMatching_silent logs :
  (∀ a b, a ∈ logs → b ∈ logs → images_match a.2 b.2) → checkLogMatching logs = [].
Proof.
  induction logs as [|x logs IH]; intros H; cbn [checkLogMatching]; [done|].
  rewrite IH by (intros; apply H; by right). rewrite app_nil_r.
  assert (∀ l, l ⊆ logs → l ≫= pairViolation x = []) as Hl; [|by apply Hl].
  induction l as [|b l IHl]; intros Hsub; [done|]. cbn.
  rewrite (proj2 (pairViolation_nil x b)); [apply IHl; intros ? ?; apply Hsub; by right|].
  apply H; [by left|right; apply Hsub; by left].
Qed.

(** The Log Matching sweep is exact.  It reports nothing if and only if any
    two of the logs it is given that hold the same term at an index hold the
    same entries (as fingerprints) up to that index. *)
Theorem checkLogMatching_exact (logs : list (N * LogImage)) :
  checkLogMatching logs = [] ↔
  ∀ i j a b, (i < j)%nat → logs !! i = Some a → logs !! j = Some b → images_match a.2 b.2.
Proof.
  induction logs as [|x logs IH]; cbn [checkLogMatching]; [done|].
  rewrite app_nil, IH. split.
  - intros [Hx H] [|i] [|j] a b Hij Ha Hb; try lia; cbn in *.
    + injection Ha as <-. apply pairViolation_nil.
      apply list_elem_of_lookup_2 in Hb. destruct (pairViolation x b) as [|v vs] eqn:E; [done|].
      exfalso. assert (v ∈ logs ≫= pairViolation x) as Hv; [|by rewrite Hx in Hv; apply elem_of_nil in Hv].
      apply list_elem_of_bind. exists b. rewrite E. split; [apply list_elem_of_here|done].
    + apply (H i j); [lia|done|done].
  - intros H. split; [|intros i j a b ? ? ?; apply (H (S i) (S j)); [lia|done|done]].
    destruct (logs ≫= pairViolation x) as [|v vs] eqn:E; [done|]. exfalso.
    assert (v ∈ logs ≫= pairViolation x) as Hv by (rewrite E; apply list_elem_of_here).
    apply list_elem_of_bind in Hv as (b & Hv & [j Hj]%list_elem_of_lookup).
    rewrite (proj2 (pairViolation_nil x b)) in Hv; [by apply elem_of_nil in Hv|].
    apply (H 0%nat (S j)); [lia|done|done].
Qed.

(** ** Election Safety *)

Definition noLeaders : ElectionSafetyChecker := mkElectionSafety [] [].

Definition winners (t : N) (s : ElectionSafetyChecker) : nodeset :=
  default [] (om_find t (leadersByTerm_ s)).

(** What the checker has recorded of the wins it saw. *)
Record leaders_ok (wins : list (N * N)) (s : ElectionSafetyChecker) : Prop := {
  ld_sorted t : om_ok (winners t s);
  ld_winners t n : is_Some (om_find n (winners t s)) ↔ (t, n) ∈ wins;
}.

Lemma winners_observe t n s t' : winners t' (observeLeader t n s) =
  if decide (t' = t) then om_insert n tt (winners t s) else winners t' s.
Proof.
  unfold winners, observeLeader. cbn. destruct (decide (t' = t)) as [->|Hne].
  - by rewrite om_find_insert_eq.
  - by rewrite om_find_insert_ne.
Qed.

Lemma observeLeader_ok wins t n s :
  leaders_ok wins s → leaders_ok (wins ++ [(t, n)]) (observeLeader t n s).
Proof.
  intros [Hs Hw]. split; intros t'; rewrite winners_observe; destruct (decide (t' = t)) as [->|Hne].
  - by apply om_insert_ok.
  - done.
  - intros m. rewrite elem_of_app, list_elem_of_singleton, <-Hw.
    destruct (decide (m = n)) as [->|Hm].
    + rewrite om_find_insert_eq. split; [by right|done].
    + rewrite om_find_insert_ne by done. split; [by left|]. intros [?|[=]]; done.
  - intros m. rewrite elem_of_app, list_elem_of_singleton, <-Hw.
    split; [by left|]. intros [?|[=]]; done.
Qed.

(** A win is flagged when another node won that term before. *)
Lemma observeLeader_silent wins t n s : leaders_ok wins s →
  es_violations (observeLeader t n s) = es_violations s ↔ (∀ m, (t, m) ∈ wins → (t, n) ∈ wins).
Proof.
  intros [Hs Hw]. unfold observeLeader. fold (winners t s). cbn [es_violations].
  destruct (winners t s) as [|[m []] ws] eqn:E.
  - split; [|done]. intros _ m Hm. apply Hw in Hm as [? Hm]. by rewrite E in Hm.
  - rewrite <-E. destruct (om_find n (winners t s)) eqn:En.
    + split; [|done]. intros _ ? _. apply Hw. by rewrite En.
    + split; intros H.
      * apply (f_equal length) in H. rewrite length_app in H. cbn in H. lia.
      * exfalso. destruct (proj2 (Hw t n)) as [x Hx]; [|by rewrite En in Hx].
        apply (H m), Hw. exists (). apply om_find_elem; [done|]. rewrite E. apply list_elem_of_here.
Qed.

(** The Election Safety monitor is exact.  After any sequence of observed
    election wins it has reported nothing if and only if no term was won by two
    different nodes. *)
Theorem election_monitor_exact (wins : list (N * N)) :
  es_violations (foldl (λ s w, observeLeader w.1 w.2 s) noLeaders wins) = [] ↔
  ∀ t n m, (t, n) ∈ wins → (t, m) ∈ wins → n = m.
Proof.
  enough (leaders_ok wins (foldl (λ s w, observeLeader w.1 w.2 s) noLeaders wins) ∧
    (es_violations (foldl (λ s w, observeLeader w.1 w.2 s) noLeaders wins) = [] ↔
     ∀ t n m, (t, n) ∈ wins → (t, m) ∈ wins → n = m)) as [_ ?]; [done|].
  induction wins as [|[t n] wins [IHk IHv]] using rev_ind.
  { split; [split|split]; [constructor| |by intros _ ??? ?%elem_of_nil|done].
    intros t n. cbn. split; [by intros []|by intros ?%elem_of_nil]. }
  rewrite foldl_app. cbn [foldl fst snd]. set (s := foldl _ _ wins) in *.
  split; [by apply observeLeader_ok|].
  pose proof (observeLeader_silent wins t n s IHk) as Hsil.
  assert (es_violations (observeLeader t n s) = [] ↔ es_violations s = [] ∧
    es_violations (observeLeader t n s) = es_violations s) as ->.
  { unfold observeLeader. cbn [es_violations]. destruct (default [] _) as [|[? ?] ?]; [tauto|].
    destruct (om_find n _); [tauto|]. rewrite app_nil. split; [by intros [_ [=]]|].
    intros [-> [=]]. }
  rewrite Hsil, IHv. split.
  - intros [Hu Hn] t' a b [Ha|Ha%list_elem_of_singleton]%elem_of_app
      [Hb|Hb%list_elem_of_singleton]%elem_of_app; simplify_eq; [by eapply Hu| | |done].
    + eapply Hu; [done|by eapply Hn].
    + eapply Hu; [by eapply Hn|done].
  - intros Hu. split; [intros t' a b ? ?; apply (Hu t'); set_solver|].
    intros m Hm. rewrite (Hu t n m) by set_solver. done.
Qed.

(** ** The other monitors, one observation at a time *)

Lemma observe_silent node term log s :
  ao_violations (observe node true term log s) = ao_violations s ↔
  ∀ base, om_find node (baseline_ s) = Some base → bl_term base = term →
    bl_log base `prefix_of` log.
Proof.
  cbn. unfold appendOnlyViolation. destruct (om_find node (baseline_ s)) as [base|].
  2: { rewrite app_nil_r. split; [|done]. by intros _ ? [=]. }
  destruct (N.eqb_spec (bl_term base) term) as [Ht|Ht].
  2: { rewrite app_nil_r. split; [|done]. by intros _ ? [= ->]. }
  destruct (Nat.ltb_spec (length log) (length (bl_log base))) as [Hl|Hl].
  { split; intros H; exfalso.
    - apply (f_equal length) in H. rewrite length_app in H. cbn in H. lia.
    - specialize (H base eq_refl Ht) as Hp%prefix_length. lia. }
  pose proof (firstDiff_take (length (bl_log base)) log (bl_log base)) as Hd.
  rewrite take_prefix in Hd by done. destruct (firstDiff _ _ _ _).
  - split; intros H; exfalso.
    + apply (f_equal length) in H. rewrite length_app in H. cbn in H. lia.
    + assert (Some n = None); [|done]. by apply Hd, H.
  - rewrite app_nil_r. split; [|done]. intros _ ? [= <-] _. by apply Hd.
Qed.

Lemma observeApply_silent node index entry fp s :
  ac_violations (observeApply node index entry fp s) = ac_violations s ↔
  ∀ first, om_find index (record_ s) = Some first →
    ap_entry first = entry ∧ ap_resultFp first = fp.
Proof.
  assert (∀ (l : list (list byte)) x, l ++ [x] ≠ l) as Hne.
  { intros l x H%(f_equal length). rewrite length_app in H. cbn in H. lia. }
  unfold observeApply. destruct (om_find index (record_ s)) as [first|].
  2: { split; [|done]. by intros _ ? [=]. }
  destruct (bool_decide_reflect (ap_entry first = entry)) as [He|He]; cbn [negb].
  2: { split; intros H; [by apply Hne in H|]. by destruct (H first eq_refl). }
  destruct (N.eqb_spec (ap_resultFp first) fp) as [Hf|Hf]; cbn [negb].
  - split; [|done]. by intros _ ? [= <-].
  - split; intros H; [by apply Hne in H|]. by destruct (H first eq_refl).
Qed.

Lemma observeCommit_silent node ci log s :
  cc_violations (observeCommit node ci log s) = cc_violations s ↔
  (ci ≤ N.of_nat (length log))%N ∧
  take (N.to_nat ci) log = take (N.to_nat ci) (committed_ (observeCommit node ci log s)).
Proof.
  assert (∀ (l : list (list byte)) x, l ++ [x] ≠ l) as Hne.
  { intros l x H%(f_equal length). rewrite length_app in H. cbn in H. lia. }
  unfold observeCommit. destruct (N.ltb_spec (N.of_nat (length log)) ci) as [Hl|Hl]; cbn.
  { split; [by intros ?%Hne|]. intros [? _]. lia. }
  rewrite <-firstDiff_take. destruct (firstDiff _ _ _ _).
  - split; [by intros ?%Hne|]. by intros [_ ?].
  - rewrite app_nil_r. done.
Qed.

Lemma observeElectionWin_committed node term log s :
  committed_ (observeElectionWin node term log s) = committed_ s.
Proof. unfold observeElectionWin. destruct (_ <? _)%nat; [done|]. by destruct (firstDiff _ _ _ _). Qed.

(** A win is flagged when the winner's log does not start with the record. *)
Lemma observeElectionWin_spec node term log s :
  (committed_ s `prefix_of` log ∧ observeElectionWin node term log s = s) ∨
  (¬ committed_ s `prefix_of` log ∧ ∃ text, cc_violations (observeElectionWin node term log s) =
    cc_violations s ++ [format (winText node term ++ text)]).
Proof.
  unfold observeElectionWin. destruct (Nat.ltb_spec (length log) (length (committed_ s))) as [Hl|Hl].
  { right. split; [intros Hp%prefix_length; lia|]. by eexists. }
  pose proof (firstDiff_take (length (committed_ s)) log (committed_ s)) as Hd.
  rewrite take_prefix in Hd by done. destruct (firstDiff _ _ _ _).
  - right. split; [|by eexists]. intros Hp. by apply Hd in Hp.
  - left. split; [|done]. by apply Hd.
Qed.
