(* ===== verification/SimNetwork.v ===== *)
(** * src/faults/sim_network.h, src/faults/sim_network.cpp: the simulated network

    The message bus of the simulation: loss, latency, reordering and partitions
    as a function of the generator's words and of the calls.  The generator
    (std::mt19937_64) is a type class; probabilities are IEEE doubles, computed
    with the Standard Library's SpecFloat at binary64.  The [onSend] tap of the
    tests is not part of the model. *)

From Stdlib Require Import NArith ZArith Strings.Byte Lia Sorting.Sorted.
From Stdlib Require Import Floats.SpecFloat.
From S2P Require Import Prelude Messages RaftCore OrdMap.

Local Open Scope N_scope.

(** [rng_()]: the next 64-bit word and the generator after it. *)
Class Engine (G : Type) := next_word : G → N * G.

(** ** double *)

Abbreviation double := spec_float (only parsing).

Definition binary64_prec : Z := 53.
Definition binary64_emax : Z := 1024.

(** [static_cast<double>(v)] rounds to nearest, ties to even. *)
Definition to_double (v : N) : double :=
  binary_normalize binary64_prec binary64_emax (Z.of_N v) 0 false.

Definition dmul (a b : double) : double := SFmul binary64_prec binary64_emax a b.

Definition dzero : double := S754_zero false.
Definition done_ : double := to_double 1.

Definition chance (draw : N) (p : double) : bool :=
  if SFleb p dzero then false
  else if SFleb done_ p then true
  else SFltb (to_double draw) (dmul p (to_double two64)).

(** ** State *)

#[export] Instance pair_KeyOrder : KeyOrder (N * N) := λ a b,
  if a.1 <? b.1 then true else if b.1 <? a.1 then false else a.2 <? b.2.

Lemma pair_ltb a b : key_ltb a b = true ↔ a.1 < b.1 ∨ a.1 = b.1 ∧ a.2 < b.2.
Proof.
  unfold key_ltb, pair_KeyOrder. destruct (N.ltb_spec a.1 b.1); [split; [by left|done]|].
  destruct (N.ltb_spec b.1 a.1); [split; [done|lia]|]. rewrite N.ltb_lt. lia.
Qed.

#[export] Instance pair_KeyOrderLaws : KeyOrderLaws (N * N).
Proof.
  split.
  - intros a. apply not_true_iff_false. rewrite pair_ltb. lia.
  - intros a b c. rewrite !pair_ltb. lia.
  - intros [a1 a2] [b1 b2]. rewrite <-!not_true_iff_false, !pair_ltb. cbn. intros. f_equal; lia.
Qed.

Record Wire := mkWire {
  w_from : NodeId;
  w_to : NodeId;
  w_msg : Message;
}.

Record SimNetwork {G : Type} := mkNet {
  net_rng : G;
  cluster_ : list NodeId;
  groupOf_ : @ordmap N N;                    (* empty: fully connected *)
  dropProb_ : double;
  latencyMin_ : Duration;
  latencyMax_ : Duration;
  reorderProb_ : double;
  reorderExtraMax_ : Duration;
  queue_ : @ordmap (N * N) Wire;             (* by (deliverAt, enqueueSeq) *)
  nextSeq_ : N;
}.
#[global] Arguments SimNetwork : clear implicits.
#[global] Arguments mkNet {G}.

Section SimNetwork.
Context {G : Type} `{!Engine G}.

Local Abbreviation Net := (SimNetwork G).

Definition SimNetwork_new (rng : G) (clusterNodes : list NodeId) : Net :=
  mkNet rng clusterNodes [] dzero 1 1 dzero 0 [] 0.

Definition set_groupOf (g : @ordmap N N) (n : Net) : Net :=
  mkNet (net_rng n) (cluster_ n) g (dropProb_ n) (latencyMin_ n) (latencyMax_ n)
    (reorderProb_ n) (reorderExtraMax_ n) (queue_ n) (nextSeq_ n).

Definition set_queue (q : @ordmap (N * N) Wire) (n : Net) : Net :=
  mkNet (net_rng n) (cluster_ n) (groupOf_ n) (dropProb_ n) (latencyMin_ n) (latencyMax_ n)
    (reorderProb_ n) (reorderExtraMax_ n) q (nextSeq_ n).

(** ** Faults *)

Definition setDrop (probability : double) (n : Net) : Net :=
  mkNet (net_rng n) (cluster_ n) (groupOf_ n) probability (latencyMin_ n) (latencyMax_ n)
    (reorderProb_ n) (reorderExtraMax_ n) (queue_ n) (nextSeq_ n).

Definition setLatency (min max : Duration) (n : Net) : Net :=
  mkNet (net_rng n) (cluster_ n) (groupOf_ n) (dropProb_ n) min (N.max min max)
    (reorderProb_ n) (reorderExtraMax_ n) (queue_ n) (nextSeq_ n).

Definition setReorder (probability : double) (extraMax : Duration) (n : Net) : Net :=
  mkNet (net_rng n) (cluster_ n) (groupOf_ n) (dropProb_ n) (latencyMin_ n) (latencyMax_ n)
    probability extraMax (queue_ n) (nextSeq_ n).

(** The loop over the groups, [g] counting from 1. *)
Fixpoint numberGroups (g : N) (groups : list (list NodeId)) (m : @ordmap N N) : @ordmap N N :=
  match groups with
  | [] => m
  | group :: groups => numberGroups (g + 1) groups (foldl (λ m id, om_insert id g m) m group)
  end.

Definition partition (groups : list (list NodeId)) (n : Net) : Net :=
  let m := numberGroups 1 groups [] in
  set_groupOf (match m with [] => om_insert 0 0 m | _ :: _ => m end) n.

Definition isolate (id : NodeId) (n : Net) : Net :=
  let rest := filter (λ x, x ≠ id) (cluster_ n) in
  partition [[id]; rest] n.

Definition heal (n : Net) : Net := set_groupOf [] n.

Definition partitioned (n : Net) : bool :=
  match groupOf_ n with [] => false | _ :: _ => true end.

Definition isClusterNode (id : NodeId) (n : Net) : bool := bool_decide (id ∈ cluster_ n).

Definition sameSide (a b : NodeId) (n : Net) : bool :=
  match groupOf_ n with
  | [] => true
  | _ :: _ =>
      if negb (isClusterNode a n) || negb (isClusterNode b n) then true
      else match om_find a (groupOf_ n), om_find b (groupOf_ n) with
           | Some ga, Some gb => ga =? gb
           | _, _ => false
           end
  end.

(** ** The bus *)

(** [std::map::emplace]: an existing key keeps its value. *)
Definition om_emplace (k : N * N) (w : Wire) (q : @ordmap (N * N) Wire) : @ordmap (N * N) Wire :=
  match om_find k q with Some _ => q | None => om_insert k w q end.

Definition send (from to : NodeId) (m : Message) (now : TimePoint) (n : Net) : Net :=
  let '(dropDraw, rng) := next_word (net_rng n) in
  let '(latencyDraw, rng) := next_word rng in
  let '(reorderDraw, rng) := next_word rng in
  let '(reorderExtraDraw, rng) := next_word rng in
  let n := mkNet rng (cluster_ n) (groupOf_ n) (dropProb_ n) (latencyMin_ n) (latencyMax_ n)
             (reorderProb_ n) (reorderExtraMax_ n) (queue_ n) (nextSeq_ n) in
  let cut := negb (sameSide from to n) in
  let dropped := cut || chance dropDraw (dropProb_ n) in
  let delay := latencyMin_ n in
  let window := latencyMax_ n - latencyMin_ n in
  let delay := delay + latencyDraw mod (window + 1) in
  let delay := if chance reorderDraw (reorderProb_ n) && (0 <? reorderExtraMax_ n)
               then delay + reorderExtraDraw mod (reorderExtraMax_ n + 1) else delay in
  if dropped then n
  else mkNet rng (cluster_ n) (groupOf_ n) (dropProb_ n) (latencyMin_ n) (latencyMax_ n)
         (reorderProb_ n) (reorderExtraMax_ n)
         (om_emplace (after now delay, nextSeq_ n) (mkWire from to m) (queue_ n))
         (add64 (nextSeq_ n) 1).

Definition inFlight (n : Net) : nat := length (queue_ n).

End SimNetwork.

(** [deliverDue]: the handler may change the network it is called from, so the
    loop runs on the state of the caller.  [fuel] bounds the evaluations of the
    loop condition; [None] is a loop that has not ended within it. *)
Section DeliverDue.
Context {G ST : Type} `{!Engine G}.
Context (net : ST → SimNetwork G) (set_net : SimNetwork G → ST → ST).
Context (deliver : NodeId → NodeId → Message → ST → ST).

Definition deliverFront (w : Wire) (rest : @ordmap (N * N) Wire) (st : ST) : ST :=
  let st := set_net (set_queue rest (net st)) st in
  if negb (sameSide (w_from w) (w_to w) (net st)) then st
  else deliver (w_from w) (w_to w) (w_msg w) st.

Fixpoint deliverDue (fuel : nat) (now : TimePoint) (st : ST) : option ST :=
  match fuel with
  | O => None
  | S fuel =>
      match queue_ (net st) with
      | [] => Some st
      | (k, w) :: rest =>
          if k.1 <=? now then deliverDue fuel now (deliverFront w rest st) else Some st
      end
  end.

End DeliverDue.

(** ** Sending *)

Section Send.
Context {G : Type} `{!Engine G}.

Local Abbreviation Net := (SimNetwork G).

Fixpoint skip_words (k : nat) (g : G) : G :=
  match k with O => g | S k => skip_words k (next_word g).2 end.

(** The same faults, partition and members. *)
Definition same_settings (n n' : Net) : Prop :=
  cluster_ n' = cluster_ n ∧ groupOf_ n' = groupOf_ n ∧ dropProb_ n' = dropProb_ n ∧
  latencyMin_ n' = latencyMin_ n ∧ latencyMax_ n' = latencyMax_ n ∧
  reorderProb_ n' = reorderProb_ n ∧ reorderExtraMax_ n' = reorderExtraMax_ n.

(** Every send draws exactly four words, whatever the fault settings and
    whatever becomes of the message, and leaves the settings alone; so toggling
    faults never shifts the random stream of later sends. *)
Theorem send_draws_four from to m now (n : Net) :
  net_rng (send from to m now n) = skip_words 4 (net_rng n) ∧
  same_settings n (send from to m now n).
Proof.
  unfold send, same_settings. cbn [skip_words].
  destruct (next_word (net_rng n)) as [d1 g1]. cbn [snd].
  destruct (next_word g1) as [d2 g2]. cbn [snd]. destruct (next_word g2) as [d3 g3]. cbn [snd].
  destruct (next_word g3) as [d4 g4]. cbn [snd]. destruct (_ || _); done.
Qed.

Lemma send_settings from to m now (n : Net) : same_settings n (send from to m now n).
Proof.
  unfold send, same_settings.
  destruct (next_word (net_rng n)) as [d1 g1], (next_word g1) as [d2 g2], (next_word g2) as [d3 g3],
    (next_word g3) as [d4 g4]. destruct (_ || _); done.
Qed.

(** What a send may do to the queue. *)
Lemma send_queue from to m now (n : Net) :
  queue_ (send from to m now n) = queue_ n ∨
  (sameSide from to n = true ∧ ∃ delay,
    latencyMin_ n ≤ delay ≤ N.max (latencyMin_ n) (latencyMax_ n) + reorderExtraMax_ n ∧
    queue_ (send from to m now n) =
      om_emplace (after now delay, nextSeq_ n) (mkWire from to m) (queue_ n)).
Proof.
  unfold send.
  destruct (next_word (net_rng n)) as [d1 g1], (next_word g1) as [d2 g2], (next_word g2) as [d3 g3],
    (next_word g3) as [d4 g4]. cbn [latencyMin_ latencyMax_ reorderProb_ reorderExtraMax_].
  match goal with |- context [sameSide from to ?x] =>
    change (sameSide from to x) with (sameSide from to n) end.
  destruct (sameSide from to n); cbn [negb orb]; [|by left].
  destruct (chance d1 _); [by left|right]. split; [done|].
  eexists; split; [|reflexivity].
  pose proof (N.mod_upper_bound d2 (latencyMax_ n - latencyMin_ n + 1) ltac:(lia)).
  pose proof (N.mod_upper_bound d4 (reorderExtraMax_ n + 1) ltac:(lia)). 
  generalize dependent (d2 mod (latencyMax_ n - latencyMin_ n + 1)).
  generalize dependent (d4 mod (reorderExtraMax_ n + 1)). intros. split_if; lia.
Qed.

Lemma om_emplace_ok k w q : om_ok q → om_ok (om_emplace k w q).
Proof. unfold om_emplace. destruct (om_find k q); [done|]. apply om_insert_ok. Qed.

Lemma send_queue_ok from to m now (n : Net) : om_ok (queue_ n) → om_ok (queue_ (send from to m now n)).
Proof.
  intros H. destruct (send_queue from to m now n) as [->|(_ & d & _ & ->)]; [done|].
  by apply om_emplace_ok.
Qed.

(** Nothing is queued but what was sent. *)
Lemma send_elem from to m now (n : Net) p : p ∈ queue_ (send from to m now n) →
  p ∈ queue_ n ∨ p.2 = mkWire from to m ∧ after now (latencyMin_ n) ≤ p.1.1.
Proof.
  destruct (send_queue from to m now n) as [->|(_ & d & Hd & ->)]; [by left|].
  unfold om_emplace. destruct (om_find _ _); [by left|].
  intros [->|?]%om_insert_elem; [right|by left]. split; [done|]. cbn. unfold after. lia.
Qed.

(** ** What is due *)

Definition due (now : TimePoint) (q : list ((N * N) * Wire)) : list ((N * N) * Wire) :=
  filter (λ p, p.1.1 ≤ now) q.

Lemma due_later now k (w : Wire) q : om_ok ((k, w) :: q) → now < k.1 → due now ((k, w) :: q) = [].
Proof.
  intros [Hab Hq]%om_ok_cons Hk. unfold due. rewrite filter_cons_False by (cbn; lia).
  clear Hq. induction q as [|p q IH]; [done|]. apply Forall_cons in Hab as [Hp Hab].
  apply pair_ltb in Hp. rewrite filter_cons_False by (cbn in *; lia). by apply IH.
Qed.

Lemma due_insert now k (w : Wire) q : now < k.1 → om_find k q = None →
  due now (om_insert k w q) = due now q.
Proof.
  intros Hk. unfold due. induction q as [|[k' w'] q IH]; cbn [om_insert om_find]; intros Hf.
  { by rewrite filter_cons_False by (cbn; lia). }
  destruct (key_ltb k k'); [by rewrite (filter_cons_False _ (k, w)) by (cbn; lia)|].
  destruct (key_ltb k' k); [|done]. rewrite !filter_cons, IH by done. done.
Qed.

Lemma due_send from to m now (n : Net) : 0 < latencyMin_ n →
  due now (queue_ (send from to m now n)) = due now (queue_ n).
Proof.
  intros Hl. destruct (send_queue from to m now n) as [->|(_ & d & Hd & ->)]; [done|].
  unfold om_emplace. destruct (om_find _ _) eqn:E; [done|].
  apply due_insert; [|done]. cbn. unfold after. lia.
Qed.

End Send.

(** ** Draining *)

Section Drain.
Context {G ST : Type} `{!Engine G}.
Context (net : ST → SimNetwork G) (set_net : SimNetwork G → ST → ST).
Context (deliver : NodeId → NodeId → Message → ST → ST).
Context (now : TimePoint) (I : ST → Prop).
Context (net_set : ∀ n st, net (set_net n st) = n).
Context (I_sorted : ∀ st, I st → om_ok (queue_ (net st))).
Context (I_pop : ∀ st p rest, I st → queue_ (net st) = p :: rest →
  I (set_net (set_queue rest (net st)) st)).
(** The handler keeps the state in shape and sends nothing that is due at once. *)
Context (I_deliver : ∀ from to m st, I st → I (deliver from to m st)).
Context (deliver_later : ∀ from to m st, I st →
  due now (queue_ (net (deliver from to m st))) = due now (queue_ (net st))).

Definition deliverNext (st : ST) (p : (N * N) * Wire) : ST :=
  deliverFront net set_net deliver p.2 (tail (queue_ (net st))) st.

Lemma deliverFront_later st k w rest : I st → queue_ (net st) = (k, w) :: rest →
  I (deliverFront net set_net deliver w rest st) ∧
  due now (queue_ (net (deliverFront net set_net deliver w rest st))) = due now rest.
Proof.
  intros Hi Hq. pose proof (I_pop st _ _ Hi Hq) as Hp. unfold deliverFront.
  destruct (negb _).
  - split; [done|]. by rewrite net_set.
  - split; [by apply I_deliver|]. rewrite deliver_later by done. by rewrite net_set.
Qed.

(** Draining ends, and delivers exactly what is due.  If handlers only send
    messages that fall due later, one round per due message is enough; the due
    messages are handled once each, in the order of (delivery time, enqueue
    number), those cut off by a partition being dropped, and none is left. *)
Theorem deliverDue_exact fuel st : I st →
  (length (due now (queue_ (net st))) < fuel)%nat →
  deliverDue net set_net deliver fuel now st =
    Some (foldl deliverNext st (due now (queue_ (net st)))) ∧
  I (foldl deliverNext st (due now (queue_ (net st)))) ∧
  due now (queue_ (net (foldl deliverNext st (due now (queue_ (net st)))))) = [].
Proof.
  revert st. induction fuel as [|fuel IH]; intros st Hi Hf; [lia|]. cbn [deliverDue].
  pose proof (I_sorted st Hi) as Hs. destruct (queue_ (net st)) as [|[k w] rest] eqn:Hq.
  { split_and!; [done..|]. cbn. by rewrite Hq. }
  destruct (N.leb_spec k.1 now) as [Hk|Hk].
  - destruct (deliverFront_later st k w rest Hi Hq) as [Hi' Hd].
    unfold due in Hf |- *. rewrite filter_cons_True in Hf |- * by done. fold (due now rest) in *.
    cbn [foldl]. unfold deliverNext at 2 4 6. rewrite Hq. cbn [tail snd].
    destruct (IH _ Hi') as (E1 & E2 & E3); [rewrite Hd; cbn in Hf; lia|].
    rewrite Hd in E1, E2, E3. done.
  - rewrite (due_later now k w rest) by done. cbn. split_and!; [done..|].
    rewrite Hq. by apply due_later.
Qed.

End Drain.

(** ** Partitions *)

Lemma foldl_insert_find g group (m : @ordmap N N) x :
  om_find x (foldl (λ m id, om_insert id g m) m group) =
  if decide (x ∈ group) then Some g else om_find x m.
Proof.
  revert m. induction group as [|y group IH]; intros m; cbn [foldl].
  { by rewrite decide_False by (by intros ?%elem_of_nil). }
  rewrite IH. destruct (decide (x ∈ group)) as [Hx|Hx].
  { by rewrite decide_True by (by right). }
  destruct (decide (x = y)) as [->|Hne].
  - by rewrite om_find_insert_eq, decide_True by (by left).
  - rewrite om_find_insert_ne, decide_False by set_solver. done.
Qed.

Lemma numberGroups_find g groups m x : NoDup (mjoin groups) →
  (∀ i gr, groups !! i = Some gr → x ∈ gr →
     om_find x (numberGroups g groups m) = Some (g + N.of_nat i)) ∧
  (x ∉ mjoin groups → om_find x (numberGroups g groups m) = om_find x m).
Proof.
  revert g m. induction groups as [|gr groups IH]; intros g m Hnd; [done|].
  cbn [numberGroups mjoin list_join] in *. apply NoDup_app in Hnd as (_ & Hdis & Hnd).
  destruct (IH (g + 1) (foldl (λ m id, om_insert id g m) m gr) Hnd) as [IH1 IH2]. split.
  - intros [|i] gr'; cbn; [intros [= <-] Hx|intros Hi Hx].
    + rewrite IH2 by (by apply Hdis). rewrite foldl_insert_find, decide_True by done. f_equal. lia.
    + rewrite (IH1 i gr') by done. f_equal. lia.
  - intros [Hx1 Hx2]%not_elem_of_app. rewrite IH2 by done.
    by rewrite foldl_insert_find, decide_False.
Qed.

(** A partition separates.  With disjoint groups, and node ids from 1 as the
    harness gives them, traffic between two cluster nodes flows exactly when some
    group holds both; a node in no group is cut off. *)
Theorem partition_separates {G} `{!Engine G} groups a b (n : SimNetwork G) :
  NoDup (mjoin groups) → 0 ∉ cluster_ n → a ∈ cluster_ n → b ∈ cluster_ n →
  sameSide a b (partition groups n) = true ↔ ∃ g, g ∈ groups ∧ a ∈ g ∧ b ∈ g.
Proof.
  intros Hnd H0 Ha Hb.
  assert (∀ x, x ∈ cluster_ n → om_find x (groupOf_ (partition groups n)) =
    om_find x (numberGroups 1 groups [])) as Hfind.
  { intros x Hx. unfold partition. cbn. destruct (numberGroups 1 groups []) as [|p m] eqn:E; [|done].
    cbn [om_insert om_find]. assert (x ≠ 0) as Hx0 by set_solver.
    unfold key_ltb, N_KeyOrder. destruct (N.ltb_spec x 0), (N.ltb_spec 0 x); try done; lia. }
  unfold sameSide. destruct (groupOf_ (partition groups n)) as [|p m] eqn:E.
  { unfold partition in E. cbn in E. by destruct (numberGroups 1 groups []). }
  unfold isClusterNode. cbn [cluster_ partition set_groupOf].
  rewrite !bool_decide_eq_true_2 by done. cbn [negb orb]. rewrite !Hfind by done.
  assert (∀ x, (∃ i gr, groups !! i = Some gr ∧ x ∈ gr ∧
      om_find x (numberGroups 1 groups []) = Some (1 + N.of_nat i)) ∨
    ((x ∉ mjoin groups) ∧ om_find x (numberGroups 1 groups []) = None)) as Hcase.
  { intros x. destruct (numberGroups_find 1 groups [] x Hnd) as [H1 H2].
    destruct (decide (x ∈ mjoin groups)) as [Hx|Hx]; [left|by right; rewrite H2].
    apply list_elem_of_join in Hx as (gr & Hx & [i Hi]%list_elem_of_lookup).
    exists i, gr. split_and!; [done|done|by eapply H1]. }
  assert (∀ x g, g ∈ groups → x ∈ g → x ∈ mjoin groups) as Hjoin
    by (intros x g ? ?; apply list_elem_of_join; by exists g).
  destruct (Hcase a) as [(i & gi & Hi & Hai & ->)|[Hna ->]].
  2: { split; [done|]. intros (g & Hg & Hag & _). destruct Hna. by eapply Hjoin. }
  destruct (Hcase b) as [(j & gj & Hj & Hbj & Ej)|[Hnb ->]].
  2: { split; [done|]. intros (g & Hg & _ & Hbg). destruct Hnb. by eapply Hjoin. }
  rewrite Ej, N.eqb_eq. split.
  - intros ?. assert (i = j) as <- by lia. rewrite Hi in Hj. injection Hj as <-.
    exists gi. split_and!; [by eapply list_elem_of_lookup_2|done|done].
  - intros (g & [k Hk]%list_elem_of_lookup & Hag & Hbg).
    destruct (numberGroups_find 1 groups [] a Hnd) as [Ha1 _].
    destruct (numberGroups_find 1 groups [] b Hnd) as [Hb1 _].
    pose proof (Ha1 i gi Hi Hai). pose proof (Ha1 k g Hk Hag).
    pose proof (Hb1 j gj Hj Hbj). pose proof (Hb1 k g Hk Hbg). congruence.
Qed.

(** ** A network *)
Module NetSample.

(** A generator whose state is the next word. *)
#[local] Instance counting : Engine N := λ g, (g mod two64, g + 1).

Definition net0 : SimNetwork N := SimNetwork_new 0 [1; 2; 3].

Lemma partition_separates_witness :
  sameSide 1 3 (partition [[1; 3]; [2]] net0) = true ∧
  (sameSide 1 2 (partition [[1; 3]; [2]] net0) = true ↔
     ∃ g, g ∈ [[1; 3]; [2]] ∧ 1 ∈ g ∧ 2 ∈ g).
Proof.
  split; [by vm_compute|]. apply (partition_separates [[1; 3]; [2]] 1 2 net0);
    apply (bool_decide_unpack _); by vm_compute.
Defined.

(** Two messages to node 2, the second one overtaking the first; node 2 records
    what it receives. *)
Abbreviation State := (SimNetwork N * list (NodeId * NodeId))%type (only parsing).

Definition record (from to : NodeId) (m : Message) (st : State) : State :=
  (st.1, st.2 ++ [(from, to)]).

Definition m0 : Message := MRequestVoteReply (mkRequestVoteReply 1 true).

Definition loaded : State :=
  (send 3 2 m0 0 (setLatency 1 1 (send 1 2 m0 0 (setLatency 5 5 net0))), []).

Lemma deliverDue_exact_witness :
  snd <$> deliverDue fst (λ n st, (n, st.2)) record 3 (after 0 5) loaded = Some [(3, 2); (1, 2)].
Proof.
  rewrite (proj1 (deliverDue_exact fst (λ n st, (n, st.2)) record (after 0 5)
    (λ st, om_ok (queue_ st.1)) (λ _ _, eq_refl) (λ _ H, H)
    (λ st p rest Hs Hq, proj2 (proj1 (om_ok_cons p rest) (eq_ind _ om_ok Hs _ Hq)))
    (λ _ _ _ _ H, H) (λ _ _ _ _ _, eq_refl) 3 loaded
    ltac:(repeat constructor) ltac:(vm_compute; lia))).
  by vm_compute.
Defined.

End NetSample.
