(* ===== verification/Histogram.v ===== *)
(** * src/metrics/histogram.h, histogram.cpp: the latency histogram

    64-bit counters in log-linear buckets.  [counts_] is an array; indices the
    code computes are shown to be inside it.  A quantile's rank is computed in
    binary64, as in the code. *)

From Stdlib Require Import NArith ZArith Floats.SpecFloat Lia.
From S2P Require Import Prelude Text SimNetwork.

Local Open Scope N_scope.

Definition kSubBits : N := 6.
Definition kSub : N := N.shiftl 1 kSubBits.
Definition kBuckets : N := kSub + (63 - kSubBits) * kSub.

Definition indexOf (v : N) : N :=
  if v <? kSub then v
  else
    let top := N.log2 v in
    let sub := N.land (N.shiftr v (top - kSubBits)) (kSub - 1) in
    let idx := (top - kSubBits + 1) * kSub + sub in
    N.min idx (kBuckets - 1).

Definition upperEdge (index : N) : N :=
  if index <? kSub then index
  else
    let top := index / kSub + kSubBits - 1 in
    let sub := index mod kSub in
    N.shiftl 1 top + N.shiftl (sub + 1) (top - kSubBits) - 1.

Record LatencyHistogram := mkHistogram {
  counts_ : list N;
  total_ : N;
  sum_ : N;
  min_ : N;
  max_ : N;
}.

Definition LatencyHistogram_new : LatencyHistogram :=
  mkHistogram (replicate (N.to_nat kBuckets) 0) 0 0 (two64 - 1) 0.

Definition record (h : LatencyHistogram) (value : N) : LatencyHistogram :=
  mkHistogram (alter (λ n, add64 n 1) (N.to_nat (indexOf value)) (counts_ h))
    (add64 (total_ h) 1) (add64 (sum_ h) value) (N.min (min_ h) value) (N.max (max_ h) value).

Definition merge (h other : LatencyHistogram) : LatencyHistogram :=
  mkHistogram (zip_with add64 (counts_ h) (counts_ other))
    (add64 (total_ h) (total_ other)) (add64 (sum_ h) (sum_ other))
    (N.min (min_ h) (min_ other)) (N.max (max_ h) (max_ other)).

Definition minValue (h : LatencyHistogram) : N := if total_ h =? 0 then 0 else min_ h.
Definition maxValue (h : LatencyHistogram) : N := if total_ h =? 0 then 0 else max_ h.

Definition mean (h : LatencyHistogram) : double :=
  if total_ h =? 0 then to_double 0
  else SFdiv binary64_prec binary64_emax (to_double (sum_ h)) (to_double (total_ h)).

(** The loop of [valueAtQuantile] over the counters from index [i] on. *)
Fixpoint scan (rank seen i : N) (counts : list N) (h : LatencyHistogram) : N :=
  match counts with
  | [] => max_ h
  | n :: counts =>
      let seen := add64 seen n in
      if (rank <? seen) || ((seen =? total_ h) && (rank <=? seen))
      then N.min (upperEdge i) (max_ h)
      else scan rank seen (i + 1) counts h
  end.

Definition valueAtRank (rank : N) (h : LatencyHistogram) : N := scan rank 0 0 (counts_ h) h.

(** [std::clamp] and the cast of a non-negative double below 2^64. *)
Definition clamp01 (q : double) : double :=
  if SFltb q (to_double 0) then to_double 0 else if SFltb (to_double 1) q then to_double 1 else q.

Definition truncate64 (d : double) : N :=
  match d with
  | S754_finite false m e => Z.to_N (Z.shiftl (Z.pos m) e)
  | _ => 0
  end.

Definition valueAtQuantile (q : double) (h : LatencyHistogram) : N :=
  if total_ h =? 0 then 0
  else valueAtRank (truncate64 (dmul (clamp01 q) (to_double (total_ h)))) h.

Definition reset (h : LatencyHistogram) : LatencyHistogram := LatencyHistogram_new.

(** ** Buckets *)

(** A value of at least 64 is its bucket's sub-index at the scale of its width. *)
Lemma bucket_parts v : 64 ≤ v → let w := 2 ^ (N.log2 v - 6) in
  ∃ sub, v / w = 64 + sub ∧ sub < 64 ∧
    N.land (N.shiftr v (N.log2 v - kSubBits)) (kSub - 1) = sub ∧ 2 ^ N.log2 v = 64 * w ∧ 6 ≤ N.log2 v.
Proof.
  intros Hv w. assert (6 ≤ N.log2 v) as H6 by (by apply (N.log2_le_mono 64) in Hv).
  destruct (N.log2_spec v ltac:(lia)) as [Hlo Hhi].
  assert (2 ^ N.log2 v = 64 * w) as E.
  { subst w. change 64 with (2 ^ 6). rewrite <-N.pow_add_r. f_equal. lia. }
  assert (0 < w) as Hw by (subst w; apply N.neq_0_lt_0, N.pow_nonzero; done).
  rewrite N.pow_succ_r' in Hhi. rewrite E in Hlo, Hhi.
  assert (64 ≤ v / w) as H1 by (apply N.div_le_lower_bound; lia).
  assert (v / w < 128) as H2 by (apply N.Div0.div_lt_upper_bound; lia).
  exists (v / w - 64). split_and!; [lia|lia| |done|done].
  rewrite N.shiftr_div_pow2. unfold kSubBits. fold w. change (kSub - 1) with (N.ones 6). rewrite N.land_ones.
  change (2 ^ 6) with 64. replace (v / w) with (v / w - 64 + 1 * 64) at 1 by lia.
  rewrite N.Div0.mod_add. apply N.mod_small. lia.
Qed.

(** The least value of a bucket. *)
Definition lowerEdge (i : N) : N := if i <? 64 then i else (64 + i mod 64) * 2 ^ (i / 64 - 1).

Lemma upperEdge_next i : upperEdge i + 1 = lowerEdge (i + 1).
Proof.
  unfold upperEdge, lowerEdge. change kSub with 64. change kSubBits with 6.
  destruct (N.ltb_spec i 64).
  - destruct (N.ltb_spec (i + 1) 64); [done|]. by replace i with 63 by lia.
  - destruct (N.ltb_spec (i + 1) 64); [lia|].
    pose proof (N.div_mod i 64 ltac:(done)) as Hi. pose proof (N.mod_lt i 64 ltac:(done)) as Hs.
    set (q := i / 64) in *. set (s := i mod 64) in *. clearbody q s. subst i. assert (1 ≤ q) as Hq by lia.
    rewrite !N.shiftl_mul_pow2. replace (q + 6 - 1 - 6) with (q - 1) by lia.
    replace (q + 6 - 1) with (6 + (q - 1)) by lia. rewrite N.pow_add_r. change (2 ^ 6) with 64.
    assert (0 < 2 ^ (q - 1)) as Hp by (apply N.neq_0_lt_0, N.pow_nonzero; done).
    destruct (decide (s = 63)) as [->|].
    + replace (64 * q + 63 + 1) with (0 + (q + 1) * 64) by lia. rewrite N.Div0.mod_add, N.div_add by done.
      change (0 mod 64) with 0. change (0 / 64) with 0. replace (0 + (q + 1) - 1) with (1 + (q - 1)) by lia.
      rewrite N.pow_add_r. change (2 ^ 1) with 2. lia.
    + replace (64 * q + s + 1) with ((s + 1) + q * 64) by lia. rewrite N.Div0.mod_add, N.div_add by done.
      rewrite N.mod_small, N.div_small by lia. rewrite N.add_0_l. lia.
Qed.

Lemma lowerEdge_step i : lowerEdge i < lowerEdge (i + 1).
Proof.
  rewrite <-upperEdge_next. unfold lowerEdge, upperEdge. change kSub with 64. change kSubBits with 6.
  destruct (N.ltb_spec i 64); [lia|]. rewrite !N.shiftl_mul_pow2.
  assert (1 ≤ i / 64) by (apply N.div_le_lower_bound; lia).
  replace (i / 64 + 6 - 1 - 6) with (i / 64 - 1) by lia. replace (i / 64 + 6 - 1) with (6 + (i / 64 - 1)) by lia.
  rewrite N.pow_add_r. change (2 ^ 6) with 64.
  assert (0 < 2 ^ (i / 64 - 1)) by (apply N.neq_0_lt_0, N.pow_nonzero; done).
  generalize dependent (2 ^ (i / 64 - 1)). generalize (i mod 64). intros. nia.
Qed.

Lemma lowerEdge_mono i j : i ≤ j → lowerEdge i ≤ lowerEdge j.
Proof.
  intros Hij. replace j with (i + N.of_nat (N.to_nat (j - i))) by lia. generalize (N.to_nat (j - i)). intros k.
  induction k as [|k IH]; [by rewrite N.add_0_r|].
  replace (i + N.of_nat (S k)) with (i + N.of_nat k + 1) by lia. pose proof (lowerEdge_step (i + N.of_nat k)). lia.
Qed.

Lemma indexOf_lt v : indexOf v < kBuckets.
Proof.
  unfold indexOf. destruct (N.ltb_spec v kSub) as [H|_].
  - change kBuckets with 3712. change kSub with 64 in H. lia.
  - cbv zeta. by eapply N.le_lt_trans; [apply N.le_min_r|].
Qed.

(** A value lies within its own bucket, whose width is at most 1/64 of it. *)
Lemma bucket_bounds v : v < 2 ^ 63 →
  lowerEdge (indexOf v) ≤ v ∧ v ≤ upperEdge (indexOf v) ∧ upperEdge (indexOf v) ≤ v + v / 64.
Proof.
  intros Hv. unfold indexOf. change kSub with 64. destruct (N.ltb_spec v 64) as [Hlt|Hge].
  { unfold lowerEdge, upperEdge. change kSub with 64. pose proof (N.le_0_l (v / 64)).
    destruct (N.ltb_spec v 64); [|lia]. split_and!; [done|done|]. generalize dependent (v / 64). intros. lia. }
  destruct (bucket_parts v Hge) as (sub&Hdiv&Hsub&Hland&Hpow&H6). cbv zeta.
  change kSub with 64 in Hland. rewrite Hland. change kSubBits with 6.
  set (w := 2 ^ (N.log2 v - 6)) in *.
  assert (N.log2 v < 63) as Htop by (apply N.log2_lt_pow2; lia).
  rewrite N.min_l by (change (kBuckets - 1) with 3711; lia).
  set (idx := (N.log2 v - 6 + 1) * 64 + sub).
  assert (idx / 64 = N.log2 v - 6 + 1) as Ed.
  { subst idx. rewrite N.add_comm, N.div_add by done. rewrite N.div_small by done. lia. }
  assert (idx mod 64 = sub) as Em.
  { subst idx. rewrite N.add_comm, N.Div0.mod_add. by apply N.mod_small. }
  assert (0 < w) as Hw by (subst w; apply N.neq_0_lt_0, N.pow_nonzero; done).
  assert (w ≠ 0) as Hw0 by (clear -Hw; lia). pose proof (N.div_mod v w Hw0) as Hvw. pose proof (N.mod_lt v w Hw0) as Hr. rewrite Hdiv in Hvw.
  assert (w ≤ v / 64) as Hw64.
  { apply N.div_le_lower_bound; [done|]. clear -Hvw. revert Hvw. generalize (v mod w). intros. nia. }
  unfold lowerEdge, upperEdge. change kSub with 64. change kSubBits with 6. rewrite Ed, Em.
  destruct (N.ltb_spec idx 64); [subst idx; lia|]. rewrite !N.shiftl_mul_pow2.
  replace (N.log2 v - 6 + 1 - 1) with (N.log2 v - 6) by lia. replace (N.log2 v - 6 + 1 + 6 - 1) with (N.log2 v) by lia.
  fold w. rewrite Hpow. clear Ed Em Hland Hdiv Hpow. clearbody w idx.
  revert Hr Hvw. generalize (v mod w). intros. split_and!; nia.
Qed.

Lemma below_bucket i v : v < 2 ^ 63 → i < indexOf v → upperEdge i < v.
Proof.
  intros Hv Hi. destruct (bucket_bounds v Hv) as [Hlo _]. pose proof (upperEdge_next i).
  pose proof (lowerEdge_mono (i + 1) (indexOf v) ltac:(lia)). lia.
Qed.

(** ** Recording *)

Definition hist (vs : list N) : LatencyHistogram := foldl record LatencyHistogram_new vs.

Lemma hist_snoc vs v : hist (vs ++ [v]) = record (hist vs) v.
Proof. unfold hist. by rewrite foldl_app. Qed.

(** How many of the values fall into a bucket, and into the buckets before it. *)
Definition inBucket (i : N) (vs : list N) : nat := length (filter (λ v, indexOf v = i) vs).
Definition before (i : N) (vs : list N) : nat := length (filter (λ v, indexOf v < i) vs).

Lemma before_succ i vs : before (i + 1) vs = (before i vs + inBucket i vs)%nat.
Proof.
  unfold before, inBucket. induction vs as [|v vs IH]; [done|]. rewrite !filter_cons.
  destruct (decide (indexOf v < i + 1)), (decide (indexOf v < i)), (decide (indexOf v = i)); cbn; lia.
Qed.

Lemma before_le i vs : (before i vs ≤ length vs)%nat.
Proof. apply length_filter. Qed.

Lemma before_zero vs : before 0 vs = 0%nat.
Proof.
  unfold before. induction vs as [|v vs IH]; [done|]. rewrite filter_cons, decide_False by lia. done.
Qed.

Lemma before_all vs : before kBuckets vs = length vs.
Proof.
  unfold before. induction vs as [|v vs IH]; [done|]. rewrite filter_cons, decide_True by apply indexOf_lt.
  cbn. by rewrite IH.
Qed.

Record hist_ok (vs : list N) (h : LatencyHistogram) : Prop := {
  h_total : total_ h = N.of_nat (length vs);
  h_counts i : i < kBuckets → counts_ h !! N.to_nat i = Some (N.of_nat (inBucket i vs));
  h_len : length (counts_ h) = N.to_nat kBuckets;
  h_max v : v ∈ vs → v ≤ max_ h;
}.

Lemma inBucket_le i vs : (inBucket i vs ≤ length vs)%nat.
Proof. apply length_filter. Qed.

Lemma hist_spec vs : N.of_nat (length vs) < two64 → hist_ok vs (hist vs).
Proof.
  induction vs as [|v vs IH] using rev_ind; intros Hn.
  - split; [done| | |by intros v ?%elem_of_nil].
    + intros i Hi. apply lookup_replicate_2. lia.
    + apply length_replicate.
  - rewrite length_app in Hn. cbn in Hn. destruct IH as [Ht Hc Hl Hm]; [lia|]. rewrite hist_snoc. split; cbn.
    + rewrite Ht, add64_small, length_app by lia. cbn. lia.
    + intros i Hi. unfold inBucket. rewrite filter_app, filter_cons, filter_nil, length_app.
      fold (inBucket i vs). pose proof (inBucket_le i vs). destruct (decide (indexOf v = i)) as [E|E].
      * subst i. rewrite list_lookup_alter_eq, Hc by done. cbn. rewrite add64_small by lia. f_equal. lia.
      * rewrite list_lookup_alter_ne by (intros ?; apply E; lia). rewrite Hc by done. cbn. f_equal. lia.
    + by rewrite length_alter.
    + intros u [Hu|Hu%list_elem_of_singleton]%elem_of_app; [apply Hm in Hu; lia|subst; lia].
Qed.

(** ** Quantiles *)

(** The loop stops at the bucket of the value with [rank] values before it. *)
Lemma scan_hits vs h rank : hist_ok vs h → N.of_nat (length vs) < two64 → rank < N.of_nat (length vs) →
  ∀ k i seen, i + N.of_nat k = kBuckets → seen = N.of_nat (before i vs) → seen ≤ rank →
  ∃ j, scan rank seen i (drop (N.to_nat i) (counts_ h)) h = N.min (upperEdge j) (max_ h) ∧
    N.of_nat (before j vs) ≤ rank ∧ rank < N.of_nat (before (j + 1) vs).
Proof.
  intros [Ht Hc Hl Hm] Hn Hr. induction k as [|k IH]; intros i seen Hk Hs Hle.
  - replace i with kBuckets in Hs by lia. rewrite before_all in Hs. lia.
  - assert (i < kBuckets) as Hi by lia. rewrite (drop_S _ _ _ (Hc i Hi)). cbn [scan].
    pose proof (before_le (i + 1) vs) as Hb. pose proof (before_succ i vs) as Hsucc.
    rewrite Hs, add64_small by lia.
    replace (N.of_nat (before i vs) + N.of_nat (inBucket i vs)) with (N.of_nat (before (i + 1) vs)) by lia.
    destruct (N.ltb_spec rank (N.of_nat (before (i + 1) vs))) as [Hlt|Hge]; cbn [orb].
    + exists i. split_and!; [done|lia|done].
    + destruct (N.eqb_spec (N.of_nat (before (i + 1) vs)) (total_ h)) as [E|_]; [lia|]. cbn [andb].
      replace (S (N.to_nat i)) with (N.to_nat (i + 1)) by lia. apply IH; [lia|done|done].
Qed.

Lemma filter_mono (P Q : N → Prop) `{!∀ v, Decision (P v)} `{!∀ v, Decision (Q v)} vs :
  (∀ v, v ∈ vs → P v → Q v) → N.of_nat (length (filter P vs)) ≤ N.of_nat (length (filter Q vs)).
Proof.
  induction vs as [|v vs IH]; intros HPQ; [done|]. rewrite !filter_cons.
  assert (N.of_nat (length (filter P vs)) ≤ N.of_nat (length (filter Q vs))) by (apply IH; intros; apply HPQ; [by right|done]).
  destruct (decide (P v)) as [HP|], (decide (Q v)) as [|HQ]; cbn; try lia.
  exfalso. apply HQ, HPQ; [by left|done].
Qed.

(** A quantile is right to 1/64.  After recording any values below 2^63, the
    value reported for rank [r] has more than [r] of them at or below it, and at
    most [r] of them below it by more than a 64th of their own size. *)
Theorem quantile_within vs rank :
  N.of_nat (length vs) < two64 → Forall (λ v, v < 2 ^ 63) vs → rank < N.of_nat (length vs) →
  let u := valueAtRank rank (hist vs) in
  rank < N.of_nat (length (filter (λ v, v ≤ u) vs)) ∧
  N.of_nat (length (filter (λ v, v + v / 64 < u) vs)) ≤ rank.
Proof.
  intros Hn Hvs Hr. pose proof (hist_spec vs Hn) as Hok.
  destruct (scan_hits vs (hist vs) rank Hok Hn Hr (N.to_nat kBuckets) 0 0) as (j&E&Hlo&Hhi).
  { by rewrite N2Nat.id. }
  { by rewrite before_zero. }
  { lia. }
  rewrite Forall_forall in Hvs. unfold valueAtRank. change (drop (N.to_nat 0) (counts_ (hist vs))) with (counts_ (hist vs)) in E.
  cbv zeta. rewrite E. split.
  - eapply N.lt_le_trans; [exact Hhi|].
    apply filter_mono. intros v Hv Hb. apply N.min_glb; [|by apply (h_max _ _ Hok)].
    destruct (bucket_bounds v (Hvs v Hv)) as (_&Hup&_). pose proof (upperEdge_next (indexOf v)) as E1.
    pose proof (upperEdge_next j) as E2. pose proof (lowerEdge_mono (indexOf v + 1) (j + 1) ltac:(lia)). lia.
  - eapply N.le_trans; [|exact Hlo].
    apply filter_mono. intros v Hv Hlt. destruct (N.lt_ge_cases (indexOf v) j) as [|Hge]; [done|exfalso].
    destruct (bucket_bounds v (Hvs v Hv)) as (_&_&Hwide). revert Hlt Hwide. generalize (v / 64). intros d Hlt Hwide.
    destruct (decide (indexOf v = j)) as [<-|Hne]; [lia|]. pose proof (below_bucket j v (Hvs v Hv) ltac:(lia)). lia.
Qed.

(** ** Merging *)

Lemma add64_assoc a b c : add64 a (add64 b c) = add64 (add64 a b) c.
Proof. unfold add64. rewrite N.Div0.add_mod_idemp_r, N.Div0.add_mod_idemp_l. f_equal. lia. Qed.

Lemma zip_alter (l1 l2 : list N) i :
  zip_with add64 l1 (alter (λ n, add64 n 1) i l2) = alter (λ n, add64 n 1) i (zip_with add64 l1 l2).
Proof.
  revert l1 i. induction l2 as [|y l2 IH]; intros [|x l1] [|i]; try done; cbn.
  - f_equal. apply add64_assoc.
  - f_equal. apply IH.
Qed.

Lemma merge_record h g v : merge h (record g v) = record (merge h g) v.
Proof. unfold merge, record. cbn. rewrite zip_alter, !add64_assoc, N.min_assoc, N.max_assoc. done. Qed.

Lemma record_range h v : Forall (λ n, n < two64) (counts_ h) → Forall (λ n, n < two64) (counts_ (record h v)).
Proof.
  intros H. cbn. apply Forall_alter; [done|]. intros n _ _. by apply N.mod_lt.
Qed.

Lemma hist_range vs : Forall (λ n, n < two64) (counts_ (hist vs)) ∧ length (counts_ (hist vs)) = N.to_nat kBuckets ∧
  total_ (hist vs) < two64 ∧ sum_ (hist vs) < two64 ∧ min_ (hist vs) ≤ two64 - 1.
Proof.
  induction vs as [|v vs IH] using rev_ind.
  - split_and!; [by apply Forall_replicate|apply length_replicate|done..].
  - rewrite hist_snoc. destruct IH as (Hc&Hl&Ht&Hs&Hm). split_and!.
    + by apply record_range.
    + cbn. by rewrite length_alter.
    + by apply N.mod_lt.
    + by apply N.mod_lt.
    + cbn. lia.
Qed.

Lemma zip_zero l : Forall (λ n, n < two64) l → zip_with add64 l (replicate (length l) 0) = l.
Proof.
  induction 1 as [|n l Hn _ IH]; [done|]. cbn. rewrite IH. f_equal. rewrite add64_small; lia.
Qed.

(** Merging per-thread histograms loses nothing: the merge of the histograms
    of two recordings is, field by field and at any length, the histogram of the
    two recordings one after the other. *)
Theorem merge_is_concat vs ws : merge (hist vs) (hist ws) = hist (vs ++ ws).
Proof.
  unfold hist at 3. rewrite foldl_app. fold (hist vs). induction ws as [|w ws IH] using rev_ind.
  - destruct (hist_range vs) as (Hc&Hl&Ht&Hs&Hm). cbn [foldl]. unfold merge, hist at 2 4 6 8 10. cbn [foldl LatencyHistogram_new counts_ total_ sum_ min_ max_].
    rewrite <-Hl, zip_zero, !add64_small, !N.add_0_r, N.min_l, N.max_l by (done || lia). by destruct (hist vs).
  - rewrite hist_snoc, merge_record, IH, foldl_app. done.
Qed.

(** ** The documented rank *)

Definition half : double := SFdiv binary64_prec binary64_emax (to_double 1) (to_double 2).

(** The comment promises the ceil(q * count)-th value; of two values the median
    is then the first, and the code reports the second. *)
Lemma median_of_two : valueAtQuantile half (hist [1; 1000]) = 1000 ∧ valueAtRank 0 (hist [1; 1000]) = 1.
Proof. by vm_compute. Qed.

Lemma quantile_within_witness :
  let vs := [5; 70; 1000] in
  let u := valueAtRank 1 (hist vs) in
  u = 70 ∧ 1 < N.of_nat (length (filter (λ v, v ≤ u) vs)) ∧
  N.of_nat (length (filter (λ v, v + v / 64 < u) vs)) ≤ 1.
Proof.
  cbv zeta. split; [by vm_compute|]. apply (quantile_within [5; 70; 1000] 1); [done|by repeat constructor|done].
Defined.
