(* ===== verification/SimHarness.v ===== *)
(** * src/faults/sim_harness.h, src/faults/sim_harness.cpp: the simulation harness

    The deterministic single-process cluster: real cores, state machines and
    client services over the simulated network and one manual clock, watched by
    the invariant monitors.  Every callback the harness registers runs in the
    middle of a core's call; the core's calls are functions that return a trace
    of effects ([fx_]), so a call is followed by interpreting its new effects in
    order ([onEffect]), which is where the callbacks' bodies are.

    Parameters are what lies outside: the storage factory (what a process finds
    when it opens its files), the seeding of the generators, and what an
    endpoint registered by a client does with a message. *)

From Stdlib Require Import NArith ZArith Strings.Byte Lia.
From S2P Require Import Prelude Messages Log RaftCore Cluster OrdMap Text KvStore ClientService.
From S2P Require Import Checkers SimNetwork.

Local Open Scope N_scope.

Definition messageTypeName (m : Message) : list byte :=
  match typeOf m with
  | TRequestVote => str "RV"
  | TRequestVoteReply => str "RVR"
  | TAppendEntries => str "AE"
  | TAppendEntriesReply => str "AER"
  | TClientRequest => str "CREQ"
  | TClientReply => str "CREP"
  end.

Definition messageFp (m : Message) : N :=
  let '(n, buf) := encodeMessage 0 0 m (replicate (encodedSize m) x00) in
  fnv1a (take n buf) fnvOffset.

(** The [event] strings of the transition observer. *)
Definition eventName (ev : TransitionEvent) : list byte :=
  match ev with
  | HigherTermSeen => str "higher-term-seen"
  | LeaderDiscovered => str "leader-discovered"
  | ElectionStarted => str "election-started"
  | WonElection => str "won-election"
  end.

Record SimNodeConfig := mkSimNodeConfig {
  rngSeed : N;
  raft : RaftConfig;
}.

Record HarnessOptions := mkHarnessOptions {
  ho_nodes : list SimNodeConfig;
  netSeed : N;
  logMatchingEveryMs : Z;
  recordTrace : bool;
  restartSeed : option (NodeId → nat → N);
}.

(** The seed of a restart when the options give none. *)
Definition defaultRestartSeed (base : N) (id : NodeId) (inc : nat) : N :=
  N.lxor (N.lxor base ((11400714819323198485 * id) mod two64))
    ((13787848793156543929 * N.of_nat inc) mod two64).

Record Endpoint := mkEndpoint {
  ep_low : NodeId;
  ep_high : NodeId;
  ep_fn : nat;                               (* which registered callback *)
}.

(** The default factories.  In-memory storage does not survive its process. *)
Definition inMemoryStorage (id : NodeId) (inc : nat)
    (previous : option (InMemoryPersistentState * InMemoryLog)) :
    InMemoryPersistentState * InMemoryLog := (mkPersist 0 None, mkInMemoryLog []).

Definition kvStateMachine (id : NodeId) : KVStateMachine := KVStateMachine_init.

Section SimHarness.
Context {P L SM R K G W : Type}.
Context `{!PersistentState P} `{!RaftLog L} `{!StateMachine SM} `{!Rng R} `{!ApplySink K}.
Context `{!Engine G}.

Local Abbreviation Core := (@RaftCore P L SM R K).

(** [storage id incarnation previous]: what opening the node's storage gives;
    [previous] is the state its last process left, [None] before the first. *)
Context (storage_ : NodeId → nat → option (P * L) → P * L).
Context (smFactory_ : NodeId → SM).
Context (seedRng : N → R) (seedNet : N → G).
(** [onDeliver k from to m nowMs w]: the [k]-th registered callback on the
    clients' state, and the lines it traces. *)
Context (onDeliver : nat → NodeId → NodeId → Message → N → W → W * list (list byte)).

Record NodeRt := mkNodeRt {
  nr_id : NodeId;
  incarnation : nat;
  alive : bool;
  core : Core;
  service : ClientService;
}.

Record SimHarness := mkHarness {
  opts_ : HarnessOptions;
  net_ : SimNetwork G;
  nodes_ : list NodeRt;
  endpoints_ : list Endpoint;
  world_ : W;                                (* what the endpoints close over *)
  electionSafety_ : ElectionSafetyChecker;
  appendOnly_ : LeaderAppendOnlyChecker;
  applied_ : AppliedConsistencyChecker;
  commit_ : CommitChecker;
  sweepViolations_ : list (list byte);
  trace_ : list (list byte);
  lastLogMatchingMs_ : N;
  clock : TimePoint;
}.

(** ** Fields *)

Definition set_net (x : SimNetwork G) (h : SimHarness) : SimHarness :=
  mkHarness (opts_ h) x (nodes_ h) (endpoints_ h) (world_ h) (electionSafety_ h) (appendOnly_ h)
    (applied_ h) (commit_ h) (sweepViolations_ h) (trace_ h) (lastLogMatchingMs_ h) (clock h).
Definition set_nodes (x : list NodeRt) (h : SimHarness) : SimHarness :=
  mkHarness (opts_ h) (net_ h) x (endpoints_ h) (world_ h) (electionSafety_ h) (appendOnly_ h)
    (applied_ h) (commit_ h) (sweepViolations_ h) (trace_ h) (lastLogMatchingMs_ h) (clock h).
Definition set_endpoints (x : list Endpoint) (h : SimHarness) : SimHarness :=
  mkHarness (opts_ h) (net_ h) (nodes_ h) x (world_ h) (electionSafety_ h) (appendOnly_ h)
    (applied_ h) (commit_ h) (sweepViolations_ h) (trace_ h) (lastLogMatchingMs_ h) (clock h).
Definition set_world (x : W) (h : SimHarness) : SimHarness :=
  mkHarness (opts_ h) (net_ h) (nodes_ h) (endpoints_ h) x (electionSafety_ h) (appendOnly_ h)
    (applied_ h) (commit_ h) (sweepViolations_ h) (trace_ h) (lastLogMatchingMs_ h) (clock h).
Definition set_electionSafety (x : ElectionSafetyChecker) (h : SimHarness) : SimHarness :=
  mkHarness (opts_ h) (net_ h) (nodes_ h) (endpoints_ h) (world_ h) x (appendOnly_ h)
    (applied_ h) (commit_ h) (sweepViolations_ h) (trace_ h) (lastLogMatchingMs_ h) (clock h).
Definition set_appendOnly (x : LeaderAppendOnlyChecker) (h : SimHarness) : SimHarness :=
  mkHarness (opts_ h) (net_ h) (nodes_ h) (endpoints_ h) (world_ h) (electionSafety_ h) x
    (applied_ h) (commit_ h) (sweepViolations_ h) (trace_ h) (lastLogMatchingMs_ h) (clock h).
Definition set_applied (x : AppliedConsistencyChecker) (h : SimHarness) : SimHarness :=
  mkHarness (opts_ h) (net_ h) (nodes_ h) (endpoints_ h) (world_ h) (electionSafety_ h)
    (appendOnly_ h) x (commit_ h) (sweepViolations_ h) (trace_ h) (lastLogMatchingMs_ h) (clock h).
Definition set_commit (x : CommitChecker) (h : SimHarness) : SimHarness :=
  mkHarness (opts_ h) (net_ h) (nodes_ h) (endpoints_ h) (world_ h) (electionSafety_ h)
    (appendOnly_ h) (applied_ h) x (sweepViolations_ h) (trace_ h) (lastLogMatchingMs_ h) (clock h).
Definition set_sweep (x : list (list byte)) (h : SimHarness) : SimHarness :=
  mkHarness (opts_ h) (net_ h) (nodes_ h) (endpoints_ h) (world_ h) (electionSafety_ h)
    (appendOnly_ h) (applied_ h) (commit_ h) x (trace_ h) (lastLogMatchingMs_ h) (clock h).
Definition set_trace (x : list (list byte)) (h : SimHarness) : SimHarness :=
  mkHarness (opts_ h) (net_ h) (nodes_ h) (endpoints_ h) (world_ h) (electionSafety_ h)
    (appendOnly_ h) (applied_ h) (commit_ h) (sweepViolations_ h) x (lastLogMatchingMs_ h) (clock h).
Definition set_lastLogMatching (x : N) (h : SimHarness) : SimHarness :=
  mkHarness (opts_ h) (net_ h) (nodes_ h) (endpoints_ h) (world_ h) (electionSafety_ h)
    (appendOnly_ h) (applied_ h) (commit_ h) (sweepViolations_ h) (trace_ h) x (clock h).
Definition set_clock (x : TimePoint) (h : SimHarness) : SimHarness :=
  mkHarness (opts_ h) (net_ h) (nodes_ h) (endpoints_ h) (world_ h) (electionSafety_ h)
    (appendOnly_ h) (applied_ h) (commit_ h) (sweepViolations_ h) (trace_ h)
    (lastLogMatchingMs_ h) x.

Definition set_core (c : Core) (nd : NodeRt) : NodeRt :=
  mkNodeRt (nr_id nd) (incarnation nd) (alive nd) c (service nd).
Definition set_service (s : ClientService) (nd : NodeRt) : NodeRt :=
  mkNodeRt (nr_id nd) (incarnation nd) (alive nd) (core nd) s.
Definition set_alive (b : bool) (nd : NodeRt) : NodeRt :=
  mkNodeRt (nr_id nd) (incarnation nd) b (core nd) (service nd).

(** [nodes_[id - 1]] *)
Definition slot (id : NodeId) : nat := (N.to_nat id - 1)%nat.
Definition nodeAt (id : NodeId) (h : SimHarness) : option NodeRt := nodes_ h !! slot id.
Definition updateNode (id : NodeId) (f : NodeRt → NodeRt) (h : SimHarness) : SimHarness :=
  set_nodes (alter f (slot id) (nodes_ h)) h.

Definition nodeIds (n : nat) : list NodeId := N.of_nat <$> seq 1 n.
Definition nodeCount (h : SimHarness) : nat := length (nodes_ h).

Definition nowMs (h : SimHarness) : N := clock h / 1000000.

Definition traceEvent (s : list byte) (h : SimHarness) : SimHarness :=
  if recordTrace (opts_ h) then set_trace (trace_ h ++ [s]) h else h.

Definition netSend (from to : NodeId) (m : Message) (h : SimHarness) : SimHarness :=
  set_net (SimNetwork.send from to m (clock h) (net_ h)) h.

Definition clientSend (fromClient toNode : NodeId) (m : Message) (h : SimHarness) : SimHarness :=
  netSend fromClient toNode m h.

Definition registerEndpoint (low high : NodeId) (fn : nat) (h : SimHarness) : SimHarness :=
  set_endpoints (endpoints_ h ++ [mkEndpoint low high fn]) h.

(** ** The callbacks of a node *)

(** Run the client service; the replies it sends go to the network. *)
Definition runService (id : NodeId) (f : ClientService → ClientService) (h : SimHarness) :
    SimHarness :=
  match nodeAt id h with
  | None => h
  | Some nd =>
      let s := f (service nd) in
      let h := updateNode id (set_service s) h in
      foldl (λ h p, netSend id p.1 (MClientReply p.2) h) h
        (drop (length (sent_ (service nd))) (sent_ s))
  end.

(** [setTransitionObserver]'s lambda; [log] is the node's log at that moment. *)
Definition onTransition (id : NodeId) (term : Term) (role : Role) (ev : TransitionEvent)
    (log : list LogEntry) (h : SimHarness) : SimHarness :=
  let h := traceEvent (str "t=" ++ to_string (nowMs h) ++ str " n" ++ to_string id ++ str " " ++
             eventName ev ++ str " term=" ++ to_string term) h in
  if decide (role = Leader) then
    let image := entryImage <$> log in
    let h := set_electionSafety (observeLeader term id (electionSafety_ h)) h in
    set_commit (observeElectionWin id term image (commit_ h)) h
  else h.

(** [setApplyObserver]'s lambda. *)
Definition onApply (id : NodeId) (index : LogIndex) (entry : LogEntry) (result : list byte)
    (h : SimHarness) : SimHarness :=
  let h := set_applied (observeApply id index (entryImage entry) (fnv1a result fnvOffset)
             (applied_ h)) h in
  let h := traceEvent (str "t=" ++ to_string (nowMs h) ++ str " n" ++ to_string id ++
             str " apply i=" ++ to_string index ++ str " fp=" ++
             to_string (im_fp (entryImage entry))) h in
  runService id (onApplied id index entry result) h.

(** One effect of a core's call, with the node's log as it stands. *)
Definition onEffect (id : NodeId) (p : SimHarness * list LogEntry) (e : Effect) :
    SimHarness * list LogEntry :=
  let '(h, log) := p in
  match e with
  | ESend to m => (netSend id to m h, log)
  | EAppend es => (h, InMemoryLog_append log es)
  | ETruncate i => (h, InMemoryLog_truncateSuffixFrom log i)
  | ETransition term role ev => (onTransition id term role ev log h, log)
  | EApply index entry result => (onApply id index entry result h, log)
  | ESave _ _ | EHandOff _ _ | EError _ => (h, log)
  end.

(** A call took the core of node [id] to [c']. *)
Definition afterCall (id : NodeId) (c' : Core) (h : SimHarness) : SimHarness :=
  match nodeAt id h with
  | None => h
  | Some nd =>
      (foldl (onEffect id) (updateNode id (set_core c') h, log_entries (log_ (core nd)))
         (new_fx (core nd) c')).1
  end.

(** ** Building nodes *)

Definition buildNode (opts : HarnessOptions) (id : NodeId) (inc : nat) (seed : N)
    (previous : option (P * L)) : option (Core * ClientService) :=
  cfg ← ho_nodes opts !! slot id;
  let n := length (ho_nodes opts) in
  let peers := filter (λ p, p ≠ id) (nodeIds n) in
  let '(persist, log) := storage_ id inc previous in
  Some (RaftCore_new id peers persist log (smFactory_ id) (seedRng seed) (raft cfg),
        ClientService_new (mkBatching 1 0)).

Definition firstNode (opts : HarnessOptions) (id : NodeId) : option NodeRt :=
  cfg ← ho_nodes opts !! slot id;
  b ← buildNode opts id 0 (rngSeed cfg) None;
  Some (mkNodeRt id 0 true (start 0 b.1) b.2).

Definition SimHarness_new (opts : HarnessOptions) (w : W) : SimHarness :=
  let n := length (ho_nodes opts) in
  mkHarness opts (SimNetwork_new (seedNet (netSeed opts)) (nodeIds n))
    (omap (firstNode opts) (nodeIds n)) [] w
    (mkElectionSafety [] []) (mkAppendOnly [] []) (mkAppliedConsistency [] [])
    (mkCommitChecker [] []) [] [] 0 0.

(** ** Faults *)

Definition crash (id : NodeId) (h : SimHarness) : SimHarness :=
  let h := updateNode id (set_alive false) h in
  traceEvent (str "t=" ++ to_string (nowMs h) ++ str " crash n" ++ to_string id) h.

Definition gracefulStop (id : NodeId) (h : SimHarness) : SimHarness := crash id h.

Definition restart (id : NodeId) (h : SimHarness) : SimHarness :=
  match nodeAt id h with
  | None => h
  | Some nd =>
      if alive nd then h
      else
        let inc := S (incarnation nd) in
        let seedOf := default (defaultRestartSeed (netSeed (opts_ h))) (restartSeed (opts_ h)) in
        match buildNode (opts_ h) id inc (seedOf id inc)
                (Some (persist_ (core nd), log_ (core nd))) with
        | None => h
        | Some (c, s) =>
            let h := updateNode id (λ _, mkNodeRt id inc true (start (clock h) c) s) h in
            traceEvent (str "t=" ++ to_string (nowMs h) ++ str " restart n" ++ to_string id) h
        end
  end.

(** The loop over the nodes: the live leader of the highest term, the last one
    of equals. *)
Definition pickLeader (acc : option NodeId * Term) (nd : NodeRt) : option NodeId * Term :=
  if alive nd && bool_decide (role_ (core nd) = Leader) && (acc.2 <=? currentTerm (core nd))
  then (Some (nr_id nd), currentTerm (core nd)) else acc.

Definition killLeader (h : SimHarness) : option NodeId * SimHarness :=
  match (foldl pickLeader (None, 0) (nodes_ h)).1 with
  | Some victim => (Some victim, crash victim h)
  | None => (None, h)
  end.

Definition deadNodes (h : SimHarness) : list NodeId :=
  nr_id <$> filter (λ nd, alive nd = false) (nodes_ h).

(** ** Time *)

(** [node->core->handle(...)], with the client handler [buildNode] registered.
    A request nests: the service calls [propose], whose callbacks run before the
    service records who waits; so the service's own part is computed on what the
    callbacks left. *)
Definition handleAt (id from to : NodeId) (m : Message) (h : SimHarness) : SimHarness :=
  match nodeAt id h with
  | None => h
  | Some nd =>
      let c := core nd in
      let onClient from req c := (onClientRequest (clock h) from req (service nd) c).2 in
      let env := mkEnvelope kProtocolVersion (typeOf m) from to 0 in
      let c' := handle (Some onClient) (clock h) env m c in
      match m with
      | MClientRequest req =>
          let h := updateNode id (set_service (mkClientService (pending_ (service nd))
                     (default 0 (leaderId_ c)) (batching_ (service nd)) (buffer_ (service nd))
                     (batchDeadline_ (service nd)) (deadlineArmed_ (service nd))
                     (okReply_ (service nd)) (sent_ (service nd)))) h in
          let h := afterCall id c' h in
          runService id (λ s, (onClientRequest (clock h) from req s c).1) h
      | _ => afterCall id c' h
      end
  end.

Definition deliver (from to : NodeId) (m : Message) (h : SimHarness) : SimHarness :=
  let h := traceEvent (str "t=" ++ to_string (nowMs h) ++ str " dlv " ++ messageTypeName m ++
             str " " ++ to_string from ++ str "->" ++ to_string to ++ str " fp=" ++
             to_string (messageFp m)) h in
  if (1 <=? to) && (to <=? N.of_nat (length (nodes_ h))) then
    match nodeAt to h with
    | Some nd => if alive nd then handleAt to from to m h else h
    | None => h
    end
  else
    match list_find (λ ep, ep_low ep ≤ to ≤ ep_high ep) (endpoints_ h) with
    | Some (_, ep) =>
        let '(w, lines) := onDeliver (ep_fn ep) from to m (nowMs h) (world_ h) in
        foldl (λ h s, traceEvent s h) (set_world w h) lines
    | None => h
    end.

Definition tickNode (h : SimHarness) (id : NodeId) : SimHarness :=
  match nodeAt id h with
  | Some nd => if alive nd then afterCall id (tick (clock h) (core nd)) h else h
  | None => h
  end.

Definition observeNode (h : SimHarness) (nd : NodeRt) : SimHarness :=
  if alive nd then
    let image := logImage (log_ (core nd)) in
    let h := set_appendOnly (observe (nr_id nd) (bool_decide (role_ (core nd) = Leader))
               (currentTerm (core nd)) image (appendOnly_ h)) h in
    set_commit (observeCommit (nr_id nd) (commitIndex_ (core nd)) image (commit_ h)) h
  else h.

(** [logs[node->id] = ...] over the live nodes, and the sweep. *)
Definition liveLogs (h : SimHarness) : @ordmap N (list EntryImage) :=
  foldl (λ m nd, if alive nd then om_insert (nr_id nd) (logImage (log_ (core nd))) m else m)
    [] (nodes_ h).

Definition finalCheck (h : SimHarness) : SimHarness :=
  set_sweep (sweepViolations_ h ++ checkLogMatching (liveLogs h)) h.

Definition observeStep (h : SimHarness) : SimHarness :=
  let h := foldl observeNode h (nodes_ h) in
  if (logMatchingEveryMs (opts_ h) <=? Z.of_N (nowMs h) - Z.of_N (lastLogMatchingMs_ h))%Z
  then finalCheck (set_lastLogMatching (nowMs h) h) else h.

(** [None]: the drain loop did not end within [fuel] messages. *)
Definition stepMs (fuel : nat) (h : SimHarness) : option SimHarness :=
  let h := set_clock (after (clock h) 1) h in
  let h := foldl tickNode h (nodeIds (length (nodes_ h))) in
  h ← deliverDue net_ set_net deliver fuel (clock h) h;
  Some (observeStep h).

(** A step has to drain what is in flight at its start ([stepMs_drains]). *)
Definition stepMs_ (h : SimHarness) : option SimHarness := stepMs (S (inFlight (net_ h))) h.

Fixpoint runUntil (maxMs : nat) (pred : SimHarness → bool) (h : SimHarness) :
    option (bool * SimHarness) :=
  match maxMs with
  | O => Some (pred h, h)
  | S maxMs => if pred h then Some (true, h) else h ← stepMs_ h; runUntil maxMs pred h
  end.

Fixpoint runFor (ms : nat) (h : SimHarness) : option SimHarness :=
  match ms with O => Some h | S ms => h ← stepMs_ h; runFor ms h end.

(** ** Reading the cluster *)

Definition liveLeaders (h : SimHarness) : list NodeId :=
  nr_id <$> filter (λ nd, alive nd = true ∧ role_ (core nd) = Leader) (nodes_ h).

Definition converged (h : SimHarness) : bool :=
  match liveLeaders h with
  | [id] =>
      match nodeAt id h with
      | None => false
      | Some leader =>
          forallb (λ nd,
            negb (alive nd) || (nr_id nd =? id) ||
            (bool_decide (role_ (core nd) = Follower) &&
             (currentTerm (core nd) =? currentTerm (core leader)) &&
             bool_decide (leaderId_ (core nd) = Some (self_ (core leader))))) (nodes_ h)
      end
  | _ => false
  end.

Definition quiescent (h : SimHarness) : bool :=
  converged h &&
  match liveLeaders h with
  | id :: _ =>
      match nodeAt id h with
      | None => false
      | Some leader =>
          forallb (λ nd,
            alive nd &&
            (commitIndex_ (core nd) =? commitIndex_ (core leader)) &&
            (lastApplied_ (core nd) =? commitIndex_ (core nd)) &&
            (log_lastIndex (log_ (core nd)) =? log_lastIndex (log_ (core leader))) &&
            bool_decide (logImage (log_ (core nd)) = logImage (log_ (core leader)))) (nodes_ h)
      end
  | [] => false
  end.

Definition violations (h : SimHarness) : list (list byte) :=
  es_violations (electionSafety_ h) ++ ao_violations (appendOnly_ h) ++
  ac_violations (applied_ h) ++ cc_violations (commit_ h) ++ sweepViolations_ h.

End SimHarness.
