(* ===== verification/HarnessSafety.v ===== *)
(** * The monitors of the simulation harness on a real cluster

    The harness of SimHarness.v drives the cores of RaftCore.v; every step of it
    is a sequence of events of the cluster of Cluster.v, so the invariant of
    RaftSafety.v holds throughout.  The theorem [monitors_silent] says what this
    means for the harness: whatever faults it injects, four of the five monitors
    never report anything, and the fifth reports only elections of a term that
    some node had already left behind. *)

From Stdlib Require Import NArith ZArith Strings.Byte Lia.
From stdpp Require Import functions.
From S2P Require Import Prelude Messages Codec Log RaftCore RaftNode RaftTerms RaftSpec RaftInv.
From S2P Require Import Cluster RaftRefine RaftSafety OrdMap Text ClientService Checkers SimNetwork.
From S2P Require Import Sink SimHarness.

Local Open Scope nat_scope.

Section HarnessSafety.
Context {P L SM R K G W : Type}.
Context `{!PersistentState P} `{!RaftLog L} `{!StateMachine SM} `{!Rng R} `{!ApplySink K}.
Context `{!Engine G} `{!PersistentStateLaws P} `{!RaftLogLaws L}.
Context (members : list N) (Hmembers : NoDup members).
Context (cfg : RaftConfig) (sm0 : SM).

Local Abbreviation Core := (@RaftCore P L SM R K).
Local Abbreviation Harness := (@SimHarness P L SM R K G W).

Definition image (l : list LogEntry) : list EntryImage := entryImage <$> l.

(** ** What the monitors have recorded, in terms of the protocol *)

(** A message on the wire was sent by a core, or belongs to the clients. *)
Definition wire_ok (ps : list Packet) (w : Wire) : Prop :=
  mkPacket (w_from w) (w_to w) (w_msg w) ∈ ps ∨
  (∃ r, w_msg w = MClientRequest r) ∨ (∃ r, w_msg w = MClientReply r).

Definition queue_ok (ps : list Packet) (h : Harness) : Prop :=
  om_ok (queue_ (net_ h)) ∧ Forall (λ p, wire_ok ps p.2) (queue_ (net_ h)).

(** Every recorded win is the election of that term's leader. *)
Definition wins_ok (A : AState) (h : Harness) : Prop :=
  es_violations (electionSafety_ h) = [] ∧ ∃ wins, leaders_ok wins (electionSafety_ h) ∧
  ∀ t m, (t, m) ∈ wins → ∃ l, a_elected A t = Some (m, l).

(** A baseline is an earlier log of that term's leader. *)
Definition baseline_ok (A : AState) (h : Harness) : Prop :=
  ao_violations (appendOnly_ h) = [] ∧ om_ok (baseline_ (appendOnly_ h)) ∧
  ∀ m base, om_find m (baseline_ (appendOnly_ h)) = Some base →
    ∃ l l', bl_log base = image l ∧ a_elected A (bl_term base) = Some (m, l') ∧ l `prefix_of` l'.

(** [e] was applied at index [i] with result [r], by a replica of a log that is
    committed that far. *)
Definition apply_fact (A : AState) (i : N) (e : LogEntry) (r : list byte) : Prop :=
  ∃ b l, covered members A b l (N.to_nat i) ∧ (0 < i)%N ∧ l !! (N.to_nat i - 1) = Some e ∧
    r = (sm_apply (run_sm sm0 (take (N.to_nat i - 1) l)) (e_command e)).1.

Definition record_ok (A : AState) (h : Harness) : Prop :=
  ac_violations (applied_ h) = [] ∧
  ∀ i ap, om_find i (record_ (applied_ h)) = Some ap →
    ∃ e r, apply_fact A i e r ∧ ap_entry ap = entryImage e ∧ ap_resultFp ap = fnv1a r fnvOffset.

(** The committed record is covered, as of the term of some node. *)
Definition committed_fact (A : AState) (img : list EntryImage) : Prop :=
  ∃ b l k, img = image (take k l) ∧ covered members A b l k ∧
    (k = 0 ∨ ∃ m, m ∈ members ∧ (b ≤ a_term A m)%N).

(** A report about an election of a term that some node has left behind. *)
Definition late_win (A : AState) (v : list byte) : Prop :=
  ∃ n t text m, v = format (winText n t ++ text) ∧ m ∈ members ∧ (t < a_term A m)%N.

Definition commit_ok (A : AState) (h : Harness) : Prop :=
  committed_fact A (committed_ (commit_ h)) ∧ Forall (late_win A) (cc_violations (commit_ h)).

(** [A]: the protocol state the observations are made in; [B]: one in which the
    applies are known to be covered; [ps]: the packets on the wire. *)
Record mon_ok (A B : AState) (ps : list Packet) (h : Harness) : Prop := {
  mo_queue : queue_ok ps h;
  mo_wins : wins_ok A h;
  mo_baseline : baseline_ok A h;
  mo_record : record_ok B h;
  mo_commit : commit_ok A h;
  mo_sweep : sweepViolations_ h = [];
}.

(** ** Nothing recorded is taken back *)

Lemma apply_fact_ext A A' i e r : extends A A' → apply_fact A i e r → apply_fact A' i e r.
Proof.
  intros E (b&l&Hc&Hi&Hl&Hr). exists b, l. split_and!; try done. by apply (ext_covered _ E b).
Qed.

Lemma committed_fact_ext A A' img : extends A A' → committed_fact A img → committed_fact A' img.
Proof.
  intros E (b&l&k&Hi&Hc&Hm). exists b, l, k. split_and!; [done|by apply (ext_covered _ E b)|].
  destruct Hm as [?|(m&?&Hb)]; [by left|right]. exists m. split; [done|].
  etrans; [exact Hb|apply (ext_term _ _ E)].
Qed.

Lemma late_win_ext A A' v : extends A A' → late_win A v → late_win A' v.
Proof.
  intros E (n&t&text&m&?&?&Ht). exists n, t, text, m. split_and!; [done|done|].
  eapply N.lt_le_trans; [exact Ht|apply (ext_term _ _ E)].
Qed.

Lemma mon_ok_ext A A' B B' ps ps' h : extends A A' → extends B B' → ps ⊆ ps' →
  mon_ok A B ps h → mon_ok A' B' ps' h.
Proof.
  intros E EB Hps [[Hq1 Hq2] [Hw1 (wins&Hw2&Hw3)] (Hb1&Hb2&Hb3) [Hr1 Hr2] [Hc1 Hc2] Hs].
  split; [split|split|split_and!|split|split|]; try done.
  - eapply Forall_impl; [exact Hq2|]. intros p [?|?]; [left; by apply Hps|by right].
  - exists wins. split; [done|]. intros t m Hin. destruct (Hw3 t m Hin) as [l Hl].
    destruct (ext_elected _ _ E _ _ _ Hl) as (l'&?&_). by exists l'.
  - intros m base Hm. destruct (Hb3 m base Hm) as (l&l'&?&Hl'&Hp).
    destruct (ext_elected _ _ E _ _ _ Hl') as (l''&?&?). exists l, l''.
    split_and!; [done|done|by etrans].
  - intros i ap Hi. destruct (Hr2 i ap Hi) as (e&r&?&?&?). exists e, r.
    split_and!; [by eapply apply_fact_ext|done|done].
  - by eapply committed_fact_ext.
  - eapply Forall_impl; [exact Hc2|]. intros v. by apply late_win_ext.
Qed.

(** ** One observation *)

(** Fields the monitors do not read. *)
Lemma mon_ok_frame A B ps (h h' : Harness) : mon_ok A B ps h → net_ h' = net_ h →
  electionSafety_ h' = electionSafety_ h → appendOnly_ h' = appendOnly_ h →
  applied_ h' = applied_ h → commit_ h' = commit_ h → sweepViolations_ h' = sweepViolations_ h →
  mon_ok A B ps h'.
Proof.
  intros [] E1 E2 E3 E4 E5 E6. split; unfold queue_ok, wins_ok, baseline_ok, record_ok, commit_ok in *;
    by rewrite ?E1, ?E2, ?E3, ?E4, ?E5, ?E6.
Qed.

Lemma mon_ok_trace A B ps h s : mon_ok A B ps h → mon_ok A B ps (traceEvent s h).
Proof. intros H. unfold traceEvent. destruct (recordTrace _); [|done]. by apply (mon_ok_frame _ _ _ h). Qed.

Lemma mon_ok_update A B ps h id f : mon_ok A B ps h → mon_ok A B ps (updateNode id f h).
Proof. intros H. by apply (mon_ok_frame _ _ _ h). Qed.

Lemma mon_ok_send A B ps h from to m : mon_ok A B ps h → wire_ok ps (mkWire from to m) →
  mon_ok A B ps (netSend from to m h).
Proof.
  intros [[Hq1 Hq2] ? ? ? ? ?] Hw. split; try done. split.
  - by apply send_queue_ok.
  - apply Forall_forall. intros p Hp. apply send_elem in Hp as [Hp|[-> _]]; [|done].
    by eapply (proj1 (Forall_forall _ _) Hq2).
Qed.

Lemma mon_ok_service A B ps h id f : mon_ok A B ps h → mon_ok A B ps (runService id f h).
Proof.
  intros H. unfold runService. destruct (nodeAt id h) as [nd|]; [|done].
  assert (mon_ok A B ps (updateNode id (set_service (f (service nd))) h)) as H1
    by by apply mon_ok_update.
  revert H1. generalize (updateNode id (set_service (f (service nd))) h).
  induction (drop _ _) as [|p l IH]; intros h' H'; cbn [foldl]; [done|]. apply IH.
  apply mon_ok_send; [done|]. right; right. by eexists.
Qed.

Lemma image_prefix l l' : l `prefix_of` l' → image l `prefix_of` image l'.
Proof. intros [k ->]. unfold image. rewrite fmap_app. by eexists. Qed.

(** The record of what is committed is in the log of the leader of a term no
    node has passed. *)
Lemma committed_leader A id t img : Inv members A → committed_fact A img →
  a_role A id = Leader → a_term A id = t → ¬ img `prefix_of` image (a_log A id) →
  ∃ m, m ∈ members ∧ (t < a_term A m)%N.
Proof.
  intros I (b&l&k&->&Hc&Hm) Hr <- Hn.
  destruct (decide (b ≤ a_term A id)%N) as [Hb|Hb].
  - destruct Hn. destruct (covered_leader _ _ I b l k (a_term A id) (id, a_log A id) Hc Hb)
      as (_&_&E); [by apply (inv_leader _ _ I)|].
    rewrite (leader_own_log _ _ I id Hr) in E. apply image_prefix. rewrite E. apply prefix_take.
  - destruct Hm as [->|(m&Hm&Hbm)].
    + destruct Hn. rewrite take_0. apply prefix_nil.
    + exists m. split; [done|lia].
Qed.

Lemma onTransition_ok A B ps h id t r ev : Inv members A →
  (r = Leader → a_role A id = Leader ∧ a_term A id = t) → mon_ok A B ps h →
  mon_ok A B ps (onTransition id t r ev (a_log A id) h).
Proof.
  intros I Hl Hm. unfold onTransition.
  match goal with |- context [traceEvent ?s h] => pose proof (mon_ok_trace A B ps h s Hm) as Hm' end.
  revert Hm'. generalize (traceEvent (str "t=" ++ to_string (nowMs h) ++ str " n" ++ to_string id ++
    str " " ++ eventName ev ++ str " term=" ++ to_string t) h). clear Hm h. intros h Hm.
  destruct (decide (r = Leader)) as [->|]; [|done]. destruct (Hl eq_refl) as [Hr Ht].
  pose proof (inv_leader _ _ I id Hr) as He. rewrite Ht in He.
  destruct Hm as [Hq [Hw1 (wins&Hw2&Hw3)] Hb Hrec [Hc1 Hc2] Hs]. split; try done.
  - split; cbn [electionSafety_ set_commit set_electionSafety].
    + rewrite (proj2 (observeLeader_silent wins t id _ Hw2)); [done|].
      intros m Hin. destruct (Hw3 t m Hin) as [l Hl']. congruence.
    + exists (wins ++ [(t, id)]). split; [by apply observeLeader_ok|].
      intros t' m [?|[= -> ->]%list_elem_of_singleton]%elem_of_app; [by apply Hw3|by eexists].
  - split; cbn [commit_ set_commit set_electionSafety]; [by rewrite observeElectionWin_committed|].
    destruct (observeElectionWin_spec id t (image (a_log A id)) (commit_ h)) as [[_ E]|[Hn (text&E)]].
    + unfold image in E. by rewrite E.
    + unfold image in E. rewrite E. apply Forall_app. split; [done|]. constructor; [|done].
      destruct (committed_leader A id t _ I Hc1 Hr Ht Hn) as (m&?&?). by exists id, t, text, m.
Qed.

Lemma apply_fact_agree B i e e' r r' : Inv members B → apply_fact B i e r → apply_fact B i e' r' →
  e = e' ∧ r = r'.
Proof.
  intros I (b&l&Hc&Hi&Hl&->) (b'&l'&Hc'&_&Hl'&->).
  destruct (covered_agree _ _ I _ _ _ _ _ Hc Hc') as (H1&H2&E).
  assert (e = e') as <-.
  { rewrite <-(lookup_take_lt l (N.to_nat i)) in Hl by lia.
    rewrite <-(lookup_take_lt l' (N.to_nat i)) in Hl' by lia. congruence. }
  split; [done|]. do 3 f_equal. apply (f_equal (take (N.to_nat i - 1))) in E.
  by rewrite !take_take, Nat.min_l in E by lia.
Qed.

Lemma onApply_ok A B ps h id i e r : Inv members B → apply_fact B i e r → mon_ok A B ps h →
  mon_ok A B ps (onApply id i e r h).
Proof.
  intros I Hf Hm. unfold onApply. apply mon_ok_service, mon_ok_trace.
  destruct Hm as [? ? ? [Hr1 Hr2] ? ?]. split; try done. split; cbn [applied_ set_applied].
  - rewrite (proj2 (observeApply_silent id i (entryImage e) (fnv1a r fnvOffset) _)); [done|].
    intros first Hfi. destruct (Hr2 i first Hfi) as (e'&r'&Hf'&->&->).
    by destruct (apply_fact_agree B i e e' r r' I Hf Hf') as [-> ->].
  - unfold observeApply. destruct (om_find i (record_ (applied_ h))) as [first|] eqn:E.
    + intros j ap Hj. assert (om_find j (record_ (applied_ h)) = Some ap); [|by apply Hr2].
      revert Hj. repeat case_match; done.
    + cbn. intros j ap. destruct (decide (j = i)) as [->|Hne].
      * rewrite om_find_insert_eq. intros [= <-]. by exists e, r.
      * rewrite om_find_insert_ne by done. apply Hr2.
Qed.

(** ** The effects of a call *)

Lemma onEffect_log id (p : Harness * list LogEntry) e d : p.2 = d.2 → (onEffect id p e).2 = (replay1 d e).2.
Proof. destruct p as [h l], d as [[t v] l']. cbn. intros ->. by destruct e. Qed.

Lemma effects_ok id B ps A fx A' : etrace members id A fx A' → ∀ (h : Harness) log,
  Inv members A → Inv members B → mon_ok A B ps h → log = a_log A id →
  (∀ i e r, EApply i e r ∈ fx → apply_fact B i e r) → (∀ p, p ∈ sends id fx → p ∈ ps) →
  mon_ok A' B ps (foldl (onEffect id) (h, log) fx).1.
Proof.
  induction 1 as [A|A A1 fx A' Hs Hd Ht IH|A e A1 fx A' Hs Hd Ho Ht IH]; intros h log I IB Hm Hl Hap Hps.
  - done.
  - destruct (astep_inv _ _ _ _ I Hs) as [E I1]. apply IH; try done.
    + eapply mon_ok_ext; [exact E|apply extends_refl|by intros ?|done].
    + unfold a_durable in Hd. congruence.
  - assert (extends A A1 ∧ Inv members A1) as [E I1].
    { destruct Hs as [->|Hs]; [split; [apply extends_refl|done]|]. by apply (astep_inv _ _ _ _ I Hs). }
    assert (a_log A1 id = (onEffect id (h, log) e).2) as Hl1.
    { rewrite (onEffect_log id _ e (a_durable A id)) by done. rewrite <-Hd. done. }
    cbn [foldl]. destruct (onEffect id (h, log) e) as [h1 log1] eqn:Ee.
    apply IH; try done.
    2: { intros i en r Hin. apply Hap. by right. }
    2: { intros p Hp. apply Hps. unfold sends in *. cbn. destruct e; try done. by right. }
    assert (mon_ok A1 B ps h) as Hm1 by (eapply mon_ok_ext; [exact E|apply extends_refl|by intros ?|done]).
    cbn in Hl1. destruct e as [| | |to m|t r ev|i en r| |]; cbn in Ee; injection Ee as <- <-; try done.
    + apply mon_ok_send; [done|]. left. apply Hps. by left.
    + rewrite <-Hl1. by apply onTransition_ok.
    + apply onApply_ok; [done| |done]. apply Hap. by left.
Qed.

(** A crash can cut an append in pieces; the monitors see no difference. *)
Lemma effects_atomic id fx (p : Harness * list LogEntry) :
  foldl (onEffect id) p (fx ≫= atomic) = foldl (onEffect id) p fx.
Proof.
  revert p. induction fx as [|e fx IH]; intros [h l]; [done|]. cbn [mbind list_bind].
  rewrite foldl_app, IH. cbn [foldl]. f_equal. destruct e as [|es| | | | | |]; try done.
  cbn. unfold InMemoryLog_append. revert l. induction es as [|x es IHes]; intros l; cbn.
  - by rewrite app_nil_r.
  - rewrite IHes. unfold InMemoryLog_append. by rewrite <-app_assoc.
Qed.

(** ** What a core has applied *)

Definition applies (fx : list Effect) : list (N * LogEntry * list byte) :=
  omap (λ e, match e with EApply i en r => Some (i, en, r) | _ => None end) fx.

Lemma applies_executed fx : executed fx = (λ t, t.1.2) <$> applies fx.
Proof. induction fx as [|e fx IH]; [done|]. unfold executed, applies in *. cbn. destruct e; cbn; congruence. Qed.

Lemma applies_results fx : results fx = snd <$> applies fx.
Proof. induction fx as [|e fx IH]; [done|]. unfold results, applies in *. cbn. destruct e; cbn; congruence. Qed.

Lemma executed_le fx : length (executed fx) ≤ length (applied fx).
Proof. induction fx as [|e fx IH]; [done|]. unfold executed, applied in *. cbn. destruct e; cbn; lia. Qed.

Lemma applies_applied fx : length (executed fx) = length (applied fx) → applied fx = fst <$> applies fx.
Proof.
  induction fx as [|e fx IH]; [done|]. pose proof (executed_le fx) as Hle.
  unfold executed, applied, applies in *. cbn. destruct e; cbn; intros H; try (by apply IH).
  - f_equal. apply IH. lia.
  - lia.
Qed.

Lemma elem_of_applies fx i e r : EApply i e r ∈ fx → (i, e, r) ∈ applies fx.
Proof. intros H. apply list_elem_of_omap. by exists (EApply i e r). Qed.

Lemma applied_facts A s n (c : Core) i e r : cluster_ok members sm0 A s → nodes s !! n = Some c →
  inline c → EApply i e r ∈ fx_ c → apply_fact A i e r ∧ N.to_nat i ≤ a_commit A n.
Proof.
  intros H Hc Hk Hin. pose proof (cl_node _ _ _ _ H _ _ Hc) as Hok.
  destruct (ok_apply _ _ _ _ _ Hok) as [Hle Ha _ Hin' Hres]. specialize (Hin' Hk).
  set (k := N.to_nat (lastApplied_ c)) in *. set (l := a_log A n) in *.
  rewrite Ha, numbered_snd in Hin'. assert (applied (fx_ c) = fst <$> applies (fx_ c)) as Hap.
  { apply applies_applied. rewrite Ha, Hin'. unfold numbered. by rewrite length_imap. }
  apply elem_of_applies, list_elem_of_lookup in Hin as [j Hj].
  rewrite applies_results, Hin' in Hres.
  assert (numbered (take k l) !! j = Some (i, e)) as Hnum.
  { rewrite <-Ha, Hap, list_lookup_fmap, Hj. done. }
  apply (f_equal (lookup j)) in Hres. rewrite list_lookup_fmap, Hj in Hres. cbn in Hres.
  unfold numbered in Hnum. rewrite list_lookup_imap in Hnum. unfold outputs in Hres.
  rewrite list_lookup_imap in Hres. destruct (take k l !! j) as [e'|] eqn:Ee; [|done].
  cbn in Hnum, Hres. injection Hnum as <- ->. injection Hres as ->.
  apply lookup_take_Some in Ee as [Ee Hjk].
  assert (N.to_nat (N.of_nat (S j)) ≤ a_commit A n) as Hcm by (rewrite <-(ok_commit _ _ _ _ _ Hok); lia).
  split; [|done]. exists (a_term A n), l. split_and!.
  - by eapply covered_le; [apply (inv_commit _ _ (cl_inv _ _ _ _ H))|].
  - lia.
  - by replace (N.to_nat (N.of_nat (S j)) - 1) with j by lia.
  - replace (N.to_nat (N.of_nat (S j)) - 1) with j by lia. rewrite take_take, Nat.min_l by lia. done.
Qed.

(** ** The harness and the cluster *)

(** The nodes of the harness are the nodes of a cluster. *)
Record hrel (A : AState) (s : @Cluster P L SM R K) (h : Harness) : Prop := {
  hr_cluster : cluster_ok members sm0 A s;
  hr_mon : mon_ok A A (net s) h;
  hr_members : members = nodeIds (length (nodes_ h));
  hr_node k nd : nodes_ h !! k = Some nd →
    nr_id nd = N.of_nat (S k) ∧ nodes s !! nr_id nd = Some (core nd) ∧ inline (core nd);
  hr_opts : length (ho_nodes (opts_ h)) = length (nodes_ h) ∧
    Forall (λ nc, raft nc = cfg) (ho_nodes (opts_ h));
}.

(** What the relation reads of the nodes. *)
Definition skeleton (h : Harness) : list (N * Core) * HarnessOptions :=
  ((λ nd, (nr_id nd, core nd)) <$> nodes_ h, opts_ h).

Lemma hrel_frame A s h h' : hrel A s h → skeleton h' = skeleton h → mon_ok A A (net s) h' →
  hrel A s h'.
Proof.
  intros [Hc _ Hmem Hn Ho] E Hm. injection E as En Eo.
  assert (length (nodes_ h') = length (nodes_ h)) as El
    by (apply (f_equal length) in En; by rewrite !length_fmap in En).
  split; rewrite ?El, ?Eo; try done. intros k nd Hk.
  apply (f_equal (lookup k)) in En. rewrite !list_lookup_fmap, Hk in En.
  destruct (nodes_ h !! k) as [nd'|] eqn:Ek; [|done]. cbn in En. injection En as -> ->. by apply Hn.
Qed.

Lemma skeleton_update h id f : (∀ nd, nr_id (f nd) = nr_id nd ∧ core (f nd) = core nd) →
  skeleton (updateNode id f h) = skeleton h.
Proof.
  intros Hf. unfold skeleton, updateNode. cbn. f_equal. apply list_eq. intros k.
  rewrite !list_lookup_fmap. destruct (decide (k = slot id)) as [->|].
  - rewrite list_lookup_alter_eq. destruct (nodes_ h !! slot id) as [nd|]; [|done]. cbn.
    by destruct (Hf nd) as [-> ->].
  - by rewrite list_lookup_alter_ne by done.
Qed.

Lemma skeleton_trace h s : skeleton (traceEvent s h) = skeleton h.
Proof. unfold traceEvent. by destruct (recordTrace _). Qed.

Lemma skeleton_service h id f : skeleton (runService id f h) = skeleton h.
Proof.
  unfold runService. destruct (nodeAt id h) as [nd|]; [|done].
  etrans; [|apply (skeleton_update h id (set_service (f (service nd)))); done].
  generalize (updateNode id (set_service (f (service nd))) h). induction (drop _ _) as [|p l IH];
    intros h'; cbn [foldl]; [done|]. by rewrite IH.
Qed.

Lemma skeleton_effect id (p : Harness * list LogEntry) e : skeleton (onEffect id p e).1 = skeleton p.1.
Proof.
  destruct p as [h l], e; try done; cbn.
  - unfold onTransition. destruct (decide _); [|by rewrite skeleton_trace].
    etrans; [|apply skeleton_trace]. done.
  - unfold onApply. by rewrite skeleton_service, skeleton_trace.
Qed.

Lemma skeleton_effects id fx (p : Harness * list LogEntry) :
  skeleton (foldl (onEffect id) p fx).1 = skeleton p.1.
Proof.
  revert p. induction fx as [|e fx IH]; intros p; cbn [foldl]; [done|]. by rewrite IH, skeleton_effect.
Qed.

Lemma hr_at A s h k nd : hrel A s h → nodes_ h !! k = Some nd →
  slot (nr_id nd) = k ∧ nodeAt (nr_id nd) h = Some nd ∧ nr_id nd ∈ members.
Proof.
  intros H Hk. destruct (hr_node _ _ _ H k nd Hk) as (Hid&Hc&_).
  assert (slot (nr_id nd) = k) as Hs by (unfold slot; lia).
  split_and!; [done|unfold nodeAt; by rewrite Hs|]. by eapply (cl_dom _ _ _ _ (hr_cluster _ _ _ H)).
Qed.

(** Node [k] is replaced, in the harness and in the cluster. *)
Lemma hrel_replace A A' s h k nd nd' ps : hrel A s h → nodes_ h !! k = Some nd →
  nr_id nd' = nr_id nd → inline (core nd') → extends A A' →
  cluster_ok members sm0 A' (mkCluster (<[nr_id nd := core nd']> (nodes s)) (net s ++ ps)) →
  hrel A' (mkCluster (<[nr_id nd := core nd']> (nodes s)) (net s ++ ps))
    (updateNode (nr_id nd) (λ _, nd') h).
Proof.
  intros H Hk Hid Hin E Hc. destruct (hr_at _ _ _ _ _ H Hk) as (Hs&_&_).
  destruct H as [_ Hm Hmem Hn Ho]. unfold updateNode. rewrite Hs. split; cbn; rewrite ?length_alter; try done.
  - apply (mon_ok_frame _ _ _ h); try done. eapply mon_ok_ext; [done|done| |done].
    intros p Hp. apply elem_of_app. by left.
  - intros j nd1. destruct (decide (j = k)) as [->|Hj].
    + rewrite list_lookup_alter_eq, Hk. intros [= <-]. rewrite Hid, lookup_insert_eq.
      destruct (Hn k nd Hk) as (?&_). done.
    + rewrite list_lookup_alter_ne by done. intros Hj1. destruct (Hn j nd1 Hj1) as (Hid1&?&?).
      destruct (Hn k nd Hk) as (Hid2&_). rewrite lookup_insert_ne by (rewrite Hid1, Hid2; lia). done.
Qed.

(** A call of the core, callbacks included, is an event of the cluster; what it
    applies is then committed. *)
Lemma afterCall_sim A s h k nd now op c' : hrel A s h → nodes_ h !! k = Some nd →
  run_op s (nr_id nd) now op (core nd) = Some c' → inline c' →
  ∃ A' s' fx, hrel A' s' (afterCall (nr_id nd) c' h) ∧ extends A A' ∧
    fx_ c' = fx_ (core nd) ++ fx ∧ etrace members (nr_id nd) A (fx ≫= atomic) A' ∧
    (∀ i e r, EApply i e r ∈ fx → apply_fact A' i e r ∧ N.to_nat i ≤ a_commit A' (nr_id nd)).
Proof.
  intros H Hk Hrun Hin. set (id := nr_id nd). pose proof (hr_cluster _ _ _ H) as Hc.
  destruct (hr_node _ _ _ H k nd Hk) as (_&Hcore&_). destruct (hr_at _ _ _ _ _ H Hk) as (_&Hat&_).
  destruct (run_op_sim _ _ Hmembers A s id now op (core nd) c' Hc Hcore Hrun) as (A'&(fx&Hfx&Ht)&I'&Hok').
  pose proof (cl_inv _ _ _ _ Hc) as I.
  destruct (etrace_sound _ _ _ _ _ I Ht) as (_&E&O&_&Hps&Hne).
  assert (new_fx (core nd) c' = fx) as Hnew by (unfold new_fx; by rewrite Hfx, drop_app_length).
  set (s' := mkCluster (<[id := c']> (nodes s)) (net s ++ sends id fx)).
  assert (cluster_ok members sm0 A' s') as Hc'.
  { apply (cluster_ok_step members sm0 A); try done; [by eapply (cl_dom _ _ _ _ Hc)| |].
    - by rewrite <-sends_atomic.
    - rewrite Hfx. intros e [He|He]%elem_of_app; [by eapply (cl_errors _ _ _ _ Hc)|].
      by eapply errors_atomic. }
  assert (∀ i e r, EApply i e r ∈ fx → apply_fact A' i e r ∧ N.to_nat i ≤ a_commit A' id) as Hap.
  { intros i e r He. apply (applied_facts A' s' id c'); [done|apply lookup_insert_eq|done|].
    rewrite Hfx. apply elem_of_app. by right. }
  exists A', s', fx. split_and!; try done. unfold afterCall. fold id in Hat. rewrite Hat, Hnew.
  assert (updateNode id (set_core c') h = updateNode id (λ _, set_core c' nd) h) as ->.
  { unfold updateNode. f_equal. apply list_eq. intros j. destruct (decide (j = slot id)) as [->|].
    - rewrite !list_lookup_alter_eq. unfold nodeAt in Hat. by rewrite Hat.
    - by rewrite !list_lookup_alter_ne. }
  pose proof (hrel_replace A A' s h k nd (set_core c' nd) (sends id fx) H Hk eq_refl Hin E Hc') as Hrel.
  fold id in Hrel. eapply hrel_frame; [exact Hrel|apply skeleton_effects|].
  rewrite <-effects_atomic. eapply effects_ok; [exact Ht|done|done| | | |].
  - apply mon_ok_update. eapply mon_ok_ext; [apply extends_refl|exact E| |apply (hr_mon _ _ _ H)].
    intros p Hp. apply elem_of_app. by left.
  - apply (ok_log _ _ _ _ _ (cl_node _ _ _ _ Hc _ _ Hcore)).
  - intros i e r (e0&He&He0)%list_elem_of_bind. apply (Hap i).
    destruct e0; cbn in He; try (apply list_elem_of_singleton in He; by simplify_eq).
    apply list_elem_of_fmap in He as (?&?&_). done.
  - intros p. rewrite sends_atomic. intros Hp. apply elem_of_app. by right.
Qed.

Lemma afterCall_ok A s h k nd now op c' : hrel A s h → nodes_ h !! k = Some nd →
  run_op s (nr_id nd) now op (core nd) = Some c' → inline c' →
  ∃ A' s', hrel A' s' (afterCall (nr_id nd) c' h).
Proof. intros H Hk Hrun Hin. destruct (afterCall_sim A s h k nd now op c' H Hk Hrun Hin) as (A'&s'&_&?&_). eauto. Qed.

Lemma afterCall_same A s h k nd : hrel A s h → nodes_ h !! k = Some nd →
  hrel A s (afterCall (nr_id nd) (core nd) h).
Proof.
  intros H Hk. destruct (hr_at _ _ _ _ _ H Hk) as (Hs&Hat&_). unfold afterCall. rewrite Hat.
  unfold new_fx. rewrite drop_all. cbn [foldl fst].
  apply (hrel_frame A s h); [done| |apply mon_ok_update, (hr_mon _ _ _ H)].
  unfold skeleton, updateNode. cbn. f_equal. apply list_eq. intros j. rewrite !list_lookup_fmap.
  rewrite Hs. destruct (decide (j = k)) as [->|].
  - by rewrite list_lookup_alter_eq, Hk.
  - by rewrite list_lookup_alter_ne.
Qed.

(** ** Handling a message *)

Lemma handle_raft onClient now env env' m (c : Core) : (∀ r, m ≠ MClientRequest r) →
  env_from env = env_from env' → handle onClient now env m c = handle None now env' m c.
Proof. intros Hm E. unfold handle. rewrite E. destruct m; try done. by edestruct Hm. Qed.

Lemma onClientRequest_core now from req sv (c : Core) :
  let c' := (onClientRequest now from req sv c).2 in
  c' = c ∨ c' = (propose now (cr_command req) c).2 ∨ ∃ cmds, c' = (proposeBatch now cmds c).2.
Proof.
  cbv zeta. unfold onClientRequest. destruct (bool_decide _); [by left|].
  destruct (negb _); [by left|]. cbn [maxBatch]. destruct (1 <? _).
  - destruct (_ <=? _); [|by left]. unfold flushBatch. cbn [buffer_].
    destruct (buffer_ sv ++ _); [by left|]. right; right.
    match goal with |- context [proposeBatch now ?cmds c] => exists cmds end.
    by destruct (proposeBatch _ _ c) as [[first|] c'].
  - right; left. destruct (propose now _ c) as [[i|] c']; done.
Qed.

Lemma client_call A s h k nd now req from sv : hrel A s h → nodes_ h !! k = Some nd →
  ∃ A' s', hrel A' s' (afterCall (nr_id nd) (onClientRequest now from req sv (core nd)).2 h).
Proof.
  intros H Hk. destruct (hr_node _ _ _ H k nd Hk) as (_&_&Hin).
  destruct (onClientRequest_core now from req sv (core nd)) as [E|[E|[cmds E]]]; rewrite E.
  - exists A, s. by apply (afterCall_same A s h k).
  - eapply (afterCall_ok A s h k nd now (OpPropose (cr_command req))); [done..|by apply propose_inline].
  - eapply (afterCall_ok A s h k nd now (OpProposeBatch cmds)); [done..|by apply proposeBatch_inline].
Qed.

Lemma handleAt_client A s h k nd from req : hrel A s h → nodes_ h !! k = Some nd →
  ∃ A' s', hrel A' s' (handleAt (nr_id nd) from (nr_id nd) (MClientRequest req) h).
Proof.
  intros H Hk. destruct (hr_at _ _ _ _ _ H Hk) as (Hs&Hat&_). unfold handleAt. rewrite Hat.
  cbn [handle termOf]. set (sv := mkClientService _ _ _ _ _ _ _ _).
  set (h1 := updateNode (nr_id nd) (set_service sv) h).
  assert (hrel A s h1) as H1.
  { apply (hrel_frame A s h); [done|by apply skeleton_update|apply mon_ok_update, (hr_mon _ _ _ H)]. }
  assert (nodes_ h1 !! k = Some (set_service sv nd)) as Hk1.
  { subst h1. unfold updateNode. cbn. rewrite Hs. by rewrite list_lookup_alter_eq, Hk. }
  destruct (client_call A s h1 k (set_service sv nd) (clock h) req from (service nd) H1 Hk1)
    as (A'&s'&H').
  exists A', s'. eapply hrel_frame; [exact H'|apply skeleton_service|].
  apply mon_ok_service, (hr_mon _ _ _ H').
Qed.

Lemma handleAt_ok A s h k nd from m : hrel A s h → nodes_ h !! k = Some nd →
  wire_ok (net s) (mkWire from (nr_id nd) m) →
  ∃ A' s', hrel A' s' (handleAt (nr_id nd) from (nr_id nd) m h).
Proof.
  intros H Hk Hw. assert ((∃ r, m = MClientRequest r) ∨ ∀ r, m ≠ MClientRequest r) as [[req ->]|Hm]
    by (destruct m; eauto); [by apply (handleAt_client A s h k)|].
  destruct (hr_at _ _ _ _ _ H Hk) as (_&Hat&_). destruct (hr_node _ _ _ H k nd Hk) as (_&_&Hin).
  unfold handleAt. rewrite Hat. set (now := clock h).
  rewrite (handle_raft _ now (mkEnvelope kProtocolVersion (typeOf m) from (nr_id nd) 0)
    (envelope_for from (nr_id nd) m) m (core nd) Hm eq_refl).
  enough (∃ A' s', hrel A' s' (afterCall (nr_id nd)
    (handle None now (envelope_for from (nr_id nd) m) m (core nd)) h)) as Hgoal
    by (destruct m; try done; by edestruct Hm).
  destruct Hw as [[i Hi]%list_elem_of_lookup|[[req Hr]|[r Hr]]]; cbn [w_from w_to w_msg] in *.
  - eapply (afterCall_ok A s h k nd now (OpDeliver i)); [done|done| |by apply handle_inline].
    cbn. rewrite Hi. cbn. by rewrite N.eqb_refl.
  - by apply Hm in Hr.
  - subst m. exists A, s. by apply (afterCall_same A s h k).
Qed.

(** ** Time *)

Context (onDeliver : nat → NodeId → NodeId → Message → N → W → W * list (list byte)).

Local Abbreviation deliver := (deliver onDeliver).

Lemma hrel_trace A s h v : hrel A s h → hrel A s (traceEvent v h).
Proof.
  intros H. apply (hrel_frame A s h); [done|apply skeleton_trace|apply mon_ok_trace, (hr_mon _ _ _ H)].
Qed.

Lemma deliver_ok A s h from to m : hrel A s h → wire_ok (net s) (mkWire from to m) →
  ∃ A' s', hrel A' s' (deliver from to m h).
Proof.
  intros H Hw. unfold SimHarness.deliver. cbv zeta.
  match goal with |- context [traceEvent ?v h] => pose proof (hrel_trace A s h v H) as H1;
    generalize dependent (traceEvent v h) end.
  clear H h. intros h H. destruct (_ && _)%bool eqn:Eb.
  - apply andb_true_iff in Eb as [E1%N.leb_le E2%N.leb_le]. unfold nodeAt.
    destruct (nodes_ h !! slot to) as [nd|] eqn:Hk; [|by exists A, s].
    destruct (alive nd); [|by exists A, s].
    destruct (hr_node _ _ _ H _ _ Hk) as (Hid&_). assert (nr_id nd = to) as <- by (unfold slot in Hid; lia).
    by apply (handleAt_ok A s h (slot (nr_id nd))).
  - exists A, s. destruct (list_find _ _) as [[? ep]|]; [|done].
    destruct (onDeliver _ _ _ _ _ _) as [w lines].
    assert (hrel A s (set_world w h)) as H1.
    { apply (hrel_frame A s h); [done|done|]. apply (mon_ok_frame _ _ _ h); [apply (hr_mon _ _ _ H)|done..]. }
    revert H1. generalize (set_world w h). induction lines as [|v lines IH]; intros h' H'; cbn; [done|].
    by apply IH, hrel_trace.
Qed.

Lemma hrel_pop A s h p rest : hrel A s h → queue_ (net_ h) = p :: rest →
  hrel A s (set_net (set_queue rest (net_ h)) h).
Proof.
  intros H Hq. apply (hrel_frame A s h); [done|done|].
  destruct (hr_mon _ _ _ H) as [[Hs Hf] ? ? ? ? ?]. split; try done. rewrite Hq in Hs, Hf.
  split; cbn; [by apply om_ok_cons in Hs as [_ ?]|by apply Forall_cons in Hf as [_ ?]].
Qed.

Lemma deliverDue_ok fuel now h h' A s : hrel A s h →
  deliverDue net_ set_net deliver fuel now h = Some h' → ∃ A' s', hrel A' s' h'.
Proof.
  revert A s h. induction fuel as [|fuel IH]; intros A s h H; cbn [deliverDue]; [done|].
  destruct (queue_ (net_ h)) as [|[k w] rest] eqn:Hq; [intros [= <-]; by exists A, s|].
  destruct (_ <=? _)%N; [|intros [= <-]; by exists A, s].
  pose proof (hrel_pop A s h _ rest H Hq) as H1. unfold deliverFront. destruct (negb _).
  - by apply IH with A s.
  - destruct (deliver_ok A s _ (w_from w) (w_to w) (w_msg w) H1) as (A'&s'&H').
    { destruct (hr_mon _ _ _ H) as [[_ Hf] _ _ _ _ _]. rewrite Hq in Hf.
      apply Forall_cons in Hf as [Hw _]. by destruct w. }
    by apply IH with A' s'.
Qed.

(** No term is about to wrap. *)
Definition headroom (h : Harness) : Prop :=
  Forall (λ nd, (currentTerm (core nd) + 1 < two64)%N) (nodes_ h).

Lemma afterCall_others id c' (h : Harness) j : j ≠ slot id →
  core <$> nodes_ (afterCall id c' h) !! j = core <$> nodes_ h !! j.
Proof.
  intros Hj. unfold afterCall. destruct (nodeAt id h) as [nd|]; [|done].
  match goal with |- context [foldl (onEffect id) ?p ?fx] => pose proof (skeleton_effects id fx p) as E end.
  injection E as E _. apply (f_equal (lookup j)) in E. rewrite !list_lookup_fmap in E. cbn in E.
  rewrite list_lookup_alter_ne in E by done.
  destruct (nodes_ (foldl _ _ _).1 !! j), (nodes_ h !! j); cbn in *; congruence.
Qed.

Lemma ticks_ok ids A s h : hrel A s h → NoDup ids → Forall (λ id, (0 < id)%N) ids →
  (∀ id nd, id ∈ ids → nodes_ h !! slot id = Some nd → (currentTerm (core nd) + 1 < two64)%N) →
  ∃ A' s', hrel A' s' (foldl tickNode h ids).
Proof.
  revert A s h. induction ids as [|id ids IH]; intros A s h H Hnd Hpos Hroom; cbn [foldl]; [by exists A, s|].
  apply NoDup_cons in Hnd as [Hid Hnd]. apply Forall_cons in Hpos as [Hp Hpos].
  assert (∀ h', (∃ A' s', hrel A' s' h') →
    (∀ j, j ∈ ids → core <$> nodes_ h' !! slot j = core <$> nodes_ h !! slot j) →
    ∃ A' s', hrel A' s' (foldl tickNode h' ids)) as Hnext.
  { intros h' (A'&s'&H') Hsame. apply (IH A' s' h'); [done|done|done|].
    intros j nd Hj Hnj. specialize (Hsame j Hj). rewrite Hnj in Hsame. cbn in Hsame.
    destruct (nodes_ h !! slot j) as [nd'|] eqn:Ej; [|done]. injection Hsame as ->.
    apply (Hroom j); [by right|done]. }
  unfold tickNode, nodeAt. destruct (nodes_ h !! slot id) as [nd|] eqn:Hk;
    [|apply Hnext; [by exists A, s|done]].
  destruct (alive nd); [|apply Hnext; [by exists A, s|done]].
  destruct (hr_node _ _ _ H _ _ Hk) as (Eid&_&Hin).
  assert (nr_id nd = id) as Enid by (unfold slot in *; lia). apply Hnext.
  - rewrite <-Enid. apply (afterCall_ok A s h (slot id) nd (clock h) OpTick);
      [done|done| |by apply tick_inline].
    cbn. rewrite (proj2 (N.ltb_lt _ _)); [done|]. apply (Hroom id); [by left|done].
  - intros j Hj. apply afterCall_others. pose proof (proj1 (Forall_forall _ _) Hpos j Hj).
    unfold slot. intros E. assert (j = id) as -> by (cbn in *; lia). done.
Qed.

(** ** Observing a step *)

Lemma observe_baseline A s h k nd : hrel A s h → nodes_ h !! k = Some nd →
  hrel A s (set_appendOnly (observe (nr_id nd) (bool_decide (role_ (core nd) = Leader))
    (currentTerm (core nd)) (logImage (log_ (core nd))) (appendOnly_ h)) h).
Proof.
  intros H Hk. destruct (hr_node _ _ _ H k nd Hk) as (_&Hc&_).
  pose proof (cl_node _ _ _ _ (hr_cluster _ _ _ H) _ _ Hc) as Hok.
  apply (hrel_frame A s h); [done|done|]. destruct (hr_mon _ _ _ H) as [? ? (Hv&Hs&Hb) ? ? ?].
  split; try done. rewrite logImage_entries, (ok_log _ _ _ _ _ Hok), (ok_term _ _ _ _ _ Hok).
  fold (image (a_log A (nr_id nd))). case_bool_decide as Hr; split_and!; cbn [appendOnly_ set_appendOnly].
  - rewrite (ok_role _ _ _ _ _ Hok) in Hr.
    pose proof (inv_leader _ _ (cl_inv _ _ _ _ (hr_cluster _ _ _ H)) _ Hr) as He.
    rewrite (proj2 (observe_silent _ _ _ _)); [done|]. intros base Hf Ht.
    destruct (Hb _ _ Hf) as (l&l'&->&Hl'&Hp). rewrite Ht, He in Hl'. injection Hl' as <-.
    by apply image_prefix.
  - cbn. by apply om_insert_ok.
  - rewrite (ok_role _ _ _ _ _ Hok) in Hr.
    pose proof (inv_leader _ _ (cl_inv _ _ _ _ (hr_cluster _ _ _ H)) _ Hr) as He.
    intros m base. cbn. destruct (decide (m = nr_id nd)) as [->|Hm].
    + rewrite om_find_insert_eq. intros [= <-]. by exists (a_log A (nr_id nd)), (a_log A (nr_id nd)).
    + rewrite om_find_insert_ne by done. apply Hb.
  - done.
  - cbn. by apply om_erase_ok.
  - intros m base. cbn. destruct (decide (m = nr_id nd)) as [->|Hm].
    + by rewrite om_find_erase_eq.
    + rewrite om_find_erase_ne by done. apply Hb.
Qed.

Lemma length_image l : length (image l) = length l.
Proof. apply length_fmap. Qed.

Lemma image_take k l : take k (image l) = image (take k l).
Proof. symmetry. apply fmap_take. Qed.

Lemma covered_length A b l k : covered members A b l k → k ≤ length l.
Proof. intros [->|(t&i&_&_&_&(?&_))]; lia. Qed.

(** The record after observing a node that has committed [ci] entries. *)
Lemma committed_extend A n img : Inv members A → n ∈ members → committed_fact A img →
  let ci := a_commit A n in let log := image (a_log A n) in
  let img' := img ++ drop (length img) (take ci log) in
  committed_fact A img' ∧ take ci log = take ci img'.
Proof.
  intros I Hn (b&l&k&->&Hc&Hm) ci log img'. pose proof (inv_commit _ _ I n) as Hci. fold ci in Hci.
  pose proof (covered_length _ _ _ _ Hc) as Hk. pose proof (covered_length _ _ _ _ Hci) as Hl.
  assert (length (image (take k l)) = k) as Hlen by (rewrite length_image, length_take; lia).
  subst img' log. rewrite Hlen, image_take. destruct (decide (ci ≤ k)) as [Hle|Hgt].
  - rewrite drop_ge by (rewrite length_image, length_take; lia). rewrite app_nil_r. split.
    + by exists b, l, k.
    + rewrite image_take, take_take, Nat.min_l by lia. f_equal.
      by destruct (covered_agree _ _ I _ _ _ _ ci Hci (covered_le members A b l ci k Hc Hle)) as (_&_&->).
  - destruct (covered_agree _ _ I _ _ _ _ k Hc (covered_le members A _ _ k ci Hci ltac:(lia))) as (_&_&E).
    assert (image (take k l) ++ drop k (image (take ci (a_log A n))) = image (take ci (a_log A n))) as ->.
    { rewrite E. rewrite <-(take_take_le (a_log A n) k ci), <-image_take by lia. apply take_drop. }
    split.
    + exists (a_term A n), (a_log A n), ci. split_and!; [done|done|right]. by exists n.
    + by rewrite image_take, take_take, Nat.min_id.
Qed.

Lemma observe_committed A s h k nd : hrel A s h → nodes_ h !! k = Some nd →
  hrel A s (set_commit (observeCommit (nr_id nd) (commitIndex_ (core nd))
    (logImage (log_ (core nd))) (commit_ h)) h).
Proof.
  intros H Hk. destruct (hr_node _ _ _ H k nd Hk) as (_&Hc&_). pose proof (hr_cluster _ _ _ H) as Hcl.
  pose proof (cl_node _ _ _ _ Hcl _ _ Hc) as Hok. pose proof (cl_inv _ _ _ _ Hcl) as I.
  pose proof (cl_dom _ _ _ _ Hcl _ _ Hc) as Hmem. set (n := nr_id nd) in *.
  apply (hrel_frame A s h); [done|done|]. destruct (hr_mon _ _ _ H) as [? ? ? ? [Hf Hv] ?].
  split; try done. rewrite logImage_entries, (ok_log _ _ _ _ _ Hok). fold (image (a_log A n)).
  destruct (committed_extend A n (committed_ (commit_ h)) I Hmem Hf) as [Hf' Heq].
  pose proof (covered_length _ _ _ _ (inv_commit _ _ I n)) as Hl.
  pose proof (ok_commit _ _ _ _ _ Hok) as Eci.
  assert (observeCommit n (commitIndex_ (core nd)) (image (a_log A n)) (commit_ h) =
    mkCommitChecker (committed_ (commit_ h) ++ drop (length (committed_ (commit_ h)))
      (take (a_commit A n) (image (a_log A n)))) (cc_violations (commit_ h))) as Hobs.
  { unfold observeCommit. rewrite length_image, (proj2 (N.ltb_ge _ _)) by lia. rewrite Eci.
    rewrite (proj2 (firstDiff_take _ _ _)) by done. by rewrite app_nil_r. }
  rewrite Hobs. by split.
Qed.

Lemma observeNode_ok A s h k nd : hrel A s h → nodes_ h !! k = Some nd →
  hrel A s (observeNode h nd).
Proof.
  intros H Hk. unfold observeNode. destruct (alive nd); [|done].
  pose proof (observe_baseline A s h k nd H Hk) as H1. by apply (observe_committed A s _ k nd) in H1.
Qed.

Lemma nodes_observe (h : Harness) nd : nodes_ (observeNode h nd) = nodes_ h.
Proof. unfold observeNode. by destruct (alive nd). Qed.

Lemma liveLogs_elem (h : Harness) p : p ∈ liveLogs h →
  ∃ k nd, nodes_ h !! k = Some nd ∧ p.2 = logImage (log_ (core nd)).
Proof.
  intros Hp. unfold liveLogs in Hp. enough (∃ nd, nd ∈ nodes_ h ∧ p.2 = logImage (log_ (core nd)))
    as (nd&[k Hk]%list_elem_of_lookup&E) by (by exists k, nd).
  induction (nodes_ h) as [|nd l IH] using rev_ind; [by apply elem_of_nil in Hp|].
  rewrite foldl_app in Hp. cbn in Hp. destruct (alive nd).
  - apply om_insert_elem in Hp as [->|Hp].
    + exists nd. split; [apply elem_of_app; right; by apply list_elem_of_singleton|done].
    + destruct (IH Hp) as (nd'&?&?). exists nd'. split; [apply elem_of_app; by left|done].
  - destruct (IH Hp) as (nd'&?&?). exists nd'. split; [apply elem_of_app; by left|done].
Qed.

Lemma images_match_good A b1 b2 l1 l2 : Inv members A → good A b1 l1 → good A b2 l2 →
  images_match (image l1) (image l2).
Proof.
  intros I G1 G2 i H1 H2 Ht. rewrite !length_image in *. rewrite !image_take. f_equal.
  unfold image in Ht. rewrite !list_lookup_fmap in Ht.
  destruct (log_matching A b1 b2 l1 l2 (S i) G1 G2) as (_&_&E); try done; try lia. cbn.
  destruct (l1 !! i), (l2 !! i); cbn in Ht; congruence.
Qed.

Lemma finalCheck_ok A s h : hrel A s h → hrel A s (finalCheck h).
Proof.
  intros H. apply (hrel_frame A s h); [done|done|]. destruct (hr_mon _ _ _ H). split; try done.
  cbn. rewrite mo_sweep0. apply checkLogMatching_silent. intros a b Ha Hb.
  destruct (liveLogs_elem h a Ha) as (i&na&Hi&->). destruct (liveLogs_elem h b Hb) as (j&nb&Hj&->).
  destruct (hr_node _ _ _ H i na Hi) as (_&Hca&_). destruct (hr_node _ _ _ H j nb Hj) as (_&Hcb&_).
  pose proof (hr_cluster _ _ _ H) as Hcl. pose proof (cl_inv _ _ _ _ Hcl) as I.
  rewrite !logImage_entries, (ok_log _ _ _ _ _ (cl_node _ _ _ _ Hcl _ _ Hca)),
    (ok_log _ _ _ _ _ (cl_node _ _ _ _ Hcl _ _ Hcb)).
  eapply images_match_good; [done|apply (inv_log _ _ I)..].
Qed.

Lemma observeStep_ok A s h : hrel A s h → hrel A s (observeStep h).
Proof.
  intros H. unfold observeStep.
  assert (∀ l h', hrel A s h' → nodes_ h' = nodes_ h → (∀ nd, nd ∈ l → nd ∈ nodes_ h) →
    hrel A s (foldl observeNode h' l)) as Hfold.
  { induction l as [|nd l IH]; intros h' H' En Hl; cbn; [done|]. apply IH.
    - destruct (proj1 (list_elem_of_lookup (nodes_ h) nd) (Hl nd ltac:(by left))) as [k Hk].
      apply (observeNode_ok A s h' k nd); [done|by rewrite En].
    - by rewrite nodes_observe.
    - intros nd' Hin. apply Hl. by right. }
  specialize (Hfold (nodes_ h) h H eq_refl ltac:(done)). cbv zeta.
  destruct (_ <=? _)%Z; [|done]. apply finalCheck_ok.
  eapply hrel_frame; [exact Hfold|done|]. eapply mon_ok_frame; [apply (hr_mon _ _ _ Hfold)|done..].
Qed.

(** ** The operations of the harness *)

Context (storage_ : NodeId → nat → option (P * L) → P * L).
Context (smFactory_ : NodeId → SM) (seedRng : N → R) (seedNet : N → G).

(** A node's storage is empty at first and afterwards holds what its last
    process left, and all nodes start from the same state machine. *)
Context (storage_fresh : ∀ id, let pl := storage_ id 0 None in
  ps_currentTerm pl.1 = 0%N ∧ ps_votedFor pl.1 = None ∧ log_entries pl.2 = []).
Context (storage_reopen : ∀ id inc p l, let pl := storage_ id inc (Some (p, l)) in
  ps_currentTerm pl.1 = ps_currentTerm p ∧ ps_votedFor pl.1 = ps_votedFor p ∧
  log_entries pl.2 = log_entries l).
Context (smFactory_same : ∀ id, smFactory_ id = sm0).

Local Abbreviation restart := (restart storage_ smFactory_ seedRng).
Local Abbreviation SimHarness_new := (SimHarness_new (K:=K) (W:=W) storage_ smFactory_ seedRng seedNet).
Local Abbreviation stepMs := (stepMs onDeliver).

Inductive NetFault :=
| FDrop (p : double) | FLatency (min max : Duration) | FReorder (p : double) (extra : Duration)
| FPartition (groups : list (list NodeId)) | FIsolate (id : NodeId) | FHeal.

Definition netFault (f : NetFault) (n : SimNetwork G) : SimNetwork G :=
  match f with
  | FDrop p => setDrop p n
  | FLatency min max => setLatency min max n
  | FReorder p extra => setReorder p extra n
  | FPartition groups => partition groups n
  | FIsolate id => isolate id n
  | FHeal => heal n
  end.

(** What the driver may do between two steps, and the step; the clients' own
    state may change at any time.  The number counts milliseconds. *)
Inductive hstep (h : Harness) : nat → Harness → Prop :=
| hs_step fuel h' : stepMs fuel h = Some h' → hstep h 1 h'
| hs_crash id : hstep h 0 (crash id h)
| hs_restart id : (0 < id)%N → hstep h 0 (restart id h)
| hs_killLeader : hstep h 0 (killLeader h).2
| hs_net f : hstep h 0 (set_net (netFault f (net_ h)) h)
| hs_clientSend from to req : hstep h 0 (clientSend from to (MClientRequest req) h)
| hs_register low high fn : hstep h 0 (registerEndpoint low high fn h)
| hs_world w : hstep h 0 (set_world w h)
| hs_trace v : hstep h 0 (traceEvent v h)
| hs_finalCheck : hstep h 0 (finalCheck h).

Inductive hruns (h : Harness) : nat → Harness → Prop :=
| hruns_refl : hruns h 0 h
| hruns_next k d h1 h2 : hruns h k h1 → hstep h1 d h2 → hruns h (k + d) h2.

Lemma nodeIds_lookup n k id : nodeIds n !! k = Some id ↔ k < n ∧ id = N.of_nat (S k).
Proof.
  unfold nodeIds. rewrite list_lookup_fmap, fmap_Some. split.
  - intros (i&Hi&->). apply lookup_seq in Hi as [-> ?]. done.
  - intros [? ->]. exists (S k). split; [|done]. apply lookup_seq. lia.
Qed.

Lemma nodeIds_elem n id : id ∈ nodeIds n ↔ (0 < id)%N ∧ slot id < n.
Proof.
  rewrite list_elem_of_lookup. unfold slot. split.
  - intros [k [? ->]%nodeIds_lookup]. lia.
  - intros [? ?]. exists (N.to_nat id - 1). apply nodeIds_lookup. lia.
Qed.

Lemma nodeIds_NoDup n : NoDup (nodeIds n).
Proof. apply NoDup_fmap_2; [apply _|apply NoDup_seq]. Qed.

Lemma stepMs_ok A s h fuel h' : hrel A s h → headroom h → stepMs fuel h = Some h' →
  ∃ A' s', hrel A' s' h'.
Proof.
  intros H Hroom. unfold SimHarness.stepMs. cbv zeta. set (h1 := set_clock _ h).
  assert (hrel A s h1) as H1.
  { eapply hrel_frame; [exact H|done|]. eapply mon_ok_frame; [apply (hr_mon _ _ _ H)|done..]. }
  destruct (ticks_ok (nodeIds (length (nodes_ h1))) A s h1 H1) as (A2&s2&H2).
  { apply nodeIds_NoDup. }
  { apply Forall_forall. intros id Hid. by apply nodeIds_elem in Hid as [? _]. }
  { intros id nd _ Hk. exact (Forall_lookup_1 _ _ _ _ Hroom Hk). }
  intros (h3&Hd&[= <-])%bind_Some. destruct (deliverDue_ok _ _ _ _ _ _ H2 Hd) as (A3&s3&H3).
  exists A3, s3. by apply observeStep_ok.
Qed.

Lemma crash_ok A s h id : hrel A s h → hrel A s (crash id h).
Proof.
  intros H. apply hrel_trace. apply (hrel_frame A s h); [done|by apply skeleton_update|].
  apply mon_ok_update, (hr_mon _ _ _ H).
Qed.

Lemma buildNode_eq A s h k nd inc seed prev c sv : hrel A s h → nodes_ h !! k = Some nd →
  buildNode storage_ smFactory_ seedRng (opts_ h) (nr_id nd) inc seed prev = Some (c : Core, sv) →
  c = RaftCore_new (nr_id nd) (peers_of members (nr_id nd)) (storage_ (nr_id nd) inc prev).1
        (storage_ (nr_id nd) inc prev).2 sm0 (seedRng seed) cfg.
Proof.
  intros H Hk. unfold buildNode. intros (nc&Hnc&Hb)%bind_Some.
  destruct (storage_ (nr_id nd) inc prev) as [p l]. injection Hb as <- _. cbn [fst snd].
  destruct (hr_opts _ _ _ H) as [El Hcfg].
  assert (raft nc = cfg) as -> by exact (Forall_lookup_1 _ _ _ _ Hcfg Hnc).
  unfold peers_of. by rewrite (hr_members _ _ _ H), smFactory_same, El.
Qed.

(** A restart is a crash of the protocol's node, unless nothing happens. *)
Lemma restart_sim A s h id : hrel A s h → (0 < id)%N →
  ∃ A' s', hrel A' s' (restart id h) ∧ (A' = A ∨ A' = Crash id A).
Proof.
  intros H Hpos. unfold SimHarness.restart, nodeAt.
  destruct (nodes_ h !! slot id) as [nd|] eqn:Hk; [|by exists A, s; split; [|left]].
  destruct (alive nd); [by exists A, s; split; [|left]|]. cbv zeta.
  destruct (hr_node _ _ _ H _ _ Hk) as (Eid&Hc&_).
  assert (nr_id nd = id) as <- by (unfold slot in *; lia).
  destruct (buildNode _ _ _ _ _ _ _ _) as [[c sv]|] eqn:Eb; [|by exists A, s; split; [|left]].
  apply (buildNode_eq A s h _ nd _ _ _ _ _ H Hk) in Eb. set (inc := S (incarnation nd)) in *.
  destruct (storage_reopen (nr_id nd) inc (persist_ (core nd)) (log_ (core nd))) as (Et&Ev&El).
  destruct (storage_ _ _ _) as [p l]. cbn [fst snd] in *.
  match type of Eb with _ = RaftCore_new _ _ _ _ _ ?r _ => set (rng := r) in * end.
  set (b := mkBoot p l rng (None : option K) (clock h)).
  assert (start (clock h) c = boot members cfg sm0 (nr_id nd) b) as Hboot by (by rewrite Eb).
  pose proof (hr_cluster _ _ _ H) as Hcl. pose proof (cl_inv _ _ _ _ Hcl) as I.
  destruct (crash_inv members (nr_id nd) A I) as [E I'].
  assert (cluster_ok members sm0 (Crash (nr_id nd) A)
    (mkCluster (<[nr_id nd := start (clock h) c]> (nodes s)) (net s ++ []))) as Hc'.
  { apply (cluster_ok_step members sm0 A); try done; [apply crash_others|by eapply (cl_dom _ _ _ _ Hcl)| |].
    - rewrite Hboot. apply boot_node_ok; [by eapply (cl_dom _ _ _ _ Hcl)|].
      pose proof (cl_node _ _ _ _ Hcl _ _ Hc) as Hok. unfold a_durable, boot_durable. cbn.
      rewrite Et, Ev, El. unfold currentTerm, votedFor in *. destruct Hok. unfold currentTerm, votedFor in *. congruence.
    - rewrite Hboot. unfold boot, start. rewrite fx_timer. by intros e ?%elem_of_nil. }
  exists (Crash (nr_id nd) A). eexists. split; [|by right]. apply hrel_trace.
  eapply (hrel_replace A (Crash (nr_id nd) A) s h _ nd (mkNodeRt (nr_id nd) inc true (start (clock h) c) sv));
    [done|done|done| |done|exact Hc'].
  apply resetElectionTimer_inline. by rewrite Eb.
Qed.

Lemma restart_ok A s h id : hrel A s h → (0 < id)%N → ∃ A' s', hrel A' s' (restart id h).
Proof. intros H Hpos. destruct (restart_sim A s h id H Hpos) as (A'&s'&?&_). eauto. Qed.

Lemma hrel_net A s h n : hrel A s h → queue_ n = queue_ (net_ h) → hrel A s (set_net n h).
Proof.
  intros H Hq. apply (hrel_frame A s h); [done|done|].
  destruct (hr_mon _ _ _ H) as [[? ?] ? ? ? ? ?]. split; try done. split; cbn; by rewrite Hq.
Qed.

Lemma hstep_ok A s h d h' : hrel A s h → (d ≠ 0 → headroom h) → hstep h d h' →
  ∃ A' s', hrel A' s' h'.
Proof.
  intros H Hroom Hst. destruct Hst as [fuel h' Hs|id|id Hpos| |f|from to req|low high fn|w|v|].
  - eapply stepMs_ok; [done|by apply Hroom|done].
  - exists A, s. by apply crash_ok.
  - by apply (restart_ok A s).
  - exists A, s. unfold killLeader. destruct (foldl _ _ _).1; [by apply crash_ok|done].
  - exists A, s. apply hrel_net; [done|]. by destruct f.
  - exists A, s. apply (hrel_frame A s h); [done|done|]. apply mon_ok_send; [apply (hr_mon _ _ _ H)|].
    right; left. by eexists.
  - exists A, s. apply (hrel_frame A s h); [done|done|]. eapply mon_ok_frame; [apply (hr_mon _ _ _ H)|done..].
  - exists A, s. apply (hrel_frame A s h); [done|done|]. eapply mon_ok_frame; [apply (hr_mon _ _ _ H)|done..].
  - exists A, s. by apply hrel_trace.
  - exists A, s. by apply finalCheck_ok.
Qed.

(** ** Terms stay small *)

Definition nodes_le (B : N) (h : Harness) : Prop := Forall (λ nd, bounded B (core nd)) (nodes_ h).

Definition wires_le (B : N) (h : Harness) : Prop :=
  Forall (λ p, term_le B (w_msg p.2)) (queue_ (net_ h)).

Lemma nodes_le_skeleton B h h' : skeleton h' = skeleton h → nodes_le B h → nodes_le B h'.
Proof.
  intros E H. injection E as E _. apply Forall_lookup. intros k nd Hk.
  apply (f_equal (lookup k)) in E. rewrite !list_lookup_fmap, Hk in E.
  destruct (nodes_ h !! k) as [nd'|] eqn:Ek; [|done]. injection E as _ ->.
  exact (Forall_lookup_1 _ _ _ _ H Ek).
Qed.

Lemma nodes_le_replace B h id nd' : nodes_le B h → bounded B (core nd') →
  nodes_le B (updateNode id (λ _, nd') h).
Proof.
  intros H Hc. apply Forall_lookup. intros k nd. cbn. destruct (decide (k = slot id)) as [->|].
  - rewrite list_lookup_alter_eq. destruct (nodes_ h !! slot id); [|done]. by intros [= <-].
  - rewrite list_lookup_alter_ne by done. intros Hk. exact (Forall_lookup_1 _ _ _ _ H Hk).
Qed.

Lemma wires_le_mono B B' h : (B ≤ B')%N → wires_le B h → wires_le B' h.
Proof.
  intros HB H. eapply Forall_impl; [exact H|]. intros p. unfold term_le. destruct (termOf _); [lia|done].
Qed.

Lemma nodes_le_mono B B' h : (B ≤ B')%N → nodes_le B h → nodes_le B' h.
Proof. intros HB H. eapply Forall_impl; [exact H|]. intros nd. by apply bounded_mono. Qed.

Lemma wires_le_send B h from to m : wires_le B h → term_le B m → wires_le B (netSend from to m h).
Proof.
  intros H Hm. apply Forall_forall. intros p Hp. apply send_elem in Hp as [Hp|[-> _]]; [|done].
  by eapply (proj1 (Forall_forall _ _) H).
Qed.

Lemma wires_le_frame B (h h' : Harness) : net_ h' = net_ h → wires_le B h → wires_le B h'.
Proof. unfold wires_le. by intros ->. Qed.

Lemma wires_le_trace B h v : wires_le B h → wires_le B (traceEvent v h).
Proof. apply wires_le_frame. unfold traceEvent. by destruct (recordTrace _). Qed.

Lemma wires_le_service B h id f : wires_le B h → wires_le B (runService id f h).
Proof.
  intros H. unfold runService. destruct (nodeAt id h) as [nd|]; [|done].
  assert (wires_le B (updateNode id (set_service (f (service nd))) h)) as H1 by done.
  revert H1. generalize (updateNode id (set_service (f (service nd))) h).
  induction (drop _ _) as [|p l IH]; intros h' H'; cbn [foldl]; [done|]. by apply IH, wires_le_send.
Qed.

Lemma wires_le_effect B id (p : Harness * list LogEntry) e :
  wires_le B p.1 → fx_le B e → wires_le B (onEffect id p e).1.
Proof.
  destruct p as [h l], e; cbn; try done; intros H He.
  - by apply wires_le_send.
  - unfold onTransition. destruct (decide _); by apply (wires_le_trace B h).
  - unfold onApply. apply wires_le_service, wires_le_trace. done.
Qed.

Lemma afterCall_le B id c' h : nodes_le B h → wires_le B h → bounded B c' →
  nodes_le B (afterCall id c' h) ∧ wires_le B (afterCall id c' h).
Proof.
  intros Hn Hw Hc. unfold afterCall. destruct (nodeAt id h) as [nd|] eqn:Hat; [|done]. split.
  - eapply nodes_le_skeleton; [apply skeleton_effects|]. cbn [fst].
    replace (updateNode id (set_core c') h) with (updateNode id (λ _, set_core c' nd) h);
      [by apply nodes_le_replace|].
    unfold updateNode. f_equal. apply list_eq. intros j. destruct (decide (j = slot id)) as [->|].
    + rewrite !list_lookup_alter_eq. unfold nodeAt in Hat. by rewrite Hat.
    + by rewrite !list_lookup_alter_ne.
  - assert (Forall (fx_le B) (new_fx (core nd) c')) as Hf by (apply Forall_drop, Hc).
    assert (wires_le B (updateNode id (set_core c') h)) as H1 by done.
    revert H1. generalize (updateNode id (set_core c') h) (log_entries (log_ (core nd))).
    induction Hf as [|e fx He _ IH]; intros h' l H'; [done|]. cbn [foldl].
    pose proof (wires_le_effect B id (h', l) e H' He) as H2.
    destruct (onEffect id (h', l) e) as [h2 l2]. by apply IH.
Qed.

Lemma onClientRequest_bounded B now from req sv (c : Core) :
  bounded B c → bounded B (onClientRequest now from req sv c).2.
Proof.
  intros Hc. destruct (onClientRequest_core now from req sv c) as [->|[->|[cmds ->]]];
    [done|by apply propose_bounded|by apply proposeBatch_bounded].
Qed.

Lemma handleAt_le B id from to m h : nodes_le B h → wires_le B h → term_le B m →
  nodes_le B (handleAt id from to m h) ∧ wires_le B (handleAt id from to m h).
Proof.
  intros Hn Hw Hm. unfold handleAt. destruct (nodeAt id h) as [nd|] eqn:Hat; [|done]. cbv zeta.
  match goal with |- context [handle ?f ?now ?env m ?c] => assert (bounded B (handle f now env m c)) as Hc end.
  { apply handle_bounded; [|done|exact (Forall_lookup_1 _ _ _ _ Hn Hat)].
    intros f [= <-] from' r c. apply onClientRequest_bounded. }
  destruct m; try by apply afterCall_le.
  match goal with |- context [updateNode id (set_service ?sv) h] => set (h1 := updateNode id (set_service sv) h) end.
  destruct (afterCall_le B id _ h1 (nodes_le_skeleton B h h1 (skeleton_update h id (set_service _) ltac:(done)) Hn) Hw Hc) as [H2 H3].
  split; [|by apply wires_le_service]. eapply nodes_le_skeleton; [apply skeleton_service|done].
Qed.

Lemma deliver_le B from to m h : nodes_le B h → wires_le B h → term_le B m →
  nodes_le B (deliver from to m h) ∧ wires_le B (deliver from to m h).
Proof.
  intros Hn Hw Hm. unfold SimHarness.deliver. cbv zeta.
  match goal with |- context [traceEvent ?v h] =>
    pose proof (nodes_le_skeleton B _ _ (skeleton_trace h v) Hn) as Hn1;
    pose proof (wires_le_trace B h v Hw) as Hw1; generalize dependent (traceEvent v h) end.
  clear Hn Hw h. intros h Hn Hw. destruct (_ && _)%bool.
  - destruct (nodeAt to h) as [nd|]; [|done]. destruct (alive nd); [by apply handleAt_le|done].
  - destruct (list_find _ _) as [[? ep]|]; [|done]. destruct (onDeliver _ _ _ _ _ _) as [w lines].
    assert (nodes_le B (set_world w h) ∧ wires_le B (set_world w h)) as H1 by done.
    revert H1. generalize (set_world w h). induction lines as [|v lines IH]; intros h' [H1 H2]; cbn; [done|].
    apply IH. split; [eapply nodes_le_skeleton; [apply skeleton_trace|done]|by apply wires_le_trace].
Qed.

Lemma deliverDue_le B fuel now h h' : nodes_le B h → wires_le B h →
  deliverDue net_ set_net deliver fuel now h = Some h' → nodes_le B h' ∧ wires_le B h'.
Proof.
  revert h. induction fuel as [|fuel IH]; intros h Hn Hw; cbn [deliverDue]; [done|].
  destruct (queue_ (net_ h)) as [|[k w] rest] eqn:Hq; [by intros [= <-]|].
  destruct (_ <=? _)%N; [|by intros [= <-]]. unfold wires_le in Hw. rewrite Hq in Hw.
  apply Forall_cons in Hw as [Hw Hrest]. unfold deliverFront. destruct (negb _); [by apply IH|].
  destruct (deliver_le B (w_from w) (w_to w) (w_msg w) (set_net (set_queue rest (net_ h)) h)) as [H1 H2];
    [done|done|done|]. by apply IH.
Qed.

(** Each node is ticked once. *)
Lemma ticks_le B ids h : NoDup (slot <$> ids) → (B + 1 < two64)%N →
  nodes_le (B + 1) h → wires_le (B + 1) h →
  (∀ id nd, id ∈ ids → nodes_ h !! slot id = Some nd → bounded B (core nd)) →
  nodes_le (B + 1) (foldl tickNode h ids) ∧ wires_le (B + 1) (foldl tickNode h ids).
Proof.
  intros Hnd Hw. revert h. induction ids as [|id ids IH]; intros h Hn Hq Hb; cbn [foldl]; [done|].
  apply NoDup_cons in Hnd as [Hid Hnd]. specialize (IH Hnd).
  unfold tickNode at 2 4. unfold nodeAt. destruct (nodes_ h !! slot id) as [nd|] eqn:Hk;
    [|apply IH; [done|done|intros; eapply Hb; [by right|done]]].
  destruct (alive nd); [|apply IH; [done|done|intros; eapply Hb; [by right|done]]].
  pose proof (Hb id nd ltac:(by left) Hk) as Hbnd.
  destruct (afterCall_le (B + 1) id (tick (clock h) (core nd)) h Hn Hq) as [H1 H2].
  { apply tick_bounded; [|done]. destruct Hbnd. lia. }
  apply IH; [done|done|]. intros j nd' Hj Hnd'. pose proof (afterCall_others id (tick (clock h) (core nd)) h (slot j)) as E.
  rewrite Hnd' in E. assert (slot j ≠ slot id) as Hne.
  { intros Es. apply Hid. rewrite <-Es. by apply list_elem_of_fmap_2. }
  specialize (E Hne). destruct (nodes_ h !! slot j) as [nd2|] eqn:Ej; [|done]. injection E as ->.
  apply (Hb j nd2); [by right|done].
Qed.

Lemma nodeIds_slots n : NoDup (slot <$> nodeIds n).
Proof.
  apply NoDup_fmap_2_strong; [|apply nodeIds_NoDup].
  intros a b [Ha _]%nodeIds_elem [Hb _]%nodeIds_elem. unfold slot. lia.
Qed.

Lemma nodes_observeStep h : skeleton (observeStep h) = skeleton h ∧ net_ (observeStep h) = net_ h.
Proof.
  unfold observeStep. assert (∀ l (h : Harness), skeleton (foldl observeNode h l) = skeleton h ∧
    net_ (foldl observeNode h l) = net_ h) as Hl.
  { clear h. induction l as [|nd l IH]; intros h; cbn [foldl]; [done|].
    destruct (IH (observeNode h nd)) as [-> ->]. unfold observeNode. by destruct (alive nd). }
  cbv zeta. destruct (_ <=? _)%Z; apply Hl.
Qed.

Lemma stepMs_le B fuel h h' : nodes_le B h → wires_le B h → (B + 1 < two64)%N →
  stepMs fuel h = Some h' → nodes_le (B + 1) h' ∧ wires_le (B + 1) h'.
Proof.
  intros Hn Hw HB. unfold SimHarness.stepMs. cbv zeta. set (h1 := set_clock _ h).
  destruct (ticks_le B (nodeIds (length (nodes_ h1))) h1) as [H1 H2].
  { apply nodeIds_slots. }
  { done. }
  { apply (nodes_le_mono B); [lia|done]. }
  { apply (wires_le_mono B); [lia|done]. }
  { intros id nd _ Hk. exact (Forall_lookup_1 _ _ _ _ Hn Hk). }
  intros (h3&Hd&[= <-])%bind_Some. destruct (deliverDue_le _ _ _ _ _ H1 H2 Hd) as [H3 H4].
  destruct (nodes_observeStep h3) as [Es En].
  split; [by eapply nodes_le_skeleton|by eapply wires_le_frame].
Qed.

Lemma restart_le B h id : nodes_le B h → nodes_le B (restart id h) ∧ net_ (restart id h) = net_ h.
Proof.
  intros Hn. unfold SimHarness.restart. unfold nodeAt.
  destruct (nodes_ h !! slot id) as [nd|] eqn:Hk; [|done]. destruct (alive nd); [done|]. cbv zeta.
  destruct (buildNode _ _ _ _ _ _ _ _) as [[c sv]|] eqn:Eb; [|done].
  pose proof (Forall_lookup_1 _ _ _ _ Hn Hk) as [Ht _]. cbn in Ht.
  assert (bounded B (start (clock h) c)) as Hc.
  { apply resetElectionTimer_bounded. unfold buildNode in Eb. apply bind_Some in Eb as (nc&_&Eb).
    destruct (storage_reopen id (S (incarnation nd)) (persist_ (core nd)) (log_ (core nd))) as (Et&_).
    destruct (storage_ _ _ _) as [p l]. injection Eb as <- _. split; [|done].
    unfold currentTerm in *. cbn in *. by rewrite Et. }
  match goal with |- context [updateNode id (λ _, ?nd') h] =>
    pose proof (nodes_le_replace B h id nd' Hn Hc) as H1 end.
  unfold traceEvent. by destruct (recordTrace _).
Qed.

Lemma crash_frame h id : skeleton (crash id h) = skeleton h ∧ net_ (crash id h) = net_ h.
Proof.
  unfold crash. cbv zeta. split.
  - rewrite skeleton_trace. by apply skeleton_update.
  - unfold traceEvent. by destruct (recordTrace _).
Qed.

Lemma hstep_le B h d h' : nodes_le B h → wires_le B h → (B + N.of_nat d < two64)%N → hstep h d h' →
  nodes_le (B + N.of_nat d) h' ∧ wires_le (B + N.of_nat d) h'.
Proof.
  intros Hn Hw HB Hst. destruct Hst as [fuel h' Hs|id|id Hpos| |f|from to req|low high fn|w|v|];
    rewrite ?N.add_0_r.
  - by eapply stepMs_le.
  - destruct (crash_frame h id) as [E1 E2]. split; [by eapply nodes_le_skeleton|by eapply wires_le_frame].
  - destruct (restart_le B h id Hn) as [? E]. split; [done|by eapply wires_le_frame].
  - unfold killLeader. destruct (foldl _ _ _).1 as [v|]; [|done]. cbn [snd].
    destruct (crash_frame h v) as [E1 E2]. split; [by eapply nodes_le_skeleton|by eapply wires_le_frame].
  - split; [done|]. unfold wires_le in *. by destruct f.
  - split; [done|]. by apply wires_le_send.
  - done.
  - done.
  - split; [by eapply nodes_le_skeleton; [apply skeleton_trace|]|by apply wires_le_trace].
  - done.
Qed.

(** ** The start *)

Lemma omap_Forall2 {X Y} (f : X → option Y) (l : list X) : (∀ x, x ∈ l → is_Some (f x)) →
  Forall2 (λ x y, f x = Some y) l (omap f l).
Proof.
  induction l as [|x l IH]; intros H; cbn; [constructor|].
  destruct (H x) as [y Hy]; [by left|]. rewrite Hy. constructor; [done|]. apply IH. intros; apply H. by right.
Qed.

(** The reports of a harness in step with the cluster. *)
Lemma violations_late A s h : hrel A s h →
  Forall (λ v, ∃ n t text nd, v = format (winText n t ++ text) ∧
    nd ∈ nodes_ h ∧ (t < currentTerm (core nd))%N) (violations h).
Proof.
  intros H. destruct (hr_mon _ _ _ H) as [_ [Hes _] (Hao&_) [Hac _] [_ Hcc] Hsw].
  unfold violations. rewrite Hes, Hao, Hac, Hsw, app_nil_r. cbn [app].
  eapply Forall_impl; [exact Hcc|]. intros v (n&t&text&m&Hv&Hm&Ht).
  rewrite (hr_members _ _ _ H) in Hm. apply nodeIds_elem in Hm as [Hpos Hm].
  destruct (lookup_lt_is_Some_2 _ _ Hm) as [nd Hk]. destruct (hr_node _ _ _ H _ _ Hk) as (Hid&Hc&_).
  assert (nr_id nd = m) as <- by (unfold slot in *; lia).
  exists n, t, text, nd. split_and!; [done|by eapply list_elem_of_lookup_2|].
  by rewrite (ok_term _ _ _ _ _ (cl_node _ _ _ _ (hr_cluster _ _ _ H) _ _ Hc)).
Qed.

Section Start.
Context (opts : HarnessOptions) (w : W).
Context (Hopts : members = nodeIds (length (ho_nodes opts))).
Context (Hcfg : Forall (λ nc, raft nc = cfg) (ho_nodes opts)).

Lemma new_nodes k nd : nodes_ (SimHarness_new opts w) !! k = Some nd →
  nr_id nd = N.of_nat (S k) ∧ nr_id nd ∈ members ∧
  ∃ b, boot_durable b = (0%N, None, []) ∧ b_sink b = None ∧ core nd = boot members cfg sm0 (nr_id nd) b.
Proof.
  cbn. intros Hk. assert (Forall2 (λ id nd, firstNode (K:=K) storage_ smFactory_ seedRng opts id = Some nd)
    (nodeIds (length (ho_nodes opts))) (omap (firstNode (K:=K) storage_ smFactory_ seedRng opts)
    (nodeIds (length (ho_nodes opts))))) as HF.
  { apply omap_Forall2. intros id [_ Hid]%nodeIds_elem. unfold firstNode, buildNode.
    destruct (lookup_lt_is_Some_2 (ho_nodes opts) (slot id) Hid) as [nc ->]. cbn.
    by destruct (storage_ id 0 None). }
  destruct (Forall2_lookup_r _ _ _ _ _ HF Hk) as (id&Hid&Hf). pose proof Hid as Hid2.
  apply nodeIds_lookup in Hid as [Hkn ->]. unfold firstNode, buildNode in Hf.
  apply bind_Some in Hf as (nc&Hnc&Hf). rewrite Hnc in Hf. cbn [mbind option_bind] in Hf.
  destruct (storage_fresh (N.of_nat (S k))) as (Et&Ev&El).
  destruct (storage_ (N.of_nat (S k)) 0 None) as [p l]. cbn in Hf, Et, Ev, El. injection Hf as <-.
  split_and!; [done|rewrite Hopts; by eapply list_elem_of_lookup_2|].
  exists (mkBoot p l (seedRng (rngSeed nc)) None 0%N). split_and!; [|done|].
  - unfold boot_durable. cbn. by rewrite Et, Ev, El.
  - assert (raft nc = cfg) as -> by exact (Forall_lookup_1 _ _ _ _ Hcfg Hnc).
    rewrite smFactory_same. unfold boot, peers_of. by rewrite Hopts.
Qed.

Lemma new_length : length (nodes_ (SimHarness_new opts w)) = length (ho_nodes opts).
Proof.
  cbn. transitivity (length (nodeIds (length (ho_nodes opts))));
    [|unfold nodeIds; by rewrite length_fmap, length_seq].
  symmetry. apply (Forall2_length (λ id nd, firstNode (K:=K) storage_ smFactory_ seedRng opts id = Some nd)).
  apply omap_Forall2. intros id [_ Hid]%nodeIds_elem. unfold firstNode, buildNode.
  destruct (lookup_lt_is_Some_2 (ho_nodes opts) (slot id) Hid) as [nc ->]. cbn.
  by destruct (storage_ id 0 None).
Qed.

Lemma harness_new_ok : ∃ s, hrel A_init s (SimHarness_new opts w).
Proof.
  set (h := SimHarness_new opts w). set (ps := (λ nd, (nr_id nd, core nd)) <$> nodes_ h).
  assert (ps.*1 = members) as Hfst.
  { subst ps. rewrite <-list_fmap_compose. apply list_eq. intros k. rewrite list_lookup_fmap, Hopts.
    destruct (nodes_ h !! k) as [nd|] eqn:Hk.
    - destruct (new_nodes k nd Hk) as (Hid&_). cbn. symmetry. apply nodeIds_lookup. split; [|done].
      apply lookup_lt_Some in Hk. subst h. by rewrite new_length in Hk.
    - cbn. symmetry. apply lookup_ge_None. apply lookup_ge_None in Hk. subst h. rewrite new_length in Hk.
      unfold nodeIds. by rewrite length_fmap, length_seq. }
  set (s := mkCluster (list_to_map ps) []).
  assert (∀ n c, nodes s !! n = Some c ↔ ∃ k nd, nodes_ h !! k = Some nd ∧ n = nr_id nd ∧ c = core nd) as Hs.
  { intros n c. unfold s. cbn [nodes].
    rewrite <-elem_of_list_to_map by (rewrite Hfst; exact Hmembers). subst ps.
    rewrite list_elem_of_fmap. split.
    - intros (nd&[= -> ->]&[k Hk]%list_elem_of_lookup). by exists k, nd.
    - intros (k&nd&Hk&->&->). exists nd. split; [done|]. by eapply list_elem_of_lookup_2. }
  assert (initial members cfg sm0 s) as Hi.
  { split_and!; [done| |].
    - unfold s. cbn [nodes]. rewrite dom_list_to_map_L. by rewrite Hfst.
    - intros n c (k&nd&Hk&->&->)%Hs. destruct (new_nodes k nd Hk) as (_&_&b&Hb&_&->). by exists b. }
  exists s. split.
  - by apply (initial_ok members cfg sm0).
  - split; try done; [split; [constructor|done]| | |].
    + split; [done|]. exists []. split; [split|by intros ?? ?%elem_of_nil].
      * constructor.
      * intros t n. cbn. split; [by intros []|by intros ?%elem_of_nil].
    + split_and!; [done|constructor|done].
    + split; [|done]. exists 0%N, [], 0. split_and!; [done|by left|by left].
  - subst h. by rewrite new_length.
  - intros k nd Hk. destruct (new_nodes k nd Hk) as (Hid&_&b&_&Hsink&Hcore). split_and!; [done| |].
    + apply Hs. by exists k, nd.
    + rewrite Hcore. apply resetElectionTimer_inline. done.
  - subst h. by rewrite new_length.
Qed.

Lemma harness_run_ok k h : hruns (SimHarness_new opts w) k h → (N.of_nat k < two64)%N →
  (∃ A s, hrel A s h) ∧ nodes_le (N.of_nat k) h ∧ wires_le (N.of_nat k) h.
Proof.
  induction 1 as [|k d h1 h2 Hr IH Hst]; intros Hk.
  - destruct harness_new_ok as [s0 H0]. split; [by exists A_init, s0|]. split; [|constructor].
    apply Forall_lookup. intros k nd Hnd. destruct (new_nodes k nd Hnd) as (_&_&b&Hb&_&->).
    apply resetElectionTimer_bounded. unfold boot_durable in Hb. split; [|constructor].
    unfold currentTerm. cbn. injection Hb as -> _ _. done.
  - destruct IH as ((A&s&H)&Hn&Hw); [lia|]. rewrite Nat2N.inj_add in Hk |- *.
    split; [|by eapply hstep_le]. eapply hstep_ok; [exact H| |exact Hst].
    intros Hd. eapply Forall_impl; [exact Hn|]. intros nd [Ht _]. lia.
Qed.

(** C8: the monitors are silent on the real code.  Whatever the driver does -
    drops, delays, reorders, partitions, crashes, restarts from what storage
    kept, client traffic - in fewer than 2^64 milliseconds, the Election Safety,
    Leader Append-Only, State Machine Safety (results included) and Log Matching
    monitors and the committed-record monitor never report anything; a Leader
    Completeness report can only name an election won in a term that some node
    has already left behind. *)
Theorem monitors_silent k h : hruns (SimHarness_new opts w) k h → (N.of_nat k < two64)%N →
  Forall (λ v, ∃ n t text nd, v = format (winText n t ++ text) ∧
    nd ∈ nodes_ h ∧ (t < currentTerm (core nd))%N) (violations h).
Proof. intros Hr Hk. destruct (harness_run_ok k h Hr Hk) as ((A&s&H)&_). exact (violations_late A s h H). Qed.

End Start.

End HarnessSafety.

(** ** A false alarm

    Three nodes.  Node 1 stands in term 1 and node 2 votes for it, but the vote is
    delayed by 30 ms.  Meanwhile node 3, which cannot reach node 1,
    stands in term 2, is elected by node 2 and commits a client's command.  Then
    the old vote reaches node 1: it is, rightly, the leader of term 1 (no other
    node won that term), and the monitor reports a violation. *)
Module FalseAlarm.

Export RaftNode.Sample.

(** The timeouts each node draws, by its seed. *)
Definition script (seed : N) : list N :=
  (match seed with 1 => [3; 60] | 3 => [4; 3] | _ => [] end)%N.

#[export] Instance script_rng : Rng (list N) := λ r lo hi,
  match r with [] => (hi, []) | x :: r => (N.max lo (N.min hi x), r) end.

#[export] Instance word_engine : Engine N := λ g, (g mod two64, g + 1)%N.

Abbreviation MemHarness :=
  (@SimHarness InMemoryPersistentState InMemoryLog (list Command) (list N) unit N unit).

(** Storage that keeps what it was given. *)
Definition keep (id : NodeId) (inc : nat) (prev : option (InMemoryPersistentState * InMemoryLog)) :
    InMemoryPersistentState * InMemoryLog :=
  default (mkPersist 0 None, mkInMemoryLog []) prev.

Definition fastConfig : RaftConfig := mkConfig 3 60 2.

Definition opts : HarnessOptions :=
  mkHarnessOptions ((λ s, mkSimNodeConfig s fastConfig) <$> [1; 2; 3]%N) 0 25 false None.

Definition ignore (k : nat) (from to : NodeId) (m : Message) (now : N) (w : unit) :
    unit * list (list byte) := (w, []).

Definition start0 : MemHarness := SimHarness_new keep (λ _, []) script id opts ().

(** A driver's script. *)
Inductive Cmd := Steps (n : nat) | Net (f : NetFault) | Ask (to : NodeId) (req : ClientRequest).

Fixpoint steps (n : nat) (h : MemHarness) : option MemHarness :=
  match n with
  | O => Some h
  | S n => h ← stepMs ignore 100 h; steps n h
  end.

Definition obey (h : MemHarness) (c : Cmd) : option MemHarness :=
  match c with
  | Steps n => steps n h
  | Net f => Some (set_net (netFault f (net_ h)) h)
  | Ask to req => Some (clientSend 1000 to (MClientRequest req) h)
  end.

Fixpoint drive (cs : list Cmd) (h : MemHarness) : option MemHarness :=
  match cs with [] => Some h | c :: cs => h ← obey h c; drive cs h end.

Definition request : ClientRequest := mkClientRequest 1 1 (le_bytes 8 1 ++ le_bytes 8 1).

Definition story : list Cmd :=
  [Net (FPartition [[1; 2]; [3]]); Steps 3;           (* node 1 stands in term 1 *)
   Net (FLatency 30 30); Steps 1;                     (* node 2's vote takes 30 ms *)
   Net (FLatency 1 1); Net (FPartition [[1]; [2; 3]]);
   Steps 6;                                           (* node 3 is elected in term 2 *)
   Ask 3 request; Steps 6;                            (* and commits *)
   Net (FPartition [[1; 2]; [3]]); Steps 20]%N.       (* the old vote arrives *)

Definition ending : MemHarness := default start0 (drive story start0).

Abbreviation runs := (hruns ignore keep (λ _, []) script).

Lemma steps_run h0 n k h h' : runs h0 k h → steps n h = Some h' → runs h0 (k + n) h'.
Proof.
  revert k h. induction n as [|n IH]; intros k h Hr; cbn [steps].
  { intros [= <-]. by rewrite Nat.add_0_r. }
  intros (h1&Hs&Hn)%bind_Some. replace (k + S n) with (k + 1 + n) by lia. eapply IH; [|done].
  eapply hruns_next; [done|]. by eapply hs_step.
Qed.

Fixpoint duration (cs : list Cmd) : nat :=
  match cs with [] => 0 | Steps n :: cs => n + duration cs | _ :: cs => duration cs end.

Lemma drive_run h0 cs k h h' : runs h0 k h → drive cs h = Some h' → runs h0 (k + duration cs) h'.
Proof.
  revert k h. induction cs as [|c cs IH]; intros k h Hr; cbn [drive duration].
  { intros [= <-]. by rewrite Nat.add_0_r. }
  intros (h1&Hc&Hcs)%bind_Some. destruct c as [n|f|to req]; cbn in Hc.
  - replace (k + (n + duration cs)) with (k + n + duration cs) by lia.
    eapply IH; [|done]. by eapply steps_run.
  - injection Hc as <-. apply (IH k) in Hcs; [done|]. rewrite <-(Nat.add_0_r k).
    eapply hruns_next; [done|]. apply hs_net.
  - injection Hc as <-. apply (IH k) in Hcs; [done|]. rewrite <-(Nat.add_0_r k).
    eapply hruns_next; [done|]. apply hs_clientSend.
Qed.

Lemma ending_reached : drive story start0 = Some ending.
Proof.
  assert (match drive story start0 with Some _ => true | None => false end = true) as H
    by (vm_compute; reflexivity).
  unfold ending. revert H. generalize (drive story start0). intros [h|]; [reflexivity|discriminate].
Qed.

(** The Leader Completeness monitor can raise a false alarm.  There is a run
    of three correct nodes in which it reports node 1, elected in term 1, for
    missing an entry that was committed in term 2. *)
Theorem completeness_false_alarm :
  runs start0 36 ending ∧
  violations ending = [format (winText 1 1 ++ str "with only 0 entries but 1 are committed")].
Proof. split; [exact (drive_run start0 story 0 _ _ (hruns_refl _ _ _ _ _) ending_reached)|vm_compute; reflexivity]. Qed.

Lemma monitors_silent_witness :
  Forall (λ v, ∃ n t text nd, v = format (winText n t ++ text) ∧
    nd ∈ nodes_ ending ∧ (t < currentTerm (core nd))%N) (violations ending).
Proof.
  apply (monitors_silent [1; 2; 3]%N ltac:(apply (bool_decide_unpack _); by vm_compute) fastConfig []
    ignore keep (λ _, []) script id ltac:(done) ltac:(done) ltac:(done) opts ()) with 36.
  - reflexivity.
  - repeat constructor.
  - exact (drive_run start0 story 0 _ _ (hruns_refl _ _ _ _ _) ending_reached).
  - reflexivity.
Defined.

End FalseAlarm.
