(* ===== verification/HarnessProgress.v ===== *)
(** * Progress of the simulation harness

    A step of the harness ends: everything a node or a client does while the due
    messages are drained is to send, and what is sent falls due later.  The step
    delivers exactly what was due. *)

From Stdlib Require Import NArith ZArith Strings.Byte Lia.
From S2P Require Import Prelude Messages Log RaftCore Cluster OrdMap Text ClientService.
From S2P Require Import Checkers SimNetwork SimHarness HarnessSafety.

Local Open Scope N_scope.

Section HarnessProgress.
Context {P L SM R K G W : Type}.
Context `{!PersistentState P} `{!RaftLog L} `{!StateMachine SM} `{!Rng R} `{!ApplySink K}.
Context `{!Engine G}.
Context (onDeliver : nat → NodeId → NodeId → Message → N → W → W * list (list byte)).

Local Abbreviation Core := (@RaftCore P L SM R K).
Local Abbreviation Harness := (@SimHarness P L SM R K G W).
Local Abbreviation deliver := (deliver onDeliver).

(** ** Only sends *)

Definition sent_at (now : TimePoint) (n n' : SimNetwork G) : Prop :=
  ∃ from to m, n' = SimNetwork.send from to m now n.

Definition called_at (now : TimePoint) (w w' : W) : Prop :=
  ∃ k from to m, w' = (onDeliver k from to m (now / 1000000) w).1.

(** From [h] to [h'] the clock stands still, the network only takes sends and the
    clients only take messages. *)
Definition only_sends (h h' : Harness) : Prop :=
  clock h' = clock h ∧ length (nodes_ h') = length (nodes_ h) ∧
  rtc (sent_at (clock h)) (net_ h) (net_ h') ∧ rtc (called_at (clock h)) (world_ h) (world_ h').

#[local] Instance only_sends_preorder : PreOrder only_sends.
Proof.
  split; [by intros h|]. intros h1 h2 h3 (E1&L1&R1&W1) (E2&L2&R2&W2).
  rewrite E1 in R2, W2. split_and!; [congruence|congruence|by etrans|by etrans].
Qed.

Lemma only_sends_frame (h h' : Harness) :
  clock h' = clock h → length (nodes_ h') = length (nodes_ h) → net_ h' = net_ h →
  world_ h' = world_ h → only_sends h h'.
Proof. intros ? ? E E'. split_and!; [done|done|by rewrite E|by rewrite E']. Qed.

Lemma only_sends_trace v (h : Harness) : only_sends h (traceEvent v h).
Proof. unfold traceEvent. destruct (recordTrace _); by apply only_sends_frame. Qed.

Lemma only_sends_update id f (h : Harness) : only_sends h (updateNode id f h).
Proof. apply only_sends_frame; [done| |done|done]. apply length_alter. Qed.

Lemma only_sends_send from to m (h : Harness) : only_sends h (netSend from to m h).
Proof. split_and!; [done|done| |done]. apply rtc_once. by exists from, to, m. Qed.

Lemma only_sends_fold {X} (f : Harness → X → Harness) l h :
  (∀ h x, only_sends h (f h x)) → only_sends h (foldl f h l).
Proof. intros Hf. revert h. induction l as [|x l IH]; intros h; cbn; [done|].
  etrans; [apply Hf|apply IH]. Qed.

Lemma only_sends_service id f (h : Harness) : only_sends h (runService id f h).
Proof.
  unfold runService. destruct (nodeAt id h) as [nd|]; [|done]. etrans; [apply only_sends_update|].
  apply only_sends_fold. intros. apply only_sends_send.
Qed.

Lemma only_sends_effect id (p : Harness * list LogEntry) e : only_sends p.1 (onEffect id p e).1.
Proof.
  destruct p as [h l], e; try done; cbn.
  - apply only_sends_send.
  - unfold onTransition. etrans; [apply only_sends_trace|]. destruct (decide _); [|done].
    by apply only_sends_frame.
  - unfold onApply. etrans; [|apply only_sends_service]. etrans; [|apply only_sends_trace].
    by apply only_sends_frame.
Qed.

Lemma only_sends_call id (c' : Core) (h : Harness) : only_sends h (afterCall id c' h).
Proof.
  unfold afterCall. destruct (nodeAt id h) as [nd|]; [|done].
  etrans; [apply (only_sends_update id (set_core c'))|].
  generalize (updateNode id (set_core c') h) (log_entries (log_ (core nd))).
  induction (new_fx (core nd) c') as [|e fx IH]; intros h' l; [done|]. cbn [foldl].
  etrans; [apply (only_sends_effect id (h', l) e)|]. destruct (onEffect id (h', l) e). apply IH.
Qed.

Lemma only_sends_handle id from to m (h : Harness) : only_sends h (handleAt id from to m h).
Proof.
  unfold handleAt. destruct (nodeAt id h) as [nd|]; [|done].
  destruct m; try apply only_sends_call. etrans; [|apply only_sends_service].
  etrans; [|apply only_sends_call]. apply only_sends_update.
Qed.

Lemma only_sends_call_client now (h : Harness) w : called_at now (world_ h) w → now = clock h →
  only_sends h (set_world w h).
Proof. intros Hw ->. split_and!; [done|done|done|]. by apply rtc_once. Qed.

Lemma only_sends_deliver from to m (h : Harness) : only_sends h (deliver from to m h).
Proof.
  unfold SimHarness.deliver. cbv zeta.
  match goal with |- context [traceEvent ?v h] => etrans; [apply (only_sends_trace v)|];
    generalize (traceEvent v h) end. clear h. intros h.
  destruct (_ && _).
  - destruct (nodeAt to h) as [nd|]; [|done]. destruct (alive nd); [apply only_sends_handle|done].
  - destruct (list_find _ _) as [[? ep]|]; [|done].
    destruct (onDeliver _ _ _ _ _ _) as [w lines] eqn:E. etrans; [apply (only_sends_call_client (clock h) h w); [|done]|].
    { exists (ep_fn ep), from, to, m. unfold nowMs in E. by rewrite E. }
    apply only_sends_fold. intros. apply only_sends_trace.
Qed.

Lemma only_sends_tick (h : Harness) id : only_sends h (tickNode h id).
Proof.
  unfold tickNode. destruct (nodeAt id h) as [nd|]; [|done].
  destruct (alive nd); [apply only_sends_call|done].
Qed.

(** ** A step ends *)

(** Messages take at least a millisecond. *)
Definition delayed (h : Harness) : Prop :=
  om_ok (queue_ (net_ h)) ∧ 0 < latencyMin_ (net_ h).

Lemma only_sends_due (h h' : Harness) : only_sends h h' → delayed h →
  delayed h' ∧ due (clock h) (queue_ (net_ h')) = due (clock h) (queue_ (net_ h)).
Proof.
  intros (_&_&Hr&_). unfold delayed. induction Hr as [|n1 n2 n3 (from&to&m&->) _ IH]; [done|].
  intros [Hs Hl]. destruct IH as [? E].
  - split; [by apply send_queue_ok|].
    by destruct (send_settings from to m (clock h) n1) as (_&_&_&->&_).
  - split; [done|]. by rewrite E, due_send.
Qed.

Lemma length_due now (q : list ((N * N) * Wire)) : (length (due now q) ≤ length q)%nat.
Proof. apply length_filter. Qed.

Lemma observeStep_frame (h : Harness) : net_ (observeStep h) = net_ h ∧
  clock (observeStep h) = clock h ∧ world_ (observeStep h) = world_ h.
Proof.
  unfold observeStep. assert (∀ l (h : Harness), let h' := foldl observeNode h l in
    net_ h' = net_ h ∧ clock h' = clock h ∧ world_ h' = world_ h) as Hl.
  { clear h. induction l as [|nd l IH]; intros h; cbn [foldl]; [done|].
    destruct (IH (observeNode h nd)) as (->&->&->). unfold observeNode. by destruct (alive nd). }
  cbv zeta. destruct (_ <=? _)%Z; apply Hl.
Qed.

(** The queue after the ticks of a step. *)
Definition ticked (h : Harness) : Harness :=
  let h := set_clock (after (clock h) 1) h in
  foldl tickNode h (nodeIds (length (nodes_ h))).

Lemma ticked_sends (h : Harness) : only_sends (set_clock (after (clock h) 1) h) (ticked h).
Proof. unfold ticked. apply only_sends_fold. intros. apply only_sends_tick. Qed.

(** A step ends with nothing left that is due, and reaches the clients only
    through the messages it delivers, at the new time. *)
Lemma stepMs_drains fuel (h : Harness) : delayed h → (inFlight (net_ h) < fuel)%nat →
  ∃ h', stepMs onDeliver fuel h = Some h' ∧ delayed h' ∧
    due (clock h') (queue_ (net_ h')) = [] ∧ clock h' = after (clock h) 1 ∧
    rtc (called_at (clock h')) (world_ h) (world_ h').
Proof.
  intros Hd Hf. destruct (only_sends_due _ _ (ticked_sends h) Hd) as [Hd1 Edue].
  destruct (ticked_sends h) as (Eclk&_&_&Ew). cbn [clock set_clock net_ world_] in Eclk, Edue, Ew.
  assert (stepMs onDeliver fuel h = h1 ← deliverDue net_ set_net deliver fuel (clock (ticked h)) (ticked h);
    Some (observeStep h1)) as -> by done.
  rewrite Eclk. set (h1 := ticked h) in *. set (now := after (clock h) 1) in *.
  destruct (deliverDue_exact net_ set_net deliver now (λ h2, (delayed h2 ∧ clock h2 = now) ∧
    rtc (called_at now) (world_ h1) (world_ h2))) with (fuel := fuel) (st := h1) as (->&[[Hd2 Hc2] Hw2]&E2).
  - done.
  - by intros ? [[[? _] _] _].
  - intros st p rest [[[Hs Hl] Hc] Hw] Hq. split; [split; [|done]|done]. split; [|done]. cbn.
    rewrite Hq in Hs. by apply om_ok_cons in Hs as [_ ?].
  - intros from to m st [[Hst Hc] Hw]. pose proof (only_sends_deliver from to m st) as Ho.
    destruct (only_sends_due _ _ Ho Hst) as [? _]. destruct Ho as (E&_&_&Hw').
    split; [split; [done|congruence]|]. rewrite Hc in Hw'. by etrans.
  - intros from to m st [[Hst Hc] _]. pose proof (only_sends_deliver from to m st) as Ho.
    destruct (only_sends_due _ _ Ho Hst) as [_ E]. by rewrite Hc in E.
  - done.
  - rewrite Edue. eapply Nat.le_lt_trans; [apply length_due|done].
  - eexists. split; [reflexivity|]. unfold delayed.
    match goal with |- context [observeStep ?x] => destruct (observeStep_frame x) as (->&->&->) end.
    rewrite Hc2. split_and!; [apply Hd2|apply Hd2|done|done|by etrans].
Qed.

(** A step that ends takes a millisecond. *)
Lemma stepMs_clock fuel (h h' : Harness) : stepMs onDeliver fuel h = Some h' → clock h' = after (clock h) 1.
Proof.
  destruct (ticked_sends h) as (Eclk&_). cbn [clock set_clock] in Eclk. rewrite <-Eclk.
  change (stepMs onDeliver fuel h) with (h1 ← deliverDue net_ set_net deliver fuel (clock (ticked h)) (ticked h);
    Some (observeStep h1)).
  enough (∀ now (h : Harness), (h1 ← deliverDue net_ set_net deliver fuel now h; Some (observeStep h1)) = Some h' →
    clock h' = clock h) as Hgoal by apply Hgoal.
  clear h Eclk. intros now h (h1&Hd&[= <-])%bind_Some. destruct (observeStep_frame h1) as (_&->&_). revert h Hd.
  induction fuel as [|fuel IH]; intros h; cbn [deliverDue]; [done|].
  destruct (queue_ (net_ h)) as [|[k w] rest]; [by intros [= <-]|]. destruct (_ <=? _); [|by intros [= <-]].
  intros ->%IH. unfold deliverFront. destruct (negb _); [done|].
  match goal with |- clock (deliver ?f ?t ?m ?x) = _ => destruct (only_sends_deliver f t m x) as (->&_) end. done.
Qed.

(** Running the simulation ends.  When messages take at least a millisecond,
    [runUntil] never hangs in a step, whatever the nodes and clients send
    meanwhile: it stops at the first millisecond at which the predicate holds, or
    after [maxMs] of them, and answers whether it holds then; delays are still at
    least a millisecond, so the simulation can go on. *)
Theorem runUntil_ends maxMs pred (h : Harness) : delayed h →
  ∃ b h' k, runUntil onDeliver maxMs pred h = Some (b, h') ∧ b = pred h' ∧ delayed h' ∧
    (k ≤ maxMs)%nat ∧ clock h' = after (clock h) (N.of_nat k) ∧ (b = false → k = maxMs).
Proof.
  revert h. induction maxMs as [|n IH]; intros h Hd; cbn [runUntil].
  { exists (pred h), h, O. split_and!; try done. unfold after. lia. }
  destruct (pred h) eqn:Hp.
  { exists true, h, O. split_and!; try done; [lia|]. unfold after. lia. }
  destruct (stepMs_drains (S (inFlight (net_ h))) h Hd) as (h1&E&Hd1&_&Hc&_); [lia|].
  unfold stepMs_. rewrite E. cbn [mbind option_bind].
  destruct (IH h1 Hd1) as (b&h2&k&->&Hb&Hd2&Hk&Hc2&Hf). exists b, h2, (S k).
  split_and!; try done; [lia| |intros ?; f_equal; by apply Hf]. rewrite Hc2, Hc. unfold after. lia.
Qed.

End HarnessProgress.

Module StepSample.

Import FalseAlarm.

(** Ten milliseconds, or less if a node has been elected. *)
Lemma runUntil_ends_witness :
  ∃ b h' k, runUntil ignore 10 converged start0 = Some (b, h') ∧ b = converged h' ∧ delayed h' ∧
    (k ≤ 10)%nat ∧ clock h' = after 0 (N.of_nat k) ∧ (b = false → k = 10%nat).
Proof.
  apply (runUntil_ends ignore 10 converged start0). split; [constructor|vm_compute; reflexivity].
Defined.

End StepSample.
