(* ===== verification/HarnessClients.v ===== *)
(** * Requests and answers in the simulation harness

    What the clients of the harness may rely on.  Every request on the wire, in a
    pending table or in a log was sent by a client; an OK answer on the wire
    answers a request that was sent from the address it goes to, with the result of
    a committed entry of that request's identity.  The relation between the
    harness and the cluster is the one of HarnessSafety.v.

    The clients themselves are a parameter: an invariant of their state that the
    delivery of such messages keeps. *)

From Stdlib Require Import NArith ZArith Strings.Byte Lia.
From stdpp Require Import functions.
From S2P Require Import Prelude Messages Codec Log RaftCore RaftNode RaftSpec RaftInv Cluster RaftRefine RaftSafety.
From S2P Require Import Text OrdMap ClientService Checkers SimNetwork Sink SimHarness HarnessSafety Provenance.

Local Open Scope nat_scope.

(** ** Requests sent, as address, target and request *)

Abbreviation Sent := (list (NodeId * NodeId * ClientRequest)).

(** [cmd] is the command of a well-formed request. *)
Definition proposed (S : Sent) (cmd : Command) : Prop :=
  ∃ from to req, (from, to, req) ∈ S ∧ cr_command req = cmd ∧
    decodePrefix cmd = Some (cr_clientId req, cr_seqNo req).

Lemma proposed_mono S S' cmd : S ⊆ S' → proposed S cmd → proposed S' cmd.
Proof. intros Hs (from&to&req&Hin&?). exists from, to, req. split; [by apply Hs|done]. Qed.

(** A pending entry of node [n] is for a request sent to it. *)
Definition asked_by (S : Sent) (n : NodeId) (p : Pending) : Prop :=
  ∃ req, (p_replyTo p, n, req) ∈ S ∧ cr_clientId req = p_clientId p ∧ cr_seqNo req = p_seqNo p.

Definition service_ok (S : Sent) (n : NodeId) (sv : ClientService) : Prop :=
  batching_ sv = mkBatching 1 0 ∧ ∀ p, waiting (pending_ sv) p → asked_by S n p.

Lemma service_new S n : service_ok S n (ClientService_new (mkBatching 1 0)).
Proof.
  split; [done|]. intros p (sl&Hin&Hu&_). cbn in Hin. unfold PendingTable_new in Hin.
  apply elem_of_replicate in Hin as [-> _]. done.
Qed.

Lemma service_mono S S' n sv : S ⊆ S' → service_ok S n sv → service_ok S' n sv.
Proof.
  intros Hs [Hb Hw]. split; [done|]. intros p Hp. destruct (Hw p Hp) as (req&?&?). exists req.
  split; [by apply Hs|done].
Qed.

Section HarnessClients.
Context {P L SM R K G W : Type}.
Context `{!PersistentState P} `{!RaftLog L} `{!StateMachine SM} `{!Rng R} `{!ApplySink K}.
Context `{!Engine G} `{!PersistentStateLaws P} `{!RaftLogLaws L}.
Context (members : list N) (Hmembers : NoDup members).
Context (cfg : RaftConfig) (sm0 : SM).

Local Abbreviation Core := (@RaftCore P L SM R K).
Local Abbreviation Harness := (@SimHarness P L SM R K G W).
Local Abbreviation hrel := (@hrel P L SM R K G W _ _ _ members cfg sm0).
Local Abbreviation apply_fact := (apply_fact members sm0).

(** Operations that count as old: nothing is said about where their entries are
    still known to be committed.  A restarted node has forgotten that. *)
Context (old : N * N → Prop).

(** An answer from node [n] to the address [to]. *)
Definition reply_fact (A : AState) (S : Sent) (n to : NodeId) (res : list byte) : Prop :=
  ∃ req i e, (to, n, req) ∈ S ∧ apply_fact A i e res ∧
    decodePrefix (e_command e) = Some (cr_clientId req, cr_seqNo req) ∧
    (old (cr_clientId req, cr_seqNo req) ∨ n ∈ members ∧ N.to_nat i ≤ a_commit A n).

(** Later states of the protocol. *)
Definition later (A A' : AState) : Prop :=
  extends A A' ∧ ((∀ k, old k) ∨ ∀ n, a_commit A n ≤ a_commit A' n).

Lemma later_refl A : later A A.
Proof. split; [apply extends_refl|by right]. Qed.

Definition msg_fact (A : AState) (S : Sent) (from to : NodeId) (m : Message) : Prop :=
  match m with
  | MClientRequest req => (from, to, req) ∈ S
  | MClientReply r => crp_status r = CsOk → reply_fact A S from to (crp_result r)
  | _ => True
  end.

Lemma msg_fact_ext A A' S S' from to m : later A A' → S ⊆ S' → msg_fact A S from to m →
  msg_fact A' S' from to m.
Proof.
  intros [E Hc] Hs. destruct m; cbn; try done; [by intros ?%Hs|].
  intros H Hok. destruct (H Hok) as (req&i&e&?&?&?&Ho). exists req, i, e.
  split_and!; [by apply Hs|by eapply apply_fact_ext|done|].
  destruct Hc as [Hc|Hc]; [by left|]. destruct Ho as [Ho|[Hn Ho]]; [by left|right].
  split; [done|]. etrans; [exact Ho|apply Hc].
Qed.

(** ** What holds of the services and of the wire *)

Record traffic (A : AState) (S : Sent) (h : Harness) : Prop := {
  tr_queue : Forall (λ p, msg_fact A S (w_from p.2) (w_to p.2) (w_msg p.2)) (queue_ (net_ h));
  tr_service : Forall (λ nd, service_ok S (nr_id nd) (service nd)) (nodes_ h);
}.

Lemma traffic_ext A A' S S' h : later A A' → S ⊆ S' → traffic A S h → traffic A' S' h.
Proof.
  intros E Hs [Hq Hv]. split.
  - eapply Forall_impl; [exact Hq|]. intros p. by apply msg_fact_ext.
  - eapply Forall_impl; [exact Hv|]. intros nd. by apply service_mono.
Qed.

Lemma traffic_frame A S h h' : traffic A S h → net_ h' = net_ h →
  (λ nd, (nr_id nd, service nd)) <$> nodes_ h' = (λ nd, (nr_id nd, service nd)) <$> nodes_ h →
  traffic A S h'.
Proof.
  intros [Hq Hv] En Es. split; [by rewrite En|].
  assert (Forall (λ p, service_ok S p.1 p.2) ((λ nd, (nr_id nd, service nd)) <$> nodes_ h')) as H
    by (rewrite Es; by apply Forall_fmap). by apply Forall_fmap in H.
Qed.

Lemma traffic_trace A S h v : traffic A S h → traffic A S (traceEvent v h).
Proof. intros H. unfold traceEvent. destruct (recordTrace _); [|done]. by apply (traffic_frame A S h). Qed.

Lemma traffic_send A S h from to m : traffic A S h → msg_fact A S from to m →
  traffic A S (netSend from to m h).
Proof.
  intros [Hq Hv] Hm. split; [|done]. apply Forall_forall. intros p Hp.
  apply send_elem in Hp as [Hp|[-> _]]; [|done]. by eapply (proj1 (Forall_forall _ _) Hq).
Qed.

Lemma traffic_update A S h id f : traffic A S h →
  (∀ nd, nodeAt id h = Some nd → service_ok S (nr_id nd) (service nd) →
    service_ok S (nr_id (f nd)) (service (f nd))) → traffic A S (updateNode id f h).
Proof.
  intros [Hq Hv] Hf. split; [done|]. apply Forall_lookup. intros k nd. cbn.
  destruct (decide (k = slot id)) as [->|].
  - rewrite list_lookup_alter_eq. unfold nodeAt in Hf. destruct (nodes_ h !! slot id) as [nd0|] eqn:Ek; [|done].
    intros [= <-]. apply Hf; [done|]. exact (Forall_lookup_1 _ _ _ _ Hv Ek).
  - rewrite list_lookup_alter_ne by done. apply (Forall_lookup_1 _ _ _ _ Hv).
Qed.

(** Running the service: its new state, and what it answered. *)
Lemma traffic_service A S h id f : traffic A S h →
  (∀ nd, nodeAt id h = Some nd → service_ok S (nr_id nd) (service nd) →
    service_ok S (nr_id nd) (f (service nd)) ∧
    ∃ new, sent_ (f (service nd)) = sent_ (service nd) ++ new ∧
      Forall (λ p, crp_status p.2 = CsOk → reply_fact A S id p.1 (crp_result p.2)) new) →
  traffic A S (runService id f h).
Proof.
  intros H Hf. unfold runService. destruct (nodeAt id h) as [nd|] eqn:Hat; [|done].
  assert (service_ok S (nr_id nd) (service nd)) as Hsv by exact (Forall_lookup_1 _ _ _ _ (tr_service _ _ _ H) Hat).
  destruct (Hf nd eq_refl Hsv) as (Hok&new&Enew&Hnew). cbv zeta. rewrite Enew, drop_app_length.
  assert (traffic A S (updateNode id (set_service (f (service nd))) h)) as H1.
  { apply traffic_update; [done|]. intros nd' Hnd' _. rewrite Hat in Hnd'. by injection Hnd' as <-. }
  revert H1. generalize (updateNode id (set_service (f (service nd))) h). clear -Hnew.
  induction Hnew as [|p l Hp _ IH]; intros h' H'; cbn [foldl]; [done|]. apply IH.
  by apply traffic_send.
Qed.

(** ** Answering an apply *)

Lemma onApplied_traffic A S n i e r sv : service_ok S n sv → apply_fact A i e r →
  n ∈ members ∧ N.to_nat i ≤ a_commit A n →
  service_ok S n (onApplied n i e r sv) ∧
  ∃ new, sent_ (onApplied n i e r sv) = sent_ sv ++ new ∧
    Forall (λ p, crp_status p.2 = CsOk → reply_fact A S n p.1 (crp_result p.2)) new.
Proof.
  intros [Hb Hw] Hf Hcm. unfold onApplied. destruct (take_ i (pending_ sv)) as [[p t]|] eqn:Et;
    [|split; [done|exists []; by rewrite app_nil_r]].
  apply take_waiting in Et as [Hp Hsub].
  assert (∀ q, waiting t q → asked_by S n q) as Ht by (intros q Hq; by apply Hw, Hsub).
  destruct (negb _) eqn:Esame; cbn [reply sent_ set_pending].
  - split; [by split|]. eexists. split; [done|]. by repeat constructor.
  - split; [by split|]. eexists. split; [done|]. constructor; [|constructor]. intros _. cbn.
    destruct (Hw p Hp) as (req&Hin&Ec&Es). exists req, i, e. split_and!; [done|done| |by right].
    destruct (decodePrefix (e_command e)) as [[cl sq]|]; [|done].
    apply negb_false_iff, andb_true_iff in Esame as [->%N.eqb_eq ->%N.eqb_eq]. by rewrite Ec, Es.
Qed.

(** ** The effects of a call *)

Lemma effects_traffic A S id fx (p : Harness * list LogEntry) : traffic A S p.1 →
  (∀ nd, nodeAt id p.1 = Some nd → nr_id nd = id) →
  Forall (λ e, match e with
               | ESend _ m => raft_message m
               | EApply i e r => apply_fact A i e r ∧ id ∈ members ∧ N.to_nat i ≤ a_commit A id
               | _ => True
               end) fx →
  traffic A S (foldl (onEffect id) p fx).1.
Proof.
  intros H Hid Hf. revert p H Hid. induction Hf as [|e fx He _ IH]; intros [h l] H Hid; [done|].
  cbn [foldl]. cbn in H, Hid. apply IH.
  - destruct e; cbn; try done.
    + apply traffic_send; [done|]. by destruct m.
    + unfold onTransition. cbv zeta. match goal with |- context [traceEvent ?v h] =>
        pose proof (traffic_trace A S h v H) as H1; generalize dependent (traceEvent v h) end.
      intros h1 H1. destruct (decide _); [|done]. by apply (traffic_frame A S h1).
    + unfold onApply. cbv zeta.
      match goal with |- traffic _ _ (runService _ _ ?x) => assert (traffic A S x ∧ nodes_ x = nodes_ h) as [H1 E1] end.
      { split; [by apply traffic_trace, (traffic_frame A S h)|]. unfold traceEvent. by destruct (recordTrace _). }
      apply traffic_service; [done|]. intros nd Hnd Hok. unfold nodeAt in *. rewrite E1 in Hnd.
      rewrite (Hid nd Hnd) in *. by apply onApplied_traffic; [|apply He..].
  - intros nd Hnd. assert (nr_id <$> nodeAt id (onEffect id (h, l) e).1 = nr_id <$> nodeAt id h) as E.
    { pose proof (skeleton_effect id (h, l) e) as E. generalize dependent (onEffect id (h, l) e).1.
      intros h1 _ [= E _]. unfold nodeAt. apply (f_equal (lookup (slot id))) in E.
      rewrite !list_lookup_fmap in E. destruct (nodes_ h1 !! slot id), (nodes_ h !! slot id); cbn in *; congruence. }
    rewrite Hnd in E. destruct (nodeAt id h) as [nd0|] eqn:E0; [|done]. injection E as ->. by apply Hid.
Qed.

(** ** The harness, the cluster and the clients' traffic *)

Record hcl (A : AState) (s : @Cluster P L SM R K) (S : Sent) (h : Harness) : Prop := {
  hc_rel : hrel A s h;
  hc_prov : prov (proposed S) A;
  hc_emits : Forall (λ nd, emits (proposed S) (core nd)) (nodes_ h);
  hc_traffic : traffic A S h;
}.

Lemma hcl_frame A s S h h' : hcl A s S h → hrel A s h' → skeleton h' = skeleton h →
  traffic A S h' → hcl A s S h'.
Proof.
  intros [_ Hp He _] Hr E Ht. split; try done. injection E as E _.
  apply Forall_lookup. intros k nd Hk. apply (f_equal (lookup k)) in E. rewrite !list_lookup_fmap, Hk in E.
  destruct (nodes_ h !! k) as [nd'|] eqn:Ek; [|done]. injection E as _ ->.
  exact (Forall_lookup_1 _ _ _ _ He Ek).
Qed.

Lemma hcl_trace A s S h v : hcl A s S h → hcl A s S (traceEvent v h).
Proof.
  intros H. apply (hcl_frame A s S h); [done| |apply skeleton_trace|apply traffic_trace, (hc_traffic _ _ _ _ H)].
  apply hrel_trace, (hc_rel _ _ _ _ H).
Qed.

(** The cores after node [k] got a new one. *)
Lemma emits_call Q id (c' : Core) (h : Harness) : Forall (λ nd, emits Q (core nd)) (nodes_ h) → emits Q c' →
  Forall (λ nd, emits Q (core nd)) (nodes_ (afterCall id c' h)).
Proof.
  intros H Hc. unfold afterCall. destruct (nodeAt id h) as [nd|] eqn:Hat; [|done].
  match goal with |- context [foldl (onEffect id) ?p ?fx] => pose proof (skeleton_effects id fx p) as [= E _];
    generalize dependent (nodes_ (foldl (onEffect id) p fx).1) end.
  intros l E. apply Forall_lookup. intros k nd1 Hk. apply (f_equal (lookup k)) in E.
  rewrite !list_lookup_fmap, Hk in E. cbn in E. destruct (decide (k = slot id)) as [->|].
  - rewrite list_lookup_alter_eq in E. destruct (nodes_ h !! slot id); [|done]. cbn in E. by injection E as _ ->.
  - rewrite list_lookup_alter_ne in E by done. destruct (nodes_ h !! k) as [nd2|] eqn:Ek; [|done].
    injection E as _ ->. exact (Forall_lookup_1 _ _ _ _ H Ek).
Qed.

Lemma hcl_call A s S h k nd now op c' : hcl A s S h → nodes_ h !! k = Some nd →
  run_op s (nr_id nd) now op (core nd) = Some c' → inline c' → emits (proposed S) c' →
  ∃ A' s', hcl A' s' S (afterCall (nr_id nd) c' h) ∧ later A A'.
Proof.
  intros [Hr Hp He Ht] Hk Hrun Hin Hc.
  destruct (afterCall_sim members Hmembers cfg sm0 A s h k nd now op c' Hr Hk Hrun Hin)
    as (A'&s'&fx&Hr'&E&Hfx&Het&Hap). exists A', s'.
  assert (later A A') as Hl.
  { split; [done|right]. intros m. destruct (decide (m = nr_id nd)) as [->|Hm]; [by eapply etrace_commit|].
    destruct (etrace_sound _ _ _ _ _ (cl_inv _ _ _ _ (hr_cluster _ _ _ _ _ _ Hr)) Het) as (_&_&O&_).
    by destruct (O m Hm) as (_&_&_&->&_). }
  split; [|done].
  assert (Forall (fx_of (proposed S)) fx) as Hf by (unfold emits in Hc; rewrite Hfx in Hc; by apply Forall_app in Hc as [_ ?]).
  split; [done| |by apply emits_call|].
  - eapply prov_trace; [exact Het|by apply fx_of_atomic|done].
  - destruct (hr_at _ _ _ _ _ _ _ _ Hr Hk) as (_&Hat&Hmem). unfold afterCall. rewrite Hat.
    apply effects_traffic; cbn [fst].
    + apply traffic_update; [by apply (traffic_ext A A' S S)|done].
    + intros nd'. unfold nodeAt in *. cbn. rewrite list_lookup_alter_eq, Hat. by intros [= <-].
    + unfold new_fx. rewrite Hfx, drop_app_length. apply Forall_forall. intros e Hin'.
      pose proof (proj1 (Forall_forall _ _) Hf e Hin') as He'. destruct e; try done. by destruct (Hap index entry result Hin').
Qed.

(** A call that changes nothing. *)
Lemma hcl_same A s S h k nd : hcl A s S h → nodes_ h !! k = Some nd →
  hcl A s S (afterCall (nr_id nd) (core nd) h).
Proof.
  intros H Hk. pose proof (hc_rel _ _ _ _ H) as Hr. destruct (hr_at _ _ _ _ _ _ _ _ Hr Hk) as (Hs&Hat&_).
  assert (skeleton (afterCall (nr_id nd) (core nd) h) = skeleton h ∧
    traffic A S (afterCall (nr_id nd) (core nd) h)) as [E Ht].
  { unfold afterCall. rewrite Hat. unfold new_fx. rewrite drop_all. cbn [foldl fst]. split.
    - unfold skeleton, updateNode. cbn. f_equal. apply list_eq. intros j. rewrite !list_lookup_fmap, Hs.
      destruct (decide (j = k)) as [->|]; [by rewrite list_lookup_alter_eq, Hk|by rewrite list_lookup_alter_ne].
    - apply traffic_update; [apply (hc_traffic _ _ _ _ H)|done]. }
  by apply (hcl_frame A s S h); [|eapply afterCall_same| |].
Qed.

(** ** A request at a node *)

(** Without batching a request is proposed as it is, or not at all. *)
Lemma onClientRequest_propose now from req sv (c : Core) : batching_ sv = mkBatching 1 0 →
  let c' := (onClientRequest now from req sv c).2 in
  c' = c ∨ (c' = (propose now (cr_command req) c).2 ∧
    decodePrefix (cr_command req) = Some (cr_clientId req, cr_seqNo req)).
Proof.
  intros Hb. cbv zeta. unfold onClientRequest. rewrite Hb. destruct (bool_decide _); [by left|].
  destruct (decodePrefix (cr_command req)) as [[cl sq]|]; [|by left].
  destruct (_ && _) eqn:E; cbn [negb]; [|by left]. apply andb_true_iff in E as [->%N.eqb_eq ->%N.eqb_eq].
  right. cbn. by destruct (propose now (cr_command req) c) as [[i|] c'].
Qed.

(** The service's own part: who waits, or a refusal. *)
Lemma onClientRequest_traffic A S n now from req sv (c : Core) : service_ok S n sv → (from, n, req) ∈ S →
  service_ok S n (onClientRequest now from req sv c).1 ∧
  ∃ new, sent_ (onClientRequest now from req sv c).1 = sent_ sv ++ new ∧
    Forall (λ p, crp_status p.2 = CsOk → reply_fact A S n p.1 (crp_result p.2)) new.
Proof.
  intros [Hb Hw] Hin. unfold onClientRequest. rewrite Hb.
  assert (∀ sv' r, batching_ sv' = mkBatching 1 0 → pending_ sv' = pending_ sv → sent_ sv' = sent_ sv →
    crp_status r ≠ CsOk → service_ok S n (reply from r sv') ∧
    ∃ new, sent_ (reply from r sv') = sent_ sv ++ new ∧
      Forall (λ p, crp_status p.2 = CsOk → reply_fact A S n p.1 (crp_result p.2)) new) as Hreply.
  { intros sv' r E1 E2 E3 Hr. split; [split; cbn; [done|by rewrite E2]|]. eexists. cbn. rewrite E3. split; [done|].
    by repeat constructor. }
  destruct (bool_decide _); [by apply Hreply|]. destruct (negb _); [by apply Hreply|]. cbn [maxBatch Nat.ltb Nat.leb].
  destruct (propose now (cr_command req) c) as [[i|] c']; cbn [fst]; [|by apply Hreply].
  split; [split; [done|]|exists []; by rewrite app_nil_r]. cbn.
  intros p [->|Hp]%waiting_put; [by exists req|by apply Hw].
Qed.

Lemma hcl_request A s S h k nd from req : hcl A s S h → nodes_ h !! k = Some nd →
  (from, nr_id nd, req) ∈ S →
  ∃ A' s', hcl A' s' S (handleAt (nr_id nd) from (nr_id nd) (MClientRequest req) h) ∧ later A A'.
Proof.
  intros H Hk Hin. pose proof (hc_rel _ _ _ _ H) as Hr. destruct (hr_at _ _ _ _ _ _ _ _ Hr Hk) as (Hs&Hat&_).
  pose proof (Forall_lookup_1 _ _ _ _ (tr_service _ _ _ (hc_traffic _ _ _ _ H)) Hk) as [Hb Hw].
  unfold handleAt. rewrite Hat. cbn [handle termOf]. set (sv := mkClientService _ _ _ _ _ _ _ _).
  set (h1 := updateNode (nr_id nd) (set_service sv) h).
  assert (hcl A s S h1) as H1.
  { apply (hcl_frame A s S h); [done| |by apply skeleton_update|].
    - apply (hrel_frame _ _ _ A s h); [done|by apply skeleton_update|apply mon_ok_update, (hr_mon _ _ _ _ _ _ Hr)].
    - apply traffic_update; [apply (hc_traffic _ _ _ _ H)|]. intros nd' Hnd' _. rewrite Hat in Hnd'.
      by injection Hnd' as <-. }
  assert (nodes_ h1 !! k = Some (set_service sv nd)) as Hk1.
  { subst h1. unfold updateNode. cbn. rewrite Hs. by rewrite list_lookup_alter_eq, Hk. }
  assert (∃ A' s', hcl A' s' S (afterCall (nr_id nd)
    (onClientRequest (clock h) from req (service nd) (core nd)).2 h1) ∧ later A A') as (A'&s'&H2&E).
  { destruct (onClientRequest_propose (clock h) from req (service nd) (core nd) Hb) as [->|[-> Hd]].
    - exists A, s. split; [by apply (hcl_same A s S h1 k (set_service sv nd))|apply later_refl].
    - apply (hcl_call A s S h1 k (set_service sv nd) (clock h) (OpPropose (cr_command req))); try done.
      + apply propose_inline. apply (hr_node _ _ _ _ _ _ Hr k nd Hk).
      + apply propose_emits; [by exists from, (nr_id nd), req|].
        exact (Forall_lookup_1 _ _ _ _ (hc_emits _ _ _ _ H) Hk). }
  exists A', s'. split; [|done]. pose proof (hc_rel _ _ _ _ H2) as Hr2.
  eapply hcl_frame; [exact H2| |apply skeleton_service|].
  - eapply hrel_frame; [exact Hr2|apply skeleton_service|apply mon_ok_service, (hr_mon _ _ _ _ _ _ Hr2)].
  - apply traffic_service; [apply (hc_traffic _ _ _ _ H2)|]. intros nd2 Hnd2 Hok.
    assert (nr_id nd2 = nr_id nd) as E2.
    { destruct (hr_node _ _ _ _ _ _ Hr2 _ _ Hnd2) as (Eid&_). destruct (hr_node _ _ _ _ _ _ Hr _ _ Hk) as (Eid'&_).
      unfold slot in *. lia. }
    rewrite E2 in *. by apply onClientRequest_traffic.
Qed.

Lemma hcl_handle A s S h k nd from m : hcl A s S h → nodes_ h !! k = Some nd →
  wire_ok (net s) (mkWire from (nr_id nd) m) → msg_fact A S from (nr_id nd) m →
  ∃ A' s', hcl A' s' S (handleAt (nr_id nd) from (nr_id nd) m h) ∧ later A A'.
Proof.
  intros H Hk Hw Hm. assert ((∃ r, m = MClientRequest r) ∨ ∀ r, m ≠ MClientRequest r) as [[req ->]|Hne]
    by (destruct m; eauto); [by apply (hcl_request A s S h k)|].
  pose proof (hc_rel _ _ _ _ H) as Hr. destruct (hr_at _ _ _ _ _ _ _ _ Hr Hk) as (_&Hat&_).
  destruct (hr_node _ _ _ _ _ _ Hr k nd Hk) as (_&_&Hin).
  pose proof (Forall_lookup_1 _ _ _ _ (hc_emits _ _ _ _ H) Hk) as He.
  unfold handleAt. rewrite Hat. set (now := clock h).
  rewrite (handle_raft _ now (mkEnvelope kProtocolVersion (typeOf m) from (nr_id nd) 0)
    (envelope_for from (nr_id nd) m) m (core nd) Hne eq_refl).
  enough (∃ A' s', hcl A' s' S (afterCall (nr_id nd)
    (handle None now (envelope_for from (nr_id nd) m) m (core nd)) h) ∧ later A A') as Hgoal
    by (destruct m; try done; by edestruct Hne).
  destruct Hw as [Hp|[[req Hq]|[r Hq]]]; cbn [w_from w_to w_msg] in *; [|by apply Hne in Hq|].
  - assert (packet_ok members A (mkPacket from (nr_id nd) m)) as Hpk
      by (eapply (proj1 (Forall_forall _ _) (cl_net _ _ _ _ (hr_cluster _ _ _ _ _ _ Hr))); done).
    apply list_elem_of_lookup in Hp as [i Hi].
    eapply (hcl_call A s S h k nd now (OpDeliver i)); [done|done| |by apply handle_inline|].
    + cbn. rewrite Hi. cbn. by rewrite N.eqb_refl.
    + apply handle_emits; [|done]. exact (packet_of _ _ _ _ (hc_prov _ _ _ _ H) Hpk).
  - subst m. exists A, s. split; [by apply (hcl_same A s S h k)|apply later_refl].
Qed.

(** ** The clients *)

(** Neither the clock nor the clients notice. *)
Definition still (h h' : Harness) : Prop := clock h' = clock h ∧ world_ h' = world_ h.

Lemma still_trans h1 h2 h3 : still h1 h2 → still h2 h3 → still h1 h3.
Proof. unfold still. intuition congruence. Qed.

Lemma still_fold {X} (f : Harness → X → Harness) l h : (∀ h x, still h (f h x)) → still h (foldl f h l).
Proof.
  intros Hf. revert h. induction l as [|x l IH]; intros h; cbn; [done|]. eapply still_trans; [apply Hf|apply IH].
Qed.

Lemma still_trace v (h : Harness) : still h (traceEvent v h).
Proof. unfold traceEvent. by destruct (recordTrace _). Qed.

Lemma still_service id f (h : Harness) : still h (runService id f h).
Proof.
  unfold runService. destruct (nodeAt id h) as [nd|]; [|done].
  eapply (still_trans _ (updateNode id (set_service (f (service nd))) h)); [done|]. by apply still_fold.
Qed.

Lemma still_effect id (p : Harness * list LogEntry) e : still p.1 (onEffect id p e).1.
Proof.
  destruct p as [h l], e; try done; cbn.
  - unfold onTransition. eapply still_trans; [apply still_trace|]. by destruct (decide _).
  - unfold onApply. eapply still_trans; [|apply still_service]. eapply still_trans; [|apply still_trace]. done.
Qed.

Lemma still_call id (c' : Core) (h : Harness) : still h (afterCall id c' h).
Proof.
  unfold afterCall. destruct (nodeAt id h) as [nd|]; [|done].
  eapply (still_trans _ (updateNode id (set_core c') h)); [done|].
  generalize (updateNode id (set_core c') h) (log_entries (log_ (core nd))).
  induction (new_fx (core nd) c') as [|e fx IH]; intros h' l; [done|]. cbn [foldl].
  eapply still_trans; [apply (still_effect id (h', l) e)|]. destruct (onEffect id (h', l) e). apply IH.
Qed.

Lemma still_handle id from to m (h : Harness) : still h (handleAt id from to m h).
Proof.
  unfold handleAt. destruct (nodeAt id h) as [nd|]; [|done].
  destruct m; try apply still_call. eapply still_trans; [|apply still_service].
  eapply still_trans; [|apply still_call]. done.
Qed.

Context (onDeliver : nat → NodeId → NodeId → Message → N → W → W * list (list byte)).

(** An invariant of the clients at a time, given what was sent and the protocol
    state. *)
Context (WI : AState → Sent → N → W → Prop).
Context (WI_ext : ∀ A A' S t w, later A A' → WI A S t w → WI A' S t w).
Context (WI_time : ∀ A S t t' w, (t ≤ t')%N → WI A S t w → WI A S t' w).
Context (WI_deliver : ∀ A S t w k from to m, Inv members A → prov (proposed S) A → WI A S t w →
  msg_fact A S from to m → WI A S t (onDeliver k from to m t w).1).

Local Abbreviation deliver := (deliver onDeliver).

Record crel (A : AState) (s : @Cluster P L SM R K) (S : Sent) (h : Harness) : Prop := {
  cr_hcl : hcl A s S h;
  cr_world : WI A S (nowMs h) (world_ h);
}.

Lemma crel_still A s S h A' s' h' : crel A s S h → hcl A' s' S h' → later A A' → still h h' →
  crel A' s' S h'.
Proof.
  intros [_ Hw] H' E [Ec Ew]. split; [done|]. unfold nowMs. rewrite Ec, Ew. by eapply WI_ext.
Qed.

Lemma crel_trace A s S h v : crel A s S h → crel A s S (traceEvent v h).
Proof.
  intros H. eapply crel_still; [exact H|apply hcl_trace, (cr_hcl _ _ _ _ H)|apply later_refl|apply still_trace].
Qed.

Lemma crel_deliver A s S h from to m : crel A s S h → wire_ok (net s) (mkWire from to m) →
  msg_fact A S from to m → ∃ A' s', crel A' s' S (deliver from to m h) ∧ later A A'.
Proof.
  intros H Hw Hm. unfold SimHarness.deliver. cbv zeta.
  match goal with |- context [traceEvent ?v h] => pose proof (crel_trace A s S h v H) as H1;
    generalize dependent (traceEvent v h) end.
  clear H h. intros h H. pose proof (hc_rel _ _ _ _ (cr_hcl _ _ _ _ H)) as Hr. destruct (_ && _)%bool eqn:Eb.
  - apply andb_true_iff in Eb as [E1%N.leb_le E2%N.leb_le]. unfold nodeAt.
    destruct (nodes_ h !! slot to) as [nd|] eqn:Hk; [|exists A, s; split; [done|apply later_refl]].
    destruct (alive nd); [|exists A, s; split; [done|apply later_refl]].
    destruct (hr_node _ _ _ _ _ _ Hr _ _ Hk) as (Hid&_). assert (nr_id nd = to) as <- by (unfold slot in Hid; lia).
    destruct (hcl_handle A s S h _ nd from m (cr_hcl _ _ _ _ H) Hk Hw Hm) as (A'&s'&H'&E).
    exists A', s'. split; [|done]. eapply crel_still; [exact H|done|done|apply still_handle].
  - exists A, s. split; [|apply later_refl]. destruct (list_find _ _) as [[? ep]|]; [|done].
    destruct (onDeliver _ _ _ _ _ _) as [w lines] eqn:Ed.
    assert (crel A s S (set_world w h)) as H1.
    { destruct H as [Hh HW]. split.
      - apply (hcl_frame A s S h); [done| |done|].
        + apply (hrel_frame _ _ _ A s h); [done|done|]. eapply mon_ok_frame; [apply (hr_mon _ _ _ _ _ _ Hr)|done..].
        + by apply (traffic_frame A S h); [apply (hc_traffic _ _ _ _ Hh)| |].
      - change (WI A S (nowMs h) w). replace w with (onDeliver (ep_fn ep) from to m (nowMs h) (world_ h)).1 by (by rewrite Ed).
        apply WI_deliver; [|apply (hc_prov _ _ _ _ Hh)|done|done].
        apply (cl_inv _ _ _ _ (hr_cluster _ _ _ _ _ _ Hr)). }
    clear Ed. revert H1. generalize (set_world w h). induction lines as [|v lines IH]; intros h' H'; cbn; [done|].
    by apply IH, crel_trace.
Qed.

Lemma crel_pop A s S h p rest : crel A s S h → queue_ (net_ h) = p :: rest →
  crel A s S (set_net (set_queue rest (net_ h)) h).
Proof.
  intros H Hq. pose proof (cr_hcl _ _ _ _ H) as Hh.
  eapply crel_still; [exact H| |apply later_refl|done].
  apply (hcl_frame A s S h); [done|by eapply hrel_pop; [apply (hc_rel _ _ _ _ Hh)|]|done|].
  destruct (hc_traffic _ _ _ _ Hh) as [Hf Hv]. split; [|done]. cbn. rewrite Hq in Hf. by apply Forall_cons in Hf as [_ ?].
Qed.

Lemma crel_deliverDue fuel now h h' A s S : crel A s S h →
  deliverDue net_ set_net deliver fuel now h = Some h' → ∃ A' s', crel A' s' S h'.
Proof.
  revert A s h. induction fuel as [|fuel IH]; intros A s h H; cbn [deliverDue]; [done|].
  destruct (queue_ (net_ h)) as [|[k w] rest] eqn:Hq; [intros [= <-]; by exists A, s|].
  destruct (_ <=? _)%N; [|intros [= <-]; by exists A, s].
  pose proof (crel_pop A s S h _ rest H Hq) as H1. unfold deliverFront. destruct (negb _).
  - by apply IH with A s.
  - pose proof (cr_hcl _ _ _ _ H) as Hh. pose proof (hr_mon _ _ _ _ _ _ (hc_rel _ _ _ _ Hh)) as Hm.
    destruct (crel_deliver A s S _ (w_from w) (w_to w) (w_msg w) H1) as (A'&s'&H'&_).
    { pose proof (proj2 (mo_queue _ _ _ _ _ _ Hm)) as Hf. rewrite Hq in Hf.
      apply Forall_cons in Hf as [Hw _]. by destruct w. }
    { pose proof (tr_queue _ _ _ (hc_traffic _ _ _ _ Hh)) as Hf. rewrite Hq in Hf. by apply Forall_cons in Hf as [? _]. }
    by apply IH with A' s'.
Qed.

Lemma crel_ticks ids A s S h : crel A s S h → NoDup ids → Forall (λ id, (0 < id)%N) ids →
  (∀ id nd, id ∈ ids → nodes_ h !! slot id = Some nd → (currentTerm (core nd) + 1 < two64)%N) →
  ∃ A' s', crel A' s' S (foldl tickNode h ids).
Proof.
  revert A s h. induction ids as [|id ids IH]; intros A s h H Hnd Hpos Hroom; cbn [foldl]; [by exists A, s|].
  apply NoDup_cons in Hnd as [Hid Hnd]. apply Forall_cons in Hpos as [Hp Hpos].
  assert (∀ h', (∃ A' s', crel A' s' S h') →
    (∀ j, j ∈ ids → core <$> nodes_ h' !! slot j = core <$> nodes_ h !! slot j) →
    ∃ A' s', crel A' s' S (foldl tickNode h' ids)) as Hnext.
  { intros h' (A'&s'&H') Hsame. apply (IH A' s' h'); [done|done|done|].
    intros j nd Hj Hnj. specialize (Hsame j Hj). rewrite Hnj in Hsame. cbn in Hsame.
    destruct (nodes_ h !! slot j) as [nd'|] eqn:Ej; [|done]. injection Hsame as ->.
    apply (Hroom j); [by right|done]. }
  unfold tickNode, nodeAt. destruct (nodes_ h !! slot id) as [nd|] eqn:Hk;
    [|apply Hnext; [by exists A, s|done]].
  destruct (alive nd); [|apply Hnext; [by exists A, s|done]].
  pose proof (cr_hcl _ _ _ _ H) as Hh. destruct (hr_node _ _ _ _ _ _ (hc_rel _ _ _ _ Hh) _ _ Hk) as (Eid&_&Hin).
  assert (nr_id nd = id) as Enid by (unfold slot in *; lia). apply Hnext.
  - rewrite <-Enid.
    destruct (hcl_call A s S h (slot id) nd (clock h) OpTick (tick (clock h) (core nd)) Hh Hk)
      as (A'&s'&H'&E).
    + cbn. rewrite (proj2 (N.ltb_lt _ _)); [done|]. apply (Hroom id); [by left|done].
    + by apply tick_inline.
    + apply tick_emits. exact (Forall_lookup_1 _ _ _ _ (hc_emits _ _ _ _ Hh) Hk).
    + exists A', s'. eapply crel_still; [exact H|done|done|apply still_call].
  - intros j Hj. apply afterCall_others. pose proof (proj1 (Forall_forall _ _) Hpos j Hj).
    unfold slot. intros E. assert (j = id) as -> by (cbn in *; lia). done.
Qed.

Lemma services_observe (h : Harness) : net_ (observeStep h) = net_ h ∧ nodes_ (observeStep h) = nodes_ h ∧
  still h (observeStep h).
Proof.
  unfold observeStep. assert (∀ l (h : Harness), let h' := foldl observeNode h l in
    net_ h' = net_ h ∧ nodes_ h' = nodes_ h ∧ still h h') as Hl.
  { clear h. induction l as [|nd l IH]; intros h; cbn [foldl]; [done|].
    destruct (IH (observeNode h nd)) as (->&->&E1&E2). unfold still in *. cbn zeta in *. rewrite E1, E2.
    unfold observeNode. by destruct (alive nd). }
  cbv zeta. destruct (_ <=? _)%Z; apply Hl.
Qed.

Lemma crel_stepMs A s S h fuel h' : crel A s S h → headroom h → stepMs onDeliver fuel h = Some h' →
  ∃ A' s', crel A' s' S h'.
Proof.
  intros H Hroom. unfold SimHarness.stepMs. cbv zeta. set (h1 := set_clock _ h).
  assert (crel A s S h1) as H1.
  { destruct H as [Hh HW]. pose proof (hc_rel _ _ _ _ Hh) as Hr. split.
    - apply (hcl_frame A s S h); [done| |done|].
      + eapply hrel_frame; [exact Hr|done|]. eapply mon_ok_frame; [apply (hr_mon _ _ _ _ _ _ Hr)|done..].
      + by apply (traffic_frame A S h); [apply (hc_traffic _ _ _ _ Hh)| |].
    - apply (WI_time _ _ (nowMs h)); [|done]. unfold nowMs. apply N.Div0.div_le_mono. cbn. unfold after. lia. }
  destruct (crel_ticks (nodeIds (length (nodes_ h1))) A s S h1 H1) as (A2&s2&H2).
  { apply nodeIds_NoDup. }
  { apply Forall_forall. intros id Hid. by apply nodeIds_elem in Hid as [? _]. }
  { intros id nd _ Hk. exact (Forall_lookup_1 _ _ _ _ Hroom Hk). }
  intros (h3&Hd&[= <-])%bind_Some. destruct (crel_deliverDue _ _ _ _ _ _ _ H2 Hd) as (A3&s3&H3).
  exists A3, s3. pose proof (cr_hcl _ _ _ _ H3) as Hh3. destruct (services_observe h3) as (En&Eno&Est).
  eapply crel_still; [exact H3| |apply later_refl|done].
  apply (hcl_frame A3 s3 S h3); [done|by apply observeStep_ok, (hc_rel _ _ _ _ Hh3)|apply nodes_observeStep|].
  apply (traffic_frame A3 S h3); [apply (hc_traffic _ _ _ _ Hh3)|done|by rewrite Eno].
Qed.

(** ** The driver *)

Lemma crel_crash A s S h id : crel A s S h → crel A s S (crash id h).
Proof.
  intros H. apply crel_trace. pose proof (cr_hcl _ _ _ _ H) as Hh. pose proof (hc_rel _ _ _ _ Hh) as Hr.
  eapply crel_still; [exact H| |apply later_refl|done].
  apply (hcl_frame A s S h); [done| |by apply skeleton_update|].
  - apply (hrel_frame _ _ _ A s h); [done|by apply skeleton_update|apply mon_ok_update, (hr_mon _ _ _ _ _ _ Hr)].
  - apply traffic_update; [apply (hc_traffic _ _ _ _ Hh)|done].
Qed.

Lemma crel_killLeader A s S h : crel A s S h → crel A s S (killLeader h).2.
Proof. intros H. unfold killLeader. destruct (foldl _ _ _).1; [by apply crel_crash|done]. Qed.

Lemma crel_net A s S h n : crel A s S h → queue_ n = queue_ (net_ h) → crel A s S (set_net n h).
Proof.
  intros H Hq. pose proof (cr_hcl _ _ _ _ H) as Hh. eapply crel_still; [exact H| |apply later_refl|done].
  apply (hcl_frame A s S h); [done|by apply hrel_net; [apply (hc_rel _ _ _ _ Hh)|]|done|].
  destruct (hc_traffic _ _ _ _ Hh) as [Hf Hv]. split; [|done]. cbn. by rewrite Hq.
Qed.

Lemma crel_finalCheck A s S h : crel A s S h → crel A s S (finalCheck h).
Proof.
  intros H. pose proof (cr_hcl _ _ _ _ H) as Hh. eapply crel_still; [exact H| |apply later_refl|done].
  apply (hcl_frame A s S h); [done|by apply finalCheck_ok, (hc_rel _ _ _ _ Hh)|done|].
  by apply (traffic_frame A S h); [apply (hc_traffic _ _ _ _ Hh)| |].
Qed.

(** Changes the nodes do not notice. *)
Lemma hcl_aside A s S h h' : hcl A s S h → hrel A s h' → skeleton h' = skeleton h → nodes_ h' = nodes_ h →
  queue_ (net_ h') = queue_ (net_ h) → hcl A s S h'.
Proof.
  intros H Hr E En Eq. apply (hcl_frame A s S h); try done. destruct (hc_traffic _ _ _ _ H) as [Hf Hv].
  split; [by rewrite Eq|by rewrite En].
Qed.

(** A client sends. *)
Lemma hcl_send A s S h from to req : hcl A s S h →
  hcl A s (S ++ [(from, to, req)]) (clientSend from to (MClientRequest req) h).
Proof.
  intros [Hr Hp He Ht].
  assert (S ⊆ S ++ [(from, to, req)]) as Hs by (intros x Hx; apply elem_of_app; by left). split.
  - apply (hrel_frame _ _ _ A s h); [done|done|]. apply mon_ok_send; [apply (hr_mon _ _ _ _ _ _ Hr)|].
    right; left. by eexists.
  - eapply prov_mono; [|done]. intros cmd. by apply proposed_mono.
  - eapply Forall_impl; [exact He|]. intros nd Hnd. eapply Forall_impl; [exact Hnd|].
    intros e. destruct e; cbn; try done. intros Hes. eapply Forall_impl; [exact Hes|]. intros en. by apply proposed_mono.
  - apply traffic_send; [by eapply traffic_ext; [apply later_refl| |]|]. cbn. apply elem_of_app. right.
    by apply list_elem_of_singleton.
Qed.

Context (storage_ : NodeId → nat → option (P * L) → P * L).
Context (smFactory_ : NodeId → SM) (seedRng : N → R) (seedNet : N → G).
Context (storage_fresh : ∀ id, let pl := storage_ id 0 None in
  ps_currentTerm pl.1 = 0%N ∧ ps_votedFor pl.1 = None ∧ log_entries pl.2 = []).
Context (storage_reopen : ∀ id inc p l, let pl := storage_ id inc (Some (p, l)) in
  ps_currentTerm pl.1 = ps_currentTerm p ∧ ps_votedFor pl.1 = ps_votedFor p ∧
  log_entries pl.2 = log_entries l).
Context (smFactory_same : ∀ id, smFactory_ id = sm0).

Local Abbreviation restart := (restart storage_ smFactory_ seedRng).
Local Abbreviation SimHarness_new := (SimHarness_new (K:=K) (W:=W) storage_ smFactory_ seedRng seedNet).

(** A new process: no effects yet, nobody waits. *)
Lemma buildNode_fresh opts id inc seed prev (c : Core) sv now Q S n :
  buildNode storage_ smFactory_ seedRng opts id inc seed prev = Some (c, sv) →
  emits Q (start now c) ∧ service_ok S n sv.
Proof.
  unfold buildNode. intros (nc&_&Hb)%bind_Some. destruct (storage_ id inc prev) as [p l]. injection Hb as <- <-.
  split; [|apply service_new]. unfold start, emits. by rewrite fx_timer.
Qed.

Lemma crel_restart A s S h id : (∀ k, old k) → crel A s S h → (0 < id)%N → ∃ A' s', crel A' s' S (restart id h).
Proof.
  intros Hold H Hpos. pose proof (cr_hcl _ _ _ _ H) as Hh. pose proof (hc_rel _ _ _ _ Hh) as Hr.
  destruct (restart_sim members cfg sm0 storage_ smFactory_ seedRng storage_reopen smFactory_same
    A s h id Hr Hpos) as (A'&s'&Hr'&HA). exists A', s'.
  assert (later A A' ∧ prov (proposed S) A') as [E Hp].
  { destruct HA as [->| ->]; [split; [apply later_refl|apply (hc_prov _ _ _ _ Hh)]|].
    split; [|apply prov_crash, (hc_prov _ _ _ _ Hh)]. split; [|by left].
    apply (crash_inv members id A), (cl_inv _ _ _ _ (hr_cluster _ _ _ _ _ _ Hr)). }
  assert (still h (restart id h) ∧ traffic A' S (restart id h) ∧
    Forall (λ nd, emits (proposed S) (core nd)) (nodes_ (restart id h))) as (Hst&Ht&He).
  { pose proof (traffic_ext A A' S S h E ltac:(done) (hc_traffic _ _ _ _ Hh)) as Ht.
    pose proof (hc_emits _ _ _ _ Hh) as He. clear Hr'.
    unfold SimHarness.restart, nodeAt. destruct (nodes_ h !! slot id) as [nd|] eqn:Hk; [|done].
    destruct (alive nd); [done|]. cbv zeta.
    destruct (buildNode _ _ _ _ _ _ _ _) as [[c sv]|] eqn:Eb; [|done].
    destruct (buildNode_fresh _ _ _ _ _ c sv (clock h) (proposed S) S id Eb) as [Hc Hsv].
    match goal with |- context [updateNode id ?f h] => set (h1 := updateNode id f h) end.
    assert (traffic A' S h1) as Ht1 by (by apply traffic_update).
    split_and!; [exact (still_trace _ h1)|by apply traffic_trace|].
    assert (nodes_ (traceEvent (str "t=" ++ to_string (nowMs h1) ++ str " restart n" ++ to_string id) h1) = nodes_ h1)
      as -> by (unfold traceEvent; by destruct (recordTrace _)).
    apply Forall_lookup. intros k nd'. cbn. destruct (decide (k = slot id)) as [->|].
    - rewrite list_lookup_alter_eq, Hk. by intros [= <-].
    - rewrite list_lookup_alter_ne by done. apply (Forall_lookup_1 _ _ _ _ He). }
  by eapply crel_still; [exact H|split| |].
Qed.

(** The start: nothing was sent. *)
Lemma hcl_new opts w : members = nodeIds (length (ho_nodes opts)) →
  Forall (λ nc, raft nc = cfg) (ho_nodes opts) → ∃ s, hcl A_init s [] (SimHarness_new opts w).
Proof.
  intros Hopts Hcfg. destruct (harness_new_ok (K:=K) members Hmembers cfg sm0 storage_ smFactory_ seedRng seedNet
    storage_fresh smFactory_same opts w Hopts Hcfg) as [s Hr]. exists s.
  assert (Forall (λ nd, emits (proposed []) (core nd) ∧ service_ok [] (nr_id nd) (service nd))
    (nodes_ (SimHarness_new opts w))) as Hn.
  { apply Forall_forall. cbn. intros nd (id&_&Hf)%list_elem_of_omap. unfold firstNode in Hf.
    apply bind_Some in Hf as (nc&_&Hf). apply bind_Some in Hf as ([c sv]&Hb&[= <-]). cbn.
    by eapply buildNode_fresh. }
  split; [done|apply prov_init|by eapply Forall_impl; [exact Hn|]; intros nd []|].
  split; [constructor|]. by eapply Forall_impl; [exact Hn|]; intros nd [].
Qed.

End HarnessClients.
