(* ===== verification/FaultSchedule.v ===== *)
(** * src/faults/fault_schedule.h, src/faults/fault_schedule.cpp: the fault schedule

    The seeded generator of timed fault events and their application to the
    harness.  Times are [std::int64_t], kept as [Z]; the generator (mt19937_64) is
    the [Engine] class of SimNetwork.v. *)

From Stdlib Require Import NArith ZArith Strings.Byte Lia Sorting.Sorted.
From Stdlib Require Import Floats.SpecFloat.
From S2P Require Import Prelude Messages Log RaftCore OrdMap Text ClientService Checkers.
From S2P Require Import SimNetwork SimHarness HarnessSafety HarnessProgress.

Local Open Scope Z_scope.

Inductive FaultKind :=
| Partition | Heal | SetDrop | SetLatency | SetReorder | Crash | Restart | LeaderKill.

#[export] Instance FaultKind_eq_dec : EqDecision FaultKind.
Proof. solve_decision. Defined.

Record FaultEvent := mkFaultEvent {
  atMs : Z;
  kind : FaultKind;
  groups : list (list NodeId);
  probability : double;
  latencyMinMs : Z;
  latencyMaxMs : Z;
  reorderExtraMs : Z;
}.

(** [FaultEvent ev; ev.atMs = t;] *)
Definition FaultEvent_at (t : Z) (k : FaultKind) : FaultEvent :=
  mkFaultEvent t k [] dzero 0 0 0.

(** ** describe *)

(** [std::to_string] on [std::int64_t]. *)
Definition z_to_string (v : Z) : list byte :=
  if v <? 0 then str "-" ++ to_string (Z.to_N (- v)) else to_string (Z.to_N v).

(** [std::to_string] on [double] is ["%f"]: six decimals of the exact value,
    rounded to nearest, ties to even. *)
Definition round_div (num den : Z) : Z :=
  let q := num / den in
  let r := 2 * (num mod den) in
  if r <? den then q else if den <? r then q + 1 else if Z.even q then q else q + 1.

Definition double_to_string (d : double) : list byte :=
  let fixed (neg : bool) (micros : Z) :=
    (if neg then str "-" else []) ++ to_string (Z.to_N (micros / 1000000)) ++ str "." ++
    drop 1 (to_string (Z.to_N (1000000 + micros mod 1000000))) in
  match d with
  | S754_zero s => fixed s 0
  | S754_finite s m e =>
      fixed s (if 0 <=? e then Z.pos m * 2 ^ e * 1000000
               else round_div (Z.pos m * 1000000) (2 ^ (- e)))
  | S754_infinity s => (if s then str "-" else []) ++ str "inf"
  | S754_nan => str "nan"
  end.

Definition describe (ev : FaultEvent) : list byte :=
  let s := str "t=" ++ z_to_string (atMs ev) ++ str " fault " in
  match kind ev with
  | Partition =>
      foldl (λ s g, foldl (λ s id, s ++ to_string id ++ str ",") (s ++ str " {") g ++ str "}")
        (s ++ str "partition") (groups ev)
  | Heal => s ++ str "heal"
  | SetDrop => s ++ str "drop p=" ++ double_to_string (probability ev)
  | SetLatency => s ++ str "latency " ++ z_to_string (latencyMinMs ev) ++ str ".." ++
                  z_to_string (latencyMaxMs ev) ++ str "ms"
  | SetReorder => s ++ str "reorder p=" ++ double_to_string (probability ev) ++ str " extra<=" ++
                  z_to_string (reorderExtraMs ev) ++ str "ms"
  | Crash => s ++ str "crash"
  | Restart => s ++ str "restart"
  | LeaderKill => s ++ str "leader-kill"
  end.

(** ** generateFaultSchedule *)

(** A literal with two decimals: the double nearest to [k / 100]. *)
Definition hundredths (k : N) : double :=
  SFdiv binary64_prec binary64_emax (to_double k) (to_double 100).

Section Generate.
Context {G : Type} `{!Engine G}.

Definition pickFrom (rng : G) (lo hi : Z) : Z * G :=
  let '(w, rng) := next_word rng in (lo + Z.of_N (w mod Z.to_N (hi - lo + 1))%N, rng).

(** [rng() % k] *)
Definition below (rng : G) (k : N) : N * G :=
  let '(w, rng) := next_word rng in ((w mod k)%N, rng).

(** [for (id = 1; id <= n; ++id) (rng() % 2 == 0 ? a : b).push_back(id)] *)
Fixpoint dealSides (ids : list NodeId) (rng : G) (a b : list NodeId) :
    list NodeId * list NodeId * G :=
  match ids with
  | [] => (a, b, rng)
  | id :: ids =>
      let '(side, rng) := below rng 2 in
      if (side =? 0)%N then dealSides ids rng (a ++ [id]) b else dealSides ids rng a (b ++ [id])
  end.

(** [x.push_back(y.back()); y.pop_back();] *)
Definition moveBack (x y : list NodeId) : list NodeId * list NodeId :=
  match last y with
  | Some v => (x ++ [v], take (length y - 1) y)
  | None => (x, y)
  end.

Definition genPartition (n : nat) (t : Z) (rng : G) : FaultEvent * G :=
  let ids := nodeIds n in
  let '(how, rng) := below rng 100 in
  if (how <? 70)%N then
    let '(v, rng) := below rng (N.of_nat n) in
    let victim := (1 + v)%N in
    let rest := filter (λ id, id ≠ victim) ids in
    (mkFaultEvent t Partition [[victim]; rest] dzero 0 0 0, rng)
  else
    let '(a, b, rng) := dealSides ids rng [] [] in
    let '(a, b) :=
      match a, b with
      | [], _ => let '(a, b) := moveBack a b in (a, b)
      | _ :: _, [] => let '(b, a) := moveBack b a in (a, b)
      | _ :: _, _ :: _ => (a, b)
      end in
    (mkFaultEvent t Partition [a; b] dzero 0 0 0, rng).

Definition genEvent (n : nat) (t : Z) (rng : G) : FaultEvent * G :=
  let '(k, rng) := below rng 100 in
  if (k <? 20)%N then genPartition n t rng
  else if (k <? 35)%N then (FaultEvent_at t Heal, rng)
  else if (k <? 47)%N then
    let '(i, rng) := below rng 4 in
    (mkFaultEvent t SetDrop []
       (hundredths (match i with 0 => 0 | 1 => 5 | 2 => 15 | _ => 30 end)%N) 0 0 0, rng)
  else if (k <? 59)%N then
    let '(i, rng) := below rng 4 in
    let max := (match i with 0%N => 2 | 1%N => 10 | 2%N => 40 | _ => 120 end) in
    let '(min, rng) := pickFrom rng 1 (Z.max 1 (max / 4)) in
    (mkFaultEvent t SetLatency [] dzero min max 0, rng)
  else if (k <? 67)%N then
    let '(i, rng) := below rng 3 in
    let '(extra, rng) := pickFrom rng 5 30 in
    (mkFaultEvent t SetReorder []
       (hundredths (match i with 0 => 0 | 1 => 10 | _ => 30 end)%N) 0 0 extra, rng)
  else if (k <? 80)%N then (FaultEvent_at t Crash, rng)
  else if (k <? 92)%N then (FaultEvent_at t Restart, rng)
  else (FaultEvent_at t LeaderKill, rng).

Definition isCrash (ev : FaultEvent) : bool :=
  bool_decide (kind ev = Crash) || bool_decide (kind ev = LeaderKill).

(** One round of the loop: the event at [t], the restart that follows a crash. *)
Definition genRound (n : nat) (endMs t : Z) (rng : G) : list FaultEvent * G :=
  let '(ev, rng) := genEvent n t rng in
  if isCrash ev then
    let '(d, rng) := pickFrom rng 500 3000 in
    (ev :: (if t + d <? endMs then [FaultEvent_at (t + d) Restart] else []), rng)
  else ([ev], rng).

(** [None]: the loop did not end within [fuel] rounds. *)
Fixpoint genLoop (fuel : nat) (n : nat) (endMs t : Z) (rng : G) (events : list FaultEvent) :
    option (list FaultEvent) :=
  match fuel with
  | O => None
  | S fuel =>
      if t <? endMs then
        let '(evs, rng) := genRound n endMs t rng in
        let '(d, rng) := pickFrom rng 700 2500 in
        genLoop fuel n endMs (t + d) rng (events ++ evs)
      else Some events
  end.

(** [std::stable_sort] by [atMs]: an element goes behind those not later. *)
Fixpoint insertStable (ev : FaultEvent) (l : list FaultEvent) : list FaultEvent :=
  match l with
  | [] => [ev]
  | x :: l => if atMs ev <? atMs x then ev :: x :: l else x :: insertStable ev l
  end.

Definition stableSort (l : list FaultEvent) : list FaultEvent :=
  foldl (λ acc ev, insertStable ev acc) [] l.

(** Every round moves the time forward by 700 ms at least. *)
Definition scheduleFuel (startMs endMs : Z) : nat := S (Z.to_nat ((endMs - startMs) / 700 + 1)).

Definition generateFaultSchedule (rng : G) (nodeCount : nat) (startMs endMs : Z) :
    option (list FaultEvent) :=
  let '(d, rng) := pickFrom rng 0 800 in
  stableSort <$> genLoop (scheduleFuel startMs endMs) nodeCount endMs (startMs + d) rng [].

End Generate.

(** ** applyFaultEvent *)

Section Apply.
Context {P L SM R K G W E : Type}.
Context `{!PersistentState P} `{!RaftLog L} `{!StateMachine SM} `{!Rng R} `{!ApplySink K}.
Context `{!Engine G} `{!Engine E}.
Context (storage_ : NodeId → nat → option (P * L) → P * L).
Context (smFactory_ : NodeId → SM) (seedRng : N → R).

Local Abbreviation Harness := (@SimHarness P L SM R K G W).
Local Abbreviation restart := (restart storage_ smFactory_ seedRng).

(** [harness.alive(id)] *)
Definition isAlive (h : Harness) (id : NodeId) : bool :=
  match nodeAt id h with Some nd => alive nd | None => false end.

(** [v[pickRng() % v.size()]]: the pick, or nothing drawn if there is none. *)
Definition pickOne (v : list NodeId) (pickRng : E) : option NodeId * E :=
  match v with
  | [] => (None, pickRng)
  | _ :: _ =>
      let '(i, pickRng) := below pickRng (N.of_nat (length v)) in (v !! N.to_nat i, pickRng)
  end.

Definition applyFaultEvent (ev : FaultEvent) (pickRng : E) (h : Harness) : Harness * E :=
  let h := traceEvent (describe ev) h in
  let onNet f := (set_net (f (net_ h)) h, pickRng) in
  match kind ev with
  | Partition => onNet (partition (groups ev))
  | Heal => onNet heal
  | SetDrop => onNet (setDrop (probability ev))
  | SetLatency => onNet (setLatency (Z.to_N (latencyMinMs ev)) (Z.to_N (latencyMaxMs ev)))
  | SetReorder => onNet (setReorder (probability ev) (Z.to_N (reorderExtraMs ev)))
  | Crash =>
      let live := filter (λ id, isAlive h id = true) (nodeIds (nodeCount h)) in
      let '(victim, pickRng) := pickOne live pickRng in
      (match victim with Some id => crash id h | None => h end, pickRng)
  | Restart =>
      let '(id, pickRng) := pickOne (deadNodes h) pickRng in
      (match id with Some id => restart id h | None => h end, pickRng)
  | LeaderKill => ((killLeader h).2, pickRng)
  end.

End Apply.

(** ** What a schedule is made of *)

(** Two sides, neither empty, that share no node and leave none out. *)
Definition bipartition (n : nat) (gs : list (list NodeId)) : Prop :=
  ∃ a b, gs = [a; b] ∧ a ≠ [] ∧ b ≠ [] ∧ a ++ b ≡ₚ nodeIds n.

Definition event_ok (n : nat) (startMs endMs : Z) (ev : FaultEvent) : Prop :=
  startMs ≤ atMs ev < endMs ∧
  (kind ev = Partition → bipartition n (groups ev)) ∧
  (kind ev = SetLatency → 1 ≤ latencyMinMs ev ≤ latencyMaxMs ev) ∧
  (kind ev = SetReorder → 0 ≤ reorderExtraMs ev).

Section Schedule.
Context {G : Type} `{!Engine G}.

Lemma pickFrom_range (rng : G) lo hi v rng' : pickFrom rng lo hi = (v, rng') → lo ≤ hi → lo ≤ v ≤ hi.
Proof.
  unfold pickFrom. destruct (next_word rng) as [w g]. intros [= <- <-] Hle.
  pose proof (N.mod_upper_bound w (Z.to_N (hi - lo + 1)) ltac:(lia)) as Hm. revert Hm.
  generalize (w mod Z.to_N (hi - lo + 1))%N. lia.
Qed.

Lemma below_lt (rng : G) k v rng' : below rng k = (v, rng') → k ≠ 0%N → (v < k)%N.
Proof.
  unfold below. destruct (next_word rng) as [w g]. intros [= <- <-] Hk. by apply N.mod_upper_bound.
Qed.

Lemma dealSides_perm ids (rng : G) a b a' b' rng' : dealSides ids rng a b = (a', b', rng') →
  a' ++ b' ≡ₚ a ++ b ++ ids.
Proof.
  revert rng a b. induction ids as [|id ids IH]; intros rng a b; cbn [dealSides].
  { intros [= <- <- _]. by rewrite app_nil_r. }
  destruct (below rng 2) as [side g]. destruct (side =? 0)%N; intros H%IH; rewrite H.
  - rewrite <-!app_assoc. f_equiv. cbn. apply Permutation_middle.
  - rewrite <-!app_assoc. done.
Qed.

Lemma moveBack_spec x y x' y' : moveBack x y = (x', y') → y ≠ [] →
  x' ≠ [] ∧ x' ++ y' ≡ₚ x ++ y ∧ (2 ≤ length y → y' ≠ [])%nat.
Proof.
  unfold moveBack. destruct (last y) as [v|] eqn:El; [|by apply last_None in El].
  apply last_Some in El as [l ->]. intros [= <- <-] _.
  rewrite length_app, Nat.add_sub, take_app_length. split_and!.
  - by destruct x.
  - rewrite <-app_assoc. f_equiv. apply (Permutation_app_comm [v] l).
  - intros Hl ->. cbn in Hl. lia.
Qed.

Lemma genPartition_ok n t (rng : G) ev rng' : (2 ≤ n)%nat → genPartition n t rng = (ev, rng') →
  atMs ev = t ∧ kind ev = Partition ∧ bipartition n (groups ev).
Proof.
  intros Hn. unfold genPartition. destruct (below rng 100) as [how g1].
  assert (length (nodeIds n) = n) as Hlen by (unfold nodeIds; by rewrite length_fmap, length_seq).
  destruct (how <? 70)%N.
  - destruct (below g1 (N.of_nat n)) as [v g2] eqn:Ev. apply below_lt in Ev; [|lia].
    intros [= <- <-]. cbn. split_and!; [done|done|]. exists [(1 + v)%N]. eexists.
    assert ((1 + v)%N ∈ nodeIds n) as Hv by (apply nodeIds_elem; unfold slot; lia).
    pose proof (nodeIds_NoDup n) as Hnd.
    assert ([(1 + v)%N] ++ filter (λ id, id ≠ (1 + v)%N) (nodeIds n) ≡ₚ nodeIds n) as Hp.
    { apply list_elem_of_split in Hv as (l1&l2&Hs). rewrite Hs in *. clear Hs.
      apply NoDup_app in Hnd as (_&Hd&[Hx _]%NoDup_cons).
      assert (∀ l : list N, (1 + v)%N ∉ l → filter (λ id, id ≠ (1 + v)%N) l = l) as Hf.
      { induction l as [|y l IH]; intros Hy; [done|]. rewrite filter_cons_True by set_solver.
        rewrite IH; [done|set_solver]. }
      rewrite filter_app, filter_cons_False by (by intros []). rewrite (Hf l2) by done.
      rewrite (Hf l1); [exact (Permutation_middle l1 l2 (1 + v)%N)|]. intros Hin. apply (Hd _ Hin). by left. }
    split_and!; [done|done| |done]. intros E. apply Permutation_length in Hp. rewrite E, Hlen in Hp. cbn in Hp. lia.
  - destruct (dealSides _ g1 [] []) as [[a b] g2] eqn:Ed. apply dealSides_perm in Ed. cbn in Ed.
    pose proof (Permutation_length Ed) as El. rewrite length_app, Hlen in El.
    destruct a as [|x a], b as [|y b]; cbn in El; [lia| | |].
    + destruct (moveBack [] (y :: b)) as [a' b'] eqn:Em. intros [= <- <-]. cbn. split_and!; [done|done|].
      destruct (moveBack_spec _ _ _ _ Em ltac:(done)) as (Ha&Hp&Hb). exists a', b'.
      split_and!; [done|done|apply Hb; cbn; lia|]. by rewrite Hp.
    + destruct (moveBack [] (x :: a)) as [b' a'] eqn:Em. intros [= <- <-]. cbn. split_and!; [done|done|].
      destruct (moveBack_spec _ _ _ _ Em ltac:(done)) as (Hb&Hp&Ha). exists a', b'.
      rewrite app_nil_r in Ed. split_and!; [done|apply Ha; cbn; lia|done|].
      rewrite (Permutation_app_comm a' b'), Hp. cbn. done.
    + intros [= <- <-]. cbn. split_and!; [done|done|]. by exists (x :: a), (y :: b).
Qed.

Lemma genEvent_ok n t (rng : G) ev rng' startMs endMs : (2 ≤ n)%nat → startMs ≤ t < endMs →
  genEvent n t rng = (ev, rng') → atMs ev = t ∧ event_ok n startMs endMs ev.
Proof.
  intros Hn [Ht1 Ht2]. unfold genEvent, event_ok. destruct (below rng 100) as [k g1].
  destruct (k <? 20)%N.
  { intros (E&Ek&Hb)%genPartition_ok; [|done]. rewrite E, Ek. by split_and!. }
  destruct (k <? 35)%N; [intros [= <- <-]; cbn; by split_and!|].
  destruct (k <? 47)%N; [destruct (below g1 4); intros [= <- <-]; cbn; by split_and!|].
  destruct (k <? 59)%N.
  { destruct (below g1 4) as [i g2]. set (mx := match i with 0%N => _ | _ => _ end).
    assert (2 ≤ mx) as Hmx by (subst mx; repeat case_match; lia). clearbody mx.
    destruct (pickFrom g2 1 _) as [mn g3] eqn:Ep. intros [= <- <-]. cbn.
    apply pickFrom_range in Ep; [|lia]. pose proof (Z.div_le_upper_bound mx 4 mx).
    split_and!; try done; intros _; lia. }
  destruct (k <? 67)%N.
  { destruct (below g1 3) as [i g2]. destruct (pickFrom g2 5 30) as [ex g3] eqn:Ep.
    intros [= <- <-]. cbn. apply pickFrom_range in Ep; [|lia]. split_and!; try done. intros _. lia. }
  destruct (k <? 80)%N; [intros [= <- <-]; cbn; by split_and!|].
  destruct (k <? 92)%N; intros [= <- <-]; cbn; by split_and!.
Qed.

Lemma genRound_ok n t (rng : G) evs rng' startMs endMs : (2 ≤ n)%nat → startMs ≤ t < endMs →
  genRound n endMs t rng = (evs, rng') → Forall (event_ok n startMs endMs) evs.
Proof.
  intros Hn Ht. unfold genRound. destruct (genEvent n t rng) as [ev g1] eqn:Ee.
  destruct (genEvent_ok n t rng ev g1 startMs endMs Hn Ht Ee) as [_ Hev].
  destruct (isCrash ev); [|intros [= <- <-]; by apply Forall_singleton].
  destruct (pickFrom g1 500 3000) as [d g2] eqn:Ep. apply pickFrom_range in Ep; [|lia].
  intros [= <- <-]. constructor; [done|]. destruct (Z.ltb_spec (t + d) endMs); [|constructor].
  constructor; [|constructor]. unfold event_ok. cbn. split_and!; try done; lia.
Qed.

Lemma genLoop_ok fuel n t (rng : G) evs startMs endMs : (2 ≤ n)%nat → startMs ≤ t →
  Forall (event_ok n startMs endMs) evs →
  (Z.to_nat ((endMs - t) / 700 + 1) < fuel)%nat →
  ∃ evs', genLoop fuel n endMs t rng evs = Some evs' ∧ Forall (event_ok n startMs endMs) evs'.
Proof.
  intros Hn. revert t rng evs. induction fuel as [|fuel IH]; intros t rng evs Ht Hevs Hf; [lia|].
  cbn [genLoop]. destruct (Z.ltb_spec t endMs) as [Hlt|]; [|by exists evs].
  destruct (genRound n endMs t rng) as [es g1] eqn:Er.
  destruct (pickFrom g1 700 2500) as [d g2] eqn:Ep. apply pickFrom_range in Ep; [|lia].
  apply IH; [lia| |].
  - apply Forall_app. split; [done|]. eapply genRound_ok; [done| |exact Er]. lia.
  - assert ((endMs - (t + d)) / 700 + 1 <= (endMs - t) / 700).
    { replace ((endMs - t) / 700) with ((endMs - t - 700) / 700 + 1)
        by (rewrite <-Z.div_add by done; f_equal; lia).
      apply Z.add_le_mono_r, Z.div_le_mono; lia. }
    assert (0 <= (endMs - t) / 700) by (apply Z.div_pos; lia). lia.
Qed.

Lemma insertStable_perm ev l : insertStable ev l ≡ₚ ev :: l.
Proof.
  induction l as [|x l IH]; cbn; [done|]. destruct (_ <? _); [done|]. rewrite IH. apply perm_swap.
Qed.

Definition not_later (a b : FaultEvent) : Prop := atMs a ≤ atMs b.

Lemma insertStable_sorted ev l : StronglySorted not_later l → StronglySorted not_later (insertStable ev l).
Proof.
  induction 1 as [|x l Hl IH Hx]; cbn; [by repeat constructor|].
  destruct (Z.ltb_spec (atMs ev) (atMs x)).
  - constructor; [by constructor|]. constructor; [unfold not_later; lia|].
    eapply Forall_impl; [exact Hx|]. unfold not_later. lia.
  - constructor; [done|]. rewrite insertStable_perm. constructor; [unfold not_later; lia|done].
Qed.

Lemma stableSort_spec l : StronglySorted not_later (stableSort l) ∧ stableSort l ≡ₚ l.
Proof.
  unfold stableSort. induction l as [|ev l [IHs IHp]] using rev_ind; [by repeat constructor|].
  rewrite foldl_app. cbn. split; [by apply insertStable_sorted|].
  rewrite insertStable_perm, IHp. apply Permutation_cons_append.
Qed.

Lemma schedule_generated (rng : G) n startMs endMs : (2 ≤ n)%nat →
  ∃ evs, generateFaultSchedule rng n startMs endMs = Some evs ∧
    StronglySorted not_later evs ∧ Forall (event_ok n startMs endMs) evs.
Proof.
  intros Hn. unfold generateFaultSchedule. destruct (pickFrom rng 0 800) as [d g] eqn:Ep.
  apply pickFrom_range in Ep; [|lia].
  destruct (genLoop_ok (scheduleFuel startMs endMs) n (startMs + d) g [] startMs endMs)
    as (evs&->&Hevs); [done|lia|done| |].
  - unfold scheduleFuel. assert ((endMs - (startMs + d)) / 700 <= (endMs - startMs) / 700)
      by (apply Z.div_le_mono; lia). lia.
  - destruct (stableSort_spec evs) as [Hs Hp]. exists (stableSort evs). split_and!; [done|done|].
    by rewrite Hp.
Qed.

End Schedule.
