(* ===== verification/SimClient.v ===== *)
(** * src/faults/sim_client.h, src/faults/sim_client.cpp: the simulated clients

    The clients of the simulation as state machines over virtual time, and the
    history they record.  A client acts on the harness only by tracing and by
    sending requests; these are returned as actions, in order.  Times are
    [std::int64_t], kept as [Z].

    Two expressions of the source draw twice from the generator in operands whose
    order of evaluation C++ leaves open; that order is the parameter [leftFirst]. *)

From Stdlib Require Import NArith ZArith Strings.Byte Lia.
From S2P Require Import Prelude Messages OrdMap Text KvStore OrderBook Linearizability.
From S2P Require Import SimNetwork.

Local Open Scope Z_scope.

(** ** History *)

Definition History : Type := @ordmap (N * N) ClientOp.

Definition identity (o : ClientOp) : N * N := (op_client o, op_seq o).

Definition History_invoke (o : ClientOp) (h : History) : History := om_insert (identity o) o h.

(** [None] is the exception of [at]. *)
Definition History_complete (clientId seqNo : N) (at_ : Z) (result : list byte) (h : History) :
    option History :=
  o ← om_find (clientId, seqNo) h;
  Some (om_insert (clientId, seqNo)
    (mkClientOp (op_client o) (op_seq o) (op_op o) (op_key o) (op_arg o) (op_arg2 o)
       (op_invoke o) at_ result) h).

Definition History_ops (h : History) : list ClientOp := h.*2.

Definition ackedIdentities (h : History) : list (N * N) :=
  (filter (λ p, complete p.2 = true) h).*1.

Definition completedCount (h : History) : nat :=
  foldl (λ n p, n + (if complete p.2 then 1 else 0))%nat 0%nat h.

Definition totalCount (h : History) : nat := length h.

(** ** SimClient *)

Inductive WorkloadKind := KvWorkload | OrderBookWorkload.

#[export] Instance WorkloadKind_eq_dec : EqDecision WorkloadKind.
Proof. solve_decision. Defined.

Record WorkloadConfig := mkWorkload {
  wl_kind : WorkloadKind;
  opsPerClient : N;
  keySpace : N;
  wPut : N; wGet : N; wAppend : N; wCas : N; wDelete : N;
  wNew : N; wCancel : N; wAmend : N;
  priceBase : N; priceBand : N; qtyMax : N;
  requestTimeoutMs : Z;
  retryBackoffMs : Z;
  minGapMs : Z;
  maxGapMs : Z;
  stopIssuingAtMs : Z;
  finalOpAtMs : Z;
}.

Definition defaultWorkload : WorkloadConfig :=
  mkWorkload KvWorkload 12 4 30 25 20 15 10 70 15 15 100 10 10 400 25 200 1200 0 0.

Inductive ClientState := Idle | Waiting | Backoff.

#[export] Instance ClientState_eq_dec : EqDecision ClientState.
Proof. solve_decision. Defined.

(** [ClientOp{}]; its [op] is zero-initialised, which is no operation: key-value
    clients overwrite it and order-book clients do not use it. *)
Definition blankOp : ClientOp := mkClientOp 0 0 Put [] [] [] 0 (-1) [].

Record SimClient {G : Type} := mkSimClient {
  clientId_ : N;
  base_ : NodeId;
  range_ : NodeId;
  sc_rng : G;
  sc_cfg : WorkloadConfig;
  state_ : ClientState;
  opsIssued_ : N;
  markerIssued_ : bool;
  seqNo_ : N;
  current_ : ClientOp;
  currentCommand_ : list byte;
  attempt_ : N;
  attemptEnvelope_ : NodeId;
  target_ : NodeId;
  believedLeader_ : NodeId;
  myOrders_ : list N;
  currentObOp_ : N;
  currentObTarget_ : N;
  deadlineMs_ : Z;
  nextIssueAtMs_ : Z;
}.
#[global] Arguments SimClient : clear implicits.
#[global] Arguments mkSimClient {G}.

(** What a client does to the harness. *)
Inductive ClientAct :=
| ATrace (line : list byte)
| ASend (from to : NodeId) (req : ClientRequest).

Section SimClient.
Context {G : Type} `{!Engine G}.
Context (leftFirst : bool).

Local Abbreviation Client := (SimClient G).

Definition SimClient_new (clientId : N) (envelopeBase envelopeRange : NodeId) (rng : G)
    (cfg : WorkloadConfig) : Client :=
  mkSimClient clientId envelopeBase envelopeRange rng cfg Idle 0 false 0 blankOp [] 0 0 0 0 [] 0 0 0 0.

Definition set_sc_rng (g : G) (c : Client) : Client :=
  mkSimClient (clientId_ c) (base_ c) (range_ c) g (sc_cfg c) (state_ c) (opsIssued_ c)
    (markerIssued_ c) (seqNo_ c) (current_ c) (currentCommand_ c) (attempt_ c) (attemptEnvelope_ c)
    (target_ c) (believedLeader_ c) (myOrders_ c) (currentObOp_ c) (currentObTarget_ c)
    (deadlineMs_ c) (nextIssueAtMs_ c).
Definition set_current (o : ClientOp) (c : Client) : Client :=
  mkSimClient (clientId_ c) (base_ c) (range_ c) (sc_rng c) (sc_cfg c) (state_ c) (opsIssued_ c)
    (markerIssued_ c) (seqNo_ c) o (currentCommand_ c) (attempt_ c) (attemptEnvelope_ c)
    (target_ c) (believedLeader_ c) (myOrders_ c) (currentObOp_ c) (currentObTarget_ c)
    (deadlineMs_ c) (nextIssueAtMs_ c).
Definition set_command (cmd : list byte) (c : Client) : Client :=
  mkSimClient (clientId_ c) (base_ c) (range_ c) (sc_rng c) (sc_cfg c) (state_ c) (opsIssued_ c)
    (markerIssued_ c) (seqNo_ c) (current_ c) cmd (attempt_ c) (attemptEnvelope_ c)
    (target_ c) (believedLeader_ c) (myOrders_ c) (currentObOp_ c) (currentObTarget_ c)
    (deadlineMs_ c) (nextIssueAtMs_ c).
Definition set_obOp (op target : N) (c : Client) : Client :=
  mkSimClient (clientId_ c) (base_ c) (range_ c) (sc_rng c) (sc_cfg c) (state_ c) (opsIssued_ c)
    (markerIssued_ c) (seqNo_ c) (current_ c) (currentCommand_ c) (attempt_ c) (attemptEnvelope_ c)
    (target_ c) (believedLeader_ c) (myOrders_ c) op target (deadlineMs_ c) (nextIssueAtMs_ c).
Definition set_orders (l : list N) (c : Client) : Client :=
  mkSimClient (clientId_ c) (base_ c) (range_ c) (sc_rng c) (sc_cfg c) (state_ c) (opsIssued_ c)
    (markerIssued_ c) (seqNo_ c) (current_ c) (currentCommand_ c) (attempt_ c) (attemptEnvelope_ c)
    (target_ c) (believedLeader_ c) l (currentObOp_ c) (currentObTarget_ c)
    (deadlineMs_ c) (nextIssueAtMs_ c).
Definition set_leader (id : NodeId) (c : Client) : Client :=
  mkSimClient (clientId_ c) (base_ c) (range_ c) (sc_rng c) (sc_cfg c) (state_ c) (opsIssued_ c)
    (markerIssued_ c) (seqNo_ c) (current_ c) (currentCommand_ c) (attempt_ c) (attemptEnvelope_ c)
    (target_ c) id (myOrders_ c) (currentObOp_ c) (currentObTarget_ c)
    (deadlineMs_ c) (nextIssueAtMs_ c).
Definition set_marker (c : Client) : Client :=
  mkSimClient (clientId_ c) (base_ c) (range_ c) (sc_rng c) (sc_cfg c) (state_ c) (opsIssued_ c)
    true (seqNo_ c) (current_ c) (currentCommand_ c) (attempt_ c) (attemptEnvelope_ c)
    (target_ c) (believedLeader_ c) (myOrders_ c) (currentObOp_ c) (currentObTarget_ c)
    (deadlineMs_ c) (nextIssueAtMs_ c).
Definition set_wait (st : ClientState) (deadline : Z) (c : Client) : Client :=
  mkSimClient (clientId_ c) (base_ c) (range_ c) (sc_rng c) (sc_cfg c) st (opsIssued_ c)
    (markerIssued_ c) (seqNo_ c) (current_ c) (currentCommand_ c) (attempt_ c) (attemptEnvelope_ c)
    (target_ c) (believedLeader_ c) (myOrders_ c) (currentObOp_ c) (currentObTarget_ c)
    deadline (nextIssueAtMs_ c).
Definition set_idle (next : Z) (c : Client) : Client :=
  mkSimClient (clientId_ c) (base_ c) (range_ c) (sc_rng c) (sc_cfg c) Idle (opsIssued_ c)
    (markerIssued_ c) (seqNo_ c) (current_ c) (currentCommand_ c) (attempt_ c) (attemptEnvelope_ c)
    (target_ c) (believedLeader_ c) (myOrders_ c) (currentObOp_ c) (currentObTarget_ c)
    (deadlineMs_ c) next.

(** [rng_() % k] *)
Definition roll (k : N) (c : Client) : N * Client :=
  let '(w, g) := next_word (sc_rng c) in ((w mod k)%N, set_sc_rng g c).

(** Two draws in the operands of one expression, in the order the compiler chose. *)
Definition roll2 (k1 k2 : N) (c : Client) : N * N * Client :=
  if leftFirst then
    let '(a, c) := roll k1 c in let '(b, c) := roll k2 c in (a, b, c)
  else
    let '(b, c) := roll k2 c in let '(a, c) := roll k1 c in (a, b, c).

Definition key (c : Client) : list byte * Client :=
  let '(k, c) := roll (keySpace (sc_cfg c)) c in (str "k" ++ to_string k, c).

Definition withOp (op : KvOp) (k arg arg2 : list byte) (o : ClientOp) : ClientOp :=
  mkClientOp (op_client o) (op_seq o) op k arg arg2 (op_invoke o) (op_return o) (op_result o).

Definition issueKvOp (marker : bool) (c : Client) : Client :=
  let '(k, c) := key c in
  let cfg := sc_cfg c in
  let total := (wPut cfg + wGet cfg + wAppend cfg + wCas cfg + wDelete cfg)%N in
  let '(pick, c) := if marker then (0%N, c) else roll total c in
  let unique := str "c" ++ to_string (clientId_ c) ++ str "s" ++ to_string (op_seq (current_ c)) in
  let '(o, c) :=
    if (pick <? wPut cfg)%N then (withOp Put k unique [] (current_ c), c)
    else if (pick <? wPut cfg + wGet cfg)%N then (withOp Get k [] [] (current_ c), c)
    else if (pick <? wPut cfg + wGet cfg + wAppend cfg)%N then
      (withOp Append k unique [] (current_ c), c)
    else if (pick <? wPut cfg + wGet cfg + wAppend cfg + wCas cfg)%N then
      let '(coin, c) := roll 2 c in
      if (coin =? 0)%N then (withOp Cas k [] unique (current_ c), c)
      else
        let '(a, b, c) := roll2 4 6 c in
        (withOp Cas k (str "c" ++ to_string (1 + a) ++ str "s" ++ to_string (1 + b)) unique
           (current_ c), c)
    else (withOp Delete k [] [] (current_ c), c) in
  let c := set_current o c in
  set_command (encodeKvCommand (mkKvCommand (clientId_ c) (op_seq o) (op_op o) (op_key o)
                 (op_arg o) (op_arg2 o))) c.

(** [price()] and [qty()] of a raw draw. *)
Definition priceOf (cfg : WorkloadConfig) (r : N) : N :=
  add64 (sub64 (priceBase cfg) (priceBand cfg)) r.

Definition issueOrderOp (marker : bool) (c : Client) : Client :=
  let cfg := sc_cfg c in
  let total := (wNew cfg + wCancel cfg + wAmend cfg)%N in
  let '(pick, c) := if marker then (0%N, c) else roll total c in
  let pick := if (wNew cfg <=? pick)%N && bool_decide (myOrders_ c = []) then 0%N else pick in
  if (pick <? wNew cfg)%N then
    let c := set_obOp 1 (currentObTarget_ c) c in
    let '(s, c) := roll 2 c in
    let '(p, q, c) := roll2 (2 * priceBand cfg + 1) (qtyMax cfg) c in
    set_command (encodeObNew (clientId_ c) (op_seq (current_ c)) (ObSide_of s) (priceOf cfg p)
                   (1 + q)) c
  else if (pick <? wNew cfg + wCancel cfg)%N then
    let '(i, c) := roll (N.of_nat (length (myOrders_ c))) c in
    let c := set_obOp 2 (default 0%N (myOrders_ c !! N.to_nat i)) c in
    set_command (encodeObCancel (clientId_ c) (op_seq (current_ c)) (currentObTarget_ c)) c
  else
    let '(i, c) := roll (N.of_nat (length (myOrders_ c))) c in
    let c := set_obOp 3 (default 0%N (myOrders_ c !! N.to_nat i)) c in
    let '(p, q, c) := roll2 (2 * priceBand cfg + 1) (qtyMax cfg) c in
    set_command (encodeObAmend (clientId_ c) (op_seq (current_ c)) (currentObTarget_ c)
                   (priceOf cfg p) (1 + q)) c.

Definition onOrderAck (result : list byte) (c : Client) : Client :=
  match decodeObResult result with
  | None => c
  | Some r =>
      let id := if (currentObOp_ c =? 1)%N then res_orderId r else currentObTarget_ c in
      let resting := bool_decide (res_status r = kObOk) && negb (currentObOp_ c =? 2)%N &&
                     (0 <? res_restingQty r)%N in
      match list_find (λ x, x = id) (myOrders_ c) with
      | None => if resting then set_orders (myOrders_ c ++ [id]) c else c
      | Some (i, _) => if negb resting then set_orders (delete i (myOrders_ c)) c else c
      end
  end.

Definition nextTarget (nodeCount : N) (c : Client) : NodeId * Client :=
  if negb (believedLeader_ c =? 0)%N then (believedLeader_ c, c)
  else let '(r, c) := roll nodeCount c in (((1 + r) mod two16)%N, c).

Definition sendAttempt (now : Z) (nodeCount : N) (c : Client) : Client * list ClientAct :=
  let envelope := ((base_ c + attempt_ c mod range_ c) mod two16)%N in
  let '(target, c) := nextTarget nodeCount c in
  let c := mkSimClient (clientId_ c) (base_ c) (range_ c) (sc_rng c) (sc_cfg c) Waiting (opsIssued_ c)
    (markerIssued_ c) (seqNo_ c) (current_ c) (currentCommand_ c) (add64 (attempt_ c) 1) envelope
    target (believedLeader_ c) (myOrders_ c) (currentObOp_ c) (currentObTarget_ c)
    (now + requestTimeoutMs (sc_cfg c)) (nextIssueAtMs_ c) in
  (c, [ASend envelope target (mkClientRequest (clientId_ c) (op_seq (current_ c))
        (currentCommand_ c))]).

Definition issueNextOp (marker : bool) (now : Z) (nodeCount : N) (c : Client) (h : History) :
    Client * History * list ClientAct :=
  let seq := add64 (seqNo_ c) 1 in
  let c := mkSimClient (clientId_ c) (base_ c) (range_ c) (sc_rng c) (sc_cfg c) (state_ c)
    (opsIssued_ c) (markerIssued_ c) seq
    (mkClientOp (clientId_ c) seq (op_op blankOp) [] [] [] now (-1) [])
    (currentCommand_ c) (attempt_ c) (attemptEnvelope_ c) (target_ c) (believedLeader_ c)
    (myOrders_ c) (currentObOp_ c) (currentObTarget_ c) (deadlineMs_ c) (nextIssueAtMs_ c) in
  let c := if decide (wl_kind (sc_cfg c) = OrderBookWorkload) then issueOrderOp marker c
           else issueKvOp marker c in
  let h := History_invoke (current_ c) h in
  let c := mkSimClient (clientId_ c) (base_ c) (range_ c) (sc_rng c) (sc_cfg c) (state_ c)
    (opsIssued_ c + 1) (markerIssued_ c) (seqNo_ c) (current_ c) (currentCommand_ c) (attempt_ c)
    (attemptEnvelope_ c) (target_ c) (believedLeader_ c) (myOrders_ c) (currentObOp_ c)
    (currentObTarget_ c) (deadlineMs_ c) (nextIssueAtMs_ c) in
  let line := str "t=" ++ to_string (Z.to_N now) ++ str " c" ++ to_string (clientId_ c) ++
              str " invoke seq=" ++ to_string (op_seq (current_ c)) in
  let '(c, acts) := sendAttempt now nodeCount c in
  (c, h, ATrace line :: acts).

Definition SimClient_tick (now : Z) (nodeCount : N) (c : Client) (h : History) :
    Client * History * list ClientAct :=
  match state_ c with
  | Idle =>
      if negb (markerIssued_ c) && (finalOpAtMs (sc_cfg c) <=? now) then
        issueNextOp true now nodeCount (set_marker c) h
      else if negb (markerIssued_ c) && (now <? stopIssuingAtMs (sc_cfg c)) &&
              (opsIssued_ c <? opsPerClient (sc_cfg c))%N && (nextIssueAtMs_ c <=? now) then
        issueNextOp false now nodeCount c h
      else (c, h, [])
  | Waiting =>
      if deadlineMs_ c <=? now then
        let '(c, acts) := sendAttempt now nodeCount (set_leader 0 c) in (c, h, acts)
      else (c, h, [])
  | Backoff =>
      if deadlineMs_ c <=? now then
        let '(c, acts) := sendAttempt now nodeCount c in (c, h, acts)
      else (c, h, [])
  end.

(** [None]: the operation is not in the history ([at] would throw). *)
Definition SimClient_onDeliver (now : Z) (from to : NodeId) (m : Message) (c : Client)
    (h : History) : option (Client * History * list (list byte)) :=
  match m with
  | MClientReply r =>
      if negb (bool_decide (state_ c = Waiting)) || negb (to =? attemptEnvelope_ c)%N ||
         negb (from =? target_ c)%N
      then Some (c, h, [])
      else
        match crp_status r with
        | CsOk =>
            let c := if decide (wl_kind (sc_cfg c) = OrderBookWorkload)
                     then onOrderAck (crp_result r) c else c in
            h ← History_complete (clientId_ c) (op_seq (current_ c)) now (crp_result r) h;
            let c := set_leader from c in
            let '(gap, c) := roll (Z.to_N (maxGapMs (sc_cfg c) - minGapMs (sc_cfg c) + 1)) c in
            let c := set_idle (now + minGapMs (sc_cfg c) + Z.of_N gap) c in
            Some (c, h, [str "t=" ++ to_string (Z.to_N now) ++ str " c" ++
                         to_string (clientId_ c) ++ str " ok seq=" ++
                         to_string (op_seq (current_ c))])
        | CsNotLeader | CsError =>
            let hint := crp_leaderHint r in
            let c := if bool_decide (crp_status r = CsNotLeader) && negb (hint =? 0)%N &&
                        negb (hint =? target_ c)%N
                     then set_leader hint c else set_leader 0 c in
            Some (set_wait Backoff (now + retryBackoffMs (sc_cfg c)) c, h, [])
        end
  | _ => Some (c, h, [])
  end.

(** [done()] *)
Definition client_done (c : Client) : bool := markerIssued_ c && bool_decide (state_ c = Idle).

End SimClient.

(** ** A client's session *)

Section Session.
Context {G : Type} `{!Engine G}.
Context (leftFirst : bool).

Local Abbreviation Client := (SimClient G).

(** What happens to a client. *)
Inductive ClientEvent :=
| CTick (now : Z) (nodeCount : N)
| CDeliver (now : Z) (from to : NodeId) (m : Message).

Definition requests (acts : list ClientAct) : list ClientRequest :=
  omap (λ a, match a with ASend _ _ r => Some r | ATrace _ => None end) acts.

Definition client_step (st : Client * History * list ClientRequest) (ev : ClientEvent) :
    option (Client * History * list ClientRequest) :=
  let '(c, h, sent) := st in
  match ev with
  | CTick now n =>
      let '(c, h, acts) := SimClient_tick leftFirst now n c h in Some (c, h, sent ++ requests acts)
  | CDeliver now from to m =>
      p ← SimClient_onDeliver now from to m c h; Some (p.1.1, p.1.2, sent)
  end.

Fixpoint client_run (st : Client * History * list ClientRequest) (evs : list ClientEvent) :
    option (Client * History * list ClientRequest) :=
  match evs with [] => Some st | ev :: evs => st ← client_step st ev; client_run st evs end.

(** The events are observed at times from 0 on. *)
Definition event_time (ev : ClientEvent) : Z :=
  match ev with CTick now _ | CDeliver now _ _ _ => now end.

(** Whose session it is and which operation is current. *)
Definition keeps (c c' : Client) : Prop :=
  clientId_ c' = clientId_ c ∧ seqNo_ c' = seqNo_ c ∧ state_ c' = state_ c ∧
  identity (current_ c') = identity (current_ c) ∧ sc_cfg c' = sc_cfg c ∧
  op_return (current_ c') = op_return (current_ c).

Record session_ok (id : N) (c : Client) (h : History) (sent : list ClientRequest) : Prop := {
  ss_client : clientId_ c = id;
  ss_current : (0 < seqNo_ c)%N → identity (current_ c) = (id, seqNo_ c);
  ss_idle : seqNo_ c = 0%N → state_ c = Idle;
  ss_history s : is_Some (om_find (id, s) h) ↔ (0 < s ≤ seqNo_ c)%N;
  ss_complete s o : om_find (id, s) h = Some o → (s < seqNo_ c)%N ∨ state_ c = Idle →
    complete o = true;
  ss_range r : r ∈ sent → cr_clientId r = id ∧ (0 < cr_seqNo r ≤ seqNo_ c)%N;
  ss_command r : r ∈ sent → cr_seqNo r = seqNo_ c → cr_command r = currentCommand_ c;
  ss_same r r' : r ∈ sent → r' ∈ sent → cr_seqNo r = cr_seqNo r' → cr_command r = cr_command r';
}.

Lemma roll_frame k (c c' : Client) v : roll k c = (v, c') → c' = set_sc_rng (sc_rng c') c.
Proof. unfold roll. destruct (next_word (sc_rng c)) as [w g]. by intros [= _ <-]. Qed.

Lemma roll2_frame k1 k2 (c c' : Client) a b : roll2 leftFirst k1 k2 c = (a, b, c') →
  c' = set_sc_rng (sc_rng c') c.
Proof.
  unfold roll2. destruct leftFirst; destruct (roll _ c) as [x c1] eqn:E1;
    destruct (roll _ c1) as [y c2] eqn:E2; intros [= _ _ <-];
    apply roll_frame in E1, E2; rewrite E2, E1; done.
Qed.

Lemma keeps_rng c g : keeps c (set_sc_rng g c).
Proof. done. Qed.

Lemma keeps_trans c1 c2 c3 : keeps c1 c2 → keeps c2 c3 → keeps c1 c3.
Proof. intros (?&?&?&?&?&?) (?&?&?&?&?&?). split_and!; congruence. Qed.

Lemma keeps_roll k c v c' : roll k c = (v, c') → keeps c c'.
Proof. intros ->%roll_frame. apply keeps_rng. Qed.

Lemma keeps_roll2 k1 k2 c a b c' : roll2 leftFirst k1 k2 c = (a, b, c') → keeps c c'.
Proof. intros ->%roll2_frame. apply keeps_rng. Qed.

Lemma issueKvOp_keeps marker c : keeps c (issueKvOp leftFirst marker c).
Proof.
  unfold issueKvOp, key. destruct (roll _ c) as [k c1] eqn:E1. apply keeps_roll in E1. cbv zeta.
  eapply keeps_trans; [exact E1|]. clear E1 c.
  assert (∃ pick c2, (if marker then (0%N, c1) else roll (wPut (sc_cfg c1) + wGet (sc_cfg c1) +
    wAppend (sc_cfg c1) + wCas (sc_cfg c1) + wDelete (sc_cfg c1)) c1) = (pick, c2) ∧ keeps c1 c2)
    as (pick&c2&->&E2).
  { destruct marker; [by eexists _, _|]. destruct (roll _ c1) as [p c2] eqn:E. apply keeps_roll in E.
    by eexists _, _. }
  eapply keeps_trans; [exact E2|]. generalize (sc_cfg c1). clear E2 c1. intros cfg. cbv beta iota.
  repeat (destruct (_ <? _)%N; [by destruct c2|]).
  destruct (_ <? _)%N; [|by destruct c2].
  destruct (roll 2 c2) as [coin c3] eqn:E3. apply keeps_roll in E3.
  eapply keeps_trans; [exact E3|]. destruct (_ =? _)%N; [by destruct c3|].
  destruct (roll2 leftFirst 4 6 c3) as [[a b] c4] eqn:E4. apply keeps_roll2 in E4.
  eapply keeps_trans; [exact E4|]. by destruct c4.
Qed.

Lemma issueOrderOp_keeps marker c : keeps c (issueOrderOp leftFirst marker c).
Proof.
  unfold issueOrderOp. cbv zeta.
  assert (∃ pick c2, (if marker then (0%N, c) else roll (wNew (sc_cfg c) + wCancel (sc_cfg c) +
    wAmend (sc_cfg c)) c) = (pick, c2) ∧ keeps c c2) as (pick&c2&->&E2).
  { destruct marker; [by eexists _, _|]. destruct (roll _ c) as [p c2] eqn:E. apply keeps_roll in E.
    by eexists _, _. }
  eapply keeps_trans; [exact E2|]. generalize (sc_cfg c). clear E2 c. intros cfg.
  destruct (_ <? _)%N.
  - eapply (keeps_trans _ (set_obOp 1 (currentObTarget_ c2) c2)); [done|].
    destruct (roll 2 _) as [s c3] eqn:E3. apply keeps_roll in E3. eapply keeps_trans; [exact E3|].
    destruct (roll2 leftFirst _ _ c3) as [[p q] c4] eqn:E4. apply keeps_roll2 in E4.
    eapply keeps_trans; [exact E4|]. by destruct c4.
  - destruct (_ <? _)%N.
    + destruct (roll _ c2) as [i c3] eqn:E3. apply keeps_roll in E3.
      eapply keeps_trans; [exact E3|]. by destruct c3.
    + destruct (roll _ c2) as [i c3] eqn:E3. apply keeps_roll in E3.
      eapply keeps_trans; [exact E3|]. clear E3.
      match goal with |- context [set_obOp ?a ?b c3] => set (c4 := set_obOp a b c3) end.
      eapply (keeps_trans _ c4); [done|].
      destruct (roll2 leftFirst _ _ c4) as [[p q] c5] eqn:E4. apply keeps_roll2 in E4.
      eapply keeps_trans; [exact E4|]. by destruct c5.
Qed.

Lemma onOrderAck_keeps result (c : Client) : keeps c (onOrderAck result c) ∧
  currentCommand_ (onOrderAck result c) = currentCommand_ c.
Proof.
  unfold onOrderAck. destruct (decodeObResult result); [|done]. cbv zeta.
  destruct (list_find _ _) as [[? ?]|]; [destruct (negb _)|destruct (_ && _)]; done.
Qed.

Lemma sendAttempt_spec now n (c : Client) : ∃ c' from to,
  sendAttempt now n c = (c', [ASend from to (mkClientRequest (clientId_ c) (op_seq (current_ c))
    (currentCommand_ c))]) ∧
  clientId_ c' = clientId_ c ∧ seqNo_ c' = seqNo_ c ∧ current_ c' = current_ c ∧
  currentCommand_ c' = currentCommand_ c ∧ state_ c' = Waiting.
Proof.
  unfold sendAttempt, nextTarget. destruct (negb _); [by eexists _, _, _|].
  destruct (roll n c) as [r c1] eqn:E. apply roll_frame in E. rewrite E. by eexists _, _, _.
Qed.

(** Sending the current operation again, in whatever state the client is. *)
Lemma session_resend id c c' h sent : session_ok id c h sent → (0 < seqNo_ c)%N →
  clientId_ c' = clientId_ c → seqNo_ c' = seqNo_ c → current_ c' = current_ c →
  currentCommand_ c' = currentCommand_ c → state_ c ≠ Idle → state_ c' ≠ Idle →
  session_ok id c' h (sent ++ [mkClientRequest (clientId_ c) (op_seq (current_ c)) (currentCommand_ c)]).
Proof.
  intros [Hc Hcur Hid Hh Hco Hr Hcmd Hsame] Hpos E1 E2 E3 E4 Hst Hst'.
  injection (Hcur Hpos) as _ Hseq. split; rewrite ?E1, ?E2, ?E3, ?E4; try done.
  - intros E. rewrite E in Hpos. lia.
  - intros s o Hf [Hs|Hs]; [|done]. apply (Hco s o Hf). by left.
  - intros r [Hin| ->%list_elem_of_singleton]%elem_of_app; [by apply Hr|]. cbn. rewrite Hseq.
    split; [done|lia].
  - intros r [Hin| ->%list_elem_of_singleton]%elem_of_app; [by apply Hcmd|done].
  - intros r r' [Hin| ->%list_elem_of_singleton]%elem_of_app [Hin'| ->%list_elem_of_singleton]%elem_of_app;
      cbn; [by apply Hsame| | |done]; rewrite Hseq; intros; [|symmetry]; by apply Hcmd.
Qed.

(** Sending does not change the session otherwise. *)
Lemma session_frame id c c' h sent : session_ok id c h sent → keeps c c' →
  currentCommand_ c' = currentCommand_ c → session_ok id c' h sent.
Proof.
  intros [] (E1&E2&E3&E4&_) E5. split; rewrite ?E1, ?E2, ?E3, ?E4, ?E5; done.
Qed.

Lemma issueNextOp_ok id marker now n c h sent c' h' acts : session_ok id c h sent →
  state_ c = Idle → (seqNo_ c + 1 < two64)%N → issueNextOp leftFirst marker now n c h = (c', h', acts) →
  session_ok id c' h' (sent ++ requests acts) ∧ seqNo_ c' = (seqNo_ c + 1)%N.
Proof.
  intros [Hc Hcur Hid Hh Hco Hr Hcmd Hsame] Hst Hw. unfold issueNextOp. cbv zeta.
  rewrite add64_small by done.
  match goal with |- context [issueOrderOp leftFirst marker ?x] => set (c1 := x) end.
  set (c2 := if decide _ then issueOrderOp leftFirst marker c1 else _).
  assert (keeps c1 c2) as (E1&E2&E3&E4&_).
  { subst c2. destruct (decide _); [apply issueOrderOp_keeps|apply issueKvOp_keeps]. }
  cbn in E1, E2, E3, E4. rewrite Hc in E4. clearbody c2.
  match goal with |- context [sendAttempt now n ?x] =>
    destruct (sendAttempt_spec now n x) as (c3&from&to&->&F1&F2&F3&F4&F5) end.
  cbn in F1, F2, F3, F4. intros [= <- <- <-]. cbn [requests omap list_omap].
  rewrite E1 in *. rewrite E2 in *. injection E4 as Ei Es. rewrite Es.
  assert (identity (current_ c2) = (id, (seqNo_ c + 1)%N)) as Hident by (unfold identity; congruence).
  split; [|done]. split; rewrite ?F1, ?F2, ?F3, ?F4, ?F5; try done; try lia.
  - intros s. unfold History_invoke. rewrite Hident. destruct (decide (s = seqNo_ c + 1)%N) as [->|Hne].
    + rewrite om_find_insert_eq. split; [lia|done].
    + rewrite om_find_insert_ne by congruence. rewrite Hh. lia.
  - intros s o. unfold History_invoke. rewrite Hident. intros Hf [Hs|]; [|done].
    rewrite om_find_insert_ne in Hf by (intros [= ?]; lia). apply (Hco s o Hf). by right.
  - intros r [Hin| ->%list_elem_of_singleton]%elem_of_app; [destruct (Hr r Hin); split; [done|lia]|].
    cbn. split; [done|lia].
  - intros r [Hin| ->%list_elem_of_singleton]%elem_of_app; [destruct (Hr r Hin); lia|done].
  - intros r r' [Hin| ->%list_elem_of_singleton]%elem_of_app [Hin'| ->%list_elem_of_singleton]%elem_of_app;
      cbn; [by apply Hsame| | |done].
    + destruct (Hr r Hin). lia.
    + destruct (Hr r' Hin'). lia.
Qed.

Lemma tick_ok id now n c h sent c' h' acts : session_ok id c h sent →
  (seqNo_ c + 1 < two64)%N → SimClient_tick leftFirst now n c h = (c', h', acts) →
  session_ok id c' h' (sent ++ requests acts) ∧ (seqNo_ c' ≤ seqNo_ c + 1)%N.
Proof.
  intros H Hw. assert (∀ c', keeps c c' → currentCommand_ c' = currentCommand_ c →
    session_ok id c' h (sent ++ requests [])) as Hsame.
  { intros. cbn. rewrite app_nil_r. by apply (session_frame id c). }
  assert (state_ c ≠ Idle → (0 < seqNo_ c)%N) as Hbusy.
  { intros Hst. destruct (decide (seqNo_ c = 0%N)) as [E|]; [|lia]. by apply (ss_idle _ _ _ _ H) in E. }
  unfold SimClient_tick. destruct (state_ c) eqn:Hst.
  - destruct (_ && _).
    { intros (?&->)%(issueNextOp_ok id _ _ _ (set_marker c) h sent); [by split|by eapply session_frame|done|done]. }
    destruct (_ && _).
    { intros (?&->)%(issueNextOp_ok id _ _ _ c h sent); [by split|done|done|done]. }
    intros [= <- <- <-]. split; [by apply Hsame|lia].
  - destruct (_ <=? _); [|intros [= <- <- <-]; split; [by apply Hsame|lia]].
    destruct (sendAttempt_spec now n (set_leader 0 c)) as (c1&from&to&->&F1&F2&F3&F4&F5).
    intros [= <- <- <-]. cbn in *. split; [|lia].
    apply (session_resend id c); [done|by apply Hbusy|done..| |]; congruence.
  - destruct (_ <=? _); [|intros [= <- <- <-]; split; [by apply Hsame|lia]].
    destruct (sendAttempt_spec now n c) as (c1&from&to&->&F1&F2&F3&F4&F5).
    intros [= <- <- <-]. cbn in *. split; [|lia].
    apply (session_resend id c); [done|by apply Hbusy|done..| |]; congruence.
Qed.

(** Completing the current operation. *)
Lemma complete_ok id c c' h sent now result : session_ok id c h sent → state_ c = Waiting → 0 ≤ now →
  clientId_ c' = clientId_ c → seqNo_ c' = seqNo_ c → current_ c' = current_ c →
  currentCommand_ c' = currentCommand_ c → state_ c' = Idle →
  ∃ h', History_complete id (seqNo_ c) now result h = Some h' ∧ session_ok id c' h' sent.
Proof.
  intros [Hc Hcur Hid Hh Hco Hr Hcmd Hsame] Hst Hnow E1 E2 E3 E4 E5. unfold History_complete.
  assert (0 < seqNo_ c)%N as Hpos
    by (destruct (decide (seqNo_ c = 0%N)) as [E|]; [rewrite (Hid E) in Hst; done|lia]).
  destruct (proj2 (Hh (seqNo_ c))) as [o Ho]; [lia|]. rewrite Ho. cbn. eexists. split; [done|].
  split; rewrite ?E1, ?E2, ?E3, ?E4; try done.
  - intros s. destruct (decide (s = seqNo_ c)) as [->|Hne].
    + rewrite om_find_insert_eq. split; [lia|done].
    + rewrite om_find_insert_ne by congruence. apply Hh.
  - intros s o' Hf _. destruct (decide (s = seqNo_ c)) as [->|Hne].
    + rewrite om_find_insert_eq in Hf. injection Hf as <-. unfold complete. cbn. by apply Z.leb_le.
    + rewrite om_find_insert_ne in Hf by congruence. apply (Hco s o' Hf). left.
      assert (is_Some (om_find (id, s) h)) as Hs by (by eexists). apply Hh in Hs. lia.
Qed.

Lemma deliver_session id now from to m c h sent : session_ok id c h sent → 0 ≤ now →
  ∃ c' h' lines, SimClient_onDeliver now from to m c h = Some (c', h', lines) ∧
    session_ok id c' h' sent ∧ seqNo_ c' = seqNo_ c.
Proof.
  intros H Hnow. destruct m as [| | | | |r]; try by (exists c, h, []).
  unfold SimClient_onDeliver. destruct (bool_decide_reflect (state_ c = Waiting)) as [Hst|];
    cbn [negb orb]; [|by exists c, h, []].
  destruct (_ || _); [by exists c, h, []|].
  assert (∀ c', keeps c c' → currentCommand_ c' = currentCommand_ c → ∃ c2 h2 lines,
    Some (set_wait Backoff (now + retryBackoffMs (sc_cfg c')) c', h, ([] : list (list byte))) =
      Some (c2, h2, lines) ∧ session_ok id c2 h2 sent ∧ seqNo_ c2 = seqNo_ c) as Hback.
  { intros c' (K1&K2&K3&K4&K5&_) K6. eexists _, _, _. split_and!; [done| |done].
    destruct H as [Hc Hcur Hid Hh Hco Hr Hcmd Hsame]. split; cbn; rewrite ?K1, ?K2, ?K3, ?K4, ?K5, ?K6; try done.
    - intros E. rewrite (Hid E) in Hst. done.
    - intros s o Hf [Hs|]; [|done]. apply (Hco s o Hf). by left. }
  destruct (crp_status r).
  - cbv zeta. set (c1 := if decide _ then _ else c).
    assert (keeps c c1 ∧ currentCommand_ c1 = currentCommand_ c ∧ current_ c1 = current_ c) as ((K1&K2&K3&K4&K5&_)&K6&K7).
    { subst c1. destruct (decide _); [|done]. destruct (onOrderAck_keeps (crp_result r) c). split_and!; [done|done|].
      unfold onOrderAck. destruct (decodeObResult _); [|done]. cbv zeta.
      destruct (list_find _ _) as [[? ?]|]; [destruct (negb _)|destruct (_ && _)]; done. }
    clearbody c1. assert (clientId_ c1 = id) as Eid by (rewrite K1; apply (ss_client _ _ _ _ H)).
    assert (0 < seqNo_ c)%N as Hpos by (destruct (decide (seqNo_ c = 0%N)) as [E|];
      [rewrite (ss_idle _ _ _ _ H E) in Hst; done|lia]).
    assert (op_seq (current_ c1) = seqNo_ c) as Eseq.
    { rewrite K7. injection (ss_current _ _ _ _ H Hpos) as _ E. done. }
    rewrite Eid, Eseq. destruct (roll _ (set_leader from c1)) as [gap c2] eqn:Er. apply roll_frame in Er.
    destruct (complete_ok id c (set_idle (now + minGapMs (sc_cfg c2) + Z.of_N gap) c2) h sent now
      (crp_result r) H Hst Hnow) as (h'&->&H'); try (rewrite Er; cbn; done || congruence).
    cbn [mbind option_bind]. rewrite Er. eexists _, _, _. split_and!; [done| |cbn; congruence].
    rewrite Er in H'. exact H'.
  - destruct (_ && _); by apply Hback.
  - destruct (_ && _); by apply Hback.
Qed.

Lemma client_run_ok id evs c h sent : session_ok id c h sent → Forall (λ ev, 0 ≤ event_time ev) evs →
  (seqNo_ c + N.of_nat (length evs) < two64)%N →
  ∃ c' h' sent', client_run (c, h, sent) evs = Some (c', h', sent') ∧ session_ok id c' h' sent'.
Proof.
  revert c h sent. induction evs as [|ev evs IH]; intros c h sent H Ht Hw; cbn [client_run].
  { by eexists _, _, _. }
  apply Forall_cons in Ht as [Ht Hts]. cbn [length] in Hw. destruct ev as [now n|now from to m]; cbn [client_step].
  - destruct (SimClient_tick leftFirst now n c h) as [[c1 h1] acts] eqn:E.
    destruct (tick_ok id now n c h sent c1 h1 acts H ltac:(lia) E) as [H1 Hs].
    cbn [mbind option_bind]. apply IH; [done|done|lia].
  - destruct (deliver_session id now from to m c h sent H Ht) as (c1&h1&lines&->&H1&Hs).
    cbn. apply IH; [done|done|]. rewrite Hs. lia.
Qed.

Lemma session_start id base range (rng : G) cfg h : (∀ s, om_find (id, s) h = None) →
  session_ok id (SimClient_new id base range rng cfg) h [].
Proof.
  intros Hh. split; try done; cbn; try lia.
  - intros s. rewrite Hh. split; [by intros []|lia].
  - intros s o. by rewrite Hh.
  - by intros r ?%elem_of_nil.
  - by intros r ?%elem_of_nil.
  - by intros r r' ?%elem_of_nil.
Qed.

(** What a client does to a history it shares: it touches its own operations
    only, and the responses it records are of the present. *)
Definition own_changes (id : N) (now : Z) (h h' : History) : Prop :=
  (∀ id' s, id' ≠ id → om_find (id', s) h' = om_find (id', s) h) ∧
  (∀ p, p ∈ h' → p ∈ h ∨ op_return p.2 = -1 ∨ op_return p.2 = now).

Lemma own_changes_refl id now h : own_changes id now h h.
Proof. split; [done|]. intros p Hp. by left. Qed.

Lemma own_changes_insert id s now o h : op_return o = -1 ∨ op_return o = now →
  own_changes id now h (om_insert (id, s) o h).
Proof.
  intros Ho. split.
  - intros id' s' Hne. by rewrite om_find_insert_ne by congruence.
  - intros p [->|Hp]%om_insert_elem; [by right|by left].
Qed.

Lemma issueNextOp_own marker now n c h c' h' acts :
  issueNextOp leftFirst marker now n c h = (c', h', acts) → own_changes (clientId_ c) now h h'.
Proof.
  unfold issueNextOp. cbv zeta.
  match goal with |- context [issueOrderOp leftFirst marker ?x] => set (c1 := x) end.
  set (c2 := if decide _ then issueOrderOp leftFirst marker c1 else _).
  assert (keeps c1 c2) as (_&_&_&[= E _]&_&Er).
  { subst c2. destruct (decide _); [apply issueOrderOp_keeps|apply issueKvOp_keeps]. }
  cbn in E, Er. destruct (sendAttempt _ _ _). intros [= _ <- _].
  unfold History_invoke, identity. rewrite E. apply own_changes_insert. by left.
Qed.

Lemma tick_own now n c h c' h' acts : SimClient_tick leftFirst now n c h = (c', h', acts) →
  own_changes (clientId_ c) now h h'.
Proof.
  unfold SimClient_tick. destruct (state_ c).
  - destruct (_ && _); [apply issueNextOp_own|]. destruct (_ && _); [apply issueNextOp_own|].
    intros [= _ <- _]. apply own_changes_refl.
  - destruct (_ <=? _); [destruct (sendAttempt _ _ _)|]; intros [= _ <- _]; apply own_changes_refl.
  - destruct (_ <=? _); [destruct (sendAttempt _ _ _)|]; intros [= _ <- _]; apply own_changes_refl.
Qed.

Lemma deliver_own now from to m c h c' h' lines :
  SimClient_onDeliver now from to m c h = Some (c', h', lines) → own_changes (clientId_ c) now h h'.
Proof.
  unfold SimClient_onDeliver. destruct m as [| | | | |r];
    try by (intros [= _ <- _]; apply own_changes_refl).
  destruct (_ || _); [intros [= _ <- _]; apply own_changes_refl|].
  destruct (crp_status r); [|intros [= _ <- _]; apply own_changes_refl..].
  cbv zeta. set (c1 := if decide _ then _ else c).
  assert (clientId_ c1 = clientId_ c) as ->.
  { subst c1. destruct (decide _); [|done]. apply (onOrderAck_keeps (crp_result r) c). }
  intros (h1&Hc&Hr)%bind_Some. destruct (roll _ _). injection Hr as _ <- _.
  unfold History_complete in Hc. apply bind_Some in Hc as (o&_&[= <-]).
  apply own_changes_insert. by right.
Qed.

(** Another client's changes do not disturb a session. *)
Lemma session_other id id' now c h h' sent : session_ok id c h sent → own_changes id' now h h' →
  id ≠ id' → session_ok id c h' sent.
Proof.
  intros [] [Hf _] Hne. split; try done; intros s; rewrite Hf by done; [apply ss_history0|apply ss_complete0].
Qed.

(** A client keeps to its session.  Whatever replies arrive, early, late or
    forged, and however often it times out: it never touches an unknown history
    entry; every request it sends carries its id and a sequence number from 1 on;
    two requests with the same number carry the same command, so a retry is
    never a new operation; and it starts an operation only when all earlier ones
    are complete. *)
Theorem client_session id base range (rng : G) cfg evs :
  Forall (λ ev, 0 ≤ event_time ev) evs → (N.of_nat (length evs) < two64)%N →
  ∃ c h sent, client_run (SimClient_new id base range rng cfg, [], []) evs = Some (c, h, sent) ∧
    (∀ r, r ∈ sent → cr_clientId r = id ∧ (0 < cr_seqNo r ≤ seqNo_ c)%N) ∧
    (∀ r r', r ∈ sent → r' ∈ sent → cr_seqNo r = cr_seqNo r' → cr_command r = cr_command r') ∧
    (∀ s, is_Some (om_find (id, s) h) ↔ (0 < s ≤ seqNo_ c)%N) ∧
    (∀ s o, om_find (id, s) h = Some o → (s < seqNo_ c)%N → complete o = true).
Proof.
  intros Ht Hl. destruct (client_run_ok id evs (SimClient_new id base range rng cfg) [] [])
    as (c&h&sent&E&[]); [by apply session_start|done|done|].
  exists c, h, sent. split_and!; try done. intros s o Hf Hs. eapply ss_complete0; [done|by left].
Qed.

End Session.

(** ** A client *)
Module ClientSample.

#[local] Instance counting : Engine N := λ g, (g mod two64, g + 1)%N.

(** An operation at 5 ms, a timeout and a retry at 405 ms, then the answer. *)
Definition retried : list ClientEvent :=
  [CTick 5 3; CTick 405 3; CDeliver 407 1 1001 (MClientReply (mkClientReply CsOk 1 [kKvOk]))].

Definition busyWorkload : WorkloadConfig :=
  mkWorkload KvWorkload 12 4 30 25 20 15 10 70 15 15 100 10 10 400 25 200 1200 1000 2000.

Definition client7 : SimClient N := SimClient_new 7 1000 4000 2%N busyWorkload.

Lemma client_session_witness :
  option_map (λ p, map cr_seqNo p.2) (client_run true (client7, [], []) retried) = Some [1; 1]%N ∧
  ∃ c h sent, client_run true (client7, [], []) retried = Some (c, h, sent) ∧
    (∀ r, r ∈ sent → cr_clientId r = 7%N ∧ (0 < cr_seqNo r ≤ seqNo_ c)%N) ∧
    (∀ r r', r ∈ sent → r' ∈ sent → cr_seqNo r = cr_seqNo r' → cr_command r = cr_command r') ∧
    (∀ s, is_Some (om_find (7%N, s) h) ↔ (0 < s ≤ seqNo_ c)%N) ∧
    (∀ s o, om_find (7%N, s) h = Some o → (s < seqNo_ c)%N → complete o = true).
Proof.
  split; [by vm_compute|].
  apply (client_session true 7 1000 4000 2%N busyWorkload retried); [|by vm_compute].
  by repeat constructor.
Defined.

(** The order in which a compiler evaluates [price()] and [qty()] shows in the
    command: the same seed gives different order flow. *)
Lemma argument_order_shows :
  currentCommand_ (issueOrderOp true true client7) ≠ currentCommand_ (issueOrderOp false true client7).
Proof. by vm_compute. Qed.

End ClientSample.
