(* ===== verification/Chaos.v ===== *)
(** * src/faults/chaos.h, src/faults/chaos.cpp: the chaos driver

    One seeded chaos run: the harness, the fault schedule and the clients put
    together, the main loop, and the assertions on the end state.  The run ends,
    and the monitors say no more about it than [monitors_silent] allows. *)

From Stdlib Require Import NArith ZArith Strings.Byte Lia.
From S2P Require Import Prelude Messages Log RaftCore OrdMap Text KvStore OrderBook.
From S2P Require Import Linearizability ClientService Checkers SimNetwork SimHarness.
From S2P Require Import Cluster RaftSpec RaftInv RaftRefine RaftSafety HarnessSafety HarnessProgress FaultSchedule SimClient.

Local Open Scope N_scope.

(** ** Seeds *)

Definition splitmix64 (x : N) : N :=
  let x := add64 x 11400714819323198485 in
  let x := (N.lxor x (N.shiftr x 30) * 13787848793156543929) mod two64 in
  let x := (N.lxor x (N.shiftr x 27) * 10723151780598845931) mod two64 in
  N.lxor x (N.shiftr x 31).

(** [sub(k)] *)
Definition subSeed (seed k : N) : N := splitmix64 (N.lxor seed (splitmix64 k)).

Inductive ChaosSm := ChaosKv | ChaosOrderBook.

#[export] Instance ChaosSm_eq_dec : EqDecision ChaosSm.
Proof. solve_decision. Defined.

(** The counts are positive [int]s. *)
Record ChaosOptions := mkChaosOptions {
  co_sm : ChaosSm;
  co_nodes : nat;
  co_clients : nat;
  co_opsPerClient : N;
  faultStartMs : Z;
  faultEndMs : Z;
  maxMs : Z;
  co_durableStorage : bool;
  co_recordTrace : bool;
}.

Definition defaultChaos : ChaosOptions := mkChaosOptions ChaosKv 3 4 12 1500 20000 40000 true false.

Record ChaosReport := mkChaosReport {
  rp_seed : N;
  rp_pass : bool;
  rp_violations : list (list byte);
  rp_endMs : N;
  rp_totalOps : nat;
  rp_completedOps : nat;
  rp_faultEvents : nat;
  rp_crashes : nat;
  rp_finalTerm : N;
  rp_finalCommitIndex : N;
  rp_trace : list (list byte);
  rp_committedCommands : list (list byte);
  rp_finalBookImage : list byte;
}.

Definition summary (r : ChaosReport) : list byte :=
  foldl (λ s v, s ++ [x0a] ++ str "  VIOLATION: " ++ v)
    (str "seed=" ++ to_string (rp_seed r) ++ (if rp_pass r then str " PASS" else str " FAIL") ++
     str " endMs=" ++ to_string (rp_endMs r) ++ str " ops=" ++ zu (rp_completedOps r) ++ str "/" ++
     zu (rp_totalOps r) ++ str " faults=" ++ zu (rp_faultEvents r) ++ str " crashes=" ++
     zu (rp_crashes r) ++ str " term=" ++ to_string (rp_finalTerm r) ++ str " commit=" ++
     to_string (rp_finalCommitIndex r))
    (rp_violations r).

(** What the endpoints close over: the clients, their common history, and whether
    a call threw ([History::complete]'s [at], on an operation it does not hold). *)
Record World {G : Type} := mkWorld {
  w_clients : list (SimClient G);
  w_history : History;
  w_threw : bool;
}.
#[global] Arguments World : clear implicits.
#[global] Arguments mkWorld {G}.

(** ** The run *)

Section Chaos.
Context {P L SM R K G : Type}.
Context `{!PersistentState P} `{!RaftLog L} `{!StateMachine SM} `{!Rng R} `{!ApplySink K}.
Context `{!Engine G}.
Context (storage_ : NodeId → nat → option (P * L) → P * L).
Context (smFactory_ : NodeId → SM).
Context (seedRng : N → R) (seedEngine : N → G).
Context (leftFirst : bool).
(** The [dynamic_cast] to the order book. *)
Context (asBook : SM → option OrderBookStateMachine).

Local Abbreviation Harness := (@SimHarness P L SM R K G (World G)).

(** The lambda each client registers. *)
Definition onClientDeliver (k : nat) (from to : NodeId) (m : Message) (now : N) (w : World G) :
    World G * list (list byte) :=
  match w_clients w !! k with
  | None => (w, [])
  | Some c =>
      match SimClient_onDeliver (Z.of_N now) from to m c (w_history w) with
      | Some (c, hist, lines) => (mkWorld (<[k := c]> (w_clients w)) hist (w_threw w), lines)
      | None => (mkWorld (w_clients w) (w_history w) true, [])
      end
  end.

Definition act (h : Harness) (a : ClientAct) : Harness :=
  match a with
  | ATrace line => traceEvent line h
  | ASend from to req => clientSend from to (MClientRequest req) h
  end.

(** [c->tick()] *)
Definition tickClient (h : Harness) (k : nat) : Harness :=
  let w := world_ h in
  match w_clients w !! k with
  | None => h
  | Some c =>
      let '(c, hist, acts) := SimClient_tick leftFirst (Z.of_N (nowMs h))
                                (N.of_nat (nodeCount h)) c (w_history w) in
      foldl act (set_world (mkWorld (<[k := c]> (w_clients w)) hist (w_threw w)) h) acts
  end.

Definition chaosHarnessOptions (seed : N) (o : ChaosOptions) : HarnessOptions :=
  mkHarnessOptions
    ((λ i, mkSimNodeConfig (subSeed seed (1000 + N.of_nat i)) defaultConfig) <$> seq 0 (co_nodes o))
    (subSeed seed 1) 25 (co_recordTrace o)
    (Some (λ id inc, subSeed seed (2000 + 64 * id + N.of_nat inc))).

Definition chaosWorkload (o : ChaosOptions) : WorkloadConfig :=
  mkWorkload (match co_sm o with ChaosOrderBook => OrderBookWorkload | ChaosKv => KvWorkload end)
    (co_opsPerClient o) 4 30 25 20 15 10 70 15 15 100 10 10 400 25 200 1200
    (faultEndMs o) (faultEndMs o + 1500).

Definition chaosClient (seed : N) (o : ChaosOptions) (i : nat) : SimClient G :=
  SimClient_new (N.of_nat i + 1) ((1000 + N.of_nat i * 4000) mod two16) 4000
    (seedEngine (subSeed seed (3000 + N.of_nat i))) (chaosWorkload o).

(** The [SimClient] constructor registers the client's envelope ids. *)
Definition addClient (seed : N) (o : ChaosOptions) (h : Harness) (i : nat) : Harness :=
  let c := chaosClient seed o i in
  registerEndpoint (base_ c) ((base_ c + range_ c - 1) mod two16) i
    (set_world (mkWorld (w_clients (world_ h) ++ [c]) (w_history (world_ h)) (w_threw (world_ h))) h).

Definition chaosStart (seed : N) (o : ChaosOptions) : Harness :=
  let h := SimHarness_new storage_ smFactory_ seedRng seedEngine (chaosHarnessOptions seed o)
             (mkWorld [] [] false) in
  let h := set_net (setLatency 1 3 (net_ h)) h in
  foldl (addClient seed o) h (seq 0 (co_clients o)).

(** [while (nextEvent < size && schedule[nextEvent].atMs <= nowMs)] *)
Fixpoint applyDue (schedule : list FaultEvent) (pickRng : G) (h : Harness) :
    list FaultEvent * G * Harness :=
  match schedule with
  | [] => ([], pickRng, h)
  | ev :: rest =>
      if (atMs ev <=? Z.of_N (nowMs h))%Z then
        let '(h, pickRng) := applyFaultEvent storage_ smFactory_ seedRng ev pickRng h in
        applyDue rest pickRng h
      else (ev :: rest, pickRng, h)
  end.

Definition healAll (h : Harness) : Harness :=
  let h := traceEvent (str "t=" ++ to_string (nowMs h) ++ str " heal-all") h in
  let h := set_net (heal (net_ h)) h in
  let h := set_net (setDrop dzero (net_ h)) h in
  let h := set_net (setLatency 1 3 (net_ h)) h in
  let h := set_net (setReorder dzero 0 (net_ h)) h in
  foldl (λ h id, restart storage_ smFactory_ seedRng id h) h (deadNodes h).

Definition allClientsDone (h : Harness) : bool := forallb client_done (w_clients (world_ h)).

(** The main loop: faults, clients, one virtual millisecond.  [None] is fuel
    running out, in the loop or in a step. *)
Fixpoint chaosLoop (fuel : nat) (o : ChaosOptions) (schedule : list FaultEvent) (pickRng : G)
    (healed : bool) (h : Harness) : option Harness :=
  match fuel with
  | O => None
  | S fuel =>
      if (Z.of_N (nowMs h) <? maxMs o)%Z then
        let '(schedule, pickRng, h) := applyDue schedule pickRng h in
        let healNow := negb healed && (faultEndMs o <=? Z.of_N (nowMs h))%Z in
        let h := if healNow then healAll h else h in
        let healed := healed || healNow in
        let h := foldl tickClient h (seq 0 (length (w_clients (world_ h)))) in
        h ← stepMs_ onClientDeliver h;
        if healed && (faultEndMs o + 2000 <=? Z.of_N (nowMs h))%Z && allClientsDone h && quiescent h
        then Some h
        else chaosLoop fuel o schedule pickRng healed h
      else Some h
  end.

(** Every turn is a millisecond. *)
Definition chaosFuel (o : ChaosOptions) : nat := S (Z.to_nat (maxMs o)).

(** ** The end state *)

Definition livenessText (hist : History) : list byte :=
  str "LIVENESS: " ++ zu (completedCount hist) ++ str "/" ++ zu (totalCount hist) ++
  str " client ops acknowledged — outstanding ops did not complete within the healing window".

Definition convergenceText : list byte :=
  str "CONVERGENCE: cluster did not converge to a single leader with identical, fully-applied logs after healing".

Definition ackLostText (acked : N * N) : list byte :=
  str "NO LOST COMMIT: acknowledged op (client " ++ to_string acked.1 ++ str ", seq " ++
  to_string acked.2 ++ str ") is missing from the final committed log".

Definition notBookText (id : NodeId) : list byte :=
  str "BOOK IDENTITY: node " ++ to_string id ++ str " is not running the order-book SM".

Definition bookText (id : NodeId) (book fold : list byte) : list byte :=
  str "BOOK IDENTITY: node " ++ to_string id ++
  str "'s book/session state diverges from the committed-sequence fold" ++ [x0a] ++ str "node:" ++
  [x0a] ++ book ++ str "fold:" ++ [x0a] ++ fold.

(** [log.entryAt(i)] for [i] from 1 to [commit]. *)
Definition committedEntries (leader : @NodeRt P L SM R K) : list LogEntry :=
  omap (λ i, log_entryAt (log_ (core leader)) (N.of_nat i))
    (seq 1 (N.to_nat (commitIndex_ (core leader)))).

Definition lostCommits (committed : list LogEntry) (hist : History) : list (list byte) :=
  let committedIds := omap (λ e, commandIdentity (e_command e)) committed in
  ackLostText <$> filter (λ acked, acked ∉ committedIds) (ackedIdentities hist).

Definition replayBook (committed : list LogEntry) : OrderBookStateMachine :=
  foldl (λ b e, (OrderBook_apply b (e_command e)).2) OrderBook_init committed.

Definition bookCheck (replay : OrderBookStateMachine) (nd : @NodeRt P L SM R K) : list (list byte) :=
  if alive nd then
    match asBook (sm_ (core nd)) with
    | None => [notBookText (nr_id nd)]
    | Some book =>
        if decide (OrderBook_serialize book = OrderBook_serialize replay) then []
        else [bookText (nr_id nd) (bookImage book) (bookImage replay)]
    end
  else [].

(** [leaders[0]] *)
Definition firstLeader (h : Harness) : option (@NodeRt P L SM R K) :=
  id ← head (liveLeaders h); nodeAt id h.

Definition livenessReport (h : Harness) : list (list byte) :=
  if allClientsDone h then [] else [livenessText (w_history (world_ h))].

Definition convergenceReport (h : Harness) : list (list byte) :=
  if quiescent h then [] else [convergenceText].

Definition lostReport (h : Harness) : list (list byte) :=
  match firstLeader h with
  | Some leader => lostCommits (committedEntries leader) (w_history (world_ h))
  | None => []
  end.

Definition bookReport (o : ChaosOptions) (h : Harness) : list (list byte) :=
  match firstLeader h with
  | Some leader =>
      if decide (co_sm o = ChaosOrderBook)
      then nodes_ h ≫= bookCheck (replayBook (committedEntries leader)) else []
  | None => []
  end.

Definition linReport (o : ChaosOptions) (h : Harness) : option (list (list byte)) :=
  if decide (co_sm o = ChaosOrderBook) then Some []
  else
    lin ← checkLinearizable (History_ops (w_history (world_ h)));
    Some (if lr_ok lin then [] else [str "LINEARIZABILITY: " ++ explanation lin]).

Definition report (seed : N) (o : ChaosOptions) (schedule : list FaultEvent) (h : Harness) :
    option ChaosReport :=
  let live := livenessReport h ++ convergenceReport h in
  let endMs := nowMs h in
  let h := finalCheck h in
  lin ← linReport o h;
  let viol := live ++ violations h ++ lostReport h ++ bookReport o h ++ lin in
  let book := bool_decide (co_sm o = ChaosOrderBook) in
  let hist := w_history (world_ h) in
  let committed := match firstLeader h with Some leader => committedEntries leader | None => [] end in
  Some (mkChaosReport seed (bool_decide (viol = [])) viol endMs
    (totalCount hist) (completedCount hist)
    (length schedule) (length (filter (λ ev, isCrash ev = true) schedule))
    (match firstLeader h with Some leader => currentTerm (core leader) | None => 0 end)
    (match firstLeader h with Some leader => commitIndex_ (core leader) | None => 0 end)
    (trace_ h)
    (if book then e_command <$> committed else [])
    (match firstLeader h with
     | Some leader => if book then bookImage (replayBook committed) else []
     | None => []
     end)).

(** The state the run ends in; [None] is fuel running out. *)
Definition finalState (seed : N) (o : ChaosOptions) (schedule : list FaultEvent) : option Harness :=
  chaosLoop (chaosFuel o) o schedule (seedEngine (subSeed seed 3)) false (chaosStart seed o).

End Chaos.

(** [None]: fuel ran out, or an exception ended the run.  [storages] are the two
    storage factories, the files of a temporary directory and [inMemoryStorage],
    between which [durableStorage] chooses. *)
Definition runChaos {P L SM R K G : Type} `{!PersistentState P} `{!RaftLog L} `{!StateMachine SM} `{!Rng R}
    `{!ApplySink K} `{!Engine G} (storages : bool → NodeId → nat → option (P * L) → P * L)
    (smFactory_ : NodeId → SM) (seedRng : N → R) (seedEngine : N → G) (leftFirst : bool)
    (asBook : SM → option OrderBookStateMachine) (seed : N) (o : ChaosOptions) : option ChaosReport :=
  let storage := storages (co_durableStorage o) in
  schedule ← generateFaultSchedule (seedEngine (subSeed seed 2)) (co_nodes o)
               (faultStartMs o) (faultEndMs o);
  h ← finalState (K:=K) storage smFactory_ seedRng seedEngine leftFirst seed o schedule;
  if w_threw (world_ h) then None else report asBook seed o schedule h.

(** ** The run ends and the monitors watched a run of the cluster *)

Section ChaosRun.
Context {P L SM R K G : Type}.
Context `{!PersistentState P} `{!RaftLog L} `{!StateMachine SM} `{!Rng R} `{!ApplySink K}.
Context `{!Engine G} `{!PersistentStateLaws P} `{!RaftLogLaws L}.
Context (storage_ : NodeId → nat → option (P * L) → P * L).
Context (smFactory_ : NodeId → SM) (sm0 : SM).
Context (seedRng : N → R) (seedEngine : N → G) (leftFirst : bool).
Context (asBook : SM → option OrderBookStateMachine).

Local Abbreviation Harness := (@SimHarness P L SM R K G (World G)).
Local Abbreviation hruns := (hruns onClientDeliver storage_ smFactory_ seedRng).
Local Abbreviation hstep := (hstep onClientDeliver storage_ smFactory_ seedRng).
Local Abbreviation applyFaultEvent := (applyFaultEvent storage_ smFactory_ seedRng).
Local Abbreviation restart := (restart storage_ smFactory_ seedRng).

(** Client [i] is in its session and has started at most [b i] operations, and
    the responses recorded are not later than [k]. *)
Record world_ok (b : nat → N) (k : nat) (w : World G) : Prop := {
  wo_client i c : w_clients w !! i = Some c →
    ∃ sent, session_ok (N.of_nat (S i)) c (w_history w) sent ∧ seqNo_ c ≤ b i;
  wo_return p : p ∈ w_history w → (op_return p.2 ≤ Z.of_nat k)%Z;
  wo_threw : w_threw w = false;
}.

Lemma world_ok_mono b b' k k' w : world_ok b k w → (∀ i, b i ≤ b' i) → (k ≤ k')%nat → world_ok b' k' w.
Proof.
  intros [Hc Hr Ht] Hb Hk. split; [|intros p Hp; specialize (Hr p Hp); lia|done].
  intros i c Hi. destruct (Hc i c Hi) as (sent&?&?). exists sent. split; [done|]. specialize (Hb i). lia.
Qed.

(** What one client does keeps the others in their sessions. *)
Lemma world_ok_update b b' k i c c' w hist sent : world_ok b k w → w_clients w !! i = Some c →
  own_changes (N.of_nat (S i)) (Z.of_nat k) (w_history w) hist →
  session_ok (N.of_nat (S i)) c' hist sent → seqNo_ c' ≤ b' i → (∀ j, j ≠ i → b j ≤ b' j) →
  world_ok b' k (mkWorld (<[i := c']> (w_clients w)) hist (w_threw w)).
Proof.
  intros [Hc Hr Ht] Hi Hown Hs Hle Hb. split; cbn; [|intros p Hp|done].
  - intros j cj Hj. destruct (decide (j = i)) as [->|Hne].
    + rewrite list_lookup_insert_eq in Hj by (by eapply lookup_lt_Some). injection Hj as <-. by exists sent.
    + rewrite list_lookup_insert_ne in Hj by done. destruct (Hc j cj Hj) as (sj&Hsj&Hlj). exists sj.
      split; [|specialize (Hb j Hne); lia]. eapply session_other; [done|done|lia].
  - destruct Hown as [_ Hown]. destruct (Hown p Hp) as [Hin|[->| ->]]; [by apply Hr|lia|lia].
Qed.

Lemma world_call b k w w' : world_ok b k w →
  called_at onClientDeliver (1000000 * N.of_nat k) w w' → world_ok b k w'.
Proof.
  intros H (i&from&to&m&->). unfold onClientDeliver. destruct (w_clients w !! i) as [c|] eqn:Hi; [|done].
  rewrite N.mul_comm, N.div_mul, nat_N_Z by done. destruct (wo_client _ _ _ H i c Hi) as (sent&Hs&Hle).
  destruct (deliver_session _ (Z.of_nat k) from to m c _ sent Hs) as (c'&hist&lines&E&Hs'&Eq); [lia|].
  rewrite E. cbn. eapply world_ok_update; [done|done| |done|by rewrite Eq|done].
  rewrite <-(ss_client _ _ _ _ Hs). by eapply deliver_own.
Qed.

Lemma world_calls b k w w' : rtc (called_at onClientDeliver (1000000 * N.of_nat k)) w w' →
  world_ok b k w → world_ok b k w'.
Proof. induction 1; [done|]. eauto using world_call. Qed.

(** What the driver of a chaos run does: faults, turns of clients, milliseconds.
    There are no crashes once it has [healed] the cluster, and it has done so by the
    time [until]. *)
Inductive cstep (until : Z) (healed : bool) (h : Harness) : nat → Harness → Prop :=
| cs_step h' : stepMs_ onClientDeliver h = Some h' → cstep until healed h 1 h'
| cs_crash id : healed = false → cstep until healed h 0 (crash id h)
| cs_restart id : healed = false → 0 < id → cstep until healed h 0 (restart id h)
| cs_killLeader : healed = false → cstep until healed h 0 (killLeader h).2
| cs_net f : cstep until healed h 0 (set_net (netFault f (net_ h)) h)
| cs_tick i : (healed = false → (Z.of_N (nowMs h) < until)%Z) →
    cstep until healed h 0 (tickClient leftFirst h i)
| cs_trace v : cstep until healed h 0 (traceEvent v h)
| cs_finalCheck : cstep until healed h 0 (finalCheck h).

Inductive cruns (until : Z) (h : Harness) : bool → nat → Harness → Prop :=
| cruns_refl : cruns until h false 0 h
| cruns_next healed k d h1 h2 : cruns until h healed k h1 → cstep until healed h1 d h2 →
    cruns until h healed (k + d) h2
| cruns_heal k h1 : cruns until h false k h1 → cruns until h true k h1.

Lemma hruns_more h0 k h h' : hruns h0 k h → hstep h 0 h' → hruns h0 k h'.
Proof. intros Hr Hs. rewrite <-(Nat.add_0_r k). by eapply hruns_next. Qed.

Lemma hruns_tick h0 k h i : hruns h0 k h → hruns h0 k (tickClient leftFirst h i).
Proof.
  intros Hr. unfold tickClient. destruct (w_clients (world_ h) !! i) as [c|]; [|done].
  destruct (SimClient_tick _ _ _ _ _) as [[c' hist] acts].
  assert (∀ h', hruns h0 k h' → hruns h0 k (foldl act h' acts)) as Hacts.
  { induction acts as [|a acts IH]; intros h' H'; [done|]. cbn. apply IH.
    destruct a; eapply hruns_more; [done|apply hs_trace|done|apply hs_clientSend]. }
  apply Hacts. eapply hruns_more; [done|apply hs_world].
Qed.

(** They are steps of the harness. *)
Lemma cruns_hruns until h0 h1 k0 healed k h : hruns h0 k0 h1 → cruns until h1 healed k h → hruns h0 (k0 + k) h.
Proof.
  intros H0. induction 1 as [|healed k d h2 h3 _ IH Hs|]; [by rewrite Nat.add_0_r| |done]. rewrite Nat.add_assoc.
  destruct Hs; try (eapply hruns_next; [exact IH|by econstructor]).
  rewrite Nat.add_0_r. by apply hruns_tick.
Qed.

(** [k] milliseconds after [h0], with delays of at least a millisecond. *)
Record at_ms (until : Z) (h0 : Harness) (healed : bool) (b : nat → N) (k : nat) (h : Harness) : Prop := {
  am_run : cruns until h0 healed k h;
  am_delayed : delayed h;
  am_clock : clock h = 1000000 * N.of_nat k;
  am_world : world_ok b k (world_ h);
}.

Lemma at_nowMs until h0 healed b k h : at_ms until h0 healed b k h → nowMs h = N.of_nat k.
Proof. intros [_ _ E _]. unfold nowMs. by rewrite E, N.mul_comm, N.div_mul. Qed.

(** What neither the network nor the clients nor the clock notice. *)
Definition aside (h h' : Harness) : Prop :=
  net_ h' = net_ h ∧ clock h' = clock h ∧ world_ h' = world_ h.

Lemma aside_trace v (h : Harness) : aside h (traceEvent v h).
Proof. unfold traceEvent. by destruct (recordTrace _). Qed.

Lemma aside_crash id (h : Harness) : aside h (crash id h).
Proof. exact (aside_trace _ (updateNode id (set_alive false) h)). Qed.

Lemma aside_restart id (h : Harness) : aside h (restart id h).
Proof.
  unfold SimHarness.restart. destruct (nodeAt id h) as [nd|]; [|done]. destruct (alive nd); [done|].
  destruct (buildNode _ _ _ _ _ _ _ _) as [[c s]|]; [|done].
  exact (aside_trace _ (updateNode id (λ _, mkNodeRt id _ true (start (clock h) c) s) h)).
Qed.

Lemma aside_killLeader (h : Harness) : aside h (killLeader h).2.
Proof. unfold killLeader. destruct (foldl _ _ _).1; [apply aside_crash|done]. Qed.

Section At.
Context (until : Z) (h0 : Harness) (healed : bool) (k : nat).

Lemma at_step b (h h' : Harness) : at_ms until h0 healed b k h → cstep until healed h 0 h' → clock h' = clock h → delayed h' →
  world_ h' = world_ h → at_ms until h0 healed b k h'.
Proof.
  intros [Hr _ Hc Hw] Hst E Hd Ew. split; [|done|by rewrite E|by rewrite Ew].
  rewrite <-(Nat.add_0_r k). by eapply cruns_next.
Qed.

Lemma at_aside b (h h' : Harness) : at_ms until h0 healed b k h → cstep until healed h 0 h' → aside h h' → at_ms until h0 healed b k h'.
Proof.
  intros H Hst (E&?&?). eapply at_step; [done..| |done]. unfold delayed. rewrite E. apply (am_delayed _ _ _ _ _ _ H).
Qed.

Lemma at_trace b v (h : Harness) : at_ms until h0 healed b k h → at_ms until h0 healed b k (traceEvent v h).
Proof. intros H. eapply at_aside; [done|apply cs_trace|apply aside_trace]. Qed.

Lemma at_crash b id (h : Harness) : healed = false → at_ms until h0 healed b k h → at_ms until h0 healed b k (crash id h).
Proof. intros Hh H. eapply at_aside; [done|by apply cs_crash|apply aside_crash]. Qed.

Lemma at_restart b id (h : Harness) : healed = false → at_ms until h0 healed b k h → 0 < id → at_ms until h0 healed b k (restart id h).
Proof. intros Hh H Hid. eapply at_aside; [done|by apply cs_restart|apply aside_restart]. Qed.

Lemma at_net b f (h : Harness) : at_ms until h0 healed b k h →
  (∀ min max, f = FLatency min max → 0 < min) → at_ms until h0 healed b k (set_net (netFault f (net_ h)) h).
Proof.
  intros H Hf. eapply at_step; [done|apply cs_net|done| |done]. destruct (am_delayed _ _ _ _ _ _ H) as [Hq Hl].
  destruct f; try done. split; [done|]. cbn. by eapply Hf.
Qed.

Lemma at_fold {X} (f : Harness → X → Harness) b l (h : Harness) :
  (∀ h x, x ∈ l → at_ms until h0 healed b k h → at_ms until h0 healed b k (f h x)) → at_ms until h0 healed b k h → at_ms until h0 healed b k (foldl f h l).
Proof.
  revert h. induction l as [|x l IH]; intros h Hf H; [done|]. cbn. apply IH.
  - intros. apply Hf; [by right|done].
  - apply Hf; [by left|done].
Qed.

Lemma acts_frame acts (h : Harness) : let h' := foldl act h acts in
  clock h' = clock h ∧ world_ h' = world_ h ∧ (delayed h → delayed h').
Proof.
  cbv zeta. revert h. induction acts as [|a acts IH]; intros h; [done|]. cbn [foldl].
  destruct (IH (act h a)) as (->&->&Hd). destruct a as [v|from to req]; cbn [act] in *.
  - destruct (aside_trace v h) as (En&->&->). split_and!; [done|done|]. unfold delayed in *. by rewrite En in Hd.
  - split_and!; [done|done|]. intros H. apply Hd.
    by apply (only_sends_due onClientDeliver _ _ (only_sends_send _ from to (MClientRequest req) h)).
Qed.

Lemma at_tickClient b b' (h : Harness) i : at_ms until h0 healed b k h → b i + 1 < two64 → b' i = b i + 1 →
  (∀ j, j ≠ i → b' j = b j) → (healed = false → (Z.of_nat k < until)%Z) →
  at_ms until h0 healed b' k (tickClient leftFirst h i).
Proof.
  intros H Hsmall Ei Ej Hun. destruct H as [Hr Hd Hclk Hw].
  assert (nowMs h = N.of_nat k) as Enow by (unfold nowMs; by rewrite Hclk, N.mul_comm, N.div_mul).
  assert (cruns until h0 healed k (tickClient leftFirst h i)) as Hr'.
  { rewrite <-(Nat.add_0_r k). eapply cruns_next; [done|apply cs_tick]. by rewrite Enow, nat_N_Z. }
  unfold tickClient in *. destruct (w_clients (world_ h) !! i) as [c|] eqn:Hc.
  - destruct (SimClient_tick _ _ _ _ _) as [[c' hist] acts] eqn:Et.
    match type of Hr' with cruns _ _ _ _ (foldl act ?x acts) => destruct (acts_frame acts x) as (Ec&Ew&Hd') end.
    split; [done|by apply Hd'|by rewrite Ec|]. rewrite Ew. cbn.
    rewrite Enow, nat_N_Z in Et. destruct (wo_client _ _ _ Hw i c Hc) as (sent&Hs&Hle).
    destruct (tick_ok _ _ _ _ _ _ sent _ _ _ Hs ltac:(lia) Et) as [Hs' Hle'].
    eapply world_ok_update; [done|done| |done|lia|intros j Hj; rewrite (Ej j Hj); lia].
    rewrite <-(ss_client _ _ _ _ Hs). by eapply tick_own.
  - split; try done. eapply world_ok_mono; [exact Hw| |done].
    intros j. destruct (decide (j = i)) as [->|Hne]; [lia|by rewrite Ej].
Qed.

(** Every client takes its turn. *)
Lemma at_tickClients l (h : Harness) : N.of_nat k + 1 < two64 → (healed = false → (Z.of_nat k < until)%Z) → NoDup l →
  at_ms until h0 healed (λ i, if decide (i ∈ l) then N.of_nat k else N.of_nat (S k)) k h →
  at_ms until h0 healed (λ _, N.of_nat (S k)) k (foldl (tickClient leftFirst) h l).
Proof.
  intros Hk Hun. revert h. induction l as [|i l IH]; intros h Hnd H; cbn [foldl].
  { destruct H as [? ? ? Hw]. split; try done. }
  apply NoDup_cons in Hnd as [Hi Hnd]. apply IH; [done|]. eapply at_tickClient; [exact H|..]; cbn beta.
  - rewrite decide_True by (by left). done.
  - rewrite decide_False, decide_True by (done || by left). lia.
  - intros j Hj. destruct (decide (j ∈ l)); [rewrite decide_True by (by right)|
      rewrite decide_False by set_solver]; done.
  - done.
Qed.

End At.

(** ** The driver's own steps *)

(** A node's storage is empty at first and afterwards holds what its last
    process left, and all nodes start from the same state machine. *)
Context (storage_fresh : ∀ id, let pl := storage_ id 0 None in
  ps_currentTerm pl.1 = 0 ∧ ps_votedFor pl.1 = None ∧ log_entries pl.2 = []).
Context (storage_reopen : ∀ id inc p l, let pl := storage_ id inc (Some (p, l)) in
  ps_currentTerm pl.1 = ps_currentTerm p ∧ ps_votedFor pl.1 = ps_votedFor p ∧
  log_entries pl.2 = log_entries l).
Context (smFactory_same : ∀ id, smFactory_ id = sm0).
Context (seed : N) (o : ChaosOptions).

Definition chaosBoot : Harness :=
  SimHarness_new storage_ smFactory_ seedRng seedEngine (chaosHarnessOptions seed o)
    (mkWorld [] [] false).

Definition chaosStarted : Harness := chaosStart storage_ smFactory_ seedRng seedEngine seed o.

(** The clients join before anything happens. *)
Lemma chaosStarted_run : hruns chaosBoot 0 chaosStarted.
Proof.
  unfold chaosStarted, chaosStart. cbv zeta. fold chaosBoot.
  assert (hruns chaosBoot 0 (set_net (setLatency 1 3 (net_ chaosBoot)) chaosBoot)) as H.
  { eapply hruns_more; [apply hruns_refl|apply (hs_net _ _ _ _ _ (FLatency 1 3))]. }
  revert H. generalize (set_net (setLatency 1 3 (net_ chaosBoot)) chaosBoot).
  induction (seq 0 (co_clients o)) as [|i l IH]; intros h H; [done|]. cbn. apply IH. unfold addClient. cbv zeta.
  eapply hruns_more; [|apply hs_register]. eapply hruns_more; [exact H|apply hs_world].
Qed.

Local Abbreviation run_at := (at_ms (faultEndMs o) chaosStarted).

Lemma at_hruns healed b k h : run_at healed b k h → hruns chaosBoot k h.
Proof. intros [Hr _ _ _]. by apply (cruns_hruns _ _ _ 0 _ k h chaosStarted_run Hr). Qed.

Lemma at_hrel healed b k h : run_at healed b k h → N.of_nat k < two64 →
  ∃ A s, hrel (nodeIds (co_nodes o)) defaultConfig sm0 A s h.
Proof.
  intros Hr%at_hruns Hk. eapply harness_run_ok in Hr as [H _]; [exact H|apply nodeIds_NoDup|done..| | |done].
  - cbn. by rewrite length_fmap, length_seq.
  - apply Forall_fmap, Forall_true. done.
Qed.

Lemma at_deadNodes healed b k h id : run_at healed b k h → N.of_nat k < two64 → id ∈ deadNodes h → 0 < id.
Proof.
  intros H Hk. destruct (at_hrel healed b k h H Hk) as (A&s&Hh). unfold deadNodes.
  intros (nd&->&[_ [i Hi]%list_elem_of_lookup]%list_elem_of_filter)%list_elem_of_fmap.
  destruct (hr_node _ _ _ _ _ _ Hh i nd Hi) as [-> _]. lia.
Qed.

Lemma pickOne_elem v (g : G) id g' : pickOne v g = (Some id, g') → id ∈ v.
Proof.
  unfold pickOne. destruct v as [|x v]; [done|]. destruct (below g _) as [i g1].
  intros [= Hl _]. by eapply list_elem_of_lookup_2.
Qed.

Lemma at_fault b k h ev (g : G) n from until : run_at false b k h → N.of_nat k < two64 →
  event_ok n from until ev → run_at false b k (applyFaultEvent ev g h).1.
Proof.
  intros H Hk (_&_&Hlat&_). unfold FaultSchedule.applyFaultEvent. cbv zeta.
  apply (at_trace _ _ _ _ _ (describe ev)) in H. set (h1 := traceEvent (describe ev) h) in *. clearbody h1.
  destruct (kind ev); cbn [fst].
  - apply (at_net _ _ _ _ _ (FPartition (groups ev))); [done|by intros].
  - apply (at_net _ _ _ _ _ FHeal); [done|by intros].
  - apply (at_net _ _ _ _ _ (FDrop (probability ev))); [done|by intros].
  - apply (at_net _ _ _ _ _ (FLatency (Z.to_N (latencyMinMs ev)) (Z.to_N (latencyMaxMs ev)))); [done|].
    intros ? ? [= <- <-]. specialize (Hlat eq_refl). lia.
  - apply (at_net _ _ _ _ _ (FReorder (probability ev) (Z.to_N (reorderExtraMs ev)))); [done|by intros].
  - destruct (pickOne _ g) as [[id|] g'] eqn:E; [by apply at_crash|done].
  - destruct (pickOne _ g) as [[id|] g'] eqn:E; [|done]. apply at_restart; [done|done|].
    eapply at_deadNodes; [done|done|]. by eapply pickOne_elem.
  - eapply at_aside; [done|by apply cs_killLeader|apply aside_killLeader].
Qed.

(** Every event is due by the end of the fault phase. *)
Lemma at_due b k schedule (g : G) h n from : run_at false b k h → N.of_nat k < two64 →
  Forall (event_ok n from (faultEndMs o)) schedule → ∃ schedule' g' h',
  applyDue storage_ smFactory_ seedRng schedule g h = (schedule', g', h') ∧
  run_at false b k h' ∧ Forall (event_ok n from (faultEndMs o)) schedule' ∧
  ((faultEndMs o ≤ Z.of_nat k)%Z → schedule' = []).
Proof.
  intros H Hk Hs. revert g h H. induction Hs as [|ev rest Hev Hrest IH]; intros g h H; cbn [applyDue].
  { by exists [], g, h. }
  rewrite (at_nowMs _ _ _ _ _ _ H), nat_N_Z. destruct (Z.leb_spec (atMs ev) (Z.of_nat k)) as [Hle|Hgt].
  - pose proof (at_fault _ _ _ _ g _ _ _ H Hk Hev) as H1.
    destruct (applyFaultEvent ev g h) as [h1 g1]. by apply IH.
  - exists (ev :: rest), g, h. split_and!; [done|done|by constructor|]. destruct Hev as [? _]. lia.
Qed.

Lemma at_healAll b k h : run_at false b k h → N.of_nat k < two64 →
  run_at true b k (healAll storage_ smFactory_ seedRng h).
Proof.
  intros H Hk. unfold healAll. cbv zeta.
  eapply at_trace in H. apply (at_net _ _ _ _ _ FHeal) in H; [|by intros].
  apply (at_net _ _ _ _ _ (FDrop dzero)) in H; [|by intros].
  apply (at_net _ _ _ _ _ (FLatency 1 3)) in H; [|by intros ? ? [= <- _]].
  apply (at_net _ _ _ _ _ (FReorder dzero 0)) in H; [|by intros]. cbn [netFault] in H.
  match goal with |- run_at true b k ?x => assert (run_at false b k x) as [Hr ? ? ?];
    [|split; [by apply cruns_heal|done..]] end.
  apply at_fold; [|exact H]. intros h' id Hid H'. apply at_restart; [done|done|].
  exact (at_deadNodes _ _ _ _ _ H Hk Hid).
Qed.

Lemma at_stepMs healed k h : run_at healed (λ _, N.of_nat (S k)) k h →
  ∃ h', stepMs_ onClientDeliver h = Some h' ∧
    run_at healed (λ _, N.of_nat (S k)) (S k) h'.
Proof.
  intros [Hr Hd Hc Hw]. destruct (stepMs_drains onClientDeliver (S (inFlight (net_ h))) h Hd)
    as (h'&E&Hd'&_&Hc'&Hw'); [lia|]. exists h'. split; [done|].
  assert (clock h' = 1000000 * N.of_nat (S k)) as Hclk by (rewrite Hc', Hc; unfold after; lia).
  split; [|done|done|].
  - rewrite <-Nat.add_1_r. eapply cruns_next; [done|by apply cs_step].
  - rewrite Hclk in Hw'. eapply world_calls; [exact Hw'|]. eapply world_ok_mono; [done|done|lia].
Qed.

(** ** The loop *)

Lemma chaosLoop_ends fuel schedule (g : G) healed h k n from :
  run_at healed (λ _, N.of_nat k) k h → Forall (event_ok n from (faultEndMs o)) schedule →
  (healed = true → schedule = []) →
  (maxMs o < 2 ^ 63)%Z → (Z.of_nat k ≤ Z.max 0 (maxMs o))%Z → (Z.max 0 (maxMs o) < Z.of_nat (k + fuel))%Z →
  ∃ h' healed' k', chaosLoop storage_ smFactory_ seedRng leftFirst fuel o schedule g healed h = Some h' ∧
    run_at healed' (λ _, N.of_nat k') k' h' ∧ (Z.of_nat k' ≤ Z.max 0 (maxMs o))%Z.
Proof.
  intros H Hs Hnil Hmax. revert schedule g healed h k H Hs Hnil.
  induction fuel as [|fuel IH]; intros schedule g healed h k H Hs Hnil Hk Hf; [lia|]. cbn [chaosLoop].
  rewrite (at_nowMs _ _ _ _ _ _ H), nat_N_Z. destruct (Z.ltb_spec (Z.of_nat k) (maxMs o)) as [Hlt|Hge];
    [|exists h, healed, k; split_and!; [done|done|lia]].
  assert (N.of_nat k + 1 < two64) as Hk64 by (unfold two64; lia).
  assert (∃ schedule1 g1 h1, applyDue storage_ smFactory_ seedRng schedule g h = (schedule1, g1, h1) ∧
    run_at healed (λ _, N.of_nat k) k h1 ∧ Forall (event_ok n from (faultEndMs o)) schedule1 ∧
    (healed = true ∨ (faultEndMs o ≤ Z.of_nat k)%Z → schedule1 = [])) as (schedule1&g1&h1&->&H1&Hs1&Hnil1).
  { destruct healed.
    - rewrite Hnil by done. by exists [], g, h.
    - destruct (at_due _ _ _ g _ _ _ H ltac:(lia) Hs) as (schedule1&g1&h1&E&H1&Hs1&Hd).
      exists schedule1, g1, h1. split_and!; [done|done|done|]. intros [?|?]; [done|by apply Hd]. }
  cbv zeta. rewrite (at_nowMs _ _ _ _ _ _ H1), nat_N_Z.
  set (hn := negb healed && (faultEndMs o <=? Z.of_nat k)%Z). set (h2 := if hn then _ else h1).
  assert (run_at (healed || hn) (λ _, N.of_nat k) k h2) as H2.
  { subst h2 hn. destruct healed; [done|]. cbn. destruct (_ <=? _)%Z; [apply at_healAll; [done|lia]|done]. }
  assert (healed || hn = true → schedule1 = []) as Hnil2.
  { intros Hh. apply Hnil1. subst hn. destruct healed; [by left|right]. by apply Z.leb_le in Hh. }
  assert (healed || hn = false → (Z.of_nat k < faultEndMs o)%Z) as Hun.
  { subst hn. destruct healed; [done|]. cbn. intros Hh%Z.leb_gt. done. }
  clearbody h2. set (healed' := healed || hn) in *. clearbody healed'. clear hn.
  assert (run_at healed' (λ _, N.of_nat (S k)) k
    (foldl (tickClient leftFirst) h2 (seq 0 (length (w_clients (world_ h2)))))) as H3.
  { apply at_tickClients; [done|done|apply NoDup_seq|]. destruct H2 as [? ? ? [Hc ? ?]]. split; [done..|].
    split; [|done..]. intros i c Hi. rewrite decide_True; [by apply Hc|].
    apply elem_of_seq. apply lookup_lt_Some in Hi. lia. }
  destruct (at_stepMs _ _ _ H3) as (h4&->&H4). cbn [mbind option_bind].
  destruct (_ && _); [exists h4, healed', (S k); split_and!; [done|done|lia]|].
  apply (IH _ _ _ _ (S k)); [done|done|done|lia|lia].
Qed.

(** The state the clients start in. *)
Lemma chaosStarted_world : net_ chaosStarted = setLatency 1 3 (net_ chaosBoot) ∧ clock chaosStarted = 0 ∧
  world_ chaosStarted = mkWorld (chaosClient seedEngine seed o <$> seq 0 (co_clients o)) [] false.
Proof.
  unfold chaosStarted, chaosStart. cbv zeta. fold chaosBoot.
  assert (∀ l (h : Harness), let h' := foldl (addClient seedEngine seed o) h l in
    net_ h' = net_ h ∧ clock h' = clock h ∧ world_ h' = mkWorld (w_clients (world_ h) ++
      (chaosClient seedEngine seed o <$> l)) (w_history (world_ h)) (w_threw (world_ h))) as Hl.
  { cbv zeta. induction l as [|i l IH]; intros h; cbn [foldl fmap list_fmap].
    - rewrite app_nil_r. by destruct h as [? ? ? ? [] ? ? ? ? ? ? ? ?].
    - destruct (IH (addClient seedEngine seed o h i)) as (->&->&->). cbn. by rewrite <-app_assoc. }
  destruct (Hl (seq 0 (co_clients o)) (set_net (setLatency 1 3 (net_ chaosBoot)) chaosBoot)) as (->&->&->). done.
Qed.

Lemma at_start : run_at false (λ _, 0) 0 chaosStarted.
Proof.
  destruct chaosStarted_world as (En&Ec&Ew). split; [constructor| |by rewrite Ec|rewrite Ew].
  - unfold delayed. rewrite En. split; [constructor|done].
  - split; cbn; [|by intros ? ?%elem_of_nil|done]. intros i c Hi. exists [].
    rewrite list_lookup_fmap in Hi. destruct (seq 0 (co_clients o) !! i) as [j|] eqn:Ej; [|done].
    apply lookup_seq in Ej as [-> _]. injection Hi as <-. split; [|cbn; lia].
    unfold chaosClient. replace (N.of_nat (S i)) with (N.of_nat (0 + i) + 1) by lia. by apply session_start.
Qed.

(** ** What the report says *)

(** The cast finds the book when the order book is what runs. *)
Context (asBook_cast : co_sm o = ChaosOrderBook → asBook sm0 = Some OrderBook_init ∧
  ∀ sm b cmd, asBook sm = Some b → asBook (sm_apply sm cmd).2 = Some (OrderBook_apply b cmd).2).

Lemma asBook_run es : co_sm o = ChaosOrderBook → asBook (run_sm sm0 es) = Some (replayBook es).
Proof.
  intros [H0 Hstep]%asBook_cast. unfold run_sm, replayBook. revert H0. generalize sm0, OrderBook_init.
  induction es as [|e es IH]; intros sm b H; [done|]. cbn. by apply IH, Hstep.
Qed.

Lemma committed_take A s (h : Harness) i leader : hrel (nodeIds (co_nodes o)) defaultConfig sm0 A s h →
  nodes_ h !! i = Some leader →
  committedEntries leader =
    take (N.to_nat (commitIndex_ (core leader))) (a_log A (nr_id leader)) ∧
  covered (nodeIds (co_nodes o)) A (a_term A (nr_id leader)) (a_log A (nr_id leader))
    (N.to_nat (commitIndex_ (core leader))).
Proof.
  intros H Hi. destruct (hr_node _ _ _ _ _ _ H _ _ Hi) as (_&Hc&_).
  pose proof (hr_cluster _ _ _ _ _ _ H) as Hcl. pose proof (cl_node _ _ _ _ Hcl _ _ Hc) as Hok.
  pose proof (inv_commit _ _ (cl_inv _ _ _ _ Hcl) (nr_id leader)) as Hcov.
  rewrite <-(ok_commit _ _ _ _ _ Hok) in Hcov. split; [|done]. unfold committedEntries.
  rewrite entries_upto, (ok_log _ _ _ _ _ Hok); [done|].
  rewrite (ok_log _ _ _ _ _ Hok). by eapply covered_length.
Qed.

Lemma firstLeader_at (h : Harness) leader : firstLeader h = Some leader → ∃ i, nodes_ h !! i = Some leader.
Proof. unfold firstLeader, nodeAt. intros (id&_&H)%bind_Some. by exists (slot id). Qed.

Lemma quiescent_nodes (h : Harness) leader : quiescent h = true → firstLeader h = Some leader →
  Forall (λ nd, commitIndex_ (core nd) = commitIndex_ (core leader) ∧
    lastApplied_ (core nd) = commitIndex_ (core nd)) (nodes_ h).
Proof.
  unfold quiescent, firstLeader. intros [_ H]%andb_prop Hl. destruct (liveLeaders h) as [|id l]; [done|].
  cbn in Hl. rewrite Hl in H. apply Forall_forall. intros nd Hnd.
  apply (forallb_forall _ (nodes_ h)) with (x := nd) in H; [|by apply list_elem_of_In].
  rewrite !andb_true_iff, !N.eqb_eq in H. tauto.
Qed.

Lemma bind_all_nil {X Y} (f : X → list Y) l : (∀ x, x ∈ l → f x = []) → l ≫= f = [].
Proof.
  induction l as [|x l IH]; intros H; [done|]. cbn. rewrite (H x) by (by left). apply IH.
  intros y Hy. apply H. by right.
Qed.

Lemma bookReport_silent A s (h : Harness) : hrel (nodeIds (co_nodes o)) defaultConfig sm0 A s h →
  quiescent h = true → bookReport asBook o h = [].
Proof.
  intros H Hq. unfold bookReport. destruct (firstLeader h) as [leader|] eqn:El; [|done].
  destruct (decide _) as [Hob|]; [|done]. pose proof (quiescent_nodes h leader Hq El) as Hall.
  destruct (firstLeader_at h leader El) as [i Hi]. destruct (committed_take A s h i leader H Hi) as [-> Hcov].
  pose proof (hr_cluster _ _ _ _ _ _ H) as Hcl.
  assert (∀ nd, nd ∈ nodes_ h → bookCheck asBook (replayBook (take (N.to_nat (commitIndex_ (core leader)))
    (a_log A (nr_id leader)))) nd = []) as Hnd.
  { intros nd Hin. apply list_elem_of_lookup in Hin as [j Hj].
    destruct (Forall_lookup_1 _ _ _ _ Hall Hj) as [Ec Ea].
    destruct (hr_node _ _ _ _ _ _ H _ _ Hj) as (_&Hc&Hk).
    destruct (sm_covered _ _ A s _ _ Hcl Hc Hk) as (b&l&Esm&Hcov'). rewrite Ea, Ec in Esm, Hcov'.
    unfold bookCheck. destruct (alive nd); [|done].
    destruct (covered_agree _ _ (cl_inv _ _ _ _ Hcl) _ _ _ _ _ Hcov' Hcov) as (_&_&E).
    rewrite Esm, E, asBook_run by done. by rewrite decide_True. }
  by apply bind_all_nil.
Qed.

(** A run of at least two nodes within the range of the clock ends, in a state
    the driver's steps lead to. *)
Lemma runChaos_final : (2 ≤ co_nodes o)%nat → (maxMs o < 2 ^ 63)%Z →
  ∃ schedule h healed k, generateFaultSchedule (seedEngine (subSeed seed 2)) (co_nodes o)
      (faultStartMs o) (faultEndMs o) = Some schedule ∧
    finalState storage_ smFactory_ seedRng seedEngine leftFirst seed o schedule = Some h ∧
    run_at healed (λ _, N.of_nat k) k h ∧ (Z.of_nat k ≤ Z.max 0 (maxMs o))%Z.
Proof.
  intros Hn Hmax. destruct (schedule_generated (seedEngine (subSeed seed 2)) (co_nodes o)
    (faultStartMs o) (faultEndMs o) Hn) as (schedule&E&_&Hs).
  destruct (chaosLoop_ends (chaosFuel o) schedule (seedEngine (subSeed seed 3)) false _ 0 _ _
    at_start Hs ltac:(done) Hmax) as (h&healed&k&Eh&H&Hk); [lia|unfold chaosFuel; lia|].
  by exists schedule, h, healed, k.
Qed.

Lemma history_in_range healed k h : run_at healed (λ _, N.of_nat k) k h → (Z.of_nat k < 2 ^ 63)%Z →
  Forall in_range (History_ops (w_history (world_ h))).
Proof.
  intros H Hk. apply Forall_fmap, Forall_forall. intros p Hp.
  pose proof (wo_return _ _ _ (am_world _ _ _ _ _ _ H) p Hp). unfold in_range, kInf. cbn. lia.
Qed.

Lemma quiescent_leader (h : Harness) : quiescent h = true → is_Some (firstLeader h).
Proof.
  unfold quiescent, firstLeader. intros [_ H]%andb_prop. destruct (liveLeaders h) as [|id l]; [done|].
  cbn. by destruct (nodeAt id h).
Qed.

(** The operations the committed log of a node holds. *)
Definition committedIds (leader : @NodeRt P L SM R K) : list (N * N) :=
  omap (λ e, commandIdentity (e_command e)) (committedEntries leader).

Lemma lostReport_nil (h : Harness) leader : firstLeader h = Some leader →
  lostReport h = [] ↔ ∀ acked, acked ∈ ackedIdentities (w_history (world_ h)) → acked ∈ committedIds leader.
Proof.
  intros El. unfold lostReport, lostCommits. rewrite El. fold (committedIds leader). split.
  - intros E acked Hin. apply fmap_nil_inv in E. destruct (decide (acked ∈ committedIds leader)) as [|Hno]; [done|].
    assert (acked ∈ filter (λ a, a ∉ committedIds leader) (ackedIdentities (w_history (world_ h)))) as Hf
      by (by apply list_elem_of_filter). rewrite E in Hf. by apply elem_of_nil in Hf.
  - intros H. destruct (filter _ _) as [|a l] eqn:E; [done|].
    assert (a ∈ filter (λ a, a ∉ committedIds leader) (ackedIdentities (w_history (world_ h)))) as Hf
      by (rewrite E; by left). apply list_elem_of_filter in Hf as [Hno Hin]. by apply H in Hin.
Qed.

(** The verdict of a run that ended in [h], before the last sweep. *)
Definition good_end (h : Harness) : Prop :=
  allClientsDone h = true ∧ quiescent h = true ∧ violations h = [] ∧
  (∀ leader, firstLeader h = Some leader →
     ∀ acked, acked ∈ ackedIdentities (w_history (world_ h)) → acked ∈ committedIds leader) ∧
  (co_sm o = ChaosKv → linearizable (History_ops (w_history (world_ h)))).

Lemma linReport_spec healed k h : run_at healed (λ _, N.of_nat k) k h → (Z.of_nat k < 2 ^ 63)%Z →
  ∃ lin, linReport o h = Some lin ∧
    (lin = [] ↔ (co_sm o = ChaosKv → linearizable (History_ops (w_history (world_ h))))).
Proof.
  intros H Hk. unfold linReport. destruct (decide _) as [E|Hne].
  { exists []. split; [done|]. rewrite E. done. }
  destruct (checkLinearizable_keys _ (history_in_range healed k h H Hk)) as (r&->&Hiff&_). cbn.
  eexists. split; [done|]. rewrite <-linearizable_keys in Hiff.
  destruct (co_sm o); [|done]. destruct (lr_ok r); [|split; [done|]]; [tauto|].
  intros Hl. specialize (Hl eq_refl). apply Hiff in Hl. done.
Qed.

Lemma report_spec schedule healed k h : run_at healed (λ _, N.of_nat k) k h → (Z.of_nat k < 2 ^ 63)%Z →
  ∃ r, report asBook seed o schedule h = Some r ∧ rp_endMs r = N.of_nat k ∧
    (rp_pass r = true ↔ good_end (finalCheck h)).
Proof.
  intros H Hk. assert (N.of_nat k < two64) as Hk64.
  { change two64 with 18446744073709551616. change (2 ^ 63)%Z with 9223372036854775808%Z in Hk. lia. }
  destruct (at_hrel _ _ _ _ H Hk64) as (A&s&Hh).
  unfold report. cbv zeta. change (linReport o (finalCheck h)) with (linReport o h).
  destruct (linReport_spec healed k h H Hk) as (lin&->&Hlin). cbn [mbind option_bind].
  eexists. split; [done|]. cbn [rp_endMs rp_pass]. split; [by apply at_nowMs in H|].
  rewrite bool_decide_eq_true, !app_nil. unfold good_end.
  change (allClientsDone (finalCheck h)) with (allClientsDone h).
  change (quiescent (finalCheck h)) with (quiescent h).
  change (world_ (finalCheck h)) with (world_ h). rewrite Hlin. unfold livenessReport, convergenceReport.
  destruct (allClientsDone h); [|naive_solver]. destruct (quiescent h) eqn:Eq; [|naive_solver].
  change (bookReport asBook o (finalCheck h)) with (bookReport asBook o h).
  rewrite (bookReport_silent A s h Hh Eq). destruct (quiescent_leader h Eq) as [leader El].
  change (firstLeader (finalCheck h)) with (firstLeader h).
  change (lostReport (finalCheck h)) with (lostReport h). rewrite (lostReport_nil h leader El), El. naive_solver.
Qed.

(** C9: a chaos run ends with a sound verdict.  On storage that starts empty and
    gives a restarted node back what it had saved (the default [durableStorage];
    [inMemoryStorage] forgets), with at least two nodes and a time limit the clock
    can represent, the run terminates within that limit, throws no exception, and
    returns a report.  It passes exactly when, in the state [h] in which its own loop
    ended, swept once more by the monitors, every client is done, the cluster is
    quiescent, no monitor complained, the leader's committed log holds every
    acknowledged operation and (for the key-value store) the history of the clients is
    linearizable; in an order-book run the replicas' books then equal the fold of the
    committed sequence by themselves.  The monitors' only possible complaint is the
    win of an election in a term that a node has left behind. *)
Theorem runChaos_verdict storages : storages (co_durableStorage o) = storage_ →
  (2 ≤ co_nodes o)%nat → (maxMs o < 2 ^ 63)%Z →
  ∃ schedule h r k, generateFaultSchedule (seedEngine (subSeed seed 2)) (co_nodes o)
      (faultStartMs o) (faultEndMs o) = Some schedule ∧
    finalState storage_ smFactory_ seedRng seedEngine leftFirst seed o schedule = Some h ∧
    runChaos (K:=K) storages smFactory_ seedRng seedEngine leftFirst asBook seed o = Some r ∧
    hruns chaosBoot k h ∧ rp_endMs r = N.of_nat k ∧ (Z.of_nat k ≤ Z.max 0 (maxMs o))%Z ∧
    (rp_pass r = true ↔ good_end (finalCheck h)) ∧
    Forall (λ v, ∃ n t text nd, v = format (winText n t ++ text) ∧
      nd ∈ nodes_ h ∧ t < currentTerm (core nd)) (violations (finalCheck h)).
Proof.
  intros Hst Hn Hmax. destruct (runChaos_final Hn Hmax) as (schedule&h&healed&k&Es&Eh&H&Hk).
  assert (Z.of_nat k < 2 ^ 63)%Z as Hk63 by lia.
  destruct (report_spec schedule healed k h H Hk63) as (r&Er&Eend&Hpass).
  assert (N.of_nat k < two64) as Hk64 by (revert Hk63; unfold two64; lia).
  exists schedule, h, r, k. split_and!; [done|done|..|done|done|done|].
  - unfold runChaos. rewrite Hst, Es. cbn [mbind option_bind]. rewrite Eh. cbn [mbind option_bind].
    by rewrite (wo_threw _ _ _ (am_world _ _ _ _ _ _ H)).
  - by apply (at_hruns _ _ _ _ H).
  - destruct (at_hrel _ _ _ _ H Hk64) as (A&s&Hh).
    change (nodes_ h) with (nodes_ (finalCheck h)). eapply violations_late, finalCheck_ok, Hh.
Qed.

End ChaosRun.

(** ** Chaos runs of the two state machines *)
Module ChaosSample.

(** SplitMix64 as the generator, and timeouts drawn from it. *)
#[local] Instance mixing : Engine N := λ g, (splitmix64 g, add64 g 11400714819323198485).

#[local] Instance mixing_rng : Rng N := λ g lo hi,
  let '(w, g) := next_word g in (lo + w mod (hi - lo + 1), g).

#[local] Instance no_sink : ApplySink unit := λ k _ _, (false, k).

(** Storage that keeps what it was given. *)
Definition keep (id : NodeId) (inc : nat) (prev : option (InMemoryPersistentState * InMemoryLog)) :
    InMemoryPersistentState * InMemoryLog := default (inMemoryStorage id inc None) prev.

Definition orderBookRun : ChaosOptions := mkChaosOptions ChaosOrderBook 5 4 12 1500 20000 40000 true false.

(** The two factories; a restarted node keeps nothing in memory. *)
Definition storages (durable : bool) : NodeId → nat → option (InMemoryPersistentState * InMemoryLog) →
    InMemoryPersistentState * InMemoryLog := if durable then keep else inMemoryStorage.

Lemma runChaos_verdict_witness :
  (∃ r, runChaos (K:=unit) storages kvStateMachine id id true (λ _, None) 7 defaultChaos = Some r ∧
     (Z.of_N (rp_endMs r) ≤ 40000)%Z) ∧
  (∃ r, runChaos (K:=unit) storages (λ _, OrderBook_init) id id false Some 7 orderBookRun = Some r ∧
     (Z.of_N (rp_endMs r) ≤ 40000)%Z).
Proof.
  split.
  - destruct (runChaos_verdict (K:=unit) keep kvStateMachine KVStateMachine_init id id true (λ _, None)
      ltac:(done) ltac:(done) ltac:(done) 7 defaultChaos ltac:(done) storages eq_refl) as (_&_&r&k&_&_&E&_&Ek&Hk&_);
      [cbn; lia|done|]. exists r. split; [exact E|]. rewrite Ek. cbn in Hk. lia.
  - destruct (runChaos_verdict (K:=unit) keep (λ _, OrderBook_init) OrderBook_init id id false Some
      ltac:(done) ltac:(done) ltac:(done) 7 orderBookRun ltac:(intros _; split; [done|by intros sm b cmd [= ->]])
      storages eq_refl) as (_&_&r&k&_&_&E&_&Ek&Hk&_); [cbn; lia|done|].
    exists r. split; [exact E|]. rewrite Ek. cbn in Hk. lia.
Defined.

End ChaosSample.
