(* ===== verification/KvLinear.v ===== *)
(** * From a log to a linearization

    The key-value store executes the commands of a log, some of them more than
    once.  [exec_trace] is what it really executes, with the results.  If a log
    explains a history of client operations - it holds nothing but the clients'
    operations, and for each completed one an entry with the recorded result,
    behind which there is nothing invoked later - then the trace is a linearization
    of the history. *)

From Stdlib Require Import NArith ZArith Strings.Byte Sorted Lia.
From S2P Require Import Prelude OrdMap KvStore Linearizability SimNetwork SimClient.

Local Open Scope N_scope.

(** ** What a log makes the store execute *)

Fixpoint exec_trace (s : KVStateMachine) (cmds : list (list byte)) : list (KvCommand * list byte) :=
  match cmds with
  | [] => []
  | cmd :: cmds =>
      let '(r, s') := KVStateMachine_apply s cmd in
      match parseKv cmd with
      | Some c =>
          match cachedResult s c with
          | None => (c, r) :: exec_trace s' cmds
          | Some _ => exec_trace s' cmds
          end
      | None => exec_trace s' cmds
      end
  end.

Lemma exec_trace_app s cmds cmds' :
  exec_trace s (cmds ++ cmds') = exec_trace s cmds ++ exec_trace (run_kv s cmds) cmds'.
Proof.
  revert s. induction cmds as [|cmd cmds IH]; intros s; [done|]. cbn.
  destruct (KVStateMachine_apply s cmd) as [r s']. destruct (parseKv cmd) as [c|]; [|by rewrite IH].
  destruct (cachedResult s c); by rewrite IH.
Qed.

Lemma exec_trace_parsed s cmds c r : (c, r) ∈ exec_trace s cmds → ∃ cmd, cmd ∈ cmds ∧ parseKv cmd = Some c.
Proof.
  revert s. induction cmds as [|cmd cmds IH]; intros s; cbn; [by intros ?%elem_of_nil|].
  destruct (KVStateMachine_apply s cmd) as [r' s'].
  assert ((c, r) ∈ exec_trace s' cmds → ∃ cmd', cmd' ∈ cmd :: cmds ∧ parseKv cmd' = Some c) as Hrest.
  { intros (cmd'&?&?)%IH. exists cmd'. split; [by right|done]. }
  destruct (parseKv cmd) as [c'|] eqn:E; [|done]. destruct (cachedResult s c'); [done|].
  intros [[= -> ->]|H]%elem_of_cons; [exists cmd; split; [by left|done]|by apply Hrest].
Qed.

(** The results are those of the plain map. *)
Fixpoint spec_legal (g : Store) (tr : list (KvCommand * list byte)) : Prop :=
  match tr with
  | [] => True
  | (c, r) :: tr => r = (spec_op c g).1 ∧ spec_legal (spec_op c g).2 tr
  end.

Lemma exec_trace_legal s g cmds : kv_rel (kv_ s) g → spec_legal g (exec_trace s cmds).
Proof.
  revert s g. induction cmds as [|cmd cmds IH]; intros s g Hr; [done|]. cbn [exec_trace].
  unfold KVStateMachine_apply, parseKv. destruct (readKvCommand _).1 as [c|]; [|by apply IH].
  destruct (cachedResult s c); [by apply IH|]. destruct (applyOp_refines c _ _ Hr) as [E1 E2].
  destruct (applyOp _ _ _ _ (kv_ s)) as [res kv']. cbn in *. split; [done|]. apply IH. by destruct (negb _).
Qed.

(** ** Sessions and the trace *)

Record trace_inv (s : KVStateMachine) (tr : list (KvCommand * list byte)) : Prop := {
  ti_cached cl se : om_find cl (sessions_ s) = Some se →
    ∃ c, (c, lastResult se) ∈ tr ∧ c_clientId c = cl ∧ c_seqNo c = lastSeq se;
  ti_last c r : (c, r) ∈ tr → c_clientId c ≠ 0 →
    ∃ se, om_find (c_clientId c) (sessions_ s) = Some se ∧ c_seqNo c ≤ lastSeq se;
  ti_order i j p q : tr !! i = Some p → tr !! j = Some q → (i < j)%nat →
    c_clientId p.1 = c_clientId q.1 → c_clientId p.1 ≠ 0 → c_seqNo p.1 < c_seqNo q.1;
}.

Lemma trace_inv_init : trace_inv KVStateMachine_init [].
Proof. by split; [|intros ?? ?%elem_of_nil|]. Qed.

(** Executing a command that is not a repetition. *)
Lemma trace_inv_exec s tr c r kv : trace_inv s tr → cachedResult s c = None → c_clientId c ≠ 0 →
  trace_inv (mkKV kv (om_insert (c_clientId c) (mkSession (c_seqNo c) r) (sessions_ s))) (tr ++ [(c, r)]).
Proof.
  intros [Hc Hl Ho] Hnone H0.
  assert (∀ c' r', (c', r') ∈ tr → c_clientId c' = c_clientId c → c_seqNo c' < c_seqNo c) as Hnew.
  { intros c' r' Hin E. destruct (Hl c' r' Hin ltac:(congruence)) as (se&Hf&Hle). rewrite E in Hf.
    unfold cachedResult in Hnone. rewrite Hf, (proj2 (N.eqb_neq _ _) H0) in Hnone. cbn in Hnone.
    destruct (N.leb_spec (c_seqNo c) (lastSeq se)); [done|lia]. }
  split; cbn.
  - intros cl se. destruct (decide (cl = c_clientId c)) as [->|Hne].
    + rewrite om_find_insert_eq. intros [= <-]. exists c. split; [set_solver|done].
    + rewrite om_find_insert_ne by done. intros (c'&?&?)%Hc. exists c'. split; [set_solver|done].
  - intros c' r' [Hin|[= -> ->]%list_elem_of_singleton]%elem_of_app Hn.
    + destruct (decide (c_clientId c' = c_clientId c)) as [E|Hne].
      * rewrite E, om_find_insert_eq. eexists. split; [done|]. cbn. by apply N.lt_le_incl, (Hnew _ r').
      * rewrite om_find_insert_ne by done. by apply (Hl c' r').
    + rewrite om_find_insert_eq. by eexists.
  - intros i j p q Hi Hj Hlt E Hn. apply lookup_app_Some in Hj as [Hj|[Hge Hj]].
    + rewrite lookup_app_l in Hi by (apply lookup_lt_Some in Hj; lia). by eapply Ho.
    + apply list_lookup_singleton_Some in Hj as [Ej <-]. cbn in *.
      rewrite lookup_app_l in Hi by lia. apply list_elem_of_lookup_2 in Hi. destruct p as [c' r'].
      by apply (Hnew c' r').
Qed.

(** Every command belongs to a session. *)
Definition in_session (cmd : list byte) : Prop := ∀ c, parseKv cmd = Some c → c_clientId c ≠ 0.

Lemma run_trace_inv cmds : Forall in_session cmds →
  trace_inv (run_kv KVStateMachine_init cmds) (exec_trace KVStateMachine_init cmds).
Proof.
  induction cmds as [|cmd cmds IH] using rev_ind; intros Hs; [apply trace_inv_init|].
  apply Forall_app in Hs as [Hs [Hcmd _]%Forall_cons]. specialize (IH Hs). unfold run_kv. rewrite foldl_app, exec_trace_app.
  fold (run_kv KVStateMachine_init cmds). set (s := run_kv _ cmds) in *. cbn [foldl exec_trace]. unfold in_session in Hcmd.
  unfold KVStateMachine_apply, parseKv in *. destruct (readKvCommand _).1 as [c|]; [|by rewrite app_nil_r].
  destruct (cachedResult s c) eqn:Ec; [by rewrite app_nil_r|].
  destruct (applyOp _ _ _ _ (kv_ s)) as [res kv']. specialize (Hcmd c eq_refl).
  rewrite (proj2 (N.eqb_neq _ _) Hcmd). by apply trace_inv_exec.
Qed.

Lemma trace_unique s tr c r r' : trace_inv s tr → c_clientId c ≠ 0 → (c, r) ∈ tr → (c, r') ∈ tr → r = r'.
Proof.
  intros H H0 [i Hi]%list_elem_of_lookup [j Hj]%list_elem_of_lookup.
  destruct (lt_eq_lt_dec i j) as [[Hlt| ->]|Hlt]; [|congruence|].
  - pose proof (ti_order _ _ H _ _ _ _ Hi Hj Hlt eq_refl H0). cbn in *. lia.
  - pose proof (ti_order _ _ H _ _ _ _ Hj Hi Hlt eq_refl H0). cbn in *. lia.
Qed.

(** The answer to an entry with no later request of its client before it is the
    result of the execution, now or earlier. *)
Lemma answer_traced cmds i cmd c : Forall in_session cmds → cmds !! i = Some cmd → parseKv cmd = Some c →
  (∀ cmd' c', cmd' ∈ take i cmds → parseKv cmd' = Some c' → c_clientId c' = c_clientId c →
    c_seqNo c' ≤ c_seqNo c ∧ (c_seqNo c' = c_seqNo c → c' = c)) →
  (c, (KVStateMachine_apply (run_kv KVStateMachine_init (take i cmds)) cmd).1)
    ∈ exec_trace KVStateMachine_init (take (S i) cmds).
Proof.
  intros Hs Hi Hp Hprev. rewrite (take_S_r _ _ _ Hi), exec_trace_app.
  pose proof (run_trace_inv (take i cmds) ltac:(by apply Forall_take)) as Hinv.
  assert (c_clientId c ≠ 0) as H0 by (by apply (Forall_lookup_1 _ _ _ _ Hs Hi)).
  set (s := run_kv _ (take i cmds)) in *. cbn [exec_trace].
  unfold KVStateMachine_apply. unfold parseKv in *. rewrite Hp. apply elem_of_app.
  destruct (cachedResult s c) as [res|] eqn:Ec; [left|right; by destruct (applyOp _ _ _ _ _); left].
  cbn. unfold cachedResult in Ec. rewrite (proj2 (N.eqb_neq _ _) H0) in Ec. cbn in Ec.
  destruct (om_find (c_clientId c) (sessions_ s)) as [se|] eqn:Ef; [|done].
  destruct (N.leb_spec (c_seqNo c) (lastSeq se)) as [Hle|]; [|done]. injection Ec as <-.
  destruct (ti_cached _ _ Hinv _ _ Ef) as (c'&Hin&Ecl&Esq).
  destruct (exec_trace_parsed _ _ _ _ Hin) as (cmd'&Hin'&Hp').
  destruct (Hprev cmd' c' Hin' Hp' Ecl) as [Hle' Heq]. by rewrite <-Heq by lia.
Qed.

(** ** Instants *)

Local Open Scope Z_scope.

(** Operations in their order of execution take effect as early as the order
    allows. *)
Fixpoint instants (m : Z) (os : list ClientOp) : list (ClientOp * Z) :=
  match os with
  | [] => []
  | o :: os => let m := Z.max m (op_invoke o) in (o, m) :: instants m os
  end.

Lemma instants_ops m os : (instants m os).*1 = os.
Proof. revert m. induction os as [|o os IH]; intros m; cbn; [done|]. by rewrite IH. Qed.

Lemma instants_above m os : Forall (Z.le m) (instants m os).*2.
Proof.
  revert m. induction os as [|o os IH]; intros m; cbn; [done|]. constructor; [lia|].
  eapply Forall_impl; [apply IH|]. cbn. lia.
Qed.

Lemma instants_sorted m os : StronglySorted Z.le (instants m os).*2.
Proof. revert m. induction os as [|o os IH]; intros m; cbn; constructor; [done|apply instants_above]. Qed.

Lemma instants_within m os : (∀ i o, os !! i = Some o → complete o = true →
    m ≤ op_return o ∧ ∀ j o', os !! j = Some o' → (j ≤ i)%nat → op_invoke o' ≤ op_return o) →
  Forall within (instants m os).
Proof.
  revert m. induction os as [|o os IH]; intros m H; cbn; [done|]. constructor.
  - split; cbn; [lia|]. intros Hc. destruct (H 0%nat o eq_refl Hc) as [Hm Hj].
    specialize (Hj 0%nat o eq_refl ltac:(lia)). lia.
  - apply IH. intros i o1 Hi Hc. destruct (H (S i) o1 Hi Hc) as [Hm Hj]. split.
    + specialize (Hj 0%nat o eq_refl ltac:(lia)). lia.
    + intros j o' Ho' Hle. apply (Hj (S j)); [done|lia].
Qed.

(** ** Logs that explain a history *)

Record log_explains (hist : History) (cmds : list (list byte)) : Prop := {
  le_ok : om_ok hist;
  le_key k o : om_find k hist = Some o → identity o = k ∧ op_client o ≠ 0%N ;
  le_ops cmd : cmd ∈ cmds → ∃ o, o ∈ History_ops hist ∧ parseKv cmd = Some (cmd_of o);
  le_done o : o ∈ History_ops hist → complete o = true →
    ∃ i cmd, cmds !! i = Some cmd ∧ parseKv cmd = Some (cmd_of o) ∧
      op_result o = (KVStateMachine_apply (run_kv KVStateMachine_init (take i cmds)) cmd).1 ∧
      ∀ cmd' o', cmd' ∈ take (S i) cmds → o' ∈ History_ops hist → parseKv cmd' = Some (cmd_of o') →
        op_invoke o' ≤ op_return o ∧ (op_client o' = op_client o → (op_seq o' ≤ op_seq o)%N);
}.

#[export] Instance ClientOp_eq_dec : EqDecision ClientOp.
Proof. solve_decision. Defined.

Section Explain.
Context (hist : History) (cmds : list (list byte)).
Context (H : log_explains hist cmds).

Local Abbreviation trace := (exec_trace KVStateMachine_init cmds).

Lemma ops_elem o : o ∈ History_ops hist ↔ om_find (identity o) hist = Some o.
Proof.
  unfold History_ops. rewrite om_find_elem by apply H. rewrite list_elem_of_fmap. split.
  - intros ([k o']&->&Hin). cbn. assert (om_find k hist = Some o') as Hf by (by apply om_find_elem; [apply H|]).
    by destruct (le_key _ _ H k o' Hf) as [-> _].
  - intros Hin. by exists (identity o, o).
Qed.

Lemma ops_cmd_inj o o' : o ∈ History_ops hist → o' ∈ History_ops hist → cmd_of o = cmd_of o' → o = o'.
Proof.
  rewrite !ops_elem. intros E1 E2 [= Ec Es _ _ _ _]. unfold identity in *. rewrite <-Ec, <-Es, E1 in E2.
  by injection E2.
Qed.

Lemma ops_client o : o ∈ History_ops hist → op_client o ≠ 0%N.
Proof. intros Ho%ops_elem. by apply (le_key _ _ H) in Ho as [_ ?]. Qed.

Lemma ops_NoDup : NoDup (History_ops hist).
Proof.
  unfold History_ops. apply NoDup_fmap_2_strong.
  - intros [k o] [k' o'] Hx Hy. cbn. intros ->. f_equal.
    apply om_find_elem, (le_key _ _ H) in Hx as [<- _]; [|apply H].
    by apply om_find_elem, (le_key _ _ H) in Hy as [<- _]; [|apply H].
  - pose proof (le_ok _ _ H) as Hok. clear -Hok. unfold om_ok in Hok. induction Hok as [|p m _ IH Hall]; constructor; [|done].
    intros Hin. pose proof (proj1 (Forall_forall _ _) Hall p Hin) as Hlt. unfold om_lt in Hlt.
    by rewrite key_irrefl in Hlt.
Qed.

Lemma all_sessions : Forall in_session cmds.
Proof.
  apply Forall_forall. intros cmd Hin c Hp. destruct (le_ops _ _ H cmd Hin) as (o&Ho&E).
  rewrite Hp in E. injection E as ->. by apply ops_client.
Qed.

(** The operation of an executed command. *)
Definition op_of (p : KvCommand * list byte) : option ClientOp := om_find (c_clientId p.1, c_seqNo p.1) hist.

Definition traced : list ClientOp := omap op_of trace.

Lemma traced_elem p : p ∈ trace → ∃ o, op_of p = Some o ∧ o ∈ History_ops hist ∧ cmd_of o = p.1.
Proof.
  destruct p as [c r]. intros (cmd&Hin&Hp)%exec_trace_parsed. destruct (le_ops _ _ H cmd Hin) as (o&Ho&E).
  rewrite Hp in E. injection E as ->. exists o. split_and!; [|done|done]. by apply ops_elem in Ho.
Qed.

Lemma traced_all2 : Forall2 (λ p o, o ∈ History_ops hist ∧ cmd_of o = p.1) trace traced.
Proof.
  unfold traced. pose proof traced_elem as He. revert He. generalize trace. intros l.
  induction l as [|p l IH]; intros He; cbn; [constructor|].
  destruct (He p) as (o&->&Ho&Ec); [by left|]. constructor; [done|]. apply IH. intros. apply He. by right.
Qed.

Lemma traced_NoDup : NoDup traced.
Proof.
  apply NoDup_alt. intros i j o Hi Hj.
  destruct (Forall2_lookup_r _ _ _ _ _ traced_all2 Hi) as (p&Hp&Ho&Ep).
  destruct (Forall2_lookup_r _ _ _ _ _ traced_all2 Hj) as (q&Hq&_&Eq).
  pose proof (ops_client o Ho) as H0. pose proof (run_trace_inv cmds all_sessions) as Hinv.
  destruct (lt_eq_lt_dec i j) as [[Hlt| ->]|Hlt]; [|done|].
  - pose proof (ti_order _ _ Hinv _ _ _ _ Hp Hq Hlt) as Ho'. rewrite <-Ep, <-Eq in Ho'.
    specialize (Ho' eq_refl H0). lia.
  - pose proof (ti_order _ _ Hinv _ _ _ _ Hq Hp Hlt) as Ho'. rewrite <-Ep, <-Eq in Ho'.
    specialize (Ho' eq_refl H0). lia.
Qed.

(** A completed operation was executed with its result, and what was executed up
    to then had been invoked. *)
Lemma done_traced o : o ∈ History_ops hist → complete o = true →
  ∃ k, (cmd_of o, op_result o) ∈ take k trace ∧
    ∀ p o', p ∈ take k trace → o' ∈ History_ops hist → cmd_of o' = p.1 → op_invoke o' ≤ op_return o.
Proof.
  intros Ho Hc. destruct (le_done _ _ H o Ho Hc) as (i&cmd&Hi&Hp&Hres&Hbefore).
  exists (length (exec_trace KVStateMachine_init (take (S i) cmds))).
  assert (trace = exec_trace KVStateMachine_init (take (S i) cmds) ++
    exec_trace (run_kv KVStateMachine_init (take (S i) cmds)) (drop (S i) cmds)) as Et
    by (by rewrite <-exec_trace_app, take_drop).
  rewrite Et, take_app_length. split.
  - rewrite Hres. apply answer_traced; [apply all_sessions|done|done|].
    intros cmd' c' Hin Hp' Ecl. assert (cmd' ∈ cmds) as Hin'.
    { apply elem_of_take in Hin as (k&Hk&_). by eapply list_elem_of_lookup_2. }
    destruct (le_ops _ _ H cmd' Hin') as (o'&Ho'&E). rewrite Hp' in E. injection E as ->.
    destruct (Hbefore cmd' o') as [_ Hle]; [|done|done|].
    { rewrite (take_S_r _ _ _ Hi). apply elem_of_app. by left. }
    split; [by apply Hle|]. intros Es. f_equal. apply ops_elem in Ho, Ho'. cbn in Ecl, Es.
    unfold identity in *. rewrite Ecl, Es, Ho in Ho'. by injection Ho'.
  - intros [c r] o' (cmd'&Hin&Hp')%exec_trace_parsed Ho' Ec. cbn in Ec. subst c. by eapply Hbefore.
Qed.

Lemma traced_legal : legal store_step ∅ traced.
Proof.
  assert (spec_legal ∅ trace) as Hl by (apply exec_trace_legal; split; [apply om_ok_nil|done]).
  assert (∀ p o, p ∈ trace → o ∈ History_ops hist → cmd_of o = p.1 → complete o = true → p.2 = op_result o) as Hres.
  { intros [c r] o Hp Ho Ec Hc. cbn in *. subst c. destruct (done_traced o Ho Hc) as (k&Hin&_).
    eapply (trace_unique _ _ (cmd_of o)); [apply (run_trace_inv cmds all_sessions)|exact (ops_client o Ho)|exact Hp|].
    apply elem_of_take in Hin as (j&Hj&_). by eapply list_elem_of_lookup_2. }
  revert Hl Hres. generalize (∅ : Store). pose proof traced_all2 as Ha. revert Ha. generalize trace, traced.
  intros tr os Ha. induction Ha as [|[c r] o tr os [Ho Ec] _ IH]; intros g Hl Hres; [done|].
  cbn in Ec. subst c. destruct Hl as [Er Hl]. cbn [legal]. unfold store_step.
  pose proof (Hres (cmd_of o, r) o ltac:(by left) Ho eq_refl) as Hr. cbn in Hr.
  destruct (spec_op (cmd_of o) g) as [res g'] eqn:Es. cbn in Er, Hl. split.
  - intros Hc. rewrite <-Er. by apply Hr.
  - apply IH; [done|]. intros p o' Hp. apply Hres. by right.
Qed.

(** The history is linearizable. *)
Lemma explains_linearizable : linearizable (History_ops hist).
Proof.
  exists (instants 0 traced). pose proof traced_all2 as Ha.
  assert (∀ o, o ∈ traced → o ∈ History_ops hist) as Hsub.
  { intros o [i Hi]%list_elem_of_lookup. by destruct (Forall2_lookup_r _ _ _ _ _ Ha Hi) as (p&_&?&_). }
  assert (∀ o, o ∈ History_ops hist → complete o = true → o ∈ traced) as Hall.
  { intros o Ho Hc. destruct (done_traced o Ho Hc) as (k&(j&Hj&_)%elem_of_take&_).
    destruct (Forall2_lookup_l _ _ _ _ _ Ha Hj) as (o'&Ho'&Hin&E). cbn in E.
    rewrite (ops_cmd_inj o o' Ho Hin) by done. by eapply list_elem_of_lookup_2. }
  split; rewrite ?instants_ops.
  - exists (filter (λ o, o ∉ traced) (History_ops hist)). split.
    + apply NoDup_Permutation; [|apply ops_NoDup|].
      * apply NoDup_app. split_and!; [apply traced_NoDup| |by apply NoDup_filter, ops_NoDup].
        intros o Ho [Hn _]%list_elem_of_filter. done.
      * intros o. rewrite elem_of_app, list_elem_of_filter. split; [naive_solver|].
        intros Ho. destruct (decide (o ∈ traced)); naive_solver.
    + apply Forall_forall. intros o [Hn Ho]%list_elem_of_filter. destruct (complete o) eqn:Ec; [|done].
      by destruct Hn; apply Hall.
  - apply instants_sorted.
  - apply instants_within. intros i o Hi Hc. split; [by apply Z.leb_le in Hc|]. intros j o' Hj Hle.
    destruct (Forall2_lookup_r _ _ _ _ _ Ha Hi) as ([c r]&Hp&Ho&Ec).
    destruct (Forall2_lookup_r _ _ _ _ _ Ha Hj) as (q&Hq&Ho'&Eq). cbn in Ec.
    destruct (done_traced o Ho Hc) as (k&(i'&Hi'&Hk)%elem_of_take&Hinv).
    assert (i' = i) as ->.
    { destruct (Forall2_lookup_l _ _ _ _ _ Ha Hi') as (o2&Ho2&Hin2&E2). cbn in E2.
      rewrite (ops_cmd_inj o2 o Hin2 Ho E2) in Ho2. by eapply NoDup_lookup; [apply traced_NoDup| |]. }
    apply (Hinv q); [|done|done]. apply elem_of_take. exists j. split; [done|lia].
  - apply traced_legal.
Qed.

End Explain.
