(* ===== verification/ChaosLinear.v ===== *)
(** * Chaos runs of the key-value store are linearizable

    The composition of everything: the clients of a chaos run (SimClient.v), the
    client services and the cores (HarnessClients.v), the safety of the protocol
    (RaftSafety.v) and the store with its session table (KvStore.v, KvLinear.v).
    Whatever the fault schedule does, the history the clients record is
    linearizable.

    A client tells its attempts apart by the address it sends them from.  The
    addresses do not repeat within a run: attempts are at least 25 ms apart, but
    for one, so a client makes no more than 4000 of them in 99950 ms. *)

From Stdlib Require Import NArith ZArith Strings.Byte Lia.
From S2P Require Import Prelude Wire Messages Log RaftCore RaftSpec RaftInv Cluster RaftRefine RaftSafety.
From S2P Require Import OrdMap Text KvStore OrderBook ClientService Linearizability Checkers.
From S2P Require Import SimNetwork SimHarness HarnessSafety HarnessProgress HarnessClients Provenance.
From S2P Require Import FaultSchedule SimClient Chaos KvLinear.

Local Open Scope N_scope.

(** ** Commands *)

Lemma parse_encode c : kv_command_ok c → parseKv (encodeKvCommand c) = Some c.
Proof. intros Hc. unfold parseKv. by apply kv_command_roundtrip. Qed.

Lemma prefix_encode c : kv_command_ok c → decodePrefix (encodeKvCommand c) = Some (c_clientId c, c_seqNo c).
Proof.
  intros Hc. pose proof Hc as (H1&H2&_). rewrite encodeKvCommand_enc, <-commandIdentity_decodePrefix by done.
  unfold commandIdentity, enc_command.
  match goal with |- context [le_bytes 8 (c_seqNo c) ++ ?x] => generalize x end. intros tl.
  rewrite (proj2 (Nat.ltb_ge _ _)) by (rewrite !length_app, !length_le_bytes; lia).
  rewrite !orBytes_le_value, (drop_app_length' _ _ 8), !(take_app_length' _ _ 8) by (symmetry; apply length_le_bytes).
  by rewrite !le_value_le_bytes_small by (by change (256 ^ N.of_nat 8) with two64).
Qed.

Lemma run_sm_kv es : run_sm KVStateMachine_init es = run_kv KVStateMachine_init (e_command <$> es).
Proof.
  unfold run_sm, run_kv. generalize KVStateMachine_init. induction es as [|e es IH]; intros s; [done|]. cbn. apply IH.
Qed.

Lemma length_digits fuel n acc : (length (digits fuel n acc) ≤ fuel + length acc)%nat.
Proof.
  revert n acc. induction fuel as [|fuel IH]; intros n acc; cbn [digits]; [done|].
  destruct (_ <? _); [cbn; lia|]. etrans; [apply IH|]. cbn. lia.
Qed.

Lemma length_to_string n : n < two64 → (length (to_string n) ≤ 65)%nat.
Proof.
  intros Hn. unfold to_string. etrans; [apply length_digits|]. cbn.
  assert (N.log2 n ≤ 64); [|lia]. destruct (decide (n = 0)) as [->|]; [done|].
  apply N.lt_le_incl, N.log2_lt_pow2; [lia|done].
Qed.

(** ** What a client does *)

Section Client.
Context {G : Type} `{!Engine G} (leftFirst : bool).

Local Abbreviation Client := (SimClient G).

(** What issuing an operation does not touch. *)
Definition fixed (c : Client) :=
  (clientId_ c, base_ c, range_ c, sc_cfg c, markerIssued_ c, seqNo_ c, attempt_ c, deadlineMs_ c, nextIssueAtMs_ c).

Lemma fixed_roll k c v c' : roll k c = (v, c') → fixed c' = fixed c ∧ current_ c' = current_ c ∧ (k ≠ 0 → v < k).
Proof.
  unfold roll. destruct (next_word (sc_rng c)) as [w g]. intros [= <- <-]. split_and!; [done|done|].
  apply N.mod_upper_bound.
Qed.

Lemma fixed_roll2 k1 k2 c a b c' : roll2 leftFirst k1 k2 c = (a, b, c') →
  fixed c' = fixed c ∧ current_ c' = current_ c ∧ (k1 ≠ 0 → a < k1) ∧ (k2 ≠ 0 → b < k2).
Proof.
  unfold roll2. destruct leftFirst; destruct (roll _ c) as [x c1] eqn:E1;
    destruct (roll _ c1) as [y c2] eqn:E2; intros [= <- <- <-];
    apply fixed_roll in E1 as (?&?&?), E2 as (?&?&?); split_and!; try done; congruence.
Qed.

(** The operation a client has just chosen. *)
Record chosen_op (c c' : Client) : Prop := {
  co_fixed : fixed c' = fixed c;
  co_identity : identity (current_ c') = identity (current_ c);
  co_invoke : op_invoke (current_ c') = op_invoke (current_ c);
  co_return : op_return (current_ c') = op_return (current_ c);
  co_command : currentCommand_ c' = encodeKvCommand (cmd_of (current_ c'));
  co_ok : kv_command_ok (cmd_of (current_ c'));
}.

Lemma string_ok_short s : (length s ≤ 200)%nat → string_ok s.
Proof. intros Hs. unfold string_ok, two32. lia. Qed.

Lemma tag_short x a y b : a < two64 → b < two64 → (length x ≤ 1)%nat → (length y ≤ 1)%nat →
  string_ok (x ++ to_string a ++ y ++ to_string b).
Proof.
  intros Ha Hb Hx Hy. apply string_ok_short. rewrite !length_app.
  pose proof (length_to_string a Ha). pose proof (length_to_string b Hb). lia.
Qed.

Lemma choose_op (c c1 : Client) op k arg arg2 :
  fixed c1 = fixed c → current_ c1 = current_ c → op_client (current_ c) = clientId_ c →
  clientId_ c < two64 → op_seq (current_ c) < two64 → string_ok k →
  when_ok (opNeedsArg op) arg → when_ok (bool_decide (op = Cas)) arg2 →
  let o := withOp op k arg arg2 (current_ c) in
  let c2 := set_current o c1 in
  chosen_op c (set_command (encodeKvCommand (mkKvCommand (clientId_ c2) (op_seq o) (op_op o) (op_key o)
    (op_arg o) (op_arg2 o))) c2).
Proof.
  intros Hf Hcur Hcl Hid Hseq Hk Ha Ha2 o c2. assert (clientId_ c1 = clientId_ c) as Eid
    by (unfold fixed in Hf; congruence).
  subst o c2. split; cbn; rewrite ?Hcur; try done.
  - unfold cmd_of. cbn. by rewrite Hcl, Eid.
  - unfold kv_command_ok. cbn. by rewrite Hcl.
Qed.

Lemma issueKvOp_chosen marker c : op_client (current_ c) = clientId_ c → clientId_ c < two64 →
  op_seq (current_ c) < two64 → 0 < keySpace (sc_cfg c) ≤ two64 →
  chosen_op c (issueKvOp leftFirst marker c).
Proof.
  intros Hcl Hid Hseq Hks. unfold issueKvOp, key. destruct (roll _ c) as [k c1] eqn:E1.
  apply fixed_roll in E1 as (F1&C1&Hk). specialize (Hk ltac:(lia)). cbv zeta.
  assert (string_ok (str "k" ++ to_string k)) as Hkey.
  { apply string_ok_short. rewrite length_app. pose proof (length_to_string k ltac:(lia)).
    change (length (str "k")) with 1%nat. lia. }
  assert (∃ pick c2, (if marker then (0%N, c1) else roll (wPut (sc_cfg c1) + wGet (sc_cfg c1) +
    wAppend (sc_cfg c1) + wCas (sc_cfg c1) + wDelete (sc_cfg c1)) c1) = (pick, c2) ∧
    fixed c2 = fixed c ∧ current_ c2 = current_ c) as (pick&c2&->&F2&C2).
  { destruct marker; [by eexists _, _|]. destruct (roll _ c1) as [p c2] eqn:E. apply fixed_roll in E as (?&?&_).
    eexists _, _. split_and!; [done|congruence|congruence]. }
  assert (clientId_ c2 = clientId_ c) as E2 by (unfold fixed in F2; congruence).
  generalize (sc_cfg c1). intros cfg. cbv beta iota. rewrite E2, C2.
  assert (string_ok (str "c" ++ to_string (clientId_ c) ++ str "s" ++ to_string (op_seq (current_ c)))) as Hu
    by (by apply (tag_short (str "c") _ (str "s"))).
  destruct (_ <? _); [by apply (choose_op c c2); [..|exact Hkey|exact Hu|]|].
  destruct (_ <? _); [by apply (choose_op c c2); [..|exact Hkey| |]|].
  destruct (_ <? _); [by apply (choose_op c c2); [..|exact Hkey|exact Hu|]|].
  destruct (_ <? _); [|by apply (choose_op c c2); [..|exact Hkey| |]].
  destruct (roll 2 c2) as [coin c3] eqn:E3. apply fixed_roll in E3 as (F3&C3&_).
  assert (fixed c3 = fixed c ∧ current_ c3 = current_ c) as [F3' C3'] by (split; congruence). rewrite C3'.
  destruct (_ =? _); [apply (choose_op c c3); [done..|exact Hkey|done|exact Hu]|].
  destruct (roll2 leftFirst 4 6 c3) as [[a b] c4] eqn:E4. apply fixed_roll2 in E4 as (F4&C4&Ha&Hb).
  specialize (Ha ltac:(done)). specialize (Hb ltac:(done)). rewrite C4, C3'.
  apply (choose_op c c4); [congruence|congruence|done..|exact Hkey| |exact Hu].
  apply (tag_short (str "c") _ (str "s")); [unfold two64; lia..|done|done].
Qed.

(** The requests among what a client does. *)
Definition sends_of (acts : list ClientAct) : Sent :=
  omap (λ a, match a with ASend from to r => Some (from, to, r) | ATrace _ => None end) acts.

Lemma requests_sends acts : requests acts = (sends_of acts).*2.
Proof. induction acts as [|[v|from to r] acts IH]; [done|done|]. cbn. f_equal. exact IH. Qed.

Definition request_of (c : Client) : ClientRequest :=
  mkClientRequest (clientId_ c) (op_seq (current_ c)) (currentCommand_ c).

(** An attempt to get the current operation executed. *)
Record attempted (now : Z) (c c' : Client) (from to : NodeId) : Prop := {
  at_fixed : (clientId_ c', base_ c', range_ c', sc_cfg c', markerIssued_ c', seqNo_ c', nextIssueAtMs_ c') =
    (clientId_ c, base_ c, range_ c, sc_cfg c, markerIssued_ c, seqNo_ c, nextIssueAtMs_ c);
  at_current : current_ c' = current_ c;
  at_command : currentCommand_ c' = currentCommand_ c;
  at_count : attempt_ c' = add64 (attempt_ c) 1;
  at_from : from = (base_ c + attempt_ c mod range_ c) mod two16;
  at_address : attemptEnvelope_ c' = from ∧ target_ c' = to;
  at_waiting : state_ c' = Waiting ∧ deadlineMs_ c' = (now + requestTimeoutMs (sc_cfg c))%Z;
}.

Lemma sendAttempt_attempted now n (c : Client) : ∃ c' from to,
  sendAttempt now n c = (c', [ASend from to (request_of c)]) ∧ attempted now c c' from to.
Proof.
  unfold sendAttempt, nextTarget. destruct (negb _).
  - eexists _, _, _. split; [done|]. by split.
  - destruct (roll n c) as [r c1] eqn:E. apply roll_frame in E. rewrite E. eexists _, _, _. split; [done|]. by split.
Qed.

(** A new operation, not sent yet. *)
Record issued (now : Z) (c c1 : Client) : Prop := {
  is_fixed : (clientId_ c1, base_ c1, range_ c1, sc_cfg c1, attempt_ c1) =
    (clientId_ c, base_ c, range_ c, sc_cfg c, attempt_ c);
  is_idle : state_ c = Idle ∧ markerIssued_ c = false;
  is_marker : markerIssued_ c1 = true ∧ (finalOpAtMs (sc_cfg c) ≤ now)%Z ∨
    markerIssued_ c1 = false ∧ (nextIssueAtMs_ c ≤ now)%Z;
  is_seq : seqNo_ c1 = add64 (seqNo_ c) 1;
  is_identity : identity (current_ c1) = (clientId_ c1, seqNo_ c1);
  is_times : op_invoke (current_ c1) = now ∧ op_return (current_ c1) = (-1)%Z;
  is_command : currentCommand_ c1 = encodeKvCommand (cmd_of (current_ c1));
  is_ok : kv_command_ok (cmd_of (current_ c1));
}.

(** What a turn of a client comes to. *)
Inductive turn (now : Z) (c : Client) (h : History) : Client → History → Sent → Prop :=
| turn_none : turn now c h c h []
| turn_again c1 c' from to :
    state_ c ≠ Idle → (deadlineMs_ c ≤ now)%Z → fixed c1 = fixed c → current_ c1 = current_ c →
    currentCommand_ c1 = currentCommand_ c → attempted now c1 c' from to →
    turn now c h c' h [(from, to, request_of c1)]
| turn_issue c1 c' from to :
    issued now c c1 → attempted now c1 c' from to →
    turn now c h c' (History_invoke (current_ c1) h) [(from, to, request_of c1)].

Definition workload_ok (cfg : WorkloadConfig) : Prop :=
  wl_kind cfg = KvWorkload ∧ 0 < keySpace cfg ≤ two64 ∧ requestTimeoutMs cfg = 400%Z ∧
  retryBackoffMs cfg = 25%Z ∧ minGapMs cfg = 200%Z.

Lemma issueNextOp_turn (marker : bool) now n c h c' h' acts : workload_ok (sc_cfg c) → clientId_ c < two64 →
  state_ c = Idle → markerIssued_ c = false → (if marker then finalOpAtMs (sc_cfg c) ≤ now else nextIssueAtMs_ c ≤ now)%Z →
  issueNextOp leftFirst marker now n (if marker then set_marker c else c) h = (c', h', acts) →
  turn now c h c' h' (sends_of acts).
Proof.
  intros (Hkind&Hks&_) Hid Hst Hm Hwhen. set (c0 := if marker then set_marker c else c).
  assert (fixed c0 = (clientId_ c, base_ c, range_ c, sc_cfg c, marker, seqNo_ c, attempt_ c, deadlineMs_ c,
    nextIssueAtMs_ c)) as F0 by (subst c0; destruct marker; unfold fixed; cbn; by rewrite ?Hm).
  unfold fixed in F0. clearbody c0. injection F0 as F1 F2 F3 F4 F5 F6 F7 F8 F9.
  unfold issueNextOp. cbv zeta. set (seq := add64 (seqNo_ c0) 1).
  match goal with |- context [issueOrderOp leftFirst marker ?x] => set (c1 := x) end.
  rewrite decide_False by (cbn; rewrite F4, Hkind; done).
  assert (seq < two64) as Hseq by (apply N.mod_upper_bound; done).
  destruct (issueKvOp_chosen marker c1) as [Hfx Hident Hinv Hret Hcmd Hok];
    [done|cbn; by rewrite F1|done|cbn; by rewrite F4|].
  set (c2 := issueKvOp leftFirst marker c1) in *. clearbody c2.
  match goal with |- context [sendAttempt now n ?x] => set (c3 := x) end.
  destruct (sendAttempt_attempted now n c3) as (c4&from&to&->&Hat).
  intros [= <- <- <-]. cbn [sends_of omap list_omap]. unfold fixed in Hfx. injection Hfx as G1 G2 G3 G4 G5 G6 G7 G8 G9.
  apply (turn_issue now c h c3 c4 from to); [|done]. split; cbn in *.
  - congruence.
  - done.
  - rewrite G5, F5. destruct marker; [by left|by right].
  - rewrite G6. subst seq. by rewrite F6.
  - rewrite Hident, G1, G6. done.
  - by rewrite Hinv, Hret.
  - done.
  - done.
Qed.

Lemma tick_turn now n c h c' h' acts : workload_ok (sc_cfg c) → clientId_ c < two64 →
  SimClient_tick leftFirst now n c h = (c', h', acts) → turn now c h c' h' (sends_of acts).
Proof.
  intros Hw Hid. unfold SimClient_tick. destruct (state_ c) eqn:Hst.
  - destruct (_ && _) eqn:E1.
    { apply andb_true_iff in E1 as [Hm%negb_true_iff Hf%Z.leb_le]. by apply (issueNextOp_turn true). }
    match goal with |- context [if ?b then _ else _] => destruct b eqn:E2 end; [|intros [= <- <- <-]; constructor].
    apply andb_true_iff in E2 as [E2 Hn%Z.leb_le]. rewrite !andb_true_iff in E2. destruct E2 as [[Hm%negb_true_iff _] _].
    by apply (issueNextOp_turn false).
  - destruct (Z.leb_spec (deadlineMs_ c) now); [|intros [= <- <- <-]; constructor].
    destruct (sendAttempt_attempted now n (set_leader 0 c)) as (c1&from&to&->&Hat).
    intros [= <- <- <-]. apply (turn_again now c h (set_leader 0 c)); try done. by rewrite Hst.
  - destruct (Z.leb_spec (deadlineMs_ c) now); [|intros [= <- <- <-]; constructor].
    destruct (sendAttempt_attempted now n c) as (c1&from&to&->&Hat).
    intros [= <- <- <-]. apply (turn_again now c h c); try done. by rewrite Hst.
Qed.

(** What a message comes to. *)
Inductive receipt (now : Z) (from to : NodeId) (m : Message) (c : Client) (h : History) :
    Client → History → Prop :=
| rc_ignored : receipt now from to m c h c h
| rc_refused c' :
    state_ c = Waiting → state_ c' = Backoff → deadlineMs_ c' = (now + retryBackoffMs (sc_cfg c))%Z →
    (clientId_ c', base_ c', range_ c', sc_cfg c', markerIssued_ c', seqNo_ c', attempt_ c') =
    (clientId_ c, base_ c, range_ c, sc_cfg c, markerIssued_ c, seqNo_ c, attempt_ c) →
    current_ c' = current_ c → currentCommand_ c' = currentCommand_ c →
    receipt now from to m c h c' h
| rc_answered r c' h' :
    m = MClientReply r → crp_status r = CsOk → state_ c = Waiting → to = attemptEnvelope_ c →
    History_complete (clientId_ c) (op_seq (current_ c)) now (crp_result r) h = Some h' →
    state_ c' = Idle → (now + minGapMs (sc_cfg c) ≤ nextIssueAtMs_ c')%Z →
    (clientId_ c', base_ c', range_ c', sc_cfg c', markerIssued_ c', seqNo_ c', attempt_ c') =
    (clientId_ c, base_ c, range_ c, sc_cfg c, markerIssued_ c, seqNo_ c, attempt_ c) →
    current_ c' = current_ c → currentCommand_ c' = currentCommand_ c →
    receipt now from to m c h c' h'.

Lemma deliver_receipt now from to m c h c' h' lines : wl_kind (sc_cfg c) = KvWorkload →
  SimClient_onDeliver now from to m c h = Some (c', h', lines) → receipt now from to m c h c' h'.
Proof.
  intros Hkind. unfold SimClient_onDeliver.
  destruct m as [| | | | |r]; try by (intros [= <- <- <-]; constructor).
  destruct (bool_decide_reflect (state_ c = Waiting)) as [Hst|]; cbn [negb orb]; [|intros [= <- <- <-]; constructor].
  destruct (N.eqb_spec to (attemptEnvelope_ c)) as [Eto|]; cbn [negb orb]; [|intros [= <- <- <-]; constructor].
  destruct (negb _); [intros [= <- <- <-]; constructor|].
  destruct (crp_status r) eqn:Es.
  - cbv zeta. rewrite decide_False by (by rewrite Hkind). intros (h1&Hc&Hr)%bind_Some.
    destruct (roll _ (set_leader from c)) as [gap c1] eqn:Er. apply roll_frame in Er.
    injection Hr as <- <- _. rewrite Er. eapply rc_answered; try done. cbn. lia.
  - cbv zeta. destruct (_ && _); intros [= <- <- <-]; by apply rc_refused.
  - cbv zeta. destruct (_ && _); intros [= <- <- <-]; by apply rc_refused.
Qed.

(** ** How often a client tries *)

Local Open Scope Z_scope.

(** The marker is the one operation that does not wait for its turn. *)
Definition timing (t : Z) (c : Client) : Prop :=
  let m := if markerIssued_ c then 25 else 0 in
  let a := 25 * Z.of_N (attempt_ c) in
  a ≤ t + 25 + m ∧
  match state_ c with
  | Idle => a ≤ nextIssueAtMs_ c + m
  | Waiting => a ≤ deadlineMs_ c - 400 + 25 + m ∧ deadlineMs_ c - 400 ≤ t
  | Backoff => a ≤ deadlineMs_ c + m
  end.

Definition kMaxRunMs : Z := 99950.

Lemma timing_mono t t' c : t ≤ t' → timing t c → timing t' c.
Proof. unfold timing. intros Ht [H1 H2]. split; [lia|]. destruct (state_ c); lia. Qed.

Lemma timing_attempts t c : t ≤ kMaxRunMs → timing t c → (attempt_ c ≤ 4000)%N.
Proof. unfold timing, kMaxRunMs. intros Ht [H1 _]. destruct (markerIssued_ c); lia. Qed.

(** An attempt, given the room for it. *)
Lemma attempted_timing t c1 c' from to : attempted t c1 c' from to → requestTimeoutMs (sc_cfg c1) = 400 →
  t ≤ kMaxRunMs → (let m := if markerIssued_ c1 then 25 else 0 in 25 * Z.of_N (attempt_ c1) ≤ t + m) →
  timing t c' ∧ attempt_ c' = (attempt_ c1 + 1)%N ∧ (attempt_ c1 < 4000)%N.
Proof.
  intros [Hf _ _ Hcount _ _ [Hst Hdl]] Hreq Ht Hroom. injection Hf as _ _ _ _ Hm _ _. unfold kMaxRunMs in Ht.
  assert (attempt_ c1 < 4000)%N as Hlt by (cbn zeta in Hroom; destruct (markerIssued_ c1); lia).
  rewrite add64_small in Hcount by (unfold two64; lia). split; [|done].
  unfold timing. rewrite Hst, Hm, Hcount, Hdl, Hreq. cbn zeta in *. lia.
Qed.

Lemma turn_timing t c h c' h' sn : workload_ok (sc_cfg c) → timing t c → t ≤ kMaxRunMs →
  turn t c h c' h' sn → timing t c' ∧
  (sn = [] ∧ c' = c ∨ attempt_ c' = (attempt_ c + 1)%N ∧ (attempt_ c < 4000)%N).
Proof.
  intros (_&_&Hreq&_) [Hall Hst] Ht Hturn.
  destruct Hturn as [|c1 c' from to Hbusy Hdl Hf Hcur Hcmd Hat|c1 c' from to [Hf [Hi Hm] Hmark _ _ _ _ _] Hat].
  - split; [by split|by left].
  - unfold fixed in Hf. injection Hf as F1 F2 F3 F4 F5 F6 F7 F8 F9.
    destruct (attempted_timing t c1 c' from to Hat) as (?&E&Hlt); [by rewrite F4|done| |].
    { rewrite F5, F7. cbn zeta in *. destruct (state_ c); [done|lia|lia]. }
    split; [done|right]. by rewrite E, F7 in *.
  - injection Hf as F1 F2 F3 F4 F5.
    destruct (attempted_timing t c1 c' from to Hat) as (?&E&Hlt); [by rewrite F4|done| |].
    { rewrite F5. rewrite Hi, Hm in *. cbn zeta in *. destruct Hmark as [[-> _]|[-> Hn]]; lia. }
    split; [done|right]. by rewrite E, F5 in *.
Qed.

Lemma receipt_timing t from to m c h c' h' : workload_ok (sc_cfg c) → timing t c →
  receipt t from to m c h c' h' → timing t c' ∧ attempt_ c' = attempt_ c.
Proof.
  intros (_&_&_&Hback&Hgap) [Hall Hst] Hr.
  destruct Hr as [|c' Hw Hb Hdl Hf _ _|r c' h' _ _ Hw _ _ Hid Hn Hf _ _]; [done|..];
    injection Hf as F1 F2 F3 F4 F5 F6 F7; rewrite Hw in Hst.
  - split; [|done]. unfold timing. rewrite Hb, Hdl, F5, F7, Hback. cbn zeta in *. lia.
  - split; [|done]. unfold timing. rewrite Hid, F5, F7. rewrite Hgap in Hn. cbn zeta in *.
    destruct (markerIssued_ c); lia.
Qed.

End Client.

(** ** The clients together *)

Section World.
Context {G : Type} `{!Engine G} (leftFirst : bool).
Context (members : list N) (count : nat) (cfg : WorkloadConfig).
Context (Hcount : (count ≤ 16)%nat) (Hcfg : workload_ok cfg).

(** Operations of the time before the cluster was healed, and all before that. *)
Context (old : N * N → Prop).

Local Abbreviation Client := (SimClient G).

(** Client [i]'s addresses start here. *)
Definition base_of (i : nat) : N := 1000 + 4000 * N.of_nat i.

Definition sent_by (id : N) (sn : Sent) : list ClientRequest := filter (λ r, cr_clientId r = id) sn.*2.

(** A completed operation and the committed entry it owes its result to: nothing
    up to that entry was invoked after the operation returned, or comes after it in
    its client's session; unless it is old, a node knows the entry to be
    committed. *)
Definition done_fact (A : AState) (hist : History) (op : ClientOp) : Prop :=
  ∃ b l i e, covered members A b l (S i) ∧ l !! i = Some e ∧
    parseKv (e_command e) = Some (cmd_of op) ∧
    op_result op =
      (KVStateMachine_apply (run_kv KVStateMachine_init (e_command <$> take i l)) (e_command e)).1 ∧
    (∀ e', e' ∈ take (S i) l → ∃ k op', om_find k hist = Some op' ∧
      parseKv (e_command e') = Some (cmd_of op') ∧ (op_invoke op' ≤ op_return op)%Z ∧
      (op_client op' = op_client op → op_seq op' ≤ op_seq op)) ∧
    (old (identity op) ∨ ∃ n, n ∈ members ∧ (S i ≤ a_commit A n)%nat).

Record client_ok (sn : Sent) (t : N) (hist : History) (i : nat) (c : Client) : Prop := {
  ck_base : base_ c = base_of i;
  ck_range : range_ c = 4000;
  ck_cfg : sc_cfg c = cfg;
  ck_session : session_ok (N.of_nat (S i)) c hist (sent_by (N.of_nat (S i)) sn);
  ck_seq : seqNo_ c ≤ attempt_ c;
  ck_timing : timing (Z.of_N t) c;
  ck_current : 0 < seqNo_ c → ∃ op, om_find (N.of_nat (S i), seqNo_ c) hist = Some op ∧
    cmd_of op = cmd_of (current_ c) ∧ currentCommand_ c = encodeKvCommand (cmd_of op) ∧
    kv_command_ok (cmd_of op);
  ck_waiting : state_ c = Waiting → (attemptEnvelope_ c, target_ c, request_of c) ∈ sn;
  ck_marker : markerIssued_ c = true → ¬ old (N.of_nat (S i), seqNo_ c);
}.

(** A request on its way belongs to an attempt and to an operation. *)
Definition sent_fact (w : World G) (x : NodeId * NodeId * ClientRequest) : Prop :=
  let '(from, to, req) := x in
  ∃ i c a op, w_clients w !! i = Some c ∧ cr_clientId req = N.of_nat (S i) ∧
    a < attempt_ c ∧ from = base_of i + a ∧
    om_find (cr_clientId req, cr_seqNo req) (w_history w) = Some op ∧
    cr_command req = encodeKvCommand (cmd_of op) ∧ kv_command_ok (cmd_of op).

Record clients_ok (A : AState) (sn : Sent) (t : N) (w : World G) : Prop := {
  wk_client i c : w_clients w !! i = Some c → client_ok sn t (w_history w) i c;
  wk_count : length (w_clients w) = count;
  wk_hist : om_ok (w_history w);
  wk_op k op : om_find k (w_history w) = Some op →
    identity op = k ∧ (∃ i, (i < count)%nat ∧ op_client op = N.of_nat (S i)) ∧ (op_invoke op ≤ Z.of_N t)%Z;
  wk_old : (∀ k, old k) ∨ ∀ k, old k → is_Some (om_find k (w_history w));
  wk_sent x : x ∈ sn → sent_fact w x;
  wk_inj x y : x ∈ sn → y ∈ sn → x.1.1 = y.1.1 → x = y;
  wk_done k op : om_find k (w_history w) = Some op → complete op = true → done_fact A (w_history w) op;
}.

(** ** What the history keeps *)

Definition grows (hist hist' : History) : Prop := ∀ k op, om_find k hist = Some op →
  ∃ op', om_find k hist' = Some op' ∧ cmd_of op' = cmd_of op ∧ op_invoke op' = op_invoke op.

Lemma grows_refl hist : grows hist hist.
Proof. intros k op H. by exists op. Qed.

Lemma grows_insert hist k op : (∀ op0, om_find k hist = Some op0 → cmd_of op = cmd_of op0 ∧ op_invoke op = op_invoke op0) →
  grows hist (om_insert k op hist).
Proof.
  intros Hk k' op' Hf. destruct (decide (k' = k)) as [->|].
  - exists op. rewrite om_find_insert_eq. by destruct (Hk op' Hf).
  - exists op'. by rewrite om_find_insert_ne.
Qed.

Lemma done_grows A hist hist' op : grows hist hist' → done_fact A hist op → done_fact A hist' op.
Proof.
  intros Hg (b&l&i&e&Hc&Hl&Hp&Hr&Hall&Ho). exists b, l, i, e. split_and!; try done.
  intros e' He'. destruct (Hall e' He') as (k&op1&Hf&Hp1&Hi&Hs). destruct (Hg k op1 Hf) as (op2&Hf2&Ec&Ei).
  exists k, op2. rewrite Ec, Ei. split_and!; try done. injection Ec as E1 E2 _ _ _ _. by rewrite E1, E2.
Qed.

Lemma done_ext A A' hist op : later old A A' → done_fact A hist op → done_fact A' hist op.
Proof.
  intros [E Hcm] (b&l&i&e&Hc&Hl&Hp&Hr&Hall&Ho). exists b, l, i, e. split_and!; try done.
  - by apply (ext_covered _ E b).
  - destruct Hcm as [Hcm|Hcm]; [by left|]. destruct Ho as [?|(n&Hn&Ho)]; [by left|right].
    exists n. split; [done|]. etrans; [exact Ho|apply Hcm].
Qed.

Lemma clients_ext A A' sn t w : later old A A' → clients_ok A sn t w → clients_ok A' sn t w.
Proof. intros E []. split; try done. intros k op Hf Hc. by eapply done_ext, wk_done0. Qed.

Lemma clients_time A sn t t' w : t ≤ t' → clients_ok A sn t w → clients_ok A sn t' w.
Proof.
  intros Ht []. split; try done.
  - intros i c Hi. destruct (wk_client0 i c Hi). split; try done. eapply timing_mono; [|done]. lia.
  - intros k op Hf. destruct (wk_op0 k op Hf) as (?&?&?). split_and!; [done|done|lia].
Qed.

Lemma sent_by_other id sn sn' : (∀ x, x ∈ sn' → cr_clientId x.2 ≠ id) → sent_by id (sn ++ sn') = sent_by id sn.
Proof.
  intros H. unfold sent_by. rewrite fmap_app, filter_app. rewrite <-(app_nil_r (filter _ sn.*2)) at 2. f_equal.
  induction sn' as [|x sn' IH]; [done|]. rewrite fmap_cons, filter_cons_False by (apply H; by left).
  apply IH. intros y Hy. apply H. by right.
Qed.

Lemma sent_by_own id sn sn' : (∀ x, x ∈ sn' → cr_clientId x.2 = id) → sent_by id (sn ++ sn') = sent_by id sn ++ sn'.*2.
Proof.
  intros H. unfold sent_by. rewrite fmap_app, filter_app. f_equal.
  induction sn' as [|x sn' IH]; [done|]. rewrite fmap_cons, filter_cons_True by (apply H; by left). f_equal.
  apply IH. intros y Hy. apply H. by right.
Qed.

(** One client changed, with the history and what was sent. *)
Lemma clients_update A sn t w i c c' hist' new :
  clients_ok A sn t w → w_clients w !! i = Some c →
  grows (w_history w) hist' → om_ok hist' →
  own_changes (N.of_nat (S i)) (Z.of_N t) (w_history w) hist' →
  client_ok (sn ++ new) t hist' i c' → attempt_ c ≤ attempt_ c' →
  let w' := mkWorld (<[i := c']> (w_clients w)) hist' (w_threw w) in
  (∀ k op, om_find k hist' = Some op → om_find k (w_history w) = Some op ∨
    (identity op = k ∧ (∃ i, (i < count)%nat ∧ op_client op = N.of_nat (S i)) ∧ (op_invoke op ≤ Z.of_N t)%Z ∧
     (complete op = true → done_fact A (w_history w) op))) →
  Forall (sent_fact w') new → (∀ x, x ∈ new → cr_clientId x.2 = N.of_nat (S i)) →
  (∀ x y, x ∈ sn ++ new → y ∈ new → x.1.1 = y.1.1 → x = y) →
  clients_ok A (sn ++ new) t w'.
Proof.
  intros [Hc Hn Hh Ho Hold Hs Hinj Hd] Hi Hg Hok Hown Hc' Hat w' Hops Hnew Hid Hinj'.
  assert (∀ j, w_clients w' !! j = if decide (j = i) then Some c' else w_clients w !! j) as Hlook.
  { intros j. cbn. destruct (decide (j = i)) as [->|].
    - apply list_lookup_insert_eq. by eapply lookup_lt_Some.
    - by apply list_lookup_insert_ne. }
  split; cbn [w_history w'].
  - intros j cj. rewrite Hlook. destruct (decide (j = i)) as [->|Hj]; [by intros [= <-]|]. intros Hcj.
    destruct (Hc j cj Hcj) as [B1 B2 B3 B4 B5 B6 B7 B8 B9]. split; try done.
    + rewrite sent_by_other by (intros x Hx; rewrite (Hid x Hx); lia). eapply session_other; [done|done|lia].
    + rewrite (proj1 Hown) by lia. done.
    + intros Hw. apply elem_of_app. left. by apply B8.
  - cbn. by rewrite length_insert.
  - done.
  - intros k op Hf. destruct (Hops k op Hf) as [Hf0|(?&?&?&_)]; [by apply Ho|done].
  - destruct Hold as [?|Hold]; [by left|right]. intros k [op Hk]%Hold. destruct (Hg k op Hk) as (op'&?&_). by exists op'.
  - intros x [Hx|Hx]%elem_of_app; [|by apply (proj1 (Forall_forall _ _) Hnew)].
    destruct x as [[from to] req]. destruct (Hs _ Hx) as (j&cj&a&op&Hj&Ej&Ha&Ef&Hop&Ecmd&Hk).
    destruct (Hg _ _ Hop) as (op'&Hop'&Ec&_). exists j, (if decide (j = i) then c' else cj), a, op'.
    rewrite Hlook, Ec. split_and!; try done.
    + by destruct (decide (j = i)).
    + destruct (decide (j = i)) as [->|]; [|done]. rewrite Hi in Hj. injection Hj as <-. lia.
  - intros x y Hx [Hy|Hy]%elem_of_app E; [|by apply Hinj'].
    apply elem_of_app in Hx as [Hx|Hx]; [by apply Hinj|]. symmetry. apply Hinj'; [|done|done].
    apply elem_of_app. by left.
  - intros k op Hf Hcomp. apply (done_grows A (w_history w)); [done|].
    destruct (Hops k op Hf) as [Hf0|(_&_&_&Hdone)]; [by eapply Hd|by apply Hdone].
Qed.

(** The addresses of attempts below 4000 are told apart. *)
Lemma address_inj i j a b : a < 4000 → b < 4000 → base_of i + a = base_of j + b → i = j ∧ a = b.
Proof. unfold base_of. lia. Qed.

Lemma clients_attempts A sn t w j c : clients_ok A sn t w → (Z.of_N t ≤ kMaxRunMs)%Z → w_clients w !! j = Some c →
  attempt_ c ≤ 4000.
Proof. intros H Ht Hj. eapply timing_attempts; [exact Ht|]. apply (wk_client _ _ _ _ H j c Hj). Qed.

(** A client sends its current operation. *)
Lemma clients_send A sn t w i c c1 c' hist' from to op : clients_ok A sn t w → (Z.of_N t ≤ kMaxRunMs)%Z →
  w_clients w !! i = Some c →
  (base_ c1, range_ c1, sc_cfg c1, attempt_ c1) = (base_ c, range_ c, sc_cfg c, attempt_ c) →
  attempted (Z.of_N t) c1 c' from to → attempt_ c < 4000 → attempt_ c' = attempt_ c + 1 →
  timing (Z.of_N t) c' → seqNo_ c1 ≤ attempt_ c + 1 →
  identity (current_ c1) = (N.of_nat (S i), seqNo_ c1) → clientId_ c1 = N.of_nat (S i) →
  om_find (N.of_nat (S i), seqNo_ c1) hist' = Some op → cmd_of op = cmd_of (current_ c1) →
  currentCommand_ c1 = encodeKvCommand (cmd_of op) → kv_command_ok (cmd_of op) →
  grows (w_history w) hist' → om_ok hist' →
  own_changes (N.of_nat (S i)) (Z.of_N t) (w_history w) hist' →
  (∀ k op, om_find k hist' = Some op → om_find k (w_history w) = Some op ∨
    (identity op = k ∧ (∃ i, (i < count)%nat ∧ op_client op = N.of_nat (S i)) ∧ (op_invoke op ≤ Z.of_N t)%Z ∧
     (complete op = true → done_fact A (w_history w) op))) →
  session_ok (N.of_nat (S i)) c' hist' (sent_by (N.of_nat (S i)) sn ++ [request_of c1]) →
  (markerIssued_ c1 = true → ¬ old (N.of_nat (S i), seqNo_ c1)) →
  clients_ok A (sn ++ [(from, to, request_of c1)]) t (mkWorld (<[i := c']> (w_clients w)) hist' (w_threw w)).
Proof.
  intros H Ht Hi [= B1 B2 B3 B4] [Hf Hcur Hcmd _ Hfrom [Henv Htgt] [Hst _]] Hlt Hatt Htime Hseq Hident Hid Hop Ecmd Ecc Hok
    Hg Hohist Hown Hops Hs Hmark.
  destruct (wk_client _ _ _ _ H i c Hi) as [C1 C2 C3 _ _ _ _ _ _]. injection Hf as F1 F2 F3 F4 F5 F6 F7.
  assert (i < 16)%nat as Hi16 by (apply lookup_lt_Some in Hi; rewrite (wk_count _ _ _ _ H) in Hi; lia).
  assert (from = base_of i + attempt_ c) as Efrom.
  { rewrite Hfrom, B1, B2, B4, C1, C2, (N.mod_small (attempt_ c)) by done. apply N.mod_small. unfold base_of, two16. lia. }
  assert (request_of c' = request_of c1) as Ereq by (unfold request_of; congruence).
  assert (∀ x, x ∈ [(from, to, request_of c1)] → cr_clientId x.2 = N.of_nat (S i)) as Hown_id
    by (by intros x ->%list_elem_of_singleton).
  injection Hident as _ Hsq.
  eapply clients_update; [exact H|exact Hi|done|done|done| |lia|done| |done|].
  - split; try congruence; try done.
    + by rewrite sent_by_own.
    + rewrite F6, Hcur, Hcmd. intros _. by exists op.
    + intros _. rewrite Ereq, Henv, Htgt. apply elem_of_app. right. by apply list_elem_of_singleton.
    + by rewrite F5, F6.
  - constructor; [|constructor]. exists i, c', (attempt_ c), op. cbn. rewrite Hid, Hsq. split_and!; try done; [|lia].
    apply list_lookup_insert_eq. by eapply lookup_lt_Some.
  - intros x y [Hx|Hx]%elem_of_app ->%list_elem_of_singleton E; [|by apply list_elem_of_singleton in Hx].
    destruct x as [[fx tx] rx]. destruct (wk_sent _ _ _ _ H _ Hx) as (j&cj&a&_&Hj&_&Ha&Ef&_). cbn in E.
    pose proof (clients_attempts A sn t w j cj H Ht Hj). rewrite Efrom, Ef in E.
    apply address_inj in E as [-> ->]; [|lia|done]. rewrite Hi in Hj. injection Hj as <-. lia.
Qed.

Lemma clients_turn A sn t w i c n c' hist' acts : clients_ok A sn t w → (Z.of_N t ≤ kMaxRunMs)%Z →
  ((∀ k, old k) → (Z.of_N t < finalOpAtMs cfg)%Z) →
  w_clients w !! i = Some c →
  SimClient_tick leftFirst (Z.of_N t) n c (w_history w) = (c', hist', acts) →
  clients_ok A (sn ++ sends_of acts) t (mkWorld (<[i := c']> (w_clients w)) hist' (w_threw w)).
Proof.
  intros H Ht Hphase Hi Htick. destruct (wk_client _ _ _ _ H i c Hi) as [C1 C2 C3 C4 C5 C6 C7 C8 C9].
  pose proof (clients_attempts A sn t w i c H Ht Hi) as Hatt.
  assert (i < 16)%nat as Hi16 by (apply lookup_lt_Some in Hi; rewrite (wk_count _ _ _ _ H) in Hi; lia).
  pose proof (ss_client _ _ _ _ C4) as Hid.
  destruct (tick_ok leftFirst _ _ _ _ _ _ _ _ _ C4 ltac:(unfold two64; lia) Htick) as [Hs _].
  pose proof (tick_own leftFirst _ _ _ _ _ _ _ Htick) as Hown. rewrite Hid in Hown. rewrite requests_sends in Hs.
  assert (workload_ok (sc_cfg c)) as Hwl by (by rewrite C3).
  assert (clientId_ c < two64) as Hid64 by (rewrite Hid; unfold two64; lia).
  pose proof (tick_turn leftFirst _ _ _ _ _ _ _ Hwl Hid64 Htick) as Hturn.
  destruct (turn_timing _ _ _ _ _ _ Hwl C6 Ht Hturn) as [Htime Hnext].
  inversion Hturn as [Ec Eh Es|c1 c2 from to Hbusy Hdl Hf Hcur Hcmd Hat Ec Eh Es|c1 c2 from to Hiss Hat Ec Eh Es].
  - rewrite app_nil_r, list_insert_id by (by subst c'). by destruct w.
  - subst c2 hist'. rewrite <-Es in *. destruct Hnext as [[? _]|[Hatt' Hlt]]; [done|].
    unfold fixed in Hf. injection Hf as F1 F2 F3 F4 F5 F6 F7 F8 F9.
    assert (0 < seqNo_ c) as Hpos.
    { destruct (decide (seqNo_ c = 0)) as [E0|]; [|lia]. by rewrite (ss_idle _ _ _ _ C4 E0) in Hbusy. }
    destruct (C7 Hpos) as (op&Hop&Ecmd&Ecc&Hok).
    eapply (clients_send A sn t w i c c1 c' _ from to op); try done; try congruence.
    + lia.
    + rewrite Hcur, F6. by apply (ss_current _ _ _ _ C4).
    + apply grows_refl.
    + apply (wk_hist _ _ _ _ H).
    + by left.
    + rewrite F5, F6. exact C9.
  - subst c2 hist'. rewrite <-Es in *. destruct Hnext as [[? _]|[Hatt' Hlt]]; [done|].
    destruct Hiss as [Hf [Hidle _] Hmark Hseq Hident [Hinv Hret] Hcmd Hok]. injection Hf as F1 F2 F3 F4 F5.
    rewrite add64_small in Hseq by (unfold two64; lia). rewrite F1, Hid in Hident.
    assert (om_find (N.of_nat (S i), seqNo_ c1) (w_history w) = None) as Hfresh.
    { apply eq_None_not_Some. intros Hs1%(ss_history _ _ _ _ C4). lia. }
    eapply (clients_send A sn t w i c c1 c' _ from to (current_ c1)); try done; try congruence.
    + lia.
    + unfold History_invoke. rewrite Hident. apply om_find_insert_eq.
    + unfold History_invoke. rewrite Hident. apply grows_insert. intros op0. by rewrite Hfresh.
    + apply om_insert_ok, (wk_hist _ _ _ _ H).
    + intros k op. unfold History_invoke. rewrite Hident. destruct (decide (k = (N.of_nat (S i), seqNo_ c1))) as [->|].
      * rewrite om_find_insert_eq. intros [= <-]. right. split_and!; [done| |by rewrite Hinv|].
        -- injection Hident as -> _. exists i. split; [|done]. apply lookup_lt_Some in Hi. by rewrite (wk_count _ _ _ _ H) in Hi.
        -- unfold complete. by rewrite Hret.
      * rewrite om_find_insert_ne by done. by left.
    + intros Hm1 Hold. destruct Hmark as [[_ Hfin]|[? _]]; [|congruence]. destruct (wk_old _ _ _ _ H) as [Hall|Hsome].
      * specialize (Hphase Hall). rewrite C3 in Hfin. lia.
      * apply Hsome in Hold as [op Hop]. by rewrite Hfresh in Hop.
Qed.

(** ** A message reaches a client *)

Local Abbreviation msg_fact := (msg_fact members KVStateMachine_init old).

(** The entry of a well-formed request is an operation of the history. *)
Lemma proposed_op A sn t w cmd : clients_ok A sn t w → proposed sn cmd →
  ∃ k op, om_find k (w_history w) = Some op ∧ decodePrefix cmd = Some k ∧ parseKv cmd = Some (cmd_of op).
Proof.
  intros H (from&to&req&Hin&Ecmd&Hd). destruct (wk_sent _ _ _ _ H _ Hin) as (i&c&a&op&_&_&_&_&Hop&Ec&Hok).
  exists (cr_clientId req, cr_seqNo req), op. split_and!; [done|done|]. rewrite <-Ecmd, Ec. by apply parse_encode.
Qed.

(** The answer to the current operation. *)
Lemma answer_done A sn t w i c from r op : Inv members A → prov (proposed sn) A → clients_ok A sn t w →
  w_clients w !! i = Some c → state_ c = Waiting → crp_status r = CsOk →
  msg_fact A sn from (attemptEnvelope_ c) (MClientReply r) →
  om_find (clientId_ c, op_seq (current_ c)) (w_history w) = Some op →
  done_fact A (w_history w) (mkClientOp (op_client op) (op_seq op) (op_op op) (op_key op) (op_arg op) (op_arg2 op)
    (op_invoke op) (Z.of_N t) (crp_result r)).
Proof.
  intros I Hprov H Hi Hst Hr Hm Hop. destruct (wk_client _ _ _ _ H i c Hi) as [_ _ _ C4 _ _ _ C8 _].
  destruct (Hm Hr) as (req&ix&e&Hin&(b&l&Hcov&Hpos&He&Hres)&Hd&Hcm).
  pose proof (wk_inj _ _ _ _ H _ _ Hin (C8 Hst) eq_refl) as [= _ Ereq]. rewrite Ereq in Hd, Hcm. cbn in Hd, Hcm.
  set (n := (N.to_nat ix - 1)%nat) in *. replace (N.to_nat ix) with (S n) in Hcov by lia.
  pose proof (covered_of _ _ _ _ _ _ Hprov Hcov) as Hall.
  assert (∀ e', e' ∈ take (S n) l → proposed sn (e_command e')) as Hprop
    by (intros e' He'; by apply (proj1 (Forall_forall _ _) Hall)).
  assert (e ∈ take (S n) l) as Hein by (apply elem_of_take; exists n; split; [done|lia]).
  destruct (wk_op _ _ _ _ H _ op Hop) as ([= Ecl Esq]&_).
  exists b, l, n, e. split_and!; [done|done| | | |].
  - destruct (proposed_op A sn t w _ H (Hprop e Hein)) as (k&op'&Hk&Hd'&Hp). rewrite Hd in Hd'. injection Hd' as <-.
    rewrite Hop in Hk. injection Hk as <-. by rewrite Hp.
  - cbn. by rewrite Hres, run_sm_kv.
  - intros e' He'. destruct (proposed_op A sn t w _ H (Hprop e' He')) as (k&op'&Hk&Hd'&Hp).
    exists k, op'. destruct (wk_op _ _ _ _ H k op' Hk) as (Eid&_&Hinv). split_and!; [done|done|done|]. cbn. intros Ecl'.
    assert (is_Some (om_find (N.of_nat (S i), op_seq op') (w_history w))) as Hs.
    { exists op'. rewrite <-Hk, <-Eid. unfold identity. by rewrite Ecl', Ecl, (ss_client _ _ _ _ C4). }
    apply (ss_history _ _ _ _ C4) in Hs. rewrite Esq.
    assert (0 < seqNo_ c) as Hpos' by lia. pose proof (ss_current _ _ _ _ C4 Hpos') as [= _ ->]. lia.
  - unfold identity. cbn. rewrite Ecl, Esq. destruct Hcm as [?|[Hn Hcm]]; [by left|right].
    exists from. split; [done|]. lia.
Qed.

Lemma clients_deliver A sn t w k from to m : Inv members A → prov (proposed sn) A → clients_ok A sn t w →
  msg_fact A sn from to m → clients_ok A sn t (onClientDeliver k from to m t w).1.
Proof.
  intros I Hprov H Hm. unfold onClientDeliver. destruct (w_clients w !! k) as [c|] eqn:Hi; [|done].
  destruct (wk_client _ _ _ _ H k c Hi) as [C1 C2 C3 C4 C5 C6 C7 C8 C9].
  destruct (deliver_session _ (Z.of_N t) from to m c _ _ C4 ltac:(lia)) as (c'&hist'&lines&E&Hs&Eseq).
  rewrite E. cbn [fst]. pose proof (deliver_own _ _ _ _ _ _ _ _ _ E) as Hown.
  pose proof (ss_client _ _ _ _ C4) as Hid. rewrite Hid in Hown.
  assert (wl_kind (sc_cfg c) = KvWorkload) as Hkind by (rewrite C3; apply Hcfg).
  pose proof (deliver_receipt _ _ _ _ _ _ _ _ _ Hkind E) as Hrc.
  destruct (receipt_timing (Z.of_N t) from to m c (w_history w) c' hist' ltac:(by rewrite C3) C6 Hrc) as [Htime Hatt].
  assert (∀ x, x ∈ ([] : Sent) → cr_clientId x.2 = N.of_nat (S k)) as Hnil by (by intros x ?%elem_of_nil).
  rewrite <-(app_nil_r sn).
  destruct Hrc as [|c' Hw Hb Hdl Hf Hcur Hcmd|r c' hist' -> Hok Hw -> Hcomp Hidle Hn Hf Hcur Hcmd].
  - rewrite list_insert_id by done. rewrite app_nil_r. by destruct w.
  - injection Hf as F1 F2 F3 F4 F5 F6 F7.
    eapply clients_update; [exact H|exact Hi|apply grows_refl|apply (wk_hist _ _ _ _ H)|done| |lia|by left|done|done|].
    + rewrite app_nil_r. split; try congruence; try done; [by rewrite F6, Hcur, Hcmd|by rewrite F5, F6].
    + by intros x y _ ?%elem_of_nil.
  - injection Hf as F1 F2 F3 F4 F5 F6 F7. unfold History_complete in Hcomp.
    apply bind_Some in Hcomp as (op&Hop&[= <-]).
    pose proof (answer_done A sn t w k c from r op I Hprov H Hi Hw Hok Hm Hop) as Hdone.
    destruct (wk_op _ _ _ _ H _ op Hop) as (Eid&Hcl&Hinv).
    assert (∀ op0, om_find (clientId_ c, op_seq (current_ c)) (w_history w) = Some op0 → op0 = op) as Huniq
      by (intros op0; rewrite Hop; by intros [= ->]).
    assert (0 < seqNo_ c) as Hpos.
    { destruct (decide (seqNo_ c = 0)) as [E0|]; [|lia]. by rewrite (ss_idle _ _ _ _ C4 E0) in Hw. }
    destruct (C7 Hpos) as (op1&Hop1&Ecmd1&Ecc1&Hok1). pose proof (ss_current _ _ _ _ C4 Hpos) as [= _ Esq].
    assert (op1 = op) as -> by (apply Huniq; by rewrite Hid, Esq).
    eapply clients_update; [exact H|exact Hi| |apply om_insert_ok, (wk_hist _ _ _ _ H)|done| |lia| |done|done|].
    + apply grows_insert. by intros op0 ->%Huniq.
    + rewrite app_nil_r. split; try congruence; try done; [|by rewrite F5, F6]. rewrite F6, Hcur, Hcmd. intros _.
      eexists. rewrite Hid, Esq, om_find_insert_eq. split_and!; [done|done|done|done].
    + intros k' op'. destruct (decide (k' = (clientId_ c, op_seq (current_ c)))) as [->|].
      * rewrite om_find_insert_eq. intros [= <-]. right. by split_and!.
      * rewrite om_find_insert_ne by done. by left.
    + by intros x y _ ?%elem_of_nil.
Qed.

(** ** The end *)

(** [done_fact], read off the committed entries. *)
Definition done_in (es : list LogEntry) (hist : History) (op : ClientOp) : Prop :=
  ∃ i e, es !! i = Some e ∧ parseKv (e_command e) = Some (cmd_of op) ∧
    op_result op =
      (KVStateMachine_apply (run_kv KVStateMachine_init (e_command <$> take i es)) (e_command e)).1 ∧
    ∀ e', e' ∈ take (S i) es → ∃ k op', om_find k hist = Some op' ∧
      parseKv (e_command e') = Some (cmd_of op') ∧ (op_invoke op' ≤ op_return op)%Z ∧
      (op_client op' = op_client op → op_seq op' ≤ op_seq op).

Lemma done_in_prefix es es' hist op : es `prefix_of` es' → done_in es hist op → done_in es' hist op.
Proof.
  intros [tl ->] (i&e&Hi&Hp&Hr&Hall). pose proof (lookup_lt_Some _ _ _ Hi) as Hlt. exists i, e.
  rewrite !take_app_le by lia. split_and!; try done. by apply lookup_app_l_Some.
Qed.

Lemma done_fact_in A hist op : done_fact A hist op → ∃ b l j, covered members A b l j ∧ done_in (take j l) hist op.
Proof.
  intros (b&l&i&e&Hc&Hl&Hp&Hr&Hall&_). exists b, l, (S i). split; [done|]. exists i, e.
  rewrite take_take, Nat.min_l, take_take, Nat.min_id by lia. split_and!; try done.
  by rewrite lookup_take_lt by lia.
Qed.

Lemma covered_prefix A b l j b' l' j' : Inv members A → covered members A b l j → covered members A b' l' j' →
  (j ≤ j')%nat → take j l `prefix_of` take j' l'.
Proof.
  intros I Hc Hc' Hle. destruct (covered_agree _ _ I _ _ _ _ j Hc (covered_le members A b' l' j j' Hc' Hle)) as (_&_&->).
  rewrite <-(take_take_le l' j j') by done. apply prefix_take.
Qed.

(** One committed log for all of them. *)
Lemma common_log A hist ops : Inv members A → Forall (λ op, complete op = true → done_fact A hist op) ops →
  ∃ b l j, covered members A b l j ∧ Forall (λ op, complete op = true → done_in (take j l) hist op) ops.
Proof.
  intros I. induction 1 as [|op ops Hop _ (b&l&j&Hc&Hall)].
  { exists 0, [], O. split; [by left|constructor]. }
  destruct (complete op) eqn:Ec; [|exists b, l, j; split; [done|constructor; [by rewrite Ec|done]]].
  destruct (done_fact_in _ _ _ (Hop eq_refl)) as (b'&l'&j'&Hc'&Hd).
  destruct (decide (j ≤ j')%nat) as [Hle|Hgt].
  - exists b', l', j'. split; [done|]. constructor; [done|]. eapply Forall_impl; [exact Hall|]. intros op' H' Ho'.
    apply (done_in_prefix (take j l)); [by eapply covered_prefix|by apply H'].
  - exists b, l, j. split; [done|]. constructor; [|done]. intros _.
    apply (done_in_prefix (take j' l')); [|exact Hd]. eapply covered_prefix; [done..|lia].
Qed.

(** The history of the clients is linearizable. *)
Lemma clients_linearizable A sn t w : Inv members A → prov (proposed sn) A → clients_ok A sn t w →
  linearizable (History_ops (w_history w)).
Proof.
  intros I Hprov H. pose proof (wk_hist _ _ _ _ H) as Hok.
  assert (∀ op, op ∈ History_ops (w_history w) → om_find (identity op) (w_history w) = Some op) as Hfind.
  { unfold History_ops. intros op ([k op']&->&Hin)%list_elem_of_fmap. apply om_find_elem in Hin; [|done].
    cbn. by destruct (wk_op _ _ _ _ H _ _ Hin) as (->&_). }
  destruct (common_log A (w_history w) (History_ops (w_history w)) I) as (b&l&j&Hc&Hall).
  { apply Forall_forall. intros op Hop. apply (wk_done _ _ _ _ H _ _ (Hfind op Hop)). }
  apply (explains_linearizable _ (e_command <$> take j l)). split; [done| | |].
  - intros k op Hf. destruct (wk_op _ _ _ _ H _ _ Hf) as (?&(i&_&Ecl)&_). split; [done|]. rewrite Ecl. lia.
  - intros cmd (e&->&He)%list_elem_of_fmap.
    pose proof (proj1 (Forall_forall _ _) (covered_of _ _ _ _ _ _ Hprov Hc) e He) as Hp.
    destruct (proposed_op A sn t w _ H Hp) as (k&op&Hk&_&Hparse). exists op. split; [|done].
    unfold History_ops. apply list_elem_of_fmap. exists (k, op). split; [done|]. by apply om_find_elem.
  - intros op Hop Hcomp. destruct (proj1 (Forall_forall _ _) Hall op Hop Hcomp) as (i&e&Hi&Hp&Hr&Hbefore).
    exists i, (e_command e). rewrite list_lookup_fmap, Hi. split_and!; [done|done|by rewrite Hr, fmap_take|].
    intros cmd' op'. rewrite <-fmap_take. intros (e'&->&He')%list_elem_of_fmap Hop' Hp'.
    destruct (Hbefore e' He') as (k&op2&Hk&Hp2&Hinv&Hseq). rewrite Hp2 in Hp'. injection Hp' as E1 E2 E3 E4 E5 E6.
    destruct (wk_op _ _ _ _ H _ _ Hk) as (Ek&_). apply Hfind in Hop'.
    assert (op' = op2) as ->; [|done]. unfold identity in *. rewrite <-E1, <-E2, Ek, Hk in Hop'. by injection Hop'.
Qed.

(** An entry with the command of an operation has the operation's identity. *)
Lemma committed_identity A sn t w b l b' l' i e K k op : Inv members A → prov (proposed sn) A → clients_ok A sn t w →
  covered members A b' l' (S i) → l' !! i = Some e → parseKv (e_command e) = Some (cmd_of op) →
  om_find k (w_history w) = Some op → covered members A b l K → (S i ≤ K)%nat →
  ∃ e', e' ∈ take K l ∧ decodePrefix (e_command e') = Some k.
Proof.
  intros I Hprov H Hc' He Hp Hk Hc Hle. exists e.
  assert (e ∈ take (S i) l') as Hin by (apply elem_of_take; exists i; split; [done|lia]). split.
  - destruct (covered_prefix A b' l' (S i) b l K I Hc' Hc Hle) as [tl ->]. apply elem_of_app. by left.
  - pose proof (proj1 (Forall_forall _ _) (covered_of _ _ _ _ _ _ Hprov Hc') e Hin) as Hpr.
    destruct (proposed_op A sn t w _ H Hpr) as (k'&op'&Hk'&->&Hp'). rewrite Hp in Hp'. injection Hp' as E1 E2 _ _ _ _.
    destruct (wk_op _ _ _ _ H _ _ Hk) as (<-&_), (wk_op _ _ _ _ H _ _ Hk') as (<-&_).
    unfold identity. by rewrite E1, E2.
Qed.

(** When the clients are done, every acknowledged operation is among the entries
    any node knows to be committed: the client's last one is, and the others come
    before it. *)
Lemma acked_committed A sn t w b l K k op : Inv members A → prov (proposed sn) A → clients_ok A sn t w →
  Forall (λ c, client_done c = true) (w_clients w) → (∀ n, n ∈ members → (a_commit A n ≤ K)%nat) →
  covered members A b l K → om_find k (w_history w) = Some op → complete op = true →
  ∃ e, e ∈ take K l ∧ decodePrefix (e_command e) = Some k.
Proof.
  intros I Hprov H Hdone HK Hc Hk Hcomp.
  destruct (wk_op _ _ _ _ H _ _ Hk) as (Eid&(i&Hi&Ecl)&_).
  destruct (lookup_lt_is_Some_2 (w_clients w) i) as [c Hci]; [by rewrite (wk_count _ _ _ _ H)|].
  pose proof (Forall_lookup_1 _ _ _ _ Hdone Hci) as [Hmk Hidle%bool_decide_eq_true]%andb_true_iff.
  destruct (wk_client _ _ _ _ H i c Hci) as [_ _ _ C4 _ _ _ _ C9].
  assert (k = (N.of_nat (S i), op_seq op)) as Ek by (rewrite <-Eid; unfold identity; by rewrite Ecl).
  assert (0 < op_seq op ≤ seqNo_ c) as Hseq by (apply (ss_history _ _ _ _ C4); rewrite <-Ek; by exists op).
  destruct (proj2 (ss_history _ _ _ _ C4 (seqNo_ c)) ltac:(lia)) as [opm Hm].
  pose proof (ss_complete _ _ _ _ C4 _ _ Hm (or_intror Hidle)) as Hmc.
  destruct (wk_done _ _ _ _ H _ _ Hm Hmc) as (b1&l1&i1&e1&Hc1&He1&Hp1&_&_&Hwhere).
  destruct (wk_op _ _ _ _ H _ _ Hm) as (Emid&_). rewrite Emid in Hwhere.
  destruct Hwhere as [Ho|(n&Hn&Hcm)]; [by apply C9 in Ho|]. specialize (HK n Hn).
  destruct (wk_done _ _ _ _ H _ _ Hk Hcomp) as (b2&l2&i2&e2&Hc2&He2&Hp2&_&Hbefore&_).
  destruct (decide (S i2 ≤ K)%nat) as [Hle|Hgt]; [by eapply (committed_identity A sn t w b l b2 l2 i2 e2)|].
  assert (e1 ∈ take (S i2) l2) as Hin.
  { destruct (covered_prefix A b1 l1 (S i1) b2 l2 (S i2) I Hc1 Hc2 ltac:(lia)) as [tl ->]. apply elem_of_app. left.
    apply elem_of_take. exists i1. split; [done|lia]. }
  destruct (Hbefore e1 Hin) as (k'&op'&_&Hp'&_&Hs). rewrite Hp1 in Hp'. injection Hp' as E1 E2 _ _ _ _.
  injection Emid as F1 F2. specialize (Hs ltac:(congruence)).
  assert (op = opm) as -> by (assert (op_seq op = seqNo_ c) as E by lia; rewrite Ek, E, Hm in Hk; by injection Hk).
  eapply (committed_identity A sn t w b l b1 l1 i1 e1); try done. lia.
Qed.

End World.

(** Once no node crashes any more, what has happened so far is old. *)
Definition so_far (hist : History) (k : N * N) : Prop := is_Some (om_find k hist).

Lemma clients_heal {G} members count cfg A sn t (w : World G) :
  clients_ok members count cfg (λ _, True) A sn t w →
  clients_ok members count cfg (so_far (w_history w)) A sn t w.
Proof.
  intros [Hc Hn Hh Ho _ Hs Hinj Hd]. split; try done.
  - intros i c Hi. destruct (Hc i c Hi) as [? ? ? ? ? ? ? ? Hm]. split; try done. intros Hk%Hm. by destruct Hk.
  - by right.
  - intros k op Hk Hcomp. destruct (Hd k op Hk Hcomp) as (b&l&i&e&?&?&?&?&?&_). exists b, l, i, e.
    split_and!; try done. left. exists op. by destruct (Ho k op Hk) as (->&_).
Qed.

(** ** A chaos run of the key-value store *)

Section KvRun.
Context {P L R K G : Type}.
Context `{!PersistentState P} `{!RaftLog L} `{!Rng R} `{!ApplySink K}.
Context `{!Engine G} `{!PersistentStateLaws P} `{!RaftLogLaws L}.
Context (storage_ : NodeId → nat → option (P * L) → P * L) (smFactory_ : NodeId → KVStateMachine).
Context (seedRng : N → R) (seedEngine : N → G) (leftFirst : bool).
Context (storage_fresh : ∀ id, let pl := storage_ id 0 None in
  ps_currentTerm pl.1 = 0 ∧ ps_votedFor pl.1 = None ∧ log_entries pl.2 = []).
Context (storage_reopen : ∀ id inc p l, let pl := storage_ id inc (Some (p, l)) in
  ps_currentTerm pl.1 = ps_currentTerm p ∧ ps_votedFor pl.1 = ps_votedFor p ∧
  log_entries pl.2 = log_entries l).
Context (smFactory_same : ∀ id, smFactory_ id = KVStateMachine_init).
Context (seed : N) (o : ChaosOptions).
Context (Hkv : co_sm o = ChaosKv) (Hclients : (co_clients o ≤ 16)%nat).

Local Abbreviation Harness := (@SimHarness P L KVStateMachine R K G (World G)).
Local Abbreviation members := (nodeIds (co_nodes o)).
Local Abbreviation chaosStarted := (chaosStarted (K:=K) storage_ smFactory_ seedRng seedEngine seed o).
Local Abbreviation chaosBoot := (chaosBoot (K:=K) storage_ smFactory_ seedRng seedEngine seed o).
Local Abbreviation cstep := (cstep storage_ smFactory_ seedRng leftFirst (faultEndMs o)).
Local Abbreviation cruns := (cruns storage_ smFactory_ seedRng leftFirst (faultEndMs o) chaosStarted).

(** The run, the protocol and the clients. *)
Definition kv_ok (old : N * N → Prop) : AState → @Cluster P L KVStateMachine R K → Sent → Harness → Prop :=
  crel members defaultConfig KVStateMachine_init old (clients_ok members (co_clients o) (chaosWorkload o) old).

Lemma chaosWorkload_ok : workload_ok (chaosWorkload o).
Proof. unfold workload_ok, chaosWorkload. rewrite Hkv. by cbn. Qed.

Lemma acts_hcl old acts A (s : @Cluster P L KVStateMachine R K) sn (h : Harness) :
  hcl members defaultConfig KVStateMachine_init old A s sn h →
  hcl members defaultConfig KVStateMachine_init old A s (sn ++ sends_of acts) (foldl act h acts).
Proof.
  revert sn h. induction acts as [|[v|from to req] acts IH]; intros sn h H; cbn.
  - by rewrite app_nil_r.
  - by apply IH, hcl_trace.
  - replace (sn ++ (from, to, req) :: _) with ((sn ++ [(from, to, req)]) ++ sends_of acts) by (by rewrite <-app_assoc).
    by apply IH, hcl_send.
Qed.

(** Changes of the clients and of what the harness knows of them. *)
Lemma hcl_clients old A (s : @Cluster P L KVStateMachine R K) sn (h h' : Harness) :
  hcl members defaultConfig KVStateMachine_init old A s sn h →
  nodes_ h' = nodes_ h → clock h' = clock h → net_ h' = net_ h → skeleton h' = skeleton h →
  electionSafety_ h' = electionSafety_ h → appendOnly_ h' = appendOnly_ h →
  applied_ h' = applied_ h → commit_ h' = commit_ h → sweepViolations_ h' = sweepViolations_ h →
  hcl members defaultConfig KVStateMachine_init old A s sn h'.
Proof.
  intros H En Ec Enet Esk E1 E2 E3 E4 E5. pose proof (hc_rel _ _ _ _ _ _ _ _ H) as Hr.
  apply (hcl_aside _ _ _ _ A s sn h); [done| |done|done|by rewrite Enet].
  eapply hrel_frame; [exact Hr|done|]. eapply mon_ok_frame; [apply (hr_mon _ _ _ _ _ _ Hr)|done..].
Qed.

Lemma kv_tick old A s sn (h : Harness) i : kv_ok old A s sn h → (Z.of_N (nowMs h) ≤ kMaxRunMs)%Z →
  ((∀ k, old k) → (Z.of_N (nowMs h) < finalOpAtMs (chaosWorkload o))%Z) →
  ∃ sn', kv_ok old A s sn' (tickClient leftFirst h i).
Proof.
  intros [Hh Hw] Ht Hphase. unfold tickClient. cbv zeta.
  destruct (w_clients (world_ h) !! i) as [c|] eqn:Hc; [|by exists sn; split].
  destruct (SimClient_tick _ _ _ _ _) as [[c' hist] acts] eqn:Et. exists (sn ++ sends_of acts).
  match goal with |- kv_ok _ _ _ _ (foldl act ?x acts) => destruct (acts_frame acts x) as (Ec&Ew&_) end. split.
  - apply acts_hcl. by apply (hcl_clients old A s sn h).
  - unfold nowMs. rewrite Ec, Ew. cbn [clock set_world world_].
    eapply clients_turn; [exact Hclients|apply chaosWorkload_ok|exact Hw|exact Ht|exact Hphase|exact Hc|exact Et].
Qed.

Lemma kv_step old healed A s sn (h h' : Harness) d : kv_ok old A s sn h → headroom h →
  (Z.of_N (nowMs h) ≤ kMaxRunMs)%Z → (healed = false → ∀ k, old k) → (healed = true → ¬ ∀ k, old k) →
  cstep healed h d h' → ∃ A' s' sn', kv_ok old A' s' sn' h'.
Proof.
  intros H Hroom Ht Hfalse Htrue Hs. pose proof (clients_ext (G:=G) members (co_clients o) (chaosWorkload o) old) as Hext.
  destruct Hs as [h' Hst|id Hh|id Hh Hid|Hh|f|i Hh|v|].
  - destruct (crel_stepMs members (nodeIds_NoDup _) defaultConfig KVStateMachine_init old onClientDeliver _
      Hext (clients_time _ _ _ Hclients _) (clients_deliver _ _ _ Hclients chaosWorkload_ok old) A s sn h _ h' H Hroom Hst)
      as (A'&s'&H'). by exists A', s', sn.
  - exists A, s, sn. by apply crel_crash.
  - destruct (crel_restart members defaultConfig KVStateMachine_init old _ Hext storage_ smFactory_ seedRng
      storage_reopen smFactory_same A s sn h id (Hfalse Hh) H Hid) as (A'&s'&H'). by exists A', s', sn.
  - exists A, s, sn. by apply crel_killLeader.
  - exists A, s, sn. apply crel_net; [done|done|by destruct f].
  - destruct (kv_tick old A s sn h i H Ht) as [sn' H']; [|by exists A, s, sn'].
    intros Hall. cbn [finalOpAtMs chaosWorkload]. destruct healed; [by apply Htrue in Hall|]. specialize (Hh eq_refl). lia.
  - exists A, s, sn. by apply crel_trace.
  - exists A, s, sn. by apply crel_finalCheck.
Qed.

(** The cluster is healed. *)
Lemma kv_heal A s sn (h : Harness) : kv_ok (λ _, True) A s sn h →
  kv_ok (so_far (w_history (world_ h))) A s sn h.
Proof.
  intros [[Hr Hp He [Hq Hv]] Hw]. split; [|by apply clients_heal]. split; [done..|]. split; [|done].
  eapply Forall_impl; [exact Hq|]. intros p Hm. unfold msg_fact in *. destruct (w_msg p.2); try done.
  intros Hok. destruct (Hm Hok) as (req&i&e&Hin&?&?&_). exists req, i, e. split_and!; try done. left.
  destruct (wk_sent _ _ _ _ _ _ _ _ Hw _ Hin) as (j&c&a&op&_&_&_&_&Hop&_). by exists op.
Qed.

Lemma old_proper A s sn (h : Harness) : kv_ok (λ _, True) A s sn h → ¬ ∀ k, so_far (w_history (world_ h)) k.
Proof.
  intros [_ Hw] Hall. destruct (Hall (0, 0)) as [op Hop].
  destruct (wk_op _ _ _ _ _ _ _ _ Hw _ _ Hop) as ([= E _]&(i&_&E')&_). lia.
Qed.

Lemma kv_start : ∃ A s, kv_ok (λ _, True) A s [] chaosStarted.
Proof.
  destruct (hcl_new (K:=K) members (nodeIds_NoDup _) defaultConfig KVStateMachine_init (λ _, True) storage_ smFactory_ seedRng
    seedEngine storage_fresh smFactory_same (chaosHarnessOptions seed o) (mkWorld (G:=G) [] [] false)) as [s Hs].
  { cbn. by rewrite length_fmap, length_seq. }
  { apply Forall_fmap, Forall_true. done. }
  exists A_init, s. split.
  - unfold Chaos.chaosStarted, chaosStart. cbv zeta.
    match goal with |- hcl _ _ _ _ _ _ _ (foldl _ ?h _) => assert (hcl members defaultConfig KVStateMachine_init
      (λ _, True) A_init s [] h) as H1 end.
    { apply (hcl_aside _ _ _ _ _ _ _ _ _ Hs); try done. apply hrel_net; [apply (hc_rel _ _ _ _ _ _ _ _ Hs)|done]. }
    revert H1. match goal with |- context [foldl _ ?h _] => generalize h end.
    induction (seq 0 (co_clients o)) as [|i l IH]; intros h H; [done|]. cbn [foldl]. apply IH.
    by apply (hcl_clients _ _ _ _ h).
  - destruct (chaosStarted_world (K:=K) storage_ smFactory_ seedRng seedEngine seed o) as (_&Ec&->). split; cbn.
    + intros i c Hi. rewrite list_lookup_fmap in Hi. destruct (seq 0 (co_clients o) !! i) as [j|] eqn:Ej; [|done].
      apply lookup_seq in Ej as [-> Hlt]. injection Hi as <-. unfold chaosClient. split; try done.
      * cbn. rewrite N.mod_small; unfold base_of, two16; lia.
      * replace (N.of_nat (S i)) with (N.of_nat (0 + i) + 1) by lia. by apply session_start.
      * unfold timing. cbn. lia.
    + by rewrite length_fmap, length_seq.
    + constructor.
    + done.
    + by left.
    + by intros x ?%elem_of_nil.
    + by intros x y ?%elem_of_nil.
    + done.
Qed.

Lemma cstep_clock healed (h h' : Harness) d : cstep healed h d h' → clock h' = clock h + 1000000 * N.of_nat d.
Proof.
  destruct 1 as [h' Hst|id _|id _ _|_|f|i _|v|]; try (cbn; lia).
  - rewrite (stepMs_clock _ _ _ _ Hst). done.
  - destruct (aside_crash id h) as (_&->&_). cbn. lia.
  - destruct (aside_restart storage_ smFactory_ seedRng id h) as (_&->&_). cbn. lia.
  - destruct (aside_killLeader h) as (_&->&_). cbn. lia.
  - unfold tickClient. destruct (w_clients (world_ h) !! i) as [c|]; [|cbn; lia].
    destruct (SimClient_tick _ _ _ _ _) as [[c' hist] acts]. rewrite (proj1 (acts_frame acts _)). cbn. lia.
  - destruct (aside_trace v h) as (_&->&_). cbn. lia.
Qed.

Lemma run_headroom healed k (h : Harness) : cruns healed k h → (Z.of_nat k ≤ kMaxRunMs)%Z → headroom h.
Proof.
  intros Hr Hk. unfold kMaxRunMs in Hk.
  pose proof (cruns_hruns _ _ _ _ _ _ _ 0 _ _ _ (chaosStarted_run storage_ smFactory_ seedRng seedEngine seed o) Hr) as Hh.
  destruct (harness_run_ok members (nodeIds_NoDup _) defaultConfig KVStateMachine_init onClientDeliver storage_ smFactory_
    seedRng seedEngine storage_fresh storage_reopen smFactory_same (chaosHarnessOptions seed o) (mkWorld [] [] false))
    with (3 := Hh) as (_&Hle&_); [cbn; by rewrite length_fmap, length_seq|by apply Forall_fmap, Forall_true|unfold two64; lia|].
  eapply Forall_impl; [exact Hle|]. intros nd [Ht _]. unfold two64. cbn in Ht. lia.
Qed.

Lemma kv_runs healed k (h : Harness) : cruns healed k h → (Z.of_nat k ≤ kMaxRunMs)%Z →
  clock h = 1000000 * N.of_nat k ∧ ∃ old A s sn, kv_ok old A s sn h ∧
  (if healed then ¬ ∀ k, old k else old = λ _, True).
Proof.
  induction 1 as [|healed k d h1 h2 Hr IH Hs|k h1 _ IH]; intros Hk.
  - destruct (chaosStarted_world (K:=K) storage_ smFactory_ seedRng seedEngine seed o) as (_&->&_). split; [done|].
    destruct kv_start as (A&s&H). by exists (λ _, True), A, s, [].
  - destruct IH as (Ec&old&A&s&sn&H&Hold); [lia|]. split; [rewrite (cstep_clock _ _ _ _ Hs), Ec; lia|].
    assert (nowMs h1 = N.of_nat k) as Et by (unfold nowMs; by rewrite Ec, N.mul_comm, N.div_mul).
    destruct (kv_step old healed A s sn h1 h2 d H) as (A'&s'&sn'&H'); [|rewrite Et; lia|..|done|].
    + eapply run_headroom; [exact Hr|lia].
    + intros ->. by rewrite Hold.
    + by intros ->.
    + by exists old, A', s', sn'.
  - destruct (IH Hk) as (Ec&old&A&s&sn&H& ->). split; [done|]. exists (so_far (w_history (world_ h1))), A, s, sn.
    split; [by apply kv_heal|by eapply old_proper].
Qed.

(** A quiescent leader's committed log holds what was acknowledged. *)
Lemma kv_acked old A s sn (h : Harness) leader acked : kv_ok old A s sn h →
  allClientsDone h = true → quiescent h = true → firstLeader h = Some leader →
  acked ∈ ackedIdentities (w_history (world_ h)) → acked ∈ committedIds leader.
Proof.
  intros [Hh Hw] Hdone Hq El Hin. pose proof (hc_rel _ _ _ _ _ _ _ _ Hh) as Hr.
  pose proof (hr_cluster _ _ _ _ _ _ Hr) as Hcl. destruct (firstLeader_at h leader El) as [i Hi].
  destruct (committed_take _ o A s h i leader Hr Hi) as [Etake Hcov].
  pose proof (quiescent_nodes seedRng seedEngine seed h leader Hq El) as Hall.
  unfold ackedIdentities in Hin. apply list_elem_of_fmap in Hin as ([k op]&->&[Hc Hin]%list_elem_of_filter).
  apply om_find_elem in Hin; [|apply (wk_hist _ _ _ _ _ _ _ _ Hw)].
  assert (∃ e, e ∈ take (N.to_nat (commitIndex_ (core leader))) (a_log A (nr_id leader)) ∧
    decodePrefix (e_command e) = Some k) as (e&He&Hd);
    [eapply acked_committed; [exact Hclients|apply (cl_inv _ _ _ _ Hcl)|apply (hc_prov _ _ _ _ _ _ _ _ Hh)|exact Hw|
      | |exact Hcov|done|done]|].
  - apply Forall_forall. intros c Hc'. apply (proj1 (forallb_forall _ _) Hdone), list_elem_of_In, Hc'.
  - intros n Hn. rewrite (hr_members _ _ _ _ _ _ Hr) in Hn. apply nodeIds_elem in Hn as [Hpos Hle].
    destruct (lookup_lt_is_Some_2 (nodes_ h) (slot n)) as [nd Hnd]; [done|].
    destruct (hr_node _ _ _ _ _ _ Hr _ _ Hnd) as (Eid&Hc'&_). assert (nr_id nd = n) as <- by (unfold slot in Eid; lia).
    rewrite <-(ok_commit _ _ _ _ _ (cl_node _ _ _ _ Hcl _ _ Hc')).
    by destruct (Forall_lookup_1 _ _ _ _ Hall Hnd) as [-> _].
  - unfold committedIds. rewrite Etake. apply list_elem_of_omap. exists e. by rewrite commandIdentity_decodePrefix.
Qed.

Context (asBook : KVStateMachine → option OrderBookStateMachine).

(** C7: chaos runs of the key-value store are linearizable, and lose nothing they
    acknowledged.  On storage that starts empty and gives a restarted node back what
    it had saved (the default [durableStorage]), with at least two nodes, at most
    sixteen clients and a time limit of at most [kMaxRunMs], whatever the seed and
    the faults drawn from it, the run ends with a report; the history that its clients
    have recorded in the state [h] in which its own loop ended, through retries,
    crashes, partitions, lost and reordered messages, is linearizable, and the run
    passes exactly when there every client is done, the cluster is quiescent and no
    monitor complained, the last sweep included: the linearizability check and the
    search for acknowledged operations missing from the committed log never fail a
    run. *)
Theorem chaos_linearizable storages : storages (co_durableStorage o) = storage_ →
  (2 ≤ co_nodes o)%nat → (maxMs o ≤ kMaxRunMs)%Z →
  ∃ schedule h r k, generateFaultSchedule (seedEngine (subSeed seed 2)) (co_nodes o)
      (faultStartMs o) (faultEndMs o) = Some schedule ∧
    finalState (K:=K) storage_ smFactory_ seedRng seedEngine leftFirst seed o schedule = Some h ∧
    runChaos (K:=K) storages smFactory_ seedRng seedEngine leftFirst asBook seed o = Some r ∧
    hruns onClientDeliver storage_ smFactory_ seedRng chaosBoot k h ∧ rp_endMs r = N.of_nat k ∧
    linearizable (History_ops (w_history (world_ h))) ∧
    (rp_pass r = true ↔ allClientsDone h = true ∧ quiescent h = true ∧ violations (finalCheck h) = []).
Proof.
  intros Hst Hn Hmax. assert (maxMs o < 2 ^ 63)%Z as Hmax63 by (unfold kMaxRunMs in Hmax; lia).
  destruct (runChaos_final (K:=K) storage_ smFactory_ KVStateMachine_init seedRng seedEngine leftFirst asBook
    storage_fresh storage_reopen smFactory_same seed o Hn Hmax63) as (schedule&h&healed&k&Es&Eh&H&Hk).
  assert (Z.of_nat k ≤ kMaxRunMs)%Z as Hk' by (unfold kMaxRunMs in *; lia).
  destruct (report_spec storage_ smFactory_ KVStateMachine_init seedRng seedEngine leftFirst asBook
    storage_fresh storage_reopen smFactory_same seed o ltac:(by rewrite Hkv) schedule healed k h H
    ltac:(unfold kMaxRunMs in Hk'; lia)) as (r&Er&Eend&Hpass).
  destruct (kv_runs healed k h (am_run _ _ _ _ _ _ _ _ _ _ H) Hk') as (_&old&A&s&sn&Hok&_).
  assert (linearizable (History_ops (w_history (world_ h)))) as Hlin.
  { destruct Hok as [Hh Hw]. eapply clients_linearizable; [exact Hclients| | |exact Hw].
    - apply (cl_inv _ _ _ _ (hr_cluster _ _ _ _ _ _ (hc_rel _ _ _ _ _ _ _ _ Hh))).
    - apply (hc_prov _ _ _ _ _ _ _ _ Hh). }
  exists schedule, h, r, k. split_and!; [done|done| | |done|done|].
  - unfold runChaos. rewrite Hst, Es. cbn [mbind option_bind]. rewrite Eh. cbn [mbind option_bind].
    by rewrite (wo_threw _ _ _ (am_world _ _ _ _ _ _ _ _ _ _ H)).
  - eapply at_hruns; exact H.
  - rewrite Hpass. unfold good_end. split; [tauto|]. intros (Hd&Hq&Hv). split_and!; [done..| |done].
    intros leader El acked. by apply (kv_acked old A s sn h leader acked).
Qed.

End KvRun.

Module ChaosLinearSample.
Import ChaosSample.

#[local] Existing Instance mixing.
#[local] Existing Instance mixing_rng.
#[local] Existing Instance no_sink.

Lemma chaos_linearizable_witness :
  ∃ schedule h r k, generateFaultSchedule (subSeed 7 2) 3 1500 20000 = Some schedule ∧
    finalState (K:=unit) keep kvStateMachine id id true 7 defaultChaos schedule = Some h ∧
    runChaos (K:=unit) storages kvStateMachine id id true (λ _, None) 7 defaultChaos = Some r ∧
    hruns onClientDeliver keep kvStateMachine id (chaosBoot keep kvStateMachine id id 7 defaultChaos) k h ∧
    rp_endMs r = N.of_nat k ∧ linearizable (History_ops (w_history (world_ h))) ∧
    (rp_pass r = true ↔ allClientsDone h = true ∧ quiescent h = true ∧ violations (finalCheck h) = []).
Proof.
  apply (chaos_linearizable (K:=unit) keep kvStateMachine id id true ltac:(done) ltac:(done) ltac:(done) 7 defaultChaos
    ltac:(done) ltac:(cbn; lia) (λ _, None) storages eq_refl); [cbn; lia|done].
Defined.

End ChaosLinearSample.
