(* ===== verification/Numerals.v ===== *)
(** * Numbers as text: the C library conversions the programs use

    [strtol], [strtoull], [atoi], [atof] on the way in, the [printf] conversions
    [%d], [%llu], [%.Nf] and [%.6g] on the way out, in the C locale.  A [long] is
    64 bits and an [int] 32. *)

From Stdlib Require Import NArith ZArith Strings.Byte Floats.SpecFloat Lia.
From S2P Require Import Prelude Text SimNetwork FaultSchedule.

Local Open Scope Z_scope.

(** ** Characters *)

(** [isspace] *)
Definition is_space (b : byte) : bool :=
  ((Byte.to_N b =? 32) || ((9 <=? Byte.to_N b) && (Byte.to_N b <=? 13)))%N.

Definition is_digit (b : byte) : bool := ((48 <=? Byte.to_N b) && (Byte.to_N b <=? 57))%N.

Fixpoint skip_spaces (s : list byte) : list byte :=
  match s with b :: s' => if is_space b then skip_spaces s' else s | [] => [] end.

(** The longest prefix of bytes that satisfy [p], and the rest. *)
Fixpoint span (p : byte → bool) (s : list byte) : list byte * list byte :=
  match s with
  | b :: s' => if p b then let '(l, r) := span p s' in (b :: l, r) else ([], s)
  | [] => ([], [])
  end.

(** ** Integers *)

Definition scan_sign (s : list byte) : bool * list byte :=
  match s with
  | x2d :: s => (true, s)       (* - *)
  | x2b :: s => (false, s)      (* + *)
  | _ => (false, s)
  end.

(** Space, a sign, digits: the sign and value, if there is a digit, and what
    follows. *)
Definition scan_int (s : list byte) : option (bool * N) * list byte :=
  let '(neg, s) := scan_sign (skip_spaces s) in
  let '(ds, rest) := span is_digit s in
  (if decide (ds = []) then None else Some (neg, of_string ds), rest).

Definition signed (x : bool * N) : Z := if x.1 then - Z.of_N x.2 else Z.of_N x.2.

Definition LONG_MIN : Z := - 2 ^ 63.
Definition LONG_MAX : Z := 2 ^ 63 - 1.

(** [std::strtol(s, nullptr, 10)] *)
Definition strtol (s : list byte) : Z :=
  match (scan_int s).1 with
  | Some x => Z.max LONG_MIN (Z.min LONG_MAX (signed x))
  | None => 0
  end.

(** [std::strtoull(s, nullptr, 10)]: a minus sign negates modulo 2^64. *)
Definition strtoull (s : list byte) : N :=
  match (scan_int s).1 with
  | Some (neg, n) => if (two64 <=? n)%N then (two64 - 1)%N else if neg then sub64 0 n else n
  | None => 0%N
  end.

(** The low 32 bits, as an [int]. *)
Definition to_int (v : Z) : Z := (v + 2 ^ 31) mod 2 ^ 32 - 2 ^ 31.

(** [std::atoi], which is [(int) strtol] in the C library. *)
Definition atoi (s : list byte) : Z := to_int (strtol s).

(** ** Doubles *)

Definition ddiv (a b : double) : double := SFdiv binary64_prec binary64_emax a b.

(** The double nearest to [m * 10^e]. *)
Definition of_decimal (neg : bool) (m : N) (e : Z) : double :=
  match m with
  | N0 => S754_zero neg
  | Npos p =>
      if 0 <=? e then binary_normalize binary64_prec binary64_emax ((if neg then Z.neg else Z.pos) (p * Z.to_pos (10 ^ e))%positive) 0 neg
      else SFdiv binary64_prec binary64_emax (S754_finite neg p 0) (S754_finite false (Z.to_pos (10 ^ (- e))) 0)
  end.

Definition lower (b : byte) : byte :=
  if ((65 <=? Byte.to_N b) && (Byte.to_N b <=? 90))%N then to_byte (Byte.to_N b + 32) else b.

Definition is_xdigit (b : byte) : bool :=
  (is_digit b || ((97 <=? Byte.to_N (lower b)) && (Byte.to_N (lower b) <=? 102)))%N.

Definition xdigit (b : byte) : N :=
  (if is_digit b then Byte.to_N b - 48 else Byte.to_N (lower b) - 87)%N.

Definition of_hex (ds : list byte) : N := foldl (λ v b, v * 16 + xdigit b)%N 0%N ds.

(** An exponent: the letter, an optional sign and digits. *)
Definition scan_exponent (letter : byte) (s : list byte) : Z :=
  match s with
  | b :: s =>
      if decide (lower b = letter) then
        let '(neg, s) := scan_sign s in signed (neg, of_string (span is_digit s).1)
      else 0
  | [] => 0
  end.

(** Digits with an optional point: before it, after it, and what follows. *)
Definition scan_point (p : byte → bool) (s : list byte) : list byte * list byte * list byte :=
  let '(ip, s) := span p s in
  match s with
  | x2e :: s' => let '(fp, s') := span p s' in (ip, fp, s')
  | _ => (ip, [], s)
  end.

Definition inf_text (s : list byte) : bool := bool_decide (take 3 (lower <$> (scan_sign (skip_spaces s)).2) = str "inf").

(** [strtod]; [None] when there is nothing to convert. *)
Definition strtod (s : list byte) : option double :=
  let inf := inf_text s in
  let '(neg, s) := scan_sign (skip_spaces s) in
  if inf then Some (S754_infinity neg)
  else if decide (take 3 (lower <$> s) = str "nan") then Some S754_nan
  else
    let '(xi, xf, xs) := scan_point is_xdigit (drop 2 s) in
    if bool_decide (take 2 (lower <$> s) = str "0x") && bool_decide (xi ++ xf ≠ []) then
      Some (binary_normalize binary64_prec binary64_emax (signed (neg, of_hex (xi ++ xf)))
        (scan_exponent x70 xs - 4 * Z.of_nat (length xf)) neg)
    else
      let '(ip, fp, s) := scan_point is_digit s in
      if decide (ip ++ fp = []) then None
      else Some (of_decimal neg (of_string (ip ++ fp)) (scan_exponent x65 s - Z.of_nat (length fp))).

(** [std::atof] *)
Definition atof (s : list byte) : double := default (S754_zero false) (strtod s).

(** [std::stol], [std::stod]: nothing to convert, and a value out of range, are
    exceptions. *)
Definition stol (s : list byte) : option Z :=
  match (scan_int s).1 with
  | Some x => if (LONG_MIN <=? signed x) && (signed x <=? LONG_MAX) then Some (signed x) else None
  | None => None
  end.

Definition stod (s : list byte) : option double :=
  d ← strtod s;
  match d with
  | S754_infinity _ => if inf_text s then Some d else None
  | _ => Some d
  end.

(** ** printf *)

(** [%d] and [%ld] *)
Definition fmt_d (v : Z) : list byte := z_to_string v.

(** The [n] last digits of a number, with leading zeros. *)
Definition pad (n : nat) (v : N) : list byte := drop 1 (to_string (10 ^ N.of_nat n + v)).

(** A number of [10^-n]ths. *)
Definition fixed_point (n : nat) (v : N) : list byte :=
  to_string (v / 10 ^ N.of_nat n) ++
  match n with O => [] | _ => str "." ++ pad n (v mod 10 ^ N.of_nat n)%N end.

(** [m * 2^e] times [10^k], to the nearest integer, ties to even. *)
Definition scaled (m : positive) (e k : Z) : Z :=
  round_div (Z.pos m * 2 ^ Z.max 0 e * 10 ^ Z.max 0 k) (2 ^ Z.max 0 (- e) * 10 ^ Z.max 0 (- k)).

Definition minus (s : bool) : list byte := if s then str "-" else [].

(** [%.nf] *)
Definition fmt_f (n : nat) (d : double) : list byte :=
  match d with
  | S754_zero s => minus s ++ fixed_point n 0
  | S754_finite s m e => minus s ++ fixed_point n (Z.to_N (scaled m e (Z.of_nat n)))
  | S754_infinity s => minus s ++ str "inf"
  | S754_nan => str "nan"
  end.

(** The largest [x] with [10^x <= m * 2^e]; no double is as small as [10^-400]. *)
Definition decimal_exponent (m : positive) (e : Z) : Z :=
  Z.of_nat (length (to_string (Z.to_N (Z.pos m * 2 ^ Z.max 0 e * 10 ^ 400 / 2 ^ Z.max 0 (- e))))) - 401.

(** Six significant digits and the exponent of the first. *)
Definition significand (m : positive) (e : Z) : N * Z :=
  let x := decimal_exponent m e in
  let d := scaled m e (5 - x) in
  if 1000000 <=? d then (Z.to_N (d / 10), x + 1) else (Z.to_N d, x).

(** A fraction without its trailing zeros, and without the point if there is
    nothing left. *)
Fixpoint strip_zeros (ds : list byte) : list byte :=
  match ds with
  | [] => []
  | d :: ds => match strip_zeros ds with
               | [] => if decide (d = x30) then [] else [d]
               | ds => d :: ds
               end
  end.

Definition fraction (ds : list byte) : list byte :=
  match strip_zeros ds with [] => [] | ds => str "." ++ ds end.

(** A decimal with the point [n] digits from the right. *)
Definition short_point (n : nat) (v : N) : list byte :=
  to_string (v / 10 ^ N.of_nat n) ++ fraction (pad n (v mod 10 ^ N.of_nat n)%N).

(** [e], a sign and at least two digits. *)
Definition exponent (x : Z) : list byte :=
  str "e" ++ (if x <? 0 then str "-" else str "+") ++
  (if Z.abs x <? 10 then str "0" else []) ++ to_string (Z.abs_N x).

(** [%.6g] *)
Definition fmt_g6 (d : double) : list byte :=
  match d with
  | S754_zero s => minus s ++ str "0"
  | S754_finite s m e =>
      let '(v, x) := significand m e in
      minus s ++
      (if (-4 <=? x) && (x <? 6) then short_point (Z.to_nat (5 - x)) v
       else short_point 5 v ++ exponent x)
  | S754_infinity s => minus s ++ str "inf"
  | S754_nan => str "nan"
  end.

(** ** Digits *)

Lemma is_digit_digit d : (d < 10)%N → is_digit (digit d) = true.
Proof.
  intros Hd. unfold is_digit, digit. rewrite to_N_to_byte, N.mod_small by lia.
  apply andb_true_iff. rewrite !N.leb_le. lia.
Qed.

Lemma digits_digits fuel n acc : Forall (λ b, is_digit b = true) acc →
  Forall (λ b, is_digit b = true) (digits fuel n acc).
Proof.
  revert n acc. induction fuel as [|fuel IH]; intros n acc H; cbn [digits]; [done|].
  assert (is_digit (digit (n mod 10)) = true) by (apply is_digit_digit, N.mod_upper_bound; done).
  destruct (_ <? _)%N; [by constructor|]. apply IH. by constructor.
Qed.

Lemma to_string_digits n : Forall (λ b, is_digit b = true) (to_string n).
Proof. by apply digits_digits. Qed.

(** No leading zero. *)
Lemma digits_head fuel n acc : (0 < n)%N → (N.log2 n < N.of_nat fuel)%N →
  ∃ d t, digits fuel n acc = digit d :: t ∧ (0 < d < 10)%N.
Proof.
  revert n acc. induction fuel as [|fuel IH]; intros n acc Hn Hf; [lia|]. cbn [digits].
  destruct (N.ltb_spec n 10) as [Hlt|Hge].
  - exists n, acc. rewrite N.mod_small by done. split; [done|lia].
  - apply IH; [apply N.div_str_pos; lia|]. eapply N.lt_le_trans; [|apply N.lt_succ_r; rewrite <-Nnat.Nat2N.inj_succ; exact Hf].
    apply N.log2_lt_pow2; [apply N.div_str_pos; lia|].
    pose proof (N.log2_spec n Hn) as [_ Hup]. rewrite N.pow_succ_r' in Hup. apply N.Div0.div_lt_upper_bound. lia.
Qed.

Lemma to_string_head n : (0 < n)%N → ∃ d t, to_string n = digit d :: t ∧ (0 < d < 10)%N.
Proof. intros Hn. apply digits_head; [done|lia]. Qed.

Lemma to_string_nonempty n : to_string n ≠ [].
Proof. intros E. pose proof (of_to_string n) as H. destruct (decide (n = 0%N)) as [->|]; [done|].
  destruct (to_string_head n ltac:(lia)) as (?&?&E'&_). by rewrite E in E'. Qed.

Lemma span_all p l r : Forall (λ b, p b = true) l → match r with b :: _ => p b = false | [] => True end →
  span p (l ++ r) = (l, r).
Proof.
  intros Hl Hr. induction Hl as [|b l Hb _ IH]; cbn.
  - destruct r as [|b r]; [done|]. cbn. by rewrite Hr.
  - by rewrite Hb, IH.
Qed.

Lemma span_spec p s : let '(l, r) := span p s in s = l ++ r ∧ Forall (λ b, p b = true) l ∧
  match r with b :: _ => p b = false | [] => True end.
Proof.
  induction s as [|b s IH]; cbn; [done|]. destruct (p b) eqn:E; [|by split_and!].
  destruct (span p s) as [l r]. destruct IH as (->&?&?). split_and!; [done|by constructor|done].
Qed.

Lemma digit_not_space b : is_digit b = true → is_space b = false.
Proof.
  unfold is_digit, is_space. intros [H1%N.leb_le H2%N.leb_le]%andb_true_iff. apply orb_false_iff.
  rewrite N.eqb_neq, andb_false_iff, !N.leb_gt. lia.
Qed.

Lemma scan_sign_digit b s : is_digit b = true → scan_sign (b :: s) = (false, b :: s).
Proof. by destruct b. Qed.

(** Reading a printed number back. *)
Lemma scan_int_to_string n r : match r with b :: _ => is_digit b = false | [] => True end →
  scan_int (to_string n ++ r) = (Some (false, n), r).
Proof.
  intros Hr. unfold scan_int. pose proof (to_string_digits n) as Hd. pose proof (of_to_string n) as Hv.
  pose proof (to_string_nonempty n) as Hne. destruct (to_string n) as [|b t]; [done|].
  apply Forall_cons in Hd as Hd'. destruct Hd' as [Hb _]. cbn [app skip_spaces].
  rewrite (digit_not_space b Hb), scan_sign_digit by done. change (b :: t ++ r) with ((b :: t) ++ r).
  rewrite span_all by done. by rewrite decide_False, Hv.
Qed.

Lemma strtol_to_string n : Z.of_N n ≤ LONG_MAX → strtol (to_string n) = Z.of_N n.
Proof.
  intros Hn. unfold strtol. rewrite <-(app_nil_r (to_string n)), scan_int_to_string by done. cbn.
  unfold signed, LONG_MIN, LONG_MAX in *. cbn [fst snd]. lia.
Qed.

Lemma atoi_to_string n : Z.of_N n < 2 ^ 31 → atoi (to_string n) = Z.of_N n.
Proof.
  intros Hn. unfold atoi. rewrite strtol_to_string by (unfold LONG_MAX; lia). unfold to_int.
  rewrite Z.mod_small; lia.
Qed.

Lemma strtoull_to_string n : (n < two64)%N → strtoull (to_string n) = n.
Proof.
  intros Hn. unfold strtoull. rewrite <-(app_nil_r (to_string n)), scan_int_to_string by done. cbn [fst].
  by rewrite (proj2 (N.leb_gt _ _)).
Qed.

Lemma to_int_range v : - 2 ^ 31 ≤ to_int v < 2 ^ 31.
Proof. unfold to_int. pose proof (Z.mod_pos_bound (v + 2 ^ 31) (2 ^ 32) ltac:(lia)). lia. Qed.

Lemma strtol_range s : LONG_MIN ≤ strtol s ≤ LONG_MAX.
Proof. unfold strtol, LONG_MIN, LONG_MAX. destruct (scan_int s).1; lia. Qed.
