(* ===== verification/Json.v ===== *)
(** * bench/bench_report.h, bench/bench_report.cpp: the JSON writer

    The writer keeps the text so far and, per open container, whether the next
    item needs a comma.  What it writes is compared with JSON values: a writing
    function [writes] a value when it appends that value's text, with the comma it
    needs.  Compact JSON text is read back by [parse], which takes strings as bytes,
    whatever their encoding, and keeps numbers as they are written. *)

From Stdlib Require Import NArith ZArith Strings.Byte Floats.SpecFloat Lia.
From S2P Require Import Prelude Text SimNetwork FaultSchedule Numerals.

Local Open Scope N_scope.

(** ** The writer *)

(** [needComma_] is a vector used as a stack; its back is the head here. *)
Record JsonWriter := mkJsonWriter {
  out_ : list byte;
  needComma_ : list bool;
}.

Definition JsonWriter_new : JsonWriter := mkJsonWriter [] [].

Definition put (t : list byte) (w : JsonWriter) : JsonWriter := mkJsonWriter (out_ w ++ t) (needComma_ w).

(** [needComma_.back() = b], if there is one *)
Definition set_back (b : bool) (w : JsonWriter) : JsonWriter :=
  mkJsonWriter (out_ w) (match needComma_ w with [] => [] | _ :: st => b :: st end).

Definition comma (w : JsonWriter) : JsonWriter :=
  match needComma_ w with
  | [] => w
  | b :: _ => set_back true (if b then put (str ",") w else w)
  end.

Definition container (open : list byte) (w : JsonWriter) : JsonWriter :=
  let w := put open (comma w) in
  mkJsonWriter (out_ w) (false :: needComma_ w).

Definition close (c : list byte) (w : JsonWriter) : JsonWriter :=
  let w := put c w in
  set_back true (mkJsonWriter (out_ w) (drop 1 (needComma_ w))).

Definition quote : list byte := [x22].
Definition backslash : byte := x5c.

Definition hexdigit (d : N) : byte := if d <? 10 then to_byte (48 + d) else to_byte (87 + d).

(** [snprintf("\\u%04x", c)] for [c < 0x20] *)
Definition escape (c : byte) : list byte :=
  if decide (c = x22) then [backslash; x22]
  else if decide (c = x5c) then [backslash; x5c]
  else if decide (c = x0a) then [backslash; x6e]
  else if decide (c = x09) then [backslash; x74]
  else if Byte.to_N c <? 32 then
    backslash :: str "u00" ++ [hexdigit (Byte.to_N c / 16); hexdigit (Byte.to_N c mod 16)]
  else [c].

Definition quoted (s : list byte) : list byte := quote ++ (s ≫= escape) ++ quote.

Definition appendString (s : list byte) (w : JsonWriter) : JsonWriter := put (quoted s) w.

Definition beginObject : JsonWriter → JsonWriter := container (str "{").
Definition endObject : JsonWriter → JsonWriter := close (str "}").
Definition beginArray : JsonWriter → JsonWriter := container (str "[").
Definition endArray : JsonWriter → JsonWriter := close (str "]").

Definition key (k : list byte) (w : JsonWriter) : JsonWriter :=
  set_back false (put (str ":") (appendString k (comma w))).

(** The overloads of [value]. *)
Definition value_string (v : list byte) (w : JsonWriter) : JsonWriter := appendString v (comma w).
Definition value_bool (b : bool) (w : JsonWriter) : JsonWriter :=
  put (if b then str "true" else str "false") (comma w).
Definition value_u64 (v : N) (w : JsonWriter) : JsonWriter := put (to_string v) (comma w).
Definition value_int (v : Z) (w : JsonWriter) : JsonWriter := value_u64 (Z.to_N (v mod 2 ^ 64)) w.
Definition value_double (v : double) (w : JsonWriter) : JsonWriter := put (fmt_g6 v) (comma w).

Definition kv (k : list byte) (value : JsonWriter → JsonWriter) (w : JsonWriter) : JsonWriter :=
  value (key k w).

(** ** JSON values *)

(** Numbers as their text. *)
Inductive json :=
| JNum (text : list byte)
| JStr (s : list byte)
| JBool (b : bool)
| JArr (l : list json)
| JObj (l : list (list byte * json)).

Lemma json_nested (P : json → Prop) :
  (∀ t, P (JNum t)) → (∀ s, P (JStr s)) → (∀ b, P (JBool b)) →
  (∀ l, Forall P l → P (JArr l)) → (∀ l, Forall (λ p, P p.2) l → P (JObj l)) → ∀ j, P j.
Proof.
  intros Hn Hs Hb Ha Ho. fix IH 1. intros [t|s|b|l|l]; [apply Hn|apply Hs|apply Hb| |].
  - apply Ha. induction l as [|j l IHl]; constructor; [apply IH|exact IHl].
  - apply Ho. induction l as [|[k j] l IHl]; constructor; [apply IH|exact IHl].
Qed.

(** Items separated by commas. *)
Fixpoint commas (l : list (list byte)) : list byte :=
  match l with
  | [] => []
  | [t] => t
  | t :: l => t ++ str "," ++ commas l
  end.

Fixpoint render (j : json) : list byte :=
  match j with
  | JNum t => t
  | JStr s => quoted s
  | JBool b => if b then str "true" else str "false"
  | JArr l => str "[" ++ commas (render <$> l) ++ str "]"
  | JObj l => str "{" ++ commas ((λ p, quoted p.1 ++ str ":" ++ render p.2) <$> l) ++ str "}"
  end.

Definition member (p : list byte * json) : list byte := quoted p.1 ++ str ":" ++ render p.2.

(** ** What the writer writes *)

Definition emit (t : list byte) (w : JsonWriter) : JsonWriter := put t (comma w).

Definition writes (f : JsonWriter → JsonWriter) (j : json) : Prop := ∀ w, f w = emit (render j) w.

Definition writes_member (f : JsonWriter → JsonWriter) (p : list byte * json) : Prop :=
  ∀ w, f w = emit (member p) w.

Lemma kv_writes k f j : writes f j → writes_member (kv k f) (k, j).
Proof.
  intros Hf w. unfold kv. rewrite Hf. destruct w as [o [|[] st]];
    unfold key, emit, member, appendString, comma, put, set_back; cbn [needComma_ out_ fst snd];
    by rewrite <-!app_assoc.
Qed.

(** Items one after the other, in a container just opened or not. *)
Lemma items_text fs ts o b st : Forall2 (λ f t, ∀ w, f w = emit t w) fs ts → fs ≠ [] →
  foldl (λ w f, f w) (mkJsonWriter o (b :: st)) fs =
    mkJsonWriter (o ++ (if b then str "," else []) ++ commas ts) (true :: st).
Proof.
  intros H. revert o b. induction H as [|f t fs ts Hf H IH]; intros o b Hne; [done|].
  cbn [foldl]. rewrite Hf. unfold emit, comma, put, set_back. cbn [needComma_ out_].
  destruct fs as [|f' fs].
  - inversion H. subst. destruct b; cbn; by rewrite <-?app_assoc.
  - destruct ts as [|t' ts]; [by inversion H|]. cbn [commas].
    destruct b; cbn [needComma_ out_]; rewrite IH by done; cbn [commas]; by rewrite <-!app_assoc.
Qed.

Lemma container_text fs ts open shut w : Forall2 (λ f t, ∀ w, f w = emit t w) fs ts →
  close shut (foldl (λ w f, f w) (container open w) fs) = emit (open ++ commas ts ++ shut) w.
Proof.
  intros H. unfold container, emit. destruct (comma w) as [o st] eqn:Ew. cbn [out_ needComma_ put].
  assert (match st with [] => [] | _ :: s => true :: s end = st) as Est.
  { unfold comma in Ew. destruct w as [o' [|b st']]; [by injection Ew as _ <-|]. cbn in Ew.
    destruct b; by injection Ew as _ <-. }
  destruct fs as [|f fs].
  - inversion H. subst. cbn [foldl]. unfold close, set_back, put. cbn [out_ needComma_].
    change (drop 1 (false :: st)) with st. by rewrite Est, <-!app_assoc.
  - rewrite (items_text (f :: fs) ts) by done. unfold close, set_back, put. cbn [out_ needComma_].
    change (drop 1 (true :: st)) with st. by rewrite Est, <-!app_assoc.
Qed.

Lemma object_writes fs ps : Forall2 writes_member fs ps →
  writes (λ w, endObject (foldl (λ w f, f w) (beginObject w) fs)) (JObj ps).
Proof.
  intros H w. unfold endObject, beginObject. rewrite (container_text fs (member <$> ps)); [done|].
  by apply Forall2_fmap_r.
Qed.

Lemma array_writes fs js : Forall2 writes fs js →
  writes (λ w, endArray (foldl (λ w f, f w) (beginArray w) fs)) (JArr js).
Proof.
  intros H w. unfold endArray, beginArray. rewrite (container_text fs (render <$> js)); [done|].
  by apply Forall2_fmap_r.
Qed.

(** An object under construction: the members so far. *)
Definition opened (w0 : JsonWriter) (ps : list (list byte * json)) (w : JsonWriter) : Prop :=
  ∃ fs, Forall2 writes_member fs ps ∧ w = foldl (λ w f, f w) (beginObject w0) fs.

Lemma opened_begin w0 : opened w0 [] (beginObject w0).
Proof. by exists []. Qed.

Lemma opened_member w0 ps w f p : opened w0 ps w → writes_member f p → opened w0 (ps ++ [p]) (f w).
Proof.
  intros (fs&H&->) Hf. exists (fs ++ [f]). split; [|by rewrite foldl_app].
  apply Forall2_app; [done|]. by repeat constructor.
Qed.

Lemma opened_kv w0 ps w k f j : opened w0 ps w → writes f j → opened w0 (ps ++ [(k, j)]) (f (key k w)).
Proof. intros H Hf. apply (opened_member w0 ps w (λ w, f (key k w))); [done|]. by apply kv_writes. Qed.

Lemma opened_end w0 ps w : opened w0 ps w → endObject w = emit (render (JObj ps)) w0.
Proof. intros (fs&H&->). by apply object_writes. Qed.

Lemma string_writes v : writes (value_string v) (JStr v).
Proof. done. Qed.

Lemma bool_writes b : writes (value_bool b) (JBool b).
Proof. done. Qed.

Lemma u64_writes v : writes (value_u64 v) (JNum (to_string v)).
Proof. done. Qed.

Lemma int_writes v : writes (value_int v) (JNum (to_string (Z.to_N (v mod 2 ^ 64)))).
Proof. done. Qed.

Lemma double_writes v : writes (value_double v) (JNum (fmt_g6 v)).
Proof. done. Qed.

#[export] Hint Resolve kv_writes string_writes bool_writes u64_writes int_writes double_writes : rsm.

(** ** Reading it back *)

Definition nonempty (s : list byte) : bool := match s with [] => false | _ => true end.

(** The grammar of JSON numbers. *)
Definition json_number (s : list byte) : bool :=
  let s := match s with x2d :: s => s | _ => s end in
  let '(ip, s) := span is_digit s in
  let ip_ok := match ip with [] => false | [_] => true | d :: _ => bool_decide (d ≠ x30) end in
  let '(fp_ok, s) := match s with
                     | x2e :: s => let '(fp, s) := span is_digit s in (nonempty fp, s)
                     | _ => (true, s)
                     end in
  let e_ok := match s with
              | [] => true
              | b :: s =>
                  bool_decide (lower b = x65) &&
                  let '(ds, s) := span is_digit (scan_sign s).2 in nonempty ds && negb (nonempty s)
              end in
  ip_ok && fp_ok && e_ok.

Definition is_numchar (b : byte) : bool :=
  is_digit b || bool_decide (b ∈ [x2d; x2b; x2e; x65; x45]).

Definition unhex (b : byte) : option N :=
  let n := Byte.to_N b in
  if is_digit b then Some (n - 48)
  else if (97 <=? n) && (n <=? 102) then Some (n - 87)
  else if (65 <=? n) && (n <=? 70) then Some (n - 55) else None.

(** The rest of the text after the byte it must start with. *)
Definition starts (b : byte) (s : list byte) : option (list byte) :=
  match s with c :: s => if decide (c = b) then Some s else None | [] => None end.

Definition short_escapes : list (byte * byte) :=
  [(x22, x22); (x5c, x5c); (x2f, x2f); (x6e, x0a); (x74, x09); (x72, x0d); (x62, x08); (x66, x0c)].

(** After a backslash.  Code points above 7F are expected as they are, not as
    escapes. *)
Definition parse_escape (s : list byte) : option (byte * list byte) :=
  match s with
  | [] => None
  | e :: s =>
      if decide (e = x75) then
        match s with
        | a :: b :: c :: d :: s =>
            a ← unhex a; b ← unhex b; c ← unhex c; d ← unhex d;
            let n := ((a * 16 + b) * 16 + c) * 16 + d in
            if 128 <=? n then None else Some (to_byte n, s)
        | _ => None
        end
      else '(_, (_, c)) ← list_find (λ p, p.1 = e) short_escapes; Some (c, s)
  end.

(** The rest of a string after its opening quote. *)
Fixpoint parse_string (fuel : nat) (s : list byte) : option (list byte * list byte) :=
  match fuel, s with
  | S fuel, b :: s =>
      if decide (b = x22) then Some ([], s)
      else
        '(c, s) ← (if decide (b = x5c) then parse_escape s
                   else if Byte.to_N b <? 32 then None else Some (b, s));
        '(l, s) ← parse_string fuel s; Some (c :: l, s)
  | _, _ => None
  end.

Definition parse_number (s : list byte) : option (json * list byte) :=
  let '(t, s) := span is_numchar s in
  if json_number t then Some (JNum t, s) else None.

Definition strip (t s : list byte) : option (list byte) :=
  if decide (take (length t) s = t) then Some (drop (length t) s) else None.

Definition parse_word (s : list byte) : option (json * list byte) :=
  match strip (str "true") s, strip (str "false") s with
  | Some s, _ => Some (JBool true, s)
  | _, Some s => Some (JBool false, s)
  | _, _ => parse_number s
  end.

Fixpoint parse_value (fuel : nat) (s : list byte) : option (json * list byte) :=
  match fuel with
  | O => None
  | S fuel =>
      match starts x22 s, starts x5b s, starts x7b s with
      | Some s, _, _ => '(v, s) ← parse_string (length s) s; Some (JStr v, s)
      | _, Some s, _ =>
          match starts x5d s with
          | Some s => Some (JArr [], s)
          | None => '(l, s) ← parse_elements fuel s; Some (JArr l, s)
          end
      | _, _, Some s =>
          match starts x7d s with
          | Some s => Some (JObj [], s)
          | None => '(l, s) ← parse_members fuel s; Some (JObj l, s)
          end
      | _, _, _ => parse_word s
      end
  end
with parse_elements (fuel : nat) (s : list byte) : option (list json * list byte) :=
  match fuel with
  | O => None
  | S fuel =>
      '(j, s) ← parse_value fuel s;
      match starts x2c s, starts x5d s with
      | Some s, _ => '(l, s) ← parse_elements fuel s; Some (j :: l, s)
      | _, Some s => Some ([j], s)
      | _, _ => None
      end
  end
with parse_members (fuel : nat) (s : list byte) : option (list (list byte * json) * list byte) :=
  match fuel with
  | O => None
  | S fuel =>
      s ← starts x22 s;
      '(k, s) ← parse_string (length s) s;
      s ← starts x3a s;
      '(j, s) ← parse_value fuel s;
      match starts x2c s, starts x7d s with
      | Some s, _ => '(l, s) ← parse_members fuel s; Some ((k, j) :: l, s)
      | _, Some s => Some ([(k, j)], s)
      | _, _ => None
      end
  end.

(** A whole document, without white space. *)
Definition parse (s : list byte) : option json :=
  match parse_value (length s) s with Some (j, []) => Some j | _ => None end.

Lemma parse_escaped c fuel tl :
  parse_string (S fuel) (escape c ++ tl) = '(l, s) ← parse_string fuel tl; Some (c :: l, s).
Proof. by destruct c. Qed.

Lemma parse_quoted s rest fuel : (length s < fuel)%nat →
  parse_string fuel ((s ≫= escape) ++ quote ++ rest) = Some (s, rest).
Proof.
  revert fuel. induction s as [|c s IH]; intros fuel Hf; (destruct fuel as [|fuel]; [cbn in Hf; lia|]); [done|].
  change ((c :: s) ≫= escape) with (escape c ++ (s ≫= escape)). rewrite <-(app_assoc (escape c)), parse_escaped.
  rewrite IH by (cbn in Hf; lia). done.
Qed.

Lemma length_escape c : (1 ≤ length (escape c))%nat.
Proof. apply Nat.leb_le. by destruct c. Qed.

Lemma length_escaped s : (length s ≤ length (s ≫= escape))%nat.
Proof.
  induction s as [|c s IH]; [done|]. change ((c :: s) ≫= escape) with (escape c ++ (s ≫= escape)).
  rewrite length_app. pose proof (length_escape c). cbn [length]. lia.
Qed.

(** A string, from its first quote on. *)
Lemma parse_quoted_all s rest : ∃ s', quoted s ++ rest = x22 :: s' ∧ parse_string (length s') s' = Some (s, rest).
Proof.
  eexists. split; [unfold quoted; rewrite <-!app_assoc; reflexivity|]. apply parse_quoted.
  rewrite !length_app. pose proof (length_escaped s). cbn. lia.
Qed.

(** Numbers whose text is one, and documents with such numbers only. *)
Definition num_ok (t : list byte) : Prop := json_number t = true ∧ Forall (λ b, is_numchar b = true) t.

Inductive json_ok : json → Prop :=
| ok_num t : num_ok t → json_ok (JNum t)
| ok_str s : json_ok (JStr s)
| ok_bool b : json_ok (JBool b)
| ok_arr l : Forall json_ok l → json_ok (JArr l)
| ok_obj l : Forall (λ p, json_ok p.2) l → json_ok (JObj l).

(** What may follow a value. *)
Definition follows (rest : list byte) : Prop := match rest with b :: _ => is_numchar b = false | [] => True end.

Lemma json_number_head t : num_ok t → ∃ b t', t = b :: t' ∧ is_numchar b = true.
Proof. intros [H Hc]. destruct t as [|b t]; [done|]. exists b, t. by apply Forall_cons in Hc as [? _]. Qed.

Lemma parse_num t rest fuel : num_ok t → follows rest → parse_value (S fuel) (t ++ rest) = Some (JNum t, rest).
Proof.
  intros Ht Hr. destruct (json_number_head t Ht) as (b&t'&E&Hb). destruct Ht as [Hn Hc].
  cbn [parse_value]. assert (parse_number (t ++ rest) = Some (JNum t, rest)) as Hp.
  { unfold parse_number. rewrite span_all by (done || by destruct rest). by rewrite Hn. }
  assert (∀ c, is_numchar c = false → starts c (t ++ rest) = None) as Hst.
  { intros c Hcn. rewrite E. cbn. rewrite decide_False; [done|]. intros ->. congruence. }
  rewrite !Hst by done. unfold parse_word.
  assert (∀ c w, is_numchar c = false → strip (c :: w) (t ++ rest) = None) as Hstr.
  { intros c w Hcn. rewrite E. unfold strip. cbn. rewrite decide_False; [done|]. intros [= ? _]. congruence. }
  change (str "true") with (x74 :: str "rue"). change (str "false") with (x66 :: str "alse").
  by rewrite !Hstr, Hp.
Qed.

Fixpoint weight (j : json) : nat :=
  match j with
  | JArr l => S (sum_list ((λ j, S (weight j)) <$> l))
  | JObj l => S (sum_list ((λ p, S (weight p.2)) <$> l))
  | _ => 1
  end.

Definition parses (j : json) : Prop := ∀ rest fuel, (weight j ≤ fuel)%nat → follows rest →
  parse_value fuel (render j ++ rest) = Some (j, rest).

(** A value starts with none of the bytes that close or separate. *)
Lemma render_head j : json_ok j → ∃ b t, render j = b :: t ∧ b ≠ x5d ∧ b ≠ x7d.
Proof.
  destruct 1 as [t Ht|s|b|l _|l _]; [|by do 2 eexists|by destruct b; do 2 eexists|by do 2 eexists..].
  destruct (json_number_head t Ht) as (b&t'&->&Hb). exists b, t'. split_and!; [done|by intros ->..].
Qed.

Lemma parse_elements_render l rest fuel : Forall json_ok l → Forall parses l → l ≠ [] →
  (sum_list ((λ j, S (weight j)) <$> l) ≤ fuel)%nat →
  parse_elements fuel (commas (render <$> l) ++ str "]" ++ rest) = Some (l, rest).
Proof.
  intros Hok. revert fuel. induction Hok as [|j l Hj Hok IH]; intros fuel Hp Hne Hf; [done|].
  apply Forall_cons in Hp as [Hpj Hp]. cbn in Hf. destruct fuel as [|fuel]; [lia|]. cbn [parse_elements].
  destruct l as [|j' l].
  - cbn [fmap list_fmap commas]. rewrite Hpj by (lia || done). done.
  - cbn [fmap list_fmap commas]. rewrite <-!app_assoc. rewrite Hpj by (cbn in Hf; lia || done).
    cbn [mbind option_bind starts app str]. change (str "," ++ ?x) with (x2c :: x). cbn [starts].
    rewrite decide_True by done. change (render j' :: list_fmap json (list byte) render l) with (render <$> j' :: l).
    rewrite IH; [done|done|done|cbn in *; lia].
Qed.

Lemma parse_members_render l rest fuel : Forall (λ p, json_ok p.2) l → Forall (λ p, parses p.2) l → l ≠ [] →
  (sum_list ((λ p, S (weight p.2)) <$> l) ≤ fuel)%nat →
  parse_members fuel (commas (member <$> l) ++ str "}" ++ rest) = Some (l, rest).
Proof.
  intros Hok. revert fuel. induction Hok as [|[k j] l Hj Hok IH]; intros fuel Hp Hne Hf; [done|].
  apply Forall_cons in Hp as [Hpj Hp]. cbn in Hf, Hpj. destruct fuel as [|fuel]; [lia|]. cbn [parse_members].
  assert (∀ tl, ∃ s', member (k, j) ++ tl = x22 :: s' ∧ parse_string (length s') s' = Some (k, x3a :: render j ++ tl)) as Hk.
  { intros tl. unfold member. cbn [fst snd]. rewrite <-!app_assoc. apply parse_quoted_all. }
  destruct l as [|p' l].
  - cbn [fmap list_fmap commas]. destruct (Hk (str "}" ++ rest)) as (s'&->&Hs). cbn [starts].
    rewrite decide_True by done. cbn [mbind option_bind]. rewrite Hs. cbn [mbind option_bind starts].
    rewrite decide_True by done. cbn [mbind option_bind]. rewrite Hpj by (lia || done). done.
  - cbn [fmap list_fmap commas]. rewrite <-!app_assoc.
    match goal with |- context [member (k, j) ++ ?t] => destruct (Hk t) as (s'&->&Hs) end. cbn [starts].
    rewrite decide_True by done. cbn [mbind option_bind]. rewrite Hs. cbn [mbind option_bind starts].
    rewrite decide_True by done. cbn [mbind option_bind]. rewrite Hpj by (cbn in Hf; lia || done).
    cbn [mbind option_bind]. change (str "," ++ ?x) with (x2c :: x). cbn [starts]. rewrite decide_True by done.
    change (member p' :: list_fmap _ (list byte) member l) with (member <$> p' :: l).
    rewrite IH; [done|done|done|cbn in *; lia].
Qed.

Lemma commas_head b t l : ∃ t', commas ((b :: t) :: l) = b :: t'.
Proof. destruct l; by eexists. Qed.

Lemma starts_ne b c s : c ≠ b → starts b (c :: s) = None.
Proof. intros H. cbn. by rewrite decide_False. Qed.

Lemma render_parses j : json_ok j → parses j.
Proof.
  induction j as [t|s|b|l IH|l IH] using json_nested; intros Hok rest fuel Hf Hr;
    (destruct fuel as [|fuel]; [cbn in Hf; lia|]).
  - inversion Hok. by apply parse_num.
  - cbn [render]. destruct (parse_quoted_all s rest) as (s'&->&Hs). cbn [parse_value starts].
    rewrite decide_True by done. by rewrite Hs.
  - by destruct b.
  - inversion Hok as [| | |? Hl|]; subst. destruct l as [|j l]; [done|].
    destruct (render_head j) as (b&t&Eb&Hb&_); [by apply Forall_cons in Hl as [? _]|].
    assert (render (JArr (j :: l)) ++ rest = x5b :: commas (render <$> j :: l) ++ str "]" ++ rest) as ->
      by (cbn [render]; by rewrite <-!app_assoc).
    assert (starts x5d (commas (render <$> j :: l) ++ str "]" ++ rest) = None) as Hnot.
    { rewrite fmap_cons, Eb. destruct (commas_head b t (render <$> l)) as [t' ->]. by apply starts_ne. }
    cbn [parse_value]. change (starts x22 (x5b :: ?x)) with (@None (list byte)).
    change (starts x5b (x5b :: ?x)) with (Some x). cbv beta iota. rewrite Hnot, parse_elements_render; [done|done| |done|].
    + rewrite Forall_forall in IH, Hl. apply Forall_forall. auto.
    + cbn in *. lia.
  - inversion Hok as [| | | |? Hl]; subst. destruct l as [|p l]; [done|].
    assert (render (JObj (p :: l)) ++ rest = x7b :: commas (member <$> p :: l) ++ str "}" ++ rest) as ->
      by (cbn [render]; by rewrite <-!app_assoc).
    assert (starts x7d (commas (member <$> p :: l) ++ str "}" ++ rest) = None) as Hnot.
    { rewrite fmap_cons. destruct (commas_head x22 (drop 1 (member p)) (member <$> l)) as [t' E].
      change (member p) with (x22 :: drop 1 (member p)). rewrite E. by apply starts_ne. }
    cbn [parse_value]. change (starts x22 (x7b :: ?x)) with (@None (list byte)).
    change (starts x5b (x7b :: ?x)) with (@None (list byte)).
    change (starts x7b (x7b :: ?x)) with (Some x). cbv beta iota. rewrite Hnot, parse_members_render; [done|done| |done|].
    + rewrite Forall_forall in IH, Hl. apply Forall_forall. auto.
    + cbn in *. lia.
Qed.

Lemma commas_length (ts : list (list byte)) : (sum_list (length <$> ts) + length ts ≤ S (length (commas ts)))%nat.
Proof.
  induction ts as [|t [|t' ts] IH]; [cbn; lia|cbn; lia|].
  change (commas (t :: t' :: ts)) with (t ++ str "," ++ commas (t' :: ts)). rewrite !length_app.
  revert IH. generalize (commas (t' :: ts)). intros c IH. cbn in *. lia.
Qed.

Lemma weight_length j : json_ok j → (weight j ≤ length (render j))%nat.
Proof.
  induction j as [t|s|b|l IH|l IH] using json_nested; intros Hok.
  - inversion Hok as [? Ht| | | |]; subst. destruct (json_number_head t Ht) as (b&t'&->&_). cbn. lia.
  - cbn. lia.
  - destruct b; cbn; lia.
  - inversion Hok as [| | |? Hl|]; subst. cbn [render weight]. rewrite !length_app. cbn [length str String.list_byte_of_string].
    pose proof (commas_length (render <$> l)) as Hc. rewrite length_fmap in Hc.
    assert (sum_list ((λ j, S (weight j)) <$> l) ≤ sum_list (length <$> (render <$> l)) + length l)%nat; [|cbn; lia].
    clear Hc Hok. induction l as [|j l IHl]; [done|]. apply Forall_cons in IH as [IHj IH], Hl as [Hj Hl].
    specialize (IHj Hj). specialize (IHl IH Hl). cbn in *. lia.
  - inversion Hok as [| | | |? Hl]; subst. cbn [render weight]. fold member. rewrite !length_app.
    pose proof (commas_length (member <$> l)) as Hc. rewrite length_fmap in Hc.
    assert (sum_list ((λ p, S (weight p.2)) <$> l) ≤ sum_list (length <$> (member <$> l)) + length l)%nat.
    { clear Hc Hok. induction l as [|[k j] l IHl]; [done|]. apply Forall_cons in IH as [IHj IH], Hl as [Hj Hl].
      specialize (IHj Hj). specialize (IHl IH Hl). cbn [fmap list_fmap sum_list_with sum_list foldr] in *.
      unfold member at 1. rewrite !length_app. cbn in *. lia. }
    change (λ p : list byte * json, quoted p.1 ++ str ":" ++ render p.2) with member. cbn. lia.
Qed.

Lemma parse_render j : json_ok j → parse (render j) = Some j.
Proof.
  intros Hok. unfold parse. rewrite <-(app_nil_r (render j)) at 2.
  rewrite (render_parses j Hok [] _); [done|by apply weight_length|done].
Qed.

(** What a writer that started empty holds. *)
Lemma written f j : writes f j → json_ok j → parse (out_ (f JsonWriter_new)) = Some j.
Proof. intros Hf Hok. rewrite Hf. cbn. by apply parse_render. Qed.

(** ** Numbers the writer prints *)

Lemma numchar_digit b : is_digit b = true → is_numchar b = true.
Proof. unfold is_numchar. by intros ->. Qed.

Lemma strip_zeros_digits ds : Forall (λ b, is_digit b = true) ds → Forall (λ b, is_digit b = true) (strip_zeros ds).
Proof.
  induction 1 as [|d ds Hd _ IH]; [done|]. cbn. destruct (strip_zeros ds); [|by constructor].
  destruct (decide _); by repeat constructor.
Qed.

Lemma pad_digits n v : Forall (λ b, is_digit b = true) (pad n v).
Proof. apply Forall_drop, to_string_digits. Qed.

Lemma exponent_digits x : ∃ sg ds, exponent x = x65 :: sg :: ds ∧ (sg = x2d ∨ sg = x2b) ∧ ds ≠ [] ∧
  Forall (λ b, is_digit b = true) ds.
Proof.
  unfold exponent. exists (if (x <? 0)%Z then x2d else x2b), ((if (Z.abs x <? 10)%Z then str "0" else []) ++ to_string (Z.abs_N x)).
  pose proof (to_string_nonempty (Z.abs_N x)). split_and!.
  - by destruct (_ <? 0)%Z, (_ <? _)%Z.
  - destruct (_ <? 0)%Z; [by left|by right].
  - by destruct (_ <? _)%Z.
  - apply Forall_app. split; [|apply to_string_digits]. destruct (_ <? _)%Z; by repeat constructor.
Qed.

Lemma integer_head n : ∃ b t, to_string n = b :: t ∧ is_digit b = true ∧ (t = [] ∨ b ≠ x30).
Proof.
  destruct (decide (n = 0)) as [->|Hn]; [by eexists _, _; split_and!; [done|done|left]|].
  destruct (to_string_head n ltac:(lia)) as (d&t&->&Hd). exists (digit d), t.
  split_and!; [done|apply is_digit_digit; lia|right]. intros E. pose proof (to_N_digit d ltac:(lia)) as Hv.
  rewrite E in Hv. cbn in Hv. lia.
Qed.

Lemma fraction_cases fs : Forall (λ b, is_digit b = true) fs →
  fraction fs = [] ∨ ∃ fp, fraction fs = x2e :: fp ∧ fp ≠ [] ∧ Forall (λ b, is_digit b = true) fp.
Proof.
  intros H%strip_zeros_digits. unfold fraction. destruct (strip_zeros fs) as [|f fp]; [by left|].
  right. by exists (f :: fp).
Qed.

(** An exponent, or nothing. *)
Definition exponent_or_not (ex : list byte) : Prop := ex = [] ∨ ∃ x, ex = exponent x.

Lemma exponent_checked ex : exponent_or_not ex → match ex with [] => true | b :: s => bool_decide (lower b = x65) &&
  (let '(ds, s) := span is_digit (scan_sign s).2 in nonempty ds && negb (nonempty s)) end = true.
Proof.
  intros [->|[x ->]]; [done|]. destruct (exponent_digits x) as (sg&ds&->&Hsg&Hne&Hds).
  assert ((scan_sign (sg :: ds)).2 = ds) as -> by (by destruct Hsg as [->| ->]).
  rewrite <-(app_nil_r ds), span_all by done. by destruct ds.
Qed.

Lemma exponent_follows ex : exponent_or_not ex → match ex with b :: _ => is_digit b = false | [] => True end.
Proof. intros [->|[x ->]]; [done|]. by destruct (exponent_digits x) as (?&?&->&_). Qed.

Lemma number_chars n fs ex : Forall (λ b, is_digit b = true) fs → exponent_or_not ex →
  Forall (λ b, is_numchar b = true) (to_string n ++ fraction fs ++ ex).
Proof.
  intros Hfs Hex. assert (∀ l, Forall (λ b, is_digit b = true) l → Forall (λ b, is_numchar b = true) l) as Hd
    by (intros l Hl; eapply Forall_impl; [exact Hl|]; intros; by apply numchar_digit).
  rewrite !Forall_app. split_and!.
  - apply Hd, to_string_digits.
  - destruct (fraction_cases fs Hfs) as [->|(fp&->&_&Hfp)]; constructor; [done|by apply Hd].
  - destruct Hex as [->|[x ->]]; [done|]. destruct (exponent_digits x) as (sg&ds&->&Hsg&_&Hds).
    constructor; [done|]. constructor; [by destruct Hsg as [->| ->]|by apply Hd].
Qed.

(** An integer without leading zeros, a fraction and an exponent, each optional. *)
Lemma number_text s n fs ex : Forall (λ b, is_digit b = true) fs → exponent_or_not ex →
  num_ok (minus s ++ to_string n ++ fraction fs ++ ex).
Proof.
  intros Hfs Hex. split; [|apply Forall_app; split; [by destruct s; repeat constructor|by apply number_chars]].
  destruct (integer_head n) as (b&t&En&Hb&Ht). pose proof (to_string_digits n) as Hd. rewrite En in Hd |- *.
  assert (∀ tl, json_number (minus s ++ (b :: t) ++ tl) = json_number ((b :: t) ++ tl)) as ->
    by (intros tl; destruct s; [cbn [minus app str String.list_byte_of_string]; by destruct b|done]).
  unfold json_number. assert (∀ tl, match (b :: t) ++ tl with x2d :: s => s | _ => (b :: t) ++ tl end = (b :: t) ++ tl) as ->
    by (by destruct b).
  assert (match b :: t with [] => false | [_] => true | d :: _ => bool_decide (d ≠ x30) end = true) as Hip
    by (destruct t; [done|apply bool_decide_eq_true; by destruct Ht]).
  destruct (fraction_cases fs Hfs) as [->|(fp&->&Hne&Hfp)]; cbn [app].
  - change (b :: t ++ ex) with ((b :: t) ++ ex). rewrite span_all by (done || by apply exponent_follows). rewrite Hip.
    assert (match ex with x2e :: s => let '(fp, s) := span is_digit s in (nonempty fp, s) | _ => (true, ex) end = (true, ex)) as ->
      by (destruct Hex as [->|[x ->]]; [done|]; by destruct (exponent_digits x) as (?&?&->&_)).
    by rewrite exponent_checked.
  - change (b :: t ++ x2e :: fp ++ ex) with ((b :: t) ++ x2e :: fp ++ ex). rewrite span_all by done. rewrite Hip.
    rewrite span_all by (done || by apply exponent_follows). rewrite exponent_checked by done. by destruct fp.
Qed.

Lemma u64_num_ok n : num_ok (to_string n).
Proof.
  replace (to_string n) with (minus false ++ to_string n ++ fraction [] ++ []) by (cbn; apply app_nil_r).
  apply number_text; [done|by left].
Qed.

Definition finite (d : double) : Prop :=
  match d with S754_zero _ | S754_finite _ _ _ => True | _ => False end.

Lemma double_num_ok d : finite d → num_ok (fmt_g6 d).
Proof.
  destruct d as [s|s| |s m e]; [|done..|]; intros _; cbn [fmt_g6].
  - replace (str "0") with (to_string 0 ++ fraction [] ++ []) by done. apply number_text; [done|by left].
  - destruct (significand m e) as [v x]. unfold short_point. destruct (_ && _).
    + rewrite <-(app_nil_r (_ ++ fraction _)), <-app_assoc. apply number_text; [apply pad_digits|by left].
    + rewrite <-app_assoc. apply number_text; [apply pad_digits|right; by exists x].
Qed.

(** Infinities and NaN are printed as words, which are not JSON. *)
Lemma double_not_json d : ¬ finite d → parse (fmt_g6 d) = None.
Proof. destruct d as [s|[]| |]; [by intros []|done..|by intros []]. Qed.
