(* ===== verification/BenchReport.v ===== *)
(** * bench/bench_report.h, bench/bench_report.cpp: machine state and report blocks

    The host is a parameter: its files as lists of lines, its directories as
    lists of names and the answer of [uname].  An exception of [std::stol],
    [std::stod] or [substr] is [None]. *)

From Stdlib Require Import NArith ZArith Strings.Byte Floats.SpecFloat Lia.
From S2P Require Import Prelude Text OrdMap KvStore SimNetwork FaultSchedule Histogram Numerals Json.

Local Open Scope N_scope.

Record MachineState := mkMachineState {
  cpuModel : list byte;
  cpus : Z;
  governors : list byte;
  noTurbo : list byte;
  kernel : list byte;
  loadavg1 : double;
  maxTempC : Z;
  curFreqMHz : list byte;
}.

Section Host.
Context (file : list byte → option (list (list byte))) (directory : list byte → list (list byte)).
Context (uname : option (list byte * list byte)).

Definition readFirstLine (path : list byte) : list byte := default [] (file path ≫= head).

(** [s.rfind(prefix, 0) == 0] *)
Definition starts_with (prefix s : list byte) : bool := bool_decide (take (length prefix) s = prefix).

(** [s.substr(pos)] *)
Definition substr (pos : nat) (s : list byte) : option (list byte) :=
  if (length s <? pos)%nat then None else Some (drop pos s).

(** The loop over [/proc/cpuinfo]. *)
Definition cpuLine (acc : list byte * Z) (line : list byte) : option (list byte * Z) :=
  let '(model, n) := acc in
  let n := if starts_with (str "processor") line then (n + 1)%Z else n in
  if bool_decide (model = []) && starts_with (str "model name") line then
    match list_find (λ b, b = x3a) line with
    | Some (colon, _) => model ← substr (colon + 2) line; Some (model, n)
    | None => Some (model, n)
    end
  else Some (model, n).

Fixpoint cpuInfo (acc : list byte * Z) (lines : list (list byte)) : option (list byte * Z) :=
  match lines with
  | [] => Some acc
  | line :: lines => acc ← cpuLine acc line; cpuInfo acc lines
  end.

Definition cpufreq : list byte := str "/sys/devices/system/cpu/cpufreq".

(** The loop over the frequency policies: governors, least and largest
    frequency. *)
Definition policy (acc : ordmap (list byte) unit * Z * Z) (name : list byte) :
    option (ordmap (list byte) unit * Z * Z) :=
  let '(govs, minKHz, maxKHz) := acc in
  let gov := readFirstLine (cpufreq ++ str "/" ++ name ++ str "/scaling_governor") in
  let govs := if bool_decide (gov = []) then govs else om_insert gov tt govs in
  let cur := readFirstLine (cpufreq ++ str "/" ++ name ++ str "/scaling_cur_freq") in
  if bool_decide (cur = []) then Some (govs, minKHz, maxKHz)
  else
    khz ← stol cur;
    Some (govs, if ((minKHz <? 0) || (khz <? minKHz))%Z then khz else minKHz,
          if (maxKHz <? khz)%Z then khz else maxKHz).

Fixpoint policies (acc : ordmap (list byte) unit * Z * Z) (names : list (list byte)) :
    option (ordmap (list byte) unit * Z * Z) :=
  match names with
  | [] => Some acc
  | name :: names => acc ← policy acc name; policies acc names
  end.

Definition orNa (s : list byte) : list byte := if bool_decide (s = []) then str "n/a" else s.

Fixpoint temps (acc : Z) (names : list (list byte)) : option Z :=
  match names with
  | [] => Some acc
  | name :: names =>
      if starts_with (str "thermal_zone") name then
        let t := readFirstLine (str "/sys/class/thermal/" ++ name ++ str "/temp") in
        if bool_decide (t = []) then temps acc names
        else
          v ← stol t;
          let c := Z.quot v 1000 in
          temps (if (acc <? c)%Z then c else acc) names
      else temps acc names
  end.

Definition captureMachineState : option MachineState :=
  '(model, n) ← cpuInfo ([], 0%Z) (default [] (file (str "/proc/cpuinfo")));
  '(govs, minKHz, maxKHz) ← policies ([], (-1)%Z, (-1)%Z) (directory cpufreq);
  let freq := if (0 <? minKHz)%Z
              then z_to_string (Z.quot minKHz 1000) ++ str "-" ++ z_to_string (Z.quot maxKHz 1000)
              else str "n/a" in
  let turbo := readFirstLine (str "/sys/devices/system/cpu/intel_pstate/no_turbo") in
  let kern := match uname with Some (sys, rel) => sys ++ str " " ++ rel | None => [] end in
  let la := readFirstLine (str "/proc/loadavg") in
  load ← (if bool_decide (la = []) then Some dzero else stod la);
  temp ← temps (-1)%Z (directory (str "/sys/class/thermal"));
  Some (mkMachineState model n (orNa (commas govs.*1)) (orNa turbo) kern load temp freq).

End Host.

(** ** Blocks of the report *)

(** The literals of the quantile grid. *)
Definition grid : list double :=
  ((λ i, ddiv (to_double (N.of_nat i)) (to_double 100)) <$> seq 1 99) ++
  [of_decimal false 995 (-3); of_decimal false 999 (-3); of_decimal false 9995 (-4);
   of_decimal false 9999 (-4); of_decimal false 99995 (-5); of_decimal false 99999 (-5); to_double 1].

Definition point (h : LatencyHistogram) (q : double) (w : JsonWriter) : JsonWriter :=
  endArray (value_u64 (valueAtQuantile q h) (value_double q (beginArray w))).

Definition writeGrid (h : LatencyHistogram) (w : JsonWriter) : JsonWriter :=
  endArray (foldl (λ w q, point h q w) (beginArray w) grid).

Definition writeHistogram (h : LatencyHistogram) (w : JsonWriter) : JsonWriter :=
  let w := beginObject w in
  let w := kv (str "count") (value_u64 (total_ h)) w in
  let w := kv (str "min_ns") (value_u64 (minValue h)) w in
  let w := kv (str "mean_ns") (value_double (mean h)) w in
  let w := kv (str "p50_ns") (value_u64 (valueAtQuantile (of_decimal false 50 (-2)) h)) w in
  let w := kv (str "p90_ns") (value_u64 (valueAtQuantile (of_decimal false 90 (-2)) h)) w in
  let w := kv (str "p99_ns") (value_u64 (valueAtQuantile (of_decimal false 99 (-2)) h)) w in
  let w := kv (str "p999_ns") (value_u64 (valueAtQuantile (of_decimal false 999 (-3)) h)) w in
  let w := kv (str "p9999_ns") (value_u64 (valueAtQuantile (of_decimal false 9999 (-4)) h)) w in
  let w := kv (str "max_ns") (value_u64 (maxValue h)) w in
  let w := writeGrid h (key (str "quantiles") w) in
  endObject w.

Definition writeMachine (m : MachineState) (w : JsonWriter) : JsonWriter :=
  let w := beginObject w in
  let w := kv (str "cpu_model") (value_string (cpuModel m)) w in
  let w := kv (str "cpus") (value_int (cpus m)) w in
  let w := kv (str "governors") (value_string (governors m)) w in
  let w := kv (str "intel_pstate_no_turbo") (value_string (noTurbo m)) w in
  let w := kv (str "kernel") (value_string (kernel m)) w in
  let w := kv (str "loadavg1") (value_double (loadavg1 m)) w in
  let w := kv (str "max_temp_c") (value_u64 (Z.to_N (if (maxTempC m <? 0)%Z then 0 else maxTempC m)%Z)) w in
  let w := kv (str "cur_freq_mhz") (value_string (curFreqMHz m)) w in
  endObject w.

(** ** What they write *)

Definition ju64 (v : N) : json := JNum (to_string v).
Definition jdouble (v : double) : json := JNum (fmt_g6 v).
Definition jint (v : Z) : json := JNum (to_string (Z.to_N (v mod 2 ^ 64))).

Definition histogramJson (h : LatencyHistogram) : json :=
  let at_ m e := ju64 (valueAtQuantile (of_decimal false m e) h) in
  JObj [(str "count", ju64 (total_ h)); (str "min_ns", ju64 (minValue h)); (str "mean_ns", jdouble (mean h));
        (str "p50_ns", at_ 50 (-2)%Z); (str "p90_ns", at_ 90 (-2)%Z); (str "p99_ns", at_ 99 (-2)%Z);
        (str "p999_ns", at_ 999 (-3)%Z); (str "p9999_ns", at_ 9999 (-4)%Z); (str "max_ns", ju64 (maxValue h));
        (str "quantiles", JArr ((λ q, JArr [jdouble q; ju64 (valueAtQuantile q h)]) <$> grid))].

Definition machineJson (m : MachineState) : json :=
  JObj [(str "cpu_model", JStr (cpuModel m)); (str "cpus", jint (cpus m)); (str "governors", JStr (governors m));
        (str "intel_pstate_no_turbo", JStr (noTurbo m)); (str "kernel", JStr (kernel m));
        (str "loadavg1", jdouble (loadavg1 m)); (str "max_temp_c", ju64 (Z.to_N (if (maxTempC m <? 0)%Z then 0 else maxTempC m)%Z));
        (str "cur_freq_mhz", JStr (curFreqMHz m))].

Lemma point_writes h q : writes (point h q) (JArr [jdouble q; ju64 (valueAtQuantile q h)]).
Proof. apply (array_writes [value_double q; value_u64 (valueAtQuantile q h)]). by repeat constructor. Qed.

Lemma grid_writes h : writes (writeGrid h)
  (JArr ((λ q, JArr [jdouble q; ju64 (valueAtQuantile q h)]) <$> grid)).
Proof.
  unfold writeGrid. generalize grid. intros qs w.
  assert (∀ w, foldl (λ w q, point h q w) w qs = foldl (λ w f, f w) w (point h <$> qs)) as ->.
  { induction qs as [|q qs IH]; intros w'; [done|]. apply IH. }
  apply array_writes. apply Forall2_fmap, Forall_Forall2_diag, Forall_true. intros q. apply point_writes.
Qed.

(** An object whose calls are written out one after the other. *)
Ltac written_out :=
  let w := fresh "w" in intros w; cbv beta zeta delta [kv];
  match goal with |- _ = emit (render ?j) _ => let j' := eval hnf in j in change j with j' end;
  apply opened_end;
  match goal with |- opened ?w0 ?ps ?w' => enough (∃ ps', opened w0 ps' w' ∧ ps' = ps) as (?&?&->) by done end;
  eexists; split;
  [repeat (eapply opened_kv; [|solve [eauto with rsm]]); apply opened_begin|reflexivity].

#[export] Hint Resolve grid_writes : rsm.

Lemma writeHistogram_writes h : writes (writeHistogram h) (histogramJson h).
Proof.
  unfold writeHistogram. written_out.
Qed.

Lemma writeMachine_writes m : writes (writeMachine m) (machineJson m).
Proof. unfold writeMachine. written_out. Qed.

#[export] Hint Resolve writeHistogram_writes writeMachine_writes : rsm.

(** ** What they write is JSON, as long as the doubles are numbers *)

Lemma ju64_ok v : json_ok (ju64 v).
Proof. apply ok_num, u64_num_ok. Qed.

Lemma jint_ok v : json_ok (jint v).
Proof. apply ok_num, u64_num_ok. Qed.

Lemma jdouble_ok v : finite v → json_ok (jdouble v).
Proof. intros H. by apply ok_num, double_num_ok. Qed.

#[export] Hint Resolve ju64_ok jint_ok jdouble_ok ok_str ok_bool : rsm.

(** Every member is one of the above. *)
Ltac object_ok := apply ok_obj; repeat (apply Forall_cons; split; [cbn [snd]; solve [eauto with rsm]|]); apply Forall_nil_2.

Lemma grid_finite : Forall finite grid.
Proof. by vm_compute; repeat constructor. Qed.

Lemma gridJson_ok h : json_ok (JArr ((λ q, JArr [jdouble q; ju64 (valueAtQuantile q h)]) <$> grid)).
Proof.
  apply ok_arr, Forall_fmap. eapply Forall_impl; [exact grid_finite|]. intros q Hq. apply ok_arr.
  apply Forall_cons; split; [by apply jdouble_ok|]. apply Forall_cons; split; [apply ju64_ok|done].
Qed.

#[export] Hint Resolve gridJson_ok : rsm.

Lemma histogramJson_ok h : finite (mean h) → json_ok (histogramJson h).
Proof. intros H. unfold histogramJson. cbv zeta. object_ok. Qed.

Lemma machineJson_ok m : finite (loadavg1 m) → json_ok (machineJson m).
Proof. intros H. unfold machineJson. object_ok. Qed.

#[export] Hint Resolve histogramJson_ok machineJson_ok : rsm.
