(* ===== verification/PeerConfig.v ===== *)
(** * src/transport/transport.cpp: the peer configuration file

    [loadPeerConfig] reads one "nodeId host port" triple per line.  The extraction
    operators of [std::istringstream] are modelled on the bytes that are left: an
    extraction that fails is [None], and so are all after it. *)

From Stdlib Require Import NArith ZArith Strings.Byte Lia.
From S2P Require Import Prelude Text Messages OrdMap SimNetwork FaultSchedule Numerals.

Local Open Scope N_scope.

Record PeerAddress := mkPeerAddress { host : list byte; port : N }.
Definition PeerMap : Type := ordmap NodeId PeerAddress.

Inductive ConfigError :=
| CannotOpen (path : list byte)
| BadLine (lineNo : N) (line : list byte)
| TrailingTokens (lineNo : N) (line : list byte)
| DuplicateId (lineNo : N) (line : list byte).

(** ** Streams *)

(** The lines [std::getline] delivers: a last one need not be ended. *)
Fixpoint getlines (s : list byte) : list (list byte) :=
  match s with
  | [] => []
  | b :: s =>
      if decide (b = x0a) then [] :: getlines s
      else match getlines s with [] => [[b]] | l :: ls => (b :: l) :: ls end
  end.

(** [in >> v] for a [long]: nothing to convert, and a value out of range, fail. *)
Definition extract_long (s : list byte) : option (Z * list byte) :=
  match scan_int s with
  | (Some x, rest) =>
      if ((LONG_MIN <=? signed x) && (signed x <=? LONG_MAX))%Z then Some (signed x, rest) else None
  | (None, _) => None
  end.

(** [in >> v] for a [std::string] *)
Definition extract_string (s : list byte) : option (list byte * list byte) :=
  let '(t, rest) := span (λ b, negb (is_space b)) (skip_spaces s) in
  if decide (t = []) then None else Some (t, rest).

(** ** The parser *)

Definition is_blank (b : byte) : bool := bool_decide (b = x20) || bool_decide (b = x09).

(** [line.find_first_not_of(" \t")] and what is there. *)
Definition firstNonBlank (line : list byte) : option byte := head (span is_blank line).2.

Definition ignored (line : list byte) : bool :=
  match firstNonBlank line with None => true | Some b => bool_decide (b = x23) end.

(** [fields >> id >> host >> port] *)
Definition extractFields (line : list byte) : option (Z * list byte * Z * list byte) :=
  '(id, rest) ← extract_long line;
  '(h, rest) ← extract_string rest;
  '(p, rest) ← extract_long rest;
  Some (id, h, p, rest).

Definition loadLine (lineNo : N) (line : list byte) (peers : PeerMap) : ConfigError + PeerMap :=
  if ignored line then inr peers
  else
    match extractFields line with
    | None => inl (BadLine lineNo line)
    | Some (id, h, p, rest) =>
        if ((id <? 0) || (65535 <? id) || (p <? 1) || (65535 <? p))%Z then inl (BadLine lineNo line)
        else if bool_decide (is_Some (extract_string rest)) then inl (TrailingTokens lineNo line)
        else
          let nodeId := Z.to_N id in
          match om_find nodeId peers with
          | Some _ => inl (DuplicateId lineNo line)
          | None => inr (om_insert nodeId (mkPeerAddress h (Z.to_N p)) peers)
          end
    end.

Fixpoint loadLines (lineNo : N) (lines : list (list byte)) (peers : PeerMap) : ConfigError + PeerMap :=
  match lines with
  | [] => inr peers
  | line :: lines =>
      let lineNo := lineNo + 1 in
      match loadLine lineNo line peers with
      | inl e => inl e
      | inr peers => loadLines lineNo lines peers
      end
  end.

(** [text] is the contents of the file, if it can be opened. *)
Definition loadPeerConfig (path : list byte) (text : option (list byte)) : ConfigError + PeerMap :=
  match text with
  | None => inl (CannotOpen path)
  | Some text => loadLines 0 (getlines text) []
  end.

(** ** What is accepted *)

Definition word (t : list byte) : Prop := t ≠ [] ∧ Forall (λ b, is_space b = false) t.

Definition entry_ok (p : NodeId * PeerAddress) : Prop :=
  p.1 ≤ 65535 ∧ 1 ≤ port p.2 ≤ 65535 ∧ word (host p.2).

Lemma extract_string_word s t rest : extract_string s = Some (t, rest) → word t.
Proof.
  unfold extract_string. pose proof (span_spec (λ b, negb (is_space b)) (skip_spaces s)) as Hs.
  destruct (span _ _) as [t' r]. destruct Hs as (_&Hw&_). destruct (decide _) as [|Hne]; [done|]. intros [= <- <-].
  split; [done|]. eapply Forall_impl; [exact Hw|]. intros b Hb. by apply negb_true_iff in Hb.
Qed.

Lemma loadLine_inr lineNo line peers peers' : loadLine lineNo line peers = inr peers' →
  if ignored line then peers' = peers
  else ∃ id a, entry_ok (id, a) ∧ om_find id peers = None ∧ peers' = om_insert id a peers.
Proof.
  unfold loadLine. destruct (ignored line); [by intros [= <-]|].
  destruct (extractFields line) as [[[[id h] p] rest]|] eqn:Ef; [|done].
  destruct (_ || _)%Z eqn:Er; [done|]. destruct (bool_decide _); [done|].
  destruct (om_find _ _) eqn:Eo; [done|]. intros [= <-]. eexists _, _. split_and!; [|exact Eo|done].
  rewrite !orb_false_iff, !Z.ltb_ge in Er. unfold entry_ok. cbn [fst snd port host]. split_and!; [lia|lia|lia|].
  unfold extractFields in Ef. apply bind_Some in Ef as ([i r1]&_&Ef). apply bind_Some in Ef as ([h' r2]&Eh&Ef).
  apply bind_Some in Ef as ([p' r3]&_&Ef). injection Ef as <- <- <- <-. by eapply extract_string_word.
Qed.

Lemma om_insert_length (k : NodeId) (v : PeerAddress) m : om_find k m = None → length (om_insert k v m) = S (length m).
Proof.
  induction m as [|[k' v'] m IH]; cbn; [done|]. destruct (key_ltb k k'); [done|].
  destruct (key_ltb k' k); [|done]. intros H. cbn. by rewrite IH.
Qed.

Lemma loadLines_inr lines : ∀ lineNo peers peers', om_ok peers → Forall entry_ok peers →
  loadLines lineNo lines peers = inr peers' →
  om_ok peers' ∧ Forall entry_ok peers' ∧
  length peers' = (length peers + length (filter (λ l, ignored l = false) lines))%nat.
Proof.
  induction lines as [|line lines IH]; intros lineNo peers peers' Hok He; cbn [loadLines].
  { intros [= <-]. cbn. split_and!; [done|done|lia]. }
  destruct (loadLine _ line peers) as [|peers1] eqn:El; [done|]. intros Hl. apply loadLine_inr in El.
  rewrite filter_cons. destruct (ignored line) eqn:Ei; [subst|destruct El as (id&a&Hea&Hno&->)].
  - rewrite decide_False by done. by eapply IH.
  - rewrite decide_True by done. destruct (IH _ _ _ (om_insert_ok id a _ Hok) ltac:(apply Forall_forall;
      intros x [ ->|Hx]%om_insert_elem; [done|by eapply Forall_forall in He]) Hl) as (?&?&Hlen).
    split_and!; [done|done|]. rewrite Hlen, om_insert_length by done. cbn. lia.
Qed.

(** An accepted file gives one peer for each line that is neither blank nor a
    comment; their ids are distinct and 16 bits wide, the ports are real ports and
    the hosts are words. *)
Theorem loaded_config_ok path text peers : loadPeerConfig path (Some text) = inr peers →
  om_ok peers ∧ Forall entry_ok peers ∧
  length peers = length (filter (λ l, ignored l = false) (getlines text)).
Proof. intros H. by apply loadLines_inr in H as (?&?&?); [|constructor..]. Qed.

(** ** Written files read back *)

Inductive ConfigLine :=
| Blank (lead : list byte)
| Comment (lead text : list byte)
| PeerLine (lead : list byte) (id : NodeId) (h : list byte) (p : N).

Definition config_line (l : ConfigLine) : list byte :=
  match l with
  | Blank lead => lead
  | Comment lead text => lead ++ str "#" ++ text
  | PeerLine lead id h p => lead ++ to_string id ++ str " " ++ h ++ str " " ++ to_string p
  end.

Definition config_text (ls : list ConfigLine) : list byte := ls ≫= λ l, config_line l ++ [x0a].

Definition blanks (lead : list byte) : Prop := Forall (λ b, is_blank b = true) lead.

Definition line_ok (l : ConfigLine) : Prop :=
  match l with
  | Blank lead => blanks lead
  | Comment lead text => blanks lead ∧ Forall (λ b, b ≠ x0a) text
  | PeerLine lead id h p => blanks lead ∧ entry_ok (id, mkPeerAddress h p)
  end.

Definition line_peer (l : ConfigLine) : list (NodeId * PeerAddress) :=
  match l with PeerLine _ id h p => [(id, mkPeerAddress h p)] | _ => [] end.

Definition peers_of (ls : list ConfigLine) : PeerMap :=
  foldl (λ m p, om_insert p.1 p.2 m) [] (ls ≫= line_peer).

Lemma getlines_line l s : Forall (λ b, b ≠ x0a) l → getlines (l ++ x0a :: s) = l :: getlines s.
Proof. induction 1 as [|b l Hb _ IH]; [done|]. cbn [app getlines]. by rewrite IH, decide_False. Qed.

Lemma blank_newline b : is_blank b = true → b ≠ x0a.
Proof. by intros Hb ->. Qed.

Lemma blank_space b : is_blank b = true → is_space b = true.
Proof. by intros [ ->%bool_decide_eq_true | ->%bool_decide_eq_true]%orb_true_iff. Qed.

Lemma digit_newline b : is_digit b = true → b ≠ x0a.
Proof. by intros Hb ->. Qed.

Lemma nonspace_newline b : is_space b = false → b ≠ x0a.
Proof. by intros Hb ->. Qed.

Lemma config_line_newline l : line_ok l → Forall (λ b, b ≠ x0a) (config_line l).
Proof.
  assert (∀ lead, blanks lead → Forall (λ b, b ≠ x0a) lead) as Hb
    by (intros lead H; eapply Forall_impl; [exact H|]; apply blank_newline).
  assert (∀ n, Forall (λ b, b ≠ x0a) (to_string n)) as Hd
    by (intros n; eapply Forall_impl; [apply to_string_digits|]; apply digit_newline).
  destruct l as [lead|lead text|lead id h p]; cbn [line_ok config_line]; [by apply Hb| |].
  - intros [H1 H2]. apply Forall_app; split; [by apply Hb|]. by constructor.
  - intros (H1&_&_&_&H2). rewrite !Forall_app. split_and!; [by apply Hb|apply Hd|by repeat constructor| |by repeat constructor|apply Hd].
    eapply Forall_impl; [exact H2|]. apply nonspace_newline.
Qed.

Lemma skip_spaces_all l s : Forall (λ b, is_space b = true) l → skip_spaces (l ++ s) = skip_spaces s.
Proof. induction 1 as [|b l Hb _ IH]; [done|]. cbn. by rewrite Hb. Qed.

Lemma skip_spaces_idem s : skip_spaces (skip_spaces s) = skip_spaces s.
Proof. induction s as [|b s IH]; [done|]. cbn. destruct (is_space b) eqn:E; [done|]. cbn. by rewrite E. Qed.

Lemma extract_long_lead lead n r : Forall (λ b, is_space b = true) lead →
  match r with b :: _ => is_digit b = false | [] => True end → n ≤ 65535 →
  extract_long (lead ++ to_string n ++ r) = Some (Z.of_N n, r).
Proof.
  intros Hl Hr Hn. unfold extract_long. pose proof (scan_int_to_string n r Hr) as H. unfold scan_int in *.
  rewrite skip_spaces_all by done. rewrite H. unfold signed. cbn [fst snd].
  replace ((LONG_MIN <=? Z.of_N n) && (Z.of_N n <=? LONG_MAX))%Z with true; [done|].
  symmetry. rewrite andb_true_iff, !Z.leb_le. unfold LONG_MIN, LONG_MAX. lia.
Qed.

Lemma extract_string_lead lead h r : Forall (λ b, is_space b = true) lead → word h →
  match r with b :: _ => is_space b = true | [] => True end →
  extract_string (lead ++ h ++ r) = Some (h, r).
Proof.
  intros Hl [Hne Hh] Hr. unfold extract_string. rewrite skip_spaces_all by done.
  assert (skip_spaces (h ++ r) = h ++ r) as ->.
  { destruct h as [|b h]; [done|]. apply Forall_cons in Hh as [Hb _]. cbn. by rewrite Hb. }
  rewrite span_all; [by rewrite decide_False| |destruct r; [done|by rewrite Hr]].
  eapply Forall_impl; [exact Hh|]. intros b Hb. by rewrite Hb.
Qed.

Lemma firstNonBlank_lead lead b s : blanks lead → is_blank b = false → firstNonBlank (lead ++ b :: s) = Some b.
Proof. intros Hl Hb. unfold firstNonBlank. by rewrite span_all. Qed.

Lemma digit_not_blank b : is_digit b = true → is_blank b = false.
Proof. by destruct b. Qed.

Lemma loadLine_written lineNo l peers : line_ok l → Forall (λ p, om_find p.1 peers = None) (line_peer l) →
  loadLine lineNo (config_line l) peers = inr (foldl (λ m p, om_insert p.1 p.2 m) peers (line_peer l)).
Proof.
  intros Hok Hnew. unfold loadLine, ignored. destruct l as [lead|lead text|lead id h p]; cbn [line_ok config_line line_peer foldl] in *.
  - unfold firstNonBlank. rewrite <-(app_nil_r lead), span_all; done.
  - destruct Hok as [Hl _]. cbn [app str]. change (str "#" ++ text) with (x23 :: text). by rewrite firstNonBlank_lead.
  - destruct Hok as (Hl&Hid&Hp&Hh). cbn [fst snd host port] in *. apply Forall_cons in Hnew as [Hnew _]. cbn [fst] in Hnew.
    set (rest := str " " ++ h ++ str " " ++ to_string p).
    assert (firstNonBlank (lead ++ to_string id ++ rest) = head (to_string id)) as ->.
    { pose proof (to_string_digits id) as Hd. pose proof (to_string_nonempty id). destruct (to_string id) as [|b t]; [done|].
      apply Forall_cons in Hd as [Hb _]. cbn [app head]. apply firstNonBlank_lead; [done|by apply digit_not_blank]. }
    pose proof (to_string_digits id) as Hd. pose proof (to_string_nonempty id) as Hne.
    destruct (to_string id) as [|b t] eqn:Eid; [done|]. apply Forall_cons in Hd as [Hb _]. cbn [head].
    rewrite bool_decide_eq_false_2 by (by intros ->). rewrite <-Eid.
    assert (extractFields (lead ++ to_string id ++ rest) = Some (Z.of_N id, h, Z.of_N p, [])) as ->.
    { unfold extractFields. rewrite extract_long_lead; [|eapply Forall_impl; [exact Hl|apply blank_space]|done|done].
      cbn [mbind option_bind]. unfold rest. rewrite extract_string_lead; [|by repeat constructor|done|done].
      cbn [mbind option_bind]. rewrite <-(app_nil_r (to_string p)), extract_long_lead by (done || lia || by repeat constructor). done. }
    replace (_ || _)%Z with false by (symmetry; rewrite !orb_false_iff, !Z.ltb_ge; lia).
    rewrite bool_decide_eq_false_2 by (by vm_compute; inversion 1). by rewrite !N2Z.id, Hnew.
Qed.

Lemma om_find_foldl (k : NodeId) (l : list (NodeId * PeerAddress)) m : k ∉ l.*1 →
  om_find k (foldl (λ m p, om_insert p.1 p.2 m) m l) = om_find k m.
Proof.
  revert m. induction l as [|[k' v] l IH]; intros m Hk; [done|]. cbn [fmap list_fmap fst] in Hk.
  apply not_elem_of_cons in Hk as [Hne Hk]. cbn [foldl fst snd]. rewrite IH by done. by apply om_find_insert_ne.
Qed.

(** C38: peer files read back.  Whatever comments and blank lines are put between
    them and whatever blanks before them, peers with distinct 16-bit ids, hosts
    without white space and real ports, written one to a line, are loaded as the
    map of exactly those peers. *)
Theorem peer_config_roundtrip path ls : Forall line_ok ls → NoDup (ls ≫= line_peer).*1 →
  loadPeerConfig path (Some (config_text ls)) = inr (peers_of ls).
Proof.
  intros Hok Hnd. cbn [loadPeerConfig]. unfold peers_of. generalize 0.
  assert (Forall (λ p, om_find p.1 ([] : PeerMap) = None) (ls ≫= line_peer)) as Hnew by (by apply Forall_true).
  revert Hnew Hnd. generalize ([] : PeerMap). induction Hok as [|l ls Hl _ IH]; intros m Hnew Hnd n; [done|].
  rewrite bind_cons in *. rewrite fmap_app in Hnd. apply NoDup_app in Hnd as (_&Hdis&Hnd). apply Forall_app in Hnew as [Hnew Hnew'].
  unfold config_text. rewrite bind_cons, <-app_assoc. cbn [app]. rewrite getlines_line by (by apply config_line_newline).
  cbn [loadLines]. rewrite loadLine_written by done. rewrite foldl_app. apply IH; [|done].
  apply Forall_forall. intros p Hp. rewrite om_find_foldl; [by eapply Forall_forall in Hnew'|].
  intros Hin. apply (Hdis p.1 Hin). by apply list_elem_of_fmap_2.
Qed.

Module PeerConfigSample.

Definition sample : list ConfigLine :=
  [Comment [] (str " id host port"); PeerLine (str " ") 1 (str "127.0.0.1") 9001; Blank (str "  ");
   PeerLine [] 2 (str "127.0.0.1") 9002; PeerLine [] 3 (str "127.0.0.1") 65535].

Lemma peer_config_roundtrip_witness : loadPeerConfig (str "peers") (Some (config_text sample)) =
  inr [(1, mkPeerAddress (str "127.0.0.1") 9001); (2, mkPeerAddress (str "127.0.0.1") 9002);
       (3, mkPeerAddress (str "127.0.0.1") 65535)].
Proof.
  apply (peer_config_roundtrip (str "peers") sample).
  - unfold sample. repeat constructor; cbn; repeat constructor; by vm_compute.
  - apply (bool_decide_unpack (NoDup (sample ≫= line_peer).*1)). by vm_compute.
Defined.

End PeerConfigSample.
