(* ===== verification/Sockets.v ===== *)
(** * src/transport/transport.cpp: sockets of the transport

    The constructor, [connectTo] and the destructor, over the socket calls of the
    operating system, and the descriptors they leave open. *)

From Stdlib Require Import NArith Strings.Byte Lia.
From S2P Require Import Prelude Text Messages Transport SimNetwork FaultSchedule Numerals OrdMap PeerConfig.

Local Open Scope N_scope.

Inductive SocketError := SocketFailed | BindListenFailed (listenPort : N) | GetsocknameFailed.

Section Sockets.
(** The system calls; [None] or [false] is an error. *)
Context {W : Type}.
Context (os_socket : W → option Fd * W).
Context (os_setsockopt : Fd → W → W).
Context (os_bind : Fd → N → W → bool * W).
Context (os_listen : Fd → W → bool * W).
Context (os_getsockname : Fd → W → option N * W).
Context (inet_pton : list byte → option N).
Context (os_connect : Fd → N → N → W → bool * W).
Context (os_send : Fd → list byte → W → SendResult * W).
Context (os_close : Fd → W → W).

Local Abbreviation TransportOf := (@Transport PeerAddress).

(** The constructor: the transport, [listenFd_] and [listenPort_]. *)
Definition Transport_new (selfId : NodeId) (listenPort : N) (w : W) : (SocketError + TransportOf * Fd * N) * W :=
  let '(fd, w) := os_socket w in
  match fd with
  | None => (inl SocketFailed, w)
  | Some listenFd =>
      let w := os_setsockopt listenFd w in
      let '(ok, w) := os_bind listenFd listenPort w in
      let '(ok, w) := if ok : bool then os_listen listenFd w else (false, w) in
      if ok then
        let '(port, w) := os_getsockname listenFd w in
        match port with
        | Some port => (inr (mkTransport selfId ∅ ∅, listenFd, port), w)
        | None => (inl GetsocknameFailed, os_close listenFd w)
        end
      else (inl (BindListenFailed listenPort), os_close listenFd w)
  end.

Definition connectTo (addr : PeerAddress) (w : W) : option Fd * W :=
  match inet_pton (host addr) with
  | None => (None, w)
  | Some ip =>
      let '(fd, w) := os_socket w in
      match fd with
      | None => (None, w)
      | Some fd =>
          let '(ok, w) := os_connect fd ip (port addr) w in
          if ok : bool then (Some fd, os_setsockopt fd w) else (None, os_close fd w)
      end
  end.

(** The destructor, after the I/O thread has been joined. *)
Definition closePeer (w : W) (p : NodeId * @Peer PeerAddress) : W :=
  match peer_fd p.2 with Some fd => os_close fd w | None => w end.

Definition Transport_destroy (t : TransportOf) (listenFd : Fd) (w : W) : W :=
  foldl closePeer (os_close listenFd w) (map_to_list (peers_ t)).

Local Abbreviation sendFrame := (sendFrame connectTo os_send os_close).

Fixpoint sendFrames (fuel : nat) (frames : list (NodeId * list byte)) (t : TransportOf) (w : W) :
    option (TransportOf * W) :=
  match frames with
  | [] => Some (t, w)
  | (to, data) :: frames => '(_, t, w) ← sendFrame fuel to data t w; sendFrames fuel frames t w
  end.

(** ** Open descriptors *)

Context (opened : W → gset Fd).

(** A new socket gets a descriptor that is not open; only [socket] opens and only
    [close] closes. *)
Record socket_laws : Prop := {
  sl_socket w : match os_socket w with
                | (Some fd, w') => fd ∉ opened w ∧ opened w' = {[fd]} ∪ opened w
                | (None, w') => opened w' = opened w
                end;
  sl_setsockopt fd w : opened (os_setsockopt fd w) = opened w;
  sl_bind fd p w : opened (os_bind fd p w).2 = opened w;
  sl_listen fd w : opened (os_listen fd w).2 = opened w;
  sl_getsockname fd w : opened (os_getsockname fd w).2 = opened w;
  sl_connect fd ip p w : opened (os_connect fd ip p w).2 = opened w;
  sl_send fd d w : opened (os_send fd d w).2 = opened w;
  sl_close fd w : opened (os_close fd w) = opened w ∖ {[fd]};
}.

Context (Hlaws : socket_laws).

Lemma connectTo_opens addr w : match connectTo addr w with
  | (Some fd, w') => fd ∉ opened w ∧ opened w' = {[fd]} ∪ opened w
  | (None, w') => opened w' = opened w
  end.
Proof.
  unfold connectTo. destruct (inet_pton _) as [ip|]; [|done]. pose proof (sl_socket Hlaws w) as Hs.
  destruct (os_socket w) as [[fd|] w1]; [|done]. destruct Hs as [Hfd Hs]. pose proof (sl_connect Hlaws fd ip (port addr) w1) as Hc.
  destruct (os_connect fd ip (port addr) w1) as [[] w2]; cbn in Hc.
  - split; [done|]. by rewrite (sl_setsockopt Hlaws), Hc.
  - rewrite (sl_close Hlaws), Hc, Hs. set_solver.
Qed.

(** The constructor keeps one descriptor, and none when it throws. *)
Lemma Transport_new_opens selfId listenPort w : match Transport_new selfId listenPort w with
  | (inr (t, fd, _), w') => t = mkTransport selfId ∅ ∅ ∧ fd ∉ opened w ∧ opened w' = {[fd]} ∪ opened w
  | (inl _, w') => opened w' = opened w
  end.
Proof.
  unfold Transport_new. pose proof (sl_socket Hlaws w) as Hs. destruct (os_socket w) as [[fd|] w1]; [|done].
  destruct Hs as [Hfd Hs]. pose proof (sl_setsockopt Hlaws fd w1) as H1. set (w2 := os_setsockopt fd w1) in *.
  pose proof (sl_bind Hlaws fd listenPort w2) as H2. destruct (os_bind fd listenPort w2) as [ok w3]. cbn in H2.
  assert (opened (if ok then os_listen fd w3 else (false, w3)).2 = opened w3) as H3 by (by destruct ok; [apply (sl_listen Hlaws)|]).
  destruct (if ok then os_listen fd w3 else (false, w3)) as [ok' w4]. cbn in H3.
  assert (opened w4 = {[fd]} ∪ opened w) as H4 by congruence. destruct ok'.
  - pose proof (sl_getsockname Hlaws fd w4) as H5. destruct (os_getsockname fd w4) as [[p|] w5]; cbn in H5.
    + split_and!; [done|done|congruence].
    + rewrite (sl_close Hlaws), H5, H4. set_solver.
  - rewrite (sl_close Hlaws), H4. set_solver.
Qed.

Lemma writeLoop_opened fuel fd data sent w ok w' : writeLoop os_send fuel fd data sent w = Some (ok, w') → opened w' = opened w.
Proof.
  revert sent w. induction fuel as [|fuel IH]; intros sent w; cbn [writeLoop]; (destruct (_ <? _)%nat; [|by intros [= <- <-]]); [done|].
  pose proof (sl_send Hlaws fd (drop sent data) w) as Hs. destruct (os_send fd _ w) as [[n| |] w1]; cbn in Hs.
  - intros H%IH. congruence.
  - intros H%IH. congruence.
  - by intros [= <- <-].
Qed.

(** ** Who holds what *)

(** The descriptors of [base], the listening socket and one for each connected
    peer are open, all different, and nothing else is. *)
Record owns (base : gset Fd) (listenFd : Fd) (t : TransportOf) (w : W) : Prop := {
  ow_open fd : fd ∈ opened w ↔ fd ∈ base ∨ fd = listenFd ∨ ∃ i p, peers_ t !! i = Some p ∧ peer_fd p = Some fd;
  ow_listen : listenFd ∉ base;
  ow_peer i p fd : peers_ t !! i = Some p → peer_fd p = Some fd → fd ∉ base ∧ fd ≠ listenFd;
  ow_peers i j p q fd : peers_ t !! i = Some p → peers_ t !! j = Some q → peer_fd p = Some fd → peer_fd q = Some fd → i = j;
}.

Lemma owns_opened base l t w w' : owns base l t w → opened w' = opened w → owns base l t w'.
Proof. intros [H1 H2 H3 H4] E. split; [|done..]. intros fd. by rewrite E. Qed.

Lemma owns_set base l t w to p (fd : option Fd) w' : owns base l t w → peers_ t !! to = Some p → peer_fd p = None →
  match fd with Some fd => fd ∉ opened w ∧ opened w' = {[fd]} ∪ opened w | None => opened w' = opened w end →
  owns base l (set_peer to (mkPeer (peer_addr p) fd) t) w'.
Proof.
  intros Ho Hp Hno Hfd. destruct fd as [fd|].
  - destruct Hfd as [Hnew E]. assert (∀ i q, peers_ t !! i = Some q → peer_fd q ≠ Some fd) as Hq.
    { intros i q Hi Hf. apply Hnew. apply (ow_open _ _ _ _ Ho). right; right. by exists i, q. }
    split; cbn.
    + intros g. rewrite E, elem_of_union, elem_of_singleton, (ow_open _ _ _ _ Ho). split.
      * intros [->|[?|[?|(i&q&Hi&Hf)]]]; [right; right|by left|by right; left|].
        { exists to, (mkPeer (peer_addr p) (Some fd)). split; [apply lookup_insert_eq|done]. }
        right; right. exists i, q. rewrite lookup_insert_ne; [done|]. intros <-. congruence.
      * intros [?|[?|(i&q&Hi&Hf)]]; [by right; left|by right; right; left|].
        apply lookup_insert_Some in Hi as [[<- <-]|[Hne Hi]]; cbn in Hf; [left; congruence|]. right; right; right. eauto.
    + apply (ow_listen _ _ _ _ Ho).
    + intros i q g Hi Hf. apply lookup_insert_Some in Hi as [[<- <-]|[Hne Hi]]; cbn in Hf; [|by eapply (ow_peer _ _ _ _ Ho)].
      injection Hf as <-. split; intros Hx; apply Hnew, (ow_open _ _ _ _ Ho); auto.
    + intros i j q q' g Hi Hj Hf Hf'.
      apply lookup_insert_Some in Hi as [[<- <-]|[Hne Hi]]; apply lookup_insert_Some in Hj as [[<- <-]|[Hne' Hj]]; cbn in *;
        [done|exfalso; eapply Hq; [exact Hj|congruence]|exfalso; eapply Hq; [exact Hi|congruence]|by eapply (ow_peers _ _ _ _ Ho)].
  - unfold set_peer. destruct p as [a f]. cbn in *. subst f. rewrite insert_id by done. destruct t. by eapply owns_opened.
Qed.

Lemma owns_close base l t w to p fd w' : owns base l t w → peers_ t !! to = Some p → peer_fd p = Some fd →
  opened w' = opened w ∖ {[fd]} → owns base l (set_peer to (mkPeer (peer_addr p) None) t) w'.
Proof.
  intros Ho Hp Hfd E. split; cbn.
  - intros g. rewrite E, elem_of_difference, elem_of_singleton, (ow_open _ _ _ _ Ho). split.
    + intros [[?|[?|(i&q&Hi&Hf)]] Hne]; [by left|by right; left|]. right; right. exists i, q. rewrite lookup_insert_ne; [done|].
      intros <-. congruence.
    + destruct (ow_peer _ _ _ _ Ho _ _ _ Hp Hfd) as [Hb Hl]. intros [?|[?|(i&q&Hi&Hf)]].
      * split; [by left|by intros ->].
      * split; [by right; left|congruence].
      * apply lookup_insert_Some in Hi as [[<- <-]|[Hne Hi]]; [done|]. split; [eauto 6|]. intros ->. apply Hne.
        by eapply (ow_peers _ _ _ _ Ho).
  - apply (ow_listen _ _ _ _ Ho).
  - intros i q g Hi Hf. apply lookup_insert_Some in Hi as [[<- <-]|[Hne Hi]]; [done|]. by eapply (ow_peer _ _ _ _ Ho).
  - intros i j q q' g Hi Hj Hf Hf'.
    apply lookup_insert_Some in Hi as [[<- <-]|[Hne Hi]]; [done|]. apply lookup_insert_Some in Hj as [[<- <-]|[Hne' Hj]]; [done|].
    by eapply (ow_peers _ _ _ _ Ho).
Qed.

Lemma set_peer_twice to (p q : @Peer PeerAddress) t : set_peer to p (set_peer to q t) = set_peer to p t.
Proof. unfold set_peer. cbn. by rewrite insert_insert_eq. Qed.

Lemma owns_writeFrame base l t w to p fd fuel data ok p' w' :
  owns base l (set_peer to p t) w → peer_fd p = Some fd →
  writeFrame os_send os_close fuel p fd data w = Some (ok, p', w') → owns base l (set_peer to p' t) w' ∧
  (ok = false → peer_fd p' = None).
Proof.
  intros Ho Hfd. unfold writeFrame, writeAll. destruct (writeLoop _ _ _ _ _ _) as [[[] w1]|] eqn:Ew; [| |done];
    apply writeLoop_opened in Ew; intros [= <- <- <-]; (split; [|done]).
  - by eapply owns_opened.
  - rewrite <-(set_peer_twice to _ p). eapply owns_close; [by eapply owns_opened|cbn; apply lookup_insert_eq|done|].
    apply (sl_close Hlaws).
Qed.

Lemma owns_sendFrame base l t w fuel to data ok t' w' : owns base l t w →
  sendFrame fuel to data t w = Some (ok, t', w') → owns base l t' w'.
Proof.
  intros Ho. unfold Transport.sendFrame. destruct (peers_ t !! to) as [p|] eqn:Ep.
  2:{ destruct (inboundRoutes_ t !! to) as [fd|]; [|by intros [= <- <- <-]]. unfold writeAll.
      destruct (writeLoop _ _ _ _ _ _) as [[ok1 w1]|] eqn:Ew; [|done]. cbn. intros [= <- <- <-].
      by eapply owns_opened; [|eapply writeLoop_opened]. }
  assert (∃ fd w1, (match peer_fd p with Some fd => (Some fd, w) | None => connectTo (peer_addr p) w end) = (fd, w1) ∧
    owns base l (set_peer to (mkPeer (peer_addr p) fd) t) w1) as (fd&w1&->&Ho1).
  { destruct (peer_fd p) as [fd|] eqn:Efd.
    - exists (Some fd), w. split; [done|]. destruct p as [a f]. cbn in *. subst. unfold set_peer. rewrite insert_id by done. by destruct t.
    - pose proof (connectTo_opens (peer_addr p) w) as Hc. destruct (connectTo (peer_addr p) w) as [fd w1].
      exists fd, w1. split; [done|]. by eapply owns_set. }
  cbn zeta. destruct fd as [fd|]; [|by intros [= <- <- <-]].
  destruct (writeFrame _ _ _ _ fd _ _) as [[[ok1 p1] w2]|] eqn:E1; [|done]. cbn [mbind option_bind].
  eapply owns_writeFrame in E1 as [Ho2 Hno]; [|exact Ho1|done]. destruct ok1; [by intros [= <- <- <-]|].
  pose proof (connectTo_opens (peer_addr p1) w2) as Hc. destruct (connectTo (peer_addr p1) w2) as [fd2 w3].
  assert (owns base l (set_peer to (mkPeer (peer_addr p1) fd2) t) w3) as Ho3.
  { rewrite <-(set_peer_twice to _ p1). eapply owns_set; [exact Ho2|cbn; apply lookup_insert_eq|by apply Hno|done]. }
  cbn zeta. destruct fd2 as [fd2|]; [|by intros [= <- <- <-]].
  destruct (writeFrame _ _ _ _ fd2 _ _) as [[[ok2 p2] w4]|] eqn:E2; [|done]. cbn [mbind option_bind].
  eapply owns_writeFrame in E2 as [Ho4 _]; [|exact Ho3|done]. by intros [= <- <- <-].
Qed.

Lemma owns_sendFrames base l fuel frames : ∀ t w t' w', owns base l t w →
  sendFrames fuel frames t w = Some (t', w') → owns base l t' w'.
Proof.
  induction frames as [|[to data] frames IH]; intros t w t' w' Ho; cbn [sendFrames]; [by intros [= <- <-]|].
  intros H. apply bind_Some in H as ([[ok t1] w1]&E&H). eapply IH; [|exact H]. by eapply owns_sendFrame.
Qed.

Lemma destroy_opens base l t w : owns base l t w → opened (Transport_destroy t l w) = base.
Proof.
  intros Ho. unfold Transport_destroy.
  assert (∀ ps w, ∀ fd, fd ∈ opened (foldl closePeer w ps) ↔ fd ∈ opened w ∧ ∀ p, p ∈ ps → peer_fd p.2 ≠ Some fd) as Hf.
  { clear - Hlaws. intros ps. induction ps as [|p ps IH]; intros w fd; cbn [foldl]; [split; [|by intros []]; intros; split; [done|set_solver]|].
    rewrite IH. unfold closePeer. destruct (peer_fd p.2) as [g|] eqn:E.
    - rewrite (sl_close Hlaws). set_solver.
    - set_solver. }
  apply leibniz_equiv. intros fd. rewrite Hf, (sl_close Hlaws), elem_of_difference, elem_of_singleton, (ow_open _ _ _ _ Ho). split.
  - intros [[[?|[?|(i&p&Hi&Hp)]] Hne] Hps]; [done|done|]. exfalso. apply (Hps (i, p)); [by apply elem_of_map_to_list|done].
  - intros Hb. split; [split; [by left|]|].
    + intros ->. by apply (ow_listen _ _ _ _ Ho).
    + intros [i p] Hp Hfd. apply elem_of_map_to_list in Hp. by apply (ow_peer _ _ _ _ Ho i p fd Hp) in Hfd as [? _].
Qed.

(** A transport that is constructed, told its peers, used for any sends (with
    connections that are refused, break half-way and are dialled again) and
    destroyed leaves open exactly the descriptors that were; one whose constructor
    throws does too. *)
Theorem transport_no_leak selfId listenPort peers fuel frames w :
  match Transport_new selfId listenPort w with
  | (inl _, w1) => opened w1 = opened w
  | (inr (t, listenFd, _), w1) => ∀ t' w2,
      sendFrames fuel frames (foldl (λ t p, addPeer p.1 p.2 t) t peers) w1 = Some (t', w2) →
      opened (Transport_destroy t' listenFd w2) = opened w
  end.
Proof.
  pose proof (Transport_new_opens selfId listenPort w) as Hn.
  destruct (Transport_new selfId listenPort w) as [[e|[[t l] p]] w1]; [done|]. destruct Hn as (->&Hl&E). intros t' w2 Hs.
  eapply destroy_opens, owns_sendFrames; [|exact Hs]. set (P := λ t : TransportOf, ∀ i p, peers_ t !! i = Some p → peer_fd p = None).
  assert (∀ t, P t → P (foldl (λ t p, addPeer p.1 p.2 t) t peers)) as HP.
  { clear. induction peers as [|p peers IH]; intros t Ht; [done|]. cbn [foldl]. apply IH. intros i q Hi. cbn in Hi.
    apply lookup_insert_Some in Hi as [[<- <-]|[_ Hi]]; [done|by eapply Ht]. }
  specialize (HP (mkTransport selfId ∅ ∅) ltac:(intros i q Hi; cbn in Hi; by rewrite lookup_empty in Hi)). set (t1 := foldl _ _ peers) in *. split; [|done|..].
  - intros fd. rewrite E, elem_of_union, elem_of_singleton. split; [by intros [?|?]; auto|].
    intros [?|[?|(i&q&Hi&Hf)]]; [auto|auto|]. apply HP in Hi. congruence.
  - intros i q fd Hi Hf. apply HP in Hi. congruence.
  - intros i j q q' fd Hi Hj Hf. apply HP in Hi. congruence.
Qed.

End Sockets.
