(* ===== verification/NodeMain.v ===== *)
(** * src/runtime/node_main.cpp: the node program

    Command line, peer file, storage, and the node they are wired into, up to the
    point where its threads run.  The data directory is what the two stores find
    in it. *)

From Stdlib Require Import NArith ZArith Strings.Byte Lia.
From S2P Require Import Prelude Text Messages Log RaftCore RaftSpec RaftInv Cluster DurableLog DurableState OrdMap KvStore OrderBook.
From S2P Require Import ClientService NodeRuntime Sink ThreadedCluster Transport SimNetwork FaultSchedule Numerals PeerConfig Sockets.

Local Open Scope N_scope.

Inductive FsyncPolicy := EveryDurabilityPoint | GroupCommit.

(** ** Options *)

Record NodeOptions := mkNodeOptions {
  no_id : Z;
  no_configPath : list byte;
  no_dataDir : list byte;
  no_fsync : FsyncPolicy;
  no_wait : WaitMode;
  no_orderBook : bool;
  no_batch : Z;
  no_lingerUs : Z;
}.

Definition defaultNodeOptions : NodeOptions := mkNodeOptions (-1) [] [] EveryDurabilityPoint Block false 1 200.

(** The words [--sm], [--fsync] and [--wait] take. *)
Definition sm_word (v : list byte) : option bool :=
  if decide (v = str "kv") then Some false else if decide (v = str "orderbook") then Some true else None.
Definition fsync_word (v : list byte) : option FsyncPolicy :=
  if decide (v = str "every") then Some EveryDurabilityPoint
  else if decide (v = str "group") then Some GroupCommit else None.
Definition wait_word (v : list byte) : option WaitMode :=
  if decide (v = str "block") then Some Block else if decide (v = str "spin") then Some Spin else None.

(** One flag and its value; [None] is [usage]. *)
Definition nodeFlag (a v : list byte) (o : NodeOptions) : option NodeOptions :=
  let '(mkNodeOptions i c d f w s b l) := o in
  if decide (a = str "--id") then Some (mkNodeOptions (strtol v) c d f w s b l)
  else if decide (a = str "--config") then Some (mkNodeOptions i v d f w s b l)
  else if decide (a = str "--data-dir") then Some (mkNodeOptions i c v f w s b l)
  else if decide (a = str "--sm") then s ← sm_word v; Some (mkNodeOptions i c d f w s b l)
  else if decide (a = str "--fsync") then f ← fsync_word v; Some (mkNodeOptions i c d f w s b l)
  else if decide (a = str "--batch") then Some (mkNodeOptions i c d f w s (strtol v) l)
  else if decide (a = str "--linger-us") then Some (mkNodeOptions i c d f w s b (strtol v))
  else if decide (a = str "--wait") then w ← wait_word v; Some (mkNodeOptions i c d f w s b l)
  else None.

Fixpoint nodeFlags (args : list (list byte)) (o : NodeOptions) : option NodeOptions :=
  match args with
  | [] => Some o
  | [_] => None
  | a :: v :: args => o ← nodeFlag a v o; nodeFlags args o
  end.

(** The arguments after [argv[0]]. *)
Definition nodeOptions (args : list (list byte)) : option NodeOptions :=
  o ← nodeFlags args defaultNodeOptions;
  if ((no_id o <? 0) || (65535 <? no_id o))%Z || bool_decide (no_configPath o = []) ||
     bool_decide (no_dataDir o = []) || ((no_batch o <? 1) || (no_lingerUs o <? 0))%Z
  then None else Some o.

(** *** Options read back *)

(** The arguments that ask for given options. *)
Definition nodeArgs (o : NodeOptions) : list (list byte) :=
  [str "--id"; to_string (Z.to_N (no_id o)); str "--config"; no_configPath o; str "--data-dir"; no_dataDir o;
   str "--sm"; (if no_orderBook o then str "orderbook" else str "kv");
   str "--fsync"; (match no_fsync o with EveryDurabilityPoint => str "every" | GroupCommit => str "group" end);
   str "--wait"; (match no_wait o with Block => str "block" | Spin => str "spin" end);
   str "--batch"; to_string (Z.to_N (no_batch o)); str "--linger-us"; to_string (Z.to_N (no_lingerUs o))].

Definition node_options_ok (o : NodeOptions) : Prop :=
  (0 ≤ no_id o ≤ 65535)%Z ∧ no_configPath o ≠ [] ∧ no_dataDir o ≠ [] ∧
  (1 ≤ no_batch o ≤ LONG_MAX)%Z ∧ (0 ≤ no_lingerUs o ≤ LONG_MAX)%Z.

Lemma nodeFlag_range a v o o' :
  nodeFlag a v o = Some o' → (no_batch o ≤ LONG_MAX)%Z → (no_lingerUs o ≤ LONG_MAX)%Z →
  (no_batch o' ≤ LONG_MAX)%Z ∧ (no_lingerUs o' ≤ LONG_MAX)%Z.
Proof.
  destruct o as [i c d f w s b l]. unfold nodeFlag. pose proof (strtol_range v) as Hv. intros H Hb Hl.
  repeat (destruct (decide _); [repeat (apply bind_Some in H as (?&_&H)); injection H as <-; cbn in *; lia|]). done.
Qed.

Lemma nodeFlags_range args : ∀ o o', nodeFlags args o = Some o' → (no_batch o ≤ LONG_MAX)%Z → (no_lingerUs o ≤ LONG_MAX)%Z →
  (no_batch o' ≤ LONG_MAX)%Z ∧ (no_lingerUs o' ≤ LONG_MAX)%Z.
Proof.
  assert (∀ n args, (length args ≤ n)%nat → ∀ o o', nodeFlags args o = Some o' → (no_batch o ≤ LONG_MAX)%Z →
    (no_lingerUs o ≤ LONG_MAX)%Z → (no_batch o' ≤ LONG_MAX)%Z ∧ (no_lingerUs o' ≤ LONG_MAX)%Z) as H; [|by eapply H].
  clear. induction n as [|n IH]; intros [|a [|v args]] Hn o o' H Hb Hl; cbn in Hn, H; try lia; try done; try by injection H as <-.
  apply bind_Some in H as (o1&H1&H). apply nodeFlag_range in H1 as [? ?]; [|done..]. eapply (IH args); [lia|done..].
Qed.

(** The command line is a faithful description of the options: exactly the options
    that are in range are accepted, each from the arguments that spell it out. *)
Theorem node_options_accepted o : (∃ args, nodeOptions args = Some o) ↔ node_options_ok o.
Proof.
  split.
  - intros [args H]. unfold nodeOptions in H. apply bind_Some in H as (o'&Hf&H). destruct (_ || _) eqn:E; [done|]. injection H as ->.
    rewrite !orb_false_iff, !Z.ltb_ge, !bool_decide_eq_false in E. destruct E as [[[[? ?] ?] ?] [? ?]].
    apply nodeFlags_range in Hf as [? ?]; [|done..]. unfold node_options_ok. split_and!; (done || lia).
  - intros (Hid&Hc&Hd&Hb&Hl). exists (nodeArgs o). unfold nodeOptions, nodeArgs.
    destruct o as [i c d f w s b l]. cbn [no_id no_configPath no_dataDir no_fsync no_wait no_orderBook no_batch no_lingerUs] in *.
    assert (∀ n, (0 ≤ n ≤ LONG_MAX)%Z → strtol (to_string (Z.to_N n)) = n) as Hn.
    { intros n Hr. rewrite strtol_to_string; lia. }
    match goal with |- (o ← nodeFlags ?args _; _) = _ => assert (nodeFlags args defaultNodeOptions =
      Some (mkNodeOptions (strtol (to_string (Z.to_N i))) c d f w s (strtol (to_string (Z.to_N b)))
        (strtol (to_string (Z.to_N l))))) as -> by (destruct f, w, s; reflexivity) end.
    rewrite !Hn by (unfold LONG_MAX in *; lia). cbn [mbind option_bind no_id no_configPath no_dataDir no_batch no_lingerUs].
    replace (_ || _) with false; [done|]. symmetry. rewrite !orb_false_iff, !Z.ltb_ge, !bool_decide_eq_false. split_and!; (done || lia).
Qed.


(** ** The node *)

(** What is in a data directory: the log file and the metadata names. *)
Record DataDir := mkDataDir { dd_log : list byte; dd_meta : FS }.

Definition emptyDir : DataDir := mkDataDir [] (mkFS [] (mkDir None None) [mkDir None None]).

Inductive NodeExit :=
| ExitUsage
| ExitNotInConfig
| ExitConfig (e : ConfigError)
| ExitSocket (e : SocketError)
| ExitStorage.

Definition exit_code (e : NodeExit) : Z := match e with ExitUsage => 2 | _ => 1 end.

(** The client service with [setBatching]. *)
Definition serviceFor (batch lingerUs : Z) : ClientService :=
  ClientService_new (if (1 <? batch)%Z then mkBatching (Z.to_nat batch) (Z.to_N lingerUs) else mkBatching 1 0).

Definition runtimeConfig (w : WaitMode) : NodeRuntimeConfig :=
  mkRuntimeConfig (inboundRingSize defaultRuntimeConfig) (txRingSize defaultRuntimeConfig)
    (applyRingSize defaultRuntimeConfig) w.

Definition peerIds (selfId : NodeId) (peers : PeerMap) : list NodeId := filter (λ p, p ≠ selfId) peers.*1.

Section Node.
Context {R : Type}.

Local Abbreviation NodeCore SM := (@RaftCore DurablePersistentState DurableLog SM R (@ApplySide SM ClientService)).
Local Abbreviation RuntimeOf SM := (@NodeRuntime DurablePersistentState DurableLog SM R ClientService).

(** The core, the service and the runtime, started; the service is the state of
    the runtime's callback. *)
Definition startNode {SM} `{!Rng R} (sm : SM) (selfId : NodeId) (o : NodeOptions) (peers : PeerMap)
    (persist : DurablePersistentState) (log : DurableLog) (rng : R) (now : TimePoint) : RuntimeOf SM :=
  let core : NodeCore SM := RaftCore_new selfId (peerIds selfId peers) persist log sm rng defaultConfig in
  let service := serviceFor (no_batch o) (no_lingerUs o) in
  startRuntime (runtimeConfig (no_wait o)) sm service now (NodeRuntime_new (runtimeConfig (no_wait o)) core).

Inductive Started :=
| StartedKv (n : RuntimeOf KVStateMachine)
| StartedOb (n : RuntimeOf OrderBookStateMachine).

Section Main.
Context `{!Rng R} (seedRng : N → R).
Context {W : Type}.
Context (os_socket : W → option Fd * W) (os_setsockopt : Fd → W → W) (os_bind : Fd → N → W → bool * W).
Context (os_listen : Fd → W → bool * W) (os_getsockname : Fd → W → option N * W) (os_close : Fd → W → W).

(** Files by path, data directories by path, the clock and the seed drawn.  The
    world is left as a throw leaves it: the transport destroyed. *)
Definition node_main (file : list byte → option (list byte)) (dataDir : list byte → option DataDir) (now : TimePoint)
    (seed : N) (args : list (list byte)) (w : W) : (NodeExit + @Transport PeerAddress * N * Started) * W :=
  match nodeOptions args with
  | None => (inl ExitUsage, w)
  | Some o =>
      let selfId := Z.to_N (no_id o) in
      match loadPeerConfig (no_configPath o) (file (no_configPath o)) with
      | inl e => (inl (ExitConfig e), w)
      | inr peers =>
          match om_find selfId peers with
          | None => (inl ExitNotInConfig, w)
          | Some self =>
              match Transport_new os_socket os_setsockopt os_bind os_listen os_getsockname os_close selfId (port self) w with
              | (inl e, w) => (inl (ExitSocket e), w)
              | (inr (transport, listenFd, listenPort), w) =>
                  let transport := foldl (λ t p, addPeer p.1 p.2 t) transport (filter (λ p, p.1 ≠ selfId) peers) in
                  match d ← dataDir (no_dataDir o); persist ← DurablePersistentState_open (dd_meta d);
                        Some (persist, DurableLog.replay (dd_log d)) with
                  | Some (persist, Some (Replayed log)) =>
                      let rng := seedRng seed in
                      (inr (transport, listenPort,
                         if no_orderBook o
                         then StartedOb (startNode OrderBook_init selfId o peers persist log rng now)
                         else StartedKv (startNode KVStateMachine_init selfId o peers persist log rng now)), w)
                  | _ => (inl ExitStorage, Transport_destroy os_close transport listenFd w)
                  end
              end
          end
      end
  end.

(** ** What a started node is *)

Lemma node_main_started file dataDir now seed args w t p s w' :
  node_main file dataDir now seed args w = (inr (t, p, s), w') →
  ∃ o peers d persist log, nodeOptions args = Some o ∧
    loadPeerConfig (no_configPath o) (file (no_configPath o)) = inr peers ∧
    is_Some (om_find (Z.to_N (no_id o)) peers) ∧
    dataDir (no_dataDir o) = Some d ∧ DurablePersistentState_open (dd_meta d) = Some persist ∧
    DurableLog.replay (dd_log d) = Some (Replayed log) ∧
    s = if no_orderBook o
        then StartedOb (startNode OrderBook_init (Z.to_N (no_id o)) o peers persist log (seedRng seed) now)
        else StartedKv (startNode KVStateMachine_init (Z.to_N (no_id o)) o peers persist log (seedRng seed) now).
Proof.
  unfold node_main. destruct (nodeOptions args) as [o|] eqn:Eo; [|done]. cbv zeta.
  destruct (loadPeerConfig _ _) as [e|peers] eqn:Ep; [done|]. destruct (om_find _ peers) as [self|] eqn:Es; [|done].
  destruct (Transport_new _ _ _ _ _ _ _ _ _) as [[e|[[t0 l] lp]] w1]; [done|].
  destruct (dataDir (no_dataDir o)) as [d|] eqn:Ed; [|done]. cbn [mbind option_bind].
  destruct (DurablePersistentState_open (dd_meta d)) as [persist|] eqn:Eps; [|done]. cbn [mbind option_bind].
  destruct (DurableLog.replay (dd_log d)) as [[log|]|] eqn:El; [|done..]. intros [= <- <- <- <-].
  exists o, peers, d, persist, log. by rewrite Es.
Qed.

Lemma node_main_starts file dataDir now seed args w o peers self t l p w' d persist log :
  nodeOptions args = Some o →
  loadPeerConfig (no_configPath o) (file (no_configPath o)) = inr peers →
  om_find (Z.to_N (no_id o)) peers = Some self →
  Transport_new os_socket os_setsockopt os_bind os_listen os_getsockname os_close (Z.to_N (no_id o)) (port self) w =
    (inr (t, l, p), w') →
  dataDir (no_dataDir o) = Some d → DurablePersistentState_open (dd_meta d) = Some persist →
  DurableLog.replay (dd_log d) = Some (Replayed log) →
  node_main file dataDir now seed args w =
    (inr (foldl (λ t p, addPeer p.1 p.2 t) t (filter (λ p, p.1 ≠ Z.to_N (no_id o)) peers), p,
       if no_orderBook o
       then StartedOb (startNode OrderBook_init (Z.to_N (no_id o)) o peers persist log (seedRng seed) now)
       else StartedKv (startNode KVStateMachine_init (Z.to_N (no_id o)) o peers persist log (seedRng seed) now)), w').
Proof.
  intros Ho Hp Hs Ht Hd Hper Hlog. unfold node_main. rewrite Ho. cbv zeta. rewrite Hp, Hs, Ht, Hd. cbn [mbind option_bind].
  rewrite Hper. cbn [mbind option_bind]. by rewrite Hlog.
Qed.

(** [c] is the core of the node that the program, run with arguments that name
    [id] and a peer file of that content, has brought up on a directory [d]. *)
Definition brought_up {SM} (runtimes : Started → option (RuntimeOf SM)) (text : list byte) (id : NodeId) (d : DataDir)
    (c : NodeCore SM) : Prop :=
  ∃ file dataDir now seed args w o t p s n w', nodeOptions args = Some o ∧ Z.to_N (no_id o) = id ∧
    file (no_configPath o) = Some text ∧ dataDir (no_dataDir o) = Some d ∧
    node_main file dataDir now seed args w = (inr (t, p, s), w') ∧ runtimes s = Some n ∧ core_ n = c.

Definition kv_runtime (s : Started) : option (RuntimeOf KVStateMachine) :=
  match s with StartedKv n => Some n | StartedOb _ => None end.
Definition ob_runtime (s : Started) : option (RuntimeOf OrderBookStateMachine) :=
  match s with StartedOb n => Some n | StartedKv _ => None end.

End Main.

(** The core of a started node is the cluster model's boot of a member. *)
Lemma startNode_boots {SM} `{!Rng R} (sm : SM) selfId o peers persist log rng now :
  core_ (startNode sm selfId o peers persist log rng now) =
  boot peers.*1 defaultConfig sm selfId (mkBoot persist log rng
    (Some (ApplySide_new (runtimeConfig (no_wait o)) sm (serviceFor (no_batch o) (no_lingerUs o)))) now).
Proof. done. Qed.

End Node.

(** ** A cluster brought up from one peer file *)

Section FirstStart.
Context {R : Type} `{!Rng R} (seedRng : N → R).
Context {W : Type}.
Context (os_socket : W → option Fd * W) (os_setsockopt : Fd → W → W) (os_bind : Fd → N → W → bool * W).
Context (os_listen : Fd → W → bool * W) (os_getsockname : Fd → W → option N * W) (os_close : Fd → W → W).

Local Abbreviation NodeCore SM := (@RaftCore DurablePersistentState DurableLog SM R (@ApplySide SM ClientService)).
Local Abbreviation RuntimeOf SM := (@NodeRuntime DurablePersistentState DurableLog SM R ClientService).
Local Abbreviation brought_up :=
  (brought_up seedRng os_socket os_setsockopt os_bind os_listen os_getsockname os_close).

(** On an empty directory: the first boot of a member, with an empty ring. *)
Lemma brought_up_boot {SM} (sm0 : SM) (runtimes : Started → option (RuntimeOf SM)) text peers id c :
  (∀ o persist log rng now n,
     runtimes (if no_orderBook o
               then StartedOb (startNode OrderBook_init id o peers persist log rng now)
               else StartedKv (startNode KVStateMachine_init id o peers persist log rng now)) = Some n →
     n = startNode sm0 id o peers persist log rng now) →
  (∀ path, loadPeerConfig path (Some text) = inr peers) →
  brought_up runtimes text id emptyDir c →
  ∃ b, boot_durable b = (0, None, []) ∧ threaded_boot sm0 b ∧ c = boot peers.*1 defaultConfig sm0 id b.
Proof.
  intros Hrt Hload (file&dataDir&now&seed&args&w&o&t&p&s&n&w'&Ho&Hid&Hf&Hd&Hm&Hr&Hc).
  apply node_main_started in Hm as (o'&peers'&d&persist&log&Ho'&Hp&_&Hd'&Hper&Hlog&->).
  rewrite Ho in Ho'. injection Ho' as <-. rewrite Hf, Hload in Hp. injection Hp as <-. rewrite Hd in Hd'. injection Hd' as <-.
  rewrite Hid in Hr. apply Hrt in Hr as ->. vm_compute in Hper. injection Hper as <-. vm_compute in Hlog. injection Hlog as <-.
  rewrite startNode_boots in Hc. subst c. eexists. split_and!; [| |done]; [done|]. eexists. split; [done|]. by split_and!.
Qed.

Lemma kv_runtimes id peers o persist log rng now n :
  kv_runtime (if no_orderBook o
    then StartedOb (startNode OrderBook_init id o peers persist log rng now)
    else StartedKv (startNode KVStateMachine_init id o peers persist log rng now)) = Some n →
  n = startNode KVStateMachine_init id o peers persist log rng now.
Proof. destruct (no_orderBook o); [done|]. by intros [= <-]. Qed.

Lemma ob_runtimes id peers o persist log rng now n :
  ob_runtime (if no_orderBook o
    then StartedOb (startNode OrderBook_init id o peers persist log rng now)
    else StartedKv (startNode KVStateMachine_init id o peers persist log rng now)) = Some n →
  n = startNode OrderBook_init id o peers persist log rng now.
Proof. destruct (no_orderBook o); [|done]. by intros [= <-]. Qed.

Lemma om_keys_nodup {V} (m : ordmap NodeId V) : om_ok m → NoDup m.*1.
Proof.
  induction m as [|p m IH]; [constructor|]. intros [Ha Hm]%om_ok_cons. rewrite fmap_cons. constructor; [|by apply IH].
  intros (q&E&Hq)%list_elem_of_fmap. eapply Forall_forall in Ha; [|exact Hq]. cbn in Ha. apply N.ltb_lt in Ha. lia.
Qed.

(** The first start of a key-value (or order-book) node on every member of a peer
    file. *)
Lemma first_start {SM} `{!StateMachine SM} (sm0 : SM) (runtimes : Started → option (RuntimeOf SM)) text peers
    (cores : gmap NodeId (NodeCore SM)) :
  (∀ id o persist log rng now n,
     runtimes (if no_orderBook o
               then StartedOb (startNode OrderBook_init id o peers persist log rng now)
               else StartedKv (startNode KVStateMachine_init id o peers persist log rng now)) = Some n →
     n = startNode sm0 id o peers persist log rng now) →
  (∀ path, loadPeerConfig path (Some text) = inr peers) →
  dom cores = list_to_set peers.*1 →
  (∀ id c, cores !! id = Some c → brought_up runtimes text id emptyDir c) →
  NoDup peers.*1 ∧ initial peers.*1 defaultConfig sm0 (mkCluster cores []) ∧
  threaded_cluster sm0 (mkCluster cores []).
Proof.
  intros Hrt Hload Hdom Hup. split.
  { destruct (loaded_config_ok [] text peers (Hload [])) as [H _]. by apply om_keys_nodup. }
  assert (∀ id c, cores !! id = Some c → ∃ b, boot_durable b = (0, None, []) ∧ threaded_boot sm0 b ∧
    c = boot peers.*1 defaultConfig sm0 id b) as Hb.
  { intros id c Hc. eapply brought_up_boot; [intros *; apply Hrt|done|by apply Hup]. }
  split; [split; [done|split; [done|]]|].
  - intros id c Hc. destruct (Hb id c Hc) as (b&H1&_&H2). by exists b.
  - intros id c Hc. destruct (Hb id c Hc) as (b&_&H1&->). by apply boot_threaded.
Qed.

(** C33: the program starts the cluster the safety theorems are about.  When the
    node program is run, with the same peer file and empty data directories, for
    every node that the file names, whatever the machines, ports, clocks and seeds,
    then each node's core knows exactly the other members, and together the nodes
    are an initial cluster of the model over a duplicate-free membership, its apply
    rings empty; with key-value nodes and with order-book nodes alike. *)
Theorem first_start_initial text peers (kvs : gmap NodeId (NodeCore KVStateMachine))
    (obs : gmap NodeId (NodeCore OrderBookStateMachine)) :
  (∀ path, loadPeerConfig path (Some text) = inr peers) →
  dom kvs = list_to_set peers.*1 → dom obs = list_to_set peers.*1 →
  (∀ id c, kvs !! id = Some c → brought_up kv_runtime text id emptyDir c) →
  (∀ id c, obs !! id = Some c → brought_up ob_runtime text id emptyDir c) →
  NoDup peers.*1 ∧
  (∀ id c, kvs !! id = Some c → RaftCore.peers_ c = filter (λ p, p ≠ id) peers.*1) ∧
  initial peers.*1 defaultConfig KVStateMachine_init (mkCluster kvs []) ∧
  threaded_cluster KVStateMachine_init (mkCluster kvs []) ∧
  initial peers.*1 defaultConfig OrderBook_init (mkCluster obs []) ∧
  threaded_cluster OrderBook_init (mkCluster obs []).
Proof.
  intros Hload Hk Ho Hkv Hob.
  destruct (first_start KVStateMachine_init kv_runtime text peers kvs ltac:(intros *; apply kv_runtimes) Hload Hk Hkv) as (Hnd&H1&H2).
  destruct (first_start OrderBook_init ob_runtime text peers obs ltac:(intros *; apply ob_runtimes) Hload Ho Hob) as (_&H3&H4).
  split_and!; [done| |done..]. intros id c Hc. destruct H1 as (_&_&Hb). destruct (Hb id c Hc) as (b&_&->).
  unfold boot, start, resetElectionTimer. by destruct (draw _ _ _).
Qed.

End FirstStart.

(** ** Three nodes started *)

Module NodeMainSample.

Definition sample_text : list byte := str "1 127.0.0.1 9001
2 127.0.0.1 9002
3 127.0.0.1 9003
".
Definition sample_peers : PeerMap :=
  [(1, mkPeerAddress (str "127.0.0.1") 9001); (2, mkPeerAddress (str "127.0.0.1") 9002);
   (3, mkPeerAddress (str "127.0.0.1") 9003)].

#[local] Instance sample_rng : Rng N := λ r lo hi, (lo + r mod (hi - lo + 1), r + 1).

(** A system where everything works: it gives descriptor 3 and the port asked for. *)
Definition sm_bind (fd : Fd) (p : N) (w : N) : bool * N := (true, p).
Definition sm_name (fd : Fd) (w : N) : option N * N := (Some w, w).
Definition sample_main :=
  node_main (λ s, s) (λ w : N, (Some 3, w)) (λ _ w, w) sm_bind (λ _ w, (true, w)) sm_name (λ _ w, w)
    (λ _, Some sample_text) (λ _, Some emptyDir) 5 7.

Definition sample_opts (ob : bool) (id : N) : NodeOptions :=
  mkNodeOptions (Z.of_N id) (str "peers") (str "data") EveryDurabilityPoint Block ob 1 200.

Definition kv_core (id : N) := core_ (startNode KVStateMachine_init id (sample_opts false id) sample_peers
  (mkDurablePersistentState (fs_step (dd_meta emptyDir) UnlinkTmp) 0 None) (recovered [] 0) 7 5).
Definition ob_core (id : N) := core_ (startNode OrderBook_init id (sample_opts true id) sample_peers
  (mkDurablePersistentState (fs_step (dd_meta emptyDir) UnlinkTmp) 0 None) (recovered [] 0) 7 5).

Lemma sample_started ob id self : om_find id sample_peers = Some self → ∃ t,
  nodeOptions (nodeArgs (sample_opts ob id)) = Some (sample_opts ob id) →
  sample_main (nodeArgs (sample_opts ob id)) 0 = (inr (t, port self,
    if ob then StartedOb (startNode OrderBook_init id (sample_opts ob id) sample_peers
      (mkDurablePersistentState (fs_step (dd_meta emptyDir) UnlinkTmp) 0 None) (recovered [] 0) 7 5)
    else StartedKv (startNode KVStateMachine_init id (sample_opts ob id) sample_peers
      (mkDurablePersistentState (fs_step (dd_meta emptyDir) UnlinkTmp) 0 None) (recovered [] 0) 7 5)), port self).
Proof.
  intros Hs. eexists. intros Ho. unfold sample_main.
  rewrite (node_main_starts _ _ _ _ _ _ _ _ _ _ _ _ 0 (sample_opts ob id) sample_peers self (mkTransport id ∅ ∅) 3 (port self) (port self)
    emptyDir (mkDurablePersistentState (fs_step (dd_meta emptyDir) UnlinkTmp) 0 None) (recovered [] 0));
    [cbn [no_id no_orderBook sample_opts]; by rewrite N2Z.id|done|by vm_compute|by cbn; rewrite N2Z.id|
     by cbn; rewrite N2Z.id|done|by vm_compute|by vm_compute].
Qed.

Lemma sample_up ob id self : om_find id sample_peers = Some self →
  nodeOptions (nodeArgs (sample_opts ob id)) = Some (sample_opts ob id) →
  if ob then brought_up (λ s, s) (λ w : N, (Some 3, w)) (λ _ w, w) sm_bind (λ _ w, (true, w)) sm_name (λ _ w, w)
    ob_runtime sample_text id emptyDir (ob_core id)
  else brought_up (λ s, s) (λ w : N, (Some 3, w)) (λ _ w, w) sm_bind (λ _ w, (true, w)) sm_name (λ _ w, w)
    kv_runtime sample_text id emptyDir (kv_core id).
Proof.
  intros Hs Ho. destruct (sample_started ob id self Hs) as [t Ht]. specialize (Ht Ho).
  destruct ob; exists (λ _, Some sample_text), (λ _, Some emptyDir), 5, 7; (do 8 eexists);
    (split_and!; [exact Ho|apply N2Z.id|done|done|exact Ht|done|done]).
Qed.

Lemma first_start_initial_witness :
  NoDup sample_peers.*1 ∧
  (∀ id c, (list_to_map ((λ id, (id, kv_core id)) <$> [1; 2; 3]) : gmap N _) !! id = Some c →
     RaftCore.peers_ c = filter (λ p, p ≠ id) sample_peers.*1) ∧
  initial sample_peers.*1 defaultConfig KVStateMachine_init
    (mkCluster (list_to_map ((λ id, (id, kv_core id)) <$> [1; 2; 3])) []) ∧
  threaded_cluster KVStateMachine_init (mkCluster (list_to_map ((λ id, (id, kv_core id)) <$> [1; 2; 3])) []) ∧
  initial sample_peers.*1 defaultConfig OrderBook_init
    (mkCluster (list_to_map ((λ id, (id, ob_core id)) <$> [1; 2; 3])) []) ∧
  threaded_cluster OrderBook_init (mkCluster (list_to_map ((λ id, (id, ob_core id)) <$> [1; 2; 3])) []).
Proof.
  apply (first_start_initial (λ s, s) (λ w : N, (Some 3, w)) (λ _ w, w) sm_bind (λ _ w, (true, w)) sm_name (λ _ w, w)
    sample_text sample_peers (list_to_map ((λ id, (id, kv_core id)) <$> [1; 2; 3]))
    (list_to_map ((λ id, (id, ob_core id)) <$> [1; 2; 3]))).
  - intros path. by vm_compute.
  - cbn [fmap list_fmap list_to_map fst snd foldr]. rewrite !dom_insert_L, dom_empty_L. done.
  - cbn [fmap list_fmap list_to_map fst snd foldr]. rewrite !dom_insert_L, dom_empty_L. done.
  - intros id c Hc. apply elem_of_list_to_map_2 in Hc. apply list_elem_of_fmap in Hc as (i&[= -> ->]&Hi).
    repeat (apply elem_of_cons in Hi as [->|Hi]; [refine (sample_up false _ _ _ _); [reflexivity|by vm_compute]|]). by apply not_elem_of_nil in Hi.
  - intros id c Hc. apply elem_of_list_to_map_2 in Hc. apply list_elem_of_fmap in Hc as (i&[= -> ->]&Hi).
    repeat (apply elem_of_cons in Hi as [->|Hi]; [refine (sample_up true _ _ _ _); [reflexivity|by vm_compute]|]). by apply not_elem_of_nil in Hi.
Defined.

End NodeMainSample.
