(* ===== verification/LoadGen.v ===== *)
(** * bench/bench_util.h, bench/load_gen.h, bench/load_gen.cpp: the load generators

    A generator thread drives a blocking client (KvClient.v) against the operating
    system, which is the client's parameter here too.  [os_pause] is what happens
    between two statements of a thread, other threads included: it only lets time
    pass.  Fuel [fs] and [fr] are those of the client's loops.  [openOps] is the open
    loop without its statistics: what the statistics are compared with. *)

From Stdlib Require Import NArith ZArith Strings.Byte Floats.SpecFloat Lia.
From S2P Require Import Prelude Text Messages Codec Frame Transport KvStore OrderBook KvClient SimNetwork.
From S2P Require Import Log Histogram FaultSchedule Numerals.

Local Open Scope N_scope.

(** ** bench_util.h *)

Definition mul64 (a b : N) : N := (a * b) mod two64.

(** [splitmix64]: the value and the new state. *)
Definition mix64 (state : N) : N * N :=
  let state := add64 state 11400714819323198485 in
  let z := mul64 (N.lxor state (N.shiftr state 30)) 13787848793156543929 in
  let z := mul64 (N.lxor z (N.shiftr z 27)) 10723151780598845931 in
  (N.lxor z (N.shiftr z 31), state).

Definition deriveSeed (master streamId : N) : N :=
  (mix64 (N.lxor master (mul64 streamId 15485907386658061715))).1.

Definition XorShift64_new (seed : N) : N := if seed =? 0 then 2654435769 else seed.

Definition shl64 (x k : N) : N := N.shiftl x k mod two64.

(** [next]: the value and the new state. *)
Definition XorShift64_next (state : N) : N * N :=
  let x := N.lxor state (N.shiftr state 12) in
  let x := N.lxor x (shl64 x 25) in
  let x := N.lxor x (N.shiftr x 27) in
  (mul64 x 2685821657736338717, x).

(** ** Configuration and statistics *)

Record GenConfig := mkGenConfig {
  g_threads : nat;
  g_seed : N;
  g_keys : nat;
  g_valueBytes : nat;
  g_orderBook : bool;
  g_priceBase : N;
  g_priceBand : N;
  g_qtyMax : N;
  g_ratePerSec : double;
  g_drainCapNs : N;
  g_clientIdBase : N;
  g_envelopeIdBase : N;
  g_perAttemptTimeoutMs : N;
  g_maxAttempts : nat;
}.

Definition defaultGenConfig : GenConfig :=
  mkGenConfig 4 1 64 16 false 100 10 10 (to_double 1000) 10000000000 1000000 300 1000 20.

Record GenStats := mkGenStats {
  gs_intended : LatencyHistogram;
  gs_actual : LatencyHistogram;
  gs_scheduled : N;
  gs_oks : N;
  gs_failures : N;
  gs_abandoned : N;
  gs_sumSendLatenessNs : N;
  gs_maxSendLatenessNs : N;
  gs_sends : N;
}.

Definition GenStats_new : GenStats :=
  mkGenStats LatencyHistogram_new LatencyHistogram_new 0 0 0 0 0 0 0.

(** [GenStats::merge] *)
Definition mergeStats (s o : GenStats) : GenStats :=
  mkGenStats (merge (gs_intended s) (gs_intended o)) (merge (gs_actual s) (gs_actual o))
    (add64 (gs_scheduled s) (gs_scheduled o)) (add64 (gs_oks s) (gs_oks o))
    (add64 (gs_failures s) (gs_failures o)) (add64 (gs_abandoned s) (gs_abandoned o))
    (add64 (gs_sumSendLatenessNs s) (gs_sumSendLatenessNs o))
    (N.max (gs_maxSendLatenessNs s) (gs_maxSendLatenessNs o)) (add64 (gs_sends s) (gs_sends o)).

(** [for (const auto& s : stats) merged.merge(s)] *)
Definition mergeAll (stats : list GenStats) : GenStats := foldl mergeStats GenStats_new stats.

Definition nextKeyIndex (rng : N) (keys : nat) : N * N :=
  let '(v, rng) := XorShift64_next rng in (v mod N.of_nat keys mod two32, rng).

Definition buildKeyPool (keys : nat) : list (list byte) := (λ i, str "k" ++ to_string (N.of_nat i)) <$> seq 0 keys.

(** ** What one operation adds *)

(** The windowed block of the closed loop. *)
Definition recordClosed (measureStart measureEnd t0 t1 : N) (ok : bool) (s : GenStats) : GenStats :=
  if (measureStart <=? t0) && (t1 <? measureEnd) then
    if ok
    then mkGenStats (gs_intended s) (record (gs_actual s) (sub64 t1 t0)) (add64 (gs_scheduled s) 1)
           (add64 (gs_oks s) 1) (gs_failures s) (gs_abandoned s) (gs_sumSendLatenessNs s)
           (gs_maxSendLatenessNs s) (gs_sends s)
    else mkGenStats (gs_intended s) (gs_actual s) (add64 (gs_scheduled s) 1) (gs_oks s)
           (add64 (gs_failures s) 1) (gs_abandoned s) (gs_sumSendLatenessNs s)
           (gs_maxSendLatenessNs s) (gs_sends s)
  else s.

(** The block of the open loop. *)
Definition recordOpen (measureStart intended send done : N) (ok : bool) (s : GenStats) : GenStats :=
  if measureStart <=? intended then
    let lateness := if intended <? send then sub64 send intended else 0 in
    let s := mkGenStats (gs_intended s) (gs_actual s) (add64 (gs_scheduled s) 1) (gs_oks s) (gs_failures s)
               (gs_abandoned s) (add64 (gs_sumSendLatenessNs s) lateness)
               (N.max (gs_maxSendLatenessNs s) lateness) (add64 (gs_sends s) 1) in
    if ok
    then mkGenStats (record (gs_intended s) (sub64 done intended)) (record (gs_actual s) (sub64 done send))
           (gs_scheduled s) (add64 (gs_oks s) 1) (gs_failures s) (gs_abandoned s) (gs_sumSendLatenessNs s)
           (gs_maxSendLatenessNs s) (gs_sends s)
    else mkGenStats (gs_intended s) (gs_actual s) (gs_scheduled s) (gs_oks s) (add64 (gs_failures s) 1)
           (gs_abandoned s) (gs_sumSendLatenessNs s) (gs_maxSendLatenessNs s) (gs_sends s)
  else s.

(** [local.abandoned += ...] *)
Definition abandon (measureEnd intended interval : N) (s : GenStats) : GenStats :=
  mkGenStats (gs_intended s) (gs_actual s) (gs_scheduled s) (gs_oks s) (gs_failures s)
    (add64 (gs_abandoned s) (add64 (sub64 measureEnd intended / N.max interval 1) 1))
    (gs_sumSendLatenessNs s) (gs_maxSendLatenessNs s) (gs_sends s).

(** ** The schedule of the open loop *)

Definition e9 : double := to_double 1000000000.

Definition perThreadIntervalNs (cfg : GenConfig) : double :=
  ddiv (dmul (to_double (N.of_nat (g_threads cfg))) e9) (g_ratePerSec cfg).

Definition offsetStepNs (cfg : GenConfig) : double := ddiv e9 (g_ratePerSec cfg).

(** When thread [t] is to send its request number [k]. *)
Definition intendedAt (cfg : GenConfig) (startNs : N) (t : nat) (k : N) : N :=
  let offsetNs := truncate64 (dmul (to_double (N.of_nat t)) (offsetStepNs cfg)) in
  add64 (add64 startNs offsetNs) (truncate64 (dmul (to_double k) (perThreadIntervalNs cfg))).

(** ** Statistics of the operations *)

(** An operation: when it was to be sent, when it was, when its answer was there,
    and whether it was positive. *)
Record Op := mkOp { o_intended : N; o_send : N; o_done : N; o_ok : bool }.

Definition onTime (op : Op) : Prop := o_intended op ≤ o_send op ∧ o_send op ≤ o_done op.

(** The clock had not gone round when the operation ended. *)
Definition inWidth (op : Op) : Prop := o_done op < two64.

Definition countOpen (measureStart : N) (s : GenStats) (op : Op) : GenStats :=
  recordOpen measureStart (o_intended op) (o_send op) (o_done op) (o_ok op) s.

(** The operations that are measured, and those of them that succeeded. *)
Definition measured (measureStart : N) (ops : list Op) : list Op := filter (λ op, measureStart ≤ o_intended op) ops.
Definition succeeded (ops : list Op) : list Op := filter (λ op, o_ok op = true) ops.

Definition count64 {X} (l : list X) : N := N.of_nat (length l) mod two64.

(** What statistics [s] say of the operations [ops], all of them measured; the times
    are differences of 64-bit readings of the clock ([times_exact]). *)
Record stats_of (ops : list Op) (s : GenStats) : Prop := {
  so_intended : gs_intended s = hist ((λ op, sub64 (o_done op) (o_intended op)) <$> succeeded ops);
  so_actual : gs_actual s = hist ((λ op, sub64 (o_done op) (o_send op)) <$> succeeded ops);
  so_scheduled : gs_scheduled s = count64 ops;
  so_sends : gs_sends s = count64 ops;
  so_oks : gs_oks s = count64 (succeeded ops);
  so_failures : gs_failures s = count64 (filter (λ op, o_ok op = false) ops);
  so_lateness : gs_maxSendLatenessNs s = foldr N.max 0 ((λ op, sub64 (o_send op) (o_intended op)) <$> ops);
}.

Lemma add64_mod a b : add64 (a mod two64) (b mod two64) = (a + b) mod two64.
Proof. unfold add64. by rewrite <-N.Div0.add_mod. Qed.

Lemma count64_app {X} (l l' : list X) : count64 (l ++ l') = add64 (count64 l) (count64 l').
Proof. unfold count64. by rewrite add64_mod, length_app, Nnat.Nat2N.inj_add. Qed.

Lemma count64_one {X} (x : X) : count64 [x] = 1.
Proof. done. Qed.

Lemma sub64_le a b : b ≤ a → a < two64 → sub64 a b = a - b.
Proof.
  intros Hb Ha. unfold sub64. replace (a + two64 - b) with (a - b + 1 * two64) by lia.
  rewrite N.Div0.mod_add. apply N.mod_small. lia.
Qed.

(** They are the times that passed, and the one from the intended send is no less
    than the one from the actual send. *)
Definition times_exact (op : Op) : Prop :=
  sub64 (o_done op) (o_intended op) = o_done op - o_intended op ∧ sub64 (o_done op) (o_send op) = o_done op - o_send op ∧
  sub64 (o_send op) (o_intended op) = o_send op - o_intended op ∧
  sub64 (o_done op) (o_send op) ≤ sub64 (o_done op) (o_intended op).

Lemma onTime_exact op : onTime op → inWidth op → times_exact op.
Proof.
  intros [Hi Hs] Hd. unfold inWidth in Hd. unfold times_exact. rewrite !sub64_le by lia. split_and!; (done || lia).
Qed.

Lemma foldr_max_app l l' : foldr N.max 0 (l ++ l') = N.max (foldr N.max 0 l) (foldr N.max 0 l').
Proof. induction l as [|x l IH]; cbn; [by rewrite N.max_0_l|]. rewrite IH. apply N.max_assoc. Qed.

Lemma countOpen_stats measureStart ops s op : stats_of ops s → onTime op →
  stats_of (ops ++ measured measureStart [op]) (countOpen measureStart s op).
Proof.
  intros [H1 H2 H3 H4 H5 H6 H7] [Hi Hs]. unfold countOpen, recordOpen, measured. rewrite filter_cons.
  destruct (N.leb_spec measureStart (o_intended op)) as [Hm|Hm];
    [rewrite decide_True by done|rewrite decide_False by lia; by rewrite app_nil_r].
  cbn [filter list_filter]. cbv zeta.
  assert (∀ x, N.max x (if o_intended op <? o_send op then sub64 (o_send op) (o_intended op) else 0) =
    N.max x (sub64 (o_send op) (o_intended op))) as Hl.
  { intros x. destruct (N.ltb_spec (o_intended op) (o_send op)); [done|].
    replace (o_intended op) with (o_send op) by lia. unfold sub64. by rewrite N.add_comm, N.add_sub. }
  destruct (o_ok op) eqn:Eok; split; cbn [gs_intended gs_actual gs_scheduled gs_sends gs_oks gs_failures gs_maxSendLatenessNs];
    unfold succeeded; rewrite ?filter_app, ?filter_cons, ?fmap_app, ?count64_app, ?foldr_max_app, ?Eok;
    rewrite ?decide_True by done; rewrite ?decide_False by done; cbn [fmap list_fmap filter list_filter];
    rewrite ?filter_nil, ?app_nil_r, ?count64_app, ?count64_one, ?hist_snoc, ?Hl; unfold succeeded in *; try congruence.
  - by rewrite <-count64_app, app_nil_r.
  - rewrite H7. cbn. lia.
  - by rewrite <-count64_app, app_nil_r.
  - rewrite H7. cbn. lia.
Qed.

Lemma stats_new : stats_of [] GenStats_new.
Proof. done. Qed.

Lemma measured_app m ops ops' : measured m (ops ++ ops') = measured m ops ++ measured m ops'.
Proof. apply filter_app. Qed.

Lemma countOpens_stats measureStart ops : Forall onTime ops →
  stats_of (measured measureStart ops) (foldl (countOpen measureStart) GenStats_new ops).
Proof.
  induction ops as [|op ops IH] using rev_ind; intros H; [done|].
  apply Forall_app in H as [H [Hop _]%Forall_cons].
  rewrite foldl_app, measured_app. cbn [foldl]. apply countOpen_stats; [by apply IH|done].
Qed.

(** What thread [t] counts as abandoned when it stops after [n] requests. *)
Definition owed (cfg : GenConfig) (startNs measureEnd : N) (t n : nat) : N :=
  let next := intendedAt cfg startNs t (N.of_nat n) in
  if measureEnd <=? next then 0
  else add64 (sub64 measureEnd next / N.max (truncate64 (perThreadIntervalNs cfg)) 1) 1.

Lemma countOpens_abandoned measureStart ops s :
  gs_abandoned (foldl (countOpen measureStart) s ops) = gs_abandoned s.
Proof.
  revert s. induction ops as [|op ops IH]; intros s; [done|]. cbn [foldl]. rewrite IH. unfold countOpen, recordOpen.
  destruct (_ <=? _); [|done]. by destruct (o_ok op).
Qed.

Lemma mergeAll_abandoned stats : gs_abandoned (mergeAll stats) = foldl add64 0 (gs_abandoned <$> stats).
Proof.
  unfold mergeAll. change 0 with (gs_abandoned GenStats_new). generalize GenStats_new.
  induction stats as [|x stats IH]; intros s; [done|]. apply (IH (mergeStats s x)).
Qed.

(** Merging is counting all the operations. *)
Lemma merge_stats ops ops' s s' : stats_of ops s → stats_of ops' s' → stats_of (ops ++ ops') (mergeStats s s').
Proof.
  intros [H1 H2 H3 H4 H5 H6 H7] [J1 J2 J3 J4 J5 J6 J7]. split; cbn;
    unfold succeeded in *; rewrite ?filter_app, ?fmap_app, ?count64_app, ?foldr_max_app, <-?merge_is_concat; congruence.
Qed.

Lemma mergeAll_stats opss stats : Forall2 stats_of opss stats → stats_of (concat opss) (mergeAll stats).
Proof.
  unfold mergeAll. intros H. assert (∀ ops0 s0, stats_of ops0 s0 → stats_of (ops0 ++ concat opss) (foldl mergeStats s0 stats)) as Hall.
  { induction H as [|ops s opss stats Hs _ IH]; intros ops0 s0 H0; cbn [foldl concat]; [by rewrite app_nil_r|].
    rewrite app_assoc. apply IH. by apply merge_stats. }
  by apply (Hall []).
Qed.

Lemma abandon_stats ops e i v s : stats_of ops s → stats_of ops (abandon e i v s).
Proof. by intros []. Qed.

Section Loops.
Context {W Addr : Type}.
Context (os_connect : Addr → W → ConnectResult * W).
Context (os_send : Fd → list byte → W → SendResult * W).
Context (os_poll : Fd → N → W → PollResult * W).
Context (os_read : Fd → W → ClientRead * W).
Context (os_close : Fd → W → W).
Context (os_now : W → N).
Context (os_sleep : N → W → W).
Context (os_pause : W → W).
Context (os_sleep_until : N → W → W).
Context (fs fr : nat).

Local Abbreviation Client := (@KvClient Addr).
Local Abbreviation request := (request os_connect os_send os_poll os_read os_close os_now os_sleep fs fr).

Definition nowNs (w : W) : N * W := let w := os_pause w in (os_now w, w).

(** The next command of the workload, and the generator's state after it. *)
Definition nextCommand (cfg : GenConfig) (keyPool : list (list byte)) (value : list byte) (rng : N) :
    (N → N → Command) * N :=
  if g_orderBook cfg then
    let '(a, rng) := XorShift64_next rng in
    let '(b, rng) := XorShift64_next rng in
    let '(c, rng) := XorShift64_next rng in
    let price := add64 (sub64 (g_priceBase cfg) (g_priceBand cfg)) (b mod add64 (mul64 2 (g_priceBand cfg)) 1) in
    let qty := add64 1 (c mod g_qtyMax cfg) in
    (λ cl sq, encodeObNew cl sq (ObSide_of (a mod 2)) price qty, rng)
  else
    let '(i, rng) := nextKeyIndex rng (g_keys cfg) in
    let key := default [] (keyPool !! N.to_nat i) in
    (λ cl sq, encodeKvCommand (mkKvCommand cl sq Put key value []), rng).

(** [kKvOk] and [kObOk] are both ['O']. *)
Definition issueOne (cfg : GenConfig) (keyPool : list (list byte)) (value : list byte) (rng : N) (c : Client) (w : W) :
    option (bool * N * Client * W) :=
  let '(command, rng) := nextCommand cfg keyPool value rng in
  '(r, c, w) ← request command c w;
  Some (match r with Some r => bool_decide (res_statusByte r = kKvOk) | None => false end, rng, c, w).

Section Thread.
Context (cfg : GenConfig) (keyPool : list (list byte)) (value : list byte).

(** [stop] is the flag of the failover driver, read once per turn. *)
Fixpoint closedLoop (stop : option (W → bool)) (measureStart measureEnd : N) (fuel : nat) (s : GenStats) (rng : N)
    (c : Client) (w : W) : option (GenStats * W) :=
  match fuel with
  | O => None
  | S fuel =>
      if match stop with Some f => f w | None => false end then Some (s, w)
      else
        let '(t0, w) := nowNs w in
        if negb (bool_decide (is_Some stop)) && (measureEnd <=? t0) then Some (s, w)
        else
          '(ok, rng, c, w) ← issueOne cfg keyPool value rng c w;
          let '(t1, w) := nowNs w in
          closedLoop stop measureStart measureEnd fuel (recordClosed measureStart measureEnd t0 t1 ok s) rng c w
  end.

Fixpoint openLoop (startNs measureStart measureEnd : N) (t : nat) (fuel : nat) (k : N) (s : GenStats) (rng : N)
    (c : Client) (w : W) : option (GenStats * W) :=
  match fuel with
  | O => None
  | S fuel =>
      let intended := intendedAt cfg startNs t k in
      if measureEnd <=? intended then Some (s, w)
      else
        let '(send, w) := nowNs (os_sleep_until intended w) in
        if add64 measureEnd (g_drainCapNs cfg) <? send
        then Some (abandon measureEnd intended (truncate64 (perThreadIntervalNs cfg)) s, w)
        else
          '(ok, rng, c, w) ← issueOne cfg keyPool value rng c w;
          let '(fin, w) := nowNs w in
          openLoop startNs measureStart measureEnd t fuel (add64 k 1)
            (recordOpen measureStart intended send fin ok s) rng c w
  end.

(** The operations of a thread of the open loop: what the clock says and what
    [issueOne] returns, turn by turn, whatever is counted of it. *)
Fixpoint openOps (startNs measureEnd : N) (t : nat) (fuel : nat) (k : N) (rng : N) (c : Client) (w : W) :
    option (list Op * W) :=
  match fuel with
  | O => None
  | S fuel =>
      let intended := intendedAt cfg startNs t k in
      if measureEnd <=? intended then Some ([], w)
      else
        let '(send, w) := nowNs (os_sleep_until intended w) in
        if add64 measureEnd (g_drainCapNs cfg) <? send then Some ([], w)
        else
          '(ok, rng, c, w) ← issueOne cfg keyPool value rng c w;
          let '(fin, w) := nowNs w in
          '(ops, w) ← openOps startNs measureEnd t fuel (add64 k 1) rng c w;
          Some (mkOp intended send fin ok :: ops, w)
  end.

End Thread.

(** ** The generators *)

Definition threadClient (servers : list (NodeId * Addr)) (cfg : GenConfig) (t : nat) : Client :=
  KvClient_new servers (add64 (g_clientIdBase cfg) (N.of_nat t))
    ((g_envelopeIdBase cfg + N.of_nat t) mod two16) (g_perAttemptTimeoutMs cfg) (g_maxAttempts cfg).

Definition threadRng (cfg : GenConfig) (t : nat) : N :=
  XorShift64_new (deriveSeed (g_seed cfg) (N.of_nat t)).

(** Thread [t] starts in [world t]; what the threads do to each other is in
    [os_pause] and the calls. *)
Definition runClosedLoop (servers : list (NodeId * Addr)) (cfg : GenConfig) (stop : option (W → bool))
    (measureStart measureEnd : N) (fuel : nat) (world : nat → W) : option GenStats :=
  let keyPool := buildKeyPool (g_keys cfg) in
  let value := replicate (g_valueBytes cfg) x76 in
  stats ← mapM (λ t, closedLoop cfg keyPool value stop measureStart measureEnd fuel GenStats_new (threadRng cfg t)
                       (threadClient servers cfg t) (world t)) (seq 0 (g_threads cfg));
  Some (mergeAll stats.*1).

Definition runOpenLoop (servers : list (NodeId * Addr)) (cfg : GenConfig) (startNs measureStart measureEnd : N)
    (fuel : nat) (world : nat → W) : option GenStats :=
  let keyPool := buildKeyPool (g_keys cfg) in
  let value := replicate (g_valueBytes cfg) x76 in
  stats ← mapM (λ t, openLoop cfg keyPool value startNs measureStart measureEnd t fuel 0 GenStats_new (threadRng cfg t)
                       (threadClient servers cfg t) (world t)) (seq 0 (g_threads cfg));
  Some (mergeAll stats.*1).

(** The operations of all threads. *)
Definition runOps (servers : list (NodeId * Addr)) (cfg : GenConfig) (startNs measureEnd : N)
    (fuel : nat) (world : nat → W) : option (list (list Op * W)) :=
  let keyPool := buildKeyPool (g_keys cfg) in
  let value := replicate (g_valueBytes cfg) x76 in
  mapM (λ t, openOps cfg keyPool value startNs measureEnd t fuel 0 (threadRng cfg t)
               (threadClient servers cfg t) (world t)) (seq 0 (g_threads cfg)).

(** ** What the loops do *)

(** On top of what the client asks of the system: time does not go back between
    statements, and [sleep_until] does not return early. *)
Context (interrupts arrivals : W → nat).

Local Abbreviation onwards := (onwards os_now interrupts arrivals).

Record gen_laws : Prop := {
  gl_os : os_laws os_connect os_send os_poll os_read os_close os_now os_sleep interrupts arrivals;
  gl_pause w : onwards w (os_pause w);
  gl_until t w : onwards w (os_sleep_until t w) ∧ t ≤ os_now (os_sleep_until t w);
}.

Context (Hgen : gen_laws).

Section Workload.
Context (cfg : GenConfig) (keyPool : list (list byte)) (value : list byte).

(** The fuel of the client's loops is enough for every command of the workload. *)
Definition fits (c : Client) (w : W) : Prop :=
  servers_ c ≠ [] ∧ (interrupts w + arrivals w < fr)%nat ∧
  ∀ rng cl sq, (kLengthPrefixSize +
    encodedSize (MClientRequest (mkClientRequest cl sq ((nextCommand cfg keyPool value rng).1 cl sq))) + interrupts w ≤ fs)%nat.

Lemma fits_onwards c c' w w' : fits c w → servers_ c' = servers_ c → onwards w w' → fits c' w'.
Proof.
  intros (Hs&Ht&Hf) Es (Hi&Ha&_). unfold fits. rewrite Es. split_and!; [done|lia|].
  intros rng cl sq. specialize (Hf rng cl sq). lia.
Qed.

Lemma issueOne_ends rng c w : fits c w → ∃ ok rng' c' w',
  issueOne cfg keyPool value rng c w = Some (ok, rng', c', w') ∧ fits c' w' ∧ onwards w w'.
Proof.
  intros Hfit. pose proof Hfit as (Hs&Ht&Hf). unfold issueOne. specialize (Hf rng).
  destruct (nextCommand cfg keyPool value rng) as [command rng']. cbn [fst] in Hf.
  unfold KvClient.request, call. cbv zeta. set (c1 := set_request _ _ c). set (c2 := set_request _ _ c1).
  destruct (callLoop_ends _ _ _ _ _ _ _ interrupts arrivals (gl_os Hgen) fs fr (command (clientId_ c1) (seqNo_ c1))
    (maxAttempts_ c2) c2 w) as (res&c'&w'&E&Hsc&Ho&_); [done|split; [|done]|].
  { specialize (Hf (clientId_ c2) (seqNo_ c2)). exact Hf. }
  rewrite E. cbn [mbind option_bind]. eexists _, _, _, _. split; [done|]. split; [|done].
  destruct Hsc as (Es&_). by apply (fits_onwards c c' w w').
Qed.

(** How the loop of thread [t] ended after [n] operations, in world [w]. *)
Definition endedAt (startNs measureEnd : N) (t n : nat) (s s' : GenStats) (w : W) : Prop :=
  let next := intendedAt cfg startNs t (N.of_nat n) in
  measureEnd ≤ next ∧ s' = s ∨
  next < measureEnd ∧ s' = abandon measureEnd next (truncate64 (perThreadIntervalNs cfg)) s ∧
    add64 measureEnd (g_drainCapNs cfg) < os_now w.

Lemma openLoop_ops startNs measureStart measureEnd t fuel n s rng c w : fits c w →
  N.of_nat (n + fuel) < two64 →
  (∃ m, (n ≤ m < n + fuel)%nat ∧ measureEnd ≤ intendedAt cfg startNs t (N.of_nat m)) →
  ∃ ops s' w', openOps cfg keyPool value startNs measureEnd t fuel (N.of_nat n) rng c w = Some (ops, w') ∧
    openLoop cfg keyPool value startNs measureStart measureEnd t fuel (N.of_nat n) s rng c w = Some (s', w') ∧
    (∀ j op, ops !! j = Some op → onTime op ∧ o_intended op = intendedAt cfg startNs t (N.of_nat (n + j)) ∧
       o_intended op < measureEnd) ∧
    endedAt startNs measureEnd t (n + length ops) (foldl (countOpen measureStart) s ops) s' w'.
Proof.
  revert n s rng c w. induction fuel as [|fuel IH]; intros n s rng c w Hfit Hsmall (m&Hm&Hend); [lia|].
  cbn [openLoop openOps]. set (intended := intendedAt cfg startNs t (N.of_nat n)).
  destruct (N.leb_spec measureEnd intended) as [Hle|Hlt].
  { exists [], s, w. split_and!; [done|done|done|]. left. by rewrite Nat.add_0_r. }
  destruct (gl_until Hgen intended w) as [Ho1 Ht1]. set (w1 := os_sleep_until intended w) in *.
  unfold nowNs. pose proof (gl_pause Hgen w1) as Ho2. set (w2 := os_pause w1) in *.
  destruct (N.ltb_spec (add64 measureEnd (g_drainCapNs cfg)) (os_now w2)) as [Hcap|Hcap].
  { eexists [], _, w2. split_and!; [done|done|done|]. right. rewrite Nat.add_0_r. by split_and!. }
  destruct (issueOne_ends rng c w2) as (ok&rng'&c'&w3&->&Hfit'&Ho3).
  { eapply fits_onwards; [exact Hfit|done|]. by eapply onwards_trans. }
  cbn [mbind option_bind]. pose proof (gl_pause Hgen w3) as Ho4. set (w4 := os_pause w3) in *.
  rewrite (add64_small (N.of_nat n) 1) by lia. replace (N.of_nat n + 1) with (N.of_nat (S n)) by lia.
  set (op := mkOp intended (os_now w2) (os_now w4) ok).
  destruct (IH (S n) (countOpen measureStart s op) rng' c' w4) as (ops&s'&w'&Eo&E&Hops&Hfin).
  { eapply fits_onwards; [exact Hfit'|done|done]. }
  { lia. }
  { destruct (decide (m = n)) as [->|]; [|by exists m; split; [lia|]]. fold intended in Hend. lia. }
  exists (op :: ops), s', w'. split_and!; [by rewrite Eo|exact E| |].
  - intros [|j] op' Hj; cbn in Hj.
    + injection Hj as <-. rewrite Nat.add_0_r. split_and!; [|done|done]. unfold onTime. cbn.
      destruct Ho2 as (_&_&?), Ho3 as (_&_&?), Ho4 as (_&_&?). split; lia.
    + replace (n + S j)%nat with (S n + j)%nat by lia. by apply Hops.
  - cbn [length foldl]. by replace (n + S (length ops))%nat with (S n + length ops)%nat by lia.
Qed.

Lemma ended_owed startNs measureStart measureEnd t ops s w :
  endedAt startNs measureEnd t (length ops) (foldl (countOpen measureStart) GenStats_new ops) s w →
  gs_abandoned s = owed cfg startNs measureEnd t (length ops).
Proof.
  unfold owed. intros [[Hle ->]|(Hlt&->&_)].
  - rewrite (proj2 (N.leb_le _ _) Hle). apply countOpens_abandoned.
  - rewrite (proj2 (N.leb_gt _ _) Hlt). cbn [abandon gs_abandoned]. rewrite countOpens_abandoned. cbn [gs_abandoned GenStats_new].
    unfold add64 at 1. rewrite N.add_0_l. apply N.mod_small, N.mod_upper_bound. done.
Qed.

End Workload.

(** The threads of a run together. *)
Lemma threads_ops (f : nat → option (GenStats * W)) (g : nat → option (list Op * W))
    (Q : nat → list Op → GenStats → W → Prop) n0 n :
  (∀ t, (n0 ≤ t < n0 + n)%nat → ∃ ops s w, g t = Some (ops, w) ∧ f t = Some (s, w) ∧ Q t ops s w) →
  ∃ opss stats, mapM g (seq n0 n) = Some opss ∧ mapM f (seq n0 n) = Some stats ∧ length opss = n ∧
    ∀ t ops w, opss !! t = Some (ops, w) → ∃ s, stats !! t = Some (s, w) ∧ Q (n0 + t)%nat ops s w.
Proof.
  revert n0. induction n as [|n IH]; intros n0 H; [by exists [], []|].
  destruct (H n0 ltac:(lia)) as (ops&s&w&Eg&E&HQ). destruct (IH (S n0)) as (opss&stats&Em&Em'&El&Hq).
  { intros t Ht. apply H. lia. }
  exists ((ops, w) :: opss), ((s, w) :: stats). cbn [seq mapM]. rewrite E, Eg. cbn [mbind option_bind]. rewrite Em, Em'. cbn.
  split_and!; [done|done|by rewrite El|]. intros [|t] ops' w' Ht; cbn in Ht.
  - injection Ht as <- <-. exists s. by rewrite Nat.add_0_r.
  - destruct (Hq t ops' w' Ht) as [s' Hs']. exists s'. by replace (n0 + S t)%nat with (S n0 + t)%nat by lia.
Qed.

(** The statistics of the threads' operations, merged. *)
Lemma merged_stats measureStart opss stats :
  length stats = length opss →
  (∀ t ops w, opss !! t = Some (ops, w) → ∃ s, stats !! t = Some (s, w) ∧ stats_of (measured measureStart ops) s) →
  stats_of (measured measureStart (concat opss.*1)) (mergeAll (stats : list (GenStats * W)).*1).
Proof.
  intros El H. assert (∀ l, measured measureStart (concat l) = concat (measured measureStart <$> l)) as Hc.
  { induction l as [|x l IH]; [done|]. rewrite fmap_cons. cbn [concat]. by rewrite measured_app, IH. }
  rewrite Hc, <-list_fmap_compose. apply mergeAll_stats, Forall2_fmap, Forall2_same_length_lookup. split; [done|].
  intros t [ops w] [s w'] Ho Hs. destruct (H t ops w Ho) as (s'&Es&Hst). rewrite Hs in Es. by injection Es as <- _.
Qed.

(** C34: the open loop omits nothing.  On a system whose clock does not go back, a
    run of the generator whose schedule reaches the end of the window (after fewer
    than [fuel] requests per thread) ends.  Take the operations of its threads as they
    are, the clock's readings around each call of [issueOne] and what that call
    returned ([runOps]).  Every thread issues the requests of its schedule in order
    from the first, none skipped, each no earlier than it was meant to be, and stops
    short of the end of the window only past the drain cap; the number reported as
    abandoned is what the threads that did counted as owed.  The merged statistics are
    exactly those of the requests meant to be sent within the window: how many there
    were, succeeded and failed, the largest delay of a send, and in the first
    histogram, for each that succeeded, the time from when it was meant to be sent to
    its answer, in the second the time from when it was sent; unless the 64-bit clock
    went round in between, these are the times that passed and the former is never
    less than the latter. *)
Theorem open_loop_no_omission servers cfg startNs measureStart measureEnd fuel world :
  N.of_nat fuel < two64 →
  (∀ t, (t < g_threads cfg)%nat →
    fits cfg (buildKeyPool (g_keys cfg)) (replicate (g_valueBytes cfg) x76) (threadClient servers cfg t) (world t) ∧
    ∃ m, (m < fuel)%nat ∧ measureEnd ≤ intendedAt cfg startNs t (N.of_nat m)) →
  ∃ opss stats, runOps servers cfg startNs measureEnd fuel world = Some opss ∧
    runOpenLoop servers cfg startNs measureStart measureEnd fuel world = Some stats ∧
    length opss = g_threads cfg ∧
    (∀ t ops w j op, opss !! t = Some (ops, w) → ops !! j = Some op →
       onTime op ∧ (inWidth op → times_exact op) ∧
       o_intended op = intendedAt cfg startNs t (N.of_nat j) ∧ o_intended op < measureEnd) ∧
    (∀ t ops w, opss !! t = Some (ops, w) → intendedAt cfg startNs t (N.of_nat (length ops)) < measureEnd →
       add64 measureEnd (g_drainCapNs cfg) < os_now w) ∧
    gs_abandoned stats = foldl add64 0 (imap (λ t ops, owed cfg startNs measureEnd t (length ops.1)) opss) ∧
    stats_of (measured measureStart (concat opss.*1)) stats.
Proof.
  intros Hfuel Hthreads. unfold runOpenLoop, runOps. cbv zeta.
  set (Q := λ t ops s w, (∀ j op, ops !! j = Some op → onTime op ∧ o_intended op = intendedAt cfg startNs t (N.of_nat j) ∧
    o_intended op < measureEnd) ∧ endedAt cfg startNs measureEnd t (length ops)
    (foldl (countOpen measureStart) GenStats_new ops) s w).
  match goal with |- context [mapM ?g _ = Some _ ∧ (_ ← mapM ?f _; _) = _ ∧ _] =>
    destruct (threads_ops f g Q 0 (g_threads cfg)) as (opss&stats&Eo&Em&El&Hq) end.
  { intros t Ht. destruct (Hthreads t ltac:(lia)) as (Hfit&m&Hm&Hend).
    destruct (openLoop_ops cfg _ _ startNs measureStart measureEnd t fuel 0 GenStats_new (threadRng cfg t) _ _ Hfit
      ltac:(lia) ltac:(by exists m; split; [lia|])) as (ops&s&w&Eo&E&H). by exists ops, s, w. }
  rewrite Em. cbn [mbind option_bind]. exists opss, (mergeAll stats.*1).
  assert (length stats = length opss) as Elen by (rewrite El; apply length_mapM in Em; by rewrite length_seq in Em).
  split_and!; [done|done|done| | | |].
  - intros t ops w j op Ht Hj. destruct (Hq t ops w Ht) as (s&_&H1&_). destruct (H1 j op Hj) as (?&?&?).
    split_and!; [done|by apply onTime_exact|done|done].
  - intros t ops w Ht Hlt. destruct (Hq t ops w Ht) as (s&_&_&[[Hle _]|(_&_&Hcap)]); [cbn in Hle; lia|done].
  - rewrite mergeAll_abandoned. f_equal. apply list_eq_same_length with (length opss);
      [by rewrite ?length_imap, ?length_fmap..|]. intros t x y Ht Hx Hy.
    rewrite list_lookup_imap in Hy. destruct (opss !! t) as [[ops w]|] eqn:Eops; [|done]. injection Hy as <-.
    destruct (Hq t ops w Eops) as (s&Es&_&H2). rewrite !list_lookup_fmap, Es in Hx. injection Hx as <-. by eapply ended_owed.
  - apply merged_stats; [done|]. intros t ops w Ho. destruct (Hq t ops w Ho) as (s&Es&H1&H2). exists s. split; [done|].
    assert (Forall onTime ops) as Hon by (apply Forall_lookup; intros j op Hj; by apply H1 in Hj as [? _]).
    pose proof (countOpens_stats measureStart ops Hon) as Hst. destruct H2 as [[_ ->]|(_&->&_)]; [done|by apply abandon_stats].
Qed.

End Loops.

(** ** A run *)

Module LoadGenSample.
Import KvClientSample.

Definition sw_until (t : N) (w : World) : World := mkWorld (N.max (sw_now w) t) (sw_fd w) (sw_in w) (sw_out w).

Lemma sw_gen_laws :
  gen_laws sw_connect sw_send sw_poll sw_read sw_close sw_now sw_sleep (λ w, w) sw_until (λ _, 0%nat) sw_arrivals.
Proof. split; [apply sw_laws|..]; unfold onwards, sw_arrivals; cbn; intros; repeat split; lia. Qed.

(** Two threads, a request each every millisecond, for three milliseconds of an
    order-book workload.  One server answers the first request of each thread; after
    that each attempt gives up after 1 ms, and the requests fall behind. *)
Definition sample : GenConfig :=
  mkGenConfig 2 1 4 16 true 100 10 10 (to_double 2000) 10000000000 1000000 300 1 2.

Definition sample_world : World :=
  mkWorld 0 3 [(λ f, (3, f)) <$> frameFor 1 300 (MClientReply (mkClientReply CsOk 1 [kObOk]))] [].

Definition sample_run : option GenStats :=
  runOpenLoop sw_connect sw_send sw_poll sw_read sw_close sw_now sw_sleep (λ w, w) sw_until 200 100
    [(1, tt)] sample 0 0 4000000 10 (λ _, sample_world).

Definition sample_ops : option (list (list Op * World)) :=
  runOps sw_connect sw_send sw_poll sw_read sw_close sw_now sw_sleep (λ w, w) sw_until 200 100
    [(1, tt)] sample 0 4000000 10 (λ _, sample_world).

Lemma sample_fits t : fits 200 100 (λ _, 0%nat) sw_arrivals sample (buildKeyPool (g_keys sample))
  (replicate (g_valueBytes sample) x76) (threadClient [(1, tt)] sample t) sample_world.
Proof.
  split_and!; [done|by apply Nat.ltb_lt; vm_compute|]. intros rng cl sq. unfold nextCommand. cbn [g_orderBook sample].
  destruct (XorShift64_next rng) as [a r1]. destruct (XorShift64_next r1) as [b r2]. destruct (XorShift64_next r2) as [c r3].
  cbn [fst]. set (price := add64 _ (b mod _)). set (qty := add64 1 _). set (side := ObSide_of _).
  change (encodedSize _) with (encodedSize (MClientRequest (mkClientRequest cl sq (replicate 34 x00)))). cbn. lia.
Qed.

Lemma open_loop_no_omission_witness :
  (∃ ops1 w1 ops2 w2, sample_ops = Some [(ops1, w1); (ops2, w2)] ∧ length ops1 = 4%nat ∧
     (ops1 !! 0%nat = Some (mkOp 0 0 1 true))) ∧
  ∃ opss stats, sample_ops = Some opss ∧ sample_run = Some stats ∧ length opss = 2%nat ∧
    (∀ t ops w j op, opss !! t = Some (ops, w) → ops !! j = Some op →
       onTime op ∧ (inWidth op → times_exact op) ∧
       o_intended op = intendedAt sample 0 t (N.of_nat j) ∧ o_intended op < 4000000) ∧
    (∀ t ops w, opss !! t = Some (ops, w) → intendedAt sample 0 t (N.of_nat (length ops)) < 4000000 →
       add64 4000000 (g_drainCapNs sample) < sw_now w) ∧
    gs_abandoned stats = foldl add64 0 (imap (λ t ops, owed sample 0 4000000 t (length ops.1)) opss) ∧
    stats_of (measured 0 (concat opss.*1)) stats.
Proof.
  split; [eexists _, _, _, _; split; [vm_compute; reflexivity|done]|].
  apply (open_loop_no_omission sw_connect sw_send sw_poll sw_read sw_close sw_now sw_sleep (λ w, w) sw_until
    200 100 (λ _, 0%nat) sw_arrivals sw_gen_laws [(1, tt)] sample 0 0 4000000 10 (λ _, sample_world)); [done|].
  intros t Ht. split; [apply sample_fits|]. exists 8%nat. split; [lia|]. change (g_threads sample) with 2%nat in Ht.
  destruct t as [|[|t]]; [by vm_compute..|lia].
Defined.

End LoadGenSample.
