(* ===== verification/BenchMonitor.v ===== *)
(** * bench/bench_cluster.h, bench/bench_cluster.cpp: the leadership monitor

    The nodes' Raft threads record role changes in one array, without locks; the
    benchmark judges a run by what it finds there.  [record] is a state machine
    with one step per access to shared memory, and the threads' steps interleave
    freely; the entry of a reserved slot is written in one step, since nobody
    reads it before its flag is set. *)

From Stdlib Require Import NArith Strings.Byte Lia.
From stdpp Require Import functions.
From S2P Require Import Prelude Messages RaftCore.

Local Open Scope N_scope.

Record LeaderEvent := mkLeaderEvent { ev_tNs : N; ev_node : NodeId; ev_term : Term; ev_role : N }.

#[export] Instance LeaderEvent_eq_dec : EqDecision LeaderEvent.
Proof. solve_decision. Defined.

(** The value of [Role] the observer casts to [uint8_t]. *)
Definition Role_val (r : Role) : N := match r with Follower => 0 | Candidate => 1 | Leader => 2 end.
Definition kLeader : N := Role_val Leader.

Definition kCap : nat := N.to_nat 8192.

Record LeadershipMonitor := mkMonitor {
  events_ : nat → LeaderEvent;
  ready_ : nat → bool;
  count_ : nat;
  latestLeaderPacked_ : N;
}.

Definition Monitor_new : LeadershipMonitor := mkMonitor (λ _, mkLeaderEvent 0 0 0 0) (λ _, false) 0 0.

(** ** [record] *)

(** Where a thread is in [record], with its locals. *)
Inductive RecordPc :=
| RecReserve (node : NodeId) (term : Term) (role : N)
| RecFill (idx : nat) (node : NodeId) (term : Term) (role : N)
| RecPublish (idx : nat) (node : NodeId) (term : Term) (role : N)
| RecLoad (packed : N)
| RecCas (packed cur : N)
| RecDone.

Definition pack (term : Term) (node : NodeId) : N := N.lor (N.shiftl term 16 mod two64) node.

(** One step; [now] is what the clock says and [weak] whether the weak exchange
    fails although the value is as expected. *)
Definition recordStep (now : N) (weak : bool) (pc : RecordPc) (m : LeadershipMonitor) : RecordPc * LeadershipMonitor :=
  match pc with
  | RecReserve node term role =>
      let idx := count_ m in
      (if (kCap <=? idx)%nat then RecDone else RecFill idx node term role,
       mkMonitor (events_ m) (ready_ m) (S idx) (latestLeaderPacked_ m))
  | RecFill idx node term role =>
      (RecPublish idx node term role,
       mkMonitor (<[idx := mkLeaderEvent now node term role]> (events_ m)) (ready_ m) (count_ m) (latestLeaderPacked_ m))
  | RecPublish idx node term role =>
      (if role =? kLeader then RecLoad (pack term node) else RecDone,
       mkMonitor (events_ m) (<[idx := true]> (ready_ m)) (count_ m) (latestLeaderPacked_ m))
  | RecLoad packed => (RecCas packed (latestLeaderPacked_ m), m)
  | RecCas packed cur =>
      if cur <? packed then
        if (latestLeaderPacked_ m =? cur) && negb weak
        then (RecDone, mkMonitor (events_ m) (ready_ m) (count_ m) packed)
        else (RecCas packed (latestLeaderPacked_ m), m)
      else (RecDone, m)
  | RecDone => (RecDone, m)
  end.

(** ** Readers *)

Definition snapshot (m : LeadershipMonitor) : list LeaderEvent :=
  events_ m <$> filter (λ i, ready_ m i = true) (seq 0 (count_ m `min` kCap)).

(** The two readers that walk a snapshot. *)
Definition electionsAmong (fromNs toNs : N) (es : list LeaderEvent) : nat :=
  length (filter (λ e, ev_role e = kLeader ∧ fromNs ≤ ev_tNs e < toNs) es).

Definition maxTermAmong (tNs : N) (es : list LeaderEvent) : Term :=
  foldl (λ t e, if (ev_tNs e <=? tNs) && (t <? ev_term e) then ev_term e else t) 0 es.

Definition electionsIn (fromNs toNs : N) (m : LeadershipMonitor) : nat := electionsAmong fromNs toNs (snapshot m).

Definition maxTermAt (tNs : N) (m : LeadershipMonitor) : Term := maxTermAmong tNs (snapshot m).

(** A snapshot taken while others record: the count it loads, and the monitor as it
    is when the turn of each slot comes. *)
Record Reading := mkReading { rg_count : nat; rg_at : nat → LeadershipMonitor }.

Definition snapshotOf (r : Reading) : list LeaderEvent :=
  (λ i, events_ (rg_at r i) i) <$> filter (λ i, ready_ (rg_at r i) i = true) (seq 0 (rg_count r `min` kCap)).

(** Nobody records meanwhile. *)
Definition still (m : LeadershipMonitor) : Reading := mkReading (count_ m) (λ _, m).

Lemma snapshotOf_still m : snapshotOf (still m) = snapshot m.
Proof. done. Qed.

Definition maxTerm (m : LeadershipMonitor) : Term := maxTermAt (two64 - 1) m.

Definition latestLeader (m : LeadershipMonitor) : NodeId := N.land (latestLeaderPacked_ m) 65535.

(** ** Threads *)

(** A call of [record], with the time it began. *)
Record Asked := mkAsked { ak_begin : N; ak_node : NodeId; ak_term : Term; ak_role : N }.

Record MonState := mkMonState {
  ms_mon : LeadershipMonitor;
  ms_threads : gmap nat (Asked * RecordPc);
  ms_clock : N;
  ms_asked : list Asked;           (* calls that have taken a slot, in that order *)
}.

Inductive MonAct :=
| MTick (d : N)
| MBegin (tid : nat) (node : NodeId) (term : Term) (role : N)
| MStep (tid : nat) (weak : bool).

Definition idle (p : option (Asked * RecordPc)) : bool := match p with None | Some (_, RecDone) => true | _ => false end.

Definition mact (s : MonState) (x : MonAct) : MonState :=
  match x with
  | MTick d => mkMonState (ms_mon s) (ms_threads s) (ms_clock s + d) (ms_asked s)
  | MBegin tid node term role =>
      if idle (ms_threads s !! tid)
      then mkMonState (ms_mon s)
             (<[tid := (mkAsked (ms_clock s) node term role, RecReserve node term role)]> (ms_threads s))
             (ms_clock s) (ms_asked s)
      else s
  | MStep tid weak =>
      match ms_threads s !! tid with
      | Some (a, pc) =>
          let '(pc', m) := recordStep (ms_clock s) weak pc (ms_mon s) in
          mkMonState m (<[tid := (a, pc')]> (ms_threads s)) (ms_clock s)
            (match pc with RecReserve _ _ _ => ms_asked s ++ [a] | _ => ms_asked s end)
      | None => s
      end
  end.

Definition mon_init : MonState := mkMonState Monitor_new ∅ 0 [].
Definition mon_run (acts : list MonAct) : MonState := foldl mact mon_init acts.

(** Nobody is inside [record]. *)
Definition quiet (s : MonState) : Prop := ∀ tid p, ms_threads s !! tid = Some p → p.2 = RecDone.

(** The entry of a call, stamped while the call was going on. *)
Definition entry_for (a : Asked) (clock : N) (e : LeaderEvent) : Prop :=
  ev_node e = ak_node a ∧ ev_term e = ak_term a ∧ ev_role e = ak_role a ∧ ak_begin a ≤ ev_tNs e ≤ clock.

Definition packs (l : list Asked) : list N :=
  (λ a, pack (ak_term a) (ak_node a)) <$> filter (λ a, ak_role a = kLeader) (take kCap l).

(** *** What holds between steps *)

(** The slot a thread holds. *)
Definition slot_of (pc : RecordPc) : option nat :=
  match pc with RecFill i _ _ _ | RecPublish i _ _ _ => Some i | _ => None end.

(** The packed word a thread is still to offer. *)
Definition offering (pc : RecordPc) : option N := match pc with RecLoad p | RecCas p _ => Some p | _ => None end.

(** A thread's locals belong to its call. *)
Definition thread_ok (s : MonState) (a : Asked) (pc : RecordPc) : Prop :=
  ak_begin a ≤ ms_clock s ∧
  match pc with
  | RecReserve n t r => n = ak_node a ∧ t = ak_term a ∧ r = ak_role a
  | RecFill i n t r | RecPublish i n t r =>
      n = ak_node a ∧ t = ak_term a ∧ r = ak_role a ∧ ms_asked s !! i = Some a ∧ (i < kCap)%nat ∧
      ready_ (ms_mon s) i = false
  | RecLoad p => p ∈ packs (ms_asked s)
  | RecCas p cur => p ∈ packs (ms_asked s) ∧ cur ≤ latestLeaderPacked_ (ms_mon s)
  | RecDone => True
  end ∧
  match pc with
  | RecPublish i _ _ _ => entry_for a (ms_clock s) (events_ (ms_mon s) i)
  | _ => True
  end.

Record mon_ok (s : MonState) : Prop := {
  mo_count : count_ (ms_mon s) = length (ms_asked s);
  mo_fresh i : ready_ (ms_mon s) i = true → (i < length (ms_asked s))%nat;
  mo_thread tid a pc : ms_threads s !! tid = Some (a, pc) → thread_ok s a pc;
  mo_unique t1 t2 p1 p2 i : ms_threads s !! t1 = Some p1 → ms_threads s !! t2 = Some p2 →
    slot_of p1.2 = Some i → slot_of p2.2 = Some i → t1 = t2;
  mo_slot i a : ms_asked s !! i = Some a → (i < kCap)%nat →
    (ready_ (ms_mon s) i = true ∧ entry_for a (ms_clock s) (events_ (ms_mon s) i)) ∨
    ∃ tid p, ms_threads s !! tid = Some p ∧ slot_of p.2 = Some i;
  mo_latest : latestLeaderPacked_ (ms_mon s) = 0 ∨ latestLeaderPacked_ (ms_mon s) ∈ packs (ms_asked s);
  mo_offer i a : ms_asked s !! i = Some a → (i < kCap)%nat → ak_role a = kLeader → ready_ (ms_mon s) i = true →
    pack (ak_term a) (ak_node a) ≤ latestLeaderPacked_ (ms_mon s) ∨
    ∃ tid p, ms_threads s !! tid = Some p ∧ offering p.2 = Some (pack (ak_term a) (ak_node a));
}.

Lemma mon_init_ok : mon_ok mon_init.
Proof. split; cbn; try done; [..|by left]; intros * H; by rewrite lookup_empty in H. Qed.

Lemma packs_elem i a l : l !! i = Some a → (i < kCap)%nat → ak_role a = kLeader → pack (ak_term a) (ak_node a) ∈ packs l.
Proof.
  intros Hi Hc Hr. unfold packs. apply list_elem_of_fmap. exists a. split; [done|]. apply list_elem_of_filter.
  split; [done|]. apply list_elem_of_lookup. exists i. by rewrite lookup_take_lt.
Qed.

Lemma packs_app l l' : packs l ⊆ packs (l ++ l').
Proof.
  unfold packs. intros p (a&->&[Hr Ha]%list_elem_of_filter)%list_elem_of_fmap. apply list_elem_of_fmap. exists a. split; [done|].
  apply list_elem_of_filter. split; [done|]. rewrite take_app. apply elem_of_app. by left.
Qed.

(** *** Every step keeps it *)

Lemma thread_ok_mono s s' a pc : thread_ok s a pc → ms_clock s ≤ ms_clock s' →
  (∀ i x, ms_asked s !! i = Some x → ms_asked s' !! i = Some x) → packs (ms_asked s) ⊆ packs (ms_asked s') →
  latestLeaderPacked_ (ms_mon s) ≤ latestLeaderPacked_ (ms_mon s') →
  (∀ i, slot_of pc = Some i → ready_ (ms_mon s') i = ready_ (ms_mon s) i ∧ events_ (ms_mon s') i = events_ (ms_mon s) i) →
  thread_ok s' a pc.
Proof.
  intros (Hb&Hpc&He) Hclk Hask Hpk Hlat Hslot. split; [lia|]. destruct pc; cbn [slot_of] in *.
  - done.
  - destruct Hpc as (?&?&?&?&?&?). destruct (Hslot _ eq_refl) as [-> _]. split_and!; try done. by apply Hask.
  - destruct Hpc as (?&?&?&?&?&?). destruct (Hslot _ eq_refl) as [-> ->]. split; [|destruct He as (?&?&?&?&?); split_and!; (done || lia)].
    split_and!; try done. by apply Hask.
  - split; [|done]. by apply Hpk.
  - destruct Hpc. split; [|done]. split; [by apply Hpk|lia].
  - done.
Qed.

Lemma entry_for_mono a clock clock' e : entry_for a clock e → clock ≤ clock' → entry_for a clock' e.
Proof. intros (?&?&?&?&?) ?. unfold entry_for. split_and!; (done || lia). Qed.

Lemma clock_tick_ok s d : mon_ok s → mon_ok (mact s (MTick d)).
Proof.
  intros [H1 H0 H2 H3 H4 H5 H6]. split; cbn; try done.
  - intros tid a pc Hp. eapply thread_ok_mono; [by eapply H2|cbn; lia|done..].
  - intros i a Ha Hi. destruct (H4 i a Ha Hi) as [[? ?]|?]; [left|by right]. split; [done|]. eapply entry_for_mono; [done|lia].
Qed.

Lemma idle_slot p : idle (Some p) = true → slot_of p.2 = None ∧ offering p.2 = None.
Proof. destruct p as [a []]; done. Qed.

Lemma begin_ok s tid node term role : mon_ok s → mon_ok (mact s (MBegin tid node term role)).
Proof.
  intros Hok. pose proof Hok as [H1 H0 H2 H3 H4 H5 H6]. cbn [mact]. destruct (idle _) eqn:Eid; [|done]. split; cbn; try done.
  - intros tid' a pc Hp. apply lookup_insert_Some in Hp as [[<- [= <- <-]]|[_ Hp]]; [by split; cbn|].
    eapply thread_ok_mono; [by eapply H2|done..].
  - intros t1 t2 p1 p2 i Hp1 Hp2 Hs1 Hs2.
    apply lookup_insert_Some in Hp1 as [[<- <-]|[? Hp1]]; [done|]. apply lookup_insert_Some in Hp2 as [[<- <-]|[? Hp2]]; [done|].
    by eapply H3.
  - intros i a Ha Hi. destruct (H4 i a Ha Hi) as [?|(t&p&Hp&Hs)]; [by left|]. right. exists t, p. split; [|done].
    rewrite lookup_insert_ne; [done|]. intros <-. rewrite Hp in Eid. apply idle_slot in Eid as [? _]. congruence.
  - intros i a Ha Hi Hr Hrd. destruct (H6 i a Ha Hi Hr Hrd) as [?|(t&p&Hp&Hs)]; [by left|]. right. exists t, p. split; [|done].
    rewrite lookup_insert_ne; [done|]. intros <-. rewrite Hp in Eid. apply idle_slot in Eid as [_ ?]. congruence.
Qed.

(** A step of thread [tid] from [pc] to [pc'], the parts it must establish. *)
Lemma step_ok s tid a pc pc' m asked' :
  mon_ok s → ms_threads s !! tid = Some (a, pc) →
  let s' := mkMonState m (<[tid := (a, pc')]> (ms_threads s)) (ms_clock s) asked' in
  count_ m = length asked' → (∃ l, asked' = ms_asked s ++ l) → latestLeaderPacked_ (ms_mon s) ≤ latestLeaderPacked_ m →
  (latestLeaderPacked_ m = latestLeaderPacked_ (ms_mon s) ∨ latestLeaderPacked_ m ∈ packs asked') →
  (∀ i, slot_of pc ≠ Some i → ready_ m i = ready_ (ms_mon s) i ∧ events_ m i = events_ (ms_mon s) i) →
  thread_ok s' a pc' →
  (∀ i, slot_of pc' = Some i → slot_of pc = Some i ∨ (length (ms_asked s) ≤ i)%nat) →
  (∀ i x, asked' !! i = Some x → (i < kCap)%nat → (slot_of pc = Some i ∨ (length (ms_asked s) ≤ i)%nat) →
     slot_of pc' = Some i ∨ ready_ m i = true ∧ entry_for x (ms_clock s) (events_ m i)) →
  (∀ i x, asked' !! i = Some x → (i < kCap)%nat → ak_role x = kLeader → ready_ m i = true →
     ready_ (ms_mon s) i = false ∨ (length (ms_asked s) ≤ i)%nat ∨ offering pc = Some (pack (ak_term x) (ak_node x)) →
     pack (ak_term x) (ak_node x) ≤ latestLeaderPacked_ m ∨ offering pc' = Some (pack (ak_term x) (ak_node x))) →
  mon_ok s'.
Proof.
  intros Hok Hpc s' Hcount [l ->] Hlat Hlat' Hkeep Hthr Hslot' Hslots Hoffers.
  pose proof Hok as [H1 H0 H2 H3 H4 H5 H6].
  assert (∀ i x, ms_asked s !! i = Some x → (ms_asked s ++ l) !! i = Some x) as Hask by (intros; by apply lookup_app_l_Some).
  assert (∀ t p i, ms_threads s !! t = Some p → slot_of p.2 = Some i → (i < length (ms_asked s))%nat) as Hlen.
  { intros t [b q] i Ht Hi. apply H2 in Ht as (_&Hq&_). destruct q; cbn in Hi; try done; injection Hi as ->;
      destruct Hq as (_&_&_&Hq&_); by apply lookup_lt_Some in Hq. }
  split; cbn [ms_mon ms_threads ms_clock ms_asked s']; [done|..].
  - intros i Hi. rewrite length_app. destruct (decide (slot_of pc = Some i)) as [Hs|Hs]; [apply (Hlen tid (a, pc)) in Hs; [lia|done]|].
    destruct (Hkeep i Hs) as [E _]. rewrite E in Hi. apply H0 in Hi. lia.
  - intros t b q Ht. apply lookup_insert_Some in Ht as [[<- [= <- <-]]|[Hne Ht]]; [done|].
    eapply thread_ok_mono; [by eapply H2|done|done|apply packs_app|done|]. intros i Hi. apply Hkeep. intros Hi'. apply Hne.
    by eapply (H3 tid t (a, pc) (b, q) i).
  - intros t1 t2 p1 p2 i Hp1 Hp2 Hs1 Hs2.
    apply lookup_insert_Some in Hp1 as [[<- <-]|[N1 Hp1]]; apply lookup_insert_Some in Hp2 as [[<- <-]|[N2 Hp2]]; [done|..].
    + cbn in Hs1. destruct (Hslot' _ Hs1) as [Hs|Hs]; [by eapply (H3 tid t2 (a, pc))|]. apply (Hlen _ _ _ Hp2) in Hs2. lia.
    + cbn in Hs2. destruct (Hslot' _ Hs2) as [Hs|Hs]; [by eapply (H3 t1 tid _ (a, pc))|]. apply (Hlen _ _ _ Hp1) in Hs1. lia.
    + by eapply H3.
  - intros i x Hx Hi. destruct (decide (slot_of pc = Some i ∨ (length (ms_asked s) ≤ i)%nat)) as [Hd|Hd].
    { destruct (Hslots i x Hx Hi Hd) as [Hs|Hs]; [right|by left]. exists tid. eexists. by rewrite lookup_insert_eq. }
    apply Decidable.not_or in Hd as [Hd1 Hd2]. destruct (Hkeep i Hd1) as [-> ->]. rewrite lookup_app_l in Hx by lia.
    destruct (H4 i x Hx Hi) as [?|(t&p&Hp&Hs)]; [by left|right]. exists t, p. split; [|done]. rewrite lookup_insert_ne; [done|].
    intros <-. rewrite Hpc in Hp. by injection Hp as <-.
  - destruct Hlat' as [->|?]; [|by right]. destruct H5 as [?|?]; [by left|right]. by apply packs_app.
  - intros i x Hx Hi Hr Hrd.
    destruct (decide (ready_ (ms_mon s) i = false ∨ (length (ms_asked s) ≤ i)%nat ∨
      offering pc = Some (pack (ak_term x) (ak_node x)))) as [Hd|Hd].
    { destruct (Hoffers i x Hx Hi Hr Hrd Hd) as [?|Ho]; [by left|right]. exists tid. eexists. by rewrite lookup_insert_eq. }
    apply Decidable.not_or in Hd as [Hd1 [Hd2 Hd3]%Decidable.not_or]. rewrite lookup_app_l in Hx by lia. apply not_false_iff_true in Hd1.
    destruct (H6 i x Hx Hi Hr Hd1) as [?|(t&p&Hp&Ho)]; [left; lia|right]. exists t, p. split; [|done]. rewrite lookup_insert_ne; [done|].
    intros <-. rewrite Hpc in Hp. by injection Hp as <-.
Qed.

Ltac mon_simpl :=
  cbn [ms_mon ms_threads ms_clock ms_asked count_ events_ ready_ latestLeaderPacked_ slot_of offering length].

Lemma insert_fn_eq {A} (f : nat → A) i x : (<[i := x]> f) i = x.
Proof. apply fn_lookup_insert. Qed.

Lemma insert_fn_ne {A} (f : nat → A) i j x : i ≠ j → (<[i := x]> f) j = f j.
Proof. apply fn_lookup_insert_ne. Qed.

Lemma reserve_ok s tid a n t r : mon_ok s → ms_threads s !! tid = Some (a, RecReserve n t r) →
  mon_ok (mact s (MStep tid false)).
Proof.
  intros Hok Hpc. pose proof (mo_thread _ Hok _ _ _ Hpc) as (Hb&(->&->&->)&_). cbn [mact]. rewrite Hpc. cbn [recordStep].
  pose proof (mo_count _ Hok) as Hc. assert (∀ i, (length (ms_asked s) ≤ i)%nat → ready_ (ms_mon s) i = false) as Hf.
  { intros i Hi. apply not_true_iff_false. intros E%(mo_fresh _ Hok). lia. }
  eapply (step_ok _ _ _ (RecReserve _ _ _)); mon_simpl; [done|done|rewrite length_app; cbn; lia|by eexists|done|by left|done|..].
  - rewrite Hc. split; [done|]. destruct (Nat.leb_spec kCap (length (ms_asked s))); cbn; [done|]. split; [|done].
    split_and!; try done; [|by apply Hf]. by rewrite lookup_app_r, Nat.sub_diag by lia.
  - intros i Hi. destruct (_ <=? _)%nat; [done|]. injection Hi as <-. right. lia.
  - intros i x Hx Hi [?|Hl]; [done|left]. assert (i = length (ms_asked s)) as ->.
    { apply lookup_lt_Some in Hx. rewrite length_app in Hx. cbn in Hx. lia. }
    rewrite Hc, (proj2 (Nat.leb_gt _ _)) by done. done.
  - intros i x Hx Hi Hr Hrd [E|[E|?]]; [congruence|rewrite Hf in Hrd by done; done|done].
Qed.

Lemma fill_ok s tid a i n t r : mon_ok s → ms_threads s !! tid = Some (a, RecFill i n t r) →
  mon_ok (mact s (MStep tid false)).
Proof.
  intros Hok Hpc. pose proof (mo_thread _ Hok _ _ _ Hpc) as (Hb&(->&->&->&Ha&Hi&Hrd)&_). cbn [mact]. rewrite Hpc. cbn [recordStep].
  eapply (step_ok _ _ _ (RecFill _ _ _ _)); mon_simpl; [done|done|by apply mo_count|by exists []; rewrite app_nil_r|done|by left|..].
  - intros j Hj. split; [done|]. rewrite insert_fn_ne; [done|congruence].
  - split; [done|]. split; [by split_and!|]. mon_simpl. rewrite insert_fn_eq. by split_and!.
  - intros j [= <-]. by left.
  - intros j x Hx Hj [E|Hl]; [by left|]. apply lookup_lt_Some in Hx. lia.
  - intros j x Hx Hj Hr Hrd' [E|[E|?]]; [congruence| |done]. apply lookup_lt_Some in Hx. lia.
Qed.

Lemma slot_publish_ok s tid a i n t r : mon_ok s → ms_threads s !! tid = Some (a, RecPublish i n t r) →
  mon_ok (mact s (MStep tid false)).
Proof.
  intros Hok Hpc. pose proof (mo_thread _ Hok _ _ _ Hpc) as (Hb&(->&->&->&Ha&Hi&Hrd)&He). cbn [mact]. rewrite Hpc. cbn [recordStep].
  eapply (step_ok _ _ _ (RecPublish _ _ _ _)); mon_simpl; [done|done|by apply mo_count|by exists []; rewrite app_nil_r|done|by left|..].
  - intros j Hj. split; [|done]. rewrite insert_fn_ne; [done|congruence].
  - split; [done|]. destruct (N.eqb_spec (ak_role a) kLeader); [|done]. split; [|done]. by eapply packs_elem.
  - intros j Hj. by destruct (_ =? _).
  - intros j x Hx Hj [[= <-]|Hl]; [|apply lookup_lt_Some in Hx; lia]. right. rewrite insert_fn_eq. split; [done|]. congruence.
  - intros j x Hx Hj Hr Hrd' [E|[E|?]]; [|apply lookup_lt_Some in Hx; lia|done]. right.
    destruct (decide (i = j)) as [<-|Hne]; [|rewrite insert_fn_ne in Hrd' by done; congruence].
    rewrite Ha in Hx. injection Hx as <-. by rewrite (proj2 (N.eqb_eq _ _) Hr).
Qed.

Lemma load_ok s tid a p : mon_ok s → ms_threads s !! tid = Some (a, RecLoad p) → mon_ok (mact s (MStep tid false)).
Proof.
  intros Hok Hpc. pose proof (mo_thread _ Hok _ _ _ Hpc) as (Hb&Hp&_). cbn [mact]. rewrite Hpc. cbn [recordStep].
  eapply (step_ok _ _ _ (RecLoad _)); mon_simpl; [done|done|by apply mo_count|by exists []; rewrite app_nil_r|done|by left|done|by split|done|..].
  - intros j x Hx Hj [?|Hl]; [done|]. apply lookup_lt_Some in Hx. lia.
  - intros j x Hx Hj Hr Hrd [E|[E|?]]; [congruence|apply lookup_lt_Some in Hx; lia|by right].
Qed.

Lemma cas_ok s tid weak a p cur : mon_ok s → ms_threads s !! tid = Some (a, RecCas p cur) → mon_ok (mact s (MStep tid weak)).
Proof.
  intros Hok Hpc. pose proof (mo_thread _ Hok _ _ _ Hpc) as (Hb&[Hp Hcur]&_). cbn [mact]. rewrite Hpc. cbn [recordStep].
  assert (∀ pc', pc' = RecDone ∧ p ≤ latestLeaderPacked_ (ms_mon s) ∨ pc' = RecCas p (latestLeaderPacked_ (ms_mon s)) →
    mon_ok (mkMonState (ms_mon s) (<[tid := (a, pc')]> (ms_threads s)) (ms_clock s) (ms_asked s))) as Hstay.
  { intros pc' Hpc'. eapply (step_ok _ _ _ (RecCas _ _)); mon_simpl; [done|done|by apply mo_count|by exists []; rewrite app_nil_r|done|by left|done|..].
    - by destruct Hpc' as [[-> _]| ->].
    - by destruct Hpc' as [[-> _]| ->].
    - intros j x Hx Hj [?|Hl]; [done|]. apply lookup_lt_Some in Hx. lia.
    - intros j x Hx Hj Hr Hrd [E|[E|[= ->]]]; [congruence|apply lookup_lt_Some in Hx; lia|].
      destruct Hpc' as [[-> ?]| ->]; [by left|by right]. }
  destruct (N.ltb_spec cur p); [|apply Hstay; left; split; [done|lia]].
  destruct (N.eqb_spec (latestLeaderPacked_ (ms_mon s)) cur) as [E|]; cbn [andb]; [|apply Hstay; by right].
  destruct weak; cbn [negb]; [apply Hstay; by right|].
  eapply (step_ok _ _ _ (RecCas _ _)); mon_simpl; [done|done|by apply mo_count|by exists []; rewrite app_nil_r|lia|by right|done|done|done|..].
  - intros j x Hx Hj [?|Hl]; [done|]. apply lookup_lt_Some in Hx. lia.
  - intros j x Hx Hj Hr Hrd [E'|[E'|[= ->]]]; [congruence|apply lookup_lt_Some in Hx; lia|left; lia].
Qed.

Lemma mact_ok s x : mon_ok s → mon_ok (mact s x).
Proof.
  intros Hok. destruct x as [d|tid node term role|tid weak]; [by apply clock_tick_ok|by apply begin_ok|].
  destruct (ms_threads s !! tid) as [[a pc]|] eqn:Hpc; [|cbn; by rewrite Hpc]. destruct pc.
  1-4: replace (mact s (MStep tid weak)) with (mact s (MStep tid false)) by (cbn; by rewrite Hpc).
  - by eapply reserve_ok.
  - by eapply fill_ok.
  - by eapply slot_publish_ok.
  - by eapply load_ok.
  - by eapply cas_ok.
  - cbn. rewrite Hpc. cbn. rewrite insert_id by done. by destruct s.
Qed.

Lemma mon_run_ok acts : mon_ok (mon_run acts).
Proof.
  unfold mon_run. induction acts as [|x acts IH] using rev_ind; [apply mon_init_ok|]. rewrite foldl_app. by apply mact_ok.
Qed.

(** ** What readers see *)

Lemma snapshot_sound acts e : e ∈ snapshot (ms_mon (mon_run acts)) →
  ∃ a, a ∈ ms_asked (mon_run acts) ∧ entry_for a (ms_clock (mon_run acts)) e.
Proof.
  pose proof (mon_run_ok acts) as Hok. set (s := mon_run acts) in *. intros (i&->&[Hr Hi]%list_elem_of_filter)%list_elem_of_fmap.
  apply elem_of_seq in Hi as [_ Hi]. rewrite (mo_count _ Hok) in Hi. destruct (lookup_lt_is_Some_2 (ms_asked s) i ltac:(lia)) as [a Ha].
  exists a. split; [by eapply list_elem_of_lookup_2|]. destruct (mo_slot _ Hok i a Ha ltac:(lia)) as [[_ ?]|(tid&[b pc]&Hp&Hs)]; [done|].
  apply (mo_thread _ Hok) in Hp as (_&Hp&_). exfalso. destruct pc; cbn in Hs; try done; injection Hs as ->;
    destruct Hp as (_&_&_&_&_&Hp); congruence.
Qed.

(** A published entry stays as it is. *)
Lemma published_step s x i : mon_ok s → ready_ (ms_mon s) i = true →
  ready_ (ms_mon (mact s x)) i = true ∧ events_ (ms_mon (mact s x)) i = events_ (ms_mon s) i.
Proof.
  intros Hok Hr. destruct x as [d|tid n t r|tid weak]; cbn [mact]; [done|by destruct (idle _)|].
  destruct (ms_threads s !! tid) as [[a pc]|] eqn:Hp; [|done]. apply (mo_thread _ Hok) in Hp as (_&Hpc&_).
  destruct pc as [n t r|j n t r|j n t r|p|p cur|]; cbn; try done.
  - destruct Hpc as (_&_&_&_&_&Hj). rewrite insert_fn_ne; [done|congruence].
  - destruct Hpc as (_&_&_&_&_&Hj). rewrite insert_fn_ne; [done|congruence].
  - destruct (_ <? _); [|done]. by destruct (_ && _).
Qed.

Lemma published_stays acts later i : ready_ (ms_mon (mon_run acts)) i = true →
  ready_ (ms_mon (mon_run (acts ++ later))) i = true ∧
  events_ (ms_mon (mon_run (acts ++ later))) i = events_ (ms_mon (mon_run acts)) i.
Proof.
  intros Hr. induction later as [|x later IH] using rev_ind; [by rewrite app_nil_r|]. destruct IH as [IH1 IH2].
  rewrite app_assoc. replace (mon_run ((acts ++ later) ++ [x])) with (mact (mon_run (acts ++ later)) x)
    by (unfold mon_run; by rewrite (foldl_app _ (acts ++ later))).
  destruct (published_step _ x i (mon_run_ok (acts ++ later)) IH1) as [-> ->]. done.
Qed.

(** A published entry is that of the call that took its slot. *)
Lemma published_entry s i a : mon_ok s → ms_asked s !! i = Some a → (i < kCap)%nat → ready_ (ms_mon s) i = true →
  entry_for a (ms_clock s) (events_ (ms_mon s) i).
Proof.
  intros Hok Ha Hi Hr. destruct (mo_slot _ Hok i a Ha Hi) as [[_ ?]|(tid&[b pc]&Hp&Hs)]; [done|].
  apply (mo_thread _ Hok) in Hp as (_&Hp&_). exfalso. destruct pc; cbn in Hs; try done; injection Hs as ->;
    destruct Hp as (_&_&_&_&_&Hp); congruence.
Qed.

(** A reading that begins after [acts], while the threads go on. *)
Definition reading_after (acts : list MonAct) (r : Reading) : Prop :=
  rg_count r = count_ (ms_mon (mon_run acts)) ∧ ∀ i, ∃ later, rg_at r i = ms_mon (mon_run (acts ++ later)).

(** It contains what was published when it began. *)
Lemma reading_complete acts r i : reading_after acts r → (i < kCap)%nat → ready_ (ms_mon (mon_run acts)) i = true →
  events_ (ms_mon (mon_run acts)) i ∈ snapshotOf r.
Proof.
  intros [Hc Hat] Hi Hr. pose proof (mo_fresh _ (mon_run_ok acts) i Hr) as Hl. rewrite <-(mo_count _ (mon_run_ok acts)), <-Hc in Hl.
  destruct (Hat i) as [later E]. destruct (published_stays acts later i Hr) as [Hr' He'].
  apply list_elem_of_fmap. exists i. rewrite E, He'. split; [done|]. apply list_elem_of_filter. rewrite E.
  split; [done|]. apply elem_of_seq. lia.
Qed.

Lemma quiet_ready s : mon_ok s → quiet s → ∀ i a, ms_asked s !! i = Some a → (i < kCap)%nat →
  ready_ (ms_mon s) i = true ∧ entry_for a (ms_clock s) (events_ (ms_mon s) i).
Proof.
  intros Hok Hq i a Ha Hi. destruct (mo_slot _ Hok i a Ha Hi) as [?|(tid&p&Hp&Hs)]; [done|]. apply Hq in Hp. by rewrite Hp in Hs.
Qed.

Lemma snapshot_quiet s : mon_ok s → quiet s →
  Forall2 (λ a e, entry_for a (ms_clock s) e) (take kCap (ms_asked s)) (snapshot (ms_mon s)).
Proof.
  intros Hok Hq. unfold snapshot. rewrite (mo_count _ Hok). set (l := ms_asked s).
  rewrite filter_all; [|apply Forall_forall; intros i [_ Hi]%elem_of_seq;
    destruct (lookup_lt_is_Some_2 l i ltac:(lia)) as [a Ha]; by destruct (quiet_ready s Hok Hq i a Ha ltac:(lia))].
  apply Forall2_same_length_lookup_2; [rewrite length_fmap, length_seq, length_take; lia|].
  intros i a e Ha He. apply lookup_take_Some in Ha as [Ha Hi]. rewrite list_lookup_fmap in He.
  destruct (seq 0 _ !! i) as [j|] eqn:Ej; [|done]. apply lookup_seq in Ej as [-> _]. injection He as <-.
  by destruct (quiet_ready s Hok Hq i a Ha Hi).
Qed.

Lemma latest_quiet s : mon_ok s → quiet s → latestLeaderPacked_ (ms_mon s) = foldr N.max 0 (packs (ms_asked s)).
Proof.
  intros Hok Hq. set (l := packs (ms_asked s)). assert (∀ p, p ∈ l → p ≤ latestLeaderPacked_ (ms_mon s)) as Hle.
  { intros p (a&->&[Hr Ha]%list_elem_of_filter)%list_elem_of_fmap. apply list_elem_of_lookup in Ha as [i Ha].
    apply lookup_take_Some in Ha as [Ha Hi]. destruct (quiet_ready s Hok Hq i a Ha Hi) as [Hrd _].
    destruct (mo_offer _ Hok i a Ha Hi Hr Hrd) as [?|(tid&p&Hp&Ho)]; [done|]. apply Hq in Hp. by rewrite Hp in Ho. }
  apply N.le_antisymm.
  - destruct (mo_latest _ Hok) as [->|Hin]; [lia|]. fold l in Hin. clear Hle. revert Hin. generalize (latestLeaderPacked_ (ms_mon s)).
    induction l as [|x l IH]; intros p Hp; [by apply not_elem_of_nil in Hp|]. cbn [foldr].
    apply elem_of_cons in Hp as [->|Hp]; [lia|]. specialize (IH p Hp). lia.
  - induction l as [|x l IH]; cbn [foldr]; [lia|]. apply N.max_lub; [apply Hle; left|]. apply IH. intros p Hp. apply Hle. by right.
Qed.

Lemma pack_value t n : t < 2 ^ 48 → n < 65536 → pack t n = t * 65536 + n.
Proof.
  intros Ht Hn. unfold pack. rewrite N.shiftl_mul_pow2. change (2 ^ 16) with 65536.
  rewrite N.mod_small by (change two64 with (2 ^ 48 * 65536); apply N.mul_lt_mono_pos_r; [done|exact Ht]).
  assert (N.land (t * 65536) n = 0) as Hd; [|by rewrite <-N.lxor_lor, <-N.add_nocarry_lxor].
  apply N.bits_inj. intros i. rewrite N.land_spec, N.bits_0. change 65536 with (2 ^ 16) in *.
  destruct (N.lt_ge_cases i 16) as [Hi|Hi]; [by rewrite N.mul_pow2_bits_low|].
  rewrite (N.bits_above_log2 n), andb_false_r; [done|]. destruct (decide (n = 0)) as [->|]; [cbn; lia|].
  apply (N.lt_le_trans _ 16); [|done]. apply N.log2_lt_pow2; lia.
Qed.

Lemma latestLeader_pack m t n : t < 2 ^ 48 → n < 65536 → latestLeaderPacked_ m = pack t n → latestLeader m = n.
Proof.
  intros Ht Hn E. unfold latestLeader. rewrite E, pack_value by done. change 65535 with (N.ones 16). rewrite N.land_ones.
  change (2 ^ 16) with 65536. rewrite N.add_comm, N.Div0.mod_add. by apply N.mod_small.
Qed.

Definition in_range (a : Asked) : Prop := ak_term a < 2 ^ 48 ∧ ak_node a < 65536.

Lemma foldr_max_elem l : l ≠ [] → foldr N.max 0 l ∈ l.
Proof.
  induction l as [|x l IH]; [done|]. intros _. cbn [foldr]. destruct (decide (l = [])) as [->|Hne]; [cbn; rewrite N.max_0_r; left|].
  destruct (N.max_spec x (foldr N.max 0 l)) as [[_ ->]|[_ ->]]; [right; by apply IH|left].
Qed.

Lemma foldr_max_ge l x : x ∈ l → x ≤ foldr N.max 0 l.
Proof. induction 1 as [x l|x y l _ IH]; cbn [foldr]; lia. Qed.

(** C35: the monitor is exact.  However the calls of [record] of the nodes' Raft
    threads interleave, weak exchanges that fail included, every entry a reader
    sees, at any time, is that of one call, complete, and stamped while the call
    ran.  When no call is going on, the entries are those of the calls in the order
    in which they took their slots, the first 8192 of them, each exactly once; and
    when one of these was an election, the node the monitor names as leader is the
    winner of one of them, in the highest term of all. *)
Theorem monitor_exact acts :
  (∀ e, e ∈ snapshot (ms_mon (mon_run acts)) →
     ∃ a, a ∈ ms_asked (mon_run acts) ∧ entry_for a (ms_clock (mon_run acts)) e) ∧
  (quiet (mon_run acts) →
     Forall2 (λ a e, entry_for a (ms_clock (mon_run acts)) e) (take kCap (ms_asked (mon_run acts)))
       (snapshot (ms_mon (mon_run acts))) ∧
     (Forall in_range (ms_asked (mon_run acts)) → ∀ a, a ∈ take kCap (ms_asked (mon_run acts)) → ak_role a = kLeader →
        ∃ w, w ∈ take kCap (ms_asked (mon_run acts)) ∧ ak_role w = kLeader ∧ ak_term a ≤ ak_term w ∧
          latestLeader (ms_mon (mon_run acts)) = ak_node w)).
Proof.
  split; [apply snapshot_sound|]. pose proof (mon_run_ok acts) as Hok. set (s := mon_run acts) in *. intros Hq.
  split; [by apply snapshot_quiet|]. intros Hr a Ha Hrole. pose proof (latest_quiet s Hok Hq) as Hl.
  assert (pack (ak_term a) (ak_node a) ∈ packs (ms_asked s)) as Hin.
  { apply list_elem_of_lookup in Ha as [i Ha]. apply lookup_take_Some in Ha as [Ha Hi]. by eapply packs_elem. }
  pose proof (foldr_max_ge _ _ Hin) as Hge. assert (packs (ms_asked s) ≠ []) as Hne by (intros E; by rewrite E in Hin; apply not_elem_of_nil in Hin).
  apply foldr_max_elem in Hne. apply list_elem_of_fmap in Hne as (w&Ew&[Hw Hwin]%list_elem_of_filter).
  assert (∀ x, x ∈ take kCap (ms_asked s) → in_range x) as Hrange.
  { intros x Hx. eapply Forall_forall; [exact Hr|]. eapply subseteq_take; exact Hx. }
  destruct (Hrange a Ha) as [Ha1 Ha2], (Hrange w Hwin) as [Hw1 Hw2]. exists w. split_and!; [done|done| |].
  - rewrite Ew, !pack_value in Hge by done. lia.
  - eapply latestLeader_pack; [exact Hw1|exact Hw2|by rewrite Hl].
Qed.

(** ** Past the capacity *)

(** Thread 0 calls [record] and finishes. *)
Definition call_acts (n : NodeId) (t : Term) (r : N) : list MonAct := MBegin 0 n t r :: replicate 5 (MStep 0 false).

Definition alone (s : MonState) : Prop := ∃ x, ms_threads s = {[0%nat := (x, RecDone)]}.

Lemma step_alone s a pc : ms_threads s = {[0%nat := (a, pc)]} →
  mact s (MStep 0 false) = mkMonState (recordStep (ms_clock s) false pc (ms_mon s)).2
    {[0%nat := (a, (recordStep (ms_clock s) false pc (ms_mon s)).1)]} (ms_clock s)
    (match pc with RecReserve _ _ _ => ms_asked s ++ [a] | _ => ms_asked s end).
Proof.
  intros Ht. cbn [mact]. rewrite Ht, lookup_singleton_eq. destruct (recordStep _ _ _ _) as [pc' m]. cbn [fst snd].
  by rewrite insert_singleton_eq.
Qed.

Ltac alone_step a :=
  match goal with |- context [mact (mkMonState ?m ?t ?c ?k) (MStep 0 false)] =>
    rewrite (step_alone (mkMonState m t c k) a _ eq_refl); cbn [recordStep fst snd ms_clock ms_mon ms_asked latestLeaderPacked_] end.

(** Five steps are enough when nobody else is about. *)
Lemma steps_alone s a n t r : ms_threads s = {[0%nat := (a, RecReserve n t r)]} →
  let s' := foldl mact s (replicate 5 (MStep 0 false)) in
  ms_threads s' = {[0%nat := (a, RecDone)]} ∧ ms_asked s' = ms_asked s ++ [a] ∧ ms_clock s' = ms_clock s.
Proof.
  intros Ht. cbn [replicate foldl]. rewrite (step_alone s a _ Ht). cbn [recordStep fst snd].
  destruct (_ <=? _)%nat; [by repeat alone_step a|].
  do 2 alone_step a.
  destruct (r =? kLeader); [|by repeat alone_step a].
  do 2 alone_step a.
  destruct (_ <? _); [|done]. by rewrite N.eqb_refl.
Qed.

Lemma call_alone s n t r : ms_threads s = ∅ ∨ alone s →
  let s' := foldl mact s (call_acts n t r) in
  alone s' ∧ ms_asked s' = ms_asked s ++ [mkAsked (ms_clock s) n t r] ∧ ms_clock s' = ms_clock s.
Proof.
  intros Ht. unfold call_acts. cbn [foldl]. set (a := mkAsked (ms_clock s) n t r).
  assert (mact s (MBegin 0 n t r) = mkMonState (ms_mon s) {[0%nat := (a, RecReserve n t r)]} (ms_clock s) (ms_asked s)) as ->.
  { cbn [mact]. destruct Ht as [Ht|[x Ht]]; rewrite Ht; [done|]. rewrite lookup_singleton_eq. cbn [idle]. by rewrite insert_singleton_eq. }
  pose proof (steps_alone (mkMonState (ms_mon s) {[0%nat := (a, RecReserve n t r)]} (ms_clock s) (ms_asked s)) a n t r eq_refl) as (H1&H2&H3).
  cbn [ms_asked ms_clock] in *. split_and!; [by exists a|done|done].
Qed.

Lemma calls_alone k : let s := mon_run (concat (replicate k (call_acts 1 1 0))) in
  (ms_threads s = ∅ ∨ alone s) ∧ ms_asked s = replicate k (mkAsked 0 1 1 0) ∧ ms_clock s = 0.
Proof.
  induction k as [|k (IH1&IH2&IH3)]; [by split; [left|]|]. rewrite replicate_S_end, concat_app. cbn [concat]. rewrite app_nil_r.
  unfold mon_run in *. rewrite foldl_app. destruct (call_alone _ 1 1 0 IH1) as (H1&H2&H3). cbv zeta.
  split; [by right|]. rewrite H2, H3, IH2, IH3. by rewrite <-replicate_S_end.
Qed.

(** An election after 8192 role changes is in no snapshot: it is counted in no
    window and does not become the latest leader.  [count_] goes on counting, and
    nothing looks at it. *)
Theorem overflow_hides_election k fromNs toNs : (kCap ≤ k)%nat →
  let s := mon_run (concat (replicate k (call_acts 1 1 0)) ++ call_acts 2 2 kLeader) in
  quiet s ∧ mkAsked 0 2 2 kLeader ∈ ms_asked s ∧ count_ (ms_mon s) = S k ∧
  electionsIn fromNs toNs (ms_mon s) = 0%nat ∧ latestLeader (ms_mon s) = 0.
Proof.
  intros Hk s. pose proof (mon_run_ok (concat (replicate k (call_acts 1 1 0)) ++ call_acts 2 2 kLeader)) as Hok. fold s in Hok.
  destruct (calls_alone k) as (H1&H2&H3). destruct (call_alone _ 2 2 kLeader H1) as (Hx&Ha&_). destruct Hx as [x Ht].
  unfold mon_run in H2, H3, Ht, Ha. rewrite <-foldl_app in Ht, Ha. fold (mon_run (concat (replicate k (call_acts 1 1 0)) ++ call_acts 2 2 kLeader)) in Ht, Ha.
  fold s in Ht, Ha. rewrite H2, H3 in Ha.
  assert (quiet s) as Hq by (intros tid p Hp; rewrite Ht in Hp; apply lookup_singleton_Some in Hp as [_ Hp]; by rewrite <-Hp).
  assert (take kCap (ms_asked s) = replicate kCap (mkAsked 0 1 1 0)) as Htk
    by (rewrite Ha, take_app_le, take_replicate by (rewrite length_replicate; lia); f_equal; lia).
  split_and!; [done|rewrite Ha; apply elem_of_app; right; left|rewrite (mo_count _ Hok), Ha, length_app, length_replicate; cbn; lia| |].
  - pose proof (snapshot_quiet s Hok Hq) as Hs. rewrite Htk in Hs. unfold electionsIn, electionsAmong.
    assert (Forall (λ e, ev_role e = 0) (snapshot (ms_mon s))) as Hf.
    { apply Forall_forall. intros e He. apply list_elem_of_lookup in He as [i He]. eapply Forall2_lookup_r in Hs as (a&Ha'&Hs); [|exact He].
      apply lookup_replicate in Ha' as [-> _]. by destruct Hs as (_&_&?&_). }
    assert (filter (λ e, ev_role e = kLeader ∧ fromNs ≤ ev_tNs e < toNs) (snapshot (ms_mon s)) = []) as ->; [|done].
    clear Hs. induction Hf as [|e l He _ IH]; [done|]. rewrite filter_cons, decide_False; [exact IH|]. intros [E _]. by rewrite He in E.
  - unfold latestLeader. rewrite (latest_quiet s Hok Hq). unfold packs. rewrite Htk.
    assert (∀ n, filter (λ a, ak_role a = kLeader) (replicate n (mkAsked 0 1 1 0)) = []) as ->; [|done].
    induction n as [|n IH]; [done|]. cbn [replicate]. by rewrite filter_cons, decide_False.
Qed.
