(* ===== verification/BenchTap.v ===== *)
(** * bench/bench_cluster.h, bench/bench_cluster.cpp: gates and the commit-latency tap

    The instruments of the benchmark's cluster: the fault gate in the send hook,
    the stall gate around the state machine, and the tap that measures the time
    from a request to the commit of its entry on a node's Raft thread. *)

From Stdlib Require Import NArith Strings.Byte Lia.
From stdpp Require Import functions.
From S2P Require Import Prelude Messages Log RaftCore Crc32c KvStore ClientService Histogram SimNetwork ObReference Checkers LoadGen.

Local Open Scope N_scope.

(** ** FaultGate *)

Record FaultGate := mkFaultGate { dropPerMille_ : N; isolatedMask_ : N; gateSeed_ : N }.

Definition FaultGate_new : FaultGate := mkFaultGate 0 0 1.

(** [1u << node] *)
Definition nodeBit (node : NodeId) : N := N.shiftl 1 node mod two32.

Definition setLossPermille (pm : N) (g : FaultGate) : FaultGate := mkFaultGate pm (isolatedMask_ g) (gateSeed_ g).
Definition isolate (node : NodeId) (g : FaultGate) : FaultGate :=
  mkFaultGate (dropPerMille_ g) (N.lor (isolatedMask_ g) (nodeBit node)) (gateSeed_ g).
Definition heal (node : NodeId) (g : FaultGate) : FaultGate :=
  mkFaultGate (dropPerMille_ g) (N.land (isolatedMask_ g) (N.lnot (nodeBit node) 32)) (gateSeed_ g).
Definition healAll (g : FaultGate) : FaultGate := mkFaultGate (dropPerMille_ g) 0 (gateSeed_ g).
Definition setSeed (s : N) (g : FaultGate) : FaultGate := mkFaultGate (dropPerMille_ g) (isolatedMask_ g) s.

(** [rng] is the calling thread's generator, made on first use with the next
    ordinal. *)
Definition shouldDrop (from to : NodeId) (g : FaultGate) (rng : option N) (ordinal : N) : bool * option N * N :=
  if negb (N.land (isolatedMask_ g) (N.lor (nodeBit from) (nodeBit to)) =? 0) then (true, rng, ordinal)
  else if dropPerMille_ g =? 0 then (false, rng, ordinal)
  else
    let '(state, ordinal) :=
      match rng with
      | Some state => (state, ordinal)
      | None => (XorShift64_new (deriveSeed (gateSeed_ g) (add64 1024023 ordinal)), add64 ordinal 1)
      end in
    let '(v, state) := XorShift64_next state in
    (v mod 1000 <? dropPerMille_ g, Some state, ordinal).

Definition isolated (g : FaultGate) (node : NodeId) : bool := N.testbit (isolatedMask_ g) node.

(** One round of the partition driver of the benchmark: the gate while the victim
    is cut off, and after. *)
Definition partitionVictim (nodeCount next : N) : NodeId := next mod nodeCount + 1.
Definition partitionRound (nodeCount next : N) (g : FaultGate) : FaultGate * FaultGate :=
  let cut := isolate (partitionVictim nodeCount next) g in
  (cut, heal (partitionVictim nodeCount next) cut).

Fixpoint partitionRounds (nodeCount : N) (rounds : nat) (next : N) (g : FaultGate) : list FaultGate * FaultGate :=
  match rounds with
  | O => ([], healAll g)
  | S rounds =>
      let '(cut, g) := partitionRound nodeCount next g in
      let '(gs, g') := partitionRounds nodeCount rounds (next + 1) g in
      (cut :: g :: gs, g')
  end.

Lemma nodeBit_small n : n < 32 → nodeBit n = N.shiftl 1 n.
Proof.
  intros Hn. unfold nodeBit. apply N.mod_small. rewrite N.shiftl_1_l. change two32 with (2 ^ 32). by apply N.pow_lt_mono_r.
Qed.

Lemma nodeBit_testbit n i : n < 32 → N.testbit (nodeBit n) i = bool_decide (i = n).
Proof.
  intros Hn. rewrite nodeBit_small by done. rewrite N.shiftl_1_l, N.pow2_bits_eqb. by destruct (N.eqb_spec n i), (bool_decide_reflect (i = n)).
Qed.

Lemma isolated_isolate v n g : v < 32 → isolated (isolate v g) n = isolated g n || bool_decide (n = v).
Proof. intros Hv. unfold isolated. cbn. by rewrite N.lor_spec, nodeBit_testbit. Qed.

Lemma isolated_heal v n g : v < 32 → n < 32 → isolated (heal v g) n = isolated g n && negb (bool_decide (n = v)).
Proof. intros Hv Hn. unfold isolated. cbn. by rewrite N.land_spec, N.lnot_spec_low, nodeBit_testbit. Qed.

(** Messages of isolated nodes are dropped, both ways; the others only by the
    dice. *)
Theorem shouldDrop_spec from to g rng ordinal : from < 32 → to < 32 →
  if isolated g from || isolated g to then shouldDrop from to g rng ordinal = (true, rng, ordinal)
  else dropPerMille_ g = 0 → shouldDrop from to g rng ordinal = (false, rng, ordinal).
Proof.
  intros Hf Ht. unfold shouldDrop.
  assert (N.land (isolatedMask_ g) (N.lor (nodeBit from) (nodeBit to)) = 0 ↔ isolated g from || isolated g to = false) as Hz.
  { rewrite orb_false_iff. unfold isolated. split.
    - intros E. split; apply not_true_iff_false; intros Hb;
        [assert (N.testbit 0 from = true) as H|assert (N.testbit 0 to = true) as H]; try (by rewrite N.bits_0 in H);
        rewrite <-E, N.land_spec, N.lor_spec, !nodeBit_testbit, Hb by done; cbn;
        [by rewrite (bool_decide_eq_true_2 (from = from))|by rewrite (bool_decide_eq_true_2 (to = to)), orb_true_r].
    - intros [H1 H2]. apply N.bits_inj. intros i. rewrite N.land_spec, N.lor_spec, !nodeBit_testbit, N.bits_0 by done.
      destruct (bool_decide_reflect (i = from)) as [->|]; [by rewrite H1|]. destruct (bool_decide_reflect (i = to)) as [->|]; [by rewrite H2|].
      apply andb_false_r. }
  destruct (isolated g from || isolated g to).
  - destruct (N.eqb_spec (N.land (isolatedMask_ g) (N.lor (nodeBit from) (nodeBit to))) 0) as [E|]; [by apply Hz in E|done].
  - rewrite (proj2 Hz) by done. cbn. intros ->. done.
Qed.

(** The partition driver cuts off one node at a time and leaves nobody cut off. *)
Theorem partition_one_at_a_time nodeCount rounds : ∀ next g, 0 < nodeCount < 31 → (∀ n, n < 32 → isolated g n = false) →
  let '(gs, g') := partitionRounds nodeCount rounds next g in
  (∀ x, x ∈ gs → ∃ v, ∀ n, n < 32 → isolated x n = true → n = v) ∧ (∀ n, isolated g' n = false) ∧
  dropPerMille_ g' = dropPerMille_ g.
Proof.
  induction rounds as [|rounds IH]; intros next g Hc Hg; cbn [partitionRounds].
  { split_and!; [intros x Hx; by apply not_elem_of_nil in Hx| |done]. intros n. apply N.bits_0. }
  unfold partitionRound. set (v := partitionVictim nodeCount next). assert (v < 32) as Hv.
  { unfold v, partitionVictim. pose proof (N.mod_upper_bound next nodeCount). lia. }
  assert (∀ n, n < 32 → isolated (heal v (isolate v g)) n = false) as Hh.
  { intros n Hn. rewrite isolated_heal, isolated_isolate, Hg by done. by destruct (bool_decide _). }
  specialize (IH (next + 1) (heal v (isolate v g)) Hc Hh). destruct (partitionRounds _ _ _ _) as [gs g']. destruct IH as (H1&H2&H3).
  split_and!; [|done|done]. intros x [->|[->|Hx]%elem_of_cons]%elem_of_cons; [| |by apply H1].
  - exists v. intros n Hn. rewrite isolated_isolate, Hg by done. by intros ->%bool_decide_eq_true.
  - exists 0. intros n Hn. by rewrite Hh.
Qed.

(** ** StallGate, StallableSM *)

Record StallGate := mkStallGate { gen_ : N; stallMs_ : N }.
Definition StallGate_new : StallGate := mkStallGate 0 0.

Definition arm (ms : N) (g : StallGate) : StallGate := mkStallGate (add64 (gen_ g) 1) ms.

(** The milliseconds to sleep, if any, and [seenGen]. *)
Definition shouldStall (g : StallGate) (seenGen : N) : option N * N :=
  if gen_ g =? seenGen then (None, seenGen) else (Some (stallMs_ g), gen_ g).

Section Stallable.
Context {SM : Type} `{!StateMachine SM}.

Record StallableSM := mkStallable { inner_ : SM; seenGen_ : N }.

(** The sleep, the result and the new state. *)
Definition stallable_apply (g : StallGate) (s : StallableSM) (cmd : Command) : option N * (list byte * StallableSM) :=
  let '(sleep, seen) := shouldStall g (seenGen_ s) in
  let '(result, inner) := sm_apply (inner_ s) cmd in
  (sleep, (result, mkStallable inner seen)).

(** Commands applied by one wrapper and stalls armed meanwhile. *)
Inductive StallEvent := SArm (ms : N) | SApply (cmd : Command).

Definition stall_step (st : StallGate * StallableSM * list (option N * list byte)) (ev : StallEvent) :
    StallGate * StallableSM * list (option N * list byte) :=
  let '(g, s, out) := st in
  match ev with
  | SArm ms => (arm ms g, s, out)
  | SApply cmd => let '(sleep, (result, s)) := stallable_apply g s cmd in (g, s, out ++ [(sleep, result)])
  end.

Definition stall_run (sm : SM) (evs : list StallEvent) : StallGate * StallableSM * list (option N * list byte) :=
  foldl stall_step (StallGate_new, mkStallable sm 0, []) evs.

(** What should happen: each command is applied as by the inner machine, and
    sleeps as long as the last stall armed since the command before it asks. *)
Fixpoint stall_spec (sm : SM) (armed : option N) (evs : list StallEvent) : list (option N * list byte) :=
  match evs with
  | [] => []
  | SArm ms :: evs => stall_spec sm (Some ms) evs
  | SApply cmd :: evs => let '(result, sm) := sm_apply sm cmd in (armed, result) :: stall_spec sm None evs
  end.

(** A stalled state machine is the state machine it wraps, and each arming makes
    the next command sleep once. *)
Theorem stall_once sm evs : N.of_nat (length evs) < two64 → (stall_run sm evs).2 = stall_spec sm None evs.
Proof.
  intros Hn. unfold stall_run.
  assert (∀ evs g s out, seenGen_ s ≤ gen_ g → gen_ g + N.of_nat (length evs) < two64 →
    (foldl stall_step (g, s, out) evs).2 =
      out ++ stall_spec (inner_ s) (if gen_ g =? seenGen_ s then None else Some (stallMs_ g)) evs) as H.
  2:{ by rewrite H. }
  clear. intros evs. induction evs as [|[ms|cmd] evs IH]; intros g s out Hle Hlt; cbn [foldl stall_step stall_spec]; [by rewrite app_nil_r|..].
  - cbn [length] in Hlt. assert (gen_ (arm ms g) = gen_ g + 1) as Eg by (cbn; apply add64_small; lia).
    rewrite IH by (rewrite Eg; lia). rewrite Eg, (proj2 (N.eqb_neq (gen_ g + 1) (seenGen_ s))) by lia. done.
  - cbn [length] in Hlt. unfold stallable_apply, shouldStall. destruct (N.eqb_spec (gen_ g) (seenGen_ s)) as [E|E];
      destruct (sm_apply (inner_ s) cmd) as [result inner]; rewrite IH by (cbn; lia); cbn; rewrite <-app_assoc; cbn;
      [by rewrite E, N.eqb_refl|by rewrite N.eqb_refl].
Qed.

End Stallable.

(** ** The commit-latency tap *)

Record EnqSlot := mkEnqSlot { sl_client : N; sl_seq : N; sl_tNs : N }.

Definition kSlotMask : N := 32767.      (* kEnqSlots - 1 *)

(** The vector of slots. *)
Abbreviation EnqTable := (N → EnqSlot) (only parsing).
Definition EnqTable_new : EnqTable := λ _, mkEnqSlot 0 0 0.

Definition mixIdentity (client seq : N) : N :=
  let h := N.lxor (mul64 client 11400714819323198485) (add64 seq 14029467366897019727) in
  let h := N.lxor h (N.shiftr h 29) in
  let h := mul64 h 13787848793156543929 in
  N.lxor h (N.shiftr h 32).

Definition readLE64 (p : list byte) : N :=
  foldr (λ b v, N.lor (N.shiftl v 8 mod two64) (Byte.to_N b)) 0 (take 8 p).

(** The eight slots that are looked at, from the home slot on. *)
Definition probe (h : N) : list N := (λ k, N.land (add64 h k) kSlotMask) <$> [0; 1; 2; 3; 4; 5; 6; 7].

Definition same_identity (client seq : N) (s : EnqSlot) : bool := (sl_client s =? client) && (sl_seq s =? seq).

Definition firstSlot (p : EnqSlot → bool) (enq : EnqTable) (h : N) : option N :=
  head (filter (λ i, p (enq i) = true) (probe h)).

Definition tapOnRequest (client seq tNs : N) (enq : EnqTable) : EnqTable :=
  if client =? 0 then enq
  else
    let h := mixIdentity client seq in
    let i := default (N.land h kSlotMask) (firstSlot (λ s, (sl_client s =? 0) || same_identity client seq s) enq h) in
    <[i := mkEnqSlot client seq tNs]> enq.

(** The slot of a committed command, if it is measured and has one. *)
Definition tapSlot (cmd : Command) (enq : EnqTable) : option N :=
  if (length cmd <? 16)%nat then None
  else
    let client := readLE64 cmd in
    let seq := readLE64 (drop 8 cmd) in
    if client =? 0 then None else firstSlot (same_identity client seq) enq (mixIdentity client seq).

Record Tap := mkTap {
  tap_enq : EnqTable;
  lastCommitSeen : LogIndex;
  commitHist : LatencyHistogram;
  snapSeen : N;
  snapAck : N;
  snapOut : LatencyHistogram;
}.

Definition Tap_new : Tap := mkTap EnqTable_new 0 LatencyHistogram_new 0 0 LatencyHistogram_new.

(** The body of the loop over newly committed entries. *)
Definition tapCommit (nowNs winStart winEnd : N) (t : Tap) (cmd : Command) : Tap :=
  let '(enq, hist) :=
    match tapSlot cmd (tap_enq t) with
    | None => (tap_enq t, commitHist t)
    | Some i =>
        let s := tap_enq t i in
        (<[i := mkEnqSlot 0 (sl_seq s) (sl_tNs s)]> (tap_enq t),
         if (winStart <=? sl_tNs s) && (sl_tNs s <? winEnd)
         then record (commitHist t) (sub64 nowNs (sl_tNs s)) else commitHist t)
    end in
  mkTap enq (lastCommitSeen t + 1) hist (snapSeen t) (snapAck t) (snapOut t).

(** [entryAt] gives the commands of the log, [ci] is the core's commit index and
    [req] what [snapReq] holds. *)
Definition tapOnIteration (nowNs winStart winEnd : N) (ci : LogIndex) (entryAt : LogIndex → Command) (req : N) (t : Tap) : Tap :=
  let t := foldl (tapCommit nowNs winStart winEnd) t
             ((λ k, entryAt (lastCommitSeen t + N.of_nat k)) <$> seq 1 (N.to_nat (ci - lastCommitSeen t))) in
  if req =? snapSeen t then t
  else mkTap (tap_enq t) (lastCommitSeen t) (commitHist t) req req (commitHist t).

(** What [buildNode] does to the tap of a node. *)
Definition tapRebuilt (req : N) (t : Tap) : Tap :=
  mkTap EnqTable_new 0 (commitHist t) req req (snapOut t).

(** *** Identities *)

Lemma readLE64_value p : readLE64 p = le_value (take 8 p).
Proof.
  unfold readLE64. assert (length (take 8 p) ≤ 8)%nat as Hl by (rewrite length_take; lia). revert Hl. generalize (take 8 p).
  intros bs. induction bs as [|b bs IH]; intros Hl; [done|]. cbn [length] in Hl. cbn [foldr]. rewrite IH by lia.
  apply le_value_step. lia.
Qed.

(** The tap and the client service read the same identity off a command. *)
Lemma tapSlot_identity cmd enq : tapSlot cmd enq =
  match decodePrefix cmd with
  | Some (client, seq) => if client =? 0 then None else firstSlot (same_identity client seq) enq (mixIdentity client seq)
  | None => None
  end.
Proof.
  unfold tapSlot. rewrite <-commandIdentity_decodePrefix. unfold commandIdentity. rewrite !orBytes_le_value, !readLE64_value.
  by destruct (_ <? _)%nat.
Qed.

(** *** What the samples are *)

(** A sample: the identity, when it was stamped, when its commit was seen. *)
Record Sample := mkSample { sp_client : N; sp_seq : N; sp_tNs : N; sp_now : N }.

(** What happens to a tap: requests are stamped, commits are scanned. *)
Inductive TapEvent :=
| TRequest (client seq tNs : N)
| TCommit (nowNs winStart winEnd : N) (cmd : Command).

Definition tapEvent (t : Tap) (ev : TapEvent) : Tap :=
  match ev with
  | TRequest client seq tNs => mkTap (tapOnRequest client seq tNs (tap_enq t)) (lastCommitSeen t) (commitHist t) (snapSeen t) (snapAck t) (snapOut t)
  | TCommit nowNs winStart winEnd cmd => tapCommit nowNs winStart winEnd t cmd
  end.

(** The sample an event adds. *)
Definition sampleOf (t : Tap) (ev : TapEvent) : list Sample :=
  match ev with
  | TRequest _ _ _ => []
  | TCommit nowNs winStart winEnd cmd =>
      match tapSlot cmd (tap_enq t) with
      | None => []
      | Some i =>
          let s := tap_enq t i in
          if (winStart <=? sl_tNs s) && (sl_tNs s <? winEnd) then [mkSample (sl_client s) (sl_seq s) (sl_tNs s) nowNs] else []
      end
  end.

Definition tapRun (evs : list TapEvent) : Tap * list Sample :=
  foldl (λ st ev, (tapEvent st.1 ev, st.2 ++ sampleOf st.1 ev)) (Tap_new, []) evs.

Lemma tapRun_snoc evs ev : tapRun (evs ++ [ev]) =
  (tapEvent (tapRun evs).1 ev, (tapRun evs).2 ++ sampleOf (tapRun evs).1 ev).
Proof. unfold tapRun. by rewrite foldl_app. Qed.

Lemma firstSlot_Some p enq h i : firstSlot p enq h = Some i → p (enq i) = true ∧ i ∈ probe h.
Proof.
  unfold firstSlot. destruct (filter _ (probe h)) as [|j l] eqn:E; [done|]. intros [= ->].
  assert (i ∈ filter (λ i, p (enq i) = true) (probe h)) as H by (rewrite E; left). by apply list_elem_of_filter in H.
Qed.

(** Occupied slots hold stamps of requests. *)
Lemma slots_stamped evs i : let s := tap_enq (tapRun evs).1 i in
  sl_client s ≠ 0 → TRequest (sl_client s) (sl_seq s) (sl_tNs s) ∈ evs.
Proof.
  revert i. induction evs as [|ev evs IH] using rev_ind; intros i; [done|]. rewrite tapRun_snoc. cbn [fst]. cbv zeta.
  intros Hc. apply elem_of_app. destruct ev as [client seq tNs|nowNs ws we cmd]; cbn [tapEvent tap_enq] in *.
  - unfold tapOnRequest in *. destruct (client =? 0); [left; by apply IH|]. set (j := default _ _) in *.
    destruct (decide (j = i)) as [<-|Hne]; [rewrite fn_lookup_insert in *; right; left|].
    rewrite fn_lookup_insert_ne in * by done. left. by apply IH.
  - left. unfold tapCommit in *. destruct (tapSlot cmd _) as [j|]; cbn [tap_enq] in *; [|by apply IH].
    destruct (decide (j = i)) as [<-|Hne]; [rewrite fn_lookup_insert in Hc; done|].
    rewrite fn_lookup_insert_ne in * by done. by apply IH.
Qed.

(** A sample is right about a history: a request with that identity was stamped
    then, its entry was committed now, and the stamp is in the window. *)
Definition sample_ok (evs : list TapEvent) (s : Sample) : Prop :=
  ∃ before ws we cmd after, evs = before ++ TCommit (sp_now s) ws we cmd :: after ∧
    decodePrefix cmd = Some (sp_client s, sp_seq s) ∧
    TRequest (sp_client s) (sp_seq s) (sp_tNs s) ∈ before ∧ ws ≤ sp_tNs s < we.

Lemma sample_ok_app evs evs' s : sample_ok evs s → sample_ok (evs ++ evs') s.
Proof.
  intros (b&ws&we&cmd&a&->&H). exists b, ws, we, cmd, (a ++ evs'). split; [|done]. by rewrite <-app_assoc.
Qed.

(** The tap does not invent: the commit histogram of a node is the histogram of
    samples each of which is the time from the stamp of a request of some identity,
    taken inside the window, to the commit of an entry of the same identity after
    it, and there are at most as many as entries were committed. *)
Theorem tap_sound evs : let '(t, samples) := tapRun evs in
  commitHist t = hist ((λ s, sub64 (sp_now s) (sp_tNs s)) <$> samples) ∧
  (∀ s, s ∈ samples → sample_ok evs s) ∧
  N.of_nat (length samples) ≤ lastCommitSeen t.
Proof.
  induction evs as [|ev evs IH] using rev_ind; [split_and!; [done| |done]; intros s Hs; by apply not_elem_of_nil in Hs|].
  rewrite tapRun_snoc. pose proof (slots_stamped evs) as Hst. destruct (tapRun evs) as [t samples]. destruct IH as (H1&H2&H3). cbn [fst snd] in *.
  assert (∀ s, s ∈ samples → sample_ok (evs ++ [ev]) s) as H2' by (intros s Hs; by apply sample_ok_app, H2).
  destruct ev as [client seq tNs|nowNs ws we cmd]; cbn [tapEvent sampleOf].
  { rewrite app_nil_r. by split_and!. }
  unfold tapCommit. destruct (tapSlot cmd (tap_enq t)) as [i|] eqn:Es; cbn [commitHist lastCommitSeen].
  2:{ rewrite app_nil_r. split_and!; [done|done|lia]. }
  set (s := tap_enq t i) in *. destruct (_ && _) eqn:Ew; [|rewrite app_nil_r; split_and!; [done|done|lia]].
  apply andb_true_iff in Ew as [Hw1%N.leb_le Hw2%N.ltb_lt]. rewrite fmap_app. cbn [fmap list_fmap sp_now sp_tNs]. rewrite hist_snoc.
  split_and!; [by rewrite H1| |rewrite length_app; cbn [length]; lia].
  intros x [Hx|Hx]%elem_of_app; [by apply H2'|]. apply list_elem_of_singleton in Hx as ->.
  rewrite tapSlot_identity in Es. destruct (decodePrefix cmd) as [[c q]|] eqn:Ed; [|done]. destruct (N.eqb_spec c 0) as [|Hc]; [done|].
  apply firstSlot_Some in Es as [Hs _]. fold s in Hs. unfold same_identity in Hs. apply andb_true_iff in Hs as [Hc'%N.eqb_eq Hq%N.eqb_eq].
  exists evs, ws, we, cmd, []. cbn [sp_now sp_client sp_seq sp_tNs]. split_and!; [done|by rewrite Hc', Hq| |done|done].
  apply Hst. fold s. by rewrite Hc'.
Qed.

(** *** A request is found again *)

Lemma mixIdentity_lt client seq : mixIdentity client seq < two64.
Proof.
  unfold mixIdentity. cbv zeta. set (h := mul64 _ _). assert (h < two64) as Hh by (apply N.mod_upper_bound; done).
  apply (lxor_lt 64); [done|]. eapply N.le_lt_trans; [|exact Hh]. rewrite N.shiftr_div_pow2. apply N.Div0.div_le_upper_bound. nia.
Qed.

Lemma head_filter_insert p q (enq : EnqTable) l v i : (∀ j, p (enq j) = true → q (enq j) = true) →
  head (filter (λ j, q (enq j) = true) l) = Some i → p v = true →
  head (filter (λ j, p ((<[i := v]> enq) j) = true) l) = Some i.
Proof.
  intros Hpq Hh Hv. induction l as [|j l IH]; [done|]. rewrite filter_cons in Hh |- *. destruct (decide (q (enq j) = true)) as [Hq|Hq].
  - injection Hh as ->. by rewrite decide_True by (by rewrite fn_lookup_insert).
  - destruct (decide (i = j)) as [->|Hne]; [by rewrite decide_True by (by rewrite fn_lookup_insert)|].
    rewrite decide_False; [by apply IH|]. rewrite fn_lookup_insert_ne by done. intros E. by apply Hq, Hpq.
Qed.

(** Right after a request was stamped, the commit of its entry is measured from
    that stamp. *)
Theorem tap_measures client seq tNs nowNs ws we cmd t :
  decodePrefix cmd = Some (client, seq) → client ≠ 0 → ws ≤ tNs < we →
  sampleOf (tapEvent t (TRequest client seq tNs)) (TCommit nowNs ws we cmd) = [mkSample client seq tNs nowNs].
Proof.
  intros Hd Hc [Hw1 Hw2]. cbn [tapEvent sampleOf tap_enq]. rewrite tapSlot_identity, Hd, (proj2 (N.eqb_neq _ _) Hc).
  unfold tapOnRequest. rewrite (proj2 (N.eqb_neq _ _) Hc). cbv zeta. set (h := mixIdentity client seq). set (v := mkEnqSlot client seq tNs).
  set (q := λ s, (sl_client s =? 0) || same_identity client seq s).
  assert (same_identity client seq v = true) as Hv by (unfold same_identity; cbn; by rewrite !N.eqb_refl).
  assert (firstSlot (same_identity client seq) (<[default (N.land h kSlotMask) (firstSlot q (tap_enq t) h) := v]> (tap_enq t)) h =
    Some (default (N.land h kSlotMask) (firstSlot q (tap_enq t) h))) as ->.
  { destruct (firstSlot q (tap_enq t) h) as [i|] eqn:Ef; cbn [default from_option id].
    - eapply head_filter_insert; [|exact Ef|done]. intros j Hj. unfold q. by rewrite Hj, orb_true_r.
    - assert (add64 h 0 = h) as Eh by (unfold add64; rewrite N.add_0_r; apply N.mod_small, mixIdentity_lt).
      unfold firstSlot, probe. cbn [fmap list_fmap]. rewrite Eh, filter_cons, decide_True; [done|]. by rewrite fn_lookup_insert. }
  rewrite fn_lookup_insert. cbn [sl_tNs sl_client sl_seq v]. by rewrite (proj2 (N.leb_le _ _) Hw1), (proj2 (N.ltb_lt _ _) Hw2).
Qed.

Module TapSample.

(** A command of a client, as far as the tap looks at it. *)
Definition cmd (client seq : N) : Command := le_bytes 8 client ++ le_bytes 8 seq.

(** Two clients of a load generator whose identities share a home slot.  The
    second retries its request after the first one's has committed, and both of its
    entries commit. *)
Definition retried : list TapEvent :=
  [TRequest 1000003 60 10; TRequest 1000002 66 20; TCommit 30 0 100 (cmd 1000003 60);
   TRequest 1000002 66 40; TCommit 50 0 100 (cmd 1000002 66); TCommit 60 0 100 (cmd 1000002 66)].

(** A retried request is measured from the retry and counted twice.  The entry
    proposed at time 20 gives a sample of 10 when it commits at time 50, from the
    stamp of the retry; the retry's entry gives a second one, from the older stamp,
    which was still in another slot. *)
Theorem retry_sampled_twice :
  N.land (mixIdentity 1000003 60) kSlotMask = N.land (mixIdentity 1000002 66) kSlotMask ∧
  (tapRun retried).2 = [mkSample 1000003 60 10 30; mkSample 1000002 66 40 50; mkSample 1000002 66 20 60].
Proof. split; by vm_compute. Qed.

End TapSample.
