(* ===== verification/BenchCluster.v ===== *)
(** * bench/bench_cluster.h, bench/bench_cluster.cpp: the instrumented cluster

    Nodes wired as by the node program, with the instruments of BenchTap.v and
    BenchMonitor.v attached, killed and restarted by the failover driver; and the
    handshake by which the driver reads a node's histogram off its Raft thread.
    The files of a node that has been stopped are what its stores wrote. *)

From Stdlib Require Import NArith ZArith Strings.Byte Lia.
From S2P Require Import Prelude Text Messages Log RaftCore RaftSpec RaftInv Cluster DurableLog DurableState Storage OrdMap KvStore OrderBook.
From S2P Require Import ClientService NodeRuntime Sink ThreadedCluster Histogram SimNetwork FaultSchedule Numerals PeerConfig Sockets NodeMain.
From S2P Require Import LoadGen BenchMonitor BenchTap.

Local Open Scope N_scope.

Record BenchClusterConfig := mkBenchConfig {
  bc_nodes : N;
  bc_orderBook : bool;
  bc_dataBase : list byte;
  bc_fsync : FsyncPolicy;
  bc_wait : WaitMode;
  bc_batch : Z;
  bc_lingerUs : Z;
  bc_pinRaftThreads : bool;
  bc_seed : N;
}.

Definition defaultBenchConfig : BenchClusterConfig :=
  mkBenchConfig 3 false (str "/dev/shm") EveryDurabilityPoint Block 1 200 false 1.

Definition kRaftCpus : list N := [0; 2; 4].

(** The ids of the nodes. *)
Definition nodeIds (nodes : N) : list NodeId := N.of_nat <$> seq 1 (N.to_nat nodes).

(** The pin target of a node in pin mode. *)
Definition raftPinCpu (cfg : BenchClusterConfig) (id : NodeId) : option N :=
  if bc_pinRaftThreads cfg && (id <=? 3) then kRaftCpus !! N.to_nat (id - 1) else None.

(** The send hook: [None] when the message is dropped. *)
Definition sendHook (nodes : N) (id to : NodeId) (g : FaultGate) (rng : option N) (ordinal : N) : bool * option N * N :=
  if (1 <=? to) && (to <=? nodes) then shouldDrop id to g rng ordinal else (false, rng, ordinal).

Section Bench.
Context {SM R : Type} `{!Rng R} (sm0 : SM) (seedRng : N → R).

Local Abbreviation Core :=
  (@RaftCore DurablePersistentState DurableLog (@StallableSM SM) R (@ApplySide (@StallableSM SM) ClientService)).
Local Abbreviation Runtime := (@NodeRuntime DurablePersistentState DurableLog (@StallableSM SM) R ClientService).

Record BenchNode := mkBenchNode {
  bn_runtime : Runtime;            (* with the core, its stores and the service *)
  bn_port : N;
  bn_stopped : bool;
  bn_tap : Tap;
  bn_snapReq : N;
  bn_pinTried : bool;
  bn_pinned : bool;
}.

Definition bn_core (n : BenchNode) : Core := core_ (bn_runtime n).

(** The data directory of a node. *)
Definition bn_dir (n : BenchNode) : DataDir := mkDataDir (d_file (log_ (bn_core n))) (s_fs (persist_ (bn_core n))).

Record BenchCluster := mkBenchCluster {
  cl_cfg : BenchClusterConfig;
  cl_nodes : list BenchNode;
  cl_restarts : N;
}.

(** *** Building a node *)

(** The runtime of node [id], started; [None] when a store refuses its files. *)
Definition buildRuntime (cfg : BenchClusterConfig) (id : NodeId) (incarnation : N) (d : DataDir) (now : TimePoint) : option Runtime :=
  match DurablePersistentState_open (dd_meta d), DurableLog.replay (dd_log d) with
  | Some persist, Some (Replayed log) =>
      let sm := mkStallable sm0 0 in
      let peers := filter (λ p, p ≠ id) (nodeIds (bc_nodes cfg)) in
      let core : Core := RaftCore_new id peers persist log sm
                           (seedRng (deriveSeed (bc_seed cfg) (add64 (mul64 1000 id) incarnation))) defaultConfig in
      let rcfg := runtimeConfig (bc_wait cfg) in
      Some (startRuntime rcfg sm (serviceFor (bc_batch cfg) (bc_lingerUs cfg)) now (NodeRuntime_new rcfg core))
  | _, _ => None
  end.

(** Every node on an empty directory; the ports are those the transports got. *)
Definition BenchCluster_new (cfg : BenchClusterConfig) (ports : NodeId → N) (now : TimePoint) : option BenchCluster :=
  nodes ← mapM (λ id, rt ← buildRuntime cfg id 0 emptyDir now;
                      Some (mkBenchNode rt (ports id) false (tapRebuilt 0 Tap_new) 0 false false)) (nodeIds (bc_nodes cfg));
  Some (mkBenchCluster cfg nodes 0).

Definition nodeAt (id : NodeId) (c : BenchCluster) : option BenchNode := cl_nodes c !! N.to_nat (id - 1).

Definition set_node (id : NodeId) (n : BenchNode) (c : BenchCluster) : BenchCluster :=
  mkBenchCluster (cl_cfg c) (<[N.to_nat (id - 1) := n]> (cl_nodes c)) (cl_restarts c).

Definition peerMap (c : BenchCluster) : PeerMap :=
  imap (λ i n, (N.of_nat (S i), mkPeerAddress (str "127.0.0.1") (bn_port n))) (cl_nodes c).

Definition nodeAlive (id : NodeId) (c : BenchCluster) : bool :=
  match nodeAt id c with Some n => negb (bn_stopped n) | None => false end.

Definition raftPinsApplied (c : BenchCluster) : bool :=
  forallb (λ p, negb (bool_decide (is_Some (raftPinCpu (cl_cfg c) p.1)) && negb (bn_pinned p.2)))
    (imap (λ i n, (N.of_nat (S i), n)) (cl_nodes c)).

(** *** Killing and restarting *)

Definition killNode (id : NodeId) (c : BenchCluster) : BenchCluster :=
  match nodeAt id c with
  | Some n =>
      if bn_stopped n then c
      else set_node id (mkBenchNode (bn_runtime n) (bn_port n) true (bn_tap n) (bn_snapReq n) (bn_pinTried n) (bn_pinned n)) c
  | None => c
  end.

(** [None] is an exception of a store. *)
Definition restartNode (id : NodeId) (now : TimePoint) (c : BenchCluster) : option BenchCluster :=
  match nodeAt id c with
  | Some n =>
      if negb (bn_stopped n) then Some c
      else
        let c := mkBenchCluster (cl_cfg c) (cl_nodes c) (add64 (cl_restarts c) 1) in
        rt ← buildRuntime (cl_cfg c) id (cl_restarts c) (bn_dir n) now;
        Some (set_node id (mkBenchNode rt (bn_port n) false (tapRebuilt (bn_snapReq n) (bn_tap n)) (bn_snapReq n) false false) c)
  | None => Some c
  end.

(** *** Hooks *)

(** The client-request handler, on the Raft thread. *)
Definition benchOnRequest `{!StateMachine (@StallableSM SM)} `{!ApplySink (@ApplySide (@StallableSM SM) ClientService)}
    (now : TimePoint) (from : NodeId) (r : ClientRequest) (t : Tap) (s : ClientService) (c : Core) : Tap * ClientService * Core :=
  let t := tapEvent t (TRequest (cr_clientId r) (cr_seqNo r) now) in
  let '(s, c) := onClientRequest now from r s c in (t, s, c).

(** The service hook; [pin] is what pinning the thread to a processor answers. *)
Definition benchServiceHook `{!StateMachine (@StallableSM SM)} `{!ApplySink (@ApplySide (@StallableSM SM) ClientService)}
    (cfg : BenchClusterConfig) (id : NodeId) (pin : N → bool) (winStart winEnd : N) (now : TimePoint) (n : BenchNode)
    (s : ClientService) (c : Core) : TimePoint * (bool * bool) * Tap * ClientService * Core :=
  let '(tried, pinned) :=
    match raftPinCpu cfg id with
    | Some cpu => if bn_pinTried n then (true, bn_pinned n) else (true, pin cpu)
    | None => (bn_pinTried n, bn_pinned n)
    end in
  let t := tapOnIteration now winStart winEnd (commitIndex_ c)
             (λ i, from_option e_command [] (log_entryAt (log_ c) i)) (bn_snapReq n) (bn_tap n) in
  let '(deadline, s, c) := flushIfDue now s c in
  (deadline, (tried, pinned), t, s, c).

(** ** A bench cluster is a cluster *)

Local Abbreviation members cfg := (nodeIds (bc_nodes cfg)).

Lemma buildRuntime_boots cfg id incarnation d now rt : buildRuntime cfg id incarnation d now = Some rt →
  ∃ persist log, DurablePersistentState_open (dd_meta d) = Some persist ∧ DurableLog.replay (dd_log d) = Some (Replayed log) ∧
    core_ rt = boot (members cfg) defaultConfig (mkStallable sm0 0) id
      (mkBoot persist log (seedRng (deriveSeed (bc_seed cfg) (add64 (mul64 1000 id) incarnation)))
        (Some (ApplySide_new (runtimeConfig (bc_wait cfg)) (mkStallable sm0 0) (serviceFor (bc_batch cfg) (bc_lingerUs cfg)))) now).
Proof.
  unfold buildRuntime. destruct (DurablePersistentState_open _) as [persist|]; [|done].
  destruct (DurableLog.replay _) as [[log|]|]; [|done..]. intros [= <-]. by exists persist, log.
Qed.

(** A clean stop loses nothing: the stores reopen with what was in them. *)
Lemma reopen_stopped (d : DurableLog) (s : DurablePersistentState) : storage_ok d s →
  DurablePersistentState_open (s_fs s) = Some s ∧ DurableLog.replay (d_file d) = Some (Replayed (recovered (d_entries d) 0)).
Proof.
  intros (Hd&Hc&Hn). split; [|by apply replay_file]. unfold DurablePersistentState_open.
  assert (fs_step (s_fs s) UnlinkTmp = s_fs s) as -> by (cbn; by rewrite (clean_tmp _ _ _ Hc)).
  rewrite (load_holds _ (s_term s) (s_votedFor s)); [by destruct s|apply Hc|]. apply (clean_meta _ _ _ Hc), (clean_dir _ _ _ Hc).
Qed.

(** Restarting a node that was killed: it comes back, at its old address, as a
    boot of the cluster model from exactly the term, vote and log it was stopped
    with; nothing else changes, and what its tap had measured is kept. *)
Theorem restart_resumes id now c n : nodeAt id c = Some n → bn_stopped n = true →
  storage_ok (log_ (bn_core n)) (persist_ (bn_core n)) →
  ∃ c' n' b, restartNode id now c = Some c' ∧ nodeAt id c' = Some n' ∧ bn_stopped n' = false ∧
    bn_core n' = boot (members (cl_cfg c)) defaultConfig (mkStallable sm0 0) id b ∧
    boot_durable b = durable_of (bn_core n) ∧
    bn_port n' = bn_port n ∧ commitHist (bn_tap n') = commitHist (bn_tap n) ∧ peerMap c' = peerMap c ∧
    ∀ j, N.to_nat (j - 1) ≠ N.to_nat (id - 1) → nodeAt j c' = nodeAt j c.
Proof.
  intros Hn Hst Hok. destruct (reopen_stopped _ _ Hok) as [Hp Hl]. unfold restartNode. rewrite Hn, Hst. cbn [negb cl_cfg cl_nodes cl_restarts].
  destruct (buildRuntime (cl_cfg c) id (add64 (cl_restarts c) 1) (bn_dir n) now) as [rt|] eqn:E.
  2:{ unfold buildRuntime, bn_dir in E. cbn [dd_meta dd_log] in E. by rewrite Hp, Hl in E. }
  destruct (buildRuntime_boots _ _ _ _ _ _ E) as (persist&log&Hp'&Hl'&Hc). unfold bn_dir in Hp', Hl'. cbn [dd_meta dd_log] in Hp', Hl'.
  rewrite Hp in Hp'. injection Hp' as <-. rewrite Hl in Hl'. injection Hl' as <-. cbn [mbind option_bind].
  eexists _, _, _. split; [done|]. unfold nodeAt, set_node in *. cbn [cl_nodes].
  rewrite list_lookup_insert_eq by (by eapply lookup_lt_Some). split; [done|]. cbn [bn_stopped bn_port bn_tap]. split; [done|].
  split; [exact Hc|]. split_and!; [done|done|done| |].
  - unfold peerMap. cbn [cl_nodes]. apply list_eq. intros i. rewrite !list_lookup_imap.
    destruct (decide (i = N.to_nat (id - 1))) as [->|Hne]; [|by rewrite list_lookup_insert_ne].
    rewrite list_lookup_insert_eq by (by eapply lookup_lt_Some). by rewrite Hn.
  - intros j Hj. by rewrite list_lookup_insert_ne.
Qed.

(** The cluster of the model: the cores of the nodes, nothing on the wire. *)
Definition bench_model (c : BenchCluster) : @Cluster DurablePersistentState DurableLog (@StallableSM SM) R
    (@ApplySide (@StallableSM SM) ClientService) :=
  mkCluster (list_to_map (zip (nodeIds (bc_nodes (cl_cfg c))) (bn_core <$> cl_nodes c))) [].

Lemma buildRuntime_empty cfg id incarnation now : ∃ rt, buildRuntime cfg id incarnation emptyDir now = Some rt.
Proof. by eexists. Qed.

Lemma nodeIds_nodup nodes : NoDup (nodeIds nodes).
Proof. unfold nodeIds. apply NoDup_fmap; [apply _|]. apply NoDup_seq. Qed.

(** The constructor brings up an initial cluster of the model. *)
Theorem bench_starts_initial cfg ports now : ∃ c, BenchCluster_new cfg ports now = Some c ∧ cl_cfg c = cfg ∧
  initial (members cfg) defaultConfig (mkStallable sm0 0) (bench_model c).
Proof.
  unfold BenchCluster_new. set (f := λ id, rt ← buildRuntime cfg id 0 emptyDir now; _).
  assert (∃ nodes, mapM f (members cfg) = Some nodes) as [nodes En].
  { apply mapM_is_Some, Forall_forall. intros id _. destruct (buildRuntime_empty cfg id 0 now) as [rt E].
    change (is_Some (f id)). unfold f. rewrite E. by eexists. }
  rewrite En. cbn [mbind option_bind]. eexists. split; [done|]. split; [done|]. apply mapM_Some in En.
  assert (Forall2 (λ id n, ∃ b, boot_durable b = (0, None, []) ∧ bn_core n = boot (members cfg) defaultConfig (mkStallable sm0 0) id b)
    (members cfg) nodes) as Hb.
  { eapply Forall2_impl; [exact En|]. intros id n Hn. unfold f in Hn. apply bind_Some in Hn as (rt&Hrt&[= <-]).
    apply buildRuntime_boots in Hrt as (persist&log&Hp&Hl&Hc). vm_compute in Hp. injection Hp as <-. vm_compute in Hl. injection Hl as <-.
    eexists. split; [|exact Hc]. done. }
  unfold bench_model. cbn [cl_cfg cl_nodes]. split; [done|]. cbn [Cluster.nodes net].
  assert (length (bn_core <$> nodes) = length (members cfg)) as Hlen by (rewrite length_fmap; symmetry; by eapply Forall2_length).
  split.
  - rewrite dom_list_to_map_L, fst_zip by lia. done.
  - intros id c Hc. apply elem_of_list_to_map_2 in Hc. apply elem_of_lookup_zip_with in Hc as (i&x&y&[= <- <-]&Hx&Hy).
    rewrite list_lookup_fmap in Hy. destruct (nodes !! i) as [n|] eqn:Ey; [|done]. injection Hy as <-.
    by destruct (Forall2_lookup_lr _ _ _ _ _ _ Hb Hx Ey) as (b&?&?); exists b.
Qed.

End Bench.

(** ** Reading a histogram off the Raft thread *)

(** One node's histogram as the samples in it, the shared words, and where the
    Raft thread and the driver are. *)
Inductive RaftSnapPc := RsIdle | RsLoaded (req : N) | RsCopied (req : N).
Inductive DriverPc := DrIdle | DrWaiting (req : N) | DrReading.

Record SnapState := mkSnap {
  sn_hist : list N;                (* recorded so far *)
  sn_req : N; sn_seen : N; sn_ack : N;
  sn_out : list N;
  sn_raft : RaftSnapPc;
  sn_driver : DriverPc;
  sn_asked : list N;               (* what had been recorded when the driver asked *)
}.

Definition snap_init : SnapState := mkSnap [] 0 0 0 [] RsIdle DrIdle [].

Inductive SnapAct := SnRecord (v : N) | SnRaft | SnDriver | SnTimeout | SnRebuild.

(** The Raft thread records between iterations, and steps through the end of
    [tapOnIteration]; the driver asks, waits and reads.  A rebuild needs both to
    be at rest: the threads are joined, and the driver is who does it. *)
Definition snapStep (s : SnapState) (x : SnapAct) : SnapState :=
  let '(mkSnap hist req seen ack out raft driver asked) := s in
  match x with
  | SnRecord v => match raft with RsIdle => mkSnap (hist ++ [v]) req seen ack out raft driver asked | _ => s end
  | SnRaft =>
      match raft with
      | RsIdle => if req =? seen then s else mkSnap hist req seen ack out (RsLoaded req) driver asked
      | RsLoaded r => mkSnap hist req r ack hist (RsCopied r) driver asked
      | RsCopied r => mkSnap hist req seen r out RsIdle driver asked
      end
  | SnDriver =>
      match driver with
      | DrIdle => mkSnap hist (req + 1) seen ack out raft (DrWaiting (req + 1)) hist
      | DrWaiting r => if r <=? ack then mkSnap hist req seen ack out raft DrReading asked else s
      | DrReading => mkSnap hist req seen ack out raft DrIdle asked
      end
  | SnTimeout => match driver with DrWaiting _ => mkSnap hist req seen ack out raft DrIdle asked | _ => s end
  | SnRebuild =>
      match raft, driver with
      | RsIdle, DrIdle => mkSnap hist req req req out raft driver asked
      | _, _ => s
      end
  end.

Definition snap_run (acts : list SnapAct) : SnapState := foldl snapStep snap_init acts.

Record snap_ok (s : SnapState) : Prop := {
  so_seen : sn_seen s ≤ sn_req s;
  so_ack : sn_ack s ≤ sn_seen s;
  so_raft : match sn_raft s with
            | RsIdle => sn_ack s = sn_seen s
            | RsLoaded r => sn_ack s = sn_seen s ∧ sn_seen s < r ≤ sn_req s
            | RsCopied r => sn_seen s = r ∧ sn_ack s < r
            end;
  so_driver : match sn_driver s with
              | DrIdle => True
              | DrWaiting r => r = sn_req s ∧ (r ≤ sn_seen s → sn_asked s `prefix_of` sn_out s)
              | DrReading => sn_ack s = sn_req s ∧ sn_asked s `prefix_of` sn_out s
              end;
  so_asked : sn_asked s `prefix_of` sn_hist s;
}.

Lemma snapStep_ok s x : snap_ok s → snap_ok (snapStep s x).
Proof.
  intros [H1 H2 H3 H4 H5]. destruct s as [hist req seen ack out raft driver asked].
  cbn [sn_hist sn_req sn_seen sn_ack sn_out sn_raft sn_driver sn_asked] in *. destruct x as [v| | | |]; cbn [snapStep].
  - destruct raft; split; cbn; try done. by apply prefix_app_r.
  - destruct raft as [|r|r].
    + destruct (N.eqb_spec req seen) as [->|]; split; cbn; try done; lia.
    + destruct H3 as [H3 H3']. split; cbn; try done; try lia. destruct driver as [|r'|]; try done; [|lia]. by destruct H4.
    + destruct H3 as [<- H3]. split; cbn; try done; try lia. destruct driver as [|r'|]; try done. destruct H4. split; [lia|done].
  - destruct driver as [|r|].
    + split; cbn; [lia|done| |split; [done|lia]|done]. destruct raft; [done| |done]. destruct H3. split; [done|lia].
    + destruct (N.leb_spec r ack); split; cbn; try done. destruct H4 as [-> H4]. split; [lia|apply H4; lia].
    + by split.
  - destruct driver; by split.
  - destruct raft, driver; split; cbn; try done; lia.
Qed.

(** The driver reads complete histograms and races with nobody.  In every
    interleaving of the Raft thread and the driver, time-outs and rebuilds
    included: while the driver reads the published copy the Raft thread is not
    writing it and will not before the driver has finished, and the copy has every
    sample recorded before the driver asked. *)
Theorem snapshot_handshake acts : let s := snap_run acts in
  sn_driver s = DrReading →
  sn_asked s `prefix_of` sn_out s ∧ sn_raft s = RsIdle ∧ sn_out (snapStep s SnRaft) = sn_out s ∧
  sn_raft (snapStep s SnRaft) = RsIdle.
Proof.
  assert (snap_ok (snap_run acts)) as Hok.
  { unfold snap_run. induction acts as [|x acts IH] using rev_ind; [by split|]. rewrite foldl_app. by apply snapStep_ok. }
  cbv zeta. destruct (snap_run acts) as [hist req seen ack out raft driver asked]. intros Hd.
  destruct Hok as [H1 H2 H3 H4 H5]. cbn [sn_hist sn_req sn_seen sn_ack sn_out sn_raft sn_driver sn_asked] in *. subst driver.
  destruct H4 as [-> Ha]. assert (seen = req) as -> by lia. destruct raft as [|r|r]; [|lia|lia]. cbn. rewrite N.eqb_refl. by split_and!.
Qed.

(** The merged histogram of the nodes that run and have answered in time; what the
    handshake gave for each is [published]. *)
Definition commitHistogram (nodes : list (bool * option LatencyHistogram)) : LatencyHistogram :=
  foldl (λ m n, match n with (false, Some h) => merge m h | _ => m end) LatencyHistogram_new nodes.

(** ** Who is measured *)

Section Follower.
Context {SM R : Type} `{!Rng R} `{!StateMachine (@StallableSM SM)} `{!ApplySink (@ApplySide (@StallableSM SM) ClientService)}.

(** A node that is not the leader refuses a request and stamps it all the same:
    when the entry the leader makes of it commits here, its time is counted in this
    node's histogram, from the refusal on. *)
Theorem follower_is_measured now nowNs ws we from (r : ClientRequest) t s
    (c : @RaftCore DurablePersistentState DurableLog (@StallableSM SM) R (@ApplySide (@StallableSM SM) ClientService)) cmd :
  role_ c ≠ Leader → cr_clientId r ≠ 0 → ws ≤ now < we →
  decodePrefix cmd = Some (cr_clientId r, cr_seqNo r) →
  let '(t', s', c') := benchOnRequest now from r t s c in
  c' = c ∧ sent_ s' = sent_ s ++ [(from, mkClientReply CsNotLeader (default 0 (leaderId_ c)) [])] ∧
  sampleOf t' (TCommit nowNs ws we cmd) = [mkSample (cr_clientId r) (cr_seqNo r) now nowNs].
Proof.
  intros Hr Hc Hw Hd. unfold benchOnRequest, onClientRequest. rewrite bool_decide_eq_true_2 by done.
  split_and!; [done|done|]. by apply tap_measures.
Qed.

End Follower.
