(* ===== verification/RsmBench.v ===== *)
(** * bench/rsm_bench_main.cpp: the benchmark driver

    The command line, the configuration of the run, the failover trials, the
    verdict and the report.  What the run measured is a parameter; the parts that
    measure it are in LoadGen.v, BenchMonitor.v, BenchTap.v and BenchCluster.v. *)

From Stdlib Require Import NArith ZArith Strings.Byte Floats.SpecFloat Lia.
From S2P Require Import Prelude Text Messages RaftCore OrdMap KvStore NodeRuntime Histogram SimNetwork FaultSchedule Numerals Json BenchReport.
From S2P Require Import PeerConfig Sockets NodeMain LoadGen BenchMonitor BenchTap BenchCluster.

Local Open Scope N_scope.

(** ** Options *)

Record Options := mkOptions {
  op_mode : list byte;
  op_orderBook : bool;
  op_seed : N;
  op_seconds : Z;
  op_warmup : Z;
  op_threads : Z;
  op_rate : double;
  op_trials : Z;
  op_keys : Z;
  op_valueBytes : Z;
  op_dataBase : list byte;
  op_fsync : FsyncPolicy;
  op_wait : WaitMode;
  op_batch : Z;
  op_lingerUs : Z;
  op_pin : bool;
  op_lossPct : double;
  op_partitionPeriodMs : Z;
  op_partitionLenMs : Z;
  op_drainCapS : Z;
  op_out : list byte;
  op_label : list byte;
}.

Definition defaultOptions : Options :=
  mkOptions (str "closed") false 1 10 3 4 (to_double 1000) 50 64 16 (str "/dev/shm") EveryDurabilityPoint Block 1 200 false dzero 0 0 10 [] [].

(** A flag that takes a value; [None] is [usage]. *)
Definition rsmFlag (a v : list byte) (o : Options) : option Options :=
  let '(mkOptions m ob sd se wm th ra tr ke vb db fp wt ba li pi lo pp pl dc ou la) := o in
  if decide (a = str "--mode") then Some (mkOptions v ob sd se wm th ra tr ke vb db fp wt ba li pi lo pp pl dc ou la)
  else if decide (a = str "--sm") then ob ← sm_word v; Some (mkOptions m ob sd se wm th ra tr ke vb db fp wt ba li pi lo pp pl dc ou la)
  else if decide (a = str "--seed") then Some (mkOptions m ob (strtoull v) se wm th ra tr ke vb db fp wt ba li pi lo pp pl dc ou la)
  else if decide (a = str "--seconds") then Some (mkOptions m ob sd (atoi v) wm th ra tr ke vb db fp wt ba li pi lo pp pl dc ou la)
  else if decide (a = str "--warmup") then Some (mkOptions m ob sd se (atoi v) th ra tr ke vb db fp wt ba li pi lo pp pl dc ou la)
  else if decide (a = str "--threads") then Some (mkOptions m ob sd se wm (atoi v) ra tr ke vb db fp wt ba li pi lo pp pl dc ou la)
  else if decide (a = str "--rate") then Some (mkOptions m ob sd se wm th (atof v) tr ke vb db fp wt ba li pi lo pp pl dc ou la)
  else if decide (a = str "--trials") then Some (mkOptions m ob sd se wm th ra (atoi v) ke vb db fp wt ba li pi lo pp pl dc ou la)
  else if decide (a = str "--keys") then Some (mkOptions m ob sd se wm th ra tr (atoi v) vb db fp wt ba li pi lo pp pl dc ou la)
  else if decide (a = str "--value-bytes") then Some (mkOptions m ob sd se wm th ra tr ke (atoi v) db fp wt ba li pi lo pp pl dc ou la)
  else if decide (a = str "--data-base") then Some (mkOptions m ob sd se wm th ra tr ke vb v fp wt ba li pi lo pp pl dc ou la)
  else if decide (a = str "--fsync") then fp ← fsync_word v; Some (mkOptions m ob sd se wm th ra tr ke vb db fp wt ba li pi lo pp pl dc ou la)
  else if decide (a = str "--wait") then wt ← wait_word v; Some (mkOptions m ob sd se wm th ra tr ke vb db fp wt ba li pi lo pp pl dc ou la)
  else if decide (a = str "--batch") then Some (mkOptions m ob sd se wm th ra tr ke vb db fp wt (atoi v) li pi lo pp pl dc ou la)
  else if decide (a = str "--linger-us") then Some (mkOptions m ob sd se wm th ra tr ke vb db fp wt ba (atoi v) pi lo pp pl dc ou la)
  else if decide (a = str "--loss-pct") then Some (mkOptions m ob sd se wm th ra tr ke vb db fp wt ba li pi (atof v) pp pl dc ou la)
  else if decide (a = str "--partition-period-ms") then Some (mkOptions m ob sd se wm th ra tr ke vb db fp wt ba li pi lo (atoi v) pl dc ou la)
  else if decide (a = str "--partition-len-ms") then Some (mkOptions m ob sd se wm th ra tr ke vb db fp wt ba li pi lo pp (atoi v) dc ou la)
  else if decide (a = str "--drain-cap-s") then Some (mkOptions m ob sd se wm th ra tr ke vb db fp wt ba li pi lo pp pl (atoi v) ou la)
  else if decide (a = str "--out") then Some (mkOptions m ob sd se wm th ra tr ke vb db fp wt ba li pi lo pp pl dc v la)
  else if decide (a = str "--label") then Some (mkOptions m ob sd se wm th ra tr ke vb db fp wt ba li pi lo pp pl dc ou v)
  else None.

Definition set_pin (o : Options) : Options :=
  let '(mkOptions m ob sd se wm th ra tr ke vb db fp wt ba li pi lo pp pl dc ou la) := o in
  (mkOptions m ob sd se wm th ra tr ke vb db fp wt ba li true lo pp pl dc ou la).

Fixpoint rsmFlags (args : list (list byte)) (o : Options) : option Options :=
  match args with
  | [] => Some o
  | a :: args =>
      if decide (a = str "--pin") then rsmFlags args (set_pin o)
      else match args with [] => None | v :: args => o ← rsmFlag a v o; rsmFlags args o end
  end.

(** The checks after the loop; comparisons with NaN are false. *)
Definition rsmValid (o : Options) : bool :=
  (bool_decide (op_mode o = str "closed") || bool_decide (op_mode o = str "open") || bool_decide (op_mode o = str "failover")) &&
  negb ((op_seconds o <? 1) || (op_warmup o <? 0) || (op_threads o <? 1) || (op_keys o <? 1) || (op_valueBytes o <? 0) ||
        (op_batch o <? 1) || (op_lingerUs o <? 0) || SFleb (op_rate o) dzero || (op_trials o <? 1) ||
        SFltb (op_lossPct o) dzero || SFltb (to_double 100) (op_lossPct o))%Z.

(** The arguments after [argv[0]]. *)
Definition rsmOptions (args : list (list byte)) : option Options :=
  o ← rsmFlags args defaultOptions; if rsmValid o then Some o else None.

(** ** The run *)

Definition is_failover (o : Options) : bool := bool_decide (op_mode o = str "failover").

Definition faulted (o : Options) : bool := SFltb dzero (op_lossPct o) || (0 <? op_partitionPeriodMs o)%Z.

Definition clusterConfig (o : Options) : BenchClusterConfig :=
  mkBenchConfig (bc_nodes defaultBenchConfig) (op_orderBook o) (op_dataBase o) (op_fsync o) (op_wait o) (op_batch o)
    (op_lingerUs o) (op_pin o) (op_seed o).

(** [static_cast<uint64_t>(v) * 1'000'000'000ull] *)
Definition secondsNs (v : Z) : N := mul64 (Z.to_N (v mod 2 ^ 64)) 1000000000.

Definition genConfig (o : Options) : GenConfig :=
  mkGenConfig (Z.to_nat (op_threads o)) (op_seed o) (Z.to_nat (op_keys o)) (Z.to_nat (op_valueBytes o)) (op_orderBook o)
    (g_priceBase defaultGenConfig) (g_priceBand defaultGenConfig) (g_qtyMax defaultGenConfig) (op_rate o)
    (secondsNs (op_drainCapS o)) (g_clientIdBase defaultGenConfig) (g_envelopeIdBase defaultGenConfig)
    (g_perAttemptTimeoutMs defaultGenConfig) (g_maxAttempts defaultGenConfig).

(** The faults that are really injected: the loss in a thousand, and whether the
    partition driver runs. *)
Definition lossPermille (o : Options) : N :=
  if SFltb dzero (op_lossPct o) then truncate64 (dmul (op_lossPct o) (to_double 10)) else 0.
Definition partitions (o : Options) : bool := (0 <? op_partitionPeriodMs o)%Z && (0 <? op_partitionLenMs o)%Z.

Definition measureStart (o : Options) (t0 : N) : N := add64 t0 (secondsNs (op_warmup o)).

(** The end of the window: fixed, or when the trials are over at [trialsEnd]. *)
Definition measureEnd (o : Options) (t0 trialsEnd : N) : N :=
  if is_failover o then trialsEnd else add64 (measureStart o t0) (secondsNs (op_seconds o)).

(** ** Waiting and failing over *)

Section Driver.
(** The world of the driver: the clock, sleeping, the node the monitor names, the
    two probe clients (did the write commit?), killing and restarting. *)
Context {W : Type}.
Context (os_now : W → N * W) (os_sleep : N → W → W).
Context (leader : W → NodeId).
Context (readyProbe failoverProbe : W → bool * W).
Context (kill restart : NodeId → W → W).

(** [awaitReady]: the leader, or [None] after the deadline; fuel for the polls. *)
Fixpoint awaitReady (fuel : nat) (deadline : N) (w : W) : option NodeId * W :=
  match fuel with
  | O => (None, w)
  | S fuel =>
      let '(now, w) := os_now w in
      if deadline <=? now then (None, w)
      else
        let '(ok, w) := if leader w =? 0 then (false, w) else readyProbe w in
        if ok : bool then (Some (leader w), w) else awaitReady fuel deadline (os_sleep 20 w)
  end.

Definition awaitReadyFor (fuel : nat) (limitS : N) (w : W) : option NodeId * W :=
  let '(now, w) := os_now w in awaitReady fuel (now + limitS * 1000000000) w.

(** What a trial does to the cluster, in order. *)
Inductive Move := MKill (v : NodeId) | MRestart (v : NodeId).

(** The trials: whether all were run, the recovery times, and the moves. *)
Fixpoint failoverTrials (fuel trials : nat) (w : W) : bool * list N * list Move * W :=
  match trials with
  | O => (true, [], [], w)
  | S trials =>
      let '(ready, w) := awaitReadyFor fuel 15 w in
      match ready with
      | None => (false, [], [], w)
      | Some _ =>
          let w := os_sleep 750 w in
          let victim := leader w in
          if victim =? 0 then failoverTrials fuel trials w
          else
            let '(killNs, w) := os_now w in
            let w := kill victim w in
            let '(ok, w) := failoverProbe w in
            let '(okNs, w) := os_now w in
            let w := restart victim w in
            let '(done, times, moves, w) := failoverTrials fuel trials w in
            (done, (if ok : bool then [sub64 okNs killNs] else []) ++ times, MKill victim :: MRestart victim :: moves, w)
      end
  end.

(** The trials take down one node at a time, a real one, and bring it back before
    the next; there are no more recovery times than nodes killed, nor more of these
    than trials. *)
Theorem failover_one_down fuel trials w : let '(_, times, moves, _) := failoverTrials fuel trials w in
  ∃ victims, moves = (victims ≫= λ v, [MKill v; MRestart v]) ∧ 0 ∉ victims ∧
    (length times ≤ length victims ≤ trials)%nat.
Proof.
  revert w. induction trials as [|trials IH]; intros w; cbn [failoverTrials].
  { exists []. split_and!; [done|by apply not_elem_of_nil|done|done]. }
  destruct (awaitReadyFor fuel 15 w) as [[l|] w1].
  2:{ exists []. split_and!; [done|by apply not_elem_of_nil|done|cbn; lia]. }
  set (w2 := os_sleep 750 w1). destruct (N.eqb_spec (leader w2) 0) as [|Hv].
  { specialize (IH w2). destruct (failoverTrials fuel trials w2) as [[[done times] moves] w3].
    destruct IH as (vs&?&?&?&?). exists vs. split_and!; (done || lia). }
  destruct (os_now w2) as [killNs w3]. destruct (failoverProbe _) as [ok w4]. destruct (os_now w4) as [okNs w5].
  set (w6 := restart _ w5). specialize (IH w6). destruct (failoverTrials fuel trials w6) as [[[done times] moves] w7].
  destruct IH as (vs&->&Hz&Hl&Hn). exists (leader w2 :: vs). split_and!; [done|by apply not_elem_of_cons| |cbn; lia].
  rewrite length_app. destruct ok; cbn; lia.
Qed.

End Driver.

(** ** The verdict and the report *)

(** What a run has measured.  The monitor is read once for each of the last four of
    its values, while the nodes' threads go on. *)
Record RunData := mkRunData {
  rd_machineStart : MachineState;
  rd_machineEnd : MachineState;
  rd_start : N;                    (* measureStart *)
  rd_end : N;                      (* measureEnd *)
  rd_stats : GenStats;
  rd_commit : LatencyHistogram;
  rd_failover : LatencyHistogram;
  rd_failoverMs : list double;
  rd_pinsApplied : bool;
  rd_dataBytes : N;
  transitions : list LeaderEvent;
  electionsWindow : nat;
  electionsTotal : nat;
  rd_maxTerm : Term;
}.

Definition valid (o : Options) (d : RunData) : bool :=
  negb (negb (is_failover o) && negb (faulted o) && (0 <? electionsWindow d)%nat).

Definition invalidReason (o : Options) (d : RunData) : list byte :=
  if valid o d then []
  else str "unexpected election(s) under clean load — investigate as a bug, do not use these numbers".

Definition windowS (o : Options) (d : RunData) : double :=
  if is_failover o then ddiv (to_double (sub64 (rd_end d) (rd_start d))) (to_double 1000000000)
  else to_double (Z.to_N (op_seconds o)).

Definition perWindow (n : N) (o : Options) (d : RunData) : double := ddiv (to_double n) (windowS o d).

Definition offeredRate (o : Options) : double := if bool_decide (op_mode o = str "open") then op_rate o else dzero.

Definition meanLateness (s : GenStats) : double :=
  if gs_sends s =? 0 then dzero else ddiv (to_double (gs_sumSendLatenessNs s)) (to_double (gs_sends s)).

Definition waitName (w : WaitMode) : list byte := match w with Block => str "block" | Spin => str "spin" end.
Definition fsyncName (f : FsyncPolicy) : list byte :=
  match f with EveryDurabilityPoint => str "every" | GroupCommit => str "group" end.
Definition smName (ob : bool) : list byte := if ob then str "orderbook" else str "kv".

(** The body of [writeConfig], after the key. *)
Definition writeConfig (o : Options) (w : JsonWriter) : JsonWriter :=
  let w := beginObject w in
  let w := kv (str "mode") (value_string (op_mode o)) w in
  let w := kv (str "sm") (value_string (smName (op_orderBook o))) w in
  let w := kv (str "seed") (value_u64 (op_seed o)) w in
  let w := kv (str "seconds") (value_int (op_seconds o)) w in
  let w := kv (str "warmup") (value_int (op_warmup o)) w in
  let w := kv (str "threads") (value_int (op_threads o)) w in
  let w := kv (str "rate") (value_double (op_rate o)) w in
  let w := kv (str "trials") (value_int (op_trials o)) w in
  let w := kv (str "keys") (value_int (op_keys o)) w in
  let w := kv (str "value_bytes") (value_int (op_valueBytes o)) w in
  let w := kv (str "data_base") (value_string (op_dataBase o)) w in
  let w := kv (str "fsync") (value_string (fsyncName (op_fsync o))) w in
  let w := kv (str "wait") (value_string (waitName (op_wait o))) w in
  let w := kv (str "batch") (value_int (op_batch o)) w in
  let w := kv (str "linger_us") (value_int (op_lingerUs o)) w in
  let w := kv (str "pin") (value_bool (op_pin o)) w in
  let w := kv (str "loss_pct") (value_double (op_lossPct o)) w in
  let w := kv (str "partition_period_ms") (value_int (op_partitionPeriodMs o)) w in
  let w := kv (str "partition_len_ms") (value_int (op_partitionLenMs o)) w in
  endObject w.

Definition writeTimes (ms : list double) (w : JsonWriter) : JsonWriter :=
  endArray (foldl (λ w v, value_double v w) (beginArray w) ms).

Definition writeTransition (e : LeaderEvent) (w : JsonWriter) : JsonWriter :=
  endArray (value_u64 (ev_role e) (value_u64 (ev_term e) (value_u64 (ev_node e) (value_u64 (ev_tNs e) (beginArray w))))).

(** No more than 256 transitions are shown. *)
Definition writeTransitions (es : list LeaderEvent) (w : JsonWriter) : JsonWriter :=
  endArray (foldl (λ w e, writeTransition e w) (beginArray w) (take 256 es)).

Definition writeResults (o : Options) (d : RunData) (w : JsonWriter) : JsonWriter :=
  let s := rd_stats d in
  let w := beginObject w in
  let w := kv (str "valid") (value_bool (valid o d)) w in
  let w := kv (str "invalid_reason") (value_string (invalidReason o d)) w in
  let w := kv (str "window_s") (value_double (windowS o d)) w in
  let w := kv (str "throughput_cps") (value_double (perWindow (gs_oks s) o d)) w in
  let w := kv (str "oks") (value_u64 (gs_oks s)) w in
  let w := kv (str "failures") (value_u64 (gs_failures s)) w in
  let w := kv (str "scheduled") (value_u64 (gs_scheduled s)) w in
  let w := kv (str "abandoned") (value_u64 (gs_abandoned s)) w in
  let w := kv (str "offered_rate") (value_double (offeredRate o)) w in
  let w := kv (str "achieved_send_rate") (value_double (perWindow (gs_sends s) o d)) w in
  let w := kv (str "mean_send_lateness_ns") (value_double (meanLateness s)) w in
  let w := kv (str "max_send_lateness_ns") (value_u64 (gs_maxSendLatenessNs s)) w in
  let w := kv (str "elections_in_window") (value_int (Z.of_nat (electionsWindow d))) w in
  let w := kv (str "elections_total") (value_int (Z.of_nat (electionsTotal d))) w in
  let w := kv (str "max_term") (value_u64 (rd_maxTerm d)) w in
  let w := kv (str "raft_pins_applied") (value_bool (op_pin o && rd_pinsApplied d)) w in
  let w := kv (str "data_bytes") (value_u64 (rd_dataBytes d)) w in
  let w := kv (str "e2e_intended") (writeHistogram (gs_intended s)) w in
  let w := kv (str "e2e_actual") (writeHistogram (gs_actual s)) w in
  let w := kv (str "commit") (writeHistogram (rd_commit d)) w in
  let w := kv (str "failover") (writeHistogram (rd_failover d)) w in
  let w := kv (str "failover_ms") (writeTimes (rd_failoverMs d)) w in
  endObject w.

Definition writeReport (o : Options) (d : RunData) (w : JsonWriter) : JsonWriter :=
  let w := beginObject w in
  let w := kv (str "label") (value_string (op_label o)) w in
  let w := kv (str "config") (writeConfig o) w in
  let w := kv (str "machine_start") (writeMachine (rd_machineStart d)) w in
  let w := kv (str "machine_end") (writeMachine (rd_machineEnd d)) w in
  let w := kv (str "results") (writeResults o d) w in
  let w := kv (str "transitions") (writeTransitions (transitions d)) w in
  endObject w.

Definition report (o : Options) (d : RunData) : list byte := out_ (writeReport o d JsonWriter_new).

(** The end of [main]: the file written, if one is asked for, and the exit code;
    [writeFile] says whether the file could be written. *)
Definition finish (writeFile : list byte → list byte → bool) (o : Options) (d : RunData) : option (list byte) * Z :=
  if bool_decide (op_out o = []) then (None, if valid o d then 0 else 3)%Z
  else
    let doc := report o d in
    if writeFile (op_out o) doc then (Some doc, if valid o d then 0 else 3)%Z else (None, 4%Z).

(** *** What is written *)

Definition configJson (o : Options) : json :=
  JObj [(str "mode", JStr (op_mode o)); (str "sm", JStr (smName (op_orderBook o))); (str "seed", ju64 (op_seed o));
        (str "seconds", jint (op_seconds o)); (str "warmup", jint (op_warmup o)); (str "threads", jint (op_threads o));
        (str "rate", jdouble (op_rate o)); (str "trials", jint (op_trials o)); (str "keys", jint (op_keys o));
        (str "value_bytes", jint (op_valueBytes o)); (str "data_base", JStr (op_dataBase o));
        (str "fsync", JStr (fsyncName (op_fsync o))); (str "wait", JStr (waitName (op_wait o)));
        (str "batch", jint (op_batch o)); (str "linger_us", jint (op_lingerUs o)); (str "pin", JBool (op_pin o));
        (str "loss_pct", jdouble (op_lossPct o)); (str "partition_period_ms", jint (op_partitionPeriodMs o));
        (str "partition_len_ms", jint (op_partitionLenMs o))].

Definition transitionJson (e : LeaderEvent) : json :=
  JArr [ju64 (ev_tNs e); ju64 (ev_node e); ju64 (ev_term e); ju64 (ev_role e)].

Definition resultsJson (o : Options) (d : RunData) : json :=
  let s := rd_stats d in
  JObj [(str "valid", JBool (valid o d)); (str "invalid_reason", JStr (invalidReason o d));
        (str "window_s", jdouble (windowS o d)); (str "throughput_cps", jdouble (perWindow (gs_oks s) o d));
        (str "oks", ju64 (gs_oks s)); (str "failures", ju64 (gs_failures s)); (str "scheduled", ju64 (gs_scheduled s));
        (str "abandoned", ju64 (gs_abandoned s)); (str "offered_rate", jdouble (offeredRate o));
        (str "achieved_send_rate", jdouble (perWindow (gs_sends s) o d));
        (str "mean_send_lateness_ns", jdouble (meanLateness s));
        (str "max_send_lateness_ns", ju64 (gs_maxSendLatenessNs s));
        (str "elections_in_window", jint (Z.of_nat (electionsWindow d)));
        (str "elections_total", jint (Z.of_nat (electionsTotal d))); (str "max_term", ju64 (rd_maxTerm d));
        (str "raft_pins_applied", JBool (op_pin o && rd_pinsApplied d)); (str "data_bytes", ju64 (rd_dataBytes d));
        (str "e2e_intended", histogramJson (gs_intended s)); (str "e2e_actual", histogramJson (gs_actual s));
        (str "commit", histogramJson (rd_commit d)); (str "failover", histogramJson (rd_failover d));
        (str "failover_ms", JArr (jdouble <$> rd_failoverMs d))].

Definition reportJson (o : Options) (d : RunData) : json :=
  JObj [(str "label", JStr (op_label o)); (str "config", configJson o);
        (str "machine_start", machineJson (rd_machineStart d)); (str "machine_end", machineJson (rd_machineEnd d));
        (str "results", resultsJson o d);
        (str "transitions", JArr (transitionJson <$> take 256 (transitions d)))].

(** The doubles of a report are numbers. *)
Definition report_finite (o : Options) (d : RunData) : Prop :=
  Forall finite ([op_rate o; op_lossPct o; loadavg1 (rd_machineStart d); loadavg1 (rd_machineEnd d); windowS o d;
    perWindow (gs_oks (rd_stats d)) o d; perWindow (gs_sends (rd_stats d)) o d; meanLateness (rd_stats d);
    mean (gs_intended (rd_stats d)); mean (gs_actual (rd_stats d)); mean (rd_commit d); mean (rd_failover d)] ++
    rd_failoverMs d).

Lemma fold_writes {A} (f : A → JsonWriter → JsonWriter) (j : A → json) l : (∀ x, writes (f x) (j x)) →
  writes (λ w, endArray (foldl (λ w x, f x w) (beginArray w) l)) (JArr (j <$> l)).
Proof.
  intros Hf w. assert (∀ w, foldl (λ w x, f x w) w l = foldl (λ w g, g w) w (f <$> l)) as ->.
  { induction l as [|x l IH]; intros w'; [done|]. apply IH. }
  apply array_writes. apply Forall2_fmap, Forall_Forall2_diag, Forall_true, Hf.
Qed.

Lemma writeTimes_writes ms : writes (writeTimes ms) (JArr (jdouble <$> ms)).
Proof. by apply fold_writes. Qed.

Lemma writeTransitions_writes es : writes (writeTransitions es) (JArr (transitionJson <$> take 256 es)).
Proof.
  apply fold_writes. intros e. apply (array_writes [value_u64 (ev_tNs e); value_u64 (ev_node e); value_u64 (ev_term e); value_u64 (ev_role e)]).
  by repeat constructor.
Qed.

Lemma writeConfig_writes o : writes (writeConfig o) (configJson o).
Proof. unfold writeConfig. written_out. Qed.

#[local] Hint Resolve writeTimes_writes writeTransitions_writes writeConfig_writes : rsm.

Lemma writeResults_writes o d : writes (writeResults o d) (resultsJson o d).
Proof. unfold writeResults. written_out. Qed.

#[local] Hint Resolve writeResults_writes : rsm.

#[local] Opaque writeResults writeConfig writeMachine writeHistogram writeTransitions writeTimes.

Lemma writeReport_writes o d : writes (writeReport o d) (reportJson o d).
Proof. unfold writeReport, reportJson. written_out. Qed.

Lemma jdoubles_ok ms : Forall finite ms → json_ok (JArr (jdouble <$> ms)).
Proof. intros H. apply ok_arr, Forall_fmap. eapply Forall_impl; [exact H|]. intros v Hv. by apply jdouble_ok. Qed.

Lemma transitionsJson_ok es : json_ok (JArr (transitionJson <$> es)).
Proof.
  apply ok_arr, Forall_fmap, Forall_true. intros e. apply ok_arr. repeat (apply Forall_cons; split; [apply ju64_ok|]). done.
Qed.

#[local] Hint Resolve jdoubles_ok transitionsJson_ok : rsm.

Lemma configJson_ok o : finite (op_rate o) → finite (op_lossPct o) → json_ok (configJson o).
Proof. intros H1 H2. unfold configJson. object_ok. Qed.

#[local] Hint Resolve configJson_ok : rsm.

Lemma offeredRate_finite o : finite (op_rate o) → finite (offeredRate o).
Proof. unfold offeredRate. by destruct (bool_decide _). Qed.

#[local] Hint Resolve offeredRate_finite : rsm.

Lemma reportJson_ok o d : report_finite o d → json_ok (reportJson o d).
Proof.
  unfold report_finite. rewrite Forall_app, !Forall_cons. intros [(H1&H2&H3&H4&H5&H6&H7&H8&H9&H10&H11&H12&_) H13].
  assert (json_ok (resultsJson o d)) by (unfold resultsJson; cbv zeta; object_ok).
  unfold reportJson. object_ok.
Qed.

(** C37: reports read back.  Whatever the label, paths and measurements, the
    document the driver writes parses, as JSON, to the tree of the configuration,
    the machine's states, the results and the first 256 transitions, as long as the
    doubles in it are numbers. *)
Theorem report_parses o d : report_finite o d → parse (report o d) = Some (reportJson o d).
Proof. intros H. apply written; [apply writeReport_writes|by apply reportJson_ok]. Qed.

(** ** The verdict *)

Lemma exit_valid wf o d : (finish wf o d).2 = 0%Z → valid o d = true.
Proof.
  unfold finish. destruct (bool_decide _); [by destruct (valid o d)|]. cbv zeta. destruct (wf _ _); [|done]. by destruct (valid o d).
Qed.

Lemma valid_clean o d : is_failover o = false → faulted o = false → valid o d = true ↔ electionsWindow d = 0%nat.
Proof. intros Hf Hc. unfold valid. rewrite Hf, Hc. destruct (Nat.ltb_spec 0 (electionsWindow d)); cbn [negb andb]; split; (done || lia). Qed.

Lemma no_election_among fromNs toNs es : electionsAmong fromNs toNs es = 0%nat → ∀ e, e ∈ es → ev_role e = kLeader →
  ev_tNs e < fromNs ∨ toNs ≤ ev_tNs e.
Proof.
  unfold electionsAmong. intros H%nil_length_inv e He Hr.
  destruct (N.lt_ge_cases (ev_tNs e) fromNs) as [|H1]; [by left|]. destruct (N.lt_ge_cases (ev_tNs e) toNs) as [H2|]; [|by right].
  exfalso. apply (not_elem_of_nil e). rewrite <-H. apply list_elem_of_filter. done.
Qed.

(** C36: a run that exits with success was stable.  Suppose a closed or open run
    without faults exits with 0, and its count of elections in the window is the one
    [electionsIn] makes while the nodes' Raft threads go on recording: it loads the
    number of slots after the steps [acts] of those threads, and meets each slot at
    some later time.  Then every election whose record was published when that reading
    began (among the 8192 calls the monitor has room for) was stamped, by the call
    that recorded it, outside the measurement window.  A record that is published
    later may be missed. *)
Theorem clean_exit_stable wf o d acts r : (finish wf o d).2 = 0%Z → is_failover o = false → faulted o = false →
  electionsWindow d = electionsAmong (rd_start d) (rd_end d) (snapshotOf r) → reading_after acts r →
  ∀ i a, ms_asked (mon_run acts) !! i = Some a → (i < kCap)%nat → ak_role a = kLeader →
  ready_ (ms_mon (mon_run acts)) i = true →
  let e := events_ (ms_mon (mon_run acts)) i in
  entry_for a (ms_clock (mon_run acts)) e ∧ (ev_tNs e < rd_start d ∨ rd_end d ≤ ev_tNs e).
Proof.
  intros Hx Hf Hc Hd Hread i a Ha Hi Hr Hrd e. apply exit_valid, (valid_clean o d Hf Hc) in Hx. rewrite Hd in Hx.
  pose proof (published_entry _ i a (mon_run_ok acts) Ha Hi Hrd) as He. split; [done|].
  apply (no_election_among _ _ _ Hx); [by apply reading_complete|]. destruct He as (_&_&E&_). by rewrite <-E in Hr.
Qed.

(** *** Options read back *)

(** The arguments that ask for given options; the two doubles as texts. *)
Definition rsmArgs (o : Options) (rate loss : list byte) : list (list byte) :=
  let int v := to_string (Z.to_N v) in
  [str "--mode"; op_mode o; str "--sm"; smName (op_orderBook o); str "--seed"; to_string (op_seed o);
   str "--seconds"; int (op_seconds o); str "--warmup"; int (op_warmup o); str "--threads"; int (op_threads o);
   str "--rate"; rate; str "--trials"; int (op_trials o); str "--keys"; int (op_keys o);
   str "--value-bytes"; int (op_valueBytes o); str "--data-base"; op_dataBase o; str "--fsync"; fsyncName (op_fsync o);
   str "--wait"; waitName (op_wait o); str "--batch"; int (op_batch o); str "--linger-us"; int (op_lingerUs o);
   str "--loss-pct"; loss; str "--partition-period-ms"; int (op_partitionPeriodMs o);
   str "--partition-len-ms"; int (op_partitionLenMs o); str "--drain-cap-s"; int (op_drainCapS o);
   str "--out"; op_out o; str "--label"; op_label o] ++ (if op_pin o then [str "--pin"] else []).

Definition int_ok (v : Z) : Prop := (0 ≤ v < 2 ^ 31)%Z.

Lemma atoi_printed v : int_ok v → atoi (to_string (Z.to_N v)) = v.
Proof. intros [? ?]. rewrite atoi_to_string; lia. Qed.

(** Every flag sets its own option and no other. *)
Theorem rsm_options_roundtrip o rate loss : rsmValid o = true → op_seed o < two64 →
  Forall int_ok [op_seconds o; op_warmup o; op_threads o; op_trials o; op_keys o; op_valueBytes o; op_batch o; op_lingerUs o;
    op_partitionPeriodMs o; op_partitionLenMs o; op_drainCapS o] →
  atof rate = op_rate o → atof loss = op_lossPct o →
  rsmOptions (rsmArgs o rate loss) = Some o.
Proof.
  intros Hv Hs Hints Hrate Hloss. assert (rsmFlags (rsmArgs o rate loss) defaultOptions = Some o) as E; [|unfold rsmOptions; rewrite E; cbn; by rewrite Hv].
  rewrite !Forall_cons in Hints. destruct Hints as (H1&H2&H3&H4&H5&H6&H7&H8&H9&H10&H11&_). clear Hv.
  destruct o as [m ob sd se wm th ra tr ke vb db fp wt ba li pi lo pp pl dc ou la].
  cbn [op_seed op_seconds op_warmup op_threads op_rate op_trials op_keys op_valueBytes op_batch op_lingerUs op_lossPct
    op_partitionPeriodMs op_partitionLenMs op_drainCapS] in *. subst ra lo.
  transitivity (Some (mkOptions m ob (strtoull (to_string sd)) (atoi (to_string (Z.to_N se))) (atoi (to_string (Z.to_N wm)))
    (atoi (to_string (Z.to_N th))) (atof rate) (atoi (to_string (Z.to_N tr))) (atoi (to_string (Z.to_N ke)))
    (atoi (to_string (Z.to_N vb))) db fp wt (atoi (to_string (Z.to_N ba))) (atoi (to_string (Z.to_N li))) pi (atof loss)
    (atoi (to_string (Z.to_N pp))) (atoi (to_string (Z.to_N pl))) (atoi (to_string (Z.to_N dc))) ou la)).
  - destruct ob, fp, wt, pi; reflexivity.
  - rewrite !atoi_printed by done. by rewrite strtoull_to_string.
Qed.

(** ** Exempt without a fault, and numbers that are none *)

Module RsmSample.

(** A partition period without a length, or a loss of less than a thousandth:
    nothing is injected, and yet the run is exempt from the verdict, whatever
    elections it has seen. *)
Theorem exempt_without_fault : ∀ args, args = [str "--partition-period-ms"; str "1000"] ∨ args = [str "--loss-pct"; str "0.05"] →
  ∃ o, rsmOptions args = Some o ∧ is_failover o = false ∧ lossPermille o = 0 ∧ partitions o = false ∧
    ∀ d, valid o d = true.
Proof.
  intros args [->| ->]; eexists; (split; [vm_compute; reflexivity|]); (split_and!; [by vm_compute..|]); intros d; by unfold valid.
Qed.

(** A rate or a loss that is not a number passes the checks. *)
Theorem nan_accepted : ∃ o, rsmOptions [str "--rate"; str "nan"; str "--loss-pct"; str "nan"] = Some o ∧
  op_rate o = S754_nan ∧ op_lossPct o = S754_nan ∧ parse (fmt_g6 (op_rate o)) = None.
Proof. eexists. split; [vm_compute; reflexivity|]. by split_and!. Qed.

(** A failover run that is over before its warm-up: the window's length wraps. *)
Theorem short_failover_window : ∃ o, rsmOptions [str "--mode"; str "failover"; str "--trials"; str "1"] = Some o ∧
  measureStart o 0 = 3000000000 ∧ sub64 2000000000 (measureStart o 0) = 18446744072709551616.
Proof. eexists. split; [vm_compute; reflexivity|]. by split. Qed.

(** *** A run *)

Definition machine : MachineState :=
  mkMachineState (str "cpu") 12 (str "performance") (str "0") (str "Linux 6") (of_decimal false 25 (-2)) 51 (str "800-4400").

(** Node 2 wins an election at time 7, before the window. *)
Definition acts : list MonAct := MTick 7 :: call_acts 2 1 kLeader ++ [MTick 50].

(** While the driver reads, node 1 wins a second one. *)
Definition during : Reading :=
  mkReading 1 (λ _, ms_mon (mon_run (acts ++ call_acts 1 2 kLeader))).

Definition stats : GenStats := mkGenStats (hist [1500; 90000]) (hist [1200; 2000]) 2 2 0 0 88300 88000 2.

Definition data : RunData :=
  mkRunData machine machine 10 110 stats (hist [900; 1100]) (hist []) [] false 4096
    (snapshot (ms_mon (mon_run acts))) (electionsAmong 10 110 (snapshotOf during)) 1 1.

Lemma report_parses_witness : parse (report defaultOptions data) = Some (reportJson defaultOptions data).
Proof.
  apply (report_parses defaultOptions data). unfold report_finite. vm_compute. repeat constructor.
Defined.

Lemma clean_exit_stable_witness :
  let e := events_ (ms_mon (mon_run acts)) 0%nat in
  entry_for (mkAsked 7 2 1 kLeader) (ms_clock (mon_run acts)) e ∧ (ev_tNs e < rd_start data ∨ rd_end data ≤ ev_tNs e).
Proof.
  apply (clean_exit_stable (λ _ _, true) defaultOptions data acts during); [by vm_compute|by vm_compute|by vm_compute|done| | | |done|].
  - split; [by vm_compute|]. intros i. by exists (call_acts 1 2 kLeader).
  - by vm_compute.
  - apply Nat.ltb_lt. by vm_compute.
  - by vm_compute.
Defined.

End RsmSample.
