(* ===== verification/Phase7.v ===== *)
(** * bench/phase7_bench.cpp: the before/after benchmark

    Its command line, the three nodes it wires in either of two ways, and the
    closed loop of its clients, over the operating system of LoadGen.v. *)

From Stdlib Require Import NArith ZArith Strings.Byte Lia.
From S2P Require Import Prelude Text Messages Codec Frame Transport Log RaftCore RaftSpec RaftInv Cluster DurableLog DurableState KvStore.
From S2P Require Import KvClient ClientService NodeRuntime EventLoop Sink ThreadedCluster Histogram SimNetwork FaultSchedule Numerals.
From S2P Require Import OrdMap PeerConfig Sockets NodeMain LoadGen.

Local Open Scope N_scope.

(** ** Options *)

Record P7Options := mkP7 {
  p7_clients : Z;
  p7_seconds : Z;
  p7_warmup : Z;
  p7_keys : Z;
  p7_valueBytes : Z;
  p7_dataBase : list byte;
  p7_fsync : FsyncPolicy;
  p7_threaded : bool;
  p7_wait : WaitMode;
  p7_batch : Z;
  p7_lingerUs : Z;
}.

Definition defaultP7 : P7Options := mkP7 4 5 2 16 16 (str "/dev/shm") EveryDurabilityPoint true Block 1 200.

Definition runtime_word (v : list byte) : option bool :=
  if decide (v = str "threaded") then Some true else if decide (v = str "legacy") then Some false else None.

(** One flag and its value; [None] is [usage]. *)
Definition p7Flag (a v : list byte) (o : P7Options) : option P7Options :=
  let '(mkP7 cl se wm ke vb db fp th wt ba li) := o in
  if decide (a = str "--clients") then Some (mkP7 (atoi v) se wm ke vb db fp th wt ba li)
  else if decide (a = str "--seconds") then Some (mkP7 cl (atoi v) wm ke vb db fp th wt ba li)
  else if decide (a = str "--warmup") then Some (mkP7 cl se (atoi v) ke vb db fp th wt ba li)
  else if decide (a = str "--keys") then Some (mkP7 cl se wm (atoi v) vb db fp th wt ba li)
  else if decide (a = str "--value-bytes") then Some (mkP7 cl se wm ke (atoi v) db fp th wt ba li)
  else if decide (a = str "--batch") then Some (mkP7 cl se wm ke vb db fp th wt (atoi v) li)
  else if decide (a = str "--linger-us") then Some (mkP7 cl se wm ke vb db fp th wt ba (atoi v))
  else if decide (a = str "--data-base") then Some (mkP7 cl se wm ke vb v fp th wt ba li)
  else if decide (a = str "--runtime") then th ← runtime_word v; Some (mkP7 cl se wm ke vb db fp th wt ba li)
  else if decide (a = str "--wait") then wt ← wait_word v; Some (mkP7 cl se wm ke vb db fp th wt ba li)
  else if decide (a = str "--fsync") then fp ← fsync_word v; Some (mkP7 cl se wm ke vb db fp th wt ba li)
  else None.

Fixpoint p7Flags (args : list (list byte)) (o : P7Options) : option P7Options :=
  match args with
  | [] => Some o
  | [_] => None
  | a :: v :: args => o ← p7Flag a v o; p7Flags args o
  end.

(** [None]: the program exits with 2. *)
Definition p7Options (args : list (list byte)) : option P7Options :=
  o ← p7Flags args defaultP7;
  if ((p7_clients o <? 1) || (p7_seconds o <? 1) || (p7_keys o <? 1) || (p7_batch o <? 1) || (p7_lingerUs o <? 0))%Z then None
  else if (1 <? p7_batch o)%Z && negb (p7_threaded o) then None
  else Some o.

(** Batching is only ever accepted with the threaded runtime, which drives it. *)
Theorem p7_batch_threaded args o : p7Options args = Some o →
  (1 ≤ p7_clients o)%Z ∧ (1 ≤ p7_seconds o)%Z ∧ (1 ≤ p7_keys o)%Z ∧ (0 ≤ p7_lingerUs o)%Z ∧
  (p7_batch o = 1%Z ∨ (1 < p7_batch o)%Z ∧ p7_threaded o = true).
Proof.
  unfold p7Options. intros H. apply bind_Some in H as (o'&_&H). destruct (_ || _)%Z eqn:E; [done|].
  rewrite !orb_false_iff, !Z.ltb_ge in E. destruct (_ && _) eqn:Eb; [done|]. injection H as ->.
  split_and!; [lia..|]. apply andb_false_iff in Eb as [Hb%Z.ltb_ge|Ht%negb_false_iff]; [left; lia|].
  destruct (decide (p7_batch o = 1%Z)); [by left|right; split; [lia|done]].
Qed.

(** The size of a value is not checked: a negative one is accepted. *)
Lemma p7_negative_value : ∃ o, p7Options [str "--value-bytes"; str "-1"] = Some o ∧ p7_valueBytes o = (-1)%Z.
Proof. eexists. split; by vm_compute. Qed.

(** ** The nodes *)

Section Nodes.
Context {R : Type} `{!Rng R} (seedRng : N → R).

Local Abbreviation Side := (@ApplySide KVStateMachine ClientService).
Local Abbreviation Core := (@RaftCore DurablePersistentState DurableLog KVStateMachine R Side).

Definition kNodes : list NodeId := [1; 2; 3].

(** A node with its runtime, or with the event loop of before. *)
Inductive P7Node :=
| P7Threaded (rt : @NodeRuntime DurablePersistentState DurableLog KVStateMachine R ClientService)
| P7Legacy (loop : @RaftEventLoop DurablePersistentState DurableLog KVStateMachine R Side) (service : ClientService).

Definition p7_core (n : P7Node) : Core := match n with P7Threaded rt => core_ rt | P7Legacy l _ => loop_core l end.

(** A node built on its data directory and started. *)
Definition p7Build (o : P7Options) (id : NodeId) (d : DataDir) (now : TimePoint) : option P7Node :=
  match DurablePersistentState_open (dd_meta d), DurableLog.replay (dd_log d) with
  | Some persist, Some (Replayed log) =>
      let peerIds := filter (λ p, p ≠ id) kNodes in
      let core : Core := RaftCore_new id peerIds persist log KVStateMachine_init (seedRng (7000 + id)) defaultConfig in
      let service := serviceFor (p7_batch o) (p7_lingerUs o) in
      Some (if p7_threaded o
            then let cfg := runtimeConfig (p7_wait o) in
                 P7Threaded (startRuntime cfg KVStateMachine_init service now (NodeRuntime_new cfg core))
            else P7Legacy (loopStart now (RaftEventLoop_new core)) service)
  | _, _ => None
  end.

(** Either way the three nodes are an initial cluster of the model. *)
Theorem p7_initial o now : ∃ nodes, mapM (λ id, p7Build o id emptyDir now) kNodes = Some nodes ∧
  initial kNodes defaultConfig KVStateMachine_init (mkCluster (list_to_map (zip kNodes (p7_core <$> nodes))) []).
Proof.
  assert (∀ id, ∃ n b, p7Build o id emptyDir now = Some n ∧ boot_durable b = (0, None, []) ∧
    p7_core n = boot kNodes defaultConfig KVStateMachine_init id b) as Hb.
  { intros id. unfold p7Build. change (DurablePersistentState_open (dd_meta emptyDir)) with
      (Some (mkDurablePersistentState (fs_step (dd_meta emptyDir) UnlinkTmp) 0 None)).
    change (DurableLog.replay (dd_log emptyDir)) with (Some (Replayed (recovered [] 0))). cbv zeta.
    set (persist := mkDurablePersistentState _ _ _). set (log := recovered [] 0). destruct (p7_threaded o).
    - eexists _, (mkBoot persist log (seedRng (7000 + id)) (Some (ApplySide_new (runtimeConfig (p7_wait o)) KVStateMachine_init
        (serviceFor (p7_batch o) (p7_lingerUs o)))) now). by split_and!.
    - eexists _, (mkBoot persist log (seedRng (7000 + id)) None now). by split_and!. }
  destruct (Hb 1) as (n1&b1&E1&D1&C1), (Hb 2) as (n2&b2&E2&D2&C2), (Hb 3) as (n3&b3&E3&D3&C3).
  exists [n1; n2; n3]. unfold kNodes at 1. cbn [mapM]. rewrite E1. cbn [mbind option_bind]. rewrite E2. cbn [mbind option_bind].
  rewrite E3. split; [done|]. split; [done|]. cbn [Cluster.nodes net fmap list_fmap]. split.
  - rewrite dom_list_to_map_L, fst_zip by (cbn; lia). done.
  - intros id c Hc. apply elem_of_list_to_map_2 in Hc. unfold kNodes in Hc. cbn [zip_with] in Hc.
    repeat (apply elem_of_cons in Hc as [[= -> ->]|Hc]; [first [by exists b1|by exists b2|by exists b3]|]). by apply not_elem_of_nil in Hc.
Qed.

End Nodes.

(** ** The clients *)

Record P7Stats := mkP7Stats { p7s_hist : LatencyHistogram; p7s_ops : N; p7s_failures : N }.
Definition P7Stats_new : P7Stats := mkP7Stats LatencyHistogram_new 0 0.

(** An operation of a client: start, end, and whether it succeeded. *)
Record P7Op := mkP7Op { p7o_start : N; p7o_end : N; p7o_ok : bool }.

Definition p7Measured (measureStart measureEnd : Z) (op : P7Op) : bool :=
  (measureStart <=? Z.of_N (p7o_start op))%Z && (Z.of_N (p7o_end op) <? measureEnd)%Z.

(** The block after the answer; the window's bounds are time points. *)
Definition p7Count (measureStart measureEnd : Z) (s : P7Stats) (op : P7Op) : P7Stats :=
  if negb (p7o_ok op) then mkP7Stats (p7s_hist s) (p7s_ops s) (add64 (p7s_failures s) 1)
  else if p7Measured measureStart measureEnd op
  then mkP7Stats (record (p7s_hist s) (sub64 (p7o_end op) (p7o_start op))) (add64 (p7s_ops s) 1) (p7s_failures s)
  else s.

(** The totals of the clients. *)
Definition p7Merge (stats : list P7Stats) : P7Stats :=
  foldl (λ m s, mkP7Stats (merge (p7s_hist m) (p7s_hist s)) (add64 (p7s_ops m) (p7s_ops s))
                  (add64 (p7s_failures m) (p7s_failures s))) P7Stats_new stats.

Section Clients.
Context {W Addr : Type}.
Context (os_connect : Addr → W → ConnectResult * W).
Context (os_send : Fd → list byte → W → SendResult * W).
Context (os_poll : Fd → N → W → PollResult * W).
Context (os_read : Fd → W → ClientRead * W).
Context (os_close : Fd → W → W).
Context (os_now : W → N).
Context (os_sleep : N → W → W).
Context (os_pause : W → W).
Context (os_sleep_until : N → W → W).
Context (fs fr : nat).

Local Abbreviation Client := (@KvClient Addr).
Local Abbreviation kv_put := (kv_put os_connect os_send os_poll os_read os_close os_now os_sleep fs fr).
Local Abbreviation nowNs := (nowNs os_now os_pause).

Definition p7Key (keys i : N) : list byte := str "k" ++ to_string (i mod keys).

Fixpoint p7Loop (keys : N) (value : list byte) (measureStart measureEnd : Z) (fuel : nat) (i : N) (s : P7Stats) (c : Client) (w : W) :
    option (P7Stats * W) :=
  match fuel with
  | O => None
  | S fuel =>
      let '(start, w) := nowNs w in
      if (measureEnd <=? Z.of_N start)%Z then Some (s, w)
      else
        '(r, c, w) ← kv_put (p7Key keys i) value c w;
        let '(fin, w) := nowNs w in
        let ok := match r with Some r => bool_decide (res_statusByte r = kKvOk) | None => false end in
        p7Loop keys value measureStart measureEnd fuel (add64 i 1)
          (p7Count measureStart measureEnd s (mkP7Op start fin ok)) c w
  end.

Definition p7Client (servers : list (NodeId * Addr)) (c : nat) : Client :=
  KvClient_new servers (100000 + N.of_nat c) ((300 + N.of_nat c) mod two16) 1000 20.

(** *** What a client reports *)

Context (interrupts arrivals : W → nat).
Context (Hgen : gen_laws os_connect os_send os_poll os_read os_close os_now os_sleep os_pause os_sleep_until interrupts arrivals).
(** Time passes between two statements. *)
Context (Hpass : ∀ w, os_now w < os_now (os_pause w)).

Local Abbreviation onwards := (onwards os_now interrupts arrivals).

Definition p7_fits (keys : N) (value : list byte) (c : Client) (w : W) : Prop :=
  servers_ c ≠ [] ∧ (interrupts w + arrivals w < fr)%nat ∧
  ∀ i cl sq, (kLengthPrefixSize + encodedSize (MClientRequest (mkClientRequest cl sq
    (encodeKvCommand (mkKvCommand cl sq Put (p7Key keys i) value [])))) + interrupts w ≤ fs)%nat.

Lemma p7_fits_onwards keys value c c' w w' : p7_fits keys value c w → servers_ c' = servers_ c →
  onwards w w' → p7_fits keys value c' w'.
Proof.
  intros (Hs&Ht&Hf) Es (Hi&Ha&_). unfold p7_fits. rewrite Es. split_and!; [done|lia|].
  intros i cl sq. specialize (Hf i cl sq). lia.
Qed.

Lemma put_ends keys value i c w : p7_fits keys value c w → ∃ r c' w',
  kv_put (p7Key keys i) value c w = Some (r, c', w') ∧ p7_fits keys value c' w' ∧ onwards w w'.
Proof.
  intros Hfit. pose proof Hfit as (Hs&Ht&Hf). unfold KvClient.kv_put, KvClient.request, call. cbv zeta.
  set (c1 := set_request _ _ c). set (c2 := set_request _ _ c1).
  destruct (callLoop_ends _ _ _ _ _ _ _ interrupts arrivals (gl_os _ _ _ _ _ _ _ _ _ _ _ Hgen) fs fr
    (encodeKvCommand (mkKvCommand (clientId_ c1) (seqNo_ c1) Put (p7Key keys i) value []))
    (maxAttempts_ c2) c2 w) as (res&c'&w'&E&Hsc&Ho&_); [done|split; [|done]|].
  { specialize (Hf i (clientId_ c2) (seqNo_ c2)). exact Hf. }
  rewrite E. eexists _, _, _. split; [done|]. split; [|done].
  destruct Hsc as (Es&_). by apply (p7_fits_onwards keys value c c' w w').
Qed.

(** Operations one after the other from time [t] on. *)
Fixpoint in_sequence (t : N) (ops : list P7Op) : Prop :=
  match ops with
  | [] => True
  | op :: ops => t ≤ p7o_start op ∧ p7o_start op ≤ p7o_end op ∧ in_sequence (p7o_end op) ops
  end.

(** The loop of a client ends soon after the window does, and what it reports is
    the count of the operations it did, one after the other, all begun before the
    end of the window. *)
Theorem p7_loop_accounts keys value measureStart measureEnd fuel i s c w : p7_fits keys value c w →
  (0 < fuel)%nat → (measureEnd ≤ Z.of_N (os_now w) + Z.of_nat fuel)%Z →
  ∃ ops w', p7Loop keys value measureStart measureEnd fuel i s c w = Some (foldl (p7Count measureStart measureEnd) s ops, w') ∧
    in_sequence (os_now w) ops ∧ Forall (λ op, (Z.of_N (p7o_start op) < measureEnd)%Z) ops ∧ (measureEnd ≤ Z.of_N (os_now w'))%Z.
Proof.
  revert i s c w. induction fuel as [|fuel IH]; intros i s c w Hfit Hpos Hfuel; [lia|]. cbn [p7Loop]. unfold LoadGen.nowNs at 1.
  pose proof (gl_pause _ _ _ _ _ _ _ _ _ _ _ Hgen w) as Ho1. pose proof (Hpass w) as Hp1. set (w1 := os_pause w) in *.
  destruct (Z.leb_spec measureEnd (Z.of_N (os_now w1))) as [Hend|Hend].
  { exists [], w1. split_and!; [done|done|done|lia]. }
  destruct (put_ends keys value i c w1) as (r&c2&w2&->&Hfit2&Ho2).
  { eapply p7_fits_onwards; [exact Hfit|done|done]. }
  cbn [mbind option_bind]. unfold LoadGen.nowNs. pose proof (gl_pause _ _ _ _ _ _ _ _ _ _ _ Hgen w2) as Ho3.
  pose proof (Hpass w2) as Hp3. set (w3 := os_pause w2) in *. set (ok := match r with Some r => _ | None => _ end).
  assert (os_now w1 ≤ os_now w2) by apply Ho2.
  destruct (IH (add64 i 1) (p7Count measureStart measureEnd s (mkP7Op (os_now w1) (os_now w3) ok)) c2 w3) as (ops&w'&E&Hseq&Hall&Hfin).
  { eapply p7_fits_onwards; [exact Hfit2|done|done]. }
  { lia. }
  { lia. }
  exists (mkP7Op (os_now w1) (os_now w3) ok :: ops), w'. split; [exact E|]. split; [|split; [by constructor|done]].
  cbn [in_sequence p7o_start p7o_end]. split_and!; [lia|lia|done].
Qed.

End Clients.

(** The totals are the counts over the operations of all clients. *)
Definition p7_counts (measureStart measureEnd : Z) (ops : list P7Op) : P7Stats :=
  let good := filter (λ op, p7o_ok op = true ∧ p7Measured measureStart measureEnd op = true) ops in
  mkP7Stats (hist ((λ op, sub64 (p7o_end op) (p7o_start op)) <$> good)) (count64 good)
    (count64 (filter (λ op, p7o_ok op = false) ops)).

Lemma p7_count_all ms me ops : foldl (p7Count ms me) P7Stats_new ops = p7_counts ms me ops.
Proof.
  induction ops as [|op ops IH] using rev_ind; [done|]. rewrite foldl_app, IH. cbn [foldl]. unfold p7Count, p7_counts.
  rewrite !filter_app, !fmap_app, !count64_app, !filter_cons. cbn [p7s_hist p7s_ops p7s_failures].
  destruct (p7o_ok op) eqn:Eo; cbn [negb].
  - destruct (p7Measured ms me op) eqn:Em.
    + rewrite decide_True, decide_False by done. cbn. rewrite hist_snoc, count64_one. f_equal.
      by rewrite <-count64_app, app_nil_r.
    + rewrite decide_False by (by intros []). rewrite decide_False by done. cbn. by rewrite <-!count64_app, !app_nil_r.
  - rewrite decide_False by (by intros []). rewrite decide_True by done. cbn. by rewrite count64_one, <-!count64_app, !app_nil_r.
Qed.

Theorem p7_totals ms me opss : p7Merge (foldl (p7Count ms me) P7Stats_new <$> opss) = p7_counts ms me (concat opss).
Proof.
  assert (∀ ops0, foldl (λ m s, mkP7Stats (merge (p7s_hist m) (p7s_hist s)) (add64 (p7s_ops m) (p7s_ops s))
    (add64 (p7s_failures m) (p7s_failures s))) (p7_counts ms me ops0) (foldl (p7Count ms me) P7Stats_new <$> opss) =
    p7_counts ms me (ops0 ++ concat opss)) as H; [|apply (H [])].
  induction opss as [|ops opss IH]; intros ops0; [by rewrite app_nil_r|]. cbn [fmap list_fmap foldl concat]. rewrite app_assoc, <-IH. f_equal.
  rewrite p7_count_all. unfold p7_counts. cbn [p7s_hist p7s_ops p7s_failures]. rewrite !filter_app, !fmap_app, !count64_app.
  f_equal. apply merge_is_concat.
Qed.
