(* ===== verification/Cli.v ===== *)
(** * src/runtime/kv_cli_main.cpp, faults/chaos_main.cpp: the two small programs

    [kv_cli] sends one request and prints its result; [chaos_sim] replays one
    seeded chaos run.  Output is the text on the standard output. *)

From Stdlib Require Import NArith ZArith Strings.Byte Lia.
From S2P Require Import Prelude Text Wire Messages Log OrdMap KvStore OrderBook KvClient SimNetwork FaultSchedule Chaos Numerals PeerConfig.

Local Open Scope N_scope.

(** ** kv_cli *)

(** Leading flags, two arguments each; the path, the envelope id, and the rest. *)
Fixpoint cliFlags (args : list (list byte)) (configPath : list byte) (clientNode : Z) :
    option (list byte * Z * list (list byte)) :=
  match args with
  | a :: v :: rest =>
      if bool_decide (head a = Some x2d) then
        if decide (a = str "--config") then cliFlags rest v clientNode
        else if decide (a = str "--client-node") then cliFlags rest configPath (strtol v)
        else None
      else Some (configPath, clientNode, args)
  | _ => Some (configPath, clientNode, args)
  end.

Inductive CliOp := KvRequest (command : N → N → Command) | ObRequest (command : N → N → Command).

Definition cliSide (v : list byte) : option ObSide :=
  if decide (v = str "buy") then Some Bid else if decide (v = str "sell") then Some Ask else None.

(** The request of an operation and its arguments; [None] is [usage]. *)
Definition cliOp (op : list byte) (args : list (list byte)) : option CliOp :=
  if bool_decide (op = str "ob-new") && (length args =? 3)%nat then
    match args with
    | [side; price; qty] => s ← cliSide side; Some (ObRequest (λ cl sq, encodeObNew cl sq s (strtoull price) (strtoull qty)))
    | _ => None
    end
  else
    match args with
    | [a] =>
        if decide (op = str "ob-cancel") then Some (ObRequest (λ cl sq, encodeObCancel cl sq (strtoull a)))
        else if decide (op = str "get") then Some (KvRequest (λ cl sq, encodeKvCommand (mkKvCommand cl sq Get a [] [])))
        else if decide (op = str "del") then Some (KvRequest (λ cl sq, encodeKvCommand (mkKvCommand cl sq Delete a [] [])))
        else None
    | [a; b] =>
        if decide (op = str "put") then Some (KvRequest (λ cl sq, encodeKvCommand (mkKvCommand cl sq Put a b [])))
        else if decide (op = str "append") then Some (KvRequest (λ cl sq, encodeKvCommand (mkKvCommand cl sq Append a b [])))
        else None
    | [a; b; c] =>
        if decide (op = str "ob-amend")
        then Some (ObRequest (λ cl sq, encodeObAmend cl sq (strtoull a) (strtoull b) (strtoull c)))
        else if decide (op = str "cas") then Some (KvRequest (λ cl sq, encodeKvCommand (mkKvCommand cl sq Cas a b c)))
        else None
    | _ => None
    end.

(** What [%s] prints of a string: up to the first zero byte. *)
Definition c_str (s : list byte) : list byte := (span (λ b, negb (bool_decide (b = x00))) s).1.

Definition fillLine (f : ObFill) : list byte :=
  str "  fill maker=" ++ to_string (makerOrderId f) ++ str " price=" ++ to_string (f_price f) ++ str " qty=" ++
  to_string (f_qty f) ++ [x0a].

Definition printObResult (r : Result) : list byte * Z :=
  match decodeObResult (res_statusByte r :: res_value r) with
  | None => ([], 1%Z)
  | Some d =>
      if decide (res_status d = kObReject) then (str "REJECTED (unknown or no-longer-resting order)" ++ [x0a], 0%Z)
      else if decide (res_status d ≠ kObOk) then ([], 1%Z)
      else (str "OK order=" ++ to_string (res_orderId d) ++ str " resting=" ++ to_string (res_restingQty d) ++ [x0a] ++
              (res_fills d ≫= fillLine), 0%Z)
  end.

Definition printKvResult (r : Result) : list byte * Z :=
  if decide (res_statusByte r = kKvOk)
  then (str "OK" ++ (if decide (res_value r = []) then [] else str " ") ++ c_str (res_value r) ++ [x0a], 0%Z)
  else if decide (res_statusByte r = kKvNotFound) then (str "NOT_FOUND" ++ [x0a], 0%Z)
  else if decide (res_statusByte r = kKvCasFailed) then (str "CAS_FAILED" ++ [x0a], 0%Z)
  else ([], 1%Z).

(** [call] is a request of the blocking client (KvClient.v) made with the servers,
    the client id drawn and the envelope id. *)
Definition kv_cli (file : list byte → option (list byte))
    (call : PeerMap → N → N → (N → N → Command) → option Result) (clientId : N) (args : list (list byte)) : list byte * Z :=
  match cliFlags args [] 100 with
  | None => ([], 2%Z)
  | Some (configPath, clientNode, rest) =>
      if bool_decide (configPath = []) || ((clientNode <? 1) || (65535 <? clientNode))%Z then ([], 2%Z)
      else
        match rest with
        | [] => ([], 2%Z)
        | op :: args =>
            match loadPeerConfig configPath (file configPath) with
            | inl _ => ([], 1%Z)
            | inr servers =>
                match cliOp op args with
                | None => ([], 2%Z)
                | Some (KvRequest command) =>
                    from_option printKvResult ([], 1%Z) (call servers clientId (Z.to_N clientNode) command)
                | Some (ObRequest command) =>
                    from_option printObResult ([], 1%Z) (call servers clientId (Z.to_N clientNode) command)
                end
            end
        end
  end.

(** *** The request is the one asked for *)

(** The key-value operations, as they are typed. *)
Definition cliArgs (c : KvCommand) : list (list byte) :=
  match c_op c with
  | Put => [str "put"; c_key c; c_arg c]
  | Get => [str "get"; c_key c]
  | Delete => [str "del"; c_key c]
  | Cas => [str "cas"; c_key c; c_arg c; c_arg2 c]
  | Append => [str "append"; c_key c; c_arg c]
  end.

(** Typing an operation sends the command that the state machine reads as that
    operation, under the client's id and sequence number. *)
Theorem cli_sends_command c : kv_command_ok c → ∃ command, cliOp (hd [] (cliArgs c)) (tl (cliArgs c)) = Some (KvRequest command) ∧
  parseKv (command (c_clientId c) (c_seqNo c)) = Some c.
Proof.
  intros Hok. pose proof Hok as (_ & _ & _ & Ha & Ha2).
  destruct c as [cl sq [] k a a2]; cbn in Ha, Ha2; subst; (eexists; split; [reflexivity|]);
    unfold parseKv; by apply kv_command_roundtrip.
Qed.

(** ** chaos_sim *)

(** [std::strtoull(s, nullptr, 0)]: hexadecimal after 0x, octal after 0. *)
Definition is_odigit (b : byte) : bool := ((48 <=? Byte.to_N b) && (Byte.to_N b <=? 55))%N.
Definition of_octal (ds : list byte) : N := foldl (λ v b, v * 8 + (Byte.to_N b - 48)) 0 ds.

Definition strtoull0 (s : list byte) : N :=
  let '(neg, s) := scan_sign (skip_spaces s) in
  let n :=
    if bool_decide (take 2 (lower <$> s) = str "0x") && from_option is_xdigit false (s !! 2%nat)
    then of_hex (span is_xdigit (drop 2 s)).1
    else if bool_decide (head s = Some x30) then of_octal (span is_odigit s).1
    else of_string (span is_digit s).1 in
  if two64 <=? n then two64 - 1 else if neg then sub64 0 n else n.

Record ChaosArgs := mkChaosArgs {
  ca_seed : option N;
  ca_sm : ChaosSm;
  ca_nodes : Z;
  ca_clients : Z;
  ca_ops : Z;
  ca_faultEndMs : Z;
  ca_maxMs : Z;
  ca_durable : bool;
  ca_trace : bool;
}.

Definition defaultChaosArgs : ChaosArgs :=
  mkChaosArgs None (co_sm defaultChaos) (Z.of_nat (co_nodes defaultChaos)) (Z.of_nat (co_clients defaultChaos))
    (Z.of_N (co_opsPerClient defaultChaos)) (faultEndMs defaultChaos) (maxMs defaultChaos)
    (co_durableStorage defaultChaos) (co_recordTrace defaultChaos).

(** A flag that takes a value. *)
Definition chaosFlag (a v : list byte) (o : ChaosArgs) : option ChaosArgs :=
  let '(mkChaosArgs sd sm n c p fe mx du tr) := o in
  if decide (a = str "--seed") then Some (mkChaosArgs (Some (strtoull0 v)) sm n c p fe mx du tr)
  else if decide (a = str "--nodes") then Some (mkChaosArgs sd sm (atoi v) c p fe mx du tr)
  else if decide (a = str "--clients") then Some (mkChaosArgs sd sm n (atoi v) p fe mx du tr)
  else if decide (a = str "--ops-per-client") then Some (mkChaosArgs sd sm n c (atoi v) fe mx du tr)
  else if decide (a = str "--fault-end-ms") then Some (mkChaosArgs sd sm n c p (strtol v) mx du tr)
  else if decide (a = str "--max-ms") then Some (mkChaosArgs sd sm n c p fe (strtol v) du tr)
  else if decide (a = str "--sm") then
    if decide (v = str "kv") then Some (mkChaosArgs sd ChaosKv n c p fe mx du tr)
    else if decide (v = str "orderbook") then Some (mkChaosArgs sd ChaosOrderBook n c p fe mx du tr) else None
  else None.

Definition set_chaos_trace (o : ChaosArgs) : ChaosArgs :=
  let '(mkChaosArgs sd sm n c p fe mx du tr) := o in mkChaosArgs sd sm n c p fe mx du true.
Definition set_chaos_in_memory (o : ChaosArgs) : ChaosArgs :=
  let '(mkChaosArgs sd sm n c p fe mx du tr) := o in mkChaosArgs sd sm n c p fe mx false tr.

Fixpoint chaosFlags (args : list (list byte)) (o : ChaosArgs) : option ChaosArgs :=
  match args with
  | [] => Some o
  | a :: args =>
      if decide (a = str "--in-memory") then chaosFlags args (set_chaos_in_memory o)
      else if decide (a = str "--trace") then chaosFlags args (set_chaos_trace o)
      else match args with [] => None | v :: args => o ← chaosFlag a v o; chaosFlags args o end
  end.

(** Counts below zero are outside the model of a run. *)
Definition chaosOptions (o : ChaosArgs) : option ChaosOptions :=
  if bool_decide (ca_nodes o < 0 ∨ ca_clients o < 0 ∨ ca_ops o < 0)%Z then None
  else Some (mkChaosOptions (ca_sm o) (Z.to_nat (ca_nodes o)) (Z.to_nat (ca_clients o)) (Z.to_N (ca_ops o))
    (faultStartMs defaultChaos) (ca_faultEndMs o) (ca_maxMs o) (ca_durable o) (ca_trace o)).

Definition chaosBanner (o : ChaosArgs) : list byte :=
  str "chaos_sim: sm=" ++ (match ca_sm o with ChaosOrderBook => str "orderbook" | ChaosKv => str "kv" end) ++
  str " nodes=" ++ fmt_d (ca_nodes o) ++ str " clients=" ++ fmt_d (ca_clients o) ++ str " ops-per-client=" ++
  fmt_d (ca_ops o) ++ str " fault-end-ms=" ++ fmt_d (ca_faultEndMs o) ++ str " max-ms=" ++ fmt_d (ca_maxMs o) ++
  str " storage=" ++ (if ca_durable o then str "durable" else str "in-memory").

(** The printed lines and the exit code; [run] is [runChaos] (Chaos.v) on its
    two storage factories. *)
Definition chaos_sim (run : N → ChaosOptions → option ChaosReport) (args : list (list byte)) :
    option (list (list byte) * Z) :=
  match chaosFlags args defaultChaosArgs with
  | None => Some ([], 2%Z)
  | Some o =>
      match ca_seed o with
      | None => Some ([], 2%Z)
      | Some seed =>
          options ← chaosOptions o;
          report ← run seed options;
          Some (chaosBanner o :: (if ca_trace o then c_str <$> rp_trace report else []) ++ [c_str (summary report)],
            if rp_pass report then 0%Z else 1%Z)
      end
  end.

Lemma strtoull0_to_string n : n < two64 → strtoull0 (to_string n) = n.
Proof.
  intros Hn. unfold strtoull0. pose proof (to_string_digits n) as Hd. pose proof (of_to_string n) as Hv.
  destruct (decide (n = 0)) as [->|Hnz]; [by vm_compute|].
  destruct (to_string_head n) as (d & t & E & Hpos); [lia|]. rewrite E in *.
  apply Forall_cons in Hd as Hd'. destruct Hd' as [Hb _].
  assert (Hz : digit d ≠ x30) by (intros Hx; pose proof (to_N_digit d) as Hdg; rewrite Hx in Hdg; cbn in Hdg; lia).
  cbn [skip_spaces]. rewrite (digit_not_space _ Hb), scan_sign_digit by done.
  rewrite bool_decide_eq_false_2, (bool_decide_eq_false_2 (head _ = _)); cbn [andb].
  - rewrite <-(app_nil_r (digit d :: t)), span_all by done. cbn [fst]. by rewrite Hv, (proj2 (N.leb_gt _ _) Hn).
  - by intros [= ?].
  - cbn. intros [= Hx _]. apply Hz. by destruct (digit d).
Qed.

(** The seed alone reproduces a run: without other flags the program runs the
    defaults on durable storage, and exits with 0 exactly when the run passes. *)
Theorem chaos_seed_reproduces run seed report : seed < two64 → run seed defaultChaos = Some report →
  chaos_sim run [str "--seed"; to_string seed] =
    Some ([chaosBanner defaultChaosArgs; c_str (summary report)], if rp_pass report then 0%Z else 1%Z).
Proof.
  intros Hs Hr. unfold chaos_sim.
  replace (chaosFlags [str "--seed"; to_string seed] defaultChaosArgs) with
    (Some (mkChaosArgs (Some seed) ChaosKv 3 4 12 20000 40000 true false))
    by (rewrite <-(strtoull0_to_string seed Hs) at 1; reflexivity).
  cbn [ca_seed ca_durable ca_trace]. change (chaosOptions _) with (Some defaultChaos). cbn [mbind option_bind].
  by rewrite Hr.
Qed.
