(* ===== verification/LogFile.v ===== *)
(** * src/storage/durable_log.cpp, posix_io.h: the descriptor of the log

    Opening, reading and closing the log file over the calls of the operating
    system, around the [replay] of DurableLog.v. *)

From Stdlib Require Import NArith Strings.Byte Lia.
From S2P Require Import Prelude Text Wire Messages Log Crc32c DurableLog Transport.

Local Open Scope N_scope.

(** What one [pread] call did. *)
Inductive PreadResult := Got (bs : list byte) | PreadInterrupted | PreadFailed.

(** The exceptions, with what was being done. *)
Inductive LogError :=
| OpenFailed
| FsyncDirFailed
| FstatFailed
| PreadError
| ShortRead
| Corrupt (off : nat)
| FtruncateFailed
| FsyncFailed.

Section LogFile.
Context {W : Type}.
Context (os_open : list byte → W → option Fd * W).
Context (os_close : Fd → W → W).
Context (os_fsync : Fd → W → bool * W).
Context (os_fstat : Fd → W → option nat * W).
Context (os_pread : Fd → nat → nat → W → PreadResult * W).
Context (os_ftruncate : Fd → nat → W → bool * W).

Definition fsyncDir (dir : list byte) (w : W) : bool * W :=
  match os_open dir w with
  | (None, w) => (false, w)
  | (Some fd, w) => let '(ok, w) := os_fsync fd w in (ok, os_close fd w)
  end.

(** The loop that fills [buf]; [buf] is the part read so far.  [None] when the fuel
    is used up. *)
Fixpoint readLoop (fuel : nat) (fd : Fd) (fileLen : nat) (buf : list byte) (w : W) : option ((LogError + list byte) * W) :=
  if (length buf <? fileLen)%nat then
    match fuel with
    | O => None
    | S fuel =>
        match os_pread fd (length buf) (fileLen - length buf) w with
        | (PreadInterrupted, w) => readLoop fuel fd fileLen buf w
        | (PreadFailed, w) => Some (inl PreadError, w)
        | (Got [], w) => Some (inl ShortRead, w)
        | (Got bs, w) => readLoop fuel fd fileLen (buf ++ bs) w
        end
    end
  else Some (inr buf, w).

(** The end of [replay]: the torn tail is cut off the file as well. *)
Definition cutTail (fd : Fd) (d : DurableLog) (w : W) : (LogError + DurableLog) * W :=
  if (d_tornBytesDiscarded d =? 0)%nat then (inr d, w)
  else
    let '(ok, w) := os_ftruncate fd (d_size d) w in
    if ok : bool then
      let '(ok, w) := os_fsync fd w in
      if ok : bool then (inr d, w) else (inl FsyncFailed, w)
    else (inl FtruncateFailed, w).

Definition replayFile (fuel : nat) (fd : Fd) (w : W) : option ((LogError + DurableLog) * W) :=
  match os_fstat fd w with
  | (None, w) => Some (inl FstatFailed, w)
  | (Some fileLen, w) =>
      '(read, w) ← readLoop fuel fd fileLen [] w;
      match read with
      | inl e => Some (inl e, w)
      | inr buf =>
          r ← replay buf;
          Some (match r with Replayed d => cutTail fd d w | CorruptRecord off => (inl (Corrupt off), w) end)
      end
  end.

(** The constructor. *)
Definition DurableLog_new (fuel : nat) (dir : list byte) (w : W) : option ((LogError + Fd * DurableLog) * W) :=
  match os_open (dir ++ str "/log") w with
  | (None, w) => Some (inl OpenFailed, w)
  | (Some fd, w) =>
      '(r, w) ← (match fsyncDir dir w with
                 | (false, w) => Some (inl FsyncDirFailed, w)
                 | (true, w) => replayFile fuel fd w
                 end);
      Some (match r with inl e => (inl e, os_close fd w) | inr d => (inr (fd, d), w) end)
  end.

Definition DurableLog_destroy (fd : Fd) (w : W) : W := os_close fd w.

(** ** What the calls do *)

Context (opened : W → gset Fd) (content : Fd → W → list byte).

(** [open] gives a descriptor that was not open, and only [open] and [close] open
    and close; a file's length is that of its contents, a read gives bytes from its
    offset on and no more than were asked for, and only [ftruncate] changes what an
    open descriptor reads. *)
Record file_laws : Prop := {
  fl_open path w : match os_open path w with
                   | (Some fd, w') => fd ∉ opened w ∧ opened w' = {[fd]} ∪ opened w
                   | (None, w') => opened w' = opened w
                   end;
  fl_open_content path w fd : fd ∈ opened w → content fd (os_open path w).2 = content fd w;
  fl_close fd w : opened (os_close fd w) = opened w ∖ {[fd]};
  fl_close_content fd fd' w : fd ≠ fd' → content fd' (os_close fd w) = content fd' w;
  fl_fsync fd w : opened (os_fsync fd w).2 = opened w;
  fl_fsync_content fd fd' w : content fd' (os_fsync fd w).2 = content fd' w;
  fl_fstat fd w : match os_fstat fd w with
                  | (n, w') => opened w' = opened w ∧ content fd w' = content fd w ∧
                      from_option (λ n, n = length (content fd w)) True n
                  end;
  fl_pread fd off n w : match os_pread fd off n w with
                        | (r, w') => opened w' = opened w ∧ content fd w' = content fd w ∧
                            match r with
                            | Got bs => bs `prefix_of` drop off (content fd w) ∧ (length bs ≤ n)%nat
                            | _ => True
                            end
                        end;
  fl_ftruncate fd n w : match os_ftruncate fd n w with
                        | (ok, w') => opened w' = opened w ∧
                            (ok = true → content fd w' = take n (content fd w))
                        end;
}.

Context (laws : file_laws).

Lemma fsyncDir_keeps dir fd w : fd ∈ opened w →
  opened (fsyncDir dir w).2 = opened w ∧ content fd (fsyncDir dir w).2 = content fd w.
Proof.
  intros Hfd. unfold fsyncDir. pose proof (fl_open laws dir w) as Ho. pose proof (fl_open_content laws dir w fd Hfd) as Hc.
  destruct (os_open dir w) as [[d|] w1]; [|done]. destruct Ho as [Hd Ho]. cbn in Hc.
  pose proof (fl_fsync laws d w1) as Hs. pose proof (fl_fsync_content laws d fd w1) as Hsc.
  destruct (os_fsync d w1) as [ok w2]. cbn in *. split.
  - rewrite (fl_close laws), Hs, Ho. set_solver.
  - rewrite (fl_close_content laws) by (intros ->; done). congruence.
Qed.

(** However the system splits the reads, what was read is the file. *)
Lemma readLoop_reads fuel fd fileLen buf w r w' : readLoop fuel fd fileLen buf w = Some (r, w') →
  buf `prefix_of` content fd w → fileLen = length (content fd w) →
  opened w' = opened w ∧ content fd w' = content fd w ∧ from_option (λ b, b = content fd w) True (match r with inr b => Some b | _ => None end).
Proof.
  revert buf w. induction fuel as [|fuel IH]; intros buf w; cbn [readLoop]; intros E [tl Hp] Hl;
    (destruct (Nat.ltb_spec (length buf) fileLen) as [Hlt|Hge];
     [|injection E as <- <-; split_and!; [done|done|]; cbn; rewrite Hp in Hl |- *; rewrite length_app in Hl;
       destruct tl; [by rewrite app_nil_r|cbn in Hl; lia]]); [done|].
  pose proof (fl_pread laws fd (length buf) (fileLen - length buf) w) as Hr.
  destruct (os_pread fd _ _ w) as [[bs| |] w1]; destruct Hr as (Ho&Hc&Hr).
  - destruct bs as [|b bs]; [injection E as <- <-; done|]. destruct Hr as [[tl' Hr] _]. apply IH in E.
    + destruct E as (?&?&?). rewrite Hc in *. split_and!; [congruence|done|done].
    + rewrite Hc, Hp. rewrite Hp, drop_app_length in Hr. rewrite Hr, app_assoc. by eexists.
    + by rewrite Hc.
  - apply IH in E; [|rewrite Hc; by eexists|by rewrite Hc]. destruct E as (?&?&?). rewrite Hc in *. split_and!; [congruence|done|done].
  - injection E as <- <-. done.
Qed.

Lemma replayLoop_tail fuel buf entries offsets off d : (off ≤ length buf)%nat →
  replayLoop fuel buf entries offsets off = Some (Replayed d) →
  d_file d = take (d_size d) buf ∧ d_tornBytesDiscarded d = (length buf - d_size d)%nat.
Proof.
  revert entries offsets off. induction fuel as [|fuel IH]; intros entries offsets off Hoff; [done|]. cbn [replayLoop].
  destruct (Nat.ltb_spec off (length buf)).
  2:{ intros [= <-]. cbn [d_file d_size d_tornBytesDiscarded]. split; [|lia]. rewrite take_ge; [done|lia]. }
  destruct (_ <? kHeaderSize)%nat; [intros [= <-]; done|]. destruct (readHeader _) as [[[index term] len] r].
  destruct (Nat.ltb_spec (length buf - off) (kHeaderSize + N.to_nat len + kCrcSize)); [intros [= <-]; done|].
  destruct (_ && _); [apply IH; lia|]. destruct (_ =? _)%nat; [intros [= <-]; done|done].
Qed.

Lemma cutTail_cuts fd d w buf r w' : cutTail fd d w = (r, w') → content fd w = buf →
  d_file d = take (d_size d) buf → d_tornBytesDiscarded d = (length buf - d_size d)%nat →
  opened w' = opened w ∧ match r with inr d' => d' = d ∧ content fd w' = d_file d | inl _ => True end.
Proof.
  unfold cutTail. intros E Hc Hf Ht. destruct (Nat.eqb_spec (d_tornBytesDiscarded d) 0).
  { injection E as <- <-. split_and!; [done|done|]. rewrite Hf, take_ge by lia. done. }
  pose proof (fl_ftruncate laws fd (d_size d) w) as Ho. destruct (os_ftruncate fd _ w) as [[] w1]; destruct Ho as [Ho Hok].
  2:{ injection E as <- <-. done. }
  pose proof (fl_fsync laws fd w1) as Hs. pose proof (fl_fsync_content laws fd fd w1) as Hsc. specialize (Hok eq_refl).
  destruct (os_fsync fd w1) as [[] w2]; cbn in *; injection E as <- <-; split_and?; done || congruence.
Qed.

Lemma replayFile_replays fuel fd w r w' : replayFile fuel fd w = Some (r, w') →
  opened w' = opened w ∧
  match r with inr d => replay (content fd w) = Some (Replayed d) ∧ content fd w' = d_file d | inl _ => True end.
Proof.
  unfold replayFile. pose proof (fl_fstat laws fd w) as Hs. destruct (os_fstat fd w) as [[n|] w1]; destruct Hs as (Ho&Hc&Hn).
  2:{ intros [= <- <-]. done. }
  cbn in Hn. destruct (readLoop fuel fd n [] w1) as [[rd w2]|] eqn:Er; [|done]. cbn [mbind option_bind].
  apply readLoop_reads in Er as (Ho2&Hc2&Hb); [|apply prefix_nil|by rewrite Hc].
  destruct rd as [e|buf]; [intros [= <- <-]; split; [congruence|done]|]. cbn in Hb.
  destruct (replay buf) as [[d|off]|] eqn:Ep; cbn [mbind option_bind]; [| |done].
  - intros [= E]. apply replayLoop_tail in Ep as Htl; [|lia]. destruct Htl as [Hf Ht].
    eapply cutTail_cuts in E as [Ho3 Hr]; [| |exact Hf|exact Ht]; [|congruence]. split; [congruence|].
    destruct r as [|d']; [done|]. destruct Hr as [-> Hr]. split; [|done]. rewrite <-Ep. congruence.
  - intros [= <- <-]. split; [congruence|done].
Qed.

(** Opening a log keeps one descriptor, and none when it throws.  What the object
    holds is the [replay] of the file as it was, the file holds the same entries
    afterwards, and destroying the object gives the descriptor back. *)
Theorem log_open_owns fuel dir w r w' : DurableLog_new fuel dir w = Some (r, w') →
  match r with
  | inl _ => opened w' = opened w
  | inr (fd, d) =>
      fd ∉ opened w ∧ opened w' = {[fd]} ∪ opened w ∧ opened (DurableLog_destroy fd w') = opened w ∧
      replay (content fd (os_open (dir ++ str "/log") w).2) = Some (Replayed d) ∧ content fd w' = d_file d
  end.
Proof.
  unfold DurableLog_new. pose proof (fl_open laws (dir ++ str "/log") w) as Ho.
  destruct (os_open (dir ++ str "/log") w) as [[fd|] w1]; [|intros [= <- <-]; done]. destruct Ho as [Hfd Ho]. cbn [snd].
  assert (fd ∈ opened w1) as Hin by set_solver. destruct (fsyncDir_keeps dir fd w1 Hin) as [Hs Hc].
  destruct (fsyncDir dir w1) as [[] w2]; cbn [snd] in *.
  2:{ intros [= <- <-]. rewrite (fl_close laws), Hs, Ho. set_solver. }
  destruct (replayFile fuel fd w2) as [[r2 w3]|] eqn:Er; [|done]. cbn [mbind option_bind].
  apply replayFile_replays in Er as [Ho3 Hr]. destruct r2 as [e|d]; intros [= <- <-].
  - rewrite (fl_close laws), Ho3, Hs, Ho. set_solver.
  - destruct Hr as [Hr Hc3]. rewrite Hc in Hr. split_and!; [done|congruence| |done|done].
    unfold DurableLog_destroy. rewrite (fl_close laws), Ho3, Hs, Ho. set_solver.
Qed.

(** When no read of the file is interrupted, one call per byte is enough. *)
Lemma readLoop_ends (Hni : ∀ fd off n w w', os_pread fd off n w ≠ (PreadInterrupted, w')) fuel fd fileLen buf w :
  (fileLen < length buf + fuel)%nat → is_Some (readLoop fuel fd fileLen buf w).
Proof.
  revert buf w. induction fuel as [|fuel IH]; intros buf w Hf; cbn [readLoop];
    (destruct (Nat.ltb_spec (length buf) fileLen); [|by eexists]); [lia|].
  destruct (os_pread fd _ _ w) as [[[|b bs]| |] w1] eqn:E; [by eexists| |by apply Hni in E|by eexists].
  apply IH. rewrite length_app. cbn. lia.
Qed.

(** The constructor returns or throws: fuel beyond the length of the file is
    enough. *)
Theorem log_open_returns (Hni : ∀ fd off n w w', os_pread fd off n w ≠ (PreadInterrupted, w')) fuel dir w :
  (∀ fd, (length (content fd (os_open (dir ++ str "/log") w).2) < fuel)%nat) → N.of_nat fuel < two64 →
  is_Some (DurableLog_new fuel dir w).
Proof.
  intros Hlen Hfuel. unfold DurableLog_new. pose proof (fl_open laws (dir ++ str "/log") w) as Ho.
  destruct (os_open (dir ++ str "/log") w) as [[fd|] w1]; [|by eexists]. destruct Ho as [Hfd Ho]. specialize (Hlen fd). cbn [snd] in Hlen.
  assert (fd ∈ opened w1) as Hin by set_solver. destruct (fsyncDir_keeps dir fd w1 Hin) as [Hs Hc].
  destruct (fsyncDir dir w1) as [[] w2]; cbn [snd] in *; [|by eexists].
  assert (is_Some (replayFile fuel fd w2)) as [[r w3] ->]; [|by eexists].
  unfold replayFile. pose proof (fl_fstat laws fd w2) as Hst. destruct (os_fstat fd w2) as [[n|] w3]; destruct Hst as (_&Hc3&Hn); [|by eexists].
  cbn in Hn. destruct (readLoop_ends Hni fuel fd n [] w3) as [[rd w4] Er]; [cbn; rewrite Hn, Hc; lia|].
  rewrite Er. cbn [mbind option_bind]. apply readLoop_reads in Er as (_&_&Hb); [|apply prefix_nil|by rewrite Hc3].
  destruct rd as [|buf]; [by eexists|]. cbn in Hb. destruct (replay_sound buf) as (res&->&_); [rewrite Hb, Hc3, Hc; lia|by eexists].
Qed.

End LogFile.

(** ** A system that obeys the laws *)

Module LogFileSample.

(** What each open descriptor reads; every file holds [file] when it is opened, and
    a read gives at most seven bytes. *)
Local Abbreviation World := (gmap Fd (list byte)).

Definition content (fd : Fd) (w : World) : list byte := default [] (w !! fd).

Section Sample.
Context (file : list byte).

Definition os_open (path : list byte) (w : World) : option Fd * World :=
  let fd : Fd := fresh (dom w) in (Some fd, <[fd := file]> w).
Definition os_close (fd : Fd) (w : World) : World := delete fd w.
Definition os_fsync (fd : Fd) (w : World) : bool * World := (true, w).
Definition os_fstat (fd : Fd) (w : World) : option nat * World := (Some (length (content fd w)), w).
Definition os_pread (fd : Fd) (off n : nat) (w : World) : PreadResult * World :=
  (Got (take (n `min` 7) (drop off (content fd w))), w).
Definition os_ftruncate (fd : Fd) (n : nat) (w : World) : bool * World :=
  (true, alter (take n) fd w).

Lemma sample_file_laws : file_laws os_open os_close os_fsync os_fstat os_pread os_ftruncate dom content.
Proof.
  split.
  - intros path w. cbn. split; [apply is_fresh|]. by rewrite dom_insert_L.
  - intros path w fd Hfd. cbn. unfold content. rewrite lookup_insert_ne; [done|]. intros <-. by apply (is_fresh (dom w)) in Hfd.
  - intros fd w. apply dom_delete_L.
  - intros fd fd' w Hne. unfold content, os_close. by rewrite lookup_delete_ne.
  - done.
  - done.
  - done.
  - intros fd off n w. cbn. split_and!; [done|done|apply prefix_take|rewrite length_take; lia].
  - intros fd n w. cbn. split; [apply dom_alter_L|]. intros _. unfold content. rewrite lookup_alter_eq.
    destruct (w !! fd); cbn; [done|by rewrite take_nil].
Qed.

End Sample.

(** A file of one record and the first bytes of a second: the record is read, the
    rest is cut off, and one descriptor is open. *)
Lemma torn_log_opened : let es := [mkLogEntry 3 [x61; x62]] in
  let file := records 0 es ++ [x02; x00; x00] in
  DurableLog_new (os_open file) os_close os_fsync os_fstat os_pread os_ftruncate 40 (str "/data") ∅ =
    Some (inr (fresh (∅ : gset N), recovered es 3), {[fresh (∅ : gset N) := records 0 es]}).
Proof. by vm_compute. Qed.

End LogFileSample.
