(* ===== verification/AllocGate.v ===== *)
(** * src/metrics/alloc_gate.h: allocation accounting

    The counters behind the allocation tests, with [operator new] calling
    [onAlloc].  The counting code allocates itself, so [onAlloc] is called again
    from inside it; that nesting is explicit here. *)

From Stdlib Require Import NArith ZArith Strings.Byte Lia.
From stdpp Require Import functions.
From S2P Require Import Prelude.

Local Open Scope N_scope.

Abbreviation Tid := nat (only parsing).

(** The thread-locals of a thread, its [ThreadAllocStats] once it has one
    ([as_registered]) included. *)
Record AllocThread := mkAllocThread {
  as_in : bool;              (* inAllocGate *)
  as_depth : Z;              (* allocExemptDepth *)
  as_registered : bool;
  as_plumbing : N;
  as_retained : N;
  as_role : list byte;
}.

Record AllocState := mkAllocState {
  al_enabled : bool;                   (* allocCountingEnabled *)
  al_threads : Tid → AllocThread;
  al_all : list Tid;                   (* whose stats the registry holds *)
  al_locked : bool;                    (* the registry's mutex *)
}.

Definition AllocState_new : AllocState :=
  mkAllocState false (λ _, mkAllocThread false 0 false 0 0 []) [] false.

Definition on_thread (t : Tid) (f : AllocThread → AllocThread) (s : AllocState) : AllocState :=
  mkAllocState (al_enabled s) (<[t := f (al_threads s t)]> (al_threads s)) (al_all s) (al_locked s).

Definition set_in (b : bool) (x : AllocThread) : AllocThread :=
  mkAllocThread b (as_depth x) (as_registered x) (as_plumbing x) (as_retained x) (as_role x).
Definition set_lock (b : bool) (s : AllocState) : AllocState :=
  mkAllocState (al_enabled s) (al_threads s) (al_all s) b.

(** A call returns, waits for a mutex that nobody will release, or nests deeper
    than the fuel. *)
Inductive Outcome := Returns (s : AllocState) | Deadlock | TooDeep.

Definition obind (o : Outcome) (f : AllocState → Outcome) : Outcome :=
  match o with Returns s => f s | _ => o end.

(** The thread's stats are in its thread-locals; the registry gets a reference. *)
Definition registerThread (t : Tid) (s : AllocState) : AllocState :=
  let s := on_thread t (λ x, mkAllocThread (as_in x) (as_depth x) true (as_plumbing x) (as_retained x) (as_role x)) s in
  mkAllocState (al_enabled s) (al_threads s) (al_all s ++ [t]) (al_locked s).

(** [threadAllocStats]; [alloc] is what an allocation does.  The first use makes the
    object, and the registry's vector may have to grow. *)
Definition threadAllocStats (alloc : AllocState → Outcome) (t : Tid) (s : AllocState) : Outcome :=
  if as_registered (al_threads s t) then Returns s
  else obind (alloc s) (λ s,
    if al_locked s then Deadlock
    else obind (alloc (set_lock true s)) (λ s, Returns (set_lock false (registerThread t s)))).

(** The counter that one allocation goes to. *)
Definition charge (x : AllocThread) : AllocThread :=
  if (0 <? as_depth x)%Z
  then mkAllocThread (as_in x) (as_depth x) (as_registered x) (as_plumbing x) (add64 (as_retained x) 1) (as_role x)
  else mkAllocThread (as_in x) (as_depth x) (as_registered x) (add64 (as_plumbing x) 1) (as_retained x) (as_role x).

Fixpoint onAlloc (fuel : nat) (t : Tid) (s : AllocState) : Outcome :=
  match fuel with
  | O => TooDeep
  | S fuel =>
      if negb (al_enabled s) then Returns s
      else if as_in (al_threads s t) then Returns s
      else
        let s := on_thread t (set_in true) s in
        obind (threadAllocStats (onAlloc fuel t) t s) (λ s,
          Returns (on_thread t (λ x, set_in false (charge x)) s))
  end.

Definition setThreadAllocRole (fuel : nat) (t : Tid) (role : list byte) (s : AllocState) : Outcome :=
  let s := on_thread t (set_in true) s in
  obind (threadAllocStats (onAlloc fuel t) t s) (λ s,
    Returns (on_thread t (λ x, mkAllocThread false (as_depth x) (as_registered x) (as_plumbing x) (as_retained x) role) s)).

(** [AllocRetention] *)
Definition retention (d : Z) (t : Tid) (s : AllocState) : AllocState :=
  on_thread t (λ x, mkAllocThread (as_in x) (as_depth x + d) (as_registered x) (as_plumbing x) (as_retained x) (as_role x)) s.

(** [allocStatsSnapshot]: the vector is copied under the lock, and a copy of a
    vector with elements allocates. *)
Definition allocStatsSnapshot (fuel : nat) (t : Tid) (s : AllocState) : Outcome :=
  if al_locked s then Deadlock
  else
    let s := set_lock true s in
    obind (if bool_decide (al_all s = []) then Returns s else onAlloc fuel t s) (λ s, Returns (set_lock false s)).

(** ** The accounts are exact *)

Inductive AllocEvent :=
| AEnable (b : bool)
| AAlloc (t : Tid)                          (* an allocation of the program *)
| AEnter (t : Tid)                          (* an AllocRetention is constructed, *)
| ALeave (t : Tid)                          (* destroyed *)
| ARole (t : Tid) (role : list byte).

Definition alloc_step (o : Outcome) (ev : AllocEvent) : Outcome :=
  obind o (λ s,
    match ev with
    | AEnable b => Returns (mkAllocState b (al_threads s) (al_all s) (al_locked s))
    | AAlloc t => onAlloc 2 t s
    | AEnter t => Returns (retention 1 t s)
    | ALeave t => Returns (retention (-1) t s)
    | ARole t role => setThreadAllocRole 2 t role s
    end).

Definition alloc_run (evs : list AllocEvent) : Outcome := foldl alloc_step (Returns AllocState_new) evs.

(** What the events say: whether counting is on, how many retention scopes the
    thread is in, and its allocations counted inside and outside of them. *)
Definition account (t : Tid) (a : bool * Z * N * N) (ev : AllocEvent) : bool * Z * N * N :=
  let '(on, depth, inside, outside) := a in
  match ev with
  | AEnable b => (b, depth, inside, outside)
  | AAlloc t' => if bool_decide (t' = t) && on
                 then if (0 <? depth)%Z then (on, depth, add64 inside 1, outside) else (on, depth, inside, add64 outside 1)
                 else a
  | AEnter t' => if bool_decide (t' = t) then (on, depth + 1, inside, outside)%Z else a
  | ALeave t' => if bool_decide (t' = t) then (on, depth - 1, inside, outside)%Z else a
  | ARole _ _ => a
  end.

Definition accounts (t : Tid) (evs : list AllocEvent) : bool * Z * N * N := foldl (account t) (false, 0%Z, 0, 0) evs.

(** Between calls nobody is in the gate and the lock is free; the registry has the
    registered threads, each once; a counted thread is registered. *)
Record alloc_ok (s : AllocState) : Prop := {
  ao_in t : as_in (al_threads s t) = false;
  ao_free : al_locked s = false;
  ao_all t : t ∈ al_all s ↔ as_registered (al_threads s t) = true;
  ao_nodup : NoDup (al_all s);
}.

Definition agrees (s : AllocState) (t : Tid) (a : bool * Z * N * N) : Prop :=
  a = (al_enabled s, as_depth (al_threads s t), as_retained (al_threads s t), as_plumbing (al_threads s t)).

Lemma on_thread_eq t f s : al_threads (on_thread t f s) t = f (al_threads s t).
Proof. apply fn_lookup_insert. Qed.

Lemma on_thread_ne t t' f s : t ≠ t' → al_threads (on_thread t f s) t' = al_threads s t'.
Proof. intros. by apply fn_lookup_insert_ne. Qed.

Lemma onAlloc_S fuel t s : onAlloc (S fuel) t s =
  if negb (al_enabled s) then Returns s
  else if as_in (al_threads s t) then Returns s
  else obind (threadAllocStats (onAlloc fuel t) t (on_thread t (set_in true) s))
         (λ s, Returns (on_thread t (λ x, set_in false (charge x)) s)).
Proof. done. Qed.

(** Inside the gate an allocation is not counted, whatever the fuel. *)
Lemma onAlloc_inside fuel t s : as_in (al_threads s t) = true → onAlloc (S fuel) t s = Returns s.
Proof. intros H. cbn [onAlloc]. rewrite H. by destruct (al_enabled s). Qed.

(** So the first use of the stats does not recurse. *)
Lemma threadAllocStats_inside fuel t s : as_in (al_threads s t) = true → al_locked s = false →
  threadAllocStats (onAlloc (S fuel) t) t s =
    Returns (if as_registered (al_threads s t) then s else registerThread t s).
Proof.
  intros Hin Hl. unfold threadAllocStats. destruct (as_registered _) eqn:E; [done|].
  rewrite onAlloc_inside by done. cbn [obind]. rewrite Hl, onAlloc_inside by done. cbn [obind].
  unfold set_lock, registerThread, on_thread. cbn [al_enabled al_threads al_all al_locked]. by rewrite Hl.
Qed.

(** A thread goes into the gate, has its stats made if need be, and leaves the gate
    with [f]. *)
Definition through (t : Tid) (f : AllocThread → AllocThread) (s : AllocState) : AllocState :=
  let s := on_thread t (set_in true) s in
  on_thread t f (if as_registered (al_threads s t) then s else registerThread t s).

Lemma through_threads t f s t' : al_threads (through t f s) t' =
  if decide (t = t')
  then let x := al_threads s t in f (mkAllocThread true (as_depth x) true (as_plumbing x) (as_retained x) (as_role x))
  else al_threads s t'.
Proof.
  unfold through. set (s0 := on_thread t (set_in true) s). destruct (decide (t = t')) as [<-|Hne].
  - rewrite on_thread_eq. f_equal. assert (al_threads s0 t = set_in true (al_threads s t)) as E by apply on_thread_eq.
    destruct (as_registered (al_threads s0 t)) eqn:Er.
    + rewrite E in *. cbn [set_in as_registered] in Er. unfold set_in. by rewrite Er.
    + unfold registerThread. cbn [al_threads]. rewrite on_thread_eq, E. done.
  - rewrite on_thread_ne by done. unfold s0. destruct (as_registered _); unfold registerThread; cbn [al_threads]; by rewrite !on_thread_ne.
Qed.

Lemma through_rest t f s : al_enabled (through t f s) = al_enabled s ∧ al_locked (through t f s) = al_locked s ∧
  al_all (through t f s) = if as_registered (al_threads s t) then al_all s else al_all s ++ [t].
Proof.
  unfold through. rewrite on_thread_eq. cbn [set_in as_registered]. by destruct (as_registered _).
Qed.

Lemma through_ok t f s : (∀ x, as_in (f x) = false ∧ as_registered (f x) = as_registered x) → alloc_ok s → alloc_ok (through t f s).
Proof.
  intros Hf [Hin Hfree Hall Hnd]. destruct (through_rest t f s) as (_&Hl&Ha). split.
  - intros t'. rewrite through_threads. destruct (decide _); [apply Hf|apply Hin].
  - by rewrite Hl.
  - intros t'. rewrite through_threads, Ha. pose proof (Hall t') as Ht'. destruct (decide (t = t')) as [<-|Hne].
    + cbv zeta. rewrite (proj2 (Hf _)). cbn [as_registered]. split; [done|]. intros _.
      destruct (as_registered (al_threads s t)) eqn:Er; [by apply Hall|set_solver].
    + destruct (as_registered (al_threads s t)); [done|]. rewrite <-Ht'. set_solver.
  - rewrite Ha. destruct (as_registered (al_threads s t)) eqn:Er; [done|]. apply NoDup_app. split_and!; [done| |apply NoDup_singleton].
    intros x Hx ->%list_elem_of_singleton. apply Hall in Hx. congruence.
Qed.

Lemma onAlloc_through t s : alloc_ok s → onAlloc 2 t s =
  Returns (if al_enabled s then through t (λ x, set_in false (charge x)) s else s).
Proof.
  intros [Hin Hfree _ _]. rewrite onAlloc_S, Hin. destruct (al_enabled s) eqn:E; [|done]. cbn [negb]. cbv zeta.
  by rewrite threadAllocStats_inside; [|rewrite on_thread_eq|].
Qed.

Lemma setRole_through t role s : alloc_ok s → setThreadAllocRole 2 t role s =
  Returns (through t (λ x, mkAllocThread false (as_depth x) (as_registered x) (as_plumbing x) (as_retained x) role) s).
Proof.
  intros [Hin Hfree _ _]. unfold setThreadAllocRole. cbv zeta.
  by rewrite threadAllocStats_inside; [|rewrite on_thread_eq|].
Qed.

Lemma retention_ok d t s : alloc_ok s → alloc_ok (retention d t s).
Proof.
  intros [Hin Hfree Hall Hnd]. unfold retention. split; [| |intros t'|]; cbn [al_locked al_all on_thread]; [|done| |done].
  - intros t'. destruct (decide (t = t')) as [<-|]; [rewrite on_thread_eq; apply Hin|rewrite on_thread_ne by done; apply Hin].
  - rewrite Hall. destruct (decide (t = t')) as [<-|]; [by rewrite on_thread_eq|by rewrite on_thread_ne].
Qed.

Lemma charge_keeps x : as_in (set_in false (charge x)) = false ∧ as_registered (set_in false (charge x)) = as_registered x.
Proof. unfold charge. by destruct (_ <? _)%Z. Qed.

(** One event: the call returns, the invariant is kept, and the counters of every
    thread follow its account. *)
Lemma alloc_step_ok s ev : alloc_ok s → ∃ s', alloc_step (Returns s) ev = Returns s' ∧ alloc_ok s' ∧
  ∀ t a, agrees s t a → agrees s' t (account t a ev).
Proof.
  intros Hok. destruct ev as [b|t|t|t|t role]; cbn [alloc_step obind].
  - eexists. split_and!; [done|by destruct Hok|]. by intros t a ->.
  - rewrite onAlloc_through by done. eexists. split; [done|]. destruct (al_enabled s) eqn:E; cbv iota.
    + split; [by apply through_ok; [apply charge_keeps|]|]. intros t' a ->. unfold agrees, account. rewrite E, andb_true_r.
      destruct (through_rest t (λ x, set_in false (charge x)) s) as [-> _]. rewrite through_threads, E.
      case_bool_decide as Hb; [rewrite decide_True by done|by rewrite decide_False].
      subst t'. cbv zeta. unfold charge. cbn [as_depth]. by destruct (_ <? _)%Z.
    + split; [done|]. intros t' a ->. unfold agrees, account. by rewrite E, andb_false_r.
  - eexists. split_and!; [done|by apply retention_ok|]. intros t' a ->. unfold agrees, account, retention. cbn [al_enabled on_thread].
    case_bool_decide; [subst; by rewrite on_thread_eq|by rewrite on_thread_ne].
  - eexists. split_and!; [done|by apply retention_ok|]. intros t' a ->. unfold agrees, account, retention. cbn [al_enabled on_thread].
    case_bool_decide; [subst; by rewrite on_thread_eq|by rewrite on_thread_ne].
  - rewrite setRole_through by done. eexists. split_and!; [done|by apply through_ok|]. intros t' a ->. unfold agrees, account.
    destruct (through_rest t (λ x, mkAllocThread false (as_depth x) (as_registered x) (as_plumbing x) (as_retained x) role) s) as [-> _].
    rewrite through_threads. by destruct (decide (t = t')) as [<-|].
Qed.

(** The accounts are exact.  However the threads' allocations, retention scopes and
    roles are interleaved with counting being turned on and off, every call returns
    after at most one nested call; each thread's two counters are its own
    allocations while counting was on, inside and outside of its retention scopes,
    and the bookkeeping's own allocations are not among them; and the registry has
    every thread that has stats once. *)
Theorem alloc_accounting evs : ∃ s, alloc_run evs = Returns s ∧ NoDup (al_all s) ∧
  (∀ t, t ∈ al_all s ↔ as_registered (al_threads s t) = true) ∧ ∀ t, agrees s t (accounts t evs).
Proof.
  assert (∃ s, alloc_run evs = Returns s ∧ alloc_ok s ∧ ∀ t, agrees s t (accounts t evs)) as (s&?&[]&?); [|by exists s].
  unfold alloc_run, accounts. induction evs as [|ev evs IH] using rev_ind.
  - exists AllocState_new. split_and!; [done| |done]. split; [done|done| |constructor]. intros t. cbn. split; [by intros ?%not_elem_of_nil|done].
  - destruct IH as (s&E&Hok&Ha). rewrite foldl_app, E. destruct (alloc_step_ok s ev Hok) as (s'&E'&Hok'&Ha').
    exists s'. split_and!; [done|done|]. intros t. rewrite foldl_app. cbn [foldl]. by apply Ha'.
Qed.

(** A snapshot must not be taken while counting is on by a thread that has no stats
    yet: the copy allocates under the registry's lock, and making the stats takes
    that lock again. *)
Theorem snapshot_deadlocks fuel t s : alloc_ok s → al_enabled s = true → as_registered (al_threads s t) = false →
  al_all s ≠ [] → allocStatsSnapshot (S (S fuel)) t s = Deadlock.
Proof.
  intros [Hin Hfree _ _] He Hr Hne. unfold allocStatsSnapshot. rewrite Hfree. cbn [al_all set_lock]. rewrite bool_decide_eq_false_2 by done.
  rewrite onAlloc_S. cbn [set_lock al_enabled al_threads]. rewrite He, Hin. cbn [negb].
  unfold threadAllocStats. rewrite on_thread_eq. cbn [set_lock set_in as_registered al_threads]. rewrite Hr.
  rewrite onAlloc_inside by (by rewrite on_thread_eq). done.
Qed.
