(* ===== verification/BenchOutput.v ===== *)
(** * src/metrics/histogram.cpp, bench/rsm_bench_main.cpp, bench/phase7_bench.cpp:
    the text on the terminal, and the benchmark program as a whole *)

From Stdlib Require Import NArith ZArith Strings.Byte Lia Floats.SpecFloat.
From S2P Require Import Prelude Text Messages Log OrdMap NodeRuntime WakeGate SimNetwork FaultSchedule Histogram Numerals Json BenchReport PeerConfig NodeMain LoadGen BenchMonitor BenchTap BenchCluster RsmBench Phase7 Cli.

Local Open Scope N_scope.

(** ** metrics/histogram.cpp *)

(** [snprintf] into a buffer of [n] bytes. *)
Definition snprintf (n : nat) (t : list byte) : list byte := take (n - 1) t.

Definition fmtNs (ns : N) : list byte :=
  snprintf 32
    (if 1000000 <=? ns then fmt_f 2 (ddiv (to_double ns) (to_double 1000000)) ++ str "ms"
     else if 1000 <=? ns then fmt_f 1 (ddiv (to_double ns) (to_double 1000)) ++ str "us"
     else to_string ns ++ str "ns").

Definition q50 : double := of_decimal false 50 (-2).
Definition q90 : double := of_decimal false 90 (-2).
Definition q99 : double := of_decimal false 99 (-2).
Definition q999 : double := of_decimal false 999 (-3).
Definition q9999 : double := of_decimal false 9999 (-4).

Definition summarizeNs (h : LatencyHistogram) : list byte :=
  str "n=" ++ to_string (total_ h) ++ str " p50=" ++ fmtNs (valueAtQuantile q50 h) ++
  str " p90=" ++ fmtNs (valueAtQuantile q90 h) ++ str " p99=" ++ fmtNs (valueAtQuantile q99 h) ++
  str " p99.9=" ++ fmtNs (valueAtQuantile q999 h) ++ str " max=" ++ fmtNs (maxValue h).

(** ** rsm_bench_main.cpp: what is printed *)

(** Nanoseconds as microseconds with one digit. *)
Definition us1 (v : N) : list byte := fmt_f 1 (ddiv (to_double v) (to_double 1000)).

(** [%-14s] *)
Definition pad14 (t : list byte) : list byte := t ++ replicate (14 - length t) x20.

Definition printHist (name : list byte) (h : LatencyHistogram) : list (list byte) :=
  if total_ h =? 0 then []
  else [pad14 name ++ str " count=" ++ to_string (total_ h) ++ str " p50=" ++ us1 (valueAtQuantile q50 h) ++ str "us p99=" ++
        us1 (valueAtQuantile q99 h) ++ str "us p99.9=" ++ us1 (valueAtQuantile q999 h) ++ str "us p99.99=" ++
        us1 (valueAtQuantile q9999 h) ++ str "us max=" ++ us1 (maxValue h) ++ str "us"].

Definition configLine (o : Options) : list byte :=
  str "rsm_bench mode=" ++ c_str (op_mode o) ++ str " sm=" ++ smName (op_orderBook o) ++ str " seed=" ++ to_string (op_seed o) ++
  str " seconds=" ++ fmt_d (op_seconds o) ++ str " warmup=" ++ fmt_d (op_warmup o) ++ str " threads=" ++ fmt_d (op_threads o) ++
  str " rate=" ++ fmt_f 0 (op_rate o) ++ str " trials=" ++ fmt_d (op_trials o) ++ str " keys=" ++ fmt_d (op_keys o) ++
  str " value-bytes=" ++ fmt_d (op_valueBytes o) ++ str " data-base=" ++ c_str (op_dataBase o) ++ str " fsync=" ++
  fsyncName (op_fsync o) ++ str " wait=" ++ waitName (op_wait o) ++ str " batch=" ++ fmt_d (op_batch o) ++ str " linger-us=" ++
  fmt_d (op_lingerUs o) ++ str " pin=" ++ (if op_pin o then str "1" else str "0") ++ str " loss-pct=" ++ fmt_f 2 (op_lossPct o) ++
  str " partition=" ++ fmt_d (op_partitionPeriodMs o) ++ str "ms/" ++ fmt_d (op_partitionLenMs o) ++ str "ms label=" ++ c_str (op_label o).

Definition hostLine (m : MachineState) : list byte :=
  str "host: " ++ c_str (cpuModel m) ++ str " | " ++ fmt_d (cpus m) ++ str " cpus | governor=" ++ c_str (governors m) ++
  str " no_turbo=" ++ c_str (noTurbo m) ++ str " | " ++ c_str (kernel m) ++ str " | loadavg=" ++ fmt_f 2 (loadavg1 m) ++
  str " temp=" ++ fmt_d (maxTempC m) ++ str "C".

Definition offeredLines (o : Options) (d : RunData) : list (list byte) :=
  if bool_decide (op_mode o = str "open") then
    [str "offered: " ++ fmt_f 0 (op_rate o) ++ str "/s  achieved sends: " ++ fmt_f 0 (perWindow (gs_sends (rd_stats d)) o d) ++
     str "/s  mean lateness: " ++
     fmt_f 1 (if gs_sends (rd_stats d) =? 0 then dzero else ddiv (meanLateness (rd_stats d)) (to_double 1000)) ++
     str "us  max lateness: " ++ us1 (gs_maxSendLatenessNs (rd_stats d)) ++ str "us"]
  else [].

(** [maxT] is what the monitor says when the line is printed. *)
Definition resultLines (o : Options) (maxT : Term) (d : RunData) : list (list byte) :=
  [str "---"] ++ offeredLines o d ++
  [str "throughput: " ++ fmt_f 0 (perWindow (gs_oks (rd_stats d)) o d) ++ str " committed ops/s (" ++ to_string (gs_oks (rd_stats d)) ++
   str " oks, " ++ to_string (gs_failures (rd_stats d)) ++ str " failures, " ++ to_string (gs_abandoned (rd_stats d)) ++ str " abandoned)"] ++
  printHist (str "e2e(intended)") (gs_intended (rd_stats d)) ++ printHist (str "e2e(actual)") (gs_actual (rd_stats d)) ++
  printHist (str "commit") (rd_commit d) ++ printHist (str "failover") (rd_failover d) ++
  [str "elections: window=" ++ to_string (N.of_nat (electionsWindow d)) ++ str " total=" ++ to_string (N.of_nat (electionsTotal d)) ++
   str "  max term=" ++ to_string maxT ++ str "  log bytes=" ++ to_string (rd_dataBytes d) ++ str "  pins=" ++
   (if op_pin o then if rd_pinsApplied d then str "applied" else str "FAILED" else str "off")] ++
  (if valid o d then [] else [str "RUN INVALID: " ++ invalidReason o d]).

(** ** phase7_bench.cpp: what is printed *)

Definition p7Lines (o : P7Options) (s : P7Stats) : list (list byte) :=
  [str "phase7_bench runtime=" ++ (if p7_threaded o then str "threaded" else str "legacy") ++ str " wait=" ++ waitName (p7_wait o) ++
   str " batch=" ++ fmt_d (p7_batch o) ++ str " linger-us=" ++ fmt_d (p7_lingerUs o) ++ str " clients=" ++ fmt_d (p7_clients o) ++
   str " seconds=" ++ fmt_d (p7_seconds o) ++ str " warmup=" ++ fmt_d (p7_warmup o) ++ str " keys=" ++ fmt_d (p7_keys o) ++
   str " value-bytes=" ++ fmt_d (p7_valueBytes o) ++ str " data-base=" ++ c_str (p7_dataBase o) ++ str " fsync=" ++ fsyncName (p7_fsync o);
   str "throughput: " ++ fmt_f 0 (ddiv (to_double (p7s_ops s)) (to_double (Z.to_N (p7_seconds o)))) ++ str " ops/s (" ++
   to_string (p7s_ops s) ++ str " ops in " ++ fmt_d (p7_seconds o) ++ str "s, " ++ to_string (p7s_failures s) ++ str " failures)";
   str "latency:    " ++ summarizeNs (p7s_hist s)].

(** ** rsm_bench: the program *)

Section Main.
(** The driver's world, as in RsmBench.v; the load in the closed and open modes and
    what the load thread of the failover mode has measured when it is joined; the
    instruments read at the end, the monitor each time as that reading meets it. *)
Context {W : Type}.
Context (os_now : W → N * W) (os_sleep : N → W → W).
Context (leader : W → NodeId).
Context (readyProbe failoverProbe : W → bool * W).
Context (kill restart : NodeId → W → W).
Context (load : Options → N → N → N → W → GenStats * W).
Context (joined : Options → N → W → GenStats * W).
Context (capture : W → MachineState * W).
Context (commitHistogram_ : W → LatencyHistogram * W).
Context (reading : W → Reading * W) (pinsApplied : W → bool) (dataBytes : W → N).
Context (writeFile : list byte → list byte → bool).

Local Abbreviation awaitReadyFor := (awaitReadyFor os_now os_sleep leader readyProbe).
Local Abbreviation failoverTrials := (failoverTrials os_now os_sleep leader readyProbe failoverProbe kill restart).

(** The measuring: the end of the window, the statistics and the recovery times;
    [None] when the cluster did not recover before a trial. *)
Definition measure (fuel : nat) (o : Options) (t0 : N) (w : W) : option (N * GenStats * list N) * W :=
  let start := measureStart o t0 in
  if is_failover o then
    let '(done, times, _, w) := failoverTrials fuel (Z.to_nat (op_trials o)) w in
    let '(stats, w) := joined o start w in
    if done : bool then let '(now, w) := os_now w in (Some (measureEnd o t0 now, stats, times), w)
    else (None, w)
  else
    let '(stats, w) := load o t0 start (measureEnd o t0 0) w in
    (Some (measureEnd o t0 0, stats, []), w).

Definition collect (o : Options) (t0 : N) (machineStart : MachineState) (m : N * GenStats * list N) (w : W) : RunData :=
  let '(tEnd, stats, times) := m in
  let '(commit, w) := commitHistogram_ w in
  let '(r1, w) := reading w in
  let '(r2, w) := reading w in
  let '(r3, w) := reading w in
  let bytes := dataBytes w in
  let '(machineEnd, w) := capture w in
  let '(r4, w) := reading w in
  mkRunData machineStart machineEnd (measureStart o t0) tEnd stats commit (hist times)
    ((λ t, ddiv (to_double t) (to_double 1000000)) <$> times) (pinsApplied w) bytes
    (snapshotOf r1) (electionsAmong (measureStart o t0) tEnd (snapshotOf r2))
    (electionsAmong 0 (two64 - 1) (snapshotOf r3)) (maxTermAmong (two64 - 1) (snapshotOf r4)).

(** The exit code, with the data of a run that was measured. *)
Definition rsm_main (fuel : nat) (args : list (list byte)) (w : W) : Z * option RunData :=
  match rsmOptions args with
  | None => (2%Z, None)
  | Some o =>
      let '(machineStart, w) := capture w in
      let '(ready, w) := awaitReadyFor fuel 15 w in
      match ready with
      | None => (4%Z, None)
      | Some _ =>
          let '(t0, w) := os_now w in
          let '(m, w) := measure fuel o t0 w in
          match m with
          | None => (4%Z, None)
          | Some m => let d := collect o t0 machineStart m w in ((finish writeFile o d).2, Some d)
          end
      end
  end.

Lemma measure_window fuel o t0 w tEnd stats times w' : measure fuel o t0 w = (Some (tEnd, stats, times), w') →
  (length times ≤ Z.to_nat (op_trials o))%nat ∧ (is_failover o = false → tEnd = measureEnd o t0 0 ∧ times = []).
Proof.
  unfold measure. destruct (is_failover o) eqn:Ef.
  - pose proof (failover_one_down os_now os_sleep leader readyProbe failoverProbe kill restart fuel (Z.to_nat (op_trials o)) w) as Ht.
    destruct (failoverTrials _ _ w) as [[[done ts] moves] w1]. destruct Ht as (vs&_&_&Hl).
    destruct (joined _ _ w1) as [st w2]. destruct done; [|done]. destruct (os_now w2) as [now w3].
    intros [= _ _ <- _]. split; [lia|done].
  - destruct (load _ _ _ _ w) as [st w1]. intros [= <- _ <- _]. split; [cbn; lia|done].
Qed.

(** The exit code tells what happened: 2 exactly for a command line that is refused,
    4 when the cluster was not ready or the file not written, otherwise 0 or 3 by
    the verdict; and what a run reports was measured over the window asked for, with
    at most one recovery time per trial. *)
Theorem rsm_main_exit fuel args w :
  (rsmOptions args = None ↔ (rsm_main fuel args w).1 = 2%Z) ∧
  match rsm_main fuel args w with
  | (code, Some d) => ∃ o t0, rsmOptions args = Some o ∧ (code = 4 ∨ code = if valid o d then 0 else 3)%Z ∧
      rd_start d = measureStart o t0 ∧ (is_failover o = false → rd_end d = measureEnd o t0 0) ∧
      (length (rd_failoverMs d) ≤ Z.to_nat (op_trials o))%nat
  | (code, None) => code = 2%Z ∨ code = 4%Z
  end.
Proof.
  unfold rsm_main. destruct (rsmOptions args) as [o|]; [|split; [done|by left]].
  destruct (capture w) as [ms w1]. destruct (awaitReadyFor fuel 15 w1) as [[l|] w2]; [|split; [done|by right]].
  destruct (os_now w2) as [t0 w3]. destruct (measure fuel o t0 w3) as [[[[tEnd stats] times]|] w4] eqn:Em; [|split; [done|by right]].
  apply measure_window in Em as [Hl Hf]. unfold collect. destruct (commitHistogram_ w4) as [c w5].
  destruct (reading w5) as [r1 w6]. destruct (reading w6) as [r2 w7]. destruct (reading w7) as [r3 w8].
  destruct (capture w8) as [me w9]. destruct (reading w9) as [r4 w10].
  set (d := mkRunData _ _ _ _ _ _ _ _ _ _ _ _ _ _).
  assert ((finish writeFile o d).2 = 4 ∨ (finish writeFile o d).2 = if valid o d then 0 else 3)%Z as Hc.
  { unfold finish. case_bool_decide; [by right|]. cbv zeta. destruct (writeFile _ _); [by right|by left]. }
  split.
  - split; [intros [=]|]. cbn [fst]. destruct Hc as [-> | ->]; [done|by destruct (valid o d)].
  - exists o, t0. split_and!; [done|exact Hc|done|by intros [? _]%Hf|]. cbn [rd_failoverMs d]. by rewrite length_fmap.
Qed.

End Main.

(** ** Examples *)

Module OutputSample.

Lemma summary_text : summarizeNs (hist [850; 1500; 2500000]) = str "n=3 p50=1.5us p90=2.50ms p99=2.50ms p99.9=2.50ms max=2.50ms".
Proof. by vm_compute. Qed.

End OutputSample.
